(* ===== verification/_CoqProject ===== *)
-Q . S2P
Prelude.v
Identity.v
StateMaps.v
StateModel.v
Session.v
Keys.v
Snapshot.v
Routing.v
SemiAuto.v
Transitions.v
MessageGeneration.v
MessageSelection.v
MessageThrottle.v
JavaHash.v
Crush.v
ControllerRuntime.v
Etcd.v
Metadata.v
InputMarker.v
SessionStore.v
SessionRefinement.v
Queue.v
Watch.v
Participant.v
Workers.v
Lifecycle.v
Election.v
Writers.v
Reconcile.v
LeaderLoop.v
Process.v
Serving.v
Admin.v
Connection.v
Observe.v
Facade.v
Chaos.v
Minimizer.v
Minimize.v
Oracle.v
Supervisor.v
Faults.v
Waits.v
Execute.v
Harness.v
