(* ===== verification/Prelude.v ===== *)
(** * Clustodian verification library

    Clustodian is a cluster controller in the style of Apache Helix: resources
    are cut into partitions, every partition is replicated over instances, and a
    controller moves replicas along a state model (LeaderStandby: OFFLINE,
    STANDBY, LEADER, DROPPED) by sending state-transition messages to
    participants.  Everything is kept in etcd: metadata, participant sessions,
    reported states, the queue of messages and the election of the controller.
    This library models the planning core of the crate under [src/src] as
    functions, the coordination layer and the runtimes as programs over a store that
    other clients change at the same time, and the chaos tool that tests the whole
    under [src/tools/clustodian-chaos].

    ** The program and the files

    The leading controller takes a snapshot of the store, plans, and publishes
    the plan with one transaction that fails when the snapshot is out of date.
    One planning cycle runs through the stages below; every stage is a pure
    function of the snapshot.

    - [Prelude] (this file): Rust's [Result], loops that may leave with [?]
      ([try_fold]), panics and divergence ([stop]), [Ord] as a class with laws,
      stable sorting, [BTreeMap] as [gmap] with ordered iteration ([entries]),
      and the lemmas the other files share.
    - [Identity]: [model/identity.rs], [model/state.rs].  Validated identifiers,
      state names, transitions, cardinalities and their parser.
    - [StateMaps]: [model/replica_state.rs], [model/current_state.rs],
      [model/best_possible_state.rs], [model/external_view.rs],
      [model/ideal_state.rs], [controller/intermediate_state.rs].  The nested
      replica maps and the builder of a placement.
    - [StateModel]: [model/state_model.rs], [model/builtins.rs].  The builder of
      a state model, its checks and the all-pairs next-hop table.  The class
      [StateModelValid] is what this component promises to the planners, whose
      theorems are stated against it.
    - [Session]: [model/session.rs].  Participant sessions: connect, disconnect,
      expiry with carry-over, fenced publication; a step relation with its
      reachable states.
    - [Routing]: [routing/snapshot.rs].  Leader and replica queries.
    - [SemiAuto]: [rebalance/semi_auto.rs].  From preference lists to the best
      possible state.
    - [JavaHash], [Crush]: [rebalance/crush.rs].  FULL_AUTO placement: from live
      instances and fault zones to preference lists.
    - [Transitions]: [transition/*.rs].  The records that the stages exchange.
    - [MessageGeneration]: [controller/message_generation.rs].  The next hop of
      every replica that is off its target.
    - [MessageSelection]: [controller/message_selection.rs].  The candidates that
      fit the cardinality bounds of the state model.
    - [MessageThrottle]: [controller/message_throttle.rs].  Quotas and the state
      the cluster reaches once the dispatched transitions end.
    - [ControllerRuntime]: the planning half of [controller/runtime.rs].  Decoding
      of the configuration (JSON is a parameter), retained messages and the
      composition of all stages into the outputs of a cycle.

    Around it, the coordination layer:

    - [Keys], [Snapshot]: key layout, error values and decoding of a snapshot, from
      [coordination/etcd/mod.rs] and [coordination/etcd/session.rs].
    - [Etcd]: the interface to etcd, which is not part of the repository.  Requests
      are events of interaction trees; the class [EtcdLaws] states their documented
      effects, [mem_store] satisfies it, and [exec], [holds] and [commits] are the
      program logic.
    - [Metadata]: [coordination/etcd/metadata.rs].  Reads, compare-and-swap writes,
      fenced publication of a plan, the record of an expired lease.
    - [SessionStore]: the programs of [coordination/etcd/session.rs]; and
      [SessionRefinement], which relates them to the model of [Session].
    - [Queue]: the transition queue of [coordination/etcd/mod.rs].
    - [Election]: [election.rs].  The campaign, relinquishing, the writes a leader
      owns, the decisions of the keepalive task.
    - [InputMarker], [Writers]: the marker that tells whether the input of the
      controller has moved, and that every writer respects it.
    - [Watch]: [coordination/etcd/watch.rs].  The cursor of a subscription, its events
      and its resumption.

    The processes that run on it:

    - [Reconcile]: the reconcile loop of [controller/runtime.rs], from the snapshot
      to the publication.
    - [LeaderLoop]: [run_as_leader_until] of [controller/runtime.rs], the loop of a
      leader with its ticks, events, compactions and retries.
    - [Process]: [runtime.rs].  A controller process that campaigns, leads and campaigns
      again, and the events it reports.
    - [Participant]: [participant.rs].  The completion frontier, the scan of a queue
      image and the execution of one message.
    - [Workers]: the tasks of a participant and its loop as steps on the tables they
      share.
    - [Lifecycle], [Serving]: registration, keep-alive, drains, and [run_until] of a
      participant: its loop, [process_messages], and the tasks it spawns, which take the
      steps of [Workers] on the tables they share whenever the loop waits.

    What an application uses:

    - [Admin]: [admin.rs].  Instances, resources, throttles and limits in the store.
    - [Connection]: the configuration of [cluster.rs] and the connection options of
      [coordination/etcd/mod.rs].
    - [Observe]: [observe.rs].  Snapshots for observers and the waits on them.
    - [Facade]: the specifications, the administration facade and the builders of
      [cluster.rs].

    The chaos tool, which uses the crate and is modelled on top of it:

    - [Chaos]: the traces, the fault budget and the seeded generator of its [lib.rs],
      and the effects of the tool ([io]).
    - [Minimizer], [Minimize]: the reductions of [minimizer.rs], and the loops of
      [CandidateTester] in [main.rs] that search for a small trace that still fails.
    - [Oracle]: the safety, derived-state and convergence checks of [lib.rs], with the
      placement computed by [Crush] and [SemiAuto].
    - [Supervisor], [Faults], [Waits]: the processes, the faults and the waits of
      [lib.rs] and [main.rs], on a [Machine] that stands for the operating system.
    - [Execute], [Harness]: [apply_action] and the walk over a trace of [execute_trace],
      first on any [Stack], then on the one made of the three files above.  [schedule]
      computes from a trace alone what a run has to ask of the stack.

    ** What the theorems show

    - Placement: SEMI_AUTO assigns states greedily by priority and always
      succeeds, with exactly one LEADER per partition that has a live candidate;
      a sitting leader stays unless a more preferred replica is ready.  CRUSH
      gives every partition at most the wanted number of distinct live
      instances, of distinct fault zones, rejects exactly invalid inputs, and panics
      only for a replica count that no vector can hold.
    - Transitions: generation returns exactly the needed next hops and repeated
      rounds converge; selection keeps every cardinality bound, in particular a
      single LEADER; throttling keeps every quota, and dispatches everything when
      none is configured; the intermediate state is exactly the effect of what
      was dispatched.
    - State models: a model is accepted exactly when it is well formed, and its
      next-hop table holds first hops of shortest paths.
    - Sessions: reachable session states have one owner per session and one live
      session per instance; publication is fenced by the live session, expiry
      carries the replicas over reset to the initial state, and records of other
      sessions are invisible.
    - Planning: every message of a cycle is addressed to the live session of its
      instance, at most one promotion to LEADER is under way per partition, and
      the external view is what the active sessions report.
    - Publication: the protocol with its retries is one atomic step, under the
      fence, or nothing; what a cycle publishes is the plan of the input, queue,
      sessions and leadership of that very revision, and it succeeds when nobody
      interferes.  It rests on the input marker, which all writers keep honest.
    - Sessions and queue on etcd: registration and publication refine the session
      model; claims have a linearization point and no effect; a completion removes
      the message and records the state in one step, at most once; appends and
      watermarks are atomic.
    - Election: leadership is taken only when it is vacant and no candidate is
      older; relinquishing touches own records only; the keepalive task notices a
      lost lease in bounded time; and an election whose answer is lost blocks the
      candidate, a defect of the code.
    - Controller processes: a leader writes only while the active key is its own,
      wherever it is cut off; a process follows the automaton of its phases.
    - Watches: a subscription hands out every change once and in order across
      resumptions; one on a namespace is blind after it, a defect of the code.
    - Participants: a handler is called at most once per message and only for a legal
      hop of the live session; at most one transition of a partition is in progress;
      a run is one session after another: tasks are spawned in the name of the session
      held, all of them are joined before the next session is registered, and a run
      that returns has joined every task and revoked the lease of its last session.
      A late observation can stop the watermark, a defect of the code.
    - Applications: changes of the configuration are atomic; applying a specification
      installs it, and what is written decodes to what was specified; an observed view
      routes like the published one; a wait returns what it read, and does so once it
      has caught up with its namespace.  When the last write of the store was to another
      namespace it cannot tell, a defect of the code.
    - Chaos tool: generated traces can be run and recover what they stop; a run asks the
      stack for exactly what the admitted faults and actions of its trace ask for, and
      checks a snapshot after every action; when an action is done no proxy of the
      machine has a toxic and none of its processes is stopped; quiescence is claimed after a stable interval only; the safety check is
      exact; minimization ends in a trace that cannot be reduced, unless raising a
      parameter is accepted, and then it can go on for ever, a defect of the code.
    - Data: builders enforce well-formedness, key segments round-trip.

    ** Conventions, bounds and fuel

    Strings are their UTF-8 bytes, so the derived order is that of
    [String.compare].  Machine integers are [N], [nat] or [Z] with the width
    written out where an operation can leave it.  Rust's [while] loops are
    structural where the source loops over a list; otherwise they take fuel, and
    the number used is proved to be enough: the priority loop of SEMI_AUTO (its
    iterator shrinks), the doubling of the hash table (28 doublings reach the
    width of [u32]), the padding of SHA-1 (at most 63 bytes) and the retries of
    CRUSH (ten attempts).  The draw of a CRUSH node is the exception: it loops
    until the hash reaches a free child, which no bound in the code limits, so
    its fuel is an argument, the theorems hold for all values of it, more fuel
    never changes a result, and totality is proved where the code bounds the
    loop itself (one replica in a flat topology).  [f64::powf] is a parameter
    because its precision is unspecified.

    The retry loops of the coordination layer recurse on the attempts left, from
    the constants of the source, and end with its [Contention] error.  The
    unbounded loops of an election are [ITree.iter].  A theorem about a program
    holds for every execution: other clients take any number of steps of [env]
    between two requests (arbitrary etcd requests, unless a theorem says more),
    every request may fail before or after it took effect, and a [tokio::select!]
    may take any branch.  Failpoints are empty functions outside the test
    features of the crate and have no counterpart.

    The loops of the minimizer take fuel that the termination theorem bounds by a
    measure of the trace.  The waits of the chaos tool sleep for a fixed time in every
    turn, so their fuel is the timeout divided by it, and more fuel changes nothing.

    ** What is not modelled

    - etcd, its client and its transport: the interface [Etcd] stands for them.
    - JSON: serde_json is a parameter, with its round trips as hypotheses where a
      theorem needs them; likewise [Debug] escaping in error texts, [Serialize] and
      [Debug] impls.
    - Of the participant runtime, the tokens that cancel handlers and the adapters that
      run handlers on threads, and the tasks aborted when the loop fails; of the facade, constructors that only wrap a value.
    - Of the chaos tool, the set-up of a run from environment variables, the commands
      [run], [replay], [minimize], [crash-matrix] and [quorum-loss] around it, argument
      parsing, failure artifacts and the metrics read from [/proc]: they call what is
      modelled here and write files.
    - The conformance tool, which drives an external process and compares its output
      with fixtures, the examples and the tests. *)

From stdpp Require Export base tactics list gmap strings sorting countable option numbers pretty.

(** ** Results of fallible code

    Rust's [Result<A, E>]; [?] is the bind below. *)
Inductive result (A E : Type) : Type :=
| Ok (a : A)
| Err (e : E).
Arguments Ok {A E} a.
Arguments Err {A E} e.

Declare Scope result_scope.
Delimit Scope result_scope with result.
Open Scope result_scope.

Notation "'let?' x := c 'in' k" :=
  (match c with Ok x => k | Err e => Err e end)
  (at level 10, x name, c at level 200, k at level 200,
   format "'[hv' let?  x  :=  c  in  '/' k ']'") : result_scope.

Definition is_ok {A E} (r : result A E) : bool :=
  match r with Ok _ => true | Err _ => false end.

Definition map_err {A E F} (f : E → F) (r : result A E) : result A F :=
  match r with Ok a => Ok a | Err e => Err (f e) end.

Definition map_ok {A B E} (f : A → B) (r : result A E) : result B E :=
  match r with Ok a => Ok (f a) | Err e => Err e end.

(** A [for] loop whose body may leave the function with [?]. *)
Fixpoint try_fold {S X E} (f : S → X → result S E) (s : S) (l : list X) : result S E :=
  match l with
  | [] => Ok s
  | x :: l => let? s' := f s x in try_fold f s' l
  end.

(** Code that can also panic (an index out of bounds, an [expect] on [None]) or
    loop: [Diverged] is a loop that has used up its fuel. *)
Inductive stop (E : Type) : Type :=
| Raise (e : E)
| Panicked
| Diverged.
Arguments Raise {E} e.
Arguments Panicked {E}.
Arguments Diverged {E}.

Definition expect {A E} (o : option A) : result A (stop E) :=
  match o with Some a => Ok a | None => Err Panicked end.

(** ** Machine integers

    [usize], [u64] and [u32] values are kept as [N] with the width written
    out at the operations that can leave it. *)
Definition usize_MAX : N := 18446744073709551615.
Definition u64_MAX : N := 18446744073709551615.
Definition u32_MAX : N := 4294967295.

Definition checked_add_u64 (a b : N) : option N :=
  if (a + b <=? u64_MAX)%N then Some (a + b)%N else None.

Definition len {A} (l : list A) : N := N.of_nat (length l).

(** ** Total orders: Rust's [Ord] *)
Class RustOrd (K : Type) := rust_cmp : K → K → comparison.

Class RustOrdLaws (K : Type) `{RustOrd K} := {
  rust_cmp_eq : ∀ x y : K, rust_cmp x y = Eq ↔ x = y;
  rust_cmp_opp : ∀ x y : K, rust_cmp y x = CompOpp (rust_cmp x y);
  rust_cmp_trans : ∀ x y z : K,
    rust_cmp x y = Lt → rust_cmp y z = Lt → rust_cmp x z = Lt
}.

Definition key_lt {K} `{RustOrd K} (x y : K) : Prop := rust_cmp x y = Lt.
Definition key_leb {K} `{RustOrd K} (x y : K) : bool :=
  match rust_cmp x y with Gt => false | _ => true end.

#[export] Instance ord_N : RustOrd N := N.compare.
#[export] Instance ord_Z : RustOrd Z := Z.compare.
#[export] Instance ord_nat : RustOrd nat := Nat.compare.
#[export] Instance ord_string : RustOrd string := String.compare.
#[export] Instance ord_prod {A B} `{RustOrd A, RustOrd B} : RustOrd (A * B) :=
  λ x y, match rust_cmp x.1 y.1 with Eq => rust_cmp x.2 y.2 | c => c end.
(** [Option]: [None] sorts before every [Some]. *)
#[export] Instance ord_option {A} `{RustOrd A} : RustOrd (option A) :=
  λ x y, match x, y with
         | None, None => Eq
         | None, Some _ => Lt
         | Some _, None => Gt
         | Some a, Some b => rust_cmp a b
         end.

(** Lexicographic continuation: [Ordering::then_with]. *)
Definition then_with (c : comparison) (k : comparison) : comparison :=
  match c with Eq => k | _ => c end.

(** ** Stable sorting: [slice::sort_by]

    Insertion keeps an element in front of the equal ones that followed it,
    which is the stability Rust's [sort_by] and [sort_by_key] guarantee. *)
Fixpoint sort_insert {A} (le : A → A → bool) (x : A) (l : list A) : list A :=
  match l with
  | [] => [x]
  | y :: l' => if le x y then x :: y :: l' else y :: sort_insert le x l'
  end.

Definition stable_sort {A} (le : A → A → bool) (l : list A) : list A :=
  foldr (sort_insert le) [] l.

Definition cmp_leb (c : comparison) : bool :=
  match c with Gt => false | _ => true end.

Definition sort_by {A} (cmp : A → A → comparison) (l : list A) : list A :=
  stable_sort (λ x y, cmp_leb (cmp x y)) l.

Definition sort_by_key {A K} `{RustOrd K} (key : A → K) (l : list A) : list A :=
  stable_sort (λ x y, key_leb (key x) (key y)) l.

(** ** [BTreeMap] and [BTreeSet]

    A [BTreeMap<K, V>] is a [gmap K V]; what the code observes of the tree
    beyond lookups is the order of its iterators, which is the key order. *)
Definition entries {K V} `{Countable K, RustOrd K} (m : gmap K V) : list (K * V) :=
  stable_sort (λ p q, key_leb p.1 q.1) (map_to_list m).

Definition map_keys {K V} `{Countable K, RustOrd K} (m : gmap K V) : list K :=
  (entries m).*1.

Definition map_values {K V} `{Countable K, RustOrd K} (m : gmap K V) : list V :=
  (entries m).*2.

Definition set_items {K} `{Countable K, RustOrd K} (s : gset K) : list K :=
  stable_sort key_leb (elements s).

(** [iter().collect::<BTreeMap<_, _>>()]: a later pair replaces an earlier one. *)
Definition btree_collect {K V} `{Countable K} (l : list (K * V)) : gmap K V :=
  foldl (λ m p, <[p.1 := p.2]> m) ∅ l.

(** [map.entry(k).or_default().push(v)] for every element of a list. *)
Definition push_entry {K V} `{Countable K} (m : gmap K (list V)) (k : K) (v : V)
  : gmap K (list V) :=
  <[k := default [] (m !! k) ++ [v]]> m.

Definition group_by {K V} `{Countable K} (key : V → K) (l : list V) : gmap K (list V) :=
  foldl (λ m v, push_entry m (key v) v) ∅ l.

(** [iter().position(p)] *)
Fixpoint position {A} (p : A → bool) (l : list A) : option N :=
  match l with
  | [] => None
  | x :: l => if p x then Some 0%N else N.succ <$> position p l
  end.

(** [iter().find(p)] *)
Definition find_first {A} (p : A → bool) (l : list A) : option A := List.find p l.

Definition count_if {A} (p : A → bool) (l : list A) : nat :=
  length (List.filter p l).

(** ** Strings

    A Rust [String] is the sequence of its UTF-8 bytes. *)

(** [str::split('/')]: the components between the separators. *)
Fixpoint split_slash (s : string) : list string :=
  match s with
  | EmptyString => [""%string]
  | String c s =>
      if (Ascii.N_of_ascii c =? 47)%N then ""%string :: split_slash s
      else match split_slash s with
           | component :: rest => String c component :: rest
           | [] => [String c EmptyString]
           end
  end.

(** [str::strip_prefix] *)
Fixpoint strip_prefix (prefix s : string) : option string :=
  match prefix, s with
  | EmptyString, _ => Some s
  | String a prefix, String b s => if bool_decide (a = b) then strip_prefix prefix s else None
  | String _ _, EmptyString => None
  end.

(** [str::starts_with] *)
Definition starts_with (prefix s : string) : bool := bool_decide (is_Some (strip_prefix prefix s)).

(** [str::ends_with]: some suffix is the text. *)
Fixpoint ends_with (suffix s : string) : bool :=
  String.eqb s suffix || match s with EmptyString => false | String _ s => ends_with suffix s end.

(** [iter().map(f).collect::<Result<Vec<_>, _>>()] *)
Definition collect_results {A B E} (f : A → result B E) (l : list A) : result (list B) E :=
  try_fold (λ acc x, let? y := f x in Ok (acc ++ [y])) [] l.

(** [Option::or] *)
Definition or_else {A} (o d : option A) : option A :=
  match o with Some _ => o | None => d end.

(** * Shared lemmas *)

(** ** Tactics *)

(** Run a hypothesis [body = Ok _] forward through its binds. *)
Ltac inv_ok H :=
  repeat (match type of H with
          | match ?c with Ok _ => _ | Err _ => _ end = _ =>
              let E := fresh "Hok" in destruct c eqn:E; [|discriminate H]
          | (if ?c then Err _ else _) = Ok _ =>
              let E := fresh "Hif" in destruct c eqn:E; [discriminate H|]
          | (if ?c then _ else Err _) = Ok _ =>
              let E := fresh "Hif" in destruct c eqn:E; [|discriminate H]
          | match ?c with Some _ => Err _ | None => _ end = Ok _ =>
              let E := fresh "Hopt" in destruct c eqn:E; [discriminate H|]
          | match ?c with Some _ => _ | None => Err _ end = Ok _ =>
              let E := fresh "Hopt" in destruct c eqn:E; [|discriminate H]
          end; simpl in H).

(** Turn every [bool_decide] and boolean connective of the context into
    propositions. *)
Ltac reflect_bools :=
  repeat match goal with
  | H : bool_decide _ = true |- _ => apply bool_decide_eq_true_1 in H
  | H : bool_decide _ = false |- _ => apply bool_decide_eq_false_1 in H
  | H : _ && _ = true |- _ => apply andb_true_iff in H as [? ?]
  | H : _ || _ = false |- _ => apply orb_false_iff in H as [? ?]
  | H : negb _ = true |- _ => apply negb_true_iff in H
  | H : negb _ = false |- _ => apply negb_false_iff in H
  | H : (_ <? _)%N = true |- _ => apply N.ltb_lt in H
  | H : (_ <? _)%N = false |- _ => apply N.ltb_ge in H
  | H : (_ <=? _)%N = true |- _ => apply N.leb_le in H
  | H : (_ <=? _)%N = false |- _ => apply N.leb_gt in H
  | H : (_ =? _)%N = true |- _ => apply N.eqb_eq in H
  | H : (_ =? _)%N = false |- _ => apply N.eqb_neq in H
  end.

Lemma bool_decide_if_iff {A} (P Q : Prop) `{Decision P, Decision Q} (x y : A) :
  (P ↔ Q) → (if bool_decide P then x else y) = (if bool_decide Q then x else y).
Proof. intros HPQ. by rewrite (bool_decide_ext P Q HPQ). Qed.

(** ** Loops that may fail *)

(** A loop that returns [Ok] preserves what each of its steps preserves. *)
Lemma try_fold_ind {S X E} (f : S → X → result S E) (P : S → Prop) l s s' :
  P s →
  (∀ t x t', x ∈ l → P t → f t x = Ok t' → P t') →
  try_fold f s l = Ok s' → P s'.
Proof.
  revert s. induction l as [|x l IH]; intros s Hs Hstep Hrun; simpl in Hrun.
  - by simplify_eq.
  - destruct (f s x) as [t|] eqn:Hf; [|done].
    eapply IH; [eapply Hstep; [left|done|done]| |done].
    intros; eapply Hstep; [right|..]; done.
Qed.

(** A loop none of whose steps fails under an invariant does not fail. *)
Lemma try_fold_total {S X E} (f : S → X → result S E) (P : list X → S → Prop) l s :
  P l s →
  (∀ x r t, P (x :: r) t → ∃ t', f t x = Ok t' ∧ P r t') →
  ∃ s', try_fold f s l = Ok s' ∧ P [] s'.
Proof.
  intros Hs Hstep. revert s Hs. induction l as [|x l IH]; intros s Hs; simpl.
  - by exists s.
  - destruct (Hstep _ _ _ Hs) as (t & -> & Ht). by apply IH.
Qed.

Lemma try_fold_app {S X E} (f : S → X → result S E) l1 l2 s :
  try_fold f s (l1 ++ l2) = let? t := try_fold f s l1 in try_fold f t l2.
Proof.
  revert s. induction l1 as [|x l1 IH]; intros s; simpl; [done|].
  destruct (f s x); [apply IH|done].
Qed.

Lemma try_fold_ext {S X E} (f g : S → X → result S E) l s :
  (∀ t x, x ∈ l → f t x = g t x) → try_fold f s l = try_fold g s l.
Proof.
  revert s. induction l as [|x l IH]; intros s Hfg; simpl; [done|].
  rewrite Hfg by left. destruct (g s x); [|done]. apply IH.
  intros t y Hy. apply Hfg. by right.
Qed.

Lemma try_fold_fmap {S X Y E} (f : S → Y → result S E) (g : X → Y) l s :
  try_fold f s (g <$> l) = try_fold (λ t x, f t (g x)) s l.
Proof.
  revert s. induction l as [|x l IH]; intros s; simpl; [done|].
  destruct (f s (g x)); [apply IH|done].
Qed.

(** Nested loops are one loop over the flattened elements. *)
Lemma try_fold_bind {S X Y E} (f : S → Y → result S E) (h : X → list Y) l s :
  try_fold (λ t x, try_fold f t (h x)) s l = try_fold f s (l ≫= h).
Proof.
  revert s. induction l as [|x l IH]; intros s; simpl; [done|].
  rewrite try_fold_app. destruct (try_fold f s (h x)); [apply IH|done].
Qed.

(** A failing loop fails in one of its steps. *)
Lemma try_fold_err {S X E} (f : S → X → result S E) l s e :
  try_fold f s l = Err e → ∃ t x, x ∈ l ∧ f t x = Err e.
Proof.
  revert s. induction l as [|x l IH]; intros s; simpl; [done|].
  destruct (f s x) as [t|e'] eqn:Hf.
  - intros (u & y & Hy & Hu)%IH. exists u, y. split; [by right|done].
  - intros [= ->]. exists s, x. split; [left|done].
Qed.

(** A loop that only checks: it succeeds when every element passes. *)
Lemma try_fold_check {X E} (f : unit → X → result unit E) l :
  try_fold f tt l = Ok tt ↔ ∀ x, x ∈ l → f tt x = Ok tt.
Proof.
  induction l as [|x l IH]; simpl.
  - split; [intros _ x Hx; by apply elem_of_nil in Hx|done].
  - destruct (f tt x) as [[]|] eqn:Hf.
    + rewrite IH. setoid_rewrite elem_of_cons. naive_solver.
    + split; [done|]. intros Hall. rewrite Hall in Hf by left. done.
Qed.

(** A loop that cannot fail, with the elements already handled. *)
Lemma foldl_processed {S X} (f : S → X → S) (P : list X → S → Prop) l s :
  P [] s →
  (∀ done x t, x ∈ l → P done t → P (done ++ [x]) (f t x)) →
  P l (foldl f s l).
Proof.
  intros Hs Hstep.
  assert (∀ r done t, (∀ x, x ∈ r → x ∈ l) → P done t → P (done ++ r) (foldl f t r)) as Hgen.
  { induction r as [|x r IH]; intros done t Hin Ht; simpl; [by rewrite app_nil_r|].
    rewrite (app_assoc done [x] r : done ++ x :: r = (done ++ [x]) ++ r).
    apply IH; [intros; apply Hin; by right|]. apply Hstep; [apply Hin; left|done]. }
  by apply (Hgen l [] s).
Qed.

Lemma foldl_nested {S X Y} (f : S → X → Y → S) (l1 : list X) (l2 : list Y) s :
  foldl (λ t x, foldl (λ u y, f u x y) t l2) s l1 =
  foldl (λ t p, f t p.1 p.2) s (list_prod l1 l2).
Proof.
  revert s. induction l1 as [|x l1 IH]; intros s; simpl; [done|].
  rewrite foldl_app, IH. f_equal. generalize l2 as l. intros l. revert s.
  induction l as [|y l IHl]; intros s; simpl; [done|]. apply IHl.
Qed.

Lemma try_fold_omap {S X Y E} (f : S → Y → result S E) (g : X → option Y) l s :
  try_fold (λ t x, match g x with Some y => f t y | None => Ok t end) s l = try_fold f s (omap g l).
Proof.
  revert s. induction l as [|x l IH]; intros s; [done|]. cbn [try_fold omap list_omap].
  destruct (g x) as [y|]; [|apply IH]. cbn [try_fold]. destruct (f s y); [apply IH|done].
Qed.

Lemma collect_results_ok {A B E} (f : A → result B E) l ys :
  collect_results f l = Ok ys ↔ Forall2 (λ x y, f x = Ok y) l ys.
Proof.
  unfold collect_results.
  assert (∀ acc, try_fold (λ acc x, let? y := f x in Ok (acc ++ [y])) acc l = Ok ys ↔
            ∃ zs, ys = acc ++ zs ∧ Forall2 (λ x y, f x = Ok y) l zs) as Hgen.
  { induction l as [|x l IH]; intros acc; cbn [try_fold].
    - split; [intros [= <-]; exists []; by rewrite app_nil_r|].
      intros (zs & -> & Hz). inversion Hz. by rewrite app_nil_r.
    - destruct (f x) as [y|] eqn:Hf.
      + rewrite IH. split.
        * intros (zs & -> & Hz). exists (y :: zs). rewrite <-app_assoc. split; [done|]. by constructor.
        * intros (zs & -> & Hz). inversion Hz as [|? y' ? zs' Hy]; subst.
          rewrite Hf in Hy. injection Hy as ->. exists zs'. by rewrite <-app_assoc.
      + split; [done|]. intros (zs & _ & Hz). inversion Hz as [|???? Hy]. congruence. }
  rewrite Hgen. split; [intros (zs & -> & ?); done|]. by exists ys.
Qed.

(** Where no element fails, the results are those of the elements. *)
Lemma collect_results_total {A B E} (f : A → result B E) l :
  (∀ x, x ∈ l → ∃ y, f x = Ok y) →
  ∃ ys, collect_results f l = Ok ys ∧ ∀ y, y ∈ ys ↔ ∃ x, x ∈ l ∧ f x = Ok y.
Proof.
  intros Hf. assert (∃ ys, Forall2 (λ x y, f x = Ok y) l ys ∧ ∀ y, y ∈ ys ↔ ∃ x, x ∈ l ∧ f x = Ok y)
    as (ys & Hys & Hin).
  { induction l as [|x l IH]; [exists []; split; [constructor|set_solver]|].
    destruct (Hf x) as [y Hy]; [left|]. destruct IH as (ys & Hys & Hin); [set_solver|].
    exists (y :: ys). split; [by constructor|]. intros z. rewrite elem_of_cons, Hin. split.
    - intros [->|(x' & ? & ?)]; [exists x|exists x']; set_solver.
    - intros (x' & [->|?]%elem_of_cons & Hz); [left; congruence|right; eauto]. }
  exists ys. split; [by apply collect_results_ok|done].
Qed.

(** ** Orders *)

#[export] Instance ord_N_laws : RustOrdLaws N.
Proof.
  split; unfold rust_cmp, ord_N.
  - intros. apply N.compare_eq_iff.
  - intros. apply N.compare_antisym.
  - intros x y z. rewrite !N.compare_lt_iff. lia.
Qed.

#[export] Instance ord_Z_laws : RustOrdLaws Z.
Proof.
  split; unfold rust_cmp, ord_Z.
  - intros. apply Z.compare_eq_iff.
  - intros. apply Z.compare_antisym.
  - intros x y z. rewrite !Z.compare_lt_iff. lia.
Qed.

#[export] Instance ord_nat_laws : RustOrdLaws nat.
Proof.
  split; unfold rust_cmp, ord_nat.
  - intros. apply Nat.compare_eq_iff.
  - intros. apply Nat.compare_antisym.
  - intros x y z. rewrite !Nat.compare_lt_iff. lia.
Qed.

Lemma ascii_compare_refl a : Ascii.compare a a = Eq.
Proof. unfold Ascii.compare. apply N.compare_refl. Qed.

Lemma ascii_compare_trans a b c :
  Ascii.compare a b = Lt → Ascii.compare b c = Lt → Ascii.compare a c = Lt.
Proof. unfold Ascii.compare. rewrite !N.compare_lt_iff. lia. Qed.

Lemma string_compare_refl s : String.compare s s = Eq.
Proof. induction s as [|a s IH]; simpl; [done|]. by rewrite ascii_compare_refl. Qed.

Lemma string_compare_trans x y z :
  String.compare x y = Lt → String.compare y z = Lt → String.compare x z = Lt.
Proof.
  revert x z. induction y as [|b y IH]; intros [|a x] [|c z]; simpl; try done.
  destruct (Ascii.compare a b) eqn:Hab; try done;
  destruct (Ascii.compare b c) eqn:Hbc; try done.
  - apply Ascii.compare_eq_iff in Hab as ->, Hbc as ->.
    rewrite ascii_compare_refl. apply IH.
  - apply Ascii.compare_eq_iff in Hab as ->. by rewrite Hbc.
  - apply Ascii.compare_eq_iff in Hbc as ->. by rewrite Hab.
  - by rewrite (ascii_compare_trans _ _ _ Hab Hbc).
Qed.

#[export] Instance ord_string_laws : RustOrdLaws string.
Proof.
  split; unfold rust_cmp, ord_string.
  - intros x y. split; [apply String.compare_eq_iff|intros ->; apply string_compare_refl].
  - intros x y. apply String.compare_antisym.
  - apply string_compare_trans.
Qed.

Section ord_facts.
Context {K : Type} `{RustOrdLaws K}.

Lemma rust_cmp_refl (x : K) : rust_cmp x x = Eq.
Proof. by apply rust_cmp_eq. Qed.

Lemma key_lt_irrefl (x : K) : ¬ key_lt x x.
Proof. unfold key_lt. by rewrite rust_cmp_refl. Qed.

#[export] Instance key_lt_trans : Transitive (@key_lt K _).
Proof. intros x y z. apply rust_cmp_trans. Qed.

Lemma key_leb_spec (x y : K) : key_leb x y = true ↔ x = y ∨ key_lt x y.
Proof.
  unfold key_leb, key_lt. rewrite <-rust_cmp_eq.
  destruct (rust_cmp x y); intuition congruence.
Qed.

Lemma key_leb_total (x y : K) : key_leb x y = true ∨ key_leb y x = true.
Proof.
  unfold key_leb. rewrite (rust_cmp_opp x y).
  destruct (rust_cmp x y); simpl; auto.
Qed.

Lemma key_leb_trans (x y z : K) :
  key_leb x y = true → key_leb y z = true → key_leb x z = true.
Proof.
  rewrite !key_leb_spec. intros [->|Hxy] [->|Hyz]; auto.
  right. by etrans.
Qed.

Lemma key_leb_antisym (x y : K) : key_leb x y = true → key_leb y x = true → x = y.
Proof.
  rewrite !key_leb_spec. intros [->|Hxy] [?|Hyx]; try done.
  destruct (key_lt_irrefl x). by etrans.
Qed.
End ord_facts.

(** An order read through an injective key, as [derive(Ord)] gives newtypes. *)
Lemma proj_ord_laws {A K} `{RustOrdLaws K} (f : A → K) (OA : RustOrd A) :
  (∀ x y, rust_cmp x y = rust_cmp (f x) (f y)) →
  Inj (=) (=) f → RustOrdLaws A.
Proof.
  intros Hf ?. split; intros *; rewrite ?Hf.
  - rewrite rust_cmp_eq. split; [apply (inj f)|by intros ->].
  - apply rust_cmp_opp.
  - apply rust_cmp_trans.
Qed.

Lemma cmp_prod {A B} `{RustOrd A, RustOrd B} (x y : A * B) :
  rust_cmp x y = match rust_cmp x.1 y.1 with Eq => rust_cmp x.2 y.2 | c => c end.
Proof. done. Qed.

#[export] Instance ord_prod_laws {A B} `{RustOrdLaws A, RustOrdLaws B} :
  RustOrdLaws (A * B).
Proof.
  split; [intros [a b] [a' b']|intros [a b] [a' b']|intros [a b] [a' b'] [a'' b'']];
    rewrite !cmp_prod; simpl.
  - destruct (rust_cmp a a') eqn:E.
    + apply rust_cmp_eq in E as ->. rewrite rust_cmp_eq. naive_solver.
    + split; [done|]. intros [= -> ->]. by rewrite rust_cmp_refl in E.
    + split; [done|]. intros [= -> ->]. by rewrite rust_cmp_refl in E.
  - rewrite (rust_cmp_opp a a'), (rust_cmp_opp b b'). by destruct (rust_cmp a a').
  - destruct (rust_cmp a a') eqn:E1; try done; destruct (rust_cmp a' a'') eqn:E2; try done.
    + apply rust_cmp_eq in E1 as ->. apply rust_cmp_eq in E2 as ->.
      rewrite rust_cmp_refl. apply rust_cmp_trans.
    + apply rust_cmp_eq in E1 as ->. by rewrite E2.
    + apply rust_cmp_eq in E2 as ->. by rewrite E1.
    + by rewrite (rust_cmp_trans _ _ _ E1 E2).
Qed.

#[export] Instance ord_option_laws {A} `{RustOrdLaws A} : RustOrdLaws (option A).
Proof.
  split; unfold rust_cmp, ord_option; intros [x|] [y|]; try (intros [z|]); try done.
  - rewrite rust_cmp_eq. split; [by intros ->|by intros [= ->]].
  - apply rust_cmp_opp.
  - apply rust_cmp_trans.
Qed.

(** ** Stable sorting *)

Lemma sort_insert_perm {A} (le : A → A → bool) x l : sort_insert le x l ≡ₚ x :: l.
Proof.
  induction l as [|y l IH]; simpl; [done|].
  destruct (le x y); [done|]. rewrite IH. constructor.
Qed.

Lemma stable_sort_perm {A} (le : A → A → bool) l : stable_sort le l ≡ₚ l.
Proof. induction l as [|x l IH]; simpl; [done|]. by rewrite sort_insert_perm, IH. Qed.

Lemma elem_of_stable_sort {A} (le : A → A → bool) (l : list A) x :
  x ∈ stable_sort le l ↔ x ∈ l.
Proof. by rewrite stable_sort_perm. Qed.

Lemma length_stable_sort {A} (le : A → A → bool) (l : list A) :
  length (stable_sort le l) = length l.
Proof. by rewrite stable_sort_perm. Qed.

Lemma NoDup_stable_sort {A} (le : A → A → bool) (l : list A) :
  NoDup (stable_sort le l) ↔ NoDup l.
Proof. by rewrite stable_sort_perm. Qed.

(** Elements that do not order among each other keep their places. *)
Lemma filter_stable_sort {A} (le : A → A → bool) (p : A → bool) l :
  (∀ x y, p x = true → p y = true → le x y = true) →
  List.filter p (stable_sort le l) = List.filter p l.
Proof.
  intros Hle. induction l as [|x l IH]; [done|].
  change (stable_sort le (x :: l)) with (sort_insert le x (stable_sort le l)).
  transitivity (List.filter p (x :: stable_sort le l)); [|cbn; by rewrite IH]. clear IH.
  induction (stable_sort le l) as [|y ys IH]; [done|]. cbn. destruct (le x y) eqn:Hxy; [done|].
  cbn. rewrite IH. cbn. destruct (p x) eqn:Hx, (p y) eqn:Hy; try done. by rewrite Hle in Hxy.
Qed.

Section sorted.
Context {A : Type} (le : A → A → bool).
Context (le_total : ∀ x y, le x y = true ∨ le y x = true).
Context (le_trans : ∀ x y z, le x y = true → le y z = true → le x z = true).

Lemma sort_insert_sorted x l :
  StronglySorted (λ a b, le a b = true) l →
  StronglySorted (λ a b, le a b = true) (sort_insert le x l).
Proof.
  induction 1 as [|y l Hs IH Hall]; simpl; [by repeat constructor|].
  destruct (le x y) eqn:Hxy; constructor; try done.
  - by constructor.
  - constructor; [done|]. eapply Forall_impl; [done|]. intros z ?. by eapply le_trans.
  - rewrite sort_insert_perm. constructor; [|done].
    destruct (le_total x y); congruence.
Qed.

Lemma stable_sort_sorted l : StronglySorted (λ a b, le a b = true) (stable_sort le l).
Proof. induction l; simpl; [constructor|]. by apply sort_insert_sorted. Qed.

Lemma stable_sort_id l :
  StronglySorted (λ a b, le a b = true) l → stable_sort le l = l.
Proof.
  induction 1 as [|x l Hs IH Hall]; simpl; [done|]. rewrite IH.
  destruct l as [|y l]; simpl; [done|]. apply Forall_cons in Hall as [-> _]. done.
Qed.

Lemma sort_insert_comm x y l :
  (le x y = true → le y x = false) → sort_insert le x (sort_insert le y l) = sort_insert le y (sort_insert le x l).
Proof.
  intros Hstrict. assert (le x y = negb (le y x)) as Hxy.
  { destruct (le_total x y) as [Hx|Hy]; [by rewrite Hx, Hstrict|]. destruct (le x y); [|by rewrite Hy].
    by rewrite Hstrict in Hy. }
  induction l as [|z l IH]; cbn; [rewrite Hxy; by destruct (le y x)|].
  pose proof (le_trans x y z) as T1. pose proof (le_trans y x z) as T2.
  destruct (le y z) eqn:Hyz, (le x z) eqn:Hxz; cbn; rewrite ?Hyz, ?Hxz; [| | |by rewrite IH];
    destruct (le x y) eqn:E1, (le y x) eqn:E2; cbn; rewrite ?Hyz, ?Hxz; try done; naive_solver.
Qed.

(** An element unlike those after it may as well come last. *)
Lemma stable_sort_move x l1 l2 :
  Forall (λ y, le x y = true → le y x = false) l2 → stable_sort le (l1 ++ x :: l2) = stable_sort le (l1 ++ l2 ++ [x]).
Proof.
  intros Hl2. unfold stable_sort. rewrite !(foldr_app _ _ _ l1). f_equal. induction Hl2 as [|y l2 Hy _ IH]; [done|].
  cbn [foldr app]. rewrite <-IH. by apply sort_insert_comm.
Qed.
End sorted.

(** ** [BTreeMap] and [BTreeSet] *)

Section btree.
Context {K : Type} `{Countable K, OK : RustOrd K, !RustOrdLaws K} {V : Type}.
Implicit Types m : gmap K V.

Lemma entries_perm m : entries m ≡ₚ map_to_list m.
Proof. apply stable_sort_perm. Qed.

Lemma elem_of_entries m k v : (k, v) ∈ entries m ↔ m !! k = Some v.
Proof. by rewrite entries_perm, elem_of_map_to_list. Qed.

Lemma elem_of_entries' m p : p ∈ entries m ↔ m !! p.1 = Some p.2.
Proof. destruct p. apply elem_of_entries. Qed.

Lemma NoDup_map_keys m : NoDup (map_keys m).
Proof. unfold map_keys. rewrite entries_perm. apply NoDup_fst_map_to_list. Qed.

Lemma NoDup_entries m : NoDup (entries m).
Proof. rewrite entries_perm. apply NoDup_map_to_list. Qed.

Lemma elem_of_map_keys m k : k ∈ map_keys m ↔ is_Some (m !! k).
Proof.
  unfold map_keys. rewrite list_elem_of_fmap. split.
  - intros ([k' v] & -> & Hin). apply elem_of_entries in Hin. eauto.
  - intros [v Hv]. exists (k, v). by rewrite elem_of_entries.
Qed.

Lemma elem_of_map_keys_dom m k : k ∈ map_keys m ↔ k ∈ dom m.
Proof. by rewrite elem_of_map_keys, elem_of_dom. Qed.

Lemma elem_of_map_values m v : v ∈ map_values m ↔ ∃ k, m !! k = Some v.
Proof.
  unfold map_values. rewrite list_elem_of_fmap. split.
  - intros ([k v'] & -> & Hin). apply elem_of_entries in Hin. eauto.
  - intros [k Hk]. exists (k, v). by rewrite elem_of_entries.
Qed.

Lemma length_entries m : length (entries m) = size m.
Proof. rewrite entries_perm. apply length_map_to_list. Qed.

Lemma entries_empty : entries (∅ : gmap K V) = [].
Proof. unfold entries. by rewrite map_to_list_empty. Qed.

(** Iteration is in strictly increasing key order. *)
Lemma map_keys_sorted m : StronglySorted key_lt (map_keys m).
Proof.
  assert (StronglySorted (λ a b : K * V, key_leb a.1 b.1 = true) (entries m)) as Hs.
  { apply stable_sort_sorted; intros.
    - apply key_leb_total.
    - by eapply key_leb_trans. }
  pose proof (NoDup_map_keys m) as Hnd. revert Hs Hnd. unfold map_keys.
  generalize (entries m) as l. induction 1 as [|x l Hs IH Hall]; simpl; [constructor|].
  rewrite NoDup_cons. intros [Hx Hnd]. constructor; [by apply IH|].
  rewrite Forall_fmap. apply Forall_forall. intros y Hy.
  rewrite Forall_forall in Hall. specialize (Hall y Hy).
  apply key_leb_spec in Hall as [Heq|?]; [|done].
  destruct Hx. rewrite Heq. by apply list_elem_of_fmap_2.
Qed.

Lemma elem_of_set_items (s : gset K) k : k ∈ set_items s ↔ k ∈ s.
Proof. unfold set_items. by rewrite elem_of_stable_sort, elem_of_elements. Qed.

Lemma NoDup_set_items (s : gset K) : NoDup (set_items s).
Proof. unfold set_items. rewrite NoDup_stable_sort. apply NoDup_elements. Qed.

Lemma length_set_items (s : gset K) : length (set_items s) = size s.
Proof. unfold set_items. by rewrite length_stable_sort. Qed.
End btree.

(** A loop that inserts one pair for some of its elements: the result holds
    the pairs of the elements, when equal keys come with equal values. *)
Lemma try_fold_collect {K V X E} `{Countable K} (step : gmap K V → X → result (gmap K V) E)
    (f : X → option (K * V)) (l : list X) (m : gmap K V) :
  (∀ x, x ∈ l → ∀ t, step t x = Ok (match f x with Some p => <[p.1 := p.2]> t | None => t end)) →
  (∀ x y p q, x ∈ l → y ∈ l → f x = Some p → f y = Some q → p.1 = q.1 → p = q) →
  ∃ m', try_fold step m l = Ok m' ∧
    ∀ k v, m' !! k = Some v ↔
      (∃ x, x ∈ l ∧ f x = Some (k, v)) ∨
      (m !! k = Some v ∧ ∀ x w, x ∈ l → f x ≠ Some (k, w)).
Proof.
  intros Hstep Hfun. induction l as [|x l IH] using rev_ind.
  - exists m. split; [done|]. intros k v. split; [|intros [(x & Hx & _)|[? _]]].
    + intros ?. right. split; [done|]. intros x w Hx. by apply elem_of_nil in Hx.
    + by apply elem_of_nil in Hx.
    + done.
  - destruct IH as (t & Ht & Hspec).
    { intros y Hy. apply Hstep. set_solver. }
    { intros y z p q Hy Hz. apply Hfun; set_solver. }
    rewrite try_fold_app, Ht. simpl. rewrite Hstep by set_solver. eexists. split; [done|].
    intros k v. destruct (f x) as [[a b]|] eqn:Hx; simpl.
    + destruct (decide (a = k)) as [->|Hne].
      * rewrite lookup_insert_eq. split.
        -- intros [= ->]. left. exists x. split; [set_solver|done].
        -- intros [(y & Hy & Hfy)|[_ Hno]].
           ++ f_equal. by assert ((k, b) = (k, v)) as [= ->] by (eapply (Hfun x y); set_solver).
           ++ by destruct (Hno x b); [set_solver|].
      * rewrite lookup_insert_ne, Hspec by done. split.
        -- intros [(y & Hy & Hfy)|[Hm Hno]]; [left; exists y; set_solver|right].
           split; [done|]. intros y w [Hy|Hy%list_elem_of_singleton]%elem_of_app; [by apply Hno|].
           subst. congruence.
        -- intros [(y & [Hy|Hy%list_elem_of_singleton]%elem_of_app & Hfy)|[Hm Hno]].
           ++ left. by exists y.
           ++ congruence.
           ++ right. split; [done|]. intros y w Hy. apply Hno. set_solver.
    + rewrite Hspec. split.
      * intros [(y & Hy & Hfy)|[Hm Hno]]; [left; exists y; set_solver|right].
        split; [done|]. intros y w [Hy|Hy%list_elem_of_singleton]%elem_of_app; [by apply Hno|].
        congruence.
      * intros [(y & [Hy|Hy%list_elem_of_singleton]%elem_of_app & Hfy)|[Hm Hno]].
        -- left. by exists y.
        -- congruence.
        -- right. split; [done|]. intros y w Hy. apply Hno. set_solver.
Qed.

Lemma foldl_fmap {S X Y} (f : S → Y → S) (g : X → Y) l s :
  foldl f s (g <$> l) = foldl (λ t x, f t (g x)) s l.
Proof. revert s. induction l as [|x l IH]; intros s; simpl; [done|]. apply IH. Qed.

Lemma foldl_bind {S X Y} (f : S → Y → S) (h : X → list Y) l s :
  foldl (λ t x, foldl f t (h x)) s l = foldl f s (l ≫= h).
Proof.
  revert s. induction l as [|x l IH]; intros s; simpl; [done|]. by rewrite foldl_app, IH.
Qed.

Lemma foldl_ext {S X} (f g : S → X → S) l s :
  (∀ t x, x ∈ l → f t x = g t x) → foldl f s l = foldl g s l.
Proof.
  revert s. induction l as [|x l IH]; intros s Hfg; simpl; [done|].
  rewrite Hfg by left. apply IH. intros t y Hy. apply Hfg. by right.
Qed.

(** A loop of inserts over distinct keys. *)
Lemma foldl_insert_lookup {K V} `{Countable K} (l : list (K * V)) (m : gmap K V) k :
  NoDup l.*1 →
  foldl (λ m p, <[p.1 := p.2]> m) m l !! k =
    match (list_to_map l : gmap K V) !! k with Some v => Some v | None => m !! k end.
Proof.
  revert m. induction l as [|[k' v'] l IH]; intros m Hnd; simpl; [by rewrite lookup_empty|].
  simpl in Hnd. apply NoDup_cons in Hnd as [Hk Hnd]. rewrite IH by done.
  destruct (decide (k' = k)) as [->|Hne].
  - rewrite lookup_insert_eq. by rewrite not_elem_of_list_to_map_1, lookup_insert_eq.
  - by rewrite !lookup_insert_ne.
Qed.

(** Rebuilding a map by inserting its entries. *)
Lemma foldl_insert_entries {K V} `{Countable K, RustOrd K, !RustOrdLaws K} (m : gmap K V) :
  foldl (λ t p, <[p.1 := p.2]> t) ∅ (entries m) = m.
Proof.
  apply map_eq. intros k. rewrite foldl_insert_lookup by apply NoDup_map_keys.
  rewrite lookup_empty. rewrite (list_to_map_proper (entries m) (map_to_list m)).
  - rewrite list_to_map_to_list. by destruct (m !! k).
  - apply NoDup_map_keys.
  - apply entries_perm.
Qed.

Lemma foldl_insert_entries_fn {K V W} `{Countable K, RustOrd K, !RustOrdLaws K}
    (g : K → V → W) (m : gmap K V) :
  foldl (λ t p, <[p.1 := g p.1 p.2]> t) ∅ (entries m) = map_imap (λ k v, Some (g k v)) m.
Proof.
  apply map_eq. intros k.
  rewrite <-(foldl_fmap (λ t p, <[p.1 := p.2]> t) (λ p, (p.1, g p.1 p.2))).
  assert (((λ p, (p.1, g p.1 p.2)) <$> entries m).*1 = map_keys m) as Hk.
  { unfold map_keys. rewrite <-list_fmap_compose. by apply list_fmap_ext. }
  rewrite foldl_insert_lookup by (rewrite Hk; apply NoDup_map_keys).
  rewrite lookup_empty, map_lookup_imap.
  destruct (m !! k) as [v|] eqn:Hm; simpl.
  - rewrite (elem_of_list_to_map_1 _ k (g k v)); [done|rewrite Hk; apply NoDup_map_keys|].
    apply list_elem_of_fmap. exists (k, v). by rewrite elem_of_entries.
  - rewrite not_elem_of_list_to_map_1; [done|]. rewrite Hk, elem_of_map_keys, Hm. by intros [].
Qed.

(** The last entry is the one with the greatest key. *)
Lemma last_entries {K V} `{Countable K, RustOrd K, !RustOrdLaws K} (m : gmap K V) k v :
  m !! k = Some v → (∀ k', is_Some (m !! k') → k' = k ∨ key_lt k' k) →
  last (entries m) = Some (k, v).
Proof.
  intros Hk Hmax. destruct (last (entries m)) as [[k' v']|] eqn:Hl.
  - pose proof Hl as (l & Hl')%last_Some.
    assert (m !! k' = Some v') as Hk' by (apply elem_of_entries; rewrite Hl'; set_solver).
    destruct (decide (k' = k)) as [->|Hne]; [congruence|].
    destruct (Hmax k') as [?|Hlt]; [eauto|done|].
    pose proof (map_keys_sorted m) as Hs. unfold map_keys in Hs.
    rewrite Hl', fmap_app in Hs. assert ((k, v) ∈ l) as Hin.
    { apply elem_of_entries in Hk. rewrite Hl' in Hk. set_solver. }
    exfalso. apply (key_lt_irrefl k). etrans; [|exact Hlt].
    apply StronglySorted_app_1_elem_of with (x1 := k) (x2 := k') in Hs; [done| |left].
    by apply (list_elem_of_fmap_2 fst l (k, v)).
  - apply last_None in Hl. apply elem_of_entries in Hk. rewrite Hl in Hk.
    by apply elem_of_nil in Hk.
Qed.

Lemma elem_of_imap_pair {A} (l : list A) i x : (i, x) ∈ imap pair l ↔ l !! i = Some x.
Proof.
  rewrite elem_of_lookup_imap. split; [intros (j & y & [= -> ->] & ?); done|]. eauto.
Qed.

Lemma group_by_lookup {K V} `{Countable K} (key : V → K) (l : list V) k :
  group_by key l !! k =
    match filter (λ v, key v = k) l with [] => None | vs => Some vs end.
Proof.
  induction l as [|v l IH] using rev_ind; [apply lookup_empty|].
  unfold group_by in *. rewrite foldl_snoc, filter_app. unfold push_entry at 1.
  destruct (decide (key v = k)) as [<-|Hne].
  - rewrite lookup_insert_eq, (filter_cons_True _ v) by done. simpl.
    rewrite IH. by destruct (filter _ l).
  - rewrite lookup_insert_ne, IH by done.
    rewrite (filter_cons_False _ v) by done. simpl. by rewrite app_nil_r.
Qed.

Lemma group_by_Some {K V} `{Countable K} (key : V → K) (l : list V) k vs :
  group_by key l !! k = Some vs → vs = filter (λ v, key v = k) l ∧ vs ≠ [].
Proof. rewrite group_by_lookup. case_match; naive_solver. Qed.

Lemma group_by_None {K V} `{Countable K} (key : V → K) (l : list V) k :
  group_by key l !! k = None ↔ ∀ v, v ∈ l → key v ≠ k.
Proof.
  rewrite group_by_lookup. split.
  - intros Hn v Hv Hk. assert (v ∈ filter (λ v, key v = k) l) as Hin
      by by apply list_elem_of_filter. destruct (filter _ l); [by apply elem_of_nil in Hin|done].
  - intros Hall. assert (filter (λ v, key v = k) l = []) as ->; [|done].
    destruct (filter _ l) as [|v vs] eqn:E; [done|].
    assert (v ∈ filter (λ v, key v = k) l) as Hin by (rewrite E; left).
    apply list_elem_of_filter in Hin as [Hk Hin]. by destruct (Hall v Hin).
Qed.

Lemma filter_all_id {A} (P : A → Prop) `{∀ x, Decision (P x)} (l : list A) :
  Forall P l → filter P l = l.
Proof. induction 1 as [|x l Hx _ IH]; [done|]. by rewrite filter_cons_True, IH. Qed.

Lemma filter_none {A} (P : A → Prop) `{∀ x, Decision (P x)} (l : list A) :
  Forall (λ x, ¬ P x) l → filter P l = [].
Proof. induction 1 as [|x l Hx _ IH]; [done|]. by rewrite filter_cons_False. Qed.

Lemma filter_ext_in {A} (P Q : A → Prop) `{∀ x, Decision (P x), ∀ x, Decision (Q x)} (l : list A) :
  (∀ x, x ∈ l → P x ↔ Q x) → filter P l = filter Q l.
Proof.
  induction l as [|x l IH]; intros Hiff; [done|]. rewrite !filter_cons, IH.
  - assert (P x ↔ Q x) by (apply Hiff; left). repeat case_decide; naive_solver.
  - intros y Hy. apply Hiff. by right.
Qed.

Lemma filter_split_key {K V} `{EqDecision K} (key : V → K) k ks (l : list V) :
  k ∉ ks →
  filter (λ v, key v ∈ k :: ks) l ≡ₚ filter (λ v, key v = k) l ++ filter (λ v, key v ∈ ks) l.
Proof.
  intros Hk. induction l as [|v l IH]; [done|]. rewrite !filter_cons.
  destruct (decide (key v ∈ k :: ks)) as [Hin|Hin], (decide (key v = k)) as [He|He],
    (decide (key v ∈ ks)) as [Hs|Hs]; try set_solver; simpl; rewrite IH; try done.
  by rewrite Permutation_middle.
Qed.

(** Regrouping a list by its keys permutes it. *)
Lemma group_concat_perm {K V} `{EqDecision K} (key : V → K) ks (l : list V) :
  NoDup ks → (∀ v, v ∈ l → key v ∈ ks) → (ks ≫= λ k, filter (λ v, key v = k) l) ≡ₚ l.
Proof.
  intros Hnd Hall. transitivity (filter (λ v, key v ∈ ks) l).
  - clear Hall. induction Hnd as [|k ks Hk Hnd IH]; simpl.
    + by rewrite filter_none by (apply Forall_forall; set_solver).
    + rewrite filter_split_key by done. by apply Permutation_app_head.
  - rewrite filter_all_id; [done|]. by apply Forall_forall.
Qed.

(** ** Searching lists *)

Lemma position_Some {A} (p : A → bool) l n :
  position p l = Some n →
  ∃ x, l !! N.to_nat n = Some x ∧ p x = true ∧
       ∀ i y, (i < N.to_nat n)%nat → l !! i = Some y → p y = false.
Proof.
  revert n. induction l as [|x l IH]; intros n; simpl; [done|].
  destruct (p x) eqn:Hp.
  - intros [= <-]. exists x. split_and!; [done..|]. intros; simpl in *; lia.
  - destruct (position p l) as [k|] eqn:Hk; [|done]. intros [= <-].
    destruct (IH k eq_refl) as (y & Hy & Hpy & Hlt).
    exists y. rewrite N2Nat.inj_succ. split_and!; [done..|].
    intros [|i] z Hi Hz; simpl in *; [by simplify_eq|]. apply (Hlt i z); [lia|done].
Qed.

Lemma position_None {A} (p : A → bool) l :
  position p l = None ↔ ∀ x, x ∈ l → p x = false.
Proof.
  induction l as [|x l IH]; simpl.
  - split; [intros _ x Hx; by apply elem_of_nil in Hx|done].
  - destruct (p x) eqn:Hp.
    + split; [done|]. intros Hall. assert (p x = false); [|congruence].
      apply Hall. left.
    + rewrite fmap_None, IH. split.
      * intros Hall y [->|Hy]%elem_of_cons; auto.
      * intros Hall y Hy. apply Hall. by right.
Qed.

Lemma position_lt {A} (p : A → bool) l n : position p l = Some n → (n < len l)%N.
Proof.
  intros (x & Hx & _)%position_Some. apply lookup_lt_Some in Hx. unfold len. lia.
Qed.

Lemma find_first_Some {A} (p : A → bool) l x :
  find_first p l = Some x → x ∈ l ∧ p x = true.
Proof. intros Hf. apply List.find_some in Hf as [? ?]. by rewrite list_elem_of_In. Qed.

Lemma find_first_None {A} (p : A → bool) l :
  find_first p l = None → ∀ x, x ∈ l → p x = false.
Proof. intros Hf x Hx. eapply List.find_none; [done|]. by apply list_elem_of_In. Qed.

Create HintDb clustodian.
Create Rewrite HintDb clustodian.
#[export] Hint Resolve NoDup_map_keys NoDup_entries NoDup_set_items map_keys_sorted : clustodian.
#[export] Hint Rewrite @elem_of_stable_sort @elem_of_set_items @length_stable_sort
  @length_set_items @length_entries : clustodian.

(** ** Maps and lists built by loops *)

Lemma list_to_map_entries {K V} `{Countable K, RustOrd K, !RustOrdLaws K} (m : gmap K V) :
  list_to_map (entries m) = m.
Proof.
  rewrite (list_to_map_proper (entries m) (map_to_list m));
    [apply list_to_map_to_list|apply NoDup_map_keys|apply entries_perm].
Qed.

(** A loop that updates the entry of every key of a map once. *)
Lemma foldl_update_lookup {K V W} `{Countable K} (upd : W → V → W) (d : W)
    (l : list (K * V)) (m : gmap K W) k :
  NoDup l.*1 →
  foldl (λ m '(k, v), <[k := upd (default d (m !! k)) v]> m) m l !! k =
    match (list_to_map l : gmap K V) !! k with
    | Some v => Some (upd (default d (m !! k)) v)
    | None => m !! k
    end.
Proof.
  revert m. induction l as [|[k' v'] l IH]; intros m Hnd; simpl; [by rewrite lookup_empty|].
  simpl in Hnd. apply NoDup_cons in Hnd as [Hk Hnd]. rewrite IH by done.
  destruct (decide (k' = k)) as [->|Hne].
  - rewrite lookup_insert_eq. rewrite not_elem_of_list_to_map_1 by done. by rewrite lookup_insert_eq.
  - by rewrite !lookup_insert_ne by done.
Qed.

(** Inserting only the keys that pass a test. *)
Lemma foldl_guarded_insert {K V} `{Countable K} (skip : K → bool) (l : list (K * V))
    (m : gmap K V) k :
  NoDup l.*1 →
  foldl (λ m '(k, v), if skip k then m else <[k := v]> m) m l !! k =
    or_else (if skip k then None else (list_to_map l : gmap K V) !! k) (m !! k).
Proof.
  revert m. induction l as [|[k' v'] l IH]; intros m Hnd; simpl.
  { rewrite lookup_empty. by destruct (skip k). }
  simpl in Hnd. apply NoDup_cons in Hnd as [Hk Hnd]. rewrite IH by done.
  destruct (decide (k' = k)) as [->|Hne].
  - rewrite lookup_insert_eq, not_elem_of_list_to_map_1 by done.
    destruct (skip k); [done|]. by rewrite lookup_insert_eq.
  - rewrite lookup_insert_ne by done. destruct (skip k'); [done|]. by rewrite lookup_insert_ne.
Qed.

Lemma alter_lookup_Some {A} (f : A → A) k i (l : list A) x :
  l !! i = Some x → alter f k l !! i = Some (if decide (i = k) then f x else x).
Proof.
  intros Hx. rewrite list_lookup_alter.
  destruct (decide (k = i)) as [->|]; [|by rewrite decide_False by congruence].
  by rewrite Hx, decide_True.
Qed.

Lemma NoDup_fmap_inj_on {A B} (f : A → B) (l : list A) x y :
  NoDup (f <$> l) → x ∈ l → y ∈ l → f x = f y → x = y.
Proof.
  intros Hnd [i Hi]%list_elem_of_lookup [j Hj]%list_elem_of_lookup Heq.
  assert (i = j) as ->; [|congruence].
  eapply NoDup_lookup; [exact Hnd|by rewrite list_lookup_fmap, Hi|].
  by rewrite list_lookup_fmap, Hj, Heq.
Qed.

Lemma NoDup_fmap_Forall2 {A B C} (R : A → B → Prop) (f : B → C) l k :
  Forall2 R l k → NoDup l →
  (∀ x x' y y', R x y → R x' y' → f y = f y' → x = x') → NoDup (f <$> k).
Proof.
  intros HR Hnd Hinj. induction HR as [|x y l k Hxy HR IH]; [constructor|].
  apply NoDup_cons in Hnd as [Hx Hnd]. rewrite fmap_cons. apply NoDup_cons. split; [|by apply IH].
  intros (y' & Hf & Hy')%list_elem_of_fmap.
  apply list_elem_of_lookup in Hy' as [i Hi]. destruct (Forall2_lookup_r _ _ _ _ _ HR Hi) as (x' & Hx' & Hr).
  apply Hx. rewrite (Hinj x x' y y') by done. by apply list_elem_of_lookup_2 in Hx'.
Qed.

(** A list is without repetition when its set is as large as the list. *)
Lemma size_set_NoDup {A} `{Countable A} (l : list A) :
  N.of_nat (size (list_to_set l : gset A)) = len l ↔ NoDup l.
Proof.
  unfold len. rewrite Nat2N.inj_iff. split; [|apply size_list_to_set]. intros Hs. apply NoDup_ListNoDup.
  apply (List.NoDup_incl_NoDup (l := elements (list_to_set l : gset A))).
  - apply NoDup_ListNoDup, NoDup_elements.
  - change (length (elements (list_to_set l : gset A))) with (size (list_to_set l : gset A)). lia.
  - intros x. rewrite <-!list_elem_of_In. set_solver.
Qed.
