(* ===== verification/Identity.v ===== *)
(** * Identifiers, states and cardinalities

    Models [src/model/identity.rs] and [src/model/state.rs]: the validated
    newtypes over [String], the opaque [SessionId], the state name [State], the
    transition identity and the symbolic cardinality with its parser.  A Rust
    [String] is its sequence of UTF-8 bytes, so the derived [Ord] is the
    byte-lexicographic order of [String.compare]. *)

From S2P Require Import Prelude.

(** ** identity.rs *)

Inductive IdentifierKind := Instance | Partition | Resource.

Definition display_identifier_kind (k : IdentifierKind) : string :=
  match k with
  | Instance => "instance"
  | Partition => "partition"
  | Resource => "resource"
  end.

Inductive IdentifierError := Empty (kind : IdentifierKind).

Definition display_identifier_error (e : IdentifierError) : string :=
  match e with
  | Empty kind => display_identifier_kind kind +:+ " identifier must not be empty"
  end.

Definition is_empty (value : string) : bool :=
  match value with EmptyString => true | _ => false end.

Definition validate (kind : IdentifierKind) (value : string) : result string IdentifierError :=
  if is_empty value then Err (Empty kind) else Ok value.

Record InstanceId := MkInstanceId { instance_str : string }.
Record PartitionId := MkPartitionId { partition_str : string }.
Record ResourceId := MkResourceId { resource_str : string }.

Definition InstanceId_new (value : string) : result InstanceId IdentifierError :=
  let? v := validate Instance value in Ok (MkInstanceId v).

Definition PartitionId_new (value : string) : result PartitionId IdentifierError :=
  let? v := validate Partition value in Ok (MkPartitionId v).

Definition ResourceId_new (value : string) : result ResourceId IdentifierError :=
  let? v := validate Resource value in Ok (MkResourceId v).

(** [SessionId(u64)] *)
Record SessionId := MkSessionId { session_value : N }.

Definition SessionId_from_sequence (sequence : N) : SessionId := MkSessionId sequence.
Definition SessionId_wire_value (s : SessionId) : N := session_value s.

(** ** state.rs *)

Record State := MkState { state_str : string }.

Inductive StateError := EmptyName.

Definition display_state_error (e : StateError) : string :=
  match e with EmptyName => "state name must not be empty" end.

Definition State_new (name : string) : result State StateError :=
  if is_empty name then Err EmptyName else Ok (MkState name).

Definition is_leader (s : State) : bool := String.eqb (state_str s) "LEADER".
Definition is_standby (s : State) : bool := String.eqb (state_str s) "STANDBY".
Definition is_offline (s : State) : bool := String.eqb (state_str s) "OFFLINE".
Definition is_dropped (s : State) : bool := String.eqb (state_str s) "DROPPED".
Definition is_error (s : State) : bool := String.eqb (state_str s) "ERROR".

(** The states the code builds from literals with [State::new(..).expect(..)]. *)
Definition LEADER : State := MkState "LEADER".
Definition STANDBY : State := MkState "STANDBY".
Definition OFFLINE : State := MkState "OFFLINE".
Definition DROPPED : State := MkState "DROPPED".

Record Transition := MkTransition { source : State; target : State }.

Inductive StateCardinality :=
| Exact (count : N)
| ReplicaCount
| NodeCount
| Unbounded.

Inductive StateCardinalityError := InvalidValue (value : string).

Definition display_state_cardinality_error (e : StateCardinalityError) : string :=
  match e with InvalidValue value => "invalid state cardinality: " +:+ value end.

(** [str::parse] for an unsigned integer of maximum [max]: an optional [+],
    then at least one decimal digit, with a checked accumulation. *)
Definition digit_value (c : Ascii.ascii) : option N :=
  let n := Ascii.N_of_ascii c in
  if (48 <=? n)%N && (n <=? 57)%N then Some (n - 48)%N else None.

Fixpoint parse_digits (max acc : N) (s : string) : option N :=
  match s with
  | EmptyString => Some acc
  | String c s =>
      match digit_value c with
      | Some d =>
          if (acc * 10 + d <=? max)%N then parse_digits max (acc * 10 + d) s else None
      | None => None
      end
  end.

Definition parse_unsigned (max : N) (s : string) : option N :=
  match s with
  | EmptyString => None
  | String c rest =>
      if (Ascii.N_of_ascii c =? 43)%N
      then if is_empty rest then None else parse_digits max 0 rest
      else parse_digits max 0 s
  end.

Definition StateCardinality_try_from (value : string)
  : result StateCardinality StateCardinalityError :=
  if String.eqb value "R" then Ok ReplicaCount
  else if String.eqb value "N" then Ok NodeCount
  else if String.eqb value "-1" then Ok Unbounded
  else match parse_unsigned u32_MAX value with
       | Some n => Ok (Exact n)
       | None => Err (InvalidValue value)
       end.

(** ** Decidable equality, countability and order of the newtypes *)

#[export] Instance IdentifierKind_eq_dec : EqDecision IdentifierKind.
Proof. solve_decision. Defined.
#[export] Instance InstanceId_eq_dec : EqDecision InstanceId.
Proof. solve_decision. Defined.
#[export] Instance PartitionId_eq_dec : EqDecision PartitionId.
Proof. solve_decision. Defined.
#[export] Instance ResourceId_eq_dec : EqDecision ResourceId.
Proof. solve_decision. Defined.
#[export] Instance SessionId_eq_dec : EqDecision SessionId.
Proof. solve_decision. Defined.
#[export] Instance State_eq_dec : EqDecision State.
Proof. solve_decision. Defined.
#[export] Instance Transition_eq_dec : EqDecision Transition.
Proof. solve_decision. Defined.
#[export] Instance StateCardinality_eq_dec : EqDecision StateCardinality.
Proof. solve_decision. Defined.

#[export] Program Instance InstanceId_countable : Countable InstanceId :=
  inj_countable' instance_str MkInstanceId _.
Next Obligation. by intros []. Qed.
#[export] Program Instance PartitionId_countable : Countable PartitionId :=
  inj_countable' partition_str MkPartitionId _.
Next Obligation. by intros []. Qed.
#[export] Program Instance ResourceId_countable : Countable ResourceId :=
  inj_countable' resource_str MkResourceId _.
Next Obligation. by intros []. Qed.
#[export] Program Instance SessionId_countable : Countable SessionId :=
  inj_countable' session_value MkSessionId _.
Next Obligation. by intros []. Qed.
#[export] Program Instance State_countable : Countable State :=
  inj_countable' state_str MkState _.
Next Obligation. by intros []. Qed.
#[export] Program Instance Transition_countable : Countable Transition :=
  inj_countable' (λ t, (source t, target t)) (λ p, MkTransition p.1 p.2) _.
Next Obligation. by intros []. Qed.

#[export] Instance ord_InstanceId : RustOrd InstanceId :=
  λ x y, rust_cmp (instance_str x) (instance_str y).
#[export] Instance ord_PartitionId : RustOrd PartitionId :=
  λ x y, rust_cmp (partition_str x) (partition_str y).
#[export] Instance ord_ResourceId : RustOrd ResourceId :=
  λ x y, rust_cmp (resource_str x) (resource_str y).
#[export] Instance ord_SessionId : RustOrd SessionId :=
  λ x y, rust_cmp (session_value x) (session_value y).
#[export] Instance ord_State : RustOrd State :=
  λ x y, rust_cmp (state_str x) (state_str y).

#[export] Instance InstanceId_ord_laws : RustOrdLaws InstanceId.
Proof. apply (proj_ord_laws instance_str _); [done|]. by intros [] [] [= ->]. Qed.
#[export] Instance PartitionId_ord_laws : RustOrdLaws PartitionId.
Proof. apply (proj_ord_laws partition_str _); [done|]. by intros [] [] [= ->]. Qed.
#[export] Instance ResourceId_ord_laws : RustOrdLaws ResourceId.
Proof. apply (proj_ord_laws resource_str _); [done|]. by intros [] [] [= ->]. Qed.
#[export] Instance SessionId_ord_laws : RustOrdLaws SessionId.
Proof. apply (proj_ord_laws session_value _); [done|]. by intros [] [] [= ->]. Qed.
#[export] Instance State_ord_laws : RustOrdLaws State.
Proof. apply (proj_ord_laws state_str _); [done|]. by intros [] [] [= ->]. Qed.

(** ** Decimal numerals *)

Lemma digit_value_pretty d : (d < 10)%N → digit_value (pretty_N_char d) = Some d.
Proof.
  intros Hd.
  assert (d = 0 ∨ d = 1 ∨ d = 2 ∨ d = 3 ∨ d = 4 ∨ d = 5 ∨ d = 6 ∨ d = 7 ∨ d = 8 ∨ d = 9)%N
    as Hcases by lia.
  by destruct_or! Hcases; subst d.
Qed.

(** Parsing what a number prints continues from that number. *)
Lemma parse_digits_pretty max x s :
  (x ≤ max)%N → parse_digits max 0 (pretty_N_go x s) = parse_digits max x s.
Proof.
  revert s. induction (N.lt_wf_0 x) as [x _ IH]. intros s Hx.
  destruct (decide (x = 0)%N) as [->|Hne]; [by rewrite pretty_N_go_0|].
  assert (x `div` 10 < x)%N by (apply N.div_lt; lia).
  rewrite pretty_N_go_step, IH by lia. simpl.
  rewrite digit_value_pretty by (apply N.mod_lt; lia).
  rewrite N.mul_comm, <-N.div_mod by lia.
  by rewrite (proj2 (N.leb_le _ _) Hx).
Qed.

Lemma parse_digits_pretty_over max x s :
  (max < x)%N → parse_digits max 0 (pretty_N_go x s) = None.
Proof.
  revert s. induction (N.lt_wf_0 x) as [x _ IH]. intros s Hx.
  assert (x `div` 10 < x)%N by (apply N.div_lt; lia).
  rewrite pretty_N_go_step by lia.
  destruct (decide (max < x `div` 10)%N); [by apply IH|].
  rewrite parse_digits_pretty by lia. simpl.
  rewrite digit_value_pretty by (apply N.mod_lt; lia).
  rewrite N.mul_comm, <-N.div_mod by lia.
  by rewrite (proj2 (N.leb_gt _ _) Hx).
Qed.

(** A printed numeral starts with a digit. *)
Lemma pretty_N_go_head x s :
  (0 < x)%N → ∃ d r, (d < 10)%N ∧ pretty_N_go x s = String (pretty_N_char d) r.
Proof.
  revert s. induction (N.lt_wf_0 x) as [x _ IH]. intros s Hx.
  assert (x `div` 10 < x)%N by (apply N.div_lt; lia).
  rewrite pretty_N_go_step by lia.
  destruct (decide (x `div` 10 = 0)%N) as [Hz|].
  - rewrite Hz, pretty_N_go_0. exists (x `mod` 10)%N, s. split; [|done].
    apply N.mod_lt; lia.
  - apply IH; [done|]. by apply N.neq_0_lt_0.
Qed.

Lemma pretty_N_head (x : N) : ∃ d r, (d < 10)%N ∧ pretty x = String (pretty_N_char d) r.
Proof.
  unfold pretty, pretty_N. case_decide.
  - exists 0%N, EmptyString. split; [lia|done].
  - apply pretty_N_go_head; lia.
Qed.

Lemma pretty_N_char_not d c :
  (d < 10)%N → digit_value c = None → pretty_N_char d ≠ c.
Proof. intros Hd Hc <-. by rewrite digit_value_pretty in Hc. Qed.

Lemma parse_unsigned_digits max d r :
  (d < 10)%N →
  parse_unsigned max (String (pretty_N_char d) r) =
  parse_digits max 0 (String (pretty_N_char d) r).
Proof.
  intros Hd. unfold parse_unsigned. case_match eqn:Hp; [|done].
  reflect_bools. exfalso. apply (pretty_N_char_not d (Ascii.ascii_of_N 43) Hd eq_refl).
  by rewrite <-Hp, Ascii.ascii_N_embedding.
Qed.

(** Printing a number and parsing it back is the identity within the width,
    and is rejected above it. *)
Lemma parse_unsigned_pretty max x :
  parse_unsigned max (pretty x) = if (x <=? max)%N then Some x else None.
Proof.
  destruct (pretty_N_head x) as (d & r & Hd & Hp).
  rewrite Hp, parse_unsigned_digits, <-Hp by done.
  unfold pretty, pretty_N. case_decide as Hx.
  - subst x. simpl. destruct max; done.
  - case_match; reflect_bools.
    + by rewrite parse_digits_pretty.
    + by rewrite parse_digits_pretty_over.
Qed.

(** What is read is within the width. *)
Lemma parse_digits_bound max acc s n :
  (acc ≤ max)%N → parse_digits max acc s = Some n → (n ≤ max)%N.
Proof.
  revert acc. induction s as [|c s IH]; intros acc Hacc; cbn [parse_digits]; [by intros [= <-]|].
  destruct (digit_value c) as [d|]; [|done]. destruct (_ <=? max)%N eqn:Hle; [|done].
  apply IH. by apply N.leb_le.
Qed.

Lemma parse_unsigned_bound max s n : parse_unsigned max s = Some n → (n ≤ max)%N.
Proof.
  destruct s as [|c s]; [done|]. unfold parse_unsigned. destruct (_ =? 43)%N.
  - destruct (is_empty s); [done|]. apply parse_digits_bound. lia.
  - apply parse_digits_bound. lia.
Qed.

(** Every decimal numeral of a [u32] is read as the exact cardinality it
    denotes, and a numeral above [u32::MAX] is rejected with the offending
    text; the symbols [R], [N] and [-1] are never confused with numerals. *)
Theorem cardinality_numeral_roundtrip (n : N) :
  StateCardinality_try_from (pretty n) =
    if (n <=? u32_MAX)%N then Ok (Exact n) else Err (InvalidValue (pretty n)).
Proof.
  unfold StateCardinality_try_from. rewrite parse_unsigned_pretty.
  destruct (pretty_N_head n) as (d & r & Hd & Hp).
  assert (∀ c s, digit_value c = None → String.eqb (pretty n) (String c s) = false) as Hne.
  { intros c s Hc. apply String.eqb_neq. rewrite Hp. intros [= He _].
    by apply (pretty_N_char_not d c). }
  rewrite !Hne by done. by destruct (n <=? u32_MAX)%N.
Qed.

(** Identifiers are the non-empty strings, kept verbatim. *)
Lemma InstanceId_new_ok s i : InstanceId_new s = Ok i ↔ s ≠ EmptyString ∧ i = MkInstanceId s.
Proof. unfold InstanceId_new, validate. destruct s; naive_solver. Qed.
Lemma PartitionId_new_ok s i : PartitionId_new s = Ok i ↔ s ≠ EmptyString ∧ i = MkPartitionId s.
Proof. unfold PartitionId_new, validate. destruct s; naive_solver. Qed.
Lemma ResourceId_new_ok s i : ResourceId_new s = Ok i ↔ s ≠ EmptyString ∧ i = MkResourceId s.
Proof. unfold ResourceId_new, validate. destruct s; naive_solver. Qed.
Lemma State_new_ok s i : State_new s = Ok i ↔ s ≠ EmptyString ∧ i = MkState s.
Proof. unfold State_new. destruct s; naive_solver. Qed.

Lemma state_name_eq s t : String.eqb (state_str s) t = true ↔ s = MkState t.
Proof. destruct s as [u]. simpl. rewrite String.eqb_eq. naive_solver. Qed.

Lemma is_dropped_eq s : is_dropped s = true ↔ s = DROPPED.
Proof. apply state_name_eq. Qed.
Lemma is_leader_eq s : is_leader s = true ↔ s = LEADER.
Proof. apply state_name_eq. Qed.
