(* ===== verification/StateMaps.v ===== *)
(** * Replica-state maps and placement

    Models [src/model/replica_state.rs] (the nested map and its duplicate
    check), the two snapshots built over it, [src/model/current_state.rs] and
    [src/model/best_possible_state.rs], the aggregated views
    [src/model/external_view.rs] and [src/controller/intermediate_state.rs], and
    the ordered placement [src/model/ideal_state.rs].

    A builder method taking [&mut self] returns the builder it leaves behind
    next to its [Result]; [try_builder] is the use of such a method under [?]. *)

From S2P Require Import Prelude Identity.

Abbreviation replica_map := (gmap PartitionId (gmap InstanceId State)).
Abbreviation resource_map := (gmap ResourceId (gmap PartitionId (gmap InstanceId State))).

(** ** replica_state.rs *)

Inductive ReplicaStateError :=
| Duplicate (partition : PartitionId) (instance : InstanceId).

Definition display_replica_state_error (e : ReplicaStateError) : string :=
  match e with
  | Duplicate p i =>
      "duplicate state for partition " +:+ partition_str p +:+
      " and instance " +:+ instance_str i
  end.

Record ReplicaStates := MkReplicaStates { states : replica_map }.

Definition ReplicaStates_default : ReplicaStates := MkReplicaStates ∅.

(** The new state is stored before the duplicate is reported. *)
Definition ReplicaStates_insert (self : ReplicaStates) (partition : PartitionId)
    (instance : InstanceId) (state : State) : ReplicaStates * result unit ReplicaStateError :=
  let instances := default ∅ (states self !! partition) in
  let self' := MkReplicaStates (<[partition := <[instance := state]> instances]> (states self)) in
  match instances !! instance with
  | Some _ => (self', Err (Duplicate partition instance))
  | None => (self', Ok tt)
  end.

Definition ReplicaStates_get (self : ReplicaStates) (partition : PartitionId)
    (instance : InstanceId) : option State :=
  states self !! partition ≫= λ instances, instances !! instance.

Definition try_builder {B E} (r : B * result unit E) : result B E :=
  match r with
  | (b, Ok _) => Ok b
  | (_, Err e) => Err e
  end.

(** ** current_state.rs and best_possible_state.rs *)

Record CurrentState := MkCurrentState { current_replicas : ReplicaStates }.
Record CurrentStateBuilder := MkCurrentStateBuilder { csb_states : ReplicaStates }.

Definition CurrentState_builder : CurrentStateBuilder := MkCurrentStateBuilder ReplicaStates_default.
Definition CurrentState_default : CurrentState := MkCurrentState ReplicaStates_default.

Definition CurrentState_state (self : CurrentState) (p : PartitionId) (i : InstanceId)
  : option State := ReplicaStates_get (current_replicas self) p i.

Definition CurrentState_entries (self : CurrentState) : replica_map :=
  states (current_replicas self).

Definition CurrentStateBuilder_set_state (self : CurrentStateBuilder) (p : PartitionId)
    (i : InstanceId) (s : State) : CurrentStateBuilder * result unit ReplicaStateError :=
  let '(rs, r) := ReplicaStates_insert (csb_states self) p i s in
  (MkCurrentStateBuilder rs, r).

Definition CurrentStateBuilder_build (self : CurrentStateBuilder) : CurrentState :=
  MkCurrentState (csb_states self).

Record BestPossibleState := MkBestPossibleState { best_replicas : ReplicaStates }.
Record BestPossibleStateBuilder := MkBestPossibleStateBuilder { bpb_states : ReplicaStates }.

Definition BestPossibleState_builder : BestPossibleStateBuilder :=
  MkBestPossibleStateBuilder ReplicaStates_default.
Definition BestPossibleState_default : BestPossibleState :=
  MkBestPossibleState ReplicaStates_default.

Definition BestPossibleState_state (self : BestPossibleState) (p : PartitionId)
    (i : InstanceId) : option State := ReplicaStates_get (best_replicas self) p i.

Definition BestPossibleState_entries (self : BestPossibleState) : replica_map :=
  states (best_replicas self).

Definition BestPossibleStateBuilder_set_state (self : BestPossibleStateBuilder)
    (p : PartitionId) (i : InstanceId) (s : State)
  : BestPossibleStateBuilder * result unit ReplicaStateError :=
  let '(rs, r) := ReplicaStates_insert (bpb_states self) p i s in
  (MkBestPossibleStateBuilder rs, r).

Definition BestPossibleStateBuilder_build (self : BestPossibleStateBuilder) : BestPossibleState :=
  MkBestPossibleState (bpb_states self).

(** ** external_view.rs and intermediate_state.rs *)

Record ExternalView := MkExternalView { ev_states : resource_map }.

Definition ExternalView_from_current_states (current_states : gmap ResourceId CurrentState)
  : ExternalView := MkExternalView (CurrentState_entries <$> current_states).

Definition ExternalView_state (self : ExternalView) (r : ResourceId) (p : PartitionId)
    (i : InstanceId) : option State :=
  ev_states self !! r ≫= λ ps, ps !! p ≫= λ insts, insts !! i.

Record IntermediateState := MkIntermediateState { im_states : resource_map }.

Definition IntermediateState_state (self : IntermediateState) (r : ResourceId)
    (p : PartitionId) (i : InstanceId) : option State :=
  im_states self !! r ≫= λ ps, ps !! p ≫= λ insts, insts !! i.

(** ** ideal_state.rs *)

Record IdealState := MkIdealState {
  ideal_resource : ResourceId;
  replicas : N;
  preference_lists : gmap PartitionId (list InstanceId)
}.

Record IdealStateBuilder := MkIdealStateBuilder {
  isb_resource : ResourceId;
  isb_replicas : N;
  isb_preference_lists : gmap PartitionId (list InstanceId)
}.

Inductive IdealStateError :=
| DuplicatePartition (partition : PartitionId)
| DuplicatePreferenceInstance (partition : PartitionId)
| NoPartitions
| PreferenceListReplicaCount (partition : PartitionId) (expected actual : N).

Definition display_ideal_state_error (e : IdealStateError) : string :=
  match e with
  | DuplicatePartition p => "duplicate ideal-state partition: " +:+ partition_str p
  | DuplicatePreferenceInstance p =>
      "preference list contains a duplicate instance for partition " +:+ partition_str p
  | NoPartitions => "ideal state must contain a partition"
  | PreferenceListReplicaCount p expected actual =>
      "preference list for partition " +:+ partition_str p +:+ " has " +:+ pretty actual +:+
      " entries; expected " +:+ pretty expected
  end.

Definition IdealState_builder (resource : ResourceId) (replicas : N) : IdealStateBuilder :=
  MkIdealStateBuilder resource replicas ∅.

Definition preference_list (self : IdealState) (p : PartitionId) : option (list InstanceId) :=
  preference_lists self !! p.

(** Every error leaves before [self] is changed. *)
Definition set_preference_list (self : IdealStateBuilder) (partition : PartitionId)
    (instances : list InstanceId) : result IdealStateBuilder IdealStateError :=
  match isb_preference_lists self !! partition with
  | Some _ => Err (DuplicatePartition partition)
  | None =>
      if negb (len instances =? isb_replicas self)%N then
        Err (PreferenceListReplicaCount partition (isb_replicas self) (len instances))
      else
        let unique_instances : gset InstanceId := list_to_set instances in
        if negb (N.of_nat (size unique_instances) =? len instances)%N then
          Err (DuplicatePreferenceInstance partition)
        else
          Ok (MkIdealStateBuilder (isb_resource self) (isb_replicas self)
                (<[partition := instances]> (isb_preference_lists self)))
  end.

Definition IdealStateBuilder_build (self : IdealStateBuilder)
  : result IdealState IdealStateError :=
  if bool_decide (isb_preference_lists self = ∅) then Err NoPartitions
  else Ok (MkIdealState (isb_resource self) (isb_replicas self) (isb_preference_lists self)).

(** * Replica maps *)

(** The flattened view of a nested map, and its well-formedness: no partition
    is present without a replica. *)
Definition rget (m : replica_map) (p : PartitionId) (i : InstanceId) : option State :=
  m !! p ≫= λ insts, insts !! i.

Definition rmap_wf (m : replica_map) : Prop := map_Forall (λ _ insts, insts ≠ ∅) m.

Definition rput (m : replica_map) (p : PartitionId) (i : InstanceId) (s : State) : replica_map :=
  <[p := <[i := s]> (default ∅ (m !! p))]> m.

Definition current_of (m : replica_map) : CurrentState := MkCurrentState (MkReplicaStates m).

(** The replica keys of a nested map, in iteration order. *)
Definition replica_list (m : replica_map) : list (PartitionId * InstanceId * State) :=
  entries m ≫= λ '(p, insts), (λ '(i, s), (p, i, s)) <$> entries insts.

(** A placement as the builder guarantees it. *)
Record IdealState_wf (ideal : IdealState) : Prop := {
  ideal_nonempty : preference_lists ideal ≠ ∅;
  ideal_lists : map_Forall (λ _ l, NoDup l ∧ len l = replicas ideal) (preference_lists ideal)
}.

Lemma rget_rput m p i s q j :
  rget (rput m p i s) q j = if decide (p = q ∧ i = j) then Some s else rget m q j.
Proof.
  unfold rget, rput. destruct (decide (p = q)) as [->|Hp].
  - rewrite lookup_insert_eq. simpl. destruct (decide (i = j)) as [->|Hi].
    + rewrite lookup_insert_eq. by rewrite decide_True.
    + rewrite lookup_insert_ne, decide_False by naive_solver.
      by destruct (m !! q); simpl; rewrite ?lookup_empty.
  - rewrite lookup_insert_ne, decide_False by naive_solver. done.
Qed.

Lemma rget_rput_eq m p i s : rget (rput m p i s) p i = Some s.
Proof. rewrite rget_rput. by rewrite decide_True. Qed.

Lemma rget_rput_ne m p i s q j : (p, i) ≠ (q, j) → rget (rput m p i s) q j = rget m q j.
Proof. intros Hne. rewrite rget_rput, decide_False; naive_solver. Qed.

Lemma rmap_wf_empty : rmap_wf ∅.
Proof. apply map_Forall_empty. Qed.

Lemma rmap_wf_rput m p i s : rmap_wf m → rmap_wf (rput m p i s).
Proof. intros Hm. apply map_Forall_insert_2; [apply insert_non_empty|done]. Qed.

#[export] Hint Resolve rmap_wf_empty rmap_wf_rput : clustodian.

Lemma rput_lookup_partition m p i s q :
  is_Some (rput m p i s !! q) ↔ q = p ∨ is_Some (m !! q).
Proof.
  unfold rput. destruct (decide (p = q)) as [->|].
  - rewrite lookup_insert_eq. naive_solver.
  - rewrite lookup_insert_ne by done. naive_solver.
Qed.

Lemma rget_partition m p i s : rget m p i = Some s → is_Some (m !! p).
Proof. unfold rget. destruct (m !! p); [eauto|done]. Qed.

(** In a well-formed map a partition is present exactly when it has a replica. *)
Lemma rmap_wf_partition m p :
  rmap_wf m → is_Some (m !! p) ↔ ∃ i s, rget m p i = Some s.
Proof.
  intros Hwf. split.
  - intros [insts Hp]. destruct (map_choose insts (Hwf _ _ Hp)) as (i & s & Hi).
    exists i, s. unfold rget. by rewrite Hp.
  - intros (i & s & Hg). by eapply rget_partition.
Qed.

(** Two well-formed maps with the same replicas are equal. *)
Lemma rmap_wf_ext m1 m2 :
  rmap_wf m1 → rmap_wf m2 → (∀ p i, rget m1 p i = rget m2 p i) → m1 = m2.
Proof.
  intros H1 H2 Hext. apply map_eq. intros p.
  assert (is_Some (m1 !! p) ↔ is_Some (m2 !! p)) as Hp.
  { rewrite !rmap_wf_partition by done. by setoid_rewrite Hext. }
  destruct (m1 !! p) as [is1|] eqn:E1, (m2 !! p) as [is2|] eqn:E2; try done.
  - f_equal. apply map_eq. intros i. specialize (Hext p i). unfold rget in Hext.
    by rewrite E1, E2 in Hext.
  - by destruct (proj1 Hp (ex_intro _ is1 eq_refl)).
  - by destruct (proj2 Hp (ex_intro _ is2 eq_refl)).
Qed.

Lemma elem_of_replica_list m p i s : (p, i, s) ∈ replica_list m ↔ rget m p i = Some s.
Proof.
  unfold replica_list, rget. rewrite list_elem_of_bind. split.
  - intros ([q insts] & Hin & Hq). apply elem_of_entries in Hq.
    apply list_elem_of_fmap in Hin as ([j t] & [= -> -> ->] & Hj).
    rewrite elem_of_entries in Hj. by rewrite Hq.
  - destruct (m !! p) as [insts|] eqn:Hp; [|done]. simpl. intros Hi.
    exists (p, insts). rewrite elem_of_entries. split; [|done].
    apply list_elem_of_fmap. exists (i, s). by rewrite elem_of_entries.
Qed.

Lemma ReplicaStates_insert_ok self p i s rs :
  try_builder (ReplicaStates_insert self p i s) = Ok rs ↔
    ReplicaStates_get self p i = None ∧ rs = MkReplicaStates (rput (states self) p i s).
Proof.
  unfold ReplicaStates_insert, ReplicaStates_get, rput.
  destruct (states self !! p) as [insts|]; simpl; [destruct (insts !! i); simpl; naive_solver|].
  rewrite lookup_empty. simpl. naive_solver.
Qed.

(** ** Builders *)

(** Inserting a replica state succeeds exactly when the replica is absent and then
    adds just that replica; a duplicate is reported with its partition and
    instance, and in both cases the stored map holds the new state and every
    other replica is untouched. *)
Theorem replica_insert_spec self p i s :
  let '(self', r) := ReplicaStates_insert self p i s in
  r = match ReplicaStates_get self p i with
      | Some _ => Err (Duplicate p i)
      | None => Ok tt
      end ∧
  ReplicaStates_get self' p i = Some s ∧
  (∀ q j, (q, j) ≠ (p, i) → ReplicaStates_get self' q j = ReplicaStates_get self q j) ∧
  (rmap_wf (states self) → rmap_wf (states self')).
Proof.
  assert (ReplicaStates_insert self p i s =
    (MkReplicaStates (rput (states self) p i s),
     match ReplicaStates_get self p i with Some _ => Err (Duplicate p i) | None => Ok tt end))
    as ->.
  { unfold ReplicaStates_insert, ReplicaStates_get.
    destruct (states self !! p) as [insts|] eqn:Hp; unfold rput; rewrite Hp; simpl.
    - by destruct (insts !! i).
    - by rewrite lookup_empty. }
  split_and!; [done|apply rget_rput_eq| |apply rmap_wf_rput].
  intros q j Hne. by apply rget_rput_ne.
Qed.

(** A run of successful [set_state] calls from an empty builder. *)
Definition set_states (l : list (PartitionId * InstanceId * State)) (rs : ReplicaStates)
  : result ReplicaStates ReplicaStateError :=
  try_fold (λ rs '(p, i, s), try_builder (ReplicaStates_insert rs p i s)) rs l.

(** The calls succeed when their replicas are pairwise distinct and absent, and
    the result holds exactly the old replicas and the new ones. *)
Lemma set_states_ok l rs :
  NoDup l.*1 →
  (∀ p i s, (p, i, s) ∈ l → ReplicaStates_get rs p i = None) →
  ∃ rs', set_states l rs = Ok rs' ∧
    (rmap_wf (states rs) → rmap_wf (states rs')) ∧
    (∀ p i s, rget (states rs') p i = Some s ↔
       rget (states rs) p i = Some s ∨ (p, i, s) ∈ l).
Proof.
  revert rs. induction l as [|[[p i] s] l IH]; intros rs Hnd Habs.
  - exists rs. split_and!; [done..|]. intros. rewrite elem_of_nil. naive_solver.
  - apply NoDup_cons in Hnd as [Hnot Hnd].
    assert (ReplicaStates_get rs p i = None) as Hn by (eapply Habs; left).
    unfold set_states. simpl.
    rewrite (proj2 (ReplicaStates_insert_ok rs p i s _) (conj Hn eq_refl)).
    destruct (IH (MkReplicaStates (rput (states rs) p i s))) as (rs' & Hrun & Hwf & Hget);
      [done| |].
    + intros q j t Hin. unfold ReplicaStates_get; simpl. fold (rget (rput (states rs) p i s) q j).
      rewrite rget_rput_ne; [eapply Habs; by right|].
      intros [= <- <-]. apply Hnot. by apply (list_elem_of_fmap_2 fst l (p, i, t)).
    + exists rs'. split_and!; [done| |].
      * intros H. apply Hwf. simpl. auto with clustodian.
      * intros q j t. rewrite Hget, elem_of_cons. simpl. rewrite rget_rput.
        change (ReplicaStates_get rs p i) with (rget (states rs) p i) in Hn.
        case_decide as Hd; [destruct Hd as [<- <-]|]; [rewrite Hn|]; naive_solver.
Qed.

Lemma set_states_wf l rs rs' :
  set_states l rs = Ok rs' → rmap_wf (states rs) → rmap_wf (states rs').
Proof.
  intros Hrun Hwf.
  refine (try_fold_ind _ (λ rs, rmap_wf (states rs)) l rs rs' Hwf _ Hrun).
  intros t [[p i] s] t' _ Ht [_ ->]%ReplicaStates_insert_ok. simpl. auto with clustodian.
Qed.

Lemma replica_list_alt m :
  (entries m ≫= λ e, (λ '(i, s), (e.1, i, s)) <$> entries e.2) = replica_list m.
Proof.
  unfold replica_list. induction (entries m) as [|[p insts] l IH]; [done|].
  rewrite !bind_cons. by rewrite IH.
Qed.

Lemma NoDup_replica_list m : NoDup (replica_list m).*1.
Proof.
  unfold replica_list. pose proof (NoDup_map_keys m) as Hnd. unfold map_keys in Hnd.
  induction (entries m) as [|[p insts] l IH]; simpl; [constructor|].
  simpl in Hnd. apply NoDup_cons in Hnd as [Hp Hnd]. rewrite fmap_app.
  apply NoDup_app. split_and!; [| |by apply IH].
  - rewrite <-list_fmap_compose.
    rewrite (list_fmap_ext _ (pair p ∘ fst) (entries insts)) by by intros ? [? ?].
    rewrite (list_fmap_compose fst (pair p)). apply NoDup_fmap; [|apply NoDup_map_keys].
    by intros ?? [= ->].
  - intros [q i] Hin1 Hin2. apply Hp.
    apply list_elem_of_fmap in Hin1 as ([[q1 i1] s1] & [= -> ->] & Hin1).
    apply list_elem_of_fmap in Hin1 as ([? ?] & [= -> -> ->] & _).
    apply list_elem_of_fmap in Hin2 as ([[q2 i2] s2] & [= <- <-] & Hin2).
    apply list_elem_of_bind in Hin2 as ([q3 insts3] & Hin2 & Hl).
    apply list_elem_of_fmap in Hin2 as ([? ?] & [= -> -> ->] & _).
    by apply (list_elem_of_fmap_2 fst l (q3, insts3)).
Qed.

(** Builders reached from [IdealState::builder] by accepted calls. *)
Inductive ideal_reachable (r : ResourceId) (n : N) : IdealStateBuilder → Prop :=
| ideal_start : ideal_reachable r n (IdealState_builder r n)
| ideal_add b p l b' :
    ideal_reachable r n b → set_preference_list b p l = Ok b' → ideal_reachable r n b'.

(** A preference list is accepted exactly when its partition is new, its
    length is the replica count and its instances are distinct. *)
Lemma set_preference_list_ok b p l b' :
  set_preference_list b p l = Ok b' ↔
    isb_preference_lists b !! p = None ∧ len l = isb_replicas b ∧ NoDup l ∧
    b' = MkIdealStateBuilder (isb_resource b) (isb_replicas b)
           (<[p := l]> (isb_preference_lists b)).
Proof.
  unfold set_preference_list. destruct (isb_preference_lists b !! p); [naive_solver|].
  pose proof (size_set_NoDup l) as Hsz.
  destruct (len l =? isb_replicas b)%N eqn:E1; simpl;
    [|split; [done|]; intros (_ & ? & _); apply N.eqb_neq in E1; done].
  destruct (_ =? len l)%N eqn:E2; simpl; reflect_bools.
  - apply Hsz in E2. naive_solver.
  - rewrite <-Hsz. naive_solver.
Qed.

Lemma ideal_reachable_inv r n b :
  ideal_reachable r n b →
  isb_resource b = r ∧ isb_replicas b = n ∧
  map_Forall (λ _ l, NoDup l ∧ len l = n) (isb_preference_lists b).
Proof.
  induction 1 as [|b p l b' _ (Hr & Hn & Hall) Hset]; simpl.
  - split_and!; [done..|apply map_Forall_empty].
  - apply set_preference_list_ok in Hset as (_ & Hl & Hnd & ->). simpl.
    split_and!; [done..|]. apply map_Forall_insert_2; [|done]. by rewrite Hl, Hn.
Qed.

(** Every placement the builder publishes has at least one
    partition, and each preference list has exactly the configured number of
    pairwise distinct instances. *)
Theorem ideal_build_wf r n b ideal :
  ideal_reachable r n b →
  IdealStateBuilder_build b = Ok ideal →
  IdealState_wf ideal ∧ ideal_resource ideal = r ∧ replicas ideal = n.
Proof.
  intros (Hr & Hn & Hall)%ideal_reachable_inv.
  unfold IdealStateBuilder_build. case_bool_decide as He; intros; simplify_eq/=.
  split; [|done]. by split.
Qed.

Lemma ideal_build_wf_witness :
  ∃ ideal, IdealState_wf ideal ∧ preference_list ideal (MkPartitionId "p0") =
             Some [MkInstanceId "node-a"; MkInstanceId "node-b"].
Proof.
  set (b := MkIdealStateBuilder (MkResourceId "documents") 2
              {[MkPartitionId "p0" := [MkInstanceId "node-a"; MkInstanceId "node-b"]]}).
  assert (ideal_reachable (MkResourceId "documents") 2 b) as Hr.
  { eapply ideal_add; [apply ideal_start|].
    instantiate (1 := [MkInstanceId "node-a"; MkInstanceId "node-b"]).
    instantiate (1 := MkPartitionId "p0"). vm_compute. reflexivity. }
  exists (MkIdealState (isb_resource b) (isb_replicas b) (isb_preference_lists b)).
  split; [|vm_compute; reflexivity].
  refine (proj1 (ideal_build_wf (MkResourceId "documents") 2 b _ Hr _)).
  vm_compute. reflexivity.
Defined.
