(* ===== verification/StateModel.v ===== *)
(** * State-model definitions

    Models [src/model/state_model.rs] (builder, validation, the ordered
    Floyd-Warshall next-hop table) and [src/model/builtins.rs].

    [Vec<Vec<Option<T>>>] is a list of rows; [mat_get] and [mat_set] are the
    indexed reads and writes of the loops, whose indexes are below
    [states.len()]. *)

From S2P Require Import Prelude Identity.

(** ** Definition and accessors *)

Record StateModelDefinition := MkStateModelDefinition {
  name : string;
  initial_state : State;
  states_by_priority : list State;
  transitions_by_priority : list Transition;
  cardinalities : gmap State StateCardinality;
  next_states : gmap State (gmap State State)
}.

Definition cardinality_for (self : StateModelDefinition) (s : State) : option StateCardinality :=
  cardinalities self !! s.

(** [&self.states_by_priority[0]]; a published definition has a state. *)
Definition highest_priority_state (self : StateModelDefinition) : State :=
  match states_by_priority self with
  | s :: _ => s
  | [] => MkState EmptyString
  end.

Definition has_single_highest_priority_state (self : StateModelDefinition) : bool :=
  bool_decide (cardinality_for self (highest_priority_state self) = Some (Exact 1)).

Definition next_state_toward (self : StateModelDefinition) (from to : State) : option State :=
  next_states self !! from ≫= λ targets, targets !! to.

(** ** Builder *)

Record StateModelBuilder := MkStateModelBuilder {
  smb_name : string;
  smb_initial_state : option State;
  smb_states : list (State * StateCardinality);
  smb_transitions : list Transition
}.

Definition StateModelBuilder_new (name : string) : StateModelBuilder :=
  MkStateModelBuilder name None [] [].

Definition set_initial_state (self : StateModelBuilder) (s : State) : StateModelBuilder :=
  MkStateModelBuilder (smb_name self) (Some s) (smb_states self) (smb_transitions self).

Definition add_state (self : StateModelBuilder) (s : State) (c : StateCardinality)
  : StateModelBuilder :=
  MkStateModelBuilder (smb_name self) (smb_initial_state self)
    (smb_states self ++ [(s, c)]) (smb_transitions self).

Definition add_transition (self : StateModelBuilder) (t : Transition) : StateModelBuilder :=
  MkStateModelBuilder (smb_name self) (smb_initial_state self)
    (smb_states self) (smb_transitions self ++ [t]).

Inductive StateModelError :=
| EmptyModelName
| NoStates
| MissingInitialState
| UnknownInitialState (state : State)
| MissingDroppedState
| NoPathToDropped (state : State)
| DuplicateState (state : State)
| UnknownTransitionState (transition : Transition) (endpoint : State)
| DuplicateTransition (transition : Transition).

Definition display_state_model_error (e : StateModelError) : string :=
  match e with
  | EmptyModelName => "state-model name must not be empty"
  | NoStates => "state model must contain at least one state"
  | MissingInitialState => "state model has no initial state"
  | UnknownInitialState s => "initial state is not defined: " +:+ state_str s
  | MissingDroppedState => "state model must contain the DROPPED state"
  | NoPathToDropped s => "state has no path to DROPPED: " +:+ state_str s
  | DuplicateState s => "duplicate state: " +:+ state_str s
  | UnknownTransitionState t s =>
      "transition " +:+ state_str (source t) +:+ " -> " +:+ state_str (target t) +:+
      " references unknown state " +:+ state_str s
  | DuplicateTransition t =>
      "duplicate transition: " +:+ state_str (source t) +:+ " -> " +:+ state_str (target t)
  end.

(** ** The next-hop table *)

Abbreviation matrix A := (list (list (option A))).

Definition mat_get {A} (m : matrix A) (i j : nat) : option A :=
  m !! i ≫= λ row, row !! j ≫= id.

Definition mat_set {A} (m : matrix A) (i j : nat) (v : option A) : matrix A :=
  alter (λ row, <[j := v]> row) i m.

Definition mat_new {A} (n : nat) : matrix A := replicate n (replicate n None).

(** The two tables the loops update together: [distances] and [next]. *)
Definition tables : Type := matrix N * matrix nat.

Definition fw_diagonal (n : nat) (st : tables) : tables :=
  foldl (λ '(d, nx) i, (mat_set d i i (Some 0%N), mat_set nx i i (Some i))) st (seq 0 n).

Definition fw_edge (st : tables) (from to : nat) : tables :=
  (mat_set st.1 from to (Some 1%N), mat_set st.2 from to (Some to)).

Definition fw_relax (st : tables) (intermediate from to : nat) : tables :=
  match mat_get st.1 from intermediate, mat_get st.1 intermediate to with
  | Some left_distance, Some right_distance =>
      let candidate := (left_distance + right_distance)%N in
      let current := default usize_MAX (mat_get st.1 from to) in
      if (candidate <? current)%N then
        (mat_set st.1 from to (Some candidate),
         mat_set st.2 from to (mat_get st.2 from intermediate))
      else st
  | _, _ => st
  end.

Definition fw_loops (n : nat) (st : tables) : tables :=
  foldl (λ st intermediate,
    foldl (λ st from,
      foldl (λ st to, fw_relax st intermediate from to) st (seq 0 n))
    st (seq 0 n))
  st (seq 0 n).

(** Body of the inner output loop, and one row of the output. *)
Definition row_step {E} (states : list State) (from : nat) (targets : gmap State State)
    (entry : nat * option nat) : result (gmap State State) (stop E) :=
  let '(to, next_index) := entry in
  if bool_decide (from = to) then Ok targets
  else match next_index with
       | None => Ok targets
       | Some next_index =>
           let? t := expect (states !! to) in
           let? h := expect (states !! next_index) in
           Ok (<[t := h]> targets)
       end.

Definition table_row {E} (states : list State) (from : nat) (row : list (option nat))
  : result (gmap State State) (stop E) :=
  try_fold (row_step states from) ∅ (imap pair row).

(** Body of the outer output loop. *)
Definition table_step {E} (states : list State) (table : gmap State (gmap State State))
    (entry : nat * list (option nat)) : result (gmap State (gmap State State)) (stop E) :=
  let '(from, row) := entry in
  let? targets := table_row states from row in
  let? s := expect (states !! from) in
  Ok (<[s := targets]> table).

Definition build_transition_table {E} (states : list State) (transitions : list Transition)
  : result (gmap State (gmap State State)) (stop E) :=
  let indexes : gmap State nat := btree_collect (imap (λ index state, (state, index)) states) in
  let n := length states in
  let st := fw_diagonal n (mat_new n, mat_new n) in
  let? st := try_fold (λ st t,
    let? from := expect (indexes !! source t) in
    let? to := expect (indexes !! target t) in
    Ok (fw_edge st from to)) st transitions in
  let st := fw_loops n st in
  try_fold (table_step states) ∅ (imap pair st.2).

(** ** Validation *)

Definition check_state (acc : gset State * gmap State StateCardinality * list State)
    (sc : State * StateCardinality)
  : result (gset State * gmap State StateCardinality * list State) (stop StateModelError) :=
  let '(state_set, cards, by_priority) := acc in
  let '(state, cardinality) := sc in
  if bool_decide (state ∈ state_set) then Err (Raise (DuplicateState state))
  else Ok ({[state]} ∪ state_set, <[state := cardinality]> cards, by_priority ++ [state]).

Definition check_transition (state_set : gset State) (transition_set : gset Transition)
    (t : Transition) : result (gset Transition) (stop StateModelError) :=
  if negb (bool_decide (source t ∈ state_set)) then
    Err (Raise (UnknownTransitionState t (source t)))
  else if negb (bool_decide (target t ∈ state_set)) then
    Err (Raise (UnknownTransitionState t (target t)))
  else if bool_decide (t ∈ transition_set) then Err (Raise (DuplicateTransition t))
  else Ok ({[t]} ∪ transition_set).

Definition check_drop_path (next : gmap State (gmap State State)) (dropped : State)
    (u : unit) (s : State) : result unit (stop StateModelError) :=
  if negb (bool_decide (s = dropped)) &&
     negb (match next !! s with
           | Some targets => bool_decide (is_Some (targets !! dropped))
           | None => false
           end)
  then Err (Raise (NoPathToDropped s))
  else Ok u.

Definition StateModelBuilder_build (self : StateModelBuilder)
  : result StateModelDefinition (stop StateModelError) :=
  if is_empty (smb_name self) then Err (Raise EmptyModelName)
  else if bool_decide (smb_states self = []) then Err (Raise NoStates)
  else
  let? acc := try_fold check_state (∅, ∅, []) (smb_states self) in
  let '(state_set, cards, by_priority) := acc in
  match smb_initial_state self with
  | None => Err (Raise MissingInitialState)
  | Some initial =>
  if negb (bool_decide (initial ∈ state_set)) then Err (Raise (UnknownInitialState initial))
  else
  let? transition_set := try_fold (check_transition state_set) ∅ (smb_transitions self) in
  let? next := build_transition_table by_priority (smb_transitions self) in
  match find_first is_dropped by_priority with
  | None => Err (Raise MissingDroppedState)
  | Some dropped =>
  let? u := try_fold (check_drop_path next dropped) tt by_priority in
  Ok (MkStateModelDefinition (smb_name self) initial by_priority
        (smb_transitions self) cards next)
  end
  end.

(** ** builtins.rs *)

Definition leader_standby_builder : StateModelBuilder :=
  let b := StateModelBuilder_new "LeaderStandby" in
  let b := set_initial_state b OFFLINE in
  let b := add_state b LEADER (Exact 1) in
  let b := add_state b STANDBY ReplicaCount in
  let b := add_state b OFFLINE Unbounded in
  let b := add_state b DROPPED Unbounded in
  let b := add_transition b (MkTransition LEADER STANDBY) in
  let b := add_transition b (MkTransition STANDBY LEADER) in
  let b := add_transition b (MkTransition OFFLINE STANDBY) in
  let b := add_transition b (MkTransition STANDBY OFFLINE) in
  add_transition b (MkTransition OFFLINE DROPPED).

(** [builder.build().expect(..)]: that the call succeeds is the lemma below. *)
Lemma leader_standby_builds : is_ok (StateModelBuilder_build leader_standby_builder) = true.
Proof. vm_compute. reflexivity. Qed.

Definition unwrap_ok {A E} (r : result A E) : is_ok r = true → A :=
  match r with
  | Ok a => λ _, a
  | Err _ => λ H, False_rect A (Bool.diff_false_true H)
  end.

Definition leader_standby : StateModelDefinition :=
  unwrap_ok (StateModelBuilder_build leader_standby_builder) leader_standby_builds.

(** * Correctness of the next-hop table *)

(** ** Matrices *)

Definition mat_ok {A} (n : nat) (m : matrix A) : Prop :=
  length m = n ∧ Forall (λ row, length row = n) m.

Lemma mat_new_ok {A} n : mat_ok n (mat_new n : matrix A).
Proof.
  split; [apply length_replicate|]. apply Forall_replicate, length_replicate.
Qed.

Lemma mat_get_new {A} n i j : mat_get (mat_new n : matrix A) i j = None.
Proof.
  unfold mat_get, mat_new. destruct (replicate n _ !! i) as [row|] eqn:Hr; [|done].
  apply lookup_replicate in Hr as [-> _]. simpl.
  destruct (replicate n None !! j) as [v|] eqn:Hv; [|done].
  by apply lookup_replicate in Hv as [-> _].
Qed.

Lemma mat_set_ok {A} n (m : matrix A) i j v : mat_ok n m → mat_ok n (mat_set m i j v).
Proof.
  intros [Hl Hr]. unfold mat_set. split; [by rewrite length_alter|].
  apply Forall_alter; [done|]. intros row ? Hrow. by rewrite length_insert.
Qed.

Lemma mat_get_bound {A} n (m : matrix A) i j v :
  mat_ok n m → mat_get m i j = Some v → i < n ∧ j < n.
Proof.
  intros [Hl Hr]. unfold mat_get. destruct (m !! i) as [row|] eqn:Hi; [|done]. simpl.
  destruct (row !! j) as [e|] eqn:Hj; [|done]. intros _.
  rewrite Forall_lookup in Hr. specialize (Hr _ _ Hi).
  apply lookup_lt_Some in Hi, Hj. lia.
Qed.

Lemma mat_get_set {A} n (m : matrix A) i j v i' j' :
  mat_ok n m → i < n → j < n →
  mat_get (mat_set m i j v) i' j' =
    if decide (i = i' ∧ j = j') then v else mat_get m i' j'.
Proof.
  intros [Hl Hr] Hi Hj. unfold mat_get, mat_set.
  destruct (decide (i = i')) as [<-|Hne].
  - rewrite list_lookup_alter_eq.
    destruct (lookup_lt_is_Some_2 m i ltac:(lia)) as [row Hrow]. rewrite Hrow. simpl.
    assert (length row = n) by (rewrite Forall_lookup in Hr; by eapply Hr).
    destruct (decide (j = j')) as [<-|Hnj].
    + rewrite list_lookup_insert_eq by lia. by rewrite decide_True.
    + rewrite list_lookup_insert_ne by done. by rewrite decide_False by naive_solver.
  - rewrite list_lookup_alter_ne by done. by rewrite decide_False by naive_solver.
Qed.

(** ** Paths of the transition graph over state indexes *)

Section generic_paths.
Context {A : Type} (edge : A → A → Prop).

(** A path from [i] to [j] through the interior vertices [vs]. *)
Fixpoint path (i : A) (vs : list A) (j : A) : Prop :=
  match vs with
  | [] => edge i j
  | h :: vs => edge i h ∧ path h vs j
  end.

Lemma path_app i a x b j : path i (a ++ x :: b) j ↔ path i a x ∧ path x b j.
Proof.
  revert i. induction a as [|h a IH]; intros i; simpl; [done|].
  rewrite IH. tauto.
Qed.

(** The number of transitions of a path. *)
Definition hops (vs : list A) : nat := S (length vs).
End generic_paths.

Section paths.
Context (edge : nat → nat → Prop).

(** Repeated interior vertices can be cut out. *)
Lemma path_shorten i vs j :
  path edge i vs j → ∃ vs', path edge i vs' j ∧ NoDup vs' ∧ (∀ v, v ∈ vs' → v ∈ vs).
Proof.
  induction vs as [vs IH] using (induction_ltof1 _ length); unfold ltof in IH. intros Hp.
  destruct (decide (NoDup vs)) as [|Hd]; [by exists vs|].
  assert (∃ a x b c, vs = a ++ x :: b ++ x :: c) as (a & x & b & c & ->).
  { clear IH Hp. induction vs as [|v vs IHv]; [by destruct Hd; constructor|].
    destruct (decide (v ∈ vs)) as [(b & c & ->)%list_elem_of_split|Hv].
    - by exists [], v, b, c.
    - destruct IHv as (a & x & b & c & ->).
      + intros Hnd. apply Hd. by constructor.
      + by exists (v :: a), x, b, c. }
  apply path_app in Hp as [Hpa Hpx]. apply path_app in Hpx as [_ Hpc].
  destruct (IH (a ++ x :: c)) as (vs' & Hp' & Hnd & Hsub).
  - rewrite !length_app. simpl. rewrite length_app. simpl. lia.
  - by apply path_app.
  - exists vs'. split_and!; [done..|]. intros v Hv. apply Hsub in Hv. set_solver.
Qed.

(** A path with interior vertices below [k] can be made of at most [k + 1] hops. *)
Lemma path_short_bound k i vs j :
  path edge i vs j → Forall (gt k) vs →
  ∃ vs', path edge i vs' j ∧ Forall (gt k) vs' ∧ hops vs' ≤ S k.
Proof.
  intros (vs' & Hp & Hnd & Hsub)%path_shorten Hall. exists vs'.
  assert (Forall (gt k) vs') as Hall'.
  { rewrite Forall_forall in Hall |- *. auto. }
  split_and!; [done..|]. unfold hops.
  assert (vs' ⊆+ seq 0 k) as Hsm.
  { apply NoDup_submseteq; [done|]. intros v Hv. rewrite elem_of_seq.
    rewrite Forall_forall in Hall'. specialize (Hall' v Hv). lia. }
  apply submseteq_length in Hsm. rewrite length_seq in Hsm. lia.
Qed.

(** A path through vertices up to [k] either avoids [k] or splits at its first
    and last visits of [k]. *)
Lemma path_split k i vs j :
  path edge i vs j → Forall (gt (S k)) vs →
  Forall (gt k) vs ∨
  ∃ a b, path edge i a k ∧ path edge k b j ∧ Forall (gt k) a ∧ Forall (gt k) b ∧
         hops a + hops b ≤ hops vs.
Proof.
  intros Hp Hall.
  assert (∀ l, Forall (gt (S k)) l → k ∉ l → Forall (gt k) l) as Hlt.
  { intros l Hl Hk. rewrite Forall_forall in Hl |- *. intros v Hv. specialize (Hl v Hv).
    assert (v ≠ k) by (intros ->; done). lia. }
  destruct (decide (k ∈ vs)) as [Hk|]; [right|left; auto].
  apply list_elem_of_split_l in Hk as (a & b & -> & Ha).
  apply path_app in Hp as [Hpa Hpb]. apply Forall_app in Hall as [Halla [_ Hallb]%Forall_cons].
  destruct (decide (k ∈ b)) as [Hkb|].
  - apply list_elem_of_split_r in Hkb as (c & e & -> & He).
    apply path_app in Hpb as [_ Hpe]. apply Forall_app in Hallb as [_ [_ Halle]%Forall_cons].
    exists a, e. split_and!; auto. unfold hops. rewrite !length_app. simpl.
    rewrite length_app. simpl. lia.
  - exists a, b. split_and!; auto. unfold hops. rewrite length_app. simpl. lia.
Qed.
End paths.

(** ** Floyd-Warshall *)

Section floyd_warshall.
Context (n : nat) (edge : nat → nat → Prop).
Context (edge_bound : ∀ i j, edge i j → i < n ∧ j < n).
(** A [Vec<State>] has far fewer than [usize::MAX / 2] elements. *)
Context (n_small : (2 * N.of_nat n + 2 < usize_MAX)%N).

(** After the phases below [k]: every entry is the length of a path whose first
    hop is the stored next index, and no path through vertices below [k] is
    shorter. *)
Record fw_inv (k : nat) (st : tables) : Prop := {
  fw_ok_d : mat_ok n st.1;
  fw_ok_n : mat_ok n st.2;
  fw_diag : ∀ i, i < n → ∃ c, mat_get st.1 i i = Some c ∧ (c ≤ 1)%N;
  fw_sound : ∀ i j L, mat_get st.1 i j = Some L → i ≠ j →
    ∃ h vs, mat_get st.2 i j = Some h ∧ path edge i vs j ∧ Forall (gt k) vs ∧
            L = N.of_nat (hops vs) ∧ head (vs ++ [j]) = Some h;
  fw_complete : ∀ i j vs, path edge i vs j → Forall (gt k) vs →
    ∃ L, mat_get st.1 i j = Some L ∧ (L ≤ N.of_nat (hops vs))%N;
  fw_none : ∀ i j, mat_get st.1 i j = None → mat_get st.2 i j = None
}.

(** Entries stay small enough for [left + right] and the [usize::MAX] sentinel. *)
Lemma fw_inv_bound k st i j L :
  k ≤ n → fw_inv k st → mat_get st.1 i j = Some L → (L ≤ N.of_nat n + 1)%N.
Proof.
  intros Hk Hinv HL. destruct (decide (i = j)) as [<-|Hne].
  - destruct (mat_get_bound n _ _ _ _ (fw_ok_d _ _ Hinv) HL) as [Hi _].
    destruct (fw_diag _ _ Hinv i Hi) as (c & Hc & ?). simplify_eq. lia.
  - destruct (fw_sound _ _ Hinv _ _ _ HL Hne) as (h & vs & _ & Hp & Hall & -> & _).
    destruct (path_short_bound _ k _ _ _ Hp Hall) as (vs' & Hp' & Hall' & Hb).
    destruct (fw_complete _ _ Hinv _ _ _ Hp' Hall') as (L' & HL' & Hle).
    rewrite HL in HL'. simplify_eq. lia.
Qed.

(** What phase [k], started in [st], has done after handling the pairs [ps]. *)
Record fw_phase (k : nat) (st : tables) (ps : list (nat * nat)) (st' : tables) : Prop := {
  ph_ok_d : mat_ok n st'.1;
  ph_ok_n : mat_ok n st'.2;
  ph_col : ∀ i, mat_get st'.1 i k = mat_get st.1 i k ∧ mat_get st'.2 i k = mat_get st.2 i k;
  ph_row : ∀ j, mat_get st'.1 k j = mat_get st.1 k j;
  ph_entry : ∀ i j,
    (mat_get st'.1 i j = mat_get st.1 i j ∧ mat_get st'.2 i j = mat_get st.2 i j) ∨
    (∃ a b, mat_get st.1 i k = Some a ∧ mat_get st.1 k j = Some b ∧
       mat_get st'.1 i j = Some (a + b)%N ∧ mat_get st'.2 i j = mat_get st.2 i k ∧
       i ≠ k ∧ j ≠ k ∧ ∀ L, mat_get st.1 i j = Some L → (a + b < L)%N);
  ph_done : ∀ i j a b, (i, j) ∈ ps → mat_get st.1 i k = Some a → mat_get st.1 k j = Some b →
    ∃ L, mat_get st'.1 i j = Some L ∧ (L ≤ a + b)%N
}.

Lemma fw_phase_start k st : fw_inv k st → fw_phase k st [] st.
Proof.
  intros Hinv. split; try apply Hinv; auto. intros i j a b Hin. by apply elem_of_nil in Hin.
Qed.

Lemma fw_phase_step k st ps st' i j :
  k < n → i < n → j < n → fw_inv k st → fw_phase k st ps st' →
  fw_phase k st (ps ++ [(i, j)]) (fw_relax st' k i j).
Proof.
  intros Hk Hi Hj Hinv Hph. unfold fw_relax.
  destruct (ph_col _ _ _ _ Hph i) as [Hcol Hcoln]. rewrite Hcol, (ph_row _ _ _ _ Hph j), Hcoln.
  destruct (mat_get st.1 i k) as [a|] eqn:Ha; [destruct (mat_get st.1 k j) as [b|] eqn:Hb|].
  2,3: split; try apply Hph; intros i' j' a' b' [Hin|[= -> ->]%list_elem_of_singleton]%elem_of_app
         ?? ; [by eapply (ph_done _ _ _ _ Hph)|congruence].
  assert (a ≤ N.of_nat n + 1)%N by (eapply fw_inv_bound; [|done..]; lia).
  assert (b ≤ N.of_nat n + 1)%N by (eapply fw_inv_bound; [|done..]; lia).
  destruct (_ <? _)%N eqn:Hlt; reflect_bools.
  - assert (i ≠ k ∧ j ≠ k) as [Hik Hjk].
    { destruct (fw_diag _ _ Hinv k Hk) as (c & Hc & _). split; intros ->.
      - rewrite (ph_row _ _ _ _ Hph j), Hb in Hlt. simpl in Hlt. simplify_eq. lia.
      - rewrite Hcol in Hlt. simpl in Hlt. simplify_eq. lia. }
    assert (mat_get st'.1 i j = mat_get st.1 i j) as Hsame.
    { destruct (ph_entry _ _ _ _ Hph i j) as [[? _]|(a' & b' & ? & ? & He & _)]; [done|].
      simplify_eq. rewrite He in Hlt. simpl in Hlt. lia. }
    split; simpl; try (apply mat_set_ok, Hph).
    + intros i'. rewrite !(mat_get_set n) by (try apply Hph; done).
      rewrite !decide_False by naive_solver. apply Hph.
    + intros j'. rewrite !(mat_get_set n) by (try apply Hph; done).
      rewrite !decide_False by naive_solver. apply Hph.
    + intros i' j'. rewrite !(mat_get_set n) by (try apply Hph; done).
      case_decide as Hd; [|apply Hph]. destruct Hd as [<- <-]. right.
      exists a, b. split_and!; try done. intros L HL. rewrite Hsame, HL in Hlt. done.
    + intros i' j' a' b' Hin Ha' Hb'. rewrite !(mat_get_set n) by (try apply Hph; done).
      case_decide as Hd.
      * destruct Hd as [<- <-]. simplify_eq. eauto.
      * apply (ph_done _ _ _ _ Hph); [|done..].
        apply elem_of_app in Hin as [?|[= -> ->]%list_elem_of_singleton]; naive_solver.
  - split; try apply Hph.
    intros i' j' a' b' [Hin|[= -> ->]%list_elem_of_singleton]%elem_of_app Ha' Hb';
      [by eapply (ph_done _ _ _ _ Hph)|]. simplify_eq.
    destruct (mat_get st'.1 i j) as [L|] eqn:HL; simpl in Hlt; [eauto|]. lia.
Qed.

Lemma path_bound i vs j : path edge i vs j → i < n ∧ j < n.
Proof.
  revert i. induction vs as [|h vs IH]; intros i; simpl; [apply edge_bound|].
  intros [He Hp]. apply edge_bound in He. apply IH in Hp. lia.
Qed.

Lemma path_below_S k vs : Forall (gt k) vs → Forall (gt (S k)) vs.
Proof. intros Hall. eapply Forall_impl; [done|]. simpl. lia. Qed.

Lemma fw_phase_sound k st ps st' i j L :
  fw_inv k st → fw_phase k st ps st' → mat_get st'.1 i j = Some L → i ≠ j →
  ∃ h vs, mat_get st'.2 i j = Some h ∧ path edge i vs j ∧ Forall (gt (S k)) vs ∧
          L = N.of_nat (hops vs) ∧ head (vs ++ [j]) = Some h.
Proof.
  intros Hinv Hph HL Hij.
  destruct (ph_entry _ _ _ _ Hph i j)
    as [[Hd Hn]|(a & b & Ha & Hb & Hd & Hn & Hik & Hjk & _)]; rewrite Hd in HL; rewrite Hn.
  - destruct (fw_sound _ _ Hinv _ _ _ HL Hij) as (h & vs & ?&?&?&?&?).
    exists h, vs. split_and!; auto using path_below_S.
  - destruct (fw_sound _ _ Hinv _ _ _ Ha Hik) as (h & va & Hh & Hpa & Hfa & -> & Hhd).
    destruct (fw_sound _ _ Hinv _ _ _ Hb (not_eq_sym Hjk)) as (h' & vb & _ & Hpb & Hfb & -> & _).
    exists h, (va ++ k :: vb). split_and!; [done|by apply path_app| | |].
    + apply Forall_app. split; [by apply path_below_S|].
      constructor; [lia|by apply path_below_S].
    + simplify_eq. unfold hops. rewrite length_app. simpl. lia.
    + by destruct va.
Qed.

Lemma fw_phase_mono k st ps st' i j L :
  fw_phase k st ps st' → mat_get st.1 i j = Some L →
  ∃ L', mat_get st'.1 i j = Some L' ∧ (L' ≤ L)%N.
Proof.
  intros Hph HL. destruct (ph_entry _ _ _ _ Hph i j) as [[-> _]|(a&b&_&_&->&_&_&_&Hlt)].
  - eauto.
  - specialize (Hlt L HL). exists (a + b)%N. split; [done|lia].
Qed.

Lemma fw_phase_complete k st st' i j vs :
  k < n → fw_inv k st → fw_phase k st (list_prod (seq 0 n) (seq 0 n)) st' →
  path edge i vs j → Forall (gt (S k)) vs →
  ∃ L, mat_get st'.1 i j = Some L ∧ (L ≤ N.of_nat (hops vs))%N.
Proof.
  intros Hk Hinv Hph Hp Hall. destruct (path_bound _ _ _ Hp) as [Hi Hj].
  destruct (path_split _ k _ _ _ Hp Hall) as [Hlt|(a & b & Hpa & Hpb & Hfa & Hfb & Hle)].
  - destruct (fw_complete _ _ Hinv _ _ _ Hp Hlt) as (L & HL & HLle).
    destruct (fw_phase_mono _ _ _ _ _ _ _ Hph HL) as (L' & HL' & ?).
    exists L'. split; [done|lia].
  - destruct (fw_complete _ _ Hinv _ _ _ Hpa Hfa) as (La & HLa & ?).
    destruct (fw_complete _ _ Hinv _ _ _ Hpb Hfb) as (Lb & HLb & ?).
    destruct (ph_done _ _ _ _ Hph i j La Lb) as (L & HL & ?); [|done..|].
    + apply list_elem_of_In, in_prod; apply list_elem_of_In, elem_of_seq; lia.
    + exists L. split; [done|lia].
Qed.

Lemma fw_phase_diag k st ps st' i :
  i < n → fw_inv k st → fw_phase k st ps st' →
  ∃ c, mat_get st'.1 i i = Some c ∧ (c ≤ 1)%N.
Proof.
  intros Hi Hinv Hph. destruct (fw_diag _ _ Hinv i Hi) as (c & Hc & Hle).
  destruct (fw_phase_mono _ _ _ _ _ _ _ Hph Hc) as (c' & Hc' & ?).
  exists c'. split; [done|lia].
Qed.

Lemma fw_phase_end k st st' :
  k < n → fw_inv k st → fw_phase k st (list_prod (seq 0 n) (seq 0 n)) st' →
  fw_inv (S k) st'.
Proof.
  intros Hk Hinv Hph. split.
  - apply Hph.
  - apply Hph.
  - intros. by eapply fw_phase_diag.
  - intros. by eapply fw_phase_sound.
  - intros. by eapply fw_phase_complete.
  - intros i j. destruct (ph_entry _ _ _ _ Hph i j) as [[-> ->]|(a&b&_&_&->&_)]; [|done].
    apply Hinv.
Qed.

(** The three nested loops turn the initial tables into shortest-path tables. *)
Lemma fw_loops_inv st : fw_inv 0 st → fw_inv n (fw_loops n st).
Proof.
  intros H0. unfold fw_loops.
  set (phase := λ st k, foldl (λ st from, foldl (λ st to, fw_relax st k from to) st (seq 0 n))
                          st (seq 0 n)).
  assert (∀ k st, k < n → fw_inv k st → fw_inv (S k) (phase st k)) as Hphase.
  { intros k t Hk Hinv. unfold phase.
    rewrite (foldl_nested (λ s x y, fw_relax s k x y)).
    eapply fw_phase_end; [done|done|].
    apply (foldl_processed _ (fw_phase k t)); [by apply fw_phase_start|].
    intros ps [i j] u Hin Hu. apply list_elem_of_In, in_prod_iff in Hin as [Hi Hj].
    apply list_elem_of_In, elem_of_seq in Hi, Hj. simpl.
    apply fw_phase_step; [lia..|done|done]. }
  assert (∀ m, m ≤ n → fw_inv m (foldl phase st (seq 0 m))) as Hgen; [|by apply Hgen].
  induction m as [|m IH]; intros Hm; [done|].
  rewrite seq_S, foldl_snoc. simpl. apply Hphase; [lia|]. apply IH. lia.
Qed.

(** Reading the finished tables: an entry for [i ≠ j] exists exactly when a
    path does, and it is the first hop of a shortest one. *)
Lemma fw_final_hop st i j h :
  fw_inv n st → i ≠ j → mat_get st.2 i j = Some h →
  edge i h ∧
  (h = j ∨ ∃ vs, path edge h vs j ∧ ∀ vs', path edge i vs' j → S (hops vs) ≤ hops vs').
Proof.
  intros Hinv Hij Hh. destruct (mat_get st.1 i j) as [L|] eqn:HL;
    [|apply (fw_none _ _ Hinv) in HL; congruence].
  destruct (fw_sound _ _ Hinv _ _ _ HL Hij) as (h' & vs & Hh' & Hp & _ & -> & Hhd).
  simplify_eq. destruct vs as [|v vs]; simpl in *; simplify_eq; [auto|].
  destruct Hp as [He Hp]. split; [done|]. right. exists vs. split; [done|].
  intros vs' Hp'. assert (Forall (gt n) vs') as Hall.
  { apply Forall_forall. intros x Hx. apply list_elem_of_split in Hx as (a & b & ->).
    apply path_app in Hp' as [_ Hpb]. apply path_bound in Hpb. lia. }
  destruct (fw_complete _ _ Hinv _ _ _ Hp' Hall) as (L & HL' & Hle).
  simplify_eq. unfold hops in *. simpl in *. lia.
Qed.

Lemma path_interior i vs j : path edge i vs j → Forall (gt n) vs.
Proof.
  intros Hp. apply Forall_forall. intros x Hx.
  apply list_elem_of_split in Hx as (a & b & ->).
  apply path_app in Hp as [_ Hpb]. apply path_bound in Hpb. lia.
Qed.

Lemma fw_final_some st i j vs :
  fw_inv n st → i ≠ j → path edge i vs j → is_Some (mat_get st.2 i j).
Proof.
  intros Hinv Hij Hp.
  destruct (fw_complete _ _ Hinv _ _ _ Hp (path_interior _ _ _ Hp)) as (L & HL & _).
  destruct (fw_sound _ _ Hinv _ _ _ HL Hij) as (h & _ & -> & _). eauto.
Qed.
End floyd_warshall.

(** ** The initial tables *)

Lemma fw_diagonal_spec n st :
  mat_ok n st.1 → mat_ok n st.2 →
  let st' := fw_diagonal n st in
  mat_ok n st'.1 ∧ mat_ok n st'.2 ∧
  ∀ i j, mat_get st'.1 i j = (if decide (i = j ∧ i < n) then Some 0%N else mat_get st.1 i j) ∧
         mat_get st'.2 i j = (if decide (i = j ∧ i < n) then Some i else mat_get st.2 i j).
Proof.
  intros Hd Hn. unfold fw_diagonal.
  pose proof (foldl_processed
    (λ '(d, nx) i, (mat_set d i i (Some 0%N), mat_set nx i i (Some i)) : tables)
    (λ done st', mat_ok n st'.1 ∧ mat_ok n st'.2 ∧
      ∀ i j, mat_get st'.1 i j = (if decide (i = j ∧ i ∈ done) then Some 0%N else mat_get st.1 i j) ∧
             mat_get st'.2 i j = (if decide (i = j ∧ i ∈ done) then Some i else mat_get st.2 i j))
    (seq 0 n) st) as Hfold.
  simpl. destruct Hfold as (H1 & H2 & H3).
  - split_and!; [done..|]. intros i j. rewrite !decide_False by set_solver. done.
  - intros done x [d nx] Hx%elem_of_seq (Hd' & Hn' & Hget). simpl in *.
    split_and!; [by apply mat_set_ok..|]. intros i j.
    rewrite !(mat_get_set n) by (done || lia).
    destruct (Hget i j) as [-> ->].
    destruct (decide (x = i ∧ x = j)) as [[-> ->]|Hne].
    + rewrite !decide_True by set_solver. done.
    + destruct (decide (i = j ∧ i ∈ done)) as [[-> Hin]|Hni].
      * rewrite !decide_True by set_solver. done.
      * rewrite !decide_False; [done|..]; intros [-> [?| ->%list_elem_of_singleton]%elem_of_app]; naive_solver.
  - split_and!; [done..|]. intros i j. destruct (H3 i j) as [-> ->].
    destruct (decide (i = j ∧ i < n)) as [[-> Hi]|Hni].
    + rewrite !decide_True by (rewrite elem_of_seq; split; [done|lia]). done.
    + rewrite !decide_False; [done|..]; rewrite elem_of_seq; intros [-> ?]; apply Hni; split; (done || lia).
Qed.

Lemma fw_edges_spec n st (es : list (nat * nat)) :
  (∀ i j, (i, j) ∈ es → i < n ∧ j < n) →
  mat_ok n st.1 → mat_ok n st.2 →
  let st' := foldl (λ st e, fw_edge st e.1 e.2) st es in
  mat_ok n st'.1 ∧ mat_ok n st'.2 ∧
  ∀ i j, mat_get st'.1 i j = (if decide ((i, j) ∈ es) then Some 1%N else mat_get st.1 i j) ∧
         mat_get st'.2 i j = (if decide ((i, j) ∈ es) then Some j else mat_get st.2 i j).
Proof.
  intros Hes Hd Hn. simpl.
  refine (foldl_processed (λ st e, fw_edge st e.1 e.2)
    (λ done st', mat_ok n st'.1 ∧ mat_ok n st'.2 ∧
      ∀ i j, mat_get st'.1 i j = (if decide ((i, j) ∈ done) then Some 1%N else mat_get st.1 i j) ∧
             mat_get st'.2 i j = (if decide ((i, j) ∈ done) then Some j else mat_get st.2 i j))
    es st _ _).
  - split_and!; [done..|]. intros i j. rewrite !decide_False by set_solver. done.
  - intros done [x y] st' [Hx Hy]%Hes (Hd' & Hn' & Hget). simpl.
    split_and!; [by apply mat_set_ok..|]. intros i j.
    rewrite !(mat_get_set n) by done. destruct (Hget i j) as [-> ->].
    destruct (decide (x = i ∧ y = j)) as [[-> ->]|Hne].
    + rewrite !decide_True by set_solver. done.
    + destruct (decide ((i, j) ∈ done)).
      * rewrite !decide_True by set_solver. done.
      * rewrite !decide_False by set_solver. done.
Qed.

(** The tables before the loops satisfy the invariant of phase zero. *)
Lemma fw_init_inv n (es : list (nat * nat)) :
  (∀ i j, (i, j) ∈ es → i < n ∧ j < n) →
  fw_inv n (λ i j, (i, j) ∈ es) 0
    (foldl (λ st e, fw_edge st e.1 e.2) (fw_diagonal n (mat_new n, mat_new n)) es).
Proof.
  intros Hes.
  destruct (fw_diagonal_spec n (mat_new n, mat_new n)) as (Hd & Hn & Hget0);
    [apply mat_new_ok..|].
  destruct (fw_edges_spec n (fw_diagonal n (mat_new n, mat_new n)) es) as (Hd' & Hn' & Hget);
    [done..|].
  assert (∀ i j,
    mat_get (fw_diagonal n (mat_new n, mat_new n)).1 i j =
      (if decide (i = j ∧ i < n) then Some 0%N else None) ∧
    mat_get (fw_diagonal n (mat_new n, mat_new n)).2 i j =
      (if decide (i = j ∧ i < n) then Some i else None)) as Hget1.
  { intros i j. destruct (Hget0 i j) as [-> ->]. simpl. by rewrite !mat_get_new. }
  clear Hget0. rename Hget1 into Hget0.
  split; [done|done|..].
  - intros i Hi. destruct (Hget i i) as [-> _], (Hget0 i i) as [-> _].
    rewrite (decide_True (P := i = i ∧ i < n)) by done. case_decide; eexists; (split; [done|lia]).
  - intros i j L HL Hij. destruct (Hget i j) as [Hgd ->]. rewrite Hgd in HL.
    destruct (Hget0 i j) as [Hg0 _]. rewrite Hg0 in HL.
    rewrite (decide_False (P := i = j ∧ i < n)) in HL by naive_solver.
    clear Hgd Hg0. case_decide; simplify_eq. exists j, []. split_and!; try done.
  - intros i j [|v vs] Hp Hall; [|apply Forall_cons in Hall as [? _]; lia].
    simpl in Hp. destruct (Hget i j) as [-> _]. rewrite decide_True by done.
    exists 1%N. split; [done|]. unfold hops. simpl. lia.
  - intros i j. destruct (Hget i j) as [-> ->], (Hget0 i j) as [-> ->].
    by repeat case_decide.
Qed.

(** ** From indexes to states *)

(** A path of declared transitions. *)
Definition steps (transitions : list Transition) : State → list State → State → Prop :=
  path (λ s t, MkTransition s t ∈ transitions).

Lemma btree_collect_snoc {K V} `{Countable K} (l : list (K * V)) p :
  btree_collect (l ++ [p]) = <[p.1 := p.2]> (btree_collect l).
Proof. unfold btree_collect. by rewrite foldl_snoc. Qed.

Lemma indexes_lookup (states : list State) s i :
  NoDup states →
  (btree_collect (imap (λ index state, (state, index)) states) : gmap State nat) !! s = Some i ↔
  states !! i = Some s.
Proof.
  induction states as [|x states IH] using rev_ind; intros Hnd; [done|].
  apply NoDup_app in Hnd as (Hnd & Hx & _).
  assert (x ∉ states) as Hxs by (intros Hin; apply (Hx x Hin); set_solver).
  rewrite imap_app. simpl. rewrite btree_collect_snoc. simpl. rewrite Nat.add_0_r.
  destruct (decide (x = s)) as [->|Hne].
  - rewrite lookup_insert_eq. split.
    + intros [= <-]. by apply list_lookup_middle.
    + intros Hi%lookup_app_Some. destruct Hi as [Hi|[Hle Hi]].
      * by apply list_elem_of_lookup_2 in Hi.
      * apply list_lookup_singleton_Some in Hi as [Hi _]. f_equal. lia.
  - rewrite lookup_insert_ne, IH by done. split.
    + intros Hi. by apply lookup_app_l_Some.
    + intros Hi%lookup_app_Some. destruct Hi as [?|[_ Hi]]; [done|].
      by apply list_lookup_singleton_Some in Hi as [_ ->].
Qed.

Section table.
Context {E : Type} (states : list State) (transitions : list Transition).
Context (states_nodup : NoDup states).
Context (endpoints : ∀ t, t ∈ transitions → source t ∈ states ∧ target t ∈ states).
Context (states_small : (2 * len states + 2 < usize_MAX)%N).

Lemma states_len : (2 * N.of_nat (length states) + 2 < usize_MAX)%N.
Proof. exact states_small. Qed.

Definition state_indexes : gmap State nat :=
  btree_collect (imap (λ index state, (state, index)) states).

(** The index pairs of the declared transitions. *)
Definition edge_indexes : list (nat * nat) :=
  omap (λ t, i ← state_indexes !! source t; j ← state_indexes !! target t; Some (i, j))
    transitions.

Lemma index_total s : s ∈ states → ∃ i, state_indexes !! s = Some i.
Proof.
  intros [i Hi]%list_elem_of_lookup. exists i. by apply indexes_lookup.
Qed.

Lemma elem_of_edge_indexes i j :
  (i, j) ∈ edge_indexes ↔
  ∃ s t, states !! i = Some s ∧ states !! j = Some t ∧ MkTransition s t ∈ transitions.
Proof.
  unfold edge_indexes. rewrite list_elem_of_omap. split.
  - intros ([s t] & Hin & Hi). simpl in Hi.
    destruct (state_indexes !! s) as [a|] eqn:Ha; [|done].
    destruct (state_indexes !! t) as [b|] eqn:Hb; [|done]. simplify_eq/=.
    apply indexes_lookup in Ha, Hb; [|done..]. eauto.
  - intros (s & t & Hs & Ht & Hin). exists (MkTransition s t). split; [done|]. simpl.
    apply indexes_lookup in Hs, Ht; [|done..].
    unfold state_indexes. by rewrite Hs, Ht.
Qed.

Lemma edge_indexes_bound i j :
  (i, j) ∈ edge_indexes → i < length states ∧ j < length states.
Proof.
  intros (s & t & Hs & Ht & _)%elem_of_edge_indexes. split; by eapply lookup_lt_Some.
Qed.

(** The transition loop never misses an index. *)
Lemma edge_loop_ok st :
  try_fold (λ st t,
    let? from := expect (state_indexes !! source t) in
    let? to := expect (state_indexes !! target t) in
    Ok (fw_edge st from to)) st transitions =
  Ok (foldl (λ st e, fw_edge st e.1 e.2) st edge_indexes) :> result tables (stop E).
Proof.
  unfold edge_indexes. clear states_small. revert st endpoints.
  induction transitions as [|t ts IH]; intros st Hep; simpl; [done|].
  destruct (Hep t) as [[i Hi]%index_total [j Hj]%index_total]; [left|].
  rewrite Hi, Hj. simpl. apply IH. intros u Hu. apply Hep. by right.
Qed.

(** Paths over indexes are paths over states. *)
Lemma path_to_states i vs j s t :
  path (λ i j, (i, j) ∈ edge_indexes) i vs j →
  states !! i = Some s → states !! j = Some t →
  ∃ ss, steps transitions s ss t ∧ length ss = length vs.
Proof.
  unfold steps. revert i s. induction vs as [|v vs IH]; intros i s; simpl.
  - intros (s' & t' & ?&?&?)%elem_of_edge_indexes ??. simplify_eq. by exists [].
  - intros [(s' & u & ?&?&?)%elem_of_edge_indexes Hp] ??. simplify_eq.
    destruct (IH v u Hp) as (ss & Hss & Hl); [done..|].
    exists (u :: ss). split; [done|]. simpl. by rewrite Hl.
Qed.

Lemma path_of_states i ss j s t :
  steps transitions s ss t →
  states !! i = Some s → states !! j = Some t →
  ∃ vs, path (λ i j, (i, j) ∈ edge_indexes) i vs j ∧ length vs = length ss.
Proof.
  unfold steps. revert i s. induction ss as [|u ss IH]; intros i s; simpl.
  - intros Hin ??. exists []. split; [|done]. apply elem_of_edge_indexes. eauto.
  - intros [Hin Hp] ??.
    destruct (endpoints _ Hin) as [_ [v Hv]%list_elem_of_lookup]. simpl in Hv.
    destruct (IH v u Hp) as (vs & Hvs & Hl); [done..|].
    exists (v :: vs). split; [split; [|done]|by simpl; rewrite Hl].
    apply elem_of_edge_indexes. eauto.
Qed.

(** The finished index tables. *)
Definition final_tables : tables :=
  fw_loops (length states)
    (foldl (λ st e, fw_edge st e.1 e.2)
       (fw_diagonal (length states) (mat_new (length states), mat_new (length states)))
       edge_indexes).

Lemma final_tables_inv :
  fw_inv (length states) (λ i j, (i, j) ∈ edge_indexes) (length states) final_tables.
Proof.
  apply fw_loops_inv; [apply edge_indexes_bound|unfold len in *; lia|].
  apply fw_init_inv, edge_indexes_bound.
Qed.

(** Entries of the [next] table are indexes of states. *)
Lemma final_next_bound i j h :
  mat_get final_tables.2 i j = Some h → i ≠ j → h < length states.
Proof.
  intros Hh Hij.
  destruct (fw_final_hop _ _ edge_indexes_bound states_len _ _ _ _ final_tables_inv Hij Hh)
    as [He _].
  by apply edge_indexes_bound in He as [_ ?].
Qed.

(** One row of the output: its targets are the other states with an entry. *)
Lemma table_row_spec i row :
  final_tables.2 !! i = Some row →
  ∃ targets, table_row (E := E) states i row = Ok targets ∧
    ∀ t h, targets !! t = Some h ↔
      ∃ j k, states !! j = Some t ∧ i ≠ j ∧ mat_get final_tables.2 i j = Some k ∧
             states !! k = Some h.
Proof.
  intros Hrow.
  assert (length row = length states) as Hlen.
  { destruct (fw_ok_n _ _ _ _ final_tables_inv) as [_ Hall].
    rewrite Forall_lookup in Hall. by eapply Hall. }
  assert (∀ j e, row !! j = Some e → mat_get final_tables.2 i j = e) as Hget.
  { intros j e He. unfold mat_get. rewrite Hrow. simpl. by rewrite He. }
  set (f := λ p : nat * option nat, if bool_decide (i = p.1) then None
            else k ← p.2; t ← states !! p.1; h ← states !! k; Some (t, h)).
  edestruct (try_fold_collect (E := stop E) (row_step states i) f (imap pair row) ∅) as (targets & Hrun & Hspec);
    [| |exists targets; split; [exact Hrun|]].
  - intros [j e] Hj%elem_of_imap_pair t. unfold f. simpl.
    case_bool_decide; [done|]. destruct e as [k|]; [|done]. simpl.
    destruct (lookup_lt_is_Some_2 states j) as [u ->];
      [apply lookup_lt_Some in Hj; lia|].
    destruct (lookup_lt_is_Some_2 states k) as [h ->];
      [eapply final_next_bound; [by apply Hget|done]|]. done.
  - intros [j e] [j' e'] [t h] [t' h'] Hj%elem_of_imap_pair Hj'%elem_of_imap_pair.
    unfold f. simpl. intros Hf Hf' Ht. repeat case_bool_decide; try done.
    destruct e as [k|], e' as [k'|]; try done. simpl in *.
    destruct (states !! j) eqn:Hs, (states !! j') eqn:Hs'; try done. simpl in *.
    destruct (states !! k) eqn:Hk, (states !! k') eqn:Hk'; simplify_eq/=.
    assert (j = j') as <- by by eapply NoDup_lookup. congruence.
  - intros t h. rewrite Hspec, lookup_empty. split.
    + intros [([j e] & Hj%elem_of_imap_pair & Hf)|[? _]]; [|done]. unfold f in Hf. simpl in Hf.
      case_bool_decide; [done|]. destruct e as [k|]; [|done]. simpl in Hf.
      destruct (states !! j) eqn:Hs; [|done]. simpl in Hf.
      destruct (states !! k) eqn:Hk; simplify_eq/=. exists j, k. auto.
    + intros (j & k & Hj & Hij & Hm & Hk). left.
      destruct (lookup_lt_is_Some_2 row j) as [e He]; [apply lookup_lt_Some in Hj; lia|].
      rewrite (Hget _ _ He) in Hm. subst e. exists (j, Some k).
      rewrite elem_of_imap_pair. split; [done|]. unfold f. simpl.
      rewrite bool_decide_false by done. by rewrite Hj, Hk.
Qed.


Lemma final_rows i row : final_tables.2 !! i = Some row → ∃ s, states !! i = Some s.
Proof.
  intros Hrow. destruct (fw_ok_n _ _ _ _ final_tables_inv) as [Hlen _].
  apply lookup_lt_is_Some_2. apply lookup_lt_Some in Hrow. lia.
Qed.

(** The output loops read the finished [next] table. *)
Lemma build_table_ok :
  ∃ table, build_transition_table (E := E) states transitions = Ok table ∧
    ∀ s t h, (table !! s ≫= λ targets, targets !! t) = Some h ↔
      ∃ i j k, states !! i = Some s ∧ states !! j = Some t ∧ i ≠ j ∧
               mat_get final_tables.2 i j = Some k ∧ states !! k = Some h.
Proof.
  set (f := λ p : nat * list (option nat),
            match states !! p.1, table_row (E := E) states p.1 p.2 with
            | Some s, Ok targets => Some (s, targets)
            | _, _ => None
            end).
  edestruct (try_fold_collect (E := stop E) (table_step states) f (imap pair final_tables.2) ∅)
    as (table & Hrun & Hspec); [| |exists table; split].
  - intros [i row] Hi%elem_of_imap_pair t. unfold f. simpl.
    destruct (table_row_spec i row Hi) as (targets & -> & _).
    destruct (final_rows i row Hi) as [s ->]. done.
  - intros [i row] [i' row'] p q Hi%elem_of_imap_pair Hi'%elem_of_imap_pair.
    unfold f. simpl. intros Hp Hq Heq.
    destruct (states !! i) eqn:Hs, (states !! i') eqn:Hs'; try done. simpl in *.
    destruct (table_row states i row) eqn:?, (table_row states i' row') eqn:?; simplify_eq/=.
    assert (i = i') as <- by by eapply NoDup_lookup. congruence.
  - rewrite <-Hrun. unfold build_transition_table. fold state_indexes.
    by rewrite edge_loop_ok.
  - intros s t h. rewrite bind_Some. split.
    + intros (targets & Hs & Ht). apply Hspec in Hs as [([i row] & Hi & Hf)|[? _]]; [|done].
      apply elem_of_imap_pair in Hi. unfold f in Hf. simpl in Hf.
      destruct (table_row_spec i row Hi) as (targets' & Hr & Hrs). rewrite Hr in Hf.
      destruct (states !! i) eqn:Hsi; simplify_eq/=.
      apply Hrs in Ht as (j & k & ?&?&?&?). eauto 10.
    + intros (i & j & k & Hs & Ht & Hij & Hm & Hh).
      destruct (final_tables.2 !! i) as [row|] eqn:Hi; [|by unfold mat_get in Hm; rewrite Hi in Hm].
      destruct (table_row_spec i row Hi) as (targets & Hr & Hrs). exists targets. split.
      * apply Hspec. left. exists (i, row). rewrite elem_of_imap_pair. split; [done|].
        unfold f. simpl. by rewrite Hs, Hr.
      * apply Hrs. eauto 10.
Qed.

(** What the published table says: a hop is a declared transition, it starts a
    shortest path, and there is one whenever there is a path. *)
Record table_spec (table : gmap State (gmap State State)) : Prop := {
  tbl_hop : ∀ s t h, (table !! s ≫= λ targets, targets !! t) = Some h →
    s ≠ t ∧ MkTransition s h ∈ transitions ∧
    (h = t ∨ ∃ ss, steps transitions h ss t ∧
       ∀ ss', steps transitions s ss' t → S (hops ss) ≤ hops ss');
  tbl_path : ∀ s t ss, s ≠ t → steps transitions s ss t →
    is_Some (table !! s ≫= λ targets, targets !! t)
}.

Lemma steps_endpoints s ss t : steps transitions s ss t → s ∈ states ∧ t ∈ states.
Proof.
  unfold steps. revert s. induction ss as [|u ss IH]; intros s; simpl.
  - intros Hin. by destruct (endpoints _ Hin).
  - intros [Hin Hp]. destruct (endpoints _ Hin) as [? _]. by destruct (IH u Hp).
Qed.

Lemma build_table_spec :
  ∃ table, build_transition_table (E := E) states transitions = Ok table ∧ table_spec table.
Proof.
  destruct build_table_ok as (table & Hrun & Hget). exists table. split; [done|]. split.
  - intros s t h (i & j & k & Hs & Ht & Hij & Hm & Hh)%Hget.
    assert (s ≠ t) as Hst by (intros ->; by assert (i = j) by by eapply NoDup_lookup).
    destruct (fw_final_hop _ _ edge_indexes_bound states_len _ _ _ _ final_tables_inv Hij Hm)
      as [He Hrest].
    apply elem_of_edge_indexes in He as (s' & h' & ? & ? & Hin). simplify_eq.
    split_and!; [done..|]. destruct Hrest as [->|(vs & Hp & Hmin)]; [left; congruence|right].
    destruct (path_to_states _ _ _ _ _ Hp Hh Ht) as (ss & Hss & Hl). exists ss.
    split; [done|]. intros ss' Hss'.
    destruct (path_of_states _ _ _ _ _ Hss' Hs Ht) as (vs' & Hp' & Hl').
    specialize (Hmin vs' Hp'). unfold hops in *. lia.
  - intros s t ss Hst Hss. destruct (steps_endpoints _ _ _ Hss) as
      [[i Hi]%list_elem_of_lookup [j Hj]%list_elem_of_lookup].
    assert (i ≠ j) as Hij by (intros ->; congruence).
    destruct (path_of_states _ _ _ _ _ Hss Hi Hj) as (vs & Hp & _).
    destruct (fw_final_some _ _ edge_indexes_bound states_len _ _ _ _ final_tables_inv Hij Hp)
      as [k Hk].
    destruct (lookup_lt_is_Some_2 states k) as [h Hh]; [by eapply final_next_bound|].
    exists h. apply Hget. eauto 10.
Qed.
End table.

(** * Validation *)

Lemma check_states_ok l :
  NoDup l.*1 →
  try_fold check_state (∅, ∅, []) l = Ok (list_to_set l.*1, list_to_map l, l.*1).
Proof.
  induction l as [|[s c] l IH] using rev_ind; [done|].
  rewrite fmap_app. simpl. intros (Hnd & Hs & _)%NoDup_app.
  assert (s ∉ l.*1) as Hns by (intros Hin; apply (Hs s Hin); set_solver).
  rewrite try_fold_app, IH by done. simpl.
  rewrite bool_decide_false by set_solver.
  rewrite list_to_map_snoc by done. rewrite list_to_set_app_L. simpl.
  by rewrite (right_id_L ∅ (∪)), (comm_L (∪) {[s]}).
Qed.

Lemma check_states_nodup l acc : try_fold check_state (∅, ∅, []) l = Ok acc → NoDup l.*1.
Proof.
  revert acc. induction l as [|[s c] l IH] using rev_ind; intros acc; [constructor|].
  rewrite try_fold_app. destruct (try_fold _ _ l) as [acc'|] eqn:Hrun; [|done].
  specialize (IH _ eq_refl). rewrite check_states_ok in Hrun by done. simplify_eq. simpl.
  case_bool_decide as Hin; [done|]. intros _. rewrite fmap_app. apply NoDup_app.
  split_and!; [done| |apply NoDup_singleton].
  intros x Hx ->%list_elem_of_singleton. simpl in *. set_solver.
Qed.

Lemma check_transition_ok ss acc t acc' :
  check_transition ss acc t = Ok acc' ↔
    source t ∈ ss ∧ target t ∈ ss ∧ t ∉ acc ∧ acc' = {[t]} ∪ acc.
Proof. unfold check_transition. repeat case_bool_decide; naive_solver. Qed.

Lemma check_transitions_iff ss ts acc :
  try_fold (check_transition ss) ∅ ts = Ok acc ↔
    (∀ t, t ∈ ts → source t ∈ ss ∧ target t ∈ ss) ∧ NoDup ts ∧ acc = list_to_set ts.
Proof.
  revert acc. induction ts as [|t ts IH] using rev_ind; intros acc; simpl.
  { split; [|naive_solver]. intros [= <-]. split_and!; [|constructor|done].
    intros t Ht. by apply elem_of_nil in Ht. }
  assert ((∀ u, u ∈ ts ++ [t] → source u ∈ ss ∧ target u ∈ ss) ↔
          (∀ u, u ∈ ts → source u ∈ ss ∧ target u ∈ ss) ∧ source t ∈ ss ∧ target t ∈ ss) as ->.
  { setoid_rewrite elem_of_app. setoid_rewrite list_elem_of_singleton. naive_solver. }
  assert (NoDup (ts ++ [t]) ↔ NoDup ts ∧ t ∉ ts) as ->.
  { rewrite NoDup_app. setoid_rewrite list_elem_of_singleton.
    pose proof (NoDup_singleton t). naive_solver. }
  rewrite list_to_set_app_L. simpl. rewrite (right_id_L ∅ (∪)), (comm_L (∪) _ {[t]}).
  rewrite try_fold_app. destruct (try_fold _ _ ts) as [acc'|e] eqn:Hrun.
  - destruct (proj1 (IH acc') eq_refl) as (Hep & Hnd & ->). simpl.
    pose proof (check_transition_ok ss (list_to_set ts) t) as Hone.
    setoid_rewrite elem_of_list_to_set in Hone.
    destruct (check_transition ss _ t); naive_solver.
  - split; [done|]. intros ((Hep & _) & (Hnd & _) & _).
    discriminate (proj2 (IH (list_to_set ts)) (conj Hep (conj Hnd eq_refl))).
Qed.

Lemma find_dropped l d : find_first is_dropped l = Some d ↔ d = DROPPED ∧ DROPPED ∈ l.
Proof.
  split.
  - intros [Hin ->%is_dropped_eq]%find_first_Some. done.
  - intros [-> Hin]. destruct (find_first is_dropped l) as [d|] eqn:Hf.
    + by apply find_first_Some in Hf as [_ ->%is_dropped_eq].
    + pose proof (find_first_None _ _ Hf _ Hin) as Hd. done.
Qed.

Lemma check_drop_path_ok next dropped s :
  check_drop_path next dropped tt s = Ok tt ↔
    s = dropped ∨ is_Some (next !! s ≫= λ targets, targets !! dropped).
Proof.
  unfold check_drop_path. case_bool_decide; simpl; [naive_solver|].
  destruct (next !! s) as [targets|]; simpl.
  - case_bool_decide; naive_solver.
  - split; [done|]. intros [?|[? ?]]; done.
Qed.

(** What [build] demands of a builder. *)
Record builder_ok (b : StateModelBuilder) : Prop := {
  bok_name : smb_name b ≠ EmptyString;
  bok_states : smb_states b ≠ [];
  bok_nodup : NoDup (smb_states b).*1;
  bok_initial : ∃ s, smb_initial_state b = Some s ∧ s ∈ (smb_states b).*1;
  bok_endpoints : ∀ t, t ∈ smb_transitions b →
    source t ∈ (smb_states b).*1 ∧ target t ∈ (smb_states b).*1;
  bok_transitions : NoDup (smb_transitions b);
  bok_dropped : DROPPED ∈ (smb_states b).*1;
  bok_drop_path : ∀ s, s ∈ (smb_states b).*1 → s ≠ DROPPED →
    ∃ ss, steps (smb_transitions b) s ss DROPPED
}.

(** A published definition: distinct prioritised states with their cardinalities,
    transitions between them, and a complete next-hop table of shortest paths in
    which every state can be dropped. *)
Class StateModelValid (m : StateModelDefinition) : Prop := {
  valid_nonempty : states_by_priority m ≠ [];
  valid_states : NoDup (states_by_priority m);
  valid_initial : initial_state m ∈ states_by_priority m;
  valid_transitions : NoDup (transitions_by_priority m);
  valid_endpoints : ∀ t, t ∈ transitions_by_priority m →
    source t ∈ states_by_priority m ∧ target t ∈ states_by_priority m;
  valid_cardinality : ∀ s, is_Some (cardinality_for m s) ↔ s ∈ states_by_priority m;
  valid_hop : ∀ s t h, next_state_toward m s t = Some h →
    s ≠ t ∧ MkTransition s h ∈ transitions_by_priority m ∧
    (h = t ∨ ∃ ss, steps (transitions_by_priority m) h ss t ∧
       ∀ ss', steps (transitions_by_priority m) s ss' t → S (hops ss) ≤ hops ss');
  valid_path : ∀ s t ss, s ≠ t → steps (transitions_by_priority m) s ss t →
    is_Some (next_state_toward m s t);
  valid_dropped : DROPPED ∈ states_by_priority m;
  valid_drop : ∀ s, s ∈ states_by_priority m → s ≠ DROPPED →
    is_Some (next_state_toward m s DROPPED)
}.

Section build.
Context (b : StateModelBuilder).
Context (small : (2 * len (smb_states b) + 2 < usize_MAX)%N).

Lemma small_names : (2 * len (smb_states b).*1 + 2 < usize_MAX)%N.
Proof. unfold len in *. by rewrite length_fmap. Qed.

(** The last two steps of [build], once the declarations have been checked. *)
Lemma build_table_declared :
  NoDup (smb_states b).*1 →
  (∀ t, t ∈ smb_transitions b → source t ∈ (smb_states b).*1 ∧ target t ∈ (smb_states b).*1) →
  ∃ table, build_transition_table (E := StateModelError) (smb_states b).*1 (smb_transitions b)
             = Ok table ∧ table_spec (smb_transitions b) table.
Proof. intros Hnd Hep. apply build_table_spec; [done..|]. apply small_names. Qed.

Lemma drop_paths_ok table :
  table_spec (smb_transitions b) table →
  try_fold (check_drop_path table DROPPED) tt (smb_states b).*1 = Ok tt ↔
  ∀ s, s ∈ (smb_states b).*1 → s ≠ DROPPED → ∃ ss, steps (smb_transitions b) s ss DROPPED.
Proof.
  intros Htbl. rewrite try_fold_check. setoid_rewrite check_drop_path_ok. split.
  - intros Hall s Hs Hne. destruct (Hall s Hs) as [?|[h Hh]]; [done|].
    destruct (tbl_hop _ _ Htbl _ _ _ Hh) as (_ & Hin & [->|(ss & Hss & _)]).
    + by exists [].
    + by exists (h :: ss).
  - intros Hall s Hs. destruct (decide (s = DROPPED)) as [|Hne]; [by left|right].
    destruct (Hall s Hs Hne) as [ss Hss]. by eapply (tbl_path _ _ Htbl).
Qed.

Lemma build_accepts : builder_ok b → ∃ m, StateModelBuilder_build b = Ok m.
Proof.
  intros [Hname Hst Hnd (i & Hi & Hii) Hep Hts Hdr Hpath]. unfold StateModelBuilder_build.
  destruct (smb_name b) eqn:Hn; [done|]. simpl. rewrite bool_decide_false by done.
  rewrite check_states_ok, Hi by done. rewrite bool_decide_true by set_solver. simpl.
  rewrite (proj2 (check_transitions_iff (list_to_set (smb_states b).*1) (smb_transitions b)
                    (list_to_set (smb_transitions b))))
    by (split_and!; [set_solver|done..]).
  destruct build_table_declared as (table & -> & Htbl); [done..|].
  rewrite (proj2 (find_dropped _ _) (conj eq_refl Hdr)).
  rewrite (proj2 (drop_paths_ok table Htbl) Hpath). eauto.
Qed.

Lemma build_inv m :
  StateModelBuilder_build b = Ok m →
  builder_ok b ∧ StateModelValid m ∧
  states_by_priority m = (smb_states b).*1 ∧ transitions_by_priority m = smb_transitions b ∧
  smb_initial_state b = Some (initial_state m) ∧ name m = smb_name b ∧
  ∀ s c, cardinality_for m s = Some c ↔ (s, c) ∈ smb_states b.
Proof.
  unfold StateModelBuilder_build. intros H.
  destruct (smb_name b) as [|ch nm] eqn:Hn; [done|]. simpl in H.
  case_bool_decide as Hst; [done|]. inv_ok H.
  pose proof (check_states_nodup _ _ Hok) as Hnd. rewrite check_states_ok in Hok by done.
  simplify_eq. destruct (smb_initial_state b) as [i|] eqn:Hi; [|done]. inv_ok H.
  reflect_bools. apply check_transitions_iff in Hok as (Hep & Hts & ->).
  assert (∀ t, t ∈ smb_transitions b →
    source t ∈ (smb_states b).*1 ∧ target t ∈ (smb_states b).*1) as Hep' by set_solver.
  destruct build_table_declared as (table & Htbl & Hspec); [done..|].
  rewrite Htbl in Hok0. injection Hok0 as <-.
  apply find_dropped in Hopt as [-> Hdr]. destruct a1.
  pose proof (proj1 (drop_paths_ok _ Hspec) Hok1) as Hpaths. simplify_eq.
  assert (∀ s c, (list_to_map (smb_states b) : gmap State _) !! s = Some c ↔
                 (s, c) ∈ smb_states b) as Hcard
    by (intros; by rewrite elem_of_list_to_map).
  split_and!; try done.
  - split; try done; [by rewrite Hn|]. exists i. set_solver.
  - split; simpl; try done.
    + destruct (smb_states b); done.
    + set_solver.
    + intros s. unfold cardinality_for. simpl. rewrite list_elem_of_fmap. split.
      * intros [c Hc%Hcard]. by exists (s, c).
      * intros ([? c] & -> & Hc%Hcard). eauto.
    + apply Hspec.
    + apply Hspec.
    + intros s Hs Hne. destruct (Hpaths s Hs Hne) as [ss Hss]. by eapply (tbl_path _ _ Hspec).
Qed.

Lemma build_no_panic : StateModelBuilder_build b ≠ Err Panicked.
Proof.
  unfold StateModelBuilder_build. destruct (is_empty _); [done|].
  case_bool_decide; [done|].
  destruct (try_fold check_state _ _) as [[[ss cards] bp]|e] eqn:Hs.
  2: { apply try_fold_err in Hs as ([[??]?] & [??] & _ & Hx). simpl in Hx.
       case_bool_decide; simplify_eq. done. }
  pose proof (check_states_nodup _ _ Hs) as Hnd. rewrite check_states_ok in Hs by done.
  simplify_eq. destruct (smb_initial_state b); [|done]. destruct (negb _); [done|].
  destruct (try_fold (check_transition _) _ _) as [ts|e] eqn:Ht.
  2: { apply try_fold_err in Ht as (? & ? & _ & Hx). unfold check_transition in Hx.
       repeat case_bool_decide; simplify_eq/=; done. }
  apply check_transitions_iff in Ht as (Hep & Hts & _).
  destruct build_table_declared as (table & -> & _); [done|set_solver|].
  destruct (find_first _ _) as [d|]; [|done].
  destruct (try_fold (check_drop_path _ _) _ _) as [|e] eqn:Hd; [done|].
  apply try_fold_err in Hd as (? & ? & _ & Hx). unfold check_drop_path in Hx.
  case_match; simplify_eq. done.
Qed.
End build.

(** ** Following next hops *)

(** The states visited by following next hops toward [target], at most [fuel] of
    them. *)
Fixpoint walk (m : StateModelDefinition) (fuel : nat) (s t : State) : list State :=
  match fuel with
  | 0 => []
  | S fuel =>
      match next_state_toward m s t with
      | Some h => h :: walk m fuel h t
      | None => []
      end
  end.

Section walking.
Context (m : StateModelDefinition) `{!StateModelValid m}.

Lemma next_state_self s : next_state_toward m s s = None.
Proof.
  destruct (next_state_toward m s s) as [h|] eqn:Hh; [|done].
  by apply valid_hop in Hh as [? _].
Qed.

Lemma walk_done fuel t : walk m fuel t t = [].
Proof. destruct fuel; simpl; [done|]. by rewrite next_state_self. Qed.

(** With fuel for some path, the walk ends at the target after declared
    transitions only, in no more hops than that path. *)
Lemma walk_reaches fuel s ss t :
  s ≠ t → steps (transitions_by_priority m) s ss t → hops ss ≤ fuel →
  last (walk m fuel s t) = Some t ∧ length (walk m fuel s t) ≤ hops ss ∧
  ∃ vs, walk m fuel s t = vs ++ [t] ∧ steps (transitions_by_priority m) s vs t.
Proof.
  revert s ss. induction fuel as [|fuel IH]; intros s ss Hne Hss Hf; [unfold hops in Hf; lia|].
  simpl. destruct (valid_path s t ss Hne Hss) as [h Hh]. rewrite Hh.
  destruct (valid_hop _ _ _ Hh) as (_ & Hin & [->|(ss' & Hss' & Hmin)]).
  { rewrite walk_done. split_and!; [done|unfold hops; simpl; lia|]. by exists []. }
  specialize (Hmin ss Hss). destruct (decide (h = t)) as [->|Hht].
  { rewrite walk_done. split_and!; [done|unfold hops; simpl; lia|]. by exists []. }
  destruct (IH h ss' Hht Hss') as (Hlast & Hlen & vs & Hw & Hvs); [lia|].
  rewrite Hw in *. split_and!.
  - by rewrite app_comm_cons, last_snoc.
  - simpl. lia.
  - exists (h :: vs). done.
Qed.

Lemma drop_path_exists s :
  s ∈ states_by_priority m → s ≠ DROPPED →
  ∃ ss, steps (transitions_by_priority m) s ss DROPPED.
Proof.
  intros Hs Hne. destruct (valid_drop s Hs Hne) as [h Hh].
  apply valid_hop in Hh as (_ & Hin & [->|(ss & Hss & _)]); [by exists []|].
  by exists (h :: ss).
Qed.

Lemma next_state_known s t h :
  next_state_toward m s t = Some h → s ∈ states_by_priority m ∧ h ∈ states_by_priority m.
Proof. intros (_ & Hin & _)%valid_hop. apply (valid_endpoints _ Hin). Qed.
End walking.

(** ** The built-in model *)

Lemma leader_standby_build : StateModelBuilder_build leader_standby_builder = Ok leader_standby.
Proof.
  unfold leader_standby. generalize leader_standby_builds.
  destruct (StateModelBuilder_build leader_standby_builder); [done|].
  intros H. discriminate H.
Qed.

Lemma leader_standby_states :
  states_by_priority leader_standby = [LEADER; STANDBY; OFFLINE; DROPPED].
Proof. vm_compute. reflexivity. Qed.

Lemma leader_standby_initial : initial_state leader_standby = OFFLINE.
Proof. vm_compute. reflexivity. Qed.

Lemma leader_standby_leader : cardinality_for leader_standby LEADER = Some (Exact 1).
Proof. vm_compute. reflexivity. Qed.
Lemma leader_standby_standby : cardinality_for leader_standby STANDBY = Some ReplicaCount.
Proof. vm_compute. reflexivity. Qed.
Lemma leader_standby_offline : cardinality_for leader_standby OFFLINE = Some Unbounded.
Proof. vm_compute. reflexivity. Qed.
Lemma leader_standby_dropped : cardinality_for leader_standby DROPPED = Some Unbounded.
Proof. vm_compute. reflexivity. Qed.

#[export] Instance leader_standby_valid : StateModelValid leader_standby.
Proof. apply (build_inv leader_standby_builder); [vm_compute; done|apply leader_standby_build]. Qed.

(** The lemmas above are what the other files use of the model. *)
#[global] Opaque leader_standby.

(** Building a state model succeeds exactly on well-formed declarations: a
    non-empty name, distinct states, a declared initial state, distinct
    transitions between declared states, and a declared DROPPED state that
    every other state can reach; it never panics. *)
Theorem build_accepts_iff b :
  (2 * len (smb_states b) + 2 < usize_MAX)%N →
  (is_ok (StateModelBuilder_build b) = true ↔ builder_ok b) ∧
  StateModelBuilder_build b ≠ Err Panicked.
Proof.
  intros Hsmall. split; [split|].
  - destruct (StateModelBuilder_build b) as [m|] eqn:Hb; [|done].
    intros _. by apply (build_inv b Hsmall m).
  - intros Hok. by destruct (build_accepts b Hsmall Hok) as [m ->].
  - apply (build_no_panic b Hsmall).
Qed.

Lemma build_accepts_iff_witness :
  (is_ok (StateModelBuilder_build leader_standby_builder) = true ↔
     builder_ok leader_standby_builder) ∧
  StateModelBuilder_build leader_standby_builder ≠ Err Panicked.
Proof. apply (build_accepts_iff leader_standby_builder). vm_compute. reflexivity. Defined.

(** C34: Every published state model carries the builder's declarations verbatim
    (states and transitions in order, one cardinality per state) and its
    next-hop table is correct: a hop is a declared transition starting a
    shortest path, and there is one whenever a path exists. *)
Theorem build_valid b m :
  (2 * len (smb_states b) + 2 < usize_MAX)%N →
  StateModelBuilder_build b = Ok m →
  StateModelValid m ∧
  states_by_priority m = (smb_states b).*1 ∧ transitions_by_priority m = smb_transitions b ∧
  smb_initial_state b = Some (initial_state m) ∧ name m = smb_name b ∧
  ∀ s c, cardinality_for m s = Some c ↔ (s, c) ∈ smb_states b.
Proof. intros Hsmall Hb. by apply (build_inv b Hsmall m). Qed.

Lemma build_valid_witness :
  StateModelValid leader_standby ∧
  states_by_priority leader_standby = [LEADER; STANDBY; OFFLINE; DROPPED].
Proof.
  pose proof (build_valid leader_standby_builder leader_standby
                ltac:(vm_compute; reflexivity) leader_standby_build) as H.
  split; [apply H|]. exact (proj1 (proj2 H)).
Defined.

(** Following next hops reaches the target: if any path of declared
    transitions leads from one state to another, repeating
    [next_state_toward] performs declared transitions and arrives within the
    length of that path. *)
Theorem next_hops_reach m s ss t :
  StateModelValid m → s ≠ t → steps (transitions_by_priority m) s ss t →
  last (walk m (hops ss) s t) = Some t ∧ length (walk m (hops ss) s t) ≤ hops ss ∧
  ∃ vs, walk m (hops ss) s t = vs ++ [t] ∧ steps (transitions_by_priority m) s vs t.
Proof. intros ???. by apply walk_reaches. Qed.

Lemma next_hops_reach_witness :
  last (walk leader_standby 3 LEADER DROPPED) = Some DROPPED ∧
  walk leader_standby 3 LEADER DROPPED = [STANDBY; OFFLINE; DROPPED].
Proof.
  split; [|vm_compute; reflexivity].
  refine (proj1 (next_hops_reach leader_standby LEADER [STANDBY; OFFLINE] DROPPED _ _ _)).
  - discriminate.
  - repeat split; apply list_elem_of_In; vm_compute; tauto.
Defined.
