(* ===== verification/Session.v ===== *)
(** * Participant sessions

    Models [src/model/session.rs]: session allocation, liveness, publication
    and injection of CurrentState records, carry-over into a replacement
    session, and the snapshot that exposes only live sessions.

    Every method that takes [&mut self] leaves with [?] before its first write,
    so an [Err] is a call that changed nothing and an [Ok] carries the new
    state. *)

From S2P Require Import Prelude Identity StateMaps.

Record LiveInstance := MkLiveInstance {
  live_instance_id : InstanceId;
  live_session_id : SessionId
}.

Record ActiveCurrentState := MkActiveCurrentState {
  active_session_id : SessionId;
  active_resources : gmap ResourceId CurrentState
}.

Record ParticipantSessionSnapshot := MkParticipantSessionSnapshot {
  snap_live_instances : gmap InstanceId LiveInstance;
  snap_active_current_state : gmap InstanceId ActiveCurrentState
}.

Record ParticipantSessionState := MkParticipantSessionState {
  next_session_sequence : N;
  known_sessions : gmap SessionId InstanceId;
  live_instances : gmap InstanceId LiveInstance;
  current_states : gmap InstanceId (gmap SessionId (gmap ResourceId CurrentState));
  default_initial_state : State;
  resource_initial_states : gmap ResourceId State
}.

Inductive SessionError :=
| AlreadyLive (instance : InstanceId)
| NotLive (instance : InstanceId)
| SessionIdExhausted
| SessionMismatch (instance_id : InstanceId) (expected actual : SessionId)
| SessionOwnershipMismatch (instance_id : InstanceId) (session_id : SessionId) (owner : InstanceId)
| UnknownSession (session_id : SessionId)
| CurrentStateError (error : ReplicaStateError).

(** [{session_id:?}] of a derived [Debug] prints the constructor and its field. *)
Definition display_session_error (e : SessionError) : string :=
  match e with
  | AlreadyLive i => "instance " +:+ instance_str i +:+ " is already live"
  | NotLive i => "instance " +:+ instance_str i +:+ " is not live"
  | SessionIdExhausted => "session identifier space exhausted"
  | SessionMismatch i _ _ => "session does not own live instance " +:+ instance_str i
  | SessionOwnershipMismatch i s owner =>
      "session SessionId(" +:+ pretty (session_value s) +:+ ") belongs to " +:+
      instance_str owner +:+ ", not " +:+ instance_str i
  | UnknownSession _ => "session is unknown to this model"
  | CurrentStateError e => display_replica_state_error e
  end.

Definition ParticipantSessionState_default : ParticipantSessionState :=
  MkParticipantSessionState 0 ∅ ∅ ∅ OFFLINE ∅.

Definition ParticipantSessionState_new : ParticipantSessionState :=
  ParticipantSessionState_default.

Definition set_resource_initial_state (self : ParticipantSessionState) (resource_id : ResourceId)
    (initial : State) : ParticipantSessionState :=
  MkParticipantSessionState (next_session_sequence self) (known_sessions self)
    (live_instances self) (current_states self) (default_initial_state self)
    (<[resource_id := initial]> (resource_initial_states self)).

(** Field writes of the methods below. *)
Definition with_live (self : ParticipantSessionState) (live : gmap InstanceId LiveInstance)
  : ParticipantSessionState :=
  MkParticipantSessionState (next_session_sequence self) (known_sessions self) live
    (current_states self) (default_initial_state self) (resource_initial_states self).

Definition with_current (self : ParticipantSessionState)
    (current : gmap InstanceId (gmap SessionId (gmap ResourceId CurrentState)))
  : ParticipantSessionState :=
  MkParticipantSessionState (next_session_sequence self) (known_sessions self)
    (live_instances self) current (default_initial_state self) (resource_initial_states self).

Definition allocate_session (self : ParticipantSessionState) (instance_id : InstanceId)
  : result (SessionId * ParticipantSessionState) SessionError :=
  match checked_add_u64 (next_session_sequence self) 1 with
  | None => Err SessionIdExhausted
  | Some next =>
      let session_id := SessionId_from_sequence next in
      Ok (session_id,
          MkParticipantSessionState next (<[session_id := instance_id]> (known_sessions self))
            (live_instances self) (current_states self) (default_initial_state self)
            (resource_initial_states self))
  end.

Definition require_live_session (self : ParticipantSessionState) (instance_id : InstanceId)
    (session_id : SessionId) : result unit SessionError :=
  match live_instances self !! instance_id with
  | Some live =>
      if bool_decide (live_session_id live = session_id) then Ok tt
      else Err (SessionMismatch instance_id (live_session_id live) session_id)
  | None => Err (NotLive instance_id)
  end.

(** [current_states.get(instance).and_then(|sessions| sessions.get(&session))] *)
Definition session_resources (self : ParticipantSessionState) (instance_id : InstanceId)
    (session_id : SessionId) : option (gmap ResourceId CurrentState) :=
  match current_states self !! instance_id with
  | Some sessions => sessions !! session_id
  | None => None
  end.

(** [builder.set_state(..).map_err(SessionError::CurrentState)?] *)
Definition set_state_or_fail (builder : CurrentStateBuilder) (p : PartitionId) (i : InstanceId)
    (s : State) : result CurrentStateBuilder SessionError :=
  map_err CurrentStateError (try_builder (CurrentStateBuilder_set_state builder p i s)).

Definition store_current_state (self : ParticipantSessionState) (instance_id : InstanceId)
    (session_id : SessionId) (resource_id : ResourceId) (new_states : gmap PartitionId State)
  : result ParticipantSessionState SessionError :=
  let existing : option CurrentState :=
    match session_resources self instance_id session_id with
    | Some resources => resources !! resource_id
    | None => None
    end in
  let merged_states : gmap (PartitionId * InstanceId) State :=
    match existing with
    | Some existing =>
        foldl (λ merged '(partition_id, instances),
          foldl (λ merged '(existing_instance, state),
            <[(partition_id, existing_instance) := state]> merged)
          merged (entries instances))
        ∅ (entries (CurrentState_entries existing))
    | None => ∅
    end in
  let merged_states :=
    foldl (λ merged '(partition_id, state), <[(partition_id, instance_id) := state]> merged)
      merged_states (entries new_states) in
  let? builder := try_fold (λ builder '(partition_id, stored_instance, state),
                    set_state_or_fail builder partition_id stored_instance state)
                  CurrentState_builder (entries merged_states) in
  let current_state := CurrentStateBuilder_build builder in
  let sessions := default ∅ (current_states self !! instance_id) in
  let resources := default ∅ (sessions !! session_id) in
  Ok (with_current self
        (<[instance_id := <[session_id := <[resource_id := current_state]> resources]> sessions]>
          (current_states self))).

(** One carried resource: the instance's own replicas restart in the initial
    state. *)
Definition carry_resource (instance_id : InstanceId) (initial : State)
    (current_state : CurrentState) : result CurrentState SessionError :=
  let? builder := try_fold (λ builder '(partition_id, instances),
                    try_fold (λ builder '(stored_instance, state),
                      let carried_state :=
                        if bool_decide (stored_instance = instance_id) then initial else state in
                      set_state_or_fail builder partition_id stored_instance carried_state)
                    builder (entries instances))
                  CurrentState_builder (entries (CurrentState_entries current_state)) in
  Ok (CurrentStateBuilder_build builder).

Definition initial_state_for (self : ParticipantSessionState) (resource_id : ResourceId) : State :=
  default (default_initial_state self) (resource_initial_states self !! resource_id).

(** [None] selects the last session of the map, [iter().next_back()]. *)
Definition previous_resources (self : ParticipantSessionState) (instance_id : InstanceId)
    (previous_session_id : option SessionId) : option (gmap ResourceId CurrentState) :=
  match current_states self !! instance_id with
  | None => None
  | Some sessions =>
      match previous_session_id with
      | Some session_id => sessions !! session_id
      | None => snd <$> last (entries sessions)
      end
  end.

Definition carried_current_states (self : ParticipantSessionState) (instance_id : InstanceId)
    (previous_session_id : option SessionId) : result (gmap ResourceId CurrentState) SessionError :=
  match previous_resources self instance_id previous_session_id with
  | None => Ok ∅
  | Some previous =>
      try_fold (λ carried '(resource_id, current_state),
        let? cs := carry_resource instance_id (initial_state_for self resource_id) current_state in
        Ok (<[resource_id := cs]> carried))
      ∅ (entries previous)
  end.

(** The tail of [connect] and [expire_and_reconnect]. *)
Definition begin_session (self : ParticipantSessionState) (instance_id : InstanceId)
    (session_id : SessionId) (carried : gmap ResourceId CurrentState) : ParticipantSessionState :=
  let self := with_live self
                (<[instance_id := MkLiveInstance instance_id session_id]> (live_instances self)) in
  with_current self
    (<[instance_id := <[session_id := carried]> (default ∅ (current_states self !! instance_id))]>
      (current_states self)).

Definition connect (self : ParticipantSessionState) (instance_id : InstanceId)
  : result (SessionId * ParticipantSessionState) SessionError :=
  match live_instances self !! instance_id with
  | Some _ => Err (AlreadyLive instance_id)
  | None =>
      let? carried := carried_current_states self instance_id None in
      let? allocated := allocate_session self instance_id in
      let '(session_id, self) := allocated in
      Ok (session_id, begin_session self instance_id session_id carried)
  end.

Definition disconnect (self : ParticipantSessionState) (instance_id : InstanceId)
    (session_id : SessionId) : result ParticipantSessionState SessionError :=
  let? u := require_live_session self instance_id session_id in
  Ok (with_live self (delete instance_id (live_instances self))).

Definition expire_and_reconnect (self : ParticipantSessionState) (instance_id : InstanceId)
    (old_session_id : SessionId) : result (SessionId * ParticipantSessionState) SessionError :=
  let? u := require_live_session self instance_id old_session_id in
  let? carried := carried_current_states self instance_id (Some old_session_id) in
  let? allocated := allocate_session self instance_id in
  let '(new_session_id, self) := allocated in
  Ok (new_session_id, begin_session self instance_id new_session_id carried).

Definition publish_current_state (self : ParticipantSessionState) (instance_id : InstanceId)
    (session_id : SessionId) (resource_id : ResourceId) (new_states : gmap PartitionId State)
  : result ParticipantSessionState SessionError :=
  let? u := require_live_session self instance_id session_id in
  store_current_state self instance_id session_id resource_id new_states.

Definition inject_session_current_state (self : ParticipantSessionState)
    (instance_id : InstanceId) (session_id : SessionId) (resource_id : ResourceId)
    (new_states : gmap PartitionId State) : result ParticipantSessionState SessionError :=
  match known_sessions self !! session_id with
  | None => Err (UnknownSession session_id)
  | Some owner =>
      if negb (bool_decide (owner = instance_id)) then
        Err (SessionOwnershipMismatch instance_id session_id owner)
      else store_current_state self instance_id session_id resource_id new_states
  end.

Definition session_snapshot (self : ParticipantSessionState) : ParticipantSessionSnapshot :=
  let active := foldl (λ active '(instance_id, live),
      let resources := default ∅ (session_resources self instance_id (live_session_id live)) in
      <[instance_id := MkActiveCurrentState (live_session_id live) resources]> active)
    ∅ (entries (live_instances self)) in
  MkParticipantSessionSnapshot (live_instances self) active.

(** * Reference descriptions *)

(** Partition membership kept, the instance's own replicas reset. *)
Definition reset_replicas (instance_id : InstanceId) (initial : State) (m : replica_map)
  : replica_map :=
  (λ insts : gmap InstanceId State, alter (λ _, initial) instance_id insts) <$> m.

(** The instance's own replicas overwritten with the published states. *)
Definition publish_replicas (instance_id : InstanceId) (new_states : gmap PartitionId State)
    (m : replica_map) : replica_map :=
  merge (λ insts state, match state with
                        | Some s => Some (<[instance_id := s]> (default ∅ insts))
                        | None => insts
                        end) m new_states.

Definition reset_resources (self : ParticipantSessionState) (instance_id : InstanceId)
    (previous : gmap ResourceId CurrentState) : gmap ResourceId CurrentState :=
  map_imap (λ r cs, Some (current_of (reset_replicas instance_id (initial_state_for self r)
                                        (CurrentState_entries cs)))) previous.

(** What the snapshot shows of one live instance. *)
Definition active_of (self : ParticipantSessionState) (i : InstanceId) : option ActiveCurrentState :=
  snap_active_current_state (session_snapshot self) !! i.

Definition cs_wf (cs : CurrentState) : Prop := rmap_wf (CurrentState_entries cs).

(** ** Building a CurrentState from distinct replicas *)

Lemma set_state_fold l b :
  try_fold (λ builder '(p, i, s), set_state_or_fail builder p i s) b l =
  map_err CurrentStateError (map_ok MkCurrentStateBuilder (set_states l (csb_states b))).
Proof.
  revert b. induction l as [|[[p i] s] l IH]; intros b; [by destruct b|].
  unfold set_states in *. simpl. unfold set_state_or_fail, CurrentStateBuilder_set_state.
  destruct (ReplicaStates_insert _ _ _ _) as [rs [u|e]]; simpl; [|done]. by rewrite IH.
Qed.

Lemma build_current l (m : replica_map) :
  NoDup l.*1 → rmap_wf m → (∀ p i s, (p, i, s) ∈ l ↔ rget m p i = Some s) →
  try_fold (λ builder '(p, i, s), set_state_or_fail builder p i s) CurrentState_builder l =
  Ok (MkCurrentStateBuilder (MkReplicaStates m)).
Proof.
  intros Hnd Hwf Hl. rewrite set_state_fold.
  destruct (set_states_ok l ReplicaStates_default Hnd) as (rs & Hrun & Hwf' & Hget).
  { intros p i s _. unfold ReplicaStates_get. simpl. by rewrite lookup_empty. }
  change (csb_states CurrentState_builder) with ReplicaStates_default. rewrite Hrun. simpl.
  destruct rs as [m']. do 3 f_equal. simpl in *.
  apply rmap_wf_ext; [apply Hwf'; auto with clustodian|done|].
  intros p i. apply option_eq. intros s. rewrite Hget, Hl. simpl.
  unfold rget at 1. rewrite lookup_empty. simpl. naive_solver.
Qed.

Lemma rget_reset i init m p j :
  rget (reset_replicas i init m) p j = (λ s, if bool_decide (j = i) then init else s) <$> rget m p j.
Proof.
  unfold rget, reset_replicas. rewrite lookup_fmap. destruct (m !! p) as [insts|]; [|done]. simpl.
  case_bool_decide as Hj; [subst j; by rewrite lookup_alter_eq|].
  rewrite lookup_alter_ne by done. by destruct (insts !! j).
Qed.

Lemma reset_wf i init m : rmap_wf m → rmap_wf (reset_replicas i init m).
Proof.
  intros Hwf p insts Hp. unfold reset_replicas in Hp. rewrite lookup_fmap in Hp.
  destruct (m !! p) as [insts0|] eqn:Hm; simplify_eq/=. intros He.
  apply (Hwf _ _ Hm). apply map_eq. intros j. rewrite lookup_empty.
  pose proof (f_equal (lookup j) He) as Hj. rewrite lookup_empty, lookup_alter in Hj.
  case_decide; [subst; by apply fmap_None in Hj|done].
Qed.

Lemma rget_publish i new m p j :
  rget (publish_replicas i new m) p j =
  match new !! p with
  | Some s => if bool_decide (j = i) then Some s else rget m p j
  | None => rget m p j
  end.
Proof.
  unfold rget, publish_replicas. rewrite lookup_merge.
  destruct (m !! p) as [insts|] eqn:Hm, (new !! p) as [s|] eqn:Hn; simpl; try done;
    case_bool_decide as Hj; try subst j; rewrite ?lookup_insert_eq, ?lookup_insert_ne by done; done.
Qed.

Lemma publish_wf i new m : rmap_wf m → rmap_wf (publish_replicas i new m).
Proof.
  intros Hwf p insts Hp. unfold publish_replicas in Hp. rewrite lookup_merge in Hp.
  destruct (m !! p) as [insts0|] eqn:Hm, (new !! p) as [s|] eqn:Hn; simplify_eq/=;
    try apply insert_non_empty. by eapply Hwf.
Qed.

(** ** Carrying and storing never fail *)

Lemma carry_resource_eq i init cs :
  cs_wf cs → carry_resource i init cs = Ok (current_of (reset_replicas i init (CurrentState_entries cs))).
Proof.
  intros Hwf. unfold carry_resource.
  set (g := λ '(p, j, s), (p, j, if bool_decide (j = i) then init else s)
      : PartitionId * InstanceId * State).
  assert (try_fold (λ builder '(p, insts),
            try_fold (λ builder '(j, s),
              set_state_or_fail builder p j (if bool_decide (j = i) then init else s))
            builder (entries insts)) CurrentState_builder (entries (CurrentState_entries cs)) =
          try_fold (λ builder '(p, j, s), set_state_or_fail builder p j s) CurrentState_builder
            (g <$> replica_list (CurrentState_entries cs))) as ->.
  { rewrite try_fold_fmap. unfold replica_list. rewrite <-try_fold_bind.
    apply try_fold_ext. intros b [p insts] _. rewrite try_fold_fmap.
    apply try_fold_ext. by intros b' [j s] _. }
  rewrite (build_current _ (reset_replicas i init (CurrentState_entries cs))); [done| | |].
  - assert ((g <$> replica_list (CurrentState_entries cs)).*1 =
            (replica_list (CurrentState_entries cs)).*1) as ->; [|apply NoDup_replica_list].
    rewrite <-list_fmap_compose. apply list_fmap_ext. by intros ? [[p j] s] _.
  - by apply reset_wf.
  - intros p j s. rewrite rget_reset, list_elem_of_fmap, fmap_Some. split.
    + intros ([[p' j'] s'] & [= -> -> ->] & Hin%elem_of_replica_list). eauto.
    + intros (s' & Hs & ->). exists (p, j, s'). split; [done|]. by apply elem_of_replica_list.
Qed.

Lemma carried_resources_eq self i previous :
  map_Forall (λ _, cs_wf) previous →
  try_fold (λ carried '(r, cs),
    let? cs := carry_resource i (initial_state_for self r) cs in
    Ok (<[r := cs]> carried)) ∅ (entries previous) = Ok (reset_resources self i previous).
Proof.
  intros Hwf. unfold reset_resources.
  rewrite <-(foldl_insert_entries_fn (λ r cs, current_of (reset_replicas i (initial_state_for self r)
                                        (CurrentState_entries cs))) previous).
  assert (∀ r cs, (r, cs) ∈ entries previous → cs_wf cs) as Hall.
  { intros r cs Hin%elem_of_entries. by apply (Hwf r cs). }
  generalize (∅ : gmap ResourceId CurrentState) as acc. revert Hall.
  induction (entries previous) as [|[r cs] l IH]; intros Hall acc; simpl; [done|].
  rewrite carry_resource_eq by (eapply Hall; left). apply IH. intros r' cs' Hin.
  eapply Hall. by right.
Qed.

(** The replicas [store_current_state] merges. *)
Lemma merged_lookup i new m p j :
  foldl (λ merged '(partition_id, state), <[(partition_id, i) := state]> merged)
    (foldl (λ merged '(partition_id, instances),
       foldl (λ merged '(existing_instance, state),
         <[(partition_id, existing_instance) := state]> merged) merged (entries instances))
       (∅ : gmap (PartitionId * InstanceId) State) (entries m)) (entries new) !! (p, j) =
  rget (publish_replicas i new m) p j.
Proof.
  assert (foldl (λ merged '(partition_id, instances),
      foldl (λ merged '(existing_instance, state),
        <[(partition_id, existing_instance) := state]> merged) merged (entries instances))
      (∅ : gmap (PartitionId * InstanceId) State) (entries m) =
    foldl (λ t q, <[q.1 := q.2]> t) ∅ (replica_list m)) as ->.
  { unfold replica_list. rewrite <-foldl_bind. apply foldl_ext. intros t [q insts] _.
    rewrite foldl_fmap. apply foldl_ext. by intros ? [k s] _. }
  rewrite (foldl_ext _ (λ t q, <[(q.1, i) := q.2]> t) (entries new)) by by intros ? [? ?] _.
  rewrite <-(foldl_fmap (λ t q, <[q.1 := q.2]> t)
               (λ q : PartitionId * State, ((q.1, i), q.2))).
  assert (((λ q : PartitionId * State, ((q.1, i), q.2)) <$> entries new).*1 =
          (λ q, (q, i)) <$> map_keys new) as Hk.
  { unfold map_keys. by rewrite <-!list_fmap_compose. }
  assert (NoDup ((λ q : PartitionId, (q, i)) <$> map_keys new)) as Hnd.
  { apply NoDup_fmap; [by intros ?? [= ->]|apply NoDup_map_keys]. }
  rewrite !foldl_insert_lookup by (rewrite ?Hk; done || apply NoDup_replica_list).
  rewrite lookup_empty, rget_publish.
  assert ((list_to_map (replica_list m) : gmap _ State) !! (p, j) = rget m p j) as ->.
  { apply option_eq. intros s. rewrite <-elem_of_list_to_map by apply NoDup_replica_list.
    apply elem_of_replica_list. }
  destruct (_ !! (p, j)) as [s|] eqn:Hs.
  - apply elem_of_list_to_map in Hs; [|by rewrite Hk].
    apply list_elem_of_fmap in Hs as ([q t] & [= -> -> ->] & Hin%elem_of_entries).
    rewrite Hin. by rewrite bool_decide_true.
  - apply not_elem_of_list_to_map_2 in Hs. rewrite Hk in Hs.
    destruct (new !! p) as [t|] eqn:Hn; [case_bool_decide as Hj|]; [|by destruct (rget m p j)..].
    subst j. destruct Hs. apply list_elem_of_fmap. exists p. split; [done|].
    apply elem_of_map_keys. eauto.
Qed.

(** ** Reading and writing the stored records *)

Definition put_resources (self : ParticipantSessionState) (i : InstanceId) (s : SessionId)
    (rs : gmap ResourceId CurrentState) : ParticipantSessionState :=
  with_current self
    (<[i := <[s := rs]> (default ∅ (current_states self !! i))]> (current_states self)).

Lemma session_resources_put self i s rs j t :
  session_resources (put_resources self i s rs) j t =
  if decide (i = j ∧ s = t) then Some rs else session_resources self j t.
Proof.
  unfold session_resources, put_resources. simpl.
  destruct (decide (i = j)) as [->|Hi].
  - rewrite lookup_insert_eq. destruct (decide (s = t)) as [->|Hs].
    + rewrite lookup_insert_eq. by rewrite decide_True.
    + rewrite lookup_insert_ne, decide_False by naive_solver.
      destruct (current_states self !! j); simpl; [done|]. by rewrite lookup_empty.
  - rewrite lookup_insert_ne, decide_False by naive_solver. done.
Qed.

Definition stored_replicas (self : ParticipantSessionState) (i : InstanceId) (s : SessionId)
    (r : ResourceId) : replica_map :=
  match session_resources self i s with
  | Some rs => match rs !! r with Some cs => CurrentState_entries cs | None => ∅ end
  | None => ∅
  end.

Lemma store_current_state_eq self i s r new :
  rmap_wf (stored_replicas self i s r) →
  store_current_state self i s r new =
  Ok (put_resources self i s
        (<[r := current_of (publish_replicas i new (stored_replicas self i s r))]>
          (default ∅ (session_resources self i s)))).
Proof.
  intros Hwf. unfold store_current_state.
  assert (∀ o : option CurrentState,
    match o with
    | Some existing => foldl (λ merged '(partition_id, instances),
          foldl (λ merged '(existing_instance, state),
            <[(partition_id, existing_instance) := state]> merged) merged (entries instances))
        (∅ : gmap (PartitionId * InstanceId) State) (entries (CurrentState_entries existing))
    | None => ∅
    end = foldl (λ merged '(partition_id, instances),
          foldl (λ merged '(existing_instance, state),
            <[(partition_id, existing_instance) := state]> merged) merged (entries instances))
        ∅ (entries (match o with Some cs => CurrentState_entries cs | None => ∅ end))) as Ho
    by (intros [cs|]; [done|by rewrite entries_empty]).
  rewrite Ho. clear Ho.
  assert (match (match session_resources self i s with
                 | Some resources => resources !! r | None => None end) with
          | Some cs => CurrentState_entries cs | None => ∅ end = stored_replicas self i s r) as ->.
  { unfold stored_replicas. by destruct (session_resources self i s). }
  rewrite (build_current _ (publish_replicas i new (stored_replicas self i s r)));
    [|apply NoDup_map_keys|by apply publish_wf|].
  - unfold put_resources, session_resources. do 3 f_equal.
    by destruct (current_states self !! i); simpl; rewrite ?lookup_empty.
  - intros p j t. rewrite elem_of_entries. by rewrite merged_lookup.
Qed.

Lemma active_of_eq self i :
  active_of self i =
  (λ l, MkActiveCurrentState (live_session_id l)
          (default ∅ (session_resources self i (live_session_id l)))) <$> live_instances self !! i.
Proof.
  unfold active_of, session_snapshot. simpl.
  rewrite (foldl_ext _ (λ t p, <[p.1 := MkActiveCurrentState (live_session_id p.2)
      (default ∅ (session_resources self p.1 (live_session_id p.2)))]> t)) by by intros ? [? ?] _.
  rewrite (foldl_insert_entries_fn (λ i l, MkActiveCurrentState (live_session_id l)
      (default ∅ (session_resources self i (live_session_id l))))).
  rewrite map_lookup_imap. by destruct (live_instances self !! i).
Qed.

Lemma snapshot_ext st1 st2 :
  live_instances st1 = live_instances st2 → (∀ i, active_of st1 i = active_of st2 i) →
  session_snapshot st1 = session_snapshot st2.
Proof.
  intros Hl Ha. unfold active_of in Ha. destruct (session_snapshot st1) as [l1 a1] eqn:E1.
  destruct (session_snapshot st2) as [l2 a2] eqn:E2. simpl in Ha.
  f_equal; [|by apply map_eq]. unfold session_snapshot in E1, E2. by simplify_eq.
Qed.

(** * The session invariant *)

(** Sessions are numbered consecutively from one and never reused; every
    session has one owner and one record under it; a live instance is on the
    latest of its sessions. *)
Record session_inv (st : ParticipantSessionState) : Prop := {
  si_width : (next_session_sequence st ≤ u64_MAX)%N;
  si_known : ∀ n, is_Some (known_sessions st !! MkSessionId n) ↔
                  (1 ≤ n ≤ next_session_sequence st)%N;
  si_live : ∀ i l, live_instances st !! i = Some l →
    live_instance_id l = i ∧ known_sessions st !! live_session_id l = Some i;
  si_stored : ∀ i s, is_Some (session_resources st i s) ↔ known_sessions st !! s = Some i;
  si_wf : ∀ i s rs, session_resources st i s = Some rs → map_Forall (λ _, cs_wf) rs;
  si_latest : ∀ i l s, live_instances st !! i = Some l → known_sessions st !! s = Some i →
    (session_value s ≤ session_value (live_session_id l))%N
}.

(** The calls a client can make. *)
Inductive session_step : ParticipantSessionState → ParticipantSessionState → Prop :=
| step_initial st r s : session_step st (set_resource_initial_state st r s)
| step_connect st i s st' : connect st i = Ok (s, st') → session_step st st'
| step_disconnect st i s st' : disconnect st i s = Ok st' → session_step st st'
| step_expire st i old s st' :
    expire_and_reconnect st i old = Ok (s, st') → session_step st st'
| step_publish st i s r new st' :
    publish_current_state st i s r new = Ok st' → session_step st st'
| step_inject st i s r new st' :
    inject_session_current_state st i s r new = Ok st' → session_step st st'.

Definition session_reachable (st : ParticipantSessionState) : Prop :=
  rtc session_step ParticipantSessionState_new st.

Lemma session_inv_new : session_inv ParticipantSessionState_new.
Proof.
  split; simpl; try done.
  - intros n. rewrite lookup_empty. split; [by intros []|lia].
  - intros i s. unfold session_resources. simpl. rewrite !lookup_empty.
    split; [by intros []|done].
Qed.

Lemma stored_replicas_wf st i s r : session_inv st → rmap_wf (stored_replicas st i s r).
Proof.
  intros Hinv. unfold stored_replicas. destruct (session_resources st i s) as [rs|] eqn:Hrs;
    [|auto with clustodian].
  destruct (rs !! r) as [cs|] eqn:Hr; [|auto with clustodian].
  by apply (si_wf _ Hinv _ _ _ Hrs r cs).
Qed.

(** Writing records of an existing session keeps the invariant. *)
Lemma session_inv_put st i s rs :
  session_inv st → known_sessions st !! s = Some i → map_Forall (λ _, cs_wf) rs →
  session_inv (put_resources st i s rs).
Proof.
  intros Hinv Hs Hrs. split; simpl; try apply Hinv.
  - intros j t. rewrite session_resources_put. case_decide as Hd; [|apply Hinv].
    destruct Hd as [<- <-]. rewrite Hs. split; [done|eauto].
  - intros j t rs'. rewrite session_resources_put. case_decide; [by intros [= <-]|apply Hinv].
Qed.

Lemma store_inv st i s r new st' :
  session_inv st → known_sessions st !! s = Some i →
  store_current_state st i s r new = Ok st' → session_inv st'.
Proof.
  intros Hinv Hs. pose proof (stored_replicas_wf st i s r Hinv) as Hwf.
  rewrite store_current_state_eq by done. intros [= <-].
  apply session_inv_put; [done..|]. apply map_Forall_insert_2.
  - by apply publish_wf.
  - destruct (session_resources st i s) as [rs|] eqn:E; [by apply (si_wf _ Hinv _ _ _ E)|].
    apply map_Forall_empty.
Qed.

Lemma reset_resources_wf st i rs :
  map_Forall (λ _, cs_wf) rs → map_Forall (λ _, cs_wf) (reset_resources st i rs).
Proof.
  intros Hwf r cs. unfold reset_resources. rewrite map_lookup_imap.
  destruct (rs !! r) as [cs0|] eqn:Hr; [|done]. intros [= <-].
  apply reset_wf. by apply (Hwf r cs0).
Qed.

Lemma carried_eq st i o :
  session_inv st →
  carried_current_states st i o =
  Ok (match previous_resources st i o with Some rs => reset_resources st i rs | None => ∅ end).
Proof.
  intros Hinv. unfold carried_current_states.
  destruct (previous_resources st i o) as [rs|] eqn:Hp; [|done]. apply carried_resources_eq.
  unfold previous_resources in Hp. destruct (current_states st !! i) as [ss|] eqn:Hss; [|done].
  assert (∃ s, session_resources st i s = Some rs) as [s Hs].
  { unfold session_resources. rewrite Hss. destruct o as [s|]; [eauto|].
    destruct (last (entries ss)) as [[s rs']|] eqn:Hl; simplify_eq/=. exists s.
    apply elem_of_entries. apply last_Some in Hl as [l' ->]. set_solver. }
  by apply (si_wf _ Hinv _ _ _ Hs).
Qed.

Lemma require_live_ok st i s :
  require_live_session st i s = Ok tt ↔
  ∃ l, live_instances st !! i = Some l ∧ live_session_id l = s.
Proof.
  unfold require_live_session. destruct (live_instances st !! i) as [l|]; [|naive_solver].
  case_bool_decide; naive_solver.
Qed.

(** ** Allocation *)

Definition fresh_session (st : ParticipantSessionState) : SessionId :=
  MkSessionId (next_session_sequence st + 1).

Definition allocated (st : ParticipantSessionState) (i : InstanceId) : ParticipantSessionState :=
  MkParticipantSessionState (next_session_sequence st + 1)
    (<[fresh_session st := i]> (known_sessions st)) (live_instances st) (current_states st)
    (default_initial_state st) (resource_initial_states st).

Lemma allocate_session_eq st i :
  allocate_session st i =
  if (next_session_sequence st <? u64_MAX)%N then Ok (fresh_session st, allocated st i)
  else Err SessionIdExhausted.
Proof.
  unfold allocate_session, checked_add_u64, SessionId_from_sequence.
  destruct (_ <=? _)%N eqn:E1, (_ <? _)%N eqn:E2; reflect_bools; try lia; done.
Qed.

Lemma fresh_unknown st : session_inv st → known_sessions st !! fresh_session st = None.
Proof.
  intros Hinv. apply eq_None_not_Some. unfold fresh_session. rewrite (si_known _ Hinv). lia.
Qed.

Lemma known_bound st s i :
  session_inv st → known_sessions st !! s = Some i →
  (1 ≤ session_value s ≤ next_session_sequence st)%N.
Proof.
  intros Hinv Hs. destruct s as [n]. simpl. apply (si_known _ Hinv). eauto.
Qed.

Lemma begin_session_eq st i s carried :
  begin_session st i s carried =
  put_resources (with_live st (<[i := MkLiveInstance i s]> (live_instances st))) i s carried.
Proof. done. Qed.

Lemma begin_inv st i carried :
  session_inv st → (next_session_sequence st < u64_MAX)%N → map_Forall (λ _, cs_wf) carried →
  session_inv (begin_session (allocated st i) i (fresh_session st) carried).
Proof.
  intros Hinv Hlt Hc. pose proof (fresh_unknown st Hinv) as Hfresh. rewrite begin_session_eq.
  split.
  - simpl. lia.
  - intros n. simpl. destruct (decide (fresh_session st = MkSessionId n)) as [Heq|Hne].
    + rewrite <-Heq, lookup_insert_eq. injection Heq as <-. split; [lia|eauto].
    + rewrite lookup_insert_ne, (si_known _ Hinv) by done.
      assert (n ≠ next_session_sequence st + 1)%N by (intros ->; done). lia.
  - intros j l. simpl. destruct (decide (i = j)) as [<-|Hne].
    + rewrite lookup_insert_eq. intros [= <-]. simpl. by rewrite lookup_insert_eq.
    + rewrite lookup_insert_ne by done. intros [? Hk]%(si_live _ Hinv). split; [done|].
      rewrite lookup_insert_ne; [done|]. intros Heq. congruence.
  - intros j t. rewrite session_resources_put. simpl.
    destruct (decide (fresh_session st = t)) as [<-|Hne].
    + rewrite lookup_insert_eq. case_decide as Hd; [destruct Hd as [<- _]; split; eauto; done|].
      change (is_Some (session_resources st j (fresh_session st)) ↔ Some i = Some j).
      rewrite (si_stored _ Hinv), Hfresh. naive_solver.
    + rewrite lookup_insert_ne, decide_False by naive_solver. apply (si_stored _ Hinv).
  - intros j t rs. rewrite session_resources_put. case_decide; [by intros [= <-]|].
    apply (si_wf _ Hinv).
  - intros j l t. simpl. destruct (decide (i = j)) as [<-|Hne].
    + rewrite lookup_insert_eq. intros [= <-]. simpl.
      destruct (decide (fresh_session st = t)) as [<-|Hne]; [done|].
      rewrite lookup_insert_ne by done. intros Hk%known_bound; [lia|done].
    + rewrite lookup_insert_ne by done. intros Hl Ht. eapply (si_latest _ Hinv); [done|].
      rewrite lookup_insert_ne in Ht; [done|]. intros Heq. rewrite Heq, lookup_insert_eq in Ht.
      congruence.
Qed.

(** The records the next session of an instance starts from. *)
Definition carried_or_empty (st : ParticipantSessionState) (i : InstanceId) (o : option SessionId)
  : gmap ResourceId CurrentState :=
  match previous_resources st i o with Some rs => reset_resources st i rs | None => ∅ end.

Lemma carried_wf st i o : session_inv st → map_Forall (λ _, cs_wf) (carried_or_empty st i o).
Proof.
  intros Hinv. unfold carried_or_empty, previous_resources.
  destruct (current_states st !! i) as [ss|] eqn:Hss; [|apply map_Forall_empty].
  assert (∀ s rs, ss !! s = Some rs → map_Forall (λ _, cs_wf) rs) as Hall.
  { intros s rs Hs. apply (si_wf _ Hinv i s). unfold session_resources. by rewrite Hss. }
  destruct o as [s|].
  - destruct (ss !! s) eqn:Hs; [|apply map_Forall_empty]. by eapply reset_resources_wf, Hall.
  - destruct (last (entries ss)) as [[s rs]|] eqn:Hl; [|apply map_Forall_empty].
    simpl. eapply reset_resources_wf, (Hall s). apply elem_of_entries.
    apply last_Some in Hl as [l' ->]. set_solver.
Qed.

Lemma connect_eq st i :
  session_inv st →
  connect st i =
  match live_instances st !! i with
  | Some _ => Err (AlreadyLive i)
  | None =>
      if (next_session_sequence st <? u64_MAX)%N then
        Ok (fresh_session st,
            begin_session (allocated st i) i (fresh_session st) (carried_or_empty st i None))
      else Err SessionIdExhausted
  end.
Proof.
  intros Hinv. unfold connect. destruct (live_instances st !! i); [done|].
  rewrite carried_eq, allocate_session_eq by done. by destruct (_ <? _)%N.
Qed.

Lemma expire_eq st i old :
  session_inv st →
  expire_and_reconnect st i old =
  let? u := require_live_session st i old in
  if (next_session_sequence st <? u64_MAX)%N then
    Ok (fresh_session st,
        begin_session (allocated st i) i (fresh_session st) (carried_or_empty st i (Some old)))
  else Err SessionIdExhausted.
Proof.
  intros Hinv. unfold expire_and_reconnect. destruct (require_live_session st i old); [|done].
  rewrite carried_eq, allocate_session_eq by done. by destruct (_ <? _)%N.
Qed.

Lemma session_inv_step st st' : session_inv st → session_step st st' → session_inv st'.
Proof.
  intros Hinv Hstep. destruct Hstep as [st r s|st i s st' H|st i s st' H|st i old s st' H
    |st i s r new st' H|st i s r new st' H].
  - split; apply Hinv.
  - rewrite connect_eq in H by done. destruct (live_instances st !! i); [done|].
    destruct (_ <? _)%N eqn:Hlt in H; [|done]. injection H as <- <-. reflect_bools.
    apply begin_inv; [done..|]. by apply carried_wf.
  - unfold disconnect in H. inv_ok H. injection H as <-. split; simpl; try apply Hinv.
    + intros j l [_ Hl]%lookup_delete_Some. by apply (si_live _ Hinv).
    + intros j l t [_ Hl]%lookup_delete_Some. by apply (si_latest _ Hinv).
  - rewrite expire_eq in H by done. inv_ok H. reflect_bools. injection H as <- <-.
    apply begin_inv; [done..|]. by apply carried_wf.
  - unfold publish_current_state in H. inv_ok H. destruct a.
    apply require_live_ok in Hok as (l & Hl & <-). eapply store_inv; [done| |done].
    by apply (si_live _ Hinv).
  - unfold inject_session_current_state in H. destruct (known_sessions st !! s) eqn:Hs; [|done].
    case_bool_decide as Ho; [|done]. simpl in H. subst. by eapply store_inv.
Qed.

Lemma session_reachable_inv st : session_reachable st → session_inv st.
Proof.
  unfold session_reachable. intros Hr.
  assert (∀ x y, rtc session_step x y → session_inv x → session_inv y) as Hgen.
  { induction 1 as [|x y z Hxy _ IH]; [done|]. intros Hx. apply IH. by eapply session_inv_step. }
  by eapply Hgen, session_inv_new.
Qed.

(** ** Snapshots after each operation *)

Lemma active_of_begin st i carried j :
  active_of (begin_session (allocated st i) i (fresh_session st) carried) j =
  if decide (i = j) then Some (MkActiveCurrentState (fresh_session st) carried)
  else active_of st j.
Proof.
  rewrite !active_of_eq, begin_session_eq. simpl. case_decide as Hd.
  - subst j. rewrite lookup_insert_eq. simpl. rewrite session_resources_put, decide_True by done.
    done.
  - rewrite lookup_insert_ne by done. destruct (live_instances st !! j) as [l|]; [|done]. simpl.
    rewrite session_resources_put, decide_False by naive_solver. done.
Qed.

Lemma active_of_put st i s rs j :
  active_of (put_resources st i s rs) j =
  match live_instances st !! j with
  | Some l => if bool_decide (i = j ∧ s = live_session_id l)
              then Some (MkActiveCurrentState s rs) else active_of st j
  | None => None
  end.
Proof.
  rewrite !active_of_eq. simpl. destruct (live_instances st !! j) as [l|]; [|done]. simpl.
  rewrite session_resources_put. case_decide as Hd.
  - rewrite bool_decide_true by done. by destruct Hd as [-> ->].
  - by rewrite bool_decide_false.
Qed.

(** The sessions of an instance in the stored map end with its live one. *)
Lemma previous_live st i l :
  session_inv st → live_instances st !! i = Some l →
  previous_resources st i None = previous_resources st i (Some (live_session_id l)) ∧
  ∃ rs, previous_resources st i (Some (live_session_id l)) = Some rs ∧
        active_of st i = Some (MkActiveCurrentState (live_session_id l) rs).
Proof.
  intros Hinv Hl. destruct (si_live _ Hinv _ _ Hl) as [_ Hk].
  pose proof Hk as [rs Hrs]%(si_stored _ Hinv). rewrite active_of_eq, Hl. simpl. rewrite Hrs.
  unfold session_resources in Hrs. unfold previous_resources.
  destruct (current_states st !! i) as [ss|] eqn:Hss; [|done].
  split; [|eauto]. rewrite Hrs, (last_entries ss (live_session_id l) rs); [done|done|].
  intros s Hs. assert (known_sessions st !! s = Some i) as Hks.
  { apply (si_stored _ Hinv). unfold session_resources. by rewrite Hss. }
  pose proof (si_latest _ Hinv _ _ _ Hl Hks) as Hle. destruct s as [a], l as [? [b]]. simpl in *.
  destruct (decide (a = b)) as [->|Hne]; [by left|right].
  unfold key_lt, rust_cmp, ord_SessionId, rust_cmp, ord_N. simpl. apply N.compare_lt_iff. lia.
Qed.

(** ** Properties *)

(** C35: Session identifiers are allocated consecutively and never reused: in
    every reachable state the known sessions are exactly 1..next, each with one
    owner and one stored record, and a live instance always holds the latest
    session ever allocated to it. *)
Theorem session_reachable_invariant st : session_reachable st → session_inv st.
Proof. apply session_reachable_inv. Qed.

Definition ex_instance : InstanceId := MkInstanceId "node-a".
Definition ex_resource : ResourceId := MkResourceId "documents".

(** A client that connects, publishes a leader and expires. *)
Definition ex_states : result (list ParticipantSessionState) SessionError :=
  let s0 := ParticipantSessionState_new in
  let? c := connect s0 ex_instance in
  let? s2 := publish_current_state c.2 ex_instance c.1 ex_resource
               {[MkPartitionId "p0" := LEADER]} in
  let? e := expire_and_reconnect s2 ex_instance c.1 in
  Ok [s0; c.2; s2; e.2].

Definition ex_state (n : nat) : ParticipantSessionState :=
  match ex_states with
  | Ok l => default ParticipantSessionState_new (l !! n)
  | Err _ => ParticipantSessionState_new
  end.

Lemma ex_connect : connect ParticipantSessionState_new ex_instance = Ok (MkSessionId 1, ex_state 1).
Proof. vm_compute. reflexivity. Qed.

Lemma ex_publish :
  publish_current_state (ex_state 1) ex_instance (MkSessionId 1) ex_resource
    {[MkPartitionId "p0" := LEADER]} = Ok (ex_state 2).
Proof. vm_compute. reflexivity. Qed.

Lemma ex_expire :
  expire_and_reconnect (ex_state 2) ex_instance (MkSessionId 1) = Ok (MkSessionId 2, ex_state 3).
Proof. vm_compute. reflexivity. Qed.

Lemma ex_reachable : session_reachable (ex_state 2).
Proof.
  eapply rtc_l; [eapply step_connect, ex_connect|].
  eapply rtc_l; [eapply step_publish, ex_publish|apply rtc_refl].
Qed.

Lemma ex_reachable_3 : session_reachable (ex_state 3).
Proof. eapply rtc_r; [apply ex_reachable|eapply step_expire, ex_expire]. Qed.

Lemma session_reachable_invariant_witness : session_inv (ex_state 3).
Proof. apply (session_reachable_invariant (ex_state 3) ex_reachable_3). Defined.

(** Expiring a live session replaces it by a fresh one that carries the
    same resources and partitions, with the instance's own replicas reset to
    the resource's initial state, and leaves every other instance's view as it
    was. *)
Theorem expire_carries_reset st i old new st' :
  session_reachable st →
  expire_and_reconnect st i old = Ok (new, st') →
  known_sessions st !! new = None ∧
  (∃ rs, active_of st i = Some (MkActiveCurrentState old rs) ∧
         active_of st' i = Some (MkActiveCurrentState new (reset_resources st i rs))) ∧
  ∀ j, j ≠ i → active_of st' j = active_of st j.
Proof.
  intros Hinv%session_reachable_inv. rewrite expire_eq by done. intros H. inv_ok H.
  injection H as <- <-. destruct a. apply require_live_ok in Hok as (l & Hl & <-).
  destruct (previous_live st i l Hinv Hl) as (_ & rs & Hprev & Hact).
  split_and!; [by apply fresh_unknown| |].
  - exists rs. rewrite active_of_begin, decide_True by done.
    unfold carried_or_empty. by rewrite Hprev.
  - intros j Hj. by rewrite active_of_begin, decide_False.
Qed.

Lemma expire_carries_reset_witness :
  (∃ rs, active_of (ex_state 2) ex_instance = Some (MkActiveCurrentState (MkSessionId 1) rs) ∧
         active_of (ex_state 3) ex_instance =
           Some (MkActiveCurrentState (MkSessionId 2) (reset_resources (ex_state 2) ex_instance rs))) ∧
  (match active_of (ex_state 3) ex_instance with
   | Some a => match active_resources a !! ex_resource with
               | Some cs => CurrentState_state cs (MkPartitionId "p0") ex_instance
               | None => None end
   | None => None end) = Some OFFLINE.
Proof.
  split; [|vm_compute; reflexivity].
  exact (proj1 (proj2 (expire_carries_reset (ex_state 2) ex_instance (MkSessionId 1) (MkSessionId 2)
    (ex_state 3) ex_reachable ex_expire))).
Defined.

(** A graceful disconnect followed by a reconnect ends exactly where an
    expiry of the same session ends: the same new session, the same state, or
    the same exhaustion error. *)
Theorem restart_equals_expiry st i s st1 :
  session_reachable st →
  disconnect st i s = Ok st1 →
  connect st1 i = expire_and_reconnect st i s.
Proof.
  intros Hinv%session_reachable_inv. unfold disconnect. intros H. inv_ok H. injection H as <-.
  assert (session_inv (with_live st (delete i (live_instances st)))) as Hinv'.
  { eapply session_inv_step; [done|]. apply (step_disconnect _ i s). unfold disconnect.
    by rewrite Hok. }
  rewrite connect_eq, expire_eq by done. rewrite Hok. simpl. rewrite lookup_delete_eq.
  destruct a. apply require_live_ok in Hok as (l & Hl & <-).
  destruct (previous_live st i l Hinv Hl) as (Hlast & rs & Hprev & _).
  destruct (_ <? _)%N; [|done]. unfold begin_session, fresh_session.
  assert (carried_or_empty (with_live st (delete i (live_instances st))) i None =
          carried_or_empty st i (Some (live_session_id l))) as ->.
  { unfold carried_or_empty.
    change (previous_resources (with_live st _) i None) with (previous_resources st i None).
    by rewrite Hlast, Hprev. }
  simpl. by rewrite insert_delete_eq.
Qed.

Lemma restart_equals_expiry_witness :
  ∃ st1, disconnect (ex_state 2) ex_instance (MkSessionId 1) = Ok st1 ∧
         connect st1 ex_instance = Ok (MkSessionId 2, ex_state 3).
Proof.
  exists (with_live (ex_state 2) ∅). split; [vm_compute; reflexivity|].
  rewrite (restart_equals_expiry (ex_state 2) ex_instance (MkSessionId 1)
             (with_live (ex_state 2) ∅) ex_reachable); [apply ex_expire|].
  vm_compute. reflexivity.
Defined.

(** Publication is fenced by the live session: it is accepted exactly for
    the instance's current session, otherwise rejected with the error naming
    why; an accepted one overwrites the instance's own replicas of that
    resource and changes nothing else anyone sees. *)
Theorem publish_fenced st i s r new :
  session_reachable st →
  match publish_current_state st i s r new with
  | Ok st' =>
      (∃ l, live_instances st !! i = Some l ∧ live_session_id l = s) ∧
      (∃ rs, active_of st i = Some (MkActiveCurrentState s rs) ∧
         active_of st' i = Some (MkActiveCurrentState s
           (<[r := current_of (publish_replicas i new (stored_replicas st i s r))]> rs))) ∧
      ∀ j, j ≠ i → active_of st' j = active_of st j
  | Err e =>
      (live_instances st !! i = None ∧ e = NotLive i) ∨
      (∃ l, live_instances st !! i = Some l ∧ live_session_id l ≠ s ∧
            e = SessionMismatch i (live_session_id l) s)
  end.
Proof.
  intros Hinv%session_reachable_inv. unfold publish_current_state, require_live_session.
  destruct (live_instances st !! i) as [l|] eqn:Hl; [|by left].
  case_bool_decide as Hs; [|right; eauto].
  rewrite store_current_state_eq by by apply stored_replicas_wf. split_and!.
  - eauto.
  - exists (default ∅ (session_resources st i s)). split.
    + rewrite active_of_eq, Hl. simpl. by rewrite Hs.
    + rewrite active_of_put, Hl. by rewrite bool_decide_true.
  - intros j Hj. rewrite active_of_put. destruct (live_instances st !! j) eqn:Hlj.
    + by rewrite bool_decide_false by naive_solver.
    + by rewrite active_of_eq, Hlj.
Qed.

Lemma publish_fenced_witness :
  match publish_current_state (ex_state 3) ex_instance (MkSessionId 1) ex_resource ∅ with
  | Ok _ => False
  | Err e => e = SessionMismatch ex_instance (MkSessionId 2) (MkSessionId 1)
  end.
Proof.
  generalize (publish_fenced (ex_state 3) ex_instance (MkSessionId 1) ex_resource ∅ ex_reachable_3).
  replace (publish_current_state (ex_state 3) ex_instance (MkSessionId 1) ex_resource ∅)
    with (Err (SessionMismatch ex_instance (MkSessionId 2) (MkSessionId 1))
          : result ParticipantSessionState SessionError); [|vm_compute; reflexivity].
  intros _. reflexivity.
Defined.

(** Records stored under a session that is no longer live are invisible:
    injecting any CurrentState under a known stale session of any instance
    succeeds and leaves the published snapshot unchanged. *)
Theorem stale_records_invisible st i s r new :
  session_reachable st →
  known_sessions st !! s = Some i →
  (∀ l, live_instances st !! i = Some l → live_session_id l ≠ s) →
  ∃ st', inject_session_current_state st i s r new = Ok st' ∧
         session_snapshot st' = session_snapshot st.
Proof.
  intros Hinv%session_reachable_inv Hk Hstale. unfold inject_session_current_state. rewrite Hk.
  rewrite bool_decide_true by done. simpl.
  rewrite store_current_state_eq by by apply stored_replicas_wf.
  eexists. split; [done|]. apply snapshot_ext; [done|]. intros j. rewrite active_of_put.
  destruct (live_instances st !! j) as [l|] eqn:Hl; [|by rewrite active_of_eq, Hl].
  rewrite bool_decide_false; [done|]. intros [<- Hs]. by apply (Hstale l).
Qed.

Lemma stale_records_invisible_witness :
  ∃ st', inject_session_current_state (ex_state 3) ex_instance (MkSessionId 1) ex_resource
           {[MkPartitionId "p0" := LEADER]} = Ok st' ∧
         session_snapshot st' = session_snapshot (ex_state 3).
Proof.
  apply (stale_records_invisible (ex_state 3) ex_instance (MkSessionId 1)).
  - apply ex_reachable_3.
  - vm_compute. reflexivity.
  - intros l. replace (live_instances (ex_state 3) !! ex_instance)
      with (Some (MkLiveInstance ex_instance (MkSessionId 2))); [|vm_compute; reflexivity].
    intros [= <-]. discriminate.
Defined.
