(* ===== verification/Keys.v ===== *)
(** * Coordination keys

    Models the pure part of [src/coordination/etcd/mod.rs] and
    [src/coordination/etcd/session.rs] that names things: revisions, the errors
    of the backend, the hexadecimal segments of keys, the keys of a namespace
    and the rules that tell input keys from derived ones.  Keys and values of
    etcd are byte strings; a Rust [String] is one that is valid UTF-8. *)

From S2P Require Import Prelude Identity.

(** ** Errors *)

(** [Revision(i64)] *)
Record Revision := MkRevision { revision_value : Z }.

#[export] Instance Revision_eq_dec : EqDecision Revision.
Proof. solve_decision. Defined.
#[export] Program Instance Revision_countable : Countable Revision :=
  inj_countable' revision_value MkRevision _.
Next Obligation. by intros []. Qed.
#[export] Instance ord_Revision : RustOrd Revision :=
  λ x y, rust_cmp (revision_value x) (revision_value y).
#[export] Instance Revision_ord_laws : RustOrdLaws Revision.
Proof. apply (proj_ord_laws revision_value _); [done|]. by intros [] [] [= ->]. Qed.

(** [etcd_client::Error] is known by its text. *)
Inductive CoordinationError :=
| Etcd (error : string)
| InvalidConnectionOptions (text : string)
| InvalidPrefix
| InvalidCluster
| InvalidKey
| InvalidValue
| InvalidLeaseTtl
| LeaseExpired
| InvalidRevision (revision : Z)
| RevisionExhausted
| MissingRevision
| OutsidePrefix
| InvalidSession
| UnknownSession (session : SessionId)
| RegistrationLost
| Contention
| StaleSession (instance : InstanceId)
| DuplicateMessage (id : string)
| StaleController
| StaleRevision
| InstanceStillLive (instance : InstanceId)
| ResourceDeletionDisabled.

(** [CoordinationError::is_transient] *)
Definition is_transient (e : CoordinationError) : bool :=
  match e with Etcd _ => true | _ => false end.

Definition display_coordination_error (e : CoordinationError) : string :=
  match e with
  | Etcd error => error
  | InvalidConnectionOptions text => text
  | InvalidPrefix => "coordination prefix must not be empty"
  | InvalidCluster => "coordination cluster must not be empty"
  | InvalidKey => "coordination key is invalid"
  | InvalidValue => "coordination value is invalid UTF-8"
  | InvalidLeaseTtl => "lease TTL must be positive"
  | LeaseExpired => "lease expired before keepalive completed"
  | InvalidRevision revision => "invalid revision " +:+ pretty revision
  | RevisionExhausted => "revision space exhausted"
  | MissingRevision => "etcd response did not include a revision"
  | OutsidePrefix => "key is outside the coordination prefix"
  | InvalidSession => "invalid persisted session identifier"
  | UnknownSession session => "unknown session SessionId(" +:+ pretty (session_value session) +:+ ")"
  | RegistrationLost => "participant registration lost the race"
  | Contention => "coordination CAS contention exceeded retry bound"
  | StaleSession instance => "session is not live for " +:+ instance_str instance
  | DuplicateMessage id => "duplicate message: " +:+ id
  | StaleController => "controller authority is no longer current"
  | StaleRevision => "controller input revision is stale"
  | InstanceStillLive instance => "instance is still live: " +:+ instance_str instance
  | ResourceDeletionDisabled => "resource deletion is disabled"
  end.

(** ** Revisions *)

Definition i64_MAX : Z := 9223372036854775807.
Definition i64_MIN : Z := -9223372036854775808.

Definition Revision_new (value : Z) : result Revision CoordinationError :=
  if (value <=? 0)%Z then Err (InvalidRevision value) else Ok (MkRevision value).

Definition Revision_next (r : Revision) : result Revision CoordinationError :=
  if (revision_value r + 1 <=? i64_MAX)%Z then Ok (MkRevision (revision_value r + 1))
  else Err RevisionExhausted.

Definition revision_max (a b : Revision) : Revision :=
  if (revision_value a <=? revision_value b)%Z then b else a.

(** [str::parse::<i64>]: an optional sign and at least one digit, within the
    width. *)
Definition parse_i64 (s : string) : option Z :=
  match s with
  | String c rest =>
      if (Ascii.N_of_ascii c =? 45)%N then
        if is_empty rest then None
        else Z.opp <$> (Z.of_N <$> parse_digits (Z.to_N (- i64_MIN)) 0 rest)
      else Z.of_N <$> parse_unsigned (Z.to_N i64_MAX) s
  | EmptyString => None
  end.

(** ** Text *)

Definition byte_between (lo hi : N) (c : Ascii.ascii) : bool :=
  (lo <=? Ascii.N_of_ascii c)%N && (Ascii.N_of_ascii c <=? hi)%N.
Definition continuation : Ascii.ascii → bool := byte_between 128 191.

(** [std::str::from_utf8]: the well-formed byte sequences of Unicode. *)
Fixpoint utf8_valid (s : string) : bool :=
  match s with
  | EmptyString => true
  | String b0 r0 =>
      if byte_between 0 127 b0 then utf8_valid r0
      else match r0 with
      | EmptyString => false
      | String b1 r1 =>
          if byte_between 194 223 b0 then continuation b1 && utf8_valid r1
          else match r1 with
          | EmptyString => false
          | String b2 r2 =>
              if byte_between 224 239 b0 then
                byte_between (if byte_between 224 224 b0 then 160 else 128)
                  (if byte_between 237 237 b0 then 159 else 191) b1
                && continuation b2 && utf8_valid r2
              else match r2 with
              | EmptyString => false
              | String b3 r3 =>
                  byte_between 240 244 b0
                  && byte_between (if byte_between 240 240 b0 then 144 else 128)
                       (if byte_between 244 244 b0 then 143 else 191) b1
                  && continuation b2 && continuation b3 && utf8_valid r3
              end
          end
      end
  end.

(** [str::trim().is_empty()]: only characters with the property White_Space. *)
Fixpoint is_blank (s : string) : bool :=
  match s with
  | EmptyString => true
  | String b0 r0 =>
      if byte_between 9 13 b0 || byte_between 32 32 b0 then is_blank r0
      else match r0 with
      | EmptyString => false
      | String b1 r1 =>
          if byte_between 194 194 b0 then
            (byte_between 133 133 b1 || byte_between 160 160 b1) && is_blank r1
          else match r1 with
          | EmptyString => false
          | String b2 r2 =>
              (if byte_between 225 225 b0 then byte_between 154 154 b1 && byte_between 128 128 b2
               else if byte_between 226 226 b0 then
                 (byte_between 128 128 b1 && (byte_between 128 138 b2 || byte_between 168 169 b2
                                              || byte_between 175 175 b2))
                 || (byte_between 129 129 b1 && byte_between 159 159 b2)
               else byte_between 227 227 b0 && byte_between 128 128 b1 && byte_between 128 128 b2)
              && is_blank r2
          end
      end
  end.

Fixpoint contains_nul (s : string) : bool :=
  match s with
  | EmptyString => false
  | String c s => byte_between 0 0 c || contains_nul s
  end.

(** ** Segments *)

Definition hex_char (n : N) : Ascii.ascii :=
  Ascii.ascii_of_N (if (n <? 10)%N then 48 + n else 87 + n).

(** [format!("{byte:02x}")] for every byte *)
Fixpoint encode_segment (value : string) : string :=
  match value with
  | EmptyString => EmptyString
  | String c s =>
      let byte := Ascii.N_of_ascii c in
      String (hex_char (byte `div` 16)) (String (hex_char (byte `mod` 16)) (encode_segment s))
  end.

(** [char::to_digit(16)] *)
Definition hex_digit (c : Ascii.ascii) : option N :=
  let n := Ascii.N_of_ascii c in
  if byte_between 48 57 c then Some (n - 48)%N
  else if byte_between 97 102 c then Some (n - 87)%N
  else if byte_between 65 70 c then Some (n - 55)%N
  else None.

(** [u8::from_str_radix(pair, 16)] on two bytes: a leading plus sign is
    accepted; a pair that is not UTF-8 has no hexadecimal digit. *)
Definition parse_hex_pair (c d : Ascii.ascii) : option N :=
  if byte_between 43 43 c then hex_digit d
  else match hex_digit c, hex_digit d with
       | Some h, Some l => Some (h * 16 + l)%N
       | _, _ => None
       end.

Fixpoint decode_pairs (value : string) : result string CoordinationError :=
  match value with
  | EmptyString => Ok EmptyString
  | String _ EmptyString => Err InvalidKey
  | String c (String d s) =>
      match parse_hex_pair c d with
      | Some byte => let? bytes := decode_pairs s in Ok (String (Ascii.ascii_of_N byte) bytes)
      | None => Err InvalidKey
      end
  end.

(** An odd length fails before any pair is read, with the same error. *)
Definition decode_segment (value : string) : result string CoordinationError :=
  let? bytes := decode_pairs value in
  if utf8_valid bytes then Ok bytes else Err InvalidKey.

(** ** Keys of a namespace *)

(** The client is the argument of the operations, not a field. *)
Record EtcdCoordination := MkEtcdCoordination { prefix : string; cluster : string }.

(** [trim_end_matches('/')] *)
Fixpoint trim_end_slashes (s : string) : string :=
  match s with
  | EmptyString => EmptyString
  | String c s =>
      let rest := trim_end_slashes s in
      if is_empty rest && byte_between 47 47 c then EmptyString else String c rest
  end.

Definition normalize_prefix (p : string) : result string CoordinationError :=
  let p := trim_end_slashes p in
  if is_empty p || contains_nul p then Err InvalidPrefix else Ok p.

Definition INTERNAL_SESSION_SEQUENCE : string := "internal/session-sequence".
Definition AUTHORITATIVE_INPUT_MARKER : string := "internal/authoritative-input".
Definition PENDING_TRANSITIONS_KEY : string := "controller/output/pending-transitions".

Definition session_text (session : SessionId) : string := pretty (session_value session).

Section keys.
Variable backend : EtcdCoordination.

Definition namespaced_key (suffix : string) : string := prefix backend +:+ "/" +:+ suffix.

Definition metadata_key (key : string) : string :=
  namespaced_key ("metadata/" +:+ encode_segment key).

Definition controller_active_key : string := namespaced_key "controller/election/active".

Definition controller_candidate_key (controller_id : string) : string :=
  namespaced_key ("controller/election/candidates/" +:+ encode_segment controller_id).

Definition live_key (instance : InstanceId) : string :=
  namespaced_key ("live/" +:+ encode_segment (instance_str instance)).

Definition session_key (instance : InstanceId) (session : SessionId) : string :=
  namespaced_key ("sessions/" +:+ encode_segment (instance_str instance) +:+ "/" +:+
                  session_text session).

Definition session_prefix (instance : InstanceId) : string :=
  namespaced_key ("sessions/" +:+ encode_segment (instance_str instance) +:+ "/").

Definition current_state_key (instance : InstanceId) (session : SessionId) (resource : ResourceId)
    (partition : PartitionId) : string :=
  namespaced_key ("current-state/" +:+ encode_segment (instance_str instance) +:+ "/" +:+
    session_text session +:+ "/" +:+ encode_segment (resource_str resource) +:+ "/" +:+
    encode_segment (partition_str partition)).

Definition current_state_session_prefix (instance : InstanceId) (session : SessionId) : string :=
  namespaced_key ("current-state/" +:+ encode_segment (instance_str instance) +:+ "/" +:+
    session_text session +:+ "/").

Definition parse_relative_key (key : string) : result string CoordinationError :=
  if utf8_valid key then
    match strip_prefix (prefix backend +:+ "/") key with
    | Some relative => Ok relative
    | None => Err OutsidePrefix
    end
  else Err InvalidKey.
End keys.

Definition is_authoritative_metadata_key (key : string) : bool :=
  negb (String.eqb key AUTHORITATIVE_INPUT_MARKER)
  && negb (starts_with "controller/output/" key)
  && negb (starts_with "participant/" key && ends_with "/processed-revision" key).

Definition is_authoritative_key (relative : string) (metadata_key : option string) : bool :=
  let is_derived :=
    match metadata_key with Some key => starts_with "controller/output/" key | None => false end in
  let is_participant_progress :=
    match metadata_key with
    | Some key => starts_with "participant/" key && ends_with "/processed-revision" key
    | None => false
    end in
  let is_election_record := starts_with "controller/election/" relative in
  let is_session_sequence := String.eqb relative INTERNAL_SESSION_SEQUENCE in
  negb is_derived && negb is_participant_progress && negb is_election_record
  && negb is_session_sequence.

(** ** Sessions in keys and values *)

Definition parse_sequence (value : string) : result N CoordinationError :=
  if utf8_valid value then
    match parse_unsigned u64_MAX value with
    | Some sequence => if (0 <? sequence)%N then Ok sequence else Err InvalidSession
    | None => Err InvalidSession
    end
  else Err InvalidSession.

Definition parse_session (value : string) : result SessionId CoordinationError :=
  map_ok SessionId_from_sequence (parse_sequence value).

(** * Facts *)

(** ** Bytes *)

Lemma byte_between_spec lo hi c :
  byte_between lo hi c = true ↔ (lo ≤ Ascii.N_of_ascii c ≤ hi)%N.
Proof. unfold byte_between. rewrite andb_true_iff, !N.leb_le. done. Qed.

Lemma byte_between_of_N lo hi n :
  (n < 256)%N → byte_between lo hi (Ascii.ascii_of_N n) = ((lo <=? n) && (n <=? hi))%N.
Proof. intros Hn. unfold byte_between. by rewrite Ascii.N_ascii_embedding. Qed.

Lemma hex_char_N n : (n < 16)%N → Ascii.N_of_ascii (hex_char n) = (if n <? 10 then 48 + n else 87 + n)%N.
Proof. intros Hn. unfold hex_char. apply Ascii.N_ascii_embedding. case_match; lia. Qed.

(** A claim about small numbers is decided by computation. *)
Lemma below (m : nat) (P : N → Prop) n :
  Forall P (N.of_nat <$> seq 0 m) → (n < N.of_nat m)%N → P n.
Proof.
  intros HP Hn. rewrite Forall_forall in HP. apply HP, list_elem_of_fmap.
  exists (N.to_nat n). rewrite N2Nat.id. split; [done|]. apply elem_of_seq. lia.
Qed.

Lemma hex_digit_char n : (n < 16)%N → hex_digit (hex_char n) = Some n.
Proof. apply (below 16 (λ n, hex_digit (hex_char n) = Some n)). by repeat constructor. Qed.

Lemma parse_hex_pair_byte byte :
  (byte < 256)%N →
  parse_hex_pair (hex_char (byte `div` 16)) (hex_char (byte `mod` 16)) = Some byte.
Proof.
  intros Hb. assert (byte `div` 16 < 16)%N as Hh by (apply N.Div0.div_lt_upper_bound; lia).
  assert (byte `mod` 16 < 16)%N as Hl by (apply N.mod_lt; lia).
  unfold parse_hex_pair. rewrite !hex_digit_char by done.
  replace (byte_between 43 43 _) with false.
  - f_equal. rewrite N.mul_comm. symmetry. by apply N.div_mod.
  - symmetry. unfold byte_between. rewrite hex_char_N by done.
    apply andb_false_iff. right. apply N.leb_gt. generalize (byte `div` 16)%N as h.
    intros h. destruct (h <? 10)%N; lia.
Qed.

(** ** Segments *)

Lemma decode_pairs_encode v : decode_pairs (encode_segment v) = Ok v.
Proof.
  induction v as [|c v IH]; [done|]. cbn [encode_segment decode_pairs].
  rewrite parse_hex_pair_byte by apply Ascii.N_ascii_bounded.
  by rewrite IH, Ascii.ascii_N_embedding.
Qed.

Lemma decode_encode v :
  decode_segment (encode_segment v) = if utf8_valid v then Ok v else Err InvalidKey.
Proof. unfold decode_segment. by rewrite decode_pairs_encode. Qed.

Lemma encode_segment_inj v w : encode_segment v = encode_segment w → v = w.
Proof.
  intros Heq. enough (Ok (E := CoordinationError) v = Ok w) by congruence.
  by rewrite <-!decode_pairs_encode, Heq.
Qed.

(** ** Components of keys *)

(** Every byte of the text passes the test. *)
Fixpoint all_bytes (p : Ascii.ascii → bool) (s : string) : bool :=
  match s with EmptyString => true | String c s => p c && all_bytes p s end.

Definition not_slash (c : Ascii.ascii) : bool := negb (byte_between 47 47 c).
Definition ascii_byte : Ascii.ascii → bool := byte_between 0 127.

Lemma all_bytes_app p s t : all_bytes p (s +:+ t) = all_bytes p s && all_bytes p t.
Proof. induction s as [|c s IH]; [done|]. cbn [all_bytes]. by rewrite <-andb_assoc, <-IH. Qed.

Lemma all_bytes_impl (p q : Ascii.ascii → bool) s :
  (∀ c, p c = true → q c = true) → all_bytes p s = true → all_bytes q s = true.
Proof.
  intros Hpq. induction s as [|c s IH]; [done|]. cbn. rewrite !andb_true_iff.
  intros [Hc Hs]. auto.
Qed.

Lemma encode_segment_bytes p v :
  (∀ n, (n < 16)%N → p (hex_char n) = true) → all_bytes p (encode_segment v) = true.
Proof.
  intros Hp. induction v as [|c v IH]; [done|]. cbn.
  pose proof (Ascii.N_ascii_bounded c).
  rewrite IH, !Hp; [done|apply N.mod_lt; lia|apply N.Div0.div_lt_upper_bound; lia].
Qed.

Lemma hex_char_not_slash n : (n < 16)%N → not_slash (hex_char n) = true.
Proof.
  intros Hn. unfold not_slash, byte_between. rewrite hex_char_N by done.
  apply negb_true_iff, andb_false_iff. right. apply N.leb_gt. destruct (_ <? 10)%N; lia.
Qed.

Lemma hex_char_ascii n : (n < 16)%N → ascii_byte (hex_char n) = true.
Proof.
  intros Hn. apply byte_between_spec. rewrite hex_char_N by done. destruct (_ <? 10)%N; lia.
Qed.

Lemma pretty_N_go_bytes p x s :
  (∀ d, (d < 10)%N → p (pretty_N_char d) = true) →
  all_bytes p s = true → all_bytes p (pretty_N_go x s) = true.
Proof.
  intros Hp. revert s. induction (N.lt_wf_0 x) as [x _ IH]. intros s Hs.
  destruct (decide (x = 0)%N) as [->|]; [by rewrite pretty_N_go_0|].
  rewrite pretty_N_go_step by lia. apply IH; [apply N.div_lt; lia|].
  cbn. rewrite Hs, Hp; [done|]. apply N.mod_lt; lia.
Qed.

Lemma pretty_N_bytes p (x : N) :
  (∀ d, (d < 10)%N → p (pretty_N_char d) = true) → all_bytes p (pretty x) = true.
Proof.
  intros Hp. unfold pretty, pretty_N. case_decide.
  - apply andb_true_iff. split; [|done]. exact (Hp 0%N ltac:(lia)).
  - by apply pretty_N_go_bytes.
Qed.

Lemma digit_char_cases p d :
  (d < 10)%N → (∀ n, (48 ≤ n ≤ 57)%N → p (Ascii.ascii_of_N n) = true) → p (pretty_N_char d) = true.
Proof.
  intros Hd Hp. assert (pretty_N_char d = Ascii.ascii_of_N (48 + d)) as ->; [|apply Hp; lia].
  apply (below 10 (λ d, pretty_N_char d = Ascii.ascii_of_N (48 + d))); [|done]. by repeat constructor.
Qed.

Lemma session_text_bytes p session :
  (∀ n, (48 ≤ n ≤ 57)%N → p (Ascii.ascii_of_N n) = true) → all_bytes p (session_text session) = true.
Proof. intros Hp. apply pretty_N_bytes. intros d Hd. by apply digit_char_cases. Qed.

Lemma string_app_nil_r s : s +:+ "" = s.
Proof. induction s as [|c s IH]; [done|]. exact (f_equal (String c) IH). Qed.

Lemma string_app_assoc s t u : (s +:+ t) +:+ u = s +:+ (t +:+ u).
Proof. induction s as [|c s IH]; [done|]. exact (f_equal (String c) IH). Qed.

Lemma split_slash_plain s : all_bytes not_slash s = true → split_slash s = [s].
Proof.
  induction s as [|c s IH]; [done|]. cbn [all_bytes split_slash]. rewrite andb_true_iff.
  intros [Hc Hs]. rewrite IH by done. unfold not_slash, byte_between in Hc.
  case_match eqn:Heq; [|done]. apply N.eqb_eq in Heq. by rewrite Heq in Hc.
Qed.

Lemma split_slash_cons s t :
  all_bytes not_slash s = true → split_slash (s +:+ "/" +:+ t) = s :: split_slash t.
Proof.
  induction s as [|c s IH]; [done|]. cbn [all_bytes]. rewrite andb_true_iff. intros [Hc Hs].
  change (split_slash (String c (s +:+ "/" +:+ t)) = String c s :: split_slash t).
  cbn [split_slash]. rewrite IH by done. unfold not_slash, byte_between in Hc.
  case_match eqn:Heq; [|done]. apply N.eqb_eq in Heq. by rewrite Heq in Hc.
Qed.

(** A slash always splits. *)
Lemma split_slash_app s t : split_slash (s +:+ "/" +:+ t) = split_slash s ++ split_slash t.
Proof.
  induction s as [|c s IH]; [done|]. change (String c s +:+ ?u) with (String c (s +:+ u)).
  cbn [split_slash]. rewrite IH. destruct (_ =? 47)%N; [done|].
  destruct (split_slash s) as [|x l] eqn:Hs; [|done]. exfalso.
  destruct s as [|d s]; [done|]. cbn [split_slash] in Hs. destruct (_ =? 47)%N; [done|].
  by destruct (split_slash s).
Qed.

Lemma strip_prefix_app p s : strip_prefix p (p +:+ s) = Some s.
Proof.
  induction p as [|c p IH]; [by destruct s|].
  change (strip_prefix (String c p) (String c (p +:+ s)) = Some s). cbn [strip_prefix].
  by rewrite bool_decide_eq_true_2.
Qed.

Lemma strip_prefix_Some p s r : strip_prefix p s = Some r ↔ s = p +:+ r.
Proof.
  split; [|intros ->; apply strip_prefix_app].
  revert s. induction p as [|c p IH]; intros s; [by destruct s; intros [= <-]|].
  destruct s as [|d s]; [done|]. cbn [strip_prefix].
  destruct (bool_decide (c = d)) eqn:Hcd; [|done]. reflect_bools. subst.
  intros Hs%IH. by subst.
Qed.

Lemma starts_with_app p s : starts_with p (p +:+ s) = true.
Proof. unfold starts_with. rewrite strip_prefix_app. by apply bool_decide_eq_true_2. Qed.

Lemma starts_with_spec p s : starts_with p s = true ↔ ∃ r, s = p +:+ r.
Proof.
  unfold starts_with. rewrite bool_decide_eq_true. unfold is_Some.
  by setoid_rewrite strip_prefix_Some.
Qed.

Lemma string_app_cons c s t : String c s +:+ t = String c (s +:+ t).
Proof. done. Qed.

(** ** UTF-8 *)

Lemma utf8_ascii s : all_bytes ascii_byte s = true → utf8_valid s = true.
Proof.
  induction s as [|c s IH]; [done|]. cbn [all_bytes utf8_valid]. rewrite andb_true_iff.
  intros [Hc Hs]. unfold ascii_byte in Hc. rewrite Hc. auto.
Qed.

(** A well-formed text can be taken off the front of a text. *)
Lemma utf8_valid_app s t : utf8_valid s = true → utf8_valid (s +:+ t) = utf8_valid t.
Proof.
  remember (String.length s) as n eqn:Hn. revert s Hn.
  induction (lt_wf n) as [n _ IH]. intros s ->.
  destruct s as [|b0 r0]; [done|]. rewrite string_app_cons. cbn [utf8_valid].
  destruct (byte_between 0 127 b0); [intros H; by apply (IH (String.length r0)); [cbn; lia|..]|].
  destruct r0 as [|b1 r1]; [done|]. rewrite string_app_cons.
  destruct (byte_between 194 223 b0).
  { rewrite andb_true_iff. intros [-> H]. by apply (IH (String.length r1)); [cbn; lia|..]. }
  destruct r1 as [|b2 r2]; [done|]. rewrite string_app_cons.
  destruct (byte_between 224 239 b0).
  { rewrite !andb_true_iff. intros [[-> ->] H]. by apply (IH (String.length r2)); [cbn; lia|..]. }
  destruct r2 as [|b3 r3]; [done|]. rewrite string_app_cons.
  rewrite !andb_true_iff. intros [[[[-> ->] ->] ->] H].
  by apply (IH (String.length r3)); [cbn; lia|..].
Qed.

(** ** Keys *)

Lemma session_text_ascii session : all_bytes ascii_byte (session_text session) = true.
Proof.
  apply session_text_bytes. intros n Hn. unfold ascii_byte.
  rewrite byte_between_of_N by lia. apply andb_true_iff. rewrite !N.leb_le. lia.
Qed.

Lemma session_text_not_slash session : all_bytes not_slash (session_text session) = true.
Proof.
  apply session_text_bytes. intros n Hn. unfold not_slash.
  rewrite byte_between_of_N by lia. apply negb_true_iff, andb_false_iff. right. apply N.leb_gt. lia.
Qed.

Lemma segment_not_slash v : all_bytes not_slash (encode_segment v) = true.
Proof. apply encode_segment_bytes, hex_char_not_slash. Qed.

Lemma segment_ascii v : all_bytes ascii_byte (encode_segment v) = true.
Proof. apply encode_segment_bytes, hex_char_ascii. Qed.

Lemma parse_sequence_inv value r :
  parse_sequence value = r →
  match r with Ok n => (0 < n ≤ u64_MAX)%N | Err e => e = InvalidSession end.
Proof.
  intros <-. unfold parse_sequence. destruct (utf8_valid value); [|done].
  destruct (parse_unsigned u64_MAX value) as [n|] eqn:Hp; [|done]. apply parse_unsigned_bound in Hp.
  destruct (0 <? n)%N eqn:Hn; [|done]. apply N.ltb_lt in Hn. done.
Qed.

(** A session is written and read back. *)
Lemma parse_session_text session :
  (0 < session_value session ≤ u64_MAX)%N → parse_session (session_text session) = Ok session.
Proof.
  intros [Hpos Hmax]. unfold parse_session, parse_sequence.
  rewrite (utf8_ascii _ (session_text_ascii session)).
  unfold session_text. rewrite parse_unsigned_pretty, (proj2 (N.leb_le _ _) Hmax).
  rewrite (proj2 (N.ltb_lt _ _) Hpos). by destruct session.
Qed.

Create HintDb keys.
#[export] Hint Rewrite all_bytes_app segment_ascii session_text_ascii segment_not_slash
  session_text_not_slash : keys.

(** The name of a namespace is a Rust string. *)
Definition backend_ok (backend : EtcdCoordination) : Prop := utf8_valid (prefix backend) = true.

Section key_facts.
Context (backend : EtcdCoordination) (Hbackend : backend_ok backend).

Lemma namespaced_key_inj s t : namespaced_key backend s = namespaced_key backend t → s = t.
Proof.
  unfold namespaced_key. intros Heq.
  enough (Some s = Some t) by congruence.
  rewrite <-(strip_prefix_app (prefix backend +:+ "/") s), <-(strip_prefix_app (prefix backend +:+ "/") t).
  by rewrite !string_app_assoc, Heq.
Qed.

(** A prefix read of the namespace finds all its keys. *)
Lemma starts_with_namespace s :
  starts_with (namespaced_key backend "") (namespaced_key backend s) = true.
Proof.
  apply starts_with_spec. exists s. unfold namespaced_key. by rewrite !string_app_assoc.
Qed.

Lemma parse_namespaced_key s :
  utf8_valid s = true → parse_relative_key backend (namespaced_key backend s) = Ok s.
Proof.
  intros Hs. unfold parse_relative_key, namespaced_key.
  rewrite utf8_valid_app by exact Hbackend. rewrite (utf8_valid_app "/") by done. rewrite Hs.
  by rewrite <-string_app_assoc, strip_prefix_app.
Qed.

Lemma relative_metadata_key key :
  parse_relative_key backend (metadata_key backend key) = Ok ("metadata/" +:+ encode_segment key).
Proof. apply parse_namespaced_key, utf8_ascii. by autorewrite with keys. Qed.

Lemma relative_live_key i :
  parse_relative_key backend (live_key backend i) = Ok ("live/" +:+ encode_segment (instance_str i)).
Proof. apply parse_namespaced_key, utf8_ascii. by autorewrite with keys. Qed.

Lemma relative_current_state_key i n r p :
  parse_relative_key backend (current_state_key backend i n r p) =
  Ok ("current-state/" +:+ encode_segment (instance_str i) +:+ "/" +:+ session_text n +:+ "/" +:+
      encode_segment (resource_str r) +:+ "/" +:+ encode_segment (partition_str p)).
Proof. apply parse_namespaced_key, utf8_ascii. by autorewrite with keys. Qed.

Lemma split_live_key v : split_slash ("live/" +:+ encode_segment v) = ["live"; encode_segment v].
Proof.
  change ("live/" +:+ ?s) with ("live" +:+ "/" +:+ s).
  rewrite split_slash_cons by done. by rewrite split_slash_plain by apply segment_not_slash.
Qed.

Lemma split_current_state_key i n r p :
  split_slash ("current-state/" +:+ encode_segment i +:+ "/" +:+ session_text n +:+ "/" +:+
      encode_segment r +:+ "/" +:+ encode_segment p) =
  ["current-state"; encode_segment i; session_text n; encode_segment r; encode_segment p].
Proof.
  change ("current-state/" +:+ ?s) with ("current-state" +:+ "/" +:+ s).
  rewrite split_slash_cons by done.
  rewrite !split_slash_cons by (apply segment_not_slash || apply session_text_not_slash).
  by rewrite split_slash_plain by apply segment_not_slash.
Qed.

Lemma metadata_key_inj k l : metadata_key backend k = metadata_key backend l → k = l.
Proof.
  intros Heq%namespaced_key_inj. apply encode_segment_inj.
  by injection Heq.
Qed.

Lemma live_key_inj i j : live_key backend i = live_key backend j → i = j.
Proof.
  intros Heq%namespaced_key_inj. injection Heq as Heq. apply encode_segment_inj in Heq.
  destruct i, j. cbn in Heq. by subst.
Qed.

Lemma session_text_inj n m : session_text n = session_text m → n = m.
Proof. destruct n as [n], m as [m]. intros Heq. f_equal. by apply (inj pretty). Qed.

Lemma current_state_key_inj i n r p i' n' r' p' :
  current_state_key backend i n r p = current_state_key backend i' n' r' p' →
  i = i' ∧ n = n' ∧ r = r' ∧ p = p'.
Proof.
  intros Heq%namespaced_key_inj%(f_equal split_slash).
  rewrite !split_current_state_key in Heq.
  injection Heq as Hi Hn Hr Hp. apply encode_segment_inj in Hi, Hr, Hp. apply session_text_inj in Hn.
  destruct i, i', r, r', p, p'. cbn in *. by subst.
Qed.
(** ** Prefix reads *)

Lemma strip_prefix_append p a b : strip_prefix (p +:+ a) (p +:+ b) = strip_prefix a b.
Proof.
  induction p as [|c p IH]; [done|]. rewrite !string_app_cons. cbn [strip_prefix].
  by rewrite bool_decide_eq_true_2.
Qed.

Lemma starts_with_namespaced a b :
  starts_with (namespaced_key backend a) (namespaced_key backend b) = starts_with a b.
Proof.
  unfold starts_with, namespaced_key. rewrite <-!string_app_assoc. by rewrite strip_prefix_append.
Qed.

Lemma split_session_key i n :
  split_slash ("sessions/" +:+ encode_segment i +:+ "/" +:+ session_text n) =
  ["sessions"; encode_segment i; session_text n].
Proof.
  change ("sessions/" +:+ ?s) with ("sessions" +:+ "/" +:+ s).
  rewrite !split_slash_cons by (done || apply segment_not_slash).
  by rewrite split_slash_plain by apply session_text_not_slash.
Qed.

Lemma relative_session_key i n :
  parse_relative_key backend (session_key backend i n) =
  Ok ("sessions/" +:+ encode_segment (instance_str i) +:+ "/" +:+ session_text n).
Proof. apply parse_namespaced_key, utf8_ascii. by autorewrite with keys. Qed.

(** The last segment of a session key is its session. *)
Lemma session_key_last i n : last (split_slash (session_key backend i n)) = Some (session_text n).
Proof.
  unfold session_key, namespaced_key. rewrite split_slash_app, split_session_key. by rewrite last_app.
Qed.

Lemma session_key_utf8 i n : utf8_valid (session_key backend i n) = true.
Proof.
  pose proof (relative_session_key i n) as Hrel. unfold parse_relative_key in Hrel.
  by destruct (utf8_valid _).
Qed.

(** The sessions of an instance are found under its prefix. *)
Lemma session_prefix_key i j n :
  starts_with (session_prefix backend i) (session_key backend j n) = true ↔ i = j.
Proof.
  unfold session_prefix, session_key. rewrite starts_with_namespaced, starts_with_spec. split.
  - intros [r Heq%(f_equal split_slash)]. rewrite split_session_key in Heq.
    change ("sessions/" +:+ ?s) with ("sessions" +:+ "/" +:+ s) in Heq.
    rewrite !string_app_assoc in Heq.
    rewrite !split_slash_cons in Heq by (done || apply segment_not_slash).
    injection Heq as Hi _. apply encode_segment_inj in Hi. destruct i, j. cbn in Hi. by subst.
  - intros ->. exists (session_text n). by rewrite !string_app_assoc.
Qed.

Lemma state_prefix_key i n j m r p :
  starts_with (current_state_session_prefix backend i n) (current_state_key backend j m r p) = true ↔
  i = j ∧ n = m.
Proof.
  unfold current_state_session_prefix, current_state_key.
  rewrite starts_with_namespaced, starts_with_spec. split.
  - intros [rest Heq%(f_equal split_slash)]. rewrite split_current_state_key in Heq.
    change ("current-state/" +:+ ?s) with ("current-state" +:+ "/" +:+ s) in Heq.
    rewrite !string_app_assoc in Heq.
    rewrite !split_slash_cons in Heq
      by (done || apply segment_not_slash || apply session_text_not_slash).
    injection Heq as Hi Hn _. apply encode_segment_inj in Hi. apply session_text_inj in Hn.
    destruct i, j. cbn in Hi. by subst.
  - intros [-> ->]. eexists. by rewrite !string_app_assoc.
Qed.
End key_facts.

(** Keys of different kinds differ in the first bytes after the namespace. *)
Ltac key_clash H := exfalso; apply namespaced_key_inj in H; discriminate H.
Ltac distinct_keys := intros; let Heq := fresh "Heq" in intros Heq; key_clash Heq.

(** An identifier survives its trip through a key: the hexadecimal segment
    of a string decodes to that string when it is valid UTF-8, as every Rust
    string is, and is refused otherwise; two strings never share a segment; and
    whatever decodes is valid UTF-8. *)
Theorem segment_roundtrip v :
  decode_segment (encode_segment v) = (if utf8_valid v then Ok v else Err InvalidKey) ∧
  (∀ w, encode_segment v = encode_segment w → v = w) ∧
  ∀ s w, decode_segment s = Ok w → utf8_valid w = true.
Proof.
  split_and!; [apply decode_encode|intros w; apply encode_segment_inj|]. intros s w. unfold decode_segment.
  destruct (decode_pairs s) as [bytes|]; [|done]. destruct (utf8_valid bytes) eqn:Hv; [|done].
  by intros [= <-].
Qed.
