(* ===== verification/Snapshot.v ===== *)
(** * Snapshots of a coordination namespace

    Models the decoding of a raw etcd snapshot: [metadata_from_snapshot],
    [controller_election_from_kvs], [authoritative_revision] and
    [controller_snapshot_from_kvs] of [src/coordination/etcd/mod.rs] and
    [participant_snapshot_from_kvs] of [src/coordination/etcd/session.rs].  The
    reading of the key-values is an etcd request (file Etcd). *)

From S2P Require Import Prelude Identity StateMaps Session Keys.

(** [etcd_client::KeyValue], as its accessors give it. *)
Record KeyValue := MkKeyValue {
  kv_key : string;
  kv_value : string;
  kv_mod_revision : Z;
  kv_create_revision : Z;
  kv_version : Z;
  kv_lease : Z
}.

#[export] Instance KeyValue_eq_dec : EqDecision KeyValue.
Proof. solve_decision. Defined.

Record MetadataEntry := MkMetadataEntry {
  entry_value : option string;
  entry_revision : Revision
}.

(** [MetadataEntry::empty] *)
Definition MetadataEntry_empty (revision : Revision) : MetadataEntry := MkMetadataEntry None revision.

Record ControllerElectionSnapshot := MkElectionSnapshot {
  election_active : option (string * Z);
  election_candidates : gmap string Z
}.

Record CoordinationSnapshot := MkSnapshot {
  snap_revision : Revision;
  authoritative_revision : Revision;
  metadata : gmap string MetadataEntry;
  participants : ParticipantSessionSnapshot;
  controller_election : ControllerElectionSnapshot
}.

Definition with_authoritative_revision (s : CoordinationSnapshot) (r : Revision)
  : CoordinationSnapshot :=
  MkSnapshot (snap_revision s) r (metadata s) (participants s) (controller_election s).

Definition snapshot_live (s : CoordinationSnapshot) : gmap InstanceId LiveInstance :=
  snap_live_instances (participants s).

(** [String::from_utf8(kv.value().to_vec())] *)
Definition utf8_value (value : string) : result string CoordinationError :=
  if utf8_valid value then Ok value else Err InvalidValue.

Definition metadata_entry_from_snapshot (snapshot_revision : Revision) (kvs : list KeyValue)
  : result MetadataEntry CoordinationError :=
  match kvs with
  | [] => Ok (MetadataEntry_empty snapshot_revision)
  | kv :: _ =>
      let? value := utf8_value (kv_value kv) in
      let? revision := Revision_new (kv_mod_revision kv) in
      Ok (MkMetadataEntry (Some value) revision)
  end.

Section decoding.
Variable backend : EtcdCoordination.

Definition decode_metadata_kv (md : gmap string MetadataEntry) (kv : KeyValue)
  : result (gmap string MetadataEntry) CoordinationError :=
  let? relative := parse_relative_key backend (kv_key kv) in
  match strip_prefix "metadata/" relative with
  | None => Ok md
  | Some encoded =>
      let? key := decode_segment encoded in
      let? value := utf8_value (kv_value kv) in
      let? revision := Revision_new (kv_mod_revision kv) in
      Ok (<[key := MkMetadataEntry (Some value) revision]> md)
  end.

Definition metadata_from_snapshot (kvs : list KeyValue)
  : result (gmap string MetadataEntry) CoordinationError := try_fold decode_metadata_kv ∅ kvs.

Definition controller_election_from_kvs (kvs : list KeyValue)
  : result ControllerElectionSnapshot CoordinationError :=
  try_fold (λ '(MkElectionSnapshot active candidates) kv,
    let? relative := parse_relative_key backend (kv_key kv) in
    if String.eqb relative "controller/election/active" then
      let? controller := utf8_value (kv_value kv) in
      if is_blank controller || (kv_lease kv =? 0)%Z then Err InvalidValue
      else Ok (MkElectionSnapshot (Some (controller, kv_lease kv)) candidates)
    else match strip_prefix "controller/election/candidates/" relative with
    | Some encoded =>
        let? controller := decode_segment encoded in
        if is_blank controller || (kv_lease kv =? 0)%Z then Err InvalidValue
        else Ok (MkElectionSnapshot active (<[controller := kv_lease kv]> candidates))
    | None => Ok (MkElectionSnapshot active candidates)
    end) (MkElectionSnapshot None ∅) kvs.

(** [decode_segment(encoded).ok()] of a metadata key *)
Definition metadata_name (relative : string) : option string :=
  match strip_prefix "metadata/" relative with
  | Some encoded => match decode_segment encoded with Ok key => Some key | Err _ => None end
  | None => None
  end.

(** [fn authoritative_revision] and the body of its loop *)
Definition newest_input (revision : option Revision) (kv : KeyValue)
  : result (option Revision) CoordinationError :=
  let? relative := parse_relative_key backend (kv_key kv) in
  if is_authoritative_key relative (metadata_name relative) then
    let? current := Revision_new (kv_mod_revision kv) in
    Ok (Some (match revision with
              | None => current
              | Some previous => revision_max previous current
              end))
  else Ok revision.

Definition authoritative_revision_of (snapshot_revision : Revision) (kvs : list KeyValue)
  : result Revision CoordinationError :=
  let? revision := try_fold newest_input None kvs in
  Ok (default snapshot_revision revision).

(** ** Participants *)

Definition state_records :=
  gmap (InstanceId * SessionId) (gmap ResourceId (gmap PartitionId State)).

(** [records.entry(..).or_default().entry(..).or_default().insert(..)] *)
Definition insert_record (records : state_records) (instance : InstanceId) (session : SessionId)
    (resource : ResourceId) (partition : PartitionId) (state : State) : state_records :=
  let resources := default ∅ (records !! (instance, session)) in
  let partitions := default ∅ (resources !! resource) in
  <[(instance, session) := <[resource := <[partition := state]> partitions]> resources]> records.

(** The body of the first loop of [participant_snapshot_from_kvs]. *)
Definition decode_participant_kv (acc : gmap InstanceId SessionId * state_records) (kv : KeyValue)
  : result (gmap InstanceId SessionId * state_records) CoordinationError :=
  let '(live, records) := acc in
  let? relative := parse_relative_key backend (kv_key kv) in
  match split_slash relative with
  | [kind; encoded_instance] =>
      if String.eqb kind "live" then
        let? text := decode_segment encoded_instance in
        let? instance := map_err (λ _, InvalidKey) (InstanceId_new text) in
        let? session := parse_session (kv_value kv) in
        Ok (<[instance := session]> live, records)
      else Ok (live, records)
  | [kind; encoded_instance; encoded_session; encoded_resource; encoded_partition] =>
      if String.eqb kind "current-state" then
        let? text := decode_segment encoded_instance in
        let? instance := map_err (λ _, InvalidKey) (InstanceId_new text) in
        let? session := parse_session encoded_session in
        let? text := decode_segment encoded_resource in
        let? resource := map_err (λ _, InvalidKey) (ResourceId_new text) in
        let? text := decode_segment encoded_partition in
        let? partition := map_err (λ _, InvalidKey) (PartitionId_new text) in
        let? text := utf8_value (kv_value kv) in
        let? state := map_err (λ _, InvalidValue) (State_new text) in
        Ok (live, insert_record records instance session resource partition state)
      else Ok (live, records)
  | _ => Ok (live, records)
  end.

(** The replicas one instance reports for one resource. *)
Definition instance_states (instance : InstanceId) (partitions : gmap PartitionId State)
  : result CurrentState CoordinationError :=
  let? builder := try_fold (λ b '(partition, state),
      map_err (λ _, InvalidKey) (try_builder (CurrentStateBuilder_set_state b partition instance state)))
    CurrentState_builder (entries partitions) in
  Ok (CurrentStateBuilder_build builder).

Definition instance_resources (instance : InstanceId)
    (resources : gmap ResourceId (gmap PartitionId State))
  : result (gmap ResourceId CurrentState) CoordinationError :=
  let? built := collect_results (λ '(resource, partitions),
      let? current := instance_states instance partitions in Ok (resource, current))
    (entries resources) in
  Ok (btree_collect built).

(** The body of the second loop. *)
Definition add_live_instance
    (acc : state_records * gmap InstanceId LiveInstance * gmap InstanceId ActiveCurrentState)
    (entry : InstanceId * SessionId)
  : result (state_records * gmap InstanceId LiveInstance * gmap InstanceId ActiveCurrentState)
      CoordinationError :=
  let '(records, live_instances, active) := acc in
  let '(instance, session) := entry in
  let? resources := instance_resources instance (default ∅ (records !! (instance, session))) in
  Ok (delete (instance, session) records,
      <[instance := MkLiveInstance instance session]> live_instances,
      <[instance := MkActiveCurrentState session resources]> active).

Definition participant_snapshot_from_kvs (kvs : list KeyValue)
  : result ParticipantSessionSnapshot CoordinationError :=
  let? decoded := try_fold decode_participant_kv (∅, ∅) kvs in
  let? loaded := try_fold add_live_instance (decoded.2, ∅, ∅) (entries decoded.1) in
  Ok (MkParticipantSessionSnapshot loaded.1.2 loaded.2).

Definition controller_snapshot_from_kvs (revision : Revision) (kvs : list KeyValue)
  : result CoordinationSnapshot CoordinationError :=
  let? md := metadata_from_snapshot kvs in
  let? authoritative := authoritative_revision_of revision kvs in
  let? sessions := participant_snapshot_from_kvs kvs in
  let? election := controller_election_from_kvs kvs in
  Ok (MkSnapshot revision authoritative md sessions election).
End decoding.

(** * Facts *)

Section decoding_facts.
Context (backend : EtcdCoordination) (Hbackend : backend_ok backend).

Lemma Revision_new_ok z r : Revision_new z = Ok r ↔ (0 < z)%Z ∧ r = MkRevision z.
Proof. unfold Revision_new. destruct (z <=? 0)%Z eqn:Hz; split; naive_solver lia. Qed.

(** A key either is no metadata or adds its entry. *)
Lemma decode_metadata_step md kv md' :
  decode_metadata_kv backend md kv = Ok md' →
  md' = md ∨ ∃ key value, md' = <[key := MkMetadataEntry (Some value) (MkRevision (kv_mod_revision kv))]> md.
Proof.
  unfold decode_metadata_kv. intros Hstep. destruct (parse_relative_key _ _) as [rel|]; [|done].
  destruct (strip_prefix _ _) as [enc|]; [|left; by injection Hstep as <-].
  destruct (decode_segment enc) as [key|]; [|done]. destruct (utf8_value _) as [v|]; [|done].
  destruct (Revision_new _) as [r|] eqn:Hr; [|done].
  apply Revision_new_ok in Hr as [_ ->]. injection Hstep as <-. eauto.
Qed.

Lemma decode_metadata_own md kv md' key :
  decode_metadata_kv backend md kv = Ok md' →
  kv_key kv = metadata_key backend key → utf8_valid key = true → is_Some (md' !! key).
Proof.
  unfold decode_metadata_kv. intros Hstep Hkey Hutf.
  rewrite Hkey, relative_metadata_key in Hstep by done.
  rewrite strip_prefix_app, decode_encode, Hutf in Hstep.
  destruct (utf8_value _) as [v|]; [|done]. destruct (Revision_new _) as [r|]; [|done].
  injection Hstep as <-. by rewrite lookup_insert_eq.
Qed.

Lemma decode_metadata_keeps kvs md md' key :
  try_fold (decode_metadata_kv backend) md kvs = Ok md' → is_Some (md !! key) → is_Some (md' !! key).
Proof.
  intros Hrun Hsome. revert Hrun.
  apply (try_fold_ind _ (λ md, is_Some (md !! key))); [done|].
  intros m kv m' _ Hm [->|(k & v & ->)]%decode_metadata_step; [done|].
  destruct (decide (k = key)) as [->|]; [by rewrite lookup_insert_eq|by rewrite lookup_insert_ne].
Qed.

Lemma metadata_from_present kvs md kv key :
  metadata_from_snapshot backend kvs = Ok md → kv ∈ kvs →
  kv_key kv = metadata_key backend key → utf8_valid key = true → is_Some (md !! key).
Proof.
  intros Hrun (l1 & l2 & ->)%list_elem_of_split Hkey Hutf. unfold metadata_from_snapshot in Hrun.
  rewrite try_fold_app in Hrun. destruct (try_fold _ ∅ l1) as [md0|]; [|discriminate Hrun].
  cbn [try_fold] in Hrun. destruct (decode_metadata_kv backend md0 kv) as [md1|] eqn:Hstep; [|discriminate Hrun].
  eapply decode_metadata_keeps; [exact Hrun|]. by eapply decode_metadata_own.
Qed.

(** Every entry has the revision of one of the keys. *)
Lemma metadata_from_revision kvs md key entry :
  metadata_from_snapshot backend kvs = Ok md → md !! key = Some entry →
  ∃ kv, kv ∈ kvs ∧ revision_value (entry_revision entry) = kv_mod_revision kv.
Proof.
  intros Hrun. revert key entry. revert Hrun. unfold metadata_from_snapshot.
  apply (try_fold_ind _ (λ md, ∀ key entry, md !! key = Some entry →
    ∃ kv, kv ∈ kvs ∧ revision_value (entry_revision entry) = kv_mod_revision kv)).
  - intros key entry Hno. by rewrite lookup_empty in Hno.
  - intros m kv m' Hkv IH [->|(k & v & ->)]%decode_metadata_step key entry Hentry; [by eapply IH|].
    apply lookup_insert_Some in Hentry as [[_ <-]|[_ Hentry]]; [|by eapply IH]. by exists kv.
Qed.

(** The newest input of a snapshot is one of its keys, or the snapshot has none. *)
Lemma authoritative_origin revision kvs r :
  authoritative_revision_of backend revision kvs = Ok r →
  r = revision ∨ ∃ kv, kv ∈ kvs ∧ (0 < kv_mod_revision kv)%Z ∧ r = MkRevision (kv_mod_revision kv).
Proof.
  unfold authoritative_revision_of. intros Hrun.
  destruct (try_fold (newest_input backend) None kvs) as [o|] eqn:Hfold; [|discriminate Hrun].
  injection Hrun as <-.
  assert (∀ x, o = Some x →
    ∃ kv, kv ∈ kvs ∧ (0 < kv_mod_revision kv)%Z ∧ x = MkRevision (kv_mod_revision kv)) as Horigin.
  { revert Hfold. apply (try_fold_ind _ (λ o, ∀ x, o = Some x →
      ∃ kv, kv ∈ kvs ∧ (0 < kv_mod_revision kv)%Z ∧ x = MkRevision (kv_mod_revision kv))); [done|].
    intros o1 kv o2 Hkv IH Hstep x ->. unfold newest_input in Hstep.
    destruct (parse_relative_key _ _) as [rel|]; [|done].
    destruct (is_authoritative_key _ _); [|injection Hstep as ->; by apply IH].
    destruct (Revision_new _) as [cur|] eqn:Hcur; [|done]. apply Revision_new_ok in Hcur as [Hpos ->].
    injection Hstep as <-. destruct o1 as [prev|]; cbn; [|by exists kv]. unfold revision_max.
    destruct (_ <=? _)%Z; [by exists kv|by apply IH]. }
  destruct o as [x|]; cbn; [right; by apply Horigin|by left].
Qed.
End decoding_facts.
