(* ===== verification/Routing.v ===== *)
(** * Routing snapshots

    Models [src/routing/snapshot.rs]: queries over an external view restricted
    to the configured instances. *)

From S2P Require Import Prelude Identity StateMaps.

Inductive RoutingError :=
| InvalidResource (value : string)
| InvalidPartition (value : string)
| MultipleLeaders (resource partition : string) (instances : gset InstanceId).

(** [{:?}] of a set of instances; [debug] is [{:?}] of a string. *)
Definition debug_instances (debug : string → string) (instances : gset InstanceId) : string :=
  "{" +:+ String.concat ", " ((λ i, "InstanceId(" +:+ debug (instance_str i) +:+ ")") <$> set_items instances) +:+ "}".

Definition display_routing_error (debug : string → string) (e : RoutingError) : string :=
  match e with
  | InvalidResource value => "invalid resource " +:+ debug value
  | InvalidPartition value => "invalid partition " +:+ debug value
  | MultipleLeaders resource partition instances =>
      "resource " +:+ resource +:+ " partition " +:+ partition +:+ " has multiple leaders: " +:+
      debug_instances debug instances
  end.

Record RoutingSnapshot := MkRoutingSnapshot {
  external_view : ExternalView;
  configured_instances : gset InstanceId
}.

Definition from_external_view (view : ExternalView) (configured : list InstanceId)
  : RoutingSnapshot := MkRoutingSnapshot view (list_to_set configured).

Definition instances_for (self : RoutingSnapshot) (resource : ResourceId)
    (partition : PartitionId) (state : State) : gset InstanceId :=
  let instance_states : option (gmap InstanceId State) :=
    match ev_states (external_view self) !! resource with
    | Some partitions => partitions !! partition
    | None => None
    end in
  match instance_states with
  | None => ∅
  | Some instance_states =>
      let advertising := List.filter (λ entry : InstanceId * State,
        bool_decide (entry.2 = state) && bool_decide (entry.1 ∈ configured_instances self))
        (entries instance_states) in
      list_to_set (map fst advertising)
  end.

(** The parsing prefix [leader] and [replicas] share. *)
Definition routing_ids (resource_name partition_name : string)
  : result (ResourceId * PartitionId) RoutingError :=
  let? r := map_err (λ _, InvalidResource resource_name) (ResourceId_new resource_name) in
  let? p := map_err (λ _, InvalidPartition partition_name) (PartitionId_new partition_name) in
  Ok (r, p).

Definition RoutingSnapshot_leader (self : RoutingSnapshot) (resource_name partition_name : string)
  : result (option InstanceId) RoutingError :=
  let? ids := routing_ids resource_name partition_name in
  let '(resource_id, partition_id) := ids in
  let leaders := instances_for self resource_id partition_id LEADER in
  match set_items leaders with
  | [] => Ok None
  | [i] => Ok (Some i)
  | _ => Err (MultipleLeaders (resource_str resource_id) (partition_str partition_id) leaders)
  end.

Definition RoutingSnapshot_replicas (self : RoutingSnapshot) (resource_name partition_name : string)
  : result (gset InstanceId) RoutingError :=
  let? ids := routing_ids resource_name partition_name in
  let '(resource_id, partition_id) := ids in
  Ok (instances_for self resource_id partition_id LEADER ∪
      instances_for self resource_id partition_id STANDBY).

(** ** Lemmas *)

Lemma elem_of_instances_for self r p s i :
  i ∈ instances_for self r p s ↔
  ExternalView_state (external_view self) r p i = Some s ∧ i ∈ configured_instances self.
Proof.
  unfold instances_for, ExternalView_state.
  destruct (ev_states (external_view self) !! r) as [ps|]; [|set_solver]. simpl.
  destruct (ps !! p) as [insts|]; [|set_solver]. simpl.
  rewrite elem_of_list_to_set, list_elem_of_fmap. split.
  - intros ([j t] & -> & Hin). simpl. rewrite list_elem_of_In, filter_In in Hin.
    destruct Hin as [Hin Hb]. simpl in Hb. reflect_bools. subst t.
    by apply list_elem_of_In, elem_of_entries in Hin.
  - intros [Hi Hc]. exists (i, s). split; [done|]. apply list_elem_of_In, filter_In.
    split; [by apply list_elem_of_In, elem_of_entries|]. by rewrite !bool_decide_true.
Qed.

Lemma routing_ids_ok r p :
  r ≠ EmptyString → p ≠ EmptyString → routing_ids r p = Ok (MkResourceId r, MkPartitionId p).
Proof. by destruct r, p. Qed.

(** ** Properties *)

(** Leader lookup is exact: a name that is empty is rejected, no configured
    leader gives [None], a sole configured leader is returned, and two or more
    are reported together as an ambiguity, never one of them as the answer. *)
Theorem leader_exact self r p :
  let advertised i := ExternalView_state (external_view self) (MkResourceId r) (MkPartitionId p) i
                        = Some LEADER ∧ i ∈ configured_instances self in
  match RoutingSnapshot_leader self r p with
  | Ok None => ∀ i, ¬ advertised i
  | Ok (Some i) => ∀ j, advertised j ↔ j = i
  | Err (MultipleLeaders r' p' is') =>
      r' = r ∧ p' = p ∧ (∀ j, advertised j ↔ j ∈ is') ∧
      ∃ i j, i ≠ j ∧ advertised i ∧ advertised j
  | Err (InvalidResource r') => r' = r ∧ r = EmptyString
  | Err (InvalidPartition p') => p' = p ∧ p = EmptyString
  end.
Proof.
  intros advertised. unfold RoutingSnapshot_leader.
  destruct (decide (r = EmptyString)) as [->|Hr]; [done|].
  destruct (decide (p = EmptyString)) as [->|Hp]; [by destruct r|].
  rewrite routing_ids_ok by done.
  assert (∀ i, advertised i ↔ i ∈ instances_for self (MkResourceId r) (MkPartitionId p) LEADER)
    as Hadv by (intros i; by rewrite elem_of_instances_for).
  pose proof (NoDup_set_items (instances_for self (MkResourceId r) (MkPartitionId p) LEADER)) as Hnd.
  setoid_rewrite <-elem_of_set_items in Hadv.
  destruct (set_items _) as [|i [|j l]] eqn:Hl.
  - intros i. rewrite Hadv. apply not_elem_of_nil.
  - intros j. rewrite Hadv. apply list_elem_of_singleton.
  - split_and!; [done..| |].
    + intros k. by rewrite Hadv, <-Hl, elem_of_set_items.
    + exists i, j. rewrite !Hadv. apply NoDup_cons in Hnd as [Hi _]. set_solver.
Qed.

(** Replica lookup returns exactly the configured instances that
    advertise LEADER or STANDBY for the partition, whatever else the external
    view holds; empty names are rejected. *)
Theorem replicas_exact self r p :
  match RoutingSnapshot_replicas self r p with
  | Ok instances => ∀ i, i ∈ instances ↔
      i ∈ configured_instances self ∧
      (ExternalView_state (external_view self) (MkResourceId r) (MkPartitionId p) i = Some LEADER ∨
       ExternalView_state (external_view self) (MkResourceId r) (MkPartitionId p) i = Some STANDBY)
  | Err (InvalidResource r') => r' = r ∧ r = EmptyString
  | Err (InvalidPartition p') => p' = p ∧ p = EmptyString
  | Err (MultipleLeaders _ _ _) => False
  end.
Proof.
  unfold RoutingSnapshot_replicas.
  destruct (decide (r = EmptyString)) as [->|Hr]; [done|].
  destruct (decide (p = EmptyString)) as [->|Hp]; [by destruct r|].
  rewrite routing_ids_ok by done. intros i.
  rewrite elem_of_union, !elem_of_instances_for. naive_solver.
Qed.
