(* ===== verification/SemiAuto.v ===== *)
(** * SEMI_AUTO rebalancing

    Models [src/rebalance/semi_auto.rs]: the greedy assignment of prioritised
    states to the live instances of each preference list, and the draining of
    replicas that are no longer placed.

    [current_priority] is an iterator consumed across calls: it is the list of
    the elements it has still to yield.  The [while] loop runs on fuel; each
    round pops the queue or takes an element of the iterator, so their total
    length is enough. *)

From S2P Require Import Prelude Identity StateMaps StateModel.

Inductive SemiAutoError := ReplicaState (error : ReplicaStateError).

Definition display_semi_auto_error (e : SemiAutoError) : string :=
  match e with ReplicaState e => display_replica_state_error e end.

(** [output.set_state(..)?] *)
Definition output_state (output : BestPossibleStateBuilder) (p : PartitionId) (i : InstanceId)
    (s : State) : result BestPossibleStateBuilder (stop SemiAutoError) :=
  map_err (λ e, Raise (ReplicaState e))
    (try_builder (BestPossibleStateBuilder_set_state output p i s)).

Definition state_count (cardinality : option StateCardinality)
    (live_candidate_count preference_list_count : N) : N :=
  match cardinality with
  | Some (Exact count) => count
  | Some ReplicaCount => preference_list_count
  | Some NodeCount => live_candidate_count
  | Some Unbounded | None => 0
  end.

Definition current_state_priority (current : option (gmap InstanceId State))
    (instance : InstanceId) (state_model : StateModelDefinition) : N :=
  default usize_MAX
    (current ≫= λ states, states !! instance ≫= λ state,
       position (λ candidate, bool_decide (candidate = state)) (states_by_priority state_model)).

(** The [for] loop over the shared iterator: the first candidate not yet
    assigned, with what the iterator has left. *)
Fixpoint next_unassigned (assigned : gset InstanceId) (current_priority : list InstanceId)
  : option InstanceId * list InstanceId :=
  match current_priority with
  | [] => (None, [])
  | candidate :: rest =>
      if bool_decide (candidate ∈ assigned) then next_unassigned assigned rest
      else (Some candidate, rest)
  end.

Definition adjust_instance_if_necessary (proposed_instance : InstanceId)
    (assigned : gset InstanceId) (remaining_candidate_count remaining_request_count : N)
    (requested_state_is_top current_needs_adjustment : bool)
    (current_priority : list InstanceId) : InstanceId * list InstanceId :=
  if (remaining_request_count <? remaining_candidate_count)%N
     && requested_state_is_top && current_needs_adjustment
  then match next_unassigned assigned current_priority with
       | (Some candidate, rest) => (candidate, rest)
       | (None, rest) => (proposed_instance, rest)
       end
  else (proposed_instance, current_priority).

Definition is_second_top_state (state : State) (state_model : StateModelDefinition) : bool :=
  existsb (λ candidate,
    bool_decide (next_state_toward state_model candidate (highest_priority_state state_model)
                 = Some (highest_priority_state state_model))
    && bool_decide (candidate = state))
  (states_by_priority state_model).

(** The variables the loops of one partition update. *)
Record Assignment := MkAssignment {
  active_queue : list InstanceId;
  current_priority : list InstanceId;
  assigned : gset InstanceId;
  output : BestPossibleStateBuilder
}.

Section partition.
Context (state_model : StateModelDefinition) (partition : PartitionId).
Context (current : option (gmap InstanceId State)) (total_candidate_count : N).

(** [current_instance_state != requested_state && !is_second_top_state(..)] *)
Definition needs_adjustment (instance : InstanceId) (requested_state : State) : bool :=
  let current_instance_state :=
    default (initial_state state_model) (current ≫= λ states, states !! instance) in
  negb (bool_decide (current_instance_state = requested_state))
  && negb (is_second_top_state current_instance_state state_model).

(** The [while state_count > 0] loop. *)
Fixpoint assign_state (fuel : nat) (requested_state : State) (state_count : N) (st : Assignment)
  : result Assignment (stop SemiAutoError) :=
  if (state_count =? 0)%N then Ok st
  else match active_queue st with
  | [] => Ok st
  | peek_instance :: rest =>
      match fuel with
      | 0 => Err Diverged
      | S fuel =>
          if bool_decide (peek_instance ∈ assigned st) then
            assign_state fuel requested_state state_count
              (MkAssignment rest (current_priority st) (assigned st) (output st))
          else
            let '(proposed, priority) :=
              adjust_instance_if_necessary peek_instance (assigned st)
                (total_candidate_count - N.of_nat (size (assigned st))) state_count
                (bool_decide (requested_state = highest_priority_state state_model))
                (needs_adjustment peek_instance requested_state) (current_priority st) in
            let queue := if bool_decide (proposed = peek_instance) then rest
                         else active_queue st in
            let? out := output_state (output st) partition proposed requested_state in
            assign_state fuel requested_state (state_count - 1)
              (MkAssignment queue priority ({[proposed]} ∪ assigned st) out)
      end
  end.

(** The [for requested_state in ..] loop. *)
Definition assign_states (preference_list_count : N) (st : Assignment)
  : result Assignment (stop SemiAutoError) :=
  try_fold (λ st requested_state,
    assign_state (length (active_queue st) + length (current_priority st)) requested_state
      (state_count (cardinality_for state_model requested_state) total_candidate_count
         preference_list_count) st)
  st (states_by_priority state_model).
End partition.

(** Replicas of the partition outside its preference list are dropped. *)
Definition drop_unplaced (partition : PartitionId) (preference_list : list InstanceId)
    (current : option (gmap InstanceId State)) (output : BestPossibleStateBuilder)
  : result BestPossibleStateBuilder (stop SemiAutoError) :=
  match current with
  | None => Ok output
  | Some current =>
      try_fold (λ output instance,
        if negb (bool_decide (instance ∈ preference_list))
        then output_state output partition instance DROPPED else Ok output)
      output (map_keys current)
  end.

Definition active_instances (live : gset InstanceId) (preference_list : list InstanceId)
  : list InstanceId :=
  List.filter (λ instance, bool_decide (instance ∈ live)) preference_list.

(** Body of the partition loop. *)
Definition rebalance_partition (current_state : CurrentState) (live_instances : gset InstanceId)
    (state_model : StateModelDefinition) (out : BestPossibleStateBuilder)
    (entry : PartitionId * list InstanceId)
  : result BestPossibleStateBuilder (stop SemiAutoError) :=
  let '(partition, preference_list) := entry in
  let current := CurrentState_entries current_state !! partition in
  let? out := drop_unplaced partition preference_list current out in
  let active := active_instances live_instances preference_list in
  let priority := sort_by_key (λ i, current_state_priority current i state_model) active in
  let? st := assign_states state_model partition current (len active) (len preference_list)
               (MkAssignment active priority ∅ out) in
  Ok (st.(output)).

(** Body of the loop that drains partitions removed from the ideal state. *)
Definition drain_partition (ideal_state : IdealState) (out : BestPossibleStateBuilder)
    (entry : PartitionId * gmap InstanceId State)
  : result BestPossibleStateBuilder (stop SemiAutoError) :=
  let '(partition, current) := entry in
  match preference_list ideal_state partition with
  | Some _ => Ok out
  | None => try_fold (λ out instance, output_state out partition instance DROPPED)
              out (map_keys current)
  end.

Definition compute_semi_auto_best_possible_state (ideal_state : IdealState)
    (current_state : CurrentState) (live_instances : gset InstanceId)
    (state_model : StateModelDefinition) : result BestPossibleState (stop SemiAutoError) :=
  let? out := try_fold (rebalance_partition current_state live_instances state_model)
                BestPossibleState_builder (entries (preference_lists ideal_state)) in
  let? out := try_fold (drain_partition ideal_state) out
                (entries (CurrentState_entries current_state)) in
  Ok (BestPossibleStateBuilder_build out).

(** * The greedy assignment *)

Definition out_get (out : BestPossibleStateBuilder) (p : PartitionId) (i : InstanceId)
  : option State := rget (states (bpb_states out)) p i.

(** Reference distribution: each request takes what is left of the candidates. *)
Fixpoint fill (requests : list N) (candidates : N) : list N :=
  match requests with
  | [] => []
  | r :: requests => N.min r candidates :: fill requests (candidates - N.min r candidates)
  end.

Lemma output_state_fresh out p i s :
  out_get out p i = None →
  ∃ out', output_state out p i s = Ok out' ∧
    ∀ q j, out_get out' q j = if decide (p = q ∧ i = j) then Some s else out_get out q j.
Proof.
  intros Hn. unfold output_state, BestPossibleStateBuilder_set_state.
  pose proof (proj2 (ReplicaStates_insert_ok (bpb_states out) p i s _) (conj Hn eq_refl)) as Hok.
  destruct (ReplicaStates_insert _ _ _ _) as [rs [u|e]]; [|done]. simpl in Hok. injection Hok as ->.
  eexists. split; [done|]. intros q j. unfold out_get. simpl. apply rget_rput.
Qed.

Lemma next_unassigned_spec a l o rest :
  next_unassigned a l = (o, rest) →
  (∀ i, i ∈ rest → i ∈ l) ∧
  match o with
  | Some i => i ∈ l ∧ i ∉ a ∧ length rest < length l
  | None => length rest ≤ length l
  end.
Proof.
  induction l as [|x l IH]; simpl; [intros [= <- <-]; done|].
  case_bool_decide as Hx.
  - intros [Hsub Hmatch]%IH. split; [intros i Hi; right; auto|].
    destruct o; [|lia]. destruct Hmatch as (? & ? & ?). split_and!; [by right|done|lia].
  - intros [= <- <-]. split; [intros i Hi; by right|]. split_and!; [left|done|lia].
Qed.

Lemma adjust_spec peek a rc rr top need prio prop prio' :
  peek ∉ a →
  adjust_instance_if_necessary peek a rc rr top need prio = (prop, prio') →
  prop ∉ a ∧ (∀ i, i ∈ prio' → i ∈ prio) ∧ length prio' ≤ length prio ∧
  (prop = peek ∨ (prop ∈ prio ∧ length prio' < length prio)).
Proof.
  intros Hpeek. unfold adjust_instance_if_necessary.
  destruct (_ && _); [|intros [= <- <-]; split_and!; auto].
  destruct (next_unassigned a prio) as [[c|] rest] eqn:Hn; intros [= <- <-];
    apply next_unassigned_spec in Hn as [Hsub Hm].
  - destruct Hm as (? & ? & ?). split_and!; auto; lia.
  - split_and!; auto.
Qed.

Section assignment.
Context (state_model : StateModelDefinition) (p : PartitionId).
Context (current : option (gmap InstanceId State)) (total : N).
(** The candidates of the partition. *)
Context (A : gset InstanceId).

Record assign_inv (st : Assignment) : Prop := {
  ai_queue : ∀ i, i ∈ active_queue st → i ∈ A;
  ai_priority : ∀ i, i ∈ current_priority st → i ∈ A;
  ai_assigned : assigned st ⊆ A;
  ai_left : ∀ i, i ∈ A → i ∈ active_queue st ∨ i ∈ assigned st;
  ai_fresh : ∀ i, i ∈ A → i ∉ assigned st → out_get (output st) p i = None
}.

(** What a run that assigns [s] to the instances [new] leaves behind. *)
Record assigned_block (s : State) (st : Assignment) (new : gset InstanceId) (st' : Assignment)
  : Prop := {
  ab_inv : assign_inv st';
  ab_new : new ⊆ A ∖ assigned st;
  ab_assigned : assigned st' = new ∪ assigned st;
  ab_out : ∀ q i, out_get (output st') q i =
    if decide (p = q ∧ i ∈ new) then Some s else out_get (output st) q i
}.

Lemma block_refl s st : assign_inv st → assigned_block s st ∅ st.
Proof.
  intros Hinv. split; [done|set_solver|set_solver|]. intros q i.
  by rewrite decide_False by set_solver.
Qed.

Lemma block_cons s st queue prio prop out new st' :
  prop ∈ A → prop ∉ assigned st →
  (∀ q j, out_get out q j = if decide (p = q ∧ prop = j) then Some s else out_get (output st) q j) →
  assigned_block s (MkAssignment queue prio ({[prop]} ∪ assigned st) out) new st' →
  assigned_block s st ({[prop]} ∪ new) st'.
Proof.
  intros HA Hprop Hout [Hinv' Hnew Has Hout']. simpl in *.
  split; [done|set_solver|rewrite Has; set_solver|]. intros q i. rewrite Hout', Hout.
  destruct (decide (p = q ∧ i ∈ new)) as [[]|]; [by rewrite decide_True by set_solver|].
  destruct (decide (p = q ∧ prop = i)) as [[-> ->]|].
  - by rewrite decide_True by set_solver.
  - by rewrite decide_False by set_solver.
Qed.

Lemma candidates_left (a : gset InstanceId) prop :
  prop ∈ A → prop ∉ a → size (A ∖ a) = S (size (A ∖ ({[prop]} ∪ a))).
Proof.
  intros HA Ha.
  assert (A ∖ a = {[prop]} ∪ A ∖ ({[prop]} ∪ a)) as Heq.
  { apply set_eq. intros i. destruct (decide (i = prop)); set_solver. }
  rewrite Heq, size_union, size_singleton by set_solver. done.
Qed.

(** Both kinds of round keep the invariant. *)
Lemma assign_inv_pop st peek rest :
  assign_inv st → active_queue st = peek :: rest → peek ∈ assigned st →
  assign_inv (MkAssignment rest (current_priority st) (assigned st) (output st)).
Proof.
  intros Hinv Hq Ha. split; try apply Hinv.
  - intros i Hi. apply (ai_queue _ Hinv). rewrite Hq. by right.
  - intros i Hi. simpl. destruct (ai_left _ Hinv i Hi) as [Hin|]; [|by right].
    rewrite Hq in Hin. set_solver.
Qed.

Lemma assign_inv_take s st peek rest prop prio out :
  assign_inv st → active_queue st = peek :: rest → prop ∈ A →
  (∀ i, i ∈ prio → i ∈ current_priority st) →
  (∀ q j, out_get out q j = if decide (p = q ∧ prop = j) then Some s else out_get (output st) q j) →
  assign_inv (MkAssignment (if bool_decide (prop = peek) then rest else peek :: rest) prio
                ({[prop]} ∪ assigned st) out).
Proof.
  intros Hinv Hq HA Hsub Hout. split; simpl.
  - intros i Hi. apply (ai_queue _ Hinv). rewrite Hq. case_bool_decide; set_solver.
  - intros i Hi. by apply (ai_priority _ Hinv), Hsub.
  - pose proof (ai_assigned _ Hinv). set_solver.
  - intros i Hi. pose proof (ai_left _ Hinv i Hi) as Hl. rewrite Hq in Hl.
    case_bool_decide; set_solver.
  - intros i Hi Hni. rewrite Hout, decide_False by set_solver.
    apply (ai_fresh _ Hinv); set_solver.
Qed.

(** The loop terminates and assigns the state to as many unassigned candidates
    as are requested and left. *)
Lemma assign_state_spec fuel s n st :
  assign_inv st → length (active_queue st) + length (current_priority st) ≤ fuel →
  ∃ st' new, assign_state state_model p current total fuel s n st = Ok st' ∧
    assigned_block s st new st' ∧ N.of_nat (size new) = N.min n (N.of_nat (size (A ∖ assigned st))).
Proof.
  revert n st. induction fuel as [|fuel IH]; intros n st Hinv Hfuel; simpl;
    destruct (n =? 0)%N eqn:Hn; reflect_bools.
  1,3: exists st, ∅; split_and!; [done|by apply block_refl|subst n; rewrite size_empty; lia].
  all: destruct (active_queue st) as [|peek rest] eqn:Hq.
  1,3: exists st, ∅; split_and!; [done|by apply block_refl|];
    assert (A ∖ assigned st = ∅) as ->; [|rewrite !size_empty; lia];
    apply set_eq; intros i; pose proof (ai_left _ Hinv i) as Hl; rewrite Hq in Hl; set_solver.
  { simpl in Hfuel. lia. }
  assert (peek ∈ A) as HpA by (apply (ai_queue _ Hinv); rewrite Hq; left).
  case_bool_decide as Ha.
  - destruct (IH n (MkAssignment rest (current_priority st) (assigned st) (output st)))
      as (st' & new & Hrun & Hb & Hsz); [by eapply assign_inv_pop|simpl in *; lia|].
    exists st', new. split_and!; [done| |done]. by split; apply Hb.
  - destruct (adjust_instance_if_necessary _ _ _ _ _ _ _) as [prop prio] eqn:Hadj.
    apply adjust_spec in Hadj as (Hprop & Hsub & Hle & Hwhich); [|done].
    assert (prop ∈ A) as HA.
    { destruct Hwhich as [->|[? _]]; [done|]. by apply (ai_priority _ Hinv). }
    destruct (output_state_fresh (output st) p prop s) as (out & -> & Hout);
      [by apply (ai_fresh _ Hinv)|].
    edestruct (IH (n - 1)%N) as (st' & new & Hrun & Hb & Hsz);
      [by eapply (assign_inv_take s st peek rest prop prio out)| |].
    + simpl in *. case_bool_decide; simpl; [lia|]. destruct Hwhich as [->|[_ ?]]; [done|lia].
    + exists st', ({[prop]} ∪ new). split_and!; [exact Hrun|by eapply block_cons|].
      pose proof (ab_new _ _ _ _ Hb). rewrite size_union, size_singleton by set_solver.
      rewrite (candidates_left (assigned st) prop) by done. simpl in Hsz. lia.
Qed.

(** What the loop over the states [ss] leaves behind. *)
Record assigned_states (requests : State → N) (ss : list State) (st st' : Assignment) : Prop := {
  as_inv : assign_inv st';
  as_same : ∀ q i, (q ≠ p ∨ i ∉ A ∖ assigned st) →
    out_get (output st') q i = out_get (output st) q i;
  as_known : ∀ i s, i ∈ A ∖ assigned st → out_get (output st') p i = Some s → s ∈ ss;
  as_count : ∀ k s, ss !! k = Some s →
    fill (requests <$> ss) (N.of_nat (size (A ∖ assigned st))) !! k =
    Some (N.of_nat (size (filter (λ i, out_get (output st') p i = Some s) (A ∖ assigned st))))
}.

Lemma assigned_states_cons requests s ss st new st1 st' :
  s ∉ ss → assigned_block s st new st1 →
  N.of_nat (size new) = N.min (requests s) (N.of_nat (size (A ∖ assigned st))) →
  assigned_states requests ss st1 st' → assigned_states requests (s :: ss) st st'.
Proof.
  intros Hs [_ Hnew Has Hout] Hsz [Hinv' Hsame Hknown Hcount].
  assert (∀ i, i ∈ new → out_get (output st') p i = Some s) as Hblock.
  { intros i Hi. rewrite Hsame by (right; set_solver). by rewrite Hout, decide_True. }
  assert (N.of_nat (size (A ∖ assigned st)) - N.of_nat (size new) =
          N.of_nat (size (A ∖ assigned st1)))%N as Hrest.
  { assert (A ∖ assigned st = new ∪ A ∖ assigned st1) as ->.
    { rewrite Has. apply set_eq. intros i. destruct (decide (i ∈ new)); set_solver. }
    rewrite size_union by set_solver. lia. }
  split; [done| | |].
  - intros q i Hqi. rewrite Hsame by set_solver. rewrite Hout, decide_False; set_solver.
  - intros i t Hi Ht. destruct (decide (i ∈ new)) as [Hin|Hin].
    + rewrite Hblock in Ht by done. simplify_eq. left.
    + right. apply (Hknown i); [set_solver|done].
  - intros k t Hk. simpl. rewrite <-Hsz, Hrest. destruct k as [|k]; simpl in *.
    + simplify_eq. do 3 f_equal. apply set_eq. intros i. rewrite elem_of_filter. split.
      * intros Hi. split; [by apply Hblock|set_solver].
      * intros [Ht Hi]. destruct (decide (i ∈ new)); [done|].
        destruct Hs. apply (Hknown i); [set_solver|done].
    + etrans; [exact (Hcount k t Hk)|]. do 3 f_equal. apply set_eq. intros i. rewrite !elem_of_filter.
      assert (i ∈ new → out_get (output st') p i ≠ Some t); [|set_solver].
      intros Hi. rewrite Hblock by done. intros [= ->]. by apply list_elem_of_lookup_2 in Hk.
Qed.

Lemma assign_states_loop prefs ss st :
  NoDup ss → assign_inv st →
  ∃ st', try_fold (λ st requested_state,
      assign_state state_model p current total
        (length (active_queue st) + length (current_priority st)) requested_state
        (state_count (cardinality_for state_model requested_state) total prefs) st) st ss = Ok st' ∧
    assigned_states (λ s, state_count (cardinality_for state_model s) total prefs) ss st st'.
Proof.
  revert st. induction ss as [|s ss IH]; intros st Hnd Hinv; simpl.
  - exists st. split; [done|]. split; [done|done| |done].
    intros i s Hi Hs. rewrite (ai_fresh _ Hinv) in Hs by set_solver. done.
  - apply NoDup_cons in Hnd as [Hs Hnd].
    edestruct assign_state_spec as (st1 & new & -> & Hb & Hsz); [done|done|].
    destruct (IH st1 Hnd (ab_inv _ _ _ _ Hb)) as (st' & Hrun & Hst').
    exists st'. split; [done|]. by eapply assigned_states_cons.
Qed.
End assignment.

(** The instance that receives a top state requested once: the first candidate,
    unless it would have to climb from below the second state and another one
    can take over, in which case the candidate whose current state is highest. *)
Definition top_choice (sm : StateModelDefinition) (current : option (gmap InstanceId State))
    (active : list InstanceId) : option InstanceId :=
  match active with
  | [] => None
  | first :: _ =>
      Some (if (1 <? len active)%N && needs_adjustment sm current first (highest_priority_state sm)
            then default first
                   (head (sort_by_key (λ i, current_state_priority current i sm) active))
            else first)
  end.

Lemma needs_adjust_eq sm current first prio total rest :
  (∀ i, i ∈ prio ↔ i ∈ first :: rest) →
  fst (adjust_instance_if_necessary first ∅ (total - 0) 1 true
         (needs_adjustment sm current first (highest_priority_state sm)) prio) =
  if (1 <? total)%N && needs_adjustment sm current first (highest_priority_state sm)
  then default first (head prio) else first.
Proof.
  intros Hprio. unfold adjust_instance_if_necessary. rewrite N.sub_0_r, andb_true_r.
  destruct ((1 <? total)%N && _); [|done].
  destruct prio as [|c prio]; simpl; [done|]. by rewrite bool_decide_false by set_solver.
Qed.

Lemma assign_states_top sm p current active prefs prio out st' top tail i :
  states_by_priority sm = top :: tail → NoDup (states_by_priority sm) →
  assign_inv p (list_to_set active) (MkAssignment active prio ∅ out) →
  prio = sort_by_key (λ i, current_state_priority current i sm) active →
  state_count (cardinality_for sm top) (len active) prefs = 1%N →
  top_choice sm current active = Some i →
  assign_states sm p current (len active) prefs (MkAssignment active prio ∅ out) = Ok st' →
  out_get (output st') p i = Some top.
Proof.
  intros Hss Hnd Hinv Hprio Hreq Hi Hrun. unfold assign_states in Hrun. rewrite Hss in Hrun, Hnd.
  apply NoDup_cons in Hnd as [_ Hnd]. simpl in Hrun. rewrite Hreq in Hrun.
  destruct (assign_state_spec sm p current (len active) _ (length active + length prio) top 1 _
    Hinv) as (st1 & new & Hst1 & Hb & _); [done|]. rewrite Hst1 in Hrun.
  destruct (assign_states_loop sm p current (len active) _ prefs tail st1 Hnd (ab_inv _ _ _ _ _ _ Hb))
    as (st2 & Hrun2 & Hst2).
  rewrite Hrun2 in Hrun. injection Hrun as <-.
  assert (i ∈ new) as Hnew.
  2: { rewrite (as_same _ _ _ _ _ _ Hst2), (ab_out _ _ _ _ _ _ Hb).
       - by rewrite decide_True.
       - right. rewrite (ab_assigned _ _ _ _ _ _ Hb). set_solver. }
  destruct active as [|first rest]; [done|]. unfold top_choice in Hi.
  assert (highest_priority_state sm = top) as Htop by (unfold highest_priority_state; by rewrite Hss).
  assert (∀ i, i ∈ prio ↔ i ∈ first :: rest) as Hpe
    by (intros j; rewrite Hprio; apply elem_of_stable_sort).
  pose proof (needs_adjust_eq sm current first prio (len (first :: rest)) rest Hpe) as Hadj.
  rewrite <-Hprio, <-Hadj, Htop in Hi. injection Hi as Hi. clear Hrun2 Hst2.
  cbn [length Nat.add assign_state active_queue current_priority assigned SemiAuto.output] in Hst1.
  rewrite bool_decide_false in Hst1 by set_solver. rewrite size_empty, Htop in Hst1.
  rewrite (bool_decide_true (top = top)) in Hst1 by done. simpl in Hst1.
  destruct (adjust_instance_if_necessary _ _ _ _ _ _ _) as [prop prio'] eqn:Ha. simpl in Hi. subst prop.
  destruct (output_state out p i top) as [out1|] eqn:Hout; [|done].
  assert (assigned st1 = {[i]} ∪ ∅) as Has.
  { destruct (length rest + length prio); simpl in Hst1; by simplify_eq. }
  rewrite (ab_assigned _ _ _ _ _ _ Hb) in Has. simpl in Has. set_solver.
Qed.

(** ** Partitions *)

(** Dropping the selected instances of a list of distinct fresh replicas. *)
Lemma drop_loop (sel : InstanceId → bool) p l out :
  NoDup l → (∀ i, i ∈ l → out_get out p i = None) →
  ∃ out', try_fold (λ out i, if sel i then output_state out p i DROPPED else Ok out) out l = Ok out' ∧
    ∀ q j, out_get out' q j =
      if decide (p = q ∧ j ∈ l ∧ sel j = true) then Some DROPPED else out_get out q j.
Proof.
  revert out. induction l as [|i l IH]; intros out Hnd Hfresh; simpl.
  - exists out. split; [done|]. intros q j. by rewrite decide_False by set_solver.
  - apply NoDup_cons in Hnd as [Hi Hnd]. destruct (sel i) eqn:Hsel.
    + destruct (output_state_fresh out p i DROPPED) as (out1 & -> & Hout1); [apply Hfresh; left|].
      destruct (IH out1 Hnd) as (out' & Hrun & Hout').
      * intros j Hj. rewrite Hout1, decide_False by set_solver. apply Hfresh. by right.
      * exists out'. split; [done|]. intros q j. rewrite Hout', Hout1.
        repeat case_decide; set_solver.
    + destruct (IH out Hnd) as (out' & Hrun & Hout'); [intros; apply Hfresh; by right|].
      exists out'. split; [done|]. intros q j. rewrite Hout'.
      destruct (decide (p = q ∧ j ∈ l ∧ sel j = true)).
      * by rewrite decide_True by set_solver.
      * rewrite decide_False; [done|]. intros (? & [->|?]%elem_of_cons & ?); [congruence|naive_solver].
Qed.

Definition placed (live : gset InstanceId) (preference_list : list InstanceId) : gset InstanceId :=
  list_to_set (active_instances live preference_list).

Lemma elem_of_active live pref i : i ∈ active_instances live pref ↔ i ∈ pref ∧ i ∈ live.
Proof.
  unfold active_instances. rewrite list_elem_of_In, filter_In, <-list_elem_of_In.
  by rewrite bool_decide_eq_true.
Qed.

Lemma elem_of_placed live pref i : i ∈ placed live pref ↔ i ∈ pref ∧ i ∈ live.
Proof. unfold placed. by rewrite elem_of_list_to_set, elem_of_active. Qed.

Lemma size_placed live pref : size (placed live pref) ≤ length pref.
Proof.
  unfold placed. etrans; [|apply (List.filter_length_le (λ i, bool_decide (i ∈ live)))].
  fold (active_instances live pref). generalize (active_instances live pref) as l.
  induction l as [|i l IH]; [by rewrite list_to_set_nil, size_empty|].
  rewrite list_to_set_cons, size_union_alt, size_singleton. simpl. apply le_n_S.
  etrans; [|exact IH]. apply subseteq_size. set_solver.
Qed.

(** The requested number of replicas of each state. *)
Definition requests (sm : StateModelDefinition) (live : gset InstanceId) (pref : list InstanceId)
    (s : State) : N :=
  state_count (cardinality_for sm s) (len (active_instances live pref)) (len pref).

(** The contract of one placed partition. *)
Record partition_spec (sm : StateModelDefinition) (live : gset InstanceId)
    (current : option (gmap InstanceId State)) (pref : list InstanceId)
    (f : InstanceId → option State) : Prop := {
  ps_unplaced : ∀ i, i ∉ pref →
    f i = if bool_decide (is_Some (current ≫= λ m, m !! i)) then Some DROPPED else None;
  ps_dead : ∀ i, i ∈ pref → i ∉ live → f i = None;
  ps_known : ∀ i s, i ∈ placed live pref → f i = Some s → s ∈ states_by_priority sm;
  ps_count : ∀ k s, states_by_priority sm !! k = Some s →
    fill (requests sm live pref <$> states_by_priority sm) (N.of_nat (size (placed live pref))) !! k
    = Some (N.of_nat (size (filter (λ i, f i = Some s) (placed live pref))));
  ps_top : ∀ i, requests sm live pref (highest_priority_state sm) = 1%N →
    top_choice sm current (active_instances live pref) = Some i →
    f i = Some (highest_priority_state sm)
}.

Lemma drop_unplaced_spec p pref current out :
  (∀ i, out_get out p i = None) →
  ∃ out', drop_unplaced p pref current out = Ok out' ∧
    (∀ i, out_get out' p i =
       if bool_decide (i ∉ pref ∧ is_Some (current ≫= λ m, m !! i)) then Some DROPPED else None) ∧
    (∀ q i, q ≠ p → out_get out' q i = out_get out q i).
Proof.
  intros Hfresh. unfold drop_unplaced. destruct current as [cur|]; simpl.
  - destruct (drop_loop (λ i, negb (bool_decide (i ∈ pref))) p (map_keys cur) out)
      as (out' & Hrun & Hout'); [apply NoDup_map_keys|auto|].
    exists out'. split_and!; [done| |].
    + intros i. rewrite Hout', Hfresh.
      assert ((p = p ∧ i ∈ map_keys cur ∧ negb (bool_decide (i ∈ pref)) = true) ↔
              i ∉ pref ∧ is_Some (cur !! i)) as Hiff.
      { rewrite elem_of_map_keys, negb_true_iff, bool_decide_eq_false. naive_solver. }
      destruct (decide (p = p ∧ _)) as [Hd|Hd]; rewrite Hiff in Hd.
      * by rewrite bool_decide_true.
      * by rewrite bool_decide_false.
    + intros q i Hq. by rewrite Hout', decide_False by naive_solver.
  - exists out. split_and!; [done| |done]. intros i. rewrite Hfresh.
    rewrite bool_decide_false; [done|]. intros [_ [? ?]]. done.
Qed.

Lemma rebalance_partition_spec cs live sm out p pref :
  states_by_priority sm ≠ [] → NoDup (states_by_priority sm) →
  (∀ i, out_get out p i = None) →
  ∃ out', rebalance_partition cs live sm out (p, pref) = Ok out' ∧
    partition_spec sm live (CurrentState_entries cs !! p) pref (out_get out' p) ∧
    ∀ q i, q ≠ p → out_get out' q i = out_get out q i.
Proof.
  intros Hne Hnd Hfresh. unfold rebalance_partition.
  set (current := CurrentState_entries cs !! p).
  destruct (drop_unplaced_spec p pref current out Hfresh) as (out1 & -> & Hdrop & Hother).
  set (st := MkAssignment _ _ ∅ out1).
  assert (assign_inv p (placed live pref) st) as Hinv.
  { split; simpl.
    - intros i. unfold placed. by rewrite elem_of_list_to_set.
    - intros i. unfold sort_by_key. rewrite elem_of_stable_sort. unfold placed.
      by rewrite elem_of_list_to_set.
    - set_solver.
    - intros i. unfold placed. rewrite elem_of_list_to_set. auto.
    - intros i [Hi _]%elem_of_placed _. rewrite Hdrop, bool_decide_false by naive_solver. done. }
  destruct (assign_states_loop sm p current (len (active_instances live pref))
    (placed live pref) (len pref) (states_by_priority sm) st Hnd Hinv) as (st' & Hrun & Hst').
  unfold assign_states at 1. rewrite Hrun. exists (output st'). destruct Hst' as [_ Hsame Hknown Hcount].
  simpl in *. rewrite difference_empty_L in *.
  split_and!; [done| |].
  - split.
    + intros i Hi. rewrite Hsame, Hdrop by (rewrite elem_of_placed; naive_solver).
      repeat case_bool_decide; naive_solver.
    + intros i Hi Hl. rewrite Hsame, Hdrop by (rewrite elem_of_placed; naive_solver).
      by rewrite bool_decide_false by naive_solver.
    + intros i s. apply Hknown.
    + done.
    + intros i Hreq Hi. destruct (states_by_priority sm) as [|top tail] eqn:Hss; [done|].
      unfold highest_priority_state in *. rewrite Hss in *.
      eapply (assign_states_top sm p current); try done; [by rewrite Hss|].
      unfold assign_states. by rewrite Hss.
  - intros q i Hq. rewrite Hsame by auto. auto.
Qed.

(** ** All partitions *)

Section compute.
Context (ideal : IdealState) (cs : CurrentState) (live : gset InstanceId).
Context (sm : StateModelDefinition) `{!StateModelValid sm}.

Lemma rebalance_loop :
  ∃ out, try_fold (rebalance_partition cs live sm) BestPossibleState_builder
           (entries (preference_lists ideal)) = Ok out ∧
    (∀ p pref, preference_lists ideal !! p = Some pref →
       partition_spec sm live (CurrentState_entries cs !! p) pref (out_get out p)) ∧
    (∀ p i, preference_lists ideal !! p = None → out_get out p i = None).
Proof.
  destruct (try_fold_total (rebalance_partition cs live sm)
    (λ r out, NoDup r.*1 ∧
      (∀ e, e ∈ r → preference_lists ideal !! e.1 = Some e.2) ∧
      (∀ p i, p ∈ r.*1 ∨ preference_lists ideal !! p = None → out_get out p i = None) ∧
      (∀ p pref, preference_lists ideal !! p = Some pref → p ∉ r.*1 →
         partition_spec sm live (CurrentState_entries cs !! p) pref (out_get out p)))
    (entries (preference_lists ideal)) BestPossibleState_builder)
    as (out & Hrun & _ & _ & Hnone & Hspec).
  - split_and!.
    + apply NoDup_map_keys.
    + intros [p pref]. by rewrite elem_of_entries.
    + intros p i _. unfold out_get, rget. simpl. by rewrite lookup_empty.
    + intros p pref Hp Hn. destruct Hn. change (p ∈ map_keys (preference_lists ideal)).
      apply elem_of_map_keys. eauto.
  - intros [p pref] r out (Hnd & Hin & Hnone & Hspec). simpl in Hnd.
    apply NoDup_cons in Hnd as [Hp Hnd].
    destruct (rebalance_partition_spec cs live sm out p pref)
      as (out' & Hrun & Hps & Hother);
      [apply valid_nonempty|apply valid_states|intros i; apply Hnone; left; left|].
    exists out'. split; [done|]. split_and!; [done|intros; apply Hin; by right| |].
    + intros q i Hq. rewrite Hother.
      * apply Hnone. destruct Hq; [left; by right|by right].
      * intros ->. destruct Hq as [?|Hq]; [done|]. specialize (Hin (p, pref)).
        simpl in Hin. rewrite Hin in Hq by left. done.
    + intros q prefq Hq Hnq. destruct (decide (q = p)) as [->|Hne].
      * assert (prefq = pref) as ->; [|done]. specialize (Hin (p, pref)). simpl in Hin.
        rewrite Hin in Hq by left. by simplify_eq.
      * destruct (Hspec q prefq Hq) as [H1 H2 H3 H4 H5];
          [intros [->|?]%elem_of_cons; done|].
        split; [intros i Hi; rewrite Hother by done; auto..| | |].
        -- intros i s. rewrite Hother by done. apply H3.
        -- intros k s Hk. rewrite (H4 k s Hk). do 3 f_equal. apply set_eq. intros i.
           rewrite !elem_of_filter. by rewrite Hother.
        -- intros i. rewrite Hother by done. apply H5.
  - exists out. split_and!; [done| |].
    + intros p pref Hp. apply Hspec; [done|]. apply not_elem_of_nil.
    + intros p i Hp. apply Hnone. by right.
Qed.

End compute.

Section drain.
Context (ideal : IdealState) (cs : CurrentState).

(** Replicas of partitions without a preference list are drained. *)
Lemma drain_loop out :
  (∀ p i, preference_lists ideal !! p = None → out_get out p i = None) →
  ∃ out', try_fold (drain_partition ideal) out (entries (CurrentState_entries cs)) = Ok out' ∧
    (∀ p i, is_Some (preference_lists ideal !! p) → out_get out' p i = out_get out p i) ∧
    (∀ p i, preference_lists ideal !! p = None →
       out_get out' p i = if bool_decide (is_Some (rget (CurrentState_entries cs) p i))
                          then Some DROPPED else None).
Proof.
  intros Hfresh.
  destruct (try_fold_total (drain_partition ideal)
    (λ r out', NoDup r.*1 ∧
      (∀ e, e ∈ r → CurrentState_entries cs !! e.1 = Some e.2) ∧
      (∀ p i, is_Some (preference_lists ideal !! p) → out_get out' p i = out_get out p i) ∧
      (∀ p i, preference_lists ideal !! p = None → out_get out' p i =
         if bool_decide (p ∉ r.*1 ∧ is_Some (rget (CurrentState_entries cs) p i))
         then Some DROPPED else None))
    (entries (CurrentState_entries cs)) out) as (out' & Hrun & _ & _ & Hkeep & Hdrain).
  - split_and!; [apply NoDup_map_keys|by intros [p m]; rewrite elem_of_entries|done|].
    intros p i Hp. rewrite Hfresh by done. rewrite bool_decide_false; [done|].
    intros [Hn [s Hs]]. apply Hn. change (p ∈ map_keys (CurrentState_entries cs)).
    apply elem_of_map_keys. by eapply rget_partition.
  - intros [p cur] r out1 (Hnd & Hin & Hkeep & Hdrain). simpl in Hnd.
    apply NoDup_cons in Hnd as [Hp Hnd]. unfold drain_partition, preference_list.
    assert (CurrentState_entries cs !! p = Some cur) as Hcur by (apply (Hin (p, cur)); left).
    destruct (preference_lists ideal !! p) as [pref|] eqn:Hpref.
    + exists out1. split; [done|]. split_and!; [done|intros; apply Hin; by right|done|].
      intros q i Hq. rewrite Hdrain by done. simpl. apply bool_decide_if_iff.
      rewrite not_elem_of_cons. assert (q ≠ p) by congruence. naive_solver.
    + destruct (drop_loop (λ _, true) p (map_keys cur) out1) as (out' & Hrun & Hout');
        [apply NoDup_map_keys| |].
      * intros i _. rewrite Hdrain by done. rewrite bool_decide_false; [done|]. simpl. set_solver.
      * exists out'. split; [done|]. split_and!; [done|intros; apply Hin; by right| |].
        -- intros q i Hq. rewrite Hout', decide_False; [by apply Hkeep|].
           intros [-> _]. rewrite Hpref in Hq. by destruct Hq.
        -- intros q i Hq. rewrite Hout', Hdrain by done. simpl.
           assert (p = q → is_Some (rget (CurrentState_entries cs) q i) ↔ i ∈ map_keys cur) as Hk.
           { intros <-. unfold rget. rewrite Hcur. simpl. by rewrite elem_of_map_keys. }
           destruct (decide (p = q)) as [<-|Hne]; [destruct (decide (i ∈ map_keys cur)) as [Hi|Hi]|].
           ++ rewrite decide_True by done. rewrite bool_decide_true; [done|].
              split; [done|by apply Hk].
           ++ rewrite decide_False by (intros (_ & ? & _); done).
              rewrite !bool_decide_false; [done|..]; intros [_ Hs]; by apply Hi, Hk.
           ++ rewrite decide_False by (intros [? _]; done). apply bool_decide_if_iff.
              rewrite not_elem_of_cons. naive_solver.
  - exists out'. split_and!; [done|done|]. intros p i Hp. rewrite Hdrain by done.
    apply bool_decide_if_iff. rewrite (elem_of_nil p : p ∈ [] ↔ False). tauto.
Qed.
End drain.

(** ** The contract *)

Section contract.
Context (ideal : IdealState) (cs : CurrentState) (live : gset InstanceId).
Context (sm : StateModelDefinition) `{!StateModelValid sm}.

Lemma compute_spec :
  ∃ best, compute_semi_auto_best_possible_state ideal cs live sm = Ok best ∧
    (∀ p pref, preference_list ideal p = Some pref →
       partition_spec sm live (CurrentState_entries cs !! p) pref (BestPossibleState_state best p)) ∧
    (∀ p i, preference_list ideal p = None →
       BestPossibleState_state best p i =
       if bool_decide (is_Some (CurrentState_state cs p i)) then Some DROPPED else None).
Proof.
  unfold compute_semi_auto_best_possible_state.
  destruct (rebalance_loop ideal cs live sm) as (out & -> & Hspec & Hnone).
  destruct (drain_loop ideal cs out Hnone) as (out' & -> & Hkeep & Hdrain).
  eexists. split; [done|]. split; [|exact Hdrain].
  intros p pref Hp. destruct (Hspec p pref Hp) as [H1 H2 H3 H4 H5].
  assert (∀ i, BestPossibleState_state (BestPossibleStateBuilder_build out') p i = out_get out p i)
    as Hsame.
  { intros i. rewrite <-Hkeep by (unfold preference_list in Hp; eauto). done. }
  split; intros; rewrite ?Hsame in *; auto; [by eapply H3|].
  rewrite (H4 k s) by done. do 3 f_equal. apply set_eq. intros i. rewrite !elem_of_filter.
  by rewrite Hsame.
Qed.
End contract.

(** In the built-in model: one leader, every other candidate a standby. *)
Lemma fill_leader_standby c r n :
  (n ≤ r)%N → fill [1; r; c; c]%N n !! 0 = Some (N.min 1 n) ∧
              fill [1; r; c; c]%N n !! 1 = Some (n - N.min 1 n)%N.
Proof. intros Hn. simpl. split; [done|]. f_equal. lia. Qed.

Lemma leader_standby_counts live current pref f :
  partition_spec leader_standby live current pref f →
  N.of_nat (size (filter (λ i, f i = Some LEADER) (placed live pref))) =
    N.min 1 (N.of_nat (size (placed live pref))) ∧
  N.of_nat (size (filter (λ i, f i = Some STANDBY) (placed live pref))) =
    (N.of_nat (size (placed live pref)) - N.min 1 (N.of_nat (size (placed live pref))))%N.
Proof.
  intros Hps. pose proof (ps_count _ _ _ _ _ Hps) as Hcount.
  assert (requests leader_standby live pref <$> states_by_priority leader_standby =
          [1; len pref; 0; 0]%N) as Hreq.
  { rewrite leader_standby_states. unfold requests. simpl.
    by rewrite leader_standby_leader, leader_standby_standby, leader_standby_offline,
      leader_standby_dropped. }
  rewrite Hreq, leader_standby_states in Hcount.
  pose proof (Hcount 0 LEADER eq_refl) as H0. pose proof (Hcount 1 STANDBY eq_refl) as H1.
  destruct (fill_leader_standby 0 (len pref) (N.of_nat (size (placed live pref)))) as [F0 F1].
  { pose proof (size_placed live pref). unfold len. lia. }
  rewrite F0 in H0. rewrite F1 in H1. injection H0 as H0. injection H1 as H1.
  split; symmetry; assumption.
Qed.

Lemma leader_standby_partition live current pref f :
  partition_spec leader_standby live current pref f →
  (∀ i, f i = Some LEADER → i ∈ placed live pref) ∧
  (placed live pref ≠ ∅ →
   ∃ i, i ∈ placed live pref ∧ f i = Some LEADER ∧
        ∀ j, j ∈ placed live pref → j ≠ i → f j = Some STANDBY).
Proof.
  intros Hps. destruct (leader_standby_counts _ _ _ _ Hps) as [Hl Hs]. split.
  - intros i Hi. rewrite elem_of_placed. destruct (decide (i ∈ pref)) as [Hp|Hp].
    + split; [done|]. destruct (decide (i ∈ live)) as [|Hn]; [done|].
      rewrite (ps_dead _ _ _ _ _ Hps) in Hi by done. done.
    + rewrite (ps_unplaced _ _ _ _ _ Hps) in Hi by done. by case_bool_decide.
  - set (A := placed live pref) in *. intros HA.
    assert (size A ≠ 0) as Hne by (intros Hz; apply HA; by apply leibniz_equiv, size_empty_iff).
    set (B := filter (λ i, f i = Some LEADER) A) in *.
    assert (size B = 1) as HB by lia.
    apply size_1_elem_of in HB as [i HBi]. apply leibniz_equiv in HBi.
    assert (i ∈ B) as [Hi HiA]%elem_of_filter by (rewrite HBi; set_solver).
    exists i. split_and!; [done..|]. intros j HjA Hji.
    assert (filter (λ i, f i = Some STANDBY) A = A ∖ B) as Heq.
    { apply set_subseteq_size_eq.
      - intros k [Hk HkA]%elem_of_filter. rewrite elem_of_difference. split; [done|].
        intros [Hk' _]%elem_of_filter. rewrite Hk in Hk'. done.
      - rewrite size_difference; [lia|]. unfold B. set_solver. }
    assert (j ∈ A ∖ B) as Hj by (rewrite HBi; set_solver).
    rewrite <-Heq in Hj. by apply elem_of_filter in Hj as [? _].
Qed.

(** ** Who leads *)

Lemma leader_standby_second_top s :
  is_second_top_state s leader_standby = bool_decide (s = STANDBY).
Proof.
  unfold is_second_top_state, highest_priority_state. rewrite leader_standby_states. simpl.
  assert (next_state_toward leader_standby LEADER LEADER = None) as -> by (vm_compute; reflexivity).
  assert (next_state_toward leader_standby STANDBY LEADER = Some LEADER) as ->
    by (vm_compute; reflexivity).
  assert (next_state_toward leader_standby OFFLINE LEADER = Some STANDBY) as ->
    by (vm_compute; reflexivity).
  assert (next_state_toward leader_standby DROPPED LEADER = None) as -> by (vm_compute; reflexivity).
  simpl. rewrite orb_false_r. by apply bool_decide_ext.
Qed.

(** A candidate currently in the top state sorts before every other one. *)
Lemma current_priority_top sm current i :
  states_by_priority sm ≠ [] →
  current_state_priority current i sm = 0%N ↔
  (current ≫= λ m, m !! i) = Some (highest_priority_state sm).
Proof.
  intros Hne. unfold current_state_priority, highest_priority_state.
  destruct (states_by_priority sm) as [|top tail]; [done|].
  destruct current as [m|]; simpl; [|split; done].
  destruct (m !! i) as [s|]; simpl; [|split; done].
  case_bool_decide as Hs.
  - simpl. split; [|done]. by intros _; subst.
  - split; [|intros [= ->]; done].
    destruct (position _ tail); simpl; [lia|done].
Qed.

Lemma top_choice_priority sm current active i first :
  head active = Some first → top_choice sm current active = Some i →
  (1 < len active)%N → needs_adjustment sm current first (highest_priority_state sm) = true →
  i ∈ active ∧
  ∀ j, j ∈ active → (current_state_priority current i sm ≤ current_state_priority current j sm)%N.
Proof.
  intros Hf Hi Hlen Hneed. destruct active as [|first' rest]; [done|]. injection Hf as ->.
  unfold top_choice in Hi. rewrite Hneed, (proj2 (N.ltb_lt _ _) Hlen) in Hi. cbn [andb] in Hi.
  set (l := sort_by_key _ _) in Hi.
  assert (∀ j, j ∈ l ↔ j ∈ first :: rest) as Hl by (intros j; apply elem_of_stable_sort).
  assert (StronglySorted (λ a b, key_leb (current_state_priority current a sm)
            (current_state_priority current b sm) = true) l) as Hs.
  { apply stable_sort_sorted; intros *; [apply key_leb_total|apply key_leb_trans]. }
  destruct l as [|c l]; [exfalso; apply (elem_of_nil first), Hl; left|].
  simpl in Hi. injection Hi as <-. apply StronglySorted_inv in Hs as [_ Hs].
  rewrite Forall_forall in Hs. split; [apply Hl; left|]. intros j Hj%Hl.
  apply elem_of_cons in Hj as [->|Hj]; [done|]. specialize (Hs j Hj).
  apply key_leb_spec in Hs as [->|Hlt]; [done|]. by apply N.lt_le_incl, N.compare_lt_iff.
Qed.

Lemma two_elements (l : list InstanceId) x y :
  head l = Some x → y ∈ l → y ≠ x → (1 < len l)%N.
Proof.
  destruct l as [|a [|b l]]; simpl; intros; simplify_eq; [|unfold len; simpl; lia].
  by apply list_elem_of_singleton in H0.
Qed.

Lemma leader_standby_needs current i :
  needs_adjustment leader_standby current i LEADER =
  negb (bool_decide (default OFFLINE (current ≫= λ m, m !! i) ∈ [LEADER; STANDBY])).
Proof.
  unfold needs_adjustment. rewrite leader_standby_initial, leader_standby_second_top.
  rewrite <-negb_orb. f_equal. rewrite <-bool_decide_or. apply bool_decide_ext.
  rewrite !elem_of_cons, elem_of_nil. tauto.
Qed.

Lemma top_choice_elem sm current active i : top_choice sm current active = Some i → i ∈ active.
Proof.
  destruct active as [|first rest]; [done|]. unfold top_choice. case_match; [|intros [= <-]; left].
  set (l := sort_by_key _ _). assert (∀ j, j ∈ l → j ∈ first :: rest) as Hl
    by (intros j; apply elem_of_stable_sort).
  destruct l as [|c l]; simpl; intros [= <-]; [left|apply Hl; left].
Qed.

Lemma leader_is_top_choice live current pref f i :
  partition_spec leader_standby live current pref f →
  top_choice leader_standby current (active_instances live pref) = Some i →
  ∀ j, f j = Some LEADER ↔ j = i.
Proof.
  intros Hps Hi.
  assert (f i = Some LEADER) as Hfi.
  { pose proof (ps_top _ _ _ _ _ Hps i) as Ht. unfold highest_priority_state in Ht.
    rewrite leader_standby_states in Ht. apply Ht; [|done].
    unfold requests. by rewrite leader_standby_leader. }
  destruct (leader_standby_partition _ _ _ _ Hps) as [Hin Hone].
  destruct Hone as (k & _ & Hk & Hrest).
  { intros He. apply Hin in Hfi. rewrite He in Hfi. set_solver. }
  intros j. split; [|by intros ->]. intros Hj.
  assert (∀ x, f x = Some LEADER → x = k) as Huniq.
  { intros x Hx. destruct (decide (x = k)) as [|Hne]; [done|].
    rewrite (Hrest x) in Hx by (try apply Hin; done). done. }
  by rewrite (Huniq j Hj), (Huniq i Hfi).
Qed.

(** ** Properties *)

(** C12: Rebalancing always succeeds and meets its contract for every placement,
    current state, live set and valid state model: in each placed partition the
    live preferred instances receive exactly the greedy distribution of the
    state cardinalities in priority order, dead ones get nothing, current
    replicas outside the list are dropped, and every replica of a partition no
    longer placed is dropped. *)
Theorem semi_auto_contract ideal cs live sm :
  StateModelValid sm →
  ∃ best, compute_semi_auto_best_possible_state ideal cs live sm = Ok best ∧
    (∀ p pref, preference_list ideal p = Some pref →
       partition_spec sm live (CurrentState_entries cs !! p) pref (BestPossibleState_state best p)) ∧
    (∀ p i, preference_list ideal p = None →
       BestPossibleState_state best p i =
       if bool_decide (is_Some (CurrentState_state cs p i)) then Some DROPPED else None).
Proof. intros Hsm. exact (compute_spec ideal cs live sm). Qed.

Definition node (n : string) : InstanceId := MkInstanceId n.
Definition p0 : PartitionId := MkPartitionId "p0".

Definition ex_ideal : IdealState :=
  MkIdealState (MkResourceId "documents") 3
    {[p0 := [node "node-a"; node "node-b"; node "node-c"]]}.

(** [node-b] leads, [node-a] is offline, [node-d] is no longer placed. *)
Definition ex_current : CurrentState :=
  MkCurrentState (MkReplicaStates
    {[p0 := {[node "node-a" := OFFLINE; node "node-b" := LEADER; node "node-d" := STANDBY]}]}).

Definition ex_live : gset InstanceId := {[node "node-a"; node "node-b"; node "node-c"]}.

Definition ex_best : BestPossibleState :=
  match compute_semi_auto_best_possible_state ex_ideal ex_current ex_live leader_standby with
  | Ok best => best
  | Err _ => BestPossibleState_default
  end.

Lemma ex_best_ok :
  compute_semi_auto_best_possible_state ex_ideal ex_current ex_live leader_standby = Ok ex_best.
Proof. vm_compute. reflexivity. Qed.

Lemma semi_auto_contract_witness :
  (∃ best, compute_semi_auto_best_possible_state ex_ideal ex_current ex_live leader_standby = Ok best ∧
    (∀ p pref, preference_list ex_ideal p = Some pref →
       partition_spec leader_standby ex_live (CurrentState_entries ex_current !! p) pref
         (BestPossibleState_state best p)) ∧
    (∀ p i, preference_list ex_ideal p = None →
       BestPossibleState_state best p i =
       if bool_decide (is_Some (CurrentState_state ex_current p i)) then Some DROPPED else None)) ∧
  BestPossibleState_state ex_best p0 <$> [node "node-a"; node "node-b"; node "node-c"; node "node-d"]
  = [Some STANDBY; Some LEADER; Some STANDBY; Some DROPPED].
Proof.
  split; [|vm_compute; reflexivity].
  apply (semi_auto_contract ex_ideal ex_current ex_live leader_standby leader_standby_valid).
Defined.

(** C13: With the built-in LeaderStandby model a partition with a live preferred
    instance gets exactly one LEADER, which is live and preferred, and every
    other live preferred instance is a STANDBY; with none, nobody leads. *)
Theorem semi_auto_one_leader ideal cs live best p pref :
  compute_semi_auto_best_possible_state ideal cs live leader_standby = Ok best →
  preference_list ideal p = Some pref →
  (∀ i, BestPossibleState_state best p i = Some LEADER → i ∈ placed live pref) ∧
  (placed live pref ≠ ∅ →
   ∃ i, i ∈ placed live pref ∧ BestPossibleState_state best p i = Some LEADER ∧
        ∀ j, j ∈ placed live pref → j ≠ i → BestPossibleState_state best p j = Some STANDBY).
Proof.
  intros Hrun Hp. destruct (compute_spec ideal cs live leader_standby) as (best' & Hb & Hspec & _).
  rewrite Hrun in Hb. injection Hb as <-. by eapply leader_standby_partition, Hspec.
Qed.

Lemma semi_auto_one_leader_witness :
  ∃ i, i ∈ placed ex_live [node "node-a"; node "node-b"; node "node-c"] ∧
       BestPossibleState_state ex_best p0 i = Some LEADER.
Proof.
  destruct (semi_auto_one_leader ex_ideal ex_current ex_live ex_best p0
    [node "node-a"; node "node-b"; node "node-c"] ex_best_ok) as [_ H].
  - vm_compute. reflexivity.
  - destruct H as (i & Hi & Hl & _); [|exists i; split; assumption].
    intros He. assert (node "node-a" ∈ placed ex_live [node "node-a"; node "node-b"; node "node-c"])
      as Hin by (apply (bool_decide_unpack _); vm_compute; exact I).
    rewrite He in Hin. set_solver.
Defined.

(** Leadership is stable: if the most preferred live instance is neither
    leader nor standby today while some live preferred instance leads, then the
    instance chosen to lead is one that leads today. *)
Theorem semi_auto_keeps_leader ideal cs live best p pref first i j :
  compute_semi_auto_best_possible_state ideal cs live leader_standby = Ok best →
  preference_list ideal p = Some pref →
  head (active_instances live pref) = Some first →
  default OFFLINE (CurrentState_state cs p first) ∉ [LEADER; STANDBY] →
  j ∈ active_instances live pref → CurrentState_state cs p j = Some LEADER →
  BestPossibleState_state best p i = Some LEADER →
  CurrentState_state cs p i = Some LEADER.
Proof.
  intros Hrun Hp Hfirst Hneed Hj Hlead Hi.
  destruct (compute_spec ideal cs live leader_standby) as (best' & Hb & Hspec & _).
  rewrite Hrun in Hb. injection Hb as <-. specialize (Hspec p pref Hp).
  change (CurrentState_state cs p) with
    (λ i, CurrentState_entries cs !! p ≫= λ m : gmap InstanceId State, m !! i) in *. simpl in *.
  set (current := CurrentState_entries cs !! p) in *.
  destruct (top_choice leader_standby current (active_instances live pref)) as [k|] eqn:Hk;
    [|by destruct (active_instances live pref)].
  apply (leader_is_top_choice _ _ _ _ k Hspec Hk) in Hi as ->.
  assert (highest_priority_state leader_standby = LEADER) as Htop
    by (unfold highest_priority_state; by rewrite leader_standby_states).
  assert (j ≠ first) as Hne.
  { intros ->. rewrite Hlead in Hneed. simpl in Hneed. destruct Hneed. left. }
  destruct (top_choice_priority leader_standby current (active_instances live pref) k first)
    as [_ Hmin]; [done|done| | |].
  - by eapply two_elements.
  - rewrite Htop, leader_standby_needs. by rewrite bool_decide_false.
  - rewrite <-Htop. apply current_priority_top; [apply valid_nonempty|].
    rewrite <-Htop in Hlead. apply current_priority_top in Hlead; [|apply valid_nonempty].
    specialize (Hmin j Hj). rewrite Hlead in Hmin. lia.
Qed.

Lemma semi_auto_keeps_leader_witness :
  BestPossibleState_state ex_best p0 (node "node-b") = Some LEADER ∧
  CurrentState_state ex_current p0 (node "node-b") = Some LEADER.
Proof.
  assert (BestPossibleState_state ex_best p0 (node "node-b") = Some LEADER) as Hl
    by (vm_compute; reflexivity).
  split; [exact Hl|].
  apply (semi_auto_keeps_leader ex_ideal ex_current ex_live ex_best p0
    [node "node-a"; node "node-b"; node "node-c"] (node "node-a") (node "node-b") (node "node-b")
    ex_best_ok); try (vm_compute; reflexivity).
  - apply (bool_decide_unpack _). vm_compute. exact I.
  - apply (bool_decide_unpack _). vm_compute. exact I.
Defined.
