(* ===== verification/Transitions.v ===== *)
(** * Transition requests, pending transitions and messages

    Models [src/transition/request.rs], [src/transition/pending.rs] and
    [src/transition/message.rs]: what the planning stages exchange, and the wire
    form of a message. *)

From S2P Require Import Prelude Identity.

Record TransitionRequest := MkTransitionRequest {
  tr_resource : ResourceId;
  tr_partition : PartitionId;
  tr_instance : InstanceId;
  source_state : State;
  target_state : State
}.

Record PendingTransition := MkPendingTransition {
  pt_partition : PartitionId;
  pt_instance : InstanceId;
  pt_source_state : State;
  pt_target_state : State
}.

Record TransitionMessage := MkTransitionMessage {
  message_id : string;
  tm_resource : string;
  tm_partition : string;
  tm_instance : string;
  target_session : N;
  tm_from : string;
  tm_to : string;
  message_type : string
}.

#[export] Instance TransitionRequest_eq_dec : EqDecision TransitionRequest.
Proof. solve_decision. Defined.
#[export] Instance PendingTransition_eq_dec : EqDecision PendingTransition.
Proof. solve_decision. Defined.
#[export] Instance TransitionMessage_eq_dec : EqDecision TransitionMessage.
Proof. solve_decision. Defined.

(** The replica a request is for. *)
Definition tr_replica (t : TransitionRequest) : ResourceId * PartitionId * InstanceId :=
  (tr_resource t, tr_partition t, tr_instance t).
