(* ===== verification/MessageGeneration.v ===== *)
(** * Transition generation

    Models [src/controller/message_generation.rs]: one next transition for every
    replica that is not yet in its desired state. *)

From S2P Require Import Prelude Identity StateMaps StateModel Transitions.

Inductive TransitionGenerationError :=
| MissingCurrentState (partition : PartitionId) (instance : InstanceId)
| MissingTargetState (partition : PartitionId) (instance : InstanceId).

Definition display_transition_generation_error (e : TransitionGenerationError) : string :=
  match e with
  | MissingCurrentState p i =>
      "missing current state for partition " +:+ partition_str p +:+
      " and instance " +:+ instance_str i
  | MissingTargetState p i =>
      "missing target state for partition " +:+ partition_str p +:+
      " and instance " +:+ instance_str i
  end.

Definition validate_explicit_replica_set (current : CurrentState) (target : BestPossibleState)
  : result unit (stop TransitionGenerationError) :=
  let? u := try_fold (λ u '(partition, instances),
              try_fold (λ u instance,
                match CurrentState_state current partition instance with
                | None => Err (Raise (MissingCurrentState partition instance))
                | Some _ => Ok u
                end) u (map_keys instances))
            tt (entries (BestPossibleState_entries target)) in
  try_fold (λ u '(partition, instances),
    try_fold (λ u instance,
      match BestPossibleState_state target partition instance with
      | None => Err (Raise (MissingTargetState partition instance))
      | Some _ => Ok u
      end) u (map_keys instances))
  tt (entries (CurrentState_entries current)).

(** Body of the loop over the desired replicas. *)
Definition generate_step (resource : ResourceId) (current : CurrentState)
    (state_model : StateModelDefinition) (partition : PartitionId)
    (requests : list TransitionRequest) (entry : InstanceId * State)
  : result (list TransitionRequest) (stop TransitionGenerationError) :=
  let '(instance, desired_state) := entry in
  let? current_state := expect (CurrentState_state current partition instance) in
  if bool_decide (current_state = desired_state) then Ok requests
  else match next_state_toward state_model current_state desired_state with
       | None => Ok requests
       | Some next_state =>
           Ok (requests ++
                 [MkTransitionRequest resource partition instance current_state next_state])
       end.

Definition generate_transitions (resource : ResourceId) (current : CurrentState)
    (target : BestPossibleState) (state_model : StateModelDefinition)
  : result (list TransitionRequest) (stop TransitionGenerationError) :=
  let? u := validate_explicit_replica_set current target in
  try_fold (λ requests '(partition, instances),
    try_fold (generate_step resource current state_model partition) requests (entries instances))
  [] (entries (BestPossibleState_entries target)).

(** * Lemmas *)

(** The request a replica gets, if any. *)
Definition request_for (resource : ResourceId) (current : CurrentState)
    (sm : StateModelDefinition) (r : PartitionId * InstanceId * State)
  : option TransitionRequest :=
  let '(p, i, desired) := r in
  match CurrentState_state current p i with
  | Some s =>
      if bool_decide (s = desired) then None
      else (λ h, MkTransitionRequest resource p i s h) <$> next_state_toward sm s desired
  | None => None
  end.

(** The two snapshots speak about the same replicas. *)
Definition same_replicas (current : CurrentState) (target : BestPossibleState) : Prop :=
  ∀ p i, is_Some (CurrentState_state current p i) ↔ is_Some (BestPossibleState_state target p i).

Lemma check_replicas {E} (m : replica_map) (get : PartitionId → InstanceId → option State)
    (err : PartitionId → InstanceId → E) :
  match try_fold (λ u '(partition, instances),
          try_fold (λ u instance,
            match get partition instance with
            | None => Err (err partition instance)
            | Some _ => Ok u
            end) u (map_keys instances)) tt (entries m) with
  | Ok _ => ∀ p i, is_Some (rget m p i) → is_Some (get p i)
  | Err e => ∃ p i, e = err p i ∧ is_Some (rget m p i) ∧ get p i = None
  end.
Proof.
  rewrite (try_fold_ext _ (λ u e, try_fold (λ u r, match get r.1.1 r.1.2 with
             | None => Err (err r.1.1 r.1.2) | Some _ => Ok u end) u
             ((λ '(i, s), (e.1, i, s)) <$> entries e.2))).
  2: { intros [] [p insts] _. unfold map_keys. rewrite !try_fold_fmap.
       apply try_fold_ext. by intros [] [i s] _. }
  rewrite try_fold_bind.
  rewrite replica_list_alt.
  destruct (try_fold _ _ _) as [[]|e] eqn:Hrun.
  - rewrite try_fold_check in Hrun. intros p i [s Hs].
    specialize (Hrun (p, i, s) (proj2 (elem_of_replica_list m p i s) Hs)). simpl in Hrun.
    destruct (get p i); [eauto|done].
  - apply try_fold_err in Hrun as ([] & [[p i] s] & Hin & He). simpl in He.
    exists p, i. apply elem_of_replica_list in Hin. destruct (get p i) eqn:Hg; [done|].
    injection He as <-. eauto.
Qed.

Lemma validate_spec current target :
  match validate_explicit_replica_set current target with
  | Ok _ => same_replicas current target
  | Err (Raise (MissingCurrentState p i)) =>
      is_Some (BestPossibleState_state target p i) ∧ CurrentState_state current p i = None
  | Err (Raise (MissingTargetState p i)) =>
      is_Some (CurrentState_state current p i) ∧ BestPossibleState_state target p i = None
  | Err _ => False
  end.
Proof.
  unfold validate_explicit_replica_set.
  pose proof (check_replicas (E := stop TransitionGenerationError)
    (BestPossibleState_entries target) (CurrentState_state current)
    (λ p i, Raise (MissingCurrentState p i))) as H1.
  destruct (try_fold _ _ (entries (BestPossibleState_entries target))) as [u|e];
    [|destruct H1 as (p & i & -> & ? & ?); by split].
  pose proof (check_replicas (E := stop TransitionGenerationError)
    (CurrentState_entries current) (BestPossibleState_state target)
    (λ p i, Raise (MissingTargetState p i))) as H2.
  destruct (try_fold _ _ (entries (CurrentState_entries current))) as [u'|e];
    [|destruct H2 as (p & i & -> & ? & ?); by split].
  intros p i. split; [apply H2|apply H1].
Qed.

Lemma generate_loop resource current sm l acc :
  (∀ p i d, (p, i, d) ∈ l → is_Some (CurrentState_state current p i)) →
  try_fold (λ acc '(p, i, d), generate_step resource current sm p acc (i, d)) acc l =
  Ok (acc ++ omap (request_for resource current sm) l).
Proof.
  revert acc. induction l as [|[[p i] d] l IH]; intros acc Hl; simpl; [by rewrite app_nil_r|].
  destruct (Hl p i d) as [s Hs]; [left|]. rewrite Hs. simpl.
  assert (∀ p' i' d', (p', i', d') ∈ l → is_Some (CurrentState_state current p' i')) as Hl'
    by (intros; eapply Hl; by right).
  case_bool_decide; [by rewrite IH|].
  destruct (next_state_toward sm s d); simpl; rewrite IH by done; [|done].
  by rewrite <-app_assoc.
Qed.

(** When the snapshots agree on their replicas, generation is a filter over the
    desired replicas in key order. *)
Lemma generate_eq resource current target sm :
  same_replicas current target →
  generate_transitions resource current target sm =
  Ok (omap (request_for resource current sm) (replica_list (BestPossibleState_entries target))).
Proof.
  intros Hsame. unfold generate_transitions.
  pose proof (validate_spec current target) as Hv.
  destruct (validate_explicit_replica_set current target) as [u|[[p i|p i]| |]]; [|exfalso..].
  - rewrite (try_fold_ext _ (λ acc e, try_fold (λ acc '(p, i, d),
        generate_step resource current sm p acc (i, d)) acc
        ((λ '(i, s), (e.1, i, s)) <$> entries e.2))).
    2: { intros acc [p insts] _. rewrite try_fold_fmap. apply try_fold_ext. by intros ? [] _. }
    rewrite try_fold_bind.
    rewrite replica_list_alt.
    rewrite generate_loop; [done|]. intros p i d Hin%elem_of_replica_list. apply Hsame. by exists d.
  - destruct Hv as [Hs%Hsame Hn]. rewrite Hn in Hs. by destruct Hs.
  - destruct Hv as [Hs%Hsame Hn]. rewrite Hn in Hs. by destruct Hs.
  - done.
  - done.
Qed.

Lemma request_for_Some resource current sm p i d t :
  request_for resource current sm (p, i, d) = Some t ↔
  ∃ s h, CurrentState_state current p i = Some s ∧ s ≠ d ∧ next_state_toward sm s d = Some h ∧
         t = MkTransitionRequest resource p i s h.
Proof.
  unfold request_for. destruct (CurrentState_state current p i) as [s|]; [|naive_solver].
  case_bool_decide; [naive_solver|]. rewrite fmap_Some. naive_solver.
Qed.

Lemma elem_of_generated resource current target sm t :
  t ∈ omap (request_for resource current sm) (replica_list (BestPossibleState_entries target)) ↔
  ∃ d, BestPossibleState_state target (tr_partition t) (tr_instance t) = Some d ∧
       tr_resource t = resource ∧
       CurrentState_state current (tr_partition t) (tr_instance t) = Some (source_state t) ∧
       source_state t ≠ d ∧ next_state_toward sm (source_state t) d = Some (target_state t).
Proof.
  rewrite list_elem_of_omap. split.
  - intros ([[p i] d] & Hin%elem_of_replica_list & Ht).
    apply request_for_Some in Ht as (s & h & ? & ? & ? & ->). exists d. done.
  - intros (d & Hd & Hr & Hs & Hne & Hh). exists (tr_partition t, tr_instance t, d).
    rewrite elem_of_replica_list, request_for_Some. split; [done|].
    exists (source_state t), (target_state t). split_and!; try done. destruct t. simpl in *. by subst.
Qed.

Lemma NoDup_omap_keys {A B K} (f : A → option B) (k : A → K) (g : B → K) (l : list A) :
  (∀ a b, f a = Some b → g b = k a) → NoDup (k <$> l) → NoDup (g <$> omap f l).
Proof.
  intros Hf. induction l as [|a l IH]; simpl; [constructor|]. intros [Ha Hnd]%NoDup_cons.
  destruct (f a) as [b|] eqn:Hb; simpl; [|by apply IH]. constructor; [|by apply IH].
  rewrite (Hf a b Hb). intros Hin. apply Ha.
  apply list_elem_of_fmap in Hin as (b' & Heq & Hin).
  apply list_elem_of_omap in Hin as (a' & Ha' & Hb'). rewrite (Hf a' b' Hb') in Heq.
  rewrite Heq. by apply list_elem_of_fmap_2.
Qed.

Lemma generated_one_per_replica resource current target sm :
  NoDup (tr_replica <$>
    omap (request_for resource current sm) (replica_list (BestPossibleState_entries target))).
Proof.
  apply (NoDup_omap_keys _ (λ r, (resource, r.1.1, r.1.2))).
  - intros [[p i] d] t Ht. apply request_for_Some in Ht as (s & h & _ & _ & _ & ->). done.
  - rewrite (list_fmap_ext _ ((λ q : PartitionId * InstanceId, (resource, q.1, q.2)) ∘ fst)) by done.
    rewrite list_fmap_compose. apply NoDup_fmap; [|apply NoDup_replica_list].
    by intros [] [] [= -> ->].
Qed.

(** ** Rounds of generation and execution *)

(** Every participant performs the transition it is asked for. *)
Definition apply_requests (current : CurrentState) (requests : list TransitionRequest)
  : CurrentState :=
  foldl (λ cs t, current_of (rput (CurrentState_entries cs) (tr_partition t) (tr_instance t)
                               (target_state t))) current requests.

Fixpoint rounds (resource : ResourceId) (target : BestPossibleState) (sm : StateModelDefinition)
    (n : nat) (current : CurrentState) : CurrentState :=
  match n with
  | 0 => current
  | S n =>
      match generate_transitions resource current target sm with
      | Ok requests => rounds resource target sm n (apply_requests current requests)
      | Err _ => current
      end
  end.

Lemma apply_requests_state current l p i :
  NoDup ((λ t, (tr_partition t, tr_instance t)) <$> l) →
  CurrentState_state (apply_requests current l) p i =
  match find_first (λ t, bool_decide ((tr_partition t, tr_instance t) = (p, i))) l with
  | Some t => Some (target_state t)
  | None => CurrentState_state current p i
  end.
Proof.
  unfold apply_requests. revert current. induction l as [|t l IH]; intros current Hnd; [done|].
  simpl in Hnd. apply NoDup_cons in Hnd as [Ht Hnd]. cbn [foldl]. rewrite IH by done.
  unfold find_first in *. cbn [List.find]. case_bool_decide as Heq.
  - destruct (List.find _ l) as [t'|] eqn:Hf.
    + apply find_first_Some in Hf as [Hin Hb]. reflect_bools. destruct Ht. rewrite Heq, <-Hb.
      by apply list_elem_of_fmap_2 with (f := λ t, (tr_partition t, tr_instance t)).
    + injection Heq as -> ->. apply rget_rput_eq.
  - destruct (List.find _ l); [done|]. by apply rget_rput_ne.
Qed.

Lemma generated_lookup resource current target sm p i s d :
  CurrentState_state current p i = Some s → BestPossibleState_state target p i = Some d →
  StateModelValid sm →
  CurrentState_state (apply_requests current
    (omap (request_for resource current sm) (replica_list (BestPossibleState_entries target)))) p i =
  Some (default s (next_state_toward sm s d)).
Proof.
  intros Hs Hd Hsm. set (l := omap _ _).
  assert (NoDup ((λ t, (tr_partition t, tr_instance t)) <$> l)) as Hnd.
  { apply (NoDup_omap_keys _ fst); [|apply NoDup_replica_list].
    intros [[q j] e] t Ht. apply request_for_Some in Ht as (? & ? & _ & _ & _ & ->). done. }
  rewrite apply_requests_state by done.
  destruct (find_first _ l) as [t|] eqn:Hf.
  - apply find_first_Some in Hf as [Hin Hb]. reflect_bools. injection Hb as <- <-.
    apply elem_of_generated in Hin as (d' & Hd' & _ & Hs' & _ & Hh). simplify_eq.
    by rewrite Hh.
  - destruct (next_state_toward sm s d) as [h|] eqn:Hh; [|by rewrite Hs].
    destruct (valid_hop _ _ _ Hh) as (Hne & _).
    assert (MkTransitionRequest resource p i s h ∈ l) as Hin
      by (apply elem_of_generated; exists d; done).
    pose proof (find_first_None _ _ Hf _ Hin) as Hb. simpl in Hb. by reflect_bools.
Qed.

Lemma round_same_replicas resource current target sm :
  StateModelValid sm → same_replicas current target →
  same_replicas (apply_requests current
    (omap (request_for resource current sm) (replica_list (BestPossibleState_entries target)))) target.
Proof.
  intros Hsm Hsame p i. split.
  - rewrite apply_requests_state.
    2: { apply (NoDup_omap_keys _ fst); [|apply NoDup_replica_list].
         intros [[q j] e] t Ht. apply request_for_Some in Ht as (? & ? & _ & _ & _ & ->). done. }
    destruct (find_first _ _) as [t|] eqn:Hf; [|apply Hsame]. intros _.
    apply find_first_Some in Hf as [Hin Hb]. reflect_bools. injection Hb as <- <-.
    apply elem_of_generated in Hin as (d & Hd & _). eauto.
  - intros [d Hd]. destruct (proj2 (Hsame p i)) as [s Hs]; [eauto|].
    rewrite (generated_lookup _ _ _ _ _ _ s d) by done. eauto.
Qed.

(** After [n] rounds a replica has followed [n] next hops. *)
Lemma rounds_state resource target sm n current p i s d :
  StateModelValid sm → same_replicas current target →
  CurrentState_state current p i = Some s → BestPossibleState_state target p i = Some d →
  CurrentState_state (rounds resource target sm n current) p i =
  Some (default s (last (walk sm n s d))).
Proof.
  intros Hsm. revert current s. induction n as [|n IH]; intros current s Hsame Hs Hd; [done|].
  cbn [rounds]. rewrite generate_eq by done.
  rewrite (IH _ (default s (next_state_toward sm s d)));
    [|by apply round_same_replicas|by apply generated_lookup|done].
  cbn [walk]. destruct (next_state_toward sm s d) as [h|] eqn:Hh; cbn [default].
  - rewrite last_cons. simpl. by destruct (last (walk sm n h d)).
  - destruct n; simpl; [done|]. by rewrite Hh.
Qed.

(** ** Properties *)

(** Generation is exact: it fails only when the two snapshots disagree on a
    replica, naming one that is missing, and otherwise returns, at most once per
    replica, exactly the next hop of every replica whose current state differs
    from the desired one and can move toward it; it never panics. *)
Theorem generate_exact resource current target sm :
  match generate_transitions resource current target sm with
  | Ok requests =>
      same_replicas current target ∧ NoDup (tr_replica <$> requests) ∧
      ∀ t, t ∈ requests ↔
        ∃ d, BestPossibleState_state target (tr_partition t) (tr_instance t) = Some d ∧
             tr_resource t = resource ∧
             CurrentState_state current (tr_partition t) (tr_instance t) = Some (source_state t) ∧
             source_state t ≠ d ∧ next_state_toward sm (source_state t) d = Some (target_state t)
  | Err (Raise (MissingCurrentState p i)) =>
      is_Some (BestPossibleState_state target p i) ∧ CurrentState_state current p i = None
  | Err (Raise (MissingTargetState p i)) =>
      is_Some (CurrentState_state current p i) ∧ BestPossibleState_state target p i = None
  | Err _ => False
  end.
Proof.
  pose proof (validate_spec current target) as Hv.
  destruct (validate_explicit_replica_set current target) as [u|e] eqn:Hval.
  - rewrite generate_eq by done. split_and!; [done|apply generated_one_per_replica|].
    intros t. apply elem_of_generated.
  - unfold generate_transitions. rewrite Hval. by destruct e as [[]| |].
Qed.

(** C33: Repeated planning converges: when every participant performs the
    requested transitions, a replica with a path of declared transitions to its
    desired state is in that state after as many rounds as the path has hops,
    and it stays there. *)
Theorem generation_converges resource current target sm p i s ss d n :
  StateModelValid sm → same_replicas current target →
  CurrentState_state current p i = Some s → BestPossibleState_state target p i = Some d →
  s ≠ d → steps (transitions_by_priority sm) s ss d → hops ss ≤ n →
  CurrentState_state (rounds resource target sm n current) p i = Some d.
Proof.
  intros Hsm Hsame Hs Hd Hne Hss Hn. rewrite (rounds_state _ _ _ _ _ _ _ s d) by done.
  destruct (walk_reaches sm n s ss d Hne Hss Hn) as (-> & _). done.
Qed.

Definition ex_replica (s : State) : ReplicaStates :=
  MkReplicaStates {[MkPartitionId "p0" := {[MkInstanceId "node-a" := s]}]}.

Lemma generation_converges_witness :
  CurrentState_state (rounds (MkResourceId "documents") (MkBestPossibleState (ex_replica DROPPED))
      leader_standby 3 (MkCurrentState (ex_replica LEADER)))
    (MkPartitionId "p0") (MkInstanceId "node-a") = Some DROPPED.
Proof.
  apply (generation_converges (MkResourceId "documents") (MkCurrentState (ex_replica LEADER))
    (MkBestPossibleState (ex_replica DROPPED)) leader_standby (MkPartitionId "p0")
    (MkInstanceId "node-a") LEADER [STANDBY; OFFLINE] DROPPED 3).
  - apply leader_standby_valid.
  - intros q j.
    change (is_Some (rget (states (ex_replica LEADER)) q j) ↔
            is_Some (rget (states (ex_replica DROPPED)) q j)).
    unfold ex_replica, rget. simpl.
    destruct (decide (q = MkPartitionId "p0")) as [->|Hq].
    + rewrite !lookup_singleton_eq. simpl.
      destruct (decide (j = MkInstanceId "node-a")) as [->|Hj].
      * rewrite !lookup_singleton_eq. split; intros _; eexists; reflexivity.
      * rewrite !lookup_singleton_ne by (intros Heq; apply Hj; symmetry; exact Heq).
        split; intros [? [=]].
    + rewrite !lookup_singleton_ne by (intros Heq; apply Hq; symmetry; exact Heq).
      simpl. split; intros [? [=]].
  - vm_compute. reflexivity.
  - vm_compute. reflexivity.
  - discriminate.
  - repeat split; apply list_elem_of_In; vm_compute; tauto.
  - unfold hops. simpl. lia.
Defined.
