(* ===== verification/MessageSelection.v ===== *)
(** * Message selection

    Models [src/controller/message_selection.rs]: the greedy choice of candidate
    transitions under the state-model cardinality bounds, counting live current
    states and the endpoints of transitions in flight. *)

From S2P Require Import Prelude Identity StateMaps StateModel Transitions.

Inductive MessageSelectionError :=
| CandidateResourceMismatch (expected actual : ResourceId)
| UnknownCandidatePartition (partition : PartitionId)
| UnknownPendingPartition (partition : PartitionId)
| DuplicatePendingTransition (partition : PartitionId) (instance : InstanceId).

Definition display_message_selection_error (e : MessageSelectionError) : string :=
  match e with
  | CandidateResourceMismatch expected actual =>
      "candidate transition belongs to resource " +:+ resource_str actual +:+
      ", expected " +:+ resource_str expected
  | UnknownCandidatePartition p =>
      "candidate transition references unknown partition " +:+ partition_str p
  | UnknownPendingPartition p =>
      "pending transition references unknown partition " +:+ partition_str p
  | DuplicatePendingTransition p i =>
      "duplicate pending transition for partition " +:+ partition_str p +:+
      " and instance " +:+ instance_str i
  end.

Definition is_drop_path (partition : PartitionId) (source target : State)
    (current : CurrentState) (state_model : StateModelDefinition) : bool :=
  match find_first is_dropped (states_by_priority state_model) with
  | None => false
  | Some dropped =>
      bool_decide (is_Some (CurrentState_entries current !! partition))
      && bool_decide (next_state_toward state_model source dropped = Some target)
  end.

(** [usize::try_from(u32)] always succeeds on the 64-bit targets modelled. *)
Definition state_bounds (state_model : StateModelDefinition) (live_instance_count : N)
  : gmap State N :=
  btree_collect (omap (λ state,
      match cardinality_for state_model state with
      | Some (Exact value) => Some (state, value)
      | Some NodeCount => Some (state, live_instance_count)
      | Some ReplicaCount | Some Unbounded | None => None
      end) (states_by_priority state_model)).

Definition increase_state_count (bounds : gmap State N) (state : State)
    (state_counts : gmap State N) : gmap State N :=
  match bounds !! state with
  | Some _ => <[state := (default 0 (state_counts !! state) + 1)%N]> state_counts
  | None => state_counts
  end.

(** The first loop: candidates are checked and grouped by partition. *)
Definition group_candidate (resource : ResourceId) (ideal_state : IdealState)
    (current : CurrentState) (state_model : StateModelDefinition)
    (groups : gmap PartitionId (list TransitionRequest)) (candidate : TransitionRequest)
  : result (gmap PartitionId (list TransitionRequest)) MessageSelectionError :=
  if negb (bool_decide (tr_resource candidate = resource)) then
    Err (CandidateResourceMismatch resource (tr_resource candidate))
  else if bool_decide (preference_list ideal_state (tr_partition candidate) = None)
       && negb (is_drop_path (tr_partition candidate) (source_state candidate)
                  (target_state candidate) current state_model)
  then Err (UnknownCandidatePartition (tr_partition candidate))
  else Ok (push_entry groups (tr_partition candidate) candidate).

(** The second loop: pending transitions, at most one per replica. *)
Definition group_pending (ideal_state : IdealState) (current : CurrentState)
    (state_model : StateModelDefinition)
    (st : gmap PartitionId (list PendingTransition) * gset (PartitionId * InstanceId))
    (transition : PendingTransition)
  : result (gmap PartitionId (list PendingTransition) * gset (PartitionId * InstanceId))
      MessageSelectionError :=
  let '(groups, pending_keys) := st in
  let key := (pt_partition transition, pt_instance transition) in
  if bool_decide (preference_list ideal_state (pt_partition transition) = None)
     && negb (is_drop_path (pt_partition transition) (pt_source_state transition)
                (pt_target_state transition) current state_model)
  then Err (UnknownPendingPartition (pt_partition transition))
  else if bool_decide (key ∈ pending_keys) then
    Err (DuplicatePendingTransition (pt_partition transition) (pt_instance transition))
  else Ok (push_entry groups (pt_partition transition) transition, {[key]} ∪ pending_keys).

Definition partition_counts (bounds : gmap State N) (current : CurrentState)
    (live_instances : gset InstanceId) (state_model : StateModelDefinition)
    (partition : PartitionId) (partition_pending : option (list PendingTransition))
  : gmap State N :=
  let counts := foldl (λ counts instance,
      let state := default (initial_state state_model)
                     (CurrentState_state current partition instance) in
      increase_state_count bounds state counts) ∅ (set_items live_instances) in
  match partition_pending with
  | Some pending =>
      foldl (λ counts transition,
        increase_state_count bounds (pt_source_state transition)
          (increase_state_count bounds (pt_target_state transition) counts)) counts pending
  | None => counts
  end.

Definition transition_priority (state_model : StateModelDefinition) (candidate : TransitionRequest)
  : N :=
  default usize_MAX (position (λ transition,
    bool_decide (source transition = source_state candidate)
    && bool_decide (target transition = target_state candidate))
  (transitions_by_priority state_model)).

(** Body of the innermost loop. *)
Definition select_candidate (bounds : gmap State N)
    (st : gmap State N * list TransitionRequest) (candidate : TransitionRequest)
  : gmap State N * list TransitionRequest :=
  let '(state_counts, selected) := st in
  let accept := (increase_state_count bounds (target_state candidate) state_counts,
                 selected ++ [candidate]) in
  match bounds !! target_state candidate with
  | Some upper_bound =>
      let new_count := (default 0 (state_counts !! target_state candidate) + 1)%N in
      if (upper_bound <? new_count)%N then st else accept
  | None => accept
  end.

(** Body of the partition loop. *)
Definition select_partition (bounds : gmap State N) (current : CurrentState)
    (live_instances : gset InstanceId) (state_model : StateModelDefinition)
    (candidates_by_partition : gmap PartitionId (list TransitionRequest))
    (pending_by_partition : gmap PartitionId (list PendingTransition))
    (selected : list TransitionRequest) (partition : PartitionId) : list TransitionRequest :=
  match candidates_by_partition !! partition with
  | None => selected
  | Some partition_candidates =>
      let state_counts := partition_counts bounds current live_instances state_model partition
                            (pending_by_partition !! partition) in
      let grouped := group_by (transition_priority state_model) partition_candidates in
      snd (foldl (λ st group, foldl (select_candidate bounds) st group)
             (state_counts, selected) (map_values grouped))
  end.

Definition select_transitions (resource : ResourceId) (ideal_state : IdealState)
    (current : CurrentState) (live_instances : gset InstanceId)
    (candidates : list TransitionRequest) (pending : list PendingTransition)
    (state_model : StateModelDefinition) : result (list TransitionRequest) MessageSelectionError :=
  let? candidates_by_partition :=
    try_fold (group_candidate resource ideal_state current state_model) ∅ candidates in
  let? grouped_pending :=
    try_fold (group_pending ideal_state current state_model) (∅, ∅) pending in
  let '(pending_by_partition, _) := grouped_pending in
  let bounds := state_bounds state_model (N.of_nat (size live_instances)) in
  let partitions : gset PartitionId :=
    dom (preference_lists ideal_state) ∪ dom candidates_by_partition in
  Ok (foldl (select_partition bounds current live_instances state_model
               candidates_by_partition pending_by_partition) [] (set_items partitions)).

(** * Lemmas *)

(** ** Counting *)

Definition cnt (counts : gmap State N) (s : State) : N := default 0%N (counts !! s).

Definition count_of {A} (f : A → State) (s : State) (l : list A) : N :=
  len (filter (λ x, f x = s) l).

Lemma count_of_nil {A} (f : A → State) s : count_of f s [] = 0%N.
Proof. done. Qed.

Lemma count_of_cons {A} (f : A → State) s x l :
  count_of f s (x :: l) = ((if decide (f x = s) then 1 else 0) + count_of f s l)%N.
Proof. unfold count_of, len. rewrite filter_cons. case_decide; simpl; lia. Qed.

Lemma count_of_app {A} (f : A → State) s l1 l2 :
  count_of f s (l1 ++ l2) = (count_of f s l1 + count_of f s l2)%N.
Proof. unfold count_of, len. rewrite filter_app, length_app. lia. Qed.

Lemma count_of_Permutation {A} (f : A → State) s l1 l2 :
  l1 ≡ₚ l2 → count_of f s l1 = count_of f s l2.
Proof. intros Hp. unfold count_of, len. by rewrite Hp. Qed.

Lemma cnt_increase bounds s t counts :
  is_Some (bounds !! s) →
  cnt (increase_state_count bounds t counts) s = (cnt counts s + if decide (t = s) then 1 else 0)%N.
Proof.
  intros [b Hb]. unfold cnt, increase_state_count. case_decide as Hd.
  - subst t. rewrite Hb. by rewrite lookup_insert_eq.
  - destruct (bounds !! t); [by rewrite lookup_insert_ne by done; simpl; rewrite N.add_0_r|].
    lia.
Qed.

Lemma cnt_foldl {A} (f : A → State) bounds s l counts :
  is_Some (bounds !! s) →
  cnt (foldl (λ c x, increase_state_count bounds (f x) c) counts l) s = (cnt counts s + count_of f s l)%N.
Proof.
  intros Hb. revert counts. induction l as [|x l IH]; intros counts; simpl; [unfold count_of, len; simpl; lia|].
  rewrite IH, cnt_increase, count_of_cons by done. lia.
Qed.

(** Live replicas in a state, and the endpoints of pending transitions. *)
Definition live_in_state (current : CurrentState) (live : gset InstanceId)
    (sm : StateModelDefinition) (p : PartitionId) (s : State) : N :=
  count_of (λ i, default (initial_state sm) (CurrentState_state current p i)) s (elements live).

Definition pending_endpoints (pending : list PendingTransition) (p : PartitionId) (s : State) : N :=
  let here := filter (λ t, pt_partition t = p) pending in
  (count_of pt_target_state s here + count_of pt_source_state s here)%N.

Lemma cnt_pending bounds s l counts :
  is_Some (bounds !! s) →
  cnt (foldl (λ c t, increase_state_count bounds (pt_source_state t)
         (increase_state_count bounds (pt_target_state t) c)) counts l) s =
  (cnt counts s + (count_of pt_target_state s l + count_of pt_source_state s l))%N.
Proof.
  intros Hb. revert counts. induction l as [|t l IH]; intros counts; simpl;
    [unfold count_of, len; simpl; lia|].
  rewrite IH, !cnt_increase, !count_of_cons by done. lia.
Qed.

Lemma partition_counts_spec bounds current live sm p pending s :
  is_Some (bounds !! s) →
  cnt (partition_counts bounds current live sm p (group_by pt_partition pending !! p)) s =
  (live_in_state current live sm p s + pending_endpoints pending p s)%N.
Proof.
  intros Hb. unfold partition_counts, live_in_state, pending_endpoints.
  rewrite group_by_lookup.
  assert (cnt (foldl (λ counts instance, increase_state_count bounds
      (default (initial_state sm) (CurrentState_state current p instance)) counts) ∅
      (set_items live)) s =
    count_of (λ i, default (initial_state sm) (CurrentState_state current p i)) s (elements live))
    as Hlive.
  { rewrite (cnt_foldl (λ i, default (initial_state sm) (CurrentState_state current p i))) by done.
    unfold cnt. rewrite lookup_empty. simpl. apply count_of_Permutation.
    unfold set_items. apply stable_sort_perm. }
  destruct (filter _ pending) as [|t l] eqn:Hf.
  - rewrite Hlive, !count_of_nil. lia.
  - rewrite cnt_pending, Hlive by done. done.
Qed.

(** ** The greedy loop *)

(** What running the loop over [l] does to the counts and the selection. *)
Record greedy_run (bounds : gmap State N) (l : list TransitionRequest)
    (counts : gmap State N) (added : list TransitionRequest) (counts' : gmap State N) : Prop := {
  gr_sub : sublist added l;
  gr_count : ∀ s, is_Some (bounds !! s) →
    cnt counts' s = (cnt counts s + count_of target_state s added)%N;
  gr_bound : ∀ s b, bounds !! s = Some b → (0 < count_of target_state s added)%N →
    (cnt counts' s ≤ b)%N;
  gr_full : ∀ t, t ∈ l → t ∉ added →
    ∃ b, bounds !! target_state t = Some b ∧ (b ≤ cnt counts' (target_state t))%N
}.

Lemma greedy_snoc_skip bounds l counts added counts' t b :
  greedy_run bounds l counts added counts' →
  bounds !! target_state t = Some b → (b < cnt counts' (target_state t) + 1)%N →
  greedy_run bounds (l ++ [t]) counts added counts'.
Proof.
  intros [Hsub Hcount Hbound Hfull] Hb Hlt. split; [|done|done|].
  - rewrite <-(app_nil_r added). apply sublist_app; [done|apply sublist_nil_l].
  - intros u [Hu|Hu%list_elem_of_singleton]%elem_of_app Hna; [by apply Hfull|]. subst u.
    exists b. split; [done|lia].
Qed.

Lemma greedy_snoc_take bounds l counts added counts' t :
  greedy_run bounds l counts added counts' →
  (∀ b, bounds !! target_state t = Some b → (cnt counts' (target_state t) + 1 ≤ b)%N) →
  greedy_run bounds (l ++ [t]) counts (added ++ [t])
    (increase_state_count bounds (target_state t) counts').
Proof.
  intros [Hsub Hcount Hbound Hfull] Hok. split.
  - by apply sublist_app.
  - intros s Hs. rewrite cnt_increase, Hcount, count_of_app, count_of_cons, count_of_nil by done. lia.
  - intros s b Hs. rewrite count_of_app, count_of_cons, count_of_nil, cnt_increase by eauto.
    case_decide as Hd; [subst s; specialize (Hok b Hs); lia|].
    rewrite !N.add_0_r. by apply Hbound.
  - intros u [Hu|Hu%list_elem_of_singleton]%elem_of_app Hna; [|set_solver].
    destruct (Hfull u Hu) as (b & Hb & Hle); [set_solver|]. exists b. split; [done|].
    rewrite cnt_increase by eauto. lia.
Qed.

Lemma greedy_spec bounds l counts selected :
  ∃ added counts',
    foldl (select_candidate bounds) (counts, selected) l = (counts', selected ++ added) ∧
    greedy_run bounds l counts added counts'.
Proof.
  induction l as [|t l IH] using rev_ind.
  - exists [], counts. rewrite app_nil_r. split; [done|]. split.
    + done.
    + intros. rewrite count_of_nil. lia.
    + intros s b _. rewrite count_of_nil. lia.
    + intros t Ht. by apply elem_of_nil in Ht.
  - destruct IH as (added & counts' & Hrun & Hg). rewrite foldl_snoc, Hrun.
    unfold select_candidate. fold (cnt counts' (target_state t)).
    destruct (bounds !! target_state t) as [b|] eqn:Hb; [destruct (_ <? _)%N eqn:Hlt; reflect_bools|].
    + exists added, counts'. split; [done|]. by eapply greedy_snoc_skip.
    + exists (added ++ [t]), (increase_state_count bounds (target_state t) counts').
      rewrite app_assoc. split; [done|]. apply greedy_snoc_take; [done|]. intros b' Hb'.
      by simplify_eq.
    + exists (added ++ [t]), (increase_state_count bounds (target_state t) counts').
      rewrite app_assoc. split; [done|]. apply greedy_snoc_take; [done|]. congruence.
Qed.

(** ** Partitions *)

(** The candidates of a partition in the order they are considered. *)
Definition ordered_candidates (sm : StateModelDefinition) (candidates : list TransitionRequest)
    (p : PartitionId) : list TransitionRequest :=
  concat (map_values (group_by (transition_priority sm)
                        (filter (λ t, tr_partition t = p) candidates))).

Lemma foldl_concat {S X} (f : S → X → S) (ls : list (list X)) s :
  foldl (λ t l, foldl f t l) s ls = foldl f s (concat ls).
Proof.
  revert s. induction ls as [|l ls IH]; intros s; simpl; [done|]. by rewrite foldl_app, IH.
Qed.

Lemma elem_of_ordered sm candidates p t :
  t ∈ ordered_candidates sm candidates p ↔ t ∈ candidates ∧ tr_partition t = p.
Proof.
  unfold ordered_candidates. rewrite list_elem_of_In, in_concat. split.
  - intros (g & Hg & Ht). apply list_elem_of_In, elem_of_map_values in Hg as (k & Hk).
    apply group_by_Some in Hk as [-> _]. apply list_elem_of_In in Ht.
    apply list_elem_of_filter in Ht as [_ Ht]. by apply list_elem_of_filter in Ht as [? ?].
  - intros [Ht Hp]. exists (filter (λ u, transition_priority sm u = transition_priority sm t)
      (filter (λ t, tr_partition t = p) candidates)).
    assert (t ∈ filter (λ u, transition_priority sm u = transition_priority sm t)
      (filter (λ t, tr_partition t = p) candidates)) as Hin
      by (by rewrite !list_elem_of_filter).
    split; [|by apply list_elem_of_In]. apply list_elem_of_In, elem_of_map_values.
    exists (transition_priority sm t). rewrite group_by_lookup.
    destruct (filter _ (filter _ candidates)); [by apply elem_of_nil in Hin|done].
Qed.

(** What the selection of one partition must satisfy. *)
Record selection_spec (sm : StateModelDefinition) (current : CurrentState)
    (live : gset InstanceId) (candidates : list TransitionRequest)
    (pending : list PendingTransition) (p : PartitionId) (added : list TransitionRequest) : Prop := {
  sel_sub : sublist added (ordered_candidates sm candidates p);
  sel_bound : ∀ s b, state_bounds sm (N.of_nat (size live)) !! s = Some b →
    (0 < count_of target_state s added)%N →
    (live_in_state current live sm p s + pending_endpoints pending p s
       + count_of target_state s added ≤ b)%N;
  sel_full : ∀ t, t ∈ candidates → tr_partition t = p → t ∉ added →
    ∃ b, state_bounds sm (N.of_nat (size live)) !! target_state t = Some b ∧
      (b ≤ live_in_state current live sm p (target_state t)
           + pending_endpoints pending p (target_state t)
           + count_of target_state (target_state t) added)%N
}.

Lemma select_partition_spec sm current live candidates pending selected p :
  ∃ added,
    select_partition (state_bounds sm (N.of_nat (size live))) current live sm
      (group_by tr_partition candidates) (group_by pt_partition pending) selected p =
    selected ++ added ∧ selection_spec sm current live candidates pending p added.
Proof.
  set (bounds := state_bounds sm (N.of_nat (size live))).
  set (counts := partition_counts bounds current live sm p (group_by pt_partition pending !! p)).
  destruct (greedy_spec bounds (ordered_candidates sm candidates p) counts selected)
    as (added & counts' & Hrun & [Hsub Hcount Hbound Hfull]).
  exists added. split.
  - unfold select_partition. fold bounds counts. rewrite group_by_lookup.
    destruct (filter (λ t, tr_partition t = p) candidates) as [|c cs] eqn:Hc.
    + assert (ordered_candidates sm candidates p = []) as Hnil
        by (unfold ordered_candidates; by rewrite Hc).
      rewrite Hnil in Hsub. apply sublist_nil_r in Hsub as ->. by rewrite app_nil_r.
    + rewrite foldl_concat, <-Hc. fold (ordered_candidates sm candidates p). by rewrite Hrun.
  - assert (∀ s, is_Some (bounds !! s) → cnt counts' s =
      (live_in_state current live sm p s + pending_endpoints pending p s
         + count_of target_state s added)%N) as Hc.
    { intros s Hs. rewrite Hcount by done. unfold counts. by rewrite partition_counts_spec. }
    split; [done| |].
    + intros s b Hb Hpos. rewrite <-Hc by eauto. by apply Hbound.
    + intros t Ht Hp Hna. destruct (Hfull t) as (b & Hb & Hle); [by apply elem_of_ordered|done|].
      exists b. split; [done|]. by rewrite <-Hc by eauto.
Qed.

(** ** Checked grouping *)

Definition placed_or_dropping (ideal : IdealState) (current : CurrentState)
    (sm : StateModelDefinition) (p : PartitionId) (s t : State) : Prop :=
  is_Some (preference_list ideal p) ∨ is_drop_path p s t current sm = true.

Lemma not_placed ideal current sm p s t :
  bool_decide (preference_list ideal p = None) && negb (is_drop_path p s t current sm) = false ↔
  placed_or_dropping ideal current sm p s t.
Proof.
  unfold placed_or_dropping. rewrite andb_false_iff, negb_false_iff, bool_decide_eq_false.
  by rewrite <-not_eq_None_Some.
Qed.

Lemma group_by_snoc {K V} `{Countable K} (key : V → K) l v :
  group_by key (l ++ [v]) = push_entry (group_by key l) (key v) v.
Proof. unfold group_by. by rewrite foldl_snoc. Qed.

Section grouping.
Context (resource : ResourceId) (ideal : IdealState) (current : CurrentState).
Context (sm : StateModelDefinition).

Definition candidate_ok (t : TransitionRequest) : Prop :=
  tr_resource t = resource ∧
  placed_or_dropping ideal current sm (tr_partition t) (source_state t) (target_state t).

Definition pending_ok (t : PendingTransition) : Prop :=
  placed_or_dropping ideal current sm (pt_partition t) (pt_source_state t) (pt_target_state t).

Definition pending_key (t : PendingTransition) : PartitionId * InstanceId :=
  (pt_partition t, pt_instance t).

Lemma group_candidates_spec l :
  match try_fold (group_candidate resource ideal current sm) ∅ l with
  | Ok g => g = group_by tr_partition l ∧ Forall candidate_ok l
  | Err (CandidateResourceMismatch e a) =>
      e = resource ∧ a ≠ resource ∧ ∃ t, t ∈ l ∧ tr_resource t = a
  | Err (UnknownCandidatePartition p) => ∃ t, t ∈ l ∧ tr_partition t = p ∧ ¬ candidate_ok t
  | Err _ => False
  end.
Proof.
  induction l as [|t l IH] using rev_ind; [by split; [|constructor]|].
  rewrite try_fold_app. destruct (try_fold _ ∅ l) as [g|[e a|p| |]].
  - destruct IH as [-> Hall]. simpl. unfold group_candidate.
    case_bool_decide as Hr; simpl; [|split_and!; [done..|exists t; set_solver]].
    destruct (_ && _) eqn:Hp; simpl.
    + exists t. split_and!; [set_solver|done|]. intros [_ Hok].
      apply not_placed in Hok. congruence.
    + rewrite group_by_snoc. split; [done|]. apply Forall_app. split; [done|].
      constructor; [|done]. split; [done|]. by apply not_placed.
  - destruct IH as (? & ? & u & ? & ?). split_and!; [done..|]. exists u. set_solver.
  - destruct IH as (u & ? & ? & ?). exists u. set_solver.
  - done.
  - done.
Qed.

Lemma group_pending_spec l :
  match try_fold (group_pending ideal current sm) (∅, ∅) l with
  | Ok (g, keys) =>
      g = group_by pt_partition l ∧ keys = list_to_set (pending_key <$> l) ∧
      Forall pending_ok l ∧ NoDup (pending_key <$> l)
  | Err (UnknownPendingPartition p) => ∃ t, t ∈ l ∧ pt_partition t = p ∧ ¬ pending_ok t
  | Err (DuplicatePendingTransition p i) => ¬ NoDup (pending_key <$> l) ∧ (p, i) ∈ pending_key <$> l
  | Err _ => False
  end.
Proof.
  induction l as [|t l IH] using rev_ind; [by split_and!; try constructor|].
  rewrite try_fold_app. rewrite fmap_app. destruct (try_fold _ (∅, ∅) l) as [[g keys]|[e a|p|p|p i]].
  - destruct IH as (-> & -> & Hall & Hnd). simpl.
    destruct (_ && _) eqn:Hp; simpl.
    + exists t. split_and!; [set_solver|done|]. intros Hok. apply not_placed in Hok. congruence.
    + destruct (bool_decide (_ ∈ _)) eqn:Hk; reflect_bools; rewrite elem_of_list_to_set in Hk.
      * split; [|set_solver]. rewrite NoDup_app. intros (_ & Hno & _).
        by apply (Hno _ Hk), list_elem_of_singleton.
      * rewrite group_by_snoc, list_to_set_app_L, NoDup_app, Forall_app. simpl.
        rewrite (right_id_L ∅ (∪)), (comm_L (∪) _ {[_]}). split_and!; try done.
        -- constructor; [|done]. by apply not_placed.
        -- intros x Hx ->%list_elem_of_singleton. done.
        -- apply NoDup_singleton.
  - done.
  - done.
  - destruct IH as (u & ? & ? & ?). exists u. set_solver.
  - destruct IH as [Hnd Hin]. split; [|set_solver]. by intros [? _]%NoDup_app.
Qed.
End grouping.

(** ** All partitions *)

Lemma select_loop sm current live candidates pending ps :
  NoDup ps →
  let selected := foldl (select_partition (state_bounds sm (N.of_nat (size live))) current live sm
      (group_by tr_partition candidates) (group_by pt_partition pending)) [] ps in
  ∀ p, if decide (p ∈ ps)
       then selection_spec sm current live candidates pending p
              (filter (λ t, tr_partition t = p) selected)
       else filter (λ t, tr_partition t = p) selected = [].
Proof.
  induction ps as [|q ps IH] using rev_ind; [done|].
  intros (Hnd & Hq & _)%NoDup_app selected p.
  assert (q ∉ ps) as Hqps by (intros Hin; apply (Hq q Hin); left). specialize (IH Hnd).
  unfold selected. rewrite foldl_snoc.
  destruct (select_partition_spec sm current live candidates pending
    (foldl (select_partition (state_bounds sm (N.of_nat (size live))) current live sm
      (group_by tr_partition candidates) (group_by pt_partition pending)) [] ps) q)
    as (added & -> & Hspec).
  rewrite filter_app. specialize (IH p).
  assert (Forall (λ t, tr_partition t = q) added) as Hadded.
  { apply Forall_forall. intros t Ht. pose proof (sel_sub _ _ _ _ _ _ _ Hspec) as Hsub.
    pose proof (elem_of_submseteq _ _ _ Ht (sublist_submseteq _ _ Hsub)) as Hin.
    by apply elem_of_ordered in Hin as [_ ?]. }
  destruct (decide (p = q)) as [->|Hne].
  - rewrite decide_False in IH by done. rewrite decide_True by set_solver. rewrite IH. simpl.
    assert (filter (λ t, tr_partition t = q) added = added) as ->; [|done].
    by apply filter_all_id.
  - assert (filter (λ t, tr_partition t = p) added = []) as ->.
    { apply filter_none. eapply Forall_impl; [done|]. intros t ->. done. }
    rewrite app_nil_r. destruct (decide (p ∈ ps)).
    + by rewrite decide_True by set_solver.
    + by rewrite decide_False by set_solver.
Qed.

Lemma selection_spec_nil sm current live candidates pending p :
  (∀ t, t ∈ candidates → tr_partition t ≠ p) →
  selection_spec sm current live candidates pending p [].
Proof.
  intros Hno. split; [apply sublist_nil_l| |].
  - intros s b _. rewrite count_of_nil. lia.
  - intros t Ht Hp. by destruct (Hno t Ht).
Qed.

Lemma select_ok resource ideal current live candidates pending sm selected :
  select_transitions resource ideal current live candidates pending sm = Ok selected →
  Forall (candidate_ok resource ideal current sm) candidates ∧
  Forall (pending_ok ideal current sm) pending ∧ NoDup (pending_key <$> pending) ∧
  ∀ p, selection_spec sm current live candidates pending p
         (filter (λ t, tr_partition t = p) selected).
Proof.
  unfold select_transitions. pose proof (group_candidates_spec resource ideal current sm candidates) as H1.
  pose proof (group_pending_spec ideal current sm pending) as H2.
  destruct (try_fold (group_candidate _ _ _ _) _ _) as [g|]; [|done].
  destruct (try_fold (group_pending _ _ _) _ _) as [[g2 keys]|]; [|done].
  destruct H1 as [-> Hc]. destruct H2 as (-> & _ & Hp & Hnd). intros [= <-].
  split_and!; [done..|]. intros p.
  set (ps := set_items _). pose proof (select_loop sm current live candidates pending ps) as Hl.
  specialize (Hl (NoDup_set_items _) p). case_decide as Hin; [done|]. rewrite Hl.
  apply selection_spec_nil. intros t Ht <-. apply Hin. unfold ps. rewrite elem_of_set_items.
  apply elem_of_union_r, elem_of_dom. apply not_eq_None_Some. rewrite group_by_None.
  intros Hno. by destruct (Hno t Ht).
Qed.

Lemma leader_bound n : state_bounds leader_standby n !! LEADER = Some 1%N.
Proof.
  unfold state_bounds. rewrite leader_standby_states. simpl.
  by rewrite leader_standby_leader, leader_standby_standby, leader_standby_offline,
    leader_standby_dropped.
Qed.

Lemma count_of_zero {A} (f : A → State) s l x : count_of f s l = 0%N → x ∈ l → f x ≠ s.
Proof.
  unfold count_of, len. intros Hz Hx Hf.
  assert (x ∈ filter (λ x, f x = s) l) as Hin by by apply list_elem_of_filter.
  destruct (filter _ l); [by apply elem_of_nil in Hin|simpl in Hz; lia].
Qed.

(** The bound of one LEADER leaves no room next to a leader or a pending one. *)
Lemma single_leader_selected resource ideal current live candidates pending selected p t :
  select_transitions resource ideal current live candidates pending leader_standby = Ok selected →
  t ∈ selected → tr_partition t = p → target_state t = LEADER →
  (∀ u, u ∈ selected → tr_partition u = p → target_state u = LEADER → u = t) ∧
  (∀ i, i ∈ live → CurrentState_state current p i ≠ Some LEADER) ∧
  (∀ q, q ∈ pending → pt_partition q = p → pt_source_state q ≠ LEADER ∧ pt_target_state q ≠ LEADER).
Proof.
  intros (_ & _ & _ & Hspec)%select_ok Ht Hp Hl. specialize (Hspec p).
  set (here := filter _ selected) in Hspec.
  assert (t ∈ here) as Hth by by apply list_elem_of_filter.
  assert (count_of target_state LEADER here ≠ 0%N) as Hpos
    by (intros Hz; by apply (count_of_zero target_state _ _ _ Hz Hth)).
  pose proof (sel_bound _ _ _ _ _ _ _ Hspec LEADER 1 (leader_bound _) ltac:(lia)) as Hb.
  split_and!.
  - intros u Hu Hup Hul. assert (u ∈ here) as Huh by by apply list_elem_of_filter.
    unfold count_of, len in Hb.
    assert (t ∈ filter (λ x, target_state x = LEADER) here) as H1 by by apply list_elem_of_filter.
    assert (u ∈ filter (λ x, target_state x = LEADER) here) as H2 by by apply list_elem_of_filter.
    destruct (filter (λ x, target_state x = LEADER) here) as [|a [|b l]];
      [by apply elem_of_nil in H1| |simpl in Hb; lia].
    apply list_elem_of_singleton in H1, H2. congruence.
  - intros i Hi Hc.
    assert (live_in_state current live leader_standby p LEADER = 0%N) as Hz by lia.
    apply (count_of_zero _ _ _ i Hz); [by apply elem_of_elements|]. by rewrite Hc.
  - intros q Hq Hqp.
    assert (q ∈ filter (λ t, pt_partition t = p) pending) as Hqh by by apply list_elem_of_filter.
    assert (pending_endpoints pending p LEADER = 0%N) as Hz by lia. unfold pending_endpoints in Hz.
    split; [apply (count_of_zero pt_source_state LEADER _ q) in Hqh|
            apply (count_of_zero pt_target_state LEADER _ q) in Hqh]; (done || lia).
Qed.

(** ** Properties *)

(** C30: Selection never exceeds a cardinality bound and never holds back
    needlessly: per partition the selected transitions are candidates taken in
    transition-priority order; if any is selected into a bounded state, then the
    live replicas in that state, the endpoints of pending transitions there and
    the selected ones together stay within the bound; and a candidate is left
    out only when its target's bound is used up. *)
Theorem select_within_bounds resource ideal current live candidates pending sm selected p :
  select_transitions resource ideal current live candidates pending sm = Ok selected →
  selection_spec sm current live candidates pending p (filter (λ t, tr_partition t = p) selected).
Proof. intros H. by apply (select_ok _ _ _ _ _ _ _ _ H). Qed.

Definition ex_ideal_sel : IdealState :=
  MkIdealState (MkResourceId "documents") 2
    {[MkPartitionId "p0" := [MkInstanceId "node-a"; MkInstanceId "node-b"]]}.
Definition ex_current_sel : CurrentState :=
  current_of {[MkPartitionId "p0" := {[MkInstanceId "node-a" := STANDBY;
                                       MkInstanceId "node-b" := STANDBY]}]}.
Definition ex_live_sel : gset InstanceId := {[MkInstanceId "node-a"; MkInstanceId "node-b"]}.
Definition ex_promote (n : string) : TransitionRequest :=
  MkTransitionRequest (MkResourceId "documents") (MkPartitionId "p0") (MkInstanceId n) STANDBY LEADER.

(** Two promotions compete; one is selected. *)
Lemma ex_selected :
  select_transitions (MkResourceId "documents") ex_ideal_sel ex_current_sel ex_live_sel
    [ex_promote "node-a"; ex_promote "node-b"] [] leader_standby = Ok [ex_promote "node-a"].
Proof. vm_compute. reflexivity. Qed.

Lemma select_within_bounds_witness :
  selection_spec leader_standby ex_current_sel ex_live_sel
    [ex_promote "node-a"; ex_promote "node-b"] [] (MkPartitionId "p0") [ex_promote "node-a"].
Proof.
  exact (select_within_bounds (MkResourceId "documents") ex_ideal_sel ex_current_sel ex_live_sel
    [ex_promote "node-a"; ex_promote "node-b"] [] leader_standby [ex_promote "node-a"]
    (MkPartitionId "p0") ex_selected).
Defined.

(** A partition never gains a second leader from one selection: with the
    built-in model at most one promotion to LEADER is selected per partition,
    and none while a live instance leads it or a transition into or out of
    LEADER is pending there. *)
Theorem select_single_leader resource ideal current live candidates pending selected p t :
  select_transitions resource ideal current live candidates pending leader_standby = Ok selected →
  t ∈ selected → tr_partition t = p → target_state t = LEADER →
  (∀ u, u ∈ selected → tr_partition u = p → target_state u = LEADER → u = t) ∧
  (∀ i, i ∈ live → CurrentState_state current p i ≠ Some LEADER) ∧
  (∀ q, q ∈ pending → pt_partition q = p → pt_source_state q ≠ LEADER ∧ pt_target_state q ≠ LEADER).
Proof. apply single_leader_selected. Qed.

Lemma select_single_leader_witness :
  ex_promote "node-a" ∈ [ex_promote "node-a"] ∧
  (∀ i, i ∈ ex_live_sel → CurrentState_state ex_current_sel (MkPartitionId "p0") i ≠ Some LEADER).
Proof.
  split; [left|].
  refine (proj1 (proj2 (select_single_leader (MkResourceId "documents") ex_ideal_sel ex_current_sel
    ex_live_sel [ex_promote "node-a"; ex_promote "node-b"] [] [ex_promote "node-a"]
    (MkPartitionId "p0") (ex_promote "node-a") ex_selected _ _ _))).
  - left.
  - reflexivity.
  - reflexivity.
Defined.

(** Selection accepts exactly well-formed input: every candidate belongs to
    the resource and is placed or on the way to being dropped, every pending
    transition is too, and no replica has two pending transitions; each error
    names an input that breaks its rule. *)
Theorem select_accepts_iff resource ideal current live candidates pending sm :
  match select_transitions resource ideal current live candidates pending sm with
  | Ok _ =>
      Forall (candidate_ok resource ideal current sm) candidates ∧
      Forall (pending_ok ideal current sm) pending ∧ NoDup (pending_key <$> pending)
  | Err (CandidateResourceMismatch e a) =>
      e = resource ∧ a ≠ resource ∧ ∃ t, t ∈ candidates ∧ tr_resource t = a
  | Err (UnknownCandidatePartition p) =>
      ∃ t, t ∈ candidates ∧ tr_partition t = p ∧ ¬ candidate_ok resource ideal current sm t
  | Err (UnknownPendingPartition p) =>
      ∃ t, t ∈ pending ∧ pt_partition t = p ∧ ¬ pending_ok ideal current sm t
  | Err (DuplicatePendingTransition p i) =>
      ¬ NoDup (pending_key <$> pending) ∧ (p, i) ∈ pending_key <$> pending
  end.
Proof.
  destruct (select_transitions resource ideal current live candidates pending sm) as [sel|e] eqn:Hrun.
  - by destruct (select_ok _ _ _ _ _ _ _ _ Hrun) as (? & ? & ? & _).
  - unfold select_transitions in Hrun.
    pose proof (group_candidates_spec resource ideal current sm candidates) as H1.
    pose proof (group_pending_spec ideal current sm pending) as H2.
    destruct (try_fold (group_candidate _ _ _ _) _ _) as [g|e1]; [|injection Hrun as <-; by destruct e1].
    destruct (try_fold (group_pending _ _ _) _ _) as [[g2 keys]|e2]; [done|].
    injection Hrun as <-. by destruct e2.
Qed.
