(* ===== verification/MessageThrottle.v ===== *)
(** * Intermediate state and throttling

    Models [src/controller/message_throttle.rs]: quota bookkeeping
    ([ThrottleController]), classification of a transition as recovery or load
    balance, the orders in which partitions and messages are considered, and the
    stage itself, [compute_intermediate_and_throttle]. *)

From S2P Require Import Prelude Identity StateMaps StateModel Transitions.

Inductive RebalanceType := AnyBalance | RecoveryBalance | LoadBalance.

Inductive ThrottleScope := ScopeCluster | ScopeResource | ScopeInstance.

Inductive ThrottleTarget :=
| TargetResource (resource : ResourceId)
| TargetInstance (instance : InstanceId).

Record StateTransitionThrottleConfig := MkThrottleConfig {
  cfg_rebalance_type : RebalanceType;
  cfg_scope : ThrottleScope;
  cfg_max_transitions : N;
  cfg_target : option ThrottleTarget
}.

Definition ThrottleConfig_new (rt : RebalanceType) (scope : ThrottleScope) (max : N)
  : StateTransitionThrottleConfig := MkThrottleConfig rt scope max None.
Definition ThrottleConfig_for_resource (rt : RebalanceType) (r : ResourceId) (max : N)
  : StateTransitionThrottleConfig := MkThrottleConfig rt ScopeResource max (Some (TargetResource r)).
Definition ThrottleConfig_for_instance (rt : RebalanceType) (i : InstanceId) (max : N)
  : StateTransitionThrottleConfig := MkThrottleConfig rt ScopeInstance max (Some (TargetInstance i)).

Record OperationalPendingTransition := MkOperationalPending {
  op_resource : ResourceId;
  op_partition : PartitionId;
  op_instance : InstanceId;
  op_source_state : State;
  op_target_state : State
}.

Record ResourceTransitionInput := MkResourceInput {
  ri_resource : ResourceId;
  ri_replicas : N;
  ri_min_active_replicas : option N;
  ri_preference_lists : gmap PartitionId (list InstanceId);
  ri_current_state : CurrentState;
  ri_best_possible_state : BestPossibleState;
  ri_selected_transitions : list TransitionRequest
}.

Record IntermediateThrottleResult := MkThrottleResult {
  intermediate_state : IntermediateState;
  dispatchable_transitions : list TransitionRequest
}.

Inductive IntermediateThrottleError :=
| DuplicateResource (resource : ResourceId)
| DuplicateOperationalPending (partition : PartitionId) (instance : InstanceId)
| ResourceMismatch (expected actual : ResourceId)
| UnknownPendingResource (resource : ResourceId)
| UnknownSelectedPartition (resource : ResourceId) (partition : PartitionId).

Definition display_intermediate_throttle_error (e : IntermediateThrottleError) : string :=
  match e with
  | DuplicateResource r => "duplicate resource " +:+ resource_str r
  | DuplicateOperationalPending p i =>
      "duplicate pending transition for partition " +:+ partition_str p +:+
      " and instance " +:+ instance_str i
  | ResourceMismatch expected actual =>
      "selected transition belongs to resource " +:+ resource_str actual +:+
      ", expected " +:+ resource_str expected
  | UnknownPendingResource r =>
      "pending transition references unknown resource " +:+ resource_str r
  | UnknownSelectedPartition r p =>
      "selected transition references unknown partition " +:+ partition_str p +:+
      " in resource " +:+ resource_str r
  end.

#[export] Instance RebalanceType_eq_dec : EqDecision RebalanceType.
Proof. solve_decision. Defined.
#[export] Instance RebalanceType_countable : Countable RebalanceType.
Proof.
  refine (inj_countable' (λ t, match t with
                               | AnyBalance => 0 | RecoveryBalance => 1 | LoadBalance => 2 end)
            (λ n, match n with 0 => AnyBalance | 1 => RecoveryBalance | _ => LoadBalance end) _).
  by intros [].
Defined.
#[export] Instance OperationalPendingTransition_eq_dec : EqDecision OperationalPendingTransition.
Proof. solve_decision. Defined.

(** ** Quotas *)

Abbreviation quotas := (gmap RebalanceType N).

Record ThrottleController := MkThrottleController {
  tc_cluster : quotas;
  tc_resources : gmap ResourceId quotas;
  tc_instances : gmap InstanceId quotas
}.

Definition quota_exhausted (quota : quotas) (rt : RebalanceType) : bool :=
  bool_decide (quota !! AnyBalance = Some 0%N) || bool_decide (quota !! rt = Some 0%N).

(** [saturating_sub] on the [Any] quota and on the type's own. *)
Definition charge_quota (quota : quotas) (rt : RebalanceType) : quotas :=
  let quota := alter (λ value, value - 1)%N AnyBalance quota in
  if bool_decide (rt = AnyBalance) then quota
  else alter (λ value, value - 1)%N rt quota.

(** Body of the loop over the configurations. *)
Definition add_config (controller : ThrottleController) (config : StateTransitionThrottleConfig)
  : ThrottleController :=
  let set_quota (q : quotas) : quotas :=
    <[cfg_rebalance_type config := cfg_max_transitions config]> q in
  match cfg_scope config with
  | ScopeCluster =>
      MkThrottleController (set_quota (tc_cluster controller)) (tc_resources controller)
        (tc_instances controller)
  | ScopeResource =>
      MkThrottleController (tc_cluster controller)
        (match cfg_target config with
         | Some (TargetResource r) => alter set_quota r (tc_resources controller)
         | _ => set_quota <$> tc_resources controller
         end) (tc_instances controller)
  | ScopeInstance =>
      MkThrottleController (tc_cluster controller) (tc_resources controller)
        (match cfg_target config with
         | Some (TargetInstance i) => alter set_quota i (tc_instances controller)
         | _ => set_quota <$> tc_instances controller
         end)
  end.

(** [entry(..).or_default()] on every resource and live instance, then the
    configurations in order. *)
Definition ThrottleController_new (resources : list ResourceTransitionInput)
    (live_instances : gset InstanceId) (configs : list StateTransitionThrottleConfig)
  : ThrottleController :=
  let controller := MkThrottleController ∅
    (foldl (λ m resource, <[ri_resource resource := default ∅ (m !! ri_resource resource)]> m)
       (∅ : gmap ResourceId quotas) resources)
    (foldl (λ m instance, <[instance := default ∅ (m !! instance)]> m)
       (∅ : gmap InstanceId quotas) (set_items live_instances)) in
  foldl add_config controller configs.

Definition should_throttle (self : ThrottleController) (rt : RebalanceType)
    (resource : ResourceId) (instance : InstanceId) : bool :=
  quota_exhausted (tc_cluster self) rt
  || (match tc_resources self !! resource with Some q => quota_exhausted q rt | None => false end)
  || (match tc_instances self !! instance with Some q => quota_exhausted q rt | None => false end).

Definition charge (self : ThrottleController) (rt : RebalanceType)
    (resource : ResourceId) (instance : InstanceId) : ThrottleController :=
  MkThrottleController (charge_quota (tc_cluster self) rt)
    (alter (λ q, charge_quota q rt) resource (tc_resources self))
    (alter (λ q, charge_quota q rt) instance (tc_instances self)).

(** ** Classification *)

(** State of the first loop of [required_states]: the result, the candidates
    and the replicas still to be covered. *)
Definition required_fixed (state_model : StateModelDefinition)
    (st : gmap State N * N * N) (state : State) : gmap State N * N * N :=
  let '(required, remaining_candidates, remaining_replicas) := st in
  if (remaining_candidates =? 0)%N then st
  else match cardinality_for state_model state with
  | Some (Exact count) =>
      if (0 <? count)%N then
        let count := N.min count remaining_candidates in
        (<[state := count]> required, remaining_candidates - count, remaining_replicas - count)%N
      else st
  | Some NodeCount =>
      (<[state := remaining_candidates]> required, 0, remaining_replicas - remaining_candidates)%N
  | Some ReplicaCount | Some Unbounded | None => st
  end.

Definition required_states (resource : ResourceTransitionInput) (partition : PartitionId)
    (live_instances : gset InstanceId) (state_model : StateModelDefinition) : gmap State N :=
  let candidate_count :=
    match ri_preference_lists resource !! partition with
    | Some preference => len (filter (λ i, i ∈ live_instances) preference)
    | None => 0%N
    end in
  let remaining_replicas := default (ri_replicas resource) (ri_min_active_replicas resource) in
  let '(required, remaining_candidates, remaining_replicas) :=
    foldl (required_fixed state_model) (∅, candidate_count, remaining_replicas)
      (states_by_priority state_model) in
  match find_first (λ state,
          bool_decide (cardinality_for state_model state = Some ReplicaCount)
          && (0 <? remaining_candidates)%N && (0 <? remaining_replicas)%N)
        (states_by_priority state_model) with
  | Some state => <[state := N.min remaining_candidates remaining_replicas]> required
  | None => required
  end.

(** One replica counted against the required states; a count is never zero. *)
Definition count_required (remaining : gmap State N) (state : State) : gmap State N :=
  match remaining !! state with
  | Some count =>
      if (count =? 1)%N then delete state remaining else <[state := (count - 1)%N]> remaining
  | None => remaining
  end.

Definition rebalance_type (required : gmap State N) (current : replica_map)
    (transition : TransitionRequest) : RebalanceType :=
  let remaining :=
    match current !! tr_partition transition with
    | Some states => foldl count_required required (map_values states)
    | None => required
    end in
  if bool_decide (is_Some (remaining !! target_state transition)) then RecoveryBalance
  else LoadBalance.

(** ** Orders *)

Definition count_active (acc : gmap State N * N) (state : State) : gmap State N * N :=
  let '(remaining, n) := acc in
  match remaining !! state with
  | None => acc
  | Some count => if (count =? 0)%N then acc else (<[state := (count - 1)%N]> remaining, n + 1)%N
  end.

Definition partition_key (top_state : State) (current best : option (gmap InstanceId State))
  : N * N * N :=
  let current_states := match current with Some m => map_values m | None => [] end in
  let miss_top := if existsb (λ s, bool_decide (s = top_state)) current_states then 0%N else 1%N in
  let active :=
    match best with
    | Some best =>
        let remaining := foldl (λ m s, <[s := (default 0 (m !! s) + 1)%N]> m)
                           (∅ : gmap State N) (map_values best) in
        snd (foldl count_active (remaining, 0%N) current_states)
    | None => 0%N
    end in
  let matched :=
    match best with
    | Some best =>
        len (filter (λ e, best !! e.1 = Some e.2)
               (match current with Some m => entries m | None => [] end))
    | None => 0%N
    end in
  (miss_top, active, matched).

Definition partition_priority (resource : ResourceTransitionInput) (top_state : State)
    (l r : PartitionId) : comparison :=
  let key p := partition_key top_state (CurrentState_entries (ri_current_state resource) !! p)
                 (BestPossibleState_entries (ri_best_possible_state resource) !! p) in
  then_with (rust_cmp (key l) (key r)) (rust_cmp l r).

Definition state_position (state_model : StateModelDefinition) (s : State) : N :=
  default usize_MAX (position (λ state, bool_decide (state = s)) (states_by_priority state_model)).

Definition preference_position (resource : ResourceTransitionInput) (p : PartitionId)
    (i : InstanceId) : option N :=
  match ri_preference_lists resource !! p with
  | Some preferred => position (λ instance, bool_decide (instance = i)) preferred
  | None => None
  end.

Definition message_priority (resource : ResourceTransitionInput)
    (state_model : StateModelDefinition) (l r : TransitionRequest) : comparison :=
  if negb (bool_decide (target_state l = target_state r)) then
    rust_cmp (state_position state_model (target_state l))
      (state_position state_model (target_state r))
  else
    then_with (rust_cmp (preference_position resource (tr_partition l) (tr_instance l))
                 (preference_position resource (tr_partition r) (tr_instance r)))
      (rust_cmp (tr_instance l) (tr_instance r)).

Definition pending_as_request (t : OperationalPendingTransition) : TransitionRequest :=
  MkTransitionRequest (op_resource t) (op_partition t) (op_instance t)
    (op_source_state t) (op_target_state t).

Definition message_pending_priority (resource : ResourceTransitionInput)
    (state_model : StateModelDefinition) (l r : OperationalPendingTransition) : comparison :=
  message_priority resource state_model (pending_as_request l) (pending_as_request r).

(** ** The stage *)

(** Pending transitions that are still in their source state use quota. *)
Definition charge_pending_one (resource : ResourceTransitionInput) (partition : PartitionId)
    (required : gmap State N) (controller : ThrottleController)
    (transition : OperationalPendingTransition) : ThrottleController :=
  let current := CurrentState_state (ri_current_state resource) partition (op_instance transition) in
  if negb (bool_decide (current = Some (op_source_state transition)))
     || bool_decide (current = Some (op_target_state transition))
  then controller
  else
    let rt := rebalance_type required (CurrentState_entries (ri_current_state resource))
                (pending_as_request transition) in
    charge controller rt (ri_resource resource) (op_instance transition).

Definition charge_pending (resource : ResourceTransitionInput)
    (pending : list OperationalPendingTransition) (live_instances : gset InstanceId)
    (state_model : StateModelDefinition) (controller : ThrottleController) : ThrottleController :=
  foldl (λ controller '(partition, transitions),
    let required := required_states resource partition live_instances state_model in
    foldl (charge_pending_one resource partition required) controller
      (sort_by (message_pending_priority resource state_model) transitions))
  controller (entries (group_by op_partition pending)).

Definition pending_by_resource_matches (pending : option (list OperationalPendingTransition))
    (transition : TransitionRequest) : bool :=
  match pending with
  | Some pending =>
      existsb (λ candidate,
        bool_decide (op_partition candidate = tr_partition transition)
        && bool_decide (op_instance candidate = tr_instance transition)
        && bool_decide (op_source_state candidate = source_state transition)
        && bool_decide (op_target_state candidate = target_state transition)) pending
  | None => false
  end.

Definition is_drop_transition (transition : TransitionRequest)
    (resource : ResourceTransitionInput) (state_model : StateModelDefinition) : bool :=
  match find_first is_dropped (states_by_priority state_model) with
  | None => false
  | Some dropped =>
      bool_decide (is_Some (CurrentState_entries (ri_current_state resource) !!
                              tr_partition transition))
      && bool_decide (next_state_toward state_model (source_state transition) dropped
                      = Some (target_state transition))
  end.

Definition validate_transition (resource : ResourceTransitionInput)
    (state_model : StateModelDefinition) (u : unit) (transition : TransitionRequest)
  : result unit IntermediateThrottleError :=
  if negb (bool_decide (tr_resource transition = ri_resource resource)) then
    Err (ResourceMismatch (ri_resource resource) (tr_resource transition))
  else
    let lists := ri_preference_lists resource in
    let nonempty := match lists !! tr_partition transition with
                    | Some preference => negb (bool_decide (preference = []))
                    | None => false
                    end in
    if negb (bool_decide (is_Some (lists !! tr_partition transition)))
       || (negb nonempty && negb (is_drop_transition transition resource state_model))
    then Err (UnknownSelectedPartition (ri_resource resource) (tr_partition transition))
    else Ok u.

Definition validate_selected (resource : ResourceTransitionInput)
    (state_model : StateModelDefinition) : result unit IntermediateThrottleError :=
  try_fold (validate_transition resource state_model) tt (ri_selected_transitions resource).

(** The write both final loops perform: DROPPED removes the replica, any other
    state is stored; a partition left without replicas keeps its empty map. *)
Definition settle (dropped_state : option State) (states : replica_map)
    (p : PartitionId) (i : InstanceId) (target : State) : replica_map :=
  if bool_decide (Some target = dropped_state)
  then alter (λ insts : gmap InstanceId State, delete i insts) p states
  else rput states p i target.

Definition apply_pending (states : replica_map)
    (pending : option (list OperationalPendingTransition)) (dropped_state : option State)
  : replica_map :=
  match pending with
  | Some pending =>
      foldl (λ states t, settle dropped_state states (op_partition t) (op_instance t)
                           (op_target_state t)) states pending
  | None => states
  end.

(** What the message loop updates. *)
Record DispatchState := MkDispatchState {
  ds_controller : ThrottleController;
  ds_derived : replica_map;
  ds_dispatchable : list TransitionRequest
}.

Definition dispatch_message (resource : ResourceTransitionInput)
    (pending : option (list OperationalPendingTransition)) (required : gmap State N)
    (st : DispatchState) (transition : TransitionRequest) : DispatchState :=
  if pending_by_resource_matches pending transition then st
  else
    let rt := rebalance_type required (ds_derived st) transition in
    if should_throttle (ds_controller st) rt (ri_resource resource) (tr_instance transition) then st
    else MkDispatchState
           (charge (ds_controller st) rt (ri_resource resource) (tr_instance transition))
           (rput (ds_derived st) (tr_partition transition) (tr_instance transition)
              (target_state transition))
           (ds_dispatchable st ++ [transition]).

Definition dispatch_partition (resource : ResourceTransitionInput)
    (pending : option (list OperationalPendingTransition)) (live_instances : gset InstanceId)
    (state_model : StateModelDefinition)
    (selected_by_partition : gmap PartitionId (list TransitionRequest))
    (st : DispatchState) (partition : PartitionId) : DispatchState :=
  match selected_by_partition !! partition with
  | None => st
  | Some messages =>
      let messages := sort_by (message_priority resource state_model) messages in
      let required := required_states resource partition live_instances state_model in
      foldl (dispatch_message resource pending required) st messages
  end.

(** Accumulator of the resource loop. *)
Record StageState := MkStageState {
  ss_controller : ThrottleController;
  ss_dispatchable : list TransitionRequest;
  ss_intermediate : resource_map
}.

Definition process_resource (live_instances : gset InstanceId) (state_model : StateModelDefinition)
    (pending_by_resource : gmap ResourceId (list OperationalPendingTransition))
    (dropped_state : option State) (st : StageState) (resource : ResourceTransitionInput)
  : result StageState IntermediateThrottleError :=
  let? u := validate_selected resource state_model in
  let selected := ri_selected_transitions resource in
  if bool_decide (selected = []) then
    Ok (MkStageState (ss_controller st) (ss_dispatchable st)
          (<[ri_resource resource :=
              BestPossibleState_entries (ri_best_possible_state resource)]> (ss_intermediate st)))
  else
    let selected_by_partition := group_by tr_partition selected in
    let partition_order :=
      sort_by (partition_priority resource (highest_priority_state state_model))
        (map_keys selected_by_partition) in
    let pending := pending_by_resource !! ri_resource resource in
    let ds := foldl (dispatch_partition resource pending live_instances state_model
                       selected_by_partition)
                (MkDispatchState (ss_controller st)
                   (CurrentState_entries (ri_current_state resource)) (ss_dispatchable st))
                partition_order in
    let derived := apply_pending (ds_derived ds) pending dropped_state in
    let derived :=
      foldl (λ states t, settle dropped_state states (tr_partition t) (tr_instance t)
                           (target_state t))
        derived (filter (λ t, t ∈ ds_dispatchable ds) selected) in
    Ok (MkStageState (ds_controller ds) (ds_dispatchable ds)
          (<[ri_resource resource := derived]> (ss_intermediate st))).

Definition index_resource (indexes : gmap ResourceId nat)
    (entry : nat * ResourceTransitionInput)
  : result (gmap ResourceId nat) IntermediateThrottleError :=
  let '(index, resource) := entry in
  match indexes !! ri_resource resource with
  | Some _ => Err (DuplicateResource (ri_resource resource))
  | None => Ok (<[ri_resource resource := index]> indexes)
  end.

Definition check_pending_resource (indexes : gmap ResourceId nat) (u : unit)
    (t : OperationalPendingTransition) : result unit IntermediateThrottleError :=
  match indexes !! op_resource t with
  | None => Err (UnknownPendingResource (op_resource t))
  | Some _ => Ok u
  end.

Definition group_operational
    (st : gmap ResourceId (list OperationalPendingTransition)
          * gset (ResourceId * PartitionId * InstanceId))
    (t : OperationalPendingTransition)
  : result (gmap ResourceId (list OperationalPendingTransition)
            * gset (ResourceId * PartitionId * InstanceId)) IntermediateThrottleError :=
  let '(groups, keys) := st in
  let key := (op_resource t, op_partition t, op_instance t) in
  if bool_decide (key ∈ keys) then
    Err (DuplicateOperationalPending (op_partition t) (op_instance t))
  else Ok (push_entry groups (op_resource t) t, {[key]} ∪ keys).

(** The quotas left once pending work has been charged. *)
Definition charge_all_pending (resources : list ResourceTransitionInput)
    (live_instances : gset InstanceId) (state_model : StateModelDefinition)
    (pending_by_resource : gmap ResourceId (list OperationalPendingTransition))
    (controller : ThrottleController) : ThrottleController :=
  foldl (λ controller resource,
    charge_pending resource (default [] (pending_by_resource !! ri_resource resource))
      live_instances state_model controller) controller resources.

Definition compute_intermediate_and_throttle (resources : list ResourceTransitionInput)
    (live_instances : gset InstanceId) (pending : list OperationalPendingTransition)
    (throttle_configs : list StateTransitionThrottleConfig) (state_model : StateModelDefinition)
  : result IntermediateThrottleResult IntermediateThrottleError :=
  let? resource_indexes := try_fold index_resource ∅ (imap pair resources) in
  let? u := try_fold (check_pending_resource resource_indexes) tt pending in
  let? grouped := try_fold group_operational (∅, ∅) pending in
  let '(pending_by_resource, _) := grouped in
  let controller := ThrottleController_new resources live_instances throttle_configs in
  let dropped_state := find_first is_dropped (states_by_priority state_model) in
  let controller := charge_all_pending resources live_instances state_model pending_by_resource
                      controller in
  let? st := try_fold (process_resource live_instances state_model pending_by_resource dropped_state)
               (MkStageState controller [] ∅) resources in
  Ok (MkThrottleResult (MkIntermediateState (ss_intermediate st)) (ss_dispatchable st)).

(** * Quotas *)

(** A charge of type [rt] is counted against the quotas of [k]. *)
Abbreviation counted k rt := (k = AnyBalance ∨ rt = k).

Lemma charge_quota_lookup q rt k :
  charge_quota q rt !! k = (λ v, if decide (counted k rt) then (v - 1)%N else v) <$> q !! k.
Proof.
  unfold charge_quota. case_bool_decide as Hrt.
  - subst rt. rewrite lookup_alter. destruct (decide (AnyBalance = k)) as [<-|Hk].
    + destruct (q !! AnyBalance); cbn [fmap option_fmap option_map]; [|done]. by rewrite decide_True by auto.
    + destruct (q !! k); cbn [fmap option_fmap option_map]; [|done]. by rewrite decide_False by naive_solver.
  - rewrite !lookup_alter. destruct (decide (rt = k)) as [->|Hk].
    + rewrite decide_False by done. destruct (q !! k); cbn [fmap option_fmap option_map]; [|done].
      by rewrite decide_True by auto.
    + destruct (decide (AnyBalance = k)) as [<-|Ha].
      * destruct (q !! AnyBalance); cbn [fmap option_fmap option_map]; [|done]. by rewrite decide_True by auto.
      * destruct (q !! k); cbn [fmap option_fmap option_map]; [|done]. by rewrite decide_False by naive_solver.
Qed.

Lemma quota_not_exhausted q rt k v :
  quota_exhausted q rt = false → counted k rt → q !! k = Some v → (1 ≤ v)%N.
Proof.
  unfold quota_exhausted. intros Hq Hk Hv. reflect_bools.
  assert (v ≠ 0)%N; [|lia]. intros ->. destruct Hk; subst; done.
Qed.

(** A typed sequence of dispatches and how many of them count against [k]. *)
Abbreviation charges := (list (RebalanceType * TransitionRequest)).

Definition used (sel : TransitionRequest → bool) (k : RebalanceType) (L : charges) : N :=
  len (filter (λ e, sel e.2 = true ∧ counted k e.1) L).

(** The controller admits each dispatch before it is charged. *)
Fixpoint charge_run (c : ThrottleController) (L : charges) (c' : ThrottleController) : Prop :=
  match L with
  | [] => c' = c
  | (rt, t) :: L =>
      should_throttle c rt (tr_resource t) (tr_instance t) = false ∧
      charge_run (charge c rt (tr_resource t) (tr_instance t)) L c'
  end.

Lemma charge_run_app c L1 c1 L2 c2 :
  charge_run c L1 c1 → charge_run c1 L2 c2 → charge_run c (L1 ++ L2) c2.
Proof.
  revert c. induction L1 as [|[rt t] L1 IH]; intros c; simpl; [by intros ->|].
  intros [Hs Hr] H2. split; [done|]. by eapply IH.
Qed.

(** The quotas a dispatch is checked against, by scope. *)
Inductive scope_key := KCluster | KResource (r : ResourceId) | KInstance (i : InstanceId).

Definition scope_quota (c : ThrottleController) (s : scope_key) : option quotas :=
  match s with
  | KCluster => Some (tc_cluster c)
  | KResource r => tc_resources c !! r
  | KInstance i => tc_instances c !! i
  end.

Definition in_scope (s : scope_key) (t : TransitionRequest) : bool :=
  match s with
  | KCluster => true
  | KResource r => bool_decide (tr_resource t = r)
  | KInstance i => bool_decide (tr_instance t = i)
  end.

Lemma scope_quota_charge c rt t s :
  scope_quota (charge c rt (tr_resource t) (tr_instance t)) s =
  (λ q, if in_scope s t then charge_quota q rt else q) <$> scope_quota c s.
Proof.
  destruct s as [|r|i]; simpl; [done| |]; rewrite lookup_alter; case_decide as Hd; case_bool_decide;
    subst; try done; by destruct (_ !! _).
Qed.

Lemma scope_not_throttled c rt t s q :
  should_throttle c rt (tr_resource t) (tr_instance t) = false →
  in_scope s t = true → scope_quota c s = Some q → quota_exhausted q rt = false.
Proof.
  unfold should_throttle. intros Ht Hin Hq. reflect_bools.
  destruct s as [|r|i]; simpl in *; reflect_bools; subst; simplify_eq; [done|..].
  - by rewrite Hq in H1.
  - by rewrite Hq in H0.
Qed.

(** Dispatches stay within every quota in force. *)
Lemma charge_run_within c L c' s q k v :
  charge_run c L c' → scope_quota c s = Some q → q !! k = Some v →
  (used (in_scope s) k L ≤ v)%N ∧
  ∃ q', scope_quota c' s = Some q' ∧ q' !! k = Some (v - used (in_scope s) k L)%N.
Proof.
  revert c q v. induction L as [|[rt t] L IH]; intros c q v; simpl.
  { intros -> Hq Hv. unfold used, len. simpl. rewrite N.sub_0_r. split; [lia|eauto]. }
  intros [Hs Hr] Hq Hv.
  assert (scope_quota (charge c rt (tr_resource t) (tr_instance t)) s =
    Some (if in_scope s t then charge_quota q rt else q)) as Hq1
    by (by rewrite scope_quota_charge, Hq).
  unfold used. rewrite filter_cons. simpl.
  destruct (decide (in_scope s t = true ∧ counted k rt)) as [[Hin Hk]|Hno].
  - rewrite Hin in Hq1.
    assert (charge_quota q rt !! k = Some (v - 1)%N) as Hv1.
    { rewrite charge_quota_lookup, Hv. simpl. by rewrite decide_True. }
    pose proof (quota_not_exhausted q rt k v (scope_not_throttled c rt t s q Hs Hin Hq) Hk Hv).
    destruct (IH _ _ _ Hr Hq1 Hv1) as (Hle & q' & Hq' & Hv'). unfold used, len in *. simpl.
    split; [lia|]. exists q'. split; [done|]. rewrite Hv'. f_equal. lia.
  - assert ((if in_scope s t then charge_quota q rt else q) !! k = Some v) as Hv1.
    { destruct (in_scope s t); [|done]. rewrite charge_quota_lookup, Hv. simpl.
      by rewrite decide_False by naive_solver. }
    exact (IH _ _ _ Hr Hq1 Hv1).
Qed.

(** * The dispatch loop *)

(** One more replica moved. *)
Definition move (m : replica_map) (t : TransitionRequest) : replica_map :=
  rput m (tr_partition t) (tr_instance t) (target_state t).

(** The loop over messages as a relation: [L] are the admitted ones, with the
    type each was charged as; [req] are the required states of a partition. *)
Inductive dispatched (r : ResourceId) (pending : option (list OperationalPendingTransition))
    (req : PartitionId → gmap State N)
  : list TransitionRequest → DispatchState → charges → DispatchState → Prop :=
| dp_nil st : dispatched r pending req [] st [] st
| dp_pending t ms st L st' :
    pending_by_resource_matches pending t = true →
    dispatched r pending req ms st L st' → dispatched r pending req (t :: ms) st L st'
| dp_throttled t ms st rt L st' :
    pending_by_resource_matches pending t = false →
    rt = rebalance_type (req (tr_partition t)) (ds_derived st) t →
    should_throttle (ds_controller st) rt r (tr_instance t) = true →
    dispatched r pending req ms st L st' → dispatched r pending req (t :: ms) st L st'
| dp_take t ms st rt L st' :
    pending_by_resource_matches pending t = false →
    rt = rebalance_type (req (tr_partition t)) (ds_derived st) t →
    should_throttle (ds_controller st) rt r (tr_instance t) = false →
    dispatched r pending req ms
      (MkDispatchState (charge (ds_controller st) rt r (tr_instance t)) (move (ds_derived st) t)
         (ds_dispatchable st ++ [t])) L st' →
    dispatched r pending req (t :: ms) st ((rt, t) :: L) st'.

Lemma dispatched_app r pending req ms1 st L1 st1 ms2 L2 st2 :
  dispatched r pending req ms1 st L1 st1 → dispatched r pending req ms2 st1 L2 st2 →
  dispatched r pending req (ms1 ++ ms2) st (L1 ++ L2) st2.
Proof. induction 1; intros; simpl; eauto using dispatched. Qed.

Lemma dispatch_messages_run resource pending req p ms st :
  Forall (λ t, tr_partition t = p) ms →
  ∃ L, dispatched (ri_resource resource) pending req ms st L
         (foldl (dispatch_message resource pending (req p)) st ms).
Proof.
  intros Hall. revert st. induction Hall as [|t ms Ht Hall IH]; intros st; [exists []; constructor|].
  cbn [foldl]. unfold dispatch_message at 2.
  destruct (pending_by_resource_matches pending t) eqn:Hp.
  { destruct (IH st) as [L HL]. exists L. by constructor. }
  set (rt := rebalance_type (req p) (ds_derived st) t).
  destruct (should_throttle (ds_controller st) rt (ri_resource resource) (tr_instance t)) eqn:Hs.
  - destruct (IH st) as [L HL]. exists L. eapply (dp_throttled _ _ _ t ms st rt); [done| |done..].
    by rewrite Ht.
  - edestruct IH as [L HL]. exists ((rt, t) :: L). eapply dp_take; [done| |done|exact HL].
    by rewrite Ht.
Qed.

(** The messages of a resource in the order they are considered. *)
Definition message_order (resource : ResourceTransitionInput) (sm : StateModelDefinition)
  : list TransitionRequest :=
  let selected := ri_selected_transitions resource in
  sort_by (partition_priority resource (highest_priority_state sm))
    (map_keys (group_by tr_partition selected))
  ≫= λ p, sort_by (message_priority resource sm) (filter (λ t, tr_partition t = p) selected).

Lemma dispatch_partitions_run resource pending live sm ps st :
  let selected := ri_selected_transitions resource in
  ∃ L, dispatched (ri_resource resource) pending (λ p, required_states resource p live sm)
         (ps ≫= λ p, sort_by (message_priority resource sm)
                       (filter (λ t, tr_partition t = p) selected)) st L
         (foldl (dispatch_partition resource pending live sm (group_by tr_partition selected)) st ps).
Proof.
  intros selected. revert st. induction ps as [|p ps IH]; intros st; [exists []; constructor|].
  cbn [foldl]. rewrite bind_cons.
  assert (∃ L, dispatched (ri_resource resource) pending (λ p, required_states resource p live sm)
      (sort_by (message_priority resource sm) (filter (λ t, tr_partition t = p) selected)) st L
      (dispatch_partition resource pending live sm (group_by tr_partition selected) st p)) as [L1 H1].
  { unfold dispatch_partition. rewrite group_by_lookup.
    assert (Forall (λ t, tr_partition t = p) (sort_by (message_priority resource sm)
              (filter (λ t, tr_partition t = p) selected))) as Hall.
    { apply Forall_forall. intros t. unfold sort_by. rewrite elem_of_stable_sort.
      by intros [? _]%list_elem_of_filter. }
    destruct (filter (λ t, tr_partition t = p) selected) as [|t l] eqn:Hf.
    - exists []. constructor.
    - by apply (dispatch_messages_run resource pending (λ p, required_states resource p live sm) p). }
  destruct (IH (dispatch_partition resource pending live sm (group_by tr_partition selected) st p))
    as [L2 H2].
  exists (L1 ++ L2). by eapply dispatched_app.
Qed.

Lemma message_order_perm resource sm :
  message_order resource sm ≡ₚ ri_selected_transitions resource.
Proof.
  unfold message_order. set (selected := ri_selected_transitions resource).
  assert (∀ ps : list PartitionId,
    (ps ≫= λ p, sort_by (message_priority resource sm) (filter (λ t, tr_partition t = p) selected))
    ≡ₚ (ps ≫= λ p, filter (λ t, tr_partition t = p) selected)) as Hperm.
  { induction ps as [|p ps IH]; [done|]. rewrite !bind_cons, IH. apply Permutation_app_tail.
    apply stable_sort_perm. }
  rewrite Hperm. apply group_concat_perm.
  - unfold sort_by. rewrite NoDup_stable_sort. apply NoDup_map_keys.
  - intros t Ht. unfold sort_by. rewrite elem_of_stable_sort, elem_of_map_keys.
    apply not_eq_None_Some. rewrite group_by_None. intros Hno. by destruct (Hno t Ht).
Qed.

Section dispatched_facts.
Context (r : ResourceId) (pending : option (list OperationalPendingTransition)).
Context (req : PartitionId → gmap State N).

Lemma dispatched_list ms st L st' :
  dispatched r pending req ms st L st' → ds_dispatchable st' = ds_dispatchable st ++ L.*2.
Proof.
  induction 1; simpl; [by rewrite app_nil_r|done|done|].
  rewrite IHdispatched. simpl. by rewrite <-app_assoc.
Qed.

Lemma dispatched_sub ms st L st' :
  dispatched r pending req ms st L st' → sublist L.*2 ms.
Proof. induction 1; simpl; by constructor. Qed.

Lemma dispatched_not_pending ms st L st' t :
  dispatched r pending req ms st L st' → t ∈ L.*2 → pending_by_resource_matches pending t = false.
Proof.
  induction 1; simpl; [by intros ?%elem_of_nil|done|done|].
  intros [->|?]%elem_of_cons; auto.
Qed.

Lemma dispatched_charge ms st L st' :
  Forall (λ t, tr_resource t = r) ms →
  dispatched r pending req ms st L st' → charge_run (ds_controller st) L (ds_controller st').
Proof.
  intros Hall. induction 1 as [| | |t ms st rt L st' ? ? Ht ? IH]; simpl; auto;
    apply Forall_cons in Hall as [Hr Hall]; auto.
  rewrite Hr. split; [done|]. by apply IH.
Qed.

Lemma dispatched_derived ms st L st' p i :
  dispatched r pending req ms st L st' →
  (∀ t, t ∈ L.*2 → (tr_partition t, tr_instance t) ≠ (p, i)) →
  rget (ds_derived st') p i = rget (ds_derived st) p i.
Proof.
  induction 1 as [| | |t ms st rt L st' ? ? ? ? IH]; intros Hno; auto.
  rewrite IH; [|intros u Hu; apply Hno; simpl; by right].
  apply rget_rput_ne. apply Hno. simpl. left.
Qed.

(** Nothing is throttled while no quota is configured. *)
Definition unlimited (c : ThrottleController) : Prop :=
  ∀ s q, scope_quota c s = Some q → q = ∅.

Lemma unlimited_charge c rt r' i : unlimited c → unlimited (charge c rt r' i).
Proof.
  intros Hc s q Hq.
  assert (∃ q0, scope_quota c s = Some q0 ∧ (q = q0 ∨ q = charge_quota q0 rt)) as (q0 & H0 & Hor).
  { destruct s as [|r0|i0]; simpl in *.
    - simplify_eq. eauto.
    - rewrite lookup_alter in Hq. case_decide; [subst|eauto].
      apply fmap_Some in Hq as (q0 & ? & ->). eauto.
    - rewrite lookup_alter in Hq. case_decide; [subst|eauto].
      apply fmap_Some in Hq as (q0 & ? & ->). eauto. }
  specialize (Hc s q0 H0). subst q0. destruct Hor as [->| ->]; [done|].
  apply map_eq. intros k. rewrite charge_quota_lookup, !lookup_empty. done.
Qed.

Lemma unlimited_free c rt r' i : unlimited c → should_throttle c rt r' i = false.
Proof.
  intros Hc. unfold should_throttle.
  assert (∀ s q, scope_quota c s = Some q → quota_exhausted q rt = false) as Hfree.
  { intros s q ->%Hc. unfold quota_exhausted. by rewrite !lookup_empty. }
  rewrite (Hfree KCluster) by done. simpl.
  destruct (tc_resources c !! r') eqn:Hr; [rewrite (Hfree (KResource r')) by done|];
    (destruct (tc_instances c !! i) eqn:Hi; [by rewrite (Hfree (KInstance i))|done]).
Qed.

Lemma dispatched_unlimited ms st L st' :
  unlimited (ds_controller st) → dispatched r pending req ms st L st' →
  L.*2 = filter (λ t, pending_by_resource_matches pending t = false) ms ∧
  unlimited (ds_controller st').
Proof.
  intros Hu. induction 1 as [|t ms st L st' Hp _ IH|t ms st rt L st' Hp Hrt Ht _ IH
    |t ms st rt L st' Hp Hrt Ht _ IH]; [done|..].
  - rewrite filter_cons_False by congruence. auto.
  - by rewrite unlimited_free in Ht.
  - rewrite filter_cons_True by done. destruct IH as [IH ?]; [by apply unlimited_charge|].
    split; [|done]. by rewrite fmap_cons, IH.
Qed.

(** Each dispatch was charged as the type it has after the earlier ones. *)
Lemma dispatched_types ms st L st' L1 rt t L2 :
  dispatched r pending req ms st L st' → L = L1 ++ (rt, t) :: L2 →
  rt = rebalance_type (req (tr_partition t)) (foldl move (ds_derived st) L1.*2) t.
Proof.
  intros Hd. revert L1. induction Hd as [st| | |u ms st rt' L st' ? Hrt ? ? IH]; intros L1 HL; auto.
  - by destruct L1.
  - destruct L1 as [|[rt0 u0] L1]; simplify_eq/=; [done|]. by apply (IH L1).
Qed.
End dispatched_facts.

(** * One resource *)

(** What a replica that moves to [s] shows afterwards. *)
Definition settled (dropped : option State) (s : State) : option State :=
  if bool_decide (Some s = dropped) then None else Some s.

Lemma rget_settle d m p i s q j :
  rget (settle d m p i s) q j = if decide (p = q ∧ i = j) then settled d s else rget m q j.
Proof.
  unfold settle, settled. case_bool_decide; [|apply rget_rput].
  unfold rget. rewrite lookup_alter. destruct (decide (p = q)) as [->|Hp].
  - destruct (m !! q) as [insts|]; simpl; [|by case_decide].
    destruct (decide (i = j)) as [->|Hi].
    + rewrite lookup_delete_eq. by rewrite decide_True.
    + rewrite lookup_delete_ne by done. by rewrite decide_False by naive_solver.
  - by rewrite decide_False by naive_solver.
Qed.

Lemma foldl_settle {X} d (fp : X → PartitionId) (fi : X → InstanceId) (fs : X → State) l m q j :
  NoDup ((λ x, (fp x, fi x)) <$> l) →
  rget (foldl (λ m x, settle d m (fp x) (fi x) (fs x)) m l) q j =
  match find_first (λ x, bool_decide ((fp x, fi x) = (q, j))) l with
  | Some x => settled d (fs x)
  | None => rget m q j
  end.
Proof.
  revert m. induction l as [|x l IH]; intros m Hnd; [done|].
  apply NoDup_cons in Hnd as [Hx Hnd]. cbn [foldl]. rewrite IH by done.
  unfold find_first in *. cbn [List.find]. case_bool_decide as Heq.
  - destruct (List.find _ l) as [y|] eqn:Hf.
    + apply find_first_Some in Hf as [Hin Hb]. reflect_bools. destruct Hx. rewrite Heq, <-Hb.
      by apply (list_elem_of_fmap_2 (λ x, (fp x, fi x))).
    + rewrite rget_settle, decide_True by naive_solver. done.
  - destruct (List.find _ l); [done|]. rewrite rget_settle, decide_False by naive_solver. done.
Qed.

Lemma validate_selected_resource resource sm :
  validate_selected resource sm = Ok tt →
  Forall (λ t, tr_resource t = ri_resource resource) (ri_selected_transitions resource).
Proof.
  unfold validate_selected. rewrite try_fold_check. intros Hall. apply Forall_forall.
  intros t Ht. specialize (Hall t Ht). unfold validate_transition in Hall.
  by case_bool_decide.
Qed.

Section stage.
Context (live : gset InstanceId) (sm : StateModelDefinition).
Context (pbr : gmap ResourceId (list OperationalPendingTransition)) (dropped : option State).

(** The replica map published for a resource. *)
Definition published (resource : ResourceTransitionInput) (ds : DispatchState) : replica_map :=
  if bool_decide (ri_selected_transitions resource = [])
  then BestPossibleState_entries (ri_best_possible_state resource)
  else foldl (λ states t, settle dropped states (tr_partition t) (tr_instance t) (target_state t))
         (apply_pending (ds_derived ds) (pbr !! ri_resource resource) dropped)
         (filter (λ t, t ∈ ds_dispatchable ds) (ri_selected_transitions resource)).

Lemma process_resource_run st resource st' :
  process_resource live sm pbr dropped st resource = Ok st' →
  validate_selected resource sm = Ok tt ∧
  ∃ L ds, dispatched (ri_resource resource) (pbr !! ri_resource resource)
            (λ p, required_states resource p live sm) (message_order resource sm)
            (MkDispatchState (ss_controller st) (CurrentState_entries (ri_current_state resource))
               (ss_dispatchable st)) L ds ∧
    st' = MkStageState (ds_controller ds) (ds_dispatchable ds)
            (<[ri_resource resource := published resource ds]> (ss_intermediate st)).
Proof.
  unfold process_resource. intros H. inv_ok H. destruct a. split; [done|].
  unfold published. case_bool_decide as Hsel; injection H as <-.
  - exists [], (MkDispatchState (ss_controller st)
      (CurrentState_entries (ri_current_state resource)) (ss_dispatchable st)).
    split; [|done]. unfold message_order. rewrite Hsel. constructor.
  - destruct (dispatch_partitions_run resource (pbr !! ri_resource resource) live sm
      (sort_by (partition_priority resource (highest_priority_state sm))
         (map_keys (group_by tr_partition (ri_selected_transitions resource))))
      (MkDispatchState (ss_controller st) (CurrentState_entries (ri_current_state resource))
         (ss_dispatchable st))) as [L HL].
    eexists L, _. split; [exact HL|done].
Qed.

Lemma message_order_resource resource :
  validate_selected resource sm = Ok tt →
  Forall (λ t, tr_resource t = ri_resource resource) (message_order resource sm).
Proof. intros Hv. rewrite message_order_perm. by apply (validate_selected_resource resource sm). Qed.

(** Every dispatch is a selected transition of its resource, charged as the
    type it has once the earlier dispatches of that resource are made. *)
Definition classified (resources : list ResourceTransitionInput) (L : charges) : Prop :=
  ∀ L1 rt t L2, L = L1 ++ (rt, t) :: L2 →
    ∃ resource, resource ∈ resources ∧ ri_resource resource = tr_resource t ∧
      t ∈ ri_selected_transitions resource ∧
      rt = rebalance_type (required_states resource (tr_partition t) live sm)
             (foldl move (CurrentState_entries (ri_current_state resource))
                (filter (λ u, tr_resource u = tr_resource t) L1.*2)) t.

Lemma classified_cons resource rs pending st La ds Lb :
  validate_selected resource sm = Ok tt → ri_resource resource ∉ ri_resource <$> rs →
  dispatched (ri_resource resource) pending (λ p, required_states resource p live sm)
    (message_order resource sm) st La ds →
  ds_derived st = CurrentState_entries (ri_current_state resource) →
  classified rs Lb → classified (resource :: rs) (La ++ Lb).
Proof.
  intros Hv Hnot Hd Hst HLb L1 rt t L2 HL.
  pose proof (message_order_resource resource Hv) as Hall. rewrite Forall_forall in Hall.
  assert (∀ u, u ∈ La.*2 → u ∈ message_order resource sm) as Hsub.
  { intros u Hu. eapply elem_of_sublist; [done|]. by eapply dispatched_sub. }
  assert ((∃ k, La = L1 ++ (rt, t) :: k) ∨ (∃ k, L1 = La ++ k ∧ Lb = k ++ (rt, t) :: L2))
    as [(k & HLa)|(k & -> & HLb')].
  { apply app_eq_inv in HL as [(k & HLa & Hk)|(k & HL1 & HLb')]; [|right; eauto].
    destruct k as [|e k]; simplify_eq/=; [right|left; eauto].
    exists []. by rewrite !app_nil_r. }
  - assert (t ∈ La.*2) as Ht by (rewrite HLa, fmap_app; set_solver).
    exists resource. split_and!; [left|by rewrite (Hall t) by auto| |].
    + rewrite <-(message_order_perm resource sm). auto.
    + rewrite filter_all_id.
      * rewrite <-Hst. by apply (dispatched_types _ _ _ _ _ _ _ L1 rt t k Hd).
      * apply Forall_forall. intros u Hu. rewrite (Hall t), (Hall u) by (apply Hsub;
          rewrite ?HLa, ?fmap_app; set_solver). done.
  - destruct (HLb k rt t L2 HLb') as (res & Hin & Hr & Hsel & Hrt).
    exists res. split_and!; [by right|done|done|]. rewrite fmap_app, filter_app, (filter_none _ La.*2);
      [done|].
    apply Forall_forall. intros u Hu Heq. apply Hnot. rewrite <-(Hall u (Hsub u Hu)), Heq, <-Hr.
    by apply list_elem_of_fmap_2.
Qed.

(** The dispatches of the whole loop. *)
Lemma process_all_run resources st st' :
  NoDup (ri_resource <$> resources) →
  try_fold (process_resource live sm pbr dropped) st resources = Ok st' →
  ∃ L, classified resources L ∧ charge_run (ss_controller st) L (ss_controller st') ∧
    ss_dispatchable st' = ss_dispatchable st ++ L.*2 ∧
    L.*2 ⊆+ (resources ≫= ri_selected_transitions) ∧
    ∀ t, t ∈ L.*2 → pending_by_resource_matches (pbr !! tr_resource t) t = false.
Proof.
  revert st. induction resources as [|resource rs IH]; intros st Hnd Hrun; simpl in Hrun.
  { injection Hrun as <-. exists []. rewrite app_nil_r. split_and!; [intros L1 ? ? ? HL; by destruct L1|done..|].
    intros t Ht. by apply elem_of_nil in Ht. }
  apply NoDup_cons in Hnd as [Hnot Hnd].
  destruct (process_resource live sm pbr dropped st resource) as [st1|] eqn:Hp; [|done].
  apply process_resource_run in Hp as (Hv & L1 & ds & Hd & ->).
  destruct (IH _ Hnd Hrun) as (L2 & Hcl2 & Hc2 & Hl2 & Hsub2 & Hp2). simpl in Hc2, Hl2.
  pose proof (message_order_resource resource Hv) as Hall.
  exists (L1 ++ L2). rewrite fmap_app. split_and!.
  - by eapply classified_cons.
  - eapply charge_run_app; [|done]. by apply (dispatched_charge _ _ _ _ _ _ _ Hall Hd).
  - rewrite Hl2, (dispatched_list _ _ _ _ _ _ _ Hd). simpl. by rewrite app_assoc.
  - apply submseteq_app; [|done]. rewrite <-(message_order_perm resource sm).
    apply sublist_submseteq. by eapply dispatched_sub.
  - intros t [Ht|Ht]%elem_of_app; [|by apply Hp2].
    rewrite Forall_forall in Hall. rewrite (Hall t).
    + by eapply dispatched_not_pending.
    + eapply elem_of_sublist; [done|]. by eapply dispatched_sub.
Qed.

Lemma process_all_unlimited resources st st' :
  unlimited (ss_controller st) →
  try_fold (process_resource live sm pbr dropped) st resources = Ok st' →
  ss_dispatchable st' ≡ₚ ss_dispatchable st ++
    filter (λ t, pending_by_resource_matches (pbr !! tr_resource t) t = false)
      (resources ≫= ri_selected_transitions).
Proof.
  revert st. induction resources as [|resource rs IH]; intros st Hu Hrun; simpl in Hrun.
  { injection Hrun as <-. by rewrite app_nil_r. }
  destruct (process_resource live sm pbr dropped st resource) as [st1|] eqn:Hp; [|done].
  apply process_resource_run in Hp as (Hv & L1 & ds & Hd & ->).
  eapply dispatched_unlimited in Hd as HL; [|exact Hu]. destruct HL as [HL Hu1].
  rewrite (IH (MkStageState _ _ _) Hu1 Hrun). cbn [ss_dispatchable].
  rewrite (dispatched_list _ _ _ _ _ _ _ Hd), bind_cons, filter_app, HL. cbn [ds_dispatchable].
  rewrite <-app_assoc. apply Permutation_app_head, Permutation_app_tail.
  rewrite message_order_perm.
  pose proof (validate_selected_resource resource sm Hv) as Hall. rewrite Forall_forall in Hall.
  rewrite (filter_ext_in
    (λ t, pending_by_resource_matches (pbr !! tr_resource t) t = false)
    (λ t, pending_by_resource_matches (pbr !! ri_resource resource) t = false)); [done|].
  intros t Ht. by rewrite (Hall t Ht).
Qed.

(** What the published map says of one replica of a resource with selected
    transitions: a dispatched transition wins, then a pending one, then the
    current state. *)
Definition replica_after (resource : ResourceTransitionInput) (moved : list TransitionRequest)
    (p : PartitionId) (i : InstanceId) : option State :=
  match find_first (λ t, bool_decide ((tr_partition t, tr_instance t) = (p, i)))
          (filter (λ t, t ∈ moved) (ri_selected_transitions resource)) with
  | Some t => settled dropped (target_state t)
  | None =>
      match find_first (λ t, bool_decide ((op_partition t, op_instance t) = (p, i)))
              (default [] (pbr !! ri_resource resource)) with
      | Some t => settled dropped (op_target_state t)
      | None => CurrentState_state (ri_current_state resource) p i
      end
  end.

Lemma published_replica resource st L ds p i :
  ri_selected_transitions resource ≠ [] →
  Forall (λ t, tr_resource t = ri_resource resource) (ri_selected_transitions resource) →
  NoDup ((λ t, (tr_partition t, tr_instance t)) <$> ri_selected_transitions resource) →
  NoDup ((λ t, (op_partition t, op_instance t)) <$> default [] (pbr !! ri_resource resource)) →
  dispatched (ri_resource resource) (pbr !! ri_resource resource)
    (λ p, required_states resource p live sm) (message_order resource sm) st L ds →
  ds_derived st = CurrentState_entries (ri_current_state resource) →
  rget (published resource ds) p i = replica_after resource (ds_dispatchable ds) p i.
Proof.
  intros Hne Hres Hnd Hndp Hd Hst. unfold published, replica_after.
  rewrite bool_decide_false by done. rewrite foldl_settle.
  2: { eapply sublist_NoDup; [exact Hnd|]. apply fmap_sublist, sublist_filter. }
  destruct (find_first _ (filter _ _)) as [t|] eqn:Hf; [done|].
  assert (rget (ds_derived ds) p i = CurrentState_state (ri_current_state resource) p i) as Hbase.
  { rewrite (dispatched_derived _ _ _ _ _ _ _ p i Hd), Hst; [done|]. intros t Ht Heq.
    assert (t ∈ ds_dispatchable ds) as Hdis
      by (rewrite (dispatched_list _ _ _ _ _ _ _ Hd); set_solver).
    assert (t ∈ ri_selected_transitions resource) as Hsel.
    { rewrite <-(message_order_perm resource sm). eapply elem_of_sublist; [exact Ht|].
      by eapply dispatched_sub. }
    pose proof (find_first_None _ _ Hf t) as Hno. simpl in Hno.
    rewrite bool_decide_true in Hno by done. discriminate Hno. by apply list_elem_of_filter. }
  unfold apply_pending. destruct (pbr !! ri_resource resource) as [l|]; simpl in *; [|done].
  rewrite foldl_settle by done. by destruct (find_first _ l).
Qed.

(** Resources are published once each, with the dispatches up to then. *)
Lemma process_all_intermediate resources st st' :
  NoDup (ri_resource <$> resources) →
  try_fold (process_resource live sm pbr dropped) st resources = Ok st' →
  (∀ r, r ∉ ri_resource <$> resources → ss_intermediate st' !! r = ss_intermediate st !! r) ∧
  ∀ resource, resource ∈ resources →
    ∃ st0 L ds, dispatched (ri_resource resource) (pbr !! ri_resource resource)
            (λ p, required_states resource p live sm) (message_order resource sm) st0 L ds ∧
      ds_derived st0 = CurrentState_entries (ri_current_state resource) ∧
      validate_selected resource sm = Ok tt ∧
      ss_intermediate st' !! ri_resource resource = Some (published resource ds) ∧
      ∃ later, ss_dispatchable st' = ds_dispatchable ds ++ later ∧
        ∀ t, t ∈ later → tr_resource t ≠ ri_resource resource.
Proof.
  revert st. induction resources as [|resource rs IH]; intros st Hnd Hrun; simpl in Hrun.
  { injection Hrun as <-. split; [done|]. intros resource Hin. by apply elem_of_nil in Hin. }
  apply NoDup_cons in Hnd as [Hnot Hnd].
  destruct (process_resource live sm pbr dropped st resource) as [st1|] eqn:Hp; [|done].
  apply process_resource_run in Hp as (Hv & L1 & ds & Hd & ->).
  destruct (IH _ Hnd Hrun) as [Hother Hin].
  destruct (process_all_run rs _ _ Hnd Hrun) as (L2 & Hcl & _ & Hl2 & _). simpl in Hother, Hl2.
  split.
  - intros r Hr. rewrite fmap_cons, not_elem_of_cons in Hr. destruct Hr as [Hr1 Hr2].
    rewrite Hother by done. by apply lookup_insert_ne.
  - intros res [->|Hres]%elem_of_cons; [|by apply Hin].
    eexists _, L1, ds. split_and!; [exact Hd|done|done| |].
    + rewrite Hother by done. apply lookup_insert_eq.
    + exists L2.*2. split; [done|]. intros t Ht Heq.
      apply list_elem_of_fmap in Ht as ([rt u] & -> & Ht). apply list_elem_of_split in Ht as (La & Lb & HL).
      destruct (Hcl La rt u Lb HL) as (res & Hres & Hr & _). apply Hnot.
      simpl in Heq. rewrite <-Heq, <-Hr. by apply list_elem_of_fmap_2.
Qed.
End stage.

(** * The checks before the stage *)

Definition op_key (t : OperationalPendingTransition) : ResourceId * PartitionId * InstanceId :=
  (op_resource t, op_partition t, op_instance t).

Lemma index_resources_ok resources idx :
  try_fold index_resource ∅ (imap pair resources) = Ok idx →
  NoDup (ri_resource <$> resources) ∧ ∀ r, is_Some (idx !! r) ↔ r ∈ ri_resource <$> resources.
Proof.
  revert idx. induction resources as [|x l IH] using rev_ind; intros idx.
  { intros [= <-]. split; [constructor|]. intros r. rewrite lookup_empty.
    split; [by intros []|by intros ?%elem_of_nil]. }
  rewrite imap_app, try_fold_app. destruct (try_fold _ _ (imap pair l)) as [idx0|]; [|done].
  destruct (IH idx0 eq_refl) as [Hnd Hidx]. simpl.
  destruct (idx0 !! ri_resource x) eqn:Hx; [done|]. intros [= <-]. rewrite fmap_app. split.
  - apply NoDup_app. split_and!; [done| |apply NoDup_singleton].
    intros r Hr ->%list_elem_of_singleton. apply Hidx in Hr. rewrite Hx in Hr. by destruct Hr.
  - intros r. rewrite elem_of_app, <-Hidx, list_fmap_singleton, list_elem_of_singleton.
    destruct (decide (ri_resource x = r)) as [->|Hne].
    + rewrite lookup_insert_eq. naive_solver.
    + rewrite lookup_insert_ne by done. naive_solver.
Qed.

Lemma group_operational_ok pending g keys :
  try_fold group_operational (∅, ∅) pending = Ok (g, keys) →
  g = group_by op_resource pending ∧ keys = list_to_set (op_key <$> pending) ∧
  NoDup (op_key <$> pending).
Proof.
  revert g keys. induction pending as [|t l IH] using rev_ind; intros g keys.
  { intros [= <- <-]. split_and!; [done..|constructor]. }
  rewrite try_fold_app. destruct (try_fold _ _ l) as [[g0 k0]|]; [|done].
  destruct (IH g0 k0 eq_refl) as (-> & -> & Hnd). simpl. case_bool_decide as Hk; [done|].
  intros [= <- <-]. rewrite elem_of_list_to_set in Hk. split_and!.
  - unfold group_by. by rewrite foldl_snoc.
  - rewrite fmap_app, list_to_set_app_L. simpl. by rewrite (right_id_L ∅ (∪)), (comm_L (∪) {[_]}).
  - rewrite fmap_app. apply NoDup_app. split_and!; [done| |apply NoDup_singleton].
    intros x Hx ->%list_elem_of_singleton. done.
Qed.

(** The controller the dispatch loop starts from. *)
Definition stage_controller (resources : list ResourceTransitionInput) (live : gset InstanceId)
    (pending : list OperationalPendingTransition) (configs : list StateTransitionThrottleConfig)
    (sm : StateModelDefinition) : ThrottleController :=
  charge_all_pending resources live sm (group_by op_resource pending)
    (ThrottleController_new resources live configs).

Lemma compute_run resources live pending configs sm res :
  compute_intermediate_and_throttle resources live pending configs sm = Ok res →
  NoDup (ri_resource <$> resources) ∧ NoDup (op_key <$> pending) ∧
  ∃ st, try_fold (process_resource live sm (group_by op_resource pending)
                    (find_first is_dropped (states_by_priority sm)))
          (MkStageState (stage_controller resources live pending configs sm) [] ∅) resources = Ok st ∧
    im_states (intermediate_state res) = ss_intermediate st ∧
    dispatchable_transitions res = ss_dispatchable st.
Proof.
  unfold compute_intermediate_and_throttle. intros H. inv_ok H.
  apply index_resources_ok in Hok as [Hnd _]. destruct a1 as [g keys].
  apply group_operational_ok in Hok1 as (-> & _ & Hndp). inv_ok H. injection H as <-.
  split_and!; [done..|]. eauto.
Qed.

(** * Configured quotas *)

(** The configuration sets a quota at this scope. *)
Definition applies (s : scope_key) (cfg : StateTransitionThrottleConfig) : bool :=
  match s, cfg_scope cfg, cfg_target cfg with
  | KCluster, ScopeCluster, _ => true
  | KResource r, ScopeResource, Some (TargetResource r') => bool_decide (r' = r)
  | KResource _, ScopeResource, _ => true
  | KInstance i, ScopeInstance, Some (TargetInstance i') => bool_decide (i' = i)
  | KInstance _, ScopeInstance, _ => true
  | _, _, _ => false
  end.

(** The last configuration for a scope and type is the one in force. *)
Definition effective_quota (configs : list StateTransitionThrottleConfig) (s : scope_key)
    (k : RebalanceType) : option N :=
  cfg_max_transitions <$>
    last (filter (λ cfg, applies s cfg = true ∧ cfg_rebalance_type cfg = k) configs).

Definition known_scope (resources : list ResourceTransitionInput) (live : gset InstanceId)
    (s : scope_key) : Prop :=
  match s with
  | KCluster => True
  | KResource r => r ∈ ri_resource <$> resources
  | KInstance i => i ∈ live
  end.

Lemma add_config_quota c cfg s :
  scope_quota (add_config c cfg) s =
  (λ q, if applies s cfg then <[cfg_rebalance_type cfg := cfg_max_transitions cfg]> q else q)
    <$> scope_quota c s.
Proof.
  destruct cfg as [rt [] max tgt], s as [|r|i]; simpl; try done;
    try (by destruct (_ !! _)); destruct tgt as [[r'|i']|]; simpl;
    rewrite ?lookup_fmap; try done; rewrite lookup_alter; case_decide; case_bool_decide; subst;
    try done; by destruct (_ !! _).
Qed.

Lemma configured_quota c configs s q :
  scope_quota c s = Some q →
  ∃ q', scope_quota (foldl add_config c configs) s = Some q' ∧
    ∀ k, q' !! k = match effective_quota configs s k with Some v => Some v | None => q !! k end.
Proof.
  intros Hq. induction configs as [|cfg l IH] using rev_ind; [exists q; done|].
  destruct IH as (q1 & Hq1 & Hk1). rewrite foldl_snoc, add_config_quota, Hq1. eexists.
  split; [done|]. intros k. unfold effective_quota in *. rewrite filter_app, filter_cons, filter_nil.
  specialize (Hk1 k). destruct (applies s cfg).
  - destruct (decide (cfg_rebalance_type cfg = k)) as [<-|Hne].
    + rewrite lookup_insert_eq, decide_True by done. by rewrite last_snoc.
    + rewrite lookup_insert_ne, decide_False by naive_solver. by rewrite app_nil_r.
  - rewrite decide_False by naive_solver. by rewrite app_nil_r.
Qed.

Lemma or_default_lookup {X K} `{Countable K} (f : X → K) (l : list X) (m : gmap K quotas) k :
  (k ∈ f <$> l ∨ m !! k = Some ∅) → (∀ q, m !! k = Some q → q = ∅) →
  foldl (λ m x, <[f x := default ∅ (m !! f x)]> m) m l !! k = Some ∅.
Proof.
  revert m. induction l as [|x l IH]; intros m Hin Hemp; simpl; [by destruct Hin as [?%elem_of_nil|]|].
  apply IH.
  - destruct (decide (f x = k)) as [<-|Hne].
    + right. rewrite lookup_insert_eq. f_equal.
      destruct (m !! f x) as [q|] eqn:Hq; [by apply Hemp|done].
    + rewrite lookup_insert_ne by done. destruct Hin as [Hin|Hin]; [|by right].
      simpl in Hin. apply elem_of_cons in Hin as [?|?]; [done|by left].
  - intros q. destruct (decide (f x = k)) as [<-|Hne].
    + rewrite lookup_insert_eq. intros [= <-].
      destruct (m !! f x) as [q|] eqn:Hq; [by apply Hemp|done].
    + rewrite lookup_insert_ne by done. apply Hemp.
Qed.

Lemma new_quota resources live configs s :
  known_scope resources live s →
  ∃ q, scope_quota (ThrottleController_new resources live configs) s = Some q ∧
       ∀ k, q !! k = effective_quota configs s k.
Proof.
  intros Hs. unfold ThrottleController_new. set (c := MkThrottleController _ _ _).
  assert (scope_quota c s = Some ∅) as Hc.
  { destruct s as [|r|i]; simpl in *; [done|..].
    - apply (or_default_lookup ri_resource); [by left|]. by intros q.
    - apply (or_default_lookup (λ i, i)); [left; rewrite list_fmap_id; by apply elem_of_set_items|].
      by intros q. }
  destruct (configured_quota c configs s ∅ Hc) as (q & Hq & Hk). exists q. split; [done|].
  intros k. rewrite Hk, lookup_empty. by destruct (effective_quota configs s k).
Qed.

(** Charging pending work only lowers quotas. *)
Definition lowered (c c' : ThrottleController) : Prop :=
  ∀ s q k v, scope_quota c s = Some q → q !! k = Some v →
    ∃ q' v', scope_quota c' s = Some q' ∧ q' !! k = Some v' ∧ (v' ≤ v)%N.

#[export] Instance lowered_preorder : PreOrder lowered.
Proof.
  split.
  - intros c s q k v Hq Hv. eauto.
  - intros c1 c2 c3 H12 H23 s q k v Hq Hv. destruct (H12 s q k v Hq Hv) as (q2 & v2 & ? & ? & ?).
    destruct (H23 s q2 k v2) as (q3 & v3 & ? & ? & ?); [done..|].
    exists q3, v3. split_and!; [done..|lia].
Qed.

Lemma lowered_charge c rt r i : lowered c (charge c rt r i).
Proof.
  intros s q k v Hq Hv.
  pose proof (scope_quota_charge c rt
    (MkTransitionRequest r (MkPartitionId "") i (MkState "") (MkState "")) s) as Hc.
  simpl in Hc. rewrite Hc, Hq. cbn [fmap option_fmap option_map].
  destruct (in_scope _ _); [|eauto]. eexists _, _. split; [done|].
  rewrite charge_quota_lookup, Hv. cbn [fmap option_fmap option_map]. split; [done|].
  case_decide; lia.
Qed.

Lemma lowered_foldl {X} (f : ThrottleController → X → ThrottleController) l c :
  (∀ c x, lowered c (f c x)) → lowered c (foldl f c l).
Proof.
  intros Hf. revert c. induction l as [|x l IH]; intros c; simpl; [reflexivity|].
  etrans; [apply Hf|apply IH].
Qed.

Lemma stage_controller_lowered resources live pending configs sm :
  lowered (ThrottleController_new resources live configs)
    (stage_controller resources live pending configs sm).
Proof.
  apply lowered_foldl. intros c resource. apply lowered_foldl. intros c' [p ts].
  apply lowered_foldl. intros c'' t. unfold charge_pending_one.
  destruct (_ || _); [reflexivity|apply lowered_charge].
Qed.

(** ** Properties *)

(** C31: Throttling never exceeds a quota: for every configured cluster,
    resource or instance quota (the last one for its scope and type), the
    dispatched transitions in that scope that count as that type, each
    classified against the states required and the moves already made, number
    at most the quota; and only selected transitions that are not already
    pending are dispatched, none more often than selected. *)
Theorem throttle_within_quotas resources live pending configs sm res :
  compute_intermediate_and_throttle resources live pending configs sm = Ok res →
  ∃ L, L.*2 = dispatchable_transitions res ∧ classified live sm resources L ∧
    L.*2 ⊆+ (resources ≫= ri_selected_transitions) ∧
    (∀ t, t ∈ L.*2 →
       pending_by_resource_matches (group_by op_resource pending !! tr_resource t) t = false) ∧
    ∀ s k v, known_scope resources live s → effective_quota configs s k = Some v →
      (used (in_scope s) k L ≤ v)%N.
Proof.
  intros (Hnd & _ & st & Hrun & _ & Hdis)%compute_run.
  destruct (process_all_run _ _ _ _ _ _ _ Hnd Hrun) as (L & Hcl & Hcr & Hl & Hsub & Hpend).
  simpl in Hl, Hcr. exists L. rewrite Hdis, Hl. split_and!; try done.
  intros s k v Hs Hv. destruct (new_quota resources live configs s Hs) as (q & Hq & Hqk).
  rewrite <-Hqk in Hv.
  destruct (stage_controller_lowered resources live pending configs sm s q k v Hq Hv)
    as (q' & v' & Hq' & Hv' & Hle).
  destruct (charge_run_within _ _ _ s q' k v' Hcr Hq' Hv') as [Hu _]. lia.
Qed.

Lemma unlimited_new resources live pending sm :
  unlimited (stage_controller resources live pending [] sm).
Proof.
  assert (∀ c, unlimited c → ∀ resource l, unlimited (charge_pending resource l live sm c)) as Hch.
  { intros c Hc resource l. unfold charge_pending. revert c Hc.
    induction (entries _) as [|[p ts] es IH]; intros c Hc; cbn [foldl]; [done|]. apply IH.
    revert c Hc. induction (sort_by _ ts) as [|t ts' IHt]; intros c Hc; cbn [foldl]; [done|].
    apply IHt. unfold charge_pending_one. destruct (_ || _); [done|by apply unlimited_charge]. }
  assert (unlimited (ThrottleController_new resources live [])) as Hnew.
  { assert (∀ {X K} `{Countable K} (f : X → K) (l : list X) (m : gmap K quotas),
      (∀ k q, m !! k = Some q → q = ∅) →
      ∀ k q, foldl (λ m x, <[f x := default ∅ (m !! f x)]> m) m l !! k = Some q → q = ∅) as Hod.
    { intros X K ?? f l. induction l as [|x l IH]; intros m Hm k q; simpl; [apply Hm|]. apply IH.
      intros k' q'. destruct (decide (f x = k')) as [<-|Hne].
      - rewrite lookup_insert_eq. intros [= <-]. destruct (m !! f x) eqn:Hx; [by eapply Hm|done].
      - rewrite lookup_insert_ne by done. apply Hm. }
    intros [|r|i] q Hq; simpl in Hq; [by simplify_eq|..].
    - by eapply (Hod _ _ _ _ ri_resource resources ∅).
    - by eapply (Hod _ _ _ _ (λ i, i) (set_items live) ∅). }
  unfold stage_controller, charge_all_pending. revert Hnew.
  generalize (ThrottleController_new resources live []) as c.
  assert (∀ rs c, unlimited c → unlimited (foldl (λ controller resource,
    charge_pending resource (default [] (group_by op_resource pending !! ri_resource resource))
      live sm controller) c rs)) as Hgen.
  { induction rs as [|r rs IH]; intros c Hc; cbn [foldl]; [done|]. by apply IH, Hch. }
  intros c. apply Hgen.
Qed.

(** Without throttle configurations nothing is held back: the dispatched
    transitions are exactly the selected ones that are not already pending. *)
Theorem unthrottled_dispatches_all resources live pending sm res :
  compute_intermediate_and_throttle resources live pending [] sm = Ok res →
  dispatchable_transitions res ≡ₚ
    filter (λ t, pending_by_resource_matches (group_by op_resource pending !! tr_resource t) t = false)
      (resources ≫= ri_selected_transitions).
Proof.
  intros (_ & _ & st & Hrun & _ & ->)%compute_run.
  by apply process_all_unlimited in Hrun; [|apply unlimited_new].
Qed.

Lemma pending_keys_nodup pending r :
  NoDup (op_key <$> pending) →
  NoDup ((λ t, (op_partition t, op_instance t)) <$> default [] (group_by op_resource pending !! r)).
Proof.
  intros Hnd. rewrite group_by_lookup.
  assert (∀ l, l = filter (λ t, op_resource t = r) pending →
    NoDup ((λ t, (op_partition t, op_instance t)) <$> l)) as Hl.
  { intros l ->. induction pending as [|t pending IH]; [constructor|].
    rewrite fmap_cons in Hnd. apply NoDup_cons in Hnd as [Ht Hnd]. rewrite filter_cons.
    case_decide as Hr; [|by apply IH]. rewrite fmap_cons. constructor; [|by apply IH].
    intros (u & Heq & Hu)%list_elem_of_fmap. apply list_elem_of_filter in Hu as [Hur Hu].
    apply Ht. apply list_elem_of_fmap. exists u. split; [|done]. unfold op_key.
    injection Heq as -> ->. by rewrite Hur, Hr. }
  specialize (Hl _ eq_refl). by destruct (filter _ pending).
Qed.

(** The intermediate state is the current state after the transitions in
    flight: a resource with nothing selected publishes its best-possible state;
    otherwise each replica shows the target of its dispatched transition, else
    of its pending one, else its current state, and a replica on its way to
    DROPPED is removed. *)
Theorem intermediate_exact resources live pending configs sm res resource :
  compute_intermediate_and_throttle resources live pending configs sm = Ok res →
  resource ∈ resources →
  NoDup ((λ t, (tr_partition t, tr_instance t)) <$> ri_selected_transitions resource) →
  if bool_decide (ri_selected_transitions resource = [])
  then im_states (intermediate_state res) !! ri_resource resource =
         Some (BestPossibleState_entries (ri_best_possible_state resource))
  else ∀ p i, IntermediateState_state (intermediate_state res) (ri_resource resource) p i =
         replica_after (group_by op_resource pending)
           (find_first is_dropped (states_by_priority sm)) resource
           (dispatchable_transitions res) p i.
Proof.
  intros (Hnd & Hndp & st & Hrun & Him & Hdis)%compute_run Hin Hsel.
  destruct (process_all_intermediate _ _ _ _ _ _ _ Hnd Hrun) as [_ Hpub].
  destruct (Hpub resource Hin) as (st0 & L & ds & Hd & Hst & Hv & Hs & later & Hl & Hlater).
  case_bool_decide as Hne.
  { rewrite Him, Hs. unfold published. by rewrite bool_decide_true. }
  intros p i. unfold IntermediateState_state. rewrite Him, Hs. simpl.
  change (rget (published (group_by op_resource pending)
    (find_first is_dropped (states_by_priority sm)) resource ds) p i =
    replica_after (group_by op_resource pending) (find_first is_dropped (states_by_priority sm))
      resource (dispatchable_transitions res) p i).
  pose proof (validate_selected_resource resource sm Hv) as Hres.
  rewrite (published_replica live sm (group_by op_resource pending)
    (find_first is_dropped (states_by_priority sm)) resource st0 L ds p i) by
    (done || by apply pending_keys_nodup).
  unfold replica_after. rewrite Hdis, Hl. rewrite Forall_forall in Hres.
  rewrite (filter_ext_in (λ t, t ∈ ds_dispatchable ds) (λ t, t ∈ ds_dispatchable ds ++ later)); [done|].
  intros t Ht. rewrite elem_of_app. split; [auto|]. intros [?|Hlt]; [done|].
  by destruct (Hlater t Hlt), (Hres t Ht).
Qed.

(** ** Witnesses *)

Definition th_resource : ResourceId := MkResourceId "documents".
Definition th_p (n : string) : PartitionId := MkPartitionId n.
Definition th_promote (p : string) : TransitionRequest :=
  MkTransitionRequest th_resource (th_p p) (MkInstanceId "node-a") OFFLINE STANDBY.

(** Two partitions want to move on one node that takes one transition at a time. *)
Definition th_input : ResourceTransitionInput :=
  MkResourceInput th_resource 1 None
    {[th_p "p0" := [MkInstanceId "node-a"]; th_p "p1" := [MkInstanceId "node-a"]]}
    (current_of {[th_p "p0" := {[MkInstanceId "node-a" := OFFLINE]};
                  th_p "p1" := {[MkInstanceId "node-a" := OFFLINE]}]})
    (MkBestPossibleState (MkReplicaStates
      {[th_p "p0" := {[MkInstanceId "node-a" := STANDBY]};
        th_p "p1" := {[MkInstanceId "node-a" := STANDBY]}]}))
    [th_promote "p0"; th_promote "p1"].

Definition th_live : gset InstanceId := {[MkInstanceId "node-a"]}.

Definition th_configs : list StateTransitionThrottleConfig :=
  [ThrottleConfig_for_instance AnyBalance (MkInstanceId "node-a") 1].

Definition th_result (configs : list StateTransitionThrottleConfig) : IntermediateThrottleResult :=
  match compute_intermediate_and_throttle [th_input] th_live [] configs leader_standby with
  | Ok res => res
  | Err _ => MkThrottleResult (MkIntermediateState ∅) []
  end.

Lemma th_run :
  compute_intermediate_and_throttle [th_input] th_live [] th_configs leader_standby =
  Ok (th_result th_configs).
Proof. vm_compute. reflexivity. Qed.

Lemma th_run_free :
  compute_intermediate_and_throttle [th_input] th_live [] [] leader_standby = Ok (th_result []).
Proof. vm_compute. reflexivity. Qed.

Lemma throttle_within_quotas_witness :
  (∃ L, L.*2 = dispatchable_transitions (th_result th_configs) ∧
     (used (in_scope (KInstance (MkInstanceId "node-a"))) AnyBalance L ≤ 1)%N) ∧
  dispatchable_transitions (th_result th_configs) = [th_promote "p0"].
Proof.
  split; [|vm_compute; reflexivity].
  destruct (throttle_within_quotas [th_input] th_live [] th_configs leader_standby
    (th_result th_configs) th_run) as (L & HL & _ & _ & _ & Hq).
  exists L. split; [exact HL|]. apply Hq.
  - unfold th_live. apply elem_of_singleton. reflexivity.
  - vm_compute. reflexivity.
Defined.

Lemma unthrottled_dispatches_all_witness :
  dispatchable_transitions (th_result []) ≡ₚ [th_promote "p0"; th_promote "p1"].
Proof.
  exact (unthrottled_dispatches_all [th_input] th_live [] leader_standby (th_result []) th_run_free).
Defined.

Lemma intermediate_exact_witness :
  IntermediateState_state (intermediate_state (th_result th_configs)) th_resource (th_p "p0")
    (MkInstanceId "node-a") = Some STANDBY ∧
  IntermediateState_state (intermediate_state (th_result th_configs)) th_resource (th_p "p1")
    (MkInstanceId "node-a") = Some OFFLINE.
Proof.
  assert (th_input ∈ [th_input]) as Hin by left.
  assert (NoDup ((λ t, (tr_partition t, tr_instance t)) <$> ri_selected_transitions th_input)) as Hnd
    by (apply (bool_decide_unpack _); vm_compute; exact I).
  pose proof (intermediate_exact [th_input] th_live [] th_configs leader_standby
    (th_result th_configs) th_input th_run Hin Hnd) as H.
  split; [exact (eq_trans (H (th_p "p0") (MkInstanceId "node-a")) ltac:(vm_compute; reflexivity))|
          exact (eq_trans (H (th_p "p1") (MkInstanceId "node-a")) ltac:(vm_compute; reflexivity))].
Defined.
