(* ===== verification/JavaHash.v ===== *)
(** * Java-compatible hashing

    Models the helper functions at the end of [src/rebalance/crush.rs]: Java's
    string hash and [HashMap] geometry, the first word of SHA-1, and the Jenkins
    mixing functions of CRUSH.

    [u32] and [u64] values are kept in [Z] with the wrap-around written out;
    [as i32 as i64] is [signed32], and [as u64 & HASH_MASK] of an [i64] is the
    two's-complement [Z.land].  A Rust string is its UTF-8 bytes. *)

From S2P Require Import Prelude.

Open Scope Z_scope.

Definition HASH_MASK : Z := 4294967295.
Definition CRUSH_HASH_SEED : Z := 1315423911.

Definition wrap32 (x : Z) : Z := Z.land x HASH_MASK.

(** [x as i32 as i64] of a [u32] *)
Definition signed32 (x : Z) : Z := if x <? 2147483648 then x else x - 4294967296.

Fixpoint bytes_of (s : string) : list Z :=
  match s with
  | EmptyString => []
  | String c s => Z.of_N (Ascii.N_of_ascii c) :: bytes_of s
  end.

(** [encode_utf16] on the UTF-8 bytes of a valid string. *)
Definition utf16_units (code_point : Z) : list Z :=
  if code_point <? 65536 then [code_point]
  else let c := code_point - 65536 in
       [55296 + Z.shiftr c 10; 56320 + Z.land c 1023].

Fixpoint encode_utf16 (bytes : list Z) : list Z :=
  match bytes with
  | [] => []
  | b0 :: r0 =>
      if b0 <? 128 then b0 :: encode_utf16 r0
      else if b0 <? 224 then
        match r0 with
        | b1 :: r1 =>
            utf16_units (Z.lor (Z.shiftl (Z.land b0 31) 6) (Z.land b1 63)) ++ encode_utf16 r1
        | [] => []
        end
      else if b0 <? 240 then
        match r0 with
        | b1 :: b2 :: r2 =>
            utf16_units (Z.lor (Z.shiftl (Z.land b0 15) 12)
              (Z.lor (Z.shiftl (Z.land b1 63) 6) (Z.land b2 63))) ++ encode_utf16 r2
        | _ => []
        end
      else
        match r0 with
        | b1 :: b2 :: b3 :: r3 =>
            utf16_units (Z.lor (Z.shiftl (Z.land b0 7) 18)
              (Z.lor (Z.shiftl (Z.land b1 63) 12)
                (Z.lor (Z.shiftl (Z.land b2 63) 6) (Z.land b3 63)))) ++ encode_utf16 r3
        | _ => []
        end
  end.

Definition java_string_hash (value : string) : Z :=
  foldl (λ hash code_unit, wrap32 (wrap32 (hash * 31) + code_unit)) 0
    (encode_utf16 (bytes_of value)).

(** The [while] loop doubles at most to the [u32] width. *)
Fixpoint grow_capacity (fuel : nat) (entries capacity : Z) : Z :=
  match fuel with
  | O => capacity
  | S fuel =>
      if capacity * 3 / 4 <? entries then grow_capacity fuel entries (capacity * 2) else capacity
  end.

Definition java_hash_map_capacity (entries : Z) : Z := grow_capacity 28 entries 16.

Definition java_hash_map_bucket (name : string) (capacity : Z) : Z :=
  let hash := java_string_hash name in
  Z.land (Z.lxor hash (Z.shiftr hash 16)) (capacity - 1).

(** ** SHA-1 *)

Definition rotate_left (x n : Z) : Z := wrap32 (Z.lor (Z.shiftl x n) (Z.shiftr x (32 - n))).

(** [while message.len() % 64 != 56 { message.push(0) }] *)
Fixpoint push_zeros (fuel : nat) (message : list Z) : list Z :=
  match fuel with
  | O => message
  | S fuel =>
      if bool_decide (Z.of_nat (length message) mod 64 = 56) then message
      else push_zeros fuel (message ++ [0])
  end.

Definition to_be_bytes (x : Z) : list Z :=
  (λ k, Z.land (Z.shiftr x k) 255) <$> [56; 48; 40; 32; 24; 16; 8; 0].

Definition sha1_pad (bytes : list Z) : list Z :=
  push_zeros 64 (bytes ++ [128]) ++ to_be_bytes (Z.of_nat (length bytes) * 8).

Definition from_be_bytes (b0 b1 b2 b3 : Z) : Z :=
  Z.lor (Z.shiftl b0 24) (Z.lor (Z.shiftl b1 16) (Z.lor (Z.shiftl b2 8) b3)).

Definition word_at (words : list Z) (i : nat) : Z := default 0 (words !! i).

(** The first sixteen words of a chunk, then the schedule up to eighty. *)
Definition chunk_words (chunk : list Z) : list Z :=
  (λ index : nat, from_be_bytes (word_at chunk (4 * index)) (word_at chunk (4 * index + 1))
                    (word_at chunk (4 * index + 2)) (word_at chunk (4 * index + 3)))
    <$> seq 0 16.

Definition extend_words (words : list Z) : list Z :=
  foldl (λ words index,
    words ++ [rotate_left (Z.lxor (Z.lxor (word_at words (index - 3)) (word_at words (index - 8)))
                (Z.lxor (word_at words (index - 14)) (word_at words (index - 16)))) 1])
  words (seq 16 64).

Definition sha1_state : Type := Z * Z * Z * Z * Z.

(** [!b] on [u32] *)
Definition not32 (x : Z) : Z := Z.lxor x HASH_MASK.

Definition sha1_round (st : sha1_state) (entry : nat * Z) : sha1_state :=
  let '(a, b, c, d, e) := st in
  let '(index, word) := entry in
  let '(function, constant) :=
    if bool_decide (index ≤ 19)%nat then (Z.lor (Z.land b c) (Z.land (not32 b) d), 1518500249)
    else if bool_decide (index ≤ 39)%nat then (Z.lxor (Z.lxor b c) d, 1859775393)
    else if bool_decide (index ≤ 59)%nat then
      (Z.lor (Z.lor (Z.land b c) (Z.land b d)) (Z.land c d), 2400959708)
    else (Z.lxor (Z.lxor b c) d, 3395469782) in
  let temporary :=
    wrap32 (wrap32 (wrap32 (wrap32 (rotate_left a 5 + function) + e) + constant) + word) in
  (temporary, a, rotate_left b 30, c, d).

Definition sha1_chunk (h : sha1_state) (chunk : list Z) : sha1_state :=
  let '(h0, h1, h2, h3, h4) := h in
  let '(a, b, c, d, e) := foldl sha1_round h (imap pair (extend_words (chunk_words chunk))) in
  (wrap32 (h0 + a), wrap32 (h1 + b), wrap32 (h2 + c), wrap32 (h3 + d), wrap32 (h4 + e)).

(** [chunks_exact(64)] *)
Fixpoint chunks (fuel : nat) (message : list Z) : list (list Z) :=
  match fuel with
  | O => []
  | S fuel =>
      if bool_decide (64 ≤ length message)%nat
      then take 64 message :: chunks fuel (drop 64 message) else []
  end.

Definition sha1_init : sha1_state := (1732584193, 4023233417, 2562383102, 271733878, 3285377520).

Definition sha1_first_u32 (value : string) : Z :=
  let message := sha1_pad (bytes_of value) in
  let '(h0, _, _, _, _) := foldl sha1_chunk sha1_init (chunks (length message) message) in h0.

(** ** Jenkins mixing *)

(** [a.wrapping_sub(b) & HASH_MASK] *)
Definition sub32 (a b : Z) : Z := wrap32 (a - b).

(** The three statements that update one word: subtract the other two, then
    xor with a shift of the second. *)
Definition mix_right (x y z k : Z) : Z := wrap32 (Z.lxor (sub32 (sub32 x y) z) (Z.shiftr z k)).
Definition mix_left (x y z k : Z) : Z :=
  wrap32 (Z.lxor (sub32 (sub32 x y) z) (wrap32 (Z.shiftl z k))).

Definition hash_mix (a b c : Z) : Z * Z * Z :=
  let a := mix_right a b c 13 in
  let b := mix_left b c a 8 in
  let c := mix_right c a b 13 in
  let a := mix_right a b c 12 in
  let b := mix_left b c a 16 in
  let c := mix_right c a b 5 in
  let a := mix_right a b c 3 in
  let b := mix_left b c a 10 in
  let c := mix_right c a b 15 in
  (a, b, c).

Definition jenkins_hash_one (value : Z) : Z :=
  let a := Z.land value HASH_MASK in
  let '(_, _, hash) := hash_mix a 231232 (Z.land (Z.lxor CRUSH_HASH_SEED a) HASH_MASK) in
  let '(_, _, hash) := hash_mix 1232 a hash in
  signed32 hash.

Definition jenkins_hash_three (a b c : Z) : Z :=
  let a := Z.land a HASH_MASK in
  let b := Z.land b HASH_MASK in
  let c := Z.land c HASH_MASK in
  let hash := Z.land (Z.lxor (Z.lxor (Z.lxor CRUSH_HASH_SEED a) b) c) HASH_MASK in
  let '(a, b, hash) := hash_mix a b hash in
  let '(c, x, hash) := hash_mix c 231232 hash in
  let '(y, _, hash) := hash_mix 1232 a hash in
  let '(_, _, hash) := hash_mix b x hash in
  let '(_, _, hash) := hash_mix y c hash in
  hash.

(** * Facts *)

(** ** 32-bit ranges *)

Definition u32 (x : Z) : Prop := 0 ≤ x < 4294967296.

Lemma wrap32_mod x : wrap32 x = x mod 4294967296.
Proof. unfold wrap32, HASH_MASK. by rewrite (Z.land_ones x 32 ltac:(lia) : Z.land x 4294967295 = _). Qed.

Lemma wrap32_u32 x : u32 (wrap32 x).
Proof. rewrite wrap32_mod. apply Z.mod_pos_bound. lia. Qed.
#[local] Hint Resolve wrap32_u32 : clustodian.

Lemma signed32_range x : u32 x → -2147483648 ≤ signed32 x < 2147483648.
Proof. unfold u32, signed32. intros Hx. destruct (Z.ltb_spec x 2147483648); lia. Qed.

Lemma foldl_u32 {X} (f : Z → X → Z) l h : u32 h → (∀ h x, u32 (f h x)) → u32 (foldl f h l).
Proof. intros Hh Hf. revert h Hh. induction l as [|x l IH]; intros h Hh; simpl; auto. Qed.

Lemma hash_mix_u32 a b c : u32 (hash_mix a b c).2.
Proof. apply wrap32_u32. Qed.

Lemma sha1_chunk_u32 h chunk : u32 (sha1_chunk h chunk).1.1.1.1.
Proof.
  unfold sha1_chunk. destruct h as [[[[h0 h1] h2] h3] h4].
  destruct (foldl sha1_round _ _) as [[[[a b] c] d] e]. apply wrap32_u32.
Qed.

Lemma sha1_first_u32_range s : u32 (sha1_first_u32 s).
Proof.
  unfold sha1_first_u32. generalize (chunks (length (sha1_pad (bytes_of s))) (sha1_pad (bytes_of s))).
  intros l. cbn zeta. assert (u32 (foldl sha1_chunk sha1_init l).1.1.1.1) as H.
  { destruct l as [|c l] using rev_ind; [by split; vm_compute|].
    rewrite foldl_snoc. apply sha1_chunk_u32. }
  by destruct (foldl sha1_chunk sha1_init l) as [[[[h0 ?] ?] ?] ?].
Qed.

Lemma jenkins_three_range a b c : u32 (jenkins_hash_three a b c).
Proof.
  unfold jenkins_hash_three.
  destruct (hash_mix (Z.land a HASH_MASK) _ _) as [[a1 b1] h1].
  destruct (hash_mix (Z.land c HASH_MASK) _ _) as [[c1 x1] h2].
  destruct (hash_mix 1232 _ _) as [[y1 ?] h3]. destruct (hash_mix b1 _ _) as [[? ?] h4].
  pose proof (hash_mix_u32 y1 c1 h4) as H. by destruct (hash_mix y1 c1 h4) as [[? ?] h5].
Qed.

Lemma jenkins_one_range a : -2147483648 ≤ jenkins_hash_one a < 2147483648.
Proof.
  unfold jenkins_hash_one. destruct (hash_mix (Z.land a HASH_MASK) _ _) as [[? ?] h].
  pose proof (hash_mix_u32 1232 (Z.land a HASH_MASK) h) as H.
  destruct (hash_mix 1232 (Z.land a HASH_MASK) h) as [[? ?] h2]. by apply signed32_range.
Qed.

(** The hashes stay within their machine types: the string hash, the SHA-1
    word and the three-argument mix are [u32] values, and the re-hashed input of
    a retry is an [i32]. *)
Theorem hash_ranges :
  (∀ s, u32 (java_string_hash s)) ∧ (∀ s, u32 (sha1_first_u32 s)) ∧
  (∀ a b c, u32 (jenkins_hash_three a b c)) ∧
  (∀ a, -2147483648 ≤ jenkins_hash_one a < 2147483648).
Proof.
  split_and!; [|apply sha1_first_u32_range|apply jenkins_three_range|apply jenkins_one_range].
  intros s. apply foldl_u32; [split; lia|]. intros. apply wrap32_u32.
Qed.

(** ** The geometry of Java's [HashMap] *)

Lemma grow_capacity_spec fuel entries k :
  (k + fuel = 32)%nat → (4 ≤ k)%nat → 0 ≤ entries ≤ 1610612736 →
  (k = 4%nat ∨ 2 ^ Z.of_nat (k - 1) * 3 / 4 < entries) →
  ∃ j, (4 ≤ j ≤ 31)%nat ∧ grow_capacity fuel entries (2 ^ Z.of_nat k) = 2 ^ Z.of_nat j ∧
       entries ≤ 2 ^ Z.of_nat j * 3 / 4 ∧
       (j = 4%nat ∨ 2 ^ Z.of_nat (j - 1) * 3 / 4 < entries).
Proof.
  revert k. induction fuel as [|fuel IH]; intros k Hk Hk4 He Hmin.
  { exfalso. assert (k = 32%nat) as -> by lia. destruct Hmin as [|Hmin]; [lia|].
    change (2 ^ Z.of_nat (32 - 1) * 3 / 4) with 1610612736 in Hmin. lia. }
  cbn [grow_capacity]. destruct (Z.ltb_spec (2 ^ Z.of_nat k * 3 / 4) entries) as [Hlt|Hge].
  - replace (2 ^ Z.of_nat k * 2) with (2 ^ Z.of_nat (S k))
      by (rewrite Nat2Z.inj_succ, Z.pow_succ_r by lia; lia).
    apply IH; [lia..|]. right. by replace (S k - 1)%nat with k by lia.
  - exists k. split_and!; [lia|lia|done|done|done].
Qed.

Lemma bucket_range name j :
  0 ≤ java_hash_map_bucket name (2 ^ Z.of_nat j) < 2 ^ Z.of_nat j.
Proof.
  unfold java_hash_map_bucket.
  replace (2 ^ Z.of_nat j - 1) with (Z.ones (Z.of_nat j)) by (rewrite Z.ones_equiv; lia).
  rewrite Z.land_ones by lia. apply Z.mod_pos_bound. lia.
Qed.

(** The table for [entries] keys is the smallest power of two from 16 on
    whose load of three quarters holds them, and every key falls into it.  The
    bound on [entries] is where doubling would leave [u32]. *)
Theorem hash_map_geometry entries :
  0 ≤ entries ≤ 1610612736 →
  let capacity := java_hash_map_capacity entries in
  ∃ j, (4 ≤ j ≤ 31)%nat ∧ capacity = 2 ^ Z.of_nat j ∧ entries ≤ capacity * 3 / 4 ∧
    (j = 4%nat ∨ 2 ^ Z.of_nat (j - 1) * 3 / 4 < entries) ∧
    ∀ name, 0 ≤ java_hash_map_bucket name capacity < capacity.
Proof.
  intros He capacity. destruct (grow_capacity_spec 28 entries 4) as (j & Hj & Hcap & Hload & Hmin);
    [lia..|by left|]. exists j. unfold capacity, java_hash_map_capacity.
  change 16 with (2 ^ Z.of_nat 4). rewrite Hcap. split_and!; [lia..|done|done|done|].
  intros name. apply bucket_range.
Qed.

Lemma hash_map_geometry_witness :
  java_hash_map_capacity 13 = 32 ∧ ∃ j, (4 ≤ j ≤ 31)%nat ∧ java_hash_map_capacity 13 = 2 ^ Z.of_nat j.
Proof.
  split; [vm_compute; reflexivity|].
  destruct (hash_map_geometry 13) as (j & Hj & Hcap & _); [lia|]. exists j. split; [exact Hj|exact Hcap].
Defined.

(** ** SHA-1 blocks *)

Lemma push_zeros_length fuel message :
  (56 - Z.of_nat (length message)) mod 64 ≤ Z.of_nat fuel →
  Z.of_nat (length (push_zeros fuel message)) mod 64 = 56.
Proof.
  revert message. induction fuel as [|fuel IH]; intros message Hf; cbn [push_zeros].
  - Z.to_euclidean_division_equations. lia.
  - destruct (bool_decide _) eqn:Hb; reflect_bools; [done|]. apply IH.
    rewrite length_app. cbn [length]. Z.to_euclidean_division_equations. lia.
Qed.

Lemma sha1_pad_length bytes : ∃ k, length (sha1_pad bytes) = (64 * k)%nat.
Proof.
  unfold sha1_pad. rewrite length_app. set (m := push_zeros 64 (bytes ++ [128])).
  assert (Z.of_nat (length m) mod 64 = 56) as Hm.
  { apply push_zeros_length. Z.to_euclidean_division_equations. lia. }
  change (length (to_be_bytes _)) with 8%nat.
  exists (Z.to_nat ((Z.of_nat (length m) + 8) / 64)). Z.to_euclidean_division_equations. lia.
Qed.

Lemma chunks_concat k fuel message :
  length message = (64 * k)%nat → (k ≤ fuel)%nat →
  concat (chunks fuel message) = message ∧ Forall (λ c, length c = 64%nat) (chunks fuel message).
Proof.
  revert k message. induction fuel as [|fuel IH]; intros k message Hlen Hle; cbn [chunks].
  - destruct message; [done|]. simpl in Hlen. lia.
  - destruct (bool_decide _) eqn:Hb; reflect_bools.
    + destruct (IH (k - 1)%nat (drop 64 message)) as [Hc Hf]; [rewrite length_drop; lia|lia|].
      cbn [concat]. rewrite Hc, take_drop. split; [done|]. constructor; [|done].
      rewrite length_take. lia.
    + destruct message; [done|]. simpl in *. lia.
Qed.

(** SHA-1 hashes every byte of its padded message: the padding ends on a
    block boundary, so the blocks of 64 bytes are the whole message. *)
Theorem sha1_blocks_cover bytes :
  let message := sha1_pad bytes in
  concat (chunks (length message) message) = message ∧
  Forall (λ c, length c = 64%nat) (chunks (length message) message).
Proof. intros message. destruct (sha1_pad_length bytes) as [k Hk]. apply (chunks_concat k); [done|]. subst message. lia. Qed.

(** The digests and hashes below are those of the reference algorithms. *)
Lemma hash_vectors :
  sha1_first_u32 "node-a" = 117621196 ∧ java_string_hash "documents_0" = 506695785 ∧
  jenkins_hash_one (-5) = -1984408313 ∧ jenkins_hash_three (-7) 12345 3 = 3312793993.
Proof. vm_compute. done. Qed.
