(* ===== verification/Crush.v ===== *)
(** * CRUSH placement

    Models [src/rebalance/crush.rs] up to its hashing helpers (those are in
    JavaHash): the two-level topology, the tree of nodes, the straw draw and the
    retry loops of FULL_AUTO placement.

    Single and double precision arithmetic is [SpecFloat] at 24/128 and 53/1024;
    [f64::powf] has unspecified precision and is the parameter [powf], so every
    theorem holds for all of its implementations.  The two labelled loops of
    [select_nodes_of_type] have no bound of their own: they are one fuelled loop,
    and [Diverged] is a draw that has not ended within [fuel] rounds. *)

From Stdlib Require Import SpecFloat.
From S2P Require Import Prelude Identity JavaHash.

Open Scope Z_scope.

Definition DEFAULT_NODE_WEIGHT : Z := 1000.
Definition MAX_RETRY : nat := 10.
Definition MAX_LOOPBACK_COUNT : nat := 50.

(** ** Topologies and instances *)

Inductive CrushError :=
| DuplicateInstance (instance : InstanceId)
| DuplicatePartition (partition : PartitionId)
| EmptyFaultZone
| LiveInstanceUnknown (instance : InstanceId)
| NoInstances
| NoPartitions
| SelectedNonInstance
| UnsupportedTopology (path fault_zone_type end_node_type : string).

Record CrushTopology := MkCrushTopology {
  path : string;
  fault_zone_type : string;
  end_node_type : string
}.

Definition path_components (path : string) : list string :=
  List.filter (λ component, negb (is_empty component)) (split_slash path).

Definition CrushTopology_validate (t : CrushTopology) : result unit CrushError :=
  let path' := path_components (path t) in
  let flat :=
    match path' with
    | [component] => String.eqb component (end_node_type t)
                     && String.eqb (fault_zone_type t) (end_node_type t)
    | _ => false
    end in
  let hierarchical :=
    match path' with
    | [zone; leaf] => String.eqb zone (fault_zone_type t) && String.eqb leaf (end_node_type t)
    | _ => false
    end in
  if negb flat && negb hierarchical
  then Err (UnsupportedTopology (path t) (fault_zone_type t) (end_node_type t))
  else Ok tt.

Definition CrushTopology_new (path fault_zone_type end_node_type : string)
  : result CrushTopology CrushError :=
  let topology := MkCrushTopology path fault_zone_type end_node_type in
  let? _ := CrushTopology_validate topology in
  Ok topology.

Record CrushInstance := MkCrushInstance {
  crush_instance : InstanceId;
  fault_zone : string
}.

Definition CrushInstance_new (instance : InstanceId) (fault_zone : string)
  : result CrushInstance CrushError :=
  if is_empty fault_zone then Err EmptyFaultZone else Ok (MkCrushInstance instance fault_zone).

(** The [Display] text; [debug] is [{:?}] of a string, whose escapes depend on
    Unicode tables. *)
Definition display_crush_error (debug : string → string) (e : CrushError) : string :=
  match e with
  | DuplicateInstance i => "duplicate instance: " +:+ instance_str i
  | DuplicatePartition p => "duplicate partition: " +:+ partition_str p
  | EmptyFaultZone => "fault zone must not be empty"
  | LiveInstanceUnknown i => "live instance is not in the topology: " +:+ instance_str i
  | NoInstances => "CRUSH requires at least one instance"
  | NoPartitions => "CRUSH requires at least one partition"
  | SelectedNonInstance => "CRUSH selected a non-instance node"
  | UnsupportedTopology path zone leaf =>
      "unsupported CRUSH topology " +:+ debug path +:+ " (" +:+ debug zone +:+ " -> " +:+
      debug leaf +:+ ")"
  end.

(** ** The tree *)

Record Node := MkNode {
  node_name : string;
  node_type : string;
  node_id : Z;
  weight : Z;
  failed : bool;
  children : list nat;
  node_instance : option InstanceId
}.

Record TopologyTree := MkTree {
  nodes : list Node;
  root : nat;
  topology : CrushTopology
}.

Definition with_nodes (t : TopologyTree) (ns : list Node) : TopologyTree :=
  MkTree ns (root t) (topology t).

Definition set_weight (w : Z) (n : Node) : Node :=
  MkNode (node_name n) (node_type n) (node_id n) w (failed n) (children n) (node_instance n).

Definition add_weight (w : Z) (n : Node) : Node := set_weight (weight n + w) n.

Definition push_child (c : nat) (n : Node) : Node :=
  MkNode (node_name n) (node_type n) (node_id n) (weight n) (failed n) (children n ++ [c])
    (node_instance n).

(** [tree.nodes[i] = ..]; every [i] comes from [add_node], so it is in range. *)
Definition update_node (f : Node → Node) (i : nat) (t : TopologyTree) : TopologyTree :=
  with_nodes t (alter f i (nodes t)).

Definition add_node (t : TopologyTree) (name node_type : string) (instance : option InstanceId)
    (failed : bool) : TopologyTree * nat :=
  let node := MkNode name node_type (sha1_first_u32 name) 0 failed [] instance in
  (with_nodes t (nodes t ++ [node]), length (nodes t)).

Definition is_flat (t : CrushTopology) : bool :=
  bool_decide (fault_zone_type t = end_node_type t).

(** The body of the loop of [build] for a topology without zones. *)
Definition add_flat_instance (live : gset InstanceId) (t : TopologyTree) (c : CrushInstance)
  : TopologyTree :=
  let '(t, leaf) :=
    add_node t (instance_str (crush_instance c)) (end_node_type (topology t))
      (Some (crush_instance c)) (negb (bool_decide (crush_instance c ∈ live))) in
  let t :=
    if bool_decide (crush_instance c ∈ live)
    then update_node (add_weight DEFAULT_NODE_WEIGHT) (root t)
           (update_node (set_weight DEFAULT_NODE_WEIGHT) leaf t)
    else t in
  update_node (push_child leaf) (root t) t.

(** Look a zone up, or add it below the root. *)
Definition zone_for (t : TopologyTree) (zones : gmap string nat) (zone_name : string)
  : TopologyTree * gmap string nat * nat :=
  match zones !! zone_name with
  | Some zone => (t, zones, zone)
  | None =>
      let '(t, zone) := add_node t zone_name (fault_zone_type (topology t)) None false in
      (update_node (push_child zone) (root t) t, <[zone_name := zone]> zones, zone)
  end.

Definition add_zoned_instance (live : gset InstanceId) (acc : TopologyTree * gmap string nat)
    (c : CrushInstance) : TopologyTree * gmap string nat :=
  let '(t, zones, zone) := zone_for acc.1 acc.2 (fault_zone c) in
  let is_live := bool_decide (crush_instance c ∈ live) in
  let '(t, leaf) :=
    add_node t (instance_str (crush_instance c)) (end_node_type (topology t))
      (Some (crush_instance c)) (negb is_live) in
  let t :=
    if is_live
    then update_node (add_weight DEFAULT_NODE_WEIGHT) (root t)
           (update_node (add_weight DEFAULT_NODE_WEIGHT) zone
             (update_node (set_weight DEFAULT_NODE_WEIGHT) leaf t))
    else t in
  (update_node (push_child leaf) zone t, zones).

Definition build_step (live : gset InstanceId) (acc : TopologyTree * gmap string nat)
    (c : CrushInstance) : TopologyTree * gmap string nat :=
  if is_flat (topology acc.1) then (add_flat_instance live acc.1 c, acc.2)
  else add_zoned_instance live acc c.

Definition empty_tree (topo : CrushTopology) : TopologyTree :=
  let '(t, r) := add_node (MkTree [] 0 topo) "root" "ROOT" None false in
  MkTree (nodes t) r (topology t).

Definition TopologyTree_build (instances : list CrushInstance) (live : gset InstanceId)
    (topo : CrushTopology) : TopologyTree :=
  (foldl (build_step live) (empty_tree topo, ∅) instances).1.

Definition is_node_unavailable (n : Node) : bool :=
  bool_decide (weight n = 0) || (bool_decide (children n = []) && failed n).

(** ** Floating point *)

Definition f32_add := SFadd 24 128.
Definition f32_sub := SFsub 24 128.
Definition f32_mul := SFmul 24 128.
Definition f32_div := SFdiv 24 128.
Definition f64_div := SFdiv 53 1024.

(** [x as f32] of an unsigned integer: round to nearest, ties to even. *)
Definition as_f32 (x : Z) : spec_float := binary_normalize 24 128 x 0 false.
Definition f64_of_int (x : Z) : spec_float := binary_normalize 53 1024 x 0 false.

Definition convert (prec emax : Z) (x : spec_float) : spec_float :=
  match x with
  | S754_finite s m e => binary_normalize prec emax (cond_Zopp s (Z.pos m)) e s
  | _ => x
  end.

(** [f64::from] and [as f32] *)
Definition f64_from_f32 : spec_float → spec_float := convert 53 1024.
Definition f64_as_f32 : spec_float → spec_float := convert 24 128.

(** [x as u64]: truncates towards zero and saturates; NaN is zero. *)
Definition f32_as_u64 (x : spec_float) : Z :=
  match x with
  | S754_finite false m e =>
      Z.min (Z.of_N u64_MAX) (if 0 <=? e then Z.shiftl (Z.pos m) e else Z.shiftr (Z.pos m) (- e))
  | S754_infinity false => Z.of_N u64_MAX
  | _ => 0
  end.

(** ** Drawing straws *)

Section placement.
Variable powf : spec_float → spec_float → spec_float.

(** A child, its straw length and its place in the order of weights. *)
Definition straw_entry : Type := (nat * Node) * Z * nat.

Record StrawState := MkStraws {
  straws : list straw_entry;
  num_left : spec_float;
  straw : spec_float;
  w_below : spec_float;
  last_w : spec_float
}.

Definition push_straw (st : StrawState) (entry : straw_entry) : StrawState :=
  MkStraws (straws st ++ [entry]) (num_left st) (straw st) (w_below st) (last_w st).

(** The inner [while]: one less for every child of the next weight group. *)
Fixpoint leave_group (n : spec_float) (current_weight : spec_float) (rest : list (nat * Node))
  : spec_float :=
  match rest with
  | [] => n
  | child :: rest =>
      if SFeqb (as_f32 (weight child.2)) current_weight
      then leave_group (f32_sub n (as_f32 1)) current_weight rest else n
  end.

(** The straw of the next, lighter group of children. *)
Definition next_group (st : StrawState) (previous_weight current_weight : spec_float)
    (rest : list (nat * Node)) : StrawState :=
  let below := f32_add (w_below st) (f32_mul (f32_sub previous_weight (last_w st)) (num_left st)) in
  let remaining := leave_group (num_left st) current_weight rest in
  let w_next := f32_mul remaining (f32_sub current_weight previous_weight) in
  let p_below := f32_div below (f32_add below w_next) in
  let factor := powf (f64_div (f64_of_int 1) (f64_from_f32 p_below))
                     (f64_div (f64_of_int 1) (f64_from_f32 remaining)) in
  MkStraws (straws st) remaining (f32_mul (straw st) (f64_as_f32 factor)) below previous_weight.

(** The outer [while]; [rest] is [sorted] from [index] on. *)
Fixpoint straw_loop (index : nat) (st : StrawState) (rest : list (nat * Node)) : StrawState :=
  match rest with
  | [] => st
  | current :: rest =>
      if bool_decide (weight current.2 = 0)
      then straw_loop (S index) (push_straw st (current, 0, index)) rest
      else
        let st := push_straw st (current, f32_as_u64 (f32_mul (straw st) (as_f32 65536)), index) in
        match rest with
        | [] => st
        | next :: _ =>
            let current_weight := as_f32 (weight next.2) in
            let previous_weight := as_f32 (weight current.2) in
            if SFeqb current_weight previous_weight then straw_loop (S index) st rest
            else straw_loop (S index) (next_group st previous_weight current_weight rest) rest
        end
  end.

Definition by_weight (kids : list (nat * Node)) : list (nat * Node) :=
  sort_by (λ l r, rust_cmp (weight r.2) (weight l.2)) kids.

Definition draw_straws (kids : list (nat * Node)) : list straw_entry :=
  let sorted := by_weight kids in
  straws (straw_loop 0
    (MkStraws [] (as_f32 (Z.of_nat (length sorted))) (as_f32 1) (as_f32 0) (as_f32 0)) sorted).

(** [hash * node_straw] on [u64], which wraps in a release build *)
Definition straw_score (input round : Z) (entry : straw_entry) : Z :=
  let '((_, node), node_straw, _) := entry in
  (Z.land (jenkins_hash_three input (node_id node) round) 65535 * node_straw) mod 2 ^ 64.

Definition longest_straw (input round : Z) (best : (nat * Node) * Z) (entry : straw_entry)
  : (nat * Node) * Z :=
  let score := straw_score input round entry in
  if best.2 <? score then (entry.1.1, score) else best.

Definition node_at (t : TopologyTree) (i : nat) : result Node (stop CrushError) :=
  expect (nodes t !! i).

(** The children of a node with the nodes they index. *)
Definition child_nodes (t : TopologyTree) (parent : nat)
  : result (list (nat * Node)) (stop CrushError) :=
  let? p := node_at t parent in
  try_fold (λ kids c, let? n := node_at t c in Ok (kids ++ [(c, n)])) [] (children p).

Definition choose_child (t : TopologyTree) (parent : nat) (input round : Z)
  : result (nat * Node) (stop CrushError) :=
  let? kids := child_nodes t parent in
  let drawn := draw_straws kids in
  let capacity := java_hash_map_capacity (Z.of_nat (length drawn)) in
  let drawn := sort_by_key (λ entry : straw_entry,
    (java_hash_map_bucket (node_name entry.1.1.2) capacity, entry.2)) drawn in
  match drawn with
  | [] => Err Panicked
  | first :: _ => Ok (foldl (longest_straw input round) (first.1.1, 0) drawn).1
  end.

Definition all_children_eliminated (t : TopologyTree) (parent : nat) (selected : list nat)
    (rejected : gset nat) : result bool (stop CrushError) :=
  let? kids := child_nodes t parent in
  Ok (forallb (λ child : nat * Node, is_node_unavailable child.2 || bool_decide (child.1 ∈ selected)
                 || bool_decide (child.1 ∈ rejected)) kids).

(** ** Selection *)

Section select_one.
Variables (t : TopologyTree) (parent : nat) (input : Z) (wanted : string).
Variables (excluded : gset nat) (selected : list nat) (r : nat).

(** The loops that draw one node; [None] is the escape. *)
Fixpoint draw (fuel : nat) (input_node failure loopback_count : nat) (rejected : gset nat)
  : result (option nat) (stop CrushError) :=
  match fuel with
  | O => Err Diverged
  | S fuel =>
      let round := Z.of_nat (r + failure) in
      match choose_child t input_node input round with
      | Err e => Err e
      | Ok (candidate, n) =>
          if negb (String.eqb (node_type n) wanted)
          then draw fuel candidate failure loopback_count rejected
          else if bool_decide (candidate ∈ selected) || bool_decide (candidate ∈ excluded) then
            let rejected := {[candidate]} ∪ rejected in
            match all_children_eliminated t input_node selected rejected with
            | Err e => Err e
            | Ok true =>
                if bool_decide (loopback_count = MAX_LOOPBACK_COUNT) then Ok None
                else draw fuel parent (S failure) (S loopback_count) ∅
            | Ok false => draw fuel input_node (S failure) loopback_count rejected
            end
          else if is_node_unavailable n then
            if bool_decide (loopback_count = MAX_LOOPBACK_COUNT) then Ok None
            else draw fuel parent (S failure) (S loopback_count) ∅
          else Ok (Some candidate)
      end
  end.
End select_one.

Definition select_nodes_of_type (fuel : nat) (t : TopologyTree) (parent : nat) (input : Z)
    (count : nat) (wanted : string) (excluded : gset nat) : result (list nat) (stop CrushError) :=
  try_fold (λ selected r,
    let? out := draw t parent input wanted excluded selected r fuel parent 0 0 ∅ in
    Ok (match out with Some c => selected ++ [c] | None => selected end))
  [] (seq 1 count).

Definition add_replicas_for_attempt (fuel : nat) (t : TopologyTree) (top_node : nat) (input : Z)
    (replica_count : nat) (selected_nodes : list nat) (selected_zones : gset nat)
  : result (list nat * gset nat) (stop CrushError) :=
  if bool_decide (fault_zone_type (topology t) ≠ end_node_type (topology t)) then
    let? zones := select_nodes_of_type fuel t top_node input replica_count
                    (fault_zone_type (topology t)) selected_zones in
    let? selected_nodes :=
      try_fold (λ acc zone,
        let? end_nodes := select_nodes_of_type fuel t zone input 1
                            (end_node_type (topology t)) ∅ in
        Ok (acc ++ end_nodes)) selected_nodes zones in
    Ok (selected_nodes, selected_zones ∪ list_to_set zones)
  else
    let selected := list_to_set selected_nodes in
    let? more := select_nodes_of_type fuel t top_node input replica_count
                   (end_node_type (topology t)) selected in
    Ok (selected_nodes ++ more, selected_zones).

(** The [while] of [select_replicas]: it ends when enough nodes are selected or
    after [MAX_RETRY] attempts, so [S MAX_RETRY] tests of its condition suffice. *)
Fixpoint attempts (rounds fuel : nat) (t : TopologyTree) (top_node replica_count : nat)
    (selected : list nat) (selected_zones : gset nat) (input : Z) (count tries : nat)
  : result (list nat) (stop CrushError) :=
  match rounds with
  | O => Err Diverged
  | S rounds =>
      if bool_decide (length selected < replica_count)%nat then
        match add_replicas_for_attempt fuel t top_node input count selected selected_zones with
        | Err e => Err e
        | Ok (selected, selected_zones) =>
            let count := (replica_count - length selected)%nat in
            if bool_decide (0 < count)%nat then
              let input := jenkins_hash_one input in
              if bool_decide (MAX_RETRY ≤ S tries)%nat then Ok selected
              else attempts rounds fuel t top_node replica_count selected selected_zones input
                     count (S tries)
            else attempts rounds fuel t top_node replica_count selected selected_zones input
                   count tries
        end
      else Ok selected
  end.

(** [Vec::<usize>::with_capacity] panics when its elements would take more than
    [isize::MAX] bytes, on a 64-bit target; the vector of [select_nodes_of_type] is
    never asked for more than the one of [select_replicas] was. *)
Definition capacity_overflow (capacity : nat) : bool := (9223372036854775807 <? 8 * Z.of_nat capacity)%Z.

Definition select_replicas (fuel : nat) (t : TopologyTree) (top_node : nat) (data : Z)
    (replica_count : nat) : result (list nat) (stop CrushError) :=
  if capacity_overflow replica_count then Err Panicked
  else attempts (S MAX_RETRY) fuel t top_node replica_count [] ∅ data replica_count 0.

(** ** Assignments *)

Definition raise_err {A} (r : result A CrushError) : result A (stop CrushError) := map_err Raise r.

Definition insert_partition (seen : gset PartitionId) (p : PartitionId)
  : result (gset PartitionId) (stop CrushError) :=
  if bool_decide (p ∈ seen) then Err (Raise (DuplicatePartition p)) else Ok ({[p]} ∪ seen).

Definition insert_instance (seen : gset InstanceId) (c : CrushInstance)
  : result (gset InstanceId) (stop CrushError) :=
  if bool_decide (crush_instance c ∈ seen) then Err (Raise (DuplicateInstance (crush_instance c)))
  else Ok ({[crush_instance c]} ∪ seen).

Definition check_live (known : gset InstanceId) (_ : unit) (i : InstanceId)
  : result unit (stop CrushError) :=
  if bool_decide (i ∈ known) then Ok tt else Err (Raise (LiveInstanceUnknown i)).

Definition push_selected (t : TopologyTree) (acc : list InstanceId) (i : nat)
  : result (list InstanceId) (stop CrushError) :=
  let? n := node_at t i in
  match node_instance n with
  | Some instance => Ok (acc ++ [instance])
  | None => Err (Raise SelectedNonInstance)
  end.

Definition place_partition (fuel : nat) (t : TopologyTree) (replica_count : nat)
    (assignment : gmap PartitionId (list InstanceId)) (p : PartitionId)
  : result (gmap PartitionId (list InstanceId)) (stop CrushError) :=
  let input := signed32 (java_string_hash (partition_str p)) in
  let? selected := select_replicas fuel t (root t) input replica_count in
  let? preference_list := try_fold (push_selected t) [] selected in
  Ok (<[p := preference_list]> assignment).

(** The checks in front of the placement. *)
Definition check_input (partitions : list PartitionId) (instances : list CrushInstance)
    (live : gset InstanceId) (topo : CrushTopology) : result unit (stop CrushError) :=
  let? _ := raise_err (CrushTopology_validate topo) in
  if bool_decide (partitions = []) then Err (Raise NoPartitions)
  else if bool_decide (instances = []) then Err (Raise NoInstances)
  else
    let? _ := try_fold insert_partition ∅ partitions in
    let? instance_names := try_fold insert_instance ∅ instances in
    try_fold (check_live instance_names) tt (set_items live).

Definition compute_crush_assignment (fuel : nat) (_resource : ResourceId)
    (partitions : list PartitionId) (replica_count : nat) (instances : list CrushInstance)
    (live : gset InstanceId) (topo : CrushTopology)
  : result (gmap PartitionId (list InstanceId)) (stop CrushError) :=
  let? _ := check_input partitions instances live topo in
  let tree := TopologyTree_build instances live topo in
  try_fold (place_partition fuel tree replica_count) ∅ partitions.
End placement.

#[export] Instance CrushInstance_eq_dec : EqDecision CrushInstance.
Proof. solve_decision. Defined.

(** * Facts *)

Section placement_facts.
Variable powf : spec_float → spec_float → spec_float.

(** ** The straw draw returns a child *)

Lemma straw_loop_children i st rest :
  (λ e : straw_entry, e.1.1) <$> straws (straw_loop powf i st rest) =
  ((λ e : straw_entry, e.1.1) <$> straws st) ++ rest.
Proof.
  revert i st. induction rest as [|current rest IH]; intros i st; cbn [straw_loop].
  - by rewrite app_nil_r.
  - assert (∀ w, (λ e : straw_entry, e.1.1) <$> straws (push_straw st (current, w, i)) =
              ((λ e : straw_entry, e.1.1) <$> straws st) ++ [current]) as Hpush.
    { intros w. unfold push_straw. cbn [straws]. by rewrite fmap_app. }
    destruct (bool_decide _).
    + by rewrite IH, Hpush, <-app_assoc.
    + destruct rest as [|next rest]; [by rewrite Hpush|].
      destruct (SFeqb _ _).
      * by rewrite IH, Hpush, <-app_assoc.
      * rewrite IH. unfold next_group. cbn [straws]. by rewrite Hpush, <-app_assoc.
Qed.

Lemma draw_straws_children kids :
  (λ e : straw_entry, e.1.1) <$> draw_straws powf kids ≡ₚ kids.
Proof.
  unfold draw_straws. rewrite straw_loop_children. cbn [straws]. rewrite fmap_nil, app_nil_l.
  unfold by_weight, sort_by. apply stable_sort_perm.
Qed.

Lemma longest_straw_elem input round (l : list straw_entry) best :
  (foldl (longest_straw input round) best l).1 = best.1 ∨
  ∃ e, e ∈ l ∧ (foldl (longest_straw input round) best l).1 = e.1.1.
Proof.
  revert best. induction l as [|e l IH]; intros best; [by left|]. cbn [foldl].
  destruct (IH (longest_straw input round best e)) as [->|(e' & ? & ->)].
  - unfold longest_straw. destruct (_ <? _); [right; exists e; split; [left|done]|by left].
  - right. exists e'. split; [by right|done].
Qed.

(** What the placement loops need of a level of the tree: a node with children,
    all of which exist and have the wanted type. *)
Definition level (t : TopologyTree) (parent : nat) (ty : string) : Prop :=
  ∃ p, nodes t !! parent = Some p ∧ children p ≠ [] ∧
       ∀ c, c ∈ children p → ∃ n, nodes t !! c = Some n ∧ node_type n = ty.

Definition child_of (t : TopologyTree) (parent c : nat) : Prop :=
  ∃ p, nodes t !! parent = Some p ∧ c ∈ children p.

Lemma child_nodes_ok t parent ty p :
  level t parent ty → nodes t !! parent = Some p →
  ∃ kids, child_nodes t parent = Ok kids ∧ kids.*1 = children p ∧
          ∀ c n, (c, n) ∈ kids → nodes t !! c = Some n.
Proof.
  intros (p' & Hp' & _ & Hall) Hp. assert (p' = p) as -> by congruence. unfold child_nodes, node_at.
  rewrite Hp. cbn [expect].
  assert (∀ l acc, (∀ c, c ∈ l → ∃ n, nodes t !! c = Some n ∧ node_type n = ty) →
    ∃ kids, try_fold (λ kids c, let? n := expect (nodes t !! c) in Ok (kids ++ [(c, n)])) acc l =
              Ok (E:=stop CrushError) (acc ++ kids) ∧
            kids.*1 = l ∧ ∀ c n, (c, n) ∈ kids → nodes t !! c = Some n) as Hgen.
  { induction l as [|c l IH]; intros acc Hl; cbn [try_fold].
    - exists []. rewrite app_nil_r. split_and!; [done..|]. by intros c n ?%elem_of_nil.
    - destruct (Hl c) as (n & Hn & _); [left|]. rewrite Hn. cbn [expect].
      destruct (IH (acc ++ [(c, n)])) as (kids & Hrun & Hfst & Hin); [intros; apply Hl; by right|].
      exists ((c, n) :: kids). rewrite Hrun, <-app_assoc, fmap_cons, Hfst. split_and!; [done..|].
      intros c' n' [[= -> ->]|?]%elem_of_cons; auto. }
  destruct (Hgen (children p) [] Hall) as (kids & Hrun & ?). exists kids. by rewrite Hrun.
Qed.

Lemma choose_child_ok t parent ty input round :
  level t parent ty →
  ∃ c n, choose_child powf t parent input round = Ok (c, n) ∧ child_of t parent c ∧
         nodes t !! c = Some n ∧ node_type n = ty.
Proof.
  intros Hlevel. pose proof Hlevel as (p & Hp & Hne & Hall).
  destruct (child_nodes_ok _ _ _ _ Hlevel Hp) as (kids & Hkids & Hfst & Hin).
  unfold choose_child. rewrite Hkids. set (drawn := sort_by_key _ (draw_straws powf kids)).
  assert (∀ e, e ∈ drawn → e.1.1 ∈ kids) as Hdrawn.
  { intros e He. rewrite <-(draw_straws_children kids). apply list_elem_of_fmap.
    exists e. split; [done|]. unfold drawn, sort_by_key in He.
    by rewrite elem_of_stable_sort in He. }
  assert (∃ kid, kid ∈ kids ∧ match drawn with
    | [] => Err Panicked
    | first :: _ => Ok (E:=stop CrushError) (foldl (longest_straw input round) (first.1.1, 0) drawn).1
    end = Ok kid) as ([c n] & Hkid & ->).
  { destruct drawn as [|first rest] eqn:Hd.
    - exfalso. subst drawn. unfold sort_by_key in Hd.
      apply (f_equal length) in Hd. rewrite length_stable_sort in Hd.
      pose proof (Permutation_length (draw_straws_children kids)) as Hlen.
      rewrite length_fmap, Hd, <-(length_fmap fst kids), Hfst in Hlen.
      by destruct (children p).
    - exists (foldl (longest_straw input round) (first.1.1, 0) (first :: rest)).1. split; [|done].
      destruct (longest_straw_elem input round (first :: rest) (first.1.1, 0)) as [->|(e & He & ->)];
        apply Hdrawn; [left|done]. }
  assert (c ∈ children p) as Hc by (rewrite <-Hfst; by apply (list_elem_of_fmap_2 fst _ (c, n))).
  exists c, n. split_and!; [done|by exists p|by apply Hin|].
  destruct (Hall c Hc) as (n' & Hn' & <-). apply Hin in Hkid. congruence.
Qed.

(** ** Drawing one node *)

Definition available (t : TopologyTree) (i : nat) : Prop :=
  ∃ n, nodes t !! i = Some n ∧ is_node_unavailable n = false.

(** [r] ends with a value that satisfies [Q], or runs out of fuel: it neither
    panics nor raises. *)
Definition ends_in {A} (Q : A → Prop) (r : result A (stop CrushError)) : Prop :=
  match r with Ok a => Q a | Err e => e = Diverged end.

Lemma ends_in_weaken {A} (Q Q' : A → Prop) r : ends_in Q r → (∀ a, Q a → Q' a) → ends_in Q' r.
Proof. destruct r; simpl; auto. Qed.

Lemma ends_in_bind {A B} (Q : A → Prop) (Q' : B → Prop) r (k : A → result B (stop CrushError)) :
  ends_in Q r → (∀ a, Q a → ends_in Q' (k a)) → ends_in Q' (let? a := r in k a).
Proof. destruct r; simpl; auto. Qed.

Lemma ends_in_fold {S X} (f : S → X → result S (stop CrushError)) (P : list X → S → Prop) l s :
  P [] s →
  (∀ done x t, x ∈ l → P done t → ends_in (P (done ++ [x])) (f t x)) →
  ends_in (P l) (try_fold f s l).
Proof.
  intros Hs Hstep.
  assert (∀ r done t, (∀ x, x ∈ r → x ∈ l) → P done t →
            ends_in (P (done ++ r)) (try_fold f t r)) as Hgen.
  { induction r as [|x r IH]; intros done t Hin Ht; cbn [try_fold]; [by rewrite app_nil_r|].
    eapply ends_in_bind; [apply Hstep; [apply Hin; left|done]|]. intros t' Ht'.
    rewrite (app_assoc done [x] r : done ++ x :: r = (done ++ [x]) ++ r).
    apply IH; [intros; apply Hin; by right|done]. }
  by apply (Hgen l [] s).
Qed.

Lemma all_children_eliminated_ok t parent ty selected rejected :
  level t parent ty → ∃ b, all_children_eliminated t parent selected rejected = Ok b.
Proof.
  intros Hlevel. pose proof Hlevel as (p & Hp & _ & _).
  destruct (child_nodes_ok _ _ _ _ Hlevel Hp) as (kids & Hkids & _).
  unfold all_children_eliminated. rewrite Hkids. eauto.
Qed.

(** What a draw may return: a child that is available and not taken. *)
Definition drawn (t : TopologyTree) (parent : nat) (excluded : gset nat) (selected : list nat)
    (out : option nat) : Prop :=
  ∀ c, out = Some c → child_of t parent c ∧ available t c ∧ c ∉ selected ∧ c ∉ excluded.

Lemma draw_spec t parent input ty excluded selected r fuel failure loopback rejected :
  level t parent ty →
  ends_in (drawn t parent excluded selected)
    (draw powf t parent input ty excluded selected r fuel parent failure loopback rejected).
Proof.
  intros Hlevel. revert failure loopback rejected.
  induction fuel as [|fuel IH]; intros failure loopback rejected; [done|]. cbn [draw].
  destruct (choose_child_ok t parent ty input (Z.of_nat (r + failure)) Hlevel)
    as (c & n & -> & Hc & Hn & Hty).
  rewrite (proj2 (String.eqb_eq _ _) Hty). cbn [negb].
  destruct (bool_decide (c ∈ selected) || bool_decide (c ∈ excluded)) eqn:Htaken.
  - destruct (all_children_eliminated_ok t parent ty selected ({[c]} ∪ rejected) Hlevel) as [b ->].
    destruct b; [|apply IH]. destruct (bool_decide (loopback = _)); [by intros ? [=]|apply IH].
  - destruct (is_node_unavailable n) eqn:Hun; [destruct (bool_decide (loopback = _)); [by intros ? [=]|apply IH]|].
    reflect_bools. intros c' [= <-]. split_and!; [done|by exists n|done..].
Qed.

(** With nothing taken a draw ends within [MAX_LOOPBACK_COUNT] further rounds. *)
Lemma draw_fresh_total t parent input ty r fuel failure loopback rejected :
  level t parent ty → (loopback ≤ MAX_LOOPBACK_COUNT)%nat →
  (MAX_LOOPBACK_COUNT < fuel + loopback)%nat →
  is_ok (draw powf t parent input ty ∅ [] r fuel parent failure loopback rejected) = true.
Proof.
  intros Hlevel. revert failure loopback rejected.
  induction fuel as [|fuel IH]; intros failure loopback rejected Hle Hfuel; [lia|]. cbn [draw].
  destruct (choose_child_ok t parent ty input (Z.of_nat (r + failure)) Hlevel)
    as (c & n & -> & Hc & Hn & Hty).
  rewrite (proj2 (String.eqb_eq _ _) Hty). cbn [negb].
  rewrite (bool_decide_eq_false_2 (c ∈ [])), (bool_decide_eq_false_2 (c ∈ (∅ : gset nat)))
    by set_solver. cbn [orb].
  destruct (is_node_unavailable n); [|done].
  destruct (bool_decide (loopback = _)) eqn:Hmax; [done|]. reflect_bools. apply IH; lia.
Qed.

Lemma select_nodes_spec fuel t parent input count ty excluded :
  level t parent ty →
  ends_in (λ l, NoDup l ∧ (length l ≤ count)%nat ∧
             ∀ c, c ∈ l → child_of t parent c ∧ available t c ∧ c ∉ excluded)
    (select_nodes_of_type powf fuel t parent input count ty excluded).
Proof.
  intros Hlevel. unfold select_nodes_of_type.
  eapply ends_in_weaken.
  - apply (ends_in_fold _ (λ done l, NoDup l ∧ (length l ≤ length done)%nat ∧
             ∀ c, c ∈ l → child_of t parent c ∧ available t c ∧ c ∉ excluded)).
    + split_and!; [constructor|done|]. by intros c ?%elem_of_nil.
    + intros done r l _ (Hnd & Hlen & Hall).
      eapply ends_in_bind; [by apply draw_spec|]. intros out Hout. cbn [ends_in].
      rewrite length_app. cbn [length].
      destruct out as [c|]; [|split_and!; [done|lia|done]].
      destruct (Hout c eq_refl) as (? & ? & ? & ?).
      rewrite length_app. cbn [length]. split_and!; [|lia|].
      * apply NoDup_app. split_and!; [done|set_solver|apply NoDup_singleton].
      * intros c' [?| ->%list_elem_of_singleton]%elem_of_app; auto.
  - intros l (? & Hlen & ?). rewrite length_seq in Hlen. done.
Qed.

(** ** Selecting the replicas of a partition *)

(** The levels of a built tree. *)
Definition tree_levels (t : TopologyTree) : Prop :=
  if is_flat (topology t) then level t (root t) (end_node_type (topology t))
  else level t (root t) (fault_zone_type (topology t)) ∧
       ∀ z, child_of t (root t) z → level t z (end_node_type (topology t)).

Definition in_zone (t : TopologyTree) (z i : nat) : Prop :=
  child_of t (root t) z ∧ child_of t z i ∧ available t i.

(** Flat: distinct available leaves.  Zoned: available leaves of distinct zones
    that are already marked as used. *)
Definition placed (t : TopologyTree) (selected : list nat) (used : gset nat) : Prop :=
  if is_flat (topology t)
  then NoDup selected ∧ ∀ i, i ∈ selected → child_of t (root t) i ∧ available t i
  else ∃ zs, NoDup zs ∧ (∀ z, z ∈ zs → z ∈ used) ∧ Forall2 (in_zone t) zs selected.

Lemma flat_test topo :
  bool_decide (fault_zone_type topo ≠ end_node_type topo) = negb (is_flat topo).
Proof. unfold is_flat. by rewrite bool_decide_not. Qed.

Lemma leaf_of_zone_spec fuel t zone input :
  level t zone (end_node_type (topology t)) → child_of t (root t) zone →
  ends_in (λ l, l = [] ∨ ∃ i, l = [i] ∧ in_zone t zone i)
    (select_nodes_of_type powf fuel t zone input 1 (end_node_type (topology t)) ∅).
Proof.
  intros Hlevel Hzone. eapply ends_in_weaken; [by apply select_nodes_spec|].
  intros [|i [|]] (_ & Hlen & Hall); simpl in Hlen; [by left| |lia].
  right. exists i. split; [done|]. destruct (Hall i) as (? & ? & _); [left|]. done.
Qed.

Lemma leaves_of_zones_spec fuel t input selected zones :
  (∀ z, child_of t (root t) z → level t z (end_node_type (topology t))) →
  (∀ z, z ∈ zones → child_of t (root t) z) →
  ends_in (λ l, ∃ zs leaves, l = selected ++ leaves ∧ sublist zs zones ∧
                  Forall2 (in_zone t) zs leaves)
    (try_fold (λ acc zone,
       let? end_nodes := select_nodes_of_type powf fuel t zone input 1
                           (end_node_type (topology t)) ∅ in
       Ok (acc ++ end_nodes)) selected zones).
Proof.
  intros Hlevels Hzones.
  apply (ends_in_fold _ (λ done l, ∃ zs leaves, l = selected ++ leaves ∧ sublist zs done ∧
                           Forall2 (in_zone t) zs leaves)).
  { exists [], []. rewrite app_nil_r. split_and!; [done|constructor|constructor]. }
  intros done z l Hz (zs & leaves & -> & Hsub & Hin).
  eapply ends_in_bind; [apply leaf_of_zone_spec; auto|].
  intros more [->|(i & -> & Hi)]; cbn [ends_in].
  - exists zs, leaves. rewrite app_nil_r. split_and!; [done| |done]. by apply sublist_inserts_r.
  - exists (zs ++ [z]), (leaves ++ [i]). rewrite app_assoc. split_and!; [done| |].
    + by apply sublist_app.
    + apply Forall2_app; [done|]. by constructor.
Qed.

Lemma attempt_spec fuel t input count selected used :
  tree_levels t → placed t selected used →
  ends_in (λ '(selected', used'),
             placed t selected' used' ∧ (length selected' ≤ length selected + count)%nat)
    (add_replicas_for_attempt powf fuel t (root t) input count selected used).
Proof.
  unfold tree_levels, placed, add_replicas_for_attempt. rewrite flat_test.
  destruct (is_flat (topology t)); cbn [negb].
  - intros Hlevel [Hnd Hsel]. eapply ends_in_bind; [by apply select_nodes_spec|].
    intros more (Hndm & Hlen & Hmore). cbn [ends_in]. rewrite length_app.
    split; [split|lia].
    + apply NoDup_app. split_and!; [done| |done]. intros i Hi Him.
      destruct (Hmore i Him) as (_ & _ & Hex). apply Hex. by apply elem_of_list_to_set.
    + intros i [Hi|Hi]%elem_of_app; [by apply Hsel|]. by destruct (Hmore i Hi) as (? & ? & _).
  - intros [Hroot Hzones] (zs & Hnd & Hused & Hin).
    eapply ends_in_bind; [by apply select_nodes_spec|]. intros zones (Hndz & Hlen & Hall).
    eapply ends_in_bind; [apply leaves_of_zones_spec; [done|]|].
    { intros z Hz. by destruct (Hall z Hz). }
    intros l (zs' & leaves & -> & Hsub & Hin'). cbn [ends_in].
    pose proof (sublist_length _ _ Hsub). pose proof (Forall2_length _ _ _ Hin').
    rewrite length_app. split; [|lia]. exists (zs ++ zs'). split_and!.
    + apply NoDup_app. split_and!; [done| |by eapply sublist_NoDup].
      intros z Hz Hz'. destruct (Hall z) as (_ & _ & Hex); [by eapply elem_of_sublist|].
      by apply Hex, Hused.
    + intros z [Hz|Hz]%elem_of_app; apply elem_of_union; [left; by apply Hused|right].
      apply elem_of_list_to_set. by eapply elem_of_sublist.
    + by apply Forall2_app.
Qed.

Lemma attempts_spec rounds fuel t rc selected used input count tries :
  tree_levels t → placed t selected used →
  (length selected + count ≤ rc)%nat → (tries < MAX_RETRY)%nat →
  ends_in (λ l, (∃ used', placed t l used') ∧ (length l ≤ rc)%nat)
    (attempts powf rounds fuel t (root t) rc selected used input count tries).
Proof.
  intros Hlevels. revert selected used input count tries.
  induction rounds as [|rounds IH]; intros selected used input count tries Hp Hle Ht; [done|].
  cbn [attempts]. destruct (bool_decide (length selected < rc)%nat); [|cbn; split; [eauto|lia]].
  pose proof (attempt_spec fuel t input count selected used Hlevels Hp) as Hstep.
  destruct (add_replicas_for_attempt _ _ _ _ _ _ _ _) as [[l u]|e]; [|done].
  cbn [ends_in] in Hstep. destruct Hstep as [Hp' Hlen'].
  destruct (bool_decide (0 < rc - length l)%nat) eqn:Hc; reflect_bools.
  - destruct (bool_decide (MAX_RETRY ≤ S tries)%nat) eqn:Hr; reflect_bools.
    + cbn. split; [eauto|lia].
    + apply IH; [done|lia..].
  - apply IH; [done|lia..].
Qed.

Lemma select_replicas_spec fuel t data rc :
  tree_levels t → capacity_overflow rc = false →
  ends_in (λ l, (∃ used, placed t l used) ∧ (length l ≤ rc)%nat)
    (select_replicas powf fuel t (root t) data rc).
Proof.
  intros Hlevels Hcap. unfold select_replicas. rewrite Hcap. apply attempts_spec; [done| |simpl; lia|unfold MAX_RETRY; lia].
  unfold placed. destruct (is_flat _).
  - split; [constructor|]. by intros i ?%elem_of_nil.
  - exists []. split_and!; [constructor| |constructor]. by intros z ?%elem_of_nil.
Qed.

End placement_facts.

(** ** Growing the tree *)

Section tree_facts.
Variable live : gset InstanceId.

(** The leaf of an instance once its weight is set, and a fresh zone. *)
Definition leaf_node (topo : CrushTopology) (c : CrushInstance) : Node :=
  MkNode (instance_str (crush_instance c)) (end_node_type topo)
    (sha1_first_u32 (instance_str (crush_instance c)))
    (if bool_decide (crush_instance c ∈ live) then DEFAULT_NODE_WEIGHT else 0)
    (negb (bool_decide (crush_instance c ∈ live))) [] (Some (crush_instance c)).

Definition zone_node (topo : CrushTopology) (name : string) : Node :=
  MkNode name (fault_zone_type topo) (sha1_first_u32 name) 0 false [] None.

(** [t'] is [t] with the node [x] added as a child of [p]; only the weights of
    [p] and of the root may differ otherwise. *)
Record grown (x : Node) (p : nat) (t t' : TopologyTree) : Prop := {
  grown_topology : topology t' = topology t;
  grown_root : root t' = root t;
  grown_new : nodes t' !! length (nodes t) = Some x;
  grown_length : length (nodes t') = S (length (nodes t));
  grown_old : ∀ i n, nodes t !! i = Some n → ∃ w,
    nodes t' !! i =
      Some (set_weight w (if decide (i = p) then push_child (length (nodes t)) n else n)) ∧
    (i ≠ p → i ≠ root t → w = weight n)
}.

Lemma set_weight_id n : set_weight (weight n) n = n.
Proof. by destruct n. Qed.

(** Read an updated node back from the node it was. *)
Ltac lookup_updated :=
  erewrite alter_lookup_Some
    by (repeat eapply alter_lookup_Some; (by rewrite lookup_app_l) || (by rewrite lookup_app_r, Nat.sub_diag)).

Lemma zone_for_grown t zones name :
  (root t < length (nodes t))%nat → zones !! name = None →
  grown (zone_node (topology t) name) (root t) t (zone_for t zones name).1.1.
Proof.
  intros Hr Hz. unfold zone_for. rewrite Hz. cbn. split; cbn; [done..| | |].
  - lookup_updated. by rewrite decide_False by lia.
  - rewrite length_alter, length_app. simpl. lia.
  - intros i n Hn. pose proof (lookup_lt_Some _ _ _ Hn). exists (weight n). split; [|done].
    lookup_updated. by destruct n, (decide (i = root t)).
Qed.

Lemma flat_grown t c :
  (root t < length (nodes t))%nat →
  grown (leaf_node (topology t) c) (root t) t (add_flat_instance live t c).
Proof.
  intros Hr. unfold add_flat_instance, leaf_node. cbn.
  destruct (bool_decide (crush_instance c ∈ live)); split; cbn; try done;
    rewrite ?length_alter, ?length_app; try (simpl; lia).
  1, 3: lookup_updated; by rewrite ?(decide_False (P := _ = root t)), ?decide_True by lia.
  all: intros i n Hn; pose proof (lookup_lt_Some _ _ _ Hn); lookup_updated;
    rewrite ?(decide_False (P := _ = length _)) by lia; destruct (decide (i = root t)).
  1: exists (weight n + DEFAULT_NODE_WEIGHT); split; [by destruct n|done].
  all: exists (weight n); split; [by destruct n|done].
Qed.

Lemma zoned_grown t zones c :
  let '(t1, zones1, z) := zone_for t zones (fault_zone c) in
  (root t1 < length (nodes t1))%nat → (z < length (nodes t1))%nat → z ≠ root t1 →
  grown (leaf_node (topology t1) c) z t1 (add_zoned_instance live (t, zones) c).1 ∧
  (add_zoned_instance live (t, zones) c).2 = zones1.
Proof.
  unfold add_zoned_instance, leaf_node. cbn [fst snd].
  destruct (zone_for t zones (fault_zone c)) as [[t1 zones1] z] eqn:E. intros Hr Hz Hne.
  split; [|by cbn]. cbn.
  destruct (bool_decide (crush_instance c ∈ live)); split; cbn; try done;
    rewrite ?length_alter, ?length_app; try (simpl; lia).
  1, 3: lookup_updated;
    by rewrite ?(decide_False (P := _ = root t1)), ?(decide_False (P := _ = z)), ?decide_True by lia.
  all: intros i n Hn; pose proof (lookup_lt_Some _ _ _ Hn); lookup_updated;
    rewrite ?(decide_False (P := _ = length _)) by lia;
    destruct (decide (i = z)), (decide (i = root t1)); try congruence.
  1, 2: exists (weight n + DEFAULT_NODE_WEIGHT); split; [by destruct n|done].
  all: exists (weight n); split; [by destruct n|done].
Qed.

(** ** The invariant of [build] *)

(** Node [i] is the leaf of instance [c]. *)
Definition leaf_for (t : TopologyTree) (i : nat) (c : CrushInstance) : Prop :=
  nodes t !! i = Some (leaf_node (topology t) c).

(** Every instance has at most one node, and the root is none of them. *)
Record tree_core (added : list CrushInstance) (t : TopologyTree) : Prop := {
  core_root : ∃ r, nodes t !! root t = Some r ∧ node_instance r = None;
  core_known : ∀ i n a,
    nodes t !! i = Some n → node_instance n = Some a → a ∈ crush_instance <$> added;
  core_inj : ∀ i j n m a,
    nodes t !! i = Some n → nodes t !! j = Some m →
    node_instance n = Some a → node_instance m = Some a → i = j
}.

Definition flat_inv (added : list CrushInstance) (t : TopologyTree) : Prop :=
  (∀ i, child_of t (root t) i → ∃ c, c ∈ added ∧ leaf_for t i c) ∧
  (added ≠ [] → ∃ i, child_of t (root t) i).

(** [zn] is a zone of [t] at index [z], known to [zones] by its name. *)
Definition zone_at (added : list CrushInstance) (t : TopologyTree) (zones : gmap string nat)
    (z : nat) (zn : Node) : Prop :=
  nodes t !! z = Some zn ∧ node_type zn = fault_zone_type (topology t) ∧
  node_instance zn = None ∧ zones !! node_name zn = Some z ∧ z ≠ root t ∧
  ∀ i, i ∈ children zn → ∃ c, c ∈ added ∧ fault_zone c = node_name zn ∧ leaf_for t i c.

Definition zone_inv (added : list CrushInstance) (t : TopologyTree) (zones : gmap string nat)
  : Prop :=
  (∀ z, child_of t (root t) z → ∃ zn, zone_at added t zones z zn) ∧
  (∀ name z, zones !! name = Some z →
     child_of t (root t) z ∧ ∃ zn, nodes t !! z = Some zn ∧ node_name zn = name).

(** Only the zone that is being filled may be empty. *)
Definition zones_filled (t : TopologyTree) (except : option nat) : Prop :=
  ∀ z, child_of t (root t) z → Some z ≠ except → ∃ i, child_of t z i.

Lemma root_lt added t : tree_core added t → (root t < length (nodes t))%nat.
Proof. intros [(r & Hr & _) _ _]. by eapply lookup_lt_Some. Qed.

Section grown_facts.
Context (x : Node) (p : nat) (t t' : TopologyTree).
Context (Hg : grown x p t t').

Lemma grown_lookup_inv i n' :
  nodes t' !! i = Some n' →
  (i = length (nodes t) ∧ n' = x) ∨
  ∃ n w, nodes t !! i = Some n ∧
    n' = set_weight w (if decide (i = p) then push_child (length (nodes t)) n else n) ∧
    (i ≠ p → i ≠ root t → n' = n).
Proof using Hg.
  intros Hi. pose proof (lookup_lt_Some _ _ _ Hi) as Hlt. rewrite (grown_length _ _ _ _ Hg) in Hlt.
  destruct (decide (i = length (nodes t))) as [->|Hne].
  - left. rewrite (grown_new _ _ _ _ Hg) in Hi. by simplify_eq.
  - right. destruct (lookup_lt_is_Some_2 (nodes t) i) as [n Hn]; [lia|].
    destruct (grown_old _ _ _ _ Hg i n Hn) as (w & Hw & Hsame). exists n, w.
    rewrite Hi in Hw. injection Hw as ->. split_and!; [done..|]. intros Hp Hr.
    rewrite decide_False, (Hsame Hp Hr) by done. apply set_weight_id.
Qed.

Lemma grown_child_inv q i :
  child_of t' q i → children x = [] →
  child_of t q i ∨ (q = p ∧ i = length (nodes t) ).
Proof using Hg.
  intros (n' & Hn' & Hin) Hx. destruct (grown_lookup_inv _ _ Hn') as [[-> ->]|(n & w & Hn & -> & _)].
  - rewrite Hx in Hin. by apply elem_of_nil in Hin.
  - destruct (decide (q = p)) as [->|]; cbn in Hin; [|left; by exists n].
    apply elem_of_app in Hin as [Hin|Hin%list_elem_of_singleton]; [left; by exists n|by right].
Qed.

Lemma grown_child q i : child_of t q i → child_of t' q i.
Proof using Hg.
  intros (n & Hn & Hin). destruct (grown_old _ _ _ _ Hg q n Hn) as (w & Hw & _).
  eexists. split; [exact Hw|]. destruct (decide (q = p)); cbn; [|done]. apply elem_of_app. by left.
Qed.

Lemma grown_new_child : (p < length (nodes t))%nat → child_of t' p (length (nodes t)).
Proof using Hg.
  intros [n Hn]%lookup_lt_is_Some_2. destruct (grown_old _ _ _ _ Hg p n Hn) as (w & Hw & _).
  eexists. split; [exact Hw|]. rewrite decide_True by done. cbn. apply elem_of_app. right. by left.
Qed.

Lemma grown_core added added' :
  tree_core added t →
  (∀ c, c ∈ crush_instance <$> added → c ∈ crush_instance <$> added') →
  (∀ a, node_instance x = Some a →
     a ∉ crush_instance <$> added ∧ a ∈ crush_instance <$> added') →
  tree_core added' t'.
Proof using Hg.
  intros [(r & Hr & Hri) Hknown Hinj] Hsub Hx.
  assert (∀ i n' a, nodes t' !! i = Some n' → node_instance n' = Some a →
    (i = length (nodes t) ∧ node_instance x = Some a) ∨
    ∃ n, nodes t !! i = Some n ∧ node_instance n = Some a) as Hinv.
  { intros i n' a Hi Ha. destruct (grown_lookup_inv _ _ Hi) as [[-> ->]|(n & w & Hn & -> & _)].
    - by left.
    - right. exists n. split; [done|]. by destruct (decide (i = p)). }
  split.
  - rewrite (grown_root _ _ _ _ Hg). destruct (grown_old _ _ _ _ Hg _ _ Hr) as (w & -> & _).
    eexists. split; [done|]. by destruct (decide (root t = p)).
  - intros i n' a Hi Ha. destruct (Hinv _ _ _ Hi Ha) as [[_ Hxa]|(n & Hn & Hna)]; [by apply Hx|].
    apply Hsub. by eapply Hknown.
  - intros i j n' m' a Hi Hj Hni Hmj.
    destruct (Hinv _ _ _ Hi Hni) as [[-> Hxa]|(n & Hn & Hna)],
      (Hinv _ _ _ Hj Hmj) as [[-> Hxb]|(m & Hm & Hma)]; [done| | |by eapply Hinj].
    + destruct (Hx a Hxa) as [[] _]. by eapply Hknown.
    + destruct (Hx a Hxb) as [[] _]. by eapply Hknown.
Qed.

Lemma grown_leaf i c :
  leaf_for t i c → (∀ n, nodes t !! p = Some n → node_instance n = None) →
  (∀ n, nodes t !! root t = Some n → node_instance n = None) → leaf_for t' i c.
Proof using Hg.
  unfold leaf_for. intros Hi Hp Hr. rewrite (grown_topology _ _ _ _ Hg).
  destruct (grown_old _ _ _ _ Hg _ _ Hi) as (w & -> & Hsame).
  assert (i ≠ p) as Hip by (intros ->; by apply Hp in Hi).
  assert (i ≠ root t) as Hir by (intros ->; by apply Hr in Hi).
  by rewrite decide_False, (Hsame Hip Hir), set_weight_id by done.
Qed.
End grown_facts.

Lemma core_root_instance added t n :
  tree_core added t → nodes t !! root t = Some n → node_instance n = None.
Proof. intros [(r & Hr & Hri) _ _] Hn. congruence. Qed.

Lemma core_add_leaf added t t' p c :
  tree_core added t → grown (leaf_node (topology t) c) p t t' →
  crush_instance c ∉ crush_instance <$> added → tree_core (added ++ [c]) t'.
Proof.
  intros Hcore Hg Hfresh. eapply grown_core; [exact Hg|exact Hcore| |].
  - intros a Ha. rewrite fmap_app. apply elem_of_app. by left.
  - cbn. intros a [= <-]. split; [done|]. rewrite fmap_app. apply elem_of_app. right. by left.
Qed.

Lemma flat_step added t c :
  tree_core added t → flat_inv added t → crush_instance c ∉ crush_instance <$> added →
  tree_core (added ++ [c]) (add_flat_instance live t c) ∧
  flat_inv (added ++ [c]) (add_flat_instance live t c).
Proof.
  intros Hcore [Hall Hne] Hfresh. pose proof (root_lt _ _ Hcore) as Hlt.
  pose proof (flat_grown t c Hlt) as Hg. split; [by eapply core_add_leaf|]. split.
  - intros i Hi. rewrite (grown_root _ _ _ _ Hg) in Hi.
    destruct (grown_child_inv _ _ _ _ Hg _ _ Hi eq_refl) as [Hold|[_ ->]].
    + destruct (Hall i Hold) as (c' & Hc' & Hleaf). exists c'. split; [apply elem_of_app; by left|].
      eapply grown_leaf; [exact Hg|done|..]; intros n; by eapply core_root_instance.
    + exists c. split; [apply elem_of_app; right; by left|]. unfold leaf_for.
      by rewrite (grown_new _ _ _ _ Hg), (grown_topology _ _ _ _ Hg).
  - intros _. rewrite (grown_root _ _ _ _ Hg). eexists. by eapply grown_new_child.
Qed.

(** A zone that gets no new child is kept as it is. *)
Lemma zone_at_kept x p t t' added added' zones zones' z zn :
  grown x p t t' → tree_core added t → zone_at added t zones z zn → z ≠ p →
  (∀ n, nodes t !! p = Some n → node_instance n = None) →
  (∀ c, c ∈ added → c ∈ added') → zones' !! node_name zn = Some z →
  zone_at added' t' zones' z zn.
Proof.
  intros Hg Hcore (Hzn & Hty & Hi & _ & Hne & Hkids) Hp Hpi Hsub Hname. unfold zone_at.
  rewrite (grown_topology _ _ _ _ Hg), (grown_root _ _ _ _ Hg).
  destruct (grown_old _ _ _ _ Hg _ _ Hzn) as (w & Hw & Hsame).
  rewrite decide_False, (Hsame Hp Hne), set_weight_id in Hw by done.
  split_and!; [done..|]. intros i Hin. destruct (Hkids i Hin) as (c & ? & ? & Hleaf).
  exists c. split_and!; [by apply Hsub|done|].
  eapply grown_leaf; [exact Hg|done|done|]. intros n. by eapply core_root_instance.
Qed.

(** Looking a zone up adds at most an empty zone. *)
Lemma zone_for_step added t zones name t1 zones1 z :
  zone_for t zones name = (t1, zones1, z) →
  tree_core added t → zone_inv added t zones → zones_filled t None →
  tree_core added t1 ∧ zone_inv added t1 zones1 ∧ zones_filled t1 (Some z) ∧
  zones1 !! name = Some z ∧ topology t1 = topology t.
Proof.
  intros Hz Hcore Hinv Hfilled. destruct (zones !! name) as [z0|] eqn:Hname.
  { unfold zone_for in Hz. rewrite Hname in Hz. simplify_eq. split_and!; [done..| |done|done].
    intros z' Hz' _. by apply Hfilled. }
  pose proof (root_lt _ _ Hcore) as Hlt. pose proof (zone_for_grown t zones name Hlt Hname) as Hg.
  assert (zones1 = <[name := z]> zones ∧ z = length (nodes t)) as [-> Hzlen].
  { unfold zone_for in Hz. rewrite Hname in Hz. cbn in Hz. by simplify_eq. }
  rewrite Hz in Hg. cbn [fst] in Hg. destruct Hinv as [Hall Hzones].
  pose proof (grown_topology _ _ _ _ Hg) as Htopo. pose proof (grown_root _ _ _ _ Hg) as Hroot.
  pose proof (grown_new _ _ _ _ Hg) as Hnew. rewrite <-Hzlen in Hnew.
  assert (tree_core added t1) as Hcore1 by (eapply grown_core; [exact Hg|exact Hcore|done|done]).
  split_and!; [done|split| |apply lookup_insert_eq|done].
  - intros z' Hz'. rewrite Hroot in Hz'.
    destruct (grown_child_inv _ _ _ _ Hg _ _ Hz' eq_refl) as [Hz''|[_ ->]].
    + destruct (Hall z' Hz'') as (zn & Hzn). exists zn. pose proof Hzn as (_ & _ & _ & Hn & Hne & _).
      eapply zone_at_kept; [exact Hg|done..|intros n; by eapply core_root_instance|done|].
      rewrite lookup_insert_ne; [done|]. intros Heq. congruence.
    + rewrite <-Hzlen. exists (zone_node (topology t) name). unfold zone_at. rewrite Htopo, Hroot.
      split_and!; [done..|apply lookup_insert_eq|lia|]. by intros i ?%elem_of_nil.
  - intros name' z' Hl. rewrite Hroot. destruct (decide (name' = name)) as [->|Hne].
    + rewrite lookup_insert_eq in Hl. injection Hl as <-. split; [|by eexists].
      rewrite Hzlen. by eapply grown_new_child.
    + rewrite lookup_insert_ne in Hl by done. destruct (Hzones _ _ Hl) as [Hc (zn & Hzn & Hnm)].
      split; [by eapply grown_child|].
      destruct (grown_old _ _ _ _ Hg _ _ Hzn) as (w & Hw & _). eexists. split; [exact Hw|].
      by destruct (decide (z' = root t)).
  - intros z' Hz' Hne. rewrite Hroot in Hz'.
    destruct (grown_child_inv _ _ _ _ Hg _ _ Hz' eq_refl) as [Hz''|[_ ->]]; [|congruence].
    destruct (Hfilled z' Hz'') as [i Hi]; [done|]. exists i. by eapply grown_child.
Qed.

(** Adding a leaf to a zone of its own fault zone. *)
Lemma zone_fill_step added t zones z c t' :
  grown (leaf_node (topology t) c) z t t' →
  tree_core added t → zone_inv added t zones → zones_filled t (Some z) →
  zones !! fault_zone c = Some z → crush_instance c ∉ crush_instance <$> added →
  tree_core (added ++ [c]) t' ∧ zone_inv (added ++ [c]) t' zones ∧ zones_filled t' None.
Proof.
  intros Hg Hcore [Hall Hzones] Hfilled Hz Hfresh.
  destruct (Hzones _ _ Hz) as [Hchild (zn & Hzn & Hname)].
  destruct (Hall z Hchild) as (zn' & Hat). assert (zn' = zn) as -> by (destruct Hat; congruence).
  pose proof Hat as (_ & Hty & Hi & _ & Hne & Hkids).
  assert (∀ n, nodes t !! z = Some n → node_instance n = None) as Hzi by (intros n Hn; congruence).
  assert (∀ c', c' ∈ added → c' ∈ added ++ [c]) as Hsub by (intros; apply elem_of_app; by left).
  pose proof (grown_root _ _ _ _ Hg) as Hroot.
  assert (∀ z', child_of t' (root t') z' → child_of t (root t) z') as Hback.
  { intros z' Hz'. rewrite Hroot in Hz'.
    destruct (grown_child_inv _ _ _ _ Hg _ _ Hz' eq_refl) as [|[? _]]; congruence. }
  split_and!; [by eapply core_add_leaf|split|].
  - intros z' Hz'%Hback. destruct (Hall z' Hz') as (zn' & Hat'). pose proof Hat' as (_ & _ & _ & Hn' & _).
    destruct (decide (z' = z)) as [->|Hzz]; [|exists zn'; by eapply zone_at_kept].
    destruct (grown_old _ _ _ _ Hg _ _ Hzn) as (w & Hw & _). rewrite decide_True in Hw by done.
    eexists. unfold zone_at. rewrite (grown_topology _ _ _ _ Hg), Hroot.
    split_and!; [exact Hw|done|done|by rewrite <-Hz, <-Hname|done|]. cbn.
    intros i [Hin|Hin%list_elem_of_singleton]%elem_of_app.
    + destruct (Hkids i Hin) as (c' & ? & ? & Hleaf). exists c'. split_and!; [by apply Hsub|done|].
      eapply grown_leaf; [exact Hg|done|done|]. intros n. by eapply core_root_instance.
    + exists c. split_and!; [apply elem_of_app; right; by left|by rewrite Hname|]. subst i.
      unfold leaf_for. by rewrite (grown_new _ _ _ _ Hg), (grown_topology _ _ _ _ Hg).
  - intros name z' Hl. rewrite Hroot. destruct (Hzones _ _ Hl) as [Hc (zn' & Hzn' & Hnm)].
    split; [by eapply grown_child|]. destruct (grown_old _ _ _ _ Hg _ _ Hzn') as (w & Hw & _).
    eexists. split; [exact Hw|]. by destruct (decide (z' = z)).
  - intros z' Hz'%Hback _. destruct (decide (z' = z)) as [->|Hzz].
    + eexists. eapply grown_new_child; [exact Hg|]. by eapply lookup_lt_Some.
    + destruct (Hfilled z' Hz') as [i Hi']; [congruence|]. exists i. by eapply grown_child.
Qed.

(** What [build] has established after some of the instances. *)
Definition build_inv (topo : CrushTopology) (added : list CrushInstance)
    (acc : TopologyTree * gmap string nat) : Prop :=
  topology acc.1 = topo ∧ tree_core added acc.1 ∧
  if is_flat topo then flat_inv added acc.1
  else zone_inv added acc.1 acc.2 ∧ zones_filled acc.1 None ∧
       (added ≠ [] → ∃ z, child_of acc.1 (root acc.1) z).

Lemma empty_tree_inv topo : build_inv topo [] (empty_tree topo, ∅).
Proof.
  assert (∀ q i, ¬ child_of (empty_tree topo) q i) as Hno.
  { intros q i (n & Hn & Hin). apply list_lookup_singleton_Some in Hn as [-> <-].
    by apply elem_of_nil in Hin. }
  split_and!; [done|split|].
  - by eexists.
  - intros i n a Hn. by apply list_lookup_singleton_Some in Hn as [-> <-].
  - intros i j n m a Hn. by apply list_lookup_singleton_Some in Hn as [-> <-].
  - destruct (is_flat topo); cbn [fst snd].
    + split; [|done]. intros i Hi. by apply Hno in Hi.
    + split_and!; [split|intros z Hz; by apply Hno in Hz|done].
      * intros z Hz. by apply Hno in Hz.
      * intros name z Hl. by rewrite lookup_empty in Hl.
Qed.

Lemma build_step_inv topo added acc c :
  build_inv topo added acc → crush_instance c ∉ crush_instance <$> added →
  build_inv topo (added ++ [c]) (build_step live acc c).
Proof.
  destruct acc as [t zones]. unfold build_inv, build_step. cbn [fst snd].
  intros (Htopo & Hcore & Hinv) Hfresh. rewrite Htopo.
  destruct (is_flat topo); cbn [fst snd].
  { split; [|by apply flat_step]. pose proof (flat_grown t c (root_lt _ _ Hcore)) as Hg.
    by rewrite (grown_topology _ _ _ _ Hg). }
  destruct Hinv as (Hinv & Hfilled & _). pose proof (zoned_grown t zones c) as Hg.
  destruct (zone_for t zones (fault_zone c)) as [[t1 zones1] z] eqn:Hz.
  destruct (zone_for_step _ _ _ _ _ _ _ Hz Hcore Hinv Hfilled) as (Hcore1 & Hinv1 & Hf1 & Hl & Ht1).
  destruct (proj2 Hinv1 _ _ Hl) as [Hchild (zn & Hzn & _)].
  destruct (proj1 Hinv1 _ Hchild) as (zn' & _ & _ & _ & _ & Hne & _).
  destruct Hg as [Hg ->]; [by eapply root_lt|by eapply lookup_lt_Some|done|].
  destruct (zone_fill_step _ _ _ _ _ _ Hg Hcore1 Hinv1 Hf1 Hl Hfresh) as (Hcore2 & Hinv2 & Hf2).
  split; [by rewrite (grown_topology _ _ _ _ Hg), Ht1|]. split_and!; [done..|].
  intros _. exists z. rewrite (grown_root _ _ _ _ Hg). by eapply grown_child.
Qed.

Lemma build_ok instances topo :
  NoDup (crush_instance <$> instances) →
  ∃ zones, build_inv topo instances (TopologyTree_build instances live topo, zones).
Proof.
  intros Hnd. unfold TopologyTree_build.
  assert (build_inv topo instances (foldl (build_step live) (empty_tree topo, ∅) instances)) as H.
  { induction instances as [|c instances IH] using rev_ind; [apply empty_tree_inv|].
    rewrite foldl_snoc. rewrite fmap_app in Hnd. apply NoDup_app in Hnd as (Hnd & Hdis & _).
    apply build_step_inv; [by apply IH|]. intros Hin. apply (Hdis _ Hin). by left. }
  destruct (foldl _ _ _) as [t zones]. by exists zones.
Qed.

(** ** What a built tree gives to the placement *)

Lemma build_levels topo instances t zones :
  build_inv topo instances (t, zones) → instances ≠ [] → tree_levels t.
Proof.
  unfold build_inv, tree_levels. cbn [fst snd]. intros (<- & [(r & Hr & _) _ _] & Hinv) Hne.
  assert (∀ q i, child_of t q i →
    ∃ p, nodes t !! q = Some p ∧ children p ≠ [] ∧ ∀ c, c ∈ children p → child_of t q c) as Hlev.
  { intros q i (p & Hp & Hi). exists p. split_and!; [done| |by intros; exists p].
    intros Hnil. rewrite Hnil in Hi. by apply elem_of_nil in Hi. }
  destruct (is_flat (topology t)).
  - destruct Hinv as [Hall Hsome]. destruct (Hsome Hne) as [i Hi].
    destruct (Hlev _ _ Hi) as (p & Hp & Hc & Hk). exists p. split_and!; [done..|].
    intros c Hin. destruct (Hall c (Hk c Hin)) as (ci & _ & Hleaf). by eexists.
  - destruct Hinv as ((Hall & _) & Hfilled & Hsome). destruct (Hsome Hne) as [z Hz]. split.
    + destruct (Hlev _ _ Hz) as (p & Hp & Hc & Hk). exists p. split_and!; [done..|].
      intros c Hin. destruct (Hall c (Hk c Hin)) as (zn & Hzn & Hty & _). by exists zn.
    + intros z' Hz'. destruct (Hfilled z' Hz') as [i Hi]; [done|].
      destruct (Hall z' Hz') as (zn & Hzn & _ & _ & _ & _ & Hkids).
      destruct (Hlev _ _ Hi) as (p & Hp & Hc & _). exists p. split_and!; [done..|].
      intros c Hin. assert (p = zn) as -> by congruence.
      destruct (Hkids c Hin) as (ci & _ & _ & Hleaf). by eexists.
Qed.

(** The instances of a list of selected leaves: distinct, live and, in a zoned
    topology, of distinct fault zones. *)
Definition good_instances (topo : CrushTopology) (instances cs : list CrushInstance) : Prop :=
  NoDup (crush_instance <$> cs) ∧
  (∀ c, c ∈ cs → c ∈ instances ∧ crush_instance c ∈ live) ∧
  (fault_zone_type topo ≠ end_node_type topo → NoDup (fault_zone <$> cs)).

Lemma leaf_available t i c : leaf_for t i c → available t i → crush_instance c ∈ live.
Proof.
  intros Hleaf (n & Hn & Hav). unfold leaf_for in Hleaf. rewrite Hn in Hleaf.
  injection Hleaf as ->. unfold is_node_unavailable, leaf_node in Hav. cbn in Hav.
  by destruct (bool_decide_reflect (crush_instance c ∈ live)).
Qed.

Lemma leaf_inj added t i j c c' :
  tree_core added t → leaf_for t i c → leaf_for t j c' →
  crush_instance c = crush_instance c' → i = j.
Proof. intros Hcore Hi Hj Heq. eapply (core_inj _ _ Hcore); [done..|by rewrite Heq]. Qed.

Lemma placed_instances topo instances t zones selected used :
  NoDup (crush_instance <$> instances) →
  build_inv topo instances (t, zones) → placed t selected used →
  ∃ cs, Forall2 (leaf_for t) selected cs ∧ good_instances topo instances cs.
Proof.
  unfold build_inv, placed. cbn [fst snd]. intros Hinst (<- & Hcore & Hinv) Hp.
  unfold good_instances. destruct (is_flat (topology t)) eqn:Hflat; unfold is_flat in Hflat; reflect_bools.
  - destruct Hinv as [Hall _], Hp as [Hnd Hsel].
    assert (∃ cs, Forall2 (λ i c, leaf_for t i c ∧ c ∈ instances ∧ crush_instance c ∈ live)
                    selected cs) as [cs Hcs].
    { clear Hnd. induction selected as [|i l IH]; [by exists []|].
      destruct IH as [cs Hcs]; [intros; apply Hsel; by right|].
      destruct (Hsel i) as [Hc Hav]; [left|]. destruct (Hall i Hc) as (c & Hin & Hleaf).
      exists (c :: cs). constructor; eauto using leaf_available. }
    exists cs. split_and!; [by eapply Forall2_impl; [done|]; intros ?? (? & _)| | |done].
    + eapply NoDup_fmap_Forall2; [exact Hcs|done|]. intros i j c c' (Hi & _) (Hj & _) Heq.
      by eapply leaf_inj.
    + intros c Hc. apply list_elem_of_lookup in Hc as [k Hk].
      by destruct (Forall2_lookup_r _ _ _ _ _ Hcs Hk) as (i & _ & _ & ?).
  - destruct Hinv as ((Hall & _) & _ & _), Hp as (zs & Hnd & _ & Hin).
    assert (∃ cs, Forall2 (leaf_for t) selected cs ∧ Forall2 (λ z c, c ∈ instances ∧
      crush_instance c ∈ live ∧ zones !! fault_zone c = Some z) zs cs) as (cs & Hleaf & Hcs).
    { clear Hnd. induction Hin as [|z i zs selected (Hz & (zn & Hzn & Hi) & Hav) _ IH];
        [exists []; split; constructor|].
      destruct IH as (cs & Hl & Hc). destruct (Hall z Hz) as (zn' & Hzn' & _ & _ & Hname & _ & Hkids).
      assert (zn' = zn) as -> by congruence. destruct (Hkids i Hi) as (c & Hin & Hfz & Hleaf).
      exists (c :: cs). split; constructor; [done..| |done].
      split_and!; [done|by eapply leaf_available|by rewrite Hfz]. }
    assert (NoDup (fault_zone <$> cs)) as Hndf.
    { eapply NoDup_fmap_Forall2; [exact Hcs|done|].
      intros z z' c c' (_ & _ & Hc) (_ & _ & Hc') Heq. congruence. }
    assert (∀ c, c ∈ cs → c ∈ instances ∧ crush_instance c ∈ live) as Hall'.
    { intros c [k Hk]%list_elem_of_lookup.
      by destruct (Forall2_lookup_r _ _ _ _ _ Hcs Hk) as (z & _ & ? & ? & _). }
    exists cs. split_and!; [done| | |done].
    + apply NoDup_fmap_2_strong; [|by eapply NoDup_fmap_1].
      intros c c' Hc Hc'. apply (NoDup_fmap_inj_on crush_instance instances); [done|by apply Hall'..].
    + auto.
Qed.

End tree_facts.

(** ** Input checks *)

Definition supported (topo : CrushTopology) : Prop :=
  (path_components (path topo) = [end_node_type topo] ∧
   fault_zone_type topo = end_node_type topo) ∨
  path_components (path topo) = [fault_zone_type topo; end_node_type topo].

Record valid_input (partitions : list PartitionId) (instances : list CrushInstance)
    (live : gset InstanceId) (topo : CrushTopology) : Prop := {
  valid_topology : supported topo;
  valid_some_partition : partitions ≠ [];
  valid_some_instance : instances ≠ [];
  valid_partitions : NoDup partitions;
  valid_instances : NoDup (crush_instance <$> instances);
  valid_live : ∀ i, i ∈ live → i ∈ crush_instance <$> instances
}.

Lemma validate_ok_iff topo : CrushTopology_validate topo = Ok tt ↔ supported topo.
Proof.
  unfold CrushTopology_validate, supported.
  destruct (path_components (path topo)) as [|a [|b [|]]]; cbn;
    try (split; [done|intros [[? _]|?]; done]).
  - destruct (String.eqb_spec a (end_node_type topo)),
      (String.eqb_spec (fault_zone_type topo) (end_node_type topo)); cbn; naive_solver.
  - destruct (String.eqb_spec a (fault_zone_type topo)),
      (String.eqb_spec b (end_node_type topo)); cbn; naive_solver.
Qed.

(** A loop that inserts keys into a set and stops at the first duplicate. *)
Lemma insert_loop_iff {X K} `{Countable K} (key : X → K) (err : X → stop CrushError) step l seen :
  (∀ (seen : gset K) x,
    step seen x = if bool_decide (key x ∈ seen) then Err (err x) else Ok ({[key x]} ∪ seen)) →
  match try_fold step seen l with
  | Ok s => NoDup (key <$> l) ∧ (∀ k, k ∈ key <$> l → k ∉ seen) ∧
            s = list_to_set (key <$> l) ∪ seen
  | Err e => ∃ x, e = err x ∧ ¬ (NoDup (key <$> l) ∧ ∀ k, k ∈ key <$> l → k ∉ seen)
  end.
Proof.
  intros Hstep. revert seen. induction l as [|x l IH]; intros seen; cbn [try_fold].
  { split_and!; [constructor|by intros k ?%elem_of_nil|set_solver]. }
  rewrite Hstep. destruct (bool_decide (key x ∈ seen)) eqn:Hx; reflect_bools.
  { exists x. split; [done|]. intros [_ Hno]. apply (Hno (key x)); [by left|done]. }
  specialize (IH ({[key x]} ∪ seen)). rewrite fmap_cons. destruct (try_fold step _ l) as [s|e].
  - destruct IH as (Hnd & Hno & ->). split_and!; [| |set_solver].
    + apply NoDup_cons. split; [|done]. intros Hin. apply (Hno _ Hin). set_solver.
    + intros k [->|Hk]%elem_of_cons; [done|]. intros Hs. apply (Hno k Hk). set_solver.
  - destruct IH as (y & -> & Hn). exists y. split; [done|].
    intros [[Hxl Hnd]%NoDup_cons Hno]. apply Hn.
    split; [done|]. intros k Hk [->%elem_of_singleton|Hs]%elem_of_union; [done|].
    apply (Hno k); [by right|done].
Qed.

Lemma check_input_cases partitions instances live topo :
  match check_input partitions instances live topo with
  | Ok _ => valid_input partitions instances live topo
  | Err e => ¬ valid_input partitions instances live topo ∧ ∃ c, e = Raise c
  end.
Proof.
  unfold check_input, raise_err. pose proof (validate_ok_iff topo) as Hval.
  destruct (CrushTopology_validate topo) as [[]|e]; cbn [map_err];
    [|split; [|by eexists]; intros [Ht _ _ _ _ _]; by apply Hval in Ht].
  destruct (bool_decide (partitions = [])) eqn:Hp; reflect_bools; [by split; [intros []|eexists]|].
  destruct (bool_decide (instances = [])) eqn:Hi; reflect_bools; [by split; [intros []|eexists]|].
  pose proof (insert_loop_iff id (λ p, Raise (DuplicatePartition p)) insert_partition
    partitions ∅ (λ _ _, eq_refl)) as Hps.
  destruct (try_fold insert_partition ∅ partitions) as [seen|e]; rewrite list_fmap_id in Hps;
    [|destruct Hps as (x & -> & Hn); split; [|by eexists]; intros []; apply Hn; set_solver].
  pose proof (insert_loop_iff crush_instance (λ c, Raise (DuplicateInstance (crush_instance c)))
    insert_instance instances ∅ (λ _ _, eq_refl)) as His.
  destruct (try_fold insert_instance ∅ instances) as [known|e];
    [|destruct His as (x & -> & Hn); split; [|by eexists]; intros []; apply Hn; set_solver].
  destruct Hps as (Hndp & _ & _), His as (Hndi & _ & ->).
  pose proof (try_fold_check (check_live (list_to_set (crush_instance <$> instances) ∪ ∅))
    (set_items live)) as Hl.
  assert (∀ i, check_live (list_to_set (crush_instance <$> instances) ∪ ∅) tt i = Ok tt ↔
            i ∈ crush_instance <$> instances) as Hc.
  { intros i. unfold check_live. case_bool_decide; set_solver. }
  destruct (try_fold _ tt (set_items live)) as [[]|e] eqn:He.
  - split; [by apply Hval|done..|]. intros i Hin. apply Hc, Hl; [done|]. by apply elem_of_set_items.
  - split.
    + intros []. assert (Err e = Ok tt); [|done]. apply Hl. intros i Hin%elem_of_set_items.
      apply Hc. auto.
    + apply try_fold_err in He as ([] & i & _ & He). unfold check_live in He.
      destruct (bool_decide _); [done|]. injection He as <-. by eexists.
Qed.

(** ** Assignments *)

Section assignment_facts.
Variable powf : spec_float → spec_float → spec_float.

(** What a preference list must satisfy: at most [rc] distinct live instances
    of the topology, of distinct fault zones when the topology has zones. *)
Definition good_preference (live : gset InstanceId) (topo : CrushTopology)
    (instances : list CrushInstance) (rc : nat) (l : list InstanceId) : Prop :=
  (length l ≤ rc)%nat ∧
  ∃ cs, l = crush_instance <$> cs ∧ good_instances live topo instances cs.

Definition good_assignment (partitions : list PartitionId) (live : gset InstanceId)
    (topo : CrushTopology) (instances : list CrushInstance) (rc : nat)
    (m : gmap PartitionId (list InstanceId)) : Prop :=
  dom m = list_to_set partitions ∧
  ∀ p l, m !! p = Some l → good_preference live topo instances rc l.

Lemma push_selected_ok live t selected cs acc :
  Forall2 (leaf_for live t) selected cs →
  try_fold (push_selected t) acc selected = Ok (acc ++ (crush_instance <$> cs)).
Proof.
  intros Hf. revert acc. induction Hf as [|i c selected cs Hi _ IH]; intros acc; cbn [try_fold].
  - by rewrite app_nil_r.
  - unfold push_selected at 1, node_at. unfold leaf_for in Hi. rewrite Hi. cbn.
    by rewrite IH, <-app_assoc.
Qed.

Lemma place_partition_spec fuel live topo instances t zones rc m p :
  capacity_overflow rc = false → instances ≠ [] → NoDup (crush_instance <$> instances) →
  build_inv live topo instances (t, zones) →
  ends_in (λ m', ∃ l, m' = <[p := l]> m ∧ good_preference live topo instances rc l)
    (place_partition powf fuel t rc m p).
Proof.
  intros Hcap Hne Hnd Hinv. unfold place_partition.
  eapply ends_in_bind; [apply select_replicas_spec; [by eapply build_levels|done]|].
  intros selected ((used & Hplaced) & Hlen).
  destruct (placed_instances _ _ _ _ _ _ _ Hnd Hinv Hplaced) as (cs & Hcs & Hgood).
  rewrite (push_selected_ok _ _ _ _ _ Hcs), app_nil_l. cbn [ends_in].
  exists (crush_instance <$> cs). split; [done|]. split; [|by exists cs].
  by rewrite length_fmap, <-(Forall2_length _ _ _ Hcs).
Qed.

Lemma crush_compute_spec fuel resource partitions rc instances live topo :
  capacity_overflow rc = false → valid_input partitions instances live topo →
  ends_in (good_assignment partitions live topo instances rc)
    (compute_crush_assignment powf fuel resource partitions rc instances live topo).
Proof.
  intros Hcap Hvalid. unfold compute_crush_assignment.
  pose proof (check_input_cases partitions instances live topo) as Hcheck.
  destruct (check_input _ _ _ _) as [u|]; [|by destruct Hcheck].
  destruct (build_ok live instances topo (valid_instances _ _ _ _ Hvalid)) as [zones Hinv].
  apply (ends_in_fold _ (λ done m, good_assignment done live topo instances rc m)).
  { split; [by rewrite dom_empty_L|]. intros p l Hl. by rewrite lookup_empty in Hl. }
  intros done p m _ [Hdom Hall]. eapply ends_in_weaken.
  { eapply place_partition_spec; [done|by apply Hvalid..|exact Hinv]. }
  intros m' (l & -> & Hl). split.
  - rewrite dom_insert_L, Hdom, list_to_set_app_L. set_solver.
  - intros p' l' Hl'. apply lookup_insert_Some in Hl' as [[-> ->]|[_ Hl']]; eauto.
Qed.

(** More replicas than a vector can hold: the first partition panics. *)
Lemma crush_compute_overflow fuel resource partitions rc instances live topo :
  capacity_overflow rc = true → valid_input partitions instances live topo →
  compute_crush_assignment powf fuel resource partitions rc instances live topo = Err Panicked.
Proof.
  intros Hcap Hvalid. unfold compute_crush_assignment.
  pose proof (check_input_cases partitions instances live topo) as Hcheck.
  destruct (check_input _ _ _ _) as [u|]; [|by destruct Hcheck].
  destruct partitions as [|p partitions]; [by destruct (valid_some_partition _ _ _ _ Hvalid)|].
  cbn [try_fold]. unfold place_partition, select_replicas. by rewrite Hcap.
Qed.

(** ** Enough fuel *)

(** A result that was reached stays the result with more fuel. *)
Definition refines {A} (r r' : result A (stop CrushError)) : Prop := ∀ a, r = Ok a → r' = Ok a.

Lemma refines_bind {A B} (r r' : result A (stop CrushError)) (k k' : A → result B (stop CrushError)) :
  refines r r' → (∀ a, refines (k a) (k' a)) →
  refines (let? a := r in k a) (let? a := r' in k' a).
Proof. intros Hr Hk b. destruct r as [a|]; [|done]. rewrite (Hr a eq_refl). apply Hk. Qed.

Lemma refines_fold {S X} (f f' : S → X → result S (stop CrushError)) l s :
  (∀ s x, refines (f s x) (f' s x)) → refines (try_fold f s l) (try_fold f' s l).
Proof.
  intros Hf. revert s. induction l as [|x l IH]; intros s; [by intros ?|]. cbn [try_fold].
  by apply refines_bind.
Qed.

Lemma draw_fuel t parent input ty excluded selected r fuel fuel' q failure loopback rejected :
  (fuel ≤ fuel')%nat →
  refines (draw powf t parent input ty excluded selected r fuel q failure loopback rejected)
    (draw powf t parent input ty excluded selected r fuel' q failure loopback rejected).
Proof.
  revert fuel' q failure loopback rejected.
  induction fuel as [|fuel IH]; intros fuel' q failure loopback rejected Hle out; [done|].
  destruct fuel' as [|fuel']; [lia|]. cbn [draw].
  destruct (choose_child _ _ _ _ _) as [[c n]|]; [|done].
  destruct (negb _); [apply IH; lia|].
  destruct (_ || _).
  - destruct (all_children_eliminated _ _ _ _) as [[]|]; [|apply IH; lia|done].
    destruct (bool_decide (loopback = _)); [done|apply IH; lia].
  - destruct (is_node_unavailable n); [|done].
    destruct (bool_decide (loopback = _)); [done|apply IH; lia].
Qed.

Lemma select_nodes_fuel fuel fuel' t parent input count ty excluded :
  (fuel ≤ fuel')%nat →
  refines (select_nodes_of_type powf fuel t parent input count ty excluded)
    (select_nodes_of_type powf fuel' t parent input count ty excluded).
Proof.
  intros Hle. apply refines_fold. intros s r. apply refines_bind; [by apply draw_fuel|].
  by intros out ?.
Qed.

Lemma attempt_fuel fuel fuel' t q input count selected used :
  (fuel ≤ fuel')%nat →
  refines (add_replicas_for_attempt powf fuel t q input count selected used)
    (add_replicas_for_attempt powf fuel' t q input count selected used).
Proof.
  intros Hle. unfold add_replicas_for_attempt. destruct (bool_decide _).
  - apply refines_bind; [by apply select_nodes_fuel|]. intros zones.
    apply refines_bind; [|by intros ??]. apply refines_fold. intros acc zone.
    apply refines_bind; [by apply select_nodes_fuel|]. by intros ??.
  - apply refines_bind; [by apply select_nodes_fuel|]. by intros ??.
Qed.

Lemma attempts_fuel rounds fuel fuel' t q rc selected used input count tries :
  (fuel ≤ fuel')%nat →
  refines (attempts powf rounds fuel t q rc selected used input count tries)
    (attempts powf rounds fuel' t q rc selected used input count tries).
Proof.
  intros Hle. revert selected used input count tries.
  induction rounds as [|rounds IH]; intros selected used input count tries; [done|].
  cbn [attempts]. destruct (bool_decide (_ < rc)%nat); [|by intros ?].
  pose proof (attempt_fuel fuel fuel' t q input count selected used Hle) as Hstep.
  destruct (add_replicas_for_attempt powf fuel _ _ _ _ _ _) as [[l u]|]; [|done].
  rewrite (Hstep _ eq_refl). destruct (bool_decide (0 < _)%nat); [|apply IH].
  destruct (bool_decide _); [by intros ?|apply IH].
Qed.

Lemma compute_fuel fuel fuel' resource partitions rc instances live topo :
  (fuel ≤ fuel')%nat →
  refines (compute_crush_assignment powf fuel resource partitions rc instances live topo)
    (compute_crush_assignment powf fuel' resource partitions rc instances live topo).
Proof.
  intros Hle. apply refines_bind; [by intros ?|]. intros _. apply refines_fold. intros m p.
  apply refines_bind; [|by intros ??]. unfold select_replicas.
  destruct (capacity_overflow rc); [done|by apply attempts_fuel].
Qed.

(** ** Flat placement of a single replica always ends *)

Definition total_in {A} (Q : A → Prop) (r : result A (stop CrushError)) : Prop :=
  ∃ a, r = Ok a ∧ Q a.

Lemma total_fold {S X} (f : S → X → result S (stop CrushError)) (P : list X → S → Prop) l s :
  P [] s → (∀ done x t, P done t → total_in (P (done ++ [x])) (f t x)) →
  total_in (P l) (try_fold f s l).
Proof.
  intros Hs Hstep.
  assert (∀ r done t, P done t → total_in (P (done ++ r)) (try_fold f t r)) as Hgen.
  { induction r as [|x r IH]; intros done t Ht; cbn [try_fold].
    - exists t. by rewrite app_nil_r.
    - destruct (Hstep done x t Ht) as (t' & -> & Ht').
      rewrite (app_assoc done [x] r : done ++ x :: r = (done ++ [x]) ++ r). by apply IH. }
  by apply (Hgen l [] s).
Qed.

Definition all_available (t : TopologyTree) (parent : nat) : Prop :=
  ∀ c, child_of t parent c → available t c.

(** One draw with nothing taken: it ends, and at once with a child when all
    children are available. *)
Lemma select_one_total fuel t parent input ty :
  level t parent ty → (MAX_LOOPBACK_COUNT < fuel)%nat →
  total_in (λ l, all_available t parent → length l = 1%nat)
    (select_nodes_of_type powf fuel t parent input 1 ty ∅).
Proof.
  intros Hlevel Hfuel. unfold select_nodes_of_type. cbn [seq try_fold].
  pose proof (draw_fresh_total powf t parent input ty 1 fuel 0 0 ∅ Hlevel) as Hok.
  destruct (draw _ _ _ _ _ _ _ _ _ _ _ _ _) as [out|] eqn:Hdraw; [|discriminate Hok; lia].
  eexists. split; [done|]. intros Hall. destruct out as [c|]; [done|exfalso].
  destruct fuel as [|fuel]; [lia|]. cbn [draw] in Hdraw.
  destruct (choose_child_ok powf t parent ty input (Z.of_nat (1 + 0)) Hlevel)
    as (c & n & Hchoose & Hc & Hn & Hty). rewrite Hchoose in Hdraw.
  rewrite (proj2 (String.eqb_eq _ _) Hty) in Hdraw. cbn [negb] in Hdraw.
  rewrite (bool_decide_eq_false_2 (c ∈ [])), (bool_decide_eq_false_2 (c ∈ (∅ : gset nat))) in Hdraw
    by set_solver. cbn [orb] in Hdraw.
  destruct (Hall c Hc) as (n' & Hn' & Hav). assert (n' = n) as -> by congruence.
  by rewrite Hav in Hdraw.
Qed.

Lemma flat_attempts_total rounds fuel t used input tries :
  is_flat (topology t) = true → tree_levels t → (MAX_LOOPBACK_COUNT < fuel)%nat →
  (tries < MAX_RETRY)%nat → (MAX_RETRY - tries < rounds)%nat →
  total_in (λ l, all_available t (root t) → length l = 1%nat)
    (attempts powf rounds fuel t (root t) 1 [] used input 1 tries).
Proof.
  intros Hflat Hlevels Hfuel. revert used input tries.
  induction rounds as [|rounds IH]; intros used input tries Ht Hr; [lia|]. cbn [attempts].
  rewrite bool_decide_eq_true_2 by (simpl; lia). unfold add_replicas_for_attempt.
  rewrite flat_test, Hflat. cbn [negb list_to_set].
  unfold tree_levels in Hlevels. rewrite Hflat in Hlevels.
  destruct (select_one_total fuel t (root t) input _ Hlevels Hfuel) as (l & Hl & Hlen).
  change (list_to_set (@nil nat)) with (∅ : gset nat). rewrite Hl, app_nil_l.
  destruct l as [|i l].
  - cbn [length]. rewrite (bool_decide_eq_true_2 (0 < 1 - 0)%nat) by lia.
    destruct (bool_decide (MAX_RETRY ≤ S tries)%nat) eqn:Hmax; reflect_bools.
    + exists []. split; [done|]. done.
    + apply IH; [lia..].
  - rewrite (bool_decide_eq_false_2 (0 < _)%nat) by (simpl; lia).
    destruct rounds as [|rounds]; [unfold MAX_RETRY in *; lia|]. cbn [attempts].
    rewrite (bool_decide_eq_false_2 (_ < 1)%nat) by (simpl; lia). by exists (i :: l).
Qed.

Lemma all_live_available live topo instances t zones :
  is_flat topo = true → build_inv live topo instances (t, zones) →
  (∀ c, c ∈ instances → crush_instance c ∈ live) → all_available t (root t).
Proof.
  unfold build_inv. cbn [fst snd]. intros Hflat (Htopo & _ & Hinv) Hlive i Hi.
  rewrite Hflat in Hinv. destruct (proj1 Hinv i Hi) as (c & Hc & Hleaf).
  eexists. split; [exact Hleaf|]. unfold is_node_unavailable, leaf_node. cbn.
  by rewrite (bool_decide_eq_true_2 _ (Hlive c Hc)).
Qed.

Lemma flat_place_total fuel live topo instances t zones m p :
  is_flat topo = true → instances ≠ [] → NoDup (crush_instance <$> instances) →
  build_inv live topo instances (t, zones) → (MAX_LOOPBACK_COUNT < fuel)%nat →
  total_in (λ m', ∃ l, m' = <[p := l]> m ∧
              ((∀ c, c ∈ instances → crush_instance c ∈ live) → length l = 1%nat))
    (place_partition powf fuel t 1 m p).
Proof.
  intros Hflat Hne Hnd Hinv Hfuel. unfold place_partition.
  pose proof (build_levels _ _ _ _ _ Hinv Hne) as Hlevels.
  set (input := signed32 _).
  assert (topology t = topo) as Htopo by apply Hinv.
  destruct (flat_attempts_total (S MAX_RETRY) fuel t ∅ input 0) as (selected & Hsel & Hlen);
    [by rewrite Htopo|done|done|unfold MAX_RETRY; lia|unfold MAX_RETRY; lia|].
  pose proof (select_replicas_spec powf fuel t input 1 Hlevels eq_refl) as Hspec.
  unfold select_replicas in *. rewrite (eq_refl : capacity_overflow 1 = false) in *. rewrite Hsel in *. destruct Hspec as ((used & Hplaced) & _).
  destruct (placed_instances _ _ _ _ _ _ _ Hnd Hinv Hplaced) as (cs & Hcs & _).
  rewrite (push_selected_ok _ _ _ _ _ Hcs), app_nil_l. eexists. split; [done|].
  eexists. split; [done|]. intros Hlive. rewrite length_fmap, <-(Forall2_length _ _ _ Hcs).
  apply Hlen. by eapply all_live_available.
Qed.

Lemma flat_compute_total fuel resource partitions instances live topo :
  valid_input partitions instances live topo → fault_zone_type topo = end_node_type topo →
  (MAX_LOOPBACK_COUNT < fuel)%nat →
  total_in (λ m, (∀ c, c ∈ instances → crush_instance c ∈ live) →
              ∀ p, p ∈ partitions → ∃ i, m !! p = Some [i])
    (compute_crush_assignment powf fuel resource partitions 1 instances live topo).
Proof.
  intros Hvalid Heq Hfuel. assert (is_flat topo = true) as Hflat by by apply bool_decide_eq_true_2.
  unfold compute_crush_assignment.
  pose proof (check_input_cases partitions instances live topo) as Hcheck.
  destruct (check_input _ _ _ _) as [u|]; [|by destruct Hcheck].
  destruct (build_ok live instances topo (valid_instances _ _ _ _ Hvalid)) as [zones Hinv].
  apply (total_fold _ (λ done m, (∀ c, c ∈ instances → crush_instance c ∈ live) →
           ∀ p, p ∈ done → ∃ i, m !! p = Some [i])).
  { by intros _ p ?%elem_of_nil. }
  intros done p m Hm.
  destruct (flat_place_total fuel live topo instances _ zones m p Hflat
    (valid_some_instance _ _ _ _ Hvalid) (valid_instances _ _ _ _ Hvalid) Hinv Hfuel)
    as (m' & -> & l & -> & Hlen).
  eexists. split; [done|]. intros Hlive p' Hp'. specialize (Hlen Hlive).
  destruct (decide (p' = p)) as [->|Hpp].
  - rewrite lookup_insert_eq. destruct l as [|i []]; try done. by exists i.
  - rewrite lookup_insert_ne by done. apply (Hm Hlive).
    by apply elem_of_app in Hp' as [?| ->%list_elem_of_singleton].
Qed.
End assignment_facts.

(** * The placement theorems *)

(** C16: an assignment of valid inputs covers exactly the requested partitions
    and gives each at most [replica_count] distinct live instances of the
    topology, no two of the same fault zone when the topology has zones; apart
    from a draw that is still running, no other outcome is possible (no panic,
    no [SelectedNonInstance]), except that a replica count whose vector would
    exceed the address space panics at once, whatever the inputs. *)
Theorem crush_placement_valid powf fuel resource partitions replica_count instances live topo :
  valid_input partitions instances live topo →
  if capacity_overflow replica_count
  then compute_crush_assignment powf fuel resource partitions replica_count instances live topo = Err Panicked
  else ends_in (good_assignment partitions live topo instances replica_count)
         (compute_crush_assignment powf fuel resource partitions replica_count instances live topo).
Proof.
  intros Hvalid. destruct (capacity_overflow replica_count) eqn:Hcap;
    [by apply crush_compute_overflow|by apply crush_compute_spec].
Qed.

(** A single replica in a flat topology is always placed: 51 rounds of a
    draw are enough, and when every instance is live every partition gets
    exactly one instance. *)
Theorem crush_flat_single_total powf fuel resource partitions instances live topo :
  valid_input partitions instances live topo →
  fault_zone_type topo = end_node_type topo → (51 ≤ fuel)%nat →
  ∃ m, compute_crush_assignment powf fuel resource partitions 1 instances live topo = Ok m ∧
    good_assignment partitions live topo instances 1 m ∧
    ((∀ c, c ∈ instances → crush_instance c ∈ live) →
     ∀ p, p ∈ partitions → ∃ i, m !! p = Some [i]).
Proof.
  intros Hvalid Hflat Hfuel.
  pose proof (crush_compute_spec powf fuel resource partitions 1 instances live topo eq_refl Hvalid) as Hgood.
  destruct (flat_compute_total powf fuel resource partitions instances live topo)
    as (m & Hm & Hone); [done..|unfold MAX_LOOPBACK_COUNT; lia|].
  rewrite Hm in Hgood. by exists m.
Qed.

(** The number of rounds allowed to a draw does not matter once the
    placement ends: the assignment is the same for every larger bound. *)
Theorem crush_fuel_irrelevant powf fuel fuel' resource partitions replica_count instances live topo m :
  compute_crush_assignment powf fuel resource partitions replica_count instances live topo = Ok m →
  (fuel ≤ fuel')%nat →
  compute_crush_assignment powf fuel' resource partitions replica_count instances live topo = Ok m.
Proof. intros Hm Hle. by apply (compute_fuel powf fuel fuel'). Qed.

(** The placement raises an error exactly when its inputs are invalid (an
    unsupported topology, no or a repeated partition, no or a repeated instance,
    an unknown live instance), and it panics exactly when they are valid and the
    replica count exceeds what a vector can hold. *)
Theorem crush_rejects_iff powf fuel resource partitions replica_count instances live topo :
  ((∃ e, compute_crush_assignment powf fuel resource partitions replica_count instances live topo =
           Err (Raise e)) ↔ ¬ valid_input partitions instances live topo) ∧
  (compute_crush_assignment powf fuel resource partitions replica_count instances live topo = Err Panicked ↔
   valid_input partitions instances live topo ∧ capacity_overflow replica_count = true).
Proof.
  pose proof (check_input_cases partitions instances live topo) as Hcheck.
  pose proof (crush_compute_spec powf fuel resource partitions replica_count instances live topo) as Hspec.
  pose proof (crush_compute_overflow powf fuel resource partitions replica_count instances live topo) as Hover.
  destruct (check_input partitions instances live topo) as [u|e] eqn:E.
  - destruct (capacity_overflow replica_count); [rewrite (Hover eq_refl Hcheck); naive_solver|].
    specialize (Hspec eq_refl Hcheck). destruct (compute_crush_assignment _ _ _ _ _ _ _ _) as [m|e];
      [|cbn in Hspec; subst e]; naive_solver.
  - destruct Hcheck as [Hno (c & ->)]. unfold compute_crush_assignment. rewrite E.
    naive_solver.
Qed.

(** ** Placements of the unit tests *)

Definition test_instances : list CrushInstance :=
  [ MkCrushInstance (MkInstanceId "node-a") "zone-a";
    MkCrushInstance (MkInstanceId "node-b") "zone-b";
    MkCrushInstance (MkInstanceId "node-c") "zone-c" ].

Definition test_live : gset InstanceId := list_to_set (crush_instance <$> test_instances).
Definition test_partitions : list PartitionId :=
  MkPartitionId <$> ["documents_0"; "documents_1"; "documents_2"; "documents_3"].
Definition test_flat : CrushTopology := MkCrushTopology "/instance" "instance" "instance".
Definition test_zoned : CrushTopology := MkCrushTopology "/zone/instance" "zone" "instance".

(** Equal weights never reach [powf]. *)
Definition no_powf (x _ : spec_float) : spec_float := x.

Lemma check_input_valid partitions instances live topo :
  is_ok (check_input partitions instances live topo) = true →
  valid_input partitions instances live topo.
Proof.
  pose proof (check_input_cases partitions instances live topo) as H.
  by destruct (check_input _ _ _ _).
Qed.

Definition test_placement (topo : CrushTopology) (rc : nat)
  : result (gmap PartitionId (list InstanceId)) (stop CrushError) :=
  compute_crush_assignment no_powf 100 (MkResourceId "documents") test_partitions rc
    test_instances test_live topo.

(** The lists the unit test [flat_topology_uses_direct_instance_selection] expects. *)
Lemma test_vectors :
  match test_placement test_flat 2 with
  | Ok m => m !! MkPartitionId "documents_0" = Some [MkInstanceId "node-c"; MkInstanceId "node-a"] ∧
            m !! MkPartitionId "documents_3" = Some [MkInstanceId "node-a"; MkInstanceId "node-b"]
  | Err _ => False
  end.
Proof. vm_compute. done. Qed.

Lemma ex_test_input : valid_input test_partitions test_instances test_live test_zoned.
Proof. apply check_input_valid. vm_compute. reflexivity. Qed.

Lemma ex_three_fit : capacity_overflow 3 = false.
Proof. reflexivity. Qed.

Lemma crush_placement_valid_witness :
  is_ok (test_placement test_zoned 3) = true ∧
  ends_in (good_assignment test_partitions test_live test_zoned test_instances 3)
    (test_placement test_zoned 3).
Proof.
  split; [vm_compute; reflexivity|].
  pose proof (crush_placement_valid no_powf 100 (MkResourceId "documents") test_partitions 3
    test_instances test_live test_zoned ex_test_input) as Hvalid.
  rewrite ex_three_fit in Hvalid. unfold test_placement. exact Hvalid.
Defined.

Lemma crush_flat_single_total_witness :
  ∃ m, compute_crush_assignment no_powf 51 (MkResourceId "documents") test_partitions 1
         test_instances test_live test_flat = Ok m ∧
    good_assignment test_partitions test_live test_flat test_instances 1 m ∧
    ((∀ c, c ∈ test_instances → crush_instance c ∈ test_live) →
     ∀ p, p ∈ test_partitions → ∃ i, m !! p = Some [i]).
Proof.
  apply crush_flat_single_total; [|reflexivity|lia].
  apply check_input_valid. vm_compute. reflexivity.
Defined.

Lemma crush_fuel_irrelevant_witness :
  ∃ m, test_placement test_zoned 3 = Ok m ∧
    compute_crush_assignment no_powf 1000 (MkResourceId "documents") test_partitions 3
      test_instances test_live test_zoned = Ok m.
Proof.
  destruct (test_placement test_zoned 3) as [m|e] eqn:E.
  - exists m. split; [reflexivity|]. apply (crush_fuel_irrelevant no_powf 100); [exact E|lia].
  - exfalso. assert (is_ok (test_placement test_zoned 3) = true) as H by (vm_compute; reflexivity).
    rewrite E in H. discriminate H.
Defined.
