(* ===== verification/ControllerRuntime.v ===== *)
(** * Controller planning

    Models the deterministic part of [src/controller/runtime.rs]: the records of
    the metadata store, the state a controller keeps between cycles, the
    filtering of published messages, the planning of one resource and
    [compute_outputs_with_pending_policy], which composes all stages into one
    planning cycle.  The reconcile loop with its publication is in [Reconcile], the
    watch loop of a leader in [LeaderLoop].

    JSON decoding is the parameter [serde] (the texts are decoded by serde_json),
    [f64::powf] and [Debug] of strings are those of Crush. *)

From Stdlib Require Import SpecFloat.
From S2P Require Import Prelude Identity StateMaps StateModel Session Keys Snapshot SemiAuto.
From S2P Require Import Transitions MessageGeneration MessageSelection MessageThrottle Crush.

(** ** Records *)

Record PublishedTransition := MkPublished {
  pub_resource : string;
  pub_partition : string;
  pub_instance : string;
  pub_target_session : N;
  pub_from : string;
  pub_to : string;
  pub_message_type : string;
  pub_message_id : string
}.

Record InstanceConfigRecord := MkInstanceConfigRecord { icr_name : string; icr_zone : string }.

Record CrushTopologyRecord := MkCrushTopologyRecord {
  ctr_path : string;
  ctr_fault_zone_type : string;
  ctr_end_node_type : string
}.

Record PlacementRecord := MkPlacementRecord {
  plr_kind : string;
  plr_replicas : N;
  plr_preference_lists : gmap string (list string);
  plr_partitions : list string;
  plr_topology : option CrushTopologyRecord
}.

Record ResourceRecord := MkResourceRecord {
  rr_name : string;
  rr_state_model : string;
  rr_placement : PlacementRecord
}.

Record ThrottleRecord := MkThrottleRecord {
  thr_scope : string;
  thr_resource : option string;
  thr_instance : option string;
  thr_rebalance_type : string;
  thr_max_in_flight : N
}.

Record ResourcePlan := MkResourcePlan {
  plan_resource : ResourceId;
  plan_ideal : IdealState
}.

Record ControllerRuntimeError := MkRuntimeError { message : string; transient : bool }.

(** [ControllerRuntimeError::message] *)
Definition runtime_message (m : string) : ControllerRuntimeError := MkRuntimeError m false.

Inductive ReconcileMode := Startup | Normal | SessionReplacement.

Definition is_session_replacement (m : ReconcileMode) : bool :=
  match m with SessionReplacement => true | _ => false end.
Definition is_startup (m : ReconcileMode) : bool :=
  match m with Startup => true | _ => false end.

#[export] Instance PublishedTransition_eq_dec : EqDecision PublishedTransition.
Proof. solve_decision. Defined.

(** The fields in declaration order: the derived [Ord]. *)
Definition published_fields (m : PublishedTransition) :=
  (pub_resource m, (pub_partition m, (pub_instance m, (pub_target_session m,
    (pub_from m, (pub_to m, (pub_message_type m, pub_message_id m))))))).
#[export] Instance ord_PublishedTransition : RustOrd PublishedTransition :=
  λ x y, rust_cmp (published_fields x) (published_fields y).
#[export] Instance PublishedTransition_ord_laws : RustOrdLaws PublishedTransition.
Proof. apply (proj_ord_laws published_fields _); [done|]. by intros [] [] [=]; subst. Qed.

(** serde_json's decoders for the records, with the text of their errors. *)
Record Serde := MkSerde {
  from_instance_configs : string → result (list InstanceConfigRecord) string;
  from_resource : string → result ResourceRecord string;
  from_throttles : string → result (list ThrottleRecord) string;
  from_pending : string → result (list PublishedTransition) string
}.

Definition INSTANCE_CONFIGS_KEY : string := "controller/instance-configs".
Definition THROTTLES_KEY : string := "controller/throttles".
Definition RESOURCE_PREFIX : string := "controller/resources/".
Definition EXTERNAL_OUTPUT_KEY : string := "controller/output/external-view".
Definition PENDING_OUTPUT_KEY : string := "controller/output/pending-transitions".
Definition PROCESSED_OUTPUT_KEY : string := "controller/output/processed-revision".

(** Planning may also panic in an [expect], or not end in a CRUSH draw. *)
Abbreviation planning A := (result A (stop ControllerRuntimeError)).

(** [map_err(|error| ControllerRuntimeError::message(error.to_string()))] *)
Definition with_text {A E} (display : E → string) (r : result A E) : planning A :=
  map_err (λ e, Raise (runtime_message (display e))) r.

Definition with_text_stop {A E} (display : E → string) (r : result A (stop E)) : planning A :=
  map_err (λ s, match s with
                | Raise e => Raise (runtime_message (display e))
                | Panicked => Panicked
                | Diverged => Diverged
                end) r.

Definition fail {A} (text : string) : planning A := Err (Raise (runtime_message text)).

Definition metadata_value (s : CoordinationSnapshot) (key : string) : option string :=
  match metadata s !! key with Some entry => entry_value entry | None => None end.

(** ** Sessions *)

Definition live_sessions (s : CoordinationSnapshot) : gmap InstanceId SessionId :=
  live_session_id <$> snapshot_live s.

Definition session_replaced (known : gmap InstanceId SessionId) (current : CoordinationSnapshot)
  : bool :=
  existsb (λ '(instance, live),
    match known !! instance with
    | Some session => negb (bool_decide (session = live_session_id live))
    | None => false
    end) (entries (snapshot_live current)).

(** ** The metadata of the controller *)

Section decoding.
Variable serde : Serde.

Definition read_pending (s : CoordinationSnapshot) : planning (list PublishedTransition) :=
  match metadata_value s PENDING_OUTPUT_KEY with
  | None => Ok []
  | Some value =>
      let? pending := with_text id (from_pending serde value) in
      if existsb (λ m, is_empty (pub_message_id m)) pending
      then fail "pending transition is missing message identity"
      else Ok pending
  end.

Definition instance_configs (s : CoordinationSnapshot) : planning (gmap InstanceId string) :=
  match metadata_value s INSTANCE_CONFIGS_KEY with
  | None => Ok ∅
  | Some value =>
      let? records := with_text id (from_instance_configs serde value) in
      let? pairs := collect_results (λ record,
          let? name := with_text display_identifier_error (InstanceId_new (icr_name record)) in
          Ok (name, icr_zone record)) records in
      Ok (btree_collect pairs)
  end.

Definition parse_scope (value : string) : planning ThrottleScope :=
  if String.eqb value "CLUSTER" then Ok ScopeCluster
  else if String.eqb value "RESOURCE" then Ok ScopeResource
  else if String.eqb value "INSTANCE" then Ok ScopeInstance
  else fail ("unknown throttle scope " +:+ value).

Definition parse_rebalance_type (value : string) : planning RebalanceType :=
  if String.eqb value "ANY" then Ok AnyBalance
  else if String.eqb value "RECOVERY_BALANCE" then Ok RecoveryBalance
  else if String.eqb value "LOAD_BALANCE" then Ok LoadBalance
  else fail ("unknown rebalance type " +:+ value).

(** The closure of [throttles]. *)
Definition throttle_config (record : ThrottleRecord) : planning StateTransitionThrottleConfig :=
  let? scope := parse_scope (thr_scope record) in
  let? rebalance_type := parse_rebalance_type (thr_rebalance_type record) in
  if (thr_max_in_flight record =? 0)%N then
    fail "transition throttle limit must be greater than zero"
  else match scope with
  | ScopeCluster =>
      if bool_decide (is_Some (thr_resource record)) || bool_decide (is_Some (thr_instance record))
      then fail "cluster transition throttle cannot target a resource or instance"
      else Ok (ThrottleConfig_new rebalance_type scope (thr_max_in_flight record))
  | ScopeResource =>
      if bool_decide (is_Some (thr_instance record))
      then fail "resource transition throttle cannot target an instance"
      else match thr_resource record with
      | Some resource =>
          let? resource := with_text display_identifier_error (ResourceId_new resource) in
          Ok (ThrottleConfig_for_resource rebalance_type resource (thr_max_in_flight record))
      | None => Ok (ThrottleConfig_new rebalance_type scope (thr_max_in_flight record))
      end
  | ScopeInstance =>
      if bool_decide (is_Some (thr_resource record))
      then fail "instance transition throttle cannot target a resource"
      else match thr_instance record with
      | Some instance =>
          let? instance := with_text display_identifier_error (InstanceId_new instance) in
          Ok (ThrottleConfig_for_instance rebalance_type instance (thr_max_in_flight record))
      | None => Ok (ThrottleConfig_new rebalance_type scope (thr_max_in_flight record))
      end
  end.

Definition throttles (s : CoordinationSnapshot) : planning (list StateTransitionThrottleConfig) :=
  match metadata_value s THROTTLES_KEY with
  | None => Ok []
  | Some value =>
      let? records := with_text id (from_throttles serde value) in
      collect_results throttle_config records
  end.
End decoding.

(** ** Plans *)

Section planning.
Variable serde : Serde.
Variable powf : spec_float → spec_float → spec_float.
Variable debug : string → string.
Variable fuel : nat.

Definition crush_topology (record : option CrushTopologyRecord) : planning CrushTopology :=
  with_text (display_crush_error debug)
    (match record with
     | Some t => CrushTopology_new (ctr_path t) (ctr_fault_zone_type t) (ctr_end_node_type t)
     | None => CrushTopology_new "/instance" "instance" "instance"
     end).

(** The [CRUSH] arm of [resource_plans]. *)
Definition crush_lists (resource : ResourceId) (placement : PlacementRecord)
    (configs : gmap InstanceId string) (live : gset InstanceId)
  : planning (gmap PartitionId (list InstanceId)) :=
  let? partitions := collect_results
      (λ value, with_text display_identifier_error (PartitionId_new value))
      (plr_partitions placement) in
  let? instances := collect_results
      (λ '(instance, zone), with_text (display_crush_error debug) (CrushInstance_new instance zone))
      (entries configs) in
  let? topology := crush_topology (plr_topology placement) in
  with_text_stop (display_crush_error debug)
    (compute_crush_assignment powf fuel resource partitions
       (N.to_nat (N.min (plr_replicas placement) (N.of_nat (size live)))) instances live topology).

(** The [SEMI_AUTO] arm. *)
Definition semi_auto_lists (placement : PlacementRecord)
  : planning (gmap PartitionId (list InstanceId)) :=
  let? pairs := collect_results (λ '(partition, instances),
      let? partition := with_text display_identifier_error (PartitionId_new partition) in
      let? instances := collect_results
          (λ instance, with_text display_identifier_error (InstanceId_new instance)) instances in
      Ok (partition, instances)) (entries (plr_preference_lists placement)) in
  Ok (btree_collect pairs).

Definition placement_lists (resource : ResourceId) (placement : PlacementRecord)
    (configs : gmap InstanceId string) (live : gset InstanceId)
  : planning (gmap PartitionId (list InstanceId)) :=
  if String.eqb (plr_kind placement) "CRUSH" then crush_lists resource placement configs live
  else if String.eqb (plr_kind placement) "SEMI_AUTO" then semi_auto_lists placement
  else fail ("unsupported M10 placement kind " +:+ plr_kind placement).

(** [values().map(Vec::len).min().unwrap_or_default()] *)
Definition shortest_list (lists : gmap PartitionId (list InstanceId)) : N :=
  match map_values lists with
  | [] => 0
  | l :: ls => foldl (λ m l, N.min m (len l)) (len l) ls
  end.

Definition build_ideal (resource : ResourceId) (replicas : N)
    (lists : gmap PartitionId (list InstanceId)) : planning IdealState :=
  let? builder := with_text display_ideal_state_error
      (try_fold (λ b '(partition, instances), set_preference_list b partition instances)
         (IdealState_builder resource replicas) (entries lists)) in
  with_text display_ideal_state_error (IdealStateBuilder_build builder).

(** The body of the loop of [resource_plans] for the resource named [name]. *)
Definition resource_plan (configs : gmap InstanceId string) (live : gset InstanceId)
    (name : string) (entry : MetadataEntry) : planning ResourcePlan :=
  let? record := with_text id (from_resource serde (default "" (entry_value entry))) in
  if negb (String.eqb (rr_name record) name) then
    fail ("resource metadata key " +:+ name +:+ " disagrees with resource name " +:+ rr_name record)
  else if negb (String.eqb (rr_state_model record) "LeaderStandby") then
    fail ("unsupported M10 state model " +:+ rr_state_model record)
  else
    let? resource := with_text display_identifier_error (ResourceId_new (rr_name record)) in
    let placement := rr_placement record in
    let? lists := placement_lists resource placement configs live in
    let effective_replicas :=
      if String.eqb (plr_kind placement) "CRUSH" then shortest_list lists
      else plr_replicas placement in
    let? ideal := build_ideal resource effective_replicas lists in
    Ok (MkResourcePlan resource ideal).

Definition resource_plans (s : CoordinationSnapshot) (configs : gmap InstanceId string)
    (live : gset InstanceId) : planning (list ResourcePlan) :=
  try_fold (λ plans '(key, entry),
    match strip_prefix RESOURCE_PREFIX key with
    | None => Ok plans
    | Some name =>
        let? plan := resource_plan configs live name entry in
        Ok (plans ++ [plan])
    end) [] (entries (metadata s)).

(** ** Current state *)

(** [states.entry(resource).or_default()] and the loops below it: replicas that
    are not configured or not live are skipped, the resource is kept. *)
Definition add_active (configs : gmap InstanceId string) (live : gset InstanceId)
    (acc : gmap ResourceId replica_map) (resource : ResourceId) (current : CurrentState)
  : gmap ResourceId replica_map :=
  <[resource := foldl (λ m '(partition, replicas),
      <[partition := foldl (λ insts '(replica, state),
          if negb (bool_decide (is_Some (configs !! replica))) || negb (bool_decide (replica ∈ live))
          then insts else <[replica := state]> insts)
        (default ∅ (m !! partition)) (entries replicas)]> m)
    (default ∅ (acc !! resource)) (entries (CurrentState_entries current))]> acc.

(** [builder.set_state(..).expect(..)] *)
Definition set_state_expect (b : CurrentStateBuilder) (p : PartitionId) (i : InstanceId) (s : State)
  : planning CurrentStateBuilder :=
  map_err (λ _, Panicked) (try_builder (CurrentStateBuilder_set_state b p i s)).

Definition build_states (m : replica_map) : planning CurrentState :=
  let? builder := try_fold (λ b '(partition, replicas),
      try_fold (λ b '(instance, state), set_state_expect b partition instance state)
        b (entries replicas)) CurrentState_builder (entries m) in
  Ok (CurrentStateBuilder_build builder).

Definition active_current_state (s : CoordinationSnapshot) (configs : gmap InstanceId string)
    (live : gset InstanceId) : planning (gmap ResourceId CurrentState) :=
  let states := foldl (λ acc active,
      foldl (λ acc '(resource, current), add_active configs live acc resource current)
        acc (entries (active_resources active)))
    ∅ (map_values (snap_active_current_state (participants s))) in
  let? built := collect_results (λ '(resource, m),
      let? current := build_states m in Ok (resource, current)) (entries states) in
  Ok (btree_collect built).

(** Replicas of live instances, and the initial state for live preferred
    instances that report nothing. *)
Definition normalize_current (actual : CurrentState) (ideal : IdealState) (live : gset InstanceId)
    (model : StateModelDefinition) : planning CurrentState :=
  let? builder := try_fold (λ b '(partition, replicas),
      try_fold (λ b '(instance, state),
        if bool_decide (instance ∈ live) then set_state_expect b partition instance state else Ok b)
        b (entries replicas)) CurrentState_builder (entries (CurrentState_entries actual)) in
  let? builder := try_fold (λ b '(partition, instances),
      try_fold (λ b instance,
        if negb (bool_decide (instance ∈ live)) then Ok b
        else match CurrentState_state actual partition instance with
        | None => set_state_expect b partition instance (initial_state model)
        | Some _ => Ok b
        end) b instances) builder (entries (preference_lists ideal)) in
  Ok (CurrentStateBuilder_build builder).

(** ** Published messages *)

Definition to_operational_pending (m : PublishedTransition) : option OperationalPendingTransition :=
  match ResourceId_new (pub_resource m), PartitionId_new (pub_partition m),
        InstanceId_new (pub_instance m), State_new (pub_from m), State_new (pub_to m) with
  | Ok r, Ok p, Ok i, Ok s, Ok t => Some (MkOperationalPending r p i s t)
  | _, _, _, _, _ => None
  end.

Definition pending_partition_is_current_only (plan : ResourcePlan) (p : PartitionId) : bool :=
  bool_decide (preference_list (plan_ideal plan) p = None).

(** The filter of [retain_pending]. *)
Definition keep_pending (s : CoordinationSnapshot) (actual : gmap ResourceId CurrentState)
    (plans : list ResourcePlan) (strict : bool) (m : PublishedTransition) : bool :=
  match InstanceId_new (pub_instance m) with
  | Err _ => false
  | Ok instance =>
  match snapshot_live s !! instance with
  | None => false
  | Some live =>
  if negb (bool_decide (SessionId_wire_value (live_session_id live) = pub_target_session m))
  then false
  else match ResourceId_new (pub_resource m), PartitionId_new (pub_partition m) with
  | Ok resource, Ok partition =>
      match find_first (λ plan, String.eqb (resource_str (plan_resource plan)) (pub_resource m))
              plans with
      | None => false
      | Some plan =>
          let desired_preference := preference_list (plan_ideal plan) partition in
          let known_partition :=
            match actual !! resource with
            | Some state => bool_decide (is_Some (CurrentState_entries state !! partition))
            | None => false
            end in
          if bool_decide (desired_preference = None) && negb known_partition then false
          else
            let desired_replica :=
              match desired_preference with
              | Some preference => bool_decide (instance ∈ preference)
              | None => false
              end in
            let removal_state := String.eqb (pub_to m) "OFFLINE" || String.eqb (pub_to m) "DROPPED" in
            if strict && Bool.eqb desired_replica removal_state then false
            else match actual !! resource ≫= λ state, CurrentState_state state partition instance with
            | Some state => String.eqb (state_str state) (pub_from m)
            | None => true
            end
      end
  | _, _ => false
  end
  end
  end.

Definition retain_pending (pending : list PublishedTransition) (s : CoordinationSnapshot)
    (actual : gmap ResourceId CurrentState) (plans : list ResourcePlan) (strict : bool)
  : list PublishedTransition :=
  List.filter (keep_pending s actual plans strict) pending.

Definition belongs_to_plan (plans : list ResourcePlan) (mode : ReconcileMode)
    (t : OperationalPendingTransition) : bool :=
  negb (is_session_replacement mode)
  || existsb (λ plan,
       bool_decide (plan_resource plan = op_resource t)
       && ((match preference_list (plan_ideal plan) (op_partition t) with
            | Some instances => bool_decide (op_instance t ∈ instances)
            | None => false
            end) || pending_partition_is_current_only plan (op_partition t))) plans.

Definition operational_pending_for_plans (pending : list PublishedTransition)
    (plans : list ResourcePlan) (mode : ReconcileMode) : list OperationalPendingTransition :=
  foldl (λ acc m,
    match to_operational_pending m with
    | None => acc
    | Some t => if belongs_to_plan plans mode t then acc ++ [t] else acc
    end) [] pending.

Definition pending_for_resource (resource : ResourceId) (pending : list OperationalPendingTransition)
  : list PendingTransition :=
  (λ t, MkPendingTransition (op_partition t) (op_instance t) (op_source_state t) (op_target_state t))
    <$> List.filter (λ t, bool_decide (op_resource t = resource)) pending.

(** ** The planning of a resource *)

Definition planned_best (ideal : IdealState) (planning_state : CurrentState)
    (live : gset InstanceId) (model : StateModelDefinition) : planning BestPossibleState :=
  if bool_decide (preference_lists ideal = ∅) then Ok BestPossibleState_default
  else with_text_stop display_semi_auto_error
         (compute_semi_auto_best_possible_state ideal planning_state live model).

(** [preference_lists.entry(partition).or_default()] for every current partition *)
Definition all_preference_lists (ideal : IdealState) (planning_state : CurrentState)
  : gmap PartitionId (list InstanceId) :=
  foldl (λ lists p, <[p := default [] (lists !! p)]> lists)
    (preference_lists ideal) (map_keys (CurrentState_entries planning_state)).

Definition resource_transition_input (plan : ResourcePlan) (actual : gmap ResourceId CurrentState)
    (live : gset InstanceId) (operational_pending : list OperationalPendingTransition)
    (model : StateModelDefinition) : planning ResourceTransitionInput :=
  let actual_state := default CurrentState_default (actual !! plan_resource plan) in
  let? planning_state := normalize_current actual_state (plan_ideal plan) live model in
  let? best := planned_best (plan_ideal plan) planning_state live model in
  let? candidates := with_text_stop display_transition_generation_error
      (generate_transitions (plan_resource plan) planning_state best model) in
  let pending := pending_for_resource (plan_resource plan) operational_pending in
  let? selected := with_text display_message_selection_error
      (select_transitions (plan_resource plan) (plan_ideal plan) planning_state live candidates
         pending model) in
  Ok (MkResourceInput (plan_resource plan) (replicas (plan_ideal plan)) None
        (all_preference_lists (plan_ideal plan) planning_state) planning_state best selected).

(** ** One planning cycle *)

Definition same_replica (l r : PublishedTransition) : bool :=
  String.eqb (pub_resource l) (pub_resource r) && String.eqb (pub_partition l) (pub_partition r)
  && String.eqb (pub_instance l) (pub_instance r).

Definition same_transition (existing : PublishedTransition) (t : TransitionRequest) (session : N)
  : bool :=
  String.eqb (pub_resource existing) (resource_str (tr_resource t))
  && String.eqb (pub_partition existing) (partition_str (tr_partition t))
  && String.eqb (pub_instance existing) (instance_str (tr_instance t))
  && (pub_target_session existing =? session)%N
  && String.eqb (pub_from existing) (state_str (source_state t))
  && String.eqb (pub_to existing) (state_str (target_state t))
  && String.eqb (pub_message_type existing) "STATE_TRANSITION".

Definition message_for (s : CoordinationSnapshot) (original : list PublishedTransition)
    (ordinal : nat) (t : TransitionRequest) (session : SessionId) : PublishedTransition :=
  let wire := SessionId_wire_value session in
  MkPublished (resource_str (tr_resource t)) (partition_str (tr_partition t))
    (instance_str (tr_instance t)) wire (state_str (source_state t)) (state_str (target_state t))
    "STATE_TRANSITION"
    (match find_first (λ existing, same_transition existing t wire) original with
     | Some existing => pub_message_id existing
     | None => "m10:" +:+ pretty (revision_value (snap_revision s)) +:+ ":" +:+ pretty ordinal
     end).

(** The body of the loop over the dispatchable transitions. *)
Definition publish_transition (s : CoordinationSnapshot) (original : list PublishedTransition)
    (next : list PublishedTransition) (entry : nat * TransitionRequest)
  : list PublishedTransition :=
  let '(ordinal, t) := entry in
  match snapshot_live s !! tr_instance t with
  | None => next
  | Some live =>
      let m := message_for s original ordinal t (live_session_id live) in
      if existsb (λ existing, same_replica existing m) next then next else next ++ [m]
  end.

(** [Vec::dedup] *)
Fixpoint dedup (l : list PublishedTransition) : list PublishedTransition :=
  match l with
  | x :: (y :: _) as l' => if bool_decide (x = y) then dedup l' else x :: dedup l'
  | _ => l
  end.

Definition compute_outputs_with_pending_policy (s : CoordinationSnapshot)
    (pending : list PublishedTransition) (mode : ReconcileMode)
  : planning (ExternalView * list PublishedTransition) :=
  let live := dom (snapshot_live s) in
  let? configs := instance_configs serde s in
  let? actual := active_current_state s configs live in
  let? plans := resource_plans s configs live in
  let model := leader_standby in
  let kept := retain_pending pending s actual plans (is_session_replacement mode) in
  let operational := operational_pending_for_plans kept plans mode in
  let? inputs := collect_results
      (λ plan, resource_transition_input plan actual live operational model) plans in
  let? throttle_configs := if is_startup mode then Ok [] else throttles serde s in
  let? throttle := with_text display_intermediate_throttle_error
      (compute_intermediate_and_throttle inputs live operational throttle_configs model) in
  let next := foldl (publish_transition s pending) kept
                (imap pair (dispatchable_transitions throttle)) in
  Ok (ExternalView_from_current_states actual, dedup (stable_sort key_leb next)).
End planning.

(** ** The state kept between cycles *)

Record ControllerState := MkControllerState {
  cs_pending : list PublishedTransition;
  cs_known_sessions : gmap InstanceId SessionId;
  cs_authoritative_revision : Revision
}.

Definition ControllerState_from_snapshot (serde : Serde) (s : CoordinationSnapshot)
  : planning ControllerState :=
  let? pending := read_pending serde s in
  Ok (MkControllerState pending (live_sessions s) (authoritative_revision s)).

Definition observe_input_revision (st : ControllerState) (r : Revision) : ControllerState :=
  MkControllerState (cs_pending st) (cs_known_sessions st)
    (revision_max (cs_authoritative_revision st) r).

Definition mode_for (st : ControllerState) (s : CoordinationSnapshot) : ReconcileMode :=
  if session_replaced (cs_known_sessions st) s then SessionReplacement else Normal.

Definition remember_sessions (st : ControllerState) (s : CoordinationSnapshot) : ControllerState :=
  MkControllerState (cs_pending st)
    (foldl (λ known '(instance, live), <[instance := live_session_id live]> known)
       (cs_known_sessions st) (entries (snapshot_live s)))
    (cs_authoritative_revision st).

(** * Facts *)

(** ** Loops *)

Lemma set_state_expect_fold l b :
  try_fold (λ b '(p, i, s), set_state_expect b p i s) b l =
  map_err (λ _, Panicked) (map_ok MkCurrentStateBuilder (set_states l (csb_states b))).
Proof.
  revert b. induction l as [|[[p i] s] l IH]; intros b; [by destruct b|].
  unfold set_states in *. simpl. unfold set_state_expect, CurrentStateBuilder_set_state.
  destruct (ReplicaStates_insert _ _ _ _) as [rs [u|e]]; simpl; [|done]. by rewrite IH.
Qed.

(** ** The planning state *)

(** What [normalize_current] must hold for a replica. *)
Definition planned_state (actual : CurrentState) (ideal : IdealState) (live : gset InstanceId)
    (model : StateModelDefinition) (p : PartitionId) (i : InstanceId) : option State :=
  if bool_decide (i ∈ live) then
    match CurrentState_state actual p i with
    | Some s => Some s
    | None => match preference_list ideal p with
              | Some l => if bool_decide (i ∈ l) then Some (initial_state model) else None
              | None => None
              end
    end
  else None.

Section normalize.
Context (actual : CurrentState) (ideal : IdealState) (live : gset InstanceId).
Context (model : StateModelDefinition).

Definition live_replicas : list (PartitionId * InstanceId * State) :=
  omap (λ '(p, i, s), if bool_decide (i ∈ live) then Some (p, i, s) else None)
    (replica_list (CurrentState_entries actual)).

Definition new_replicas : list (PartitionId * InstanceId * State) :=
  omap (λ '(p, i), if negb (bool_decide (i ∈ live)) then None
                   else match CurrentState_state actual p i with
                        | None => Some (p, i, initial_state model)
                        | Some _ => None
                        end)
    (entries (preference_lists ideal) ≫= λ '(p, l), (λ i, (p, i)) <$> l).

Lemma normalize_loops :
  normalize_current actual ideal live model =
  map_err (λ _, Panicked) (map_ok (λ rs, MkCurrentState rs)
    (set_states (live_replicas ++ new_replicas) ReplicaStates_default)).
Proof.
  unfold normalize_current.
  assert (∀ b, try_fold (λ b '(partition, replicas),
      try_fold (λ b '(instance, state),
        if bool_decide (instance ∈ live) then set_state_expect b partition instance state else Ok b)
        b (entries replicas)) b (entries (CurrentState_entries actual)) =
      try_fold (λ b '(p, i, s), set_state_expect b p i s) b live_replicas) as H1.
  { intros b. unfold live_replicas, replica_list.
    rewrite <-try_fold_omap, <-try_fold_bind. apply try_fold_ext. intros t [p insts] _.
    rewrite try_fold_fmap. apply try_fold_ext. intros t' [i s] _. by destruct (bool_decide _). }
  assert (∀ b, try_fold (λ b '(partition, instances),
      try_fold (λ b instance,
        if negb (bool_decide (instance ∈ live)) then Ok b
        else match CurrentState_state actual partition instance with
        | None => set_state_expect b partition instance (initial_state model)
        | Some _ => Ok b
        end) b instances) b (entries (preference_lists ideal)) =
      try_fold (λ b '(p, i, s), set_state_expect b p i s) b new_replicas) as H2.
  { intros b. unfold new_replicas. rewrite <-try_fold_omap, <-try_fold_bind.
    apply try_fold_ext. intros t [p l] _. rewrite try_fold_fmap. apply try_fold_ext.
    intros t' i _. destruct (negb _); [done|]. by destruct (CurrentState_state _ _ _). }
  rewrite H1.
  transitivity (let? builder := try_fold (λ b '(p, i, s), set_state_expect b p i s)
    CurrentState_builder (live_replicas ++ new_replicas) in Ok (CurrentStateBuilder_build builder)).
  - rewrite try_fold_app. destruct (try_fold _ _ live_replicas); [|done]. by rewrite H2.
  - rewrite set_state_expect_fold. by destruct (set_states _ _).
Qed.

Lemma elem_of_live_replicas p i s :
  (p, i, s) ∈ live_replicas ↔ i ∈ live ∧ CurrentState_state actual p i = Some s.
Proof.
  unfold live_replicas. rewrite list_elem_of_omap. split.
  - intros ([[p' i'] s'] & Hin%elem_of_replica_list & H). case_bool_decide; [|done].
    injection H as -> -> ->. done.
  - intros [Hi Hs]. exists (p, i, s). rewrite bool_decide_eq_true_2 by done.
    split; [by apply elem_of_replica_list|done].
Qed.

Lemma elem_of_new_replicas p i s :
  (p, i, s) ∈ new_replicas ↔
  s = initial_state model ∧ i ∈ live ∧ CurrentState_state actual p i = None ∧
  ∃ l, preference_list ideal p = Some l ∧ i ∈ l.
Proof.
  unfold new_replicas. rewrite list_elem_of_omap. split.
  - intros ([p' i'] & Hin & H). destruct (bool_decide (i' ∈ live)) eqn:Hl; [|done]. reflect_bools.
    cbn [negb] in H. destruct (CurrentState_state actual p' i') eqn:Hs; [done|].
    injection H as -> -> ->. split_and!; [done..|].
    apply list_elem_of_bind in Hin as ([q l] & Hin & Hq%elem_of_entries).
    apply list_elem_of_fmap in Hin as (j & [= -> ->] & Hj). by exists l.
  - intros (-> & Hi & Hs & l & Hl & Hil). exists (p, i). split.
    + apply list_elem_of_bind. exists (p, l). split; [|by apply elem_of_entries].
      by apply (list_elem_of_fmap_2 (λ i, (p, i))).
    + by rewrite bool_decide_eq_true_2, Hs by done.
Qed.

Lemma NoDup_live_replicas : NoDup live_replicas.*1.
Proof.
  apply (NoDup_omap_keys _ fst); [|apply NoDup_replica_list].
  intros [[p i] s] b. destruct (bool_decide _); [|done]. by intros [= <-].
Qed.

Lemma NoDup_new_replicas :
  (∀ p l, preference_list ideal p = Some l → NoDup l) → NoDup new_replicas.*1.
Proof.
  intros Hlists. unfold new_replicas. set (keys := entries _ ≫= _).
  assert (NoDup keys) as Hkeys.
  { assert (∀ p l, (p, l) ∈ entries (preference_lists ideal) → NoDup l) as Hl.
    { intros p l Hin. apply elem_of_entries in Hin. by eapply Hlists. }
    pose proof (NoDup_map_keys (preference_lists ideal)) as Hnd. unfold map_keys in Hnd.
    unfold keys. clear keys. induction (entries _) as [|[p l] es IH]; [constructor|].
    rewrite bind_cons. cbn [fmap list_fmap fst] in Hnd. apply NoDup_cons in Hnd as [Hp Hnd].
    apply NoDup_app. split_and!.
    - apply NoDup_fmap_2; [by intros ?? [=]|]. apply (Hl p). left.
    - intros [q i] Hq Hin. apply list_elem_of_fmap in Hq as (j & [= -> ->] & _).
      apply list_elem_of_bind in Hin as ([q l'] & Hq & Hin).
      apply list_elem_of_fmap in Hq as (j' & [= -> ->] & _). apply Hp.
      by apply (list_elem_of_fmap_2 fst _ (q, l')).
    - apply IH; [|done]. intros q l' Hin. apply (Hl q). by right. }
  apply (NoDup_omap_keys _ id); [|by rewrite list_fmap_id].
  intros [p i] b. destruct (negb _); [done|]. destruct (CurrentState_state actual p i); [done|].
  by intros [= <-].
Qed.

Lemma normalize_ok :
  (∀ p l, preference_list ideal p = Some l → NoDup l) →
  ∃ m, normalize_current actual ideal live model = Ok (current_of m) ∧ rmap_wf m ∧
    ∀ p i, CurrentState_state (current_of m) p i = planned_state actual ideal live model p i.
Proof.
  intros Hlists. rewrite normalize_loops.
  destruct (set_states_ok (live_replicas ++ new_replicas) ReplicaStates_default)
    as (rs & -> & Hwf & Hget).
  - rewrite fmap_app. apply NoDup_app. split_and!; [apply NoDup_live_replicas| |by apply NoDup_new_replicas].
    intros [p i] H1 H2. apply list_elem_of_fmap in H1 as ([[? ?] s] & [= <- <-] & H1).
    apply list_elem_of_fmap in H2 as ([[? ?] s'] & [= <- <-] & H2).
    apply elem_of_live_replicas in H1 as [_ H1]. apply elem_of_new_replicas in H2 as (_ & _ & H2 & _).
    congruence.
  - intros p i s _. unfold ReplicaStates_get. simpl. by rewrite lookup_empty.
  - destruct rs as [m]. exists m. split_and!; [done|apply Hwf; simpl; auto with clustodian|].
    intros p i. apply option_eq. intros s. unfold planned_state.
    change (CurrentState_state (current_of m) p i) with (rget m p i). simpl in Hget.
    rewrite Hget, elem_of_app, elem_of_live_replicas, elem_of_new_replicas.
    unfold rget at 1. rewrite lookup_empty. simpl.
    destruct (bool_decide (i ∈ live)) eqn:Hl; reflect_bools; [|naive_solver].
    destruct (CurrentState_state actual p i) as [s0|]; [naive_solver|].
    destruct (preference_list ideal p) as [l|]; [|naive_solver].
    destruct (bool_decide (i ∈ l)) eqn:Hil; reflect_bools; naive_solver.
Qed.
End normalize.

(** ** The planning of one resource *)

Lemma select_total resource ideal current live candidates pending sm :
  Forall (candidate_ok resource ideal current sm) candidates →
  Forall (pending_ok ideal current sm) pending → NoDup (pending_key <$> pending) →
  is_ok (select_transitions resource ideal current live candidates pending sm) = true.
Proof.
  intros Hc Hp Hnd. unfold select_transitions.
  pose proof (group_candidates_spec resource ideal current sm candidates) as H1.
  pose proof (group_pending_spec ideal current sm pending) as H2.
  rewrite Forall_forall in Hc. rewrite Forall_forall in Hp.
  destruct (try_fold (group_candidate _ _ _ _) _ _) as [g|[e a|p|p|p i]]; [|exfalso..].
  - destruct (try_fold (group_pending _ _ _) _ _) as [[g2 keys]|[e a|p|p|p i]]; [done|exfalso..].
    + done.
    + done.
    + destruct H2 as (t & Ht & _ & Hno). by apply Hno, Hp.
    + by destruct H2.
  - destruct H1 as (-> & Hne & t & Ht & <-). by destruct (Hc t Ht).
  - destruct H1 as (t & Ht & _ & Hno). by apply Hno, Hc.
  - done.
  - done.
Qed.

Lemma pending_for_resource_keys r l :
  NoDup (op_key <$> l) → NoDup (pending_key <$> pending_for_resource r l).
Proof.
  intros Hnd. unfold pending_for_resource. rewrite <-list_fmap_compose.
  induction l as [|t l IH]; [constructor|]. rewrite fmap_cons in Hnd.
  apply NoDup_cons in Hnd as [Hno Hnd]. cbn [List.filter].
  destruct (bool_decide (op_resource t = r)) eqn:Hr; reflect_bools; [|by apply IH].
  rewrite fmap_cons. constructor; [|by apply IH].
  intros (u & Heq & Hu)%list_elem_of_fmap.
  rewrite list_elem_of_In, List.filter_In, <-list_elem_of_In in Hu.
  destruct Hu as [Hu Hur%bool_decide_eq_true_1]. apply Hno. apply list_elem_of_fmap. exists u.
  split; [|done]. cbn in Heq. injection Heq as Hp Hi. unfold op_key. congruence.
Qed.

Lemma is_Some_marker {A B} (o : option A) (d : B) :
  is_Some o ↔ is_Some (if bool_decide (is_Some o) then Some d else None).
Proof. case_bool_decide as Ho; [by split|]. split; [done|by intros []]. Qed.

Section resource_facts.
Context (plan : ResourcePlan) (actual : gmap ResourceId CurrentState) (live : gset InstanceId).
Context (operational : list OperationalPendingTransition).
Context (Hwf : IdealState_wf (plan_ideal plan)).

Let actual_state := default CurrentState_default (actual !! plan_resource plan).
Let pending := pending_for_resource (plan_resource plan) operational.

(** Every replica of the planning state gets a target and no other does. *)
Lemma best_covers cur best :
  (∀ p i, CurrentState_state cur p i =
          planned_state actual_state (plan_ideal plan) live leader_standby p i) →
  (∀ p pref, preference_list (plan_ideal plan) p = Some pref →
     partition_spec leader_standby live (CurrentState_entries cur !! p) pref
       (BestPossibleState_state best p)) →
  (∀ p i, preference_list (plan_ideal plan) p = None →
     BestPossibleState_state best p i =
     if bool_decide (is_Some (CurrentState_state cur p i)) then Some DROPPED else None) →
  same_replicas cur best.
Proof.
  intros Hcur Hplaced Hdrained p i. destruct (preference_list (plan_ideal plan) p) as [pref|] eqn:Hp.
  - specialize (Hplaced p pref Hp).
    destruct (decide (i ∈ pref)) as [Hi|Hi].
    + rewrite Hcur. unfold planned_state. rewrite Hp, (bool_decide_eq_true_2 (i ∈ pref)) by done.
      destruct (decide (i ∈ live)) as [Hl|Hl].
      * rewrite (bool_decide_eq_true_2 (i ∈ live)) by done.
        assert (i ∈ SemiAuto.placed live pref) as Hin by by apply elem_of_placed.
        destruct (leader_standby_partition _ _ _ _ Hplaced) as [_ Hall].
        destruct Hall as (l & _ & Hl1 & Hl2); [set_solver|].
        destruct (CurrentState_state actual_state p i); split; intros _; try by eexists.
        all: destruct (decide (i = l)) as [->|Hne]; [by eexists|rewrite Hl2 by done; by eexists].
      * rewrite (bool_decide_eq_false_2 (i ∈ live)) by done.
        by rewrite (ps_dead _ _ _ _ _ Hplaced) by done.
    + rewrite (ps_unplaced _ _ _ _ _ Hplaced) by done.
      change (CurrentState_entries cur !! p ≫= λ m, m !! i) with (CurrentState_state cur p i).
      apply is_Some_marker.
  - rewrite Hdrained by done. apply is_Some_marker.
Qed.

Lemma candidates_ok cur best t :
  (∀ p i, preference_list (plan_ideal plan) p = None →
     BestPossibleState_state best p i =
     if bool_decide (is_Some (CurrentState_state cur p i)) then Some DROPPED else None) →
  t ∈ omap (request_for (plan_resource plan) cur leader_standby)
        (replica_list (BestPossibleState_entries best)) →
  candidate_ok (plan_resource plan) (plan_ideal plan) cur leader_standby t.
Proof.
  intros Hdrained Ht. apply elem_of_generated in Ht as (d & Hd & Hr & Hs & _ & Hnext).
  split; [done|]. unfold placed_or_dropping.
  destruct (preference_list (plan_ideal plan) (tr_partition t)) as [l|] eqn:Hp; [by left; eexists|].
  right. rewrite Hdrained, bool_decide_eq_true_2 in Hd by (done || by eexists).
  injection Hd as <-. unfold is_drop_path. rewrite leader_standby_states.
  change (find_first is_dropped [LEADER; STANDBY; OFFLINE; DROPPED]) with (Some DROPPED).
  apply andb_true_iff. split; apply bool_decide_eq_true_2; [|exact Hnext].
  unfold CurrentState_state, ReplicaStates_get in Hs. unfold CurrentState_entries.
  destruct (states (current_replicas cur) !! tr_partition t); [by eexists|discriminate Hs].
Qed.

(** Up to selection, planning a resource never fails. *)
Lemma input_eq :
  ∃ cur best candidates,
    (∀ p i, CurrentState_state cur p i =
            planned_state actual_state (plan_ideal plan) live leader_standby p i) ∧
    Forall (candidate_ok (plan_resource plan) (plan_ideal plan) cur leader_standby) candidates ∧
    resource_transition_input plan actual live operational leader_standby =
    let? selected := with_text display_message_selection_error
        (select_transitions (plan_resource plan) (plan_ideal plan) cur live candidates
           pending leader_standby) in
    Ok (MkResourceInput (plan_resource plan) (replicas (plan_ideal plan)) None
          (all_preference_lists (plan_ideal plan) cur) cur best selected).
Proof using Hwf.
  destruct (normalize_ok actual_state (plan_ideal plan) live leader_standby) as (m & Hm & _ & Hcur).
  { intros p l Hl. by destruct (ideal_lists _ Hwf p l Hl). }
  destruct (compute_spec (plan_ideal plan) (current_of m) live leader_standby)
    as (best & Hbest & Hplaced & Hdrained).
  pose proof (best_covers _ _ Hcur Hplaced Hdrained) as Hsame.
  eexists (current_of m), best, _. split; [exact Hcur|]. split.
  { apply Forall_forall. intros t Ht. by eapply candidates_ok. }
  unfold resource_transition_input. fold actual_state pending. rewrite Hm.
  unfold planned_best. rewrite bool_decide_eq_false_2 by apply Hwf. rewrite Hbest.
  cbn [with_text_stop map_err]. rewrite (generate_eq _ _ _ _ Hsame). done.
Qed.
End resource_facts.

(** ** Plans *)

Lemma build_ideal_wf resource n lists ideal :
  build_ideal resource n lists = Ok ideal → IdealState_wf ideal.
Proof.
  unfold build_ideal. intros H. inv_ok H.
  assert (ideal_reachable resource n a) as Hr.
  { destruct (try_fold _ _ (entries lists)) as [b|] eqn:Hrun; [|discriminate Hok].
    injection Hok as <-.
    eapply (try_fold_ind _ (ideal_reachable resource n)); [| |exact Hrun].
    - apply ideal_start.
    - intros b' [p l] b'' _ Hb Hset. by eapply ideal_add. }
  apply ideal_reachable_inv in Hr as (_ & <- & Hall). revert H. unfold with_text, IdealStateBuilder_build.
  case_bool_decide; [discriminate|]. intros [= <-]. by split.
Qed.

Section plan_facts.
Context (serde : Serde) (powf : spec_float → spec_float → spec_float).
Context (debug : string → string) (fuel : nat).

Lemma resource_plans_wf s configs live plans plan :
  resource_plans serde powf debug fuel s configs live = Ok plans → plan ∈ plans →
  IdealState_wf (plan_ideal plan).
Proof.
  intros Hrun. revert plan.
  eapply (try_fold_ind _ (λ ps, ∀ plan, plan ∈ ps → IdealState_wf (plan_ideal plan)));
    [by intros plan ?%elem_of_nil| |exact Hrun].
  intros ps [key entry] ps' _ IH Hstep. destruct (strip_prefix RESOURCE_PREFIX key) as [name|];
    [|by injection Hstep as <-].
  destruct (resource_plan _ _ _ _ _ _ _ _) as [plan|] eqn:Hp; [|done]. injection Hstep as <-.
  intros plan' [Hin| ->%list_elem_of_singleton]%elem_of_app; [by apply IH|].
  unfold resource_plan, fail in Hp. inv_ok Hp. injection Hp as <-. cbn. by eapply build_ideal_wf.
Qed.
End plan_facts.

(** ** Messages *)

Definition replica_key (m : PublishedTransition) : string * string * string :=
  (pub_resource m, pub_partition m, pub_instance m).

Lemma same_replica_key l r : same_replica l r = true ↔ replica_key l = replica_key r.
Proof.
  unfold same_replica, replica_key. rewrite !andb_true_iff, !String.eqb_eq.
  split; [by intros [[-> ->] ->]|by intros [= -> -> ->]].
Qed.

(** A message of the planner for a dispatched transition. *)
Definition planner_message (s : CoordinationSnapshot) (original : list PublishedTransition)
    (dispatched : list TransitionRequest) (m : PublishedTransition) : Prop :=
  ∃ k t live, dispatched !! k = Some t ∧ snapshot_live s !! tr_instance t = Some live ∧
    m = message_for s original k t (live_session_id live).

(** The loop keeps what was pending and adds at most one message per replica. *)
Lemma publish_loop s original kept dispatched :
  ∃ added, foldl (publish_transition s original) kept (imap pair dispatched) = kept ++ added ∧
    Forall (planner_message s original dispatched) added ∧
    NoDup (replica_key <$> added) ∧
    ∀ m k, m ∈ added → k ∈ kept → replica_key m ≠ replica_key k.
Proof.
  apply (foldl_processed _ (λ _ next, ∃ added, next = kept ++ added ∧
    Forall (planner_message s original dispatched) added ∧ NoDup (replica_key <$> added) ∧
    ∀ m k, m ∈ added → k ∈ kept → replica_key m ≠ replica_key k)).
  { exists []. rewrite app_nil_r. split_and!; [done|constructor|constructor|].
    by intros m k ?%elem_of_nil. }
  intros _ [k t] next Hk%elem_of_imap_pair (added & -> & Hall & Hnd & Hdis).
  unfold publish_transition. destruct (snapshot_live s !! tr_instance t) as [live|] eqn:Hl;
    [|by exists added].
  set (m := message_for _ _ _ _ _).
  destruct (existsb (λ e, same_replica e m) (kept ++ added)) eqn:He; [by exists added|].
  assert (∀ e, e ∈ kept ++ added → replica_key m ≠ replica_key e) as Hnew.
  { intros e Hin Heq. assert (existsb (λ e, same_replica e m) (kept ++ added) = true) as Ht;
      [|congruence]. apply existsb_exists. exists e. split; [by apply list_elem_of_In|].
    by apply same_replica_key. }
  exists (added ++ [m]). rewrite app_assoc. split_and!; [done| | |].
  - apply Forall_app. split; [done|]. constructor; [by exists k, t, live|done].
  - rewrite fmap_app. apply NoDup_app. split_and!; [done| |apply NoDup_singleton].
    intros x (e & -> & He')%list_elem_of_fmap Hx%list_elem_of_singleton.
    apply (Hnew e); [set_solver|done].
  - intros m' e [Hm| ->%list_elem_of_singleton]%elem_of_app He'; [by apply Hdis|].
    apply Hnew. set_solver.
Qed.

Lemma elem_of_dedup l m : m ∈ dedup l ↔ m ∈ l.
Proof.
  induction l as [|x l IH]; [done|]. destruct l as [|y l]; [done|].
  change (dedup (x :: y :: l)) with (if bool_decide (x = y) then dedup (y :: l) else x :: dedup (y :: l)).
  case_bool_decide as Hxy.
  - rewrite IH, !elem_of_cons. naive_solver.
  - rewrite elem_of_cons, IH, (elem_of_cons (y :: l)). done.
Qed.

Lemma dedup_sorted l :
  StronglySorted (λ a b, key_leb a b = true) l → StronglySorted key_lt (dedup l).
Proof.
  induction 1 as [|x l Hs IH Hall]; [constructor|]. destruct l as [|y l]; [repeat constructor|].
  change (dedup (x :: y :: l)) with (if bool_decide (x = y) then dedup (y :: l) else x :: dedup (y :: l)).
  case_bool_decide as Hxy; [done|]. constructor; [done|]. apply Forall_forall.
  intros z Hz. rewrite elem_of_dedup in Hz. rewrite Forall_forall in Hall.
  pose proof (Hall y ltac:(left)) as Hxy'. apply key_leb_spec in Hxy' as [?|Hlt]; [done|].
  apply elem_of_cons in Hz as [->|Hz]; [done|].
  inversion Hs as [|? ? _ Hy]; subst. rewrite Forall_forall in Hy.
  destruct (proj1 (key_leb_spec _ _) (Hy z Hz)) as [<-|Hlt']; [done|]. by etrans.
Qed.

Lemma sorted_nodup (l : list PublishedTransition) : StronglySorted key_lt l → NoDup l.
Proof.
  induction 1 as [|x l _ IH Hall]; [constructor|]. constructor; [|done]. intros Hin.
  rewrite Forall_forall in Hall. by apply (key_lt_irrefl x), Hall.
Qed.

Lemma sorted_output l :
  StronglySorted key_lt (dedup (stable_sort key_leb l)) ∧
  ∀ m, m ∈ dedup (stable_sort key_leb l) ↔ m ∈ l.
Proof.
  split.
  - apply dedup_sorted, stable_sort_sorted; [apply key_leb_total|apply key_leb_trans].
  - intros m. by rewrite elem_of_dedup, elem_of_stable_sort.
Qed.

(** ** The current state the controller sees *)

(** Every replica state the participants report, in iteration order. *)
Definition reported (s : CoordinationSnapshot)
  : list (ResourceId * PartitionId * InstanceId * State) :=
  map_values (snap_active_current_state (participants s)) ≫= λ active,
    entries (active_resources active) ≫= λ '(resource, current),
      (λ '(p, i, state), (resource, p, i, state)) <$> replica_list (CurrentState_entries current).

(** The last report for a replica, or [o] when there is none. *)
Definition last_report (r : ResourceId) (p : PartitionId) (i : InstanceId)
    (l : list (ResourceId * PartitionId * InstanceId * State)) (o : option State) : option State :=
  foldl (λ o '(r', p', i', s), if bool_decide ((r', p', i') = (r, p, i)) then Some s else o) o l.

Section active_facts.
Context (configs : gmap InstanceId string) (live : gset InstanceId).

Definition visible (i : InstanceId) : bool :=
  bool_decide (is_Some (configs !! i)) && bool_decide (i ∈ live).

Definition rrget (acc : gmap ResourceId replica_map) (r : ResourceId) (p : PartitionId)
    (i : InstanceId) : option State := acc !! r ≫= λ m, rget m p i.

Lemma add_active_get acc r cur r' p i :
  rrget (add_active configs live acc r cur) r' p i =
  if bool_decide (r = r')
  then or_else (if visible i then CurrentState_state cur p i else None) (rrget acc r' p i)
  else rrget acc r' p i.
Proof.
  unfold rrget, add_active. case_bool_decide as Hr; [subst r'|by rewrite lookup_insert_ne].
  rewrite lookup_insert_eq. cbn [mbind option_bind]. unfold rget at 1.
  rewrite (foldl_update_lookup (λ insts replicas, foldl (λ insts '(replica, state),
      if negb (bool_decide (is_Some (configs !! replica))) || negb (bool_decide (replica ∈ live))
      then insts else <[replica := state]> insts) insts (entries replicas)) ∅)
    by apply NoDup_map_keys.
  rewrite list_to_map_entries. unfold CurrentState_state, ReplicaStates_get, CurrentState_entries.
  assert (default ∅ (default ∅ (acc !! r) !! p) !! i = acc !! r ≫= λ m, rget m p i) as Hbase.
  { destruct (acc !! r) as [m|]; simpl; [|by rewrite lookup_empty]. unfold rget.
    by destruct (m !! p); simpl; [|rewrite lookup_empty]. }
  destruct (states (current_replicas cur) !! p) as [reps|]; cbn [mbind option_bind].
  - rewrite (foldl_guarded_insert (λ replica, negb (bool_decide (is_Some (configs !! replica)))
      || negb (bool_decide (replica ∈ live)))) by apply NoDup_map_keys.
    rewrite list_to_map_entries, Hbase. f_equal. unfold visible.
    by destruct (bool_decide (is_Some _)), (bool_decide (i ∈ live)).
  - rewrite <-Hbase. destruct (default ∅ (acc !! r) !! p); simpl; destruct (visible i); done.
Qed.

Lemma last_report_app r p i l1 l2 o :
  last_report r p i (l1 ++ l2) o = last_report r p i l2 (last_report r p i l1 o).
Proof. apply foldl_app. Qed.

Lemma last_report_current r r' p i cur o :
  last_report r' p i ((λ '(p, i, state), (r, p, i, state)) <$> replica_list (CurrentState_entries cur)) o =
  if bool_decide (r = r') then or_else (CurrentState_state cur p i) o else o.
Proof.
  unfold last_report. rewrite foldl_fmap.
  pose proof (NoDup_replica_list (CurrentState_entries cur)) as Hnd.
  pose proof (λ s, elem_of_replica_list (CurrentState_entries cur) p i s) as Hin.
  change (rget (CurrentState_entries cur) p i) with (CurrentState_state cur p i) in Hin.
  case_bool_decide as Hr; [subst r'|].
  - revert o Hnd Hin. generalize (CurrentState_state cur p i) as want.
    induction (replica_list _) as [|[[p' i'] s'] l IH]; intros want o Hnd Hin; cbn [foldl].
    + destruct want as [s|]; [|done]. exfalso. pose proof (proj2 (Hin s) eq_refl) as H.
      by apply elem_of_nil in H.
    + cbn [fmap list_fmap fst] in Hnd. apply NoDup_cons in Hnd as [Hno Hnd].
      case_bool_decide as Heq.
      * injection Heq as -> ->.
        assert (want = Some s') as -> by (apply Hin; left).
        rewrite (IH None); [done|done|]. intros s. split; [|done]. intros Hs.
        destruct Hno. by apply (list_elem_of_fmap_2 fst _ (p, i, s)).
      * apply IH; [done|]. intros s. rewrite <-Hin, elem_of_cons. split; [by right|].
        intros [[= -> -> ->]|?]; [done|done].
  - induction (replica_list _) as [|[[p' i'] s'] l IH] in o |- *; cbn [foldl]; [done|].
    rewrite bool_decide_eq_false_2 by congruence. apply IH.
Qed.

Lemma add_resources_get (l : list (ResourceId * CurrentState)) acc r p i :
  rrget (foldl (λ acc '(resource, current), add_active configs live acc resource current) acc l) r p i =
  if visible i
  then last_report r p i (l ≫= λ '(resource, current),
         (λ '(p, i, state), (resource, p, i, state)) <$> replica_list (CurrentState_entries current))
         (rrget acc r p i)
  else rrget acc r p i.
Proof.
  revert acc. induction l as [|[r' cur] l IH]; intros acc; cbn [foldl].
  { by destruct (visible i). }
  rewrite IH, bind_cons, last_report_app, add_active_get, last_report_current.
  by destruct (visible i), (bool_decide (r' = r)).
Qed.

Lemma active_states_get s r p i :
  rrget (foldl (λ acc active,
      foldl (λ acc '(resource, current), add_active configs live acc resource current)
        acc (entries (active_resources active)))
    ∅ (map_values (snap_active_current_state (participants s)))) r p i =
  if visible i then last_report r p i (reported s) None else None.
Proof.
  unfold reported. change (None : option State) with (rrget ∅ r p i) at 1 2.
  generalize (∅ : gmap ResourceId replica_map) as acc.
  induction (map_values _) as [|active l IH]; intros acc; cbn [foldl].
  { by destruct (visible i). }
  rewrite IH, bind_cons, last_report_app, add_resources_get. by destruct (visible i).
Qed.

Lemma build_states_ok m :
  ∃ m', build_states m = Ok (current_of m') ∧ ∀ p i, rget m' p i = rget m p i.
Proof.
  assert (build_states m = let? b := try_fold (λ b '(p, i, s), set_state_expect b p i s)
    CurrentState_builder (replica_list m) in Ok (CurrentStateBuilder_build b)) as ->.
  { unfold build_states, replica_list. rewrite <-try_fold_bind.
    rewrite (try_fold_ext _ (λ t '(p, insts), try_fold (λ b '(p, i, s), set_state_expect b p i s) t
      ((λ '(i, s), (p, i, s)) <$> entries insts))).
    - erewrite (try_fold_ext _ (λ t x, try_fold _ t _)); [reflexivity|]. by intros t [p insts] _.
    - intros t [p insts] _. rewrite try_fold_fmap. apply try_fold_ext. by intros t' [i s] _. }
  rewrite set_state_expect_fold.
  destruct (set_states_ok (replica_list m) ReplicaStates_default) as (rs & Hrun & _ & Hget).
  - apply NoDup_replica_list.
  - intros p i s _. unfold ReplicaStates_get. simpl. by rewrite lookup_empty.
  - change (csb_states CurrentState_builder) with ReplicaStates_default. rewrite Hrun.
    destruct rs as [m']. exists m'. split; [done|]. intros p i. apply option_eq. intros s.
    simpl in Hget. rewrite Hget, elem_of_replica_list. unfold rget at 1. rewrite lookup_empty.
    simpl. naive_solver.
Qed.

Lemma collect_build_states (l : list (ResourceId * replica_map)) :
  NoDup l.*1 →
  ∃ built, collect_results (λ '(resource, m),
      let? current := build_states m in Ok (resource, current)) l = Ok built ∧
    built.*1 = l.*1 ∧
    ∀ r p i, (list_to_map built : gmap ResourceId CurrentState) !! r ≫= (λ c, CurrentState_state c p i)
           = rrget (list_to_map l) r p i.
Proof.
  intros Hnd. assert (∃ built, Forall2 (λ x y, (λ '(resource, m),
      let? current := build_states m in Ok (resource, current)) x = Ok y) l built ∧
    built.*1 = l.*1 ∧
    ∀ r p i, (list_to_map built : gmap ResourceId CurrentState) !! r ≫= (λ c, CurrentState_state c p i)
           = rrget (list_to_map l) r p i) as (built & Hb & ?).
  { clear Hnd. induction l as [|[r m] l (built & Hb & Hk & Hget)].
    - exists []. split_and!; [constructor|done|]. intros r p i. unfold rrget. cbn.
      by rewrite !lookup_empty.
    - destruct (build_states_ok m) as (m' & Hm & Hget'). exists ((r, current_of m') :: built).
      split_and!; [constructor; [by rewrite Hm|done]|by cbn; rewrite Hk|].
      intros r' p i. unfold rrget. cbn [list_to_map foldr fst snd].
      destruct (decide (r = r')) as [->|Hne].
      + rewrite !lookup_insert_eq. apply Hget'.
      + rewrite !lookup_insert_ne by done. apply Hget. }
  exists built. split; [|done]. by apply collect_results_ok.
Qed.

Lemma active_current_state_ok s :
  ∃ actual, active_current_state s configs live = Ok actual ∧
    ∀ r p i, actual !! r ≫= (λ c, CurrentState_state c p i) =
             if visible i then last_report r p i (reported s) None else None.
Proof.
  unfold active_current_state. set (acc := foldl _ ∅ _).
  destruct (collect_build_states (entries acc)) as (built & -> & Hk & Hget); [apply NoDup_map_keys|].
  exists (btree_collect built). split; [done|]. intros r p i.
  rewrite <-active_states_get. fold acc. rewrite <-(list_to_map_entries acc), <-Hget.
  unfold btree_collect. rewrite foldl_insert_lookup; [|rewrite Hk; apply NoDup_map_keys].
  rewrite lookup_empty. by destruct (list_to_map built !! r).
Qed.
End active_facts.

(** ** One cycle *)

Section cycle_facts.
Context (serde : Serde) (powf : spec_float → spec_float → spec_float).
Context (debug : string → string) (fuel : nat).
Context (s : CoordinationSnapshot) (pending : list PublishedTransition) (mode : ReconcileMode).

Let live := dom (snapshot_live s).

(** The values a successful cycle computes on its way. *)
Record cycle_run (view : ExternalView) (next : list PublishedTransition)
    (configs : gmap InstanceId string) (actual : gmap ResourceId CurrentState)
    (plans : list ResourcePlan) (inputs : list ResourceTransitionInput)
    (dispatched : list TransitionRequest) : Prop := {
  run_configs : instance_configs serde s = Ok configs;
  run_actual : active_current_state s configs live = Ok actual;
  run_view : view = ExternalView_from_current_states actual;
  run_plans : resource_plans serde powf debug fuel s configs live = Ok plans;
  run_inputs : Forall2 (λ plan input, resource_transition_input plan actual live
      (operational_pending_for_plans
         (retain_pending pending s actual plans (is_session_replacement mode)) plans mode)
      leader_standby = Ok input) plans inputs;
  run_resources : NoDup (ri_resource <$> inputs);
  run_dispatched : ∀ t, t ∈ dispatched → ∃ input, input ∈ inputs ∧ t ∈ ri_selected_transitions input;
  run_next : next = dedup (stable_sort key_leb (foldl (publish_transition s pending)
      (retain_pending pending s actual plans (is_session_replacement mode)) (imap pair dispatched)))
}.

Lemma cycle_inv view next :
  compute_outputs_with_pending_policy serde powf debug fuel s pending mode = Ok (view, next) →
  ∃ configs actual plans inputs dispatched,
    cycle_run view next configs actual plans inputs dispatched.
Proof.
  unfold compute_outputs_with_pending_policy. cbv zeta. fold live. intros H.
  destruct (instance_configs serde s) as [configs|] eqn:Hc; [|discriminate H].
  destruct (active_current_state s configs live) as [actual|] eqn:Ha; [|discriminate H].
  destruct (resource_plans _ _ _ _ s configs live) as [plans|] eqn:Hp; [|discriminate H].
  destruct (collect_results _ plans) as [inputs|] eqn:Hi; [|discriminate H].
  destruct (if is_startup mode then _ else _) as [cfgs|]; [|discriminate H].
  destruct (compute_intermediate_and_throttle inputs _ _ _ _) as [thr|] eqn:Ht; [|discriminate H].
  cbn [with_text map_err] in H. injection H as <- <-.
  exists configs, actual, plans, inputs, (dispatchable_transitions thr).
  apply collect_results_ok in Hi.
  pose proof (compute_run _ _ _ _ _ _ Ht) as (Hnd & _ & st & Hrun & _ & Hdis).
  split; [exact Hc|exact Ha|reflexivity|exact Hp|exact Hi|exact Hnd| |reflexivity]. intros t Hin.
  destruct (process_all_run _ _ _ _ _ _ _ Hnd Hrun) as (L & _ & _ & Hl & Hsub & _).
  rewrite Hdis, Hl in Hin. cbn [ss_dispatchable] in Hin. rewrite app_nil_l in Hin.
  apply (elem_of_submseteq _ _ _ Hin) in Hsub. apply list_elem_of_bind in Hsub as (input & ? & ?).
  by exists input.
Qed.

Lemma run_messages view next configs actual plans inputs dispatched :
  cycle_run view next configs actual plans inputs dispatched →
  let kept := retain_pending pending s actual plans (is_session_replacement mode) in
  ∃ added, (∀ m, m ∈ next ↔ m ∈ kept ∨ m ∈ added) ∧ StronglySorted key_lt next ∧
    Forall (planner_message s pending dispatched) added ∧ NoDup (replica_key <$> added) ∧
    ∀ m k, m ∈ added → k ∈ kept → replica_key m ≠ replica_key k.
Proof.
  intros Hrun kept. destruct (publish_loop s pending kept dispatched) as (added & Hl & ? & ? & ?).
  exists added. rewrite (run_next _ _ _ _ _ _ _ Hrun). fold kept. rewrite Hl.
  destruct (sorted_output (kept ++ added)) as [Hs Hm]. split_and!; [|done..].
  intros m. rewrite Hm. apply elem_of_app.
Qed.

Lemma elem_of_kept actual plans strict m :
  m ∈ retain_pending pending s actual plans strict ↔
  m ∈ pending ∧ keep_pending s actual plans strict m = true.
Proof. unfold retain_pending. by rewrite list_elem_of_In, List.filter_In, <-list_elem_of_In. Qed.

(** What it takes for a published message to stay. *)
Lemma keep_pending_inv actual plans strict m :
  keep_pending s actual plans strict m = true →
  ∃ l plan, snapshot_live s !! MkInstanceId (pub_instance m) = Some l ∧
    session_value (live_session_id l) = pub_target_session m ∧
    InstanceId_new (pub_instance m) = Ok (MkInstanceId (pub_instance m)) ∧
    ResourceId_new (pub_resource m) = Ok (MkResourceId (pub_resource m)) ∧
    PartitionId_new (pub_partition m) = Ok (MkPartitionId (pub_partition m)) ∧
    plan ∈ plans ∧ plan_resource plan = MkResourceId (pub_resource m) ∧
    (strict = true → pub_to m ≠ "OFFLINE" → pub_to m ≠ "DROPPED" →
     ∃ pref, preference_list (plan_ideal plan) (MkPartitionId (pub_partition m)) = Some pref ∧
             MkInstanceId (pub_instance m) ∈ pref).
Proof.
  unfold keep_pending, InstanceId_new, ResourceId_new, PartitionId_new, validate.
  destruct (is_empty (pub_instance m)); [done|].
  destruct (snapshot_live s !! MkInstanceId (pub_instance m)) as [l|]; [|done].
  case_bool_decide as Hsess; [|done]. cbn [negb].
  destruct (is_empty (pub_resource m)); [done|]. destruct (is_empty (pub_partition m)); [done|].
  destruct (find_first _ plans) as [plan|] eqn:Hf; [|done].
  apply find_first_Some in Hf as [Hin Hr]. apply String.eqb_eq in Hr.
  intros Hk. exists l, plan. split_and!; [done..| |].
  { destruct (plan_resource plan). cbn in Hr. by subst. }
  intros -> Ho Hd. destruct (_ && negb _); [done|].
  rewrite (proj2 (String.eqb_neq _ _) Ho), (proj2 (String.eqb_neq _ _) Hd) in Hk. cbn [orb andb] in Hk.
  destruct (preference_list _ _) as [pref|]; [|done]. exists pref. split; [done|].
  destruct (bool_decide (MkInstanceId (pub_instance m) ∈ pref)) eqn:Hb; [by reflect_bools|done].
Qed.

(** The input of a resource comes from a successful selection on its planning
    state. *)
Record input_run (actual : gmap ResourceId CurrentState)
    (operational : list OperationalPendingTransition) (plan : ResourcePlan)
    (input : ResourceTransitionInput) (cur : CurrentState)
    (candidates : list TransitionRequest) : Prop := {
  in_resource : ri_resource input = plan_resource plan;
  in_state : ∀ p i, CurrentState_state cur p i =
    planned_state (default CurrentState_default (actual !! plan_resource plan)) (plan_ideal plan)
      live leader_standby p i;
  in_candidates : Forall (candidate_ok (plan_resource plan) (plan_ideal plan) cur leader_standby)
    candidates;
  in_selected : select_transitions (plan_resource plan) (plan_ideal plan) cur live candidates
    (pending_for_resource (plan_resource plan) operational) leader_standby =
    Ok (ri_selected_transitions input)
}.

Lemma input_inv actual operational plan input :
  IdealState_wf (plan_ideal plan) →
  resource_transition_input plan actual live operational leader_standby = Ok input →
  ∃ cur candidates, input_run actual operational plan input cur candidates.
Proof.
  intros Hwf Hin. destruct (input_eq plan actual live operational Hwf)
    as (cur & best & candidates & Hcur & Hcand & Heq).
  rewrite Heq in Hin. exists cur, candidates.
  destruct (select_transitions _ _ _ _ _ _ _) as [selected|] eqn:Hsel; [|discriminate Hin].
  cbn [with_text map_err] in Hin. injection Hin as <-. split; [reflexivity|exact Hcur|exact Hcand|exact Hsel].
Qed.

Lemma selected_resource actual operational plan input cur candidates t :
  input_run actual operational plan input cur candidates →
  t ∈ ri_selected_transitions input → tr_resource t = plan_resource plan.
Proof.
  intros [_ _ Hcand Hsel] Ht. destruct (select_ok _ _ _ _ _ _ _ _ Hsel) as (_ & _ & _ & Hspec).
  specialize (Hspec (tr_partition t)).
  assert (t ∈ filter (λ u, tr_partition u = tr_partition t) (ri_selected_transitions input)) as Hin
    by by apply list_elem_of_filter.
  apply (λ H, elem_of_sublist _ _ _ H (sel_sub _ _ _ _ _ _ _ Hspec)) in Hin.
  apply elem_of_ordered in Hin as [Hin _]. rewrite Forall_forall in Hcand.
  by destruct (Hcand t Hin).
Qed.

Section run_facts.
Context (view : ExternalView) (next : list PublishedTransition).
Context (configs : gmap InstanceId string) (actual : gmap ResourceId CurrentState).
Context (plans : list ResourcePlan) (inputs : list ResourceTransitionInput).
Context (dispatched : list TransitionRequest).
Context (Hrun : cycle_run view next configs actual plans inputs dispatched).

Let kept := retain_pending pending s actual plans (is_session_replacement mode).
Let operational := operational_pending_for_plans kept plans mode.

Lemma dispatched_origin t :
  t ∈ dispatched →
  ∃ plan input cur candidates, input ∈ inputs ∧ input_run actual operational plan input cur candidates ∧
    t ∈ ri_selected_transitions input ∧ tr_resource t = plan_resource plan.
Proof using Hrun.
  intros (input & Hin & Ht)%(run_dispatched _ _ _ _ _ _ _ Hrun).
  pose proof (run_inputs _ _ _ _ _ _ _ Hrun) as Hf.
  apply list_elem_of_lookup in Hin as [k Hk].
  destruct (Forall2_lookup_r _ _ _ _ _ Hf Hk) as (plan & Hplan & Hrti).
  apply list_elem_of_lookup_2 in Hplan, Hk.
  pose proof (resource_plans_wf _ _ _ _ _ _ _ _ _ (run_plans _ _ _ _ _ _ _ Hrun) Hplan) as Hwf.
  destruct (input_inv _ _ _ _ Hwf Hrti) as (cur & candidates & Hir).
  exists plan, input, cur, candidates. split_and!; [done..|]. by eapply selected_resource.
Qed.

(** The transitions of two dispatched promotions of one partition coincide. *)
Lemma dispatched_leader_unique t t' :
  t ∈ dispatched → t' ∈ dispatched → tr_resource t = tr_resource t' →
  tr_partition t = tr_partition t' → target_state t = LEADER → target_state t' = LEADER → t = t'.
Proof using Hrun.
  intros Ht Ht' Hr Hp Hl Hl'.
  destruct (dispatched_origin t Ht) as (plan & input & cur & cands & Hin & Hir & Hsel & Hres).
  destruct (dispatched_origin t' Ht') as (plan' & input' & cur' & cands' & Hin' & Hir' & Hsel' & Hres').
  assert (input' = input) as ->.
  { apply (NoDup_fmap_inj_on ri_resource inputs); [apply (run_resources _ _ _ _ _ _ _ Hrun)|done..|].
    rewrite (in_resource _ _ _ _ _ _ Hir), (in_resource _ _ _ _ _ _ Hir'). congruence. }
  destruct (single_leader_selected _ _ _ _ _ _ _ (tr_partition t') t'
    (in_selected _ _ _ _ _ _ Hir) Hsel' eq_refl Hl') as (Hu & _). by apply Hu.
Qed.

(** Next to a dispatched promotion no visible replica leads. *)
Lemma dispatched_leader_alone t i :
  t ∈ dispatched → target_state t = LEADER →
  ExternalView_state view (tr_resource t) (tr_partition t) i ≠ Some LEADER.
Proof using Hrun.
  intros Ht Hl Hv.
  destruct (dispatched_origin t Ht) as (plan & input & cur & cands & Hin & Hir & Hsel & Hres).
  destruct (single_leader_selected _ _ _ _ _ _ _ (tr_partition t) t
    (in_selected _ _ _ _ _ _ Hir) Hsel eq_refl Hl) as (_ & Hno & _).
  rewrite (run_view _ _ _ _ _ _ _ Hrun) in Hv. unfold ExternalView_state in Hv. cbn in Hv.
  rewrite lookup_fmap in Hv.
  destruct (active_current_state_ok configs live s) as (actual' & Ha & Hget).
  rewrite (run_actual _ _ _ _ _ _ _ Hrun) in Ha. injection Ha as <-.
  specialize (Hget (tr_resource t) (tr_partition t) i).
  destruct (actual !! tr_resource t) as [c|] eqn:Hc; [|done]. cbn in Hv, Hget.
  change (CurrentState_state c (tr_partition t) i = Some LEADER) in Hv. rewrite Hv in Hget.
  unfold visible in Hget. destruct (bool_decide (i ∈ live)) eqn:Hi; reflect_bools;
    [|by rewrite andb_false_r in Hget].
  apply (Hno i Hi). rewrite (in_state _ _ _ _ _ _ Hir). unfold planned_state.
  rewrite <-Hres, Hc. cbn [default from_option id]. by rewrite bool_decide_eq_true_2, Hv.
Qed.

Lemma elem_of_operational l t :
  t ∈ operational_pending_for_plans l plans mode ↔
  ∃ m, m ∈ l ∧ to_operational_pending m = Some t ∧ belongs_to_plan plans mode t = true.
Proof.
  set (g := λ m, match to_operational_pending m with
                 | Some t => if belongs_to_plan plans mode t then Some t else None
                 | None => None
                 end).
  assert (operational_pending_for_plans l plans mode = omap g l) as ->.
  { unfold operational_pending_for_plans. rewrite <-(app_nil_l (omap g l)).
    set (f := λ acc m, match to_operational_pending m with
                       | None => acc
                       | Some t => if belongs_to_plan plans mode t then acc ++ [t] else acc
                       end).
    assert (∀ acc, foldl f acc l = acc ++ omap g l) as Hgen; [|apply Hgen].
    induction l as [|m l IH]; intros acc; cbn [foldl omap list_omap]; [by rewrite app_nil_r|].
    rewrite IH. unfold f, g at 2. destruct (to_operational_pending m) as [u|]; [|done].
    destruct (belongs_to_plan plans mode u); [by rewrite <-app_assoc|done]. }
  rewrite list_elem_of_omap. apply exist_proper. intros m. apply and_iff_compat_l. unfold g.
  destruct (to_operational_pending m) as [u|]; [|by split; [|intros [? _]]].
  destruct (belongs_to_plan plans mode u) eqn:Hb; split.
  - by intros [= <-].
  - by intros [[= ->] _].
  - done.
  - intros [[= ->] Ht]. congruence.
Qed.

(** A kept promotion takes part in planning. *)
Lemma kept_leader_operational m :
  m ∈ kept → pub_to m = "LEADER" → pub_from m ≠ "" →
  MkPendingTransition (MkPartitionId (pub_partition m)) (MkInstanceId (pub_instance m))
    (MkState (pub_from m)) LEADER
  ∈ pending_for_resource (MkResourceId (pub_resource m)) operational.
Proof using Hrun.
  intros Hkept Hto Hfrom. pose proof Hkept as [_ Hk]%elem_of_kept.
  destruct (keep_pending_inv _ _ _ _ Hk) as (l & plan & _ & _ & Hi & Hr & Hp & Hin & Hres & Hstrict).
  set (t := MkOperationalPending (MkResourceId (pub_resource m)) (MkPartitionId (pub_partition m))
              (MkInstanceId (pub_instance m)) (MkState (pub_from m)) LEADER).
  unfold pending_for_resource. apply list_elem_of_fmap. exists t. split; [done|].
  apply list_elem_of_In, List.filter_In. split; [|by apply bool_decide_eq_true_2].
  apply list_elem_of_In, elem_of_operational. exists m. split_and!; [done| |].
  - unfold to_operational_pending, State_new. rewrite Hr, Hp, Hi, Hto.
    by destruct (pub_from m).
  - unfold belongs_to_plan. destruct (is_session_replacement mode); [|done]. cbn [negb orb].
    destruct Hstrict as (pref & Hpref & Hmem); [done|by rewrite Hto..|].
    apply existsb_exists. exists plan. split; [by apply list_elem_of_In|].
    unfold t. cbn [op_resource op_partition op_instance]. rewrite Hres, bool_decide_eq_true_2, Hpref, bool_decide_eq_true_2 by done. done.
Qed.
End run_facts.
End cycle_facts.

(** * The planning theorems *)

Section cycle_theorems.
Context (serde : Serde) (powf : spec_float → spec_float → spec_float).
Context (debug : string → string) (fuel : nat).
Context (s : CoordinationSnapshot) (pending : list PublishedTransition) (mode : ReconcileMode).
Context (view : ExternalView) (next : list PublishedTransition).

(** Every message names the current session of a live instance. *)
Lemma next_fenced configs actual plans inputs dispatched m :
  cycle_run serde powf debug fuel s pending mode view next configs actual plans inputs dispatched →
  m ∈ next →
  ∃ i l, instance_str i = pub_instance m ∧ snapshot_live s !! i = Some l ∧
         pub_target_session m = session_value (live_session_id l).
Proof.
  intros Hrun Hm. destruct (run_messages _ _ _ _ _ _ _ _ _ _ _ _ _ _ Hrun)
    as (added & Hnext & _ & Hadded & _). destruct (proj1 (Hnext m) Hm) as [Hm1|Hm1].
  - apply elem_of_kept in Hm1 as [_ Hk].
    destruct (keep_pending_inv _ _ _ _ _ Hk) as (l & plan & Hl & Hs & _).
    exists (MkInstanceId (pub_instance m)), l. split_and!; [done..|congruence].
  - rewrite Forall_forall in Hadded. destruct (Hadded m Hm1) as (k & t & l & _ & Hl & ->).
    by exists (tr_instance t), l.
Qed.

Lemma next_replicas configs actual plans inputs dispatched :
  cycle_run serde powf debug fuel s pending mode view next configs actual plans inputs dispatched →
  NoDup (replica_key <$> pending) → NoDup (replica_key <$> next).
Proof.
  intros Hrun Hnd. destruct (run_messages _ _ _ _ _ _ _ _ _ _ _ _ _ _ Hrun)
    as (added & Hnext & Hsorted & _ & Hnda & Hdis). set (kept := retain_pending _ _ _ _ _) in *.
  apply NoDup_fmap_2_strong; [|by apply sorted_nodup].
  intros x y Hx Hy Heq. apply Hnext in Hx, Hy.
  assert (∀ z, z ∈ kept → z ∈ pending) as Hsub by by intros z [? _]%elem_of_kept.
  destruct Hx as [Hx|Hx], Hy as [Hy|Hy].
  - apply (NoDup_fmap_inj_on replica_key pending); auto.
  - by destruct (Hdis y x Hy Hx).
  - by destruct (Hdis x y Hx Hy).
  - by apply (NoDup_fmap_inj_on replica_key added).
Qed.

(** Two promotions of one partition: both were published before, or they are
    one message. *)
Lemma next_leaders configs actual plans inputs dispatched m m' :
  cycle_run serde powf debug fuel s pending mode view next configs actual plans inputs dispatched →
  (∀ k, k ∈ pending → pub_from k ≠ "") →
  m ∈ next → m' ∈ next → pub_to m = "LEADER" → pub_to m' = "LEADER" →
  pub_resource m = pub_resource m' → pub_partition m = pub_partition m' →
  m = m' ∨ (m ∈ pending ∧ m' ∈ pending).
Proof.
  intros Hrun Hfrom Hm Hm' Hl Hl' Hr Hp.
  destruct (run_messages _ _ _ _ _ _ _ _ _ _ _ _ _ _ Hrun) as (added & Hnext & _ & Hadded & Hnda & _).
  rewrite Forall_forall in Hadded. set (kept := retain_pending _ _ _ _ _) in *.
  assert (∀ a k, a ∈ added → k ∈ kept → pub_to a = "LEADER" → pub_to k = "LEADER" →
    pub_resource a = pub_resource k → pub_partition a = pub_partition k → False) as Hcross.
  { intros a k Ha Hk Hal Hkl Har Hap. destruct (Hadded a Ha) as (n & t & l & Ht & _ & ->).
    apply list_elem_of_lookup_2 in Ht. cbn in Hal, Har, Hap.
    destruct (dispatched_origin _ _ _ _ _ _ _ _ _ _ _ _ _ _ Hrun t Ht)
      as (plan & input & cur & cands & _ & Hir & Hsel & Hres).
    assert (target_state t = LEADER) as Htl by (destruct (target_state t); cbn in Hal; by subst).
    destruct (single_leader_selected _ _ _ _ _ _ _ (tr_partition t) t
      (in_selected _ _ _ _ _ _ _ Hir) Hsel eq_refl Htl) as (_ & _ & Hno).
    assert (k ∈ pending) as Hkp by by apply elem_of_kept in Hk as [? _].
    pose proof (kept_leader_operational _ _ _ _ _ _ _ _ _ _ _ _ _ _ Hrun k Hk Hkl (Hfrom k Hkp)) as Hop.
    rewrite <-Har, <-Hap in Hop. destruct (tr_resource t) as [rs] eqn:Er, (tr_partition t) as [ps] eqn:Ep.
    cbn in Hop. rewrite Hres in Hop. by destruct (Hno _ Hop eq_refl) as [_ []]. }
  destruct (proj1 (Hnext m) Hm) as [Hk|Ha], (proj1 (Hnext m') Hm') as [Hk'|Ha'].
  - right. apply elem_of_kept in Hk as [? _], Hk' as [? _]. done.
  - by destruct (Hcross m' m).
  - by destruct (Hcross m m').
  - left. destruct (Hadded m Ha) as (n & t & l & Ht & _ & Em), (Hadded m' Ha') as (n' & t' & l' & Ht' & _ & Em').
    apply list_elem_of_lookup_2 in Ht, Ht'.
    assert (t = t') as <-.
    { subst m m'. cbn in Hl, Hl', Hr, Hp.
      apply (dispatched_leader_unique _ _ _ _ _ _ _ _ _ _ _ _ _ _ Hrun); try done.
      - destruct (tr_resource t), (tr_resource t'). cbn in Hr. by subst.
      - destruct (tr_partition t), (tr_partition t'). cbn in Hp. by subst.
      - destruct (target_state t). cbn in Hl. by subst.
      - destruct (target_state t'). cbn in Hl'. by subst. }
    apply (NoDup_fmap_inj_on replica_key added); [done..|]. by subst m m'.
Qed.
End cycle_theorems.

(** Every planning cycle publishes a fenced, ordered set of messages: the
    messages are strictly sorted, each names the current session of a live
    instance, new ones are state transitions, and when the published messages
    had at most one per replica then so have the new ones. *)
Theorem cycle_messages_fenced serde powf debug fuel s pending mode view next :
  compute_outputs_with_pending_policy serde powf debug fuel s pending mode = Ok (view, next) →
  StronglySorted key_lt next ∧
  (∀ m, m ∈ next →
     ∃ i l, instance_str i = pub_instance m ∧ snapshot_live s !! i = Some l ∧
            pub_target_session m = session_value (live_session_id l)) ∧
  (∀ m, m ∈ next → m ∉ pending → pub_message_type m = "STATE_TRANSITION") ∧
  (NoDup (replica_key <$> pending) → NoDup (replica_key <$> next)).
Proof.
  intros (configs & actual & plans & inputs & dispatched & Hrun)%cycle_inv.
  destruct (run_messages _ _ _ _ _ _ _ _ _ _ _ _ _ _ Hrun) as (added & Hnext & Hsorted & Hadded & _).
  split_and!; [done|intros m; by eapply next_fenced| |by eapply next_replicas].
  intros m Hm Hnew. destruct (proj1 (Hnext m) Hm) as [Hk|Ha].
  - by apply elem_of_kept in Hk as [? _].
  - rewrite Forall_forall in Hadded. by destruct (Hadded m Ha) as (k & t & l & _ & _ & ->).
Qed.

(** C14: a planning cycle never makes a second leader: two messages that promote
    replicas of one partition to LEADER are the same message unless both were
    already published, and a promotion is only added where no replica of the
    partition is visible as LEADER. *)
Theorem cycle_single_leader serde powf debug fuel s pending mode view next :
  compute_outputs_with_pending_policy serde powf debug fuel s pending mode = Ok (view, next) →
  (∀ k, k ∈ pending → pub_from k ≠ "") →
  (∀ m m', m ∈ next → m' ∈ next → pub_to m = "LEADER" → pub_to m' = "LEADER" →
     pub_resource m = pub_resource m' → pub_partition m = pub_partition m' →
     m = m' ∨ (m ∈ pending ∧ m' ∈ pending)) ∧
  (∀ m i, m ∈ next → m ∉ pending → pub_to m = "LEADER" →
     ExternalView_state view (MkResourceId (pub_resource m)) (MkPartitionId (pub_partition m)) i
       ≠ Some LEADER).
Proof.
  intros (configs & actual & plans & inputs & dispatched & Hrun)%cycle_inv Hfrom.
  split; [intros m m'; by eapply next_leaders|]. intros m i Hm Hnew Hl.
  destruct (run_messages _ _ _ _ _ _ _ _ _ _ _ _ _ _ Hrun) as (added & Hnext & _ & Hadded & _).
  destruct (proj1 (Hnext m) Hm) as [Hk|Ha]; [by apply elem_of_kept in Hk as [? _]|].
  rewrite Forall_forall in Hadded. destruct (Hadded m Ha) as (k & t & l & Ht & _ & ->).
  apply list_elem_of_lookup_2 in Ht. cbn in Hl |- *.
  pose proof (dispatched_leader_alone _ _ _ _ _ _ _ _ _ _ _ _ _ _ Hrun t i Ht) as Halone.
  destruct (tr_resource t), (tr_partition t). apply Halone.
  destruct (target_state t). cbn in Hl. by subst.
Qed.

(** C32: the published external view is what the participants report: a replica
    is shown exactly when its instance is configured and live, in the state of
    the last report for it. *)
Theorem external_view_exact serde powf debug fuel s pending mode view next configs r p i :
  instance_configs serde s = Ok configs →
  compute_outputs_with_pending_policy serde powf debug fuel s pending mode = Ok (view, next) →
  ExternalView_state view r p i =
  if visible configs (dom (snapshot_live s)) i then last_report r p i (reported s) None else None.
Proof.
  intros Hc (configs' & actual & plans & inputs & dispatched & Hrun)%cycle_inv.
  pose proof (run_configs _ _ _ _ _ _ _ _ _ _ _ _ _ _ Hrun) as Hc'.
  rewrite Hc in Hc'. injection Hc' as <-.
  destruct (active_current_state_ok configs (dom (snapshot_live s)) s) as (actual' & Ha & Hget).
  rewrite (run_actual _ _ _ _ _ _ _ _ _ _ _ _ _ _ Hrun) in Ha. injection Ha as <-.
  rewrite <-Hget, (run_view _ _ _ _ _ _ _ _ _ _ _ _ _ _ Hrun).
  unfold ExternalView_state. cbn. rewrite lookup_fmap. by destruct (actual !! r).
Qed.

(** The planning state of a resource never panics on a well-formed
    placement and holds exactly the reported states of live instances, and the
    initial state for live preferred instances that report nothing. *)
Theorem planning_state_exact actual ideal live model :
  IdealState_wf ideal →
  ∃ cur, normalize_current actual ideal live model = Ok cur ∧
    ∀ p i, CurrentState_state cur p i = planned_state actual ideal live model p i.
Proof.
  intros Hwf. destruct (normalize_ok actual ideal live model) as (m & Hm & _ & Hget).
  - intros p l Hl. by destruct (ideal_lists _ Hwf p l Hl).
  - by exists (current_of m).
Qed.

(** Planning a well-formed resource always succeeds when its pending work is
    for placed partitions and holds one transition per replica: rebalancing,
    generation and selection compose without an error. *)
Theorem resource_planning_total plan actual live operational :
  IdealState_wf (plan_ideal plan) →
  (∀ t, t ∈ operational → op_resource t = plan_resource plan →
     is_Some (preference_list (plan_ideal plan) (op_partition t))) →
  NoDup (op_key <$> operational) →
  ∃ input, resource_transition_input plan actual live operational leader_standby = Ok input ∧
    ri_resource input = plan_resource plan.
Proof.
  intros Hwf Hplaced Hnd.
  destruct (input_eq plan actual live operational Hwf) as (cur & best & cands & _ & Hcand & ->).
  assert (is_ok (select_transitions (plan_resource plan) (plan_ideal plan) cur live cands
    (pending_for_resource (plan_resource plan) operational) leader_standby) = true) as Hok.
  { apply select_total; [done| |by apply pending_for_resource_keys].
    apply Forall_forall. intros t (u & -> & Hu)%list_elem_of_fmap.
    rewrite list_elem_of_In, List.filter_In, <-list_elem_of_In in Hu.
    destruct Hu as [Hu Hr%bool_decide_eq_true_1]. left. by apply Hplaced. }
  destruct (select_transitions _ _ _ _ _ _ _); [|discriminate Hok]. by eexists.
Qed.

(** A partition that loses its placement while a transition that is not on
    its way to DROPPED is still pending stops the planning of its resource: the
    cycle ends with an error that is not transient. *)
Theorem removal_blocked_by_pending plan actual live operational t :
  IdealState_wf (plan_ideal plan) →
  t ∈ operational → op_resource t = plan_resource plan →
  preference_list (plan_ideal plan) (op_partition t) = None →
  next_state_toward leader_standby (op_source_state t) DROPPED ≠ Some (op_target_state t) →
  ∃ text, resource_transition_input plan actual live operational leader_standby =
    Err (Raise (MkRuntimeError text false)).
Proof.
  intros Hwf Ht Hr Hp Hnext.
  destruct (input_eq plan actual live operational Hwf) as (cur & best & cands & _ & _ & ->).
  destruct (select_transitions _ _ _ _ _ _ _) as [selected|e] eqn:Hsel; [exfalso|by eexists].
  destruct (select_ok _ _ _ _ _ _ _ _ Hsel) as (_ & Hpend & _ & _).
  rewrite Forall_forall in Hpend.
  destruct (Hpend (MkPendingTransition (op_partition t) (op_instance t) (op_source_state t)
    (op_target_state t))) as [[l Hl]|Hdrop].
  - apply (list_elem_of_fmap_2 (λ t, MkPendingTransition (op_partition t) (op_instance t)
      (op_source_state t) (op_target_state t))).
    apply list_elem_of_In, List.filter_In. split; [by apply list_elem_of_In|].
    by apply bool_decide_eq_true_2.
  - cbn [pt_partition] in Hl. rewrite Hp in Hl. discriminate Hl.
  - unfold is_drop_path in Hdrop. rewrite leader_standby_states in Hdrop.
    change (find_first is_dropped [LEADER; STANDBY; OFFLINE; DROPPED]) with (Some DROPPED) in Hdrop.
    apply andb_true_iff in Hdrop as [_ Hdrop]. apply bool_decide_eq_true_1 in Hdrop.
    exact (Hnext Hdrop).
Qed.

(** A cycle replans for a session replacement exactly when a live instance
    has another session than the one remembered for it, and not again for the
    snapshot it has just remembered. *)
Theorem mode_for_exact st s :
  (mode_for st s = SessionReplacement ↔
   ∃ i l old, snapshot_live s !! i = Some l ∧ cs_known_sessions st !! i = Some old ∧
              old ≠ live_session_id l) ∧
  mode_for (remember_sessions st s) s = Normal.
Proof.
  assert (∀ known, session_replaced known s = true ↔
    ∃ i l old, snapshot_live s !! i = Some l ∧ known !! i = Some old ∧ old ≠ live_session_id l) as Hiff.
  { intros known. unfold session_replaced. rewrite existsb_exists. split.
    - intros ([i l] & Hin & Hb). apply list_elem_of_In, elem_of_entries in Hin.
      destruct (known !! i) as [old|] eqn:Hk; [|done]. exists i, l, old. by reflect_bools.
    - intros (i & l & old & Hl & Hk & Hne). exists (i, l).
      split; [by apply list_elem_of_In, elem_of_entries|]. rewrite Hk.
      by rewrite bool_decide_eq_false_2. }
  unfold mode_for. split.
  - rewrite <-Hiff. by destruct (session_replaced _ _).
  - destruct (session_replaced _ s) eqn:Hs; [|done]. exfalso.
    apply Hiff in Hs as (i & l & old & Hl & Hk & Hne). apply Hne.
    unfold remember_sessions in Hk. cbn [cs_known_sessions] in Hk.
    rewrite (foldl_update_lookup (λ _ live, live_session_id live) (MkSessionId 0)) in Hk
      by apply NoDup_map_keys.
    rewrite list_to_map_entries, Hl in Hk. by injection Hk as <-.
Qed.

(** ** A small cluster *)

Definition ex_record : ResourceRecord :=
  MkResourceRecord "documents" "LeaderStandby"
    (MkPlacementRecord "SEMI_AUTO" 2 {["p0" := ["node-a"; "node-b"]]} [] None).

(** Decoders that know the documents of the example. *)
Definition ex_serde : Serde :=
  MkSerde (λ _, Ok [MkInstanceConfigRecord "node-a" "zone-a"; MkInstanceConfigRecord "node-b" "zone-b"])
    (λ _, Ok ex_record) (λ _, Ok []) (λ _, Ok []).

Definition ex_metadata : gmap string MetadataEntry :=
  {[ "controller/instance-configs" := MkMetadataEntry (Some "[]") (MkRevision 1);
     "controller/resources/documents" := MkMetadataEntry (Some "{}") (MkRevision 1) ]}.

Definition ex_live_map : gmap InstanceId LiveInstance :=
  {[ MkInstanceId "node-a" := MkLiveInstance (MkInstanceId "node-a") (MkSessionId 1);
     MkInstanceId "node-b" := MkLiveInstance (MkInstanceId "node-b") (MkSessionId 2) ]}.

(** Node a reports [m]. *)
Definition ex_snapshot (m : replica_map) : CoordinationSnapshot :=
  MkSnapshot (MkRevision 7) (MkRevision 7) ex_metadata
    (MkParticipantSessionSnapshot ex_live_map
       {[MkInstanceId "node-a" :=
           MkActiveCurrentState (MkSessionId 1) {[MkResourceId "documents" := current_of m]}]})
    (MkElectionSnapshot None ∅).

Definition ex_outputs (m : replica_map) (pending : list PublishedTransition)
  : planning (ExternalView * list PublishedTransition) :=
  compute_outputs_with_pending_policy ex_serde no_powf id 100 (ex_snapshot m) pending Normal.

Definition ex_standby : replica_map :=
  {[MkPartitionId "p0" := {[MkInstanceId "node-a" := STANDBY]}]}.

Definition ex_next : list PublishedTransition :=
  [ MkPublished "documents" "p0" "node-a" 1 "STANDBY" "LEADER" "STATE_TRANSITION" "m10:7:0";
    MkPublished "documents" "p0" "node-b" 2 "OFFLINE" "STANDBY" "STATE_TRANSITION" "m10:7:1" ].

Definition ex_ext_view : ExternalView :=
  MkExternalView {[MkResourceId "documents" := ex_standby]}.

Lemma ex_cycle : ex_outputs ex_standby [] = Ok (ex_ext_view, ex_next).
Proof. vm_compute. reflexivity. Qed.

Lemma cycle_messages_fenced_witness :
  ex_outputs ex_standby [] = Ok (ex_ext_view, ex_next) ∧ StronglySorted key_lt ex_next ∧
  NoDup (replica_key <$> ex_next).
Proof.
  split; [exact ex_cycle|].
  destruct (cycle_messages_fenced ex_serde no_powf id 100 (ex_snapshot ex_standby) [] Normal
    ex_ext_view ex_next ex_cycle) as (Hs & _ & _ & Hnd).
  split; [exact Hs|]. apply Hnd. constructor.
Defined.

Lemma cycle_single_leader_witness :
  ExternalView_state ex_ext_view (MkResourceId "documents") (MkPartitionId "p0") (MkInstanceId "node-a")
    ≠ Some LEADER ∧
  MkPublished "documents" "p0" "node-a" 1 "STANDBY" "LEADER" "STATE_TRANSITION" "m10:7:0" ∈ ex_next.
Proof.
  split; [|left].
  refine (proj2 (cycle_single_leader ex_serde no_powf id 100 (ex_snapshot ex_standby) [] Normal
    ex_ext_view ex_next ex_cycle _)
    (MkPublished "documents" "p0" "node-a" 1 "STANDBY" "LEADER" "STATE_TRANSITION" "m10:7:0")
    (MkInstanceId "node-a") _ _ _).
  - intros k Hk. by apply elem_of_nil in Hk.
  - left.
  - apply not_elem_of_nil.
  - reflexivity.
Defined.

Definition ex_configs : gmap InstanceId string :=
  {[ MkInstanceId "node-a" := "zone-a"; MkInstanceId "node-b" := "zone-b" ]}.

Lemma external_view_exact_witness :
  ExternalView_state ex_ext_view (MkResourceId "documents") (MkPartitionId "p0") (MkInstanceId "node-a")
    = Some STANDBY.
Proof.
  rewrite (external_view_exact ex_serde no_powf id 100 (ex_snapshot ex_standby) [] Normal
    ex_ext_view ex_next ex_configs).
  - vm_compute. reflexivity.
  - vm_compute. reflexivity.
  - exact ex_cycle.
Defined.

Definition ex_plan : ResourcePlan :=
  MkResourcePlan (MkResourceId "documents")
    (MkIdealState (MkResourceId "documents") 2
       {[MkPartitionId "p0" := [MkInstanceId "node-a"; MkInstanceId "node-b"]]}).

Lemma ex_plan_wf : IdealState_wf (plan_ideal ex_plan).
Proof.
  split; [by apply insert_non_empty|]. intros p l Hl.
  change (({[MkPartitionId "p0" := [MkInstanceId "node-a"; MkInstanceId "node-b"]]}
    : gmap PartitionId (list InstanceId)) !! p = Some l) in Hl.
  apply lookup_singleton_Some in Hl as [_ <-]. split; [|done].
  apply (bool_decide_unpack _). vm_compute. exact I.
Qed.

Lemma planning_state_exact_witness :
  ∃ cur, normalize_current (current_of ex_standby) (plan_ideal ex_plan) (dom ex_live_map)
           leader_standby = Ok cur ∧
    CurrentState_state cur (MkPartitionId "p0") (MkInstanceId "node-b") = Some OFFLINE.
Proof.
  destruct (planning_state_exact (current_of ex_standby) (plan_ideal ex_plan) (dom ex_live_map)
    leader_standby ex_plan_wf) as (cur & Hcur & Hget).
  exists cur. split; [exact Hcur|]. rewrite Hget. vm_compute. reflexivity.
Defined.

(** A promotion of p0 on node a is in flight. *)
Definition ex_operational : list OperationalPendingTransition :=
  [MkOperationalPending (MkResourceId "documents") (MkPartitionId "p0") (MkInstanceId "node-a")
     STANDBY LEADER].

Lemma resource_planning_total_witness :
  ∃ input, resource_transition_input ex_plan {[MkResourceId "documents" := current_of ex_standby]}
             (dom ex_live_map) ex_operational leader_standby = Ok input ∧
    ri_resource input = MkResourceId "documents".
Proof.
  apply (resource_planning_total ex_plan).
  - exact ex_plan_wf.
  - intros t Ht _. apply list_elem_of_singleton in Ht as ->. eexists. vm_compute. reflexivity.
  - apply NoDup_singleton.
Defined.

(** Partition p1 has been removed from the placement while its first promotion
    is still published. *)
Definition ex_removed : replica_map :=
  {[MkPartitionId "p1" := {[MkInstanceId "node-a" := OFFLINE]}]}.
Definition ex_in_flight : PublishedTransition :=
  MkPublished "documents" "p1" "node-a" 1 "OFFLINE" "STANDBY" "STATE_TRANSITION" "m10:3:0".

Lemma removal_blocked_by_pending_witness :
  ex_outputs ex_removed [ex_in_flight] =
    Err (Raise (MkRuntimeError "pending transition references unknown partition p1" false)) ∧
  ∃ text, resource_transition_input ex_plan {[MkResourceId "documents" := current_of ex_removed]}
    (dom ex_live_map)
    [MkOperationalPending (MkResourceId "documents") (MkPartitionId "p1") (MkInstanceId "node-a")
       OFFLINE STANDBY] leader_standby = Err (Raise (MkRuntimeError text false)).
Proof.
  split; [vm_compute; reflexivity|].
  apply (removal_blocked_by_pending ex_plan _ _ _ (MkOperationalPending (MkResourceId "documents")
    (MkPartitionId "p1") (MkInstanceId "node-a") OFFLINE STANDBY)).
  - exact ex_plan_wf.
  - left.
  - reflexivity.
  - vm_compute. reflexivity.
  - vm_compute. intros H. discriminate H.
Defined.
