(* ===== verification/Etcd.v ===== *)
(** * The etcd interface

    etcd is not part of the repository: this file states what the code relies
    on.  A request of the client is an event of an interaction tree, so the
    operations of the coordination layer are programs ([itree]) that send
    requests and look at the answers.  The class [EtcdStore] is the parameter
    that answers them, with the documented effect of every request as its law;
    [mem_store] is a store in memory that satisfies it.

    Programs run against a store that other clients change between any two
    requests ([exec]); a request may also fail, before or after it took effect.
    [holds] is the program logic: what is true of every execution. *)

From ITree Require Export ITree.
From S2P Require Import Prelude Identity Transitions Keys Snapshot.

(** ** Requests *)

(** [etcd_client::Compare]; the code only compares for equality. *)
Inductive Compare :=
| CompareValue (key value : string)
| CompareModRevision (key : string) (revision : Z)
| CompareCreateRevision (key : string) (revision : Z)
| CompareVersion (key : string) (version : Z)
| CompareLease (key : string) (lease : Z).

(** [etcd_client::TxnOp]; a lease of zero is no lease. *)
Inductive TxnOp :=
| TxnPut (key value : string) (lease : Z)
| TxnDelete (key : string).

(** [response.header().map(|h| h.revision())] *)
Record GetResponse := MkGetResponse { get_header : option Z; get_kvs : list KeyValue }.
Record TxnResponse := MkTxnResponse { txn_header : option Z; succeeded : bool }.

Variant request : Type → Type :=
| Get (key : string) (with_prefix : bool) (at_revision : option Z) : request GetResponse
| Put (key value : string) (lease : Z) : request (option Z)
| Transact (when : list Compare) (ops : list TxnOp) : request TxnResponse
| LeaseGrant (ttl : Z) : request Z
| LeaseRevoke (lease : Z) : request unit
| LeaseKeepAlive (lease : Z) : request (option Z)
| Watch (key : string) (with_prefix : bool) (start_revision : Z) : request unit
| Compact (revision : Z) : request unit.

(** [WatchEventKind]; etcd has the same two kinds. *)
Inductive WatchEventKind := EventPut | EventDelete.

(** [etcd_client::Event] *)
Record RawEvent := MkRawEvent { raw_kind : WatchEventKind; raw_kv : option KeyValue }.

(** [etcd_client::WatchResponse] *)
Record WatchResponse := MkWatchResponse { compact_revision : Z; response_events : list RawEvent }.

(** [stream.message().await]: a message, the end of the stream, or an error. *)
Abbreviation stream_message := (result (option WatchResponse) string).

(** [RuntimeEvent]: what the runtimes report to the application's hook. *)
Inductive RuntimeEvent :=
| AuthorityAcquired (identity : string)
| AuthorityLost (identity : string)
| LeaseRecovery (identity : string)
| LeaseReregistered (identity : string) (session_id : N)
| CoordinationRetry (operation : string)
| PublicationRejected (reason : string)
| FatalRuntimeError (identity text : string)
| GracefulShutdown (identity : string).

(** [TransitionExecution]: what a participant asks the application to do. *)
Record TransitionExecution := MkTransitionExecution {
  te_resource : ResourceId;
  te_partition : PartitionId;
  source_state : State;
  te_target : State;
  transition_id : string
}.

Inductive HandlerInvocationError :=
| Application
| Join (text : string).

(** What the loop of a participant does with its tasks: it spawns one for a message in
    the name of a session, and takes one that is over, with or without success. *)
Inductive task_event :=
| TaskSpawned (owner : SessionId) (message : TransitionMessage)
| TaskJoined (message : TransitionMessage) (fine : bool).

(** The events of a program: a call ends with the answer or with an
    [etcd_client::Error]; [Emit] is the hook and [Invoke] the handler of the
    application; [Select] is a [tokio::select!] whose branch the runtime chooses,
    [Receive] the next message of an open watch stream, and [Track] puts what happens
    to a task of the program on the trace. *)
Variant coordE : Type → Type :=
| Call {A} (r : request A) : coordE (result A string)
| Emit (event : RuntimeEvent) : coordE unit
| Invoke (execution : TransitionExecution) : coordE (result unit HandlerInvocationError)
| Select {A} (branches : list A) : coordE A
| Receive : coordE stream_message
| Track (event : task_event) : coordE unit.

(** ** Documented behaviour

    A keyspace maps keys to their current key-values. *)
Abbreviation keyspace_t := (gmap string KeyValue).

Definition kv_field {A} (ks : keyspace_t) (key : string) (field : KeyValue → A) (absent : A) : A :=
  match ks !! key with Some kv => field kv | None => absent end.

(** Revisions, versions and leases of a key that does not exist are zero; its
    value equals nothing. *)
Definition compare_holds (ks : keyspace_t) (c : Compare) : bool :=
  match c with
  | CompareValue key value => bool_decide (kv_value <$> ks !! key = Some value)
  | CompareModRevision key r => bool_decide (kv_field ks key kv_mod_revision 0%Z = r)
  | CompareCreateRevision key r => bool_decide (kv_field ks key kv_create_revision 0%Z = r)
  | CompareVersion key v => bool_decide (kv_field ks key kv_version 0%Z = v)
  | CompareLease key l => bool_decide (kv_field ks key kv_lease 0%Z = l)
  end.

Definition put_kv (revision : Z) (ks : keyspace_t) (key value : string) (lease : Z) : KeyValue :=
  match ks !! key with
  | Some old => MkKeyValue key value revision (kv_create_revision old) (kv_version old + 1)%Z lease
  | None => MkKeyValue key value revision revision 1%Z lease
  end.

Definition apply_op (revision : Z) (ks : keyspace_t) (op : TxnOp) : keyspace_t :=
  match op with
  | TxnPut key value lease => <[key := put_kv revision ks key value lease]> ks
  | TxnDelete key => delete key ks
  end.

Definition op_key (op : TxnOp) : string :=
  match op with TxnPut key _ _ => key | TxnDelete key => key end.

(** A put always writes, a delete only when the key exists. *)
Definition op_writes (ks : keyspace_t) (op : TxnOp) : bool :=
  match op with TxnPut _ _ _ => true | TxnDelete key => bool_decide (is_Some (ks !! key)) end.

(** What a get selects: the key, or all keys with that prefix in key order. *)
Definition select_kvs (ks : keyspace_t) (key : string) (with_prefix : bool) : list KeyValue :=
  if with_prefix
  then List.filter (λ kv, starts_with key (kv_key kv)) (map_values ks)
  else match ks !! key with Some kv => [kv] | None => [] end.

(** Every key-value knows its key, and its revisions are in the past. *)
Definition keyspace_wf (ks : keyspace_t) (head : Z) : Prop :=
  map_Forall (λ key kv, kv_key kv = key ∧ (0 < kv_create_revision kv ≤ kv_mod_revision kv)%Z ∧
                        (kv_mod_revision kv ≤ head)%Z ∧ (0 < kv_version kv)%Z) ks.

(** The effect of a list of operations: one new revision when one of them
    writes. *)
Definition effect_of (ks : keyspace_t) (head : Z) (ops : list TxnOp) (ks' : keyspace_t) (head' : Z)
  : Prop :=
  if existsb (op_writes ks) ops
  then head' = (head + 1)%Z ∧ ks' = foldl (apply_op (head + 1)) ks ops
  else head' = head ∧ ks' = ks.

(** Keys attached to a lease that ends disappear; the acknowledgement does not
    wait for all of them. *)
Definition lease_ends (ks : keyspace_t) (head : Z) (lease : Z) (ks' : keyspace_t) (head' : Z) : Prop :=
  (head ≤ head')%Z ∧ (head' = head → ks' = ks) ∧ ks' ⊆ ks ∧
  ∀ key kv, ks !! key = Some kv → ks' !! key = None → kv_lease kv = lease ∧ lease ≠ 0%Z.

Class EtcdStore (S : Type) := {
  keyspace : S → keyspace_t;
  head : S → Z;
  serve : ∀ {A}, request A → S → A → S → Prop
}.

Definition documented {S} `{EtcdStore S} {A} (r : request A) : S → A → S → Prop :=
  match r in request A return S → A → S → Prop with
  | Get key with_prefix at_revision => λ s answer s',
      keyspace s' = keyspace s ∧ head s' = head s ∧ get_header answer = Some (head s) ∧
      (at_revision = None → get_kvs answer = select_kvs (keyspace s) key with_prefix)
  | Put key value lease => λ s answer s',
      effect_of (keyspace s) (head s) [TxnPut key value lease] (keyspace s') (head s') ∧
      answer = Some (head s')
  | Transact when ops => λ s answer s',
      txn_header answer = Some (head s') ∧
      succeeded answer = forallb (compare_holds (keyspace s)) when ∧
      if succeeded answer then effect_of (keyspace s) (head s) ops (keyspace s') (head s')
      else keyspace s' = keyspace s ∧ head s' = head s
  | LeaseGrant _ => λ s answer s', keyspace s' = keyspace s ∧ head s' = head s ∧ answer ≠ 0%Z
  | LeaseRevoke lease => λ s _ s', lease_ends (keyspace s) (head s) lease (keyspace s') (head s')
  | LeaseKeepAlive _ | Watch _ _ _ | Compact _ => λ s _ s', keyspace s' = keyspace s ∧ head s' = head s
  end.

(** A lease that has keys is alive, so more can be attached to it. *)
Definition lease_alive (ks : keyspace_t) (lease : Z) : Prop :=
  lease = 0%Z ∨ ∃ key kv, ks !! key = Some kv ∧ kv_lease kv = lease.

(** Requests that are answered: a put under a lease needs that lease, a revoked
    lease must exist. *)
Definition answerable {A} (r : request A) (ks : keyspace_t) : Prop :=
  match r with
  | Put _ _ lease => lease_alive ks lease
  | Transact _ ops =>
      Forall (λ op, match op with TxnPut _ _ lease => lease_alive ks lease | TxnDelete _ => True end) ops
  | LeaseRevoke lease => lease_alive ks lease ∧ lease ≠ 0%Z
  | Get _ _ _ | LeaseGrant _ | LeaseKeepAlive _ | Watch _ _ _ => True
  | Compact _ => False
  end.

Class EtcdLaws (S : Type) `{EtcdStore S} := {
  serve_documented : ∀ A (r : request A) s a s', serve r s a s' → documented r s a s';
  serve_total : ∀ A (r : request A) s, answerable r (keyspace s) → ∃ a s', serve r s a s';
  store_wf : ∀ s, (0 < head s)%Z ∧ keyspace_wf (keyspace s) (head s)
}.

(** How a store may change under any client. *)
Definition evolves {S} `{EtcdStore S} (s s' : S) : Prop :=
  (head s ≤ head s')%Z ∧
  (∀ key kv, keyspace s' !! key = Some kv → (kv_mod_revision kv ≤ head s)%Z →
     keyspace s !! key = Some kv) ∧
  (∀ key kv, keyspace s' !! key = Some kv → (kv_create_revision kv ≤ head s)%Z →
     ∃ old, keyspace s !! key = Some old ∧ kv_create_revision old = kv_create_revision kv).

(** ** Executions

    [act] gives the meaning of the events of a program, [note] what the trace
    keeps of them, [env] the steps of the other clients. *)

Section exec.
Context {E : Type → Type} {S O : Type}.
Context (act : ∀ X, E X → S → X → S → Prop) (note : ∀ X, E X → S → X → S → list O).
Context (env : S → S → Prop).

Inductive exec {R} : itree' E R → S → list O → S → R → Prop :=
| exec_ret r s : exec (RetF r) s [] s r
| exec_tau t s tr s' r : exec (observe t) s tr s' r → exec (TauF t) s tr s' r
| exec_vis X (e : E X) k s x s1 tr s' r :
    act X e s x s1 → exec (observe (k x)) s1 tr s' r →
    exec (VisF e k) s (note X e s x s1 ++ tr) s' r
| exec_env o s s1 tr s' r : env s s1 → exec o s1 tr s' r → exec o s tr s' r.

(** Every execution of [t] from [s] satisfies [Q]. *)
Definition holds {R} (t : itree E R) (s : S) (Q : list O → S → R → Prop) : Prop :=
  ∀ tr s' r, exec (observe t) s tr s' r → Q tr s' r.

Lemma exec_env_star {R} (o : itree' E R) s s1 tr s' r :
  rtc env s s1 → exec o s1 tr s' r → exec o s tr s' r.
Proof. induction 1 as [|s s2 s1 ?? IH]; [done|]. intros Hx. by eapply exec_env; [done|apply IH]. Qed.

(** Inversion of an execution, environment steps first. *)
Lemma exec_inv {R} (o : itree' E R) s tr s' r :
  exec o s tr s' r →
  ∃ s0, rtc env s s0 ∧
    match o with
    | RetF x => tr = [] ∧ s' = s0 ∧ r = x
    | TauF t => exec (observe t) s0 tr s' r
    | VisF e k => ∃ x s1 tr1, act _ e s0 x s1 ∧ exec (observe (k x)) s1 tr1 s' r ∧
                              tr = note _ e s0 x s1 ++ tr1
    end.
Proof.
  induction 1 as [x s|t s tr s' r Ht _|X e k s x s1 tr s' r Ha Hk _|o s s1 tr s' r He Hx IH].
  - by exists s.
  - by exists s.
  - exists s. split; [done|]. by exists x, s1, tr.
  - destruct IH as (s0 & Hs0 & Hrest). exists s0. split; [by eapply rtc_l|done].
Qed.

Lemma holds_mono {R} (t : itree E R) s (Q Q' : list O → S → R → Prop) :
  holds t s Q → (∀ tr s' r, Q tr s' r → Q' tr s' r) → holds t s Q'.
Proof. intros Ht HQ tr s' r Hx. by apply HQ, Ht. Qed.

Lemma holds_env {R} (t : itree E R) s s1 Q : rtc env s s1 → holds t s Q → holds t s1 Q.
Proof. intros Hs Ht tr s' r Hx. apply Ht. by eapply exec_env_star. Qed.

Lemma holds_ret {R} (r : R) s (Q : list O → S → R → Prop) :
  (∀ s', rtc env s s' → Q [] s' r) → holds (Ret r) s Q.
Proof. intros HQ tr s' r' (s0 & Hs0 & -> & -> & ->)%exec_inv. by apply HQ. Qed.

Lemma observe_bind {R T} (t : itree E T) (k : T → itree E R) :
  observe (ITree.bind t k) =
  match observe t with
  | RetF r => observe (k r)
  | TauF t => TauF (ITree.bind t k)
  | VisF e h => VisF e (λ x, ITree.bind (h x) k)
  end.
Proof.
  change (observe (ITree.bind t k)) with
    (observe (match observe t with
              | RetF r => k r
              | TauF u => Tau (ITree.bind u k)
              | VisF e h => Vis e (λ x, ITree.bind (h x) k)
              end)).
  by destruct (observe t).
Qed.

(** A statement about the event a tree starts with. *)
Definition vis_case {R} (o : itree' E R) (P : ∀ X, E X → (X → itree E R) → Prop) : Prop :=
  match o with VisF e h => P _ e h | _ => True end.

(** An execution of a sequence splits. *)
Lemma exec_bind {R T} (t : itree E T) (k : T → itree E R) s tr s' r :
  exec (observe (ITree.bind t k)) s tr s' r →
  ∃ tr1 s1 x tr2, exec (observe t) s tr1 s1 x ∧ exec (observe (k x)) s1 tr2 s' r ∧ tr = tr1 ++ tr2.
Proof.
  remember (observe (ITree.bind t k)) as o eqn:Ho. intros Hx. revert t Ho.
  induction Hx as [x s|u s tr s' r Hu IH|X e h s x s2 tr s' r Ha Hh IH|o s s1 tr s' r He Hx IH];
    intros t Ho; rewrite observe_bind in Ho.
  - destruct (observe t) as [y| |] eqn:Ht; [|discriminate Ho..].
    exists [], s, y, []. split; [constructor|]. rewrite <-Ho. split; [constructor|done].
  - destruct (observe t) as [y|v|] eqn:Ht; [| |discriminate Ho].
    + exists [], s, y, tr. split; [constructor|]. rewrite <-Ho. split; [by constructor|done].
    + injection Ho as ->. destruct (IH v eq_refl) as (tr1 & s1 & y & tr2 & H1 & H2 & ->).
      exists tr1, s1, y, tr2. split; [by constructor|done].
  - destruct (observe t) as [y|v|Y e' h'] eqn:Ht; [|discriminate Ho|].
    + exists [], s, y, (note X e s x s2 ++ tr). split; [constructor|]. rewrite <-Ho.
      split; [by econstructor|done].
    + remember (note X e s x s2 ++ tr) as N eqn:HN.
      assert (vis_case (VisF e h) (λ X e h, ∃ x s1 tr1, act X e s x s1 ∧
        note X e s x s1 ++ tr1 = N ∧
        ∀ t, observe (h x) = observe (ITree.bind t k) → ∃ tr2 s3 y tr3,
          exec (observe t) s1 tr2 s3 y ∧ exec (observe (k y)) s3 tr3 s' r ∧ tr1 = tr2 ++ tr3)) as Hcase
        by (exists x, s2, tr; auto).
      rewrite Ho in Hcase. destruct Hcase as (x' & s1 & tr1 & Ha' & <- & IH').
      destruct (IH' (h' x') eq_refl) as (tr2 & s3 & y & tr3 & H1 & H2 & ->).
      exists (note Y e' s x' s1 ++ tr2), s3, y, tr3. split; [by econstructor|]. by rewrite app_assoc.
  - rewrite <-observe_bind in Ho. destruct (IH t Ho) as (tr1 & s2 & y & tr2 & H1 & H2 & ->).
    exists tr1, s2, y, tr2. split; [by eapply exec_env|done].
Qed.

Lemma holds_bind {R T} (t : itree E T) (k : T → itree E R) s (Q : list O → S → R → Prop) :
  holds t s (λ tr s1 x, holds (k x) s1 (λ tr' s2 r, Q (tr ++ tr') s2 r)) →
  holds (ITree.bind t k) s Q.
Proof.
  intros Ht tr s' r (tr1 & s1 & x & tr2 & H1 & H2 & ->)%exec_bind.
  exact (Ht tr1 s1 x H1 tr2 s' r H2).
Qed.

(** And executions compose. *)
Lemma exec_bind_intro {R T} (t : itree E T) (k : T → itree E R) s tr1 s1 x tr2 s' r :
  exec (observe t) s tr1 s1 x → exec (observe (k x)) s1 tr2 s' r →
  exec (observe (ITree.bind t k)) s (tr1 ++ tr2) s' r.
Proof.
  remember (observe t) as o eqn:Ho. intros Ht Hk. revert t Ho.
  induction Ht as [x s|u s tr s1 x Hu IH|X e h s y s2 tr s1 x Ha Hh IH|o s s2 tr s1 x He Hx IH];
    intros t Ho.
  - rewrite observe_bind, <-Ho. done.
  - rewrite observe_bind, <-Ho. constructor. by apply IH.
  - rewrite observe_bind, <-Ho, <-app_assoc. econstructor; [done|]. by apply IH.
  - eapply exec_env; [done|]. by apply IH.
Qed.

Lemma holds_assoc {R T U} (t : itree E U) (k1 : U → itree E T) (k2 : T → itree E R) s
    (Q : list O → S → R → Prop) :
  holds (ITree.bind t (λ x, ITree.bind (k1 x) k2)) s Q → holds (ITree.bind (ITree.bind t k1) k2) s Q.
Proof.
  intros Ht tr s' r (tr1 & s1 & x & tr2 & H1 & H2 & ->)%exec_bind.
  apply exec_bind in H1 as (tr3 & s2 & y & tr4 & H3 & H4 & ->). rewrite <-app_assoc.
  apply Ht. eapply exec_bind_intro; [exact H3|]. by eapply exec_bind_intro.
Qed.

Lemma holds_observe {R} (t u : itree E R) s (Q : list O → S → R → Prop) :
  observe t = observe u → holds t s Q → holds u s Q.
Proof. intros Heq Ht tr s' r. rewrite <-Heq. apply Ht. Qed.

(** Binding after equivalent continuations. *)
Lemma holds_bind_ext {R T} (t : itree E T) (k k' : T → itree E R) s (Q : list O → S → R → Prop) :
  (∀ x, observe (k x) = observe (k' x)) → holds (ITree.bind t k) s Q → holds (ITree.bind t k') s Q.
Proof.
  intros Hk Ht tr s' r (tr1 & s1 & x & tr2 & H1 & H2 & ->)%exec_bind.
  apply Ht. eapply exec_bind_intro; [exact H1|]. by rewrite Hk.
Qed.

Lemma holds_trigger {X R} (e : E X) (k : X → itree E R) s (Q : list O → S → R → Prop) :
  (∀ s1 x s2, rtc env s s1 → act X e s1 x s2 →
     holds (k x) s2 (λ tr s' r, Q (note X e s1 x s2 ++ tr) s' r)) →
  holds (ITree.bind (ITree.trigger e) k) s Q.
Proof.
  intros Hk tr s' r Hx. rewrite observe_bind in Hx. cbn in Hx.
  apply exec_inv in Hx as (s1 & Hs1 & x & s2 & tr1 & Ha & Hx & ->).
  rewrite observe_bind in Hx. cbn in Hx. exact (Hk s1 x s2 Hs1 Ha tr1 s' r Hx).
Qed.

(** The invariant of a loop, on the trace so far and the store. *)
Lemma holds_iter {R I} (f : I → itree E (I + R)) (P : I → list O → S → Prop)
    (Q : list O → S → R → Prop) i s :
  P i [] s →
  (∀ i acc s, P i acc s → holds (f i) s (λ tr s' lr,
     match lr with inl j => P j (acc ++ tr) s' | inr r => Q (acc ++ tr) s' r end)) →
  holds (ITree.iter f i) s Q.
Proof.
  intros Hi Hf tr s' r Hx. change (Q ([] ++ tr) s' r).
  assert (∀ tr s' lr, exec (observe (f i)) s tr s' lr →
    match lr with inl j => P j ([] ++ tr) s' | inr r => Q ([] ++ tr) s' r end) as Hpost
    by exact (Hf i [] s Hi).
  set (K := λ lr : I + R, match lr with inl l => Tau (ITree.iter f l) | inr r => Ret r end).
  change (observe (ITree.iter f i)) with (observe (ITree.bind (f i) K)) in Hx. clear Hi.
  revert Hx Hpost. generalize (@nil O) as acc. generalize (f i) as t. intros t acc Hx.
  remember (observe (ITree.bind t K)) as o eqn:Ho. revert t acc Ho.
  induction Hx as [x s|u s tr s' r Hu IH|X e h s x s2 tr s' r Ha Hh IH|o s s1 tr s' r He Hx IH];
    intros t acc Ho Hpost.
  - rewrite observe_bind in Ho. destruct (observe t) as [[j|y]| |]; [discriminate Ho| |discriminate Ho..].
    injection Ho as ->. exact (Hpost [] s (inr y) (exec_ret _ _)).
  - rewrite observe_bind in Ho. destruct (observe t) as [[j|y]|v|]; [|discriminate Ho| |discriminate Ho].
    + injection Ho as ->. apply (IH (f j) acc eq_refl). intros tr1 s1 lr H1.
      apply (Hf j acc s); [|done].
      pose proof (Hpost [] s (inl j) (exec_ret _ _)) as Hj. by rewrite app_nil_r in Hj.
    + injection Ho as ->. apply (IH v acc eq_refl). intros tr1 s1 lr H1. apply Hpost. by constructor.
  - rewrite observe_bind in Ho. destruct (observe t) as [[j|y]|v|Y e' h']; [discriminate Ho..|].
    remember (note X e s x s2 ++ tr) as N eqn:HN.
    assert (vis_case (VisF e h) (λ X e h, ∃ x s1 tr1, act X e s x s1 ∧
      note X e s x s1 ++ tr1 = N ∧
      ∀ t acc, observe (h x) = observe (ITree.bind t K) →
        (∀ tr s' lr, exec (observe t) s1 tr s' lr →
           match lr with inl j => P j (acc ++ tr) s' | inr r => Q (acc ++ tr) s' r end) →
        Q (acc ++ tr1) s' r)) as Hcase by (exists x, s2, tr; auto).
    rewrite Ho in Hcase. destruct Hcase as (x' & s1 & tr1 & Ha' & <- & IH').
    rewrite app_assoc. apply (IH' (h' x') (acc ++ note Y e' s x' s1) eq_refl).
    intros tr2 s3 lr H1. rewrite <-app_assoc. apply Hpost. by econstructor.
  - apply (IH t acc Ho). intros tr1 s2 lr H1. apply Hpost. by eapply exec_env.
Qed.
End exec.

(** ** Programs of the coordination layer *)

Abbreviation prog A := (itree coordE (result A CoordinationError)).

Declare Scope prog_scope.
Delimit Scope prog_scope with prog.
Open Scope prog_scope.

(** [let x = c.await?; k] *)
Notation "'let!' x := c 'in' k" :=
  (ITree.bind c (λ r, match r with Ok x => k | Err e => Ret (Err e) end))
  (at level 10, x name, c at level 200, k at level 200,
   format "'[hv' let!  x  :=  c  in  '/' k ']'") : prog_scope.

(** [let x = c.await; k] *)
Notation "'let*' x := c 'in' k" := (ITree.bind c (λ x, k))
  (at level 10, x name, c at level 200, k at level 200,
   format "'[hv' let*  x  :=  c  in  '/' k ']'") : prog_scope.

(** [let x = r?; k] for a value *)
Notation "'try!' x := r 'in' k" := (match r with Ok x => k | Err e => Ret (Err e) end)
  (at level 10, x name, r at level 200, k at level 200,
   format "'[hv' try!  x  :=  r  in  '/' k ']'") : prog_scope.

(** [impl From<etcd_client::Error> for CoordinationError] *)
Definition call {A} (r : request A) : prog A :=
  ITree.bind (ITree.trigger (Call r)) (λ x, Ret (map_err Etcd x)).

Definition invoke (execution : TransitionExecution)
  : itree coordE (result unit HandlerInvocationError) := ITree.trigger (Invoke execution).
Definition emit (event : RuntimeEvent) : itree coordE unit := ITree.trigger (Emit event).
Definition select {A} (branches : list A) : itree coordE A := ITree.trigger (Select branches).
Definition receive : itree coordE stream_message := ITree.trigger Receive.
Definition track (event : task_event) : itree coordE unit := ITree.trigger (Track event).

(** [revision_from_header] *)
Definition revision_from_header (header : option Z) : result Revision CoordinationError :=
  match header with None => Err MissingRevision | Some revision => Revision_new revision end.

Inductive observation (S : Type) :=
| Committed (s s' : S)
| Emitted (event : RuntimeEvent)
| Invoked (s : S) (execution : TransitionExecution) (outcome : result unit HandlerInvocationError)
| Tracked (event : task_event).
Arguments Committed {S} s s'.
Arguments Emitted {S} event.
Arguments Invoked {S} s execution outcome.
Arguments Tracked {S} event.

Section coord_exec.
Context {S : Type} `{EtcdStore S}.

(** A call is served, or fails with or without its effect. *)
Definition coord_act X (e : coordE X) : S → X → S → Prop :=
  match e in coordE X return S → X → S → Prop with
  | Call r => λ s answer s',
      match answer with
      | Ok a => serve r s a s'
      | Err _ => s' = s ∨ ∃ a, serve r s a s'
      end
  | Emit _ => λ s _ s', s' = s
  | Invoke _ => λ s _ s', s' = s
  | Select branches => λ s x s', s' = s ∧ x ∈ branches
  | Receive => λ s _ s', s' = s
  | Track _ => λ s _ s', s' = s
  end.

(** The changes of the store are on the trace: a change raises the revision. *)
Definition commit (s s' : S) : list (observation S) :=
  if bool_decide (head s = head s') then [] else [Committed s s'].

Definition coord_note X (e : coordE X) : S → X → S → list (observation S) :=
  match e in coordE X return S → X → S → list (observation S) with
  | Call _ => λ s _ s', commit s s'
  | Emit event => λ _ _ _, [Emitted event]
  | Invoke execution => λ s outcome _, [Invoked s execution outcome]
  | Select _ => λ _ _ _, []
  | Receive => λ _ _ _, []
  | Track event => λ _ _ _, [Tracked event]
  end.
End coord_exec.

(** [t] started in [s] under interference [env] satisfies [Q] when it ends. *)
Abbreviation ensures env t s Q := (holds coord_act coord_note env t s Q).
(** [t] can run from [s] to [s'] with trace [tr] and result [r]. *)
Abbreviation runs env t s tr s' r := (exec coord_act coord_note env (observe t) s tr s' r).

(** * Facts about stores *)

Section store_facts.
Context {S : Type} `{EtcdLaws S}.

Definition same_view (s s' : S) : Prop := keyspace s' = keyspace s ∧ head s' = head s.

Lemma kv_bounds (s : S) key kv :
  keyspace s !! key = Some kv →
  kv_key kv = key ∧ (0 < kv_create_revision kv ≤ kv_mod_revision kv)%Z ∧
  (kv_mod_revision kv ≤ head s)%Z ∧ (0 < kv_version kv)%Z.
Proof. destruct (store_wf s) as [_ Hwf]. apply Hwf. Qed.

Lemma head_pos (s : S) : (0 < head s)%Z.
Proof. apply store_wf. Qed.

#[export] Instance evolves_preorder : PreOrder (evolves (S := S)).
Proof.
  split.
  - intros s. split_and!; [lia|done|]. intros key kv Hkv _. by exists kv.
  - intros s1 s2 s3 (Hh & Hm & Hc) (Hh' & Hm' & Hc'). split_and!; [lia| |].
    + intros key kv Hkv Hle. apply Hm; [|done]. apply Hm'; [done|lia].
    + intros key kv Hkv Hle. destruct (Hc' key kv Hkv) as (old & Hold & Heq); [lia|].
      destruct (Hc key old Hold) as (old' & Hold' & Heq'); [lia|]. exists old'. by rewrite Heq'.
Qed.

Lemma same_view_evolves (s s' : S) : same_view s s' → evolves s s'.
Proof. intros [Hk Hh]. unfold evolves. rewrite Hk, Hh. apply evolves_preorder. Qed.

(** What a list of operations leaves behind. *)
Lemma apply_ops_lookup (r : Z) ops (ks : keyspace_t) key kv :
  foldl (apply_op r) ks ops !! key = Some kv →
  ks !! key = Some kv ∨
  (kv_mod_revision kv = r ∧
   (kv_create_revision kv = r ∨ ∃ old, ks !! key = Some old ∧ kv_create_revision old = kv_create_revision kv)).
Proof.
  revert ks. induction ops as [|op ops IH]; intros ks Hkv; [by left|].
  apply IH in Hkv as [Hkv|(Hm & Hcr)].
  - destruct op as [k v l|k]; cbn in Hkv.
    + apply lookup_insert_Some in Hkv as [[<- <-]|[_ Hkv]]; [|by left]. right.
      unfold put_kv. destruct (ks !! k) as [old|] eqn:Hk; cbn; [|by auto]. eauto.
    + apply lookup_delete_Some in Hkv as [_ Hkv]. by left.
  - right. split; [done|]. destruct Hcr as [Hcr|(old & Hold & Hcr)]; [by left|].
    destruct op as [k v l|k]; cbn in Hold.
    + apply lookup_insert_Some in Hold as [[<- <-]|[_ Hold]]; [|by eauto].
      unfold put_kv in Hcr. destruct (ks !! k) as [o|] eqn:Hk; cbn in Hcr; eauto.
    + apply lookup_delete_Some in Hold as [_ Hold]. eauto.
Qed.

Lemma effect_evolves (s s' : S) ops :
  effect_of (keyspace s) (head s) ops (keyspace s') (head s') → evolves s s'.
Proof.
  unfold effect_of. destruct (existsb _ _); [|by intros [Hh Hk]; apply same_view_evolves].
  intros [Hh Hk]. split_and!; [lia| |]; rewrite Hk; intros key kv Hkv Hle;
    apply apply_ops_lookup in Hkv as [Hkv|(Hm & Hcr)]; [done|lia|by eauto|].
  destruct Hcr as [Hcr|Hold]; [lia|done].
Qed.

Lemma lease_ends_evolves (s s' : S) lease :
  lease_ends (keyspace s) (head s) lease (keyspace s') (head s') → evolves s s'.
Proof.
  intros (Hh & _ & Hsub & _). split_and!; [done| |]; intros key kv Hkv _.
  - by eapply lookup_weaken.
  - exists kv. split; [|done]. by eapply lookup_weaken.
Qed.

Lemma serve_evolves {A} (r : request A) s a s' : serve r s a s' → evolves s s'.
Proof.
  intros Hs%serve_documented. destruct r as [key pfx at_revision|key value lease| | | | | |];
    cbn [documented] in Hs.
  - apply same_view_evolves. by destruct Hs as (? & ? & _).
  - destruct Hs as [Hs _]. by eapply effect_evolves.
  - destruct Hs as (_ & _ & Hs). destruct (succeeded a); [by eapply effect_evolves|].
    by apply same_view_evolves.
  - apply same_view_evolves. by destruct Hs as (? & ? & _).
  - by eapply lease_ends_evolves.
  - by apply same_view_evolves.
  - by apply same_view_evolves.
  - by apply same_view_evolves.
Qed.

(** Every change raises the revision. *)
Lemma serve_same_head {A} (r : request A) s a s' : serve r s a s' → head s' = head s → same_view s s'.
Proof.
  intros Hs%serve_documented Hh. split; [|done].
  assert (∀ ops, effect_of (keyspace s) (head s) ops (keyspace s') (head s') → keyspace s' = keyspace s)
    as Heff by (intros ops; unfold effect_of; destruct (existsb _ _); intros [? ?]; [lia|done]).
  destruct r; cbn [documented] in Hs.
  - by destruct Hs as (? & ? & _).
  - destruct Hs as [Hs _]. by eapply Heff.
  - destruct Hs as (_ & _ & Hs). destruct (succeeded a); [by eapply Heff|by destruct Hs].
  - by destruct Hs as (? & ? & _).
  - destruct Hs as (_ & Hsame & _). by apply Hsame.
  - by destruct Hs as [? _].
  - by destruct Hs as [? _].
  - by destruct Hs as [? _].
Qed.

(** A key that still has the modification revision read before is unchanged. *)
Lemma unchanged_since (s s' : S) key kv :
  evolves s s' → keyspace s !! key = Some kv →
  kv_field (keyspace s') key kv_mod_revision 0%Z = kv_mod_revision kv →
  keyspace s' !! key = Some kv.
Proof.
  intros (_ & Hm & _) Hkv Hr. unfold kv_field in Hr.
  destruct (kv_bounds s key kv Hkv) as (_ & Hpos & Hle & _).
  destruct (keyspace s' !! key) as [kv'|] eqn:Hkv'; [|lia].
  assert (keyspace s !! key = Some kv') as Hold by (apply Hm; [done|lia]). congruence.
Qed.

(** Version zero is absence. *)
Lemma version_zero (s : S) key :
  kv_field (keyspace s) key kv_version 0%Z = 0%Z → keyspace s !! key = None.
Proof.
  unfold kv_field. destruct (keyspace s !! key) as [kv|] eqn:Hkv; [|done].
  apply kv_bounds in Hkv as (_ & _ & _ & ?). lia.
Qed.

(** A prefix read finds the keys with that prefix. *)
Lemma elem_of_select (s : S) p kv :
  kv ∈ select_kvs (keyspace s) p true ↔
  keyspace s !! kv_key kv = Some kv ∧ starts_with p (kv_key kv) = true.
Proof.
  unfold select_kvs. rewrite list_elem_of_In, List.filter_In, <-list_elem_of_In, elem_of_map_values.
  apply and_iff_compat_r. split; [|eauto]. intros [k Hk]. by destruct (kv_bounds s k kv Hk) as (-> & _).
Qed.

Lemma commit_same (s s' : S) : head s' = head s → commit s s' = [].
Proof. intros Hh. unfold commit. by rewrite bool_decide_eq_true_2. Qed.

Lemma commit_changed (s s' : S) : head s' = (head s + 1)%Z → commit s s' = [Committed s s'].
Proof. intros Hh. unfold commit. rewrite bool_decide_eq_false_2 by lia. done. Qed.
End store_facts.

(** * Program rules

    [rely] is what a program assumes of the steps of the other clients and of
    its own reads: a preorder that contains both and is an evolution of the
    store. *)
Class Rely {S} `{EtcdStore S} (env rely : S → S → Prop) := {
  rely_preorder :: PreOrder rely;
  env_rely : ∀ s s', env s s' → rely s s';
  view_rely : ∀ s s', same_view s s' → rely s s';
  rely_evolves : ∀ s s', rely s s' → evolves s s'
}.

(** The weakest assumption: the others use etcd too. *)
Lemma evolves_rely {S} `{EtcdLaws S} (env : S → S → Prop) :
  (∀ s s', env s s' → evolves s s') → Rely env evolves.
Proof. intros Henv. split; [apply _|done|apply same_view_evolves|done]. Qed.

Section rules.
Context {S : Type} `{EtcdLaws S} (env rely : S → S → Prop) `{!Rely env rely}.

Lemma rtc_rely s s' : rtc env s s' → rely s s'.
Proof. induction 1 as [|s s1 s' He _ IH]; [done|]. etrans; [by apply env_rely|done]. Qed.

Lemma ensures_ret {R} (r : R) s (Q : list (observation S) → S → R → Prop) : (∀ s', rely s s' → Q [] s' r) → ensures env (Ret r) s Q.
Proof. intros HQ. apply holds_ret. intros s' Hs. by apply HQ, rtc_rely. Qed.

(** A value bound first is substituted. *)
Lemma ensures_bind_ret {R T} (x : T) (k : T → itree coordE R) s
    (Q : list (observation S) → S → R → Prop) :
  ensures env (k x) s Q → ensures env (ITree.bind (Ret x) k) s Q.
Proof. intros Hk tr s' r Hx. apply Hk. by rewrite observe_bind in Hx. Qed.

(** Nested sequences are flattened. *)
Lemma ensures_assoc {A B C} (c : prog A) (k1 : A → prog B) (k2 : B → prog C) s
    (Q : list (observation S) → S → result C CoordinationError → Prop) :
  ensures env (let! y := c in let! x := k1 y in k2 x) s Q →
  ensures env (let! x := (let! y := c in k1 y) in k2 x) s Q.
Proof.
  intros Hc. apply holds_assoc. eapply holds_bind_ext; [|exact Hc]. intros [y|e]; [done|].
  by rewrite observe_bind.
Qed.

(** Any call, whatever becomes of it. *)
Lemma ensures_call {A R} (c : request A) (k : result A CoordinationError → itree coordE R) s
    (Q : list (observation S) → S → R → Prop) :
  (∀ s1 a s2, rely s s1 → serve c s1 a s2 →
     ensures env (k (Ok a)) s2 (λ tr s' r, Q (commit s1 s2 ++ tr) s' r)) →
  (∀ text s1 s2, rely s s1 → s2 = s1 ∨ (∃ a, serve c s1 a s2) →
     ensures env (k (Err (Etcd text))) s2 (λ tr s' r, Q (commit s1 s2 ++ tr) s' r)) →
  ensures env (ITree.bind (call c) k) s Q.
Proof.
  intros Hok Herr. apply holds_bind. unfold call. apply holds_trigger.
  intros s1 [a|text] s2 Hs1%rtc_rely Ha; cbn in Ha |- *; apply holds_ret; intros s3 Hs3.
  - eapply holds_env; [done|]. rewrite app_nil_r. by apply Hok.
  - eapply holds_env; [done|]. rewrite app_nil_r. by apply Herr.
Qed.

(** An execution in which a call is served. *)
Lemma runs_call {A R} (c : request A) (k : result A CoordinationError → itree coordE R) s a s1 tr s' r :
  serve c s a s1 → runs env (k (Ok a)) s1 tr s' r →
  runs env (ITree.bind (call c) k) s (commit s s1 ++ tr) s' r.
Proof.
  intros Hs Hk. refine (exec_vis coord_act coord_note env _ (Call c) _ s (Ok a) s1 tr s' r Hs _).
  change (runs env (ITree.bind (ITree.bind (Ret (Ok a)) (λ x, Ret (map_err Etcd x))) k) s1 tr s' r).
  by rewrite !observe_bind.
Qed.

(** And one in which the answer is lost after the call took effect. *)
Lemma runs_call_lost {A R} (c : request A) (k : result A CoordinationError → itree coordE R) s a text s1 tr s' r :
  serve c s a s1 → runs env (k (Err (Etcd text))) s1 tr s' r →
  runs env (ITree.bind (call c) k) s (commit s s1 ++ tr) s' r.
Proof.
  intros Hs Hk. refine (exec_vis coord_act coord_note env _ (Call c) _ s (Err text) s1 tr s' r _ _);
    [right; by exists a|].
  change (runs env (ITree.bind (ITree.bind (Ret (Err text)) (λ x, Ret (map_err Etcd x))) k) s1 tr s' r).
  by rewrite !observe_bind.
Qed.

Lemma runs_select {A R} (branches : list A) (k : A → itree coordE R) b s tr s' r :
  b ∈ branches → runs env (k b) s tr s' r → runs env (let* b := select branches in k b) s tr s' r.
Proof.
  intros Hb Hk. refine (exec_vis coord_act coord_note env _ (Select branches) _ s b s tr s' r _ _); [done|].
  change (runs env (ITree.bind (Ret b) k) s tr s' r). by rewrite observe_bind.
Qed.

(** A call whose failure leaves the function. *)
Lemma ensures_call_try {A B} (c : request A) (k : A → prog B) s
    (Q : list (observation S) → S → result B CoordinationError → Prop) :
  (∀ s1 a s2, rely s s1 → serve c s1 a s2 →
     ensures env (k a) s2 (λ tr s' r, Q (commit s1 s2 ++ tr) s' r)) →
  (∀ text s1 s2 s', rely s s1 → s2 = s1 ∨ (∃ a, serve c s1 a s2) → rely s2 s' →
     Q (commit s1 s2) s' (Err (Etcd text))) →
  ensures env (let! x := call c in k x) s Q.
Proof.
  intros Hok Herr. apply ensures_call; [done|]. intros text s1 s2 Hs1 Hs2. apply ensures_ret.
  intros s' Hs'. rewrite app_nil_r. by eapply Herr.
Qed.

(** A read leaves no trace and tells the store of that moment. *)
Lemma ensures_read {R} key with_prefix (k : result GetResponse CoordinationError → itree coordE R) s
    (Q : list (observation S) → S → R → Prop) :
  (∀ s1, rely s s1 →
     ensures env (k (Ok (MkGetResponse (Some (head s1)) (select_kvs (keyspace s1) key with_prefix)))) s1 Q) →
  (∀ text s1, rely s s1 → ensures env (k (Err (Etcd text))) s1 Q) →
  ensures env (let* x := call (Get key with_prefix None) in k x) s Q.
Proof.
  intros Hok Herr. apply ensures_call.
  - intros s1 [hd kvs] s2 Hs1 Hd%serve_documented. cbn in Hd.
    destruct Hd as (Hk & Hh & -> & Hkvs). rewrite (Hkvs eq_refl), commit_same, <-Hk, <-Hh by done.
    apply Hok. etrans; [done|]. by apply view_rely.
  - intros text s1 s2 Hs1 Hs2.
    assert (same_view s1 s2) as [Hk Hh].
    { destruct Hs2 as [->|[a Hd%serve_documented]]; [done|]. by destruct Hd as (? & ? & _). }
    rewrite commit_same by done. apply Herr. etrans; [done|]. by apply view_rely.
Qed.

Lemma ensures_get {B} key with_prefix (k : GetResponse → prog B) s
    (Q : list (observation S) → S → result B CoordinationError → Prop) :
  (∀ s1, rely s s1 →
     ensures env (k (MkGetResponse (Some (head s1)) (select_kvs (keyspace s1) key with_prefix))) s1 Q) →
  (∀ text s', rely s s' → Q [] s' (Err (Etcd text))) →
  ensures env (let! x := call (Get key with_prefix None) in k x) s Q.
Proof.
  intros Hok Herr. apply ensures_read; [done|]. intros text s1 Hs1. apply ensures_ret.
  intros s' Hs'. apply Herr. by etrans.
Qed.

(** A transaction is atomic: it commits where its comparisons hold, and
    otherwise does nothing. *)
Lemma ensures_transact {R} when ops (k : result TxnResponse CoordinationError → itree coordE R) s
    (Q : list (observation S) → S → R → Prop) :
  (∀ s1 s2, rely s s1 → forallb (compare_holds (keyspace s1)) when = true →
     effect_of (keyspace s1) (head s1) ops (keyspace s2) (head s2) →
     ensures env (k (Ok (MkTxnResponse (Some (head s2)) true))) s2
       (λ tr s' r, Q (commit s1 s2 ++ tr) s' r)) →
  (∀ s1, rely s s1 → forallb (compare_holds (keyspace s1)) when = false →
     ensures env (k (Ok (MkTxnResponse (Some (head s1)) false))) s1 Q) →
  (∀ text s1, rely s s1 → ensures env (k (Err (Etcd text))) s1 Q) →
  (∀ text s1 s2, rely s s1 → forallb (compare_holds (keyspace s1)) when = true →
     effect_of (keyspace s1) (head s1) ops (keyspace s2) (head s2) →
     ensures env (k (Err (Etcd text))) s2 (λ tr s' r, Q (commit s1 s2 ++ tr) s' r)) →
  ensures env (let* x := call (Transact when ops) in k x) s Q.
Proof.
  intros Hok Hno Herr Hlost. apply ensures_call.
  - intros s1 [hd [|]] s2 Hs1 Hd%serve_documented; cbn in Hd; destruct Hd as (-> & Hc & He).
    + by apply Hok.
    + destruct He as [Hk Hh]. rewrite commit_same by done. apply Hno; [|by rewrite Hk].
      etrans; [done|]. by apply view_rely.
  - intros text s1 s2 Hs1 [->|[[hd [|]] Hd%serve_documented]].
    + rewrite commit_same by done. by apply Herr.
    + cbn in Hd. destruct Hd as (_ & Hc & He). by apply Hlost.
    + cbn in Hd. destruct Hd as (_ & _ & Hk & Hh). rewrite commit_same by done. apply Herr.
      etrans; [done|]. by apply view_rely.
Qed.

Lemma ensures_txn {B} when ops (k : TxnResponse → prog B) s
    (Q : list (observation S) → S → result B CoordinationError → Prop) :
  (∀ s1 s2, rely s s1 → forallb (compare_holds (keyspace s1)) when = true →
     effect_of (keyspace s1) (head s1) ops (keyspace s2) (head s2) →
     ensures env (k (MkTxnResponse (Some (head s2)) true)) s2
       (λ tr s' r, Q (commit s1 s2 ++ tr) s' r)) →
  (∀ s1, rely s s1 → forallb (compare_holds (keyspace s1)) when = false →
     ensures env (k (MkTxnResponse (Some (head s1)) false)) s1 Q) →
  (∀ text s', rely s s' → Q [] s' (Err (Etcd text))) →
  (∀ text s1 s2 s', rely s s1 → forallb (compare_holds (keyspace s1)) when = true →
     effect_of (keyspace s1) (head s1) ops (keyspace s2) (head s2) → rely s2 s' →
     Q (commit s1 s2) s' (Err (Etcd text))) →
  ensures env (let! x := call (Transact when ops) in k x) s Q.
Proof.
  intros Hok Hno Herr Hlost. apply ensures_transact; [done|done| |].
  - intros text s1 Hs1. apply ensures_ret. intros s' Hs'. apply Herr. by etrans.
  - intros text s1 s2 Hs1 Hc He. apply ensures_ret. intros s' Hs'. rewrite app_nil_r. by eapply Hlost.
Qed.

Lemma ensures_select {A R} (branches : list A) (k : A → itree coordE R) s
    (Q : list (observation S) → S → R → Prop) :
  (∀ b s1, b ∈ branches → rely s s1 → ensures env (k b) s1 Q) →
  ensures env (let* b := select branches in k b) s Q.
Proof.
  intros Hk. apply holds_trigger. intros s1 b s2 Hs1%rtc_rely [-> Hb]. by apply Hk.
Qed.

Lemma ensures_emit {R} event (k : unit → itree coordE R) s
    (Q : list (observation S) → S → R → Prop) :
  (∀ s1, rely s s1 → ensures env (k tt) s1 (λ tr s' r, Q (Emitted event :: tr) s' r)) →
  ensures env (ITree.bind (emit event) k) s Q.
Proof.
  intros Hk. apply holds_trigger. intros s1 [] s2 Hs1%rtc_rely Ha. cbn in Ha. subst s2. by apply Hk.
Qed.

Lemma ensures_track {R} event (k : unit → itree coordE R) s
    (Q : list (observation S) → S → R → Prop) :
  (∀ s1, rely s s1 → ensures env (k tt) s1 (λ tr s' r, Q (Tracked event :: tr) s' r)) →
  ensures env (ITree.bind (track event) k) s Q.
Proof.
  intros Hk. apply holds_trigger. intros s1 [] s2 Hs1%rtc_rely Ha. cbn in Ha. subst s2. by apply Hk.
Qed.

Lemma ensures_invoke {R} execution (k : result unit HandlerInvocationError → itree coordE R) s
    (Q : list (observation S) → S → R → Prop) :
  (∀ outcome s1, rely s s1 →
     ensures env (k outcome) s1 (λ tr s' r, Q (Invoked s1 execution outcome :: tr) s' r)) →
  ensures env (ITree.bind (invoke execution) k) s Q.
Proof.
  intros Hk. apply holds_trigger. intros s1 outcome s2 Hs1%rtc_rely Ha. cbn in Ha. subst s2. by apply Hk.
Qed.
End rules.

(** ** What a program writes

    Everything [t] leaves on the trace satisfies [P]. *)
Definition commits {S A} `{EtcdStore S} (env : S → S → Prop) (P : observation S → Prop)
    (t : itree coordE A) : Prop :=
  ∀ s, ensures env t s (λ tr _ _, Forall P tr).

Section commits.
Context {S : Type} `{EtcdStore S} (env : S → S → Prop) (P : observation S → Prop).

Lemma commits_ret {A} (a : A) : commits env P (Ret a).
Proof. intros s. apply holds_ret. constructor. Qed.

Lemma commits_bind {A B} (t : itree coordE A) (k : A → itree coordE B) :
  commits env P t → (∀ a, commits env P (k a)) → commits env P (ITree.bind t k).
Proof.
  intros Ht Hk s. apply holds_bind. eapply holds_mono; [apply Ht|].
  intros tr s1 a Htr. eapply holds_mono; [apply Hk|]. intros tr' s2 b Htr'. by apply Forall_app.
Qed.

Lemma commits_iter {A I} (f : I → itree coordE (I + A)) i :
  (∀ i, commits env P (f i)) → commits env P (ITree.iter f i).
Proof.
  intros Hf s. apply (holds_iter _ _ _ _ (λ _ acc _, Forall P acc)); [constructor|].
  intros j acc s1 Hacc. eapply holds_mono; [apply Hf|]. intros tr s2 [k|r] Htr; by apply Forall_app.
Qed.

Lemma commits_select {A} (branches : list A) : commits env P (select branches).
Proof.
  intros s tr s' r (s0 & _ & x & s1 & tr1 & [-> _] & Hx & ->)%exec_inv.
  apply exec_inv in Hx as (s2 & _ & -> & _). constructor.
Qed.

Lemma commits_call {A} (c : request A) :
  (∀ s a s', serve c s a s' → head s' ≠ head s → P (Committed s s')) → commits env P (call c).
Proof.
  intros Hc s. unfold call. apply holds_trigger.
  intros s1 x s2 _ Ha. apply holds_ret. intros s3 _. rewrite app_nil_r. cbn. unfold commit.
  case_bool_decide as Hh; [constructor|]. constructor; [|constructor]. cbn in Ha.
  destruct x as [a|]; [by eapply Hc|]. destruct Ha as [->|[a Ha]]; [done|by eapply Hc].
Qed.

Lemma commits_read key p at_revision `{!EtcdLaws S} : commits env P (call (Get key p at_revision)).
Proof. apply commits_call. intros s a s' (_ & Hh & _)%serve_documented ?. congruence. Qed.

Lemma commits_try {A B E} (t : itree coordE (result A E)) (k : A → itree coordE (result B E)) :
  commits env P t → (∀ a, commits env P (k a)) → commits env P (let! x := t in k x).
Proof. intros Ht Hk. apply commits_bind; [done|]. intros [a|e]; [done|apply commits_ret]. Qed.
End commits.

(** ** What a program writes before it ends

    A program may be dropped at any of its events, or never end.  [guards P t] says
    that every event of [t] leaves on the trace only what satisfies [P], whatever
    the store it meets. *)
Section guards.
Context {S : Type} `{EtcdStore S} (P : observation S → Prop).

Definition event_guarded {X} (e : coordE X) : Prop :=
  ∀ s x s', coord_act X e s x s' → Forall P (coord_note X e s x s').

Fixpoint guarded {A} (n : nat) (Q : A → Prop) (t : itree coordE A) : Prop :=
  match n with
  | O => True
  | Datatypes.S n =>
      match observe t with
      | RetF a => Q a
      | TauF t => guarded n Q t
      | VisF e k => event_guarded e ∧ ∀ x, guarded n Q (k x)
      end
  end.

(** The same, and what [t] returns satisfies [Q]. *)
Definition guards_with {A} (Q : A → Prop) (t : itree coordE A) : Prop := ∀ n, guarded n Q t.
Definition guards {A} (t : itree coordE A) : Prop := guards_with (λ _, True) t.

Lemma guarded_mono {A} n m (Q Q' : A → Prop) (t : itree coordE A) :
  m ≤ n → (∀ a, Q a → Q' a) → guarded n Q t → guarded m Q' t.
Proof.
  intros Hm HQ. revert m t Hm. induction n as [|n IH]; intros [|m] t Hm Ht; try done; [lia|].
  cbn [guarded] in *. destruct (observe t) as [r|t'|X e h]; [by apply HQ| |].
  - apply IH; [lia|done].
  - destruct Ht as [He Hh]. split; [done|]. intros x. apply IH; [lia|done].
Qed.

Lemma guarded_bind {A B} n Q (t : itree coordE A) (k : A → itree coordE B) :
  guarded n (λ a, guarded n Q (k a)) t → guarded n Q (ITree.bind t k).
Proof.
  revert t k. induction n as [|n IH]; intros t k Ht; [done|]. cbn [guarded] in Ht. change
    (match observe (ITree.bind t k) with
     | RetF a => Q a
     | TauF t => guarded n Q t
     | VisF e k => event_guarded e ∧ ∀ x, guarded n Q (k x)
     end). rewrite observe_bind.
  assert (∀ u, guarded n (λ a, guarded (Datatypes.S n) Q (k a)) u → guarded n Q (ITree.bind u k)) as Hnext.
  { intros u Hu. apply IH. eapply guarded_mono; [done| |exact Hu]. intros a. by apply guarded_mono; [lia|]. }
  destruct (observe t) as [a|t'|X e h]; [exact Ht|by apply Hnext|].
  destruct Ht as [He Hh]. split; [done|]. intros x. by apply Hnext.
Qed.

Lemma guards_with_bind {A B} Q Q' (t : itree coordE A) (k : A → itree coordE B) :
  guards_with Q t → (∀ a, Q a → guards_with Q' (k a)) → guards_with Q' (ITree.bind t k).
Proof.
  intros Ht Hk n. apply guarded_bind. eapply guarded_mono; [done| |apply (Ht n)]. intros a Ha. by apply Hk.
Qed.

Lemma guards_with_ret {A} Q (a : A) : Q a → guards_with Q (Ret a).
Proof. intros Ha [|n]; [done|exact Ha]. Qed.

Lemma guards_ret {A} (a : A) : guards (Ret a).
Proof. by apply guards_with_ret. Qed.

Lemma guards_bind {A B} (t : itree coordE A) (k : A → itree coordE B) :
  guards t → (∀ a, guards (k a)) → guards (ITree.bind t k).
Proof. intros Ht Hk. eapply guards_with_bind; [exact Ht|]. intros a _. apply Hk. Qed.

Lemma guards_trigger {X} (e : coordE X) : event_guarded e → guards (ITree.trigger e).
Proof. intros He [|n]; [done|]. split; [done|]. intros x. apply guards_ret. Qed.

Lemma guards_iter_inv {A I} (J : I → Prop) (f : I → itree coordE (I + A)) i :
  J i → (∀ i, J i → guards_with (λ lr, match lr with inl j => J j | inr _ => True end) (f i)) →
  guards (ITree.iter f i).
Proof.
  intros Hi Hf n. revert i Hi. induction n as [|n IH]; intros i Hi; [done|].
  change (guarded (Datatypes.S n) (λ _, True)
    (ITree.bind (f i) (λ lr, match lr with inl j => Tau (ITree.iter f j) | inr r => Ret r end))).
  apply guarded_bind. eapply guarded_mono; [done| |apply (Hf i Hi)]. intros [j|r] Hj; [by apply IH|done].
Qed.

Lemma guards_iter {A I} (f : I → itree coordE (I + A)) i : (∀ i, guards (f i)) → guards (ITree.iter f i).
Proof.
  intros Hf. apply (guards_iter_inv (λ _, True)); [done|]. intros j _ n.
  eapply guarded_mono; [done| |apply (Hf j)]. by intros [|].
Qed.

Lemma guards_select {A} (branches : list A) : guards (select branches).
Proof. apply guards_trigger. intros s x s' _. constructor. Qed.

Lemma guards_receive : guards receive.
Proof. apply guards_trigger. intros s x s' _. constructor. Qed.

Lemma guards_call {A} (c : request A) :
  (∀ s a s', serve c s a s' → head s' ≠ head s → P (Committed s s')) → guards (call c).
Proof.
  intros Hc. apply guards_bind; [|intros; apply guards_ret]. apply guards_trigger. intros s x s' Ha. cbn in Ha |- *.
  unfold commit. case_bool_decide; constructor; [|constructor].
  destruct x as [a|]; [by eapply Hc|]. destruct Ha as [->|[a Ha]]; [done|by eapply Hc].
Qed.

Lemma guards_read key p at_revision `{!EtcdLaws S} : guards (call (Get key p at_revision)).
Proof. apply guards_call. intros s a s' (_ & Hh & _)%serve_documented ?. congruence. Qed.

Lemma guards_try {A B E} (t : itree coordE (result A E)) (k : A → itree coordE (result B E)) :
  guards t → (∀ a, guards (k a)) → guards (let! x := t in k x).
Proof. intros Ht Hk. apply guards_bind; [done|]. intros [a|e]; [done|apply guards_ret]. Qed.

(** What [t] returns, whatever it leaves on the trace, when the messages it receives
    satisfy [R]. *)
Definition admits {X} (R : stream_message → Prop) (e : coordE X) : X → Prop :=
  match e in coordE X return X → Prop with Receive => R | _ => λ _, True end.

Fixpoint returning {A} (R : stream_message → Prop) (n : nat) (Q : A → Prop) (t : itree coordE A) : Prop :=
  match n with
  | O => True
  | Datatypes.S n =>
      match observe t with
      | RetF a => Q a
      | TauF t => returning R n Q t
      | VisF e k => ∀ x, admits R e x → returning R n Q (k x)
      end
  end.

Lemma returning_guarded {A} n Q (t : itree coordE A) :
  guarded n (λ _, True) t → returning (λ _, True) n Q t → guarded n Q t.
Proof.
  revert t. induction n as [|n IH]; intros t Ht Hr; [done|]. cbn [guarded returning] in *.
  destruct (observe t) as [a|t'|X e k]; [done|by apply IH|]. destruct Ht as [He Hk]. split; [done|].
  intros x. apply IH; [done|]. apply Hr. by destruct e.
Qed.

Lemma guards_commits env {A} (t : itree coordE A) : guards t → commits env P t.
Proof.
  intros Ht s tr s' r Hx.
  assert (∀ n, match observe t with
    | RetF _ => True
    | TauF t => guarded n (λ _, True) t
    | VisF e k => event_guarded e ∧ ∀ x, guarded n (λ _, True) (k x)
    end) as Ho by (intros n; exact (Ht (Datatypes.S n))).
  clear Ht. induction Hx as [x s|u s tr s' r _ IH|X e k s x s1 tr s' r Ha _ IH|o s s1 tr s' r _ _ IH];
    [constructor| | |by apply IH].
  - apply IH. intros n. exact (Ho (Datatypes.S n)).
  - apply Forall_app. split; [by apply (Ho O)|]. apply IH. intros n. exact (proj2 (Ho (Datatypes.S n)) x).
Qed.
End guards.

(** *** Returned values *)

Definition returns_given {A} (R : stream_message → Prop) (Q : A → Prop) (t : itree coordE A) : Prop :=
  ∀ n, returning R n Q t.

Abbreviation returns := (returns_given (λ _, True)).

Lemma guards_returns {S A} `{EtcdStore S} P Q (t : itree coordE A) :
  guards P t → returns Q t → guards_with P Q t.
Proof. intros Ht Hr n. by apply returning_guarded. Qed.

Section returns.
Context (R : stream_message → Prop).

Lemma returning_mono {A} n m (Q Q' : A → Prop) (t : itree coordE A) :
  m ≤ n → (∀ a, Q a → Q' a) → returning R n Q t → returning R m Q' t.
Proof.
  intros Hm HQ. revert m t Hm. induction n as [|n IH]; intros [|m] t Hm Ht; try done; [lia|].
  cbn [returning] in *. destruct (observe t) as [r|t'|X e h]; [by apply HQ| |].
  - apply IH; [lia|done].
  - intros x Hx. apply IH; [lia|]. by apply Ht.
Qed.

Lemma returning_bind {A B} n Q (t : itree coordE A) (k : A → itree coordE B) :
  returning R n (λ a, returning R n Q (k a)) t → returning R n Q (ITree.bind t k).
Proof.
  revert t k. induction n as [|n IH]; intros t k Ht; [done|]. cbn [returning] in Ht. change
    (match observe (ITree.bind t k) with
     | RetF a => Q a
     | TauF t => returning R n Q t
     | VisF e k => ∀ x, admits R e x → returning R n Q (k x)
     end). rewrite observe_bind.
  assert (∀ u, returning R n (λ a, returning R (Datatypes.S n) Q (k a)) u → returning R n Q (ITree.bind u k)) as Hnext.
  { intros u Hu. apply IH. eapply returning_mono; [done| |exact Hu]. intros a. by apply returning_mono; [lia|]. }
  destruct (observe t) as [a|t'|X e h]; [exact Ht|by apply Hnext|]. intros x Hx. by apply Hnext, Ht.
Qed.

Lemma returns_true {A} (t : itree coordE A) : returns_given R (λ _, True) t.
Proof.
  intros n. revert t. induction n as [|n IH]; intros t; [done|]. cbn [returning].
  destruct (observe t); [done|apply IH|intros; apply IH].
Qed.

Lemma returns_bind {A B} Q Q' (t : itree coordE A) (k : A → itree coordE B) :
  returns_given R Q t → (∀ a, Q a → returns_given R Q' (k a)) → returns_given R Q' (ITree.bind t k).
Proof.
  intros Ht Hk n. apply returning_bind. eapply returning_mono; [done| |apply (Ht n)]. intros a Ha. by apply Hk.
Qed.

Lemma returns_after {A B} Q (t : itree coordE A) (k : A → itree coordE B) :
  (∀ a, returns_given R Q (k a)) → returns_given R Q (ITree.bind t k).
Proof. intros Hk. eapply returns_bind; [apply returns_true|]. intros a _. apply Hk. Qed.

Lemma returns_ret {A} Q (a : A) : Q a → returns_given R Q (Ret a).
Proof. intros Ha [|n]; [done|exact Ha]. Qed.

Lemma returns_receive : returns_given R R receive.
Proof. intros [|n]; [done|]. intros x Hx. by apply returns_ret. Qed.

Lemma returns_iter_inv {A I} (J : I → Prop) (Q : A → Prop) (f : I → itree coordE (I + A)) i :
  J i → (∀ i, J i → returns_given R (λ lr, match lr with inl j => J j | inr a => Q a end) (f i)) →
  returns_given R Q (ITree.iter f i).
Proof.
  intros Hi Hf n. revert i Hi. induction n as [|n IH]; intros i Hi; [done|].
  change (returning R (Datatypes.S n) Q
    (ITree.bind (f i) (λ lr, match lr with inl j => Tau (ITree.iter f j) | inr r => Ret r end))).
  apply returning_bind. eapply returning_mono; [done| |apply (Hf i Hi)]. intros [j|r] Hj; [by apply IH|done].
Qed.

Lemma returns_iter {A I} (Q : A → Prop) (f : I → itree coordE (I + A)) i :
  (∀ i, returns_given R (λ lr, match lr with inl _ => True | inr a => Q a end) (f i)) →
  returns_given R Q (ITree.iter f i).
Proof. intros Hf. by apply (returns_iter_inv (λ _, True)). Qed.
End returns.

Lemma returns_ensures {S A} `{EtcdStore S} env (Q : A → Prop) (t : itree coordE A) (s : S) :
  returns Q t → ensures env t s (λ _ _ r, Q r).
Proof.
  intros Ht tr s' r Hx. assert (∀ n, match observe t with
    | RetF a => Q a
    | TauF t => returning (λ _, True) n Q t
    | VisF e k => ∀ x, admits (λ _, True) e x → returning (λ _, True) n Q (k x)
    end) as Ho by (intros n; exact (Ht (Datatypes.S n))).
  clear Ht. induction Hx as [x s|u s tr s' r _ IH|X e k s x s1 tr s' r Ha _ IH|o s s1 tr s' r _ _ IH];
    [exact (Ho O)| | |by apply IH].
  - apply IH. intros n. exact (Ho (Datatypes.S n)).
  - apply IH. intros n. apply (Ho (Datatypes.S n)). by destruct e.
Qed.

Ltac returns_go :=
  repeat match goal with
  | |- returns_given _ _ (ITree.bind _ _) => apply returns_after; intros ?
  | |- returns_given _ _ (if ?x then _ else _) => destruct x
  | |- returns_given _ _ (match ?x with _ => _ end) => destruct x
  | |- returns_given _ _ (Ret _) => apply returns_ret; solve [eauto|naive_solver]
  end.

(** *** Automation *)

(** A straight-line program guards what its pieces guard. *)
Create HintDb guards.
#[export] Hint Resolve guards_ret guards_select guards_receive : guards.

Ltac guards_go :=
  repeat match goal with
  | |- guards _ (ITree.bind _ _) => apply guards_bind; [|intros ?]
  | |- guards _ (if ?x then _ else _) => destruct x
  | |- guards _ (match ?x with _ => _ end) => destruct x
  | |- guards _ _ => solve [eauto with guards]
  | |- ∀ _, _ => intros ?
  end.

(** *** Dropped programs *)

(** A future that is dropped: it stops before an event, or after the event was
    sent and before its answer arrived. *)
Inductive drop_point := GoOn | DropUnsent | DropSent.

Definition drop_turn {A} (t : itree coordE A) : itree coordE (itree coordE A + option A) :=
  match observe t with
  | RetF a => Ret (inr (Some a))
  | TauF t => Ret (inl t)
  | VisF e k =>
      let* p := select [GoOn; DropUnsent; DropSent] in
      match p with
      | GoOn => let* x := ITree.trigger e in Ret (inl (k x))
      | DropUnsent => Ret (inr None)
      | DropSent => let* _ := ITree.trigger e in Ret (inr None)
      end
  end.

(** [t] raced against another future: [None] when the other one wins. *)
Definition droppable {A} (t : itree coordE A) : itree coordE (option A) :=
  let* first := select [true; false] in
  if first : bool then ITree.iter drop_turn t else Ret None.

Lemma guards_droppable {S A} `{EtcdStore S} (P : observation S → Prop) (t : itree coordE A) :
  guards P t → guards P (droppable t).
Proof.
  intros Ht. apply guards_bind; [apply guards_select|]. intros [|]; [|apply guards_ret].
  apply (guards_iter_inv P (guards P)); [done|]. clear t Ht. intros t Ht. unfold drop_turn.
  pose proof (λ n, Ht (Datatypes.S n)) as Ho. cbn [guarded] in Ho.
  destruct (observe t) as [a|t'|X e k]; [by apply guards_with_ret|by apply guards_with_ret|].
  assert (guards P (ITree.trigger e)) as He by (apply guards_trigger; exact (proj1 (Ho O))).
  eapply guards_with_bind; [apply guards_select|]. intros p _. destruct p; [|by apply guards_with_ret|].
  - eapply guards_with_bind; [exact He|]. intros x _. apply guards_with_ret. intros n. exact (proj2 (Ho n) x).
  - eapply guards_with_bind; [exact He|]. intros x _. by apply guards_with_ret.
Qed.

(** What is true of [t] when it ends is true of [t] when it is not dropped. *)
Lemma ensures_droppable {S A} `{EtcdStore S} env (t : itree coordE A) (s : S)
    (Q : list (observation S) → S → A → Prop) :
  ensures env t s Q →
  ensures env (droppable t) s (λ tr s' r, match r with Some a => Q tr s' a | None => True end).
Proof.
  intros Ht. apply holds_trigger. intros s1 first s2 Hs1 [-> _]. cbn [coord_note app].
  destruct first; [|by apply holds_ret].
  apply (holds_iter _ _ _ _ (λ u acc s', ∀ tr s'' r, exec coord_act coord_note env (observe u) s' tr s'' r →
    exec coord_act coord_note env (observe t) s (acc ++ tr) s'' r)).
  { intros tr s'' r Hx. by eapply exec_env_star. }
  intros u acc s' Hu. unfold drop_turn. destruct (observe u) as [a|u'|X e k].
  - apply holds_ret. intros s'' Hs''. apply Ht, Hu. eapply exec_env_star; [exact Hs''|constructor].
  - apply holds_ret. intros s'' Hs'' tr s3 r Hx. rewrite app_nil_r. apply Hu. constructor. by eapply exec_env_star.
  - apply holds_trigger. intros s3 p s4 Hs3 [-> _]. cbn [coord_note app].
    destruct p; [|by apply holds_ret|apply holds_trigger; intros; by apply holds_ret].
    apply holds_trigger. intros s5 x s6 Hs5 Ha. apply holds_ret. intros s7 Hs7 tr s8 r Hx. rewrite app_nil_r.
    rewrite <-app_assoc. apply Hu. eapply exec_env_star; [exact Hs3|]. eapply exec_env_star; [exact Hs5|].
    eapply exec_vis; [exact Ha|]. by eapply exec_env_star.
Qed.

(** ** Phases

    The trace of a program as the path of an automaton: [moves φ t Q] says that from
    phase [φ] every event of [t] is a move of the automaton, and that [Q] holds of the
    phase and the value with which [t] ends. *)
Section moves.
Context {S : Type} `{EtcdStore S} {Φ : Type} (step : Φ → observation S → Φ → Prop).

Inductive follows : Φ → list (observation S) → Φ → Prop :=
| follows_nil φ : follows φ [] φ
| follows_cons φ o φ1 tr φ2 : step φ o φ1 → follows φ1 tr φ2 → follows φ (o :: tr) φ2.

Lemma follows_app φ tr φ1 tr' φ2 : follows φ tr φ1 → follows φ1 tr' φ2 → follows φ (tr ++ tr') φ2.
Proof. induction 1; [done|]. intros. by econstructor; eauto. Qed.

Fixpoint moving {A} (n : nat) (φ : Φ) (Q : Φ → A → Prop) (t : itree coordE A) : Prop :=
  match n with
  | O => True
  | Datatypes.S n =>
      match observe t with
      | RetF a => Q φ a
      | TauF t => moving n φ Q t
      | VisF e k => ∀ s x s', coord_act _ e s x s' →
          ∃ φ', follows φ (coord_note _ e s x s') φ' ∧ moving n φ' Q (k x)
      end
  end.

Definition moves {A} (φ : Φ) (Q : Φ → A → Prop) (t : itree coordE A) : Prop := ∀ n, moving n φ Q t.

Lemma moving_mono {A} n m φ (Q Q' : Φ → A → Prop) (t : itree coordE A) :
  m ≤ n → (∀ φ a, Q φ a → Q' φ a) → moving n φ Q t → moving m φ Q' t.
Proof.
  intros Hm HQ. revert m φ t Hm. induction n as [|n IH]; intros [|m] φ t Hm Ht; try done; [lia|].
  cbn [moving] in *. destruct (observe t) as [r|t'|X e h]; [by apply HQ|apply IH; [lia|done]|].
  intros s x s' Ha. destruct (Ht s x s' Ha) as (φ' & Hf & Hh). exists φ'. split; [done|]. apply IH; [lia|done].
Qed.

Lemma moving_bind {A B} n φ Q (t : itree coordE A) (k : A → itree coordE B) :
  moving n φ (λ φ' a, moving n φ' Q (k a)) t → moving n φ Q (ITree.bind t k).
Proof.
  revert φ t k. induction n as [|n IH]; intros φ t k Ht; [done|]. cbn [moving] in Ht. change
    (match observe (ITree.bind t k) with
     | RetF a => Q φ a
     | TauF t => moving n φ Q t
     | VisF e k => ∀ s x s', coord_act _ e s x s' →
         ∃ φ', follows φ (coord_note _ e s x s') φ' ∧ moving n φ' Q (k x)
     end). rewrite observe_bind.
  assert (∀ φ u, moving n φ (λ φ' a, moving (Datatypes.S n) φ' Q (k a)) u → moving n φ Q (ITree.bind u k)) as Hnext.
  { intros φ' u Hu. apply IH. eapply moving_mono; [done| |exact Hu]. intros φ'' a. by apply moving_mono; [lia|]. }
  destruct (observe t) as [a|t'|X e h]; [exact Ht|by apply Hnext|].
  intros s x s' Ha. destruct (Ht s x s' Ha) as (φ' & Hf & Hh). exists φ'. split; [done|]. by apply Hnext.
Qed.

Lemma moves_bind {A B} φ Q Q' (t : itree coordE A) (k : A → itree coordE B) :
  moves φ Q t → (∀ φ' a, Q φ' a → moves φ' Q' (k a)) → moves φ Q' (ITree.bind t k).
Proof.
  intros Ht Hk n. apply moving_bind. eapply moving_mono; [done| |apply (Ht n)]. intros φ' a Ha. by apply Hk.
Qed.

Lemma moves_ret {A} φ Q (a : A) : Q φ a → moves φ Q (Ret a).
Proof. intros Ha [|n]; [done|exact Ha]. Qed.

Lemma moves_trigger {X} φ (e : coordE X) (Q : Φ → X → Prop) :
  (∀ s x s', coord_act X e s x s' → ∃ φ', follows φ (coord_note X e s x s') φ' ∧ Q φ' x) →
  moves φ Q (ITree.trigger e).
Proof.
  intros He [|n]; [done|]. intros s x s' Ha. destruct (He s x s' Ha) as (φ' & Hf & HQ).
  exists φ'. split; [done|]. by apply moves_ret.
Qed.

Lemma moves_emit φ event φ' : step φ (Emitted event) φ' → moves φ (λ φ1 _, φ1 = φ') (emit event).
Proof. intros Hs. apply moves_trigger. intros s x s' _. exists φ'. split; [|done]. by repeat econstructor. Qed.

Lemma moves_iter {A I} (J : I → Φ → Prop) (Q : Φ → A → Prop) (f : I → itree coordE (I + A)) i φ :
  J i φ → (∀ i φ, J i φ → moves φ (λ φ' lr, match lr with inl j => J j φ' | inr a => Q φ' a end) (f i)) →
  moves φ Q (ITree.iter f i).
Proof.
  intros Hi Hf n. revert i φ Hi. induction n as [|n IH]; intros i φ Hi; [done|].
  change (moving (Datatypes.S n) φ Q
    (ITree.bind (f i) (λ lr, match lr with inl j => Tau (ITree.iter f j) | inr r => Ret r end))).
  apply moving_bind. eapply moving_mono; [done| |apply (Hf i φ Hi)]. intros φ' [j|r] Hj; [by apply IH|done].
Qed.

(** A program that stays in its phase, or in a set of phases. *)
Lemma moves_within {A} (J : Φ → Prop) φ (P : observation S → Prop) (Q : A → Prop) (t : itree coordE A) :
  (∀ φ o, J φ → P o → ∃ φ', step φ o φ' ∧ J φ') → J φ → guards_with P Q t →
  moves φ (λ φ' a, J φ' ∧ Q a) t.
Proof.
  intros Hstay Hφ Ht n. specialize (Ht n). revert φ Hφ t Ht.
  induction n as [|n IH]; intros φ Hφ t Ht; [done|].
  cbn [moving guarded] in *. destruct (observe t) as [r|t'|X e h]; [done|by apply IH|].
  destruct Ht as [He Hh]. intros s x s' Ha.
  assert (∃ φ', follows φ (coord_note X e s x s') φ' ∧ J φ') as (φ' & Hf & Hj).
  { clear -Hstay Hφ He Ha. revert φ Hφ.
    induction (He s x s' Ha) as [|o tr Ho _ Htr]; intros φ Hφ; [exists φ; split; [constructor|done]|].
    destruct (Hstay φ o Hφ Ho) as (φ1 & Hs & H1). destruct (Htr φ1 H1) as (φ2 & Hf & H2).
    exists φ2. split; [by econstructor|done]. }
  exists φ'. split; [done|]. by apply IH.
Qed.

Lemma moves_guards {A} φ (P : observation S → Prop) (t : itree coordE A) :
  (∀ o, P o → step φ o φ) → guards P t → moves φ (λ φ' _, φ' = φ) t.
Proof.
  intros Hstay Ht. assert (moves φ (λ φ' a, φ' = φ ∧ True) t) as Htr.
  { apply (moves_within (λ φ', φ' = φ) φ P); [|done|exact Ht]. intros φ' o -> Ho. eauto. }
  intros n. eapply moving_mono; [done| |exact (Htr n)]. by intros ?? [? _].
Qed.

Lemma moves_droppable {A} φ Q (t : itree coordE A) :
  moves φ Q t → moves φ (λ φ' r, match r with Some a => Q φ' a | None => True end) (droppable t).
Proof.
  intros Ht. eapply (moves_bind _ (λ φ' _, φ' = φ)).
  { apply moves_guards with (P := λ _, False); [done|apply guards_select]. }
  intros φ' [|] ->; [|by apply moves_ret]. intros n. specialize (Ht n). revert φ t Ht.
  induction n as [|n IH]; intros φ t Ht; [done|]. cbn [moving] in Ht.
  change (moving (Datatypes.S n) φ (λ φ' r, match r with Some a => Q φ' a | None => True end)
    (ITree.bind (drop_turn t) (λ lr, match lr with inl j => Tau (ITree.iter drop_turn j) | inr r => Ret r end))).
  unfold drop_turn. destruct (observe t) as [a|t'|X e k].
  - exact Ht.
  - by apply IH.
  - intros s p s' _. exists φ. split; [constructor|]. cbn beta. destruct n as [|n]; [done|].
    destruct p; [|done|]; intros s1 x s2 Ha; destruct (Ht s1 x s2 Ha) as (φ' & Hf & Hk);
      exists φ'; (split; [exact Hf|]); [|by destruct n].
    destruct n as [|n]; [done|]. specialize (IH φ' (k x) Hk).
    refine (moving_mono _ n φ' _ _ (ITree.iter drop_turn (k x)) _ _ IH); [lia|done].
Qed.

Lemma moves_ensures env {A} φ (Q : Φ → A → Prop) (t : itree coordE A) s :
  moves φ Q t → ensures env t s (λ tr _ a, ∃ φ', follows φ tr φ' ∧ Q φ' a).
Proof.
  intros Ht tr s' r Hx. assert (∃ n, ∀ φ, match observe t with
    | RetF a => Q φ a
    | TauF t => moving n φ Q t
    | VisF e k => ∀ s x s', coord_act _ e s x s' →
        ∃ φ', follows φ (coord_note _ e s x s') φ' ∧ moving n φ' Q (k x)
    end → ∃ φ', follows φ tr φ' ∧ Q φ' r) as [n Hn]; [|apply Hn; exact (Ht (Datatypes.S n))]. clear Ht.
  induction Hx as [x s|u s tr s' r _ [n IH]|X e k s x s1 tr s' r Ha _ [n IH]|o s s1 tr s' r _ _ IH];
    [| | |exact IH].
  - exists O. intros φ1 HQ. exists φ1. split; [constructor|done].
  - exists (Datatypes.S n). intros φ1 Hu. by apply IH.
  - exists (Datatypes.S n). intros φ1 Hv. destruct (Hv s x s1 Ha) as (φ2 & Hf & Hk).
    destruct (IH φ2 Hk) as (φ3 & Hf' & HQ). exists φ3. split; [by eapply follows_app|done].
Qed.
End moves.

(** Between its commits a program leaves the store to the others. *)
Fixpoint path {S} (rely : S → S → Prop) (s : S) (tr : list (observation S)) (s' : S) : Prop :=
  match tr with
  | [] => rely s s'
  | Committed s1 s2 :: tr => rely s s1 ∧ path rely s2 tr s'
  | Emitted _ :: tr => path rely s tr s'
  | Invoked s1 _ _ :: tr => rely s s1 ∧ path rely s1 tr s'
  | Tracked _ :: tr => path rely s tr s'
  end.

Section paths.
Context {S : Type} `{EtcdLaws S} (env rely : S → S → Prop) `{!Rely env rely}.

Lemma path_later s s1 tr s' : rely s s1 → path rely s1 tr s' → path rely s tr s'.
Proof.
  intros Hs. induction tr as [|[s2 s3|e|s2 e o|e] tr IH]; cbn; [intros; by etrans| |done| |done];
    (intros [Hs2 Hrest]; split; [by etrans|done]).
Qed.

Lemma path_commit s1 s2 tr s' :
  (head s2 = head s1 → rely s1 s2) → path rely s2 tr s' → path rely s1 (commit s1 s2 ++ tr) s'.
Proof.
  intros Hsame Hp. unfold commit. destruct (bool_decide _) eqn:Hb; cbn; [|done].
  apply bool_decide_eq_true_1 in Hb. eapply path_later; [|exact Hp]. by apply Hsame.
Qed.

Lemma runs_path {R} (o : itree' coordE R) s tr s' r :
  exec coord_act coord_note env o s tr s' r → path rely s tr s'.
Proof.
  induction 1 as [x s|t s tr s' r _ IH|X e k s x s1 tr s' r Ha _ IH|o s s1 tr s' r He _ IH];
    [cbn; done|done| |by eapply path_later; [apply env_rely|]].
  destruct e as [A c|event|execution|A branches| |event]; cbn in Ha |- *.
  - apply path_commit; [|done]. intros Hh. apply view_rely.
    destruct x as [a|]; [by eapply serve_same_head|].
    destruct Ha as [->|[a Ha]]; [done|by eapply serve_same_head].
  - by subst.
  - subst. by split.
  - by destruct Ha as [-> _].
  - by subst.
  - by subst.
Qed.

Lemma ensures_path {R} (t : itree coordE R) s (Q : list (observation S) → S → R → Prop) :
  ensures env t s Q → ensures env t s (λ tr s' r, Q tr s' r ∧ path rely s tr s').
Proof. intros Ht tr s' r Hx. split; [by apply Ht|by eapply runs_path]. Qed.
End paths.

(** A program that writes nothing only lets time pass. *)
Lemma ensures_idle {S A} `{EtcdLaws S} (env rely : S → S → Prop) `{!Rely env rely} (t : itree coordE A) s :
  commits env (λ _, False) t → ensures env t s (λ tr s' _, tr = [] ∧ rely s s').
Proof.
  intros Ht tr s' r Hx. pose proof (Ht s tr s' r Hx) as Hnone. pose proof (runs_path env rely _ _ _ _ _ Hx) as Hp.
  destruct tr as [|o tr]; [done|]. by apply Forall_cons_1 in Hnone as [[] _].
Qed.

(** The trace of a program that has committed one [step], after [s]. *)
Definition once {S} (rely step : S → S → Prop) (s : S) (tr : list (observation S)) : Prop :=
  ∃ s1 s2, rely s s1 ∧ tr = [Committed s1 s2] ∧ step s1 s2.

Lemma once_later {S} (rely step : S → S → Prop) `{!PreOrder rely} s s1 tr :
  rely s s1 → once rely step s1 tr → once rely step s tr.
Proof. intros Hs (s2 & s3 & Hs2 & Htr & Hstep). exists s2, s3. split_and!; [by etrans|done..]. Qed.

(** * A store in memory

    The laws can be met: a keyspace with its revision and the next lease.  Only
    well-formed entries count, so that every value of the type is a store. *)
Record mem_store := MkMem { mem_raw : keyspace_t; mem_revision : Z; mem_lease : Z }.

Definition mem_head (m : mem_store) : Z := Z.max 1 (mem_revision m).

Definition entry_ok (h : Z) (p : string * KeyValue) : Prop :=
  kv_key p.2 = p.1 ∧ (0 < kv_create_revision p.2 ≤ kv_mod_revision p.2)%Z ∧
  (kv_mod_revision p.2 ≤ h)%Z ∧ (0 < kv_version p.2)%Z.

#[export] Instance entry_ok_dec h p : Decision (entry_ok h p).
Proof. unfold entry_ok. apply _. Defined.

Definition mem_keyspace (m : mem_store) : keyspace_t := filter (entry_ok (mem_head m)) (mem_raw m).

Definition mem_effect (m : mem_store) (ops : list TxnOp) : mem_store :=
  if existsb (op_writes (mem_keyspace m)) ops
  then MkMem (foldl (apply_op (mem_head m + 1)) (mem_keyspace m) ops) (mem_head m + 1) (mem_lease m)
  else m.

Definition mem_serve {A} (r : request A) (m : mem_store) : A * mem_store :=
  match r in request A return A * mem_store with
  | Get key with_prefix _ =>
      (MkGetResponse (Some (mem_head m)) (select_kvs (mem_keyspace m) key with_prefix), m)
  | Put key value lease =>
      let m' := mem_effect m [TxnPut key value lease] in (Some (mem_head m'), m')
  | Transact when ops =>
      if forallb (compare_holds (mem_keyspace m)) when
      then let m' := mem_effect m ops in (MkTxnResponse (Some (mem_head m')) true, m')
      else (MkTxnResponse (Some (mem_head m)) false, m)
  | LeaseGrant _ =>
      (Z.max 1 (mem_lease m), MkMem (mem_raw m) (mem_revision m) (Z.max 1 (mem_lease m) + 1))
  | LeaseRevoke lease =>
      (tt, MkMem (filter (λ p, kv_lease p.2 ≠ lease ∨ lease = 0%Z) (mem_keyspace m))
             (mem_head m + 1) (mem_lease m))
  | LeaseKeepAlive lease => (Some 1%Z, m)
  | Watch _ _ _ | Compact _ => (tt, m)
  end.

#[export] Instance mem_etcd : EtcdStore mem_store := {
  keyspace := mem_keyspace;
  head := mem_head;
  serve A r m a m' := mem_serve r m = (a, m')
}.

Lemma mem_wf m : keyspace_wf (mem_keyspace m) (mem_head m).
Proof. intros key kv Hkv. by apply map_lookup_filter_Some in Hkv as [_ Hok]. Qed.

Lemma keyspace_wf_mono ks h h' : (h ≤ h')%Z → keyspace_wf ks h → keyspace_wf ks h'.
Proof. intros Hle Hwf key kv Hkv. destruct (Hwf key kv Hkv) as (? & ? & ? & ?). split_and!; [done|lia..]. Qed.

Lemma apply_op_wf ks r op : (0 < r)%Z → keyspace_wf ks r → keyspace_wf (apply_op r ks op) r.
Proof.
  intros Hr Hwf. destruct op as [key value lease|key]; cbn [apply_op].
  - apply map_Forall_insert_2; [|done]. unfold put_kv.
    destruct (ks !! key) as [old|] eqn:Hold; cbn; [|split_and!; done || lia].
    destruct (Hwf key old Hold) as (? & ? & ? & ?). split_and!; [done|lia..].
  - by apply map_Forall_delete.
Qed.

Lemma apply_ops_wf ks r ops : (0 < r)%Z → keyspace_wf ks r → keyspace_wf (foldl (apply_op r) ks ops) r.
Proof.
  intros Hr. revert ks. induction ops as [|op ops IH]; intros ks Hwf; [done|].
  by apply IH, apply_op_wf.
Qed.

(** A well-formed keyspace is seen as it is. *)
Lemma mem_keyspace_of ks h l :
  (0 < h)%Z → keyspace_wf ks h → mem_keyspace (MkMem ks h l) = ks ∧ mem_head (MkMem ks h l) = h.
Proof.
  intros Hh Hwf. assert (mem_head (MkMem ks h l) = h) as Hhead by (unfold mem_head; cbn; lia).
  split; [|done]. apply map_filter_id. rewrite Hhead. intros key kv Hkv. exact (Hwf key kv Hkv).
Qed.

Lemma mem_head_pos m : (0 < mem_head m)%Z.
Proof. unfold mem_head. lia. Qed.

Lemma mem_effect_of m ops :
  effect_of (mem_keyspace m) (mem_head m) ops (mem_keyspace (mem_effect m ops))
    (mem_head (mem_effect m ops)).
Proof.
  unfold effect_of, mem_effect. destruct (existsb _ _); [|done].
  pose proof (mem_head_pos m).
  destruct (mem_keyspace_of (foldl (apply_op (mem_head m + 1)) (mem_keyspace m) ops)
    (mem_head m + 1) (mem_lease m)) as [-> ->]; [lia| |done].
  apply apply_ops_wf; [lia|]. eapply keyspace_wf_mono, mem_wf. lia.
Qed.

Lemma mem_revoke m lease :
  lease_ends (mem_keyspace m) (mem_head m) lease
    (mem_keyspace (mem_serve (LeaseRevoke lease) m).2) (mem_head (mem_serve (LeaseRevoke lease) m).2).
Proof.
  cbn [mem_serve snd].
  destruct (mem_keyspace_of (filter (λ p, kv_lease p.2 ≠ lease ∨ lease = 0%Z) (mem_keyspace m))
    (mem_head m + 1) (mem_lease m)) as [-> ->].
  - pose proof (mem_head_pos m). lia.
  - intros key kv [Hkv _]%map_lookup_filter_Some. eapply keyspace_wf_mono, Hkv; [|apply mem_wf]. lia.
  - split_and!; [lia|lia|apply map_filter_subseteq|]. intros key kv Hkv Hnone.
    apply map_lookup_filter_None in Hnone as [Hnone|Hnot];
      [exfalso; eapply eq_None_not_Some; [exact Hnone|by exists kv]|].
    specialize (Hnot kv Hkv). cbn in Hnot. destruct (decide (kv_lease kv = lease)); naive_solver.
Qed.

#[export] Instance mem_laws : EtcdLaws mem_store.
Proof.
  split; [|intros A r m _; exists (mem_serve r m).1, (mem_serve r m).2; apply surjective_pairing
          |intros m; split; [apply mem_head_pos|apply mem_wf]].
  intros A r m a m' Hserve. destruct r; cbn in Hserve |- *.
  - by injection Hserve as <- <-.
  - injection Hserve as <- <-. split; [exact (mem_effect_of m [TxnPut key value lease])|done].
  - destruct (forallb _ _) eqn:Hc; injection Hserve as <- <-; cbn.
    + split_and!; [done|done|apply mem_effect_of].
    + done.
  - injection Hserve as <- <-. split_and!; [done|done|lia].
  - replace m' with (mem_serve (LeaseRevoke lease) m).2 by (injection Hserve as _ <-; done).
    apply mem_revoke.
  - by injection Hserve as <- <-.
  - by injection Hserve as <- <-.
  - by injection Hserve as <- <-.
Qed.

(** Run a program alone on a store in memory; every call is served and the first
    branch of a [Select] is taken, handlers succeed, watch streams end. *)
Fixpoint run_mem {R} (fuel : nat) (t : itree coordE R) (m : mem_store)
  : option (list (observation mem_store) * mem_store * R) :=
  match fuel with
  | O => None
  | S fuel =>
      match observe t with
      | RetF r => Some ([], m, r)
      | TauF t => run_mem fuel t m
      | VisF e k =>
          match e in coordE X
            return (X → itree coordE R) → option (list (observation mem_store) * mem_store * R)
          with
          | Call r => λ k,
              let '(a, m') := mem_serve r m in
              '(tr, m'', r) ← run_mem fuel (k (Ok a)) m';
              Some (commit m m' ++ tr, m'', r)
          | Emit event => λ k,
              '(tr, m', r) ← run_mem fuel (k tt) m; Some (Emitted event :: tr, m', r)
          | Invoke execution => λ k,
              '(tr, m', r) ← run_mem fuel (k (Ok tt)) m;
              Some (Invoked m execution (Ok tt) :: tr, m', r)
          | Select branches => λ k,
              match branches with [] => None | b :: _ => run_mem fuel (k b) m end
          | Receive => λ k, run_mem fuel (k (Ok None)) m
          | Track event => λ k,
              '(tr, m', r) ← run_mem fuel (k tt) m; Some (Tracked event :: tr, m', r)
          end k
      end
  end.

(** Nobody else acts. *)
Definition alone {S} (s s' : S) : Prop := False.

Lemma run_mem_sound {R} fuel (t : itree coordE R) m tr m' r :
  run_mem fuel t m = Some (tr, m', r) → runs alone t m tr m' r.
Proof.
  revert t m tr. induction fuel as [|fuel IH]; intros t m tr Hrun; [done|]. cbn in Hrun.
  destruct (observe t) as [x|u|X e k].
  - injection Hrun as <- <- <-. constructor.
  - constructor. by apply IH.
  - destruct e as [A c|event|execution|A branches| |event].
    + destruct (mem_serve c m) as [a m1] eqn:Hserve.
      destruct (run_mem fuel (k (Ok a)) m1) as [[[tr1 m2] x]|] eqn:Hk; [|done].
      injection Hrun as <- <- <-.
      exact (exec_vis _ _ _ _ (Call c) k m (Ok a) m1 _ _ _ Hserve (IH _ _ _ Hk)).
    + destruct (run_mem fuel (k tt) m) as [[[tr1 m2] x]|] eqn:Hk; [|done].
      injection Hrun as <- <- <-.
      exact (exec_vis _ _ _ _ (Emit event) k m tt m _ _ _ eq_refl (IH _ _ _ Hk)).
    + destruct (run_mem fuel (k (Ok tt)) m) as [[[tr1 m2] x]|] eqn:Hk; [|done].
      injection Hrun as <- <- <-.
      exact (exec_vis _ _ _ _ (Invoke execution) k m (Ok tt) m _ _ _ eq_refl (IH _ _ _ Hk)).
    + destruct branches as [|b bs]; [done|].
      refine (exec_vis _ _ _ _ (Select (b :: bs)) k m b m _ _ _ _ (IH _ _ _ Hrun)).
      split; [done|left].
    + exact (exec_vis _ _ _ _ Receive k m (Ok None) m _ _ _ eq_refl (IH _ _ _ Hrun)).
    + destruct (run_mem fuel (k tt) m) as [[[tr1 m2] x]|] eqn:Hk; [|done].
      injection Hrun as <- <- <-.
      exact (exec_vis _ _ _ _ (Track event) k m tt m _ _ _ eq_refl (IH _ _ _ Hk)).
Qed.

(** What a program that runs alone relies on: the store as it sees it. *)
#[export] Instance alone_rely {S} `{EtcdLaws S} : Rely (S := S) alone same_view.
Proof.
  split; [|by intros s s' []|done|apply same_view_evolves].
  split; [by intros s|]. intros s1 s2 s3 [Hk Hh] [Hk' Hh']. split; congruence.
Qed.

Lemma alone_evolves {S} `{EtcdStore S} (s s' : S) : alone s s' → evolves s s'.
Proof. intros []. Qed.
