(* ===== verification/Metadata.v ===== *)
(** * Metadata and publication

    Models [src/coordination/etcd/metadata.rs], the reads of
    [src/coordination/etcd/mod.rs] it is built on, and the authority and fence
    records of [src/election.rs].  Every operation is a program over the etcd
    interface; [for _ in 0..32] is recursion on the number of attempts left.
    The failpoints of the source are empty functions unless a test feature is
    enabled and have no counterpart here. *)

From S2P Require Import Prelude Identity Keys Snapshot Etcd.

(** ** Reads *)

Section reads.
Variable backend : EtcdCoordination.

Definition raw_snapshot (key : string) (with_prefix : bool) (at_revision : option Z)
  : prog (Revision * list KeyValue) :=
  let! response := call (Get key with_prefix at_revision) in
  match get_header response with
  | None => Ret (Err MissingRevision)
  | Some header =>
      try! revision := Revision_new header in
      Ret (Ok (revision, get_kvs response))
  end.

(** [metadata::get] *)
Definition metadata_get (key : string) (revision : option Revision) : prog (option MetadataEntry) :=
  let! snapshot := raw_snapshot (metadata_key backend key) false (revision_value <$> revision) in
  match snapshot.2 with
  | [] => Ret (Ok None)
  | kv :: _ =>
      try! value := utf8_value (kv_value kv) in
      try! revision := Revision_new (kv_mod_revision kv) in
      Ret (Ok (Some (MkMetadataEntry (Some value) revision)))
  end.

Definition get_metadata (key : string) : prog (option MetadataEntry) := metadata_get key None.

Definition controller_snapshot : prog CoordinationSnapshot :=
  let! snapshot := raw_snapshot (namespaced_key backend "") true None in
  Ret (controller_snapshot_from_kvs backend snapshot.1 snapshot.2).

(** [session::live_session] *)
Definition live_session (instance : InstanceId) : prog (option SessionId) :=
  let! response := call (Get (live_key backend instance) false None) in
  match get_kvs response with
  | [] => Ret (Ok None)
  | kv :: _ =>
      try! session := map_err (λ _, InvalidSession) (parse_session (kv_value kv)) in
      Ret (Ok (Some session))
  end.
End reads.

(** ** Writes *)

Record CasResult := MkCasResult { applied : bool; cas_revision : Revision }.

Section writes.
Variable backend : EtcdCoordination.

Definition authoritative_input_marker_operation : TxnOp :=
  TxnPut (metadata_key backend AUTHORITATIVE_INPUT_MARKER) "1" 0.

(** The operations of a metadata write: input keys move the marker too. *)
Definition with_marker (key : string) (op : TxnOp) : list TxnOp :=
  if is_authoritative_metadata_key key then [op; authoritative_input_marker_operation] else [op].

(** [metadata::put] *)
Definition put_metadata (key value : string) (lease : Z) : prog Revision :=
  if is_authoritative_metadata_key key then
    let! response := call (Transact []
      [TxnPut (metadata_key backend key) value lease; authoritative_input_marker_operation]) in
    Ret (revision_from_header (txn_header response))
  else
    let! header := call (Put (metadata_key backend key) value lease) in
    Ret (revision_from_header header).

Definition cas_result (response : TxnResponse) : result CasResult CoordinationError :=
  let? revision := revision_from_header (txn_header response) in
  Ok (MkCasResult (succeeded response) revision).

Definition compare_and_put (key : string) (expected_revision : Revision) (value : string)
  : prog CasResult :=
  let! response := call (Transact
    [CompareModRevision (metadata_key backend key) (revision_value expected_revision)]
    (with_marker key (TxnPut (metadata_key backend key) value 0))) in
  Ret (cas_result response).

Definition compare_and_put_if_live_absent (key : string) (expected_revision : Revision)
    (instance : InstanceId) (value : string) : prog CasResult :=
  let! response := call (Transact
    [CompareModRevision (metadata_key backend key) (revision_value expected_revision);
     CompareVersion (live_key backend instance) 0]
    (with_marker key (TxnPut (metadata_key backend key) value 0))) in
  Ret (cas_result response).

Definition compare_and_delete (key : string) (expected_revision : Revision) : prog CasResult :=
  let! response := call (Transact
    [CompareModRevision (metadata_key backend key) (revision_value expected_revision)]
    (with_marker key (TxnDelete (metadata_key backend key)))) in
  Ret (cas_result response).

Definition compare_and_put_absent (key value : string) : prog bool :=
  let! response := call (Transact
    [CompareVersion (metadata_key backend key) 0]
    (with_marker key (TxnPut (metadata_key backend key) value 0))) in
  Ret (Ok (succeeded response)).

Definition initialize_authoritative_input_marker : prog unit :=
  let! applied := compare_and_put_absent AUTHORITATIVE_INPUT_MARKER "1" in
  Ret (Ok tt).
End writes.

(** ** Authority *)

(** The flag that tells a lost lease is a shared atomic of the runtime. *)
Record ControllerAuthority := MkControllerAuthority {
  authority_namespace : string;
  authority_controller : string;
  authority_lease : Z
}.

Record ControllerCommitFence := MkControllerCommitFence {
  fence_namespace : string;
  fence_controller : string;
  fence_lease : Z;
  observed_revision : Revision;
  fence_sessions : gmap InstanceId SessionId
}.

Definition commit_fence (authority : ControllerAuthority) (observed : Revision)
    (live_sessions : gmap InstanceId SessionId) : ControllerCommitFence :=
  MkControllerCommitFence (authority_namespace authority) (authority_controller authority)
    (authority_lease authority) observed live_sessions.

(** ** Publication *)

Section publication.
Variable backend : EtcdCoordination.

Definition external_view_key : string := metadata_key backend "controller/output/external-view".
Definition pending_key : string := metadata_key backend "controller/output/pending-transitions".
Definition processed_key : string := metadata_key backend "controller/output/processed-revision".
Definition marker_key : string := metadata_key backend AUTHORITATIVE_INPUT_MARKER.

Definition authority_matches (controller_id : string) (lease_id : Z) : prog bool :=
  let! current := call (Get (controller_active_key backend) false None) in
  match get_kvs current with
  | [] => Ret (Ok false)
  | entry :: _ =>
      Ret (Ok (String.eqb (kv_value entry) controller_id && (kv_lease entry =? lease_id)%Z))
  end.

(** The loop over the sessions of [input_fence_changed]. *)
Fixpoint sessions_changed (sessions : list (InstanceId * SessionId)) : prog bool :=
  match sessions with
  | [] => Ret (Ok false)
  | (instance, session) :: rest =>
      let! live := call (Get (live_key backend instance) false None) in
      match get_kvs live with
      | [] => Ret (Ok true)
      | kv :: _ =>
          if String.eqb (kv_value kv) (session_text session) then sessions_changed rest
          else Ret (Ok true)
      end
  end.

Definition input_fence_changed (fence : ControllerCommitFence) : prog bool :=
  let! marker := call (Get marker_key false None) in
  match get_kvs marker with
  | [] => Ret (Ok true)
  | kv :: _ =>
      if (kv_mod_revision kv =? revision_value (observed_revision fence))%Z
      then sessions_changed (entries (fence_sessions fence))
      else Ret (Ok true)
  end.

Definition pending_revision_compare (key : string) (revision : option Revision) : Compare :=
  match revision with
  | Some revision => CompareModRevision key (revision_value revision)
  | None => CompareVersion key 0
  end.

Definition pending_revision_changed (key : string) (expected : option Revision) : prog bool :=
  let! current := call (Get key false None) in
  Ret (Ok (match expected, get_kvs current with
           | Some expected, kv :: _ => negb (kv_mod_revision kv =? revision_value expected)%Z
           | None, [] => false
           | _, _ => true
           end)).

(** The revision a processed-revision record holds. *)
Definition processed_value (kv : KeyValue) : result Revision CoordinationError :=
  if utf8_valid (kv_value kv) then
    match parse_i64 (kv_value kv) with
    | Some value => Revision_new value
    | None => Err InvalidValue
    end
  else Err InvalidValue.

(** The comparison that guards the processed revision, and its value. *)
Definition processed_comparison (kvs : list KeyValue)
  : result (Compare * option Revision) CoordinationError :=
  match kvs with
  | kv :: _ =>
      let? value := processed_value kv in
      Ok (CompareModRevision processed_key (kv_mod_revision kv), Some value)
  | [] => Ok (CompareVersion processed_key 0, None)
  end.

Definition publish_operations (fence : ControllerCommitFence) (external_view pending_transitions : string)
  : list TxnOp :=
  [ TxnPut external_view_key external_view 0;
    TxnPut pending_key pending_transitions 0;
    TxnPut processed_key (pretty (revision_value (observed_revision fence))) 0 ].

Definition session_compare (entry : InstanceId * SessionId) : Compare :=
  CompareValue (live_key backend entry.1) (session_text entry.2).

Definition publish_compares (fence : ControllerCommitFence) (revision_compare : Compare)
    (pending_revision : option Revision) : list Compare :=
  [ CompareValue (controller_active_key backend) (fence_controller fence);
    CompareLease (controller_active_key backend) (fence_lease fence);
    revision_compare;
    pending_revision_compare pending_key pending_revision;
    CompareModRevision marker_key (revision_value (observed_revision fence)) ]
  ++ (session_compare <$> entries (fence_sessions fence)).

(** [current > fence.observed_revision] *)
Definition newer_than (r : Revision) (fence : ControllerCommitFence) : bool :=
  (revision_value (observed_revision fence) <? revision_value r)%Z.

(** The transaction of one attempt and what follows it; [retry] is the next
    attempt. *)
Definition publish_once (fence : ControllerCommitFence) (external_view pending_transitions : string)
    (pending_revision : option Revision) (revision_compare : Compare) (retry : prog Revision)
  : prog Revision :=
  let! response := call (Transact (publish_compares fence revision_compare pending_revision)
    (publish_operations fence external_view pending_transitions)) in
  if succeeded response then Ret (revision_from_header (txn_header response))
  else
    let! matches := authority_matches (fence_controller fence) (fence_lease fence) in
    if negb matches then Ret (Err StaleController)
    else
      let! changed := pending_revision_changed pending_key pending_revision in
      let! stale := if changed then Ret (Ok true) else input_fence_changed fence in
      if stale : bool then Ret (Err StaleRevision)
      else
        let! latest := call (Get processed_key false None) in
        match get_kvs latest with
        | kv :: _ =>
            try! value := processed_value kv in
            if newer_than value fence then Ret (Err StaleRevision) else retry
        | [] => retry
        end.

Fixpoint publish_attempts (attempts : nat) (fence : ControllerCommitFence)
    (external_view pending_transitions : string) (pending_revision : option Revision)
  : prog Revision :=
  match attempts with
  | O => Ret (Err Contention)
  | S attempts =>
      let! current := call (Get processed_key false None) in
      try! comparison := processed_comparison (get_kvs current) in
      if (match comparison.2 with Some value => newer_than value fence | None => false end)
      then Ret (Err StaleRevision)
      else
        publish_once fence external_view pending_transitions pending_revision comparison.1
          (publish_attempts attempts fence external_view pending_transitions pending_revision)
  end.

(** [metadata::publish_controller_outputs] *)
Definition publish_controller_outputs_with_fence (fence : ControllerCommitFence)
    (external_view pending_transitions : string) (pending_revision : option Revision)
  : prog Revision :=
  if negb (String.eqb (fence_namespace fence) (prefix backend)) then Ret (Err StaleController)
  else publish_attempts 32 fence external_view pending_transitions pending_revision.

Definition marker_compare (kvs : list KeyValue) : Compare :=
  let current_marker_revision := match kvs with kv :: _ => kv_mod_revision kv | [] => 0%Z end in
  if (current_marker_revision =? 0)%Z then CompareVersion marker_key 0
  else CompareModRevision marker_key current_marker_revision.

(** The transaction of one attempt of [record_lease_expiry]; [retry] is the next
    attempt. *)
Definition expiry_txn (authority : ControllerAuthority) (kvs : list KeyValue) (retry : prog Revision)
  : prog Revision :=
  let! response := call (Transact
    [ CompareValue (controller_active_key backend) (authority_controller authority);
      CompareLease (controller_active_key backend) (authority_lease authority);
      marker_compare kvs ]
    [TxnPut marker_key "1" 0]) in
  if succeeded response then Ret (revision_from_header (txn_header response))
  else
    let! matches := authority_matches (authority_controller authority) (authority_lease authority) in
    if negb matches then Ret (Err StaleController) else retry.

Fixpoint record_attempts (attempts : nat) (authority : ControllerAuthority) (event_revision : Revision)
  : prog Revision :=
  match attempts with
  | O => Ret (Err Contention)
  | S attempts =>
      let! marker := call (Get marker_key false None) in
      try! seen :=
        (match get_kvs marker with
         | current :: _ =>
             let? revision := Revision_new (kv_mod_revision current) in Ok (Some revision)
         | [] => Ok None
         end) in
      match seen with
      | Some current_revision =>
          if (revision_value event_revision <=? revision_value current_revision)%Z
          then Ret (Ok current_revision)
          else expiry_txn authority (get_kvs marker) (record_attempts attempts authority event_revision)
      | None =>
          expiry_txn authority (get_kvs marker) (record_attempts attempts authority event_revision)
      end
  end.

Definition record_lease_expiry (authority : ControllerAuthority) (event_revision : Revision)
  : prog Revision :=
  if negb (String.eqb (authority_namespace authority) (prefix backend)) then Ret (Err StaleController)
  else record_attempts 32 authority event_revision.
End publication.

(** * What publication promises

    The abstract state of the control plane, and publication as one atomic step
    on it. *)

Record ControlView := MkControlView {
  view_controller : option (string * Z);          (* who leads, under which lease *)
  view_input : Z;                                 (* revision of the newest input *)
  view_queue : Z;                                 (* revision of the message queue *)
  view_session : InstanceId → option string;      (* live sessions *)
  view_external : option string;                  (* published external view *)
  view_pending : option string;                   (* published messages *)
  view_processed : option string                  (* input the outputs stand for *)
}.

Definition control_view (backend : EtcdCoordination) (ks : keyspace_t) : ControlView :=
  MkControlView
    ((λ kv, (kv_value kv, kv_lease kv)) <$> ks !! controller_active_key backend)
    (kv_field ks (marker_key backend) kv_mod_revision 0%Z)
    (kv_field ks (pending_key backend) kv_mod_revision 0%Z)
    (λ i, kv_value <$> ks !! live_key backend i)
    (kv_value <$> ks !! external_view_key backend)
    (kv_value <$> ks !! pending_key backend)
    (kv_value <$> ks !! processed_key backend).

(** The outputs of a leader for the input it observed replace older outputs,
    provided that it still leads, the input and the queue have not moved, the
    sessions it planned for are live, and no newer input has been processed. *)
Record publish_step (fence : ControllerCommitFence) (external_view pending_transitions : string)
    (pending_revision : option Revision) (v v' : ControlView) : Prop := {
  step_leads : view_controller v = Some (fence_controller fence, fence_lease fence);
  step_input : view_input v = revision_value (observed_revision fence);
  step_queue : view_queue v = match pending_revision with Some r => revision_value r | None => 0%Z end;
  step_sessions : ∀ i n, fence_sessions fence !! i = Some n → view_session v i = Some (session_text n);
  step_newest : ∀ text, view_processed v = Some text →
    ∃ r, parse_i64 text = Some r ∧ (r ≤ revision_value (observed_revision fence))%Z;
  step_outputs : (view_external v', view_pending v', view_processed v') =
    (Some external_view, Some pending_transitions,
     Some (pretty (revision_value (observed_revision fence))));
  step_frame : (view_controller v', view_input v') = (view_controller v, view_input v) ∧
    ∀ i, view_session v' i = view_session v i;
  step_moves : (view_queue v < view_queue v')%Z
}.

Definition output_keys (backend : EtcdCoordination) : list string :=
  [external_view_key backend; pending_key backend; processed_key backend].

Section publication_facts.
Context {S : Type} `{EtcdLaws S} (env rely : S → S → Prop) `{!Rely env rely}.
Context (backend : EtcdCoordination).

(** A program that only reads: no trace, and only transport errors. *)
Definition quiet {A} (t : prog A) : Prop :=
  ∀ s, ensures env t s (λ tr s' r, tr = [] ∧ rely s s' ∧ ∀ e, r = Err e → ∃ text, e = Etcd text).

Lemma quiet_get {A} key with_prefix (k : GetResponse → prog A) :
  (∀ response, quiet (k response)) → quiet (let! x := call (Get key with_prefix None) in k x).
Proof.
  intros Hk s. apply (ensures_get env rely).
  - intros s1 Hs1. eapply holds_mono; [apply Hk|]. intros tr s' r (-> & Hs' & He).
    split_and!; [done|by etrans|done].
  - intros text s' Hs'. split_and!; [done..|]. intros e [= <-]. by exists text.
Qed.

Lemma quiet_ok {A} (a : A) : quiet (Ret (Ok a)).
Proof. intros s. apply (ensures_ret env rely). intros s' Hs'. by split_and!. Qed.

(** A snapshot shows one moment. *)
Lemma ensures_raw_snapshot {B} key with_prefix (k : Revision * list KeyValue → prog B) s
    (Q : list (observation S) → S → result B CoordinationError → Prop) :
  (∀ s1, rely s s1 →
     ensures env (k (MkRevision (head s1), select_kvs (keyspace s1) key with_prefix)) s1 Q) →
  (∀ text s', rely s s' → Q [] s' (Err (Etcd text))) →
  ensures env (let! x := raw_snapshot key with_prefix None in k x) s Q.
Proof.
  intros Hok Herr. apply holds_bind. apply (ensures_get env rely).
  - intros s1 Hs1. cbn [get_header get_kvs]. pose proof (head_pos s1). unfold Revision_new.
    destruct (head s1 <=? 0)%Z eqn:Hle; [lia|].
    apply holds_ret. intros s2 Hs2. cbn [app]. eapply holds_env; [exact Hs2|]. by apply Hok.
  - intros text s1 Hs1. apply (ensures_ret env rely). intros s2 Hs2. apply Herr. by etrans.
Qed.

(** A metadata entry as it is at one moment. *)
Lemma ensures_get_metadata {B} key (k : option MetadataEntry → prog B) s
    (Q : list (observation S) → S → result B CoordinationError → Prop) :
  (∀ s1, rely s s1 → keyspace s1 !! metadata_key backend key = None → ensures env (k None) s1 Q) →
  (∀ s1 kv, rely s s1 → keyspace s1 !! metadata_key backend key = Some kv →
     ensures env (k (Some (MkMetadataEntry (Some (kv_value kv)) (MkRevision (kv_mod_revision kv))))) s1 Q) →
  (∀ e s', rely s s' → e = InvalidValue ∨ (∃ text, e = Etcd text) → Q [] s' (Err e)) →
  ensures env (let! x := get_metadata backend key in k x) s Q.
Proof.
  intros Hnone Hsome Herr. apply ensures_assoc. apply ensures_raw_snapshot; [|intros; apply Herr; eauto].
  intros s1 Hs1. cbn [snd select_kvs].
  destruct (keyspace s1 !! metadata_key backend key) as [kv|] eqn:Hkv.
  - unfold utf8_value. destruct (utf8_valid (kv_value kv)).
    + destruct (kv_bounds s1 _ kv Hkv) as (_ & Hpos & _). unfold Revision_new.
      destruct (_ <=? 0)%Z eqn:Hle; [lia|]. apply ensures_bind_ret. by apply Hsome.
    + apply ensures_bind_ret. apply (ensures_ret env rely). intros s' Hs'. apply Herr; [by etrans|by left].
  - apply ensures_bind_ret. by apply Hnone.
Qed.

Lemma ensures_live_session {B} i (k : option SessionId → prog B) s
    (Q : list (observation S) → S → result B CoordinationError → Prop) :
  (∀ s1, rely s s1 → keyspace s1 !! live_key backend i = None → ensures env (k None) s1 Q) →
  (∀ s1 kv n, rely s s1 → keyspace s1 !! live_key backend i = Some kv →
     parse_session (kv_value kv) = Ok n → ensures env (k (Some n)) s1 Q) →
  (∀ e s', rely s s' → e = InvalidSession ∨ (∃ text, e = Etcd text) → Q [] s' (Err e)) →
  ensures env (let! x := live_session backend i in k x) s Q.
Proof.
  intros Hnone Hsome Herr. apply ensures_assoc. apply (ensures_get env rely); [|intros; apply Herr; eauto].
  intros s1 Hs1. cbn [get_kvs select_kvs].
  destruct (keyspace s1 !! live_key backend i) as [kv|] eqn:Hkv.
  - destruct (parse_session (kv_value kv)) as [n|] eqn:Hp; cbn [map_err]; apply ensures_bind_ret.
    + by eapply Hsome.
    + apply (ensures_ret env rely). intros s' Hs'. apply Herr; [by etrans|by left].
  - apply ensures_bind_ret. by apply Hnone.
Qed.

Lemma revision_of_head (s : S) : revision_from_header (Some (head s)) = Ok (MkRevision (head s)).
Proof.
  pose proof (head_pos s). unfold revision_from_header, Revision_new.
  destruct (head s <=? 0)%Z eqn:Hle; [lia|done].
Qed.

(** A conditional write takes effect where the revision is the expected one. *)
Lemma ensures_compare_and_put {B} key expected value (k : CasResult → prog B) s
    (Q : list (observation S) → S → result B CoordinationError → Prop) :
  let hits s1 s2 :=
    kv_field (keyspace s1) (metadata_key backend key) kv_mod_revision 0%Z = revision_value expected ∧
    effect_of (keyspace s1) (head s1) (with_marker backend key (TxnPut (metadata_key backend key) value 0))
      (keyspace s2) (head s2) in
  (∀ s1 s2, rely s s1 → hits s1 s2 → ensures env (k (MkCasResult true (MkRevision (head s2)))) s2
     (λ tr s' r, Q (commit s1 s2 ++ tr) s' r)) →
  (∀ s1, rely s s1 →
     kv_field (keyspace s1) (metadata_key backend key) kv_mod_revision 0%Z ≠ revision_value expected →
     ensures env (k (MkCasResult false (MkRevision (head s1)))) s1 Q) →
  (∀ text s', rely s s' → Q [] s' (Err (Etcd text))) →
  (∀ text s1 s2 s', rely s s1 → hits s1 s2 → rely s2 s' → Q (commit s1 s2) s' (Err (Etcd text))) →
  ensures env (let! x := compare_and_put backend key expected value in k x) s Q.
Proof.
  intros hits Hok Hno Herr Hlost. apply ensures_assoc.
  assert (∀ s1, forallb (compare_holds (keyspace s1))
    [CompareModRevision (metadata_key backend key) (revision_value expected)] =
    bool_decide (kv_field (keyspace s1) (metadata_key backend key) kv_mod_revision 0%Z =
                 revision_value expected)) as Hcmp by (intros s1; apply andb_true_r).
  apply (ensures_txn env rely).
  - intros s1 s2 Hs1 Hc He. rewrite Hcmp in Hc. apply bool_decide_eq_true_1 in Hc. unfold cas_result.
    cbn [txn_header succeeded]. rewrite revision_of_head. apply ensures_bind_ret. by apply Hok.
  - intros s1 Hs1 Hc. rewrite Hcmp in Hc. apply bool_decide_eq_false_1 in Hc. unfold cas_result.
    cbn [txn_header succeeded]. rewrite revision_of_head. apply ensures_bind_ret. by apply Hno.
  - done.
  - intros text s1 s2 s' Hs1 Hc He Hs'. rewrite Hcmp in Hc. apply bool_decide_eq_true_1 in Hc.
    by apply (Hlost text s1 s2 s').
Qed.

Lemma ensures_put_absent {B} key value (k : bool → prog B) s
    (Q : list (observation S) → S → result B CoordinationError → Prop) :
  let hits s1 s2 :=
    keyspace s1 !! metadata_key backend key = None ∧
    effect_of (keyspace s1) (head s1) (with_marker backend key (TxnPut (metadata_key backend key) value 0))
      (keyspace s2) (head s2) in
  (∀ s1 s2, rely s s1 → hits s1 s2 → ensures env (k true) s2 (λ tr s' r, Q (commit s1 s2 ++ tr) s' r)) →
  (∀ s1, rely s s1 → ensures env (k false) s1 Q) →
  (∀ text s', rely s s' → Q [] s' (Err (Etcd text))) →
  (∀ text s1 s2 s', rely s s1 → hits s1 s2 → rely s2 s' → Q (commit s1 s2) s' (Err (Etcd text))) →
  ensures env (let! x := compare_and_put_absent backend key value in k x) s Q.
Proof.
  intros hits Hok Hno Herr Hlost. apply ensures_assoc.
  assert (∀ s1, forallb (compare_holds (keyspace s1)) [CompareVersion (metadata_key backend key) 0] = true →
    keyspace s1 !! metadata_key backend key = None) as Habsent.
  { intros s1 Hc. cbn in Hc. apply andb_true_iff in Hc as [Hc%bool_decide_eq_true_1 _]. by apply version_zero. }
  apply (ensures_txn env rely).
  - intros s1 s2 Hs1 Hc%Habsent He. cbn [succeeded]. apply ensures_bind_ret. by apply Hok.
  - intros s1 Hs1 _. cbn [succeeded]. apply ensures_bind_ret. by apply Hno.
  - done.
  - intros text s1 s2 s' Hs1 Hc%Habsent He Hs'. by apply (Hlost text s1 s2 s').
Qed.

Lemma quiet_authority_matches c l : quiet (authority_matches backend c l).
Proof. apply quiet_get. intros [hd [|kv kvs]]; apply quiet_ok. Qed.

Lemma quiet_pending_changed key expected : quiet (pending_revision_changed key expected).
Proof. apply quiet_get. intros response. apply quiet_ok. Qed.

Lemma quiet_sessions_changed l : quiet (sessions_changed backend l).
Proof.
  induction l as [|[i n] l IH]; [apply quiet_ok|]. apply quiet_get. intros [hd [|kv kvs]]; [apply quiet_ok|].
  cbn [get_kvs]. destruct (String.eqb _ _); [done|apply quiet_ok].
Qed.

Lemma quiet_input_changed fence : quiet (input_fence_changed backend fence).
Proof.
  apply quiet_get. intros [hd [|kv kvs]]; [apply quiet_ok|]. cbn [get_kvs].
  destruct (_ =? _)%Z; [apply quiet_sessions_changed|apply quiet_ok].
Qed.

(** A quiet program in front: its failure is the failure of the whole. *)
Lemma ensures_quiet {A B} (t : prog A) (k : A → prog B) s
    (Q : list (observation S) → S → result B CoordinationError → Prop) :
  quiet t →
  (∀ a s', rely s s' → ensures env (k a) s' Q) →
  (∀ text s', rely s s' → Q [] s' (Err (Etcd text))) →
  ensures env (let! x := t in k x) s Q.
Proof.
  intros Ht Hk Herr. apply holds_bind. eapply holds_mono; [apply Ht|].
  intros tr s1 [a|e] (-> & Hs1 & He); cbn [app].
  - by apply Hk.
  - destruct (He e eq_refl) as [text ->]. apply (ensures_ret env rely).
    intros s2 Hs2. apply Herr. by etrans.
Qed.
(** ** Distinct keys *)

Lemma metadata_keys_ne k l : k ≠ l → metadata_key backend k ≠ metadata_key backend l.
Proof. intros Hne Heq. by apply Hne, (metadata_key_inj backend). Qed.

Lemma metadata_live_ne k i : metadata_key backend k ≠ live_key backend i.
Proof. intros Heq%namespaced_key_inj. discriminate Heq. Qed.

Lemma metadata_active_ne k : metadata_key backend k ≠ controller_active_key backend.
Proof. intros Heq%namespaced_key_inj. discriminate Heq. Qed.

(** ** The transaction *)

Lemma put_kv_value r ks key value lease : kv_value (put_kv r ks key value lease) = value.
Proof. unfold put_kv. by destruct (ks !! key). Qed.
Lemma put_kv_mod r ks key value lease : kv_mod_revision (put_kv r ks key value lease) = r.
Proof. unfold put_kv. by destruct (ks !! key). Qed.

(** A metadata write: the value, the marker when the key is input of the
    controller, and nothing else. *)
Record metadata_step (key value : string) (s1 s2 : S) : Prop := {
  step_head : head s2 = (head s1 + 1)%Z;
  step_value : kv_value <$> keyspace s2 !! metadata_key backend key = Some value;
  step_marker : is_authoritative_metadata_key key = true →
    kv_mod_revision <$> keyspace s2 !! marker_key backend = Some (head s2);
  step_others : ∀ k, k ≠ metadata_key backend key → k ≠ marker_key backend →
    keyspace s2 !! k = keyspace s1 !! k
}.

Lemma metadata_effect key value lease (s1 s2 : S) :
  effect_of (keyspace s1) (head s1) (with_marker backend key (TxnPut (metadata_key backend key) value lease))
    (keyspace s2) (head s2) → metadata_step key value s1 s2.
Proof.
  unfold with_marker. destruct (is_authoritative_metadata_key key) eqn:Hauth; intros [Hh Hk].
  - assert (marker_key backend ≠ metadata_key backend key) as Hne.
    { intros Heq%metadata_key_inj. by rewrite <-Heq in Hauth. }
    cbn [foldl apply_op authoritative_input_marker_operation] in Hk. fold (marker_key backend) in Hk.
    split; [done| | |]; rewrite Hk.
    + rewrite lookup_insert_ne, lookup_insert_eq by done. cbn. by rewrite put_kv_value.
    + intros _. rewrite lookup_insert_eq. cbn. by rewrite put_kv_mod, Hh.
    + intros k Hk1 Hk2. by rewrite !lookup_insert_ne by done.
  - split; [done| |by rewrite Hauth|]; rewrite Hk; cbn [foldl apply_op].
    + rewrite lookup_insert_eq. cbn. by rewrite put_kv_value.
    + intros k Hk1 _. by rewrite lookup_insert_ne.
Qed.

(** The keyspace after a publication. *)
Lemma published_keyspace (r : Z) fence ext pend (ks : keyspace_t) :
  let ks' := foldl (apply_op r) ks (publish_operations backend fence ext pend) in
  (∀ key, key ∉ output_keys backend → ks' !! key = ks !! key) ∧
  kv_value <$> ks' !! external_view_key backend = Some ext ∧
  kv_value <$> ks' !! pending_key backend = Some pend ∧
  kv_field ks' (pending_key backend) kv_mod_revision 0%Z = r ∧
  kv_value <$> ks' !! processed_key backend = Some (pretty (revision_value (observed_revision fence))).
Proof.
  assert (external_view_key backend ≠ pending_key backend ∧
          external_view_key backend ≠ processed_key backend ∧
          pending_key backend ≠ processed_key backend) as (Hep & Her & Hpr).
  { split_and!; by apply metadata_keys_ne. }
  cbv zeta. cbn [publish_operations foldl apply_op]. split_and!.
  - intros key Hkey. unfold output_keys in Hkey.
    rewrite !lookup_insert_ne; [done|intros <-; apply Hkey; set_solver..].
  - rewrite !lookup_insert_ne by done. rewrite lookup_insert_eq. cbn. by rewrite put_kv_value.
  - rewrite lookup_insert_ne by done. rewrite lookup_insert_eq. cbn. by rewrite put_kv_value.
  - unfold kv_field. rewrite lookup_insert_ne by done. rewrite lookup_insert_eq. apply put_kv_mod.
  - rewrite lookup_insert_eq. cbn. by rewrite put_kv_value.
Qed.

(** The comparison with the processed revision that was read. *)
Definition processed_seen (fence : ControllerCommitFence) (c : Compare) (s : S) : Prop :=
  ∀ s', evolves s s' → compare_holds (keyspace s') c = true →
    ∀ text, kv_value <$> keyspace s' !! processed_key backend = Some text →
      ∃ r, parse_i64 text = Some r ∧ (r ≤ revision_value (observed_revision fence))%Z.

Lemma publish_commits fence ext pend prev c s s1 s2 :
  processed_seen fence c s → rely s s1 →
  forallb (compare_holds (keyspace s1)) (publish_compares backend fence c prev) = true →
  effect_of (keyspace s1) (head s1) (publish_operations backend fence ext pend)
    (keyspace s2) (head s2) →
  head s2 = (head s1 + 1)%Z ∧
  publish_step fence ext pend prev (control_view backend (keyspace s1)) (control_view backend (keyspace s2)) ∧
  ∀ key, key ∉ output_keys backend → keyspace s2 !! key = keyspace s1 !! key.
Proof.
  intros Hseen Hs1 Hc [Hh Hk]. unfold publish_compares in Hc. rewrite forallb_app in Hc.
  apply andb_true_iff in Hc as [Hc Hlive]. cbn [forallb compare_holds] in Hc. reflect_bools.
  destruct (published_keyspace (head s1 + 1) fence ext pend (keyspace s1))
    as (Hframe & Hext & Hpend & Hqueue & Hproc).
  split; [done|]. split; [|by rewrite Hk]. rewrite Hk.
  assert (∀ k, controller_active_key backend ∉ output_keys backend ∧ marker_key backend ∉ output_keys backend ∧
            live_key backend k ∉ output_keys backend) as Hfr.
  { intros k. unfold output_keys. split_and!; apply not_elem_of_cons; (split; [|apply not_elem_of_cons; split;
      [|apply not_elem_of_cons; split; [|apply not_elem_of_nil]]]);
      first [by apply metadata_keys_ne | intros Heq; by eapply metadata_active_ne
            | intros Heq; by eapply metadata_live_ne]. }
  split; cbn [control_view view_controller view_input view_queue view_session view_processed
    view_external view_pending].
  - destruct (keyspace s1 !! controller_active_key backend) as [kv|] eqn:Ha; [|done].
    unfold kv_field in *. rewrite Ha in *. cbn in *. congruence.
  - done.
  - destruct prev as [r|]; cbn in *; reflect_bools; [done|]. unfold kv_field.
    by erewrite version_zero.
  - intros i n Hn. rewrite forallb_forall in Hlive.
    assert (compare_holds (keyspace s1) (session_compare backend (i, n)) = true) as Hcmp.
    { apply Hlive, list_elem_of_In, list_elem_of_fmap. exists (i, n).
      split; [done|]. by apply elem_of_entries. }
    by apply bool_decide_eq_true_1 in Hcmp.
  - intros text Htext. apply (Hseen s1); [by eapply rely_evolves|done|done].
  - by rewrite Hext, Hpend, Hproc.
  - split.
    + unfold kv_field. destruct (Hfr (MkInstanceId "")) as (Ha & Hm & _).
      by rewrite (Hframe _ Ha), (Hframe _ Hm).
    + intros i. destruct (Hfr i) as (_ & _ & Hl). by rewrite (Hframe _ Hl).
  - rewrite Hqueue. unfold kv_field. destruct (keyspace s1 !! pending_key backend) as [kv|] eqn:Hp.
    + apply kv_bounds in Hp as (_ & _ & Hle & _). lia.
    + pose proof (head_pos s1). lia.
Qed.
(** The store step of a publication: the abstract step, and nothing else. *)
Definition publish_commit (fence : ControllerCommitFence) (ext pend : string) (prev : option Revision)
    (s1 s2 : S) : Prop :=
  publish_step fence ext pend prev (control_view backend (keyspace s1)) (control_view backend (keyspace s2)) ∧
  head s2 = (head s1 + 1)%Z ∧
  ∀ key, key ∉ output_keys backend → keyspace s2 !! key = keyspace s1 !! key.

(** How a publication that starts in [s] may end. *)
Definition publish_outcome (fence : ControllerCommitFence) (ext pend : string) (prev : option Revision)
    (s : S) (tr : list (observation S)) (r : result Revision CoordinationError) : Prop :=
  match r with
  | Ok revision => ∃ s1 s2, rely s s1 ∧ tr = [Committed s1 s2] ∧ revision_value revision = head s2 ∧
                            publish_commit fence ext pend prev s1 s2
  | Err (Etcd _) => tr = [] ∨ ∃ s1 s2, rely s s1 ∧ tr = [Committed s1 s2] ∧
                                       publish_commit fence ext pend prev s1 s2
  | Err _ => tr = []
  end.

Lemma outcome_later fence ext pend prev s s1 tr r :
  rely s s1 → publish_outcome fence ext pend prev s1 tr r → publish_outcome fence ext pend prev s tr r.
Proof.
  intros Hs. assert (∀ s', rely s1 s' → rely s s') as Htrans by (intros; by etrans).
  destruct r as [rev|[]]; cbn; try done; naive_solver.
Qed.

(** What is read of the processed revision is still true where the comparison
    holds. *)
Lemma processed_seen_none fence s : processed_seen fence (CompareVersion (processed_key backend) 0) s.
Proof.
  intros s' _ Hc text Htext. cbn in Hc. apply bool_decide_eq_true_1 in Hc.
  by rewrite (version_zero s') in Htext.
Qed.

Lemma processed_seen_some fence kv value s :
  keyspace s !! processed_key backend = Some kv → processed_value kv = Ok value →
  newer_than value fence = false →
  processed_seen fence (CompareModRevision (processed_key backend) (kv_mod_revision kv)) s.
Proof.
  intros Hkv Hval Hnew s' Hev Hc text Htext. cbn in Hc. apply bool_decide_eq_true_1 in Hc.
  rewrite (unchanged_since s s' _ kv Hev Hkv Hc) in Htext. injection Htext as <-.
  unfold processed_value in Hval. destruct (utf8_valid _); [|done].
  destruct (parse_i64 (kv_value kv)) as [v|]; [|done]. exists v. split; [done|].
  unfold Revision_new in Hval. destruct (v <=? 0)%Z; [done|]. injection Hval as <-.
  unfold newer_than in Hnew. cbn in Hnew. lia.
Qed.

Lemma processed_value_error kv e : processed_value kv = Err e → e = InvalidValue ∨ ∃ r, e = InvalidRevision r.
Proof.
  unfold processed_value, Revision_new. destruct (utf8_valid _); [|naive_solver].
  destruct (parse_i64 _) as [v|]; [|naive_solver]. destruct (v <=? 0)%Z; naive_solver.
Qed.

Lemma publish_once_outcome fence ext pend prev c retry s :
  processed_seen fence c s →
  (∀ s1, ensures env retry s1 (λ tr _ r, publish_outcome fence ext pend prev s1 tr r)) →
  ensures env (publish_once backend fence ext pend prev c retry) s
    (λ tr _ r, publish_outcome fence ext pend prev s tr r).
Proof.
  intros Hseen Hretry.
  assert (∀ s1, rely s s1 → ensures env retry s1 (λ tr _ r, publish_outcome fence ext pend prev s tr r))
    as Hlater.
  { intros s1 Hs1. eapply holds_mono; [apply Hretry|]. intros tr s' r. by apply outcome_later. }
  assert (∀ s1 e, is_transient e = false → ensures env (Ret (Err e)) s1
    (λ tr _ r, publish_outcome fence ext pend prev s tr r)) as Hfail.
  { intros s1 e He. apply (ensures_ret env rely). intros _ _. by destruct e. }
  apply (ensures_txn env rely).
  - intros s1 s2 Hs1 Hc He. cbn [succeeded txn_header]. rewrite revision_of_head.
    apply (ensures_ret env rely). intros s' _.
    destruct (publish_commits fence ext pend prev c s s1 s2 Hseen Hs1 Hc He) as (Hh & Hstep & Hframe).
    rewrite commit_changed by done. exists s1, s2. by split_and!.
  - intros s1 Hs1 _. cbn [succeeded].
    eapply ensures_quiet; [apply quiet_authority_matches| |by left]. intros [|] s2 Hs2; [|by apply Hfail].
    eapply ensures_quiet; [apply quiet_pending_changed| |by left]. intros changed s3 Hs3.
    eapply ensures_quiet; [destruct changed; [apply quiet_ok|apply quiet_input_changed]| |by left].
    intros [|] s4 Hs4; [by apply Hfail|]. apply (ensures_get env rely); [|by left]. intros s5 Hs5.
    assert (rely s s5) by (do 4 (etrans; [done|]); done). cbn [get_kvs].
    destruct (select_kvs _ _ _) as [|kv kvs]; [by apply Hlater|].
    destruct (processed_value kv) as [v|e] eqn:Hv.
    + destruct (newer_than v fence); [by apply Hfail|by apply Hlater].
    + apply Hfail. apply processed_value_error in Hv as [->|[r ->]]; done.
  - intros text s' _. by left.
  - intros text s1 s2 s' Hs1 Hc He _.
    destruct (publish_commits fence ext pend prev c s s1 s2 Hseen Hs1 Hc He) as (Hh & Hstep & Hframe).
    rewrite commit_changed by done. right. exists s1, s2. by split_and!.
Qed.

Lemma publish_attempts_outcome n fence ext pend prev s :
  ensures env (publish_attempts backend n fence ext pend prev) s
    (λ tr _ r, publish_outcome fence ext pend prev s tr r).
Proof.
  revert s. induction n as [|n IH]; intros s; cbn [publish_attempts].
  { apply (ensures_ret env rely). by intros s' _. }
  apply (ensures_get env rely); [|by left]. intros s1 Hs1. unfold processed_comparison.
  cbn [get_kvs select_kvs]. eapply holds_mono; [|intros tr s' r; by apply outcome_later].
  destruct (keyspace s1 !! processed_key backend) as [kv|] eqn:Hkv.
  - destruct (processed_value kv) as [value|e] eqn:Hv; cbn [fst snd].
    + destruct (newer_than value fence) eqn:Hnew.
      { apply (ensures_ret env rely). by intros s' _. }
      apply publish_once_outcome; [by eapply processed_seen_some|done].
    + apply (ensures_ret env rely). intros s' _.
      apply processed_value_error in Hv as [->|[r ->]]; done.
  - cbn [fst snd]. apply publish_once_outcome; [apply processed_seen_none|done].
Qed.
End publication_facts.

(** When a publication can go through. *)
Record publish_ready (fence : ControllerCommitFence) (pending_revision : option Revision)
    (v : ControlView) : Prop := {
  ready_leads : view_controller v = Some (fence_controller fence, fence_lease fence);
  ready_input : view_input v = revision_value (observed_revision fence);
  ready_queue : view_queue v = match pending_revision with Some r => revision_value r | None => 0%Z end;
  ready_sessions : ∀ i n, fence_sessions fence !! i = Some n → view_session v i = Some (session_text n);
  ready_newest : ∀ text, view_processed v = Some text → utf8_valid text = true ∧
    ∃ r, parse_i64 text = Some r ∧ (0 < r ≤ revision_value (observed_revision fence))%Z
}.

Section publication_ready.
Context {S : Type} `{EtcdLaws S} (backend : EtcdCoordination).

Lemma ready_compares fence prev c (s : S) :
  publish_ready fence prev (control_view backend (keyspace s)) → compare_holds (keyspace s) c = true →
  forallb (compare_holds (keyspace s)) (publish_compares backend fence c prev) = true.
Proof.
  intros [Hleads Hinput Hqueue Hsess _] Hc. cbn in Hleads, Hinput, Hqueue, Hsess.
  unfold publish_compares. rewrite forallb_app. apply andb_true_iff. split.
  - cbn [forallb compare_holds]. unfold kv_field in *.
    destruct (keyspace s !! controller_active_key backend) as [kv|]; [|done].
    injection Hleads as Hv Hl. cbn [fmap option_fmap option_map].
    rewrite Hc, Hv, Hl, Hinput, !(bool_decide_eq_true_2 _ eq_refl). cbn [andb].
    destruct prev as [r|]; cbn [pending_revision_compare compare_holds]; unfold kv_field.
    + by rewrite bool_decide_eq_true_2.
    + rewrite bool_decide_eq_true_2; [done|].
      destruct (keyspace s !! pending_key backend) as [kv'|] eqn:Hp; [|done].
      apply kv_bounds in Hp. lia.
  - apply forallb_forall. intros cmp Hin. apply list_elem_of_In, list_elem_of_fmap in Hin as ([i n] & -> & Hin).
    apply bool_decide_eq_true_2, Hsess. by apply elem_of_entries.
Qed.

(** The value read of the processed revision lets the publication go on. *)
Lemma ready_processed fence prev kv (s : S) :
  publish_ready fence prev (control_view backend (keyspace s)) →
  keyspace s !! processed_key backend = Some kv →
  ∃ value, processed_value kv = Ok value ∧ newer_than value fence = false.
Proof.
  intros [_ _ _ _ Hnew] Hkv. cbn in Hnew. rewrite Hkv in Hnew.
  destruct (Hnew (kv_value kv) eq_refl) as (Hutf & v & Hv & Hpos & Hle).
  unfold processed_value. rewrite Hutf, Hv. unfold Revision_new.
  destruct (v <=? 0)%Z eqn:Hz; [lia|]. exists (MkRevision v). split; [done|].
  unfold newer_than. cbn. lia.
Qed.

Lemma ready_comparison fence prev (s : S) :
  publish_ready fence prev (control_view backend (keyspace s)) →
  ∃ c, processed_comparison backend (select_kvs (keyspace s) (processed_key backend) false) = Ok c ∧
    forallb (compare_holds (keyspace s)) (publish_compares backend fence c.1 prev) = true ∧
    (match c.2 with Some value => newer_than value fence | None => false end) = false.
Proof.
  intros Hready. unfold select_kvs, processed_comparison.
  destruct (keyspace s !! processed_key backend) as [kv|] eqn:Hkv.
  - destruct (ready_processed fence prev kv s Hready Hkv) as (v & -> & Hv).
    eexists. split_and!; [done| |done]. apply ready_compares; [done|]. cbn. unfold kv_field.
    rewrite Hkv. by apply bool_decide_eq_true_2.
  - eexists. split_and!; [done| |done]. apply ready_compares; [done|]. cbn. unfold kv_field. by rewrite Hkv.
Qed.

(** The whole publication of a ready plan, without interference. *)
Lemma ready_runs n fence ext pend prev (s : S) :
  publish_ready fence prev (control_view backend (keyspace s)) →
  ∃ tr s' revision, runs alone (publish_attempts backend (Datatypes.S n) fence ext pend prev) s tr s'
    (Ok revision).
Proof.
  intros Hready. cbn [publish_attempts].
  destruct (serve_total _ (Get (processed_key backend) false None) s I) as (a & s1 & Hget).
  pose proof (serve_documented _ _ _ _ _ Hget) as (Hk & _ & _ & Hkvs).
  rewrite <-Hk in Hready. destruct (ready_comparison fence prev s1 Hready) as (c & Hc & Hall & Hnew).
  destruct (serve_total _ (Transact (publish_compares backend fence c.1 prev)
    (publish_operations backend fence ext pend)) s1) as ([hd ok] & s2 & Htxn);
    [repeat constructor|].
  pose proof (serve_documented _ _ _ _ _ Htxn) as (Hhd & Hsucc & _).
  cbn [txn_header succeeded] in Hhd, Hsucc. rewrite Hall in Hsucc. subst hd ok.
  do 2 eexists. exists (MkRevision (head s2)).
  eapply runs_call; [exact Hget|]. rewrite (Hkvs eq_refl), <-Hk, Hc. rewrite Hnew.
  eapply runs_call; [exact Htxn|].
  cbn [succeeded txn_header]. rewrite revision_of_head. apply exec_ret.
Qed.

Lemma ready_never_refused n fence ext pend prev (s : S) :
  publish_ready fence prev (control_view backend (keyspace s)) →
  ensures alone (publish_attempts backend (Datatypes.S n) fence ext pend prev) s
    (λ _ _ r, is_ok r = true ∨ ∃ text, r = Err (Etcd text)).
Proof.
  intros Hready. cbn [publish_attempts]. apply (ensures_get alone same_view); [|eauto].
  intros s1 [Hk _]. rewrite <-Hk in Hready. cbn [get_kvs].
  destruct (ready_comparison fence prev s1 Hready) as (c & -> & Hall & Hnew). rewrite Hnew.
  apply (ensures_txn alone same_view); [| |by eauto|by eauto].
  - intros s2 s3 _ _ _. cbn [succeeded txn_header]. rewrite revision_of_head.
    apply (ensures_ret alone same_view). intros _ _. by left.
  - intros s2 [Hk2 _] Hf. rewrite Hk2, Hall in Hf. done.
Qed.
End publication_ready.

(** * Theorems *)

(** C3: publishing the outputs of a plan is one atomic step on the control
    plane: whatever other clients do meanwhile, a publication that returns a
    revision has committed exactly one transaction, at a moment at which its
    author still led, the input revision, the queue and the sessions it planned
    for were current and no newer input had been processed, and that changed
    only the three outputs; a publication that is refused has changed nothing,
    and one whose answer was lost has done the step once or not at all. *)
Theorem publish_refines_atomic {S : Type} `{EtcdLaws S} (env : S → S → Prop) backend fence ext pend
    prev s tr s' r :
  (∀ s s', env s s' → evolves s s') →
  runs env (publish_controller_outputs_with_fence backend fence ext pend prev) s tr s' r →
  publish_outcome evolves backend fence ext pend prev s tr r.
Proof.
  intros Henv Hrun. pose proof (evolves_rely env Henv) as Hrely.
  unfold publish_controller_outputs_with_fence in Hrun.
  destruct (negb _).
  - by apply exec_inv in Hrun as (s0 & _ & -> & _ & ->).
  - exact (publish_attempts_outcome env evolves backend 32 fence ext pend prev s tr s' r Hrun).
Qed.

(** A leader whose plan is current and whom nobody disturbs publishes it:
    the operation can run, it ends with success or with a transport error, never
    with a refusal, and on success the outputs are in the store. *)
Theorem publish_succeeds {S : Type} `{EtcdLaws S} backend fence ext pend prev (s : S) :
  fence_namespace fence = prefix backend →
  publish_ready fence prev (control_view backend (keyspace s)) →
  (∃ tr s' revision,
     runs alone (publish_controller_outputs_with_fence backend fence ext pend prev) s tr s' (Ok revision)) ∧
  ∀ tr s' r, runs alone (publish_controller_outputs_with_fence backend fence ext pend prev) s tr s' r →
    is_ok r = true ∨ ∃ text, r = Err (Etcd text).
Proof.
  intros Hns Hready. unfold publish_controller_outputs_with_fence.
  rewrite Hns, String.eqb_refl. cbn [negb].
  split; [by apply ready_runs|]. by apply ready_never_refused.
Qed.

(** ** A small control plane *)

Definition ex_backend : EtcdCoordination := MkEtcdCoordination "/clustodian" "demo".

Lemma ex_backend_ok : backend_ok ex_backend.
Proof. vm_compute. reflexivity. Qed.

(** Controller a leads under lease 7, node a is live with session 1. *)
Definition ex_store : mem_store :=
  mem_effect (MkMem ∅ 1 1)
    [ TxnPut (controller_active_key ex_backend) "controller-a" 7;
      TxnPut (live_key ex_backend (MkInstanceId "node-a")) "1" 5;
      authoritative_input_marker_operation ex_backend ].

Definition ex_fence : ControllerCommitFence :=
  commit_fence (MkControllerAuthority "/clustodian" "controller-a" 7) (MkRevision 2)
    {[MkInstanceId "node-a" := MkSessionId 1]}.

Definition ex_publish : prog Revision :=
  publish_controller_outputs_with_fence ex_backend ex_fence "{}" "[]" None.

Lemma ex_publish_result : snd <$> run_mem 20 ex_publish ex_store = Some (Ok (MkRevision 3)).
Proof. vm_compute. reflexivity. Qed.

Lemma publish_refines_atomic_witness :
  ∃ m1 m2 : mem_store, publish_commit ex_backend ex_fence "{}" "[]" None m1 m2 ∧ head m2 = 3%Z.
Proof.
  pose proof ex_publish_result as Hres.
  destruct (run_mem 20 ex_publish ex_store) as [[[tr m'] r]|] eqn:Hrun; [|discriminate Hres].
  injection Hres as ->. apply run_mem_sound in Hrun.
  destruct (publish_refines_atomic alone ex_backend ex_fence "{}" "[]" None ex_store tr m'
    (Ok (MkRevision 3)) alone_evolves Hrun) as (m1 & m2 & _ & _ & Hh & Hc).
  exists m1, m2. split; [exact Hc|]. symmetry. exact Hh.
Defined.

Lemma publish_succeeds_witness :
  ∃ tr m' revision, runs alone ex_publish ex_store tr m' (Ok revision).
Proof.
  refine (proj1 (publish_succeeds ex_backend ex_fence "{}" "[]" None ex_store _ _)); [reflexivity|].
  split.
  - vm_compute. reflexivity.
  - vm_compute. reflexivity.
  - vm_compute. reflexivity.
  - intros i n Hn. cbn in Hn. apply lookup_singleton_Some in Hn as [<- <-]. vm_compute. reflexivity.
  - intros text Htext. vm_compute in Htext. discriminate Htext.
Defined.
