(* ===== verification/InputMarker.v ===== *)
(** * The input marker

    Every supported write of an input key (liveness, current states, metadata
    that is not an output or a progress record) also writes the marker
    [internal/authoritative-input] in the same transaction, so the modification
    revision of the marker tells whether the input has moved.  This file states
    that discipline as a relation between stores and proves that the writers of
    Metadata keep it; the reconcile loop relies on it. *)

From S2P Require Import Prelude Identity Keys Snapshot Etcd Metadata.

(** The keys that count as input: [is_authoritative_key] of the snapshot. *)
Definition input_key (backend : EtcdCoordination) (key : string) : bool :=
  match parse_relative_key backend key with
  | Ok relative => is_authoritative_key relative (metadata_name relative)
  | Err _ => false
  end.

(** The input in [ks'] is that in [ks], except that keys of a lease may have gone
    with it. *)
Definition input_unchanged (backend : EtcdCoordination) (ks ks' : keyspace_t) : Prop :=
  ∀ key, input_key backend key = true →
    ks' !! key = ks !! key ∨ (ks' !! key = None ∧ ∃ kv, ks !! key = Some kv ∧ kv_lease kv ≠ 0%Z).

(** While the marker stays, the input stays. *)
Definition disciplined {S} `{EtcdStore S} (backend : EtcdCoordination) (s s' : S) : Prop :=
  evolves s s' ∧
  ∀ kv, keyspace s !! marker_key backend = Some kv → keyspace s' !! marker_key backend = Some kv →
    input_unchanged backend (keyspace s) (keyspace s').

Section discipline.
Context {S : Type} `{EtcdLaws S} (backend : EtcdCoordination).

Lemma input_unchanged_refl ks : input_unchanged backend ks ks.
Proof. intros key _. by left. Qed.

#[export] Instance disciplined_preorder : PreOrder (disciplined (S := S) backend).
Proof.
  split.
  - intros s. split; [done|]. intros kv _ _. apply input_unchanged_refl.
  - intros s1 s2 s3 [Hev12 H12] [Hev23 H23]. split; [by etrans|]. intros kv Hkv1 Hkv3.
    assert (keyspace s2 !! marker_key backend = Some kv) as Hkv2.
    { destruct Hev23 as (_ & Hold & _). apply Hold; [done|].
      apply kv_bounds in Hkv1 as (_ & _ & Hle & _). destruct Hev12 as (Hh & _). lia. }
    specialize (H12 kv Hkv1 Hkv2). specialize (H23 kv Hkv2 Hkv3). intros key Hkey.
    destruct (H12 key Hkey) as [Heq12|[Hnone Hl]], (H23 key Hkey) as [Heq23|[Hnone' (kv' & Hkv' & Hl')]];
      [left; congruence|right..|congruence].
    + split; [done|]. exists kv'. split; [congruence|done].
    + split; [congruence|done].
Qed.

Lemma same_view_disciplined (s s' : S) : same_view s s' → disciplined backend s s'.
Proof.
  intros Hview. split; [by apply same_view_evolves|]. destruct Hview as [Hk _]. intros kv _ _.
  rewrite Hk. apply input_unchanged_refl.
Qed.

(** What a program may rely on when the others keep the discipline. *)
Lemma disciplined_rely (env : S → S → Prop) :
  (∀ s s', env s s' → disciplined backend s s') → Rely env (disciplined backend).
Proof. intros Henv. split; [apply _|done|apply same_view_disciplined|by intros s s' [? _]]. Qed.

(** ** Which transactions keep the discipline *)

Definition ops_disciplined (ops : list TxnOp) : Prop :=
  (∃ value lease, TxnPut (marker_key backend) value lease ∈ ops) ∨
  (∀ op, op ∈ ops → op_key op = marker_key backend ∨ input_key backend (op_key op) = false).

Lemma apply_ops_other r ops ks key :
  (∀ op, op ∈ ops → op_key op ≠ key) → foldl (apply_op r) ks ops !! key = ks !! key.
Proof.
  revert ks. induction ops as [|op ops IH]; intros ks Hne; [done|]. cbn [foldl].
  rewrite IH by (intros op' Hop; apply Hne; by right).
  assert (op_key op ≠ key) as Hop by (apply Hne; left).
  destruct op as [k v l|k]; cbn in Hop |- *; [by rewrite lookup_insert_ne|by rewrite lookup_delete_ne].
Qed.

(** A put of a key gives it a new revision, unless the key goes away. *)
Lemma apply_ops_written r ops ks key kv :
  (∃ op, op ∈ ops ∧ op_key op = key) → foldl (apply_op r) ks ops !! key = Some kv →
  kv_mod_revision kv = r.
Proof.
  revert ks. induction ops as [|op ops IH] using rev_ind; intros ks (op' & Hin & Hkey) Hkv;
    [by apply elem_of_nil in Hin|].
  rewrite foldl_app in Hkv. cbn [foldl] in Hkv.
  destruct (decide (op_key op = key)) as [Heq|Hne].
  - destruct op as [k v l|k]; cbn in Heq, Hkv; subst k.
    + rewrite lookup_insert_eq in Hkv. injection Hkv as <-. apply put_kv_mod.
    + by rewrite lookup_delete_eq in Hkv.
  - apply (IH ks); [|by destruct op; cbn in Hne, Hkv; rewrite ?lookup_insert_ne, ?lookup_delete_ne in Hkv].
    exists op'. split; [|done]. apply elem_of_app in Hin as [Hin|Hin]; [done|].
    apply list_elem_of_singleton in Hin as ->. done.
Qed.

(** The puts of a key agree: it has their value. *)
Lemma apply_ops_put r ops ks key value lease :
  TxnPut key value lease ∈ ops →
  (∀ op, op ∈ ops → op_key op = key → op = TxnPut key value lease) →
  ∃ kv, foldl (apply_op r) ks ops !! key = Some kv ∧ kv_value kv = value ∧ kv_lease kv = lease ∧
        kv_mod_revision kv = r.
Proof.
  induction ops as [|op ops IH] using rev_ind; intros Hin Hall; [by apply elem_of_nil in Hin|].
  rewrite foldl_app. cbn [foldl]. destruct (decide (op_key op = key)) as [Heq|Hne].
  - rewrite (Hall op) by (first [done|apply elem_of_app; right; apply list_elem_of_singleton; done]). cbn [apply_op]. eexists.
    rewrite lookup_insert_eq. split; [done|]. unfold put_kv. by destruct (_ !! key).
  - destruct IH as (kv & Hkv & Hrest).
    + apply elem_of_app in Hin as [Hin|Hin]; [done|]. apply list_elem_of_singleton in Hin as <-. done.
    + intros op' Hop'. apply Hall. apply elem_of_app. by left.
    + exists kv. split; [|done].
      by destruct op; cbn in Hne |- *; rewrite ?lookup_insert_ne, ?lookup_delete_ne.
Qed.

Lemma effect_disciplined (s s' : S) ops :
  ops_disciplined ops → effect_of (keyspace s) (head s) ops (keyspace s') (head s') →
  disciplined backend s s'.
Proof.
  intros Hops Heff. split; [by eapply effect_evolves|]. intros kv Hkv Hkv'.
  unfold effect_of in Heff. destruct (existsb _ _); destruct Heff as [Hh Hk];
    [|rewrite Hk; apply input_unchanged_refl].
  assert (∀ op, op ∈ ops → op_key op ≠ marker_key backend) as Hnone.
  { intros op Hop Heq. rewrite Hk in Hkv'. apply apply_ops_written in Hkv'; [|by exists op].
    apply kv_bounds in Hkv as (_ & _ & Hle & _). lia. }
  destruct Hops as [(v & l & Hin)|Hall]; [by destruct (Hnone _ Hin)|].
  intros key Hkey. left. rewrite Hk. apply apply_ops_other. intros op Hop Heq. subst key.
  destruct (Hall op Hop) as [Hm|Hf]; [by destruct (Hnone op Hop)|congruence].
Qed.

(** ** Programs that keep it *)

Definition observed_ok (o : observation S) : Prop :=
  match o with Committed s1 s2 => disciplined backend s1 s2 | _ => True end.

Definition keeps_marker {A} (t : itree coordE A) : Prop :=
  ∀ env : S → S → Prop, (∀ s s', env s s' → evolves s s') → commits env observed_ok t.

Lemma keeps_ret {A} (a : A) : keeps_marker (Ret a).
Proof. intros env _. apply commits_ret. Qed.

Lemma keeps_bind {A B} (t : itree coordE A) (k : A → itree coordE B) :
  keeps_marker t → (∀ a, keeps_marker (k a)) → keeps_marker (ITree.bind t k).
Proof. intros Ht Hk env Henv. apply commits_bind; [by apply Ht|]. intros a. by apply Hk. Qed.

Lemma keeps_call {A} (c : request A) :
  (∀ s a s', serve c s a s' → disciplined backend s s') → keeps_marker (call c).
Proof. intros Hc env _. apply commits_call. intros s a s' Hs _. by eapply Hc. Qed.

Lemma serve_get_disciplined key p at_revision s a s' :
  serve (Get key p at_revision) s a s' → disciplined backend s s'.
Proof. intros (Hk & Hh & _)%serve_documented. by apply same_view_disciplined. Qed.

Lemma serve_txn_disciplined when ops s a s' :
  ops_disciplined ops → serve (Transact when ops) s a s' → disciplined backend s s'.
Proof.
  intros Hops (_ & _ & Hd)%serve_documented. destruct (succeeded a); [by eapply effect_disciplined|].
  by apply same_view_disciplined.
Qed.

(** Ending a lease takes only the keys of that lease away. *)
Lemma serve_revoke_disciplined lease s a s' :
  serve (LeaseRevoke lease) s a s' → disciplined backend s s'.
Proof.
  intros Hserve. split; [by eapply serve_evolves|]. apply serve_documented in Hserve as (_ & _ & Hsub & Hends).
  intros _ _ _ key _. destruct (keyspace s' !! key) as [kv|] eqn:Hkv.
  - left. symmetry. by eapply lookup_weaken.
  - destruct (keyspace s !! key) as [kv|] eqn:Hold; [|by left].
    right. split; [done|]. exists kv. split; [done|]. destruct (Hends key kv Hold Hkv) as [-> ?]. done.
Qed.

Lemma serve_grant_disciplined ttl s a s' : serve (LeaseGrant ttl) s a s' → disciplined backend s s'.
Proof. intros (Hk & Hh & _)%serve_documented. by apply same_view_disciplined. Qed.

Lemma serve_put_disciplined key value lease s a s' :
  ops_disciplined [TxnPut key value lease] → serve (Put key value lease) s a s' →
  disciplined backend s s'.
Proof. intros Hops [Hd _]%serve_documented. by eapply effect_disciplined. Qed.
End discipline.

(** ** The writers of Metadata *)

Section writers.
Context {S : Type} `{EtcdLaws S} (backend : EtcdCoordination) (Hbackend : backend_ok backend).

Lemma metadata_name_key k : utf8_valid k = true → metadata_name ("metadata/" +:+ encode_segment k) = Some k.
Proof. intros Hk. unfold metadata_name. by rewrite strip_prefix_app, decode_encode, Hk. Qed.

(** Among the metadata, outputs and progress records are no input. *)
Lemma input_metadata_key k :
  utf8_valid k = true →
  input_key backend (metadata_key backend k) =
    negb (starts_with "controller/output/" k)
    && negb (starts_with "participant/" k && ends_with "/processed-revision" k).
Proof.
  intros Hk. unfold input_key. rewrite relative_metadata_key, metadata_name_key by done.
  unfold is_authoritative_key.
  assert (starts_with "controller/election/" ("metadata/" +:+ encode_segment k) = false) as -> by done.
  assert (String.eqb ("metadata/" +:+ encode_segment k) INTERNAL_SESSION_SEQUENCE = false) as -> by done.
  cbn [negb]. by rewrite !andb_true_r.
Qed.

Lemma with_marker_disciplined key op :
  utf8_valid key = true → op_key op = metadata_key backend key →
  ops_disciplined backend (with_marker backend key op).
Proof.
  intros Hutf Hop. unfold with_marker. destruct (is_authoritative_metadata_key key) eqn:Hauth.
  - left. exists "1", 0%Z. apply elem_of_cons. right. left.
  - right. intros op' ->%list_elem_of_singleton. rewrite Hop.
    unfold is_authoritative_metadata_key in Hauth.
    destruct (String.eqb key AUTHORITATIVE_INPUT_MARKER) eqn:Hm.
    + left. apply String.eqb_eq in Hm as ->. done.
    + right. rewrite input_metadata_key by done. exact Hauth.
Qed.

Abbreviation keeps := (keeps_marker (S := S) backend).

Lemma keeps_get {A} key p at_revision (k : GetResponse → prog A) :
  (∀ a, keeps (k a)) → keeps (let! x := call (Get key p at_revision) in k x).
Proof.
  intros Hk. apply keeps_bind; [apply keeps_call; apply serve_get_disciplined|].
  intros [a|e]; [done|apply keeps_ret].
Qed.

Lemma keeps_txn {A} when ops (k : TxnResponse → prog A) :
  ops_disciplined backend ops → (∀ a, keeps (k a)) → keeps (let! x := call (Transact when ops) in k x).
Proof.
  intros Hops Hk. apply keeps_bind; [apply keeps_call; intros s a s'; by apply serve_txn_disciplined|].
  intros [a|e]; [done|apply keeps_ret].
Qed.

Lemma keeps_try {A B} (t : prog A) (k : A → prog B) :
  keeps t → (∀ a, keeps (k a)) → keeps (let! x := t in k x).
Proof. intros Ht Hk. apply keeps_bind; [done|]. intros [a|e]; [done|apply keeps_ret]. Qed.

Lemma keeps_put_metadata key value lease :
  utf8_valid key = true → keeps (put_metadata backend key value lease).
Proof.
  intros Hutf. unfold put_metadata.
  destruct (is_authoritative_metadata_key key) eqn:Hauth.
  - apply keeps_txn; [|intros; apply keeps_ret]. left. exists "1", 0%Z. apply elem_of_cons. right. left.
  - apply keeps_try; [|intros; apply keeps_ret]. apply keeps_call. intros s a s'.
    apply serve_put_disciplined.
    pose proof (with_marker_disciplined key (TxnPut (metadata_key backend key) value lease) Hutf eq_refl) as Hops.
    unfold with_marker in Hops. by rewrite Hauth in Hops.
Qed.

Lemma keeps_cas key ops when :
  utf8_valid key = true → op_key ops = metadata_key backend key →
  keeps (let! response := call (Transact when (with_marker backend key ops)) in
         Ret (cas_result response)).
Proof. intros Hutf Hop. apply keeps_txn; [by apply with_marker_disciplined|]. intros. apply keeps_ret. Qed.

Lemma keeps_put_absent key value :
  utf8_valid key = true → keeps (compare_and_put_absent backend key value).
Proof. intros Hutf. apply keeps_txn; [by apply with_marker_disciplined|]. intros. apply keeps_ret. Qed.

Lemma outputs_disciplined fence ext pend :
  ops_disciplined backend (publish_operations backend fence ext pend).
Proof.
  right. intros op Hop. right. unfold publish_operations in Hop.
  repeat (apply elem_of_cons in Hop as [->|Hop]; [by apply input_metadata_key|]).
  by apply elem_of_nil in Hop.
Qed.

Lemma marker_disciplined ops : authoritative_input_marker_operation backend ∈ ops → ops_disciplined backend ops.
Proof. intros Hin. left. by exists "1", 0%Z. Qed.

Lemma keeps_authority_matches c l : keeps (authority_matches backend c l).
Proof. apply keeps_get. intros a. destruct (get_kvs a); apply keeps_ret. Qed.

Lemma keeps_sessions_changed l : keeps (sessions_changed backend l).
Proof.
  induction l as [|[i n] l IH]; [apply keeps_ret|]. apply keeps_get. intros a.
  destruct (get_kvs a) as [|kv kvs]; [apply keeps_ret|]. destruct (String.eqb _ _); [done|apply keeps_ret].
Qed.

Lemma keeps_input_changed fence : keeps (input_fence_changed backend fence).
Proof.
  apply keeps_get. intros a. destruct (get_kvs a) as [|kv kvs]; [apply keeps_ret|].
  destruct (_ =? _)%Z; [apply keeps_sessions_changed|apply keeps_ret].
Qed.

Lemma keeps_publish_attempts n fence ext pend prev : keeps (publish_attempts backend n fence ext pend prev).
Proof.
  induction n as [|n IH]; [apply keeps_ret|]. cbn [publish_attempts]. apply keeps_get. intros a.
  destruct (processed_comparison _ _) as [c|]; [|apply keeps_ret].
  destruct (match c.2 with Some _ => _ | None => _ end); [apply keeps_ret|].
  unfold publish_once. apply keeps_txn; [apply outputs_disciplined|]. intros response.
  destruct (succeeded response); [apply keeps_ret|].
  apply keeps_try; [apply keeps_authority_matches|]. intros [|]; [|apply keeps_ret]. cbn [negb].
  apply keeps_try; [apply keeps_get; intros; apply keeps_ret|]. intros changed.
  apply keeps_try; [destruct changed; [apply keeps_ret|apply keeps_input_changed]|].
  intros [|]; [apply keeps_ret|]. apply keeps_get. intros latest.
  destruct (get_kvs latest) as [|kv kvs]; [done|].
  destruct (processed_value kv) as [v|]; [|apply keeps_ret]. by destruct (newer_than v fence); [apply keeps_ret|].
Qed.

Lemma keeps_publish fence ext pend prev :
  keeps (publish_controller_outputs_with_fence backend fence ext pend prev).
Proof.
  unfold publish_controller_outputs_with_fence.
  destruct (negb _); [apply keeps_ret|apply keeps_publish_attempts].
Qed.

Lemma keeps_record_expiry authority revision : keeps (record_lease_expiry backend authority revision).
Proof.
  unfold record_lease_expiry. destruct (negb _); [apply keeps_ret|].
  assert (∀ kvs retry, keeps retry → keeps (expiry_txn backend authority kvs retry)) as Htxn.
  { intros kvs retry Hretry. apply keeps_txn; [apply marker_disciplined; left|]. intros response.
    destruct (succeeded response); [apply keeps_ret|].
    apply keeps_try; [apply keeps_authority_matches|]. by intros [|]; [|apply keeps_ret]. }
  generalize 32%nat as n. induction n as [|n IH]; [apply keeps_ret|]. cbn [record_attempts].
  apply keeps_get. intros marker.
  match goal with |- keeps (match ?c with Ok _ => _ | Err _ => _ end) => destruct c as [[current|]|] end;
    [|by apply Htxn|apply keeps_ret].
  destruct (_ <=? _)%Z; [apply keeps_ret|by apply Htxn].
Qed.
End writers.
