(* ===== verification/SessionStore.v ===== *)
(** * Sessions in etcd

    Models [src/coordination/etcd/session.rs]: registration of a participant
    under a lease, allocation of session numbers, publication and injection of
    current states, and removal.  Every operation is a program over the etcd
    interface.  File Session models the same contract in memory. *)

From S2P Require Import Prelude Identity StateMaps Session Keys Snapshot.
From S2P Require Import Etcd Metadata InputMarker.

(** [std::time::Duration] *)
Record Duration := MkDuration { as_secs : N; subsec_nanos : N }.

Definition Duration_is_zero (d : Duration) : bool := ((as_secs d =? 0) && (subsec_nanos d =? 0))%N.

Record RegistrationOptions := MkRegistrationOptions {
  lease_ttl : Duration;
  default_initial_state : State;
  resource_initial_states : gmap ResourceId State
}.

Definition RegistrationOptions_new (ttl : Duration) : result RegistrationOptions CoordinationError :=
  if Duration_is_zero ttl || (as_secs ttl =? 0)%N || (Z.to_N i64_MAX <? as_secs ttl)%N
  then Err InvalidLeaseTtl
  else Ok (MkRegistrationOptions ttl OFFLINE ∅).

Definition with_default_initial_state (o : RegistrationOptions) (state : State) : RegistrationOptions :=
  MkRegistrationOptions (lease_ttl o) state (resource_initial_states o).

Definition with_resource_initial_state (o : RegistrationOptions) (resource : ResourceId) (state : State)
  : RegistrationOptions :=
  MkRegistrationOptions (lease_ttl o) (default_initial_state o)
    (<[resource := state]> (resource_initial_states o)).

(** [x as i64] *)
Definition as_i64 (x : N) : Z :=
  if (Z.of_N x <=? i64_MAX)%Z then Z.of_N x else (Z.of_N x - 2 ^ 64)%Z.

Definition ttl_seconds (o : RegistrationOptions) : Z := as_i64 (as_secs (lease_ttl o)).

Definition options_initial_state (o : RegistrationOptions) (resource : ResourceId) : State :=
  default (default_initial_state o) (resource_initial_states o !! resource).

Record EtcdParticipantSession := MkEtcdParticipantSession {
  eps_backend : EtcdCoordination;
  eps_instance : InstanceId;
  eps_session : SessionId;
  eps_lease : Z;
  registration_revision : Revision
}.

Definition MAX_CAS_RETRIES : nat := 32.
Definition CURRENT_STATE_DELETE_BATCH : nat := 100.

Section session_programs.
Variable backend : EtcdCoordination.

(** The operations that write the states of one resource. *)
Definition state_puts (instance : InstanceId) (session : SessionId) (resource : ResourceId)
    (states : gmap PartitionId State) : list TxnOp :=
  (λ '(partition, state),
     TxnPut (current_state_key backend instance session resource partition) (state_str state) 0)
    <$> entries states.

Definition publish_current_state (instance : InstanceId) (session : SessionId) (resource : ResourceId)
    (states : gmap PartitionId State) : prog Revision :=
  let! response := call (Transact
    [CompareValue (live_key backend instance) (session_text session)]
    (state_puts instance session resource states ++ [authoritative_input_marker_operation backend])) in
  if succeeded response then Ret (revision_from_header (txn_header response))
  else Ret (Err (StaleSession instance)).

Definition sequence_key : string := namespaced_key backend INTERNAL_SESSION_SEQUENCE.

(** The loop of [allocate_session]. *)
Fixpoint allocate_attempts (attempts : nat) : prog SessionId :=
  match attempts with
  | O => Ret (Err Contention)
  | S attempts =>
      let! response := call (Get sequence_key false None) in
      try! old :=
        (match get_kvs response with
         | kv :: _ =>
             let? value := parse_sequence (kv_value kv) in Ok (value, Some (kv_mod_revision kv))
         | [] => Ok (0%N, None)
         end) in
      match checked_add_u64 old.1 1 with
      | None => Ret (Err InvalidSession)
      | Some next =>
          let compare := match old.2 with
                         | Some revision => CompareModRevision sequence_key revision
                         | None => CompareVersion sequence_key 0
                         end in
          let! response := call (Transact [compare] [TxnPut sequence_key (pretty next) 0]) in
          if succeeded response then Ret (Ok (SessionId_from_sequence next))
          else allocate_attempts attempts
      end
  end.

Definition allocate_session : prog SessionId := allocate_attempts MAX_CAS_RETRIES.

(** The session a session key names: [key.rsplit('/').next()]. *)
Definition session_of_key (kv : KeyValue) : option SessionId :=
  if utf8_valid (kv_key kv) then
    match parse_session (default EmptyString (last (split_slash (kv_key kv)))) with
    | Ok session => Some session
    | Err _ => None
    end
  else None.

(** [Iterator::max] *)
Definition max_session (sessions : list SessionId) : option SessionId :=
  foldl (λ best session,
    match best with
    | None => Some session
    | Some b => Some (if (session_value b <=? session_value session)%N then session else b)
    end) None sessions.

Definition latest_session (instance : InstanceId) : prog (option SessionId) :=
  let! snapshot := raw_snapshot (session_prefix backend instance) true None in
  Ret (Ok (max_session (omap session_of_key snapshot.2))).

(** One record of the previous session, under the new session. *)
Definition carry_record (instance : InstanceId) (new_session : SessionId) (options : RegistrationOptions)
    (kv : KeyValue) : result (string * State) CoordinationError :=
  let? relative := parse_relative_key backend (kv_key kv) in
  let parts := split_slash relative in
  match parts !! 3%nat with
  | None => Err InvalidKey
  | Some encoded_resource =>
      let? text := decode_segment encoded_resource in
      let? resource := map_err (λ _, InvalidKey) (ResourceId_new text) in
      match parts !! 4%nat with
      | None => Err InvalidKey
      | Some encoded_partition =>
          let? text := decode_segment encoded_partition in
          let? partition := map_err (λ _, InvalidKey) (PartitionId_new text) in
          Ok (current_state_key backend instance new_session resource partition,
              options_initial_state options resource)
      end
  end.

Definition carried_state (instance : InstanceId) (previous_session : option SessionId)
    (new_session : SessionId) (options : RegistrationOptions) : prog (list (string * State)) :=
  match previous_session with
  | None => Ret (Ok [])
  | Some previous =>
      let! snapshot := raw_snapshot (current_state_session_prefix backend instance previous) true None in
      Ret (collect_results (carry_record instance new_session options) snapshot.2)
  end.

Definition registration_operations (instance : InstanceId) (session : SessionId) (lease : Z)
    (carried : list (string * State)) : list TxnOp :=
  [ TxnPut (live_key backend instance) (session_text session) lease;
    TxnPut (session_key backend instance session) "active" 0 ]
  ++ ((λ '(key, state), TxnPut key (state_str state) 0) <$> carried)
  ++ [authoritative_input_marker_operation backend].

Definition register (instance : InstanceId) (options : RegistrationOptions)
  : prog EtcdParticipantSession :=
  let! previous_session := latest_session instance in
  let! session := allocate_session in
  let! carried := carried_state instance previous_session session options in
  let! lease := call (LeaseGrant (ttl_seconds options)) in
  let! response := call (Transact [CompareVersion (live_key backend instance) 0]
    (registration_operations instance session lease carried)) in
  if succeeded response then
    try! revision := revision_from_header (txn_header response) in
    Ret (Ok (MkEtcdParticipantSession backend instance session lease revision))
  else
    let! _ := call (LeaseRevoke lease) in
    Ret (Err RegistrationLost).

Definition revoke_live (instance : InstanceId) (session : SessionId) : prog Revision :=
  let! response := call (Get (live_key backend instance) false None) in
  match get_kvs response with
  | [] => Ret (Err (StaleSession instance))
  | kv :: _ =>
      try! current := parse_session (kv_value kv) in
      if negb (bool_decide (current = session)) then Ret (Err (StaleSession instance))
      else
        let! deleted := call (Transact
          [CompareValue (live_key backend instance) (session_text session)]
          [TxnDelete (live_key backend instance); authoritative_input_marker_operation backend]) in
        if negb (succeeded deleted) then Ret (Err (StaleSession instance))
        else
          let! _ := if (kv_lease kv =? 0)%Z then Ret (Ok tt) else call (LeaseRevoke (kv_lease kv)) in
          Ret (revision_from_header (txn_header deleted))
  end.

Definition participant_snapshot : prog ParticipantSessionSnapshot :=
  let! snapshot := raw_snapshot (namespaced_key backend "") true None in
  Ret (participant_snapshot_from_kvs backend snapshot.2).

Definition inject_session_current_state (instance : InstanceId) (session : SessionId)
    (resource : ResourceId) (states : gmap PartitionId State) : prog unit :=
  let! marker_response := call (Get (session_key backend instance session) false None) in
  match get_kvs marker_response with
  | [] => Ret (Err (UnknownSession session))
  | _ :: _ =>
      let! _ := call (Transact [] (state_puts instance session resource states
        ++ [authoritative_input_marker_operation backend])) in
      Ret (Ok tt)
  end.

(** The keys of the records of a resource. *)
Definition resource_record_key (resource : ResourceId) (kv : KeyValue) : option string :=
  match parse_relative_key backend (kv_key kv) with
  | Err _ => None
  | Ok relative =>
      match split_slash relative with
      | [kind; _; _; encoded_resource; _] =>
          if String.eqb kind "current-state" then
            match decode_segment encoded_resource with
            | Ok value => if String.eqb value (resource_str resource) then Some (kv_key kv) else None
            | Err _ => None
            end
          else None
      | _ => None
      end
  end.

(** [keys.chunks(n)] *)
Fixpoint chunks_of {A} (n fuel : nat) (l : list A) : list (list A) :=
  match fuel, l with
  | S fuel, _ :: _ => take n l :: chunks_of n fuel (drop n l)
  | _, _ => []
  end.

Fixpoint delete_batches (batches : list (list string)) (revision : option Revision)
  : prog (option Revision) :=
  match batches with
  | [] => Ret (Ok revision)
  | chunk :: batches =>
      match chunk with
      | [] => delete_batches batches revision
      | _ :: _ =>
          let! response := call (Transact []
            ((TxnDelete <$> chunk) ++ [authoritative_input_marker_operation backend])) in
          try! revision := revision_from_header (txn_header response) in
          delete_batches batches (Some revision)
      end
  end.

Definition remove_current_states_for_resource (resource : ResourceId) : prog Revision :=
  let! snapshot := raw_snapshot (namespaced_key backend "current-state/") true None in
  let keys := omap (resource_record_key resource) snapshot.2 in
  let! revision := delete_batches (chunks_of CURRENT_STATE_DELETE_BATCH (length keys) keys) None in
  Ret (Ok (default snapshot.1 revision)).
End session_programs.

(** ** Methods of a registered session *)

Definition eps_keep_alive (self : EtcdParticipantSession) : prog unit :=
  let! ttl := call (LeaseKeepAlive (eps_lease self)) in
  match ttl with
  | Some ttl => if (0 <? ttl)%Z then Ret (Ok tt) else Ret (Err LeaseExpired)
  | None => Ret (Err LeaseExpired)
  end.

Definition eps_is_current (self : EtcdParticipantSession) : prog bool :=
  let! session := live_session (eps_backend self) (eps_instance self) in
  Ret (Ok (bool_decide (session = Some (eps_session self)))).

Definition eps_revoke (self : EtcdParticipantSession) : prog unit :=
  let! _ := call (LeaseRevoke (eps_lease self)) in Ret (Ok tt).

Definition eps_publish_current_state (self : EtcdParticipantSession) (resource : ResourceId)
    (states : gmap PartitionId State) : prog Revision :=
  publish_current_state (eps_backend self) (eps_instance self) (eps_session self) resource states.

(** * Facts *)

(** The greatest session of a list. *)
Lemma max_session_spec l :
  match max_session l with
  | Some n => n ∈ l ∧ ∀ m, m ∈ l → (session_value m ≤ session_value n)%N
  | None => l = []
  end.
Proof.
  unfold max_session. induction l as [|x l IH] using rev_ind; [done|].
  rewrite foldl_snoc. destruct (foldl _ None l) as [b|]; cbn.
  - destruct IH as [Hb Hmax]. destruct (_ <=? _)%N eqn:Hle.
    + apply N.leb_le in Hle. split; [set_solver|]. intros m [Hm| ->%list_elem_of_singleton]%elem_of_app; [|done].
      etrans; [by apply Hmax|done].
    + apply N.leb_gt in Hle. split; [set_solver|]. intros m [Hm| ->%list_elem_of_singleton]%elem_of_app;
        [by apply Hmax|lia].
  - subst l. split; [set_solver|]. by intros m ->%list_elem_of_singleton.
Qed.

(** The last session allocated: zero before the first, nothing when the record
    cannot be read. *)
Definition stored_sequence (backend : EtcdCoordination) (ks : keyspace_t) : option N :=
  match ks !! sequence_key backend with
  | None => Some 0%N
  | Some kv => match parse_sequence (kv_value kv) with Ok n => Some n | Err _ => None end
  end.

Section session_facts.
Context {S : Type} `{EtcdLaws S} (env rely : S → S → Prop) `{!Rely env rely}.
Context (backend : EtcdCoordination).

(** ** Allocation *)

(** One step of the counter. *)
Definition allocate_step (session : SessionId) (s1 s2 : S) : Prop :=
  (∃ old, stored_sequence backend (keyspace s1) = Some old ∧ session = MkSessionId (old + 1)) ∧
  (session_value session ≤ u64_MAX)%N ∧
  stored_sequence backend (keyspace s2) = Some (session_value session) ∧
  head s2 = (head s1 + 1)%Z ∧
  ∀ key, key ≠ sequence_key backend → keyspace s2 !! key = keyspace s1 !! key.

Definition allocate_outcome (s : S) (tr : list (observation S)) (r : result SessionId CoordinationError)
  : Prop :=
  match r with
  | Ok session => once rely (allocate_step session) s tr
  | Err (Etcd _) => tr = [] ∨ ∃ session, once rely (allocate_step session) s tr
  | Err InvalidSession => tr = [] ∧ ∃ s1, rely s s1 ∧
      (stored_sequence backend (keyspace s1) = None ∨ stored_sequence backend (keyspace s1) = Some u64_MAX)
  | Err Contention => tr = []
  | Err _ => False
  end.

Lemma allocate_later s s1 tr r : rely s s1 → allocate_outcome s1 tr r → allocate_outcome s tr r.
Proof.
  intros Hs. destruct r as [session|[]]; cbn; try done.
  - exact (once_later rely _ s s1 tr Hs).
  - intros [->|(n & Hn)]; [by left|right]. exists n. exact (once_later rely _ s s1 tr Hs Hn).
  - intros (-> & s2 & Hs2 & Hbad). split; [done|]. exists s2. split; [by etrans|done].
Qed.

Lemma parse_sequence_text n : (0 < n ≤ u64_MAX)%N → parse_sequence (pretty n) = Ok n.
Proof.
  intros Hn. pose proof (parse_session_text (MkSessionId n) Hn) as Hp. unfold parse_session, session_text in Hp.
  cbn in Hp. destruct (parse_sequence (pretty n)); [|discriminate Hp]. by injection Hp as ->.
Qed.

Lemma stored_bound (s : S) n : stored_sequence backend (keyspace s) = Some n → (n ≤ u64_MAX)%N.
Proof.
  unfold stored_sequence. destruct (keyspace s !! _) as [kv|]; [|intros [= <-]; apply N.le_0_l].
  destruct (parse_sequence _) as [m|] eqn:Hp; [|done]. apply parse_sequence_inv in Hp.
  intros [= <-]. by destruct Hp.
Qed.

Lemma allocate_commits old (s s1 s2 : S) next :
  (keyspace s1 !! sequence_key backend = keyspace s !! sequence_key backend) →
  stored_sequence backend (keyspace s) = Some old → checked_add_u64 old 1 = Some next →
  effect_of (keyspace s1) (head s1) [TxnPut (sequence_key backend) (pretty next) 0] (keyspace s2) (head s2) →
  allocate_step (SessionId_from_sequence next) s1 s2 ∧ commit s1 s2 = [Committed s1 s2].
Proof.
  intros Hsame Hold Hnext [Hh Hk]. split; [|by apply commit_changed].
  unfold checked_add_u64 in Hnext. destruct (_ <=? _)%N eqn:Hle; [|done]. injection Hnext as <-.
  apply N.leb_le in Hle. cbn [foldl apply_op] in Hk. split_and!; [|cbn; lia| |done|].
  - exists old. split; [|done]. unfold stored_sequence in *. by rewrite Hsame.
  - unfold stored_sequence. rewrite Hk, lookup_insert_eq, put_kv_value. cbn.
    rewrite parse_sequence_text by lia. done.
  - intros key Hkey. by rewrite Hk, lookup_insert_ne.
Qed.

Lemma allocate_attempts_outcome n s :
  ensures env (allocate_attempts backend n) s (λ tr _ r, allocate_outcome s tr r).
Proof.
  revert s. induction n as [|n IH]; intros s; cbn [allocate_attempts].
  { apply (ensures_ret env rely). by intros s' _. }
  apply (ensures_get env rely); [|by left]. intros s1 Hs1. cbn [get_kvs].
  eapply holds_mono; [|intros tr s' r; by apply allocate_later].
  assert (∀ old c, stored_sequence backend (keyspace s1) = Some old →
    (∀ s2, rely s1 s2 → compare_holds (keyspace s2) c = true →
       keyspace s2 !! sequence_key backend = keyspace s1 !! sequence_key backend) →
    ensures env (match checked_add_u64 old 1 with
      | None => Ret (Err InvalidSession)
      | Some next =>
          let! response := call (Transact [c] [TxnPut (sequence_key backend) (pretty next) 0]) in
          if succeeded response then Ret (Ok (SessionId_from_sequence next))
          else allocate_attempts backend n
      end) s1 (λ tr _ r, allocate_outcome s1 tr r)) as Htry.
  { intros old c Hold Hsame. destruct (checked_add_u64 old 1) as [next|] eqn:Hnext.
    - apply (ensures_txn env rely).
      + intros s2 s3 Hs2 Hc He. cbn in Hc. apply andb_true_iff in Hc as [Hc _]. cbn [succeeded].
        apply (ensures_ret env rely). intros s' _.
        destruct (allocate_commits old s1 s2 s3 next (Hsame s2 Hs2 Hc) Hold Hnext He) as [Hstep ->].
        exists s2, s3. by split_and!.
      + intros s2 Hs2 _. cbn [succeeded]. eapply holds_mono; [apply IH|].
        intros tr s' r. by apply allocate_later.
      + by left.
      + intros text s2 s3 s' Hs2 Hc He _. cbn in Hc. apply andb_true_iff in Hc as [Hc _].
        destruct (allocate_commits old s1 s2 s3 next (Hsame s2 Hs2 Hc) Hold Hnext He) as [Hstep ->].
        right. eexists _, s2, s3. by split_and!.
    - apply (ensures_ret env rely). intros s' _. split; [done|]. exists s1. split; [done|]. right.
      rewrite Hold. f_equal. unfold checked_add_u64 in Hnext. destruct (_ <=? _)%N eqn:Hle; [done|].
      apply N.leb_gt in Hle. pose proof (stored_bound s1 old Hold). lia. }
  unfold stored_sequence in Htry. cbn [select_kvs].
  destruct (keyspace s1 !! sequence_key backend) as [kv|] eqn:Hkv.
  - destruct (parse_sequence (kv_value kv)) as [old|e] eqn:Hp; cbn [fst snd].
    + apply Htry; [done|]. intros s2 Hs2 Hc. cbn in Hc. apply bool_decide_eq_true_1 in Hc.
      eapply unchanged_since; [by eapply rely_evolves|done|done].
    + apply (ensures_ret env rely). intros s' _. pose proof Hp as Hp'. apply parse_sequence_inv in Hp' as ->.
      split; [done|]. exists s1. split; [done|]. left. unfold stored_sequence. by rewrite Hkv, Hp.
  - cbn [fst snd]. apply Htry; [done|]. intros s2 Hs2 Hc. cbn in Hc. apply bool_decide_eq_true_1 in Hc.
    by apply version_zero.
Qed.

(** ** Publication of states *)

Definition live_text (ks : keyspace_t) (i : InstanceId) : option string :=
  kv_value <$> ks !! live_key backend i.

Definition record_text (ks : keyspace_t) (i : InstanceId) (n : SessionId) (r : ResourceId)
    (p : PartitionId) : option string :=
  kv_value <$> ks !! current_state_key backend i n r p.

(** The store after the states of a resource are written: those records, the
    marker, and nothing else. *)
Definition states_written (i : InstanceId) (n : SessionId) (r : ResourceId)
    (states : gmap PartitionId State) (s1 s2 : S) : Prop :=
  head s2 = (head s1 + 1)%Z ∧
  (∀ p st, states !! p = Some st → record_text (keyspace s2) i n r p = Some (state_str st)) ∧
  ∀ key, key ≠ marker_key backend →
    (∀ p, key = current_state_key backend i n r p → states !! p = None) →
    keyspace s2 !! key = keyspace s1 !! key.

Definition publish_state_step (i : InstanceId) (n : SessionId) (r : ResourceId)
    (states : gmap PartitionId State) (s1 s2 : S) : Prop :=
  live_text (keyspace s1) i = Some (session_text n) ∧ states_written i n r states s1 s2.

Lemma elem_of_state_puts i n r states op :
  op ∈ state_puts backend i n r states ↔
  ∃ p st, states !! p = Some st ∧ op = TxnPut (current_state_key backend i n r p) (state_str st) 0.
Proof.
  unfold state_puts. rewrite list_elem_of_fmap. split.
  - intros ([p st] & -> & Hin%elem_of_entries). eauto.
  - intros (p & st & Hst & ->). exists (p, st). split; [done|]. by apply elem_of_entries.
Qed.

Lemma states_effect i n r states (s1 s2 : S) :
  effect_of (keyspace s1) (head s1)
    (state_puts backend i n r states ++ [authoritative_input_marker_operation backend])
    (keyspace s2) (head s2) →
  states_written i n r states s1 s2.
Proof.
  intros Heff. unfold effect_of in Heff.
  assert (existsb (op_writes (keyspace s1))
    (state_puts backend i n r states ++ [authoritative_input_marker_operation backend]) = true) as Hw.
  { rewrite existsb_app. cbn. apply orb_true_r. }
  rewrite Hw in Heff. destruct Heff as [Hh Hk]. split_and!; [done| |].
  - intros p st Hst. unfold record_text. rewrite Hk.
    destruct (apply_ops_put (head s1 + 1) (state_puts backend i n r states ++
      [authoritative_input_marker_operation backend]) (keyspace s1)
      (current_state_key backend i n r p) (state_str st) 0) as (kv & -> & Hv & _); [| |by cbn; rewrite Hv].
    + apply elem_of_app. left. apply elem_of_state_puts. eauto.
    + intros op [Hop| ->%list_elem_of_singleton]%elem_of_app Hkey.
      * apply elem_of_state_puts in Hop as (p' & st' & Hst' & ->). cbn in Hkey.
        apply current_state_key_inj in Hkey as (_ & _ & _ & ->). congruence.
      * cbn in Hkey. apply namespaced_key_inj in Hkey. discriminate Hkey.
  - intros key Hm Hkey. rewrite Hk. apply apply_ops_other.
    intros op [Hop| ->%list_elem_of_singleton]%elem_of_app Heq; [|done].
    apply elem_of_state_puts in Hop as (p & st & Hst & ->). cbn in Heq.
    specialize (Hkey p (eq_sym Heq)). congruence.
Qed.

Lemma publish_state_outcome i n r states s :
  ensures env (publish_current_state backend i n r states) s (λ tr _ res,
    match res with
    | Ok revision => ∃ s1 s2, rely s s1 ∧ tr = [Committed s1 s2] ∧
        publish_state_step i n r states s1 s2 ∧ revision = MkRevision (head s2)
    | Err (StaleSession j) => j = i ∧ tr = [] ∧
        ∃ s1, rely s s1 ∧ live_text (keyspace s1) i ≠ Some (session_text n)
    | Err (Etcd _) => tr = [] ∨ once rely (publish_state_step i n r states) s tr
    | Err _ => False
    end).
Proof.
  unfold publish_current_state.
  assert (∀ s1 s2, forallb (compare_holds (keyspace s1))
      [CompareValue (live_key backend i) (session_text n)] = true →
    effect_of (keyspace s1) (head s1)
      (state_puts backend i n r states ++ [authoritative_input_marker_operation backend])
      (keyspace s2) (head s2) →
    publish_state_step i n r states s1 s2 ∧ commit s1 s2 = [Committed s1 s2]) as Hstep.
  { intros s1 s2 Hc He%states_effect. cbn in Hc. apply andb_true_iff in Hc as [Hc%bool_decide_eq_true_1 _].
    split; [by split|]. apply commit_changed. by destruct He. }
  apply (ensures_txn env rely).
  - intros s1 s2 Hs1 Hc He. destruct (Hstep s1 s2 Hc He) as [Hst Hcommit]. cbn [succeeded txn_header].
    rewrite revision_of_head. apply (ensures_ret env rely). intros s' _. rewrite Hcommit.
    exists s1, s2. by split_and!.
  - intros s1 Hs1 Hc. cbn [succeeded]. apply (ensures_ret env rely). intros s' _. split_and!; [done..|].
    exists s1. split; [done|]. intros Hlive. cbn in Hc. unfold live_text in Hlive.
    by rewrite bool_decide_eq_true_2 in Hc.
  - by left.
  - intros text s1 s2 s' Hs1 Hc He _. destruct (Hstep s1 s2 Hc He) as [Hst ->]. right.
    exists s1, s2. by split_and!.
Qed.
End session_facts.
