(* ===== verification/SessionRefinement.v ===== *)
(** * The session records in etcd implement the session model

    File Session models participant sessions in memory, file SessionStore the
    programs that keep them in etcd.  [represents] relates a state of the model to
    a keyspace; the programs are shown to take related states to related states:
    publication under interference, registration for an undisturbed client. *)

From S2P Require Import Prelude Identity StateMaps Session Keys Snapshot.
From S2P Require Import Etcd Metadata InputMarker SessionStore.

Section represents.
Context (backend : EtcdCoordination).

(** Names as the constructors of the identifiers admit them. *)
Definition valid_name (s : string) : Prop := is_empty s = false ∧ utf8_valid s = true.

Record represents (st : ParticipantSessionState) (ks : keyspace_t) : Prop := {
  rep_inv : session_inv st;
  rep_live : ∀ i, live_text backend ks i = session_text ∘ live_session_id <$> live_instances st !! i;
  rep_record : ∀ i n r p,
    record_text backend ks i n r p = state_str <$> rget (stored_replicas st i n r) p i;
  rep_session : ∀ i n, is_Some (ks !! session_key backend i n) ↔ known_sessions st !! n = Some i;
  rep_sequence : stored_sequence backend ks = Some (next_session_sequence st);
  rep_session_keys : ∀ i key, is_Some (ks !! key) → starts_with (session_prefix backend i) key = true →
    ∃ n, key = session_key backend i n;
  rep_record_keys : ∀ i n key, is_Some (ks !! key) →
    starts_with (current_state_session_prefix backend i n) key = true →
    ∃ r p, key = current_state_key backend i n r p ∧ valid_name (resource_str r) ∧
           valid_name (partition_str p)
}.

Lemma session_key_inj i n j m : session_key backend i n = session_key backend j m → i = j ∧ n = m.
Proof.
  intros Heq%namespaced_key_inj%(f_equal split_slash). rewrite !split_session_key in Heq.
  injection Heq as Hi Hn. apply encode_segment_inj in Hi. apply session_text_inj in Hn.
  destruct i, j. cbn in Hi. by subst.
Qed.

Lemma marker_prefix_session i : starts_with (session_prefix backend i) (marker_key backend) = false.
Proof.
  unfold session_prefix, marker_key, metadata_key. by rewrite starts_with_namespaced.
Qed.
Lemma marker_prefix_record i n :
  starts_with (current_state_session_prefix backend i n) (marker_key backend) = false.
Proof.
  unfold current_state_session_prefix, marker_key, metadata_key. by rewrite starts_with_namespaced.
Qed.
Lemma record_prefix_session i j n r p :
  starts_with (session_prefix backend i) (current_state_key backend j n r p) = false.
Proof. unfold session_prefix, current_state_key. by rewrite starts_with_namespaced. Qed.
End represents.


Section publication.
Context {S : Type} `{EtcdLaws S} (backend : EtcdCoordination).

Lemma stored_replicas_put st i n rs j m r :
  stored_replicas (put_resources st i n rs) j m r =
  if decide (i = j ∧ n = m) then match rs !! r with Some cs => CurrentState_entries cs | None => ∅ end
  else stored_replicas st j m r.
Proof. unfold stored_replicas. rewrite session_resources_put. by case_decide. Qed.

(** What the record of a published state reads. *)
Lemma stored_published st i n r new j m r' p :
  rget (stored_replicas (put_resources st i n
    (<[r := current_of (publish_replicas i new (stored_replicas st i n r))]>
      (default ∅ (session_resources st i n)))) j m r') p j =
  if decide (i = j ∧ n = m ∧ r = r') then
    match new !! p with Some s => Some s | None => rget (stored_replicas st i n r) p i end
  else rget (stored_replicas st j m r') p j.
Proof.
  rewrite stored_replicas_put. destruct (decide (i = j ∧ n = m)) as [[<- <-]|Hne]; last first.
  { rewrite decide_False by naive_solver. done. }
  destruct (decide (r = r')) as [<-|Hr].
  - rewrite lookup_insert_eq, decide_True by done. cbn. rewrite rget_publish.
    by rewrite bool_decide_true.
  - rewrite lookup_insert_ne, decide_False by naive_solver.
    unfold stored_replicas. destruct (session_resources st i n) as [rs|]; cbn; [done|].
    by rewrite lookup_empty.
Qed.

(** Writing the states of a resource is the store step of the model. *)
Lemma written_represents st (s1 s2 : S) i n r new :
  represents backend st (keyspace s1) → states_written backend i n r new s1 s2 →
  known_sessions st !! n = Some i →
  valid_name (resource_str r) → (∀ p, is_Some (new !! p) → valid_name (partition_str p)) →
  ∃ st', store_current_state st i n r new = Ok st' ∧ represents backend st' (keyspace s2).
Proof.
  intros Hrep (Hh & Hput & Hframe) Hknown Hr Hp. pose proof (rep_inv _ _ _ Hrep) as Hinv.
  pose proof (stored_replicas_wf st i n r Hinv) as Hwf.
  eexists. split; [by apply store_current_state_eq|].
  assert (∀ key, (∀ p, key ≠ current_state_key backend i n r p) → key ≠ marker_key backend →
    keyspace s2 !! key = keyspace s1 !! key) as Hother.
  { intros key Hk Hm. apply Hframe; [done|]. intros p ->. by destruct (Hk p). }
  split.
  - eapply store_inv; [done|done|]. by apply store_current_state_eq.
  - intros j. unfold live_text. rewrite Hother by distinct_keys. apply (rep_live _ _ _ Hrep).
  - intros j m r' p. rewrite stored_published. case_decide as Hd.
    + destruct Hd as (<- & <- & <-). destruct (new !! p) as [s|] eqn:Hnew; [by apply Hput|].
      rewrite <-(rep_record _ _ _ Hrep). unfold record_text. rewrite Hframe; [done|distinct_keys|].
      intros q (_ & _ & _ & ->)%current_state_key_inj. done.
    + rewrite <-(rep_record _ _ _ Hrep). unfold record_text. rewrite Hother; [done| |distinct_keys].
      intros q Heq. apply current_state_key_inj in Heq. naive_solver.
  - intros j m. rewrite Hother by distinct_keys. apply (rep_session _ _ _ Hrep).
  - unfold stored_sequence. rewrite Hother by distinct_keys. apply (rep_sequence _ _ _ Hrep).
  - intros j key Hkey Hpre. apply (rep_session_keys _ _ _ Hrep j key); [|done].
    rewrite <-Hother; [done| |].
    + intros p ->. by rewrite record_prefix_session in Hpre.
    + intros ->. by rewrite marker_prefix_session in Hpre.
  - intros j m key Hkey Hpre. destruct (decide (key = marker_key backend)) as [->|Hm];
      [by rewrite marker_prefix_record in Hpre|].
    destruct (decide (key ∈ (current_state_key backend i n r <$> map_keys new))) as [Hin|Hout].
    + apply list_elem_of_fmap in Hin as (p & -> & Hnew%elem_of_map_keys).
      apply state_prefix_key in Hpre as [-> ->]. exists r, p. by auto.
    + apply (rep_record_keys _ _ _ Hrep j m key); [|done]. rewrite <-Hframe; [done..|].
      intros p ->. destruct (new !! p) eqn:Hnew; [|done]. destruct Hout.
      apply list_elem_of_fmap. exists p. split; [done|]. apply elem_of_map_keys. eauto.
Qed.

(** The publication of the model, on whatever state the store represents. *)
Definition model_publishes (i : InstanceId) (n : SessionId) (r : ResourceId)
    (new : gmap PartitionId State) (s1 s2 : S) : Prop :=
  ∀ st, represents backend st (keyspace s1) →
    ∃ st', Session.publish_current_state st i n r new = Ok st' ∧ represents backend st' (keyspace s2).

Lemma live_represented st (s : S) i n :
  represents backend st (keyspace s) →
  live_text backend (keyspace s) i = Some (session_text n) ↔ require_live_session st i n = Ok tt.
Proof.
  intros Hrep. rewrite (rep_live _ _ _ Hrep), require_live_ok. split.
  - destruct (live_instances st !! i) as [l|]; [|done]. intros [= Heq%session_text_inj]. eauto.
  - intros (l & -> & <-). done.
Qed.

Lemma step_publishes (s1 s2 : S) i n r new :
  valid_name (resource_str r) → (∀ p, is_Some (new !! p) → valid_name (partition_str p)) →
  publish_state_step backend i n r new s1 s2 → model_publishes i n r new s1 s2.
Proof.
  intros Hr Hp [Hlive Hw] st Hrep. apply (live_represented st s1 i n Hrep) in Hlive.
  pose proof Hlive as (l & Hl & Hn)%require_live_ok.
  destruct (si_live _ (rep_inv _ _ _ Hrep) i l Hl) as [_ Hknown]. rewrite Hn in Hknown.
  unfold Session.publish_current_state. rewrite Hlive. by eapply written_represents.
Qed.
End publication.

(** ** Registration *)

Section registration.
Context {S : Type} `{EtcdLaws S} (backend : EtcdCoordination) (Hbackend : backend_ok backend).

(** The sessions found under the prefix of an instance are its sessions. *)
Lemma found_sessions st (s : S) i n :
  represents backend st (keyspace s) →
  n ∈ omap session_of_key (select_kvs (keyspace s) (session_prefix backend i) true) ↔
  known_sessions st !! n = Some i.
Proof.
  intros Hrep. rewrite list_elem_of_omap.
  assert (∀ m, known_sessions st !! m = Some i →
    parse_session (session_text m) = Ok m) as Hparse.
  { intros m Hm. apply parse_session_text. pose proof (known_bound _ _ _ (rep_inv _ _ _ Hrep) Hm).
    pose proof (si_width _ (rep_inv _ _ _ Hrep)). lia. }
  split.
  - intros (kv & [Hkv Hpre]%elem_of_select & Hn).
    destruct (rep_session_keys _ _ _ Hrep i (kv_key kv)) as [m Hkey]; [eauto|done|].
    assert (known_sessions st !! m = Some i) as Hm.
    { apply (rep_session _ _ _ Hrep). rewrite <-Hkey. eauto. }
    unfold session_of_key in Hn. rewrite Hkey, session_key_utf8, session_key_last in Hn by done.
    cbn in Hn. rewrite (Hparse m Hm) in Hn. by injection Hn as <-.
  - intros Hn. pose proof Hn as [kv Hkv]%(rep_session _ _ _ Hrep).
    destruct (kv_bounds s _ kv Hkv) as (Hkey & _). exists kv. split.
    + apply elem_of_select. rewrite Hkey. split; [done|]. by apply session_prefix_key.
    + unfold session_of_key. rewrite Hkey, session_key_utf8, session_key_last by done. cbn.
      by rewrite (Hparse n Hn).
Qed.

Lemma latest_represents st (s : S) i :
  represents backend st (keyspace s) →
  previous_resources st i None =
  match max_session (omap session_of_key (select_kvs (keyspace s) (session_prefix backend i) true)) with
  | Some n => session_resources st i n
  | None => None
  end.
Proof.
  intros Hrep. pose proof (rep_inv _ _ _ Hrep) as Hinv.
  pose proof (max_session_spec (omap session_of_key (select_kvs (keyspace s) (session_prefix backend i) true)))
    as Hmax.
  destruct (max_session _) as [n|].
  - destruct Hmax as [Hn%(found_sessions st) Hmax]; [|done].
    pose proof Hn as [rs Hrs]%(si_stored _ Hinv). rewrite Hrs. unfold session_resources in Hrs.
    unfold previous_resources. destruct (current_states st !! i) as [ss|] eqn:Hss; [|done].
    rewrite (last_entries ss n rs); [done|done|]. intros m Hm.
    assert (known_sessions st !! m = Some i) as Hkm.
    { apply (si_stored _ Hinv). unfold session_resources. by rewrite Hss. }
    apply (found_sessions st s i m Hrep), Hmax in Hkm. destruct m as [a], n as [b]. cbn in Hkm.
    destruct (decide (a = b)) as [->|Hne]; [by left|right].
    unfold key_lt, rust_cmp, ord_SessionId, rust_cmp, ord_N. simpl. apply N.compare_lt_iff. lia.
  - unfold previous_resources. destruct (current_states st !! i) as [ss|] eqn:Hss; [|done].
    destruct (last (entries ss)) as [[m rs]|] eqn:Hlast; [|done]. exfalso.
    apply last_Some_elem_of, elem_of_entries in Hlast.
    assert (known_sessions st !! m = Some i) as Hm.
    { apply (si_stored _ Hinv). unfold session_resources. rewrite Hss. eauto. }
    apply (found_sessions st s i m Hrep) in Hm. rewrite Hmax in Hm. by apply elem_of_nil in Hm.
Qed.

Lemma carry_record_ok i n m options r p kv :
  kv_key kv = current_state_key backend i n r p →
  valid_name (resource_str r) → valid_name (partition_str p) →
  carry_record backend i m options kv =
    Ok (current_state_key backend i m r p, options_initial_state options r).
Proof.
  intros Hkey [Hr Hru] [Hp Hpu]. unfold carry_record.
  rewrite Hkey, relative_current_state_key by done. cbv zeta. rewrite split_current_state_key.
  cbn [lookup list_lookup]. rewrite !decode_encode, Hru, Hpu.
  unfold ResourceId_new, PartitionId_new, validate. rewrite Hr, Hp. cbn. by destruct r, p.
Qed.

(** The records that are carried are those of the previous session. *)
Lemma carried_found (s : S) i n m options :
  (∀ key, is_Some (keyspace s !! key) →
     starts_with (current_state_session_prefix backend i n) key = true →
     ∃ r p, key = current_state_key backend i n r p ∧ valid_name (resource_str r) ∧
            valid_name (partition_str p)) →
  ∃ carried, collect_results (carry_record backend i m options)
      (select_kvs (keyspace s) (current_state_session_prefix backend i n) true) = Ok carried ∧
    ∀ key state, (key, state) ∈ carried ↔
      ∃ r p, is_Some (keyspace s !! current_state_key backend i n r p) ∧
             key = current_state_key backend i m r p ∧ state = options_initial_state options r.
Proof.
  intros Hkeys.
  assert (∀ kv, kv ∈ select_kvs (keyspace s) (current_state_session_prefix backend i n) true →
    ∃ r p, kv_key kv = current_state_key backend i n r p ∧
      is_Some (keyspace s !! current_state_key backend i n r p) ∧
      carry_record backend i m options kv =
        Ok (current_state_key backend i m r p, options_initial_state options r)) as Hall.
  { intros kv [Hkv Hpre]%elem_of_select. destruct (Hkeys (kv_key kv)) as (r & p & Hkey & Hr & Hp); [eauto|done|].
    exists r, p. rewrite <-Hkey at 2. split_and!; [done|eauto|by eapply carry_record_ok]. }
  destruct (collect_results_total (carry_record backend i m options)
    (select_kvs (keyspace s) (current_state_session_prefix backend i n) true)) as (carried & Hrun & Hin).
  { intros kv Hkv. destruct (Hall kv Hkv) as (r & p & _ & _ & Hc). eauto. }
  exists carried. split; [done|]. intros key state. rewrite Hin. split.
  - intros (kv & Hkv & Hc). destruct (Hall kv Hkv) as (r & p & _ & Hsome & Hc').
    rewrite Hc in Hc'. injection Hc' as -> ->. eauto.
  - intros (r & p & [kv Hkv] & -> & ->). destruct (kv_bounds s _ kv Hkv) as (Hkey & _).
    assert (kv ∈ select_kvs (keyspace s) (current_state_session_prefix backend i n) true) as Hsel.
    { apply elem_of_select. rewrite Hkey. split; [done|]. by apply state_prefix_key. }
    exists kv. split; [done|]. destruct (Hall kv Hsel) as (r' & p' & Hkey' & _ & Hc).
    rewrite Hkey in Hkey'. apply current_state_key_inj in Hkey' as (_ & _ & <- & <-). done.
Qed.

(** What a registration leaves in the store. *)
Record registered (i : InstanceId) (n : SessionId) (lease : Z) (carried : list (string * State))
    (s1 s2 : S) : Prop := {
  reg_head : head s2 = (head s1 + 1)%Z;
  reg_live : ∃ kv, keyspace s2 !! live_key backend i = Some kv ∧ kv_value kv = session_text n ∧
                   kv_lease kv = lease;
  reg_session : is_Some (keyspace s2 !! session_key backend i n);
  reg_carried : ∀ key state, (key, state) ∈ carried →
    kv_value <$> keyspace s2 !! key = Some (state_str state);
  reg_frame : ∀ key, key ≠ live_key backend i → key ≠ session_key backend i n →
    key ≠ marker_key backend → (∀ state, (key, state) ∉ carried) →
    keyspace s2 !! key = keyspace s1 !! key
}.

Lemma elem_of_registration i n lease carried op :
  op ∈ registration_operations backend i n lease carried ↔
  op = TxnPut (live_key backend i) (session_text n) lease ∨
  op = TxnPut (session_key backend i n) "active" 0 ∨
  (∃ key state, (key, state) ∈ carried ∧ op = TxnPut key (state_str state) 0) ∨
  op = TxnPut (marker_key backend) "1" 0.
Proof.
  unfold registration_operations. rewrite !elem_of_app, list_elem_of_fmap, !elem_of_cons, elem_of_nil.
  split.
  - intros [[->|[->|[]]]|[([key state] & -> & Hin)|[->|[]]]]; eauto 10.
  - intros [->|[->|[(key & state & Hin & ->)| ->]]]; [tauto|tauto| |tauto].
    right. left. by exists (key, state).
Qed.

Lemma registration_effect i n lease carried (s1 s2 : S) (init : ResourceId → State) :
  (∀ key state, (key, state) ∈ carried →
     ∃ r p, key = current_state_key backend i n r p ∧ state = init r) →
  effect_of (keyspace s1) (head s1) (registration_operations backend i n lease carried)
    (keyspace s2) (head s2) →
  registered i n lease carried s1 s2.
Proof.
  intros Hcar [Hh Hk]. cbn [existsb op_writes registration_operations app] in Hh.
  set (ops := registration_operations backend i n lease carried) in *.
  assert (∀ key value l, TxnPut key value l ∈ ops →
    (∀ op, op ∈ ops → op_key op = key → op = TxnPut key value l) →
    ∃ kv, keyspace s2 !! key = Some kv ∧ kv_value kv = value ∧ kv_lease kv = l) as Hput.
  { intros key value l Hin Hall. rewrite Hk.
    destruct (apply_ops_put (head s1 + 1) ops (keyspace s1) key value l Hin Hall) as (kv & ? & ? & ? & _).
    eauto. }
  split; [done| | | |].
  - apply Hput; [apply elem_of_registration; auto|].
    intros op [->|[->|[(key & state & Hin & ->)| ->]]]%elem_of_registration Hkey; cbn in Hkey; [done| | |].
    + key_clash Hkey.
    + apply Hcar in Hin as (r & p & -> & _). key_clash Hkey.
    + key_clash Hkey.
  - destruct (Hput (session_key backend i n) "active" 0%Z) as (kv & -> & _); [| |done].
    + apply elem_of_registration. auto.
    + intros op [->|[->|[(key & state & Hin & ->)| ->]]]%elem_of_registration Hkey; cbn in Hkey; [|done| |].
      * key_clash Hkey.
      * apply Hcar in Hin as (r & p & -> & _). key_clash Hkey.
      * key_clash Hkey.
  - intros key state Hin. destruct (Hput key (state_str state) 0%Z) as (kv & -> & Hv & _); [| |by cbn; rewrite Hv].
    + apply elem_of_registration. eauto 10.
    + destruct (Hcar key state Hin) as (r & p & -> & ->).
      intros op [->|[->|[(key & state & Hin' & ->)| ->]]]%elem_of_registration Hkey; cbn in Hkey;
        [key_clash Hkey|key_clash Hkey| |key_clash Hkey].
      destruct (Hcar key state Hin') as (r' & p' & -> & ->).
      apply current_state_key_inj in Hkey as (_ & _ & -> & ->). done.
  - intros key Hl Hs Hm Hc. rewrite Hk. apply apply_ops_other.
    intros op [->|[->|[(key' & state & Hin & ->)| ->]]]%elem_of_registration; cbn; [done|done| |done].
    intros <-. by destruct (Hc state).
Qed.

(** The own replicas a new session starts with. *)
Lemma carried_replicas st i o r p :
  previous_resources st i None = match o with Some n => session_resources st i n | None => None end →
  rget (match carried_or_empty st i None !! r with Some cs => CurrentState_entries cs | None => ∅ end) p i =
  match o with
  | Some n => (λ _, initial_state_for st r) <$> rget (stored_replicas st i n r) p i
  | None => None
  end.
Proof.
  intros Hprev. unfold carried_or_empty, stored_replicas. rewrite Hprev.
  destruct o as [n|]; [|by rewrite lookup_empty].
  destruct (session_resources st i n) as [rs|]; [|by rewrite lookup_empty].
  unfold reset_resources. rewrite map_lookup_imap. destruct (rs !! r) as [cs|]; [|done]. cbn.
  rewrite rget_reset. rewrite bool_decide_true by done. done.
Qed.

Section registered_represents.
Context (st : ParticipantSessionState) (s s1 s2 : S) (i : InstanceId) (o : option SessionId).
Context (lease : Z) (carried : list (string * State)).
Context (Hrep : represents backend st (keyspace s)).
Context (Halloc : allocate_step backend (fresh_session st) s s1).
Context (Hprev : previous_resources st i None =
  match o with Some n => session_resources st i n | None => None end).
Context (Hcarried : ∀ key state, (key, state) ∈ carried ↔
  ∃ n r p, o = Some n ∧ is_Some (keyspace s !! current_state_key backend i n r p) ∧
           key = current_state_key backend i (fresh_session st) r p ∧ state = initial_state_for st r).
Context (Hreg : registered i (fresh_session st) lease carried s1 s2).

(** Keys that are neither the sequence nor written by the registration. *)
Lemma kept key :
  key ≠ sequence_key backend → key ≠ live_key backend i →
  key ≠ session_key backend i (fresh_session st) → key ≠ marker_key backend →
  (∀ r p, key ≠ current_state_key backend i (fresh_session st) r p) →
  keyspace s2 !! key = keyspace s !! key.
Proof.
  intros Hq Hl Hs Hm Hr. destruct Halloc as (_ & _ & _ & _ & Hframe). rewrite <-Hframe by done.
  apply (reg_frame _ _ _ _ _ _ Hreg); [done..|]. intros state (n & r & p & _ & _ & -> & _)%Hcarried.
  by destruct (Hr r p).
Qed.

Lemma registered_record j m r p :
  record_text backend (keyspace s2) j m r p =
  if decide (i = j ∧ fresh_session st = m) then
    match o with
    | Some n => (λ _, state_str (initial_state_for st r)) <$> record_text backend (keyspace s) i n r p
    | None => None
    end
  else record_text backend (keyspace s) j m r p.
Proof.
  unfold record_text. case_decide as Hd; last first.
  { rewrite kept; [done|distinct_keys..|]. intros r' p' Heq. apply current_state_key_inj in Heq. naive_solver. }
  destruct Hd as [<- <-].
  assert (∀ n, o = Some n → is_Some (keyspace s !! current_state_key backend i n r p) →
    kv_value <$> keyspace s2 !! current_state_key backend i (fresh_session st) r p =
    Some (state_str (initial_state_for st r))) as Hin.
  { intros n Ho Hsome. apply (reg_carried _ _ _ _ _ _ Hreg), Hcarried. eauto 10. }
  assert ((∀ n, o = Some n → keyspace s !! current_state_key backend i n r p = None) →
    keyspace s2 !! current_state_key backend i (fresh_session st) r p = None) as Hout.
  { intros Hno. rewrite (reg_frame _ _ _ _ _ _ Hreg); [|distinct_keys..|].
    - destruct Halloc as (_ & _ & _ & _ & ->); [|distinct_keys].
      pose proof (rep_record _ _ _ Hrep i (fresh_session st) r p) as Hr. unfold record_text in Hr.
      assert (stored_replicas st i (fresh_session st) r = ∅) as Hempty.
      { unfold stored_replicas. destruct (session_resources st i (fresh_session st)) eqn:Hss; [|done].
        assert (is_Some (session_resources st i (fresh_session st))) as Hk by eauto.
        apply (si_stored _ (rep_inv _ _ _ Hrep)) in Hk.
        by rewrite fresh_unknown in Hk by apply (rep_inv _ _ _ Hrep). }
      rewrite Hempty in Hr. by apply fmap_None in Hr.
    - intros state (n & r' & p' & Ho & Hsome & Hkey & _)%Hcarried.
      apply current_state_key_inj in Hkey as (_ & _ & <- & <-). rewrite (Hno n Ho) in Hsome. by destruct Hsome. }
  destruct o as [n|]; [|by rewrite Hout].
  destruct (keyspace s !! current_state_key backend i n r p) as [kv|] eqn:Hkv; cbn.
  - apply (Hin n); [done|]. eauto.
  - rewrite Hout; [done|]. by intros n' [= <-].
Qed.

Lemma registered_keys j m key :
  is_Some (keyspace s2 !! key) → starts_with (current_state_session_prefix backend j m) key = true →
  ∃ r p, key = current_state_key backend j m r p ∧ valid_name (resource_str r) ∧
         valid_name (partition_str p).
Proof.
  intros Hkey Hpre. pose proof Halloc as (_ & _ & _ & _ & Hframe).
  destruct (decide (key ∈ carried.*1)) as [Hin|Hout].
  - apply list_elem_of_fmap in Hin as ([key' state] & -> & (n & r & p & _ & Hsome & -> & _)%Hcarried). cbn.
    apply state_prefix_key in Hpre as [-> ->]. exists r, p. split; [done|].
    destruct (rep_record_keys _ _ _ Hrep i n (current_state_key backend i n r p)) as (r' & p' & Heq & ?); [done| |].
    { by apply state_prefix_key. }
    by apply current_state_key_inj in Heq as (_ & _ & -> & ->).
  - apply (rep_record_keys _ _ _ Hrep j m key); [|done].
    unfold current_state_session_prefix in Hpre.
    rewrite <-Hframe; [rewrite <-(reg_frame _ _ _ _ _ _ Hreg); [done|..]|].
    + intros ->. unfold live_key in Hpre. by rewrite starts_with_namespaced in Hpre.
    + intros ->. unfold session_key in Hpre. by rewrite starts_with_namespaced in Hpre.
    + intros ->. unfold marker_key, metadata_key in Hpre. by rewrite starts_with_namespaced in Hpre.
    + intros state Hin. apply Hout, list_elem_of_fmap. by exists (key, state).
    + intros ->. unfold sequence_key in Hpre. by rewrite starts_with_namespaced in Hpre.
Qed.

Lemma registered_represents :
  represents backend (begin_session (allocated st i) i (fresh_session st) (carried_or_empty st i None))
    (keyspace s2).
Proof.
  pose proof (rep_inv _ _ _ Hrep) as Hinv.
  pose proof Halloc as (_ & Hwidth & Hseq & _ & Hframe). cbn in Hwidth. split.
  - apply begin_inv; [done|lia|by apply carried_wf].
  - intros j. cbn. destruct (decide (i = j)) as [<-|Hne].
    + destruct (reg_live _ _ _ _ _ _ Hreg) as (kv & Hkv & Hv & _). unfold live_text.
      rewrite Hkv, lookup_insert_eq. cbn. by rewrite Hv.
    + rewrite lookup_insert_ne by done. rewrite <-(rep_live _ _ _ Hrep). unfold live_text.
      rewrite kept; [done|distinct_keys| |distinct_keys..]. intros Heq. by apply Hne, (live_key_inj backend).
  - intros j m r p. rewrite registered_record, begin_session_eq, stored_replicas_put. case_decide as Hd.
    + destruct Hd as [<- <-]. rewrite (carried_replicas st i o) by done. destruct o as [n|]; [|done].
      rewrite (rep_record _ _ _ Hrep). by destruct (rget _ _ _).
    + apply (rep_record _ _ _ Hrep).
  - intros j m. cbn. destruct (decide (fresh_session st = m)) as [<-|Hne].
    + rewrite lookup_insert_eq. split; [|intros [= <-]; apply (reg_session _ _ _ _ _ _ Hreg)].
      intros Hsome. destruct (decide (i = j)) as [->|Hij]; [done|].
      rewrite kept in Hsome; [|distinct_keys|distinct_keys| |distinct_keys..].
      * apply (rep_session _ _ _ Hrep) in Hsome. by rewrite fresh_unknown in Hsome.
      * intros [? _]%session_key_inj. done.
    + rewrite lookup_insert_ne by done. rewrite <-(rep_session _ _ _ Hrep).
      rewrite kept; [done|distinct_keys|distinct_keys| |distinct_keys..]. intros [_ ?]%session_key_inj. done.
  - transitivity (stored_sequence backend (keyspace s1)); [|exact Hseq].
    unfold stored_sequence. rewrite (reg_frame _ _ _ _ _ _ Hreg); [done|distinct_keys..|].
    intros state (n & r & p & _ & _ & Hkey & _)%Hcarried. key_clash Hkey.
  - intros j key Hkey Hpre.
    destruct (decide (key = session_key backend i (fresh_session st))) as [->|Hne].
    { apply session_prefix_key in Hpre as ->. eauto. }
    apply (rep_session_keys _ _ _ Hrep j key); [|done]. rewrite <-kept; [done| | |done| |].
    + intros ->. unfold session_prefix, sequence_key in Hpre. by rewrite starts_with_namespaced in Hpre.
    + intros ->. unfold session_prefix, live_key in Hpre. by rewrite starts_with_namespaced in Hpre.
    + intros ->. by rewrite marker_prefix_session in Hpre.
    + intros r p ->. by rewrite record_prefix_session in Hpre.
  - apply registered_keys.
Qed.
End registered_represents.
End registration.

Section undisturbed.
Context {S : Type} `{EtcdLaws S} (backend : EtcdCoordination) (Hbackend : backend_ok backend).

(** Nobody takes the next session away. *)
Lemma allocate_uncontended n (s : S) :
  ensures alone (allocate_attempts backend (Datatypes.S n)) s (λ _ _ r, r ≠ Err Contention).
Proof.
  cbn [allocate_attempts]. apply (ensures_get alone same_view); [|done]. intros s1 Hs1. cbn [get_kvs select_kvs].
  assert (∀ old c, compare_holds (keyspace s1) c = true →
    ensures alone (match checked_add_u64 old 1 with
      | None => Ret (Err InvalidSession)
      | Some next =>
          let! response := call (Transact [c] [TxnPut (sequence_key backend) (pretty next) 0]) in
          if succeeded response then Ret (Ok (SessionId_from_sequence next))
          else allocate_attempts backend n
      end) s1 (λ _ _ r, r ≠ Err Contention)) as Htry.
  { intros old c Hc. destruct (checked_add_u64 old 1) as [next|]; [|by apply (ensures_ret alone same_view)].
    apply (ensures_txn alone same_view); [|intros s2 [Hk _] Hf|done|done].
    - intros s2 s3 _ _ _. by apply (ensures_ret alone same_view).
    - cbn in Hf. by rewrite Hk, Hc in Hf. }
  destruct (keyspace s1 !! sequence_key backend) as [kv|] eqn:Hkv.
  - destruct (parse_sequence (kv_value kv)) as [old|e] eqn:Hp; cbn [fst snd].
    + apply Htry. cbn. unfold kv_field. rewrite Hkv. by apply bool_decide_eq_true_2.
    + apply (ensures_ret alone same_view). apply parse_sequence_inv in Hp as ->. done.
  - cbn [fst snd]. apply Htry. cbn. unfold kv_field. by rewrite Hkv.
Qed.

(** An undisturbed allocation gives the next session. *)
Lemma allocate_alone st (s : S) :
  represents backend st (keyspace s) →
  ensures alone (SessionStore.allocate_session backend) s (λ tr s' r,
    match r with
    | Ok session => session = fresh_session st ∧ allocate_step backend session s s'
    | Err InvalidSession => next_session_sequence st = u64_MAX
    | Err (Etcd _) => True
    | Err _ => False
    end).
Proof.
  intros Hrep tr s' r Hrun. pose proof (rep_sequence _ _ _ Hrep) as Hseq.
  pose proof (allocate_uncontended 31 s tr s' r Hrun) as Hnot.
  pose proof (runs_path alone same_view _ s tr s' r Hrun) as Hpath.
  apply (allocate_attempts_outcome alone same_view backend) in Hrun.
  destruct r as [session|e]; [|destruct e; try done].
  - destruct Hrun as (s1 & s2 & [Hk1 Hh1] & -> & Hstep). destruct Hpath as [_ [Hk2 Hh2]].
    unfold allocate_step in Hstep |- *. rewrite Hk1, Hh1 in Hstep. rewrite Hk2, Hh2.
    split; [|done]. destruct Hstep as ((old & Hold & ->) & _). rewrite Hseq in Hold. by injection Hold as <-.
  - destruct Hrun as (_ & s1 & [Hk1 _] & Hbad). rewrite Hk1, Hseq in Hbad. naive_solver.
Qed.

(** ** The programs of a registration *)

Lemma latest_alone (s : S) i :
  ensures alone (latest_session backend i) s (λ tr s' r,
    same_view s s' ∧
    match r with
    | Ok o => o = max_session (omap session_of_key (select_kvs (keyspace s) (session_prefix backend i) true))
    | Err e => ∃ text, e = Etcd text
    end).
Proof.
  apply (ensures_raw_snapshot alone same_view).
  - intros s1 Hs1. apply (ensures_ret alone same_view). intros s2 Hs2. split; [by etrans|].
    destruct Hs1 as [-> _]. done.
  - intros text s' Hs'. split; [done|eauto].
Qed.

Lemma carried_alone (s : S) i o m options :
  (∀ n key, o = Some n → is_Some (keyspace s !! key) →
     starts_with (current_state_session_prefix backend i n) key = true →
     ∃ r p, key = current_state_key backend i n r p ∧ valid_name (resource_str r) ∧
            valid_name (partition_str p)) →
  ensures alone (carried_state backend i o m options) s (λ tr s' res,
    same_view s s' ∧
    match res with
    | Ok carried => ∀ key state, (key, state) ∈ carried ↔
        ∃ n r p, o = Some n ∧ is_Some (keyspace s !! current_state_key backend i n r p) ∧
                 key = current_state_key backend i m r p ∧ state = options_initial_state options r
    | Err e => ∃ text, e = Etcd text
    end).
Proof.
  intros Hkeys. destruct o as [n|]; cbn [carried_state]; last first.
  { apply (ensures_ret alone same_view). intros s' Hs'. split; [done|]. intros key state.
    rewrite elem_of_nil. split; [done|]. intros (? & ? & ? & [=] & _). }
  apply (ensures_raw_snapshot alone same_view); [|intros text s' Hs'; split; [done|eauto]].
  intros s1 Hs1. cbn [snd].
  destruct (carried_found backend Hbackend s1 i n m options) as (carried & -> & Hin).
  { destruct Hs1 as [-> _]. intros key. by apply Hkeys. }
  apply (ensures_ret alone same_view). intros s' Hs'. split; [by etrans|].
  intros key state. rewrite Hin. destruct Hs1 as [-> _]. naive_solver.
Qed.

(** How a registration that finds the model in [st] ends. *)
Definition connects (st : ParticipantSessionState) (i : InstanceId) (s' : S)
    (res : result EtcdParticipantSession CoordinationError) : Prop :=
  match res with
  | Ok session => eps_instance session = i ∧
      (∃ kv, keyspace s' !! live_key backend i = Some kv ∧ kv_lease kv = eps_lease session) ∧
      ∃ st', connect st i = Ok (eps_session session, st') ∧ represents backend st' (keyspace s')
  | Err RegistrationLost => connect st i = Err (AlreadyLive i)
  | Err InvalidSession => is_ok (connect st i) = false
  | Err e => ∃ text, e = Etcd text
  end.

Lemma connects_error (s : S) st i text : ensures alone (Ret (Err (Etcd text))) s (λ _ s' res, connects st i s' res).
Proof. apply (ensures_ret alone same_view). intros s' _. by exists text. Qed.

(** The last transaction of a registration. *)
Lemma register_commits st (s0 s1 s : S) i o lease carried :
  represents backend st (keyspace s0) → allocate_step backend (fresh_session st) s0 s1 → same_view s1 s →
  previous_resources st i None = match o with Some n => session_resources st i n | None => None end →
  (∀ key state, (key, state) ∈ carried ↔
     ∃ n r p, o = Some n ∧ is_Some (keyspace s0 !! current_state_key backend i n r p) ∧
              key = current_state_key backend i (fresh_session st) r p ∧ state = initial_state_for st r) →
  ensures alone
    (let! response := call (Transact [CompareVersion (live_key backend i) 0]
       (registration_operations backend i (fresh_session st) lease carried)) in
     if succeeded response then
       try! revision := revision_from_header (txn_header response) in
       Ret (Ok (MkEtcdParticipantSession backend i (fresh_session st) lease revision))
     else
       let! _ := call (LeaseRevoke lease) in
       Ret (Err RegistrationLost)) s (λ _ s' res, connects st i s' res).
Proof.
  intros Hrep Halloc [Hk Hh] Hprev Hcar. pose proof (rep_inv _ _ _ Hrep) as Hinv.
  pose proof Halloc as (_ & Hwidth & _ & _ & Hframe). cbn in Hwidth.
  assert (∀ s2, same_view s s2 → live_text backend (keyspace s2) i =
    session_text ∘ live_session_id <$> live_instances st !! i) as Hlive.
  { intros s2 [Hk2 _]. rewrite <-(rep_live _ _ _ Hrep). unfold live_text.
    rewrite Hk2, Hk, Hframe; [done|distinct_keys]. }
  apply (ensures_txn alone same_view); [| |by intros; eexists..].
  - intros s2 s3 Hs2 Hc He. cbn [succeeded txn_header]. rewrite revision_of_head.
    apply (ensures_ret alone same_view). intros s4 [Hk4 Hh4]. rewrite <-Hk4, <-Hh4 in He.
    apply (registration_effect _ _ _ _ _ _ _ (initial_state_for st)) in He; last first.
    { intros key state (n & r & p & _ & _ & -> & ->)%Hcar. eauto. }
    assert (live_instances st !! i = None) as Hnot.
    { specialize (Hlive s2 Hs2). cbn in Hc. apply andb_true_iff in Hc as [Hc%bool_decide_eq_true_1 _].
      unfold live_text in Hlive. rewrite (version_zero s2 _ Hc) in Hlive.
      by destruct (live_instances st !! i). }
    split; [done|]. split; [destruct (reg_live _ _ _ _ _ _ _ He) as (kv & ? & _ & ?); eauto|].
    rewrite connect_eq, Hnot by done. destruct (_ <? _)%N eqn:Hlt; [|apply N.ltb_ge in Hlt; lia].
    eexists. split; [reflexivity|]. eapply (registered_represents backend st s0 s2); [done| |done|exact Hcar|exact He].
    destruct Hs2 as [Hk2 Hh2]. unfold allocate_step in Halloc |- *. by rewrite Hk2, Hh2, Hk, Hh.
  - intros s2 Hs2 Hc. cbn [succeeded]. apply (ensures_call_try alone same_view); [|by intros; eexists].
    intros s3 [] s4 _ _. apply (ensures_ret alone same_view). intros s5 _. cbn.
    specialize (Hlive s2 Hs2). cbn in Hc. unfold kv_field, live_text in *.
    rewrite connect_eq by done. destruct (live_instances st !! i) as [l|]; [done|].
    apply fmap_None in Hlive. by rewrite Hlive in Hc.
Qed.
End undisturbed.

(** Publishing current states to etcd implements the publication of the
    session model, whatever other clients do: on success one transaction takes
    the state it finds to the state the model gives, a refused publication has
    changed nothing and would be refused by the model at some moment of the
    call, and a lost answer means the step was taken once or not at all. *)
Theorem publish_refines_model {S : Type} `{EtcdLaws S} (env : S → S → Prop) backend i n r new s tr s' res :
  (∀ s s', env s s' → evolves s s') →
  valid_name (resource_str r) → (∀ p, is_Some (new !! p) → valid_name (partition_str p)) →
  runs env (publish_current_state backend i n r new) s tr s' res →
  match res with
  | Ok _ => once evolves (model_publishes backend i n r new) s tr
  | Err (Etcd _) => tr = [] ∨ once evolves (model_publishes backend i n r new) s tr
  | Err _ => tr = [] ∧ ∃ s1, evolves s s1 ∧ ∀ st, represents backend st (keyspace s1) →
      is_ok (Session.publish_current_state st i n r new) = false
  end.
Proof.
  intros Henv Hr Hp Hrun. pose proof (evolves_rely env Henv).
  apply (publish_state_outcome env evolves backend i n r new s) in Hrun.
  destruct res as [rev|e]; [|destruct e; try done].
  - destruct Hrun as (s1 & s2 & Hs1 & -> & Hstep & _). exists s1, s2. split_and!; [done..|].
    by apply step_publishes.
  - destruct Hrun as [->|(s1 & s2 & Hs1 & -> & Hstep)]; [by left|right]. exists s1, s2.
    split_and!; [done..|]. by apply step_publishes.
  - destruct Hrun as (-> & -> & s1 & Hs1 & Hlive). split; [done|]. exists s1. split; [done|].
    intros st Hrep. unfold Session.publish_current_state.
    destruct (require_live_session st i n) as [[]|] eqn:Hreq; [|done]. exfalso.
    apply Hlive. by apply (live_represented backend st s1 i n Hrep).
Qed.

(** C15: a participant that registers undisturbed gets exactly what the session
    model's [connect] gives: the same session number, and a store that represents
    the state after it, with the replicas of its previous session back in their
    initial states and the live record under its lease; a registration that is
    refused is refused by the model too, and only a transport error leaves it
    open. *)
Theorem register_refines_connect {S : Type} `{EtcdLaws S} backend i options st (s : S) tr s' res :
  backend_ok backend → represents backend st (keyspace s) →
  (∀ r, options_initial_state options r = initial_state_for st r) →
  runs alone (register backend i options) s tr s' res →
  connects backend st i s' res.
Proof.
  intros Hb Hrep Hinit Hrun. cut (ensures alone (register backend i options) s
    (λ _ s' res, connects backend st i s' res)); [intros Hreg; by eapply Hreg|]. clear Hrun.
  apply holds_bind. eapply holds_mono; [apply latest_alone|]. intros tr0 s0 [o|e] [Hs0 Hlatest]; last first.
  { destruct Hlatest as [text ->]. apply connects_error. }
  pose proof (latest_represents backend Hb st s i Hrep) as Hprev. rewrite <-Hlatest in Hprev.
  assert (represents backend st (keyspace s0)) as Hrep0 by by destruct Hs0 as [-> _].
  apply holds_bind. eapply holds_mono; [by apply (allocate_alone backend st)|].
  intros tr1 s1 [session|e] Halloc; last first.
  { destruct e; try done; [apply connects_error|]. apply (ensures_ret alone same_view). intros s2 _. cbn.
    rewrite connect_eq, Halloc by apply Hrep. by destruct (live_instances st !! i). }
  destruct Halloc as [-> Halloc]. pose proof Halloc as (_ & _ & _ & _ & Hframe).
  apply holds_bind. eapply holds_mono; [apply (carried_alone backend Hb s1)|].
  { intros n key Ho Hkey Hpre. apply (rep_record_keys _ _ _ Hrep0 i n key); [|done]. rewrite <-Hframe; [done|].
    intros ->. unfold current_state_session_prefix, sequence_key in Hpre.
    by rewrite starts_with_namespaced in Hpre. }
  intros tr2 s2 [carried|e] [Hs2 Hcar]; last first.
  { destruct Hcar as [text ->]. apply connects_error. }
  apply (ensures_call_try alone same_view); [|by intros; eexists].
  intros s3 lease s4 Hs3 (Hk4 & Hh4 & _)%serve_documented.
  eapply register_commits; [exact Hrep0|exact Halloc| |exact Hprev|].
  { destruct Hs2 as [Hk2 Hh2], Hs3 as [Hk3 Hh3]. split; congruence. }
  intros key state. rewrite Hcar. setoid_rewrite Hinit. setoid_rewrite Hframe; [done|distinct_keys].
Qed.

(** ** A first participant *)

Lemma represents_empty backend : represents backend ParticipantSessionState_new ∅.
Proof.
  split.
  - apply session_inv_new.
  - intros i. unfold live_text. by rewrite lookup_empty.
  - intros i n r p. unfold record_text. by rewrite lookup_empty.
  - intros i n. rewrite lookup_empty. split; [by intros []|done].
  - unfold stored_sequence. by rewrite lookup_empty.
  - intros i key [kv Hkv]. by rewrite lookup_empty in Hkv.
  - intros i n key [kv Hkv]. by rewrite lookup_empty in Hkv.
Qed.

Definition ex_options : RegistrationOptions := MkRegistrationOptions (MkDuration 30 0) OFFLINE ∅.
Definition ex_register : prog EtcdParticipantSession := register ex_backend ex_instance ex_options.
Definition ex_empty : mem_store := MkMem ∅ 1 1.

Lemma ex_empty_represents : represents ex_backend ParticipantSessionState_new (keyspace ex_empty).
Proof.
  change (keyspace ex_empty) with (mem_keyspace ex_empty). unfold mem_keyspace, ex_empty. cbn [mem_raw].
  rewrite map_filter_empty. apply represents_empty.
Qed.

Lemma ex_register_result :
  (λ x : list (observation mem_store) * mem_store * result EtcdParticipantSession CoordinationError,
     map_ok (λ session, (eps_session session, eps_lease session)) x.2)
    <$> run_mem 40 ex_register ex_empty = Some (Ok (MkSessionId 1, 1%Z)).
Proof. vm_compute. reflexivity. Qed.

Lemma register_refines_connect_witness :
  ∃ st' (m' : mem_store), connect ParticipantSessionState_new ex_instance = Ok (MkSessionId 1, st') ∧
    represents ex_backend st' (keyspace m').
Proof.
  pose proof ex_register_result as Hres.
  destruct (run_mem 40 ex_register ex_empty) as [[[tr m'] [session|e]]|] eqn:Hrun;
    [|discriminate Hres|discriminate Hres].
  cbn in Hres. injection Hres as Hn _. apply run_mem_sound in Hrun.
  destruct (register_refines_connect ex_backend ex_instance ex_options ParticipantSessionState_new
    ex_empty tr m' (Ok session) ex_backend_ok ex_empty_represents
    (λ r, eq_refl) Hrun) as (_ & _ & st' & Hc & Hr).
  exists st', m'. rewrite <-Hn. split; [exact Hc|exact Hr].
Defined.

Definition ex_states : gmap PartitionId State := {[MkPartitionId "p0" := LEADER]}.
Definition ex_publish_state : prog Revision :=
  publish_current_state ex_backend ex_instance (MkSessionId 1) ex_resource ex_states.

Lemma ex_publish_state_result :
  snd <$> run_mem 20 ex_publish_state ex_store = Some (Ok (MkRevision 3)).
Proof. vm_compute. reflexivity. Qed.

Lemma publish_refines_model_witness :
  ∃ tr, once evolves (model_publishes ex_backend ex_instance (MkSessionId 1) ex_resource ex_states)
    ex_store tr.
Proof.
  pose proof ex_publish_state_result as Hres.
  destruct (run_mem 20 ex_publish_state ex_store) as [[[tr m'] r]|] eqn:Hrun; [|discriminate Hres].
  injection Hres as ->. apply run_mem_sound in Hrun. exists tr.
  refine (publish_refines_model alone ex_backend ex_instance (MkSessionId 1) ex_resource ex_states
    ex_store tr m' (Ok (MkRevision 3)) alone_evolves _ _ Hrun).
  - split; reflexivity.
  - intros p [s Hs]. unfold ex_states in Hs. apply lookup_singleton_Some in Hs as [<- _]. split; reflexivity.
Defined.
