(* ===== verification/Queue.v ===== *)
(** * The transition queue

    Models the queue of [src/coordination/etcd/mod.rs]: the messages of the
    controller live in one metadata record, which participants claim and complete
    and tools append to.  The loops over [MAX_QUEUE_CAS_RETRIES] are recursion on
    the attempts left; the JSON codec of the messages is a parameter. *)

From S2P Require Import Prelude Identity StateMaps Transitions Keys Snapshot.
From S2P Require Import Etcd Metadata InputMarker SessionStore.

Record ParticipantCompletionFence := MkCompletionFence {
  cf_instance : InstanceId;
  cf_session : SessionId;
  queue_revision : Revision;
  cf_message_id : string
}.

Inductive CompletionResult :=
| Applied (revision : Revision)
| CompletionSessionLost
| AlreadyCompleted.

Inductive TransitionClaim :=
| Claimed (revision : Revision)
| ClaimSessionLost
| Withdrawn.

(** [serde_json] for [Vec<TransitionMessage>] *)
Record QueueCodec := MkQueueCodec {
  from_messages : string → result (list TransitionMessage) string;
  to_messages : list TransitionMessage → result string string
}.

Definition MAX_QUEUE_CAS_RETRIES : nat := 256.

Section queue_programs.
Variable codec : QueueCodec.
Variable backend : EtcdCoordination.

Definition parse_pending_messages (value : option string)
  : result (list TransitionMessage) CoordinationError :=
  let? messages := match value with
                   | Some value => map_err (λ _, InvalidValue) (from_messages codec value)
                   | None => Ok []
                   end in
  if existsb (λ message, is_empty (message_id message)) messages then Err InvalidValue else Ok messages.

Definition encode_messages (messages : list TransitionMessage) : result string CoordinationError :=
  map_err (λ _, InvalidValue) (to_messages codec messages).

(** The loop of [advance_metadata_revision]. *)
Fixpoint advance_attempts (attempts : nat) (key : string) (revision : Revision) : prog Revision :=
  match attempts with
  | O => Ret (Err Contention)
  | S attempts =>
      let value := pretty (revision_value revision) in
      let! entry := get_metadata backend key in
      match entry with
      | None =>
          let! applied := compare_and_put_absent backend key value in
          if applied : bool then Ret (Ok revision) else advance_attempts attempts key revision
      | Some entry =>
          try! text := (match entry_value entry with Some text => Ok text | None => Err InvalidValue end) in
          try! current := (match parse_i64 text with Some current => Ok current | None => Err InvalidValue end) in
          try! current := Revision_new current in
          if (revision_value revision <=? revision_value current)%Z then Ret (Ok current)
          else
            let! result := compare_and_put backend key (entry_revision entry) value in
            if applied result then Ret (Ok revision) else advance_attempts attempts key revision
      end
  end.

Definition advance_metadata_revision (key : string) (revision : Revision) : prog Revision :=
  advance_attempts MAX_QUEUE_CAS_RETRIES key revision.

(** The loop of [inject_pending_transition]. *)
Fixpoint inject_attempts (attempts : nat) (message : TransitionMessage) : prog Revision :=
  match attempts with
  | O => Ret (Err Contention)
  | S attempts =>
      let! entry := get_metadata backend PENDING_TRANSITIONS_KEY in
      let! state :=
        (match entry with
         | Some entry =>
             try! messages := parse_pending_messages (entry_value entry) in
             Ret (Ok (entry_revision entry, messages, true))
         | None =>
             let! snapshot := controller_snapshot backend in
             Ret (Ok (snap_revision snapshot, [], false))
         end) in
      let '(expected, messages, exists_) := state in
      if existsb (λ candidate, String.eqb (message_id candidate) (message_id message)) messages
      then Ret (Err (DuplicateMessage (message_id message)))
      else
        try! value := encode_messages (messages ++ [message]) in
        let! applied :=
          (if exists_ : bool then
             let! result := compare_and_put backend PENDING_TRANSITIONS_KEY expected value in
             Ret (Ok (applied result))
           else compare_and_put_absent backend PENDING_TRANSITIONS_KEY value) in
        if applied : bool then
          let! entry := get_metadata backend PENDING_TRANSITIONS_KEY in
          match entry with
          | Some entry => Ret (Ok (entry_revision entry))
          | None => Ret (Err MissingRevision)
          end
        else inject_attempts attempts message
  end.

Definition inject_pending_transition (message : TransitionMessage) : prog Revision :=
  if is_empty (message_id message) then Ret (Err InvalidValue)
  else inject_attempts MAX_QUEUE_CAS_RETRIES message.

(** The loop of [claim_pending_transition]. *)
Fixpoint claim_attempts (attempts : nat) (instance : InstanceId) (session : SessionId)
    (message : TransitionMessage) : prog TransitionClaim :=
  match attempts with
  | O => Ret (Err Contention)
  | S attempts =>
      let! entry := get_metadata backend PENDING_TRANSITIONS_KEY in
      match entry with
      | None => Ret (Ok Withdrawn)
      | Some entry =>
          try! messages := parse_pending_messages (entry_value entry) in
          if negb (existsb (λ candidate, bool_decide (candidate = message)) messages)
          then Ret (Ok Withdrawn)
          else
            try! queue_value :=
              (match entry_value entry with Some value => Ok value | None => Err InvalidValue end) in
            let! response := call (Transact
              [ CompareValue (live_key backend instance) (session_text session);
                CompareModRevision (metadata_key backend PENDING_TRANSITIONS_KEY)
                  (revision_value (entry_revision entry));
                CompareValue (metadata_key backend PENDING_TRANSITIONS_KEY) queue_value ] []) in
            if succeeded response then Ret (Ok (Claimed (entry_revision entry)))
            else
              let! live := live_session backend instance in
              if negb (bool_decide (live = Some session)) then Ret (Ok ClaimSessionLost)
              else claim_attempts attempts instance session message
      end
  end.

Definition claim_pending_transition (instance : InstanceId) (session : SessionId)
    (message : TransitionMessage) : prog TransitionClaim :=
  claim_attempts MAX_QUEUE_CAS_RETRIES instance session message.

(** What becomes of an in-flight message whose session is gone. *)
Definition cleanup_lost (fence : ParticipantCompletionFence) : prog CompletionResult :=
  let! entry := get_metadata backend PENDING_TRANSITIONS_KEY in
  match entry with
  | None => Ret (Ok CompletionSessionLost)
  | Some entry =>
      try! current := parse_pending_messages (entry_value entry) in
      let retained :=
        List.filter (λ candidate, negb (String.eqb (message_id candidate) (cf_message_id fence))) current in
      if (length retained =? length current)%nat then Ret (Ok AlreadyCompleted)
      else if negb (bool_decide (entry_revision entry = queue_revision fence))
      then Ret (Ok CompletionSessionLost)
      else
        try! value := encode_messages retained in
        let! _ := compare_and_put backend PENDING_TRANSITIONS_KEY (queue_revision fence) value in
        Ret (Ok CompletionSessionLost)
  end.

Definition completion_operations (fence : ParticipantCompletionFence) (resource : ResourceId)
    (partition : PartitionId) (resulting_state : option State) (queue_value : string) : list TxnOp :=
  let key := current_state_key backend (cf_instance fence) (cf_session fence) resource partition in
  [ match resulting_state with Some state => TxnPut key (state_str state) 0 | None => TxnDelete key end;
    TxnPut (metadata_key backend PENDING_TRANSITIONS_KEY) queue_value 0;
    authoritative_input_marker_operation backend ].

Definition complete_pending_transition_with_fence (fence : ParticipantCompletionFence)
    (message : TransitionMessage) (resulting_state : option State) : prog CompletionResult :=
  try! resource := map_err (λ _, InvalidKey) (ResourceId_new (tm_resource message)) in
  try! partition := map_err (λ _, InvalidKey) (PartitionId_new (tm_partition message)) in
  let! entry := get_metadata backend PENDING_TRANSITIONS_KEY in
  match entry with
  | None => Ret (Ok AlreadyCompleted)
  | Some entry =>
      try! messages := parse_pending_messages (entry_value entry) in
      match position (λ candidate, String.eqb (message_id candidate) (cf_message_id fence)) messages with
      | None => Ret (Ok AlreadyCompleted)
      | Some index =>
          if negb (bool_decide (messages !! N.to_nat index = Some message)) then Ret (Ok AlreadyCompleted)
          else if negb (bool_decide (entry_revision entry = queue_revision fence))
          then Ret (Err StaleRevision)
          else
            try! queue_value := encode_messages (delete (N.to_nat index) messages) in
            let! response := call (Transact
              [ CompareValue (live_key backend (cf_instance fence)) (session_text (cf_session fence));
                CompareModRevision (metadata_key backend PENDING_TRANSITIONS_KEY)
                  (revision_value (queue_revision fence)) ]
              (completion_operations fence resource partition resulting_state queue_value)) in
            if succeeded response then
              try! revision := revision_from_header (txn_header response) in
              Ret (Ok (Applied revision))
            else
              let! live := live_session backend (cf_instance fence) in
              if bool_decide (live = Some (cf_session fence)) then Ret (Err StaleRevision)
              else cleanup_lost fence
      end
  end.

Definition complete_pending_transition (instance : InstanceId) (session : SessionId)
    (expected_revision : Revision) (message : TransitionMessage) (resulting_state : option State)
  : prog CompletionResult :=
  complete_pending_transition_with_fence
    (MkCompletionFence instance session expected_revision (message_id message)) message resulting_state.

Definition remove_pending_transition (expected_revision : Revision) (id : string) : prog bool :=
  let! entry := get_metadata backend PENDING_TRANSITIONS_KEY in
  match entry with
  | None => Ret (Ok false)
  | Some entry =>
      try! messages := parse_pending_messages (entry_value entry) in
      let retained := List.filter (λ message, negb (String.eqb (message_id message) id)) messages in
      if (length retained =? length messages)%nat then Ret (Ok false)
      else if negb (bool_decide (entry_revision entry = expected_revision)) then Ret (Err StaleRevision)
      else
        try! value := encode_messages retained in
        let! result := compare_and_put backend PENDING_TRANSITIONS_KEY expected_revision value in
        if applied result then Ret (Ok true) else Ret (Err StaleRevision)
  end.

(** The loop of [remove_pending_transitions_for_resource]. *)
Fixpoint remove_attempts (attempts : nat) (resource : ResourceId) : prog unit :=
  match attempts with
  | O => Ret (Err Contention)
  | S attempts =>
      let! entry := get_metadata backend PENDING_TRANSITIONS_KEY in
      match entry with
      | None => Ret (Ok tt)
      | Some entry =>
          try! messages := parse_pending_messages (entry_value entry) in
          let retained :=
            List.filter (λ message, negb (String.eqb (tm_resource message) (resource_str resource))) messages in
          if (length retained =? length messages)%nat then Ret (Ok tt)
          else
            try! value := encode_messages retained in
            let! result := compare_and_put backend PENDING_TRANSITIONS_KEY (entry_revision entry) value in
            if applied result then Ret (Ok tt) else remove_attempts attempts resource
      end
  end.

Definition remove_pending_transitions_for_resource (resource : ResourceId) : prog unit :=
  remove_attempts MAX_QUEUE_CAS_RETRIES resource.
End queue_programs.

(** * Facts *)

Section queue_facts.
Context {S : Type} `{EtcdLaws S} (env rely : S → S → Prop) `{!Rely env rely}.
Context (codec : QueueCodec) (backend : EtcdCoordination).

Lemma parse_text_inj m n : parse_session (session_text m) = Ok n → n = m.
Proof.
  unfold parse_session, parse_sequence, session_text. destruct (utf8_valid _); [|done].
  rewrite parse_unsigned_pretty. destruct (_ <=? _)%N; [|done]. destruct (_ <? _)%N; [|done].
  intros [= <-]. by destruct m.
Qed.

(** ** Completion *)

Section completion.
Context (fence : ParticipantCompletionFence) (message : TransitionMessage) (resulting : option State).

Abbreviation fenced_record ks :=
  (record_text backend ks (cf_instance fence) (cf_session fence) (MkResourceId (tm_resource message))
     (MkPartitionId (tm_partition message))).
Abbreviation record_key :=
  (current_state_key backend (cf_instance fence) (cf_session fence) (MkResourceId (tm_resource message))
     (MkPartitionId (tm_partition message))).

(** The queue as the fence saw it. *)
Definition queue_seen (ks : keyspace_t) (messages : list TransitionMessage) : Prop :=
  ∃ kv, ks !! pending_key backend = Some kv ∧ kv_mod_revision kv = revision_value (queue_revision fence) ∧
        parse_pending_messages codec (Some (kv_value kv)) = Ok messages.

(** A message is completed: its live session publishes the resulting state of the
    replica and takes the message off the queue, in one step. *)
Record complete_step (s1 s2 : S) : Prop := {
  cs_live : live_text backend (keyspace s1) (cf_instance fence) = Some (session_text (cf_session fence));
  cs_queue : ∃ messages index text, queue_seen (keyspace s1) messages ∧
    messages !! index = Some message ∧ message_id message = cf_message_id fence ∧
    (∀ j m, (j < index)%nat → messages !! j = Some m → message_id m ≠ cf_message_id fence) ∧
    to_messages codec (delete index messages) = Ok text ∧
    kv_value <$> keyspace s2 !! pending_key backend = Some text;
  cs_record : fenced_record (keyspace s2) = state_str <$> resulting;
  cs_moves : kv_field (keyspace s2) (pending_key backend) kv_mod_revision 0%Z = head s2;
  cs_head : head s2 = (head s1 + 1)%Z;
  cs_frame : ∀ key, key ≠ record_key → key ≠ pending_key backend → key ≠ marker_key backend →
    keyspace s2 !! key = keyspace s1 !! key
}.

(** A message is withdrawn after its session was lost: it leaves the queue, and
    nothing else changes. *)
Record withdraw_step (s1 s2 : S) : Prop := {
  ws_queue : ∃ messages text, queue_seen (keyspace s1) messages ∧
    to_messages codec
      (List.filter (λ m, negb (String.eqb (message_id m) (cf_message_id fence))) messages) = Ok text ∧
    kv_value <$> keyspace s2 !! pending_key backend = Some text;
  ws_head : head s2 = (head s1 + 1)%Z;
  ws_frame : ∀ key, key ≠ pending_key backend → keyspace s2 !! key = keyspace s1 !! key
}.

(** At some moment after [s] the session of the fence was not live. *)
Definition session_gone (s : S) : Prop :=
  ∃ s1, rely s s1 ∧
    live_text backend (keyspace s1) (cf_instance fence) ≠ Some (session_text (cf_session fence)).

Definition completion_outcome (s : S) (tr : list (observation S))
    (r : result CompletionResult CoordinationError) : Prop :=
  match r with
  | Ok (Applied revision) => ∃ s1 s2, rely s s1 ∧ tr = [Committed s1 s2] ∧ complete_step s1 s2 ∧
                                      revision = MkRevision (head s2)
  | Ok AlreadyCompleted => tr = []
  | Ok CompletionSessionLost => (tr = [] ∨ once rely withdraw_step s tr) ∧ session_gone s
  | Err (Etcd _) => tr = [] ∨ once rely complete_step s tr ∨ once rely withdraw_step s tr
  | Err _ => tr = []
  end.

Lemma encode_ok messages text :
  encode_messages codec messages = Ok text ↔ to_messages codec messages = Ok text.
Proof. unfold encode_messages. destruct (to_messages codec messages); naive_solver. Qed.

Lemma encode_error messages e : encode_messages codec messages = Err e → e = InvalidValue.
Proof. unfold encode_messages. destruct (to_messages codec messages); [done|by intros [= <-]]. Qed.

Lemma parse_error value e : parse_pending_messages codec value = Err e → e = InvalidValue.
Proof.
  unfold parse_pending_messages. destruct value as [v|]; [|done].
  destruct (from_messages codec v); cbn; [destruct (existsb _ _); [|done]|]; by intros [= <-].
Qed.

Lemma completion_effect resource partition text (s1 s2 : S) :
  resource = MkResourceId (tm_resource message) → partition = MkPartitionId (tm_partition message) →
  effect_of (keyspace s1) (head s1)
    (completion_operations backend fence resource partition resulting text) (keyspace s2) (head s2) →
  head s2 = (head s1 + 1)%Z ∧ fenced_record (keyspace s2) = state_str <$> resulting ∧
  kv_value <$> keyspace s2 !! pending_key backend = Some text ∧
  kv_field (keyspace s2) (pending_key backend) kv_mod_revision 0%Z = head s2 ∧
  ∀ key, key ≠ record_key → key ≠ pending_key backend → key ≠ marker_key backend →
    keyspace s2 !! key = keyspace s1 !! key.
Proof.
  intros -> -> Heff. unfold effect_of in Heff.
  assert (existsb (op_writes (keyspace s1)) (completion_operations backend fence
    (MkResourceId (tm_resource message)) (MkPartitionId (tm_partition message)) resulting text) = true) as Hw.
  { cbn. by rewrite orb_true_r. }
  rewrite Hw in Heff. destruct Heff as [Hh Hk]. split; [done|].
  assert (record_key ≠ pending_key backend) as Hrp by distinct_keys.
  assert (record_key ≠ marker_key backend) as Hrm by distinct_keys.
  assert (pending_key backend ≠ marker_key backend) as Hpm by by apply metadata_keys_ne.
  unfold completion_operations in Hk. cbn [foldl apply_op authoritative_input_marker_operation] in Hk.
  change (metadata_key backend PENDING_TRANSITIONS_KEY) with (pending_key backend) in Hk.
  change (metadata_key backend AUTHORITATIVE_INPUT_MARKER) with (marker_key backend) in Hk.
  rewrite Hk. split_and!.
  - unfold record_text. rewrite !lookup_insert_ne by congruence.
    destruct resulting as [st|]; cbn [apply_op]; [|by rewrite lookup_delete_eq].
    rewrite lookup_insert_eq. cbn. by rewrite put_kv_value.
  - rewrite lookup_insert_ne, lookup_insert_eq by congruence. cbn. by rewrite put_kv_value.
  - unfold kv_field. rewrite lookup_insert_ne, lookup_insert_eq, put_kv_mod by congruence. done.
  - intros key H1 H2 H3. rewrite !lookup_insert_ne by congruence.
    destruct resulting; cbn [apply_op]; [by rewrite lookup_insert_ne|by rewrite lookup_delete_ne].
Qed.

(** A write of the queue record alone. *)
Lemma queue_write_effect text (s1 s2 : S) :
  effect_of (keyspace s1) (head s1) (with_marker backend PENDING_TRANSITIONS_KEY
    (TxnPut (metadata_key backend PENDING_TRANSITIONS_KEY) text 0)) (keyspace s2) (head s2) →
  head s2 = (head s1 + 1)%Z ∧ kv_value <$> keyspace s2 !! pending_key backend = Some text ∧
  ∀ key, key ≠ pending_key backend → keyspace s2 !! key = keyspace s1 !! key.
Proof.
  intros [Hh Hk]. change (with_marker backend PENDING_TRANSITIONS_KEY ?op) with [op] in Hk.
  cbn [foldl apply_op] in Hk. change (metadata_key backend PENDING_TRANSITIONS_KEY) with (pending_key backend) in Hk.
  split_and!; [done| |].
  - rewrite Hk, lookup_insert_eq. cbn. by rewrite put_kv_value.
  - intros key Hkey. by rewrite Hk, lookup_insert_ne.
Qed.

(** The queue read is still there where its revision is. *)
Lemma queue_unmoved s1 s2 kv messages :
  evolves s1 s2 → keyspace s1 !! pending_key backend = Some kv →
  MkRevision (kv_mod_revision kv) = queue_revision fence →
  parse_pending_messages codec (Some (kv_value kv)) = Ok messages →
  kv_field (keyspace s2) (pending_key backend) kv_mod_revision 0%Z = revision_value (queue_revision fence) →
  queue_seen (keyspace s2) messages.
Proof.
  intros Hev Hkv Hrev Hparse Hmod. exists kv. rewrite <-Hrev in Hmod |- *.
  split_and!; [|done|done]. by eapply unchanged_since.
Qed.

Lemma outcome_error e s s' :
  rely s s' → (∃ text, e = Etcd text) ∨ e = InvalidValue ∨ e = InvalidSession →
  completion_outcome s [] (Err e).
Proof. intros _ [[text ->]|[->| ->]]; [by left|done..]. Qed.

(** A write of the queue without the messages of the fence. *)
Lemma withdraw_commits s1 s2 s3 kv messages text :
  keyspace s1 !! pending_key backend = Some kv →
  MkRevision (kv_mod_revision kv) = queue_revision fence →
  parse_pending_messages codec (Some (kv_value kv)) = Ok messages →
  encode_messages codec
    (List.filter (λ m, negb (String.eqb (message_id m) (cf_message_id fence))) messages) = Ok text →
  rely s1 s2 →
  kv_field (keyspace s2) (metadata_key backend PENDING_TRANSITIONS_KEY) kv_mod_revision 0%Z =
    revision_value (queue_revision fence) ∧
  effect_of (keyspace s2) (head s2) (with_marker backend PENDING_TRANSITIONS_KEY
    (TxnPut (metadata_key backend PENDING_TRANSITIONS_KEY) text 0)) (keyspace s3) (head s3) →
  withdraw_step s2 s3 ∧ commit s2 s3 = [Committed s2 s3].
Proof.
  intros Hkv Hrev Hp Henc Hs2 [Hmod (Hh & Hv & Hf)%queue_write_effect]. split; [|by apply commit_changed].
  split; [|done|done]. apply encode_ok in Henc. exists messages, text. split; [|done].
  eapply queue_unmoved; [by eapply rely_evolves|done..].
Qed.

Lemma cleanup_outcome s s0 :
  rely s s0 → session_gone s →
  ensures env (cleanup_lost codec backend fence) s0 (λ tr _ r, completion_outcome s tr r).
Proof.
  intros Hs Hgone. unfold cleanup_lost.
  assert (∀ s' x, completion_outcome s [] x → ensures env (Ret x) s' (λ tr _ r, completion_outcome s tr r)) as Hret.
  { intros s' x Hx. by apply (ensures_ret env rely). }
  apply (ensures_get_metadata env rely).
  - intros s1 Hs1 _. apply Hret. split; [by left|done].
  - intros s1 kv Hs1 Hkv. cbn [entry_value entry_revision].
    destruct (parse_pending_messages codec (Some (kv_value kv))) as [messages|e] eqn:Hp; last first.
    { apply Hret. by apply parse_error in Hp as ->. }
    cbv zeta. destruct (_ =? _)%nat; [by apply Hret|].
    destruct (bool_decide (MkRevision (kv_mod_revision kv) = queue_revision fence)) eqn:Hrev;
      [|apply Hret; split; [by left|done]].
    apply bool_decide_eq_true_1 in Hrev. cbn [negb].
    destruct (encode_messages codec _) as [text|e] eqn:Henc; last first.
    { apply Hret. by apply encode_error in Henc as ->. }
    assert (∀ s2 s3, rely s1 s2 →
      kv_field (keyspace s2) (metadata_key backend PENDING_TRANSITIONS_KEY) kv_mod_revision 0%Z =
        revision_value (queue_revision fence) ∧
      effect_of (keyspace s2) (head s2) (with_marker backend PENDING_TRANSITIONS_KEY
        (TxnPut (metadata_key backend PENDING_TRANSITIONS_KEY) text 0)) (keyspace s3) (head s3) →
      once rely withdraw_step s (commit s2 s3)) as Hstep.
    { intros s2 s3 Hs2 Hhit. destruct (withdraw_commits s1 s2 s3 kv messages text Hkv Hrev Hp Henc Hs2 Hhit) as [Hw ->].
      exists s2, s3. split_and!; [do 2 (etrans; [done|]); done|done|done]. }
    apply (ensures_compare_and_put env rely).
    + intros s2 s3 Hs2 Hhit. apply (ensures_ret env rely). intros s' _. rewrite app_nil_r.
      split; [right; by apply Hstep|done].
    + intros s2 Hs2 _. apply Hret. split; [by left|done].
    + intros text' s' _. by left.
    + intros text' s2 s3 s' Hs2 Hhit _. right. right. by apply Hstep.
  - intros e s' Hs' He. apply (outcome_error e s s'); [by etrans|naive_solver].
Qed.

Lemma complete_commits s1 s2 s3 kv messages index text :
  keyspace s1 !! pending_key backend = Some kv →
  parse_pending_messages codec (Some (kv_value kv)) = Ok messages →
  position (λ candidate, String.eqb (message_id candidate) (cf_message_id fence)) messages = Some index →
  messages !! N.to_nat index = Some message →
  MkRevision (kv_mod_revision kv) = queue_revision fence →
  encode_messages codec (delete (N.to_nat index) messages) = Ok text →
  rely s1 s2 →
  forallb (compare_holds (keyspace s2))
    [ CompareValue (live_key backend (cf_instance fence)) (session_text (cf_session fence));
      CompareModRevision (metadata_key backend PENDING_TRANSITIONS_KEY)
        (revision_value (queue_revision fence)) ] = true →
  effect_of (keyspace s2) (head s2) (completion_operations backend fence (MkResourceId (tm_resource message))
    (MkPartitionId (tm_partition message)) resulting text) (keyspace s3) (head s3) →
  complete_step s2 s3 ∧ commit s2 s3 = [Committed s2 s3].
Proof.
  intros Hkv Hp Hpos Hmsg Hrev Henc Hs2 Hc He. cbn [forallb compare_holds] in Hc. rewrite andb_true_r in Hc.
  apply andb_true_iff in Hc as [Hlive%bool_decide_eq_true_1 Hmod%bool_decide_eq_true_1].
  apply completion_effect in He as (Hh & Hrec & Hq & Hm & Hf); [|done..].
  split; [|by apply commit_changed]. split; [done| |done..].
  apply position_Some in Hpos as (m & Hm' & Hid & Hfirst). rewrite Hmsg in Hm'. injection Hm' as <-.
  apply String.eqb_eq in Hid. apply encode_ok in Henc.
  exists messages, (N.to_nat index), text. split_and!; [|done|done| |done|done].
  - eapply queue_unmoved; [by eapply rely_evolves|done..].
  - intros j m Hj Hjm. by apply String.eqb_neq, (Hfirst j m).
Qed.

Lemma complete_outcome s :
  ensures env (complete_pending_transition_with_fence codec backend fence message resulting) s
    (λ tr _ r, completion_outcome s tr r).
Proof.
  unfold complete_pending_transition_with_fence, ResourceId_new, PartitionId_new, validate.
  assert (∀ s' x, completion_outcome s [] x → ensures env (Ret x) s' (λ tr _ r, completion_outcome s tr r)) as Hret.
  { intros s' x Hx. by apply (ensures_ret env rely). }
  destruct (is_empty (tm_resource message)); cbn [map_err]; [by apply Hret|].
  destruct (is_empty (tm_partition message)); cbn [map_err]; [by apply Hret|].
  apply (ensures_get_metadata env rely); [by intros; apply Hret| |].
  2: { intros e s' Hs' He. apply (outcome_error e s s'); [done|naive_solver]. }
  intros s1 kv Hs1 Hkv. cbn [entry_value entry_revision].
  destruct (parse_pending_messages codec (Some (kv_value kv))) as [messages|e] eqn:Hp;
    [|apply Hret; by apply parse_error in Hp as ->].
  destruct (position _ messages) as [index|] eqn:Hpos; [|by apply Hret].
  destruct (bool_decide (messages !! N.to_nat index = Some message)) eqn:Hmsg; [|by apply Hret].
  destruct (bool_decide (MkRevision (kv_mod_revision kv) = queue_revision fence)) eqn:Hrev; [|by apply Hret].
  apply bool_decide_eq_true_1 in Hmsg, Hrev. cbn [negb].
  destruct (encode_messages codec _) as [text|e] eqn:Henc; [|apply Hret; by apply encode_error in Henc as ->].
  pose proof (λ s2 s3, complete_commits s1 s2 s3 kv messages index text Hkv Hp Hpos Hmsg Hrev Henc) as Hstep.
  apply (ensures_txn env rely).
  - intros s2 s3 Hs2 Hc He. destruct (Hstep s2 s3 Hs2 Hc He) as [Hcs Hcommit].
    cbn [succeeded txn_header]. rewrite revision_of_head. apply (ensures_ret env rely). intros s' _.
    rewrite Hcommit. exists s2, s3. split_and!; [by etrans|done..].
  - intros s2 Hs2 _. cbn [succeeded]. apply (ensures_live_session env rely).
    + intros s3 Hs3 Hnone. rewrite bool_decide_eq_false_2 by done.
      assert (rely s s3) by (do 2 (etrans; [done|]); done). apply cleanup_outcome; [done|].
      exists s3. split; [done|]. unfold live_text. by rewrite Hnone.
    + intros s3 kv' n Hs3 Hkv' Hn. destruct (bool_decide (Some n = _)) eqn:Hb; [by apply Hret|].
      apply bool_decide_eq_false_1 in Hb. assert (rely s s3) by (do 2 (etrans; [done|]); done).
      apply cleanup_outcome; [done|]. exists s3. split; [done|]. unfold live_text. rewrite Hkv'. cbn.
      intros [= Heq]. rewrite Heq in Hn. by apply parse_text_inj in Hn as ->.
    + intros e s' Hs' He. apply (outcome_error e s s'); [do 2 (etrans; [done|]); done|naive_solver].
  - intros text' s' _. by left.
  - intros text' s2 s3 s' Hs2 Hc He _. destruct (Hstep s2 s3 Hs2 Hc He) as [Hcs Hcommit].
    rewrite Hcommit. right. left. exists s2, s3. split_and!; [by etrans|done..].
Qed.

(** After a message is completed, its fence never holds again. *)
Lemma complete_once s1 s2 s3 s4 : complete_step s1 s2 → evolves s2 s3 → ¬ complete_step s3 s4.
Proof.
  intros Hc (_ & Hold & _) Hc'. destruct (cs_queue _ _ Hc') as (l & k & t & (kv & Hkv & Hmod & _) & _).
  destruct (cs_queue _ _ Hc) as (l' & k' & t' & (kv' & Hkv' & Hmod' & _) & _).
  apply kv_bounds in Hkv' as (_ & _ & Hle & _). pose proof (cs_moves _ _ Hc) as Hm.
  pose proof (cs_head _ _ Hc) as Hh. unfold kv_field in Hm.
  rewrite (Hold _ kv Hkv) in Hm by lia. lia.
Qed.
End completion.

(** ** Claiming *)

(** The queue holds the message. *)
Definition queued (ks : keyspace_t) (message : TransitionMessage) (revision : Z) : Prop :=
  ∃ kv messages, ks !! pending_key backend = Some kv ∧ kv_mod_revision kv = revision ∧
    parse_pending_messages codec (Some (kv_value kv)) = Ok messages ∧ message ∈ messages.

Definition claim_outcome (i : InstanceId) (n : SessionId) (message : TransitionMessage) (s s' : S)
    (r : result TransitionClaim CoordinationError) : Prop :=
  match r with
  | Ok (Claimed revision) => ∃ s1, rely s s1 ∧ rely s1 s' ∧
      live_text backend (keyspace s1) i = Some (session_text n) ∧
      queued (keyspace s1) message (revision_value revision)
  | Ok ClaimSessionLost => ∃ s1, rely s s1 ∧ live_text backend (keyspace s1) i ≠ Some (session_text n)
  | Ok Withdrawn => ∃ s1, rely s s1 ∧ ∀ revision, ¬ queued (keyspace s1) message revision
  | Err _ => True
  end.

Lemma claim_later i n message s s0 s' r :
  rely s s0 → claim_outcome i n message s0 s' r → claim_outcome i n message s s' r.
Proof.
  intros Hs. assert (∀ s1, rely s0 s1 → rely s s1) as Htrans by (intros; by etrans).
  destruct r as [[]|]; cbn; naive_solver.
Qed.

Lemma claim_attempts_outcome attempts i n message s :
  ensures env (claim_attempts codec backend attempts i n message) s
    (λ tr s' r, tr = [] ∧ claim_outcome i n message s s' r).
Proof.
  revert s. induction attempts as [|attempts IH]; intros s; cbn [claim_attempts].
  { apply (ensures_ret env rely). by intros s' _. }
  apply (ensures_get_metadata env rely); [| |done].
  { intros s1 Hs1 Hnone. apply (ensures_ret env rely). intros s' _. split; [done|]. exists s1. split; [done|].
    intros revision (kv & l & Hkv & _). change (pending_key backend) with
      (metadata_key backend PENDING_TRANSITIONS_KEY) in Hkv. congruence. }
  intros s1 kv Hs1 Hkv. cbn [entry_value entry_revision].
  eapply (holds_mono _ _ _ _ _ (λ tr s' r, tr = [] ∧ claim_outcome i n message s1 s' r));
    [|intros tr s' r [-> Hr]; split; [done|by eapply claim_later]].
  destruct (parse_pending_messages codec (Some (kv_value kv))) as [messages|e] eqn:Hp;
    [|by apply (ensures_ret env rely)].
  destruct (existsb _ messages) eqn:Hin; cbn [negb]; last first.
  { apply (ensures_ret env rely). intros s' _. split; [done|]. exists s1. split; [done|].
    intros revision (kv' & l & Hkv' & _ & Hp' & Hl). change (pending_key backend) with
      (metadata_key backend PENDING_TRANSITIONS_KEY) in Hkv'. rewrite Hkv in Hkv'. injection Hkv' as <-.
    rewrite Hp in Hp'. injection Hp' as <-. apply list_elem_of_In in Hl.
    assert (existsb (λ candidate, bool_decide (candidate = message)) messages = true) as Hyes; [|congruence].
    apply existsb_exists. exists message. split; [done|by apply bool_decide_eq_true_2]. }
  apply existsb_exists in Hin as (m & Hm%list_elem_of_In & ->%bool_decide_eq_true_1).
  apply (ensures_txn env rely); [| |done|].
  - intros s2 s3 Hs2 Hc [Hh Hk]. cbn [succeeded]. apply (ensures_ret env rely). intros s' Hs'.
    rewrite commit_same by done. split; [done|]. cbn in Hc.
    rewrite andb_true_r in Hc. apply andb_true_iff in Hc as [Hlive%bool_decide_eq_true_1 Hc].
    apply andb_true_iff in Hc as [Hmod%bool_decide_eq_true_1 _].
    exists s2. split_and!; [done|etrans; [by apply (view_rely s2 s3)|done]|done|].
    exists kv, messages. split_and!; [|done..]. eapply unchanged_since; [by eapply rely_evolves|done|done].
  - intros s2 Hs2 _. cbn [succeeded]. apply (ensures_live_session env rely); [| |done].
    + intros s3 Hs3 Hnone. apply (ensures_ret env rely). intros s' _. split; [done|]. exists s3.
      split; [by etrans|]. unfold live_text. by rewrite Hnone.
    + intros s3 kv' m' Hs3 Hkv' Hn. destruct (bool_decide (Some m' = Some n)) eqn:Hb; cbn [negb].
      * eapply holds_mono; [apply IH|]. intros tr s' r [-> Hr]. split; [done|].
        eapply claim_later; [|done]. by etrans.
      * apply (ensures_ret env rely). intros s' _. split; [done|]. exists s3. split; [by etrans|].
        unfold live_text. rewrite Hkv'. cbn. intros [= Heq]. rewrite Heq in Hn.
        apply parse_text_inj in Hn as ->. by apply bool_decide_eq_false_1 in Hb.
  - intros text s2 s3 s' Hs2 _ [Hh _] _. split; [by apply commit_same|done].
Qed.

(** ** Watermarks *)

(** The watermark a record holds: none, or a number. *)
Definition watermark (ks : keyspace_t) (key : string) : option (option Z) :=
  match ks !! metadata_key backend key with
  | None => Some None
  | Some kv => Some <$> parse_i64 (kv_value kv)
  end.

(** A watermark moves up. *)
Record advance_step (key : string) (revision : Revision) (s1 s2 : S) : Prop := {
  as_before : watermark (keyspace s1) key = Some None ∨
    ∃ old, watermark (keyspace s1) key = Some (Some old) ∧ (old < revision_value revision)%Z;
  as_after : kv_value <$> keyspace s2 !! metadata_key backend key = Some (pretty (revision_value revision));
  as_head : head s2 = (head s1 + 1)%Z;
  as_frame : ∀ k, k ≠ metadata_key backend key → k ≠ marker_key backend →
    keyspace s2 !! k = keyspace s1 !! k
}.

Definition advance_outcome (key : string) (revision : Revision) (s : S) (tr : list (observation S))
    (r : result Revision CoordinationError) : Prop :=
  match r with
  | Ok reached =>
      (reached = revision ∧ once rely (advance_step key revision) s tr) ∨
      (tr = [] ∧ (revision_value revision ≤ revision_value reached)%Z ∧
       ∃ s1, rely s s1 ∧ watermark (keyspace s1) key = Some (Some (revision_value reached)))
  | Err (Etcd _) => tr = [] ∨ once rely (advance_step key revision) s tr
  | Err _ => tr = []
  end.

Lemma advance_later key revision s s0 tr r :
  rely s s0 → advance_outcome key revision s0 tr r → advance_outcome key revision s tr r.
Proof.
  intros Hs. pose proof (λ t, once_later rely (advance_step key revision) s s0 t Hs) as Hlater.
  assert (∀ s1, rely s0 s1 → rely s s1) as Htrans by (intros; by etrans).
  destruct r as [reached|[]]; cbn; naive_solver.
Qed.

Lemma advance_attempts_outcome attempts key revision s :
  key ≠ AUTHORITATIVE_INPUT_MARKER →
  ensures env (advance_attempts backend attempts key revision) s (λ tr _ r, advance_outcome key revision s tr r).
Proof.
  intros Hkey. revert s. induction attempts as [|attempts IH]; intros s; cbn [advance_attempts].
  { apply (ensures_ret env rely). by intros s' _. }
  assert (∀ s1, rely s s1 → ensures env (advance_attempts backend attempts key revision) s1
    (λ tr _ r, advance_outcome key revision s tr r)) as Hagain.
  { intros s1 Hs1. eapply holds_mono; [apply IH|]. intros tr s' r. by apply advance_later. }
  assert (∀ s1 x, advance_outcome key revision s [] x →
    ensures env (Ret x) s1 (λ tr _ r, advance_outcome key revision s tr r)) as Hret.
  { intros s1 x Hx. by apply (ensures_ret env rely). }
  cbv zeta. apply (ensures_get_metadata env rely); [| |intros e s' _ [->|[text ->]]; [done|by left]].
  - intros s1 Hs1 Hnone.
    assert (∀ s2 s3, rely s1 s2 → keyspace s2 !! metadata_key backend key = None ∧
      effect_of (keyspace s2) (head s2) (with_marker backend key (TxnPut (metadata_key backend key)
        (pretty (revision_value revision)) 0)) (keyspace s3) (head s3) →
      once rely (advance_step key revision) s (commit s2 s3)) as Hstep.
    { intros s2 s3 Hs2 [Hno [Hh Hv _ Hf]%metadata_effect]. rewrite commit_changed by done.
      exists s2, s3. split_and!; [by etrans|done|]. split; [|done..]. left. unfold watermark. by rewrite Hno. }
    apply (ensures_put_absent env rely).
    + intros s2 s3 Hs2 Hhit. apply (ensures_ret env rely). intros s' _. rewrite app_nil_r. left. auto.
    + intros s2 Hs2. apply Hagain. by etrans.
    + intros text s' _. by left.
    + intros text s2 s3 s' Hs2 Hhit _. right. auto.
  - intros s1 kv Hs1 Hkv. cbn [entry_value entry_revision].
    destruct (parse_i64 (kv_value kv)) as [old|] eqn:Hp; [|by apply Hret].
    unfold Revision_new. destruct (old <=? 0)%Z eqn:Hpos; [by apply Hret|].
    destruct (revision_value revision <=? _)%Z eqn:Hle; cbn [revision_value] in Hle.
    { apply Hret. right. split_and!; [done|cbn; lia|]. exists s1. split; [done|]. unfold watermark. by rewrite Hkv, Hp. }
    assert (∀ s2 s3, rely s1 s2 →
      kv_field (keyspace s2) (metadata_key backend key) kv_mod_revision 0%Z = kv_mod_revision kv ∧
      effect_of (keyspace s2) (head s2) (with_marker backend key (TxnPut (metadata_key backend key)
        (pretty (revision_value revision)) 0)) (keyspace s3) (head s3) →
      once rely (advance_step key revision) s (commit s2 s3)) as Hstep.
    { intros s2 s3 Hs2 [Hmod [Hh Hv _ Hf]%metadata_effect]. rewrite commit_changed by done.
      exists s2, s3. split_and!; [by etrans|done|]. split; [|done..]. right. exists old. split; [|lia].
      unfold watermark. rewrite (unchanged_since s1 s2 _ kv) by (done || by eapply rely_evolves). by rewrite Hp. }
    apply (ensures_compare_and_put env rely).
    + intros s2 s3 Hs2 Hhit. apply (ensures_ret env rely). intros s' _. rewrite app_nil_r. left. auto.
    + intros s2 Hs2 _. apply Hagain. by etrans.
    + intros text s' _. by left.
    + intros text s2 s3 s' Hs2 Hhit _. right. auto.
Qed.

(** ** Injection *)

(** The messages of the queue, none when there is no record. *)
Definition queue_of (ks : keyspace_t) : result (list TransitionMessage) CoordinationError :=
  match ks !! pending_key backend with
  | None => Ok []
  | Some kv => parse_pending_messages codec (Some (kv_value kv))
  end.

(** A message with a new identity is appended. *)
Record inject_step (message : TransitionMessage) (s1 s2 : S) : Prop := {
  is_queue : ∃ messages text, queue_of (keyspace s1) = Ok messages ∧
    (∀ m, m ∈ messages → message_id m ≠ message_id message) ∧
    to_messages codec (messages ++ [message]) = Ok text ∧
    kv_value <$> keyspace s2 !! pending_key backend = Some text;
  is_head : head s2 = (head s1 + 1)%Z;
  is_frame : ∀ key, key ≠ pending_key backend → keyspace s2 !! key = keyspace s1 !! key
}.

Definition inject_outcome (message : TransitionMessage) (s : S) (tr : list (observation S))
    (r : result Revision CoordinationError) : Prop :=
  match r with
  | Ok _ => once rely (inject_step message) s tr
  | Err Contention | Err (DuplicateMessage _) => tr = []
  | Err _ => tr = [] ∨ once rely (inject_step message) s tr
  end.

Lemma inject_later message s s0 tr r :
  rely s s0 → inject_outcome message s0 tr r → inject_outcome message s tr r.
Proof.
  intros Hs. pose proof (λ t, once_later rely (inject_step message) s s0 t Hs) as Hlater.
  destruct r as [reached|[]]; cbn; naive_solver.
Qed.

(** What follows the write of the queue. *)
Lemma inject_confirm message s tr s2 :
  once rely (inject_step message) s tr →
  ensures env (let! entry := get_metadata backend PENDING_TRANSITIONS_KEY in
     match entry with
     | Some entry => Ret (Ok (entry_revision entry))
     | None => Ret (Err MissingRevision)
     end) s2 (λ tr' _ r, inject_outcome message s (tr ++ tr') r).
Proof.
  intros Honce. apply (ensures_get_metadata env rely).
  - intros s3 _ _. apply (ensures_ret env rely). intros s' _. rewrite app_nil_r. by right.
  - intros s3 kv _ _. apply (ensures_ret env rely). intros s' _. by rewrite app_nil_r.
  - intros e s' _ [->|[text ->]]; rewrite app_nil_r; by right.
Qed.

(** The write of the queue, from the queue read at [s1]. *)
Lemma inject_write message s s1 s2 s3 messages text :
  rely s s1 → rely s1 s2 → queue_of (keyspace s2) = Ok messages →
  existsb (λ candidate, String.eqb (message_id candidate) (message_id message)) messages = false →
  encode_messages codec (messages ++ [message]) = Ok text →
  effect_of (keyspace s2) (head s2) (with_marker backend PENDING_TRANSITIONS_KEY
    (TxnPut (metadata_key backend PENDING_TRANSITIONS_KEY) text 0)) (keyspace s3) (head s3) →
  once rely (inject_step message) s (commit s2 s3).
Proof.
  intros Hs1 Hs2 Hq Hnew Henc%encode_ok (Hh & Hv & Hf)%queue_write_effect. rewrite commit_changed by done.
  exists s2, s3. split_and!; [by etrans|done|]. split; [|done|done]. exists messages, text.
  split_and!; [done| |done|done]. intros m Hm Heq.
  assert (existsb (λ candidate, String.eqb (message_id candidate) (message_id message)) messages = true)
    as Hyes; [|congruence].
  apply existsb_exists. exists m. split; [by apply list_elem_of_In|by apply String.eqb_eq].
Qed.

Lemma inject_attempts_outcome attempts message s :
  ensures env (inject_attempts codec backend attempts message) s (λ tr _ r, inject_outcome message s tr r).
Proof.
  revert s. induction attempts as [|attempts IH]; intros s; cbn [inject_attempts].
  { apply (ensures_ret env rely). by intros s' _. }
  assert (∀ s1, rely s s1 → ensures env (inject_attempts codec backend attempts message) s1
    (λ tr _ r, inject_outcome message s tr r)) as Hagain.
  { intros s1 Hs1. eapply holds_mono; [apply IH|]. intros tr s' r. by apply inject_later. }
  assert (∀ s1 e, ensures env (Ret (Err e)) s1 (λ tr _ r, inject_outcome message s tr r)) as Hfail.
  { intros s1 e. apply (ensures_ret env rely). intros s' _. destruct e; cbn; auto. }
  assert (∀ e, inject_outcome message s [] (Err e)) as Herr by (intros []; cbn; auto).
  apply (ensures_get_metadata env rely); [| |eauto].
  - intros s1 Hs1 Hnone. apply ensures_assoc, ensures_assoc, (ensures_raw_snapshot env rely); [|eauto].
    intros s2 Hs2. apply ensures_bind_ret. destruct (controller_snapshot_from_kvs _ _ _) as [snap|e]; [|by apply Hfail].
    apply ensures_bind_ret. cbn [existsb app].
    destruct (encode_messages codec [message]) as [text|e] eqn:Henc; [|by apply Hfail].
    apply (ensures_put_absent env rely); [|intros s3 Hs3; apply Hagain; by do 2 (etrans; [done|])|eauto|].
    + intros s3 s4 Hs3 [Hno He]. apply inject_confirm. eapply (inject_write message s s1 s3 s4 []); try done.
      * by etrans.
      * unfold queue_of. change (pending_key backend) with (metadata_key backend PENDING_TRANSITIONS_KEY).
        by rewrite Hno.
    + intros text' s3 s4 s' Hs3 [Hno He] _. right. eapply (inject_write message s s1 s3 s4 []); try done.
      * by etrans.
      * unfold queue_of. change (pending_key backend) with (metadata_key backend PENDING_TRANSITIONS_KEY).
        by rewrite Hno.
  - intros s1 kv Hs1 Hkv. cbn [entry_value entry_revision].
    destruct (parse_pending_messages codec (Some (kv_value kv))) as [messages|e] eqn:Hp;
      [|apply ensures_bind_ret; by apply Hfail].
    apply ensures_bind_ret. destruct (existsb _ messages) eqn:Hin; [by apply Hfail|].
    destruct (encode_messages codec (messages ++ [message])) as [text|e] eqn:Henc; [|by apply Hfail].
    assert (∀ s2, rely s1 s2 →
      kv_field (keyspace s2) (metadata_key backend PENDING_TRANSITIONS_KEY) kv_mod_revision 0%Z =
        kv_mod_revision kv → queue_of (keyspace s2) = Ok messages) as Hq.
    { intros s2 Hs2 Hmod. unfold queue_of.
      by rewrite (unchanged_since s1 s2 (pending_key backend) kv) by (done || by eapply rely_evolves). }
    apply ensures_assoc, (ensures_compare_and_put env rely); [| |eauto|].
    + intros s2 s3 Hs2 [Hmod He]. apply ensures_bind_ret. cbn [applied]. apply inject_confirm.
      eapply (inject_write message s s1 s2 s3 messages); eauto.
    + intros s2 Hs2 _. apply ensures_bind_ret. apply Hagain. by etrans.
    + intros text' s2 s3 s' Hs2 [Hmod He] _. right. eapply (inject_write message s s1 s2 s3 messages); eauto.
Qed.
End queue_facts.

(** * Theorems *)

(** C8: completing a message is atomic and happens at most once: [Applied] means
    that one transaction of the message's live session published the resulting
    state of the replica and removed that message, and only it, from the queue
    revision the participant had seen; a participant whose session is lost
    publishes nothing and at most withdraws the message; every other ending has
    changed nothing; and once a completion has been applied no later transaction
    can apply it again, whatever other clients do meanwhile. *)
Theorem completion_atomic {S : Type} `{EtcdLaws S} (env : S → S → Prop) codec backend fence message
    resulting s tr s' r :
  (∀ s s', env s s' → evolves s s') →
  runs env (complete_pending_transition_with_fence codec backend fence message resulting) s tr s' r →
  completion_outcome evolves codec backend fence message resulting s tr r ∧
  ∀ s1 s2 s3 s4, complete_step codec backend fence message resulting s1 s2 → evolves s2 s3 →
    ¬ complete_step codec backend fence message resulting s3 s4.
Proof.
  intros Henv Hrun. pose proof (evolves_rely env Henv). split.
  - by apply (complete_outcome env evolves codec backend fence message resulting s tr s' r).
  - apply complete_once.
Qed.

(** Claiming a message has a linearization point and no effect: a claim that
    succeeds names the revision of the queue at a moment of the call at which
    the message was queued and its session was live; a claim that reports the
    session lost or the message withdrawn has seen just that; and no claim
    writes anything. *)
Theorem claim_linearizes {S : Type} `{EtcdLaws S} (env : S → S → Prop) codec backend i n message s tr s' r :
  (∀ s s', env s s' → evolves s s') →
  runs env (claim_pending_transition codec backend i n message) s tr s' r →
  tr = [] ∧ claim_outcome evolves codec backend i n message s s' r.
Proof.
  intros Henv Hrun. pose proof (evolves_rely env Henv).
  exact (claim_attempts_outcome env evolves codec backend _ i n message s tr s' r Hrun).
Qed.

(** Queue appends and watermarks are atomic updates: an injection that
    returns a revision has appended its message, under an identity the queue did
    not hold, in one transaction that touched nothing else, one refused for a
    duplicate or for contention has changed nothing, and a watermark only ever
    moves up, to the revision asked for, or was already past it. *)
Theorem queue_updates_atomic {S : Type} `{EtcdLaws S} (env : S → S → Prop) codec backend message key
    revision s :
  (∀ s s', env s s' → evolves s s') → key ≠ AUTHORITATIVE_INPUT_MARKER →
  ensures env (inject_pending_transition codec backend message) s
    (λ tr _ r, inject_outcome evolves codec backend message s tr r) ∧
  ensures env (advance_metadata_revision backend key revision) s
    (λ tr _ r, advance_outcome evolves backend key revision s tr r).
Proof.
  intros Henv Hkey. pose proof (evolves_rely env Henv). split.
  - unfold inject_pending_transition. destruct (is_empty _).
    + apply (ensures_ret env evolves). intros s' _. by left.
    + by apply inject_attempts_outcome.
  - by apply advance_attempts_outcome.
Qed.

(** ** A queue with one message *)

Definition ex_message : TransitionMessage :=
  MkTransitionMessage "m10:7:0" "documents" "p0" "node-a" 1 "STANDBY" "LEADER" "STATE_TRANSITION".

(** A codec that knows two texts. *)
Definition ex_codec : QueueCodec :=
  MkQueueCodec (λ text, if String.eqb text "queue" then Ok [ex_message] else Ok [])
    (λ messages, match messages with [] => Ok "[]" | _ :: _ => Ok "queue" end).

Definition ex_queue_store : mem_store :=
  mem_effect ex_store [TxnPut (pending_key ex_backend) "queue" 0].

Definition ex_completion_fence : ParticipantCompletionFence :=
  MkCompletionFence (MkInstanceId "node-a") (MkSessionId 1) (MkRevision 3) "m10:7:0".

Definition ex_complete : prog CompletionResult :=
  complete_pending_transition_with_fence ex_codec ex_backend ex_completion_fence ex_message (Some LEADER).

Lemma ex_complete_result :
  snd <$> run_mem 40 ex_complete ex_queue_store = Some (Ok (Applied (MkRevision 4))).
Proof. vm_compute. reflexivity. Qed.

Lemma completion_atomic_witness :
  ∃ m1 m2 : mem_store,
    complete_step ex_codec ex_backend ex_completion_fence ex_message (Some LEADER) m1 m2.
Proof.
  pose proof ex_complete_result as Hres.
  destruct (run_mem 40 ex_complete ex_queue_store) as [[[tr m'] r]|] eqn:Hrun; [|discriminate Hres].
  injection Hres as ->. apply run_mem_sound in Hrun.
  destruct (completion_atomic alone ex_codec ex_backend ex_completion_fence ex_message (Some LEADER)
    ex_queue_store tr m' _ alone_evolves Hrun) as [(m1 & m2 & _ & _ & Hstep & _) _].
  exists m1, m2. exact Hstep.
Defined.

Definition ex_claim : prog TransitionClaim :=
  claim_pending_transition ex_codec ex_backend (MkInstanceId "node-a") (MkSessionId 1) ex_message.

Lemma ex_claim_result :
  snd <$> run_mem 40 ex_claim ex_queue_store = Some (Ok (Claimed (MkRevision 3))).
Proof. vm_compute. reflexivity. Qed.

Lemma claim_linearizes_witness :
  ∃ m1 : mem_store, queued ex_codec ex_backend (keyspace m1) ex_message 3.
Proof.
  pose proof ex_claim_result as Hres.
  destruct (run_mem 40 ex_claim ex_queue_store) as [[[tr m'] r]|] eqn:Hrun; [|discriminate Hres].
  injection Hres as ->. apply run_mem_sound in Hrun.
  destruct (claim_linearizes alone ex_codec ex_backend (MkInstanceId "node-a") (MkSessionId 1) ex_message
    ex_queue_store tr m' _ alone_evolves Hrun) as [_ (m1 & _ & _ & _ & Hq)].
  exists m1. exact Hq.
Defined.

(** A second message, and the progress record of a participant. *)
Definition ex_second : TransitionMessage :=
  MkTransitionMessage "m10:7:1" "documents" "p0" "node-b" 2 "OFFLINE" "STANDBY" "STATE_TRANSITION".
Definition ex_inject : prog Revision := inject_pending_transition ex_codec ex_backend ex_second.

Lemma ex_inject_result : snd <$> run_mem 60 ex_inject ex_queue_store = Some (Ok (MkRevision 4)).
Proof. vm_compute. reflexivity. Qed.

Lemma queue_updates_atomic_witness :
  ∃ m1 m2 : mem_store, inject_step ex_codec ex_backend ex_second m1 m2.
Proof.
  pose proof ex_inject_result as Hres.
  destruct (run_mem 60 ex_inject ex_queue_store) as [[[tr m'] r]|] eqn:Hrun; [|discriminate Hres].
  injection Hres as ->. apply run_mem_sound in Hrun.
  destruct (queue_updates_atomic alone ex_codec ex_backend ex_second "participant/node-a/processed-revision"
    (MkRevision 3) ex_queue_store alone_evolves) as [Hinject _]; [discriminate|].
  destruct (Hinject tr m' (Ok (MkRevision 4)) Hrun) as (m1 & m2 & _ & _ & Hstep).
  exists m1, m2. exact Hstep.
Defined.
