(* ===== verification/Watch.v ===== *)
(** * Watches

    Models [src/coordination/etcd/watch.rs] and the functions of
    [src/coordination/etcd/mod.rs] that open a watch after a snapshot.  The stream
    of an open watch is the list of messages it will deliver; a subscription
    processes them and, after a disconnection, resumes at the revision of the last
    event.  The theorem is that no event is lost and none is delivered twice. *)

From S2P Require Import Prelude Identity StateMaps Transitions Session Keys Snapshot.
From S2P Require Import Etcd Metadata SessionStore Queue.

(** ** Events *)

Record WatchEvent := MkWatchEvent {
  event_revision : Revision;
  event_key : string;
  event_value : option string;
  event_kind : WatchEventKind
}.

Inductive WatchError :=
| WatchCoordination (error : CoordinationError)
| Disconnected
| Compacted (revision : Revision).

Definition display_watch_error (e : WatchError) : string :=
  match e with
  | WatchCoordination error => display_coordination_error error
  | Disconnected => "watch stream disconnected"
  | Compacted revision => "watch history compacted at revision " +:+ pretty (revision_value revision)
  end.

Definition watch_is_transient (e : WatchError) : bool :=
  match e with Disconnected | WatchCoordination (Etcd _) => true | _ => false end.

Definition is_lease_backed_delete (event : WatchEvent) : bool :=
  match event_kind event with
  | EventDelete => starts_with "live/" (event_key event) || starts_with "current-state/" (event_key event)
  | EventPut => false
  end.

(** ** The cursor *)

Record WatchCursor := MkWatchCursor {
  start_revision : Revision;
  last_event_revision : option Revision;
  processed_keys : gset string
}.

Definition WatchCursor_new (start : Revision) : WatchCursor := MkWatchCursor start None ∅.

Definition revision_lt (a b : Revision) : bool := (revision_value a <? revision_value b)%Z.

Definition cursor_refuses (self : WatchCursor) (revision : Revision) (key : string) : bool :=
  revision_lt revision (start_revision self)
  || match last_event_revision self with Some last => revision_lt revision last | None => false end
  || (bool_decide (last_event_revision self = Some revision) && bool_decide (key ∈ processed_keys self)).

Definition cursor_accept (self : WatchCursor) (revision : Revision) (key : string) : bool * WatchCursor :=
  if cursor_refuses self revision key then (false, self)
  else
    let self := if bool_decide (last_event_revision self = Some revision) then self
                else MkWatchCursor (start_revision self) (Some revision) ∅ in
    (true, MkWatchCursor (start_revision self) (last_event_revision self)
             ({[key]} ∪ processed_keys self)).

Definition resume_revision (self : WatchCursor) : Revision :=
  match last_event_revision self with Some revision => revision | None => start_revision self end.

Definition reset_after_recovery (self : WatchCursor) (snapshot_revision : Revision)
  : result (WatchCursor * Revision) CoordinationError :=
  let? start := Revision_next snapshot_revision in
  Ok (MkWatchCursor start None ∅, start).

(** ** Subscriptions *)

Record WatchSubscription := MkWatchSubscription {
  ws_backend : EtcdCoordination;
  ws_key : string;
  ws_prefix : bool;
  ws_cursor : WatchCursor;
  ws_open : bool;
  pending_events : list WatchEvent
}.

Definition with_cursor (self : WatchSubscription) (cursor : WatchCursor) : WatchSubscription :=
  MkWatchSubscription (ws_backend self) (ws_key self) (ws_prefix self) cursor (ws_open self)
    (pending_events self).
Definition with_events (self : WatchSubscription) (events : list WatchEvent) : WatchSubscription :=
  MkWatchSubscription (ws_backend self) (ws_key self) (ws_prefix self) (ws_cursor self) (ws_open self)
    events.
Definition with_stream (self : WatchSubscription) (open : bool) : WatchSubscription :=
  MkWatchSubscription (ws_backend self) (ws_key self) (ws_prefix self) (ws_cursor self) open
    (pending_events self).

Definition decode_event (self : WatchSubscription) (event : RawEvent)
  : result (option WatchEvent) WatchError :=
  match raw_kv event with
  | None => Ok None
  | Some kv =>
      let? revision := map_err WatchCoordination (Revision_new (kv_mod_revision kv)) in
      let? relative := map_err WatchCoordination (parse_relative_key (ws_backend self) (kv_key kv)) in
      let? key :=
        (if ws_prefix self then Ok relative
         else map_err WatchCoordination
           (match strip_prefix "metadata/" relative with
            | None => Err InvalidKey
            | Some segment => decode_segment segment
            end)) in
      match raw_kind event with
      | EventPut =>
          let? value := map_err WatchCoordination (utf8_value (kv_value kv)) in
          Ok (Some (MkWatchEvent revision key (Some value) EventPut))
      | EventDelete => Ok (Some (MkWatchEvent revision key None EventDelete))
      end
  end.

(** The events of one message: accepted ones wait in [pending_events]; an error
    leaves what was accepted before it. *)
Fixpoint take_events (self : WatchSubscription) (events : list RawEvent)
  : WatchSubscription * result unit WatchError :=
  match events with
  | [] => (self, Ok tt)
  | event :: events =>
      match decode_event self event with
      | Err e => (self, Err e)
      | Ok None => take_events self events
      | Ok (Some decoded) =>
          let '(accepted, cursor) := cursor_accept (ws_cursor self) (event_revision decoded) (event_key decoded) in
          let self := with_cursor self cursor in
          take_events (if accepted : bool then with_events self (pending_events self ++ [decoded]) else self)
            events
      end
  end.

(** [WatchSubscription::next] on what the stream still delivers: an event or an
    error, or [None] while it waits, and the rest of the stream. *)
Fixpoint watch_next (self : WatchSubscription) (messages : list stream_message)
  : option (result WatchEvent WatchError) * WatchSubscription * list stream_message :=
  match pending_events self with
  | event :: events => (Some (Ok event), with_events self events, messages)
  | [] =>
      if negb (ws_open self) then (Some (Err Disconnected), self, messages)
      else match messages with
      | [] => (None, self, [])
      | Err text :: messages => (Some (Err (WatchCoordination (Etcd text))), self, messages)
      | Ok None :: messages => (Some (Err Disconnected), self, messages)
      | Ok (Some response) :: messages =>
          if (0 <? compact_revision response)%Z then
            (Some (match Revision_new (compact_revision response) with
                   | Ok revision => Err (Compacted revision)
                   | Err e => Err (WatchCoordination e)
                   end), self, messages)
          else match take_events self (response_events response) with
          | (self, Err e) => (Some (Err e), self, messages)
          | (self, Ok _) =>
              match pending_events self with
              | event :: events => (Some (Ok event), with_events self events, messages)
              | [] => watch_next self messages
              end
          end
      end
  end.

Definition disconnect_watch (self : WatchSubscription) : WatchSubscription := with_stream self false.

(** ** Opening and resuming *)

Definition open_watch (backend : EtcdCoordination) (key : string) (start : Revision) : prog unit :=
  call (Watch (metadata_key backend key) false (revision_value start)).

Definition open_namespace_watch (backend : EtcdCoordination) (start : Revision) : prog unit :=
  call (Watch (namespaced_key backend "") true (revision_value start)).

Definition watch_metadata (backend : EtcdCoordination) (key : string) (start : Revision)
  : prog WatchSubscription :=
  let! _ := open_watch backend key start in
  Ret (Ok (MkWatchSubscription backend key false (WatchCursor_new start) true [])).

Definition watch_namespace (backend : EtcdCoordination) (start : Revision) : prog WatchSubscription :=
  let! _ := open_namespace_watch backend start in
  Ret (Ok (MkWatchSubscription backend EmptyString true (WatchCursor_new start) true [])).

(** Errors of the coordination layer under [?]. *)
Definition watch_call {A} (t : prog A) : itree coordE (result A WatchError) :=
  let* r := t in Ret (map_err WatchCoordination r).

Definition resume (self : WatchSubscription) : itree coordE (result WatchSubscription WatchError) :=
  let revision := resume_revision (ws_cursor self) in
  let! _ := watch_call (open_watch (ws_backend self) (ws_key self) revision) in
  Ret (Ok (with_stream self true)).

(** The back-off between two attempts leaves no trace. *)
Definition resume_until_available (self : WatchSubscription)
  : itree coordE (result WatchSubscription WatchError) :=
  ITree.iter (λ _ : unit,
    let* r := resume self in
    Ret (match r with
         | Ok self => inr (Ok self)
         | Err error => if watch_is_transient error then inl tt else inr (Err error)
         end)) tt.

(** [metadata::snapshot] *)
Definition metadata_snapshot (backend : EtcdCoordination) (key : string)
  : prog (Revision * list KeyValue) :=
  raw_snapshot (metadata_key backend key) false None.

Inductive WatchRecovery :=
| RecoveredMetadata (entry : option MetadataEntry)
| RecoveredNamespace (snapshot : CoordinationSnapshot).

(** After the cursor is reset, an error of the new watch leaves the old stream. *)
Definition reopen {A} (self : WatchSubscription) (watch : prog unit) (value : A)
  : itree coordE (WatchSubscription * result A WatchError) :=
  let* opened := watch_call watch in
  Ret (match opened with Ok _ => (with_stream self true, Ok value) | Err e => (self, Err e) end).

Definition recover_compaction (self : WatchSubscription)
  : itree coordE (WatchSubscription * result WatchRecovery WatchError) :=
  if ws_prefix self then
    let* snapshot := watch_call (controller_snapshot (ws_backend self)) in
    match snapshot with
    | Err e => Ret (self, Err e)
    | Ok snapshot =>
        match reset_after_recovery (ws_cursor self) (snap_revision snapshot) with
        | Err e => Ret (self, Err (WatchCoordination e))
        | Ok (cursor, start) =>
            reopen (with_events (with_cursor self cursor) []) (open_namespace_watch (ws_backend self) start)
              (RecoveredNamespace snapshot)
        end
    end
  else
    let* read := watch_call (metadata_snapshot (ws_backend self) (ws_key self)) in
    match read with
    | Err e => Ret (self, Err e)
    | Ok (revision, kvs) =>
        let entry :=
          match kvs with
          | kv :: _ =>
              let? value := utf8_value (kv_value kv) in
              let? revision := Revision_new (kv_mod_revision kv) in
              Ok (Some (MkMetadataEntry (Some value) revision))
          | [] => Ok None
          end in
        match entry with
        | Err e => Ret (self, Err (WatchCoordination e))
        | Ok entry =>
            match reset_after_recovery (ws_cursor self) revision with
            | Err e => Ret (self, Err (WatchCoordination e))
            | Ok (cursor, start) =>
                reopen (with_events (with_cursor self cursor) []) (open_watch (ws_backend self) (ws_key self) start)
                  (RecoveredMetadata entry)
            end
        end
    end.

(** ** Snapshots with a watch *)

Definition snapshot_and_watch_namespace (backend : EtcdCoordination)
  : prog (CoordinationSnapshot * WatchSubscription) :=
  let! snapshot := controller_snapshot backend in
  try! start := Revision_next (snap_revision snapshot) in
  let! watch := watch_namespace backend start in
  Ret (Ok (snapshot, watch)).

Definition snapshot_and_watch_namespace_from_authoritative (backend : EtcdCoordination)
  : prog (CoordinationSnapshot * WatchSubscription) :=
  let! snapshot := controller_snapshot backend in
  try! start := Revision_next (authoritative_revision snapshot) in
  let! watch := watch_namespace backend start in
  Ret (Ok (snapshot, watch)).

Definition snapshot_and_watch_metadata (backend : EtcdCoordination) (key : string)
  : prog (MetadataEntry * WatchSubscription) :=
  let! snapshot := metadata_snapshot backend key in
  try! entry := metadata_entry_from_snapshot snapshot.1 snapshot.2 in
  try! start := Revision_next snapshot.1 in
  let! watch := watch_metadata backend key start in
  Ret (Ok (entry, watch)).

Definition snapshot_and_watch_pending_transitions (codec : QueueCodec) (backend : EtcdCoordination)
  : prog (list TransitionMessage * Revision * WatchSubscription) :=
  let! both := snapshot_and_watch_metadata backend PENDING_TRANSITIONS_KEY in
  try! messages := parse_pending_messages codec (entry_value both.1) in
  Ret (Ok (messages, entry_revision both.1, both.2)).

Definition compact (revision : Revision) : prog unit :=
  let! _ := call (Compact (revision_value revision)) in Ret (Ok tt).

(** * What a watch delivers

    The log of the store: one event per change, in the order of revisions; a
    revision changes a key at most once. *)

Definition raw_revision (e : RawEvent) : Z :=
  match raw_kv e with Some kv => kv_mod_revision kv | None => 0 end.
Definition raw_key (e : RawEvent) : string :=
  match raw_kv e with Some kv => kv_key kv | None => EmptyString end.

Definition change_before (a b : RawEvent) : Prop :=
  (raw_revision a < raw_revision b)%Z ∨ (raw_revision a = raw_revision b ∧ raw_key a ≠ raw_key b).

(** A watch covers one key, or all keys with a prefix, from a revision on. *)
Definition covers (key : string) (with_prefix : bool) (start : Z) (e : RawEvent) : bool :=
  (if with_prefix then starts_with key (raw_key e) else String.eqb (raw_key e) key)
  && (start <=? raw_revision e)%Z.

(** The watch that a program opens first. *)
Definition opened_by {R} (t : itree coordE R) : option (string * bool * Z) :=
  match observe t with
  | VisF e _ =>
      match e with
      | Call r => match r with Watch key with_prefix start => Some (key, with_prefix, start) | _ => None end
      | _ => None
      end
  | _ => None
  end.

Definition stream_of (log : list RawEvent) (watch : option (string * bool * Z)) : list RawEvent :=
  match watch with
  | Some (key, with_prefix, start) => List.filter (covers key with_prefix start) log
  | None => []
  end.

(** The events in messages that carry some. *)
Definition batches (messages : list stream_message) : list RawEvent :=
  concat (omap (λ m, match m with Ok (Some response) => Some (response_events response) | _ => None end) messages).

Definition uncompacted (m : stream_message) : Prop :=
  match m with Ok (Some response) => (compact_revision response ≤ 0)%Z | _ => False end.

(** A connection delivers its stream in batches, up to some point. *)
Definition connection (log : list RawEvent) (watch : option (string * bool * Z))
    (messages : list stream_message) : Prop :=
  Forall uncompacted messages ∧ batches messages `prefix_of` stream_of log watch.

(** A client of a subscription: what the current connection will still deliver,
    whether that is the rest of the stream, and the events handed out so far. *)
Record watcher := MkWatcher {
  w_self : WatchSubscription;
  w_stream : list stream_message;
  w_full : Prop;
  w_delivered : list WatchEvent
}.

Inductive watch_step (log : list RawEvent) : watcher → watcher → Prop :=
| step_event self messages full delivered event self' messages' :
    watch_next self messages = (Some (Ok event), self', messages') →
    watch_step log (MkWatcher self messages full delivered)
      (MkWatcher self' messages' full (delivered ++ [event]))
| step_no_event self messages full delivered answer self' messages' :
    watch_next self messages = (answer, self', messages') → (∀ event, answer ≠ Some (Ok event)) →
    watch_step log (MkWatcher self messages full delivered) (MkWatcher self' messages' full delivered)
| step_disconnect self messages full delivered :
    watch_step log (MkWatcher self messages full delivered)
      (MkWatcher (disconnect_watch self) [] False delivered)
| step_resume self messages full delivered messages' :
    connection log (opened_by (resume self)) messages' →
    watch_step log (MkWatcher self messages full delivered)
      (MkWatcher (with_stream self true) messages'
        (batches messages' = stream_of log (opened_by (resume self))) delivered).

(** ** The cursor after a list of events *)

Definition event_before (a b : WatchEvent) : Prop :=
  (revision_value (event_revision a) < revision_value (event_revision b))%Z ∨
  (event_revision a = event_revision b ∧ event_key a ≠ event_key b).

Definition cursor_after (start : Revision) (events : list WatchEvent) : WatchCursor :=
  MkWatchCursor start (event_revision <$> last events)
    (list_to_set (event_key <$> filter (λ e, Some (event_revision e) = event_revision <$> last events) events)).

Lemma before_last events e event :
  StronglySorted event_before (events ++ [event]) → e ∈ events →
  (revision_value (event_revision e) ≤ revision_value (event_revision event))%Z.
Proof.
  intros Hs He. apply StronglySorted_app_1_elem_of with (x1 := e) (x2 := event) in Hs; [|done|left].
  destruct Hs as [?|[-> _]]; lia.
Qed.

(** Events handed out before are refused. *)
Lemma accept_old start events e :
  StronglySorted event_before events → e ∈ events →
  cursor_accept (cursor_after start events) (event_revision e) (event_key e) =
    (false, cursor_after start events).
Proof.
  intros Hs He. destruct events as [|l events _] using rev_ind; [by apply elem_of_nil in He|].
  unfold cursor_accept. assert (cursor_refuses (cursor_after start (events ++ [l])) (event_revision e) (event_key e) = true)
    as ->; [|done].
  unfold cursor_refuses, cursor_after. cbn [last_event_revision processed_keys]. rewrite last_snoc.
  cbn [fmap option_fmap option_map]. apply orb_true_intro.
  destruct (decide (event_revision e = event_revision l)) as [Heq|Hne]; [right|left].
  - apply andb_true_intro. split; apply bool_decide_eq_true_2; [by rewrite Heq|].
    apply elem_of_list_to_set, list_elem_of_fmap. exists e. split; [done|].
    apply list_elem_of_filter. by rewrite Heq.
  - apply orb_true_intro. right. apply Z.ltb_lt.
    apply elem_of_app in He as [He| ->%list_elem_of_singleton]; [|done].
    apply StronglySorted_app_1_elem_of with (x1 := e) (x2 := l) in Hs; [|done|left].
    destruct Hs as [?|[? _]]; [lia|done].
Qed.

(** The next event is accepted. *)
Lemma accept_new start events e :
  StronglySorted event_before (events ++ [e]) →
  (revision_value start ≤ revision_value (event_revision e))%Z →
  cursor_accept (cursor_after start events) (event_revision e) (event_key e) =
    (true, cursor_after start (events ++ [e])).
Proof.
  intros Hs Hstart. assert (∀ x, x ∈ events → event_before x e) as Hbefore.
  { intros x Hx. apply StronglySorted_app_1_elem_of with (x1 := x) (x2 := e) in Hs; [done|done|left]. }
  unfold cursor_accept, cursor_refuses, cursor_after. cbn [start_revision last_event_revision processed_keys].
  rewrite last_snoc, filter_app, fmap_app, list_to_set_app_L.
  rewrite (filter_cons_True _ e []) by done. cbn [fmap option_fmap option_map list_fmap].
  assert (revision_lt (event_revision e) start = false) as -> by (by apply Z.ltb_ge).
  destruct events as [|l events _] using rev_ind; cbn [last option_fmap option_map fmap].
  - rewrite bool_decide_eq_false_2 by done. cbn. do 2 f_equal. set_solver.
  - rewrite last_snoc. cbn [fmap option_fmap option_map]. pose proof (Hbefore l ltac:(set_solver)) as Hl.
    assert (revision_lt (event_revision e) (event_revision l) = false) as ->
      by (apply Z.ltb_ge; destruct Hl as [?|[-> _]]; lia).
    destruct (decide (event_revision l = event_revision e)) as [Heq|Hne].
    + rewrite (bool_decide_eq_true_2 (Some (event_revision l) = _)) by congruence. cbn [orb andb].
      rewrite bool_decide_eq_false_2.
      * cbn. rewrite Heq. do 2 f_equal. set_solver.
      * intros (x & Hkey & [Hx1 Hx2]%list_elem_of_filter)%elem_of_list_to_set%list_elem_of_fmap.
        destruct (Hbefore x Hx2) as [Hlt|[_ Hne]]; [|done]. injection Hx1 as Hx1. rewrite Hx1, Heq in Hlt. lia.
    + rewrite (bool_decide_eq_false_2 (Some (event_revision l) = _)) by congruence. cbn. do 2 f_equal.
      destruct (filter _ (events ++ [l])) as [|x xs] eqn:Hf; [set_solver|exfalso].
      assert (x ∈ x :: xs) as Hx by left. rewrite <-Hf in Hx. apply list_elem_of_filter in Hx as [[= Hx1] Hx2].
      apply StronglySorted_app_1_l in Hs.
      assert (revision_value (event_revision x) ≤ revision_value (event_revision l))%Z as Hle.
      { apply elem_of_app in Hx2 as [Hx2| ->%list_elem_of_singleton]; [|lia]. by eapply before_last. }
      destruct Hl as [Hl|[? _]]; [|done]. rewrite Hx1 in Hle. lia.
Qed.

(** ** Exactly once *)

(** Every change carries its key-value; values are texts. *)
Definition readable (e : RawEvent) : Prop :=
  ∃ kv, raw_kv e = Some kv ∧ (0 < kv_mod_revision kv)%Z ∧ utf8_valid (kv_value kv) = true.

(** A change of a metadata key, as it is reported. *)
Definition change (key : string) (e : RawEvent) : WatchEvent :=
  MkWatchEvent (MkRevision (raw_revision e)) key
    (match raw_kind e with EventPut => kv_value <$> raw_kv e | EventDelete => None end) (raw_kind e).

(** The changes of a key from the start of the watch on. *)
Definition changes (backend : EtcdCoordination) (key : string) (start : Revision) (log : list RawEvent)
  : list RawEvent := stream_of log (Some (metadata_key backend key, false, revision_value start)).

Section exactly_once.
Context (backend : EtcdCoordination) (Hbackend : backend_ok backend).
Context (key : string) (Hkey : utf8_valid key = true) (start : Revision).

Definition ours (self : WatchSubscription) : Prop :=
  ws_backend self = backend ∧ ws_key self = key ∧ ws_prefix self = false.

Lemma decode_change self e :
  ours self → readable e → raw_key e = metadata_key backend key →
  decode_event self e = Ok (Some (change key e)).
Proof.
  intros (Hb & _ & Hp) (kv & Hkv & Hpos & Hutf) He. unfold decode_event, change, raw_revision, raw_key in *.
  rewrite Hkv in He |- *. rewrite Hb, Hp, He. rewrite (relative_metadata_key backend Hbackend).
  unfold Revision_new. rewrite (proj2 (Z.leb_gt _ _)) by lia. cbn [map_err].
  rewrite strip_prefix_app, decode_encode, Hkey. cbn [map_err]. unfold utf8_value. rewrite Hutf.
  by destruct (raw_kind e).
Qed.

(** The events of a list of changes of the key. *)
Definition ours_all (events : list RawEvent) : Prop :=
  Forall (λ e, readable e ∧ raw_key e = metadata_key backend key) events.

(** Where a subscription is in the history [all]: what it has handed out and
    accepted, [P], is an initial part; what the stream still brings is known
    already, [X], or next, [Y]. *)
Definition tracks (all : list WatchEvent) (delivered : list WatchEvent) (self : WatchSubscription)
    (coming : list RawEvent) (full : Prop) : Prop :=
  ours self ∧ ours_all coming ∧
  ∃ P Q X Y, all = P ++ Q ∧ delivered ++ pending_events self = P ∧
    ws_cursor self = cursor_after start P ∧ change key <$> coming = X ++ Y ∧
    (∀ e, e ∈ X → e ∈ P) ∧ Y `prefix_of` Q ∧ (full → Y = Q).

Context (all : list WatchEvent) (Hall : StronglySorted event_before all).
Context (Hstart : ∀ e, e ∈ all → (revision_value start ≤ revision_value (event_revision e))%Z).

Lemma take_event_tracks delivered self e coming full :
  tracks all delivered self (e :: coming) full →
  ∃ self', tracks all delivered self' coming full ∧ ws_open self' = ws_open self ∧
    ∀ events, take_events self (e :: events) = take_events self' events.
Proof.
  intros (Hours & Hcoming & P & Q & X & Y & -> & HP & Hcur & Hsplit & HX & HY & Hfull).
  apply Forall_cons_1 in Hcoming as [[He Hek] Hcoming].
  assert (∀ events, take_events self (e :: events) =
    let '(accepted, cursor) := cursor_accept (ws_cursor self) (event_revision (change key e)) (event_key (change key e)) in
    take_events (if accepted : bool
      then with_events (with_cursor self cursor) (pending_events (with_cursor self cursor) ++ [change key e])
      else with_cursor self cursor) events) as Htake.
  { intros events. cbn [take_events]. by rewrite (decode_change self e Hours He Hek). }
  destruct X as [|x X]; cbn in Hsplit.
  - destruct HY as [Z ->]. destruct Y as [|y Y]; [discriminate Hsplit|]. injection Hsplit as <- Hsplit.
    cbn [app] in Hall, Hstart. replace (P ++ change key e :: Y ++ Z) with ((P ++ [change key e]) ++ Y ++ Z) in * by
      (by rewrite <-app_assoc).
    rewrite Hcur, accept_new in Htake; [|by eapply StronglySorted_app_1_l|apply Hstart; set_solver].
    eexists. split; [|split; [|exact Htake]]; [|done]. split; [exact Hours|]. split; [done|].
    exists (P ++ [change key e]), (Y ++ Z), [], Y.
    split_and!; [by rewrite <-!app_assoc| |done|done|by intros ? ?%elem_of_nil|by eexists|].
    + cbn. by rewrite app_assoc, HP.
    + intros F. specialize (Hfull F). cbn in Hfull. by injection Hfull.
  - injection Hsplit as <- Hsplit.
    rewrite Hcur, accept_old in Htake; [|by eapply StronglySorted_app_1_l|apply HX; left].
    eexists. split; [|split; [|exact Htake]]; [|done]. split; [exact Hours|]. split; [done|].
    exists P, Q, X, Y. split_and!; [done|done|done|done| |done|done]. intros d Hd. apply HX. by right.
Qed.

Lemma take_events_tracks delivered self events coming full :
  tracks all delivered self (events ++ coming) full →
  ∃ self', take_events self events = (self', Ok tt) ∧ tracks all delivered self' coming full ∧
    ws_open self' = ws_open self.
Proof.
  revert self. induction events as [|e events IH]; intros self Ht; [by exists self|].
  destruct (take_event_tracks _ _ _ _ _ Ht) as (self1 & Ht1 & Ho1 & ->).
  destruct (IH self1 Ht1) as (self2 & -> & Ht2 & Ho2). exists self2. by rewrite Ho2.
Qed.

(** One event is handed out. *)
Lemma pop_tracks delivered self event events coming full :
  tracks all delivered self coming full → pending_events self = event :: events →
  tracks all (delivered ++ [event]) (with_events self events) coming full.
Proof.
  intros (Hours & Hc & P & Q & X & Y & Hall' & HP & Hrest) Hp. split; [done|]. split; [done|].
  exists P, Q, X, Y. rewrite Hp in HP. split; [done|]. split; [by rewrite <-app_assoc|exact Hrest].
Qed.

Lemma next_tracks delivered self messages full :
  Forall uncompacted messages → tracks all delivered self (batches messages) full →
  match watch_next self messages with
  | (Some (Ok event), self', messages') =>
      Forall uncompacted messages' ∧ tracks all (delivered ++ [event]) self' (batches messages') full
  | (_, self', messages') =>
      Forall uncompacted messages' ∧ tracks all delivered self' (batches messages') full
  end.
Proof.
  revert self. induction messages as [|m messages IH]; intros self Hun Ht; cbn [watch_next].
  - destruct (pending_events self) as [|event events] eqn:Hp; [by destruct (negb _)|].
    split; [done|]. by apply pop_tracks.
  - destruct (pending_events self) as [|event events] eqn:Hp; [|split; [done|by apply pop_tracks]].
    destruct (negb _); [done|]. apply Forall_cons_1 in Hun as [Hm Hun].
    destruct m as [[response|]|text]; [|by destruct Hm..]. cbn in Hm.
    rewrite (proj2 (Z.ltb_ge _ _)) by done.
    destruct (take_events_tracks delivered self (response_events response) (batches messages) full Ht)
      as (self1 & -> & Ht1 & _).
    destruct (pending_events self1) as [|event events] eqn:Hp1; [by apply IH|].
    split; [done|]. by apply pop_tracks.
Qed.
End exactly_once.

(** ** The stream of a connection *)

Lemma opened_by_resume self :
  opened_by (resume self) = Some (metadata_key (ws_backend self) (ws_key self), false,
                                  revision_value (resume_revision (ws_cursor self))).
Proof. reflexivity. Qed.

Lemma filter_fmap {A B} (f : A → B) (p : B → bool) l :
  List.filter p (f <$> l) = f <$> List.filter (λ a, p (f a)) l.
Proof. induction l as [|a l IH]; [done|]. cbn. destruct (p (f a)); cbn; by rewrite <-IH. Qed.

Lemma filter_filter {A} (p q : A → bool) l :
  List.filter p (List.filter q l) = List.filter (λ a, q a && p a) l.
Proof. induction l as [|a l IH]; [done|]. cbn. destruct (q a); cbn; [destruct (p a)|]; by rewrite <-IH. Qed.

Section streams.
Context (backend : EtcdCoordination) (key : string) (start : Revision) (log : list RawEvent).
Context (Hordered : StronglySorted change_before log) (Hreadable : Forall readable log).

Abbreviation mk := (metadata_key backend key).
Abbreviation history := (change key <$> changes backend key start log).

Lemma stream_ours r : ours_all backend key (stream_of log (Some (mk, false, r))).
Proof.
  apply Forall_forall. intros e He. cbn in He. apply list_elem_of_In, List.filter_In in He as [He Hc].
  apply andb_prop in Hc as [Hk%String.eqb_eq _]. split; [|done].
  rewrite Forall_forall in Hreadable. by apply Hreadable, list_elem_of_In.
Qed.

Lemma history_sorted : StronglySorted event_before history.
Proof.
  unfold changes, stream_of. induction Hordered as [|e l Hl IH He]; [constructor|].
  apply Forall_cons_1 in Hreadable as [_ Hrd]. specialize (IH Hl Hrd). cbn [List.filter].
  destruct (covers _ _ _ e) eqn:Hc; [|done]. cbn. constructor; [done|].
  apply Forall_forall. intros d (x & -> & Hx)%list_elem_of_fmap.
  apply list_elem_of_In, List.filter_In in Hx as [Hx Hcx].
  apply andb_prop in Hc as [Hk%String.eqb_eq _]. apply andb_prop in Hcx as [Hkx%String.eqb_eq _].
  rewrite Forall_forall in He. destruct (He x) as [Hlt|[_ Hne]]; [by apply list_elem_of_In|by left|congruence].
Qed.

Lemma history_start e : e ∈ history → (revision_value start ≤ revision_value (event_revision e))%Z.
Proof.
  intros (x & -> & Hx)%list_elem_of_fmap. apply list_elem_of_In, List.filter_In in Hx as [_ Hc].
  apply andb_prop in Hc as [_ Hc%Z.leb_le]. done.
Qed.

(** A watch from a later revision brings the changes from there on. *)
Lemma later_stream r :
  (revision_value start ≤ r)%Z →
  change key <$> stream_of log (Some (mk, false, r)) =
  List.filter (λ d, (r <=? revision_value (event_revision d))%Z) history.
Proof.
  intros Hr. rewrite filter_fmap. f_equal. unfold changes, stream_of. rewrite filter_filter.
  apply List.filter_ext. intros e. unfold covers. cbn. rewrite <-andb_assoc. f_equal.
  destruct (Z.leb_spec r (raw_revision e)); [|by rewrite andb_false_r].
  by rewrite (proj2 (Z.leb_le (revision_value start) _)) by lia.
Qed.

Lemma filter_all {A} (p : A → bool) l : (∀ a, a ∈ l → p a = true) → List.filter p l = l.
Proof.
  induction l as [|a l IH]; intros Hp; [done|]. cbn. rewrite (Hp a) by left.
  f_equal. apply IH. intros b Hb. apply Hp. by right.
Qed.

(** From the revision of the last event: some that were seen, then the others. *)
Lemma resumed_stream P Q :
  history = P ++ Q →
  ∃ X, (∀ e, e ∈ X → e ∈ P) ∧
    change key <$> stream_of log (Some (mk, false, revision_value (resume_revision (cursor_after start P)))) = X ++ Q.
Proof.
  intros HPQ. destruct P as [|l P _] using rev_ind.
  - exists []. split; [by intros ? ?%elem_of_nil|]. exact HPQ.
  - unfold resume_revision, cursor_after. cbn [last_event_revision]. rewrite last_snoc.
    cbn [fmap option_fmap option_map]. set (r := revision_value (event_revision l)).
    exists (List.filter (λ d, (r <=? revision_value (event_revision d))%Z) (P ++ [l])). split.
    + intros e He. by apply list_elem_of_In, List.filter_In in He as [He%list_elem_of_In _].
    + rewrite later_stream by (apply history_start; rewrite HPQ; set_solver). rewrite HPQ, List.filter_app.
      f_equal. apply filter_all. intros d Hd. apply Z.leb_le.
      pose proof history_sorted as Hs. rewrite HPQ in Hs.
      apply StronglySorted_app_1_elem_of with (x1 := l) (x2 := d) in Hs; [|set_solver|done].
      unfold r. destruct Hs as [?|[-> _]]; lia.
Qed.

(** An initial part of a list of two parts. *)
Lemma prefix_app_split {A} (l l1 l2 : list A) :
  l `prefix_of` l1 ++ l2 →
  ∃ k1 k2, l = k1 ++ k2 ∧ k1 `prefix_of` l1 ∧ k2 `prefix_of` l2 ∧ (l = l1 ++ l2 → k2 = l2).
Proof.
  intros [k Hk]. exists (take (length l) l1), (take (length l - length l1) l2). split_and!.
  - by rewrite <-firstn_app, Hk, take_app_length.
  - apply prefix_take.
  - apply prefix_take.
  - intros ->. apply take_ge. rewrite length_app. lia.
Qed.

Lemma resume_tracks delivered self coming full messages :
  tracks backend key start history delivered self coming full →
  connection log (opened_by (resume self)) messages →
  tracks backend key start history delivered (with_stream self true) (batches messages)
    (batches messages = stream_of log (opened_by (resume self))).
Proof.
  intros (Hours & _ & P & Q & _ & _ & HPQ & HP & Hcur & _) [_ Hpre].
  rewrite opened_by_resume in Hpre |- *. pose proof Hours as (Hb & Hk & _). rewrite Hb, Hk, Hcur in Hpre |- *.
  destruct (resumed_stream P Q HPQ) as (X0 & HX0 & Hstream).
  pose proof (stream_ours (revision_value (resume_revision (cursor_after start P)))) as Hst.
  split; [done|]. split.
  { destruct Hpre as [k Hpre]. unfold ours_all in Hst. rewrite Hpre in Hst. by apply Forall_app in Hst as [Hst _]. }
  assert (change key <$> batches messages `prefix_of` X0 ++ Q) as Hp.
  { rewrite <-Hstream. destruct Hpre as [k ->]. rewrite fmap_app. by eexists. }
  destruct (prefix_app_split _ _ _ Hp) as (X & Y & HXY & HX & HY & Hfull).
  exists P, Q, X, Y. split_and!; [done|done|done|done| |done|].
  - intros e He. apply HX0. destruct HX as [k ->]. set_solver.
  - intros Heq. apply Hfull. by rewrite Heq.
Qed.

Lemma open_tracks messages :
  connection log (opened_by (watch_metadata backend key start)) messages →
  tracks backend key start history []
    (MkWatchSubscription backend key false (WatchCursor_new start) true []) (batches messages)
    (batches messages = stream_of log (opened_by (watch_metadata backend key start))).
Proof.
  intros Hc.
  refine (resume_tracks [] (MkWatchSubscription backend key false (WatchCursor_new start) true []) [] False messages _ Hc).
  split; [done|]. split; [constructor|]. exists [], history, [], [].
  split_and!; [done|done|done|done|by intros ? ?%elem_of_nil|apply prefix_nil|done].
Qed.
End streams.

(** * Theorems *)

(** The subscription that [watch_metadata] and [watch_namespace] return. *)
Definition metadata_subscription (backend : EtcdCoordination) (key : string) (start : Revision)
  : WatchSubscription := MkWatchSubscription backend key false (WatchCursor_new start) true [].
Definition namespace_subscription (backend : EtcdCoordination) (start : Revision) : WatchSubscription :=
  MkWatchSubscription backend EmptyString true (WatchCursor_new start) true [].

(** A client that has just opened a watch of a metadata key. *)
Definition opened (log : list RawEvent) (backend : EtcdCoordination) (key : string) (start : Revision)
    (messages : list stream_message) : watcher :=
  MkWatcher (metadata_subscription backend key start) messages
    (batches messages = stream_of log (opened_by (watch_metadata backend key start))) [].

Lemma step_tracks backend key start log w w' :
  backend_ok backend → utf8_valid key = true →
  StronglySorted change_before log → Forall readable log →
  watch_step log w w' →
  Forall uncompacted (w_stream w) ∧
    tracks backend key start (change key <$> changes backend key start log) (w_delivered w) (w_self w)
      (batches (w_stream w)) (w_full w) →
  Forall uncompacted (w_stream w') ∧
    tracks backend key start (change key <$> changes backend key start log) (w_delivered w') (w_self w')
      (batches (w_stream w')) (w_full w').
Proof.
  intros Hb Hk Hlog Hread Hstep [Hun Ht].
  pose proof (next_tracks backend Hb key Hk start (change key <$> changes backend key start log)
    (history_sorted backend key start log Hlog Hread) (history_start backend key start log)) as Hnext.
  destruct Hstep as [self messages full delivered event self' messages' Hn
                    |self messages full delivered answer self' messages' Hn Hno
                    |self messages full delivered
                    |self messages full delivered messages' Hconn]; cbn in *.
  - specialize (Hnext delivered self messages full Hun Ht). by rewrite Hn in Hnext.
  - specialize (Hnext delivered self messages full Hun Ht). rewrite Hn in Hnext.
    destruct answer as [[event|]|]; [by destruct (Hno event)|done|done].
  - split; [constructor|]. destruct Ht as (Ho & _ & P & Q & X & Y & HPQ & HP & Hc & _).
    split; [exact Ho|]. split; [constructor|]. exists P, Q, [], [].
    split_and!; [done|done|done|done|by intros ? ?%elem_of_nil|apply prefix_nil|done].
  - split; [by apply Hconn|]. by eapply resume_tracks.
Qed.

(** C9: a watch of a metadata key delivers every change once.  However often it
    disconnects and resumes, wherever the connections break off, and however the
    server batches the changes, the events handed out are an initial part of the
    changes of that key from the start revision on, in order and without
    repetition; and once a connection has delivered its stream to the end and all
    events are handed out, they are all of them. *)
Theorem watch_exactly_once backend key start log messages w :
  backend_ok backend → utf8_valid key = true →
  StronglySorted change_before log → Forall readable log →
  connection log (opened_by (watch_metadata backend key start)) messages →
  rtc (watch_step log) (opened log backend key start messages) w →
  w_delivered w `prefix_of` change key <$> changes backend key start log ∧
  (w_full w → w_stream w = [] → pending_events (w_self w) = [] →
   w_delivered w = change key <$> changes backend key start log).
Proof.
  intros Hb Hk Hlog Hread Hconn Hrtc.
  assert (Forall uncompacted (w_stream w) ∧
    tracks backend key start (change key <$> changes backend key start log) (w_delivered w) (w_self w)
      (batches (w_stream w)) (w_full w)) as [_ (_ & _ & P & Q & X & Y & HPQ & HP & _ & HXY & _ & _ & Hfull)].
  { refine (rtc_ind_r (λ w, Forall uncompacted (w_stream w) ∧ tracks backend key start
      (change key <$> changes backend key start log) (w_delivered w) (w_self w) (batches (w_stream w)) (w_full w))
      (opened log backend key start messages) _ _ w Hrtc).
    - split; [apply Hconn|]. by apply open_tracks.
    - intros w1 w2 _ Hstep. by apply step_tracks. }
  rewrite HPQ. split; [exists (pending_events (w_self w) ++ Q); by rewrite <-HP, <-app_assoc|].
  intros F Hs Hp. rewrite Hs in HXY. apply Hfull in F. symmetry in HXY. apply app_nil in HXY as [_ ->].
  rewrite <-F, app_nil_r, <-HP, Hp. by rewrite app_nil_r.
Qed.

(** C37: resuming a watch of the namespace watches something else.  The watch that
    [watch_namespace] opens brings every change of a key of the namespace from its
    start revision on; the watch that [resume] opens for the same subscription
    brings none of them, unless it is a change of the metadata record with the
    empty name. *)
Theorem namespace_resume_blind backend start cursor pending log :
  (∀ e, e ∈ log → raw_key e ≠ metadata_key backend EmptyString) →
  let self := MkWatchSubscription backend EmptyString true cursor false pending in
  (∀ e suffix, e ∈ log → raw_key e = namespaced_key backend suffix →
     (revision_value start ≤ raw_revision e)%Z →
     e ∈ stream_of log (opened_by (watch_namespace backend start))) ∧
  stream_of log (opened_by (resume self)) = [].
Proof.
  intros Hno self. split.
  - intros e suffix He Hk Hr. apply list_elem_of_In, List.filter_In. split; [by apply list_elem_of_In|].
    unfold covers. rewrite Hk, starts_with_namespace. by apply Z.leb_le.
  - rewrite opened_by_resume. cbn [stream_of ws_backend ws_key ws_cursor self].
    induction log as [|e l IH]; [done|]. cbn [List.filter]. unfold covers at 1.
    rewrite (proj2 (String.eqb_neq _ _)) by (apply Hno; left). cbn [andb]. apply IH.
    intros e' He'. apply Hno. by right.
Qed.

(** ** A watch that is interrupted *)

Definition ex_change (key value : string) (revision : Z) : RawEvent :=
  MkRawEvent EventPut (Some (MkKeyValue (metadata_key ex_backend key) value revision revision 1 0)).

Definition ex_log : list RawEvent :=
  [ex_change "alpha" "one" 5; ex_change "beta" "b" 6; ex_change "alpha" "two" 7; ex_change "alpha" "three" 9].

Definition ex_batch (events : list RawEvent) : stream_message := Ok (Some (MkWatchResponse 0 events)).

Lemma ex_log_ordered : StronglySorted change_before ex_log.
Proof. repeat constructor; vm_compute; reflexivity. Qed.

Lemma ex_log_readable : Forall readable ex_log.
Proof. repeat constructor; eexists; split_and!; vm_compute; reflexivity. Qed.

(** Two changes arrive and one is read before the connection breaks. *)
Definition ex_first : list stream_message := [ex_batch [ex_change "alpha" "one" 5; ex_change "alpha" "two" 7]].
Definition ex_rest : list stream_message := [ex_batch [ex_change "alpha" "two" 7; ex_change "alpha" "three" 9]].

Lemma ex_watch_run :
  ∃ w, rtc (watch_step ex_log) (opened ex_log ex_backend "alpha" (MkRevision 5) ex_first) w ∧
    w_full w ∧ w_stream w = [] ∧ pending_events (w_self w) = [] ∧ length (w_delivered w) = 3%nat.
Proof.
  eexists. split.
  - eapply rtc_l; [eapply step_event; vm_compute; reflexivity|].
    eapply rtc_l; [apply step_disconnect|].
    eapply rtc_l; [apply (step_resume _ _ _ _ _ ex_rest)|].
    { split; [repeat constructor; vm_compute; discriminate|]. exists []. vm_compute. reflexivity. }
    eapply rtc_l; [eapply step_event; vm_compute; reflexivity|].
    eapply rtc_l; [eapply step_event; vm_compute; reflexivity|]. apply rtc_refl.
  - cbn [w_full w_stream w_delivered w_self]. split_and!; vm_compute; reflexivity.
Qed.

Lemma watch_exactly_once_witness :
  ∃ w, rtc (watch_step ex_log) (opened ex_log ex_backend "alpha" (MkRevision 5) ex_first) w ∧
    w_delivered w = [change "alpha" (ex_change "alpha" "one" 5); change "alpha" (ex_change "alpha" "two" 7);
                     change "alpha" (ex_change "alpha" "three" 9)].
Proof.
  destruct ex_watch_run as (w & Hrun & Hfull & Hs & Hp & _). exists w. split; [exact Hrun|].
  refine (proj2 (watch_exactly_once ex_backend "alpha" (MkRevision 5) ex_log ex_first w ex_backend_ok eq_refl
    ex_log_ordered ex_log_readable _ Hrun) Hfull Hs Hp).
  split; [repeat constructor; vm_compute; discriminate|].
  exists [ex_change "alpha" "three" 9]. vm_compute. reflexivity.
Defined.

Lemma namespace_resume_blind_witness :
  ex_change "beta" "b" 6 ∈ stream_of ex_log (opened_by (watch_namespace ex_backend (MkRevision 5))) ∧
  stream_of ex_log (opened_by (resume
    (MkWatchSubscription ex_backend EmptyString true (WatchCursor_new (MkRevision 5)) false []))) = [].
Proof.
  destruct (namespace_resume_blind ex_backend (MkRevision 5) (WatchCursor_new (MkRevision 5)) [] ex_log)
    as [Hin Hnone].
  - intros e He. apply list_elem_of_In in He. intros Heq.
    destruct He as [<-|[<-|[<-|[<-|[]]]]]; vm_compute in Heq; discriminate Heq.
  - split; [|exact Hnone].
    apply (Hin _ ("metadata/" +:+ encode_segment "beta")); [right; left|reflexivity|vm_compute; discriminate].
Defined.
