(* ===== verification/Participant.v ===== *)
(** * The participant runtime

    Models the workers of [src/participant.rs]: the frontier of completed queue
    revisions, the scan of a queue image that schedules executions, and the
    execution of one message, from the claim over the handler of the application
    ([Invoke]) to the completion.  The failpoints of the source do nothing outside
    its test features.  The loops over a retry bound recurse on the attempts left;
    the loop of [CompletionState::complete] pops one revision per round. *)

From S2P Require Import Prelude Identity StateMaps StateModel Transitions Session Keys Snapshot.
From S2P Require Import Etcd Metadata InputMarker SessionStore Queue Watch.

(** ** Errors *)

Inductive ParticipantRuntimeError :=
| ParticipantCoordination (error : CoordinationError)
| ParticipantWatch (error : WatchError)
| Io (error : string)
| InvalidMessage
| HandlerJoin (error : string)
| WorkerJoin (error : string)
| ProgressContention.

Definition display_participant_error (e : ParticipantRuntimeError) : string :=
  match e with
  | ParticipantCoordination error => display_coordination_error error
  | ParticipantWatch error => display_watch_error error
  | Io error => error
  | InvalidMessage => "invalid participant transition message"
  | HandlerJoin error => "transition handler task failed: " +:+ error
  | WorkerJoin error => "participant worker task failed: " +:+ error
  | ProgressContention => "participant progress contention exceeded retry bound"
  end.

(** ** The completion frontier *)

Record CompletionState := MkCompletionState {
  revisions : gmap Revision (gset string);
  completed : gset string;
  frontier : option Revision
}.

Definition CompletionState_new : CompletionState := MkCompletionState ∅ ∅ None.

Definition completion_observe (self : CompletionState) (revision : Revision) (message_ids : list string)
  : CompletionState :=
  MkCompletionState
    (<[revision := default ∅ (revisions self !! revision) ∪ list_to_set message_ids]> (revisions self))
    (completed self) (frontier self).

(** [CompletionFrontier::observe] *)
Definition frontier_observe (self : CompletionState) (revision : Revision) (message_ids : list string)
  : CompletionState :=
  match message_ids with [] => self | _ :: _ => completion_observe self revision message_ids end.

(** What can be forgotten once a revision is popped. *)
Definition still_referenced (remaining : gmap Revision (gset string)) (id : string) : bool :=
  existsb (λ ids : gset string, bool_decide (id ∈ ids)) (map_values remaining).

Fixpoint pop_completed (fuel : nat) (pending : gmap Revision (gset string)) (done : gset string)
    (front : option Revision) : gmap Revision (gset string) * gset string * option Revision :=
  match fuel, entries pending with
  | S fuel, (revision, message_ids) :: _ =>
      if bool_decide (message_ids ⊆ done) then
        let pending := delete revision pending in
        pop_completed fuel pending
          (filter (λ id, id ∉ message_ids ∨ still_referenced pending id = true) done) (Some revision)
      else (pending, done, front)
  | _, _ => (pending, done, front)
  end.

Definition completion_complete (self : CompletionState) (message_id : string)
  : option Revision * CompletionState :=
  let '(pending, done, front) :=
    pop_completed (size (revisions self)) (revisions self) ({[message_id]} ∪ completed self) None in
  (front, MkCompletionState pending done (match front with Some r => Some r | None => frontier self end)).

(** ** Messages *)

Definition resource_id (message : TransitionMessage) : result ResourceId ParticipantRuntimeError :=
  map_err (λ _, InvalidMessage) (ResourceId_new (tm_resource message)).

Definition partition_id (message : TransitionMessage) : result PartitionId ParticipantRuntimeError :=
  map_err (λ _, InvalidMessage) (PartitionId_new (tm_partition message)).

Definition TransitionExecution_new (message : TransitionMessage)
  : result TransitionExecution ParticipantRuntimeError :=
  let? resource := map_err (λ _, InvalidMessage) (ResourceId_new (tm_resource message)) in
  let? partition := map_err (λ _, InvalidMessage) (PartitionId_new (tm_partition message)) in
  let? source := map_err (λ _, InvalidMessage) (State_new (tm_from message)) in
  let? target := map_err (λ _, InvalidMessage) (State_new (tm_to message)) in
  Ok (MkTransitionExecution resource partition source target (message_id message)).

Definition processed_revision_key (instance : InstanceId) : string :=
  "participant/" +:+ instance_str instance +:+ "/processed-revision".

Definition parse_queue_value (codec : QueueCodec) (value : string)
  : result (list TransitionMessage) ParticipantRuntimeError :=
  let? messages := map_err (λ _, InvalidMessage) (from_messages codec value) in
  if existsb (λ message, is_empty (message_id message)) messages then Err InvalidMessage
  else Ok messages.

Definition parse_event_messages (codec : QueueCodec) (event : WatchEvent)
  : result (list TransitionMessage) ParticipantRuntimeError :=
  match event_kind event with
  | EventDelete => Ok []
  | EventPut =>
      match event_value event with
      | None => Err InvalidMessage
      | Some value => parse_queue_value codec value
      end
  end.

(** ** Scheduling *)

Definition execution_key (message : TransitionMessage) : string :=
  tm_resource message +:+ "/" +:+ tm_partition message.

(** [in_flight], [observed_ids] and [scheduled] of [process_messages]. *)
Record Scan := MkScan {
  in_flight : gmap string string;
  observed_ids : list string;
  scheduled : list (TransitionMessage * string)
}.

Definition scan_message (instance : InstanceId) (st : Scan) (message : TransitionMessage) : Scan :=
  if negb (String.eqb (tm_instance message) (instance_str instance)) || is_empty (message_id message)
  then st
  else
    let key := execution_key message in
    match in_flight st !! key with
    | Some existing =>
        if String.eqb existing (message_id message)
        then MkScan (in_flight st) (observed_ids st ++ [message_id message]) (scheduled st)
        else st
    | None =>
        MkScan (<[key := message_id message]> (in_flight st)) (observed_ids st ++ [message_id message])
          (scheduled st ++ [(message, key)])
    end.

Definition scan_messages (instance : InstanceId) (flying : gmap string string)
    (messages : list TransitionMessage) : Scan :=
  foldl (scan_message instance) (MkScan flying [] []) messages.

(** The end of a worker: its entry is released when it is still its own. *)
Definition release_execution (flying : gmap string string) (key message_id : string) : gmap string string :=
  if bool_decide (flying !! key = Some message_id) then delete key flying else flying.

(** ** Execution *)

Abbreviation participant_prog A := (itree coordE (result A ParticipantRuntimeError)).

(** [..await?] on the coordination layer *)
Definition participant_call {A} (t : prog A) : participant_prog A :=
  let* r := t in Ret (map_err ParticipantCoordination r).

(** [EtcdCoordination::current_state] *)
Definition read_current_state (backend : EtcdCoordination) (instance : InstanceId) (session : SessionId)
    (resource : ResourceId) (partition : PartitionId) : prog (option State) :=
  let! snapshot := raw_snapshot (current_state_key backend instance session resource partition) false None in
  match snapshot.2 with
  | [] => Ret (Ok None)
  | kv :: _ =>
      try! text := utf8_value (kv_value kv) in
      try! state := map_err (λ _, InvalidValue) (State_new text) in
      Ret (Ok (Some state))
  end.

Definition MAX_COMPLETION_FENCE_RETRIES : nat := 256.
Definition MAX_CLEANUP_RETRIES : nat := 256.

Section execution.
Variable codec : QueueCodec.
Variable backend : EtcdCoordination.

(** The loop of [cleanup]. *)
Fixpoint cleanup_attempts (attempts : nat) (expected : Revision) (message : TransitionMessage)
  : participant_prog unit :=
  match attempts with
  | O => Ret (Err (ParticipantCoordination Contention))
  | S attempts =>
      let* removed := remove_pending_transition codec backend expected (message_id message) in
      match removed with
      | Ok _ => Ret (Ok tt)
      | Err StaleRevision =>
          let! entry := participant_call (get_metadata backend PENDING_TRANSITIONS_KEY) in
          match entry with
          | None => Ret (Ok tt)
          | Some entry => cleanup_attempts attempts (entry_revision entry) message
          end
      | Err error => Ret (Err (ParticipantCoordination error))
      end
  end.

Definition cleanup (queue_revision : Revision) (message : TransitionMessage) : participant_prog unit :=
  cleanup_attempts MAX_CLEANUP_RETRIES queue_revision message.

(** The completion loop of [execute_message]. *)
Fixpoint complete_attempts (attempts : nat) (instance : InstanceId) (session : SessionId)
    (revision : Revision) (message : TransitionMessage) (resulting_state : option State)
  : participant_prog CompletionResult :=
  match attempts with
  | O => Ret (Err (ParticipantCoordination Contention))
  | S attempts =>
      let fence := MkCompletionFence instance session revision (message_id message) in
      let* outcome := complete_pending_transition_with_fence codec backend fence message resulting_state in
      match outcome with
      | Ok result => Ret (Ok result)
      | Err StaleRevision =>
          let! entry := participant_call (get_metadata backend PENDING_TRANSITIONS_KEY) in
          match entry with
          | None => Ret (Ok AlreadyCompleted)
          | Some entry =>
              complete_attempts attempts instance session (entry_revision entry) message resulting_state
          end
      | Err error => Ret (Err (ParticipantCoordination error))
      end
  end.

(** The state an invocation leads to; [None] is a dropped replica. *)
Definition resulting_state (to : State) (outcome : result unit HandlerInvocationError)
  : result (option State) ParticipantRuntimeError :=
  match outcome with
  | Ok _ => if is_dropped to then Ok None else Ok (Some to)
  | Err Application => Ok (Some (MkState "ERROR"))
  | Err (Join error) => Err (HandlerJoin error)
  end.

(** From the claim on. *)
Definition claim_and_run (instance : InstanceId) (session : SessionId) (message : TransitionMessage)
    (to : State) (execution : TransitionExecution) (queue_revision : Revision)
  : participant_prog CompletionResult :=
  let! claim := participant_call (claim_pending_transition codec backend instance session message) in
  match claim with
  | ClaimSessionLost => let! _ := cleanup queue_revision message in Ret (Ok CompletionSessionLost)
  | Withdrawn => Ret (Ok AlreadyCompleted)
  | Claimed claim_revision =>
      let* outcome := invoke execution in
      try! resulting := resulting_state to outcome in
      complete_attempts MAX_COMPLETION_FENCE_RETRIES instance session claim_revision message resulting
  end.

Definition is_state_transition (message : TransitionMessage) (session : SessionId) : bool :=
  String.eqb (message_type message) "STATE_TRANSITION"
  && (target_session message =? session_value session)%N.

Definition is_next_hop (model : StateModelDefinition) (current from to : State) : bool :=
  negb (bool_decide (current = to)) && bool_decide (current = from)
  && bool_decide (next_state_toward model current to = Some to).

Definition execute_message (instance : InstanceId) (session : SessionId) (model : StateModelDefinition)
    (message : TransitionMessage) (queue_revision : Revision) : participant_prog CompletionResult :=
  try! resource := resource_id message in
  try! partition := partition_id message in
  let! stored := participant_call (read_current_state backend instance session resource partition) in
  let current := default (initial_state model) stored in
  if negb (is_state_transition message session) then
    let! _ := cleanup queue_revision message in Ret (Ok AlreadyCompleted)
  else
    try! from := map_err (λ _, InvalidMessage) (State_new (tm_from message)) in
    try! to := map_err (λ _, InvalidMessage) (State_new (tm_to message)) in
    if negb (is_next_hop model current from to) then
      let! _ := cleanup queue_revision message in Ret (Ok AlreadyCompleted)
    else
      try! execution := TransitionExecution_new message in
      claim_and_run instance session message to execution queue_revision.
End execution.

(** * Facts *)

(** ** The frontier *)

(** The least revision comes first. *)
Lemma first_revision (m : gmap Revision (gset string)) revision ids l :
  entries m = (revision, ids) :: l →
  m !! revision = Some ids ∧
  ∀ r, is_Some (m !! r) → (revision_value revision ≤ revision_value r)%Z.
Proof.
  intros He. split; [apply elem_of_entries; rewrite He; left|]. intros r [x Hx].
  pose proof (map_keys_sorted m) as Hs. unfold map_keys in Hs. rewrite He in Hs. cbn in Hs.
  apply StronglySorted_inv in Hs as [_ Hle]. rewrite Forall_forall in Hle.
  apply elem_of_entries in Hx. rewrite He in Hx. apply elem_of_cons in Hx as [Heq|Hx];
    [by injection Heq as -> _|].
  assert (key_lt revision r) as Hlt.
  { apply Hle. apply list_elem_of_fmap. by exists (r, x). }
  change (Z.compare (revision_value revision) (revision_value r) = Lt) in Hlt.
  by apply Z.lt_le_incl, Z.compare_lt_iff.
Qed.

Lemma still_referenced_spec (m : gmap Revision (gset string)) id :
  still_referenced m id = true ↔ ∃ r ids, m !! r = Some ids ∧ id ∈ ids.
Proof.
  unfold still_referenced. rewrite existsb_exists. split.
  - intros (ids & Hin & Hid%bool_decide_eq_true_1). apply list_elem_of_In, elem_of_map_values in Hin as [r Hr].
    by exists r, ids.
  - intros (r & ids & Hr & Hid). exists ids. split; [|by apply bool_decide_eq_true_2].
    apply list_elem_of_In, elem_of_map_values. by exists r.
Qed.

(** What popping does to the pending revisions. *)
Record popped (pending pending' : gmap Revision (gset string)) (done done' : gset string)
    (front front' : option Revision) : Prop := {
  popped_sub : pending' ⊆ pending;
  popped_done : done' ⊆ done;
  popped_kept : ∀ id r ids, id ∈ done → pending' !! r = Some ids → id ∈ ids → id ∈ done';
  popped_complete : ∀ r ids, pending !! r = Some ids → pending' !! r = None → ids ⊆ done;
  popped_front : ∀ r, front' = Some r → front' = front ∨
    (∀ r', is_Some (pending' !! r') → (revision_value r < revision_value r')%Z);
  popped_stuck : ∀ r, is_Some (pending' !! r) → ∃ r0 ids id, (revision_value r0 ≤ revision_value r)%Z ∧
    pending' !! r0 = Some ids ∧ id ∈ ids ∧ id ∉ done'
}.

Lemma pop_completed_spec fuel pending done front :
  size pending ≤ fuel →
  let '(pending', done', front') := pop_completed fuel pending done front in
  popped pending pending' done done' front front'.
Proof.
  revert pending done front. induction fuel as [|fuel IH]; intros pending done front Hfuel.
  { assert (pending = ∅) as -> by (apply map_size_empty_inv; lia). cbn.
    split; [done|done|done| |by left| ]; intros r; rewrite lookup_empty; [done|by intros [? ?]]. }
  cbn [pop_completed]. destruct (entries pending) as [|[revision ids] l] eqn:He.
  { assert (pending = ∅) as -> by (apply map_size_empty_inv; rewrite <-length_entries, He; done).
    split; [done|done|done| |by left| ]; intros r; rewrite lookup_empty; [done|by intros [? ?]]. }
  destruct (first_revision pending revision ids l He) as [Hrev Hmin]. case_bool_decide as Hsub.
  - set (rest := delete revision pending). set (kept := filter _ done).
    assert (size rest ≤ fuel) as Hsize by (unfold rest; rewrite map_size_delete_Some by done; lia).
    specialize (IH rest kept (Some revision) Hsize). destruct (pop_completed fuel rest kept (Some revision)) as [[p' d'] f'].
    destruct IH as [Hs Hd Hk Hc Hf Hst]. split.
    + etrans; [done|]. apply delete_subseteq.
    + etrans; [done|]. unfold kept. set_solver.
    + intros id r x Hid Hr Hx. apply (Hk id r x); [|done|done]. unfold kept. apply elem_of_filter.
      split; [|done]. right. apply still_referenced_spec. exists r, x. split; [|done]. by eapply lookup_weaken.
    + intros r x Hr Hnone. destruct (decide (r = revision)) as [->|Hne].
      * by assert (x = ids) as -> by congruence.
      * etrans; [apply (Hc r x)|unfold kept; set_solver]; [|done]. unfold rest. by rewrite lookup_delete_ne.
    + intros r Hr. destruct (Hf r Hr) as [Heq|Hlt]; [|by right]. right. intros r' Hr'.
      assert (is_Some (rest !! r')) as Hr1 by (destruct Hr' as [x Hx]; exists x; by eapply lookup_weaken).
      assert (r = revision) as -> by congruence. unfold rest in Hr1.
      destruct (decide (r' = revision)) as [->|Hne]; [by rewrite lookup_delete_eq in Hr1; destruct Hr1|].
      rewrite lookup_delete_ne in Hr1 by done. pose proof (Hmin r' Hr1) as Hle.
      destruct (Z.eq_dec (revision_value revision) (revision_value r')) as [Heq'|]; [|lia].
      destruct revision, r'. by cbn in Heq'; subst.
    + done.
  - split; [done|done|done|congruence|by left|]. intros r Hr. assert (∃ id, id ∈ ids ∧ id ∉ done) as (id & Hid & Hnot).
    { destruct (decide (Forall (λ id, id ∈ done) (elements ids))) as [Hall|Hnot].
      - exfalso. apply Hsub. intros id Hid. rewrite Forall_forall in Hall. by apply Hall, elem_of_elements.
      - apply not_Forall_Exists in Hnot; [|apply _]. apply Exists_exists in Hnot as (id & Hid%elem_of_elements & ?).
        by exists id. }
    exists revision, ids, id. by auto.
Qed.

(** The calls on a frontier, in the order in which its mutex is taken. *)
Inductive completion_op :=
| Observe (revision : Revision) (message_ids : list string)
| Complete (message_id : string).

Inductive completion_reach : list completion_op → CompletionState → Prop :=
| reach_new : completion_reach [] CompletionState_new
| reach_observe ops st revision ids :
    completion_reach ops st →
    completion_reach (ops ++ [Observe revision ids]) (frontier_observe st revision ids)
| reach_complete ops st id :
    completion_reach ops st → completion_reach (ops ++ [Complete id]) (completion_complete st id).2.

(** A message observed at a revision and not completed since. *)
Definition outstanding (ops : list completion_op) (revision : Revision) (id : string) : Prop :=
  ∃ before after ids, ops = before ++ Observe revision ids :: after ∧ id ∈ ids ∧ Complete id ∉ after.

Record completion_inv (ops : list completion_op) (st : CompletionState) : Prop := {
  ci_done : ∀ id, id ∈ completed st → Complete id ∈ ops;
  ci_observed : ∀ r ids id, Observe r ids ∈ ops → id ∈ ids →
    (∃ set, revisions st !! r = Some set ∧ id ∈ set) ∨ Complete id ∈ ops;
  ci_pending : ∀ r set id, revisions st !! r = Some set → id ∈ set →
    id ∈ completed st ∨ outstanding ops r id
}.

Lemma outstanding_observe ops r id r' ids' :
  outstanding ops r id → outstanding (ops ++ [Observe r' ids']) r id.
Proof.
  intros (a & b & ids & -> & Hid & Hb). exists a, (b ++ [Observe r' ids']), ids.
  split_and!; [by rewrite <-app_assoc|done|]. rewrite elem_of_app, list_elem_of_singleton. naive_solver.
Qed.

Lemma outstanding_complete ops r id id' :
  outstanding ops r id → id ≠ id' → outstanding (ops ++ [Complete id']) r id.
Proof.
  intros (a & b & ids & -> & Hid & Hb) Hne. exists a, (b ++ [Complete id']), ids.
  split_and!; [by rewrite <-app_assoc|done|]. rewrite elem_of_app, list_elem_of_singleton. naive_solver.
Qed.

Lemma observe_inv ops st r ids :
  completion_inv ops st → completion_inv (ops ++ [Observe r ids]) (frontier_observe st r ids).
Proof.
  intros [Hdone Hobs Hpend].
  assert (∀ id, Complete id ∈ ops → Complete id ∈ ops ++ [Observe r ids]) as Hmono by (intros; set_solver).
  destruct ids as [|x ids].
  - split; cbn; [by auto| |].
    + intros r' ids' id [Ho|Ho%list_elem_of_singleton]%elem_of_app Hid;
        [destruct (Hobs r' ids' id Ho Hid); auto|]. injection Ho as -> ->. by apply elem_of_nil in Hid.
    + intros r' set id Hr Hid. destruct (Hpend r' set id Hr Hid); auto using outstanding_observe.
  - unfold frontier_observe. set (all := x :: ids) in *. split; cbn; [by auto| |].
    + intros r' ids' id Ho Hid. destruct (decide (r' = r)) as [->|Hne].
      * rewrite lookup_insert_eq. apply elem_of_app in Ho as [Ho|Ho%list_elem_of_singleton].
        -- destruct (Hobs r ids' id Ho Hid) as [(set & Hset & Hin)|]; [|auto]. left.
           eexists. split; [done|]. rewrite Hset. set_solver.
        -- injection Ho as ->. left. eexists. split; [done|]. set_solver.
      * rewrite lookup_insert_ne by done. apply elem_of_app in Ho as [Ho|Ho%list_elem_of_singleton];
          [|by injection Ho as -> _]. destruct (Hobs r' ids' id Ho Hid); auto.
    + intros r' set id Hr Hid. destruct (decide (r' = r)) as [->|Hne].
      * rewrite lookup_insert_eq in Hr. injection Hr as <-. apply elem_of_union in Hid as [Hid|Hid].
        -- destruct (revisions st !! r) as [old|] eqn:Hold; [|by apply elem_of_empty in Hid].
           destruct (Hpend r old id Hold Hid); auto using outstanding_observe.
        -- right. exists ops, [], all. split_and!; [done|set_solver|by intros ?%elem_of_nil].
      * rewrite lookup_insert_ne in Hr by done. destruct (Hpend r' set id Hr Hid); auto using outstanding_observe.
Qed.

Lemma complete_popped st id result st' :
  completion_complete st id = (result, st') →
  popped (revisions st) (revisions st') ({[id]} ∪ completed st) (completed st') None result.
Proof.
  unfold completion_complete. pose proof (pop_completed_spec (size (revisions st)) (revisions st)
    ({[id]} ∪ completed st) None (le_n _)) as Hp.
  destruct (pop_completed _ _ _ _) as [[p d] f]. by intros [= <- <-].
Qed.

Lemma complete_inv ops st id result st' :
  completion_inv ops st → completion_complete st id = (result, st') →
  completion_inv (ops ++ [Complete id]) st'.
Proof.
  intros [Hdone Hobs Hpend] Hc%complete_popped. destruct Hc as [Hsub Hd Hk Hcomp _ _].
  assert (∀ x, x ∈ {[id]} ∪ completed st → Complete x ∈ ops ++ [Complete id]) as Hmono.
  { intros x [->%elem_of_singleton|Hx]%elem_of_union; [set_solver|]. specialize (Hdone x Hx). set_solver. }
  split.
  - intros x Hx. by apply Hmono, Hd.
  - intros r ids x Ho Hx. assert (Observe r ids ∈ ops) as Ho' by set_solver.
    destruct (Hobs r ids x Ho' Hx) as [(set & Hset & Hin)|Hin]; [|right; set_solver].
    destruct (revisions st' !! r) as [set'|] eqn:Hr'.
    + left. exists set'. split; [done|]. rewrite (lookup_weaken _ _ _ _ Hr' Hsub) in Hset. by injection Hset as ->.
    + right. apply Hmono. by apply (Hcomp r set Hset Hr').
  - intros r set x Hr Hx. pose proof (lookup_weaken _ _ _ _ Hr Hsub) as Hr0.
    destruct (decide (x = id)) as [->|Hne]; [left; eapply Hk; [|done|done]; set_solver|].
    destruct (Hpend r set x Hr0 Hx) as [Hdn|Hout]; [left; eapply Hk; [|done|done]; set_solver|].
    right. by apply outstanding_complete.
Qed.

Lemma completion_reach_inv ops st : completion_reach ops st → completion_inv ops st.
Proof.
  induction 1 as [|ops st r ids _ IH|ops st id _ IH].
  - split; cbn; [by intros id ?%elem_of_empty|by intros r ids id ?%elem_of_nil|]. intros r set id. by rewrite lookup_empty.
  - by apply observe_inv.
  - destruct (completion_complete st id) as [result st'] eqn:Hc. by eapply complete_inv.
Qed.

(** ** Scheduling *)

Section scanning.
Context (instance : InstanceId) (flying : gmap string string).

Definition own (message : TransitionMessage) : Prop :=
  tm_instance message = instance_str instance ∧ is_empty (message_id message) = false.

Record scanned (messages : list TransitionMessage) (r : Scan) : Prop := {
  scan_keeps : flying ⊆ in_flight r;
  scan_scheduled : ∀ m key, (m, key) ∈ scheduled r → m ∈ messages ∧ own m ∧ key = execution_key m ∧
    flying !! key = None ∧ in_flight r !! key = Some (message_id m);
  scan_unique : NoDup (scheduled r).*2;
  scan_observed : ∀ id, id ∈ observed_ids r ↔
    ∃ m, m ∈ messages ∧ own m ∧ message_id m = id ∧ in_flight r !! execution_key m = Some id;
  scan_new : ∀ key id, in_flight r !! key = Some id →
    flying !! key = Some id ∨ ∃ m, (m, key) ∈ scheduled r ∧ message_id m = id;
  scan_covers : ∀ m, m ∈ messages → own m → is_Some (in_flight r !! execution_key m)
}.

Lemma own_spec message :
  negb (String.eqb (tm_instance message) (instance_str instance)) || is_empty (message_id message) = false ↔ own message.
Proof. rewrite orb_false_iff, negb_false_iff, String.eqb_eq. done. Qed.

Lemma elem_of_snoc (messages : list TransitionMessage) m x : x ∈ messages ++ [m] ↔ x ∈ messages ∨ x = m.
Proof. by rewrite elem_of_app, list_elem_of_singleton. Qed.

(** A message of somebody else, or of no identity, changes nothing. *)
Lemma scan_foreign messages r m : ¬ own m → scanned messages r → scanned (messages ++ [m]) r.
Proof.
  intros Hnot [Hk Hs Hu Ho Hn Hc]. split; [done| |done| |done|].
  - intros m' key Hin. destruct (Hs m' key Hin) as (? & Hrest). rewrite elem_of_snoc. by split; [left|].
  - intros id. rewrite Ho. setoid_rewrite elem_of_snoc. split; [intros (m' & ? & ?); eauto|].
    intros (m' & [Hm| ->] & Hrest); [by exists m'|]. by destruct Hrest as [? _].
  - intros m' [Hm| ->]%elem_of_snoc Hm'; [by apply Hc|done].
Qed.

(** One whose partition is busy is observed when it is the one at work. *)
Lemma scan_busy messages r m existing :
  own m → in_flight r !! execution_key m = Some existing → scanned messages r →
  scanned (messages ++ [m])
    (if String.eqb existing (message_id m)
     then MkScan (in_flight r) (observed_ids r ++ [message_id m]) (scheduled r) else r).
Proof.
  intros Hown Hfly [Hk Hs Hu Ho Hn Hc].
  assert (∀ m', m' ∈ messages ++ [m] → own m' → is_Some (in_flight r !! execution_key m')) as Hc'.
  { intros m' [Hm| ->]%elem_of_snoc Hm'; [by apply Hc|by exists existing]. }
  assert (∀ m' key, (m', key) ∈ scheduled r → m' ∈ messages ++ [m] ∧ own m' ∧ key = execution_key m' ∧
    flying !! key = None ∧ in_flight r !! key = Some (message_id m')) as Hs'
    by (intros m' key Hin; destruct (Hs m' key Hin) as (? & Hrest); rewrite elem_of_snoc; by split; [left|]).
  destruct (String.eqb_spec existing (message_id m)) as [->|Hne]; split; cbn; try done;
    intros id; setoid_rewrite elem_of_snoc.
  - rewrite elem_of_app, Ho, list_elem_of_singleton. split.
    + intros [(m' & Hm' & Hrest)| ->]; [exists m'; by split; [left|]|exists m; by split; [right|]].
    + intros (m' & [Hm| ->] & Hrest); [left; by exists m'|right]. by destruct Hrest as (_ & <- & _).
  - rewrite Ho. split; [intros (m' & ? & ?); eauto|]. intros (m' & [Hm| ->] & Hrest); [by exists m'|].
    destruct Hrest as (_ & <- & Hsome). congruence.
Qed.

(** One whose partition is free is scheduled. *)
Lemma scan_free messages r m :
  own m → in_flight r !! execution_key m = None → scanned messages r →
  scanned (messages ++ [m]) (MkScan (<[execution_key m := message_id m]> (in_flight r))
    (observed_ids r ++ [message_id m]) (scheduled r ++ [(m, execution_key m)])).
Proof.
  intros Hown Hfly [Hk Hs Hu Ho Hn Hc].
  assert (flying !! execution_key m = None) as Hnone by (by eapply lookup_weaken_None).
  assert (∀ m', (m', execution_key m) ∉ scheduled r) as Hfresh.
  { intros m' Hin. destruct (Hs _ _ Hin) as (_ & _ & _ & _ & Hx). congruence. }
  split; cbn.
  - by apply insert_subseteq_r.
  - intros m' key [Hin|Hin%list_elem_of_singleton]%elem_of_app; rewrite elem_of_snoc.
    + destruct (Hs _ _ Hin) as (? & ? & ? & ? & ?). split_and!; [by left|done|done|done|].
      rewrite lookup_insert_ne; [done|]. intros <-. by apply (Hfresh m').
    + injection Hin as -> ->. split_and!; [by right|done|done|done|apply lookup_insert_eq].
  - rewrite fmap_app. apply NoDup_app. split_and!; [done| |apply NoDup_singleton].
    intros key ([m' key'] & -> & Hp)%list_elem_of_fmap Hin%list_elem_of_singleton. cbn in Hin.
    subst key'. by apply (Hfresh m').
  - intros id. setoid_rewrite elem_of_snoc. rewrite elem_of_app, Ho, list_elem_of_singleton. split.
    + intros [(m' & Hm' & Hown' & Hid & Hx)| ->].
      * exists m'. split_and!; [by left|done|done|]. rewrite lookup_insert_ne; [done|]. intros Heq. congruence.
      * exists m. split_and!; [by right|done|done|apply lookup_insert_eq].
    + intros (m' & [Hm| ->] & Hown' & Hid & Hx); [|by right].
      left. exists m'. split_and!; [done|done|done|]. rewrite lookup_insert_ne in Hx; [done|].
      intros Heq. destruct (Hc m' Hm Hown') as [y Hy]. congruence.
  - intros key id [[<- <-]|[Hne Hx]]%lookup_insert_Some;
      [right; exists m; split; [apply elem_of_app; right; left|done]|].
    destruct (Hn key id Hx) as [|(m' & Hm' & Hid)]; [by left|right]. exists m'.
    split; [apply elem_of_app; by left|done].
  - intros m' [Hm| ->]%elem_of_snoc Hm'; [|rewrite lookup_insert_eq; by eexists].
    destruct (decide (execution_key m' = execution_key m)) as [->|Hne];
      [rewrite lookup_insert_eq; by eexists|]. rewrite lookup_insert_ne by done. by apply Hc.
Qed.

Lemma scan_messages_scanned messages : scanned messages (scan_messages instance flying messages).
Proof.
  unfold scan_messages. induction messages as [|m messages IH] using rev_ind.
  - split; cbn; [done|by intros m key ?%elem_of_nil|constructor| |by left|by intros m ?%elem_of_nil].
    intros id. split; [by intros ?%elem_of_nil|]. by intros (m & ?%elem_of_nil & _).
  - rewrite foldl_snoc. unfold scan_message at 1. destruct (_ || _) eqn:Hown.
    + apply scan_foreign; [|done]. by rewrite <-own_spec, Hown.
    + apply own_spec in Hown. set (r := foldl _ _ _) in *.
      destruct (in_flight r !! execution_key m) as [existing|] eqn:Hfly; [|by apply scan_free].
      by apply scan_busy.
Qed.
End scanning.

(** ** Execution *)

Section execution_facts.
Context {S : Type} `{EtcdLaws S} (env rely : S → S → Prop) `{!Rely env rely}.
Context (codec : QueueCodec) (backend : EtcdCoordination).

(** The messages of an identity leave the queue, and nothing else changes. *)
Definition removes (id : string) (s1 s2 : S) : Prop :=
  ∃ fence, cf_message_id fence = id ∧ withdraw_step codec backend fence s1 s2.

Lemma remove_outcome expected id s :
  ensures env (remove_pending_transition codec backend expected id) s (λ tr _ r,
    match r with
    | Ok true => once rely (removes id) s tr
    | Err (Etcd _) => tr = [] ∨ once rely (removes id) s tr
    | _ => tr = []
    end).
Proof.
  assert (∀ s' (x : result bool CoordinationError), x ≠ Ok true → ensures env (Ret x) s' (λ tr _ r,
    match r with
    | Ok true => once rely (removes id) s tr
    | Err (Etcd _) => tr = [] ∨ once rely (removes id) s tr
    | _ => tr = []
    end)) as Hret.
  { intros s' [[|]|[]] Hx; try done; apply holds_ret; intros; (done || by left). }
  apply (ensures_get_metadata env rely); [by intros; apply Hret| |].
  2: { intros e s' _ [->|[text ->]]; [done|by left]. }
  intros s1 kv Hs1 Hkv. cbn [entry_value entry_revision].
  destruct (parse_pending_messages codec (Some (kv_value kv))) as [messages|e] eqn:Hp; [|by apply Hret].
  cbv zeta. destruct (_ =? _)%nat; [by apply Hret|].
  case_bool_decide as Hrev; cbn [negb]; [|by apply Hret].
  destruct (encode_messages codec _) as [text|e] eqn:Henc; [|by apply Hret].
  set (fence := MkCompletionFence (MkInstanceId "") (MkSessionId 0) expected id).
  assert (∀ s2 s3, rely s1 s2 →
    kv_field (keyspace s2) (metadata_key backend PENDING_TRANSITIONS_KEY) kv_mod_revision 0%Z = revision_value expected ∧
    effect_of (keyspace s2) (head s2) (with_marker backend PENDING_TRANSITIONS_KEY
      (TxnPut (metadata_key backend PENDING_TRANSITIONS_KEY) text 0)) (keyspace s3) (head s3) →
    once rely (removes id) s (commit s2 s3)) as Hstep.
  { intros s2 s3 Hs2 Hhit.
    destruct (withdraw_commits env rely codec backend fence s1 s2 s3 kv messages text Hkv Hrev Hp Henc Hs2 Hhit) as [Hw ->].
    exists s2, s3. split_and!; [by etrans|done|by exists fence]. }
  apply (ensures_compare_and_put env rely).
  - intros s2 s3 Hs2 Hhit. apply (ensures_ret env rely). intros s' _. rewrite app_nil_r. cbn. by apply Hstep.
  - intros s2 _ _. by apply Hret.
  - intros text' s' _. by left.
  - intros text' s2 s3 s' Hs2 Hhit _. right. by apply Hstep.
Qed.

(** ** Reads *)

Lemma quiet_raw_snapshot key p : commits env (λ _, False) (raw_snapshot key p None).
Proof.
  apply commits_try; [by apply commits_read|]. intros a. destruct (get_header a) as [h|]; [|apply commits_ret].
  destruct (Revision_new h); apply commits_ret.
Qed.

Lemma quiet_metadata key : commits env (λ _, False) (get_metadata backend key).
Proof.
  apply commits_try; [apply quiet_raw_snapshot|]. intros [r [|kv kvs]]; [apply commits_ret|]. cbn [snd].
  destruct (utf8_value _); [|apply commits_ret]. destruct (Revision_new _); apply commits_ret.
Qed.

Lemma quiet_current i n r p : commits env (λ _, False) (read_current_state backend i n r p).
Proof.
  apply commits_try; [apply quiet_raw_snapshot|]. intros [rev [|kv kvs]]; [apply commits_ret|]. cbn [snd].
  destruct (utf8_value _); [|apply commits_ret]. destruct (map_err _ _); apply commits_ret.
Qed.

(** A read, and what follows it. *)
Lemma ensures_reading {A B} (t : prog A) (k : A → participant_prog B) s
    (Q : list (observation S) → S → result B ParticipantRuntimeError → Prop) :
  commits env (λ _, False) t →
  (∀ a s1, rely s s1 → ensures env (k a) s1 Q) →
  (∀ e s1, rely s s1 → Q [] s1 (Err (ParticipantCoordination e))) →
  ensures env (let! x := participant_call t in k x) s Q.
Proof.
  intros Ht Hk He. unfold participant_call. apply holds_assoc. apply holds_bind.
  eapply holds_mono; [by apply (ensures_idle env rely)|].
  intros tr s1 r [-> Hs1]. apply ensures_bind_ret. destruct r as [a|e]; cbn [map_err app]; [by apply Hk|].
  apply (ensures_ret env rely). intros s2 Hs2. apply He. by etrans.
Qed.

(** ** Cleaning up *)

Definition cleaned (id : string) (s : S) (tr : list (observation S)) : Prop :=
  tr = [] ∨ once rely (removes id) s tr.

Lemma cleaned_later id s s1 tr : rely s s1 → cleaned id s1 tr → cleaned id s tr.
Proof. intros Hs [->|Ho]; [by left|right]. exact (once_later rely _ s s1 tr Hs Ho). Qed.

Lemma cleanup_attempts_outcome n expected message s :
  ensures env (cleanup_attempts codec backend n expected message) s
    (λ tr _ _, cleaned (message_id message) s tr).
Proof.
  revert expected s. induction n as [|n IH]; intros expected s; [apply holds_ret; by left|].
  cbn [cleanup_attempts]. apply holds_bind. eapply holds_mono; [apply (ensures_path env rely), remove_outcome|].
  intros tr s1 r [Hr Hpath].
  assert (cleaned (message_id message) s tr) as Hc by (destruct r as [[|]|[]]; try (by left); try (by right); exact Hr).
  assert (∀ (x : result unit ParticipantRuntimeError) s', ensures env (Ret x) s'
    (λ tr' _ _, cleaned (message_id message) s (tr ++ tr'))) as Hret
    by (intros x s'; apply holds_ret; intros; by rewrite app_nil_r).
  destruct r as [b|e]; [apply Hret|]. destruct e; try apply Hret. subst tr. cbn in Hpath.
  apply ensures_reading; [apply quiet_metadata| |by left].
  intros [entry|] s2 Hs2; [|apply Hret]. eapply holds_mono; [apply IH|]. intros tr' s3 r'.
  apply cleaned_later. by etrans.
Qed.

(** The record of a replica as it is at one moment. *)
Lemma current_outcome i n r p s :
  ensures env (read_current_state backend i n r p) s (λ tr s' x, tr = [] ∧
    match x with
    | Ok stored => ∃ s1, rely s s1 ∧ rely s1 s' ∧
                         stored = MkState <$> record_text backend (keyspace s1) i n r p
    | Err _ => True
    end).
Proof.
  apply (ensures_raw_snapshot env rely); [|done]. intros s1 Hs1. cbn [snd select_kvs]. unfold record_text.
  destruct (keyspace s1 !! current_state_key backend i n r p) as [kv|] eqn:Hkv;
    [|apply (ensures_ret env rely); intros s' Hs'; split; [done|]; exists s1; by rewrite Hkv].
  unfold utf8_value. destruct (utf8_valid (kv_value kv)); [|by apply (ensures_ret env rely)].
  unfold State_new. destruct (is_empty _); cbn [map_err]; apply (ensures_ret env rely); [done|].
  intros s' Hs'. split; [done|]. exists s1. by rewrite Hkv.
Qed.

(** ** Completing *)

Section one_message.
Context (i : InstanceId) (n : SessionId) (message : TransitionMessage).

(** The result is published at whatever revision the queue then has. *)
Definition finishes (resulting : option State) (s1 s2 : S) : Prop :=
  ∃ revision, complete_step codec backend (MkCompletionFence i n revision (message_id message)) message
    resulting s1 s2.

Definition finished (resulting : option State) (s : S) (tr : list (observation S))
    (r : result CompletionResult ParticipantRuntimeError) : Prop :=
  match r with
  | Ok (Applied revision) => ∃ s1 s2, rely s s1 ∧ tr = [Committed s1 s2] ∧ finishes resulting s1 s2 ∧
                                      revision = MkRevision (head s2)
  | Ok AlreadyCompleted => tr = []
  | Ok CompletionSessionLost => cleaned (message_id message) s tr ∧
      ∃ s1, rely s s1 ∧ live_text backend (keyspace s1) i ≠ Some (session_text n)
  | Err (ParticipantCoordination (Etcd _)) =>
      cleaned (message_id message) s tr ∨ once rely (finishes resulting) s tr
  | Err _ => tr = []
  end.

Lemma finished_later resulting s s1 tr r :
  rely s s1 → finished resulting s1 tr r → finished resulting s tr r.
Proof.
  intros Hs. pose proof (λ t, once_later rely (finishes resulting) s s1 t Hs) as Hlater.
  pose proof (λ t, cleaned_later (message_id message) s s1 t Hs) as Hcleaned.
  assert (∀ s2, rely s1 s2 → rely s s2) as Htrans by (intros; by etrans).
  destruct r as [[]|[[]| | | | | | ]]; cbn; naive_solver.
Qed.

Lemma complete_attempts_outcome attempts revision resulting s :
  ensures env (complete_attempts codec backend attempts i n revision message resulting) s
    (λ tr _ r, finished resulting s tr r).
Proof.
  revert revision s. induction attempts as [|attempts IH]; intros revision s; [by apply holds_ret|].
  cbn [complete_attempts]. apply holds_bind.
  eapply holds_mono; [apply (ensures_path env rely), (complete_outcome env rely)|].
  intros tr s1 r [Hr Hpath]. set (fence := MkCompletionFence i n revision (message_id message)) in *.
  assert (∀ (x : result CompletionResult ParticipantRuntimeError) s', finished resulting s tr x →
    ensures env (Ret x) s' (λ tr' _ r, finished resulting s (tr ++ tr') r)) as Hret
    by (intros x s' Hx; apply holds_ret; intros; by rewrite app_nil_r).
  assert (∀ t, once rely (withdraw_step codec backend fence) s t → cleaned (message_id message) s t) as Hclean.
  { intros t (s2 & s3 & ? & ? & ?). right. exists s2, s3. split_and!; [done..|by exists fence]. }
  assert (∀ t, once rely (complete_step codec backend fence message resulting) s t →
    once rely (finishes resulting) s t) as Hdone.
  { intros t (s2 & s3 & ? & ? & ?). exists s2, s3. split_and!; [done..|by exists revision]. }
  destruct r as [result|e].
  { apply Hret. destruct result as [rev| |]; cbn in Hr |- *; [| |done].
    - destruct Hr as (s2 & s3 & ? & ? & ? & ?). exists s2, s3. split_and!; [done..|by exists revision|done].
    - destruct Hr as [[->|Ho] Hgone]; (split; [|exact Hgone]); [by left|by apply Hclean]. }
  destruct e; try (by apply Hret); cbn in Hr.
  - apply Hret. cbn. destruct Hr as [->|[Ho|Ho]]; [left; by left|right; by apply Hdone|left; by apply Hclean].
  - subst tr. cbn in Hpath. apply ensures_reading; [apply quiet_metadata| |].
    + intros [entry|] s2 Hs2; [|by apply Hret]. eapply holds_mono; [apply IH|]. intros tr' s3 r'.
      apply finished_later. by etrans.
    + intros e s2 _. destruct e; try done. left. by left.
Qed.

(** ** Executing *)

Lemma cleanup_then revision (x : CompletionResult) s :
  ensures env (let! _ := cleanup codec backend revision message in Ret (Ok x)) s
    (λ tr _ r, cleaned (message_id message) s tr ∧ (r = Ok x ∨ ∃ e, r = Err e)).
Proof.
  apply holds_bind. eapply holds_mono; [apply cleanup_attempts_outcome|]. intros tr s1 [a|e] Hc;
    apply holds_ret; intros s' _; rewrite app_nil_r; (split; [exact Hc|]); [by left|right; by exists e].
Qed.

Abbreviation reported s0 :=
  (MkState <$> record_text backend (keyspace s0) i n (MkResourceId (tm_resource message))
     (MkPartitionId (tm_partition message))).

(** What holds when the handler is called: the message is a transition of this
    session; at one moment [s0] the replica is where the message starts, one legal
    hop from where it ends; and at a later moment [s1] the session is live and the
    message still queued. *)
Definition entitled (model : StateModelDefinition) (s s2 : S) : Prop :=
  message_type message = "STATE_TRANSITION" ∧ target_session message = session_value n ∧
  tm_from message ≠ tm_to message ∧
  next_state_toward model (MkState (tm_from message)) (MkState (tm_to message)) =
    Some (MkState (tm_to message)) ∧
  ∃ s0 s1 revision, rely s s0 ∧ rely s0 s1 ∧ rely s1 s2 ∧
    default (initial_state model) (reported s0) = MkState (tm_from message) ∧
    live_text backend (keyspace s1) i = Some (session_text n) ∧
    queued codec backend (keyspace s1) message revision.

(** An execution either never reaches the handler, and at most takes the message
    off the queue, or calls it once and then publishes what follows. *)
Definition executed (model : StateModelDefinition) (s : S) (tr : list (observation S))
    (r : result CompletionResult ParticipantRuntimeError) : Prop :=
  (cleaned (message_id message) s tr ∧ ∀ revision, r ≠ Ok (Applied revision)) ∨
  ∃ s2 execution outcome tr', tr = Invoked s2 execution outcome :: tr' ∧ entitled model s s2 ∧
    TransitionExecution_new message = Ok execution ∧
    match resulting_state (MkState (tm_to message)) outcome with
    | Ok resulting => finished resulting s2 tr' r
    | Err e => tr' = [] ∧ r = Err e
    end.

Lemma is_next_hop_spec model current from to :
  is_next_hop model current from to = true →
  current = from ∧ from ≠ to ∧ next_state_toward model from to = Some to.
Proof.
  unfold is_next_hop. intros [[Hne%negb_true_iff%bool_decide_eq_false_1
    ->%bool_decide_eq_true_1]%andb_true_iff Hhop%bool_decide_eq_true_1]%andb_true_iff. done.
Qed.

Lemma claim_and_run_outcome model revision execution s s0 s1 :
  rely s s0 → rely s0 s1 → is_state_transition message n = true →
  is_next_hop model (default (initial_state model) (reported s0)) (MkState (tm_from message))
    (MkState (tm_to message)) = true →
  TransitionExecution_new message = Ok execution →
  ensures env (claim_and_run codec backend i n message (MkState (tm_to message)) execution revision) s1
    (λ tr _ r, executed model s tr r).
Proof.
  intros Hs0 Hs1 [Htype%String.eqb_eq Hsession%N.eqb_eq]%andb_true_iff Hhop Hexec.
  apply is_next_hop_spec in Hhop as (Hcur & Hne & Hhop). apply holds_bind, holds_bind.
  eapply holds_mono; [apply (ensures_path env rely), (claim_attempts_outcome env rely)|].
  intros tr s2 claim [[-> Hclaim] Hpath]. cbn in Hpath. apply holds_ret. intros s3 Hs3%(rtc_rely env rely). cbn [app].
  assert (∀ x s', (∀ v, x ≠ Ok (Applied v)) → ensures env (Ret x) s' (λ tr _ r, executed model s tr r)) as Hret.
  { intros x s' Hx. apply holds_ret. intros _ _. left. split; [by left|done]. }
  destruct claim as [[rev| |]|e]; cbn [map_err]; [| |by apply Hret|by apply Hret].
  - destruct Hclaim as (s4 & Hs4 & Hs2 & Hlive & Hq). apply (ensures_invoke env rely). intros outcome s5 Hs5.
    assert (entitled model s s5) as Hent.
    { split_and!; [done|done|congruence|done|]. exists s0, s4, (revision_value rev).
      split_and!; [done|by etrans| |done|done|done].
      etrans; [exact Hs2|]. by etrans. }
    destruct (resulting_state _ outcome) as [resulting|e] eqn:Hres.
    + eapply holds_mono; [apply complete_attempts_outcome|]. intros tr' s' r Hr. right.
      exists s5, execution, outcome, tr'. by rewrite Hres.
    + apply holds_ret. intros s' _. right. exists s5, execution, outcome, []. by rewrite Hres.
  - eapply holds_mono; [apply cleanup_then|]. intros tr s' r [Hc Hr]. left. split; [|naive_solver].
    eapply cleaned_later; [|exact Hc]. etrans; [exact Hs0|]. etrans; [exact Hs1|]. by etrans.
Qed.

Lemma execute_outcome model revision s :
  ensures env (execute_message codec backend i n model message revision) s
    (λ tr _ r, executed model s tr r).
Proof.
  assert (∀ x s', (∀ v, x ≠ Ok (Applied v)) → ensures env (Ret x) s' (λ tr _ r, executed model s tr r)) as Hret.
  { intros x s' Hx. apply holds_ret. intros _ _. left. split; [by left|done]. }
  assert (∀ s', rely s s' → ensures env (let! _ := cleanup codec backend revision message in Ret (Ok AlreadyCompleted)) s'
    (λ tr _ r, executed model s tr r)) as Hclean.
  { intros s' Hs'. eapply holds_mono; [apply cleanup_then|]. intros tr s2 r [Hc Hr]. left.
    split; [by eapply cleaned_later|naive_solver]. }
  unfold execute_message, resource_id, partition_id, ResourceId_new, PartitionId_new, validate.
  destruct (is_empty (tm_resource message)); [by apply Hret|].
  destruct (is_empty (tm_partition message)); [by apply Hret|]. cbn [map_err].
  apply holds_bind, holds_bind. eapply holds_mono; [apply current_outcome|]. intros tr s1 stored [-> Hstored].
  apply holds_ret. intros s2 Hs2%(rtc_rely env rely). cbn [app]. destruct stored as [stored|e]; cbn [map_err]; [|by apply Hret].
  destruct Hstored as (s0 & Hs0 & Hs1 & ->). assert (rely s s2) as Hs by (etrans; [exact Hs0|]; by etrans).
  destruct (is_state_transition message n) eqn:Htype; cbn [negb]; [|by apply Hclean].
  destruct (State_new (tm_from message)) as [from|] eqn:Hfrom; cbn [map_err]; [|by apply Hret].
  destruct (State_new (tm_to message)) as [to|] eqn:Hto; cbn [map_err]; [|by apply Hret].
  unfold State_new in Hfrom, Hto. destruct (is_empty (tm_from message)); [done|].
  destruct (is_empty (tm_to message)); [done|]. injection Hfrom as <-. injection Hto as <-.
  destruct (is_next_hop _ _ _ _) eqn:Hhop; cbn [negb]; [|by apply Hclean].
  destruct (TransitionExecution_new message) as [execution|] eqn:Hexec; [|by apply Hret].
  eapply claim_and_run_outcome; [exact Hs0|by etrans|done..].
Qed.
End one_message.
End execution_facts.

(** * Theorems *)

(** The processed revision a participant reports is exact: when completing a
    message releases a revision, every message observed at that revision or
    before it has been completed; and a revision stays unreported only while a
    message observed at it, or at an earlier one, has not been completed since. *)
Theorem frontier_exact ops st id released st' :
  completion_reach ops st → completion_complete st id = (released, st') →
  (∀ r r' ids x, released = Some r → Observe r' ids ∈ ops → x ∈ ids →
     (revision_value r' ≤ revision_value r)%Z → Complete x ∈ ops ++ [Complete id]) ∧
  (∀ r, is_Some (revisions st' !! r) →
     ∃ r0 x, (revision_value r0 ≤ revision_value r)%Z ∧ outstanding (ops ++ [Complete id]) r0 x).
Proof.
  intros Hinv%completion_reach_inv Hc. pose proof (complete_inv _ _ _ _ _ Hinv Hc) as [_ Hobs Hpend].
  apply complete_popped in Hc as [_ _ _ _ Hfront Hstuck]. split.
  - intros r r' ids x -> Ho Hx Hle. destruct (Hobs r' ids x) as [(set & Hset & _)|]; [|done| |done].
    { apply elem_of_app. by left. }
    destruct (Hfront r eq_refl) as [|Hlt]; [done|]. specialize (Hlt r' (mk_is_Some _ _ Hset)). lia.
  - intros r Hr. destruct (Hstuck r Hr) as (r0 & ids & x & Hle & Hids & Hx & Hnot). exists r0, x.
    split; [done|]. by destruct (Hpend r0 ids x Hids Hx).
Qed.

(** C6: executing a message calls the application at most once, and only when it
    may: the message is a transition of this session, one legal hop from the state
    the replica had reported, and was claimed while the session was live and the
    message queued.  What the handler answers decides the state that one
    transaction publishes with the removal of the message, DROPPED removing the
    record and a failure reporting ERROR; a handler task that dies publishes
    nothing.  An execution that does not reach the handler reports no result and
    at most takes the message off the queue. *)
Theorem execution_exact {S : Type} `{EtcdLaws S} (env : S → S → Prop) codec backend i n model message
    revision s tr s' r :
  (∀ s s', env s s' → evolves s s') →
  runs env (execute_message codec backend i n model message revision) s tr s' r →
  executed evolves codec backend i n message model s tr r.
Proof.
  intros Henv Hrun. pose proof (evolves_rely env Henv).
  exact (execute_outcome env evolves codec backend i n message model revision s tr s' r Hrun).
Qed.

(** ** A message that is executed *)

Definition ex_delivered : mem_store :=
  mem_effect ex_queue_store [TxnPut (current_state_key ex_backend (MkInstanceId "node-a") (MkSessionId 1)
    (MkResourceId "documents") (MkPartitionId "p0")) "STANDBY" 0].

Definition ex_execute : participant_prog CompletionResult :=
  execute_message ex_codec ex_backend (MkInstanceId "node-a") (MkSessionId 1) leader_standby ex_message
    (MkRevision 3).

Lemma ex_execute_result :
  snd <$> run_mem 60 ex_execute ex_delivered = Some (Ok (Applied (MkRevision 5))).
Proof. vm_compute. reflexivity. Qed.

Lemma execution_exact_witness :
  ∃ (m1 m2 : mem_store) execution outcome resulting,
    TransitionExecution_new ex_message = Ok execution ∧ resulting_state LEADER outcome = Ok resulting ∧
    finishes ex_codec ex_backend (MkInstanceId "node-a") (MkSessionId 1) ex_message resulting m1 m2.
Proof.
  pose proof ex_execute_result as Hres.
  destruct (run_mem 60 ex_execute ex_delivered) as [[[tr m'] r]|] eqn:Hrun; [|discriminate Hres].
  injection Hres as ->. apply run_mem_sound in Hrun.
  destruct (execution_exact alone ex_codec ex_backend (MkInstanceId "node-a") (MkSessionId 1) leader_standby
    ex_message (MkRevision 3) ex_delivered tr m' _ alone_evolves Hrun)
    as [[_ Hnot]|(m0 & execution & outcome & tr' & _ & _ & Hexec & Hfin)]; [by destruct (Hnot (MkRevision 5))|].
  change (MkState (tm_to ex_message)) with LEADER in Hfin.
  destruct (resulting_state LEADER outcome) as [resulting|e] eqn:Hresult; [|by destruct Hfin].
  destruct Hfin as (m1 & m2 & _ & _ & Hfin & _). by exists m1, m2, execution, outcome, resulting.
Defined.

Definition ex_operations : list completion_op :=
  [Observe (MkRevision 6) ["m1"; "m2"]; Observe (MkRevision 7) ["m2"; "m3"]; Complete "m2"; Complete "m3"].

Definition ex_completion : CompletionState :=
  (completion_complete (completion_complete
    (frontier_observe (frontier_observe CompletionState_new (MkRevision 6) ["m1"; "m2"]) (MkRevision 7) ["m2"; "m3"])
    "m2").2 "m3").2.

Lemma frontier_exact_witness :
  (completion_complete ex_completion "m1").1 = Some (MkRevision 7) ∧
  Complete "m2" ∈ ex_operations ++ [Complete "m1"].
Proof.
  assert (completion_reach ex_operations ex_completion) as Hreach.
  { change ex_operations with ((((([] ++ [Observe (MkRevision 6) ["m1"; "m2"]])
      ++ [Observe (MkRevision 7) ["m2"; "m3"]]) ++ [Complete "m2"]) ++ [Complete "m3"])).
    repeat constructor. }
  assert ((completion_complete ex_completion "m1").1 = Some (MkRevision 7)) as Hres by (vm_compute; reflexivity).
  split; [exact Hres|].
  destruct (completion_complete ex_completion "m1") as [released st'] eqn:Hc.
  destruct (frontier_exact ex_operations ex_completion "m1" released st' Hreach Hc) as [Hall _].
  apply (Hall (MkRevision 7) (MkRevision 6) ["m1"; "m2"]); [exact Hres|left|right; left|cbn; lia].
Defined.
