(* ===== verification/Workers.v ===== *)
(** * The workers of a participant

    Models how the loop of [ParticipantRuntime::run_until] ([src/participant.rs])
    and the tasks it spawns share the table of executions in flight and the
    completion frontier.  Each of the two sits behind a mutex of its own, so what
    happens under one lock is one step: the scan of a queue image, the observation
    of its identities, the spawning of one task, and for a task the end of its
    execution, its report to the frontier, the write of its watermark and the
    release of its entry.  Between two steps anybody may run.

    What an execution does to the store is the subject of [Participant]
    ([execute_message]) and what a watermark does of [Queue]
    ([advance_metadata_revision]); here they end with any result. *)

From S2P Require Import Prelude Identity Transitions Session Keys Snapshot.
From S2P Require Import Etcd Queue Participant.

(** ** Tasks *)

Inductive task_phase :=
| Executing
| Reporting
| Advancing (revision : Revision)
| Releasing (outcome : result unit ParticipantRuntimeError)
| Released (outcome : result unit ParticipantRuntimeError)
| Crashed (text : string).

Record Task := MkTask { task_message : TransitionMessage; task_key : string; phase : task_phase }.

Definition with_phase (t : Task) (p : task_phase) : Task := MkTask (task_message t) (task_key t) p.
Definition task_id (t : Task) : string := message_id (task_message t).

(** After [execute_message]: every result but an error is reported. *)
Definition after_execution (r : result CompletionResult ParticipantRuntimeError) : task_phase :=
  match r with Ok _ => Reporting | Err e => Releasing (Err e) end.

(** After [frontier.complete]. *)
Definition after_report (released : option Revision) : task_phase :=
  match released with Some revision => Advancing revision | None => Releasing (Ok tt) end.

(** After [advance_metadata_revision]. *)
Definition after_advance (r : result Revision CoordinationError) : task_phase :=
  match r with Ok _ => Releasing (Ok tt) | Err e => Releasing (Err (ParticipantCoordination e)) end.

(** What [join_next] returns of a task that is over. *)
Definition joined (t : Task) : option (result (result unit ParticipantRuntimeError) string) :=
  match phase t with
  | Released outcome => Some (Ok outcome)
  | Crashed text => Some (Err text)
  | _ => None
  end.

Definition handle_worker_result
    (worker : option (result (result unit ParticipantRuntimeError) string))
  : result unit ParticipantRuntimeError :=
  match worker with
  | Some (Ok (Ok _)) | None => Ok tt
  | Some (Ok (Err error)) => Err error
  | Some (Err error) => Err (WorkerJoin error)
  end.

(** ** The loop *)

(** Why the loop waits for its workers: it was asked to stop, or its lease is gone. *)
Inductive drain_reason := ShutdownDrain | LeaseDrain.

Inductive loop_phase :=
| Waiting
| Observing (revision : Revision) (ids : list string) (pending : list (TransitionMessage * string))
| Spawning (pending : list (TransitionMessage * string))
| Draining (reason : drain_reason)
| Ended (outcome : result unit ParticipantRuntimeError).

(** [ParticipantWorkers], with the variables [messages] and [queue_revision] of the
    loop and the place where the loop stands. *)
Record ParticipantWorkers := MkWorkers {
  w_in_flight : gmap string string;
  w_frontier : CompletionState;
  w_tasks : list Task;
  w_loop : loop_phase;
  w_queue : list TransitionMessage;
  w_revision : Revision
}.

Definition ParticipantWorkers_new (messages : list TransitionMessage) (revision : Revision)
  : ParticipantWorkers := MkWorkers ∅ CompletionState_new [] Waiting messages revision.

Definition with_tasks (w : ParticipantWorkers) (tasks : list Task) : ParticipantWorkers :=
  MkWorkers (w_in_flight w) (w_frontier w) tasks (w_loop w) (w_queue w) (w_revision w).
Definition with_loop (w : ParticipantWorkers) (l : loop_phase) : ParticipantWorkers :=
  MkWorkers (w_in_flight w) (w_frontier w) (w_tasks w) l (w_queue w) (w_revision w).

(** [process_messages], under the lock of the table. *)
Definition scan_queue (instance : InstanceId) (messages : list TransitionMessage) (revision : Revision)
    (w : ParticipantWorkers) : ParticipantWorkers :=
  let r := scan_messages instance (w_in_flight w) messages in
  MkWorkers (in_flight r) (w_frontier w) (w_tasks w) (Observing revision (observed_ids r) (scheduled r))
    messages revision.

(** [process_messages], under the lock of the frontier. *)
Definition observe_scanned (revision : Revision) (ids : list string)
    (pending : list (TransitionMessage * string)) (w : ParticipantWorkers) : ParticipantWorkers :=
  MkWorkers (w_in_flight w) (frontier_observe (w_frontier w) revision ids) (w_tasks w) (Spawning pending)
    (w_queue w) (w_revision w).

Definition spawn (message : TransitionMessage) (key : string) (rest : list (TransitionMessage * string))
    (w : ParticipantWorkers) : ParticipantWorkers :=
  with_loop (with_tasks w (w_tasks w ++ [MkTask message key Executing])) (Spawning rest).

(** A task reports, under the lock of the frontier. *)
Definition report (before : list Task) (t : Task) (after : list Task) (w : ParticipantWorkers)
  : ParticipantWorkers :=
  let '(released, frontier) := completion_complete (w_frontier w) (task_id t) in
  MkWorkers (w_in_flight w) frontier (before ++ with_phase t (after_report released) :: after)
    (w_loop w) (w_queue w) (w_revision w).

(** A task releases its entry, under the lock of the table. *)
Definition release (before : list Task) (t : Task) (outcome : result unit ParticipantRuntimeError)
    (after : list Task) (w : ParticipantWorkers) : ParticipantWorkers :=
  MkWorkers (release_execution (w_in_flight w) (task_key t) (task_id t)) (w_frontier w)
    (before ++ with_phase t (Released outcome) :: after) (w_loop w) (w_queue w) (w_revision w).

(** The loop takes a finished task: an error ends it, and otherwise the latest
    queue image is scanned again. *)
Definition join (instance : InstanceId) (rest : list Task) (t : Task) (w : ParticipantWorkers)
  : ParticipantWorkers :=
  match handle_worker_result (joined t) with
  | Ok _ => scan_queue instance (w_queue w) (w_revision w) (with_tasks w rest)
  | Err e => with_loop (with_tasks w rest) (Ended (Err e))
  end.

(** One round of [drain_workers_with_session] or [drain_workers_without_session]. *)
Definition drain_join (rest : list Task) (t : Task) (w : ParticipantWorkers) : ParticipantWorkers :=
  match handle_worker_result (joined t) with
  | Ok _ => with_tasks w rest
  | Err e => with_loop (with_tasks w rest) (Ended (Err e))
  end.

(** ** Steps *)

Inductive label :=
| Silent
| Image (messages : list TransitionMessage) (revision : Revision)
| Frontier (op : completion_op).

Inductive worker_step (instance : InstanceId) (w : ParticipantWorkers)
  : label → ParticipantWorkers → Prop :=
| step_image messages revision :
    w_loop w = Waiting →
    worker_step instance w (Image messages revision) (scan_queue instance messages revision w)
| step_observe revision ids pending :
    w_loop w = Observing revision ids pending →
    worker_step instance w (Frontier (Observe revision ids)) (observe_scanned revision ids pending w)
| step_spawn message key rest :
    w_loop w = Spawning ((message, key) :: rest) →
    worker_step instance w Silent (spawn message key rest w)
| step_spawned :
    w_loop w = Spawning [] → worker_step instance w Silent (with_loop w Waiting)
| step_fails e :
    (∀ outcome, w_loop w ≠ Ended outcome) →
    worker_step instance w Silent (with_loop w (Ended (Err e)))
| step_drain reason :
    w_loop w = Waiting → worker_step instance w Silent (with_loop w (Draining reason))
| step_stopped :
    w_loop w = Draining ShutdownDrain → w_tasks w = [] →
    worker_step instance w Silent (with_loop w (Ended (Ok tt)))
| step_reconnected messages revision :
    w_loop w = Draining LeaseDrain → w_tasks w = [] →
    worker_step instance w (Image messages revision) (scan_queue instance messages revision w)
| step_join before t after :
    w_loop w = Waiting → w_tasks w = before ++ t :: after → is_Some (joined t) →
    worker_step instance w Silent (join instance (before ++ after) t w)
| step_drain_join before t after reason :
    w_loop w = Draining reason → w_tasks w = before ++ t :: after → is_Some (joined t) →
    worker_step instance w Silent (drain_join (before ++ after) t w)
| step_executed before t after r :
    w_tasks w = before ++ t :: after → phase t = Executing →
    worker_step instance w Silent (with_tasks w (before ++ with_phase t (after_execution r) :: after))
| step_report before t after :
    w_tasks w = before ++ t :: after → phase t = Reporting →
    worker_step instance w (Frontier (Complete (task_id t))) (report before t after w)
| step_advanced before t after revision r :
    w_tasks w = before ++ t :: after → phase t = Advancing revision →
    worker_step instance w Silent (with_tasks w (before ++ with_phase t (after_advance r) :: after))
| step_release before t after outcome :
    w_tasks w = before ++ t :: after → phase t = Releasing outcome →
    worker_step instance w Silent (release before t outcome after w)
| step_crash before t after text :
    w_tasks w = before ++ t :: after → joined t = None →
    worker_step instance w Silent (with_tasks w (before ++ with_phase t (Crashed text) :: after)).

(** What is reached, with what the frontier was told on the way. *)
Inductive workers_reach (instance : InstanceId) : list completion_op → ParticipantWorkers → Prop :=
| reach_start messages revision :
    workers_reach instance [] (ParticipantWorkers_new messages revision)
| reach_step ops w l w' :
    workers_reach instance ops w → worker_step instance w l w' →
    workers_reach instance (ops ++ match l with Frontier op => [op] | _ => [] end) w'.

(** * Facts *)

(** ** The table of executions *)

(** The table holds exactly these entries, one per key. *)
Definition table (flying : gmap string string) (entries : list (string * string)) : Prop :=
  NoDup entries.*1 ∧ ∀ key id, flying !! key = Some id ↔ (key, id) ∈ entries.

#[export] Instance table_proper : Proper ((=) ==> (≡ₚ) ==> iff) table.
Proof.
  intros f ? <- l1 l2 Hl. unfold table. rewrite (fmap_Permutation _ _ _ Hl). by setoid_rewrite Hl.
Qed.

Lemma table_release flying key id entries :
  table flying ((key, id) :: entries) → table (release_execution flying key id) entries.
Proof.
  intros [[Hnew Hnd]%NoDup_cons Hall]. unfold release_execution.
  rewrite bool_decide_eq_true_2 by (apply Hall; left). split; [done|]. intros k x.
  rewrite lookup_delete_Some, Hall, elem_of_cons. split.
  - intros [Hne [Heq|Hin]]; [by injection Heq as -> _|done].
  - intros Hin. split; [|by right]. intros ->. apply Hnew. apply list_elem_of_fmap. by exists (k, x).
Qed.

Abbreviation pending_entry := (λ p : TransitionMessage * string, (p.2, message_id p.1)).

Lemma table_scan instance flying messages entries :
  let r := scan_messages instance flying messages in
  table flying entries → table (in_flight r) (entries ++ (pending_entry <$> scheduled r)).
Proof.
  intros r [Hnd Hall]. destruct (scan_messages_scanned instance flying messages) as [Hk Hs Hu _ Hn _].
  fold r in Hk, Hs, Hu, Hn. split.
  - rewrite fmap_app, <-list_fmap_compose. apply NoDup_app. split_and!; [done| |exact Hu].
    intros key ([k id] & -> & Hin)%list_elem_of_fmap ([m k'] & Heq & Hp)%list_elem_of_fmap. cbn in Heq. subst k'.
    destruct (Hs m k Hp) as (_ & _ & _ & Hnone & _). apply Hall in Hin. cbn in Hnone. congruence.
  - intros key id. rewrite elem_of_app, <-Hall. split.
    + intros [Hf|(m & Hp & <-)]%Hn; [by left|right]. apply list_elem_of_fmap. by exists (m, key).
    + intros [Hf|([m k] & Heq & Hp)%list_elem_of_fmap]; [by eapply lookup_weaken|].
      cbn in Heq. injection Heq as -> ->. by destruct (Hs m k Hp) as (_ & _ & _ & _ & Hx).
Qed.

(** ** Who holds an entry *)

Definition holds_entry (t : Task) : bool := match phase t with Released _ => false | _ => true end.
Definition task_entry (t : Task) : string * string := (task_key t, task_id t).
Definition task_entries (tasks : list Task) : list (string * string) :=
  task_entry <$> List.filter holds_entry tasks.
Arguments task_entries : simpl never.
Definition pending_of (l : loop_phase) : list (TransitionMessage * string) :=
  match l with Observing _ _ pending => pending | Spawning pending => pending | _ => [] end.
Definition holders (w : ParticipantWorkers) : list (string * string) :=
  task_entries (w_tasks w) ++ (pending_entry <$> pending_of (w_loop w)).

(** The table is what the tasks and the loop hold; a loop that has failed leaves
    entries behind. *)
Definition workers_inv (w : ParticipantWorkers) : Prop :=
  ∃ lost, table (w_in_flight w) (holders w ++ lost) ∧
    ((∀ outcome, w_loop w ≠ Ended outcome) → lost = []).

Lemma task_entries_app l1 l2 : task_entries (l1 ++ l2) = task_entries l1 ++ task_entries l2.
Proof. unfold task_entries. by rewrite List.filter_app, fmap_app. Qed.

(** A task that goes on holding its entry changes nothing. *)
Lemma entries_phase before t after p :
  holds_entry t = true → holds_entry (with_phase t p) = true →
  task_entries (before ++ with_phase t p :: after) = task_entries (before ++ t :: after).
Proof.
  intros H1 H2. rewrite !task_entries_app. unfold task_entries at 2 4. cbn [List.filter]. by rewrite H1, H2.
Qed.

Lemma entries_free before t after :
  holds_entry t = false → task_entries (before ++ t :: after) = task_entries (before ++ after).
Proof. intros H1. rewrite !task_entries_app. unfold task_entries at 2. cbn [List.filter]. by rewrite H1. Qed.

Lemma entries_held before t after :
  holds_entry t = true →
  task_entries (before ++ t :: after) ≡ₚ task_entry t :: task_entries (before ++ after).
Proof.
  intros H1. rewrite !task_entries_app. unfold task_entries at 2. cbn [List.filter]. rewrite H1.
  cbn. by rewrite Permutation_middle.
Qed.

Lemma inv_scan instance messages revision w :
  workers_inv w → pending_of (w_loop w) = [] → (∀ outcome, w_loop w ≠ Ended outcome) →
  workers_inv (scan_queue instance messages revision w).
Proof.
  intros (lost & Ht & Hlost) Hnone Hrun. rewrite (Hlost Hrun), app_nil_r in Ht. unfold holders in Ht.
  rewrite Hnone, app_nil_r in Ht. exists []. split; [|done]. rewrite app_nil_r. by apply table_scan.
Qed.

(** The loop moves on, and nobody's entry changes. *)
Lemma inv_loop w l :
  workers_inv w → pending_of (w_loop w) = pending_of l → (∀ outcome, w_loop w ≠ Ended outcome) →
  workers_inv (with_loop w l).
Proof.
  intros (lost & Ht & Hlost) Hp Hrun. rewrite (Hlost Hrun) in Ht. exists []. split; [|done].
  unfold holders in *. cbn. by rewrite <-Hp.
Qed.

Lemma inv_tasks w tasks :
  workers_inv w → task_entries tasks ≡ₚ task_entries (w_tasks w) → workers_inv (with_tasks w tasks).
Proof.
  intros (lost & Ht & Hlost) He. exists lost. split; [|done]. unfold holders in *. cbn. by rewrite He.
Qed.

(** The loop fails, and the table keeps what was in it. *)
Lemma inv_fails w tasks e dropped :
  workers_inv w → task_entries (w_tasks w) ≡ₚ task_entries tasks ++ dropped →
  workers_inv (with_loop (with_tasks w tasks) (Ended (Err e))).
Proof.
  intros (lost & Ht & _) He. exists (dropped ++ (pending_entry <$> pending_of (w_loop w)) ++ lost).
  split; [|intros Hnot; by destruct (Hnot (Err e))]. unfold holders in *. cbn. rewrite app_nil_r.
  rewrite He in Ht. by rewrite <-!app_assoc in Ht.
Qed.

Lemma inv_join w before t after :
  workers_inv w → (∀ outcome, w_loop w ≠ Ended outcome) → w_tasks w = before ++ t :: after → is_Some (joined t) →
  match handle_worker_result (joined t) with
  | Ok _ => workers_inv (with_tasks w (before ++ after))
  | Err e => workers_inv (with_loop (with_tasks w (before ++ after)) (Ended (Err e)))
  end.
Proof.
  intros Hinv Hrun Htasks Hj. unfold joined in *. destruct (phase t) as [| | | |outcome|text] eqn:Hp;
    try by destruct Hj as [? [=]].
  - assert (holds_entry t = false) as Hfree by (unfold holds_entry; by rewrite Hp).
    assert (task_entries (before ++ after) = task_entries (w_tasks w)) as He
      by (by rewrite Htasks, entries_free).
    destruct outcome as [[]|e]; cbn.
    + apply inv_tasks; [done|by rewrite He].
    + apply (inv_fails _ _ _ []); [done|by rewrite app_nil_r, He].
  - apply (inv_fails _ _ _ [task_entry t]); [done|]. rewrite Htasks, entries_held by (unfold holds_entry; by rewrite Hp).
    by rewrite Permutation_cons_append.
Qed.

Lemma workers_inv_step instance w l w' : worker_step instance w l w' → workers_inv w → workers_inv w'.
Proof.
  intros Hstep Hinv.
  destruct Hstep as [messages revision Hl|revision ids pending Hl|message key rest Hl|Hl|e Hl|reason Hl|Hl Ht
    |messages revision Hl Ht|before t after Hl Ht Hj|before t after reason Hl Ht Hj|before t after r Ht Hp
    |before t after Ht Hp|before t after revision r Ht Hp|before t after outcome Ht Hp|before t after text Ht Hj].
  - apply inv_scan; [done|by rewrite Hl|by rewrite Hl].
  - destruct Hinv as (lost & Ht & Hlost). exists lost. unfold holders in *. rewrite Hl in Ht, Hlost. split; [done|].
    intros _. by apply Hlost.
  - destruct Hinv as (lost & Ht & Hlost). exists lost. unfold holders in *. rewrite Hl in Ht, Hlost. split.
    + cbn [spawn with_loop with_tasks w_tasks w_loop w_in_flight pending_of]. rewrite task_entries_app.
      cbn [pending_of] in Ht. rewrite fmap_cons in Ht. rewrite <-(app_assoc (task_entries (w_tasks w))). exact Ht.
    + intros _. by apply Hlost.
  - apply inv_loop; [done|by rewrite Hl|by rewrite Hl].
  - replace w with (with_tasks w (w_tasks w)) at 1 by by destruct w.
    apply (inv_fails _ _ _ []); [done|by rewrite app_nil_r].
  - apply inv_loop; [done|by rewrite Hl|by rewrite Hl].
  - apply inv_loop; [done|by rewrite Hl|by rewrite Hl].
  - apply inv_scan; [done|by rewrite Hl|by rewrite Hl].
  - assert (∀ outcome, w_loop w ≠ Ended outcome) as Hrun by by rewrite Hl.
    pose proof (inv_join w before t after Hinv Hrun Ht Hj) as Hjoin. unfold join.
    destruct (handle_worker_result (joined t)); [|done]. apply inv_scan; [done|cbn; by rewrite Hl|done].
  - assert (∀ outcome, w_loop w ≠ Ended outcome) as Hrun by by rewrite Hl.
    pose proof (inv_join w before t after Hinv Hrun Ht Hj) as Hjoin. unfold drain_join.
    by destruct (handle_worker_result (joined t)).
  - apply inv_tasks; [done|]. rewrite Ht, entries_phase; [done|unfold holds_entry; by rewrite Hp|by destruct r].
  - destruct Hinv as (lost & Htab & Hlost). unfold report. destruct (completion_complete _ _) as [released frontier].
    exists lost. unfold holders in *. cbn. rewrite entries_phase, <-Ht; [done|unfold holds_entry; by rewrite Hp|].
    by destruct released.
  - apply inv_tasks; [done|]. rewrite Ht, entries_phase; [done|unfold holds_entry; by rewrite Hp|by destruct r].
  - destruct Hinv as (lost & Htab & Hlost). exists lost. split; [|done]. unfold holders in *. cbn.
    rewrite Ht, entries_held in Htab by (unfold holds_entry; by rewrite Hp). rewrite entries_free by done.
    by apply table_release.
  - apply inv_tasks; [done|]. rewrite Ht, entries_phase; [done| |done].
    unfold holds_entry. unfold joined in Hj. by destruct (phase t).
Qed.

Lemma workers_reach_inv instance ops w : workers_reach instance ops w → workers_inv w.
Proof.
  induction 1 as [messages revision|ops w l w' _ IH Hstep]; [|by eapply workers_inv_step].
  exists []. split; [|done]. split; [constructor|]. intros key id. cbn. rewrite lookup_empty.
  split; [done|by intros ?%elem_of_nil].
Qed.

(** The frontier has been told what the steps say. *)
Lemma workers_reach_frontier instance ops w :
  workers_reach instance ops w → completion_reach ops (w_frontier w).
Proof.
  induction 1 as [messages revision|ops w l w' _ IH Hstep]; [constructor|].
  destruct Hstep; cbn; rewrite ?app_nil_r; try done.
  - by constructor.
  - unfold join. by destruct (handle_worker_result _).
  - unfold drain_join. by destruct (handle_worker_result _).
  - unfold report. pose proof (reach_complete ops (w_frontier w) (task_id t) IH) as Hr.
    by destruct (completion_complete _ _).
Qed.

(** ** Who works on what *)

Definition job (t : Task) : TransitionMessage * string := (task_message t, task_key t).

(** Every task and everything about to be spawned is a message of the instance
    under the key of its partition. *)
Definition keyed (instance : InstanceId) (w : ParticipantWorkers) : Prop :=
  ∀ m key, (m, key) ∈ (job <$> w_tasks w) ++ pending_of (w_loop w) → own instance m ∧ key = execution_key m.

Lemma keyed_sub instance w w' :
  (∀ p, p ∈ (job <$> w_tasks w') ++ pending_of (w_loop w') → p ∈ (job <$> w_tasks w) ++ pending_of (w_loop w)) →
  keyed instance w → keyed instance w'.
Proof. intros Hsub Hk m key Hin. by apply Hk, Hsub. Qed.

Lemma keyed_scan instance messages revision w :
  keyed instance w → keyed instance (scan_queue instance messages revision w).
Proof.
  intros Hk m key [Hin|Hin]%elem_of_app; [apply Hk, elem_of_app; by left|]. cbn in Hin.
  by destruct (scan_scheduled _ _ _ _ (scan_messages_scanned instance (w_in_flight w) messages) m key Hin)
    as (_ & ? & ? & _).
Qed.

Lemma keyed_phase instance w before t after p :
  w_tasks w = before ++ t :: after → keyed instance w →
  keyed instance (with_tasks w (before ++ with_phase t p :: after)).
Proof. intros Ht. apply keyed_sub. intros q. cbn. by rewrite Ht, !fmap_app, !fmap_cons. Qed.

Lemma keyed_join instance w before t after :
  w_tasks w = before ++ t :: after → keyed instance w → keyed instance (with_tasks w (before ++ after)).
Proof.
  intros Ht. apply keyed_sub. intros q. cbn. rewrite Ht, !fmap_app, fmap_cons, !elem_of_app, elem_of_cons. tauto.
Qed.

Lemma keyed_loop instance w l : pending_of l = [] → keyed instance w → keyed instance (with_loop w l).
Proof.
  intros Hl. apply keyed_sub. intros q. cbn. rewrite Hl, app_nil_r, elem_of_app. by left.
Qed.

Lemma workers_reach_keyed instance ops w : workers_reach instance ops w → keyed instance w.
Proof.
  induction 1 as [messages revision|ops w l w' _ IH Hstep]; [intros m key Hin; by apply elem_of_nil in Hin|].
  destruct Hstep as [messages revision Hl|revision ids pending Hl|message key rest Hl|Hl|e Hl|reason Hl|Hl Ht
    |messages revision Hl Ht|before t after Hl Ht Hj|before t after reason Hl Ht Hj|before t after r Ht Hp
    |before t after Ht Hp|before t after revision r Ht Hp|before t after outcome Ht Hp|before t after text Ht Hj];
    try (by apply keyed_scan); try (by apply keyed_loop); try (by eapply keyed_phase).
  - revert IH. apply keyed_sub. intros q. cbn. by rewrite Hl.
  - revert IH. apply keyed_sub. intros q. cbn. by rewrite Hl, fmap_app, <-app_assoc.
  - unfold join. destruct (handle_worker_result _); [apply keyed_scan|apply keyed_loop; [done|]]; by eapply keyed_join.
  - unfold drain_join. destruct (handle_worker_result _); [|apply keyed_loop; [done|]]; by eapply keyed_join.
  - unfold report. destruct (completion_complete _ _) as [released frontier].
    exact (keyed_phase instance w before t after (after_report released) Ht IH).
Qed.

(** ** A stalled frontier *)

(** The task has told the frontier, or never will. *)
Definition past_report (t : Task) : Prop :=
  match phase t with Executing | Reporting => False | _ => True end.

(** A message is observed at a revision and nobody is left to complete it. *)
Record stalled (revision : Revision) (id : string) (w : ParticipantWorkers) : Prop := {
  st_pending : ∃ ids, revisions (w_frontier w) !! revision = Some ids ∧ id ∈ ids;
  st_undone : id ∉ completed (w_frontier w);
  st_tasks : ∀ t, t ∈ w_tasks w → task_id t = id → past_report t;
  st_loop : ∀ m key, (m, key) ∈ pending_of (w_loop w) → message_id m ≠ id;
  st_queue : ∀ m, m ∈ w_queue w → message_id m ≠ id;
  st_below : ∀ t r, t ∈ w_tasks w → phase t = Advancing r → (revision_value r < revision_value revision)%Z
}.

(** Steps in which no queue image brings the message back. *)
Definition step_without (instance : InstanceId) (id : string) (w w' : ParticipantWorkers) : Prop :=
  ∃ l, worker_step instance w l w' ∧
    match l with Image messages _ => ∀ m, m ∈ messages → message_id m ≠ id | _ => True end.

Lemma stalled_scan instance revision id messages r w :
  (∀ m, m ∈ messages → message_id m ≠ id) → stalled revision id w →
  stalled revision id (scan_queue instance messages r w).
Proof.
  intros Hm [H1 H2 H3 H4 H5 H6]. split; cbn; try done. intros m key Hin.
  apply (scan_scheduled _ _ _ _ (scan_messages_scanned instance (w_in_flight w) messages)) in Hin as [Hin _].
  by apply Hm.
Qed.

Lemma stalled_loop revision id w l : pending_of l = [] → stalled revision id w → stalled revision id (with_loop w l).
Proof. intros Hl [H1 H2 H3 H4 H5 H6]. split; cbn; try done. intros m key. by rewrite Hl, elem_of_nil. Qed.

Lemma stalled_sub revision id w tasks :
  (∀ t, t ∈ tasks → t ∈ w_tasks w) → stalled revision id w → stalled revision id (with_tasks w tasks).
Proof. intros Hsub [H1 H2 H3 H4 H5 H6]. split; cbn; eauto. Qed.

(** A task moves on: to a phase that keeps out of the way. *)
Lemma stalled_phase revision id w before t after p :
  w_tasks w = before ++ t :: after →
  (task_id t = id → past_report (with_phase t p)) →
  (∀ r, p = Advancing r → (revision_value r < revision_value revision)%Z) →
  stalled revision id w → stalled revision id (with_tasks w (before ++ with_phase t p :: after)).
Proof.
  intros Ht Hpast Hbelow [H1 H2 H3 H4 H5 H6].
  assert (∀ x, x ∈ before ++ with_phase t p :: after → x ∈ w_tasks w ∨ x = with_phase t p) as Hcases.
  { intros x. rewrite Ht, !elem_of_app, !elem_of_cons. tauto. }
  split; cbn; try done.
  - intros x [Hx| ->]%Hcases; [by apply H3|done].
  - intros x r [Hx| ->]%Hcases; [by apply H6|apply Hbelow].
Qed.

Lemma stalled_observe revision id w r ids pending :
  w_loop w = Observing r ids pending → stalled revision id w →
  stalled revision id (observe_scanned r ids pending w).
Proof.
  intros Hl [(set & Hset & Hin) H2 H3 H4 H5 H6].
  assert (∀ m key, (m, key) ∈ pending → message_id m ≠ id) as Hp by (rewrite Hl in H4; exact H4).
  split; cbn; try done; destruct ids as [|x ids]; cbn; try done; [by exists set|].
  destruct (decide (revision = r)) as [->|Hne]; [|rewrite lookup_insert_ne by done; by exists set].
  rewrite lookup_insert_eq, Hset. eexists. split; [done|]. cbn. apply elem_of_union. by left.
Qed.

Lemma stalled_report revision id w before t after :
  w_tasks w = before ++ t :: after → phase t = Reporting → stalled revision id w →
  stalled revision id (report before t after w).
Proof.
  intros Ht Hphase Hst. assert (task_id t ≠ id) as Hne.
  { intros Heq. assert (past_report t) as Hpast by
      (eapply st_tasks; [done|rewrite Ht; apply elem_of_app; right; left|done]).
    unfold past_report in Hpast. by rewrite Hphase in Hpast. }
  unfold report. destruct (completion_complete _ _) as [released frontier] eqn:Hc. apply complete_popped in Hc.
  destruct Hst as [(ids & Hids & Hin) Hundone H3 H4 H5 H6]. destruct Hc as [Hsub Hdone _ Hcomplete Hfront _].
  assert (id ∉ {[task_id t]} ∪ completed (w_frontier w)) as Hnot.
  { intros [Heq%elem_of_singleton|Hx]%elem_of_union; [by apply Hne|done]. }
  assert (revisions frontier !! revision = Some ids) as Hkept.
  { destruct (revisions frontier !! revision) as [ids'|] eqn:Hr.
    - rewrite <-Hids. symmetry. exact (lookup_weaken _ _ _ _ Hr Hsub).
    - destruct Hnot. exact (Hcomplete revision ids Hids Hr id Hin). }
  assert (∀ x, x ∈ before ++ with_phase t (after_report released) :: after →
    x ∈ w_tasks w ∨ x = with_phase t (after_report released)) as Hcases.
  { intros x. rewrite Ht, !elem_of_app, !elem_of_cons. tauto. }
  split; cbn; try done.
  - by exists ids.
  - intros Hx. by apply Hnot, Hdone.
  - intros x [Hx| ->]%Hcases; [by apply H3|done].
  - intros x r [Hx| ->]%Hcases; [by apply H6|]. cbn. destruct released as [r'|]; [|done]. cbn. intros [= ->].
    destruct (Hfront r eq_refl) as [|Hlt]; [done|]. apply Hlt. by exists ids.
Qed.

Lemma stalled_join revision id w before t after :
  w_tasks w = before ++ t :: after → stalled revision id w → stalled revision id (with_tasks w (before ++ after)).
Proof.
  intros Ht. apply stalled_sub. intros x. rewrite Ht, !elem_of_app, elem_of_cons. tauto.
Qed.

Lemma stalled_step instance revision id w w' :
  step_without instance id w w' → stalled revision id w → stalled revision id w'.
Proof.
  intros (l & Hstep & Himage) Hst. pose proof (st_queue _ _ _ Hst) as Hqueue.
  destruct Hstep as [messages r Hl|r ids pending Hl|message key rest Hl|Hl|e Hl|reason Hl|Hl Ht
    |messages r Hl Ht|before t after Hl Ht Hj|before t after reason Hl Ht Hj|before t after x Ht Hp
    |before t after Ht Hp|before t after r x Ht Hp|before t after outcome Ht Hp|before t after text Ht Hj];
    try (by apply stalled_scan); try (by apply stalled_loop).
  - by apply stalled_observe.
  - destruct Hst as [H1 H2 H3 H4 H5 H6]. rewrite Hl in H4. cbn in H4.
    assert (message_id message ≠ id) as Hne by (apply (H4 message key); left).
    split; cbn; try done.
    + intros t [Ht| ->%list_elem_of_singleton]%elem_of_app; [by apply H3|done].
    + intros m k Hin. apply (H4 m k). by right.
    + intros t r [Ht| ->%list_elem_of_singleton]%elem_of_app; [by apply H6|done].
  - unfold join. destruct (handle_worker_result _); [apply stalled_scan; [done|]|apply stalled_loop; [done|]];
      by eapply stalled_join.
  - unfold drain_join. destruct (handle_worker_result _); [|apply stalled_loop; [done|]]; by eapply stalled_join.
  - apply stalled_phase; [done| |by destruct x|done]. intros Heq. exfalso.
    assert (past_report t) as Hpast by (eapply st_tasks; [done|rewrite Ht; apply elem_of_app; right; left|done]).
    unfold past_report in Hpast. by rewrite Hp in Hpast.
  - by apply stalled_report.
  - apply stalled_phase; [done|by destruct x|by destruct x|done].
  - destruct (stalled_phase revision id w before t after (Released outcome)) as [H1 H2 H3 H4 H5 H6]; try done.
  - by apply stalled_phase.
Qed.

(** * Theorems *)

(** C7: at most one transition of a partition is in progress at an instance:
    whatever queue images arrive and in whatever order the loop and its tasks take
    their locks, two tasks that have not released their entries work on different
    partitions; and when the loop waits with no task left, as after the drain that
    follows a lost lease, the table of executions is empty, so no partition is
    blocked for the next session. *)
Theorem exclusive_execution instance ops w :
  workers_reach instance ops w →
  (∀ before t1 between t2 after,
     w_tasks w = before ++ t1 :: between ++ t2 :: after →
     holds_entry t1 = true → holds_entry t2 = true →
     execution_key (task_message t1) ≠ execution_key (task_message t2)) ∧
  (w_tasks w = [] → pending_of (w_loop w) = [] → (∀ outcome, w_loop w ≠ Ended outcome) → w_in_flight w = ∅).
Proof.
  intros Hreach. pose proof (workers_reach_keyed _ _ _ Hreach) as Hkeyed.
  apply workers_reach_inv in Hreach as (lost & [Hnd Hall] & Hlost). unfold holders in *. split.
  - intros before t1 between t2 after Ht H1 H2.
    assert (∀ t, t ∈ w_tasks w → task_key t = execution_key (task_message t)) as Hkey.
    { intros t Hin. apply Hkeyed, elem_of_app. left. by apply (list_elem_of_fmap_2 job). }
    rewrite <-!Hkey by (rewrite Ht; set_unfold; tauto).
    rewrite Ht, entries_held, app_assoc, entries_held in Hnd by done. cbn in Hnd.
    apply NoDup_cons in Hnd as [Hnew _]. intros Heq. apply Hnew. rewrite Heq. left.
  - intros Ht Hp Hrun. rewrite (Hlost Hrun) in Hall. rewrite Ht, Hp in Hall. apply map_empty. intros key.
    destruct (w_in_flight w !! key) as [id|] eqn:Hk; [|done]. apply Hall in Hk. by apply elem_of_nil in Hk.
Qed.

(** C36: an identity can be observed after its completion, and the frontier then
    stalls for good: once a revision waits for a message that no task is going to
    complete and that no queue image brings back, no watermark at or past that
    revision is ever written again, whatever else the participant completes.  The
    instance is a reachable one: the scan of an image that still lists the message
    finds its entry in the table, the task reports the completion, and only then
    is the image observed. *)
Theorem late_observation_stalls instance revision id w w' t r :
  stalled revision id w → rtc (step_without instance id) w w' →
  t ∈ w_tasks w' → phase t = Advancing r → (revision_value r < revision_value revision)%Z.
Proof.
  intros Hst Hsteps. assert (stalled revision id w') as Hst'.
  { induction Hsteps as [|w w1 w' Hstep _ IH]; [done|]. apply IH. by eapply stalled_step. }
  by apply (st_below _ _ _ Hst').
Qed.

(** ** A run that stalls *)

Definition ex_instance : InstanceId := MkInstanceId "node-a".
Definition ex_job : TransitionMessage * string := (ex_message, "documents/p0").
Definition ex_task (p : task_phase) : Task := MkTask ex_message "documents/p0" p.

(** The message is delivered and executed, *)
Definition ex_w1 : ParticipantWorkers :=
  with_loop (spawn ex_message "documents/p0" []
    (observe_scanned (MkRevision 6) ["m10:7:0"] [ex_job]
      (scan_queue ex_instance [ex_message] (MkRevision 6)
        (ParticipantWorkers_new [ex_message] (MkRevision 6))))) Waiting.
Definition ex_w2 : ParticipantWorkers :=
  with_tasks ex_w1 ([] ++ with_phase (ex_task Executing) (after_execution (Ok (Applied (MkRevision 8)))) :: []).
(** an image that still lists it is scanned before the task reports and observed after, *)
Definition ex_w3 : ParticipantWorkers :=
  report [] (ex_task Reporting) [] (scan_queue ex_instance [ex_message; ex_second] (MkRevision 7) ex_w2).
Definition ex_w4 : ParticipantWorkers :=
  with_loop (observe_scanned (MkRevision 7) ["m10:7:0"] [] ex_w3) Waiting.
(** the next image no longer lists it, *)
Definition ex_w5 : ParticipantWorkers :=
  with_loop (observe_scanned (MkRevision 8) [] []
    (scan_queue ex_instance [ex_second] (MkRevision 8) ex_w4)) Waiting.
(** and the task ends. *)
Definition ex_w6 : ParticipantWorkers :=
  with_tasks ex_w5 ([] ++ with_phase (ex_task (Advancing (MkRevision 6))) (after_advance (Ok (MkRevision 6))) :: []).
Definition ex_w7 : ParticipantWorkers := release [] (ex_task (Releasing (Ok tt))) (Ok tt) [] ex_w6.

Ltac take rule := eapply reach_step; [|eapply rule; vm_compute; reflexivity].

Lemma ex_w7_reached : ∃ ops, workers_reach ex_instance ops ex_w7.
Proof.
  eexists. unfold ex_w7. take (step_release ex_instance ex_w6 [] (ex_task (Releasing (Ok tt))) []).
  unfold ex_w6. take (step_advanced ex_instance ex_w5 [] (ex_task (Advancing (MkRevision 6))) [] (MkRevision 6)).
  unfold ex_w5. take step_spawned. take step_observe. take step_image.
  unfold ex_w4. take step_spawned. take step_observe.
  unfold ex_w3. take (step_report ex_instance (scan_queue ex_instance [ex_message; ex_second] (MkRevision 7) ex_w2)
    [] (ex_task Reporting) []). take step_image.
  unfold ex_w2. take (step_executed ex_instance ex_w1 [] (ex_task Executing) []).
  unfold ex_w1. take step_spawned. take step_spawn. take step_observe. take step_image. constructor.
Qed.

Lemma ex_w7_stalled : stalled (MkRevision 7) "m10:7:0" ex_w7.
Proof.
  assert (w_tasks ex_w7 = [ex_task (Released (Ok tt))]) as Ht by (vm_compute; reflexivity).
  split.
  - exists {["m10:7:0"]}. split; [vm_compute; reflexivity|set_solver].
  - apply (bool_decide_unpack _). vm_compute. constructor.
  - rewrite Ht. by intros t ->%list_elem_of_singleton.
  - intros m key Hin. by apply elem_of_nil in Hin.
  - by intros m ->%list_elem_of_singleton.
  - rewrite Ht. by intros t r ->%list_elem_of_singleton.
Qed.

Lemma late_observation_stalls_witness :
  (∃ ops, workers_reach ex_instance ops ex_w7) ∧
  ∀ w' t r, rtc (step_without ex_instance "m10:7:0") ex_w7 w' →
    t ∈ w_tasks w' → phase t = Advancing r → (revision_value r < 7)%Z.
Proof.
  split; [exact ex_w7_reached|]. intros w' t r.
  exact (late_observation_stalls ex_instance (MkRevision 7) "m10:7:0" ex_w7 w' t r ex_w7_stalled).
Defined.

(** Two partitions, at work at the same time. *)
Definition ex_other : TransitionMessage :=
  MkTransitionMessage "m10:7:2" "documents" "p1" "node-a" 1 "OFFLINE" "STANDBY" "STATE_TRANSITION".
Definition ex_parallel : ParticipantWorkers :=
  spawn ex_other "documents/p1" [] (spawn ex_message "documents/p0" [(ex_other, "documents/p1")]
    (observe_scanned (MkRevision 6) ["m10:7:0"; "m10:7:2"] [ex_job; (ex_other, "documents/p1")]
      (scan_queue ex_instance [ex_message; ex_other] (MkRevision 6)
        (ParticipantWorkers_new [ex_message; ex_other] (MkRevision 6))))).

Lemma ex_parallel_reached : ∃ ops, workers_reach ex_instance ops ex_parallel.
Proof.
  eexists. unfold ex_parallel. take step_spawn. take step_spawn. take step_observe. take step_image. constructor.
Qed.

Lemma exclusive_execution_witness :
  w_tasks ex_parallel = [ex_task Executing; MkTask ex_other "documents/p1" Executing] ∧
  execution_key ex_message ≠ execution_key ex_other.
Proof.
  assert (w_tasks ex_parallel = [ex_task Executing; MkTask ex_other "documents/p1" Executing]) as Ht
    by (vm_compute; reflexivity).
  split; [exact Ht|]. destruct ex_parallel_reached as [ops Hreach].
  destruct (exclusive_execution ex_instance ops ex_parallel Hreach) as [Hex _].
  exact (Hex [] (ex_task Executing) [] (MkTask ex_other "documents/p1" Executing) [] Ht eq_refl eq_refl).
Defined.
