(* ===== verification/Lifecycle.v ===== *)
(** * The life of a participant

    Models the session side of [src/participant.rs]: waiting for a free live record
    and registering ([register_session_until]), telling whether the lease still
    holds ([keep_alive_until_available]), the state model of a resource, the view of
    a transition that the application gets and the dispatch to its handlers, and
    [run_until] around its loop, which is a parameter here: [Serving] models the loop, and
    [Workers] what it shares with its tasks.

    The clock is read by [Select]: an elapsed time may have passed the lease or not. *)

From S2P Require Import Prelude Identity StateMaps StateModel Transitions Session Keys Snapshot.
From S2P Require Import Etcd Metadata InputMarker SessionStore SessionRefinement Queue Participant.

(** ** What the application sees *)

Inductive ResourceState :=
| RsOffline
| RsStandby
| RsLeader
| RsDropped
| RsError
| RsOther (state : string).

Definition ResourceState_from_state (state : State) : ResourceState :=
  if String.eqb (state_str state) "OFFLINE" then RsOffline
  else if String.eqb (state_str state) "STANDBY" then RsStandby
  else if String.eqb (state_str state) "LEADER" then RsLeader
  else if String.eqb (state_str state) "DROPPED" then RsDropped
  else if String.eqb (state_str state) "ERROR" then RsError
  else RsOther (state_str state).

Definition ResourceState_as_str (self : ResourceState) : string :=
  match self with
  | RsOffline => "OFFLINE"
  | RsStandby => "STANDBY"
  | RsLeader => "LEADER"
  | RsDropped => "DROPPED"
  | RsError => "ERROR"
  | RsOther state => state
  end.

Record ResourceTransition := MkResourceTransition {
  rt_partition : PartitionId;
  rt_source : ResourceState;
  rt_target : ResourceState;
  attempt_id : string
}.

Definition ResourceTransition_from_execution (execution : TransitionExecution) : ResourceTransition :=
  MkResourceTransition (te_partition execution) (ResourceState_from_state (source_state execution))
    (ResourceState_from_state (te_target execution)) (transition_id execution).

(** [AsyncScopedResourceHandler::transition] on handlers that answer by functions. *)
Definition scoped_transition (handlers : gmap ResourceId (ResourceTransition → bool))
    (execution : TransitionExecution) : result unit HandlerInvocationError :=
  match handlers !! te_resource execution with
  | None => Err Application
  | Some handler =>
      if (handler : ResourceTransition → bool) (ResourceTransition_from_execution execution) then Ok tt else Err Application
  end.

(** ** Registration *)

Definition DEFAULT_LEASE_TTL : Duration := MkDuration 60 0.

(** What ends a pause. *)
Inductive pause := Paused | ShutDown.

Section lifecycle.
Variable backend : EtcdCoordination.
Variable instance : InstanceId.

(** A pause against the shutdown future, which may never come. *)
Definition pause_branches (can_stop : bool) : list pause :=
  if can_stop then [Paused; ShutDown] else [Paused].

Definition register_turn (options : RegistrationOptions) (can_stop : bool)
  : itree coordE (unit + result (option EtcdParticipantSession) ParticipantRuntimeError) :=
  let wait :=
    let* p := select (pause_branches can_stop) in
    match p with Paused => Ret (inl tt) | ShutDown => Ret (inr (Ok None)) end in
  let* live := live_session backend instance in
  match live with
  | Err e => Ret (inr (Err (ParticipantCoordination e)))
  | Ok (Some _) => wait
  | Ok None =>
      let* registered := register backend instance options in
      match registered with
      | Ok session => Ret (inr (Ok (Some session)))
      | Err RegistrationLost => wait
      | Err e => Ret (inr (Err (ParticipantCoordination e)))
      end
  end.

Definition register_session_until (options : RegistrationOptions) (can_stop : bool)
  : participant_prog (option EtcdParticipantSession) :=
  ITree.iter (λ _, register_turn options can_stop) tt.

(** The shutdown future of this one never completes. *)
Definition register_session (options : RegistrationOptions) : participant_prog EtcdParticipantSession :=
  let! session := register_session_until options false in
  match session with Some session => Ret (Ok session) | None => Ret (Err InvalidMessage) end.

Definition reconnect (lease_ttl : Duration) : participant_prog EtcdParticipantSession :=
  try! options := map_err ParticipantCoordination (RegistrationOptions_new lease_ttl) in
  register_session options.

(** ** Keeping the lease *)

Inductive KeepaliveOutcome := Healthy | Expired | KeepaliveShutdown.

(** After a transport error: until the lease has run out, a pause. *)
Definition keep_alive_wait : itree coordE (unit + result KeepaliveOutcome ParticipantRuntimeError) :=
  let* is_zero := select [false; true] in
  if is_zero : bool then Ret (inr (Ok Expired))
  else
    let* p := select (pause_branches true) in
    match p with Paused => Ret (inl tt) | ShutDown => Ret (inr (Ok KeepaliveShutdown)) end.

Definition keep_alive_turn (session : EtcdParticipantSession)
  : itree coordE (unit + result KeepaliveOutcome ParticipantRuntimeError) :=
  let* elapsed := select [false; true] in
  if elapsed : bool then Ret (inr (Ok Expired))
  else
    let* current := eps_is_current session in
    match current with
    | Ok false => Ret (inr (Ok Expired))
    | Err (Etcd _) => keep_alive_wait
    | Err e => Ret (inr (Err (ParticipantCoordination e)))
    | Ok true =>
        let* kept := eps_keep_alive session in
        match kept with
        | Ok _ =>
            let* current := eps_is_current session in
            match current with
            | Ok true => Ret (inr (Ok Healthy))
            | Ok false => Ret (inr (Ok Expired))
            | Err (Etcd _) => keep_alive_wait
            | Err e => Ret (inr (Err (ParticipantCoordination e)))
            end
        | Err (Etcd _) => keep_alive_wait
        | Err LeaseExpired => Ret (inr (Ok Expired))
        | Err e => Ret (inr (Err (ParticipantCoordination e)))
        end
    end.

Definition keep_alive_until_available (session : EtcdParticipantSession)
  : participant_prog KeepaliveOutcome :=
  ITree.iter (λ _, keep_alive_turn session) tt.

(** ** The runtime around its loop *)

(** [state_model_for]; [state_model_name] is serde_json's reading of the record. *)
Definition state_model_for (state_model_name : string → result string string)
    (state_model : option StateModelDefinition) (resource : string)
  : participant_prog StateModelDefinition :=
  match state_model with
  | Some model => Ret (Ok model)
  | None =>
      let! entry := participant_call (get_metadata backend ("controller/resources/" +:+ resource)) in
      match entry with
      | None => Ret (Err InvalidMessage)
      | Some entry =>
          try! name := map_err (λ _, InvalidMessage) (state_model_name (default "" (entry_value entry))) in
          if negb (String.eqb name "LeaderStandby") then Ret (Err InvalidMessage)
          else Ret (Ok leader_standby)
      end
  end.

(** The end of [run_until]: the lease is given back, and the outcome reported. *)
Definition finish_run (session : EtcdParticipantSession) (run_result : result unit ParticipantRuntimeError)
  : participant_prog unit :=
  let* revoked := eps_revoke session in
  match run_result, map_err ParticipantCoordination revoked with
  | Err error, _ | Ok _, Err error =>
      let* _ := emit (FatalRuntimeError (instance_str instance) (display_participant_error error)) in
      Ret (Err error)
  | Ok _, Ok _ => let* _ := emit (GracefulShutdown (instance_str instance)) in Ret (Ok tt)
  end.

(** [body] is the loop: it ends with a result, holding the session it has by then, and
    tells whether the ready callback was called. *)
Definition run_until (lease_ttl : Duration)
    (body : EtcdParticipantSession →
      itree coordE (result unit ParticipantRuntimeError * EtcdParticipantSession * bool))
  : itree coordE (result unit ParticipantRuntimeError * bool) :=
  match RegistrationOptions_new lease_ttl with
  | Err e => Ret (Err (ParticipantCoordination e), false)
  | Ok options =>
      let* session := register_session_until options true in
      match session with
      | Err e => Ret (Err e, false)
      | Ok None => let* _ := emit (GracefulShutdown (instance_str instance)) in Ret (Ok tt, false)
      | Ok (Some session) =>
          let* ended := body session in
          let* result := finish_run ended.1.2 ended.1.1 in
          Ret (result, ended.2)
      end
  end.
End lifecycle.

(** * Facts *)

Section lifecycle_facts.
Context {S : Type} `{EtcdLaws S} (env rely : S → S → Prop) `{!Rely env rely}.

(** ** The live record *)

(** The live record of the instance names the session. *)
Definition current_at (session : EtcdParticipantSession) (ks : keyspace_t) : Prop :=
  ∃ kv, ks !! live_key (eps_backend session) (eps_instance session) = Some kv ∧
        parse_session (kv_value kv) = Ok (eps_session session).

Lemma is_current_outcome session s :
  ensures env (eps_is_current session) s (λ tr s' r, tr = [] ∧ rely s s' ∧
    match r with
    | Ok b => ∃ s1, rely s s1 ∧ rely s1 s' ∧ (b = true ↔ current_at session (keyspace s1))
    | Err _ => True
    end).
Proof.
  apply (ensures_live_session env rely).
  - intros s1 Hs1 Hnone. apply (ensures_ret env rely). intros s' Hs'. split_and!; [done|by etrans|].
    exists s1. split_and!; [done..|]. rewrite bool_decide_eq_true. split; [done|].
    intros (kv & Hkv & _). congruence.
  - intros s1 kv n Hs1 Hkv Hn. apply (ensures_ret env rely). intros s' Hs'. split_and!; [done|by etrans|].
    exists s1. split_and!; [done..|]. rewrite bool_decide_eq_true. split.
    + intros [= ->]. by exists kv.
    + intros (kv' & Hkv' & Hn'). rewrite Hkv in Hkv'. injection Hkv' as <-. congruence.
  - intros e s' Hs' _. by split_and!.
Qed.

Lemma keep_alive_quiet session : commits env (λ _, False) (eps_keep_alive session).
Proof.
  apply commits_try.
  - apply commits_call. intros s a s' Hserve%serve_documented Hh. cbn in Hserve. by destruct Hserve.
  - intros [ttl|]; [destruct (0 <? ttl)%Z|]; apply commits_ret.
Qed.

(** ** Keeping the lease *)

(** What a verdict on the lease rests on. *)
Definition keepalive_verdict (session : EtcdParticipantSession) (s s' : S)
    (r : result KeepaliveOutcome ParticipantRuntimeError) : Prop :=
  match r with
  | Ok Healthy => ∃ s1 s2, rely s s1 ∧ current_at session (keyspace s1) ∧ rely s1 s2 ∧
                           current_at session (keyspace s2) ∧ rely s2 s'
  | Ok _ => True
  | Err e => ∃ error, e = ParticipantCoordination error ∧ ∀ text, error ≠ Etcd text
  end.

Definition turn_verdict (session : EtcdParticipantSession) (s : S) (tr : list (observation S)) (s' : S)
    (lr : unit + result KeepaliveOutcome ParticipantRuntimeError) : Prop :=
  tr = [] ∧ rely s s' ∧ match lr with inl _ => True | inr r => keepalive_verdict session s s' r end.

Lemma wait_verdict session s s0 :
  rely s0 s → ensures env keep_alive_wait s (λ tr s' lr, turn_verdict session s0 tr s' lr).
Proof.
  intros Hs. apply (ensures_select env rely). intros zero s1 _ Hs1. destruct zero.
  { apply (ensures_ret env rely). intros s' Hs'. split_and!; [done| |done]. etrans; [exact Hs|]. by etrans. }
  apply (ensures_select env rely). intros p s2 _ Hs2. destruct p; apply (ensures_ret env rely); intros s' Hs';
    (split_and!; [done| |done]); (etrans; [exact Hs|]); (etrans; [exact Hs1|]); by etrans.
Qed.

Lemma keep_alive_turn_outcome session s :
  ensures env (keep_alive_turn session) s (λ tr s' lr, turn_verdict session s tr s' lr).
Proof.
  assert (∀ x s1, rely s s1 → match x with inl _ => True | inr r => ∀ s', rely s1 s' → keepalive_verdict session s s' r end →
    ensures env (Ret x) s1 (λ tr s' lr, turn_verdict session s tr s' lr)) as Hret.
  { intros x s1 Hs1 Hx. apply (ensures_ret env rely). intros s' Hs'. split_and!; [done|by etrans|].
    destruct x; [done|by apply Hx]. }
  apply (ensures_select env rely). intros elapsed s1 _ Hs1. destruct elapsed; [by apply Hret|].
  apply holds_bind. eapply holds_mono; [apply is_current_outcome|]. intros tr s2 r (-> & Hs2 & Hr). cbn [app].
  assert (rely s s2) as Hs2' by by etrans.
  destruct r as [[|]|e]; [|by apply Hret|].
  2: { destruct e; try (by apply wait_verdict); (apply Hret; [done|]); intros s' _; by eexists. }
  destruct Hr as (s3 & Hs3 & Hs32 & Hc). apply holds_bind.
  eapply holds_mono; [apply (ensures_idle env rely), keep_alive_quiet|]. intros tr s4 r [-> Hs4]. cbn [app].
  assert (rely s s4) as Hs4' by by etrans.
  destruct r as [[]|e].
  2: { destruct e; try (by apply wait_verdict); try (by apply Hret); (apply Hret; [done|]); intros s' _; by eexists. }
  apply holds_bind. eapply holds_mono; [apply is_current_outcome|]. intros tr s5 r (-> & Hs5 & Hr). cbn [app].
  assert (rely s s5) as Hs5' by by etrans.
  destruct r as [[|]|e]; [|by apply Hret|].
  2: { destruct e; try (by apply wait_verdict); (apply Hret; [done|]); intros s' _; by eexists. }
  destruct Hr as (s6 & Hs6 & Hs65 & Hc'). apply Hret; [done|]. intros s' Hs'. exists s3, s6.
  split_and!; [etrans; [exact Hs1|exact Hs3]|by apply Hc| |by apply Hc'|by etrans].
  etrans; [exact Hs32|]. etrans; [exact Hs4|exact Hs6].
Qed.

Lemma keep_alive_outcome session s :
  ensures env (keep_alive_until_available session) s
    (λ tr s' r, tr = [] ∧ keepalive_verdict session s s' r).
Proof.
  apply (holds_iter _ _ _ _ (λ _ acc s1, acc = [] ∧ rely s s1)); [by split|].
  intros [] acc s1 [-> Hs1]. eapply holds_mono; [apply keep_alive_turn_outcome|].
  intros tr s2 [[]|r] (-> & Hs2 & Hr); (split; [done|]); [by etrans|].
  destruct r as [[| |]|e]; [|done..]. destruct Hr as (s3 & s4 & ? & ? & ? & ? & ?).
  exists s3, s4. split_and!; [by etrans|done..].
Qed.

(** ** Registering *)

Section registering.
Context (backend : EtcdCoordination) (i : InstanceId) (options : RegistrationOptions).

(** What a registration commits on its way: a session number is allocated, or the
    lease of an attempt that came too late ends. *)
Definition prepares (o : observation S) : Prop :=
  ∃ s1 s2, o = Committed s1 s2 ∧
    ((∃ n, allocate_step backend n s1 s2) ∨
     ∃ lease, lease_ends (keyspace s1) (head s1) lease (keyspace s2) (head s2)).

(** The instance has no live record and gets one, of a session that the counter
    has handed out, under its lease. *)
Definition enlists (session : EtcdParticipantSession) (s1 s2 : S) : Prop :=
  keyspace s1 !! live_key backend i = None ∧
  (∃ carried, registered backend i (eps_session session) (eps_lease session) carried s1 s2) ∧
  eps_backend session = backend ∧ eps_instance session = i ∧
  registration_revision session = MkRevision (head s2).

Definition numbered (n : SessionId) (tr : list (observation S)) : Prop :=
  ∃ s1 s2, Committed s1 s2 ∈ tr ∧ allocate_step backend n s1 s2.

Definition joined_by (session : EtcdParticipantSession) (tr : list (observation S)) (s' : S) : Prop :=
  ∃ tr0 s1 s2, tr = tr0 ++ [Committed s1 s2] ∧ Forall prepares tr0 ∧ numbered (eps_session session) tr0 ∧
    enlists session s1 s2 ∧ rely s2 s'.

Definition enlist_commit (o : observation S) : Prop :=
  prepares o ∨ ∃ session s1 s2, o = Committed s1 s2 ∧ enlists session s1 s2.

Definition register_post (tr : list (observation S)) (s' : S)
    (r : result EtcdParticipantSession CoordinationError) : Prop :=
  match r with
  | Ok session => joined_by session tr s'
  | Err (Etcd _) => Forall enlist_commit tr
  | Err _ => Forall prepares tr
  end.

Lemma register_failed tr s' e : Forall prepares tr → register_post tr s' (Err e).
Proof. intros Hp. destruct e; try done. eapply Forall_impl; [exact Hp|]. by left. Qed.

Lemma quiet_latest : commits env (λ _, False) (latest_session backend i).
Proof. apply commits_try; [apply quiet_raw_snapshot|intros; apply commits_ret]. Qed.

Lemma carried_keys previous n s :
  ensures env (carried_state backend i previous n options) s (λ tr s' r, tr = [] ∧ rely s s' ∧
    match r with
    | Ok carried => ∀ key state, (key, state) ∈ carried →
        ∃ r p, key = current_state_key backend i n r p ∧ state = options_initial_state options r
    | Err _ => True
    end).
Proof.
  destruct previous as [m|]; cbn [carried_state].
  2: { apply (ensures_ret env rely). intros s' Hs'. split_and!; [done..|]. by intros key state ?%elem_of_nil. }
  apply (ensures_raw_snapshot env rely); [|by intros; split_and!]. intros s1 Hs1. cbn [snd].
  apply (ensures_ret env rely). intros s' Hs'. split_and!; [done|by etrans|].
  destruct (collect_results _ _) as [carried|] eqn:Hc; [|done]. apply collect_results_ok in Hc.
  intros key state (j & Hj)%list_elem_of_lookup.
  destruct (Forall2_lookup_r _ _ _ _ _ Hc Hj) as (kv & _ & Hr). unfold carry_record in Hr.
  destruct (parse_relative_key _ _) as [relative|]; [|done]. cbv zeta in Hr.
  destruct (split_slash relative !! 3) as [r|]; [|done]. destruct (decode_segment r); [|done].
  destruct (map_err _ (ResourceId_new _)) as [resource|]; [|done].
  destruct (split_slash relative !! 4) as [p|]; [|done]. destruct (decode_segment p); [|done].
  destruct (map_err _ (PartitionId_new _)) as [partition|]; [|done]. injection Hr as <- <-. by exists resource, partition.
Qed.

(** The transaction that makes the session live, and what follows its refusal. *)
Lemma enlist_outcome n lease carried tr0 s :
  (∀ key state, (key, state) ∈ carried →
     ∃ r p, key = current_state_key backend i n r p ∧ state = options_initial_state options r) →
  Forall prepares tr0 → numbered n tr0 →
  ensures env (
    let! response := call (Transact [CompareVersion (live_key backend i) 0]
      (registration_operations backend i n lease carried)) in
    if succeeded response then
      try! revision := revision_from_header (txn_header response) in
      Ret (Ok (MkEtcdParticipantSession backend i n lease revision))
    else
      let! _ := call (LeaseRevoke lease) in
      Ret (Err RegistrationLost)) s (λ tr s' r, register_post (tr0 ++ tr) s' r).
Proof.
  intros Hcar Hprep Hnum.
  assert (∀ s1 s2, forallb (compare_holds (keyspace s1)) [CompareVersion (live_key backend i) 0] = true →
    effect_of (keyspace s1) (head s1) (registration_operations backend i n lease carried) (keyspace s2) (head s2) →
    enlists (MkEtcdParticipantSession backend i n lease (MkRevision (head s2))) s1 s2 ∧
    commit s1 s2 = [Committed s1 s2]) as Hstep.
  { intros s1 s2 Hc He. cbn in Hc. apply andb_true_iff in Hc as [Hc%bool_decide_eq_true_1 _].
    pose proof (registration_effect backend i n lease carried s1 s2 (options_initial_state options) Hcar He) as Hreg.
    split; [|apply commit_changed; by destruct Hreg]. split_and!; [by apply version_zero|by exists carried|done..]. }
  assert (∀ s1 s2, lease_ends (keyspace s1) (head s1) lease (keyspace s2) (head s2) →
    Forall prepares (commit s1 s2)) as Hends.
  { intros s1 s2 Hl. unfold commit. case_bool_decide; constructor; [|constructor].
    exists s1, s2. split; [done|]. right. by exists lease. }
  apply (ensures_txn env rely).
  - intros s1 s2 Hs1 Hc He. destruct (Hstep s1 s2 Hc He) as [Hen ->]. cbn [succeeded txn_header].
    rewrite revision_of_head. apply (ensures_ret env rely). intros s' Hs'. exists tr0, s1, s2. by split_and!.
  - intros s1 Hs1 _. cbn [succeeded]. apply (ensures_call_try env rely).
    + intros s2 a s3 Hs2 Hl%serve_documented. apply (ensures_ret env rely). intros s' _.
      rewrite app_nil_r. apply Forall_app. split; [done|by apply Hends].
    + intros text s2 s3 s' Hs2 Hl _. apply register_failed, Forall_app. split; [done|].
      destruct Hl as [->|(a & Hl%serve_documented)]; [rewrite commit_same by done; constructor|by apply Hends].
  - intros text s' _. apply register_failed. by rewrite app_nil_r.
  - intros text s1 s2 s' Hs1 Hc He _. destruct (Hstep s1 s2 Hc He) as [Hen ->]. cbn. apply Forall_app. split.
    + eapply Forall_impl; [exact Hprep|]. by left.
    + constructor; [|constructor]. right. by eexists _, s1, s2.
Qed.

Lemma register_outcome s :
  ensures env (register backend i options) s (λ tr s' r, register_post tr s' r).
Proof.
  assert (∀ e s' tr, Forall prepares tr →
    ensures env (Ret (Err e)) s' (λ tr' s2 r, register_post (tr ++ tr') s2 r)) as Hfail.
  { intros e s' tr Htr. apply (ensures_ret env rely). intros s2 _. rewrite app_nil_r. by apply register_failed. }
  apply holds_bind. eapply holds_mono; [apply (ensures_idle env rely), quiet_latest|].
  intros tr s1 previous [-> Hs1]. cbn [app]. destruct previous as [previous|e]; [|by apply (Hfail e s1 [])].
  apply holds_bind. eapply holds_mono; [apply (allocate_attempts_outcome env rely)|].
  intros tr s2 number Hnum.
  assert (∀ n, once rely (allocate_step backend n) s1 tr → Forall prepares tr ∧ numbered n tr) as Honce.
  { intros n (a & b & _ & -> & Hstep). split; [|exists a, b; split; [left|done]].
    constructor; [|constructor]. exists a, b. split; [done|]. left. by exists n. }
  destruct number as [n|e].
  2: { apply Hfail. destruct e; cbn in Hnum; try (by destruct Hnum); try (by subst tr; constructor).
       - destruct Hnum as [->|[n Hn]]; [constructor|]. by apply (Honce n).
       - destruct Hnum as [-> _]. constructor. }
  destruct (Honce n Hnum) as [Hprep Hn].
  apply holds_bind. eapply holds_mono; [apply carried_keys|]. intros tr' s3 carried (-> & Hs3 & Hcar).
  cbn [app]. destruct carried as [carried|e]; [|by apply Hfail].
  apply (ensures_call_try env rely).
  - intros s4 lease s5 Hs4 (_ & Hh & _)%serve_documented. rewrite commit_same by done.
    by apply enlist_outcome.
  - intros text s4 s5 s' Hs4 Hl _. apply register_failed. apply Forall_app. split; [done|].
    rewrite commit_same; [constructor|]. destruct Hl as [->|(a & (_ & Hh & _)%serve_documented)]; done.
Qed.

Definition enrolled (tr : list (observation S)) (s' : S)
    (r : result (option EtcdParticipantSession) ParticipantRuntimeError) : Prop :=
  match r with
  | Ok (Some session) => joined_by session tr s'
  | Err (ParticipantCoordination (Etcd _)) => Forall enlist_commit tr
  | _ => Forall prepares tr
  end.

Lemma enrolled_failed tr s' e : Forall prepares tr → enrolled tr s' (Err e).
Proof. intros Hp. destruct e as [[]| | | | | |]; try done. eapply Forall_impl; [exact Hp|]. by left. Qed.

Lemma enrolled_err tr s' e : enrolled tr s' (Err e) → Forall enlist_commit tr.
Proof. destruct e as [[]| | | | | |]; try done; intros Hp; (eapply Forall_impl; [exact Hp|]); by left. Qed.

Lemma enrolled_after acc tr s' r :
  Forall prepares acc → enrolled tr s' r → enrolled (acc ++ tr) s' r.
Proof.
  intros Hacc. assert (Forall prepares tr → Forall prepares (acc ++ tr)) as Hp by (intros; by apply Forall_app).
  assert (Forall enlist_commit tr → Forall enlist_commit (acc ++ tr)) as He.
  { intros Htr. apply Forall_app. split; [|done]. eapply Forall_impl; [exact Hacc|]. by left. }
  destruct r as [[session|]|[[]| | | | | |]]; cbn; auto.
  intros (tr0 & s1 & s2 & -> & Hp0 & (a & b & Hin & Hn) & H2 & H3). exists (acc ++ tr0), s1, s2.
  split_and!; [by rewrite app_assoc|by apply Forall_app| |done|done]. exists a, b. split; [|done].
  apply elem_of_app. by right.
Qed.

Lemma register_wait_outcome can_stop s acc :
  Forall prepares acc →
  ensures env (let* p := select (pause_branches can_stop) in
    match p with Paused => Ret (inl tt) | ShutDown => Ret (inr (Ok None)) end) s
    (λ tr s' lr, match lr with inl _ => Forall prepares (acc ++ tr) | inr r => enrolled (acc ++ tr) s' r end).
Proof.
  intros Hacc. apply (ensures_select env rely). intros p s1 _ _.
  destruct p; apply (ensures_ret env rely); intros s' _; by rewrite app_nil_r.
Qed.

Lemma register_session_outcome can_stop s :
  ensures env (register_session_until backend i options can_stop) s (λ tr s' r, enrolled tr s' r).
Proof.
  apply (holds_iter _ _ _ _ (λ _ acc _, Forall prepares acc)); [constructor|].
  intros [] acc s1 Hacc. unfold register_turn. cbv zeta.
  assert (∀ e s2 tr, Forall prepares tr → ensures env (Ret (inr (Err (ParticipantCoordination e)))) s2
    (λ tr' s' (lr : unit + _), match lr with
       | inl _ => Forall prepares (acc ++ tr ++ tr')
       | inr r => enrolled (acc ++ tr ++ tr') s' r
       end)) as Hfail.
  { intros e s2 tr Htr. apply (ensures_ret env rely). intros s' _. rewrite app_nil_r.
    by apply enrolled_failed, Forall_app. }
  apply holds_bind. eapply holds_mono; [apply (ensures_idle env rely)|].
  { apply commits_try; [by apply commits_read|]. intros a. destruct (get_kvs a); [apply commits_ret|].
    destruct (map_err _ _); apply commits_ret. }
  intros tr s2 live [-> _]. destruct live as [[n|]|e]; [| |by apply (Hfail e s2 [])].
  { by apply register_wait_outcome. }
  apply holds_bind. eapply holds_mono; [apply register_outcome|]. intros tr s3 r Hr.
  destruct r as [session|e].
  { apply (ensures_ret env rely). intros s' Hs'. cbn [app]. rewrite app_nil_r. apply enrolled_after; [done|].
    destruct Hr as (tr0 & a & b & ? & ? & ? & ? & ?). exists tr0, a, b. split_and!; [done..|by etrans]. }
  destruct e; try (by apply Hfail).
  - apply (ensures_ret env rely). intros s' _. cbn [app]. rewrite app_nil_r. by apply enrolled_after.
  - cbn in Hr. eapply holds_mono; [apply (register_wait_outcome _ _ (acc ++ tr)); by apply Forall_app|].
    intros tr' s' [[]|r]; by rewrite <-app_assoc.
Qed.
End registering.
End lifecycle_facts.

(** The projection for the application loses no state name. *)
Lemma resource_state_str state : ResourceState_as_str (ResourceState_from_state state) = state_str state.
Proof.
  unfold ResourceState_from_state.
  repeat match goal with
  | |- context [String.eqb (state_str state) ?name] => destruct (String.eqb_spec (state_str state) name) as [->|]; [done|]
  end. done.
Qed.

(** ** The end of a run *)

(** The last thing reported is the outcome. *)
Definition reports_outcome {S} (i : InstanceId) (tr : list (observation S))
    (r : result unit ParticipantRuntimeError) : Prop :=
  ∃ tr0, tr = tr0 ++ [Emitted match r with
    | Ok _ => GracefulShutdown (instance_str i)
    | Err e => FatalRuntimeError (instance_str i) (display_participant_error e)
    end].

Lemma finish_run_outcome {S : Type} `{EtcdLaws S} (env rely : S → S → Prop) `{!Rely env rely} i session
    run_result s tr0 :
  ensures env (finish_run i session run_result) s (λ tr _ r, reports_outcome i (tr0 ++ tr) r).
Proof.
  apply holds_bind. intros tr s1 revoked _.
  assert (∀ event x, event = match x with
      | Ok _ => GracefulShutdown (instance_str i)
      | Err e => FatalRuntimeError (instance_str i) (display_participant_error e)
      end → ensures env (let* _ := emit event in Ret x) s1 (λ tr' _ r, reports_outcome i (tr0 ++ tr ++ tr') r)) as Hend.
  { intros event x ->. apply (ensures_emit env rely). intros s2 _. apply (ensures_ret env rely). intros s' _.
    exists (tr0 ++ tr). by rewrite <-app_assoc. }
  destruct run_result as [[]|e]; [destruct revoked as [u|e]|]; by apply Hend.
Qed.

(** * Theorems *)

(** C10: a participant becomes live at most once and never next to another session
    of its instance: what registration returns was made live by one transaction,
    its last one, at a revision where the instance had no live record, under its
    own lease and with a number the session counter handed out during the call;
    whatever else it commits allocates a number or ends the lease of an attempt
    that came too late; and a registration that is given up, or fails other than
    by a lost answer, has made nothing live. *)
Theorem registration_exclusive {S : Type} `{EtcdLaws S} (env : S → S → Prop) backend i options can_stop
    s tr s' r :
  (∀ s s', env s s' → evolves s s') →
  runs env (register_session_until backend i options can_stop) s tr s' r →
  enrolled evolves backend i tr s' r.
Proof.
  intros Henv Hrun. pose proof (evolves_rely env Henv).
  exact (register_session_outcome env evolves backend i options can_stop s tr s' r Hrun).
Qed.

(** A lease is found healthy only when it is: the live record named the
    session at a moment before and at a moment after the keep-alive was answered,
    so no lost session is taken for a live one; checking writes nothing, and
    transport errors never end it with an error. *)
Theorem keepalive_sound {S : Type} `{EtcdLaws S} (env : S → S → Prop) session s tr s' r :
  (∀ s s', env s s' → evolves s s') →
  runs env (keep_alive_until_available session) s tr s' r →
  tr = [] ∧ keepalive_verdict evolves session s s' r.
Proof.
  intros Henv Hrun. pose proof (evolves_rely env Henv).
  exact (keep_alive_outcome env evolves session s tr s' r Hrun).
Qed.

(** Whatever the loop of a participant does, a run that got as far as a session,
    or was stopped before, ends by reporting its outcome to the application: an
    orderly shutdown when it returns without an error, and otherwise the error it
    returns; a run that fails earlier, while registering, reports nothing at all. *)
Theorem run_reports_outcome {S : Type} `{EtcdLaws S} (env : S → S → Prop) backend i lease_ttl body s tr s' r :
  (∀ s s', env s s' → evolves s s') →
  runs env (run_until backend i lease_ttl body) s tr s' r →
  reports_outcome i tr r.1 ∨ ((∃ e, r.1 = Err e) ∧ Forall (enlist_commit backend i) tr).
Proof.
  intros Henv. pose proof (evolves_rely env Henv). revert tr s' r.
  change (ensures env (run_until backend i lease_ttl body) s
    (λ tr s' r, reports_outcome i tr r.1 ∨ ((∃ e, r.1 = Err e) ∧ Forall (enlist_commit backend i) tr))).
  unfold run_until. destruct (RegistrationOptions_new lease_ttl) as [options|e]; cbn [map_err].
  2: { apply (ensures_ret env evolves). intros s' _. right. split; [eauto|constructor]. }
  apply holds_bind. eapply holds_mono; [apply (register_session_outcome env evolves)|].
  intros tr s1 [[session|]|e] Hr.
  - apply holds_bind. intros tr' s2 [[run_result last] called] _. cbn [fst snd]. apply holds_bind.
    eapply holds_mono; [apply (finish_run_outcome env evolves _ _ _ _ (tr ++ tr'))|].
    intros tr2 s3 r Hrep. apply (ensures_ret env evolves). intros s' _. left. by rewrite app_assoc, app_nil_r.
  - apply (ensures_emit env evolves). intros s2 _. apply (ensures_ret env evolves). intros s' _. left. by exists tr.
  - apply (ensures_ret env evolves). intros s' _. right. rewrite app_nil_r. split; [eauto|].
    by eapply enrolled_err.
Qed.

(** ** A participant that joins an empty cluster *)

Definition ex_options : RegistrationOptions := MkRegistrationOptions DEFAULT_LEASE_TTL OFFLINE ∅.
Definition ex_empty : mem_store := MkMem ∅ 1 1.
Definition ex_join : participant_prog (option EtcdParticipantSession) :=
  register_session_until ex_backend (MkInstanceId "node-a") ex_options true.
Definition ex_joined : EtcdParticipantSession :=
  MkEtcdParticipantSession ex_backend (MkInstanceId "node-a") (MkSessionId 1) 1 (MkRevision 3).

Lemma ex_join_result : snd <$> run_mem 60 ex_join ex_empty = Some (Ok (Some ex_joined)).
Proof. vm_compute. reflexivity. Qed.

Lemma registration_exclusive_witness :
  ∃ m1 m2 : mem_store, enlists ex_backend (MkInstanceId "node-a") ex_joined m1 m2.
Proof.
  pose proof ex_join_result as Hres.
  destruct (run_mem 60 ex_join ex_empty) as [[[tr m'] r]|] eqn:Hrun; [|discriminate Hres].
  injection Hres as ->. apply run_mem_sound in Hrun.
  destruct (registration_exclusive alone ex_backend (MkInstanceId "node-a") ex_options true ex_empty tr m' _
    alone_evolves Hrun) as (tr0 & m1 & m2 & _ & _ & _ & Hen & _).
  exists m1, m2. exact Hen.
Defined.

Definition ex_keep : participant_prog KeepaliveOutcome := keep_alive_until_available ex_joined.

Lemma ex_keep_result : snd <$> run_mem 60 ex_keep ex_store = Some (Ok Healthy).
Proof. vm_compute. reflexivity. Qed.

Lemma keepalive_sound_witness : ∃ m : mem_store, current_at ex_joined (keyspace m).
Proof.
  pose proof ex_keep_result as Hres.
  destruct (run_mem 60 ex_keep ex_store) as [[[tr m'] r]|] eqn:Hrun; [|discriminate Hres].
  injection Hres as ->. apply run_mem_sound in Hrun.
  destruct (keepalive_sound alone ex_joined ex_store tr m' _ alone_evolves Hrun)
    as [_ (m1 & m2 & _ & _ & _ & Hc & _)].
  exists m2. exact Hc.
Defined.

(** A loop that is asked to stop at once. *)
Definition ex_run : itree coordE (result unit ParticipantRuntimeError * bool) :=
  run_until ex_backend (MkInstanceId "node-a") DEFAULT_LEASE_TTL (λ session, Ret (Ok tt, session, true)).

Lemma ex_run_result : snd <$> run_mem 80 ex_run ex_empty = Some (Ok tt, true).
Proof. vm_compute. reflexivity. Qed.

Lemma run_reports_outcome_witness :
  ∃ tr m', runs alone ex_run ex_empty tr m' (Ok tt, true) ∧ reports_outcome (MkInstanceId "node-a") tr (Ok tt).
Proof.
  pose proof ex_run_result as Hres.
  destruct (run_mem 80 ex_run ex_empty) as [[[tr m'] r]|] eqn:Hrun; [|discriminate Hres].
  injection Hres as ->. apply run_mem_sound in Hrun. exists tr, m'. split; [exact Hrun|].
  destruct (run_reports_outcome alone ex_backend (MkInstanceId "node-a") DEFAULT_LEASE_TTL
    (λ session, Ret (Ok tt, session, true)) ex_empty tr m' _ alone_evolves Hrun) as [Hrep|[[e He] _]];
    [exact Hrep|discriminate He].
Defined.
