(* ===== verification/Election.v ===== *)
(** * Leader election

    Models [src/election.rs]: configuration, the campaign of a controller for the
    active key, its keepalive task, relinquishing, and the writes that the
    election authority fences.  A [loop] is [ITree.iter]; a [tokio::select!] is a
    [Select] among the branches that can win.  The future that stops a campaign
    either can complete ([can_stop]) or is [std::future::pending].  The lost flag
    is raised by the keepalive task, so a campaign finds it set or not at every
    read. *)

From S2P Require Import Prelude Identity StateMaps Session Keys Snapshot Etcd Metadata InputMarker.

(** ** Configuration *)

Record ControllerElectionConfig := MkElectionConfig {
  ec_cluster : string;
  ec_controller : string;
  lease_ttl_ms : N
}.

Inductive ElectionError :=
| Coordination (error : CoordinationError)
| ClusterMismatch
| InvalidControllerId
| ElectionInvalidLeaseTtl
| ElectionLeaseExpired.

Definition election_is_transient (e : ElectionError) : bool :=
  match e with Coordination error => is_transient error | _ => false end.

Definition display_election_error (e : ElectionError) : string :=
  match e with
  | Coordination error => display_coordination_error error
  | ClusterMismatch => "election cluster does not match coordination"
  | InvalidControllerId => "controller id must not be empty"
  | ElectionInvalidLeaseTtl => "controller lease TTL must be at least one second"
  | ElectionLeaseExpired => "controller election lease expired"
  end.

Definition lease_seconds (ttl_ms : N) : result Z ElectionError :=
  match checked_add_u64 ttl_ms 999 with
  | None => Err ElectionInvalidLeaseTtl
  | Some sum =>
      let seconds := (sum / 1000)%N in
      if (seconds =? 0)%N || (Z.to_N i64_MAX <? seconds)%N then Err ElectionInvalidLeaseTtl
      else Ok (Z.of_N seconds)
  end.

Definition validate_config (coordination : EtcdCoordination) (config : ControllerElectionConfig)
  : result unit ElectionError :=
  if negb (String.eqb (ec_cluster config) (cluster coordination)) then Err ClusterMismatch
  else if is_blank (ec_controller config) || contains_nul (ec_controller config)
  then Err InvalidControllerId
  else let? _ := lease_seconds (lease_ttl_ms config) in Ok tt.

Record ControllerElection := MkControllerElection {
  el_coordination : EtcdCoordination;
  el_config : ControllerElectionConfig
}.

Definition ControllerElection_new (coordination : EtcdCoordination) (config : ControllerElectionConfig)
  : result ControllerElection ElectionError :=
  let? _ := validate_config coordination config in Ok (MkControllerElection coordination config).

(** The keepalive task and its notification belong to the environment. *)
Record Leadership := MkLeadership {
  authority : ControllerAuthority;
  ls_coordination : EtcdCoordination
}.

Definition RELINQUISH_CONFIRM_ATTEMPTS : nat := 200.

(** ** The campaign *)

Abbreviation election_prog A := (itree coordE (result A ElectionError)).

(** [client.call(..).await?] in a function that returns [ElectionError] *)
Definition election_call {A} (r : request A) : election_prog A :=
  ITree.bind (call r) (λ x, Ret (map_err Coordination x)).

(** What ends a wait. *)
Inductive wake := Slept | Stopped | LeaseLost.

(** A request raced against the stop future: when the latter wins, the request
    is dropped before or after it reached the store. *)
Inductive race_end := Answered | StoppedUnsent | StoppedSent.

Section campaign.
Variable self : ControllerElection.
Variable can_stop : bool.

Definition stops {A} (branches : list A) : list A := if can_stop then branches else [].

Definition race {A} (r : request A) : itree coordE (option (result A CoordinationError)) :=
  let* first := select (Answered :: stops [StoppedUnsent; StoppedSent]) in
  match first with
  | Answered => let* answer := call r in Ret (Some answer)
  | StoppedUnsent => Ret None
  | StoppedSent => let* _ := call r in Ret None
  end.

(** [let _ = client.lease_client().revoke(lease_id).await;] *)
Definition revoke_quietly (lease : Z) : itree coordE unit :=
  let* _ := call (LeaseRevoke lease) in Ret tt.

Definition candidate_key : string :=
  controller_candidate_key (el_coordination self) (ec_controller (el_config self)).
Definition candidate_prefix : string :=
  namespaced_key (el_coordination self) "controller/election/candidates/".
Definition active_key : string := controller_active_key (el_coordination self).

(** [grant_lease] raced against the stop future, until it is granted; [None] when
    the campaign is stopped. *)
Definition grant_turn (seconds : Z) : itree coordE (unit + result (option Z) ElectionError) :=
  let* result := race (LeaseGrant seconds) in
  match result with
  | None => Ret (inr (Ok None))
  | Some (Ok lease) => Ret (inr (Ok (Some lease)))
  | Some (Err error) =>
      if election_is_transient (Coordination error) then
        let* w := select (Slept :: stops [Stopped]) in
        match w with Stopped => Ret (inr (Ok None)) | _ => Ret (inl tt) end
      else Ret (inr (Err (Coordination error)))
  end.

(** Registration of the candidate record. *)
Definition candidate_turn (lease : Z)
  : itree coordE (unit + result (option TxnResponse) ElectionError) :=
  let* result := race (Transact [CompareVersion candidate_key 0]
                        [TxnPut candidate_key (ec_controller (el_config self)) lease]) in
  match result with
  | None => let* _ := revoke_quietly lease in Ret (inr (Ok None))
  | Some (Ok response) => Ret (inr (Ok (Some response)))
  | Some (Err error) =>
      if negb (is_transient error) then Ret (inr (Err (Coordination error)))
      else
        let* w := select (Slept :: stops [Stopped]) in
        match w with
        | Stopped => let* _ := revoke_quietly lease in Ret (inr (Ok None))
        | _ => Ret (inl tt)
        end
  end.

(** The wait at the end of a turn; [strict] when the error of the revocation is
    returned. *)
Definition campaign_wait (strict : bool) (lease : Z)
  : itree coordE (unit + result (option Leadership) ElectionError) :=
  let* w := select (Slept :: LeaseLost :: stops [Stopped]) in
  match w with
  | Slept => Ret (inl tt)
  | LeaseLost => Ret (inr (Err ElectionLeaseExpired))
  | Stopped =>
      if strict then
        let* revoked := election_call (LeaseRevoke lease) in
        Ret (inr (match revoked with Ok _ => Ok None | Err e => Err e end))
      else
        let* _ := revoke_quietly lease in Ret (inr (Ok None))
  end.

(** A request of the campaign that failed. *)
Definition campaign_failed (error : CoordinationError) (lease : Z)
  : itree coordE (unit + result (option Leadership) ElectionError) :=
  if negb (is_transient error) then Ret (inr (Err (Coordination error)))
  else campaign_wait false lease.

Definition election_compares (candidate : KeyValue) (lease : Z) : list Compare :=
  [ CompareVersion active_key 0;
    CompareCreateRevision candidate_key (kv_create_revision candidate);
    CompareLease candidate_key lease ].

Definition predecessor_keys (candidates : list KeyValue) (candidate : KeyValue) : list string :=
  kv_key <$> List.filter (λ other, (kv_create_revision other <? kv_create_revision candidate)%Z) candidates.

Definition elected_leadership (lease : Z) : Leadership :=
  MkLeadership (MkControllerAuthority (prefix (el_coordination self)) (ec_controller (el_config self)) lease)
    (el_coordination self).

Definition campaign_turn (lease : Z)
  : itree coordE (unit + result (option Leadership) ElectionError) :=
  let* lost := select [false; true] in
  if lost : bool then Ret (inr (Err ElectionLeaseExpired))
  else
    let* candidates := call (Get candidate_prefix true None) in
    match candidates with
    | Err error => campaign_failed error lease
    | Ok response =>
        match List.find (λ candidate, String.eqb (kv_key candidate) candidate_key) (get_kvs response) with
        | None => Ret (inr (Err ElectionLeaseExpired))
        | Some candidate =>
            match predecessor_keys (get_kvs response) candidate with
            | _ :: _ => campaign_wait true lease
            | [] =>
                let* answer := call (Transact (election_compares candidate lease)
                  [TxnPut active_key (ec_controller (el_config self)) lease]) in
                match answer with
                | Err error => campaign_failed error lease
                | Ok response =>
                    if succeeded response then Ret (inr (Ok (Some (elected_leadership lease))))
                    else campaign_wait true lease
                end
            end
        end
    end.

Definition campaign (lease : Z) : election_prog (option Leadership) :=
  ITree.iter (λ _, campaign_turn lease) tt.

Definition acquire_turn : itree coordE (unit + result (option Leadership) ElectionError) :=
  match lease_seconds (lease_ttl_ms (el_config self)) with
  | Err error => Ret (inr (Err error))
  | Ok seconds =>
      let* granted := ITree.iter (λ _, grant_turn seconds) tt in
      match granted with
      | Err error => Ret (inr (Err error))
      | Ok None => Ret (inr (Ok None))
      | Ok (Some lease) =>
          let* registered := ITree.iter (λ _, candidate_turn lease) tt in
          match registered with
          | Err error => Ret (inr (Err error))
          | Ok None => Ret (inr (Ok None))
          | Ok (Some response) =>
              if negb (succeeded response) then
                let* _ := revoke_quietly lease in
                let* w := select (Slept :: stops [Stopped]) in
                match w with Stopped => Ret (inr (Ok None)) | _ => Ret (inl tt) end
              else
                let* result := campaign lease in Ret (inr result)
          end
      end
  end.

Definition acquire_until : election_prog (option Leadership) := ITree.iter (λ _, acquire_turn) tt.
End campaign.

(** The stop future of [acquire] never completes. *)
Definition acquire (self : ControllerElection) : election_prog Leadership :=
  let! leadership := acquire_until self false in
  match leadership with
  | Some leadership => Ret (Ok leadership)
  | None => Ret (Err ElectionLeaseExpired)
  end.

(** ** Relinquishing *)

Section relinquish.
Variable self : Leadership.

Definition election_keys : list string :=
  [ controller_candidate_key (ls_coordination self) (authority_controller (authority self));
    controller_active_key (ls_coordination self) ].

Definition delete_owned_election_key (key : string) : election_prog unit :=
  let! _ := election_call (Transact [CompareLease key (authority_lease (authority self))] [TxnDelete key]) in
  Ret (Ok tt).

Fixpoint owned_record_remains (keys : list string) (remains : bool) : election_prog bool :=
  match keys with
  | [] => Ret (Ok remains)
  | key :: keys =>
      let! response := election_call (Get key false None) in
      owned_record_remains keys
        (remains || match get_kvs response with
                    | record :: _ => (kv_lease record =? authority_lease (authority self))%Z
                    | [] => false
                    end)
  end.

(** The pause between two attempts leaves no trace. *)
Fixpoint confirm_attempts (attempts : nat) : election_prog unit :=
  match attempts with
  | O => Ret (Err (Coordination Contention))
  | S attempts =>
      let! remains := owned_record_remains election_keys false in
      if remains : bool then confirm_attempts attempts else Ret (Ok tt)
  end.

Definition confirm_election_records_released : election_prog unit :=
  confirm_attempts RELINQUISH_CONFIRM_ATTEMPTS.

(** [let _ = self.delete_owned_election_key(key).await;] for each key *)
Fixpoint delete_owned_keys (keys : list string) : itree coordE unit :=
  match keys with
  | [] => Ret tt
  | key :: keys => let* _ := delete_owned_election_key key in delete_owned_keys keys
  end.

Definition relinquish : election_prog unit :=
  let* _ := delete_owned_keys election_keys in
  let! _ := election_call (LeaseRevoke (authority_lease (authority self))) in
  confirm_election_records_released.
End relinquish.

(** ** Fenced writes *)

Definition put_controller_owned (coordination : EtcdCoordination) (self : ControllerAuthority)
    (key value : string) : prog Revision :=
  if negb (String.eqb (authority_namespace self) (prefix coordination)) then Ret (Err StaleController)
  else
    let! response := call (Transact
      [ CompareValue (controller_active_key coordination) (authority_controller self);
        CompareLease (controller_active_key coordination) (authority_lease self) ]
      (with_marker coordination key (TxnPut (metadata_key coordination key) value 0))) in
    if negb (succeeded response) then Ret (Err StaleController)
    else Ret (revision_from_header (txn_header response)).

(** [EtcdCoordination::publish_controller_outputs] *)
Definition publish_controller_outputs (coordination : EtcdCoordination) (self : ControllerAuthority)
    (external_view pending_transitions : string) (processed_revision : Revision)
    (pending_revision : option Revision) : prog Revision :=
  let! snapshot := controller_snapshot coordination in
  if negb (bool_decide (processed_revision = authoritative_revision snapshot))
  then Ret (Err StaleRevision)
  else
    let live_sessions := live_session_id <$> snapshot_live snapshot in
    let fence := commit_fence self (authoritative_revision snapshot) live_sessions in
    publish_controller_outputs_with_fence coordination fence external_view pending_transitions
      pending_revision.

(** ** The keepalive task

    Times in nanoseconds.  A turn wakes up, sends one keepalive with a timeout
    and looks at the clock again; it either schedules the next turn or raises the
    lost flag. *)

Definition millis (n : N) : N := n * 1000000.

Definition keepalive_interval (lease_ttl : N) : N :=
  N.max (N.min (lease_ttl / 3) (millis 1000)) (millis 100).

Definition keepalive_attempt_timeout (lease_ttl : N) : N :=
  N.min (keepalive_interval lease_ttl) (millis 500).

Definition keepalive_retry_delay : N := millis 100.

(** [Ok(Ok(Some(response)))], or one of [Ok(Ok(None))], [Ok(Err(_))], [Err(_)] *)
Inductive keepalive_answer := KeepaliveTtl (ttl : Z) | KeepaliveFailed.

(** [Some (last_keepalive, next_keepalive)], or the flag is raised. *)
Definition keepalive_turn (lease_ttl last_keepalive woken_at : N) (answer : keepalive_answer)
    (answered_at : N) : option (N * N) :=
  if (lease_ttl <=? woken_at - last_keepalive)%N then None
  else match answer with
       | KeepaliveTtl ttl =>
           if (0 <? ttl)%Z then Some (answered_at, keepalive_interval lease_ttl) else None
       | KeepaliveFailed =>
           if (answered_at - last_keepalive <? lease_ttl)%N
           then Some (last_keepalive, keepalive_retry_delay)
           else None
       end.

(** * Facts *)

Section campaign_facts.
Context {S : Type} `{EtcdLaws S} (env rely : S → S → Prop) `{!Rely env rely}.
Context (self : ControllerElection) (can_stop : bool).

Abbreviation id := (ec_controller (el_config self)).

(** The record of the candidate appears, attached to its lease. *)
Definition candidacy (lease : Z) (s1 s2 : S) : Prop :=
  keyspace s1 !! candidate_key self = None ∧ head s2 = (head s1 + 1)%Z ∧
  keyspace s2 = <[candidate_key self :=
    MkKeyValue (candidate_key self) id (head s2) (head s2) 1 lease]> (keyspace s1).

(** The active key passes to the candidate: nobody holds it, its record is
    attached to its lease, and no candidate was there before it. *)
Record elected (lease : Z) (s1 s2 : S) : Prop := {
  elected_vacant : keyspace s1 !! active_key self = None;
  elected_first : ∃ own, keyspace s1 !! candidate_key self = Some own ∧ kv_lease own = lease ∧
    ∀ key other, keyspace s1 !! key = Some other → starts_with (candidate_prefix self) key = true →
      (kv_create_revision own ≤ kv_create_revision other)%Z;
  elected_head : head s2 = (head s1 + 1)%Z;
  elected_active : keyspace s2 = <[active_key self :=
    MkKeyValue (active_key self) id (head s2) (head s2) 1 lease]> (keyspace s1)
}.

(** All that a campaign does to the store. *)
Definition campaign_commit (o : observation S) : Prop :=
  match o with
  | Committed s1 s2 => ∃ lease, candidacy lease s1 s2 ∨ elected lease s1 s2 ∨
      lease_ends (keyspace s1) (head s1) lease (keyspace s2) (head s2)
  | _ => False
  end.

Abbreviation campaigns := (commits env campaign_commit).

Lemma campaigns_revoke lease : campaigns (call (LeaseRevoke lease)).
Proof.
  apply commits_call. intros s1 a s2 Hs%serve_documented _.
  exists lease. by right; right.
Qed.

Lemma campaigns_grant seconds : campaigns (call (LeaseGrant seconds)).
Proof.
  apply commits_call. by intros s1 a s2 (_ & Hh & _)%serve_documented ?.
Qed.

(** A put that finds its key absent creates it. *)
Lemma effect_create (s1 s2 : S) key value lease :
  keyspace s1 !! key = None →
  effect_of (keyspace s1) (head s1) [TxnPut key value lease] (keyspace s2) (head s2) →
  head s2 = (head s1 + 1)%Z ∧
  keyspace s2 = <[key := MkKeyValue key value (head s2) (head s2) 1 lease]> (keyspace s1).
Proof.
  intros Hnone [Hh Hk]. cbn [foldl apply_op] in Hk. split; [done|].
  unfold put_kv in Hk. rewrite Hnone in Hk. by rewrite Hk, Hh.
Qed.

Lemma candidacy_effect (s1 s2 : S) lease :
  forallb (compare_holds (keyspace s1)) [CompareVersion (candidate_key self) 0] = true →
  effect_of (keyspace s1) (head s1) [TxnPut (candidate_key self) id lease] (keyspace s2) (head s2) →
  candidacy lease s1 s2.
Proof.
  cbn. rewrite andb_true_r. intros Hv%bool_decide_eq_true_1%version_zero Heff.
  split; [done|]. by apply effect_create.
Qed.

Lemma campaigns_candidacy lease :
  campaigns (call (Transact [CompareVersion (candidate_key self) 0] [TxnPut (candidate_key self) id lease])).
Proof.
  apply commits_call. intros s1 a s2 (_ & Hc & He)%serve_documented Hh.
  destruct (succeeded a); [|by destruct He]. exists lease. left. by apply candidacy_effect.
Qed.

Lemma campaigns_race {A} (c : request A) : campaigns (call c) → campaigns (race can_stop c).
Proof.
  intros Hc. apply commits_bind; [apply commits_select|]. intros [].
  - apply commits_bind; [done|]. intros; apply commits_ret.
  - apply commits_ret.
  - apply commits_bind; [done|]. intros; apply commits_ret.
Qed.

Lemma campaigns_revoke_quietly lease : campaigns (revoke_quietly lease).
Proof. apply commits_bind; [apply campaigns_revoke|]. intros; apply commits_ret. Qed.

Lemma campaigns_wait strict lease : campaigns (campaign_wait can_stop strict lease).
Proof.
  apply commits_bind; [apply commits_select|]. intros [].
  - apply commits_ret.
  - destruct strict.
    + apply commits_bind; [|intros; apply commits_ret].
      apply commits_bind; [apply campaigns_revoke|]. intros; apply commits_ret.
    + apply commits_bind; [apply campaigns_revoke_quietly|]. intros; apply commits_ret.
  - apply commits_ret.
Qed.

Lemma campaigns_failed error lease : campaigns (campaign_failed can_stop error lease).
Proof. unfold campaign_failed. destruct (negb _); [apply commits_ret|apply campaigns_wait]. Qed.

(** The FIFO test, at the moment of the transaction: what is older than the own
    record then was so when the candidates were read. *)
Lemma elected_effect (s0 s1 s2 : S) candidate lease :
  evolves s0 s1 →
  List.find (λ kv, String.eqb (kv_key kv) (candidate_key self))
    (select_kvs (keyspace s0) (candidate_prefix self) true) = Some candidate →
  predecessor_keys (select_kvs (keyspace s0) (candidate_prefix self) true) candidate = [] →
  forallb (compare_holds (keyspace s1)) (election_compares self candidate lease) = true →
  effect_of (keyspace s1) (head s1) [TxnPut (active_key self) id lease] (keyspace s2) (head s2) →
  elected lease s1 s2.
Proof.
  intros (_ & _ & Hcreated) [Hin Hkey]%List.find_some Hpre Hc Heff.
  apply String.eqb_eq in Hkey. apply list_elem_of_In, elem_of_select in Hin as [Hcand _].
  destruct (kv_bounds s0 _ _ Hcand) as (_ & Hpos & Hle & _). cbn in Hc. rewrite andb_true_r in Hc.
  apply andb_prop in Hc as [Hv%bool_decide_eq_true_1%version_zero [Hr Hl]%andb_prop].
  apply bool_decide_eq_true_1 in Hr, Hl. unfold kv_field in Hr, Hl.
  destruct (effect_create s1 s2 _ _ _ Hv Heff) as [Hh Hk]. split; [done| |done|done].
  destruct (keyspace s1 !! candidate_key self) as [own|]; [|lia]. exists own. split_and!; [done|done|].
  intros key other Hother Hp. destruct (Z.le_gt_cases (kv_create_revision own) (kv_create_revision other))
    as [|Hlt]; [done|exfalso].
  destruct (Hcreated key other Hother) as (old & Hold & Heq); [lia|].
  assert (kv_key old ∈ predecessor_keys (select_kvs (keyspace s0) (candidate_prefix self) true) candidate) as Hx.
  { apply list_elem_of_fmap. exists old. split; [done|].
    apply list_elem_of_In, List.filter_In. split; [|apply Z.ltb_lt; lia].
    apply list_elem_of_In, elem_of_select. by destruct (kv_bounds s0 _ _ Hold) as (-> & _). }
  rewrite Hpre in Hx. by apply elem_of_nil in Hx.
Qed.

(** The trace of a campaign that was won: elected last. *)
Definition won (lease : Z) (tr : list (observation S)) (s' : S) : Prop :=
  ∃ tr0 s1 s2, tr = tr0 ++ [Committed s1 s2] ∧ elected lease s1 s2 ∧ rely s2 s'.

Definition won_if (lease : Z) (tr : list (observation S)) (s' : S)
    (r : result (option Leadership) ElectionError) : Prop :=
  ∀ leadership, r = Ok (Some leadership) → leadership = elected_leadership self lease ∧ won lease tr s'.

Definition turn_outcome (lease : Z) (tr : list (observation S)) (s' : S)
    (lr : unit + result (option Leadership) ElectionError) : Prop :=
  Forall campaign_commit tr ∧ match lr with inl _ => True | inr r => won_if lease tr s' r end.

Lemma wait_outcome strict lease s :
  ensures env (campaign_wait can_stop strict lease) s (turn_outcome lease).
Proof.
  assert (∀ tr s' r, Forall campaign_commit tr → (∀ l, r ≠ Ok (Some l)) → turn_outcome lease tr s' (inr r)) as Hno
    by (intros tr s' r Htr Hr; split; [done|]; by intros l ->; destruct (Hr l)).
  apply (ensures_select env rely). intros b s1 _ _. destruct b.
  - apply holds_ret. by split; [constructor|].
  - destruct strict; apply holds_bind.
    + eapply holds_mono.
      { apply (commits_bind env campaign_commit); [apply campaigns_revoke|]. intros; apply commits_ret. }
      intros tr s2 r Htr. apply holds_ret. intros s3 _. rewrite app_nil_r. apply Hno; [done|].
      by destruct r.
    + eapply holds_mono; [apply campaigns_revoke_quietly|]. intros tr s2 r Htr. apply holds_ret.
      intros s3 _. rewrite app_nil_r. by apply Hno.
  - apply holds_ret. intros s2 _. apply Hno; [constructor|done].
Qed.

Lemma failed_outcome error lease s :
  ensures env (campaign_failed can_stop error lease) s (turn_outcome lease).
Proof.
  unfold campaign_failed. destruct (negb _); [|apply wait_outcome].
  apply holds_ret. intros s1 _. split; [constructor|]. by intros l.
Qed.

(** A commit before the rest of a turn. *)
Lemma outcome_after lease acc tr s' lr :
  Forall campaign_commit acc → turn_outcome lease tr s' lr → turn_outcome lease (acc ++ tr) s' lr.
Proof.
  intros Hacc [Htr Hr]. split; [by apply Forall_app|]. destruct lr as [|r]; [done|].
  intros l Hl. destruct (Hr l Hl) as (-> & tr0 & s1 & s2 & -> & Hel & Hs).
  split; [done|]. exists (acc ++ tr0), s1, s2. by rewrite app_assoc.
Qed.

Lemma campaign_turn_outcome lease s :
  ensures env (campaign_turn self can_stop lease) s (turn_outcome lease).
Proof.
  assert (∀ s e, ensures env (Ret (inr (Err e))) s (turn_outcome lease)) as Herr
    by (intros s1 e; apply holds_ret; intros s2 _; split; [constructor|]; by intros l).
  apply (ensures_select env rely). intros [|] s1 _ _; [apply Herr|].
  apply (ensures_read env rely); [|intros; apply failed_outcome].
  intros s2 _. cbn [get_kvs]. destruct (List.find _ _) as [candidate|] eqn:Hfind; [|apply Herr].
  destruct (predecessor_keys _ _) as [|] eqn:Hpre; [|apply wait_outcome].
  assert (∀ s3 s4, rely s2 s3 → forallb (compare_holds (keyspace s3)) (election_compares self candidate lease) = true →
    effect_of (keyspace s3) (head s3) [TxnPut (active_key self) id lease] (keyspace s4) (head s4) →
    commit s3 s4 = [Committed s3 s4] ∧ elected lease s3 s4) as Hel.
  { intros s3 s4 Hs3 Hc He. pose proof (elected_effect s2 s3 s4 candidate lease (rely_evolves _ _ Hs3) Hfind Hpre Hc He) as Hel.
    split; [|done]. by apply commit_changed, Hel. }
  apply (ensures_transact env rely).
  - intros s3 s4 Hs3 Hc He. destruct (Hel s3 s4 Hs3 Hc He) as [-> Hel']. apply (ensures_ret env rely). intros s5 Hs5.
    split; [repeat constructor; exists lease; by right; left|]. intros l [= <-]. split; [done|].
    by exists [], s3, s4.
  - intros s3 _ _. cbn [succeeded]. apply wait_outcome.
  - intros text s3 _. apply failed_outcome.
  - intros text s3 s4 Hs3 Hc He. destruct (Hel s3 s4 Hs3 Hc He) as [-> Hel'].
    eapply holds_mono; [apply failed_outcome|]. intros tr s' lr. apply outcome_after.
    repeat constructor. exists lease. by right; left.
Qed.

Lemma campaign_outcome lease s :
  ensures env (campaign self can_stop lease) s
    (λ tr s' r, Forall campaign_commit tr ∧ won_if lease tr s' r).
Proof.
  apply (holds_iter _ _ _ _ (λ _ acc _, Forall campaign_commit acc)); [constructor|].
  intros [] acc s1 Hacc. eapply holds_mono; [apply campaign_turn_outcome|].
  intros tr s2 lr Hlr. apply (outcome_after _ acc) in Hlr; [|done]. by destruct Hlr, lr.
Qed.

(** ** The whole acquisition *)

Definition granted_ok {A} (tr : list (observation S)) (lr : A + result (option Z) ElectionError) : Prop :=
  Forall campaign_commit tr ∧ ∀ lease, lr = inr (Ok (Some lease)) → lease ≠ 0%Z.

Lemma grant_outcome seconds s :
  ensures env (grant_turn can_stop seconds) s (λ tr _ lr, granted_ok tr lr).
Proof.
  assert (∀ s (lr : unit + _), (∀ l, lr ≠ inr (Ok (Some l))) →
    ensures env (Ret lr) s (λ tr _ lr, granted_ok tr lr)) as Hno
    by (intros s1 lr Hlr; apply holds_ret; intros s2 _; split; [constructor|]; by intros l ->; destruct (Hlr l)).
  apply holds_bind. apply (holds_mono _ _ _ _ _ (λ tr _ r, tr = [] ∧ ∀ l, r = Some (Ok l) → l ≠ 0%Z)).
  - apply (ensures_select env rely). intros b s1 _ _.
    assert (∀ s1, ensures env (call (LeaseGrant seconds)) s1 (λ tr _ r, tr = [] ∧ ∀ l, r = Ok l → l ≠ 0%Z)) as Hcall.
    { intros s2. unfold call. apply holds_trigger. intros s3 x s4 _ Ha. apply holds_ret. intros s5 _.
      rewrite app_nil_r. cbn in Ha |- *. destruct x as [a|text]; cbn.
      - apply serve_documented in Ha as (_ & Hh & Hne). rewrite commit_same by done.
        split; [done|]. by intros l [= ->].
      - split; [|done]. destruct Ha as [->|[a (_ & Hh & _)%serve_documented]]; by rewrite commit_same. }
    destruct b.
    + apply holds_bind. eapply holds_mono; [apply Hcall|]. intros tr s2 r [-> Hr]. apply holds_ret.
      intros s3 _. split; [done|]. intros l [= ->]. by apply Hr.
    + by apply holds_ret.
    + apply holds_bind. eapply holds_mono; [apply Hcall|]. intros tr s2 r [-> Hr]. by apply holds_ret.
  - intros tr s1 r [-> Hr]. cbn [app]. destruct r as [[lease|error]|].
    + apply holds_ret. intros s2 _. split; [constructor|]. intros l [= ->]. by apply Hr.
    + destruct (election_is_transient _); [|by apply Hno].
      apply (ensures_select env rely). intros [] s2 _ _; by apply Hno.
    + by apply Hno.
Qed.

Lemma campaigns_candidate_turn lease : campaigns (candidate_turn self can_stop lease).
Proof.
  apply commits_bind; [apply campaigns_race, campaigns_candidacy|]. intros [[response|error]|].
  - apply commits_ret.
  - destruct (negb _); [apply commits_ret|]. apply commits_bind; [apply commits_select|].
    intros []; try apply commits_ret. apply commits_bind; [apply campaigns_revoke_quietly|].
    intros; apply commits_ret.
  - apply commits_bind; [apply campaigns_revoke_quietly|]. intros; apply commits_ret.
Qed.

Definition acquire_outcome (tr : list (observation S)) (s' : S)
    (r : result (option Leadership) ElectionError) : Prop :=
  Forall campaign_commit tr ∧
  ∀ leadership, r = Ok (Some leadership) →
    ∃ lease, lease ≠ 0%Z ∧ leadership = elected_leadership self lease ∧ won lease tr s'.

Definition acquire_post (tr : list (observation S)) (s' : S)
    (lr : unit + result (option Leadership) ElectionError) : Prop :=
  match lr with inl _ => Forall campaign_commit tr | inr r => acquire_outcome tr s' r end.

Lemma acquire_after acc tr s' lr :
  Forall campaign_commit acc → acquire_post tr s' lr → acquire_post (acc ++ tr) s' lr.
Proof.
  intros Hacc. destruct lr as [|r]; cbn; [by intros; apply Forall_app|]. intros [Htr Hr].
  split; [by apply Forall_app|]. intros l Hl.
  destruct (Hr l Hl) as (lease & Hne & -> & tr0 & s1 & s2 & -> & Hel & Hs).
  exists lease. split_and!; [done|done|]. exists (acc ++ tr0), s1, s2. by rewrite app_assoc.
Qed.

Lemma acquire_none s (lr : unit + result (option Leadership) ElectionError) :
  (∀ l, lr ≠ inr (Ok (Some l))) → ensures env (Ret lr) s acquire_post.
Proof.
  intros Hlr. apply holds_ret. intros s1 _. destruct lr as [|r]; [constructor|]. split; [constructor|].
  by intros l ->; destruct (Hlr l).
Qed.

(** After a part of the campaign that only leaves campaign commits. *)
Lemma acquire_then {A} (t : itree coordE A) (k : A → itree coordE (unit + result (option Leadership) ElectionError)) s :
  campaigns t → (∀ x s1, ensures env (k x) s1 acquire_post) → ensures env (ITree.bind t k) s acquire_post.
Proof.
  intros Ht Hk. apply holds_bind. eapply holds_mono; [apply Ht|]. intros tr s1 x Htr.
  eapply holds_mono; [apply Hk|]. intros tr' s2 lr. by apply acquire_after.
Qed.

Lemma acquire_turn_outcome s : ensures env (acquire_turn self can_stop) s acquire_post.
Proof.
  unfold acquire_turn. destruct (lease_seconds _) as [seconds|]; [|by apply acquire_none].
  apply holds_bind. eapply holds_mono.
  { apply (holds_iter _ _ _ _ (λ _ acc _, Forall campaign_commit acc)
      (λ tr _ r, granted_ok tr (inr r : unit + _))); [constructor|].
    intros i acc s1 Hacc. eapply holds_mono; [apply grant_outcome|].
    intros tr s2 [j|r] [Htr Hr]; [by apply Forall_app|]. split; [by apply Forall_app|done]. }
  intros tr s1 granted [Htr Hlease]. eapply holds_mono; [|intros tr' s2 lr; by apply acquire_after].
  destruct granted as [[lease|]|error]; [|by apply acquire_none..].
  specialize (Hlease lease eq_refl). apply acquire_then; [apply commits_iter; intros; apply campaigns_candidate_turn|].
  intros [[response|]|error] s2; [|by apply acquire_none..]. destruct (negb _).
  - apply acquire_then; [apply campaigns_revoke_quietly|]. intros _ s3.
    apply acquire_then; [apply commits_select|]. intros [] s4; by apply acquire_none.
  - apply holds_bind. eapply holds_mono; [apply campaign_outcome|]. intros tr' s3 r [Htr' Hwon].
    apply (ensures_ret env rely). intros s4 Hs4. rewrite app_nil_r. split; [done|]. intros l Hl.
    destruct (Hwon l Hl) as (-> & tr0 & s5 & s6 & -> & Hel & Hs6). exists lease. split_and!; [done|done|].
    exists tr0, s5, s6. split_and!; [done|done|by etrans].
Qed.

Lemma acquire_until_outcome s : ensures env (acquire_until self can_stop) s acquire_outcome.
Proof.
  apply (holds_iter _ _ _ _ (λ _ acc _, Forall campaign_commit acc)); [constructor|].
  intros [] acc s1 Hacc. eapply holds_mono; [apply acquire_turn_outcome|].
  intros tr s2 lr Hlr. apply (acquire_after acc) in Hlr; [|done]. by destruct lr.
Qed.
End campaign_facts.

(** ** A campaign that does not know it was elected *)

Section lost_answer.
Context {S : Type} `{EtcdLaws S} (env : S → S → Prop) (Henv : ∀ s s', env s s' → evolves s s').
Context (self : ControllerElection) (can_stop : bool) (lease : Z).

Definition held (s : S) : Prop := is_Some (keyspace s !! active_key self).

(** All conditions of an election are met. *)
Record ready (s : S) : Prop := {
  ready_vacant : keyspace s !! active_key self = None;
  ready_first : ∃ own, keyspace s !! candidate_key self = Some own ∧ kv_lease own = lease ∧
    ∀ key other, keyspace s !! key = Some other → starts_with (candidate_prefix self) key = true →
      (kv_create_revision own ≤ kv_create_revision other)%Z
}.

Lemma candidate_in_prefix : starts_with (candidate_prefix self) (candidate_key self) = true.
Proof.
  unfold candidate_prefix, candidate_key, controller_candidate_key.
  rewrite starts_with_namespaced. apply starts_with_app.
Qed.

(** The turn finds its own record, and no predecessor. *)
Lemma ready_candidate s :
  ready s →
  ∃ own, keyspace s !! candidate_key self = Some own ∧ kv_lease own = lease ∧
    List.find (λ kv, String.eqb (kv_key kv) (candidate_key self))
      (select_kvs (keyspace s) (candidate_prefix self) true) = Some own ∧
    predecessor_keys (select_kvs (keyspace s) (candidate_prefix self) true) own = [].
Proof.
  intros [_ (own & Hown & Hl & Hfirst)]. exists own. split_and!; [done|done| |].
  - destruct (kv_bounds s _ _ Hown) as (Hkey & _).
    destruct (List.find _ _) as [kv|] eqn:Hf.
    + apply List.find_some in Hf as [Hin Hk%String.eqb_eq]. apply list_elem_of_In, elem_of_select in Hin as [Hkv _].
      rewrite Hk in Hkv. congruence.
    + exfalso. pose proof (List.find_none _ _ Hf own) as Hno. cbn in Hno. rewrite Hkey, String.eqb_refl in Hno.
      discriminate Hno. apply list_elem_of_In, elem_of_select. rewrite Hkey. by split; [|apply candidate_in_prefix].
  - unfold predecessor_keys. destruct (List.filter _ _) as [|other l] eqn:Hf; [done|exfalso].
    assert (other ∈ List.filter (λ o, (kv_create_revision o <? kv_create_revision own)%Z)
      (select_kvs (keyspace s) (candidate_prefix self) true)) as Hin by (rewrite Hf; left).
    apply list_elem_of_In, List.filter_In in Hin as [Hin Hlt%Z.ltb_lt].
    apply list_elem_of_In, elem_of_select in Hin as [Hother Hp]. specialize (Hfirst _ _ Hother Hp). lia.
Qed.

Lemma candidate_compares s own :
  ready s → keyspace s !! candidate_key self = Some own → kv_lease own = lease →
  forallb (compare_holds (keyspace s)) (election_compares self own lease) = true.
Proof.
  intros [Hv _] Hown Hl. cbn. unfold kv_field. rewrite Hv, Hown, Hl.
  by rewrite !bool_decide_eq_true_2.
Qed.

Lemma elected_ready s0 s1 s2 own :
  ready s0 → same_view s0 s1 → keyspace s0 !! candidate_key self = Some own → kv_lease own = lease →
  effect_of (keyspace s1) (head s1) [TxnPut (active_key self) (ec_controller (el_config self)) lease]
    (keyspace s2) (head s2) →
  elected self lease s1 s2.
Proof.
  intros [Hv Hfirst] [Hk Hh] Hown Hl He. rewrite <-Hk in Hv, Hfirst.
  destruct (effect_create s1 s2 _ _ _ Hv He) as [Hh' Hk']. by split.
Qed.

(** The transaction takes effect, its answer is lost, and the turn is tried
    again. *)
Lemma lost_turn s :
  ready s → ∃ s1 s2, elected self lease s1 s2 ∧
    runs env (campaign_turn self can_stop lease) s [Committed s1 s2] s2 (inl tt).
Proof.
  intros Hready. destruct (ready_candidate s Hready) as (own & Hown & Hl & Hfind & Hpre).
  destruct (serve_total _ (Get (candidate_prefix self) true None) s I) as (a & s1 & Hget).
  pose proof (serve_documented _ _ _ _ _ Hget) as (Hk1 & Hh1 & Hhd & Hkvs). specialize (Hkvs eq_refl).
  destruct (serve_total _ (Transact (election_compares self own lease)
    [TxnPut (active_key self) (ec_controller (el_config self)) lease]) s1) as (b & s2 & Htxn).
  { apply Forall_singleton. right. rewrite Hk1. by exists (candidate_key self), own. }
  pose proof (serve_documented _ _ _ _ _ Htxn) as (_ & Hc & He).
  rewrite Hk1 in Hc. rewrite (candidate_compares s own Hready Hown Hl) in Hc. rewrite Hc in He.
  assert (elected self lease s1 s2) as Hel by (by eapply elected_ready).
  exists s1, s2. split; [done|].
  apply (runs_select env [false; true] _ false); [left|]. cbv iota.
  assert ([Committed s1 s2] = commit s s1 ++ commit s1 s2 ++ []) as ->
    by (by rewrite (commit_same s s1 Hh1), (commit_changed s1 s2 (elected_head _ _ _ _ Hel))).
  apply (runs_call env (Get (candidate_prefix self) true None) _ s a s1); [done|].
  rewrite Hkvs, Hfind, Hpre.
  apply (runs_call_lost env _ _ s1 b "" s2); [done|].
  apply (runs_select env _ _ Slept); [left|]. constructor.
Qed.

(** While somebody holds the active key, it stays so until the campaign ends. *)
Context (Hkeep : ∀ s s', env s s' → held s → held s').

Definition keeps_held (s s' : S) : Prop := evolves s s' ∧ (held s → held s').

#[local] Instance keeps_held_rely : Rely env keeps_held.
Proof.
  split.
  - split; [intros s; by split|]. intros s1 s2 s3 [He1 Hh1] [He2 Hh2]. split; [by etrans|by auto].
  - intros s s' He. split; [by apply Henv|by apply Hkeep].
  - intros s s' Hv. split; [by apply same_view_evolves|]. destruct Hv as [Hk _]. unfold held. by rewrite Hk.
  - by intros s s' [He _].
Qed.

Definition still_held (s' : S) (lr : unit + result (option Leadership) ElectionError) : Prop :=
  match lr with inl _ => held s' | inr r => ∀ leadership, r ≠ Ok (Some leadership) end.

Lemma held_wait strict s :
  held s → ensures env (campaign_wait can_stop strict lease) s (λ _ s' lr, still_held s' lr).
Proof.
  intros Hs. apply (ensures_select env keeps_held). intros [] s1 _ [_ Hs1].
  - apply (ensures_ret env keeps_held). intros s2 [_ Hs2]. by apply Hs2, Hs1.
  - destruct strict; apply holds_bind; intros tr s2 r _; apply holds_ret; intros s3 _; [|done].
    by destruct r.
  - by apply holds_ret.
Qed.

Lemma held_turn s :
  held s → ensures env (campaign_turn self can_stop lease) s (λ _ s' lr, still_held s' lr).
Proof.
  intros Hs. assert (∀ e s1, held s1 → ensures env (campaign_failed can_stop e lease) s1 (λ _ s' lr, still_held s' lr))
    as Hfailed by (intros e s1 Hs1; unfold campaign_failed; destruct (negb _); [by apply holds_ret|by apply held_wait]).
  apply (ensures_select env keeps_held). intros [|] s1 _ [_ Hs1]; [by apply holds_ret|].
  apply (ensures_read env keeps_held); [|intros text s2 [_ Hs2]; auto]. intros s2 [_ Hs2]. cbn [get_kvs].
  destruct (List.find _ _) as [candidate|]; [|by apply holds_ret].
  destruct (predecessor_keys _ _); [|by auto using held_wait].
  assert (∀ s3, keeps_held s2 s3 →
    forallb (compare_holds (keyspace s3)) (election_compares self candidate lease) ≠ true) as Hne.
  { intros s3 [_ Hs3] Hc. cbn in Hc. apply andb_prop in Hc as [Hv%bool_decide_eq_true_1%version_zero _].
    destruct (Hs3 (Hs2 (Hs1 Hs))) as [kv Hkv]. congruence. }
  apply (ensures_transact env keeps_held).
  - intros s3 s4 Hs3 Hc _. by destruct (Hne s3 Hs3).
  - intros s3 [_ Hs3] _. cbn [succeeded]. by auto using held_wait.
  - intros text s3 [_ Hs3]. auto.
  - intros text s3 s4 Hs3 Hc _. by destruct (Hne s3 Hs3).
Qed.

Lemma held_campaign s :
  held s → ensures env (campaign self can_stop lease) s (λ _ _ r, ∀ leadership, r ≠ Ok (Some leadership)).
Proof.
  intros Hs. apply (holds_iter _ _ _ _ (λ _ _ s, held s)); [done|].
  intros [] acc s1 Hs1. eapply holds_mono; [by apply held_turn|]. by intros tr s2 [].
Qed.
End lost_answer.

(** ** Relinquishing *)

Section relinquish_facts.
Context {S : Type} `{EtcdLaws S} (env rely : S → S → Prop) `{!Rely env rely}.
Context (self : Leadership).

Abbreviation lease := (authority_lease (authority self)).

(** Not a record of this leadership. *)
Definition released (key : string) (s : S) : Prop :=
  ∀ kv, keyspace s !! key = Some kv → kv_lease kv ≠ lease.

(** Only keys of this lease go, and nothing is written. *)
Definition owned_commit (o : observation S) : Prop :=
  match o with
  | Committed s1 s2 => keyspace s2 ⊆ keyspace s1 ∧
      ∀ key kv, keyspace s1 !! key = Some kv → keyspace s2 !! key = None → kv_lease kv = lease
  | _ => False
  end.

Lemma commits_election_call {A} (P : observation S → Prop) (c : request A) :
  commits env P (call c) → commits env P (election_call c).
Proof. intros Hc. apply commits_bind; [done|]. intros; apply commits_ret. Qed.

Lemma owned_delete key s a s' :
  serve (Transact [CompareLease key lease] [TxnDelete key]) s a s' → head s' ≠ head s → owned_commit (Committed s s').
Proof.
  intros (_ & Hc & He)%serve_documented Hh. destruct (succeeded a); [|by destruct He].
  cbn in Hc. rewrite andb_true_r in Hc. symmetry in Hc. apply bool_decide_eq_true_1 in Hc.
  unfold effect_of in He. destruct (existsb _ _); [|by destruct He]. destruct He as [_ He].
  cbn [foldl apply_op] in He. split; rewrite He; [apply delete_subseteq|]. intros k kv Hkv Hdel.
  destruct (decide (k = key)) as [->|Hne]; [unfold kv_field in Hc; by rewrite Hkv in Hc|].
  rewrite lookup_delete_ne in Hdel by done. congruence.
Qed.

Lemma owned_revoke s a s' : serve (LeaseRevoke lease) s a s' → owned_commit (Committed s s').
Proof.
  intros (_ & _ & Hsub & Hends)%serve_documented. split; [done|]. intros key kv Hkv Hnone.
  by destruct (Hends key kv Hkv Hnone).
Qed.

Lemma commits_delete_owned key : commits env owned_commit (delete_owned_election_key self key).
Proof.
  apply commits_try; [|intros; apply commits_ret]. apply commits_election_call, commits_call.
  apply owned_delete.
Qed.

Lemma commits_revoke_owned : commits env owned_commit (election_call (LeaseRevoke lease)).
Proof. apply commits_election_call, commits_call. intros s a s' Hs _. by eapply owned_revoke. Qed.

Lemma commits_delete_keys keys : commits env owned_commit (delete_owned_keys self keys).
Proof.
  induction keys as [|key keys IH]; [apply commits_ret|].
  apply commits_bind; [apply commits_delete_owned|]. intros _. apply IH.
Qed.

Lemma election_read {B} key (k : GetResponse → election_prog B) s
    (Q : list (observation S) → S → result B ElectionError → Prop) :
  (∀ s1, rely s s1 →
     ensures env (k (MkGetResponse (Some (head s1)) (select_kvs (keyspace s1) key false))) s1 Q) →
  (∀ text s', rely s s' → Q [] s' (Err (Coordination (Etcd text)))) →
  ensures env (let! x := election_call (Get key false None) in k x) s Q.
Proof.
  intros Hok Herr. apply holds_assoc. apply (ensures_read env rely).
  - intros s1 Hs1. apply ensures_bind_ret. by apply Hok.
  - intros text s1 Hs1. apply ensures_bind_ret. apply (ensures_ret env rely). intros s2 Hs2.
    apply Herr. by etrans.
Qed.

(** Nobody else attaches keys to the lease. *)
Context (Hquiet : ∀ s s' key, rely s s' → released key s → released key s').

Lemma remains_outcome keys remains s :
  ensures env (owned_record_remains self keys remains) s (λ tr s' r, tr = [] ∧
    (r = Ok false → remains = false ∧ ∀ key, key ∈ keys → released key s')).
Proof.
  revert remains s. induction keys as [|key keys IH]; intros remains s.
  - apply holds_ret. intros s1 _. split; [done|]. intros [= ->]. split; [done|]. by intros key ?%elem_of_nil.
  - apply election_read; [|done]. intros s1 _.
    eapply holds_mono; [apply (ensures_path env rely), IH|].
    intros tr s2 r [[-> Hr] Hpath]. split; [done|]. intros Hf. destruct (Hr Hf) as [Hrem Hkeys].
    cbn [get_kvs] in Hrem. apply orb_false_elim in Hrem as [Hrem Hown]. split; [done|].
    intros k [->|Hk]%elem_of_cons; [|by apply Hkeys].
    apply (Hquiet s1); [exact Hpath|]. intros kv Hkv. unfold select_kvs in Hown. rewrite Hkv in Hown.
    by apply Z.eqb_neq.
Qed.

Lemma confirm_outcome n s :
  ensures env (confirm_attempts self n) s (λ tr s' r, tr = [] ∧
    (r = Ok tt → ∀ key, key ∈ election_keys self → released key s')).
Proof.
  revert s. induction n as [|n IH]; intros s; [by apply holds_ret|].
  apply holds_bind. eapply holds_mono; [apply remains_outcome|]. intros tr s1 r [-> Hr].
  destruct r as [[|]|e]; [apply IH| |by apply holds_ret]. apply (ensures_ret env rely). intros s2 Hs2.
  split; [done|]. intros _ key Hkey. eapply Hquiet; [done|]. by apply Hr.
Qed.

Lemma relinquish_outcome s :
  ensures env (relinquish self) s (λ tr s' r, Forall owned_commit tr ∧
    (r = Ok tt → ∀ key, key ∈ election_keys self → released key s')).
Proof.
  apply holds_bind. eapply holds_mono; [apply commits_delete_keys|]. intros tr s1 [] Htr.
  apply holds_bind. eapply holds_mono; [apply commits_revoke_owned|]. intros tr' s2 r Htr'.
  destruct r as [[]|e].
  - eapply holds_mono; [apply confirm_outcome|]. intros ? s3 r [-> Hr]. rewrite app_nil_r.
    split; [by apply Forall_app|done].
  - apply holds_ret. intros s3 _. rewrite app_nil_r. split; [by apply Forall_app|done].
Qed.
End relinquish_facts.

(** ** Fenced writes *)

Section owned_facts.
Context {S : Type} `{EtcdLaws S} (env rely : S → S → Prop) `{!Rely env rely}.
Context (backend : EtcdCoordination) (self : ControllerAuthority).

(** The active key names the controller and its lease. *)
Definition in_charge (ks : keyspace_t) : Prop :=
  ∃ kv, ks !! controller_active_key backend = Some kv ∧
    kv_value kv = authority_controller self ∧ kv_lease kv = authority_lease self.

Lemma in_charge_compares ks :
  forallb (compare_holds ks)
    [ CompareValue (controller_active_key backend) (authority_controller self);
      CompareLease (controller_active_key backend) (authority_lease self) ] = true ↔ in_charge ks.
Proof.
  cbn. rewrite andb_true_r. unfold in_charge, kv_field.
  destruct (ks !! controller_active_key backend) as [kv|]; cbn.
  - rewrite andb_true_iff, !bool_decide_eq_true. split; [intros [[= ?] ?]; eauto|].
    intros (? & [= <-] & -> & ->). done.
  - split; [done|]. by intros (kv & ? & _).
Qed.

(** The value is written, with the marker when it is input of the controller. *)
Record owned_step (key value : string) (s1 s2 : S) : Prop := {
  owned_charge : in_charge (keyspace s1);
  owned_write : metadata_step backend key value s1 s2
}.

Lemma owned_effect key value (s1 s2 : S) :
  in_charge (keyspace s1) →
  effect_of (keyspace s1) (head s1)
    (with_marker backend key (TxnPut (metadata_key backend key) value 0)) (keyspace s2) (head s2) →
  owned_step key value s1 s2.
Proof. intros Hin He. split; [done|by apply metadata_effect in He]. Qed.

Definition owned_outcome (key value : string) (s : S) (tr : list (observation S)) (s' : S)
    (r : result Revision CoordinationError) : Prop :=
  match r with
  | Ok revision => once rely (λ s1 s2, owned_step key value s1 s2 ∧ revision = MkRevision (head s2)) s tr
  | Err StaleController => tr = [] ∧
      (authority_namespace self ≠ prefix backend ∨ ∃ s1, rely s s1 ∧ ¬ in_charge (keyspace s1))
  | Err (Etcd _) => tr = [] ∨ once rely (owned_step key value) s tr
  | Err _ => False
  end.

Lemma put_owned_outcome key value s :
  ensures env (put_controller_owned backend self key value) s (owned_outcome key value s).
Proof.
  unfold put_controller_owned. destruct (String.eqb _ _) eqn:Hns; cbn [negb].
  2:{ apply holds_ret. intros s1 _. split; [done|]. left. by apply String.eqb_neq. }
  assert (∀ s1 s2, forallb (compare_holds (keyspace s1))
      [ CompareValue (controller_active_key backend) (authority_controller self);
        CompareLease (controller_active_key backend) (authority_lease self) ] = true →
    effect_of (keyspace s1) (head s1)
      (with_marker backend key (TxnPut (metadata_key backend key) value 0)) (keyspace s2) (head s2) →
    commit s1 s2 = [Committed s1 s2] ∧ owned_step key value s1 s2) as Hstep.
  { intros s1 s2 Hc%in_charge_compares He. pose proof (owned_effect key value s1 s2 Hc He) as Ho.
    split; [|done]. by apply commit_changed, (owned_write _ _ _ _ Ho). }
  apply (ensures_txn env rely).
  - intros s1 s2 Hs1 Hc He. destruct (Hstep s1 s2 Hc He) as [-> Ho].
    cbn [txn_header succeeded negb]. rewrite revision_of_head. apply holds_ret.
    intros s3 _. exists s1, s2. done.
  - intros s1 Hs1 Hc. apply holds_ret. intros s2 _. split; [done|]. right. exists s1. split; [done|].
    intros Hin%in_charge_compares. by rewrite Hin in Hc.
  - intros text s1 _. by left.
  - intros text s1 s2 s3 Hs1 Hc He Hs3. destruct (Hstep s1 s2 Hc He) as [-> Ho]. right. by exists s1, s2.
Qed.
End owned_facts.

(** ** Time *)

(** [(seconds * 1000 - 999 .. seconds * 1000)] are the milliseconds of a number of
    seconds. *)
Lemma lease_seconds_exact ttl_ms seconds :
  lease_seconds ttl_ms = Ok seconds ↔
  (ttl_ms + 999 ≤ u64_MAX)%N ∧ (0 < seconds)%Z ∧
  (1000 * (seconds - 1) < Z.of_N ttl_ms ≤ 1000 * seconds)%Z.
Proof.
  unfold lease_seconds, checked_add_u64. destruct (N.leb_spec (ttl_ms + 999) u64_MAX) as [Hle|Hgt].
  2:{ split; [done|]. intros [? _]. lia. }
  pose proof (N.div_mod (ttl_ms + 999) 1000 ltac:(done)) as Hdiv.
  pose proof (N.mod_lt (ttl_ms + 999) 1000 ltac:(done)) as Hmod.
  set (q := ((ttl_ms + 999) / 1000)%N) in *. set (m := ((ttl_ms + 999) mod 1000)%N) in *.
  assert (Z.to_N i64_MAX <? q = false)%N as Hbound.
  { apply N.ltb_ge. unfold u64_MAX in Hle. change (Z.to_N i64_MAX) with 9223372036854775807%N. lia. }
  rewrite Hbound, orb_false_r. destruct (N.eqb_spec q 0) as [Hq|Hq].
  - split; [done|]. intros (_ & Hs & Hb). lia.
  - split; [intros [= <-]; lia|]. intros (_ & Hs & Hb). f_equal. lia.
Qed.

(** The task, from the last success and the time of the next turn, over the
    turns it takes. *)
Fixpoint keepalive_task (ttl last due : N) (turns : list (keepalive_answer * N)) : option (N * N) :=
  match turns with
  | [] => Some (last, due)
  | (answer, latency) :: turns =>
      '(last, delay) ← keepalive_turn ttl last due answer (due + latency);
      keepalive_task ttl last (due + latency + delay) turns
  end.

(** When a turn decides: on waking up, or after its request. *)
Definition decided_at (ttl last due latency : N) : N :=
  if (ttl <=? due - last)%N then due else due + latency.

Lemma keepalive_turn_due ttl last due answer latency last' delay :
  (0 < ttl)%N → keepalive_turn ttl last due answer (due + latency) = Some (last', delay) →
  (due + latency + delay < last' + ttl + keepalive_retry_delay)%N.
Proof.
  unfold keepalive_turn. intros Httl. destruct (N.leb_spec ttl (due - last)); [done|].
  destruct answer as [t|].
  - destruct (_ <? _)%Z; [|done]. intros [= <- <-]. unfold keepalive_interval, keepalive_retry_delay, millis.
    pose proof (N.div_le_upper_bound ttl 3 ttl ltac:(done) ltac:(lia)).
    assert (ttl / 3 < ttl)%N by (apply N.div_lt; lia). lia.
  - destruct (N.ltb_spec (due + latency - last) ttl); [|done]. intros [= <- <-].
    unfold keepalive_retry_delay, millis. lia.
Qed.

Lemma keepalive_task_due ttl last due turns last' due' :
  (0 < ttl)%N → (due < last + ttl + keepalive_retry_delay)%N →
  keepalive_task ttl last due turns = Some (last', due') →
  (due' < last' + ttl + keepalive_retry_delay)%N.
Proof.
  intros Httl. revert last due. induction turns as [|[answer latency] turns IH]; intros last due Hdue.
  - by intros [= <- <-].
  - cbn [keepalive_task]. destruct (keepalive_turn _ _ _ _ _) as [[last1 delay]|] eqn:Hturn; [|done].
    apply IH. by eapply keepalive_turn_due.
Qed.

(** * Theorems *)

(** C4: leadership is safe and first come, first served.  Whatever the other
    clients do and whichever requests fail, all that a campaign commits is its
    candidate record where there was none, the end of its lease, and its
    election; and when it returns a leadership, its last commit is an election
    under a granted lease: at that revision nobody held the active key, its own
    candidate record was attached to its lease, no candidate record was older,
    and the transaction did nothing but put its identifier under its lease. *)
Theorem acquire_elects {S : Type} `{EtcdLaws S} env self can_stop (s : S) tr s' r :
  (∀ s s', env s s' → evolves s s') →
  runs env (acquire_until self can_stop) s tr s' r →
  Forall (campaign_commit self) tr ∧
  ∀ leadership, r = Ok (Some leadership) →
    ∃ lease tr0 s1 s2, lease ≠ 0%Z ∧ leadership = elected_leadership self lease ∧
      tr = tr0 ++ [Committed s1 s2] ∧ elected self lease s1 s2 ∧ evolves s2 s'.
Proof.
  intros Henv Hrun. pose proof (evolves_rely env Henv).
  destruct (acquire_until_outcome env evolves self can_stop s tr s' r Hrun) as [Htr Hr].
  split; [done|]. intros l Hl. destruct (Hr l Hl) as (lease & Hne & -> & tr0 & s1 & s2 & -> & Hel & Hs).
  by exists lease, tr0, s1, s2.
Qed.

(** C27: an election whose answer is lost blocks the controller plane.  When a
    candidate is due, there is an execution of a turn of its campaign in which
    the transaction elects it but the answer does not arrive, and the turn is
    tried again; and from every store in which the active key is held, its own
    included, no execution of the campaign returns a leadership while the others
    leave that key alone.  The campaign's own keepalive keeps the key, so the
    controller neither acts nor lets another one act. *)
Theorem lost_answer_blocks {S : Type} `{EtcdLaws S} env self can_stop lease (s : S) :
  (∀ s s', env s s' → evolves s s') →
  (∀ s s', env s s' → held self s → held self s') →
  ready self lease s →
  ∃ s1 s2, elected self lease s1 s2 ∧ held self s2 ∧
    runs env (campaign_turn self can_stop lease) s [Committed s1 s2] s2 (inl tt) ∧
    ∀ tr s' r leadership, runs env (campaign self can_stop lease) s2 tr s' r → r ≠ Ok (Some leadership).
Proof.
  intros Henv Hkeep Hready. destruct (lost_turn env self can_stop lease s Hready) as (s1 & s2 & Hel & Hrun).
  assert (held self s2) as Hheld.
  { unfold held. rewrite (elected_active _ _ _ _ Hel), lookup_insert_eq. by eexists. }
  exists s1, s2. split_and!; [done|done|done|]. intros tr s' r l Hx.
  by apply (held_campaign env Henv self can_stop lease Hkeep s2 Hheld tr s' r Hx).
Qed.

(** Relinquishing takes away the own records only.  Every commit of
    [relinquish] only removes keys attached to the lease of this leadership, so a
    late call never deletes the record of a successor; and when it reports
    success, neither the candidate record nor the active key is attached to this
    lease any more, as long as nobody else attaches keys to it. *)
Theorem relinquish_releases {S : Type} `{EtcdLaws S} env self (s : S) tr s' r :
  (∀ s s', env s s' → evolves s s') →
  (∀ s s' key, env s s' → released self key s → released self key s') →
  runs env (relinquish self) s tr s' r →
  Forall (owned_commit self) tr ∧
  (r = Ok tt → ∀ key, key ∈ election_keys self → released self key s').
Proof.
  intros Henv Hquiet Hrun.
  set (rely := λ s s' : S, evolves s s' ∧ ∀ key, released self key s → released self key s').
  assert (Rely env rely) as Hrely.
  { split.
    - split; [intros s1; by split|]. intros s1 s2 s3 [He1 Hq1] [He2 Hq2].
      split; [by etrans|]. intros key Hk. by apply Hq2, Hq1.
    - intros s1 s2 He. split; [by apply Henv|]. intros key. by apply Hquiet.
    - intros s1 s2 Hv. split; [by apply same_view_evolves|]. destruct Hv as [Hk _].
      unfold released. intros key. by rewrite Hk.
    - by intros s1 s2 [He _]. }
  refine (relinquish_outcome env rely self _ s tr s' r Hrun). intros s1 s2 key [_ Hq]. apply Hq.
Qed.

(** C28: the times of an election.  A TTL in milliseconds is accepted when it is
    positive and can be rounded up within 64 bits, and becomes the least number
    of seconds that holds it.  A keepalive task for that lease that has not raised
    the lost flag has its next turn due less than the TTL and 100 ms after its
    last success; when a request takes no longer than its timeout, that turn
    decides less than the TTL and 500 ms after it; and a turn without an answer
    raises the flag exactly when it decides a TTL or more after it. *)
Theorem election_timing ttl_ms seconds start turns last due latency :
  lease_seconds ttl_ms = Ok seconds →
  let ttl := millis (1000 * Z.to_N seconds) in
  keepalive_task ttl start start turns = Some (last, due) →
  (latency ≤ keepalive_attempt_timeout ttl)%N →
  (1000 * (seconds - 1) < Z.of_N ttl_ms ≤ 1000 * seconds)%Z ∧
  (due < last + ttl + millis 100)%N ∧
  (decided_at ttl last due latency < last + ttl + millis 500)%N ∧
  (keepalive_turn ttl last due KeepaliveFailed (due + latency) = None ↔
   last + ttl ≤ decided_at ttl last due latency)%N.
Proof.
  intros (_ & Hpos & Hround)%lease_seconds_exact ttl Htask Hlat.
  assert (0 < ttl)%N as Httl by (unfold ttl, millis; lia).
  apply keepalive_task_due in Htask; [|done|unfold keepalive_retry_delay, millis; lia].
  unfold keepalive_attempt_timeout, decided_at, keepalive_turn, keepalive_retry_delay, millis in *.
  split_and!; [lia|lia|lia| |].
  - destruct (N.leb_spec ttl (due - last)); lia.
  - destruct (N.leb_spec ttl (due - last)); [split; [lia|done]|].
    destruct (N.ltb_spec (due + latency - last) ttl); (split; [done || lia|done || lia]).
Qed.

(** ** A campaign on an empty store *)

Definition ex_election : ControllerElection :=
  MkControllerElection ex_backend (MkElectionConfig "demo" "controller-b" 1500).

Definition ex_campaign : election_prog (option Leadership) := acquire_until ex_election true.

Definition ex_vacant : mem_store := MkMem ∅ 1 1.

Lemma ex_campaign_result :
  snd <$> run_mem 60 ex_campaign ex_vacant = Some (Ok (Some (elected_leadership ex_election 1))).
Proof. vm_compute. reflexivity. Qed.

Lemma acquire_elects_witness :
  ∃ lease (m1 m2 : mem_store), lease ≠ 0%Z ∧ elected ex_election lease m1 m2.
Proof.
  pose proof ex_campaign_result as Hres.
  destruct (run_mem 60 ex_campaign ex_vacant) as [[[tr m'] r]|] eqn:Hrun; [|discriminate Hres].
  injection Hres as ->. apply run_mem_sound in Hrun.
  destruct (acquire_elects alone ex_election true ex_vacant tr m' _ alone_evolves Hrun) as [_ Hr].
  destruct (Hr _ eq_refl) as (lease & tr0 & m1 & m2 & Hne & _ & _ & Hel & _).
  exists lease, m1, m2. split; [exact Hne|exact Hel].
Defined.

(** Controller b is a candidate under lease 1. *)
Definition ex_candidate : mem_store :=
  mem_effect ex_vacant [TxnPut (candidate_key ex_election) "controller-b" 1].

Definition ex_candidate_kv : KeyValue :=
  MkKeyValue (candidate_key ex_election) "controller-b" 2 2 1 1.

Lemma ex_candidate_keys : keyspace ex_candidate = {[candidate_key ex_election := ex_candidate_kv]}.
Proof. vm_compute. reflexivity. Qed.

Lemma ex_ready : ready ex_election 1 ex_candidate.
Proof.
  split; rewrite ex_candidate_keys.
  - apply lookup_singleton_None. distinct_keys.
  - exists ex_candidate_kv. split_and!; [apply lookup_singleton_eq|done|].
    intros key other [_ <-]%lookup_singleton_Some _. done.
Qed.

Lemma lost_answer_blocks_witness :
  ∃ m1 m2 : mem_store, elected ex_election 1 m1 m2 ∧
    runs alone (campaign_turn ex_election true 1) ex_candidate [Committed m1 m2] m2 (inl tt).
Proof.
  destruct (lost_answer_blocks alone ex_election true 1 ex_candidate alone_evolves
    (λ s s' (F : alone s s'), False_ind _ F) ex_ready) as (m1 & m2 & Hel & _ & Hrun & _).
  exists m1, m2. split; [exact Hel|exact Hrun].
Defined.

(** Controller a gives up the leadership of [ex_store]. *)
Definition ex_leadership : Leadership :=
  MkLeadership (MkControllerAuthority "/clustodian" "controller-a" 7) ex_backend.

Lemma ex_relinquish_result : snd <$> run_mem 40 (relinquish ex_leadership) ex_store = Some (Ok tt).
Proof. vm_compute. reflexivity. Qed.

Lemma relinquish_releases_witness :
  ∃ m' : mem_store, released ex_leadership (controller_active_key ex_backend) m'.
Proof.
  pose proof ex_relinquish_result as Hres.
  destruct (run_mem 40 (relinquish ex_leadership) ex_store) as [[[tr m'] r]|] eqn:Hrun; [|discriminate Hres].
  injection Hres as ->. apply run_mem_sound in Hrun. exists m'.
  refine (proj2 (relinquish_releases alone ex_leadership ex_store tr m' (Ok tt) alone_evolves
    (λ s s' key (F : alone s s'), False_ind _ F) Hrun) eq_refl _ _). right. left.
Defined.

Lemma election_timing_witness :
  (keepalive_turn (millis 2000) (millis 40) (millis 1940) KeepaliveFailed (millis 1940 + millis 200) = None).
Proof.
  apply (election_timing 1500 2 0
    [(KeepaliveTtl 2, millis 40); (KeepaliveFailed, millis 500); (KeepaliveFailed, millis 133); (KeepaliveFailed, 300333334%N)]
    (millis 40) (millis 1940) (millis 200)); vm_compute; (reflexivity || discriminate).
Defined.
