(* ===== verification/Writers.v ===== *)
(** * All writers keep the input marker honest

    The discipline of InputMarker, for every operation of the coordination layer
    that writes: metadata, publication, sessions and the queue.  The reconcile
    loop relies on it of all other clients. *)

From S2P Require Import Prelude Identity StateMaps Transitions Keys Snapshot.
From S2P Require Import Etcd Metadata InputMarker SessionStore Queue Election.

Section writers.
Context {S : Type} `{EtcdLaws S} (backend : EtcdCoordination) (Hbackend : backend_ok backend).

Abbreviation keeps := (keeps_marker (S := S) backend).

(** ** Reads *)

Lemma keeps_value {A} (r : result A CoordinationError) : keeps (Ret r).
Proof. apply keeps_ret. Qed.

Lemma keeps_raw_snapshot key p : keeps (raw_snapshot key p None).
Proof.
  apply keeps_get. intros a. destruct (get_header a) as [h|]; [|apply keeps_ret].
  destruct (Revision_new h); apply keeps_ret.
Qed.

Lemma keeps_get_metadata key : keeps (get_metadata backend key).
Proof.
  apply keeps_try; [apply keeps_raw_snapshot|]. intros [r [|kv kvs]]; [apply keeps_ret|]. cbn [snd].
  destruct (utf8_value _); [|apply keeps_ret]. destruct (Revision_new _); apply keeps_ret.
Qed.

Lemma keeps_live_session i : keeps (live_session backend i).
Proof.
  apply keeps_get. intros a. destruct (get_kvs a) as [|kv kvs]; [apply keeps_ret|].
  destruct (map_err _ _); apply keeps_ret.
Qed.

Lemma keeps_snapshot : keeps (controller_snapshot backend).
Proof. apply keeps_try; [apply keeps_raw_snapshot|]. intros a. apply keeps_ret. Qed.

(** ** Sessions *)

Lemma keeps_revoke lease : keeps (call (LeaseRevoke lease)).
Proof. apply keeps_call. intros s a s'. apply serve_revoke_disciplined. Qed.

Lemma sequence_not_input : input_key backend (sequence_key backend) = false.
Proof.
  unfold input_key, sequence_key. by rewrite (parse_namespaced_key backend Hbackend).
Qed.

Lemma keeps_allocate n : keeps (allocate_attempts backend n).
Proof.
  induction n as [|n IH]; [apply keeps_ret|]. cbn [allocate_attempts]. apply keeps_get. intros a.
  destruct (match get_kvs a with [] => _ | _ :: _ => _ end) as [old|]; [|apply keeps_ret].
  destruct (checked_add_u64 old.1 1); [|apply keeps_ret]. cbv zeta. apply keeps_txn.
  - right. intros op ->%list_elem_of_singleton. right. apply sequence_not_input.
  - intros response. by destruct (succeeded response); [apply keeps_ret|].
Qed.

Lemma marker_last ops : ops_disciplined backend (ops ++ [authoritative_input_marker_operation backend]).
Proof. apply marker_disciplined. apply elem_of_app. right. left. Qed.

Lemma keeps_register i options : keeps (register backend i options).
Proof.
  apply keeps_try; [apply keeps_try; [apply keeps_raw_snapshot|intros; apply keeps_ret]|]. intros previous.
  apply keeps_try; [apply keeps_allocate|]. intros session.
  apply keeps_try.
  { destruct previous as [p|]; [|apply keeps_ret]. apply keeps_try; [apply keeps_raw_snapshot|].
    intros snapshot. apply keeps_ret. }
  intros carried. apply keeps_try; [apply keeps_call; intros s a s'; apply serve_grant_disciplined|].
  intros lease. apply keeps_txn.
  { unfold registration_operations. rewrite app_assoc. apply marker_last. }
  intros response. destruct (succeeded response).
  - destruct (revision_from_header _); apply keeps_ret.
  - apply keeps_try; [apply keeps_revoke|]. intros _. apply keeps_ret.
Qed.

Lemma keeps_publish_state i n r states : keeps (publish_current_state backend i n r states).
Proof.
  apply keeps_txn; [apply marker_last|]. intros response. destruct (succeeded response); apply keeps_ret.
Qed.

Lemma keeps_revoke_live i n : keeps (revoke_live backend i n).
Proof.
  apply keeps_get. intros a. destruct (get_kvs a) as [|kv kvs]; [apply keeps_ret|].
  destruct (parse_session _); [|apply keeps_ret]. destruct (negb _); [apply keeps_ret|].
  apply keeps_txn; [apply (marker_last [_])|]. intros response. destruct (negb _); [apply keeps_ret|].
  apply keeps_try; [destruct (_ =? 0)%Z; [apply keeps_ret|apply keeps_revoke]|]. intros _. apply keeps_ret.
Qed.

Lemma keeps_inject_state i n r states : keeps (inject_session_current_state backend i n r states).
Proof.
  apply keeps_get. intros a. destruct (get_kvs a); [apply keeps_ret|].
  apply keeps_txn; [apply marker_last|]. intros response. apply keeps_ret.
Qed.

Lemma keeps_remove_states resource : keeps (remove_current_states_for_resource backend resource).
Proof.
  apply keeps_try; [apply keeps_raw_snapshot|]. intros snapshot. cbv zeta.
  apply keeps_try; [|intros; apply keeps_ret]. generalize (@None Revision).
  induction (chunks_of _ _ _) as [|[|key keys] batches IH]; intros revision; [apply keeps_ret|apply IH|].
  apply keeps_txn; [apply marker_last|]. intros response. destruct (revision_from_header _); [apply IH|apply keeps_ret].
Qed.

(** ** The queue *)

Context (codec : QueueCodec).

Lemma keeps_inject_message n message : keeps (inject_attempts codec backend n message).
Proof.
  induction n as [|n IH]; [apply keeps_ret|]. cbn [inject_attempts].
  apply keeps_try; [apply keeps_get_metadata|]. intros entry. apply keeps_try.
  { destruct entry as [entry|]; [destruct (parse_pending_messages _ _); apply keeps_ret|].
    apply keeps_try; [apply keeps_snapshot|]. intros; apply keeps_ret. }
  intros [[expected messages] [|]]; (destruct (existsb _ _); [apply keeps_ret|]);
    (destruct (encode_messages _ _); [|apply keeps_ret]); apply keeps_try.
  - apply keeps_try; [by apply keeps_cas|]. intros; apply keeps_ret.
  - intros [|]; [|done]. apply keeps_try; [apply keeps_get_metadata|]. intros [|]; apply keeps_ret.
  - by apply keeps_put_absent.
  - intros [|]; [|done]. apply keeps_try; [apply keeps_get_metadata|]. intros [|]; apply keeps_ret.
Qed.

Lemma keeps_claim attempts i n message : keeps (claim_attempts codec backend attempts i n message).
Proof.
  induction attempts as [|attempts IH]; [apply keeps_ret|]. cbn [claim_attempts].
  apply keeps_try; [apply keeps_get_metadata|]. intros [entry|]; [|apply keeps_ret].
  destruct (parse_pending_messages _ _); [|apply keeps_ret]. destruct (negb _); [apply keeps_ret|].
  destruct (match entry_value entry with Some _ => _ | None => _ end); [|apply keeps_ret].
  apply keeps_txn; [right; by intros op Hop%elem_of_nil|]. intros response.
  destruct (succeeded response); [apply keeps_ret|].
  apply keeps_try; [apply keeps_live_session|]. intros live. by destruct (negb _); [apply keeps_ret|].
Qed.

Lemma keeps_complete fence message resulting :
  keeps (complete_pending_transition_with_fence codec backend fence message resulting).
Proof.
  unfold complete_pending_transition_with_fence. destruct (map_err _ _) as [resource|]; [|apply keeps_ret].
  destruct (map_err _ _) as [partition|]; [|apply keeps_ret].
  apply keeps_try; [apply keeps_get_metadata|]. intros [entry|]; [|apply keeps_ret].
  destruct (parse_pending_messages _ _); [|apply keeps_ret]. destruct (position _ _); [|apply keeps_ret].
  destruct (negb _); [apply keeps_ret|]. destruct (negb _); [apply keeps_ret|].
  destruct (encode_messages _ _); [|apply keeps_ret]. apply keeps_txn; [apply (marker_last [_; _])|].
  intros response. destruct (succeeded response); [destruct (revision_from_header _); apply keeps_ret|].
  apply keeps_try; [apply keeps_live_session|]. intros live. destruct (bool_decide _); [apply keeps_ret|].
  apply keeps_try; [apply keeps_get_metadata|]. intros [latest|]; [|apply keeps_ret].
  destruct (parse_pending_messages _ _); [|apply keeps_ret]. cbv zeta. destruct (_ =? _)%nat; [apply keeps_ret|].
  destruct (negb _); [apply keeps_ret|]. destruct (encode_messages _ _); [|apply keeps_ret].
  apply keeps_try; [by apply keeps_cas|]. intros; apply keeps_ret.
Qed.

Lemma keeps_remove_message revision id : keeps (remove_pending_transition codec backend revision id).
Proof.
  apply keeps_try; [apply keeps_get_metadata|]. intros [entry|]; [|apply keeps_ret].
  destruct (parse_pending_messages _ _); [|apply keeps_ret]. cbv zeta. destruct (_ =? _)%nat; [apply keeps_ret|].
  destruct (negb _); [apply keeps_ret|]. destruct (encode_messages _ _); [|apply keeps_ret].
  apply keeps_try; [by apply keeps_cas|]. intros result. destruct (applied result); apply keeps_ret.
Qed.

Lemma keeps_remove_messages n resource : keeps (remove_attempts codec backend n resource).
Proof.
  induction n as [|n IH]; [apply keeps_ret|]. cbn [remove_attempts].
  apply keeps_try; [apply keeps_get_metadata|]. intros [entry|]; [|apply keeps_ret].
  destruct (parse_pending_messages _ _); [|apply keeps_ret]. cbv zeta. destruct (_ =? _)%nat; [apply keeps_ret|].
  destruct (encode_messages _ _); [|apply keeps_ret].
  apply keeps_try; [by apply keeps_cas|]. intros result. by destruct (applied result); [apply keeps_ret|].
Qed.

Lemma keeps_advance n key revision :
  utf8_valid key = true → keeps (advance_attempts backend n key revision).
Proof.
  intros Hutf. induction n as [|n IH]; [apply keeps_ret|]. cbn [advance_attempts]. cbv zeta.
  apply keeps_try; [apply keeps_get_metadata|]. intros [entry|].
  - destruct (match entry_value entry with Some _ => _ | None => _ end); [|apply keeps_ret].
    destruct (match parse_i64 _ with Some _ => _ | None => _ end); [|apply keeps_ret].
    destruct (Revision_new _); [|apply keeps_ret]. destruct (_ <=? _)%Z; [apply keeps_ret|].
    apply keeps_try; [by apply keeps_cas|]. intros result. by destruct (applied result); [apply keeps_ret|].
  - apply keeps_try; [by apply keeps_put_absent|]. by intros [|]; [apply keeps_ret|].
Qed.

(** ** The election *)

Lemma keeps_iter {A I} (f : I → itree coordE (I + A)) i : (∀ i, keeps (f i)) → keeps (ITree.iter f i).
Proof. intros Hf env Henv. apply commits_iter. intros j. by apply Hf. Qed.

Lemma keeps_select {A} (branches : list A) : keeps (select branches).
Proof. intros env _. apply commits_select. Qed.

Lemma election_not_input suffix :
  input_key backend (namespaced_key backend ("controller/election/" +:+ suffix)) = false.
Proof.
  unfold input_key. set (relative := "controller/election/" +:+ suffix).
  assert (starts_with "controller/election/" relative = true) as Hel by apply starts_with_app.
  destruct (utf8_valid relative) eqn:Hutf.
  - rewrite (parse_namespaced_key backend Hbackend relative Hutf). unfold is_authoritative_key.
    by rewrite Hel, !andb_false_r.
  - unfold parse_relative_key, namespaced_key.
    by rewrite utf8_valid_app, (utf8_valid_app "/"), Hutf by done.
Qed.

Lemma keeps_election_txn when op suffix :
  op_key op = namespaced_key backend ("controller/election/" +:+ suffix) →
  keeps (call (Transact when [op])).
Proof.
  intros Hop. apply keeps_call. intros s a s'. apply serve_txn_disciplined. right.
  intros op' ->%list_elem_of_singleton. right. rewrite Hop. apply election_not_input.
Qed.

Context (self : ControllerElection) (Hself : el_coordination self = backend) (can_stop : bool).

Lemma keeps_race {A} (c : request A) : keeps (call c) → keeps (race can_stop c).
Proof.
  intros Hc. apply keeps_bind; [apply keeps_select|].
  intros []; [|apply keeps_ret|]; (apply keeps_bind; [done|]; intros; apply keeps_ret).
Qed.

Lemma keeps_revoke_quietly lease : keeps (revoke_quietly lease).
Proof. apply keeps_bind; [apply keeps_revoke|]. intros; apply keeps_ret. Qed.

Lemma keeps_grant seconds : keeps (call (LeaseGrant seconds)).
Proof. apply keeps_call. intros s a s'. apply serve_grant_disciplined. Qed.

Lemma keeps_wait strict lease : keeps (campaign_wait can_stop strict lease).
Proof.
  apply keeps_bind; [apply keeps_select|]. intros []; [apply keeps_ret| |apply keeps_ret].
  destruct strict; (apply keeps_bind; [|intros; apply keeps_ret]); [|apply keeps_revoke_quietly].
  apply keeps_bind; [apply keeps_revoke|]. intros; apply keeps_ret.
Qed.

Lemma keeps_campaign_turn lease : keeps (campaign_turn self can_stop lease).
Proof.
  assert (∀ e, keeps (campaign_failed can_stop e lease)) as Hfailed
    by (intros e; unfold campaign_failed; destruct (negb _); [apply keeps_ret|apply keeps_wait]).
  apply keeps_bind; [apply keeps_select|]. intros [|]; [apply keeps_ret|].
  apply keeps_bind; [apply keeps_call; apply serve_get_disciplined|]. intros [response|e]; [|apply Hfailed].
  destruct (List.find _ _) as [candidate|]; [|apply keeps_ret].
  destruct (predecessor_keys _ _); [|apply keeps_wait]. apply keeps_bind.
  - apply (keeps_election_txn _ _ "active"). cbn. by rewrite <-Hself.
  - intros [answer|e]; [|apply Hfailed]. destruct (succeeded answer); [apply keeps_ret|apply keeps_wait].
Qed.

Lemma keeps_candidate_turn lease : keeps (candidate_turn self can_stop lease).
Proof.
  apply keeps_bind.
  { apply keeps_race, (keeps_election_txn _ _ ("candidates/" +:+ encode_segment (ec_controller (el_config self)))).
    cbn. unfold candidate_key. by rewrite Hself. }
  intros [[response|e]|]; [apply keeps_ret| |]; [destruct (negb _); [apply keeps_ret|]|].
  - apply keeps_bind; [apply keeps_select|]. intros []; [apply keeps_ret| |apply keeps_ret].
    apply keeps_bind; [apply keeps_revoke_quietly|]. intros; apply keeps_ret.
  - apply keeps_bind; [apply keeps_revoke_quietly|]. intros; apply keeps_ret.
Qed.

Lemma keeps_acquire : keeps (acquire_until self can_stop).
Proof.
  apply keeps_iter. intros _. unfold acquire_turn. destruct (lease_seconds _); [|apply keeps_ret].
  apply keeps_bind.
  { apply keeps_iter. intros _. apply keeps_bind; [apply keeps_race, keeps_grant|].
    intros [[lease|e]|]; [apply keeps_ret| |apply keeps_ret]. destruct (election_is_transient _); [|apply keeps_ret].
    apply keeps_bind; [apply keeps_select|]. intros []; apply keeps_ret. }
  intros [[lease|]|e]; [|apply keeps_ret..].
  apply keeps_bind; [apply keeps_iter; intros; apply keeps_candidate_turn|].
  intros [[response|]|e]; [|apply keeps_ret..]. destruct (negb _).
  - apply keeps_bind; [apply keeps_revoke_quietly|]. intros _. apply keeps_bind; [apply keeps_select|].
    intros []; apply keeps_ret.
  - apply keeps_bind; [|intros; apply keeps_ret]. apply keeps_iter. intros _. apply keeps_campaign_turn.
Qed.

Lemma keeps_relinquish leadership : ls_coordination leadership = backend → keeps (relinquish leadership).
Proof.
  intros Hl. apply keeps_bind.
  { assert (∀ key suffix, key = namespaced_key backend ("controller/election/" +:+ suffix) →
      keeps (delete_owned_election_key leadership key)) as Hdel.
    { intros key suffix ->. apply keeps_bind; [|intros []; apply keeps_ret].
      apply keeps_bind; [|intros; apply keeps_ret]. by apply (keeps_election_txn _ _ suffix). }
    unfold election_keys. rewrite Hl. apply keeps_bind; [by eapply (Hdel _ ("candidates/" +:+ _))|].
    intros _. apply keeps_bind; [by apply (Hdel _ "active")|]. intros _. apply keeps_ret. }
  intros _. apply keeps_bind.
  { apply keeps_bind; [apply keeps_revoke|]. intros; apply keeps_ret. }
  intros [[]|]; [|apply keeps_ret]. unfold confirm_election_records_released.
  induction RELINQUISH_CONFIRM_ATTEMPTS as [|n IH]; [apply keeps_ret|].
  apply keeps_bind; [|intros [[|]|]; [apply IH|apply keeps_ret..]]. generalize false.
  induction (election_keys leadership) as [|key keys IHk]; intros b; [apply keeps_ret|].
  apply keeps_bind; [|intros [response|]; [apply IHk|apply keeps_ret]].
  apply keeps_bind; [apply keeps_call; apply serve_get_disciplined|]. intros; apply keeps_ret.
Qed.

Lemma keeps_put_owned authority key value :
  utf8_valid key = true → keeps (put_controller_owned backend authority key value).
Proof.
  intros Hutf. unfold put_controller_owned. destruct (negb _); [apply keeps_ret|].
  apply keeps_txn; [by apply with_marker_disciplined|]. intros response.
  destruct (negb _); apply keeps_ret.
Qed.

Lemma keeps_publish_outputs authority ext pend processed prev :
  keeps (publish_controller_outputs backend authority ext pend processed prev).
Proof.
  apply keeps_try; [apply keeps_snapshot|]. intros snapshot. destruct (negb _); [apply keeps_ret|].
  by apply keeps_publish.
Qed.
End writers.

(** * Theorems *)

(** C29: every writer of the coordination layer keeps the input marker honest:
    whatever becomes of its requests and whoever else is active, each
    transaction it commits moves the marker or leaves all input keys as they are
    (keys that go with their lease apart), so a reader that finds the marker
    where it was has seen the current input.  This holds for metadata writes,
    publication, the record of an expired lease, registration, publication and
    injection of states, revocation, removal, all queue operations, a campaign
    for leadership and the writes of a leader. *)
Theorem writers_keep_marker {S : Type} `{EtcdLaws S} backend codec key value lease i n r states options
    session expected fence cfence message resulting ext pend prev authority event election can_stop
    leadership :
  backend_ok backend → utf8_valid key = true → el_coordination election = backend →
  ls_coordination leadership = backend →
  Forall (λ p : {A : Type & itree coordE A}, keeps_marker (S := S) backend (projT2 p))
    [ existT _ (put_metadata backend key value lease);
      existT _ (compare_and_put backend key expected value);
      existT _ (compare_and_put_if_live_absent backend key expected i value);
      existT _ (compare_and_delete backend key expected);
      existT _ (compare_and_put_absent backend key value);
      existT _ (publish_controller_outputs_with_fence backend fence ext pend prev);
      existT _ (record_lease_expiry backend authority event);
      existT _ (register backend i options);
      existT _ (publish_current_state backend i n r states);
      existT _ (inject_session_current_state backend i n r states);
      existT _ (remove_current_states_for_resource backend r);
      existT _ (revoke_live backend i n);
      existT _ (eps_revoke session);
      existT _ (inject_pending_transition codec backend message);
      existT _ (claim_pending_transition codec backend i n message);
      existT _ (complete_pending_transition_with_fence codec backend cfence message resulting);
      existT _ (remove_pending_transition codec backend expected value);
      existT _ (remove_pending_transitions_for_resource codec backend r);
      existT _ (advance_metadata_revision backend key expected);
      existT _ (acquire_until election can_stop);
      existT _ (relinquish leadership);
      existT _ (put_controller_owned backend authority key value);
      existT _ (publish_controller_outputs backend authority ext pend expected prev) ].
Proof.
  intros Hb Hutf Hel Hlead. repeat apply Forall_cons_2; cbn [projT2].
  - by apply keeps_put_metadata.
  - by apply keeps_cas.
  - by apply keeps_cas.
  - by apply keeps_cas.
  - by apply keeps_put_absent.
  - by apply keeps_publish.
  - by apply keeps_record_expiry.
  - by apply keeps_register.
  - apply keeps_publish_state.
  - apply keeps_inject_state.
  - apply keeps_remove_states.
  - apply keeps_revoke_live.
  - apply keeps_try; [apply keeps_revoke|]. intros _. apply keeps_ret.
  - unfold inject_pending_transition. destruct (is_empty _); [apply keeps_ret|by apply keeps_inject_message].
  - apply keeps_claim.
  - by apply keeps_complete.
  - by apply keeps_remove_message.
  - by apply keeps_remove_messages.
  - by apply keeps_advance.
  - by apply keeps_acquire.
  - by apply keeps_relinquish.
  - by apply keeps_put_owned.
  - by apply keeps_publish_outputs.
  - apply Forall_nil_2.
Qed.

Definition ex_resource_key : string := "controller/resources/documents".
Definition ex_put : prog Revision := put_metadata ex_backend ex_resource_key "{}" 0.

Lemma ex_put_trace :
  (λ x : list (observation mem_store) * mem_store * result Revision CoordinationError, length x.1.1)
    <$> run_mem 20 ex_put ex_store = Some 1%nat.
Proof. vm_compute. reflexivity. Qed.

Lemma writers_keep_marker_witness :
  ∃ tr m' r, runs alone ex_put ex_store tr m' r ∧ length tr = 1%nat ∧ Forall (observed_ok ex_backend) tr.
Proof.
  pose proof ex_put_trace as Hlen.
  destruct (run_mem 20 ex_put ex_store) as [[[tr m'] r]|] eqn:Hrun; [|discriminate Hlen].
  cbn in Hlen. injection Hlen as Hlen. apply run_mem_sound in Hrun.
  exists tr, m', r. split; [exact Hrun|]. split; [exact Hlen|].
  refine (Forall_inv (writers_keep_marker (S := mem_store) ex_backend ex_codec ex_resource_key "{}" 0
    (MkInstanceId "node-a") (MkSessionId 1) (MkResourceId "documents") ∅
    (MkRegistrationOptions (MkDuration 1 0) OFFLINE ∅)
    (MkEtcdParticipantSession ex_backend (MkInstanceId "node-a") (MkSessionId 1) 1 (MkRevision 1))
    (MkRevision 1) ex_fence ex_completion_fence ex_message None "" "" None
    (MkControllerAuthority "" "" 0) (MkRevision 1) ex_election true ex_leadership ex_backend_ok eq_refl eq_refl eq_refl) alone alone_evolves ex_store tr m' r Hrun).
Defined.
