(* ===== verification/Reconcile.v ===== *)
(** * The reconcile loop

    Models the publishing part of [src/controller/runtime.rs]: [reconcile],
    [reconcile_current_snapshot], [outputs_match], [external_view_json],
    [is_controller_input] and [is_leadership_loss], as programs over the etcd
    interface.  A plan is computed from a snapshot, published behind the fence
    of that snapshot, and computed again when the input has moved.  The [loop]
    of the source is [ITree.iter]: it may go on as long as the input keeps
    moving.  JSON encoding is the parameter [encode], decoding that of
    ControllerRuntime. *)

From Stdlib Require Import SpecFloat.
From S2P Require Import Prelude Identity StateMaps Session Keys Snapshot Crush ControllerRuntime.
From S2P Require Import Etcd Metadata InputMarker.

(** [serde_json::to_string] for the two outputs. *)
Record Encode := MkEncode {
  to_external_view : gmap string (gmap string (gmap string string)) → result string string;
  to_pending : list PublishedTransition → result string string
}.

(** [ControllerRuntimeError::coordination] *)
Definition runtime_coordination (e : CoordinationError) : ControllerRuntimeError :=
  MkRuntimeError (display_coordination_error e) (is_transient e).

Definition is_leadership_loss (e : ControllerRuntimeError) : bool :=
  String.eqb (message e) (display_coordination_error StaleController)
  || String.eqb (message e) (display_coordination_error StaleRevision).

Definition is_controller_input (key : string) : bool :=
  if starts_with "live/" key || starts_with "current-state/" key then true
  else match strip_prefix "metadata/" key with
  | None => false
  | Some encoded =>
      match decode_segment encoded with
      | Err _ => true
      | Ok decoded =>
          negb (starts_with "controller/output/" decoded)
          && negb (String.eqb decoded "internal/session-sequence")
      end
  end.

(** The names of a replica map, as the nested maps of strings that are encoded. *)
Definition view_strings (m : resource_map) : gmap string (gmap string (gmap string string)) :=
  foldl (λ output '(resource, state),
    <[resource_str resource :=
        foldl (λ partitions '(partition, replicas),
          <[partition_str partition :=
              btree_collect ((λ '(instance, state), (instance_str instance, state_str state))
                               <$> entries replicas)]> partitions) ∅ (entries state)]> output)
    ∅ (entries m).

Section reconcile.
Variable encode : Encode.

Definition external_view_json (current : ExternalView) : planning string :=
  with_text id (to_external_view encode (view_strings (ev_states current))).

Definition outputs_match (snapshot : CoordinationSnapshot) (external_view pending_transitions : string)
  : bool :=
  bool_decide (metadata_value snapshot EXTERNAL_OUTPUT_KEY = Some external_view)
  && bool_decide (metadata_value snapshot PENDING_OUTPUT_KEY = Some pending_transitions)
  && match metadata_value snapshot PROCESSED_OUTPUT_KEY with
     | Some value =>
         match parse_i64 value with
         | Some processed => (revision_value (authoritative_revision snapshot) <=? processed)%Z
         | None => false
         end
     | None => false
     end.

Variable serde : Serde.
Variable powf : spec_float → spec_float → spec_float.
Variable debug : string → string.
Variable fuel : nat.
Variable backend : EtcdCoordination.
Variable authority : ControllerAuthority.

Abbreviation outcome := (list PublishedTransition * planning unit)%type.

(** [current.authoritative_revision() > snapshot.authoritative_revision()] *)
Definition input_moved (current snapshot : CoordinationSnapshot) : bool :=
  (revision_value (authoritative_revision snapshot)
   <? revision_value (authoritative_revision current))%Z.

(** [snapshot = current; *pending = read_pending(&snapshot)?; continue] *)
Definition start_over (current : CoordinationSnapshot) (pending : list PublishedTransition)
  : itree coordE ((CoordinationSnapshot * list PublishedTransition) + outcome) :=
  match read_pending serde current with
  | Ok pending => Ret (inl (current, pending))
  | Err e => Ret (inr (pending, Err e))
  end.

(** [self.backend.controller_snapshot().await?] *)
Definition resnapshot (pending : list PublishedTransition)
    (k : CoordinationSnapshot → itree coordE ((CoordinationSnapshot * list PublishedTransition) + outcome))
  : itree coordE ((CoordinationSnapshot * list PublishedTransition) + outcome) :=
  let* current := controller_snapshot backend in
  match current with
  | Ok current => k current
  | Err e => Ret (inr (pending, Err (Raise (runtime_coordination e))))
  end.

Definition pending_revision_of (snapshot : CoordinationSnapshot) : option Revision :=
  entry_revision <$> metadata snapshot !! PENDING_OUTPUT_KEY.

Definition snapshot_fence (snapshot : CoordinationSnapshot) : ControllerCommitFence :=
  commit_fence authority (authoritative_revision snapshot) (live_sessions snapshot).

(** The texts of the outputs of a plan. *)
Definition planned_outputs (snapshot : CoordinationSnapshot) (pending : list PublishedTransition)
    (mode : ReconcileMode) : planning (list PublishedTransition * string * string) :=
  let? outputs := compute_outputs_with_pending_policy serde powf debug fuel snapshot pending mode in
  let? external_json := external_view_json outputs.1 in
  let? pending_json := with_text id (to_pending encode outputs.2) in
  Ok (outputs.2, external_json, pending_json).

(** The publication and what follows it in the loop. *)
Definition publish_plan (snapshot : CoordinationSnapshot) (pending next_pending : list PublishedTransition)
    (external_json pending_json : string)
  : itree coordE ((CoordinationSnapshot * list PublishedTransition) + outcome) :=
  let* published := publish_controller_outputs_with_fence backend (snapshot_fence snapshot)
    external_json pending_json (pending_revision_of snapshot) in
  match published with
  | Ok _ =>
      resnapshot pending (λ current,
        if input_moved current snapshot then start_over current pending
        else Ret (inr (next_pending, Ok tt)))
  | Err StaleRevision =>
      let* _ := emit (PublicationRejected (display_coordination_error StaleRevision)) in
      resnapshot pending (λ current, start_over current pending)
  | Err e =>
      let* _ := emit (PublicationRejected (display_coordination_error e)) in
      Ret (inr (pending, Err (Raise (runtime_coordination e))))
  end.

(** One turn of the loop of [reconcile]. *)
Definition reconcile_turn (mode : ReconcileMode) (st : CoordinationSnapshot * list PublishedTransition)
  : itree coordE ((CoordinationSnapshot * list PublishedTransition) + outcome) :=
  let '(snapshot, pending) := st in
  match planned_outputs snapshot pending mode with
  | Err e => Ret (inr (pending, Err e))
  | Ok (next_pending, external_json, pending_json) =>
      resnapshot pending (λ current,
        if input_moved current snapshot then start_over current pending
        else if outputs_match snapshot external_json pending_json
        then Ret (inr (next_pending, Ok tt))
        else publish_plan snapshot pending next_pending external_json pending_json)
  end.

(** [reconcile] with its [&mut pending]: the pending messages it leaves, and its
    result. *)
Definition reconcile (snapshot : CoordinationSnapshot) (pending : list PublishedTransition)
    (mode : ReconcileMode) : itree coordE outcome :=
  ITree.iter (reconcile_turn mode) (snapshot, pending).

Definition with_pending (st : ControllerState) (pending : list PublishedTransition) : ControllerState :=
  MkControllerState pending (cs_known_sessions st) (cs_authoritative_revision st).

Definition reconcile_current_snapshot (snapshot : CoordinationSnapshot) (st : ControllerState)
  : itree coordE (ControllerState * planning unit) :=
  let st := observe_input_revision st (authoritative_revision snapshot) in
  let snapshot := with_authoritative_revision snapshot (cs_authoritative_revision st) in
  match read_pending serde snapshot with
  | Err e => Ret (st, Err e)
  | Ok pending =>
      let mode := mode_for (with_pending st pending) snapshot in
      let* reconciled := reconcile snapshot pending mode in
      let st := with_pending st reconciled.1 in
      match reconciled.2 with
      | Ok _ => Ret (remember_sessions st snapshot, Ok tt)
      | Err e => Ret (st, Err e)
      end
  end.
End reconcile.

(** * Facts *)

Section reconcile_facts.
Context {S : Type} `{EtcdLaws S} (env : S → S → Prop).
Context (encode : Encode) (serde : Serde) (powf : spec_float → spec_float → spec_float).
Context (debug : string → string) (fuel : nat).
Context (backend : EtcdCoordination) (authority : ControllerAuthority) (mode : ReconcileMode).

Abbreviation rely := (disciplined (S := S) backend).

(** [snapshot] decodes the store [s0]; its input revision may be known better
    from watch events, but not from the future. *)
Definition snapshot_at (s0 : S) (snapshot : CoordinationSnapshot) : Prop :=
  (∃ decoded, controller_snapshot_from_kvs backend (MkRevision (head s0))
      (select_kvs (keyspace s0) (namespaced_key backend "") true) = Ok decoded ∧
    snapshot = with_authoritative_revision decoded (authoritative_revision snapshot)) ∧
  (0 < revision_value (authoritative_revision snapshot) ≤ head s0)%Z.

(** [snapshot] was taken before [s]. *)
Definition taken (s : S) (snapshot : CoordinationSnapshot) : Prop :=
  ∃ s0, snapshot_at s0 snapshot ∧ rely s0 s.

(** The step from [s1] to [s2] publishes the plan of a snapshot whose input, queue
    and sessions are still those of [s1]. *)
Definition publishes_plan (s1 s2 : S) : Prop :=
  ∃ s0 snapshot pending next ext pend,
    snapshot_at s0 snapshot ∧ rely s0 s1 ∧ read_pending serde snapshot = Ok pending ∧
    planned_outputs encode serde powf debug fuel snapshot pending mode = Ok (next, ext, pend) ∧
    publish_commit backend (snapshot_fence authority snapshot) ext pend (pending_revision_of snapshot) s1 s2 ∧
    input_unchanged backend (keyspace s0) (keyspace s1) ∧
    keyspace s1 !! pending_key backend = keyspace s0 !! pending_key backend.

Definition publishes_current (o : observation S) : Prop :=
  match o with Committed s1 s2 => publishes_plan s1 s2 | _ => True end.

Lemma taken_later s s' snapshot : rely s s' → taken s snapshot → taken s' snapshot.
Proof. intros Hs (s0 & Hat & Hs0). exists s0. split; [done|by etrans]. Qed.

Lemma decoded_at s0 decoded :
  controller_snapshot_from_kvs backend (MkRevision (head s0))
    (select_kvs (keyspace s0) (namespaced_key backend "") true) = Ok decoded →
  snapshot_at s0 decoded ∧
  metadata_from_snapshot backend (select_kvs (keyspace s0) (namespaced_key backend "") true)
    = Ok (metadata decoded).
Proof.
  intros Hdec. pose proof Hdec as Hparts. unfold controller_snapshot_from_kvs in Hparts.
  destruct (metadata_from_snapshot _ _) as [md|]; [|discriminate Hparts].
  destruct (authoritative_revision_of _ _ _) as [r|] eqn:Hr; [|discriminate Hparts].
  destruct (participant_snapshot_from_kvs _ _) as [ps|]; [|discriminate Hparts].
  destruct (controller_election_from_kvs _ _) as [el|]; [|discriminate Hparts].
  injection Hparts as <-. split; [|done]. split; [by eexists|]. cbn.
  pose proof (head_pos s0). apply authoritative_origin in Hr as [->|(kv & Hkv & Hpos & ->)]; cbn; [lia|].
  apply elem_of_select in Hkv as [Hkv _]. apply kv_bounds in Hkv as (_ & _ & Hle & _). lia.
Qed.

(** Where a publication behind the fence of a snapshot commits, the input and the
    queue are those of the snapshot. *)
Lemma commit_current s0 s1 s2 snapshot ext pend :
  backend_ok backend → snapshot_at s0 snapshot → rely s0 s1 →
  publish_commit backend (snapshot_fence authority snapshot) ext pend (pending_revision_of snapshot) s1 s2 →
  input_unchanged backend (keyspace s0) (keyspace s1) ∧
  keyspace s1 !! pending_key backend = keyspace s0 !! pending_key backend.
Proof.
  intros Hb ((decoded & Hdec & Hsnap) & Hpos & Hle) [Hev Hdisc] (Hstep & _).
  apply decoded_at in Hdec as [_ Hmd]. destruct Hstep as [_ Hinput Hqueue _ _ _ _ _].
  cbn in Hinput, Hqueue. destruct Hev as (_ & Hold & _). split.
  - unfold kv_field in Hinput. destruct (keyspace s1 !! marker_key backend) as [kv|] eqn:Hm; [|lia].
    apply (Hdisc kv); [|done]. apply Hold; [done|lia].
  - unfold pending_revision_of in Hqueue. rewrite Hsnap in Hqueue. cbn in Hqueue. unfold kv_field in Hqueue.
    destruct (metadata decoded !! PENDING_OUTPUT_KEY) as [entry|] eqn:He; cbn in Hqueue.
    + destruct (metadata_from_revision _ _ _ _ _ Hmd He) as (kv & Hkv & Hr).
      apply elem_of_select in Hkv as [Hkv _]. apply kv_bounds in Hkv as (_ & Hkpos & Hkle & _).
      destruct (keyspace s1 !! pending_key backend) as [kv'|] eqn:Hp; [|lia].
      symmetry. apply Hold; [done|lia].
    + destruct (keyspace s1 !! pending_key backend) as [kv'|] eqn:Hp.
      { apply kv_bounds in Hp as (_ & ? & _). lia. }
      destruct (keyspace s0 !! pending_key backend) as [kv'|] eqn:Hp0; [|done]. exfalso.
      destruct (kv_bounds s0 _ kv' Hp0) as (Hkey & _).
      assert (kv' ∈ select_kvs (keyspace s0) (namespaced_key backend "") true) as Hin.
      { apply elem_of_select. rewrite Hkey. split; [done|apply starts_with_namespace]. }
      destruct (metadata_from_present backend Hb _ _ _ _ Hmd Hin Hkey eq_refl) as [? Hsome].
      change "controller/output/pending-transitions" with PENDING_OUTPUT_KEY in Hsome. congruence.
Qed.

Context (Hbackend : backend_ok backend) (Henv : ∀ s s', env s s' → rely s s').

#[local] Instance env_disciplined : Rely env rely := disciplined_rely backend env Henv.

Lemma controller_snapshot_taken s :
  ensures env (controller_snapshot backend) s (λ tr s' r,
    tr = [] ∧ rely s s' ∧ ∀ snapshot, r = Ok snapshot → taken s' snapshot).
Proof.
  apply (ensures_raw_snapshot env rely).
  - intros s1 Hs1. apply (ensures_ret env rely). intros s2 Hs2.
    split_and!; [done|by etrans|]. intros snapshot [Hat _]%decoded_at. by exists s1.
  - intros text s1 Hs1. by split_and!.
Qed.

(** How a turn of the loop ends: with nothing but current publications, and, when
    the loop goes on, with a new snapshot and its queue. *)
Definition turn_ends (tr : list (observation S)) (s' : S)
    (lr : (CoordinationSnapshot * list PublishedTransition) +
          (list PublishedTransition * planning unit)) : Prop :=
  Forall publishes_current tr ∧
  match lr with
  | inl (snapshot, pending) => taken s' snapshot ∧ read_pending serde snapshot = Ok pending
  | inr _ => True
  end.

Lemma turn_ret s out : ensures env (Ret (inr out)) s turn_ends.
Proof. apply (ensures_ret env rely). intros s' _. split; [constructor|done]. Qed.

Lemma start_over_turn s current pending :
  taken s current → ensures env (start_over serde current pending) s turn_ends.
Proof.
  intros Htaken. unfold start_over. destruct (read_pending serde current) as [p|] eqn:Hp; [|apply turn_ret].
  apply (ensures_ret env rely). intros s' Hs'. split; [constructor|]. split; [|done].
  by eapply taken_later.
Qed.

Lemma resnapshot_turn s pending k :
  (∀ s' current, rely s s' → taken s' current → ensures env (k current) s' turn_ends) →
  ensures env (resnapshot backend pending k) s turn_ends.
Proof.
  intros Hk. apply holds_bind. eapply holds_mono; [apply controller_snapshot_taken|].
  intros tr s1 [current|e] (-> & Hs1 & Htaken); [|apply turn_ret]. by apply Hk, Htaken.
Qed.

Lemma publish_plan_turn s snapshot pending next ext pend :
  taken s snapshot → read_pending serde snapshot = Ok pending →
  planned_outputs encode serde powf debug fuel snapshot pending mode = Ok (next, ext, pend) →
  ensures env (publish_plan serde backend authority snapshot pending next ext pend) s turn_ends.
Proof.
  intros (s0 & Hat & Hs0) Hread Hplan. unfold publish_plan. apply holds_bind.
  eapply (holds_mono _ _ _ _ _ (λ tr _ r, publish_outcome rely backend (snapshot_fence authority snapshot)
    ext pend (pending_revision_of snapshot) s tr r)).
  { unfold publish_controller_outputs_with_fence.
    destruct (negb _); [apply (ensures_ret env rely); by intros s1 _|]. exact (publish_attempts_outcome env rely backend 32 _ _ _ _ s). }
  intros tr s1 r Hout.
  assert (Forall publishes_current tr) as Htr.
  { assert (∀ s2 s3, rely s s2 → publish_commit backend (snapshot_fence authority snapshot) ext pend
      (pending_revision_of snapshot) s2 s3 → Forall publishes_current [Committed s2 s3]) as Hgood.
    { intros s2 s3 Hs2 Hc. constructor; [|constructor]. assert (rely s0 s2) as Hs02 by by etrans.
      exists s0, snapshot, pending, next, ext, pend. split_and!; [done..| |];
        by eapply commit_current. }
    destruct r as [r|[]]; cbn in Hout;
      first [by subst | destruct Hout as (? & ? & ? & -> & _ & ?); by eapply Hgood
            | destruct Hout as [->|(? & ? & ? & -> & ?)]; [done|by eapply Hgood]]. }
  assert (∀ s t, ensures env t s turn_ends → ensures env t s (λ tr' s' lr, turn_ends (tr ++ tr') s' lr))
    as Hthen.
  { intros s' t Ht. eapply holds_mono; [exact Ht|]. intros tr' s2 lr [Htr' Hlr]. split; [by apply Forall_app|done]. }
  assert (∀ e t s, (∀ s', ensures env t s' turn_ends) →
    ensures env (ITree.bind (emit e) (λ _, t)) s turn_ends) as Hemit.
  { intros e t s' Ht. apply (ensures_emit env rely). intros s2 _. eapply holds_mono; [apply Ht|].
    intros tr' s3 lr [Htr' Hlr]. split; [by constructor|done]. }
  apply Hthen. destruct r as [r|e].
  - apply resnapshot_turn. intros s2 current _ Hcur.
    destruct (input_moved current snapshot); [by apply start_over_turn|apply turn_ret].
  - destruct e; apply Hemit; intros s2; try apply turn_ret.
    apply resnapshot_turn. intros. by apply start_over_turn.
Qed.

Lemma reconcile_current s snapshot pending :
  taken s snapshot → read_pending serde snapshot = Ok pending →
  ensures env (reconcile encode serde powf debug fuel backend authority snapshot pending mode) s
    (λ tr _ _, Forall publishes_current tr).
Proof.
  intros Htaken Hread. unfold reconcile.
  apply (holds_iter _ _ _ _ (λ st acc s, Forall publishes_current acc ∧ taken s st.1 ∧
    read_pending serde st.1 = Ok st.2)); [done|].
  intros [snap pend] acc s1 (Hacc & Ht & Hr). cbn [fst snd] in Ht, Hr.
  eapply (holds_mono _ _ _ _ _ turn_ends).
  - unfold reconcile_turn.
    destruct (planned_outputs _ _ _ _ _ snap pend mode) as [[[next ext] pj]|] eqn:Hplan; [|apply turn_ret].
    apply resnapshot_turn. intros s2 current Hs2 Hcur.
    destruct (input_moved current snap); [by apply start_over_turn|].
    destruct (outputs_match snap ext pj); [apply turn_ret|].
    apply publish_plan_turn; [by eapply taken_later|done..].
  - intros tr s2 [[snap' pend']|out] [Htr Hlr]; [split; [by apply Forall_app|done]|by apply Forall_app].
Qed.
End reconcile_facts.

Section cycle_facts.
Context {S : Type} `{EtcdLaws S} (env : S → S → Prop).
Context (encode : Encode) (serde : Serde) (powf : spec_float → spec_float → spec_float).
Context (debug : string → string) (fuel : nat).
Context (backend : EtcdCoordination) (authority : ControllerAuthority).

(** A whole cycle of the controller. *)
Lemma cycle_current st snapshot s0 s :
  backend_ok backend → (∀ s s', env s s' → disciplined backend s s') →
  snapshot_at backend s0 snapshot → disciplined backend s0 s →
  (revision_value (cs_authoritative_revision st) ≤ head s0)%Z →
  ∃ mode, ensures env
    (reconcile_current_snapshot encode serde powf debug fuel backend authority snapshot st) s
    (λ tr _ _, Forall (publishes_current encode serde powf debug fuel backend authority mode) tr).
Proof.
  intros Hb Henv [(decoded & Hdec & Hsnap) Hrev] Hs Hst.
  unfold reconcile_current_snapshot. cbv zeta.
  set (snapshot' := with_authoritative_revision snapshot _).
  assert (taken backend s snapshot') as Htaken.
  { exists s0. split; [|done]. split; [exists decoded; split; [done|unfold snapshot'; by rewrite Hsnap]|].
    cbn. unfold revision_max. destruct (_ <=? _)%Z eqn:Hle; cbn; lia. }
  pose proof (disciplined_rely backend env Henv) as Hrely.
  destruct (read_pending serde snapshot') as [pending|] eqn:Hp.
  - exists (mode_for (with_pending (observe_input_revision st (authoritative_revision snapshot)) pending) snapshot').
    apply holds_bind. eapply holds_mono; [by apply reconcile_current|].
    intros tr s1 [p [|]] Htr; cbn [fst snd]; apply (ensures_ret env (disciplined backend));
      intros s2 _; by rewrite app_nil_r.
  - exists Normal. apply (ensures_ret env (disciplined backend)). by intros s2 _.
Qed.

Lemma planned_inv snapshot pending mode next ext pend :
  planned_outputs encode serde powf debug fuel snapshot pending mode = Ok (next, ext, pend) →
  ∃ view, compute_outputs_with_pending_policy serde powf debug fuel snapshot pending mode = Ok (view, next) ∧
    to_external_view encode (view_strings (ev_states view)) = Ok ext ∧ to_pending encode next = Ok pend.
Proof.
  unfold planned_outputs, external_view_json, with_text. intros Hplan.
  destruct (compute_outputs_with_pending_policy _ _ _ _ _ _ _) as [[view next']|]; [|discriminate Hplan].
  cbn [fst snd] in Hplan. destruct (to_external_view encode _) as [ext'|] eqn:He; [|discriminate Hplan].
  destruct (to_pending encode next') as [pend'|] eqn:Hp; [|discriminate Hplan].
  cbn [map_err] in Hplan. injection Hplan as <- <- <-. by exists view.
Qed.

(** The sessions of the messages are those of the fence. *)
Lemma fence_session snapshot i l :
  snapshot_live snapshot !! i = Some l →
  fence_sessions (snapshot_fence authority snapshot) !! i = Some (live_session_id l).
Proof. intros Hl. cbn. unfold live_sessions. by rewrite lookup_fmap, Hl. Qed.
End cycle_facts.

(** * Theorems *)

(** C1: a controller only ever publishes a plan that is current: each commit of a
    reconcile cycle writes the outputs planned from a snapshot of the store and
    the queue of that snapshot, at a moment at which the input keys (liveness
    that a lease has ended apart) and the queue are still those of the snapshot,
    the sessions planned for are live and the author leads, provided that the
    other clients keep the marker honest. *)
Theorem reconcile_publishes_current {S : Type} `{EtcdLaws S} env encode serde powf debug fuel backend
    authority st snapshot (s0 s : S) tr s' r :
  backend_ok backend → (∀ s s', env s s' → disciplined backend s s') →
  snapshot_at backend s0 snapshot → disciplined backend s0 s →
  (revision_value (cs_authoritative_revision st) ≤ head s0)%Z →
  runs env (reconcile_current_snapshot encode serde powf debug fuel backend authority snapshot st)
    s tr s' r →
  ∃ mode, ∀ s1 s2, Committed s1 s2 ∈ tr →
    publishes_plan encode serde powf debug fuel backend authority mode s1 s2.
Proof.
  intros Hb Henv Hat Hs Hst Hrun.
  destruct (cycle_current env encode serde powf debug fuel backend authority st snapshot s0 s Hb Henv
    Hat Hs Hst) as [mode Hall].
  exists mode. intros s1 s2 Hin. specialize (Hall tr s' r Hrun). rewrite Forall_forall in Hall.
  exact (Hall _ Hin).
Qed.

(** C26: end to end, from the store to the store: the queue a cycle publishes is
    sorted without repetition, and each of its messages is addressed to the
    session that the live record of its instance holds at that very revision. *)
Theorem published_queue_live {S : Type} `{EtcdLaws S} env encode serde powf debug fuel backend
    authority st snapshot (s0 s : S) tr s' r s1 s2 :
  backend_ok backend → (∀ s s', env s s' → disciplined backend s s') →
  snapshot_at backend s0 snapshot → disciplined backend s0 s →
  (revision_value (cs_authoritative_revision st) ≤ head s0)%Z →
  runs env (reconcile_current_snapshot encode serde powf debug fuel backend authority snapshot st)
    s tr s' r →
  Committed s1 s2 ∈ tr →
  ∃ queue text, to_pending encode queue = Ok text ∧
    kv_value <$> keyspace s2 !! pending_key backend = Some text ∧
    StronglySorted key_lt queue ∧
    ∀ m, m ∈ queue → ∃ i, instance_str i = pub_instance m ∧
      kv_value <$> keyspace s2 !! live_key backend i =
        Some (session_text (MkSessionId (pub_target_session m))).
Proof.
  intros Hb Henv Hat Hs Hst Hrun Hin.
  destruct (cycle_current env encode serde powf debug fuel backend authority st snapshot s0 s Hb Henv
    Hat Hs Hst) as [mode Hall].
  specialize (Hall tr s' r Hrun). rewrite Forall_forall in Hall.
  destruct (Hall _ Hin) as (s3 & snap & pending & next & ext & pend & _ & _ & _ & Hplan & Hc & _).
  destruct (planned_inv _ _ _ _ _ _ _ _ _ _ _ Hplan) as (view & Hcomp & _ & Hpend).
  apply cycle_inv in Hcomp as (configs & actual & plans & inputs & dispatched & Hcycle).
  destruct (run_messages _ _ _ _ _ _ _ _ _ _ _ _ _ _ Hcycle) as (_ & _ & Hsorted & _).
  destruct Hc as ([_ _ _ Hsess _ Hout [_ Hframe] _] & _ & _). cbn in Hsess, Hout, Hframe.
  exists next, pend. split_and!; [done|by injection Hout|done|]. intros m Hm.
  destruct (next_fenced _ _ _ _ _ _ _ _ _ _ _ _ _ _ _ Hcycle Hm) as (i & l & Hi & Hl & Htarget).
  exists i. split; [done|]. rewrite Hframe, (Hsess i (live_session_id l)); [|by apply (fence_session authority)].
  rewrite Htarget. by destruct (live_session_id l).
Qed.

(** ** A small cycle *)

(** The control plane of Metadata with a resource to place. *)
Definition ex_cycle_store : mem_store :=
  mem_effect ex_store
    [ TxnPut (metadata_key ex_backend "controller/instance-configs") "[]" 0;
      TxnPut (metadata_key ex_backend "controller/resources/documents") "{}" 0;
      authoritative_input_marker_operation ex_backend ].

Definition ex_encode : Encode := MkEncode (λ _, Ok "view") (λ _, Ok "queue").
Definition ex_authority : ControllerAuthority := MkControllerAuthority "/clustodian" "controller-a" 7.
Definition ex_state : ControllerState := MkControllerState [] ∅ (MkRevision 1).

Definition ex_decoded (m : mem_store) : result CoordinationSnapshot CoordinationError :=
  controller_snapshot_from_kvs ex_backend (MkRevision (head m))
    (select_kvs (keyspace m) (namespaced_key ex_backend "") true).

Definition ex_program (snapshot : CoordinationSnapshot) : itree coordE (ControllerState * planning unit) :=
  reconcile_current_snapshot ex_encode ex_serde no_powf id 100 ex_backend ex_authority snapshot ex_state.

(** The cycle commits once. *)
Definition ex_ok (m : mem_store) : bool :=
  match ex_decoded m with
  | Ok snapshot =>
      (0 <? revision_value (authoritative_revision snapshot))%Z
      && (revision_value (authoritative_revision snapshot) <=? head m)%Z
      && match run_mem 60 (ex_program snapshot) m with
         | Some ([Committed _ _], _, (_, Ok _)) => true
         | _ => false
         end
  | Err _ => false
  end.

Lemma ex_ok_run m :
  ex_ok m = true →
  ∃ snapshot m1 m2 m' r, snapshot_at ex_backend m snapshot ∧
    runs alone (ex_program snapshot) m [Committed m1 m2] m' r.
Proof.
  unfold ex_ok. intros Hok. destruct (ex_decoded m) as [snapshot|] eqn:Hdec; [|discriminate Hok].
  destruct (run_mem 60 (ex_program snapshot) m) as [[[tr m'] r]|] eqn:Hrun; [|by rewrite andb_false_r in Hok].
  apply andb_true_iff in Hok as [Hrev Hok]. apply run_mem_sound in Hrun.
  destruct tr as [|[m1 m2|event|m1 x o|event] [|]]; try discriminate Hok.
  exists snapshot, m1, m2, m', r. split; [|exact Hrun]. split; [|lia]. exists snapshot.
  split; [exact Hdec|]. by destruct snapshot.
Qed.

Lemma ex_cycle_run : ex_ok ex_cycle_store = true.
Proof. vm_compute. reflexivity. Qed.

Lemma alone_disciplined (s s' : mem_store) : alone s s' → disciplined ex_backend s s'.
Proof. intros []. Qed.

Lemma ex_state_bound : (revision_value (cs_authoritative_revision ex_state) ≤ head ex_cycle_store)%Z.
Proof. vm_compute. discriminate. Qed.

Lemma reconcile_publishes_current_witness :
  ∃ mode m1 m2, publishes_plan ex_encode ex_serde no_powf id 100 ex_backend ex_authority mode m1 m2.
Proof.
  destruct (ex_ok_run ex_cycle_store ex_cycle_run) as (snapshot & m1 & m2 & m' & r & Hat & Hrun).
  destruct (reconcile_publishes_current alone ex_encode ex_serde no_powf id 100 ex_backend ex_authority
    ex_state snapshot ex_cycle_store ex_cycle_store [Committed m1 m2] m' r ex_backend_ok
    alone_disciplined Hat (reflexivity _) ex_state_bound Hrun) as [mode Hmode].
  exists mode, m1, m2. apply Hmode. left.
Defined.

Lemma published_queue_live_witness :
  ∃ (m2 : mem_store) queue, kv_value <$> keyspace m2 !! pending_key ex_backend = Some "queue" ∧
    StronglySorted key_lt queue.
Proof.
  destruct (ex_ok_run ex_cycle_store ex_cycle_run) as (snapshot & m1 & m2 & m' & r & Hat & Hrun).
  destruct (published_queue_live alone ex_encode ex_serde no_powf id 100 ex_backend ex_authority
    ex_state snapshot ex_cycle_store ex_cycle_store [Committed m1 m2] m' r m1 m2 ex_backend_ok
    alone_disciplined Hat (reflexivity _) ex_state_bound Hrun) as (queue & text & Htext & Hkv & Hs & _);
    [left|].
  exists m2, queue. injection Htext as <-. split; [exact Hkv|exact Hs].
Defined.
