(* ===== verification/LeaderLoop.v ===== *)
(** * A controller that leads

    Models [run_as_leader_until] of [src/controller/runtime.rs] with
    [retry_coordination] and [wait_for_leader_retry]: the startup plan, and the loop
    that plans again on a timer, on every watch event that is controller input and
    after a compaction, until the process is stopped, leadership is lost or an error
    is permanent.  What a [tokio::select!] drops on the way is [droppable]: its
    requests may or may not have reached the store.  The theorem is about all of
    that: whatever happens, a leader writes nothing but its outputs and the input
    marker, and only while it is in charge. *)

From Stdlib Require Import SpecFloat.
From S2P Require Import Prelude Identity StateMaps Session Keys Snapshot Crush ControllerRuntime.
From S2P Require Import Etcd Metadata InputMarker Watch Election Reconcile.

(** ** Ends and waits *)

Inductive LeaderRunResult := LeadershipLost | LeaderShutdown.

Inductive LeaderWaitError :=
| WaitShutdown
| WaitLost
| WaitCoordination (error : CoordinationError).

(** A [return] of [run_as_leader_until]; planning may also panic. *)
Inductive leader_exit :=
| ExitRun (r : LeaderRunResult)
| ExitError (e : stop ControllerRuntimeError).

Abbreviation leader_prog A := (itree coordE (result A leader_exit)).

(** [impl From<WatchError> for ControllerRuntimeError] *)
Definition runtime_watch (e : WatchError) : ControllerRuntimeError :=
  match e with
  | WatchCoordination error => runtime_coordination error
  | Disconnected => MkRuntimeError (display_watch_error Disconnected) true
  | Compacted revision => runtime_message (display_watch_error (Compacted revision))
  end.

(** How every caller treats a [LeaderWaitError]. *)
Definition exit_of (w : LeaderWaitError) : leader_exit :=
  match w with
  | WaitShutdown => ExitRun LeaderShutdown
  | WaitLost => ExitRun LeadershipLost
  | WaitCoordination e => ExitError (Raise (runtime_coordination e))
  end.

Definition wait_for_leader_retry : itree coordE (result unit LeaderWaitError) :=
  select [Ok tt; Err WaitShutdown; Err WaitLost].

Definition retry_turn {A} (operation : prog A) : itree coordE (unit + result A LeaderWaitError) :=
  let* result := droppable operation in
  match result with
  | None => let* w := select [WaitShutdown; WaitLost] in Ret (inr (Err w))
  | Some (Ok value) => Ret (inr (Ok value))
  | Some (Err StaleController) => Ret (inr (Err WaitLost))
  | Some (Err error) =>
      if is_transient error then
        let* waited := wait_for_leader_retry in
        match waited with Ok _ => Ret (inl tt) | Err w => Ret (inr (Err w)) end
      else Ret (inr (Err (WaitCoordination error)))
  end.

Definition retry_coordination {A} (operation : prog A) : itree coordE (result A LeaderWaitError) :=
  ITree.iter (λ _ : unit, retry_turn operation) tt.

Definition leader_call {A} (operation : prog A) : leader_prog A :=
  let* r := retry_coordination operation in Ret (map_err exit_of r).

(** The inner loops: [attempt] again until it succeeds. *)
Definition settle_turn {St} (attempt : St → itree coordE (St * planning unit)) (st : St)
  : itree coordE (St + result St leader_exit) :=
  let* attempted := attempt st in
  match attempted.2 with
  | Ok _ => Ret (inr (Ok attempted.1))
  | Err (Raise error) =>
      if is_leadership_loss error then Ret (inr (Err (ExitRun LeadershipLost)))
      else if transient error then
        let* waited := wait_for_leader_retry in
        match waited with Ok _ => Ret (inl attempted.1) | Err w => Ret (inr (Err (exit_of w))) end
      else Ret (inr (Err (ExitError (Raise error))))
  | Err e => Ret (inr (Err (ExitError e)))
  end.

Definition settle_plan {St} (attempt : St → itree coordE (St * planning unit)) (st : St) : leader_prog St :=
  ITree.iter (settle_turn attempt) st.

(** [watch.next()] on the messages as they arrive. *)
Definition next_event (self : WatchSubscription)
  : itree coordE (result WatchEvent WatchError * WatchSubscription) :=
  ITree.iter (λ self,
    match watch_next self [] with
    | (Some r, self, _) => Ret (inr (r, self))
    | (None, self, _) =>
        let* message := receive in
        match watch_next self [message] with
        | (Some r, self, _) => Ret (inr (r, self))
        | (None, self, _) => Ret (inl self)
        end
    end) self.

(** ** The loop *)

(** The branches of the main [select!]. *)
Inductive leader_branch := TickBranch | WatchBranch | ShutdownBranch | LostBranch.

Section leading.
Variable encode : Encode.
Variable serde : Serde.
Variable powf : spec_float → spec_float → spec_float.
Variable debug : string → string.
Variable fuel : nat.
Variable backend : EtcdCoordination.
Variable authority : ControllerAuthority.

Abbreviation reconcile_snapshot :=
  (reconcile_current_snapshot encode serde powf debug fuel backend authority).

(** A fresh snapshot, planned until it settles. *)
Definition plan_again (st : ControllerState) : leader_prog ControllerState :=
  let! snapshot := leader_call (controller_snapshot backend) in
  settle_plan (reconcile_snapshot snapshot) st.

Definition on_event (event : WatchEvent) (st : ControllerState) : leader_prog ControllerState :=
  if is_controller_input (event_key event) then
    let! _ :=
      (if is_lease_backed_delete event then
         let! _ := leader_call (record_lease_expiry backend authority (event_revision event)) in Ret (Ok tt)
       else Ret (Ok tt)) in
    plan_again (observe_input_revision st (event_revision event))
  else Ret (Ok st).

Definition on_compaction (st : ControllerState) : leader_prog (ControllerState * WatchSubscription) :=
  let! both := leader_call (snapshot_and_watch_namespace backend) in
  let! st := settle_plan (reconcile_snapshot both.1) (observe_input_revision st (snap_revision both.1)) in
  Ret (Ok (st, both.2)).

(** Resuming the watch, against the other two futures. *)
Definition resume_leading (watch : WatchSubscription) : leader_prog WatchSubscription :=
  let* resumed := droppable (resume_until_available watch) in
  match resumed with
  | None => let* w := select [LeaderShutdown; LeadershipLost] in Ret (Err (ExitRun w))
  | Some r => Ret (map_err (λ e, ExitError (Raise (runtime_watch e))) r)
  end.

Definition on_watch (st : ControllerState) (watch : WatchSubscription)
  : leader_prog (ControllerState * WatchSubscription) :=
  let* next := next_event watch in
  match next.1 with
  | Ok event => let! st := on_event event st in Ret (Ok (st, next.2))
  | Err (Compacted _) => on_compaction st
  | Err Disconnected | Err (WatchCoordination (Etcd _)) =>
      let! watch := resume_leading next.2 in Ret (Ok (st, watch))
  | Err error => Ret (Err (ExitError (Raise (runtime_watch error))))
  end.

(** One round of the main loop. *)
Definition leader_turn (current : ControllerState * WatchSubscription)
  : leader_prog (ControllerState * WatchSubscription) :=
  let* branch := select [TickBranch; WatchBranch; ShutdownBranch; LostBranch] in
  match branch with
  | ShutdownBranch => Ret (Err (ExitRun LeaderShutdown))
  | LostBranch => Ret (Err (ExitRun LeadershipLost))
  | TickBranch => let! st := plan_again current.1 in Ret (Ok (st, current.2))
  | WatchBranch => on_watch current.1 current.2
  end.

Definition leader_rounds (current : ControllerState * WatchSubscription) : itree coordE leader_exit :=
  ITree.iter (λ current,
    let* turned := leader_turn current in
    Ret (match turned with Ok next => inl next | Err e => inr e end)) current.

(** Up to the first published plan. *)
Definition lead_startup : leader_prog (ControllerState * WatchSubscription) :=
  let! both := leader_call (snapshot_and_watch_namespace backend) in
  try! st := map_err ExitError (ControllerState_from_snapshot serde both.1) in
  let snapshot := with_authoritative_revision both.1 (cs_authoritative_revision st) in
  let! pending := settle_plan (λ pending,
      reconcile encode serde powf debug fuel backend authority snapshot pending Startup) (cs_pending st) in
  Ret (Ok (with_pending st pending, both.2)).

(** The ready callback is called at most once in the life of a reconciler: what is
    left of it is returned with the end of the run. *)
Definition run_as_leader_until (ready : option (result unit string))
  : itree coordE (leader_exit * option (result unit string)) :=
  let* started := lead_startup in
  match started with
  | Err e => Ret (e, ready)
  | Ok current =>
      match ready with
      | Some (Err text) => Ret (ExitError (Raise (runtime_message text)), None)
      | _ => let* e := leader_rounds current in Ret (e, None)
      end
  end.
End leading.

(** * Facts *)

Section leader_facts.
Context {S : Type} `{EtcdLaws S}.
Context (encode : Encode) (serde : Serde) (powf : spec_float → spec_float → spec_float).
Context (debug : string → string) (fuel : nat).
Context (backend : EtcdCoordination) (authority : ControllerAuthority).

(** What a leader may leave on the trace: a commit on its own keys from a store
    whose active key still names it, and reports of rejected publications. *)
Definition leader_keys : list string :=
  [external_view_key backend; pending_key backend; processed_key backend; marker_key backend].

Definition leader_write (o : observation S) : Prop :=
  match o with
  | Committed s1 s2 =>
      in_charge backend authority (keyspace s1) ∧
      ∀ key, key ∉ leader_keys → keyspace s2 !! key = keyspace s1 !! key
  | Emitted event => ∃ reason, event = PublicationRejected reason
  | Invoked _ _ _ | Tracked _ => False
  end.

Abbreviation leads := (guards leader_write).

(** A transaction that compares the active key first. *)
Lemma leads_fenced_txn when ops :
  (∀ op, op ∈ ops → op_key op ∈ leader_keys) →
  leads (call (Transact
    (CompareValue (controller_active_key backend) (authority_controller authority)
     :: CompareLease (controller_active_key backend) (authority_lease authority) :: when) ops)).
Proof.
  intros Hkeys. apply guards_call. intros s a s' (_ & Hsucc & Heff)%serve_documented Hh.
  destruct (succeeded a); [|by destruct Heff as [_ ?]]. cbn [forallb] in Hsucc.
  symmetry in Hsucc. apply andb_true_iff in Hsucc as [Hv Hrest]. apply andb_true_iff in Hrest as [Hl _].
  split.
  - apply in_charge_compares. cbn [forallb]. by rewrite Hv, Hl.
  - intros key Hkey. unfold effect_of in Heff. destruct (existsb _ _); destruct Heff as [_ ->]; [|done].
    apply apply_ops_other. intros op Hop Heq. apply Hkey. rewrite <-Heq. by apply Hkeys.
Qed.

Lemma leads_get key p at_revision : leads (call (Get key p at_revision)).
Proof. by apply guards_read. Qed.

Lemma leads_watch key p start : leads (call (Watch key p start)).
Proof. apply guards_call. by intros s a s' [_ ?]%serve_documented ?. Qed.

Lemma leads_rejected reason : leads (emit (PublicationRejected reason)).
Proof. apply guards_trigger. intros s x s' _. constructor; [by eexists|constructor]. Qed.

#[local] Hint Resolve leads_get leads_watch leads_rejected : guards.

Lemma leads_snapshot : leads (controller_snapshot backend).
Proof. unfold controller_snapshot, raw_snapshot. guards_go. Qed.

Lemma leads_snapshot_watch : leads (snapshot_and_watch_namespace backend).
Proof.
  unfold snapshot_and_watch_namespace, watch_namespace, open_namespace_watch.
  apply guards_bind; [apply leads_snapshot|]. guards_go.
Qed.

Lemma leads_resume watch : leads (resume_until_available watch).
Proof. apply guards_iter. intros _. unfold resume, watch_call, open_watch. guards_go. Qed.

Lemma leads_next_event watch : leads (next_event watch).
Proof. apply guards_iter. intros self. guards_go. Qed.

Lemma leads_authority_matches c l : leads (authority_matches backend c l).
Proof. unfold authority_matches. guards_go. Qed.

Lemma leads_sessions_changed l : leads (sessions_changed backend l).
Proof. induction l as [|[i n] l IH]; cbn [sessions_changed]; guards_go. Qed.

#[local] Hint Resolve leads_snapshot leads_snapshot_watch leads_resume leads_next_event leads_authority_matches
  leads_sessions_changed : guards.

Lemma leads_expiry_txn kvs retry : leads retry → leads (expiry_txn backend authority kvs retry).
Proof.
  intros Hretry. unfold expiry_txn. apply guards_bind; [|guards_go].
  apply leads_fenced_txn. intros op ->%list_elem_of_singleton. unfold leader_keys. set_solver.
Qed.

Lemma leads_record revision : leads (record_lease_expiry backend authority revision).
Proof.
  unfold record_lease_expiry. destruct (negb _); [apply guards_ret|].
  generalize 32%nat as n. induction n as [|n IH]; [apply guards_ret|]. cbn [record_attempts].
  pose proof leads_expiry_txn. guards_go.
Qed.

Lemma leads_publish snapshot ext pend prev :
  leads (publish_controller_outputs_with_fence backend (snapshot_fence authority snapshot) ext pend prev).
Proof.
  unfold publish_controller_outputs_with_fence. destruct (negb _); [apply guards_ret|].
  generalize 32%nat as n. induction n as [|n IH]; [apply guards_ret|]. cbn [publish_attempts].
  unfold publish_once, pending_revision_changed, input_fence_changed.
  apply guards_bind; [apply leads_get|]. intros [current|]; [|apply guards_ret].
  destruct (processed_comparison _ _); [|apply guards_ret].
  destruct (match _ with Some _ => _ | None => _ end); [apply guards_ret|].
  apply guards_bind; [|guards_go]. apply leads_fenced_txn. unfold leader_keys, publish_operations. intros op Hop.
  repeat (apply elem_of_cons in Hop as [-> |Hop]; [set_solver|]). by apply elem_of_nil in Hop.
Qed.

#[local] Hint Resolve leads_record leads_publish : guards.

Lemma leads_reconcile snapshot pending mode :
  leads (reconcile encode serde powf debug fuel backend authority snapshot pending mode).
Proof.
  apply guards_iter. clear snapshot pending. intros [snapshot pending].
  unfold reconcile_turn, publish_plan, resnapshot, start_over. guards_go.
Qed.

Lemma leads_reconcile_current snapshot st :
  leads (reconcile_current_snapshot encode serde powf debug fuel backend authority snapshot st).
Proof. unfold reconcile_current_snapshot. pose proof leads_reconcile. guards_go. Qed.

Lemma leads_call {A} (operation : prog A) : leads operation → leads (leader_call operation).
Proof.
  intros Hop. apply guards_bind; [|guards_go]. apply guards_iter. intros _.
  apply guards_bind; [by apply guards_droppable|]. unfold wait_for_leader_retry. guards_go.
Qed.

Lemma leads_settle {St} (attempt : St → itree coordE (St * planning unit)) st :
  (∀ st, leads (attempt st)) → leads (settle_plan attempt st).
Proof.
  intros Hattempt. apply guards_iter. intros st'. unfold settle_turn, wait_for_leader_retry. guards_go.
Qed.

#[local] Hint Resolve leads_reconcile leads_reconcile_current leads_call leads_settle : guards.

Lemma leads_plan_again st : leads (plan_again encode serde powf debug fuel backend authority st).
Proof. unfold plan_again. guards_go. Qed.

#[local] Hint Resolve leads_plan_again : guards.

Lemma leads_on_watch st watch : leads (on_watch encode serde powf debug fuel backend authority st watch).
Proof.
  unfold on_watch, on_event, on_compaction, resume_leading.
  assert (∀ w, leads (droppable (resume_until_available w))) by (intros; by apply guards_droppable, leads_resume).
  guards_go.
Qed.

Lemma leads_run ready :
  leads (run_as_leader_until encode serde powf debug fuel backend authority ready).
Proof.
  apply guards_bind; [unfold lead_startup; guards_go|]. intros started.
  assert (∀ current, leads (leader_rounds encode serde powf debug fuel backend authority current)).
  { intros current. apply guards_iter. intros [st watch]. pose proof leads_on_watch. unfold leader_turn. guards_go. }
  guards_go.
Qed.
End leader_facts.

(** * Theorem *)

(** C5: a leader is fenced at every moment of its run.  Wherever the run is cut off,
    whatever the other clients do and however the [select!]s fall, what it has left
    behind are commits on its three outputs and the input marker, each from a store
    whose active key names this controller under its own lease, and reports of
    rejected publications; no handler is invoked. *)
Theorem leader_writes_fenced {S : Type} `{EtcdLaws S} env encode serde powf debug fuel backend authority
    ready (s : S) :
  ensures env (droppable (run_as_leader_until encode serde powf debug fuel backend authority ready)) s
    (λ tr _ _, Forall (leader_write backend authority) tr).
Proof. revert s. apply guards_commits, guards_droppable, leads_run. Qed.

(** A leader that publishes its startup plan, and whose application is not ready. *)
Definition ex_lead : itree coordE (option (leader_exit * option (result unit string))) :=
  droppable (run_as_leader_until ex_encode ex_serde no_powf id 100 ex_backend ex_authority (Some (Err "not ready"))).

Definition ex_lead_ok (m : mem_store) : bool :=
  match run_mem 200 ex_lead m with
  | Some ([Committed _ _], _, Some (ExitError (Raise _), None)) => true
  | _ => false
  end.

Lemma ex_lead_commits : ex_lead_ok ex_cycle_store = true.
Proof. vm_compute. reflexivity. Qed.

Lemma ex_lead_run m : ex_lead_ok m = true → ∃ m1 m2 m' r, runs alone ex_lead m [Committed m1 m2] m' r.
Proof.
  unfold ex_lead_ok. intros Hok.
  destruct (run_mem 200 ex_lead m) as [[[tr m'] r]|] eqn:Hrun; [|discriminate Hok].
  apply run_mem_sound in Hrun. destruct tr as [|[m1 m2|event|m1 x o|event] [|]]; try discriminate Hok.
  by exists m1, m2, m', r.
Qed.

Lemma leader_writes_fenced_witness :
  ∃ m1 m2 m' r, runs alone ex_lead ex_cycle_store [Committed m1 m2] m' r ∧
    leader_write ex_backend ex_authority (Committed m1 m2).
Proof.
  destruct (ex_lead_run ex_cycle_store ex_lead_commits) as (m1 & m2 & m' & r & Hrun).
  exists m1, m2, m', r. split; [exact Hrun|].
  pose proof (leader_writes_fenced alone ex_encode ex_serde no_powf id 100 ex_backend ex_authority
    (Some (Err "not ready")) ex_cycle_store [Committed m1 m2] m' r Hrun) as Hall.
  exact (Forall_inv Hall).
Defined.
