(* ===== verification/Process.v ===== *)
(** * The controller process

    Models [src/runtime.rs]: the loop of [ControllerRuntime::run_until] that campaigns,
    leads, and campaigns again when leadership is lost, with the events it reports.
    The phases of the process are an automaton over what it leaves on the trace; the
    theorem is that a run follows it wherever it is cut off. *)

From Stdlib Require Import SpecFloat.
From S2P Require Import Prelude Identity StateMaps Session Keys Snapshot Crush ControllerRuntime.
From S2P Require Import Etcd Metadata InputMarker Watch Election Reconcile LeaderLoop.

Record ControllerRuntimeConfig := MkControllerRuntimeConfig {
  rc_cluster : string;
  rc_controller : string;
  rc_lease_ttl_ms : N
}.

(** The callbacks are the application's: the ready callback by its outcome, the event
    hook as [Emit].  The authority callback returns nothing and is left out. *)
Record ControllerRuntime := MkControllerRuntime {
  rt_coordination : EtcdCoordination;
  rt_config : ControllerRuntimeConfig;
  ready_callback : option (result unit string)
}.

Definition process_election (coordination : EtcdCoordination) (config : ControllerRuntimeConfig)
  : result ControllerElection ElectionError :=
  ControllerElection_new coordination
    (MkElectionConfig (rc_cluster config) (rc_controller config) (rc_lease_ttl_ms config)).

(** [boxed] keeps the text of an error. *)
Definition ControllerRuntime_new (coordination : EtcdCoordination) (config : ControllerRuntimeConfig)
  : result ControllerRuntime string :=
  let? _ := map_err display_election_error (process_election coordination config) in
  Ok (MkControllerRuntime coordination config None).

Definition on_ready (self : ControllerRuntime) (callback : result unit string) : ControllerRuntime :=
  MkControllerRuntime (rt_coordination self) (rt_config self) (Some callback).

Section process.
Variable encode : Encode.
Variable serde : Serde.
Variable powf : spec_float → spec_float → spec_float.
Variable debug : string → string.
Variable fuel : nat.
Variable self : ControllerRuntime.
(** [run] waits on a shutdown that never comes. *)
Variable can_stop : bool.

Abbreviation identity := (rc_controller (rt_config self)).

(** The state of the loop is what is left of the ready callback; it is returned with
    the result. *)
Abbreviation round :=
  (option (result unit string) + result unit (stop string) * option (result unit string))%type.

(** What follows the end of [run_as_leader_until]. *)
Definition after_leading (leadership : Leadership) (ended : leader_exit * option (result unit string))
  : itree coordE round :=
  match ended.1 with
  | ExitError (Raise error) =>
      let* _ := emit (FatalRuntimeError identity (message error)) in
      let* _ := relinquish leadership in
      Ret (inr (Err (Raise (message error)), ended.2))
  | ExitError Panicked => Ret (inr (Err Panicked, ended.2))
  | ExitError Diverged => Ret (inr (Err Diverged, ended.2))
  | ExitRun LeadershipLost =>
      let* _ := emit (AuthorityLost identity) in Ret (inl ended.2)
  | ExitRun LeaderShutdown =>
      let* released := relinquish leadership in
      match released with
      | Ok _ => let* _ := emit (GracefulShutdown identity) in Ret (inr (Ok tt, ended.2))
      | Err error => Ret (inr (Err (Raise (display_election_error error)), ended.2))
      end
  end.

Definition process_turn (ready : option (result unit string)) : itree coordE round :=
  match process_election (rt_coordination self) (rt_config self) with
  | Err error => Ret (inr (Err (Raise (display_election_error error)), ready))
  | Ok election =>
      let* acquired := acquire_until election can_stop in
      match acquired with
      | Ok (Some leadership) =>
          let* _ := emit (AuthorityAcquired identity) in
          let* ended := run_as_leader_until encode serde powf debug fuel (rt_coordination self)
            (authority leadership) ready in
          after_leading leadership ended
      | Ok None => let* _ := emit (GracefulShutdown identity) in Ret (inr (Ok tt, ready))
      | Err ElectionLeaseExpired => Ret (inl ready)
      | Err error =>
          let* _ := emit (FatalRuntimeError identity (display_election_error error)) in
          Ret (inr (Err (Raise (display_election_error error)), ready))
      end
  end.

(** [run_until], and [run] when the process cannot be stopped. *)
Definition process_run_until : itree coordE (result unit (stop string) * option (result unit string)) :=
  ITree.iter process_turn (ready_callback self).
End process.

(** * The phases of a process *)

Inductive phase :=
| Campaigning
| Leading (lease : Z)
| Resigning (lease : Z)
| Failing (lease : Z)
| Finished
| Failed.

Section phases.
Context {S : Type} `{EtcdStore S} (self : ControllerRuntime).

Abbreviation identity := (rc_controller (rt_config self)).
Abbreviation backend := (rt_coordination self).

Definition process_authority (lease : Z) : ControllerAuthority :=
  MkControllerAuthority (prefix backend) identity lease.

(** A campaign writes its own candidate record where there is none, takes the active
    key where there is none, and ends leases. *)
Definition campaign_write (o : observation S) : Prop :=
  match o with
  | Committed s1 s2 =>
      (∃ key, (key = controller_candidate_key backend identity ∨ key = controller_active_key backend) ∧
         keyspace s1 !! key = None ∧ kv_value <$> keyspace s2 !! key = Some identity ∧
         ∀ k, k ≠ key → keyspace s2 !! k = keyspace s1 !! k) ∨
      ∃ lease, lease_ends (keyspace s1) (head s1) lease (keyspace s2) (head s2)
  | _ => False
  end.

(** Only keys of the lease go, and nothing is written. *)
Definition release_write (lease : Z) (o : observation S) : Prop :=
  owned_commit (MkLeadership (process_authority lease) backend) o.

Inductive phase_step : phase → observation S → phase → Prop :=
| step_campaign o : campaign_write o → phase_step Campaigning o Campaigning
| step_acquired lease : phase_step Campaigning (Emitted (AuthorityAcquired identity)) (Leading lease)
| step_no_campaign : phase_step Campaigning (Emitted (GracefulShutdown identity)) Finished
| step_campaign_failed text : phase_step Campaigning (Emitted (FatalRuntimeError identity text)) Failed
| step_lead lease o : leader_write backend (process_authority lease) o → phase_step (Leading lease) o (Leading lease)
| step_lost lease : phase_step (Leading lease) (Emitted (AuthorityLost identity)) Campaigning
| step_lead_failed lease text :
    phase_step (Leading lease) (Emitted (FatalRuntimeError identity text)) (Failing lease)
| step_fail lease o : release_write lease o → phase_step (Failing lease) o (Failing lease)
| step_resign lease o : release_write lease o → phase_step (Leading lease) o (Resigning lease)
| step_resigning lease o : release_write lease o → phase_step (Resigning lease) o (Resigning lease)
| step_stopped lease : phase_step (Leading lease) (Emitted (GracefulShutdown identity)) Finished
| step_resigned lease : phase_step (Resigning lease) (Emitted (GracefulShutdown identity)) Finished.

(** The phase in which a process returns. *)
Definition returned_in (φ : phase) (r : result unit (stop string)) : Prop :=
  match r with
  | Ok _ => φ = Finished
  | Err (Raise _) => φ = Failed ∨ ∃ lease, φ = Failing lease ∨ φ = Leading lease ∨ φ = Resigning lease
  | Err _ => ∃ lease, φ = Leading lease
  end.
End phases.

(** * Facts *)

Section process_facts.
Context {S : Type} `{EtcdLaws S}.
Context (self : ControllerRuntime) (election : ControllerElection) (can_stop : bool).
Context (Hnew : process_election (rt_coordination self) (rt_config self) = Ok election).

Abbreviation identity := (rc_controller (rt_config self)).
Abbreviation backend := (rt_coordination self).
Abbreviation campaigns := (guards (campaign_write (S := S) self)).

Lemma election_parts : el_coordination election = backend ∧ ec_controller (el_config election) = identity.
Proof.
  unfold process_election, ControllerElection_new in Hnew.
  destruct (validate_config _ _); [|discriminate Hnew]. by injection Hnew as <-.
Qed.

(** A transaction of the campaign: it creates one key. *)
Lemma campaigns_create key when lease :
  key = controller_candidate_key backend identity ∨ key = controller_active_key backend →
  campaigns (call (Transact (CompareVersion key 0 :: when) [TxnPut key identity lease])).
Proof.
  intros Hkey. apply guards_call. intros s a s' (_ & Hsucc & Heff)%serve_documented Hh.
  destruct (succeeded a); [|by destruct Heff as [_ ?]]. symmetry in Hsucc. cbn [forallb] in Hsucc.
  apply andb_true_iff in Hsucc as [Hv _]. apply bool_decide_eq_true_1 in Hv. unfold kv_field in Hv.
  destruct Heff as [_ Hk]. left. exists key. split_and!; [done| | |].
  - destruct (keyspace s !! key) as [kv|] eqn:Hkv; [|done]. apply kv_bounds in Hkv as (_ & _ & _ & ?). lia.
  - rewrite Hk. cbn [foldl apply_op]. rewrite lookup_insert_eq. cbn. by rewrite put_kv_value.
  - intros k Hne. rewrite Hk. cbn [foldl apply_op]. by rewrite lookup_insert_ne.
Qed.

Lemma campaigns_revokes lease : campaigns (call (LeaseRevoke lease)).
Proof. apply guards_call. intros s a s' Hs%serve_documented _. right. by exists lease. Qed.

Lemma campaigns_grants ttl : campaigns (call (LeaseGrant ttl)).
Proof. apply guards_call. by intros s a s' (_ & ? & _)%serve_documented ?. Qed.

Lemma campaigns_get key p at_revision : campaigns (call (Get key p at_revision)).
Proof. by apply guards_read. Qed.

Lemma campaigns_races {A} (c : request A) : campaigns (call c) → campaigns (race can_stop c).
Proof. intros Hc. unfold race. guards_go. Qed.

#[local] Hint Resolve campaigns_revokes campaigns_grants campaigns_get campaigns_races : guards.

Lemma campaigns_waits strict lease : campaigns (campaign_wait can_stop strict lease).
Proof. unfold campaign_wait, election_call, revoke_quietly. guards_go. Qed.

#[local] Hint Resolve campaigns_waits : guards.

Lemma campaigns_turn lease : campaigns (campaign_turn election can_stop lease).
Proof.
  destruct election_parts as [Hb Hid]. unfold campaign_turn, election_compares, active_key, campaign_failed.
  rewrite Hb, Hid. assert (∀ when, campaigns (call (Transact (CompareVersion (controller_active_key backend) 0 :: when)
    [TxnPut (controller_active_key backend) identity lease]))) by (intros; apply campaigns_create; by right).
  guards_go.
Qed.

Lemma campaigns_candidate lease : campaigns (candidate_turn election can_stop lease).
Proof.
  destruct election_parts as [Hb Hid]. unfold candidate_turn, candidate_key, revoke_quietly. rewrite Hb, Hid.
  apply guards_bind; [apply campaigns_races, campaigns_create; by left|]. guards_go.
Qed.

Lemma campaigns_acquire :
  campaigns (acquire_until election can_stop).
Proof.
  apply guards_iter. intros _. unfold acquire_turn, campaign, revoke_quietly.
  assert (∀ seconds, campaigns (ITree.iter (λ _, grant_turn can_stop seconds) tt)).
  { intros seconds. apply guards_iter. intros _. unfold grant_turn. guards_go. }
  assert (∀ lease, campaigns (ITree.iter (λ _, candidate_turn election can_stop lease) tt)).
  { intros lease. apply guards_iter. intros _. apply campaigns_candidate. }
  assert (∀ lease, campaigns (ITree.iter (λ _, campaign_turn election can_stop lease) tt)).
  { intros lease. apply guards_iter. intros _. apply campaigns_turn. }
  guards_go.
Qed.

(** What is acquired is leadership of this process. *)
Definition own_leadership (r : result (option Leadership) ElectionError) : Prop :=
  ∀ l, r = Ok (Some l) → ∃ lease, l = MkLeadership (process_authority self lease) backend.

Lemma acquired_own : returns own_leadership (acquire_until election can_stop).
Proof.
  assert (∀ lease, own_leadership (Ok (Some (elected_leadership election lease)))) as Hown.
  { intros lease l [= <-]. exists lease. unfold elected_leadership, process_authority.
    by destruct election_parts as [-> ->]. }
  apply returns_iter. intros _. unfold acquire_turn, own_leadership. destruct (lease_seconds _); [|by apply returns_ret].
  apply returns_after. intros [[lease|]|]; [|by apply returns_ret..].
  apply returns_after. intros [[response|]|]; [|by apply returns_ret..].
  destruct (negb _); [returns_go|]. apply (returns_bind _ own_leadership); [|intros r Hr; by apply returns_ret].
  apply returns_iter. intros _. unfold campaign_turn, campaign_failed, campaign_wait.
  returns_go; apply returns_ret; try done.
  all: intros ?; match goal with |- (let? _ := ?r in _) = _ → _ => by destruct r end.
Qed.

(** Relinquishing only takes what its lease holds. *)
Lemma releases lease : guards (release_write (S := S) self lease)
  (relinquish (MkLeadership (process_authority self lease) backend)).
Proof.
  set (l := MkLeadership (process_authority self lease) backend).
  assert (∀ key, guards (release_write (S := S) self lease) (delete_owned_election_key l key)) as Hdelete.
  { intros key. unfold delete_owned_election_key, election_call. apply guards_bind; [|guards_go].
    apply guards_bind; [|guards_go]. apply guards_call. intros s a s' Hs Hh.
    by apply (owned_delete l key s a s'). }
  unfold relinquish, election_keys, delete_owned_keys, election_call. pose proof Hdelete as Hd.
  assert (∀ key, guards (release_write (S := S) self lease) (call (Get key false None)))
    by (intros; by apply guards_read).
  assert (∀ keys b, guards (release_write (S := S) self lease) (owned_record_remains l keys b)).
  { intros keys. induction keys as [|key keys IH]; intros b; cbn [owned_record_remains];
      unfold election_call; guards_go. }
  assert (guards (release_write (S := S) self lease) (confirm_election_records_released l)).
  { unfold confirm_election_records_released. induction RELINQUISH_CONFIRM_ATTEMPTS; cbn [confirm_attempts]; guards_go. }
  assert (guards (release_write (S := S) self lease) (call (LeaseRevoke lease))).
  { apply guards_call. intros s a s' Hs _. by apply (owned_revoke l s a s'). }
  guards_go.
Qed.
End process_facts.

Section phase_facts.
Context {S : Type} `{EtcdLaws S}.
Context (encode : Encode) (serde : Serde) (powf : spec_float → spec_float → spec_float).
Context (debug : string → string) (fuel : nat) (self : ControllerRuntime) (can_stop : bool).

Abbreviation identity := (rc_controller (rt_config self)).
Abbreviation backend := (rt_coordination self).
Abbreviation stepped := (moves (phase_step (S := S) self)).

(** Where a turn leaves the process. *)
Definition turn_phase (φ : phase)
    (lr : option (result unit string) + result unit (stop string) * option (result unit string)) : Prop :=
  match lr with inl _ => φ = Campaigning | inr r => returned_in φ r.1 end.

Lemma emit_then {A} φ event φ' Q (k : itree coordE A) :
  phase_step (S := S) self φ (Emitted event) φ' → stepped φ' Q k → stepped φ Q (let* _ := emit event in k).
Proof.
  intros Hs Hk. eapply moves_bind; [by apply (moves_emit _ φ event φ')|]. by intros φ1 _ ->.
Qed.

Lemma after_leading_phase lease ended :
  stepped (Leading lease) turn_phase
    (after_leading self (MkLeadership (process_authority self lease) backend) ended).
Proof.
  unfold after_leading. pose proof (releases self lease) as Hrel.
  destruct ended.1 as [[|]|[error| |]]; [| | |apply moves_ret; by exists lease..].
  - eapply emit_then; [apply step_lost|]. by apply moves_ret.
  - eapply moves_bind.
    { eapply (moves_within _ (λ φ, φ = Leading lease ∨ φ = Resigning lease)); [|by left|exact Hrel].
      intros φ o [-> | ->] Ho; (exists (Resigning lease); split; [|by right]); by constructor. }
    intros φ [[]|error] [Hφ _]; [|apply moves_ret; right; exists lease; tauto].
    eapply (emit_then _ _ Finished); [destruct Hφ as [-> | ->]; constructor|]. by apply moves_ret.
  - eapply emit_then; [apply step_lead_failed|]. eapply moves_bind.
    { eapply moves_guards; [|exact Hrel]. intros o Ho. by constructor. }
    intros φ r ->. apply moves_ret. right. exists lease. by left.
Qed.

Lemma process_turn_phase ready election :
  process_election backend (rt_config self) = Ok election →
  stepped Campaigning turn_phase (process_turn encode serde powf debug fuel self can_stop ready).
Proof.
  intros Hnew. unfold process_turn. rewrite Hnew. eapply moves_bind.
  { apply (moves_within _ (λ φ, φ = Campaigning) _ (campaign_write self) (own_leadership self)); [|done|].
    - intros φ o -> Ho. exists Campaigning. split; [by constructor|done].
    - apply guards_returns; [by apply campaigns_acquire|by apply acquired_own]. }
  intros φ acquired [-> Hown]. destruct acquired as [[leadership|]|error].
  - destruct (Hown leadership eq_refl) as [lease ->].
    eapply emit_then; [apply (step_acquired _ lease)|]. eapply moves_bind.
    { eapply moves_guards; [|apply leads_run]. intros o Ho. by constructor. }
    intros φ ended ->. apply after_leading_phase.
  - eapply emit_then; [apply step_no_campaign|]. by apply moves_ret.
  - destruct error; try (eapply emit_then; [apply step_campaign_failed|]; apply moves_ret; by left).
    by apply moves_ret.
Qed.
End phase_facts.

(** * Theorem *)

(** C2: the process of a controller that was constructed is always in one of its
    phases, wherever it is cut off.  While it campaigns it only creates its candidate
    record, takes the active key when nobody holds it, and ends leases; it reports
    that it acquired authority before it writes as a leader, and then writes only its
    outputs and the marker while the active key names it under its lease; it
    campaigns again only after it reported that authority was lost, and after a fatal
    error or a resignation it only removes what its lease holds.  A run that returns
    without an error has reported a graceful shutdown last. *)
Theorem process_phases {S : Type} `{EtcdLaws S} env encode serde powf debug fuel coordination config runtime
    callback can_stop (s : S) :
  ControllerRuntime_new coordination config = Ok runtime →
  let self := match callback with Some c => on_ready runtime c | None => runtime end in
  ensures env (droppable (process_run_until encode serde powf debug fuel self can_stop)) s (λ tr _ r,
    ∃ φ, follows (phase_step self) Campaigning tr φ ∧
      match r with Some r => returned_in φ r.1 | None => True end).
Proof.
  intros Hnew self. apply moves_ensures, moves_droppable.
  assert (∃ election, process_election (rt_coordination self) (rt_config self) = Ok election) as [election Hel].
  { unfold ControllerRuntime_new in Hnew.
    destruct (process_election coordination config) as [election|] eqn:He; [|discriminate Hnew].
    injection Hnew as <-. exists election. by destruct callback. }
  apply (moves_iter _ (λ _ φ, φ = Campaigning)); [done|]. intros ready φ ->.
  exact (process_turn_phase encode serde powf debug fuel self can_stop ready election Hel).
Qed.

(** A process that is elected, publishes its first plan and then fails. *)
Definition ex_runtime : result ControllerRuntime string :=
  ControllerRuntime_new ex_backend (MkControllerRuntimeConfig "demo" "controller-a" 5000).

Definition ex_process_store : mem_store :=
  mem_effect (MkMem ∅ 0 1)
    [ TxnPut (metadata_key ex_backend "controller/instance-configs") "[]" 0;
      TxnPut (metadata_key ex_backend "controller/resources/documents") "{}" 0;
      authoritative_input_marker_operation ex_backend ].

Definition ex_process (self : ControllerRuntime)
  : itree coordE (option (result unit (stop string) * option (result unit string))) :=
  droppable (process_run_until ex_encode ex_serde no_powf id 100 (on_ready self (Err "not ready")) false).

(** Candidate record, election, publication and release, with their reports. *)
Definition ex_process_ok (m : mem_store) : bool :=
  match ex_runtime with
  | Ok self =>
      match run_mem 400 (ex_process self) m with
      | Some ([Committed _ _; Committed _ _; Emitted (AuthorityAcquired _); Committed _ _;
               Emitted (FatalRuntimeError _ _); Committed _ _; Committed _ _; Committed _ _], _,
              Some (Err (Raise _), None)) => true
      | _ => false
      end
  | Err _ => false
  end.

Lemma ex_process_returns : ex_process_ok ex_process_store = true.
Proof. vm_compute. reflexivity. Qed.

Lemma ex_process_run m : ex_process_ok m = true →
  ∃ self tr m' e, ex_runtime = Ok self ∧ runs alone (ex_process self) m tr m' (Some (Err (Raise e), None)) ∧
    length tr = 8%nat.
Proof.
  unfold ex_process_ok. intros Hok. destruct ex_runtime as [self|] eqn:Hself; [|discriminate Hok].
  destruct (run_mem 400 (ex_process self) m) as [[[tr m'] r]|] eqn:Hrun; [|discriminate Hok].
  apply run_mem_sound in Hrun.
  repeat (destruct tr as [|[| []| |] tr]; try discriminate Hok).
  destruct r as [[[|[e| |]] [|]]|]; try discriminate Hok.
  eexists self, _, m', e. split; [done|]. split; [exact Hrun|done].
Qed.

Lemma process_phases_witness :
  ∃ self (tr : list (observation mem_store)) φ, length tr = 8%nat ∧
    follows (phase_step (on_ready self (Err "not ready"))) Campaigning tr φ.
Proof.
  destruct (ex_process_run ex_process_store ex_process_returns) as (self & tr & m' & e & Hnew & Hrun & Hlen).
  destruct (process_phases alone ex_encode ex_serde no_powf id 100 ex_backend
    (MkControllerRuntimeConfig "demo" "controller-a" 5000) self (Some (Err "not ready")) false ex_process_store
    Hnew tr m' (Some (Err (Raise e), None)) Hrun) as (φ & Hf & _).
  exists self, tr, φ. split; [exact Hlen|exact Hf].
Defined.
