(* ===== verification/Serving.v ===== *)
(** * The loop of a participant

    Models the loop of [ParticipantRuntime::run_until] in [src/participant.rs] with its
    [ParticipantWorkers]: it follows the queue, keeps the lease, spawns a task for every
    new message, takes finished tasks, and when the lease is lost drains its tasks,
    registers again and starts over from a fresh image of the queue.

    The table in flight, the frontier and the tasks are those of [Workers]: whenever the
    loop comes to look at them any task may have taken any of its steps, with any answer
    ([answers] gives the answers in the order of the steps, and the theorem holds for
    all of them).  What a task does to the store meanwhile is [Participant.execute_message],
    and part of the interference here: a task of a session whose lease is lost may go on
    until it is joined.  The tokens that cancel handlers have no counterpart, nor have
    the tasks that are aborted when the loop fails.

    The theorem tells the life of a participant: one session after the other, each
    registered before a task is spawned in its name, and only after the tasks of the one
    before have been joined; and at the end of a run that returns all tasks have been
    joined and the lease of the last session is revoked. *)

From S2P Require Import Prelude Identity StateMaps StateModel Transitions Session Keys Snapshot.
From S2P Require Import Etcd Metadata InputMarker SessionStore SessionRefinement Queue Watch Participant Workers.
From S2P Require Import Lifecycle LeaderLoop.

(** ** Tasks *)

(** What a step of a task brings: the result of its execution, of the write of its
    watermark, or the text of a panic. *)
Record task_answers := MkTaskAnswers {
  ans_execution : result CompletionResult ParticipantRuntimeError;
  ans_advance : result Revision CoordinationError;
  ans_panic : string
}.

(** The shared structures, and the number of steps that tasks have taken. *)
Record task_pool := MkPool { shared : ParticipantWorkers; clock : nat }.

Definition update (f : ParticipantWorkers → ParticipantWorkers) (p : task_pool) : task_pool :=
  MkPool (f (shared p)) (clock p).

Definition is_over (t : Task) : bool := match joined t with Some _ => true | None => false end.

(** Every element of a list with what is before and after it. *)
Fixpoint splits_from {A} (before after : list A) : list (list A * A * list A) :=
  match after with [] => [] | x :: rest => (before, x, rest) :: splits_from (before ++ [x]) rest end.

Definition splits (w : ParticipantWorkers) (test : Task → bool) : list (list Task * Task * list Task) :=
  List.filter (λ s, test s.1.2) (splits_from [] (w_tasks w)).

(** ** The loop *)

(** The variables of the loop; [messages] and [queue_revision] are in the pool. *)
Record serve_state := MkServe {
  sv_session : EtcdParticipantSession;
  sv_pool : task_pool;
  sv_watch : WatchSubscription
}.

Definition with_watch (st : serve_state) (watch : WatchSubscription) : serve_state :=
  MkServe (sv_session st) (sv_pool st) watch.

Inductive serve_branch := StopBranch | QueueBranch | KeepBranch | WorkerBranch.

Section serving.
Variable answers : nat → task_answers.
Variable state_model_name : string → result string string.
Variable state_model : option StateModelDefinition.
Variable codec : QueueCodec.
Variable backend : EtcdCoordination.
Variable instance : InstanceId.
Variable lease_ttl : Duration.

(** One step of a task that is not over, or its panic. *)
Definition task_move (split : list Task * Task * list Task) (panics : bool) (p : task_pool) : task_pool :=
  let '(before, t, after) := split in
  let w := shared p in
  let become ph := with_tasks w (before ++ with_phase t ph :: after) in
  MkPool
    (if panics then become (Crashed (ans_panic (answers (clock p))))
     else match phase t with
          | Executing => become (after_execution (ans_execution (answers (clock p))))
          | Reporting => report before t after w
          | Advancing _ => become (after_advance (ans_advance (answers (clock p))))
          | Releasing outcome => release before t outcome after w
          | Released _ | Crashed _ => w
          end)
    (S (clock p)).

Definition task_moves (w : ParticipantWorkers) : list (option (list Task * Task * list Task * bool)) :=
  flat_map (λ s, [Some (s, false); Some (s, true)]) (splits w (λ t, negb (is_over t))) ++ [None].

(** The tasks run for a while. *)
Definition tasks_run (p : task_pool) : itree coordE task_pool :=
  ITree.iter (λ p,
    let* move := select (task_moves (shared p)) in
    Ret (match move with Some (split, panics) => inl (task_move split panics p) | None => inr p end)) p.

(** [join_next().await]: waits until a task is over; [None] when there are no tasks. *)
Definition join_next (p : task_pool) : itree coordE (task_pool * option (Task * list Task)) :=
  match w_tasks (shared p) with
  | [] => Ret (p, None)
  | _ =>
      let* p := tasks_run p in
      let* split := select (splits (shared p) is_over) in
      let '(before, t, after) := split in
      let* _ := track (TaskJoined (task_message t) (is_ok (handle_worker_result (joined t)))) in
      Ret (p, Some (t, before ++ after))
  end.

Abbreviation pool_prog := (itree coordE (task_pool * result unit ParticipantRuntimeError)).

(** The second loop of [process_messages]. *)
Fixpoint spawn_all (session : EtcdParticipantSession) (pending : list (TransitionMessage * string)) (p : task_pool)
  : pool_prog :=
  match pending with
  | [] => Ret (update (λ w, with_loop w Waiting) p, Ok tt)
  | (message, key) :: rest =>
      let* model := state_model_for backend state_model_name state_model (tm_resource message) in
      match model with
      | Err e => Ret (update (λ w, with_loop w (Ended (Err e))) p, Err e)
      | Ok _ =>
          let* _ := track (TaskSpawned (eps_session session) message) in
          let* p := tasks_run p in
          spawn_all session rest (update (spawn message key rest) p)
      end
  end.

(** [process_messages] after the scan. *)
Definition deliver (session : EtcdParticipantSession) (revision : Revision) (r : Scan) (p : task_pool) : pool_prog :=
  let* p := tasks_run p in
  spawn_all session (scheduled r) (update (observe_scanned revision (observed_ids r) (scheduled r)) p).

Definition process_messages (session : EtcdParticipantSession) (messages : list TransitionMessage) (revision : Revision)
    (p : task_pool) : pool_prog :=
  let* p := tasks_run p in
  let r := scan_messages instance (w_in_flight (shared p)) messages in
  deliver session revision r (update (scan_queue instance messages revision) p).

Definition pending_queue : participant_prog (list TransitionMessage * Revision * WatchSubscription) :=
  participant_call (snapshot_and_watch_pending_transitions codec backend).

(** One joined task of a drain; [None] ends it. *)
Definition drain_one (p : task_pool) : itree coordE (task_pool + task_pool * result unit ParticipantRuntimeError) :=
  let* next := join_next p in
  Ret (match next.2 with
       | None => inr (next.1, Ok tt)
       | Some (t, rest) =>
           let p := update (drain_join rest t) next.1 in
           match handle_worker_result (joined t) with Ok _ => inl p | Err e => inr (p, Err e) end
       end).

Definition drain_workers_without_session (p : task_pool) : pool_prog := ITree.iter drain_one p.

Definition drain_workers_with_session (session : EtcdParticipantSession) (p : task_pool) : pool_prog :=
  ITree.iter (λ p,
    match w_tasks (shared p) with
    | [] => Ret (inr (p, Ok tt))
    | _ =>
        let* joins := select [true; false] in
        if joins : bool then drain_one p
        else
          let* kept := eps_keep_alive session in
          Ret (match kept with Ok _ => inl p | Err e => inr (p, Err (ParticipantCoordination e)) end)
    end) p.

(** The end of the loop: its result and the session it holds. *)
Abbreviation ending := (result unit ParticipantRuntimeError * EtcdParticipantSession)%type.

Definition draining (reason : drain_reason) (p : task_pool) : task_pool := update (λ w, with_loop w (Draining reason)) p.

Definition stop_serving (st : serve_state) : itree coordE (serve_state + ending) :=
  let* drained := drain_workers_with_session (sv_session st) (draining ShutdownDrain (sv_pool st)) in
  Ret (inr (drained.2, sv_session st)).

(** [process_messages(..).await?] at the end of a branch. *)
Definition then_serve (session : EtcdParticipantSession) (watch : WatchSubscription) (processed : pool_prog)
  : itree coordE (serve_state + ending) :=
  let* processed := processed in
  Ret (match processed.2 with
       | Ok _ => inl (MkServe session processed.1 watch)
       | Err e => inr (Err e, session)
       end).

(** A retry after a transport error, against the shutdown. *)
Definition retry_or_stop {A} : itree coordE (unit + result (option A) ParticipantRuntimeError) :=
  let* p := select (pause_branches true) in
  match p with Paused => Ret (inl tt) | ShutDown => Ret (inr (Ok None)) end.

(** [None] when the process was asked to stop between two attempts. *)
Definition until_answered {A} (attempt : participant_prog A) : participant_prog (option A) :=
  ITree.iter (λ _ : unit,
    let* r := attempt in
    match r with
    | Ok a => Ret (inr (Ok (Some a)))
    | Err (ParticipantCoordination (Etcd _)) => retry_or_stop
    | Err e => Ret (inr (Err e))
    end) tt.

(** After the replacement of the session. *)
Definition restart (session : EtcdParticipantSession) (p : task_pool) : itree coordE (serve_state + ending) :=
  let* queue := until_answered pending_queue in
  match queue with
  | Err e => Ret (inr (Err e, session))
  | Ok None => Ret (inr (Ok tt, session))
  | Ok (Some (messages, revision, watch)) => then_serve session watch (process_messages session messages revision p)
  end.

(** The lease is lost. *)
Definition recover (st : serve_state) : itree coordE (serve_state + ending) :=
  let* _ := emit (LeaseRecovery (instance_str instance)) in
  let* drained := drain_workers_without_session (draining LeaseDrain (sv_pool st)) in
  match drained.2 with
  | Err e => Ret (inr (Err e, sv_session st))
  | Ok _ =>
      let* replaced := until_answered (reconnect backend instance lease_ttl) in
      match replaced with
      | Err e => Ret (inr (Err e, sv_session st))
      | Ok None => Ret (inr (Ok tt, sv_session st))
      | Ok (Some session) =>
          let* _ := emit (LeaseReregistered (instance_str instance) (SessionId_wire_value (eps_session session))) in
          restart session drained.1
      end
  end.

Definition on_queue (st : serve_state) : itree coordE (serve_state + ending) :=
  let* next := next_event (sv_watch st) in
  let st := with_watch st next.2 in
  let failed e := Ret (inr (Err e, sv_session st)) in
  match next.1 with
  | Ok event =>
      if String.eqb (event_key event) PENDING_TRANSITIONS_KEY then
        match parse_event_messages codec event with
        | Ok messages =>
            then_serve (sv_session st) (sv_watch st)
              (process_messages (sv_session st) messages (event_revision event) (sv_pool st))
        | Err e => failed e
        end
      else Ret (inl st)
  | Err (Compacted _) =>
      let* queue := pending_queue in
      match queue with
      | Ok (messages, revision, watch) =>
          then_serve (sv_session st) watch (process_messages (sv_session st) messages revision (sv_pool st))
      | Err e => failed e
      end
  | Err Disconnected | Err (WatchCoordination (Etcd _)) =>
      let* _ := emit (CoordinationRetry "participant watch") in
      let* resumed := droppable (resume_until_available (sv_watch st)) in
      match resumed with
      | None => stop_serving st
      | Some (Ok watch) => Ret (inl (with_watch st watch))
      | Some (Err e) => failed (ParticipantWatch e)
      end
  | Err e => failed (ParticipantWatch e)
  end.

Definition on_keep_alive (st : serve_state) : itree coordE (serve_state + ending) :=
  let* outcome := keep_alive_until_available (sv_session st) in
  match outcome with
  | Err e => Ret (inr (Err e, sv_session st))
  | Ok KeepaliveShutdown => stop_serving st
  | Ok Expired => recover st
  | Ok Healthy => Ret (inl st)
  end.

(** The queue is scanned again at once: a task that moves between the two could as well
    have moved before the join. *)
Definition on_worker (st : serve_state) : itree coordE (serve_state + ending) :=
  let* next := join_next (sv_pool st) in
  match next.2 with
  | None =>
      then_serve (sv_session st) (sv_watch st)
        (process_messages (sv_session st) (w_queue (shared next.1)) (w_revision (shared next.1)) next.1)
  | Some (t, rest) =>
      let p := update (join instance rest t) next.1 in
      match handle_worker_result (joined t) with
      | Ok _ =>
          then_serve (sv_session st) (sv_watch st)
            (deliver (sv_session st) (w_revision (shared next.1))
               (scan_messages instance (w_in_flight (shared next.1)) (w_queue (shared next.1))) p)
      | Err e => Ret (inr (Err e, sv_session st))
      end
  end.

Definition serve_turn (st : serve_state) : itree coordE (serve_state + ending) :=
  let* branch := select ([StopBranch; QueueBranch; KeepBranch] ++
                         match w_tasks (shared (sv_pool st)) with [] => [] | _ => [WorkerBranch] end) in
  match branch with
  | StopBranch => stop_serving st
  | QueueBranch => on_queue st
  | KeepBranch => on_keep_alive st
  | WorkerBranch => on_worker st
  end.

(** [ready] is the outcome of the ready callback; the flag tells whether it was called. *)
Definition serve (ready : result unit ParticipantRuntimeError) (session : EtcdParticipantSession)
  : itree coordE (ending * bool) :=
  let* queue := pending_queue in
  match queue with
  | Err e => Ret (Err e, session, false)
  | Ok (messages, revision, watch) =>
      let* processed := process_messages session messages revision (MkPool (ParticipantWorkers_new messages revision) 0) in
      match processed.2 with
      | Err e => Ret (Err e, session, false)
      | Ok _ =>
          match ready with
          | Err e => Ret (Err e, session, true)
          | Ok _ =>
              let* ended := ITree.iter serve_turn (MkServe session processed.1 watch) in
              Ret (ended, true)
          end
      end
  end.

Definition participant_run (ready : result unit ParticipantRuntimeError)
  : itree coordE (result unit ParticipantRuntimeError * bool) :=
  run_until backend instance lease_ttl (serve ready).
End serving.


(** * Facts *)

(** ** Tasks on a trace *)

Definition spawned {S} (tr : list (observation S)) : list TransitionMessage :=
  omap (λ o, match o with Tracked (TaskSpawned _ message) => Some message | _ => None end) tr.
Definition reaped {S} (tr : list (observation S)) : list TransitionMessage :=
  omap (λ o, match o with Tracked (TaskJoined message _) => Some message | _ => None end) tr.

(** Every task that was spawned has been joined. *)
Definition drained {S} (tr : list (observation S)) : Prop := spawned tr ≡ₚ reaped tr.

Definition went_fine {S} (o : observation S) : Prop :=
  match o with Tracked (TaskJoined _ fine) => fine = true | _ => True end.

(** What does not concern tasks. *)
Definition untasked {S} (o : observation S) : Prop := match o with Tracked _ => False | _ => True end.

Lemma spawned_app {S} (l l' : list (observation S)) : spawned (l ++ l') = spawned l ++ spawned l'.
Proof. apply omap_app. Qed.
Lemma reaped_app {S} (l l' : list (observation S)) : reaped (l ++ l') = reaped l ++ reaped l'.
Proof. apply omap_app. Qed.

Lemma untasked_none {S} (tr : list (observation S)) :
  Forall untasked tr → spawned tr = [] ∧ reaped tr = [] ∧ Forall went_fine tr.
Proof.
  induction 1 as [|o tr Ho _ (IHs & IHr & IHf)]; [done|]. unfold spawned, reaped in *. cbn [omap list_omap].
  destruct o; try done; rewrite IHs, IHr; (split_and!; [done..|by constructor]).
Qed.

(** The tasks that are neither joined nor failed are those of the pool. *)
Definition tasks_of (p : task_pool) : list TransitionMessage := task_message <$> w_tasks (shared p).

Definition accounted {S} (tr : list (observation S)) (p : task_pool) : Prop :=
  spawned tr ≡ₚ reaped tr ++ tasks_of p ∧ Forall went_fine tr.

Lemma accounted_untasked {S} (tr tr' : list (observation S)) p :
  accounted tr p → Forall untasked tr' → accounted (tr ++ tr') p.
Proof.
  intros [Hs Hf] (E1 & E2 & Hf')%untasked_none. split; [|by apply Forall_app].
  by rewrite spawned_app, reaped_app, E1, E2, !app_nil_r.
Qed.

Lemma accounted_drained {S} (tr : list (observation S)) p :
  accounted tr p → tasks_of p = [] → drained tr ∧ Forall went_fine tr.
Proof. intros [Hs Hf] Hp. rewrite Hp, app_nil_r in Hs. by split. Qed.

Lemma elem_of_splits_from {A} (l r : list A) b x a : (b, x, a) ∈ splits_from l r → l ++ r = b ++ x :: a.
Proof.
  revert l. induction r as [|y r IH]; intros l Hin; [by apply elem_of_nil in Hin|]. cbn [splits_from] in Hin.
  apply elem_of_cons in Hin as [[= -> -> ->]|Hin]; [done|]. apply IH in Hin. by rewrite <-app_assoc in Hin.
Qed.

Lemma elem_of_splits w test b x a : (b, x, a) ∈ splits w test → w_tasks w = b ++ x :: a ∧ test x = true.
Proof.
  unfold splits. intros [Hin Ht]%list_elem_of_In%filter_In. split; [|done].
  by apply list_elem_of_In, elem_of_splits_from in Hin.
Qed.

(** ** What tasks do *)

Section pool.
Context (answers : nat → task_answers) (i : InstanceId).

(** [Workers] describes the pool. *)
Definition reached (p : task_pool) : Prop := ∃ ops, workers_reach i ops (shared p).

Lemma reached_step p l w' n : reached p → worker_step i (shared p) l w' → reached (MkPool w' n).
Proof. intros [ops Hr] Hstep. eexists. by eapply reach_step. Qed.

(** Tasks move: the loop stands where it stood, over the same tasks. *)
Record moved (p p' : task_pool) : Prop := {
  moved_tasks : tasks_of p' = tasks_of p;
  moved_loop : w_loop (shared p') = w_loop (shared p);
  moved_reached : reached p → reached p'
}.

Lemma moved_refl p : moved p p.
Proof. by split. Qed.

Lemma moved_trans p1 p2 p3 : moved p1 p2 → moved p2 p3 → moved p1 p3.
Proof. intros [] []. split; [congruence..|auto]. Qed.

Lemma task_move_moved split panics p :
  split ∈ splits (shared p) (λ t, negb (is_over t)) → moved p (task_move answers split panics p).
Proof.
  destruct split as [[before t] after]. intros [Ht Hover%negb_true_iff]%elem_of_splits.
  unfold is_over in Hover. destruct (joined t) eqn:Hj; [done|].
  assert (∀ ph l, worker_step i (shared p) l (with_tasks (shared p) (before ++ with_phase t ph :: after)) →
    moved p (MkPool (with_tasks (shared p) (before ++ with_phase t ph :: after)) (S (clock p)))) as Hbecome.
  { intros ph l Hstep. split; [unfold tasks_of; cbn; by rewrite Ht, !fmap_app, !fmap_cons|done|].
    intros Hr. by eapply reached_step. }
  unfold task_move. destruct panics; [eapply Hbecome; by eapply step_crash|].
  destruct (phase t) as [| |revision|outcome|outcome|text] eqn:Hp.
  - eapply Hbecome. by eapply step_executed.
  - split; [unfold tasks_of, report; cbn; destruct (completion_complete _ _); cbn; by rewrite Ht, !fmap_app, !fmap_cons
           |unfold report; cbn; by destruct (completion_complete _ _)|].
    intros Hr. eapply reached_step; [done|]. by eapply step_report.
  - eapply Hbecome. by eapply step_advanced.
  - split; [unfold tasks_of; cbn; by rewrite Ht, !fmap_app, !fmap_cons|done|].
    intros Hr. eapply reached_step; [done|]. by eapply step_release.
  - unfold joined in Hj. by rewrite Hp in Hj.
  - unfold joined in Hj. by rewrite Hp in Hj.
Qed.
End pool.

Section life.
Context {S : Type} `{EtcdLaws S} (env : S → S → Prop) (Henv : ∀ s s', env s s' → evolves s s').
Context (answers : nat → task_answers) (state_model_name : string → result string string).
Context (state_model : option StateModelDefinition).
Context (codec : QueueCodec) (backend : EtcdCoordination) (i : InstanceId) (lease_ttl : Duration).

#[local] Instance life_rely : Rely env evolves := evolves_rely env Henv.

(** ** Quiet programs *)

Abbreviation quiet := (commits env (λ _ : observation S, False)).

Lemma quiet_then {A B} (t : itree coordE A) (k : A → itree coordE B) s Q :
  quiet t → (∀ x s1, ensures env (k x) s1 Q) → ensures env (let* x := t in k x) s Q.
Proof.
  intros Ht Hk. apply holds_bind. eapply holds_mono; [apply Ht|]. intros tr s1 x Htr.
  destruct tr as [|o tr]; [|by apply Forall_cons_1 in Htr as [[] _]]. apply Hk.
Qed.

Lemma guards_quiet {A} (t : itree coordE A) : guards (λ _ : observation S, False) t → quiet t.
Proof. apply guards_commits. Qed.

Lemma nothing_get key p at_revision : guards (λ _ : observation S, False) (call (Get key p at_revision)).
Proof. by apply guards_read. Qed.

Lemma nothing_watch key p start : guards (λ _ : observation S, False) (call (Watch key p start)).
Proof. apply guards_call. by intros s a s' [_ ?]%serve_documented ?. Qed.

#[local] Hint Resolve nothing_get nothing_watch : guards.

Lemma quiet_queue : quiet (pending_queue codec backend).
Proof.
  apply guards_quiet. unfold pending_queue, participant_call, snapshot_and_watch_pending_transitions,
    snapshot_and_watch_metadata, metadata_snapshot, raw_snapshot, watch_metadata, open_watch. guards_go.
Qed.

Lemma quiet_next watch : quiet (next_event watch).
Proof. apply guards_quiet, guards_iter. intros self. guards_go. Qed.

Lemma quiet_resume watch : quiet (droppable (resume_until_available watch)).
Proof.
  apply guards_quiet, guards_droppable, guards_iter. intros _. unfold resume, watch_call, open_watch. guards_go.
Qed.

Lemma quiet_keep session : quiet (keep_alive_until_available session).
Proof.
  intros s. eapply holds_mono; [apply (keep_alive_outcome env evolves)|]. by intros tr s' r [-> _].
Qed.

Lemma quiet_model resource : quiet (state_model_for backend state_model_name state_model resource).
Proof.
  apply guards_quiet. unfold state_model_for, participant_call, get_metadata, metadata_get, raw_snapshot. guards_go.
Qed.

(** ** Tasks *)

Lemma tasks_run_outcome p s : ensures env (tasks_run answers p) s (λ tr _ p', tr = [] ∧ moved i p p').
Proof.
  apply (holds_iter _ _ _ _ (λ p' acc _, acc = [] ∧ moved i p p')); [split; [done|apply moved_refl]|].
  intros p' acc s1 [-> Hm]. apply (ensures_select env evolves). intros move s2 Hin _.
  apply (ensures_ret env evolves). intros s' _. destruct move as [[split panics]|]; [|done].
  split; [done|]. eapply moved_trans; [exact Hm|]. apply task_move_moved. unfold task_moves in Hin.
  apply elem_of_app in Hin as [Hin|Hin%list_elem_of_singleton]; [|done].
  apply list_elem_of_In, in_flat_map in Hin as (x & Hx%list_elem_of_In & [[= -> _]|[[= -> _]|[]]]); exact Hx.
Qed.

(** The tasks run first. *)
Lemma tasks_run_then {B} p (k : task_pool → itree coordE B) s Q :
  (∀ p' s1, moved i p p' → ensures env (k p') s1 Q) → ensures env (let* p := tasks_run answers p in k p) s Q.
Proof.
  intros Hk. apply holds_bind. eapply holds_mono; [apply tasks_run_outcome|]. intros tr s1 p' [-> Hm]. by apply Hk.
Qed.

(** A finished task [t] is taken out of the pool. *)
Definition taken (p : task_pool) (t : Task) (rest : list Task) (tr : list (observation S)) : Prop :=
  is_Some (joined t) ∧ (∃ before after, rest = before ++ after ∧ w_tasks (shared p) = before ++ t :: after) ∧
  tr = [Tracked (TaskJoined (task_message t) (is_ok (handle_worker_result (joined t))))].

Lemma join_next_outcome p s :
  ensures env (join_next answers p) s (λ tr _ r, moved i p r.1 ∧
    match r.2 with Some (t, rest) => taken r.1 t rest tr | None => tr = [] ∧ w_tasks (shared r.1) = [] end).
Proof.
  unfold join_next. destruct (w_tasks (shared p)) as [|t0 ts] eqn:Hp.
  { apply (ensures_ret env evolves). intros s' _. split; [apply moved_refl|done]. }
  apply tasks_run_then. intros p' s1 Hm. apply (ensures_select env evolves).
  intros [[before t] after] s2 [Ht Hover]%elem_of_splits _. apply (ensures_track env evolves). intros s3 _.
  apply (ensures_ret env evolves). intros s' _. cbn [fst snd]. split; [done|]. split_and!; [|by eauto|done].
  unfold is_over in Hover. by destruct (joined t).
Qed.

(** A task is spawned in the name of [session]. *)
Definition spawns (session : EtcdParticipantSession) (o : observation S) : Prop :=
  ∃ message, o = Tracked (TaskSpawned (eps_session session) message) ∧ own i message.
Definition joins_task (o : observation S) : Prop := ∃ message fine, o = Tracked (TaskJoined message fine).

Lemma accounted_spawns session tr tr' p p' :
  accounted tr p → Forall (spawns session) tr' → tasks_of p' = tasks_of p ++ spawned tr' → accounted (tr ++ tr') p'.
Proof.
  intros [Hs Hf] Hsp Hp. assert (reaped tr' = [] ∧ Forall went_fine tr') as [Er Hf'].
  { clear Hp. induction Hsp as [|o l (m & -> & _) _ [IHr IHf]]; [by split; [|constructor]|]. split; [exact IHr|by constructor]. }
  split; [|by apply Forall_app]. by rewrite spawned_app, reaped_app, Er, Hp, app_nil_r, Hs, app_assoc.
Qed.

Lemma accounted_taken tr p p' t rest tr' :
  accounted tr p → taken p t rest tr' → handle_worker_result (joined t) = Ok tt →
  tasks_of p' = task_message <$> rest → accounted (tr ++ tr') p'.
Proof.
  intros [Hs Hf] (_ & (before & after & -> & Ht) & ->) Hok Hp. rewrite Hok. cbn [is_ok].
  split; [|apply Forall_app; split; [done|by repeat constructor]]. rewrite spawned_app, reaped_app, Hp.
  unfold spawned at 2, reaped at 2. cbn [omap list_omap]. rewrite app_nil_r, <-app_assoc, Hs. unfold tasks_of.
  rewrite Ht, !fmap_app, fmap_cons. cbn [app]. by rewrite Permutation_middle.
Qed.

Lemma taken_joins p t rest tr : taken p t rest tr → Forall joins_task tr.
Proof. intros (_ & _ & ->). constructor; [by eexists _, _|constructor]. Qed.

(** ** Images of the queue *)

Definition delivered (session : EtcdParticipantSession) (p : task_pool) (tr : list (observation S))
    (x : task_pool * result unit ParticipantRuntimeError) : Prop :=
  Forall (spawns session) tr ∧ tasks_of x.1 = tasks_of p ++ spawned tr ∧ reached i x.1 ∧
  (x.2 = Ok tt → w_loop (shared x.1) = Waiting).

Lemma spawn_all_outcome session pending p s :
  w_loop (shared p) = Spawning pending → reached i p → Forall (λ m, own i m.1) pending →
  ensures env (spawn_all answers state_model_name state_model backend session pending p) s
    (λ tr _ x, delivered session p tr x).
Proof.
  intros Hl Hr Hown. revert p s Hl Hr. induction Hown as [|[message key] rest Ho _ IH]; intros p s Hl Hr; cbn [spawn_all].
  { apply (ensures_ret env evolves). intros s' _. split_and!; [constructor|by rewrite app_nil_r| |done].
    eapply reached_step; [done|]. by apply step_spawned. }
  apply quiet_then; [apply quiet_model|]. intros [model|e] s1.
  2:{ apply (ensures_ret env evolves). intros s' _. split_and!; [constructor|by rewrite app_nil_r| |done].
      eapply reached_step; [done|]. apply step_fails. by rewrite Hl. }
  apply (ensures_track env evolves). intros s2 _. apply tasks_run_then. intros p' s3 [Ht Hl' Hr'].
  eapply holds_mono; [apply IH; [done|]|].
  { eapply reached_step; [by apply Hr'|]. apply step_spawn. by rewrite Hl', Hl. }
  intros tr s4 x (Hsp & Htasks & Hrx & Hok). split_and!; [|  |done..].
  - constructor; [by eexists|done].
  - rewrite Htasks. unfold tasks_of, update, spawn in *. cbn. rewrite fmap_app, Ht. cbn. by rewrite <-app_assoc.
Qed.

Lemma deliver_outcome session revision r p s :
  w_loop (shared p) = Observing revision (observed_ids r) (scheduled r) → reached i p →
  Forall (λ m, own i m.1) (scheduled r) →
  ensures env (deliver answers state_model_name state_model backend session revision r p) s
    (λ tr _ x, delivered session p tr x).
Proof.
  intros Hl Hr Hown. apply tasks_run_then. intros p' s1 [Ht Hl' Hr'].
  eapply holds_mono; [apply spawn_all_outcome; [done| |done]|].
  { eapply reached_step; [by apply Hr'|]. apply step_observe. by rewrite Hl', Hl. }
  intros tr s2 x (Hsp & Htasks & Hrx & Hok). split_and!; [done| |done..]. rewrite Htasks. f_equal. exact Ht.
Qed.

Lemma scheduled_own flying messages : Forall (λ m, own i m.1) (scheduled (scan_messages i flying messages)).
Proof.
  apply Forall_forall. intros [m key] Hin.
  by destruct (scan_scheduled _ _ _ _ (scan_messages_scanned i flying messages) m key Hin) as (_ & ? & _).
Qed.

(** Where an image of the queue may be processed. *)
Definition receptive (p : task_pool) : Prop :=
  w_loop (shared p) = Waiting ∨ w_loop (shared p) = Draining LeaseDrain ∧ w_tasks (shared p) = [].

Lemma process_outcome session messages revision p s :
  receptive p → reached i p →
  ensures env (process_messages answers state_model_name state_model backend i session messages revision p) s
    (λ tr _ x, delivered session p tr x).
Proof.
  intros Hl Hr. apply tasks_run_then. intros p' s1 [Ht Hl' Hr'].
  eapply holds_mono; [apply deliver_outcome; [done| |apply scheduled_own]|].
  - eapply reached_step; [by apply Hr'|]. destruct Hl as [Hl|[Hl Hn]]; [apply step_image; by rewrite Hl'|].
    apply step_reconnected; [by rewrite Hl'|]. unfold tasks_of in Ht. rewrite Hn in Ht.
    by apply fmap_nil_inv in Ht.
  - intros tr s2 x (Hsp & Htasks & Hrx & Hok). split_and!; [done| |done..]. rewrite Htasks. f_equal. exact Ht.
Qed.

(** ** The life of a participant *)

(** What the loop does while it holds [session]: it spawns tasks in its name, joins
    tasks, and reports that the watch is resumed.  It commits nothing. *)
Definition serves (session : EtcdParticipantSession) (o : observation S) : Prop :=
  spawns session o ∨ joins_task o ∨ o = Emitted (CoordinationRetry "participant watch").

(** [life session tr]: after [tr] the participant holds [session].  A session is
    followed by another when its loss was reported and all tasks have been joined,
    without an error. *)
Inductive life : EtcdParticipantSession → list (observation S) → Prop :=
| life_joined session tr s' : joined_by evolves backend i session tr s' → life session tr
| life_serves session tr work : life session tr → Forall (serves session) work → life session (tr ++ work)
| life_again session tr joins failed session' tr' s' :
    life session tr → Forall joins_task joins → drained (tr ++ joins) → Forall went_fine (tr ++ joins) →
    Forall (enlist_commit backend i) failed → joined_by evolves backend i session' tr' s' →
    life session' (tr ++ [Emitted (LeaseRecovery (instance_str i))] ++ joins ++ failed ++ tr' ++
      [Emitted (LeaseReregistered (instance_str i) (SessionId_wire_value (eps_session session')))]).

(** The lease of [session] is lost, and there is no other yet: attempts to register
    start when all tasks have been joined. *)
Definition lost (session : EtcdParticipantSession) (tr : list (observation S)) : Prop :=
  ∃ tr0 joins failed, tr = tr0 ++ [Emitted (LeaseRecovery (instance_str i))] ++ joins ++ failed ∧
    life session tr0 ∧ Forall joins_task joins ∧ Forall (enlist_commit backend i) failed ∧
    (failed = [] ∨ drained (tr0 ++ joins)).

Definition ended (session : EtcdParticipantSession) (tr : list (observation S)) : Prop :=
  life session tr ∨ lost session tr.

(** The loop goes on in this state after [tr]. *)
Definition alive (session : EtcdParticipantSession) (p : task_pool) (tr : list (observation S)) : Prop :=
  life session tr ∧ accounted tr p ∧ reached i p.

(** How the loop ends: without an error only when all tasks have been joined. *)
Definition stopped (x : result unit ParticipantRuntimeError * EtcdParticipantSession) (tr : list (observation S)) : Prop :=
  ended x.2 tr ∧ (x.1 = Ok tt → drained tr ∧ Forall went_fine tr).

(** Where a turn leaves the loop. *)
Definition turned (tr : list (observation S)) (lr : serve_state + result unit ParticipantRuntimeError * EtcdParticipantSession)
  : Prop :=
  match lr with
  | inl st => alive (sv_session st) (sv_pool st) tr ∧ w_loop (shared (sv_pool st)) = Waiting
  | inr x => stopped x tr
  end.

Lemma alive_stopped session p tr r : alive session p tr → tasks_of p = [] → stopped (r, session) tr.
Proof. intros (Hl & Ha & _) Hp. split; [by left|]. intros _. by eapply accounted_drained. Qed.

Lemma alive_failed session p tr e : alive session p tr → stopped (Err e, session) tr.
Proof. intros (Hl & _). split; [by left|done]. Qed.

Lemma alive_serves session p p' tr work :
  alive session p tr → Forall (serves session) work → accounted (tr ++ work) p' → reached i p' →
  alive session p' (tr ++ work).
Proof. intros (Hl & _ & _) Hw Ha Hr. split_and!; [by apply life_serves|done|done]. Qed.

(** ** Turns *)

Lemma turned_ret tr0 s lr : turned tr0 lr → ensures env (Ret lr) s (λ tr _ lr, turned (tr0 ++ tr) lr).
Proof. intros Hlr. apply (ensures_ret env evolves). intros s' _. by rewrite app_nil_r. Qed.

Lemma then_turned {A B} tr0 (t : itree coordE A) (k : A → itree coordE B) s (Q : list (observation S) → B → Prop) :
  ensures env t s (λ tr s1 x, ensures env (k x) s1 (λ tr' _ r, Q ((tr0 ++ tr) ++ tr') r)) →
  ensures env (let* x := t in k x) s (λ tr _ r, Q (tr0 ++ tr) r).
Proof.
  intros Ht. apply holds_bind. eapply holds_mono; [exact Ht|]. intros tr s1 x Hk.
  eapply holds_mono; [exact Hk|]. intros tr' s2 r. cbn beta. by rewrite <-app_assoc.
Qed.

Lemma emit_turned {A} tr0 event (t : itree coordE A) s (Q : list (observation S) → A → Prop) :
  (∀ s1, ensures env t s1 (λ tr _ r, Q ((tr0 ++ [Emitted event]) ++ tr) r)) →
  ensures env (let* _ := emit event in t) s (λ tr _ r, Q (tr0 ++ tr) r).
Proof.
  intros Ht. apply (ensures_emit env evolves). intros s1 _. eapply holds_mono; [apply Ht|].
  intros tr s' r. cbn beta. by rewrite <-app_assoc.
Qed.

(** *** Drains *)

(** What a drain has done after [tr], started after [tr0] with the loop at [l]. *)
Definition draining_at (tr0 : list (observation S)) (l : loop_phase) (tr : list (observation S)) (p : task_pool) : Prop :=
  Forall joins_task tr ∧ accounted (tr0 ++ tr) p ∧ reached i p ∧ w_loop (shared p) = l.

Definition drain_done (tr0 : list (observation S)) (l : loop_phase) (tr : list (observation S))
    (x : task_pool * result unit ParticipantRuntimeError) : Prop :=
  Forall joins_task tr ∧ (x.2 = Ok tt → draining_at tr0 l tr x.1 ∧ w_tasks (shared x.1) = []).

Lemma drain_one_outcome tr0 reason acc p s :
  draining_at tr0 (Draining reason) acc p →
  ensures env (drain_one answers p) s (λ tr _ lr,
    match lr with
    | inl p => draining_at tr0 (Draining reason) (acc ++ tr) p
    | inr x => drain_done tr0 (Draining reason) (acc ++ tr) x
    end).
Proof.
  intros (Hj & Ha & Hr & Hl). apply holds_bind. eapply holds_mono; [apply join_next_outcome|].
  intros tr s1 [p' next] [[Ht Hl' Hr'] Htaken]. cbn [fst snd] in *. apply (ensures_ret env evolves). intros s' _.
  rewrite app_nil_r. assert (accounted (tr0 ++ acc) p') as Ha' by (split; [rewrite Ht; apply Ha|apply Ha]).
  destruct next as [[t rest]|].
  2:{ destruct Htaken as [-> Hn]. rewrite app_nil_r. split; [done|]. intros _. split; [|done]. split_and!; [done|done|by apply Hr'|by cbn; rewrite Hl']. }
  assert (Forall joins_task (acc ++ tr)) as Hjs by (apply Forall_app; split; [done|by eapply taken_joins]).
  destruct (handle_worker_result (joined t)) as [[]|e] eqn:Hw; [|split; [done|done]].
  split_and!; [done| | |].
  - rewrite app_assoc. eapply accounted_taken; [done|done|done|]. unfold tasks_of, update, drain_join. cbn. by rewrite Hw.
  - destruct Htaken as (Hjoin & (before & after & -> & Htasks) & _).
    eapply reached_step; [by apply Hr'|]. eapply step_drain_join; [by rewrite Hl'|done|done].
  - cbn [update shared]. unfold drain_join. rewrite Hw. cbn. by rewrite Hl'.
Qed.

Lemma drain_without_outcome tr0 reason p s :
  draining_at tr0 (Draining reason) [] p →
  ensures env (drain_workers_without_session answers p) s (λ tr _ x, drain_done tr0 (Draining reason) tr x).
Proof.
  intros Hp. apply (holds_iter _ _ _ _ (λ p acc _, draining_at tr0 (Draining reason) acc p)); [done|].
  intros p' acc s1 Hd. by apply drain_one_outcome.
Qed.

Lemma drain_with_outcome session tr0 reason p s :
  draining_at tr0 (Draining reason) [] p →
  ensures env (drain_workers_with_session answers session p) s (λ tr _ x, drain_done tr0 (Draining reason) tr x).
Proof.
  intros Hp. apply (holds_iter _ _ _ _ (λ p acc _, draining_at tr0 (Draining reason) acc p)); [done|].
  intros p' acc s1 Hd. destruct (w_tasks (shared p')) as [|t0 ts] eqn:Hn.
  { apply (ensures_ret env evolves). intros s' _. rewrite app_nil_r. split; [apply Hd|done]. }
  apply (ensures_select env evolves). intros [|] s2 _ _; [by apply drain_one_outcome|].
  apply quiet_then; [apply keep_alive_quiet|]. intros kept s3. apply (ensures_ret env evolves). intros s' _.
  rewrite app_nil_r. destruct kept; [done|]. split; [apply Hd|done].
Qed.

(** The loop begins to drain. *)
Lemma draining_start session p tr0 reason :
  alive session p tr0 → w_loop (shared p) = Waiting → draining_at tr0 (Draining reason) [] (draining reason p).
Proof.
  intros (_ & Ha & Hr) Hl. split_and!; [constructor|by rewrite app_nil_r| |done].
  eapply reached_step; [done|]. by apply step_drain.
Qed.

Lemma joins_serve session tr : Forall joins_task tr → Forall (serves session) tr.
Proof. intros Htr. eapply Forall_impl; [exact Htr|]. intros o Ho. right. by left. Qed.

Lemma stop_turned st tr0 s :
  alive (sv_session st) (sv_pool st) tr0 → w_loop (shared (sv_pool st)) = Waiting →
  ensures env (stop_serving answers st) s (λ tr _ lr, turned (tr0 ++ tr) lr).
Proof.
  intros Hal Hw. apply then_turned.
  eapply holds_mono; [apply drain_with_outcome; by eapply draining_start|]. intros tr s1 [p r] [Hj Hd]. cbn [fst snd] in *.
  apply turned_ret. split; [left; apply life_serves; [apply Hal|by apply joins_serve]|].
  cbn [fst]. intros Hr. destruct (Hd Hr) as [(_ & Ha & _) Hn]. eapply accounted_drained; [exact Ha|].
  unfold tasks_of. by rewrite Hn.
Qed.

(** *** Images *)

Lemma delivered_turned session watch processed p tr0 s :
  alive session p tr0 → (∀ s1, ensures env processed s1 (λ tr _ x, delivered session p tr x)) →
  ensures env (then_serve session watch processed) s (λ tr _ lr, turned (tr0 ++ tr) lr).
Proof.
  intros Hal Hp. apply then_turned. eapply holds_mono; [apply Hp|].
  intros tr s1 [p' r] (Hsp & Ht & Hr & Hok). cbn [fst snd] in *.
  assert (alive session p' (tr0 ++ tr)) as Hal'.
  { eapply alive_serves; [exact Hal| |eapply accounted_spawns; [apply Hal|done|done]|done].
    eapply Forall_impl; [exact Hsp|]. by left. }
  apply turned_ret. destruct r as [[]|e]; [|by eapply alive_failed]. split; [done|]. cbn. by apply Hok.
Qed.

Lemma process_turned session watch messages revision p tr0 s :
  alive session p tr0 → receptive p →
  ensures env (then_serve session watch
    (process_messages answers state_model_name state_model backend i session messages revision p)) s
    (λ tr _ lr, turned (tr0 ++ tr) lr).
Proof. intros Hal Hp. apply (delivered_turned _ _ _ p); [done|]. intros s1. apply process_outcome; [done|apply Hal]. Qed.

(** Registering again: failed attempts, and the one that succeeded. *)
Definition replaced (tr : list (observation S)) (r : result (option EtcdParticipantSession) ParticipantRuntimeError) : Prop :=
  match r with
  | Ok (Some session) => ∃ failed tr' s', tr = failed ++ tr' ∧ Forall (enlist_commit backend i) failed ∧
      joined_by evolves backend i session tr' s'
  | _ => Forall (enlist_commit backend i) tr
  end.

Lemma reconnect_outcome s :
  ensures env (reconnect backend i lease_ttl) s (λ tr s' r,
    match r with
    | Ok session => joined_by evolves backend i session tr s'
    | Err _ => Forall (enlist_commit backend i) tr
    end).
Proof.
  unfold reconnect. destruct (RegistrationOptions_new lease_ttl) as [options|e]; cbn [map_err].
  2:{ apply (ensures_ret env evolves). constructor. }
  apply holds_bind. eapply holds_mono; [apply (register_session_outcome env evolves)|].
  intros tr s1 [[session|]|e] Hr; apply (ensures_ret env evolves); intros s' Hs'; rewrite app_nil_r.
  - destruct Hr as (tr1 & a & b & ? & ? & ? & ? & ?). exists tr1, a, b. split_and!; [done..|by etrans].
  - eapply Forall_impl; [exact Hr|]. by left.
  - by eapply enrolled_err.
Qed.

Lemma replaced_outcome s :
  ensures env (until_answered (reconnect backend i lease_ttl)) s (λ tr _ r, replaced tr r).
Proof.
  apply (holds_iter _ _ _ _ (λ _ acc _, Forall (enlist_commit backend i) acc)); [constructor|].
  intros [] acc s1 Hacc. apply holds_bind. eapply holds_mono; [apply reconnect_outcome|].
  intros tr s2 r Hr. assert (∀ lr : unit + result (option EtcdParticipantSession) ParticipantRuntimeError,
    match lr with inl _ => Forall (enlist_commit backend i) (acc ++ tr) | inr r => replaced (acc ++ tr) r end →
    ensures env (Ret lr) s2 (λ tr' _ lr, match lr with
      | inl _ => Forall (enlist_commit backend i) (acc ++ tr ++ tr')
      | inr r => replaced (acc ++ tr ++ tr') r
      end)) as Hret.
  { intros lr Hlr. apply (ensures_ret env evolves). intros s' _. by rewrite app_nil_r. }
  destruct r as [session|e]; [by apply Hret; exists acc, tr, s2|].
  assert (Forall (enlist_commit backend i) (acc ++ tr)) as Hall by (by apply Forall_app).
  destruct e as [[]| | | | | |]; try (by apply Hret).
  apply (ensures_select env evolves). intros p s3 _ _.
  destruct p; apply (ensures_ret env evolves); intros s' _; by rewrite app_nil_r.
Qed.

Lemma quiet_until_answered {A} (t : participant_prog A) : quiet t → quiet (until_answered t).
Proof.
  intros Ht. apply commits_iter. intros _. apply commits_bind; [done|]. intros [a|[[]| | | | | |]];
    try apply commits_ret. apply commits_bind; [apply commits_select|]. intros [|]; apply commits_ret.
Qed.

(** The queue is read again, and its image processed. *)
Lemma restart_turned session p tr0 s :
  alive session p tr0 → receptive p → tasks_of p = [] →
  ensures env (restart answers state_model_name state_model codec backend i session p) s (λ tr _ lr, turned (tr0 ++ tr) lr).
Proof.
  intros Hal Hp Hn. apply quiet_then; [apply quiet_until_answered, quiet_queue|].
  intros [[[[messages revision] watch]|]|e] s1; [by apply process_turned| |]; apply turned_ret.
  - by eapply alive_stopped.
  - by eapply alive_failed.
Qed.

Lemma enlist_untasked tr : Forall (enlist_commit backend i) tr → Forall untasked tr.
Proof.
  intros Htr. eapply Forall_impl; [exact Htr|].
  intros o [(s1 & s2 & -> & _)|(session & s1 & s2 & -> & _)]; exact I.
Qed.

Lemma joined_untasked session tr (s' : S) : joined_by evolves backend i session tr s' → Forall untasked tr.
Proof.
  intros (tr0 & s1 & s2 & -> & Hp & _). apply Forall_app. split; [|by repeat constructor].
  eapply enlist_untasked, Forall_impl; [exact Hp|]. by left.
Qed.

(** A report does not concern the tasks. *)
Lemma accounted_without tr event joins p :
  accounted (tr ++ [Emitted event] ++ joins) p ↔ accounted (tr ++ joins) (S := S) p.
Proof.
  unfold accounted. rewrite !spawned_app, !reaped_app, !Forall_app. cbn.
  assert (went_fine (S := S) (Emitted event)) as Hw by done. split; [by intros [? (? & _ & ?)]|].
  intros [? [? ?]]. split_and!; [done|done|by repeat constructor|done].
Qed.

(** The session that replaces [session], once the tasks are joined. *)
Lemma replaced_alive session session' tr0 joins failed tr' s' p :
  life session tr0 → draining_at tr0 (Draining LeaseDrain) joins p → w_tasks (shared p) = [] →
  Forall (enlist_commit backend i) failed → joined_by evolves backend i session' tr' s' →
  alive session' p (tr0 ++ [Emitted (LeaseRecovery (instance_str i))] ++ joins ++ failed ++ tr' ++
    [Emitted (LeaseReregistered (instance_str i) (SessionId_wire_value (eps_session session')))]).
Proof.
  intros Hl (Hj & Ha & Hr & _) Hn Hf Hb. assert (tasks_of p = []) as Hp by (unfold tasks_of; by rewrite Hn).
  destruct (accounted_drained _ _ Ha Hp) as [Hd Hfine]. split_and!; [by eapply life_again| |done].
  set (rest := failed ++ tr' ++ _). apply accounted_without. rewrite app_assoc. apply accounted_untasked; [done|].
  subst rest. rewrite !Forall_app. split_and!; [by apply enlist_untasked|by eapply joined_untasked|by repeat constructor].
Qed.

(** Attempts that ended without a session. *)
Lemma lost_stopped session tr0 joins failed p r :
  life session tr0 → draining_at tr0 (Draining LeaseDrain) joins p → w_tasks (shared p) = [] →
  Forall (enlist_commit backend i) failed →
  stopped (r, session) (((tr0 ++ [Emitted (LeaseRecovery (instance_str i))]) ++ joins) ++ failed).
Proof.
  intros Hl (Hj & Ha & _) Hn Hf. assert (tasks_of p = []) as Hp by (unfold tasks_of; by rewrite Hn).
  split.
  - right. exists tr0, joins, failed. split_and!; [by rewrite <-!app_assoc|done..|]. right. by eapply accounted_drained.
  - intros _. eapply accounted_drained; [|exact Hp]. apply accounted_untasked; [|by apply enlist_untasked].
    rewrite <-app_assoc. by apply accounted_without.
Qed.

Lemma recover_turned st tr0 s :
  alive (sv_session st) (sv_pool st) tr0 → w_loop (shared (sv_pool st)) = Waiting →
  ensures env (recover answers state_model_name state_model codec backend i lease_ttl st) s (λ tr _ lr, turned (tr0 ++ tr) lr).
Proof.
  intros Hal Hw. apply emit_turned. intros s1. apply then_turned.
  eapply holds_mono; [apply drain_without_outcome; by eapply draining_start|].
  intros joins s2 [p drained_] [Hj Hd]. cbn [fst snd] in *. destruct drained_ as [[]|e].
  2:{ apply turned_ret. split; [|done]. right. exists tr0, joins, []. rewrite !app_nil_r, <-app_assoc.
      split_and!; [done|apply Hal|done|constructor|by left]. }
  destruct (Hd eq_refl) as [Hat Hn]. apply then_turned. eapply holds_mono; [apply replaced_outcome|].
  intros tr s3 [[session|]|e] Hr.
  2,3: apply turned_ret; eapply lost_stopped; [apply Hal|done..].
  destruct Hr as (failed & tr' & s' & -> & Hf & Hb). apply emit_turned. intros s4. apply restart_turned.
  - rewrite <-!app_assoc. eapply replaced_alive; [apply Hal|done..].
  - right. split; [apply Hat|done].
  - unfold tasks_of. by rewrite Hn.
Qed.

Lemma queue_turned st tr0 s :
  alive (sv_session st) (sv_pool st) tr0 → w_loop (shared (sv_pool st)) = Waiting →
  ensures env (on_queue answers state_model_name state_model codec backend i st) s (λ tr _ lr, turned (tr0 ++ tr) lr).
Proof.
  intros Hl Hw. apply quiet_then; [apply quiet_next|]. intros [[event|e] watch] s1; cbn [fst snd].
  - destruct (String.eqb _ _); [|by apply turned_ret]. destruct (parse_event_messages _ _).
    + apply process_turned; [done|by left].
    + apply turned_ret. by eapply alive_failed.
  - assert (∀ s2, ensures env (let* _ := emit (CoordinationRetry "participant watch") in
      let* resumed := droppable (resume_until_available (sv_watch (with_watch st watch))) in
      match resumed with
      | None => stop_serving answers (with_watch st watch)
      | Some (Ok w) => Ret (inl (with_watch (with_watch st watch) w))
      | Some (Err e) => Ret (inr (Err (ParticipantWatch e), sv_session (with_watch st watch)))
      end) s2 (λ tr _ lr, turned (tr0 ++ tr) lr)) as Hresume.
    { intros s2. apply emit_turned. intros s3.
      assert (alive (sv_session st) (sv_pool st) (tr0 ++ [Emitted (CoordinationRetry "participant watch")])) as Hl'.
      { eapply alive_serves; [done|constructor; [by right; right|constructor]| |apply Hl].
        apply accounted_untasked; [apply Hl|by repeat constructor]. }
      apply quiet_then; [apply quiet_resume|]. intros [[w|e']|] s4; [by apply turned_ret|apply turned_ret; by eapply alive_failed|].
      by apply stop_turned. }
    destruct e as [[]| |revision]; try (apply turned_ret; by eapply alive_failed); try apply Hresume.
    apply quiet_then; [apply quiet_queue|]. intros [[[messages r] w]|e'] s2; [apply process_turned; [done|by left]|].
    apply turned_ret. by eapply alive_failed.
Qed.

(** A finished task is taken, and the latest image scanned again. *)
Lemma worker_turned st tr0 s :
  alive (sv_session st) (sv_pool st) tr0 → w_loop (shared (sv_pool st)) = Waiting →
  ensures env (on_worker answers state_model_name state_model backend i st) s (λ tr _ lr, turned (tr0 ++ tr) lr).
Proof.
  intros (Hl & Ha & Hr) Hw. apply then_turned. eapply holds_mono; [apply join_next_outcome|].
  intros tr s1 [p next] [[Ht Hl' Hr'] Htaken]. cbn [fst snd] in *.
  assert (accounted tr0 p) as Ha' by (split; [rewrite Ht; apply Ha|apply Ha]). specialize (Hr' Hr).
  destruct next as [[t rest]|].
  2:{ destruct Htaken as [-> _]. rewrite app_nil_r. apply process_turned; [done|]. left. by rewrite Hl'. }
  pose proof (joins_serve (sv_session st) _ (taken_joins _ _ _ _ Htaken)) as Hserves.
  destruct (handle_worker_result (joined t)) as [[]|e] eqn:Hok.
  2:{ apply turned_ret. split; [|done]. left. by apply life_serves. }
  assert (reached i (update (join i rest t) p)) as Hj.
  { destruct Htaken as (Hover & (before & after & -> & Htasks) & _). eapply reached_step; [done|].
    eapply step_join; [by rewrite Hl'|done|done]. }
  apply (delivered_turned _ _ _ (update (join i rest t) p)).
  - eapply alive_serves; [done|done| |done]. eapply accounted_taken; [done|done|done|].
    unfold tasks_of, update, join. cbn. by rewrite Hok.
  - intros s2. apply deliver_outcome; [|done|apply scheduled_own]. unfold update, join. cbn. by rewrite Hok.
Qed.

Lemma serve_turned st tr0 s :
  turned tr0 (inl st) →
  ensures env (serve_turn answers state_model_name state_model codec backend i lease_ttl st) s
    (λ tr _ lr, turned (tr0 ++ tr) lr).
Proof.
  intros [Hl Hw]. apply quiet_then; [apply commits_select|]. intros [| | |] s2.
  - by apply stop_turned.
  - by apply queue_turned.
  - apply quiet_then; [apply quiet_keep|]. intros [[| |]|e] s3.
    + by apply turned_ret.
    + by apply recover_turned.
    + by apply stop_turned.
    + apply turned_ret. by eapply alive_failed.
  - by apply worker_turned.
Qed.

Lemma serve_ended ready session tr0 s s0 :
  joined_by evolves backend i session tr0 s0 →
  ensures env (serve answers state_model_name state_model codec backend i lease_ttl ready session) s
    (λ tr _ r, stopped r.1 (tr0 ++ tr)).
Proof.
  intros Hb. assert (life session tr0) as Hl by by eapply life_joined.
  assert (∀ tr1 e (called : bool) s1, life session tr1 →
    ensures env (Ret (Err e, session, called)) s1 (λ tr _ x, stopped x.1 (tr1 ++ tr))) as Hret.
  { intros tr1 e called s1 Hl1. apply (ensures_ret env evolves). intros s' _. rewrite app_nil_r. split; [by left|done]. }
  apply quiet_then; [apply quiet_queue|]. intros [[[messages revision] watch]|e] s1; [|by apply Hret].
  set (p0 := MkPool _ _). assert (accounted tr0 p0) as Ha.
  { destruct (untasked_none tr0) as (E1 & E2 & Hf); [by eapply joined_untasked|]. split; [by rewrite E1, E2|done]. }
  assert (reached i p0) as Hr by (eexists; apply reach_start).
  apply (then_turned tr0 _ _ _ (λ tr r, stopped r.1 tr)).
  eapply holds_mono; [apply (process_outcome session messages revision p0); [by left|done]|].
  intros tr s2 [p r] (Hsp & Htasks & Hrp & Hok). cbn [fst snd] in *.
  assert (alive session p (tr0 ++ tr)) as Hal.
  { eapply (alive_serves _ p0); [done| |eapply accounted_spawns; [exact Ha|done|done]|done].
    eapply Forall_impl; [exact Hsp|]. by left. }
  destruct r as [[]|e]; [|apply Hret, Hal]. destruct ready as [[]|e]; [|apply Hret, Hal].
  apply (then_turned (tr0 ++ tr) _ _ _ (λ tr r, stopped r.1 tr)).
  eapply holds_mono; [apply (holds_iter _ _ _ _ (λ st acc _, turned ((tr0 ++ tr) ++ acc) (inl st))
    (λ acc _ e, stopped e ((tr0 ++ tr) ++ acc)))|].
  - rewrite app_nil_r. split; [done|]. by apply Hok.
  - intros st acc s3 Hst. eapply holds_mono; [by apply serve_turned|]. intros tr' s4 [st'|e]; cbn; by rewrite !app_assoc.
  - intros tr' s4 e He. apply (ensures_ret env evolves). intros s' _. by rewrite app_nil_r.
Qed.
End life.

(** The request that revokes the lease of the session is served. *)
Definition revokes {S} `{EtcdStore S} (session : EtcdParticipantSession) (s1 s2 : S) : Prop :=
  Etcd.serve (LeaseRevoke (eps_lease session)) s1 tt s2.

(** The event that reports an outcome. *)
Definition outcome_event (i : InstanceId) (r : result unit ParticipantRuntimeError) : RuntimeEvent :=
  match r with
  | Ok _ => GracefulShutdown (instance_str i)
  | Err e => FatalRuntimeError (instance_str i) (display_participant_error e)
  end.

Lemma finish_revokes {S : Type} `{EtcdLaws S} (env rely : S → S → Prop) `{!Rely env rely} i session run_result s :
  ensures env (finish_run i session run_result) s (λ tr s' r, ∃ s1 s2,
    rely s s1 ∧ rely s2 s' ∧ tr = commit s1 s2 ++ [Emitted (outcome_event i r)] ∧
    (s2 = s1 ∨ revokes session s1 s2) ∧ (r = Ok tt → run_result = Ok tt ∧ revokes session s1 s2)).
Proof.
  apply holds_assoc. assert (∀ s1 s2 event r, rely s s1 → event = outcome_event i r →
    s2 = s1 ∨ revokes session s1 s2 → (r = Ok tt → run_result = Ok tt ∧ revokes session s1 s2) →
    ensures env (let* _ := emit event in Ret r) s2 (λ tr s' r, ∃ s1' s2', rely s s1' ∧ rely s2' s' ∧
      commit s1 s2 ++ tr = commit s1' s2' ++ [Emitted (outcome_event i r)] ∧
      (s2' = s1' ∨ revokes session s1' s2') ∧ (r = Ok tt → run_result = Ok tt ∧ revokes session s1' s2'))) as Hend.
  { intros s1 s2 event r Hs1 -> Hrev Hok. apply (ensures_emit env rely). intros s3 Hs3. apply (ensures_ret env rely).
    intros s' Hs'. exists s1, s2. split_and!; [done|by etrans|done|done|done]. }
  apply (ensures_call env rely).
  - intros s1 [] s2 Hs1 Hserve. apply ensures_bind_ret. cbn [map_err].
    destruct run_result as [[]|e]; apply Hend; try done; by right.
  - intros text s1 s2 Hs1 Hserve. apply ensures_bind_ret. cbn [map_err].
    assert (s2 = s1 ∨ revokes session s1 s2) as Hrev by (destruct Hserve as [?|[[] ?]]; [by left|by right]).
    destruct run_result as [[]|e]; by apply Hend.
Qed.

(** Executions in sequence. *)
Lemma path_then {S : Type} `{EtcdLaws S} (env rely : S → S → Prop) `{!Rely env rely} s tr s1 tr' s' :
  Etcd.path rely s tr s1 → Etcd.path rely s1 tr' s' → Etcd.path rely s (tr ++ tr') s'.
Proof.
  intros Hp Hp'. revert s Hp. induction tr as [|[s2 s3|e|s2 e o|e] tr IH]; intros s; cbn; [|naive_solver..].
  intros Hs. by apply (path_later env rely s s1).
Qed.

(** * Theorem *)

(** C11: the life of a participant, whatever the other clients do and whatever becomes of
    its tasks.  A run that gets a session was registered first; from then on the loop
    itself writes nothing: it spawns tasks in the name of the session it holds, for
    messages of its instance, and joins tasks, until the loss of the lease is reported.
    The next session is registered, where no live record was, only after every task
    spawned so far has been joined without an error, and is reported before a task is
    spawned in its name.  The run ends with at most the revocation of the lease of the
    session it holds, and reports the outcome it returns.  When it returns without an
    error, every task it ever spawned had been joined without an error, and in the store
    reached after that the revocation of that lease was served.  A run without a session has made nothing but
    attempts to register, and reports nothing when they fail. *)
Theorem participant_life {S : Type} `{EtcdLaws S} env answers state_model_name state_model codec backend i lease_ttl ready (s : S) :
  (∀ s s', env s s' → evolves s s') →
  ensures env (participant_run answers state_model_name state_model codec backend i lease_ttl ready) s (λ tr s' r,
    (∃ session tr0 s1 s2, ended backend i session tr0 ∧
       tr = tr0 ++ commit s1 s2 ++ [Emitted (outcome_event i r.1)] ∧ Etcd.path evolves s tr0 s1 ∧ evolves s2 s' ∧
       (s2 = s1 ∨ revokes session s1 s2) ∧
       (r.1 = Ok tt → drained tr0 ∧ Forall went_fine tr0 ∧ revokes session s1 s2)) ∨
    (∃ attempts, Forall (prepares backend) attempts ∧ r = (Ok tt, false) ∧
       tr = attempts ++ [Emitted (GracefulShutdown (instance_str i))]) ∨
    (∃ e, r = (Err e, false)) ∧ Forall (enlist_commit backend i) tr).
Proof.
  intros Henv. pose proof (evolves_rely env Henv) as Hrely. unfold participant_run, run_until.
  destruct (RegistrationOptions_new lease_ttl) as [options|e].
  2:{ apply (ensures_ret env evolves). intros s' _. right; right. split; [eauto|constructor]. }
  apply holds_bind. eapply holds_mono; [apply (ensures_path env evolves), (register_session_outcome env evolves)|].
  intros tr s1 [[session|]|e] [Hr Hp1].
  - apply holds_bind. eapply holds_mono; [apply (ensures_path env evolves); eapply (serve_ended env Henv); exact Hr|].
    intros tr' s2 [[result last] called] [[Hend Hok] Hp2]. cbn [fst snd] in Hend, Hok |- *. apply holds_bind.
    eapply holds_mono; [apply (finish_revokes env evolves)|]. intros tr2 s3 r (s4 & s5 & Hs4 & Hs5 & -> & Hrev & Hfine).
    apply (ensures_ret env evolves). intros s' Hs'. left. exists last, (tr ++ tr'), s4, s5.
    split_and!; [done|by rewrite app_nil_r, app_assoc| |by etrans|done|].
    + pose proof (path_then env evolves _ _ _ [] s4 Hp2 Hs4) as Hp3. rewrite app_nil_r in Hp3. by eapply (path_then env evolves).
    + cbn [fst]. intros Er. destruct (Hfine Er) as [E1 E2]. destruct (Hok E1). by split_and!.
  - apply (ensures_emit env evolves). intros s2 _. apply (ensures_ret env evolves). intros s' _. right; left. by exists tr.
  - apply (ensures_ret env evolves). intros s' _. right; right. rewrite app_nil_r. split; [eauto|]. by eapply enrolled_err.
Qed.

(** ** A participant that is stopped while it executes a message *)

Definition ex_answers (n : nat) : task_answers := MkTaskAnswers (Ok AlreadyCompleted) (Ok (MkRevision 2)) "".

Definition ex_waiting : mem_store := mem_effect ex_empty [TxnPut (pending_key ex_backend) "queue" 0].

Definition ex_serving : itree coordE (result unit ParticipantRuntimeError * bool) :=
  participant_run ex_answers (λ _, Err "") (Some leader_standby) ex_codec ex_backend (MkInstanceId "node-a")
    DEFAULT_LEASE_TTL (Ok tt).

(** The run as a check on the store it starts from. *)
Definition ex_served (m : mem_store) : bool :=
  match run_mem 200 ex_serving m with
  | Some (tr, _, (Ok _, true)) => bool_decide (spawned tr = [ex_message])
  | _ => false
  end.

Lemma ex_served_run m : ex_served m = true →
  ∃ tr m', runs alone ex_serving m tr m' (Ok tt, true) ∧ spawned tr = [ex_message].
Proof.
  unfold ex_served. intros Hok. destruct (run_mem 200 ex_serving m) as [[[tr m'] r]|] eqn:Hrun; [|discriminate Hok].
  apply run_mem_sound in Hrun. destruct r as [[[]|] []]; try discriminate Hok.
  exists tr, m'. split; [exact Hrun|]. by apply bool_decide_eq_true_1 in Hok.
Qed.

Lemma ex_serving_result : ex_served ex_waiting = true.
Proof. vm_compute. reflexivity. Qed.

Lemma spawned_ending {S} `{EtcdStore S} (tr0 : list (observation S)) s1 s2 event :
  spawned (tr0 ++ commit s1 s2 ++ [Emitted event]) = spawned tr0.
Proof. rewrite !spawned_app. unfold commit. destruct (bool_decide _); cbn; by rewrite app_nil_r. Qed.

Lemma participant_life_witness :
  ∃ (session : EtcdParticipantSession) (tr0 : list (observation mem_store)) s1 s2,
    ended ex_backend (MkInstanceId "node-a") session tr0 ∧ spawned tr0 = [ex_message] ∧ drained tr0 ∧
    revokes session s1 s2.
Proof.
  destruct (ex_served_run ex_waiting ex_serving_result) as (tr & m' & Hrun & Hsp).
  destruct (participant_life alone ex_answers (λ _, Err "") (Some leader_standby) ex_codec ex_backend (MkInstanceId "node-a")
    DEFAULT_LEASE_TTL (Ok tt) ex_waiting alone_evolves _ _ _ Hrun)
    as [(session & tr0 & s1 & s2 & Hend & -> & _ & _ & _ & Hok)|[(attempts & _ & Hr & _)|[[e Hr] _]]].
  - destruct (Hok eq_refl) as (Hd & _ & Hrev). exists session, tr0, s1, s2.
    rewrite spawned_ending in Hsp. exact (conj Hend (conj Hsp (conj Hd Hrev))).
  - discriminate Hr.
  - discriminate Hr.
Defined.
