(* ===== verification/Admin.v ===== *)
(** * Cluster administration

    Models [src/admin.rs]: the writes of an administrator to the metadata that the
    controller plans from.  JSON is the parameter [json]; the records of this file and
    those the controller decodes (ControllerRuntime) have the same fields, which is
    what [same_json] says.

    An instance list is replaced by compare-and-put, so a change is one atomic step
    on the list as it was at that moment; a resource that is accepted is one the
    controller can plan. *)

From Stdlib Require Import SpecFloat.
From S2P Require Import Prelude Identity StateMaps StateModel Session Keys Snapshot MessageThrottle Crush ControllerRuntime.
From S2P Require Import Etcd Metadata.

Definition ADMIN_CAS_RETRIES : nat := 32.

(** ** Specifications *)

Record InstanceSpec := MkInstanceSpec { spec_instance : string; spec_zone : string }.

Record ThrottleSpec := MkThrottleSpec {
  ts_scope : string;
  ts_rebalance_type : string;
  ts_max_in_flight : N
}.

Inductive TransitionLimitTarget :=
| LimitCluster
| LimitResource (resource : ResourceId)
| LimitInstance (instance : InstanceId).

Inductive TransitionRebalanceType := LimitAny | LimitRecoveryBalance | LimitLoadBalance.

Record TransitionLimitSpec := MkTransitionLimitSpec {
  limit_target : TransitionLimitTarget;
  limit_rebalance_type : TransitionRebalanceType;
  limit_max_in_flight : N
}.

Record CrushTopologySpec := MkCrushTopologySpec {
  topo_path : string;
  topo_fault_zone_type : string;
  topo_end_node_type : string
}.

Inductive PlacementSpec :=
| PlaceCrush
| PlaceCrushWithTopology (topology : CrushTopologySpec)
| PlaceSemiAuto (preference_lists : gmap string (list string)).

Record ResourceSpec := MkResourceSpec {
  spec_name : string;
  spec_partitions : N;
  spec_replicas : N;
  spec_state_model : string;
  spec_placement : PlacementSpec
}.

(** ** Records *)

Record InstanceRecord := MkInstanceRecord { ir_name : string; ir_zone : string }.

#[export] Instance InstanceRecord_eq_dec : EqDecision InstanceRecord.
Proof. solve_decision. Defined.

Record AdminTopologyRecord := MkAdminTopologyRecord {
  atr_path : string;
  atr_fault_zone_type : string;
  atr_end_node_type : string
}.

Record AdminPlacementRecord := MkAdminPlacementRecord {
  apr_kind : string;
  apr_replicas : N;
  apr_partitions : list string;
  apr_preference_lists : gmap string (list string);
  apr_topology : option AdminTopologyRecord
}.

Record AdminResourceRecord := MkAdminResourceRecord {
  arr_name : string;
  arr_state_model : string;
  arr_placement : AdminPlacementRecord
}.

Record TransitionLimitRecord := MkTransitionLimitRecord {
  tlr_scope : string;
  tlr_resource : option string;
  tlr_instance : option string;
  tlr_rebalance_type : string;
  tlr_max_in_flight : N
}.

Definition limit_record (limit : TransitionLimitSpec) : TransitionLimitRecord :=
  let '(scope, resource, instance) :=
    match limit_target limit with
    | LimitCluster => ("CLUSTER", None, None)
    | LimitResource resource => ("RESOURCE", Some (resource_str resource), None)
    | LimitInstance instance => ("INSTANCE", None, Some (instance_str instance))
    end in
  let rebalance_type :=
    match limit_rebalance_type limit with
    | LimitAny => "ANY"
    | LimitRecoveryBalance => "RECOVERY_BALANCE"
    | LimitLoadBalance => "LOAD_BALANCE"
    end in
  MkTransitionLimitRecord scope resource instance rebalance_type (limit_max_in_flight limit).

(** serde_json for these records. *)
Record AdminJson := MkAdminJson {
  to_instances : list InstanceRecord → result string string;
  of_instances : string → result (list InstanceRecord) string;
  to_resource : AdminResourceRecord → result string string;
  to_throttles : list ThrottleSpec → result string string;
  to_limits : list TransitionLimitRecord → result string string
}.

(** [map_err(|_| CoordinationError::InvalidValue)] *)
Definition or_invalid_value {A E} (r : result A E) : result A CoordinationError := map_err (λ _, InvalidValue) r.
Definition or_invalid_key {A E} (r : result A E) : result A CoordinationError := map_err (λ _, InvalidKey) r.

(** ** Operations *)

Section admin.
Variable json : AdminJson.
Variable coordination : EtcdCoordination.

Definition ensure_cluster (name : string) : prog unit :=
  if negb (String.eqb name (cluster coordination)) || is_blank name || contains_nul name
  then Ret (Err InvalidCluster)
  else
    let! created := compare_and_put_absent coordination "controller/cluster" name in
    if created : bool then Ret (Ok tt)
    else
      let! existing := get_metadata coordination "controller/cluster" in
      if bool_decide ((existing ≫= entry_value) = Some name) then Ret (Ok tt)
      else Ret (Err InvalidCluster).

Definition decode_instances (entry : option MetadataEntry) : result (list InstanceRecord) CoordinationError :=
  match entry ≫= entry_value with
  | None => Ok []
  | Some value => or_invalid_value (of_instances json value)
  end.

Definition by_name (left right : InstanceRecord) : comparison := rust_cmp (ir_name left) (ir_name right).

Definition named (instance : InstanceId) (record : InstanceRecord) : bool :=
  String.eqb (ir_name record) (instance_str instance).

(** [retain], [push] and [sort_by] of [put_instance]. *)
Definition upsert (instance : InstanceId) (zone : string) (instances : list InstanceRecord)
  : list InstanceRecord :=
  sort_by by_name
    (List.filter (λ record, negb (named instance record)) instances
     ++ [MkInstanceRecord (instance_str instance) zone]).

(** [.await?.applied()] *)
Definition cas_applied (t : prog CasResult) : prog bool := let! r := t in Ret (Ok (applied r)).

Fixpoint put_instance_attempts (attempts : nat) (instance : InstanceId) (zone : string) : prog unit :=
  match attempts with
  | O => Ret (Err Contention)
  | S attempts =>
      let! current := get_metadata coordination INSTANCE_CONFIGS_KEY in
      try! decoded := decode_instances current in
      let instances := upsert instance zone decoded in
      if bool_decide (instances = sort_by by_name decoded) then Ret (Ok tt)
      else
        try! value := or_invalid_value (to_instances json instances) in
        let! applied :=
          (match current with
           | Some entry =>
               cas_applied (compare_and_put coordination INSTANCE_CONFIGS_KEY (entry_revision entry) value)
           | None => compare_and_put_absent coordination INSTANCE_CONFIGS_KEY value
           end) in
        if applied : bool then Ret (Ok tt) else put_instance_attempts attempts instance zone
  end.

Definition put_instance (spec : InstanceSpec) : prog unit :=
  try! instance := or_invalid_key (InstanceId_new (spec_instance spec)) in
  if is_blank (spec_zone spec) || contains_nul (spec_zone spec) then Ret (Err InvalidValue)
  else put_instance_attempts ADMIN_CAS_RETRIES instance (spec_zone spec).

Fixpoint remove_instance_attempts (attempts : nat) (instance : InstanceId) : prog unit :=
  match attempts with
  | O => Ret (Err Contention)
  | S attempts =>
      let! current := get_metadata coordination INSTANCE_CONFIGS_KEY in
      match current with
      | None => Ret (Ok tt)
      | Some current =>
          try! instances := decode_instances (Some current) in
          if negb (existsb (named instance) instances) then Ret (Ok tt)
          else
            try! value := or_invalid_value
              (to_instances json (List.filter (λ record, negb (named instance record)) instances)) in
            let! applied := cas_applied (compare_and_put_if_live_absent coordination INSTANCE_CONFIGS_KEY
              (entry_revision current) instance value) in
            if applied : bool then Ret (Ok tt)
            else
              let! live := live_session coordination instance in
              match live with
              | Some _ => Ret (Err (InstanceStillLive instance))
              | None => remove_instance_attempts attempts instance
              end
      end
  end.

Definition remove_instance (instance_id : string) : prog unit :=
  try! instance := or_invalid_key (InstanceId_new instance_id) in
  remove_instance_attempts ADMIN_CAS_RETRIES instance.

(** [(0..partitions).map(|index| format!("{}_{}", resource, index))] *)
Definition crush_partitions (resource : ResourceId) (partitions : N) : list string :=
  (λ index, resource_str resource +:+ "_" +:+ pretty (N.of_nat index)) <$> seq 0 (N.to_nat partitions).

(** The checks of the SEMI_AUTO arm for one partition. *)
Definition check_preference (replicas : N) (partition : string) (instances : list string)
  : result unit CoordinationError :=
  let? _ := or_invalid_key (PartitionId_new partition) in
  if negb (len instances =? replicas)%N then Err InvalidValue
  else if negb (N.of_nat (size (list_to_set instances : gset string)) =? len instances)%N
  then Err InvalidValue
  else try_fold (λ _ instance, let? _ := or_invalid_key (InstanceId_new instance) in Ok tt) tt instances.

Definition placement_record (resource : ResourceId) (spec : ResourceSpec)
  : result AdminPlacementRecord CoordinationError :=
  match spec_placement spec with
  | PlaceCrush =>
      Ok (MkAdminPlacementRecord "CRUSH" (spec_replicas spec) (crush_partitions resource (spec_partitions spec)) ∅ None)
  | PlaceCrushWithTopology topology =>
      Ok (MkAdminPlacementRecord "CRUSH" (spec_replicas spec) (crush_partitions resource (spec_partitions spec)) ∅
            (Some (MkAdminTopologyRecord (topo_path topology) (topo_fault_zone_type topology)
                     (topo_end_node_type topology))))
  | PlaceSemiAuto preference_lists =>
      if negb (N.of_nat (size preference_lists) =? spec_partitions spec)%N then Err InvalidValue
      else
        let? _ := try_fold (λ _ '(partition, instances), check_preference (spec_replicas spec) partition instances)
          tt (entries preference_lists) in
        Ok (MkAdminPlacementRecord "SEMI_AUTO" (spec_replicas spec) [] preference_lists None)
  end.

(** The record of a resource, with its name. *)
Definition resource_record (spec : ResourceSpec) : result (ResourceId * AdminResourceRecord) CoordinationError :=
  let? resource := or_invalid_key (ResourceId_new (spec_name spec)) in
  if (spec_partitions spec =? 0)%N || (spec_replicas spec =? 0)%N
     || negb (String.eqb (spec_state_model spec) "LeaderStandby")
  then Err InvalidValue
  else
    let? placement := placement_record resource spec in
    Ok (resource, MkAdminResourceRecord (resource_str resource) (spec_state_model spec) placement).

Definition resource_key (resource : ResourceId) : string := "controller/resources/" +:+ resource_str resource.

Definition put_resource (spec : ResourceSpec) : prog unit :=
  try! both := resource_record spec in
  try! value := or_invalid_value (to_resource json both.2) in
  let! current := get_metadata coordination (resource_key both.1) in
  if bool_decide ((current ≫= entry_value) = Some value) then Ret (Ok tt)
  else
    let! _ := put_metadata coordination (resource_key both.1) value 0 in
    Ret (Ok tt).

Definition remove_resource (resource_id : string) : prog unit :=
  try! _ := or_invalid_key (ResourceId_new resource_id) in
  Ret (Err ResourceDeletionDisabled).

Definition put_throttles (throttles : list ThrottleSpec) : prog unit :=
  if existsb (λ throttle, (ts_max_in_flight throttle =? 0)%N || is_blank (ts_scope throttle)) throttles
  then Ret (Err InvalidValue)
  else
    try! value := or_invalid_value (to_throttles json throttles) in
    let! _ := put_metadata coordination THROTTLES_KEY value 0 in
    Ret (Ok tt).

Definition put_transition_limits (limits : list TransitionLimitSpec) : prog unit :=
  if existsb (λ limit, (limit_max_in_flight limit =? 0)%N) limits then Ret (Err InvalidValue)
  else
    try! value := or_invalid_value (to_limits json (limit_record <$> limits)) in
    let! _ := put_metadata coordination THROTTLES_KEY value 0 in
    Ret (Ok tt).
End admin.

(** * Instance lists *)

(** The records of a list as the controller decodes them. *)
Definition config_record (r : InstanceRecord) : InstanceConfigRecord :=
  MkInstanceConfigRecord (ir_name r) (ir_zone r).

Definition config_pair (r : InstanceRecord) : InstanceId * string := (MkInstanceId (ir_name r), ir_zone r).

(** What the controller makes of a list. *)
Definition configs_of (l : list InstanceRecord) : gmap InstanceId string := btree_collect (config_pair <$> l).

Definition all_named (l : list InstanceRecord) : Prop := Forall (λ r, ir_name r ≠ EmptyString) l.

Lemma collect_lookup {K V} `{Countable K} (l : list (K * V)) (k : K) :
  btree_collect l !! k = snd <$> last (List.filter (λ p, bool_decide (p.1 = k)) l).
Proof.
  induction l as [|p l IH] using rev_ind; [done|]. rewrite btree_collect_snoc, List.filter_app. cbn.
  case_bool_decide as Hk; cbn.
  - rewrite last_snoc, Hk. by rewrite lookup_insert_eq.
  - by rewrite app_nil_r, lookup_insert_ne.
Qed.

Lemma collect_elem {K V} `{Countable K} (l : list (K * V)) k v :
  NoDup l.*1 → (k, v) ∈ l → btree_collect l !! k = Some v.
Proof.
  induction l as [|p l IH] using rev_ind; [by intros _ ?%elem_of_nil|].
  rewrite fmap_app, btree_collect_snoc. intros (Hnd & Hdisj & _)%NoDup_app [Hin|Hin%list_elem_of_singleton]%elem_of_app.
  - rewrite lookup_insert_ne; [by apply IH|]. intros Heq. apply (Hdisj k); [by apply (list_elem_of_fmap_2 fst l (k, v))|].
    rewrite <-Heq. left.
  - subst p. apply lookup_insert_eq.
Qed.

Lemma collect_inv {K V} `{Countable K} (l : list (K * V)) k v : btree_collect l !! k = Some v → (k, v) ∈ l.
Proof.
  induction l as [|[k' v'] l IH] using rev_ind; [done|]. rewrite btree_collect_snoc. cbn.
  destruct (decide (k' = k)) as [->|Hne].
  - rewrite lookup_insert_eq. intros [= ->]. set_solver.
  - rewrite lookup_insert_ne by done. set_solver.
Qed.

Lemma collect_not_elem {K V} `{Countable K} (l : list (K * V)) k :
  (∀ v, (k, v) ∉ l) → btree_collect l !! k = None.
Proof.
  induction l as [|[k' v] l IH] using rev_ind; [done|]. intros Hno. rewrite btree_collect_snoc. cbn.
  rewrite lookup_insert_ne; [|intros ->; apply (Hno v); set_solver]. apply IH. intros v' Hv. apply (Hno v'). set_solver.
Qed.

(** The zone of an instance is that of its last record. *)
Lemma configs_lookup l i : configs_of l !! i = ir_zone <$> last (List.filter (named i) l).
Proof.
  unfold configs_of. rewrite collect_lookup.
  assert (List.filter (λ p : InstanceId * string, bool_decide (p.1 = i)) (config_pair <$> l) =
          config_pair <$> List.filter (named i) l) as ->.
  { induction l as [|r l IH]; [done|]. cbn. rewrite IH.
    assert (bool_decide (MkInstanceId (ir_name r) = i) = named i r) as ->; [|by destruct (named i r)].
    unfold named. destruct i as [n]. cbn. destruct (String.eqb_spec (ir_name r) n) as [->|Hne].
    - by rewrite bool_decide_eq_true_2.
    - rewrite bool_decide_eq_false_2; [done|]. by intros [= ?]. }
  by rewrite fmap_last, <-option_fmap_compose.
Qed.

Lemma named_same i x y : named i x = true → named i y = true → cmp_leb (by_name x y) = true.
Proof.
  unfold named, by_name. intros ->%String.eqb_eq ->%String.eqb_eq. unfold rust_cmp, ord_string.
  by rewrite string_compare_refl.
Qed.

Lemma filter_other i j l : i ≠ j →
  List.filter (named j) (List.filter (λ r, negb (named i r)) l) = List.filter (named j) l.
Proof.
  intros Hne. induction l as [|r l IH]; [done|]. cbn. destruct (named i r) eqn:Hi; cbn; rewrite IH; [|done].
  destruct (named j r) eqn:Hj; [|done]. apply String.eqb_eq in Hi, Hj. destruct Hne.
  destruct i, j. cbn in *. congruence.
Qed.

Lemma filter_self i l : List.filter (named i) (List.filter (λ r, negb (named i r)) l) = [].
Proof. induction l as [|r l IH]; [done|]. cbn. destruct (named i r) eqn:Hi; cbn; [done|]. by rewrite Hi. Qed.

Lemma sorted_configs l : configs_of (sort_by by_name l) = configs_of l.
Proof.
  apply map_eq. intros j. rewrite !configs_lookup. unfold sort_by.
  by rewrite filter_stable_sort by (intros; by eapply named_same).
Qed.

Lemma filter_upsert i j zone l :
  List.filter (named j) (upsert i zone l) =
  if bool_decide (i = j) then [MkInstanceRecord (instance_str i) zone] else List.filter (named j) l.
Proof.
  unfold upsert, sort_by. rewrite filter_stable_sort by (intros; by eapply named_same). rewrite List.filter_app.
  case_bool_decide as Hij.
  - subst j. rewrite filter_self. cbn. unfold named. cbn. by rewrite String.eqb_refl.
  - rewrite filter_other by done. cbn. unfold named at 2. cbn.
    destruct (String.eqb_spec (instance_str i) (instance_str j)) as [Heq|]; [|by rewrite app_nil_r].
    destruct Hij, i, j. cbn in Heq. congruence.
Qed.

Lemma upsert_configs i zone l : configs_of (upsert i zone l) = <[i := zone]> (configs_of l).
Proof.
  apply map_eq. intros j. rewrite configs_lookup, filter_upsert. case_bool_decide as Hij.
  - subst j. by rewrite lookup_insert_eq.
  - by rewrite lookup_insert_ne, configs_lookup.
Qed.

Lemma filter_unnamed i l :
  List.filter (named i) l = [] → List.filter (λ r, negb (named i r)) l = l ∧ Forall (λ r, named i r = false) l.
Proof.
  induction l as [|r l IH]; [done|]. cbn. destruct (named i r) eqn:Hr; [done|]. intros [Heq Hall]%IH. cbn.
  by rewrite Heq; split; [|constructor].
Qed.

(** The only record of an instance is the one to be put: nothing changes. *)
Lemma upsert_same i zone l :
  List.filter (named i) l = [MkInstanceRecord (instance_str i) zone] → upsert i zone l = sort_by by_name l.
Proof.
  intros Hl. assert (∃ l1 l2, l = l1 ++ MkInstanceRecord (instance_str i) zone :: l2 ∧
    List.filter (λ r, negb (named i r)) l = l1 ++ l2 ∧ Forall (λ r, named i r = false) l2) as (l1 & l2 & -> & Hf & Hl2).
  { induction l as [|r l IH]; [done|]. cbn in Hl |- *. destruct (named i r) eqn:Hr; cbn [negb].
    - injection Hl as -> [Heq Hall]%filter_unnamed. exists [], l. by rewrite Heq.
    - destruct (IH Hl) as (l1 & l2 & -> & Hf & Hl2). exists (r :: l1), l2. cbn. by rewrite Hf. }
  unfold upsert, sort_by. rewrite Hf, <-app_assoc. symmetry.
  apply (stable_sort_move (λ x y, cmp_leb (by_name x y))).
  - intros x y. apply (key_leb_total (ir_name x) (ir_name y)).
  - intros x y z. apply (key_leb_trans (ir_name x) (ir_name y) (ir_name z)).
  - eapply Forall_impl; [exact Hl2|]. intros r Hr Hle.
    destruct (cmp_leb (by_name r _)) eqn:Hge; [|done]. unfold named in Hr. apply String.eqb_neq in Hr. destruct Hr.
    by apply (key_leb_antisym (ir_name r) (instance_str i)).
Qed.

Lemma retain_configs i l : configs_of (List.filter (λ r, negb (named i r)) l) = delete i (configs_of l).
Proof.
  apply map_eq. intros j. rewrite configs_lookup. destruct (decide (i = j)) as [->|Hne].
  - by rewrite filter_self, lookup_delete_eq.
  - by rewrite filter_other, lookup_delete_ne, configs_lookup.
Qed.

Lemma absent_configs i l : existsb (named i) l = false → delete i (configs_of l) = configs_of l.
Proof.
  intros Hno. apply delete_id. rewrite configs_lookup. induction l as [|r l IH]; [done|].
  cbn in Hno |- *. apply orb_false_elim in Hno as [-> Hno]. by apply IH.
Qed.

Lemma all_named_upsert i zone l : instance_str i ≠ EmptyString → all_named l → all_named (upsert i zone l).
Proof.
  intros Hi Hl. unfold all_named, upsert, sort_by. rewrite stable_sort_perm. apply Forall_app. split; [|by constructor].
  apply Forall_forall. intros r Hr. apply list_elem_of_In, filter_In in Hr as [Hr _].
  rewrite <-list_elem_of_In in Hr. by apply (proj1 (Forall_forall _ _) Hl).
Qed.

Lemma all_named_retain i l : all_named l → all_named (List.filter (λ r, negb (named i r)) l).
Proof.
  intros Hl. apply Forall_forall. intros r Hr. apply list_elem_of_In, filter_In in Hr as [Hr _].
  rewrite <-list_elem_of_In in Hr. by apply (proj1 (Forall_forall _ _) Hl).
Qed.

(** ** On the wire *)

(** The records in the controller's types. *)
Definition wire_placement (r : AdminPlacementRecord) : PlacementRecord :=
  MkPlacementRecord (apr_kind r) (apr_replicas r) (apr_preference_lists r) (apr_partitions r)
    ((λ t, MkCrushTopologyRecord (atr_path t) (atr_fault_zone_type t) (atr_end_node_type t)) <$> apr_topology r).

Definition wire_resource (r : AdminResourceRecord) : ResourceRecord :=
  MkResourceRecord (arr_name r) (arr_state_model r) (wire_placement (arr_placement r)).

Definition wire_limit (r : TransitionLimitRecord) : ThrottleRecord :=
  MkThrottleRecord (tlr_scope r) (tlr_resource r) (tlr_instance r) (tlr_rebalance_type r) (tlr_max_in_flight r).

Definition wire_throttle (t : ThrottleSpec) : ThrottleRecord :=
  MkThrottleRecord (ts_scope t) None None (ts_rebalance_type t) (ts_max_in_flight t).

(** serde_json decodes what it encoded, and both programs name the fields alike. *)
Record same_json (json : AdminJson) (serde : Serde) : Prop := {
  instances_roundtrip : ∀ l text, to_instances json l = Ok text → of_instances json text = Ok l;
  instances_wire : ∀ l text, of_instances json text = Ok l ↔
    from_instance_configs serde text = Ok (config_record <$> l);
  resource_wire : ∀ r text, to_resource json r = Ok text → from_resource serde text = Ok (wire_resource r);
  limits_wire : ∀ l text, to_limits json l = Ok text → from_throttles serde text = Ok (wire_limit <$> l);
  throttles_wire : ∀ l text, to_throttles json l = Ok text → from_throttles serde text = Ok (wire_throttle <$> l)
}.

(** * Instances *)

Section instance_facts.
Context {S : Type} `{EtcdLaws S} (env rely : S → S → Prop) `{!Rely env rely}.
Context (json : AdminJson) (serde : Serde) (Hjson : same_json json serde) (backend : EtcdCoordination).

Abbreviation configs_key := (metadata_key backend INSTANCE_CONFIGS_KEY).

(** The list at a moment. *)
Definition configured (ks : keyspace_t) : result (list InstanceRecord) CoordinationError :=
  match ks !! configs_key with
  | None => Ok []
  | Some kv => or_invalid_value (of_instances json (kv_value kv))
  end.

(** A snapshot that shows the list of the keyspace. *)
Definition shows (ks : keyspace_t) (snapshot : CoordinationSnapshot) : Prop :=
  metadata_value snapshot INSTANCE_CONFIGS_KEY = kv_value <$> ks !! configs_key.

Lemma configured_configs ks snapshot m :
  shows ks snapshot → instance_configs serde snapshot = Ok m →
  ∃ l, configured ks = Ok l ∧ all_named l ∧ m = configs_of l.
Proof.
  unfold shows, instance_configs, configured. intros ->. destruct (ks !! configs_key) as [kv|]; cbn.
  2:{ intros [= <-]. exists []. split_and!; [done|constructor|done]. }
  destruct (from_instance_configs serde (kv_value kv)) as [records|] eqn:Hdec; [|done]. cbn. intros Hrest.
  set (l := (λ r, MkInstanceRecord (icr_name r) (icr_zone r)) <$> records).
  assert (records = config_record <$> l) as Hl.
  { unfold l. rewrite <-list_fmap_compose, <-(list_fmap_id records) at 1. apply list_fmap_ext. by intros _ [] _. }
  rewrite Hl in Hdec, Hrest. apply Hjson in Hdec. rewrite Hdec. exists l. split; [done|]. clear -Hrest.
  destruct (collect_results _ _) as [pairs|] eqn:Hc; [|done]. injection Hrest as <-.
  apply collect_results_ok in Hc. unfold configs_of. clearbody l. revert pairs Hc.
  assert (∀ pairs, Forall2 (λ x y, (let? name := with_text display_identifier_error (InstanceId_new (icr_name x)) in
      Ok (name, icr_zone x)) = Ok y) (config_record <$> l) pairs → all_named l ∧ pairs = config_pair <$> l) as Hall.
  { induction l as [|r l IH]; intros pairs Hc; cbn in Hc; inversion Hc as [|? p ? ps Hp Hps]; subst;
      [split; [constructor|done]|].
    destruct (IH ps Hps) as [Hn ->]. cbn in Hp. unfold InstanceId_new, validate, is_empty in Hp.
    destruct (ir_name r) as [|c t] eqn:Hname; [discriminate Hp|]. injection Hp as <-.
    split; [constructor; [by rewrite Hname|done]|]. cbn. unfold config_pair at 2. by rewrite Hname. }
  intros pairs Hc. destruct (Hall pairs Hc) as [Hn ->]. done.
Qed.

Lemma configs_configured ks snapshot l :
  shows ks snapshot → configured ks = Ok l → all_named l → instance_configs serde snapshot = Ok (configs_of l).
Proof.
  unfold shows, instance_configs, configured. intros ->. destruct (ks !! configs_key) as [kv|]; cbn.
  2:{ intros [= <-] _. done. }
  destruct (of_instances json (kv_value kv)) as [l'|] eqn:Hdec; [|done]. intros [= ->] Hl.
  apply Hjson in Hdec. rewrite Hdec. cbn.
  assert (collect_results (λ record, let? name := with_text display_identifier_error (InstanceId_new (icr_name record)) in
    Ok (name, icr_zone record)) (config_record <$> l) = Ok (config_pair <$> l)) as ->; [|done].
  apply collect_results_ok. clear Hdec. induction Hl as [|r l Hr Hl IH]; [constructor|]. cbn. constructor; [|done].
  cbn. unfold InstanceId_new, validate, is_empty. unfold config_pair. by destruct (ir_name r).
Qed.

(** ** Changes *)

(** The configuration the controller reads changes by [f] from [s1] to [s2]. *)
Definition config_change (f : gmap InstanceId string → gmap InstanceId string) (s1 s2 : S) : Prop :=
  ∀ snapshot1 snapshot2 m, shows (keyspace s1) snapshot1 → shows (keyspace s2) snapshot2 →
    instance_configs serde snapshot1 = Ok m → instance_configs serde snapshot2 = Ok (f m).

(** One write of the list, from a store of which [allowed] holds. *)
Definition config_write (f : gmap InstanceId string → gmap InstanceId string) (allowed : S → Prop) (s1 s2 : S)
  : Prop :=
  allowed s1 ∧ config_change f s1 s2 ∧ ∃ text, metadata_step backend INSTANCE_CONFIGS_KEY text s1 s2.

(** A change that succeeds is one write, or changes nothing where it looked; one
    that fails has written nothing, or lost the answer to its write. *)
Definition change_outcome f allowed (s : S) (tr : list (observation S)) (r : result unit CoordinationError) : Prop :=
  match r with
  | Ok _ => once rely (config_write f allowed) s tr ∨
      tr = [] ∧ ∃ s1, rely s s1 ∧ config_change f s1 s1
  | Err e => tr = [] ∨ (∃ text, e = Etcd text) ∧ once rely (config_write f allowed) s tr
  end.

Lemma change_later f allowed s s1 tr r :
  rely s s1 → change_outcome f allowed s1 tr r → change_outcome f allowed s tr r.
Proof.
  intros Hs. pose proof (once_later rely (config_write f allowed) s s1 tr Hs) as Hlater.
  destruct r as [[]|e]; cbn; [|naive_solver]. intros [?|[-> (s2 & Hs2 & Hc)]]; [left; auto|right].
  split; [done|]. exists s2. split; [by etrans|done].
Qed.

(** Lists and what the controller makes of them. *)
Lemma list_change (g : list InstanceRecord → list InstanceRecord) f (s1 s2 : S) l text :
  (∀ l, all_named l → all_named (g l) ∧ configs_of (g l) = f (configs_of l)) →
  configured (keyspace s1) = Ok l → to_instances json (g l) = Ok text →
  metadata_step backend INSTANCE_CONFIGS_KEY text s1 s2 → config_change f s1 s2.
Proof.
  intros Hg Hl Htext Hstep snapshot1 snapshot2 m H1 H2 Hm.
  destruct (configured_configs _ _ _ H1 Hm) as (l' & Hl' & Hn & ->). rewrite Hl in Hl'. injection Hl' as <-.
  destruct (Hg l Hn) as [Hn' <-]. apply (configs_configured (keyspace s2)); [done| |done].
  pose proof (step_value _ _ _ _ _ Hstep) as Hv. unfold configured.
  destruct (keyspace s2 !! configs_key) as [kv|]; [|discriminate Hv]. injection Hv as ->.
  by rewrite (instances_roundtrip _ _ Hjson _ _ Htext).
Qed.

Lemma list_same f (s1 : S) l :
  (all_named l → f (configs_of l) = configs_of l) → configured (keyspace s1) = Ok l → config_change f s1 s1.
Proof.
  intros Hf Hl snapshot1 snapshot2 m H1 H2 Hm.
  destruct (configured_configs _ _ _ H1 Hm) as (l' & Hl' & Hn & ->). rewrite Hl in Hl'. injection Hl' as <-.
  rewrite Hf by done. by apply (configs_configured (keyspace s1)).
Qed.

(** Where the revision of an entry is the one read, so is the list. *)
Lemma configured_same (s1 s2 : S) kv :
  rely s1 s2 → keyspace s1 !! configs_key = Some kv →
  kv_field (keyspace s2) configs_key kv_mod_revision 0%Z = kv_mod_revision kv →
  configured (keyspace s2) = configured (keyspace s1).
Proof.
  intros Hs Hkv Hrev. apply rely_evolves in Hs as (_ & Hold & _). destruct (kv_bounds s1 _ kv Hkv) as (_ & Hpos & Hle & _).
  unfold configured, kv_field in *. rewrite Hkv.
  destruct (keyspace s2 !! configs_key) as [kv'|] eqn:Hkv'; [|lia].
  rewrite (Hold _ _ Hkv') in Hkv by lia. by injection Hkv as ->.
Qed.

Lemma change_ret f allowed s r :
  (∀ s1, rely s s1 → change_outcome f allowed s [] r) →
  ensures env (Ret r) s (λ tr _ r, change_outcome f allowed s tr r).
Proof. intros Hr. apply (ensures_ret env rely). by intros s1 Hs1; apply (Hr s1). Qed.

(** A conditional write of [value] over the list [l]. *)
Definition written (l : list InstanceRecord) (allowed : S → Prop) (value : string) (s : S)
    (tr : list (observation S)) : Prop :=
  ∃ s1 s2, rely s s1 ∧ configured (keyspace s1) = Ok l ∧ allowed s1 ∧ tr = [Committed s1 s2] ∧
    metadata_step backend INSTANCE_CONFIGS_KEY value s1 s2.

Definition cas_outcome l allowed value (s : S) tr (s' : S) (r : result bool CoordinationError) : Prop :=
  match r with
  | Ok true => written l allowed value s tr
  | Ok false => tr = [] ∧ rely s s'
  | Err e => tr = [] ∨ (∃ text, e = Etcd text) ∧ written l allowed value s tr
  end.

Lemma written_changes g f l allowed value s0 s tr :
  (∀ l, all_named l → all_named (g l) ∧ configs_of (g l) = f (configs_of l)) →
  to_instances json (g l) = Ok value → rely s0 s →
  written l allowed value s tr → once rely (config_write f allowed) s0 tr.
Proof.
  intros Hg Hv Hs (s1 & s2 & Hs1 & Hl & Hall & -> & Hstep). exists s1, s2. split_and!; [by etrans|done|].
  split_and!; [done| |by eexists]. by eapply (list_change g).
Qed.

Lemma cas_txn l allowed value s when (k : TxnResponse → prog bool) :
  (∀ (s : S) b Q, (∀ s', rely s s' → Q [] s' (Ok b)) → ensures env (k (MkTxnResponse (Some (head s)) b)) s Q) →
  (∀ s1, rely s s1 → forallb (compare_holds (keyspace s1)) when = true →
     configured (keyspace s1) = Ok l ∧ allowed s1) →
  ensures env (let! response := call (Transact when (with_marker backend INSTANCE_CONFIGS_KEY
      (TxnPut configs_key value 0))) in k response) s (cas_outcome l allowed value s).
Proof.
  intros Hk Hwhen. apply (ensures_txn env rely).
  - intros s1 s2 Hs1 Hc He%metadata_effect. rewrite (commit_changed _ _ (step_head _ _ _ _ _ He)).
    apply Hk. intros s3 _. destruct (Hwhen s1 Hs1 Hc). by exists s1, s2.
  - intros s1 Hs1 _. apply Hk. intros s2 Hs2. split; [done|by etrans].
  - by left.
  - intros text s1 s2 s3 Hs1 Hc He%metadata_effect _. rewrite (commit_changed _ _ (step_head _ _ _ _ _ He)).
    destruct (Hwhen s1 Hs1 Hc). right. split; [by eexists|]. by exists s1, s2.
Qed.

Lemma cas_absent value s :
  ensures env (compare_and_put_absent backend INSTANCE_CONFIGS_KEY value) s (cas_outcome [] (λ _, True) value s).
Proof.
  apply cas_txn; [intros; by apply (ensures_ret env rely)|]. intros s1 _ Hc. split; [|done]. cbn in Hc.
  apply andb_true_iff in Hc as [Hc%bool_decide_eq_true_1 _]. unfold configured. by rewrite (version_zero _ _ Hc).
Qed.

Lemma cas_header s b (Q : list (observation S) → S → result bool CoordinationError → Prop) :
  (∀ s', rely s s' → Q [] s' (Ok b)) →
  ensures env (let! r := Ret (cas_result (MkTxnResponse (Some (head s)) b)) in Ret (Ok (applied r))) s Q.
Proof.
  intros HQ. unfold cas_result. cbn [txn_header succeeded]. rewrite revision_of_head.
  apply ensures_bind_ret. by apply (ensures_ret env rely).
Qed.

Lemma compare_revision s s1 kv l when :
  rely s s1 → keyspace s !! configs_key = Some kv → configured (keyspace s) = Ok l →
  forallb (compare_holds (keyspace s1)) (CompareModRevision configs_key (kv_mod_revision kv) :: when) = true →
  configured (keyspace s1) = Ok l ∧ forallb (compare_holds (keyspace s1)) when = true.
Proof.
  intros Hs Hkv Hl Hc. cbn [forallb] in Hc. apply andb_true_iff in Hc as [Hc%bool_decide_eq_true_1 Hw].
  by rewrite (configured_same s s1 kv Hs Hkv Hc).
Qed.

Lemma cas_present value s kv l :
  keyspace s !! configs_key = Some kv → configured (keyspace s) = Ok l →
  ensures env (cas_applied (compare_and_put backend INSTANCE_CONFIGS_KEY (MkRevision (kv_mod_revision kv)) value)) s
    (cas_outcome l (λ _, True) value s).
Proof.
  intros Hkv Hl. apply ensures_assoc, cas_txn; [apply cas_header|]. intros s1 Hs1 Hc.
  by destruct (compare_revision _ _ _ _ _ Hs1 Hkv Hl Hc).
Qed.

(** The instance is not live. *)
Definition not_live (i : InstanceId) (s : S) : Prop := keyspace s !! live_key backend i = None.

Lemma cas_not_live value s kv l i :
  keyspace s !! configs_key = Some kv → configured (keyspace s) = Ok l →
  ensures env (cas_applied (compare_and_put_if_live_absent backend INSTANCE_CONFIGS_KEY
      (MkRevision (kv_mod_revision kv)) i value)) s (cas_outcome l (not_live i) value s).
Proof.
  intros Hkv Hl. apply ensures_assoc, cas_txn; [apply cas_header|]. intros s1 Hs1 Hc.
  destruct (compare_revision _ _ _ _ _ Hs1 Hkv Hl Hc) as [Hl1 Hlive]. split; [done|].
  cbn in Hlive. apply andb_true_iff in Hlive as [Hlive%bool_decide_eq_true_1 _]. by apply version_zero.
Qed.

(** After a conditional write: it is the change, or the loop goes on. *)
Lemma cas_then g f allowed l value s0 s (t : prog bool) (k : bool → prog unit) :
  (∀ l, all_named l → all_named (g l) ∧ configs_of (g l) = f (configs_of l)) →
  to_instances json (g l) = Ok value → rely s0 s → ensures env t s (cas_outcome l allowed value s) →
  k true = Ret (Ok tt) →
  (∀ s1, rely s0 s1 → ensures env (k false) s1 (λ tr _ r, change_outcome f allowed s0 tr r)) →
  ensures env (let! x := t in k x) s (λ tr _ r, change_outcome f allowed s0 tr r).
Proof.
  intros Hg Hv Hs Ht Htrue Hfalse. apply holds_bind. eapply holds_mono; [exact Ht|].
  pose proof (written_changes g f l allowed value s0 s) as Hch. intros tr s1 [[|]|e]; cbn [cas_outcome].
  - intros Hw. rewrite Htrue. apply (ensures_ret env rely). intros s2 _. rewrite app_nil_r. left. by apply Hch.
  - intros [-> Hs1]. apply Hfalse. by etrans.
  - intros [->|[Htext Hw]]; apply (ensures_ret env rely); intros s2 _; [by left|]. right. split; [done|].
    rewrite app_nil_r. by apply Hch.
Qed.

Lemma upsert_good i zone :
  instance_str i ≠ EmptyString →
  ∀ l, all_named l → all_named (upsert i zone l) ∧ configs_of (upsert i zone l) = <[i := zone]> (configs_of l).
Proof. intros Hi l Hl. split; [by apply all_named_upsert|apply upsert_configs]. Qed.

(** From the list that was read. *)
Lemma put_from_list i zone s0 s current l (cas : string → prog bool) again :
  instance_str i ≠ EmptyString → rely s0 s → configured (keyspace s) = Ok l → decode_instances json current = Ok l →
  (∀ value, ensures env (cas value) s (cas_outcome l (λ _, True) value s)) →
  (∀ s1, rely s0 s1 → ensures env again s1 (λ tr _ r, change_outcome (<[i := zone]>) (λ _, True) s0 tr r)) →
  ensures env (try! decoded := decode_instances json current in
    if bool_decide (upsert i zone decoded = sort_by by_name decoded) then Ret (Ok tt)
    else try! value := or_invalid_value (to_instances json (upsert i zone decoded)) in
      let! applied := cas value in if applied : bool then Ret (Ok tt) else again) s
    (λ tr _ r, change_outcome (<[i := zone]>) (λ _, True) s0 tr r).
Proof.
  intros Hi Hs Hl -> Hcas Hagain. case_bool_decide as Hsame.
  - apply (ensures_ret env rely). intros s2 _. right. split; [done|]. exists s. split; [done|].
    eapply list_same; [|exact Hl]. intros _. by rewrite <-upsert_configs, Hsame, sorted_configs.
  - destruct (to_instances json (upsert i zone l)) as [value|] eqn:Hv; [|apply (ensures_ret env rely); by left].
    eapply (cas_then (upsert i zone)); [by apply upsert_good|exact Hv|done|apply Hcas|done|done].
Qed.

(** A read of an entry, as its list. *)
Lemma decode_at s kv r :
  keyspace s !! configs_key = Some kv →
  decode_instances json (Some (MkMetadataEntry (Some (kv_value kv)) r)) = configured (keyspace s).
Proof. intros Hkv. unfold configured. by rewrite Hkv. Qed.

Lemma put_attempts_outcome n i zone s :
  instance_str i ≠ EmptyString →
  ensures env (put_instance_attempts json backend n i zone) s
    (λ tr _ r, change_outcome (<[i := zone]>) (λ _, True) s tr r).
Proof.
  intros Hi. revert s. induction n as [|n IH]; intros s; [apply change_ret; by left|]. cbn [put_instance_attempts].
  assert (∀ s1, rely s s1 → ensures env (put_instance_attempts json backend n i zone) s1
    (λ tr _ r, change_outcome (<[i := zone]>) (λ _, True) s tr r)) as Hagain.
  { intros s1 Hs1. eapply holds_mono; [apply IH|]. intros tr s2 r. by apply change_later. }
  apply (ensures_get_metadata env rely).
  - intros s1 Hs1 Hnone. apply (put_from_list i zone s s1 None []); [done|done| |done|intros; apply cas_absent|done].
    unfold configured. by rewrite Hnone.
  - intros s1 kv Hs1 Hkv. destruct (configured (keyspace s1)) as [l|e] eqn:Hl.
    + eapply (put_from_list i zone s s1 (Some _) l); [done|done|done| |intros; by eapply cas_present|done].
      by rewrite <-Hl, <-(decode_at s1 kv (MkRevision (kv_mod_revision kv)) Hkv).
    + rewrite (decode_at s1 kv _ Hkv), Hl. apply (ensures_ret env rely). by left.
  - intros e s1 _ _. by left.
Qed.

Lemma remove_attempts_outcome n i s :
  ensures env (remove_instance_attempts json backend n i) s
    (λ tr _ r, change_outcome (delete i) (not_live i) s tr r).
Proof.
  revert s. induction n as [|n IH]; intros s; [apply change_ret; by left|]. cbn [remove_instance_attempts].
  apply (ensures_get_metadata env rely); [| |intros e s1 _ _; by left].
  - intros s1 Hs1 Hnone. apply (ensures_ret env rely). intros s2 _. right. split; [done|]. exists s1. split; [done|].
    apply (list_same _ _ []); [intros _; apply delete_empty|]. unfold configured. by rewrite Hnone.
  - intros s1 kv Hs1 Hkv. rewrite (decode_at s1 kv _ Hkv).
    destruct (configured (keyspace s1)) as [l|e] eqn:Hl; [|apply (ensures_ret env rely); by left].
    destruct (existsb (named i) l) eqn:Hin; cbn [negb].
    2:{ apply (ensures_ret env rely). intros s2 _. right. split; [done|]. exists s1. split; [done|].
        eapply list_same; [|exact Hl]. intros _. by apply absent_configs. }
    destruct (to_instances json _) as [value|] eqn:Hv; [|apply (ensures_ret env rely); by left].
    eapply (cas_then (List.filter (λ r, negb (named i r)))); [|exact Hv|done|by eapply cas_not_live|done|].
    { intros l' Hl'. split; [by apply all_named_retain|apply retain_configs]. }
    intros s2 Hs2. apply (ensures_live_session env rely).
    + intros s3 Hs3 _. eapply holds_mono; [apply IH|]. intros tr s4 r. apply change_later. by etrans.
    + intros s3 kv' m _ _ _. apply (ensures_ret env rely). by left.
    + by left.
Qed.
End instance_facts.

(** * Resources *)

Lemma checks_all {X E} (check : X → result unit E) l :
  try_fold (λ _ x, check x) tt l = Ok tt ↔ Forall (λ x, check x = Ok tt) l.
Proof. by rewrite try_fold_check, Forall_forall. Qed.

(** What the checks of a preference list leave. *)
Definition good_preference (replicas : N) (entry : string * list string) : Prop :=
  entry.1 ≠ EmptyString ∧ len entry.2 = replicas ∧ NoDup entry.2 ∧ Forall (λ i, i ≠ EmptyString) entry.2.

Lemma check_preference_ok replicas partition instances :
  check_preference replicas partition instances = Ok tt ↔ good_preference replicas (partition, instances).
Proof.
  unfold check_preference, good_preference, PartitionId_new, validate, is_empty. cbn [fst snd].
  destruct partition as [|c p]; [split; [done|naive_solver]|]. cbn [map_err or_invalid_key].
  destruct (len instances =? replicas)%N eqn:Hlen; cbn [negb]; reflect_bools; [|naive_solver].
  destruct (N.of_nat (size (list_to_set instances : gset string)) =? len instances)%N eqn:Hset; cbn [negb]; reflect_bools.
  2:{ rewrite size_set_NoDup in Hset. naive_solver. }
  apply size_set_NoDup in Hset.
  rewrite (checks_all (λ instance, let? _ := or_invalid_key (InstanceId_new instance) in Ok tt)).
  assert (∀ i, (let? _ := or_invalid_key (InstanceId_new i) in Ok tt) = Ok tt ↔ i ≠ EmptyString) as Hi
    by (intros []; split; naive_solver).
  split; [intros Hall|intros (_ & _ & _ & Hall)]; [split_and!; try done|]; (eapply Forall_impl; [exact Hall|]);
    intros i; apply Hi.
Qed.

(** Preference lists in the controller's names. *)
Definition planned_entry (entry : string * list string) : PartitionId * list InstanceId :=
  (MkPartitionId entry.1, MkInstanceId <$> entry.2).

Definition planned_lists (lists : gmap string (list string)) : gmap PartitionId (list InstanceId) :=
  btree_collect (planned_entry <$> entries lists).

Lemma planned_lookup lists p :
  planned_lists lists !! p = (fmap MkInstanceId) <$> lists !! partition_str p.
Proof.
  unfold planned_lists. destruct p as [n]. cbn.
  assert (NoDup (planned_entry <$> entries lists).*1) as Hnd.
  { replace (planned_entry <$> entries lists).*1 with (MkPartitionId <$> map_keys lists)
      by (unfold map_keys; by rewrite <-!list_fmap_compose).
    apply NoDup_fmap_2; [by intros ?? [= ->]|apply NoDup_map_keys]. }
  destruct (lists !! n) as [l|] eqn:Hl; cbn.
  - apply collect_elem; [done|]. apply list_elem_of_fmap. exists (n, l). split; [done|by apply elem_of_entries].
  - apply collect_not_elem. intros v Hv. apply list_elem_of_fmap in Hv as ([p l] & [= -> ->] & Hin).
    apply elem_of_entries in Hin. congruence.
Qed.

Lemma semi_auto_planned replicas lists :
  Forall (good_preference replicas) (entries lists) →
  semi_auto_lists (wire_placement (MkAdminPlacementRecord "SEMI_AUTO" replicas [] lists None)) =
    Ok (planned_lists lists).
Proof.
  intros Hgood. unfold semi_auto_lists, planned_lists. cbn [wire_placement plr_preference_lists apr_preference_lists].
  match goal with |- (let? _ := ?c in _) = _ => assert (c = Ok (planned_entry <$> entries lists)) as -> end; [|done].
  apply collect_results_ok. induction Hgood as [|[p l] es (Hp & _ & _ & Hl) _ IH]; [constructor|].
  constructor; [|done]. cbn [fst snd] in Hp, Hl.
  rewrite (proj2 (PartitionId_new_ok p (MkPartitionId p))) by done. cbn [with_text map_err].
  match goal with |- (let? _ := ?c in _) = _ => assert (c = Ok (MkInstanceId <$> l)) as -> end; [|done].
  apply collect_results_ok. clear -Hl. induction Hl as [|i l Hi _ IH]; [constructor|]. constructor; [|done].
  by rewrite (proj2 (InstanceId_new_ok i (MkInstanceId i))).
Qed.

(** Lists of the right length without repetition make an ideal state. *)
Lemma build_ideal_ok resource n (lists : gmap PartitionId (list InstanceId)) :
  lists ≠ ∅ → map_Forall (λ _ l, len l = n ∧ NoDup l) lists →
  build_ideal resource n lists = Ok (MkIdealState resource n lists).
Proof.
  intros Hne Hall. unfold build_ideal.
  assert (∀ es b, isb_replicas b = n → NoDup es.*1 →
    (∀ p l, (p, l) ∈ es → isb_preference_lists b !! p = None ∧ len l = n ∧ NoDup l) →
    try_fold (λ b '(partition, instances), set_preference_list b partition instances) b es =
      Ok (MkIdealStateBuilder (isb_resource b) n
            (foldl (λ t e, <[e.1 := e.2]> t) (isb_preference_lists b) es))) as Hfold.
  { induction es as [|[p l] es IH]; intros b Hb Hnd Hes; cbn [try_fold foldl]; [destruct b; cbn in *; by subst|].
    cbn in Hnd. apply NoDup_cons in Hnd as [Hp Hnd]. destruct (Hes p l) as (Hnone & Hlen & Hl); [left|].
    rewrite (proj2 (set_preference_list_ok b p l _)) by (split_and!; [done|by rewrite Hb|done|reflexivity]).
    rewrite IH; [done|done|done|]. intros p' l' Hin. destruct (Hes p' l') as (Hnone' & ? & ?); [by right|]. cbn.
    rewrite lookup_insert_ne; [done|]. intros ->. apply Hp. by apply (list_elem_of_fmap_2 fst es (p', l')). }
  rewrite Hfold; [|done|apply NoDup_map_keys|].
  - cbn [with_text map_err isb_resource isb_preference_lists IdealState_builder].
    rewrite foldl_insert_entries. unfold IdealStateBuilder_build. cbn [isb_preference_lists].
    by rewrite bool_decide_eq_false_2.
  - intros p l Hin%elem_of_entries. split; [done|]. by apply (Hall p).
Qed.

Lemma planned_good replicas lists :
  Forall (good_preference replicas) (entries lists) →
  map_Forall (λ _ l, len l = replicas ∧ NoDup l) (planned_lists lists).
Proof.
  intros Hgood p l. rewrite planned_lookup. destruct (lists !! partition_str p) as [l'|] eqn:Hl; [|done].
  intros [= <-]. rewrite Forall_forall in Hgood. apply elem_of_entries in Hl.
  destruct (Hgood _ Hl) as (_ & Hlen & Hnd & _). cbn in Hlen, Hnd. split; [by unfold len in *; rewrite length_fmap|].
  apply NoDup_fmap_2; [by intros ?? [= ->]|done].
Qed.

Lemma record_semi_auto spec resource record lists :
  spec_placement spec = PlaceSemiAuto lists → resource_record spec = Ok (resource, record) →
  resource = MkResourceId (spec_name spec) ∧ spec_name spec ≠ EmptyString ∧ lists ≠ ∅ ∧
  Forall (good_preference (spec_replicas spec)) (entries lists) ∧
  record = MkAdminResourceRecord (spec_name spec) "LeaderStandby"
    (MkAdminPlacementRecord "SEMI_AUTO" (spec_replicas spec) [] lists None).
Proof.
  intros Hplace. unfold resource_record, placement_record. rewrite Hplace.
  destruct (ResourceId_new (spec_name spec)) as [r|] eqn:Hr; [|done].
  apply ResourceId_new_ok in Hr as [Hname ->]. cbn [or_invalid_key map_err resource_str].
  destruct (spec_partitions spec =? 0)%N eqn:Hp; [done|]. destruct (spec_replicas spec =? 0)%N; [done|].
  destruct (String.eqb_spec (spec_state_model spec) "LeaderStandby") as [->|]; [|done]. cbn [orb negb].
  destruct (N.of_nat (size lists) =? spec_partitions spec)%N eqn:Hsize; cbn [negb]; [|done]. reflect_bools.
  destruct (try_fold _ tt (entries lists)) as [[]|] eqn:Hcheck; [|done]. intros [= <- <-].
  split_and!; [done|done| | |done].
  - intros ->. rewrite map_size_empty in Hsize. done.
  - assert (try_fold (λ _ e, check_preference (spec_replicas spec) e.1 e.2) tt (entries lists) = Ok tt) as Hall.
    { rewrite <-Hcheck. clear. generalize (entries lists) as l. induction l as [|[p q] l IH]; [done|]. cbn.
      by destruct (check_preference _ _ _) as [[]|]. }
    apply checks_all in Hall. eapply Forall_impl; [exact Hall|]. intros [p q]. apply check_preference_ok.
Qed.

(** ** Writing a record *)

Section record_facts.
Context {S : Type} `{EtcdLaws S} (env rely : S → S → Prop) `{!Rely env rely}.
Context (json : AdminJson) (backend : EtcdCoordination).

(** The entry holds the text: it was written, or was there. *)
Definition stores (key text : string) (s : S) (tr : list (observation S)) : Prop :=
  once rely (metadata_step backend key text) s tr ∨
  tr = [] ∧ ∃ s1, rely s s1 ∧ kv_value <$> keyspace s1 !! metadata_key backend key = Some text.

Definition store_outcome (key text : string) (s : S) (tr : list (observation S)) (r : result unit CoordinationError)
  : Prop :=
  match r with
  | Ok _ => stores key text s tr
  | Err e => tr = [] ∨ (∃ error, e = Etcd error) ∧ once rely (metadata_step backend key text) s tr
  end.

(** An unconditional write of an input key. *)
Lemma put_outcome key text s0 s :
  is_authoritative_metadata_key key = true → rely s0 s →
  ensures env (let! _ := put_metadata backend key text 0 in Ret (Ok tt)) s
    (λ tr _ r, store_outcome key text s0 tr r).
Proof.
  intros Hauth Hs. unfold put_metadata. rewrite Hauth. apply ensures_assoc.
  assert (∀ s1 s2, effect_of (keyspace s1) (head s1) [TxnPut (metadata_key backend key) text 0;
      authoritative_input_marker_operation backend] (keyspace s2) (head s2) →
    metadata_step backend key text s1 s2) as Hstep.
  { intros s1 s2 He. apply (metadata_effect backend key text 0). unfold with_marker. by rewrite Hauth. }
  apply (ensures_txn env rely).
  - intros s1 s2 Hs1 _ He%Hstep. rewrite (commit_changed _ _ (step_head _ _ _ _ _ He)).
    cbn [txn_header]. rewrite revision_of_head. apply ensures_bind_ret, (ensures_ret env rely). intros s3 _.
    left. exists s1, s2. split_and!; [etrans; [exact Hs|exact Hs1]|done|done].
  - intros s1 _ [=].
  - by left.
  - intros error s1 s2 s3 Hs1 _ He%Hstep _. rewrite (commit_changed _ _ (step_head _ _ _ _ _ He)).
    right. split; [by eexists|]. exists s1, s2. split_and!; [etrans; [exact Hs|exact Hs1]|done|done].
Qed.

Lemma put_resource_outcome spec resource record text s :
  resource_record spec = Ok (resource, record) → to_resource json record = Ok text →
  ensures env (put_resource json backend spec) s (λ tr _ r, store_outcome (resource_key resource) text s tr r).
Proof.
  intros Hrec Htext. unfold put_resource. rewrite Hrec. cbn [snd fst]. rewrite Htext. cbn [or_invalid_value map_err].
  apply (ensures_get_metadata env rely); [| |intros; by left].
  - intros s1 Hs1 _. by apply put_outcome.
  - intros s1 kv Hs1 Hkv. cbn. case_bool_decide as Hsame; [|by apply put_outcome].
    apply (ensures_ret env rely). intros s2 _. right. split; [done|]. exists s1. split; [done|]. by rewrite Hkv.
Qed.

(** The name of the cluster is created once, and compared after that. *)
Lemma ensure_cluster_outcome name s :
  ensures env (ensure_cluster backend name) s (λ tr _ r, store_outcome "controller/cluster" name s tr r).
Proof.
  unfold ensure_cluster. destruct (_ || _); [apply (ensures_ret env rely); by left|].
  apply (ensures_put_absent env rely).
  - intros s1 s2 Hs1 [_ He%metadata_effect]. rewrite (commit_changed _ _ (step_head _ _ _ _ _ He)).
    apply (ensures_ret env rely). intros s3 _. left. exists s1, s2. done.
  - intros s1 Hs1. apply (ensures_get_metadata env rely).
    + intros s2 Hs2 _. cbn. apply (ensures_ret env rely). by left.
    + intros s2 kv Hs2 Hkv. cbn. case_bool_decide as Hv; [|apply (ensures_ret env rely); by left].
      apply (ensures_ret env rely). intros s3 _. right. split; [done|]. exists s2. split; [by etrans|]. by rewrite Hkv.
    + by left.
  - by left.
  - intros text s1 s2 s3 Hs1 [_ He%metadata_effect] _. rewrite (commit_changed _ _ (step_head _ _ _ _ _ He)).
    right. split; [by eexists|]. by exists s1, s2.
Qed.
End record_facts.

(** ** Undisturbed administration *)

Section undisturbed.
Context {S : Type} `{EtcdLaws S} (json : AdminJson) (serde : Serde) (Hjson : same_json json serde).
Context (backend : EtcdCoordination).

Definition metadata_text (key : string) (s : S) : option string := kv_value <$> keyspace s !! metadata_key backend key.

(** The entries [touched] apart, and the input marker, the store is the same. *)
Definition touches (touched : string → Prop) (s s' : S) : Prop :=
  ∀ k, ¬ touched k → k ≠ marker_key backend → keyspace s' !! k = keyspace s !! k.

Lemma touches_same touched (s s' : S) : same_view s s' → touches touched s s'.
Proof. intros [Hk _] k _ _. by rewrite Hk. Qed.

Lemma touches_step key text (s s' : S) : metadata_step backend key text s s' → touches (λ k, k = metadata_key backend key) s s'.
Proof. intros Hstep k. by apply Hstep. Qed.

Lemma step_view key text (s s1 s2 s' : S) :
  same_view s s1 → same_view s2 s' → metadata_step backend key text s1 s2 → metadata_step backend key text s s'.
Proof.
  intros [Hk1 Hh1] [Hk2 Hh2] [Hh Hv Hm Ho]. rewrite Hk1, Hh1 in *.
  split; [by rewrite Hh2|by rewrite Hk2|by rewrite Hk2, Hh2|intros k ??; rewrite Hk2; by apply Ho].
Qed.

Lemma once_settles (step : S → S → Prop) (s : S) tr s' :
  once same_view step s tr → path same_view s tr s' → ∃ s1 s2, same_view s s1 ∧ step s1 s2 ∧ same_view s2 s'.
Proof. intros (s1 & s2 & Hs1 & -> & Hstep) [_ Hs2]. by exists s1, s2. Qed.

(** A written or present text is there at the end, and nothing else has changed. *)
Lemma store_settles key text (s : S) tr s' r :
  store_outcome same_view backend key text s tr r → path same_view s tr s' →
  (r = Ok tt → metadata_text key s' = Some text) ∧ touches (λ k, k = metadata_key backend key) s s'.
Proof.
  intros Hout Hpath. assert (once same_view (metadata_step backend key text) s tr →
    metadata_text key s' = Some text ∧ touches (λ k, k = metadata_key backend key) s s') as Honce.
  { intros Hone. destruct (once_settles _ _ _ _ Hone Hpath) as (s1 & s2 & Hs1 & Hstep & Hs2).
    pose proof (step_view _ _ _ _ _ _ Hs1 Hs2 Hstep) as Hstep'. split; [apply Hstep'|by eapply touches_step]. }
  destruct r as [[]|e].
  - destruct Hout as [Hone|[-> (s1 & [Hk _] & Hv)]]; [naive_solver|]. cbn in Hpath.
    split; [|by apply touches_same]. intros _. destruct Hpath as [Hk' _]. unfold metadata_text. rewrite Hk', <-Hv, Hk. done.
  - split; [done|]. destruct Hout as [->|[_ Hone]]; [by apply touches_same|naive_solver].
Qed.

Lemma put_resource_idle spec resource record text (s : S) :
  resource_record spec = Ok (resource, record) → to_resource json record = Ok text →
  metadata_text (resource_key resource) s = Some text →
  ensures alone (put_resource json backend spec) s (λ tr s' _, tr = [] ∧ same_view s s').
Proof.
  intros Hrec Htext Hthere. unfold put_resource. rewrite Hrec. cbn [snd fst]. rewrite Htext. cbn [or_invalid_value map_err].
  unfold metadata_text in Hthere. apply (ensures_get_metadata alone same_view); [| |done].
  - intros s1 [Hk _] Hnone. by rewrite Hk in Hnone; rewrite Hnone in Hthere.
  - intros s1 kv Hs1 Hkv. destruct Hs1 as [Hk Hh] eqn:Heq. rewrite Hk in Hkv. rewrite Hkv in Hthere. injection Hthere as Hv.
    cbn [option_bind mbind entry_value]. rewrite Hv, bool_decide_eq_true_2 by done.
    apply (ensures_ret alone same_view). intros s2 Hs2. split; [done|]. by etrans.
Qed.

Lemma ensure_cluster_idle name (s : S) :
  metadata_text "controller/cluster" s = Some name →
  ensures alone (ensure_cluster backend name) s (λ tr s' _, tr = [] ∧ same_view s s').
Proof.
  unfold metadata_text. intros Hthere. unfold ensure_cluster. destruct (_ || _); [by apply (ensures_ret alone same_view)|].
  apply (ensures_put_absent alone same_view); [|intros s1 Hs1|done|].
  - intros s1 s2 [Hk _] [Hnone _]. by rewrite Hk in Hnone; rewrite Hnone in Hthere.
  - apply (ensures_get_metadata alone same_view); [intros s2 Hs2 _|intros s2 kv Hs2 _|intros e s2 Hs2 _].
    + apply (ensures_ret alone same_view). intros s3 Hs3. split; [done|]. etrans; [exact Hs1|]. by etrans.
    + case_bool_decide; apply (ensures_ret alone same_view); intros s3 Hs3; (split; [done|]);
        (etrans; [exact Hs1|]; by etrans).
    + split; [done|by etrans].
  - intros text s1 s2 s3 [Hk _] [Hnone _]. by rewrite Hk in Hnone; rewrite Hnone in Hthere.
Qed.

(** Putting an instance: nothing to do, or one write of the new list. *)
Definition put_alone (i : InstanceId) (zone : string) (s : S) (tr : list (observation S)) (s' : S)
    (r : result unit CoordinationError) : Prop :=
  (tr = [] ∧ same_view s s' ∧
   (r = Ok tt → ∃ l, configured json backend (keyspace s) = Ok l ∧ upsert i zone l = sort_by by_name l)) ∨
  (∃ l text, configured json backend (keyspace s) = Ok l ∧ upsert i zone l ≠ sort_by by_name l ∧
     to_instances json (upsert i zone l) = Ok text ∧ metadata_step backend INSTANCE_CONFIGS_KEY text s s').

Lemma put_alone_view i zone s s1 tr s' r : same_view s s1 → put_alone i zone s1 tr s' r → put_alone i zone s tr s' r.
Proof.
  unfold put_alone. intros Hs1. pose proof Hs1 as [Hk _]. rewrite Hk. intros [(-> & Hs' & Hr)|(l & text & Hl & Hne & Ht & Hstep)].
  - left. split_and!; [done|by etrans|done].
  - right. exists l, text. split_and!; [done..|]. by eapply step_view; [exact Hs1| |exact Hstep].
Qed.

Lemma put_alone_cas i zone l text (s : S) (t : prog bool) again :
  configured json backend (keyspace s) = Ok l → upsert i zone l ≠ sort_by by_name l →
  to_instances json (upsert i zone l) = Ok text →
  ensures alone t s (cas_outcome same_view json backend l (λ _, True) text s) →
  (∀ s1 : S, ensures alone again s1 (put_alone i zone s1)) →
  ensures alone (let! applied := t in if applied : bool then Ret (Ok tt) else again) s (put_alone i zone s).
Proof.
  intros Hl Hne Htext Ht Hagain.
  assert (∀ tr (s' : S) r, written same_view json backend l (λ _, True) text s tr → path same_view s tr s' →
    put_alone i zone s tr s' r) as Hw.
  { intros tr s' r (s1 & s2 & Hs1 & _ & _ & -> & Hstep) [_ Hs2]. right. exists l, text. split_and!; [done..|].
    by eapply step_view. }
  apply (ensures_path alone same_view) in Ht. apply holds_bind. eapply holds_mono; [exact Ht|].
  intros tr s1 [[|]|e] [Hout Hpath]; cbn in Hout.
  - apply (ensures_ret alone same_view). intros s2 Hs2. rewrite app_nil_r. apply Hw; [done|].
    destruct Hout as (s3 & s4 & _ & _ & _ & -> & _). destruct Hpath as [? Hs1]. split; [done|]. cbn. by etrans.
  - destruct Hout as [-> Hs1]. eapply holds_mono; [apply Hagain|]. intros tr s2 r. cbn. by apply put_alone_view.
  - apply (ensures_ret alone same_view). intros s2 Hs2. rewrite app_nil_r. destruct Hout as [->|[_ Hout]].
    + left. cbn in Hpath. split_and!; [done|by etrans|done].
    + apply Hw; [done|]. destruct Hout as (s3 & s4 & _ & _ & _ & -> & _). destruct Hpath as [? Hs1].
      split; [done|]. cbn. by etrans.
Qed.

Lemma put_alone_attempts n i zone (s : S) :
  ensures alone (put_instance_attempts json backend n i zone) s (put_alone i zone s).
Proof.
  revert s. induction n as [|n IH]; intros s; cbn [put_instance_attempts].
  { apply (ensures_ret alone same_view). intros s1 Hs1. by left. }
  assert (∀ (s1 : S) current l (cas : string → prog bool), configured json backend (keyspace s1) = Ok l →
    decode_instances json current = Ok l →
    (∀ text, ensures alone (cas text) s1 (cas_outcome same_view json backend l (λ _, True) text s1)) →
    ensures alone (try! decoded := decode_instances json current in
      if bool_decide (upsert i zone decoded = sort_by by_name decoded) then Ret (Ok tt)
      else try! value := or_invalid_value (to_instances json (upsert i zone decoded)) in
        let! applied := cas value in
        if applied : bool then Ret (Ok tt) else put_instance_attempts json backend n i zone) s1 (put_alone i zone s1)) as Hfrom.
  { intros s1 current l cas Hl -> Hcas. case_bool_decide as Hsame.
    - apply (ensures_ret alone same_view). intros s2 Hs2. left. split_and!; [done..|]. intros _. by exists l.
    - destruct (to_instances json (upsert i zone l)) as [text|] eqn:Htext; cbn [or_invalid_value map_err].
      + by apply (put_alone_cas i zone l text).
      + apply (ensures_ret alone same_view). intros s2 Hs2. by left. }
  apply (ensures_get_metadata alone same_view).
  - intros s1 Hs1 Hnone. eapply holds_mono; [|intros tr s2 r; apply (put_alone_view _ _ _ _ _ _ _ Hs1)].
    apply (Hfrom s1 None []); [unfold configured; by rewrite Hnone|done|intros; by apply (cas_absent alone same_view)].
  - intros s1 kv Hs1 Hkv. eapply holds_mono; [|intros tr s2 r; apply (put_alone_view _ _ _ _ _ _ _ Hs1)].
    pose proof (decode_at json backend s1 kv (MkRevision (kv_mod_revision kv)) Hkv) as Hdec.
    destruct (configured json backend (keyspace s1)) as [l|e] eqn:Hl.
    + eapply (Hfrom s1 (Some _) l); [done|exact Hdec|]. intros. by eapply (cas_present alone same_view).
    + rewrite Hdec. apply (ensures_ret alone same_view). intros s2 Hs2. by left.
  - intros e s1 Hs1 _. left. by split_and!.
Qed.

(** The instance has exactly one record, with its zone. *)
Definition listed (i : InstanceId) (zone : string) (s : S) : Prop :=
  ∃ l, configured json backend (keyspace s) = Ok l ∧ List.filter (named i) l = [MkInstanceRecord (instance_str i) zone].

Lemma put_alone_settles i zone s tr s' r :
  put_alone i zone s tr s' r →
  (r = Ok tt → listed i zone s') ∧ (listed i zone s → tr = [] ∧ same_view s s') ∧
  (∀ j zone', i ≠ j → listed j zone' s → listed j zone' s') ∧
  touches (λ k, k = metadata_key backend INSTANCE_CONFIGS_KEY) s s'.
Proof.
  intros [(-> & Hs' & Hr)|(l & text & Hl & Hne & Htext & Hstep)].
  - pose proof Hs' as [Hk _]. unfold listed. rewrite Hk. split_and!; [|done|done|by apply touches_same].
    intros (l & Hl & Hsame)%Hr. exists l. split; [done|]. pose proof (filter_upsert i i zone l) as Hf.
    rewrite Hsame, bool_decide_eq_true_2 in Hf by done. unfold sort_by in Hf.
    by rewrite filter_stable_sort in Hf by (intros; by eapply named_same).
  - assert (configured json backend (keyspace s') = Ok (upsert i zone l)) as Hl'.
    { pose proof (step_value _ _ _ _ _ Hstep) as Hv. unfold configured.
      destruct (keyspace s' !! _) as [kv|]; [|discriminate Hv]. injection Hv as ->.
      by rewrite (instances_roundtrip _ _ Hjson _ _ Htext). }
    split_and!; [| | |by eapply touches_step].
    + intros _. exists (upsert i zone l). by rewrite filter_upsert, bool_decide_eq_true_2.
    + intros (l2 & Hl2 & Hf). rewrite Hl in Hl2. injection Hl2 as <-. by destruct Hne; apply upsert_same.
    + intros j zone' Hij (l2 & Hl2 & Hf). rewrite Hl in Hl2. injection Hl2 as <-. exists (upsert i zone l).
      by rewrite filter_upsert, bool_decide_eq_false_2.
Qed.
End undisturbed.

(** ** Limits *)

(** The throttle a limit stands for. *)
Definition limit_config (limit : TransitionLimitSpec) : StateTransitionThrottleConfig :=
  let rt := match limit_rebalance_type limit with
            | LimitAny => AnyBalance
            | LimitRecoveryBalance => RecoveryBalance
            | LimitLoadBalance => LoadBalance
            end in
  match limit_target limit with
  | LimitCluster => ThrottleConfig_new rt ScopeCluster (limit_max_in_flight limit)
  | LimitResource resource => ThrottleConfig_for_resource rt resource (limit_max_in_flight limit)
  | LimitInstance instance => ThrottleConfig_for_instance rt instance (limit_max_in_flight limit)
  end.

(** The identifiers of a limit were validated. *)
Definition limit_named (limit : TransitionLimitSpec) : Prop :=
  match limit_target limit with
  | LimitCluster => True
  | LimitResource resource => resource_str resource ≠ EmptyString
  | LimitInstance instance => instance_str instance ≠ EmptyString
  end.

Lemma limit_decodes limit :
  limit_named limit → limit_max_in_flight limit ≠ 0%N →
  throttle_config (wire_limit (limit_record limit)) = Ok (limit_config limit).
Proof.
  destruct limit as [target rt max]. unfold limit_named. cbn [limit_target limit_max_in_flight]. intros Hn Hmax%N.eqb_neq.
  destruct target as [|[[|c r]]|[[|c i]]], rt; unfold throttle_config; cbn; by rewrite ?Hmax.
Qed.

(** * Theorems *)

(** C17: a change of the instance list is one atomic step.  Adding an instance commits at
    most once; that write turns the configuration the controller reads at that moment
    into the same configuration with the instance in its zone, moves the input marker
    and touches nothing else.  Removing one deletes it, and only from a store in which
    the instance is not live.  Success without a write means that nothing had to be
    changed; an error after a write is a lost answer. *)
Theorem instance_changes_atomic {S : Type} `{EtcdLaws S} env json serde backend spec i (s : S) :
  same_json json serde → (∀ s s', env s s' → evolves s s') → InstanceId_new (spec_instance spec) = Ok i →
  ensures env (put_instance json backend spec) s (λ tr _ r,
    change_outcome evolves serde backend (<[i := spec_zone spec]>) (λ _, True) s tr r) ∧
  ensures env (remove_instance json backend (spec_instance spec)) s (λ tr _ r,
    change_outcome evolves serde backend (delete i) (not_live backend i) s tr r).
Proof.
  intros Hjson Henv Hi. pose proof (evolves_rely env Henv) as Hrely.
  unfold put_instance, remove_instance. rewrite Hi. cbn [or_invalid_key map_err].
  apply InstanceId_new_ok in Hi as [Hname ->]. split.
  - destruct (_ || _); [apply (ensures_ret env evolves); by left|]. by eapply put_attempts_outcome.
  - by eapply remove_attempts_outcome.
Qed.

(** C38: an accepted SEMI_AUTO resource is planned as it was specified.  The key it is
    written under names the resource to the controller, and decoding the written text
    gives a plan, whatever instances are configured or live, with the replica count
    and exactly the preference lists of the specification. *)
Theorem resource_roundtrip json serde powf debug fuel configs live spec resource record
    (lists : gmap string (list string)) text revision :
  same_json json serde → spec_placement spec = PlaceSemiAuto lists →
  resource_record spec = Ok (resource, record) → to_resource json record = Ok text →
  strip_prefix RESOURCE_PREFIX (resource_key resource) = Some (spec_name spec) ∧
  ∃ ideal, resource_plan serde powf debug fuel configs live (spec_name spec)
      (MkMetadataEntry (Some text) revision) = Ok (MkResourcePlan resource ideal) ∧
    replicas ideal = spec_replicas spec ∧
    ∀ p, preference_list ideal p = (λ names : list string, MkInstanceId <$> names) <$> lists !! partition_str p.
Proof.
  intros Hjson Hplace Hrec Htext.
  destruct (record_semi_auto _ _ _ _ Hplace Hrec) as (-> & Hname & Hne & Hgood & ->). split; [done|].
  exists (MkIdealState (MkResourceId (spec_name spec)) (spec_replicas spec) (planned_lists lists)).
  split_and!; [|done|intros p; apply planned_lookup].
  unfold resource_plan. cbn [entry_value default from_option id]. rewrite (resource_wire _ _ Hjson _ _ Htext).
  cbn [with_text map_err wire_resource rr_name rr_state_model rr_placement arr_name arr_state_model arr_placement].
  rewrite String.eqb_refl. cbn [negb].
  rewrite (proj2 (ResourceId_new_ok (spec_name spec) (MkResourceId (spec_name spec)))) by done.
  change (String.eqb "LeaderStandby" "LeaderStandby") with true. cbn [negb with_text map_err]. unfold placement_lists. change (String.eqb (plr_kind _) "CRUSH") with false.
  change (String.eqb (plr_kind _) "SEMI_AUTO") with true. cbn [String.eqb]. cbv iota.
  rewrite semi_auto_planned by done. cbn [plr_replicas wire_placement apr_replicas].
  rewrite build_ideal_ok; [done| |by apply planned_good].
  intros Hempty. apply Hne, map_eq. intros n. pose proof (planned_lookup lists (MkPartitionId n)) as Hlook.
  rewrite Hempty in Hlook. cbn in Hlook. by destruct (lists !! n).
Qed.

(** The limits an application sets are the throttles the controller plans with,
    in the same order. *)
Theorem limits_roundtrip json serde limits text snapshot :
  same_json json serde → Forall limit_named limits →
  existsb (λ limit, (limit_max_in_flight limit =? 0)%N) limits = false →
  to_limits json (limit_record <$> limits) = Ok text →
  metadata_value snapshot THROTTLES_KEY = Some text →
  throttles serde snapshot = Ok (limit_config <$> limits).
Proof.
  intros Hjson Hnamed Hmax Htext Hvalue. unfold throttles.
  rewrite Hvalue, (limits_wire _ _ Hjson _ _ Htext). cbn [with_text map_err]. apply collect_results_ok. clear Htext.
  induction Hnamed as [|limit limits Hn _ IH]; [constructor|]. cbn in Hmax |- *. apply orb_false_elim in Hmax as [H0 Hmax].
  constructor; [|by apply IH]. apply limit_decodes; [done|]. by apply N.eqb_neq.
Qed.

(** ** A small administration *)

#[export] Instance AdminResourceRecord_eq_dec : EqDecision AdminResourceRecord.
Proof.
  assert (EqDecision AdminTopologyRecord) by solve_decision.
  assert (EqDecision AdminPlacementRecord) by solve_decision. solve_decision.
Defined.
#[export] Instance TransitionLimitRecord_eq_dec : EqDecision TransitionLimitRecord.
Proof. solve_decision. Defined.
#[export] Instance ThrottleSpec_eq_dec : EqDecision ThrottleSpec.
Proof. solve_decision. Defined.

Definition ex_spec : ResourceSpec :=
  MkResourceSpec "documents" 1 2 "LeaderStandby" (PlaceSemiAuto {["p0" := ["node-a"; "node-b"]]}).
Definition ex_record : AdminResourceRecord :=
  MkAdminResourceRecord "documents" "LeaderStandby"
    (MkAdminPlacementRecord "SEMI_AUTO" 2 [] {["p0" := ["node-a"; "node-b"]]} None).
Definition ex_limits : list TransitionLimitSpec :=
  [MkTransitionLimitSpec LimitCluster LimitAny 4;
   MkTransitionLimitSpec (LimitInstance (MkInstanceId "node-a")) LimitLoadBalance 1].
Definition ex_instances : list InstanceRecord := [MkInstanceRecord "node-a" "zone-a"].
Definition ex_throttles : list ThrottleSpec := [MkThrottleSpec "RACK" "ANY" 1].

(** Texts for the records of the examples only. *)
Definition ex_decode (text : string) : result (list InstanceRecord) string :=
  if String.eqb text "[]" then Ok [] else if String.eqb text "instances" then Ok ex_instances else Err "syntax".

Definition only {A} `{EqDecision A} (value : A) (text : string) (x : A) : result string string :=
  if bool_decide (x = value) then Ok text else Err "syntax".

Definition ex_json : AdminJson :=
  MkAdminJson (λ l, if bool_decide (l = []) then Ok "[]" else only ex_instances "instances" l) ex_decode
    (only ex_record "resource") (only ex_throttles "throttles") (only (limit_record <$> ex_limits) "limits").

Definition ex_admin_serde : Serde :=
  MkSerde (λ text, let? l := ex_decode text in Ok (config_record <$> l))
    (λ text, if String.eqb text "resource" then Ok (wire_resource ex_record) else Err "syntax")
    (λ text, if String.eqb text "limits" then Ok (wire_limit <$> (limit_record <$> ex_limits))
             else if String.eqb text "throttles" then Ok (wire_throttle <$> ex_throttles) else Err "syntax")
    (λ _, Ok []).

Lemma only_ok {A} `{EqDecision A} (value : A) text x text' : only value text x = Ok text' → x = value ∧ text' = text.
Proof. unfold only. case_bool_decide; naive_solver. Qed.

Lemma config_record_inj : Inj (=) (=) config_record.
Proof. intros [] [] [=]. by subst. Qed.

Lemma ex_same_json : same_json ex_json ex_admin_serde.
Proof.
  split.
  - intros l text. cbn. case_bool_decide as Hl; [intros [= <-]; by subst|]. intros [-> ->]%only_ok. reflexivity.
  - intros l text. cbn [of_instances ex_json from_instance_configs ex_admin_serde].
    destruct (ex_decode text) as [l'|]; [|naive_solver]. split; [by intros [= ->]|]. intros [= Heq].
    pose proof config_record_inj. by apply (inj (fmap config_record)) in Heq as ->.
  - intros r text [-> ->]%only_ok. reflexivity.
  - intros l text [-> ->]%only_ok. reflexivity.
  - intros l text [-> ->]%only_ok. reflexivity.
Qed.

Definition ex_instance_spec : InstanceSpec := MkInstanceSpec "node-a" "zone-a".

Lemma ex_put_run : ∃ s1 s2 s', runs alone (put_instance ex_json ex_backend ex_instance_spec) (MkMem ∅ 0 1)
  [Committed s1 s2] s' (Ok tt).
Proof. do 3 eexists. apply (run_mem_sound 20). vm_compute. reflexivity. Qed.

Lemma instance_changes_atomic_witness :
  ∃ s1 s2 : mem_store, config_change ex_admin_serde ex_backend (<[MkInstanceId "node-a" := "zone-a"]>) s1 s2.
Proof.
  destruct ex_put_run as (s1 & s2 & s' & Hrun).
  destruct (instance_changes_atomic alone ex_json ex_admin_serde ex_backend ex_instance_spec (MkInstanceId "node-a")
    (MkMem ∅ 0 1) ex_same_json alone_evolves eq_refl) as [Hput _].
  destruct (Hput _ _ _ Hrun) as [(s3 & s4 & _ & _ & _ & Hc & _)|[[=] _]]. by exists s3, s4.
Defined.

Lemma resource_roundtrip_witness : ∃ ideal,
  resource_plan ex_admin_serde no_powf id 100 ∅ ∅ "documents" (MkMetadataEntry (Some "resource") (MkRevision 1))
    = Ok (MkResourcePlan (MkResourceId "documents") ideal) ∧
  preference_list ideal (MkPartitionId "p0") = Some [MkInstanceId "node-a"; MkInstanceId "node-b"].
Proof.
  destruct (resource_roundtrip ex_json ex_admin_serde no_powf id 100 ∅ ∅ ex_spec (MkResourceId "documents") ex_record
    {["p0" := ["node-a"; "node-b"]]} "resource" (MkRevision 1) ex_same_json eq_refl eq_refl)
    as (_ & ideal & Hplan & _ & Hlists); [reflexivity|].
  exists ideal. split; [exact Hplan|]. rewrite Hlists. reflexivity.
Defined.

(** A scope nobody knows is stored, and no cycle can be planned after it. *)
Example ex_unknown_scope :
  (∃ tr s', runs alone (put_throttles ex_json ex_backend ex_throttles) (MkMem ∅ 0 1) tr s' (Ok tt)) ∧
  ∀ snapshot, metadata_value snapshot THROTTLES_KEY = Some "throttles" →
    ∃ error, throttles ex_admin_serde snapshot = Err (Raise error) ∧ transient error = false.
Proof.
  split; [do 2 eexists; apply (run_mem_sound 20); vm_compute; reflexivity|].
  intros snapshot Hvalue. unfold throttles. rewrite Hvalue. vm_compute. eauto.
Qed.

Definition ex_limits_snapshot : CoordinationSnapshot :=
  MkSnapshot (MkRevision 1) (MkRevision 1) {[THROTTLES_KEY := MkMetadataEntry (Some "limits") (MkRevision 1)]}
    (MkParticipantSessionSnapshot ∅ ∅) (MkElectionSnapshot None ∅).

Lemma limits_roundtrip_witness :
  throttles ex_admin_serde ex_limits_snapshot = Ok (limit_config <$> ex_limits).
Proof.
  apply (limits_roundtrip ex_json ex_admin_serde ex_limits "limits" ex_limits_snapshot ex_same_json);
    [by repeat constructor|reflexivity..].
Defined.
