(* ===== verification/Connection.v ===== *)
(** * Connecting to a cluster

    Models [EtcdConnectionOptions] and the [connect] functions of
    [src/coordination/etcd/mod.rs], and [ClusterConfig] and [ConfigError] of
    [src/cluster.rs].  The environment variables and the files they name are
    parameters, and so is the outcome of [Client::connect]; what the code hands to the
    client ([etcd_client::ConnectOptions]) is a record of the settings.  Connecting
    creates the input marker; [Cluster_connect] (Facade) then claims the name of the
    cluster. *)

From S2P Require Import Prelude Identity StateMaps StateModel Session Keys Snapshot Etcd Metadata.
From S2P Require Import SessionStore Admin.

(** ** Text *)

(** The characters with the property White_Space beyond ASCII, by their bytes. *)
Definition white2 (b0 b1 : Ascii.ascii) : bool :=
  byte_between 194 194 b0 && (byte_between 133 133 b1 || byte_between 160 160 b1).
Definition white3 (b0 b1 b2 : Ascii.ascii) : bool :=
  (byte_between 225 225 b0 && byte_between 154 154 b1 && byte_between 128 128 b2)
  || (byte_between 226 226 b0 &&
      ((byte_between 128 128 b1 && (byte_between 128 138 b2 || byte_between 168 169 b2 || byte_between 175 175 b2))
       || (byte_between 129 129 b1 && byte_between 159 159 b2)))
  || (byte_between 227 227 b0 && byte_between 128 128 b1 && byte_between 128 128 b2).

(** [str::trim] *)
Fixpoint trim_start (s : string) : string :=
  match s with
  | EmptyString => EmptyString
  | String b0 r0 =>
      if byte_between 9 13 b0 || byte_between 32 32 b0 then trim_start r0
      else match r0 with
      | EmptyString => s
      | String b1 r1 =>
          if white2 b0 b1 then trim_start r1
          else match r1 with
          | EmptyString => s
          | String b2 r2 => if white3 b0 b1 b2 then trim_start r2 else s
          end
      end
  end.

Fixpoint trim_end (s : string) : string :=
  if is_blank s then EmptyString
  else match s with
  | EmptyString => EmptyString
  | String c s => String c (trim_end s)
  end.

Definition trim (s : string) : string := trim_end (trim_start s).

(** [str::split(',')] *)
Fixpoint split_comma (s : string) : list string :=
  match s with
  | EmptyString => [EmptyString]
  | String c s =>
      if byte_between 44 44 c then EmptyString :: split_comma s
      else match split_comma s with
           | component :: rest => String c component :: rest
           | [] => [String c EmptyString]
           end
  end.

(** ** Connection options *)

Record EtcdConnectionOptions := MkConnectionOptions {
  co_username : option string;
  co_password : option string;
  ca_certificate : option string;
  client_certificate : option string;
  client_key : option string;
  tls_domain_name : option string;
  connect_timeout : option Duration;
  request_timeout : option Duration;
  keep_alive_interval : option Duration;
  keep_alive_timeout : option Duration;
  keep_alive_while_idle : bool
}.

Definition EtcdConnectionOptions_new : EtcdConnectionOptions :=
  MkConnectionOptions None None None None None None None None None None true.

Definition with_user (self : EtcdConnectionOptions) (username password : string) : EtcdConnectionOptions :=
  MkConnectionOptions (Some username) (Some password) (ca_certificate self) (client_certificate self)
    (client_key self) (tls_domain_name self) (connect_timeout self) (request_timeout self)
    (keep_alive_interval self) (keep_alive_timeout self) (keep_alive_while_idle self).

Definition with_ca_certificate (self : EtcdConnectionOptions) (pem : string) : EtcdConnectionOptions :=
  MkConnectionOptions (co_username self) (co_password self) (Some pem) (client_certificate self)
    (client_key self) (tls_domain_name self) (connect_timeout self) (request_timeout self)
    (keep_alive_interval self) (keep_alive_timeout self) (keep_alive_while_idle self).

Definition with_client_identity (self : EtcdConnectionOptions) (certificate key : string) : EtcdConnectionOptions :=
  MkConnectionOptions (co_username self) (co_password self) (ca_certificate self) (Some certificate)
    (Some key) (tls_domain_name self) (connect_timeout self) (request_timeout self)
    (keep_alive_interval self) (keep_alive_timeout self) (keep_alive_while_idle self).

Definition with_tls_domain_name (self : EtcdConnectionOptions) (name : string) : EtcdConnectionOptions :=
  MkConnectionOptions (co_username self) (co_password self) (ca_certificate self) (client_certificate self)
    (client_key self) (Some name) (connect_timeout self) (request_timeout self)
    (keep_alive_interval self) (keep_alive_timeout self) (keep_alive_while_idle self).

Definition with_connect_timeout (self : EtcdConnectionOptions) (timeout : Duration) : EtcdConnectionOptions :=
  MkConnectionOptions (co_username self) (co_password self) (ca_certificate self) (client_certificate self)
    (client_key self) (tls_domain_name self) (Some timeout) (request_timeout self)
    (keep_alive_interval self) (keep_alive_timeout self) (keep_alive_while_idle self).

Definition with_request_timeout (self : EtcdConnectionOptions) (timeout : Duration) : EtcdConnectionOptions :=
  MkConnectionOptions (co_username self) (co_password self) (ca_certificate self) (client_certificate self)
    (client_key self) (tls_domain_name self) (connect_timeout self) (Some timeout)
    (keep_alive_interval self) (keep_alive_timeout self) (keep_alive_while_idle self).

Definition with_keep_alive (self : EtcdConnectionOptions) (interval timeout : Duration) : EtcdConnectionOptions :=
  MkConnectionOptions (co_username self) (co_password self) (ca_certificate self) (client_certificate self)
    (client_key self) (tls_domain_name self) (connect_timeout self) (request_timeout self)
    (Some interval) (Some timeout) (keep_alive_while_idle self).

Definition with_keep_alive_while_idle (self : EtcdConnectionOptions) (enabled : bool) : EtcdConnectionOptions :=
  MkConnectionOptions (co_username self) (co_password self) (ca_certificate self) (client_certificate self)
    (client_key self) (tls_domain_name self) (connect_timeout self) (request_timeout self)
    (keep_alive_interval self) (keep_alive_timeout self) enabled.

Definition is_set {A} (o : option A) : bool := bool_decide (is_Some o).

Definition tls_enabled (self : EtcdConnectionOptions) : bool :=
  is_set (ca_certificate self) || is_set (client_certificate self) || is_set (client_key self)
  || is_set (tls_domain_name self).

(** [is_some_and] *)
Definition is_some_and {A} (o : option A) (p : A → bool) : bool :=
  match o with Some x => p x | None => false end.

Definition options_validate (self : EtcdConnectionOptions) : result unit string :=
  if negb (Bool.eqb (is_set (co_username self)) (is_set (co_password self)))
  then Err "etcd username and password must be configured together"
  else if negb (Bool.eqb (is_set (client_certificate self)) (is_set (client_key self)))
  then Err "etcd client certificate and key must be configured together"
  else if tls_enabled self && is_some_and (ca_certificate self) is_empty
  then Err "etcd TLS CA certificate must not be empty"
  else if is_some_and (client_certificate self) is_empty || is_some_and (client_key self) is_empty
  then Err "etcd client identity must not be empty"
  else
    let? _ := try_fold (λ _ '(name, timeout),
        if is_some_and timeout Duration_is_zero then Err ("etcd " +:+ name +:+ " timeout must be positive") else Ok tt)
      tt [("connect", connect_timeout self); ("request", request_timeout self);
          ("keepalive interval", keep_alive_interval self); ("keepalive timeout", keep_alive_timeout self)] in
    if is_some_and (tls_domain_name self) (λ name, is_blank name || contains_nul name)
    then Err "etcd TLS domain name must not be empty or contain NUL"
    else Ok tt.

(** [etcd_client::TlsOptions] and [ConnectOptions]: what was set on them. *)
Record TlsOptions := MkTlsOptions {
  tls_ca : option string;
  tls_identity : option (string * string);
  tls_domain : option string
}.

Record ConnectOptions := MkConnectOptions {
  user : option (string * string);
  keep_alive : option (Duration * Duration);
  client_connect_timeout : option Duration;
  client_timeout : option Duration;
  client_keep_alive_while_idle : bool;
  tls : option TlsOptions
}.

(** [if let (Some(a), Some(b))] *)
Definition both_set {A B} (a : option A) (b : option B) : option (A * B) :=
  match a, b with Some a, Some b => Some (a, b) | _, _ => None end.

Definition to_connect_options (self : EtcdConnectionOptions) : result ConnectOptions CoordinationError :=
  let? _ := map_err InvalidConnectionOptions (options_validate self) in
  Ok (MkConnectOptions
        (both_set (co_username self) (co_password self))
        (both_set (keep_alive_interval self) (keep_alive_timeout self))
        (connect_timeout self) (request_timeout self) (keep_alive_while_idle self)
        (if tls_enabled self
         then Some (MkTlsOptions (ca_certificate self) (both_set (client_certificate self) (client_key self))
                      (tls_domain_name self))
         else None)).

(** ** Connecting *)

Record EtcdCoordinationConfig := MkCoordinationConfig {
  endpoint : string;
  config_prefix : string;
  config_cluster : string
}.

Section connecting.
(** [Client::connect]: whether a client with these endpoints and settings connects. *)
Variable client_connect : list string → ConnectOptions → result unit string.

Definition connect_endpoints_with_options (endpoints : list string) (prefix name : string)
    (options : EtcdConnectionOptions) : prog EtcdCoordination :=
  try! prefix := normalize_prefix prefix in
  if is_blank name || contains_nul name then Ret (Err InvalidCluster)
  else if bool_decide (endpoints = []) || existsb is_blank endpoints then Ret (Err InvalidValue)
  else
    try! settings := to_connect_options options in
    try! _ := map_err Etcd (client_connect endpoints settings) in
    let coordination := MkEtcdCoordination prefix name in
    let! _ := initialize_authoritative_input_marker coordination in
    Ret (Ok coordination).

Definition connect_with_options (config : EtcdCoordinationConfig) (options : EtcdConnectionOptions)
  : prog EtcdCoordination :=
  connect_endpoints_with_options [endpoint config] (config_prefix config) (config_cluster config) options.

Definition connect_endpoint (config : EtcdCoordinationConfig) : prog EtcdCoordination :=
  connect_with_options config EtcdConnectionOptions_new.

Definition connect_endpoints (endpoints : list string) (prefix name : string) : prog EtcdCoordination :=
  connect_endpoints_with_options endpoints prefix name EtcdConnectionOptions_new.
End connecting.

(** ** Configuration *)

Definition DEFAULT_ENDPOINT : string := "http://127.0.0.1:2379".
Definition DEFAULT_CLUSTER : string := "default".

Inductive ConfigError :=
| Missing (name : string)
| Invalid (text : string).

Definition display_config_error (e : ConfigError) : string :=
  match e with
  | Missing name => "missing configuration value " +:+ name
  | Invalid text => text
  end.

Record ClusterConfig := MkClusterConfig {
  cc_cluster : string;
  cc_endpoints : list string;
  cc_namespace : string;
  cc_options : EtcdConnectionOptions
}.

Definition ClusterConfig_new (name : string) : ClusterConfig :=
  MkClusterConfig name [DEFAULT_ENDPOINT] ("/clustodian/" +:+ name) EtcdConnectionOptions_new.

Definition etcd_endpoints (self : ClusterConfig) (endpoints : list string) : ClusterConfig :=
  MkClusterConfig (cc_cluster self) endpoints (cc_namespace self) (cc_options self).

Definition namespace (self : ClusterConfig) (value : string) : ClusterConfig :=
  MkClusterConfig (cc_cluster self) (cc_endpoints self) value (cc_options self).

Definition etcd_connection_options (self : ClusterConfig) (options : EtcdConnectionOptions) : ClusterConfig :=
  MkClusterConfig (cc_cluster self) (cc_endpoints self) (cc_namespace self) options.

Definition ClusterConfig_validate (self : ClusterConfig) : result ClusterConfig ConfigError :=
  if is_blank (cc_cluster self) || contains_nul (cc_cluster self)
  then Err (Invalid "cluster name must not be empty or contain NUL")
  else if bool_decide (cc_endpoints self = []) || existsb is_blank (cc_endpoints self)
  then Err (Invalid "at least one non-empty etcd endpoint is required")
  else if is_blank (cc_namespace self) || contains_nul (cc_namespace self)
  then Err (Invalid "namespace must not be empty or contain NUL")
  else let? _ := map_err Invalid (options_validate (cc_options self)) in Ok self.

Section environment.
(** The variables as the bytes they hold, and the contents of files. *)
Variable environ : string → option string.
Variable read_file : string → result string string.

(** [env::var_os] and [env::var]; the latter refuses what is not Unicode. *)
Definition var_os (name : string) : option string := environ name.
Definition var (name : string) : option string :=
  match environ name with
  | Some value => if utf8_valid value then Some value else None
  | None => None
  end.

(** [std::fs::read(path).map_err(..)] *)
Definition read_pem (what path : string) : result string ConfigError :=
  map_err (λ error, Invalid ("failed to read etcd " +:+ what +:+ ": " +:+ error)) (read_file path).

Definition env_user (options : EtcdConnectionOptions) : result EtcdConnectionOptions ConfigError :=
  match var "CLUSTODIAN_ETCD_USERNAME", var "CLUSTODIAN_ETCD_PASSWORD" with
  | Some username, Some password => Ok (with_user options username password)
  | None, None => Ok options
  | _, _ =>
      Err (Invalid "CLUSTODIAN_ETCD_USERNAME and CLUSTODIAN_ETCD_PASSWORD must be set together")
  end.

Definition env_ca (options : EtcdConnectionOptions) : result EtcdConnectionOptions ConfigError :=
  match var_os "CLUSTODIAN_ETCD_CA_CERT_FILE" with
  | Some path => let? pem := read_pem "CA certificate" path in Ok (with_ca_certificate options pem)
  | None => Ok options
  end.

Definition env_identity (options : EtcdConnectionOptions) : result EtcdConnectionOptions ConfigError :=
  match var_os "CLUSTODIAN_ETCD_CLIENT_CERT_FILE", var_os "CLUSTODIAN_ETCD_CLIENT_KEY_FILE" with
  | Some certificate, Some key =>
      let? certificate := read_pem "client certificate" certificate in
      let? key := read_pem "client key" key in
      Ok (with_client_identity options certificate key)
  | None, None => Ok options
  | _, _ =>
      Err (Invalid "CLUSTODIAN_ETCD_CLIENT_CERT_FILE and CLUSTODIAN_ETCD_CLIENT_KEY_FILE must be set together")
  end.

Definition from_env : result ClusterConfig ConfigError :=
  let name := default DEFAULT_CLUSTER (var "CLUSTODIAN_CLUSTER") in
  let endpoints := default DEFAULT_ENDPOINT (var "CLUSTODIAN_ETCD_ENDPOINTS") in
  let value := default ("/clustodian/" +:+ name) (var "CLUSTODIAN_NAMESPACE") in
  let config := namespace (etcd_endpoints (ClusterConfig_new name) (trim <$> split_comma endpoints)) value in
  let? options := env_user EtcdConnectionOptions_new in
  let? options := env_ca options in
  let? options := env_identity options in
  let options :=
    match var "CLUSTODIAN_ETCD_TLS_DOMAIN_NAME" with
    | Some domain => with_tls_domain_name options domain
    | None => options
    end in
  ClusterConfig_validate (etcd_connection_options config options).
End environment.
