(* ===== verification/Observe.v ===== *)
(** * Observation

    Models [src/observe.rs]: the semantic snapshot an observer assembles from one read
    of the namespace, and the waits that read again on watch events and on a timer
    until a predicate holds.  JSON is the parameter [json]: the observer keeps the
    external view as a [serde_json::Value].

    What an observer shows is the view the controller published; a wait returns only
    what it read, and only after it has caught up with the store it started from. *)

From Stdlib Require Import SpecFloat.
From S2P Require Import Prelude Identity StateMaps StateModel Session Keys Snapshot Routing Crush ControllerRuntime.
From S2P Require Import Etcd Metadata InputMarker SessionStore Watch Election Reconcile LeaderLoop Admin.

(** ** Observations *)

Record ControllerMembership := MkControllerMembership {
  members_active : list string;
  members_standby : list string
}.

Definition active_member (self : ControllerMembership) : option string :=
  match members_active self with controller :: _ => Some controller | [] => None end.

(** [InstanceMembership] *)
Definition membership_len (live : gmap string N) : nat := size live.
Definition is_live (live : gmap string N) (instance : string) : bool := bool_decide (is_Some (live !! instance)).

Record ActiveCurrentStateObservation := MkActiveObservation {
  obs_session : N;
  obs_resources : gmap string (gmap string string)
}.

Record RoutingResult := MkRoutingResult {
  res_resource : string;
  res_partition : string;
  res_state : string;
  res_instances : list string
}.

Inductive WaitError :=
| WaitCoordinationError (error : CoordinationError)
| WaitWatch (error : WatchError)
| WaitTimeout (timeout : Duration).

Definition display_wait_error (debug_duration : Duration → string) (e : WaitError) : string :=
  match e with
  | WaitCoordinationError error => display_coordination_error error
  | WaitWatch error => display_watch_error error
  | WaitTimeout timeout => "observation timed out after " +:+ debug_duration timeout
  end.

(** serde_json as the observer uses it, with the type of its values. *)
Record ObserverJson (Value : Type) := MkObserverJson {
  parse_value : string → result Value string;
  empty_object : Value;
  of_value : Value → result (gmap string (gmap string (gmap string string))) string;
  parse_pending : string → result (list PublishedTransition) string;
  parse_names : string → result (list string) string
}.
Arguments parse_value {Value}. Arguments empty_object {Value}. Arguments of_value {Value}.
Arguments parse_pending {Value}. Arguments parse_names {Value}.

Section observe.
Context {Value : Type} (json : ObserverJson Value).

(** [ObserverRevision] wraps an [i64]. *)
Record ClusterSnapshot := MkClusterSnapshot {
  obs_revision : Z;
  obs_authoritative : Z;
  obs_processed : option Z;
  obs_controllers : ControllerMembership;
  obs_live : gmap string N;
  obs_active_current_state : gmap string ActiveCurrentStateObservation;
  obs_external_view : Value;
  obs_pending : list PublishedTransition;
  obs_routing_results : list RoutingResult
}.

Definition with_authoritative_floor (self : ClusterSnapshot) (floor : Z) : ClusterSnapshot :=
  MkClusterSnapshot (obs_revision self) (Z.max (obs_authoritative self) floor) (obs_processed self)
    (obs_controllers self) (obs_live self) (obs_active_current_state self) (obs_external_view self)
    (obs_pending self) (obs_routing_results self).

(** ** Decoding *)

(** The innermost loop body of [external_view_model]. *)
Definition model_replica (partition : PartitionId) (b : CurrentStateBuilder) (entry : string * string)
  : result CurrentStateBuilder CoordinationError :=
  let? instance := or_invalid_key (InstanceId_new entry.1) in
  let? state := or_invalid_value (State_new entry.2) in
  or_invalid_value (try_builder (CurrentStateBuilder_set_state b partition instance state)).

Definition model_partition (b : CurrentStateBuilder) (entry : string * gmap string string)
  : result CurrentStateBuilder CoordinationError :=
  let? partition := or_invalid_key (PartitionId_new entry.1) in
  try_fold (model_replica partition) b (entries entry.2).

Definition model_resource (current : gmap ResourceId CurrentState)
    (entry : string * gmap string (gmap string string)) : result (gmap ResourceId CurrentState) CoordinationError :=
  let? resource := or_invalid_key (ResourceId_new entry.1) in
  let? builder := try_fold model_partition CurrentState_builder (entries entry.2) in
  Ok (<[resource := CurrentStateBuilder_build builder]> current).

Definition external_view_model (view : Value) : result ExternalView CoordinationError :=
  let? wire := or_invalid_value (of_value json view) in
  let? current := try_fold model_resource ∅ (entries wire) in
  Ok (ExternalView_from_current_states current).

Definition routing_snapshot (view : Value) (configured : list InstanceId) : result RoutingSnapshot CoordinationError :=
  let? external := external_view_model view in Ok (from_external_view external configured).

Definition routing_results (routing : RoutingSnapshot) : list RoutingResult :=
  foldl (λ results '(resource, partitions),
    foldl (λ results '(partition, instances),
      foldl (λ results state,
        results ++ [MkRoutingResult (resource_str resource) (partition_str partition) (state_str state)
          (instance_str <$> set_items (instances_for routing resource partition state))])
        results (set_items (list_to_set (map_values instances) : gset State)))
      results (entries (partitions : replica_map))) [] (entries (ev_states (external_view routing))).

Definition controllers (snapshot : CoordinationSnapshot) : ControllerMembership :=
  let active :=
    match election_active (controller_election snapshot) with
    | Some (controller, _) => [controller]
    | None => []
    end in
  MkControllerMembership active
    (List.filter (λ candidate, negb (existsb (String.eqb candidate) active))
       (map_keys (election_candidates (controller_election snapshot)))).

(** The states of the partitions of one resource: a map, so the last replica of a
    partition counts. *)
Definition observed_partitions (current : CurrentState) : gmap string string :=
  btree_collect (concat ((λ '(partition, replicas),
      (λ state, (partition_str partition, state_str state)) <$> map_values (replicas : gmap InstanceId State))
    <$> entries (CurrentState_entries current))).

Definition observed_current_state (snapshot : CoordinationSnapshot) : gmap string ActiveCurrentStateObservation :=
  btree_collect ((λ '(instance, active),
      (instance_str instance,
       MkActiveObservation (SessionId_wire_value (active_session_id active))
         (btree_collect ((λ '(resource, current), (resource_str resource, observed_partitions current))
            <$> entries (active_resources active)))))
    <$> entries (snap_active_current_state (participants snapshot))).

Definition configured_names (snapshot : CoordinationSnapshot) : result (list InstanceId) CoordinationError :=
  match metadata_value snapshot INSTANCE_CONFIGS_KEY with
  | None => Ok []
  | Some value =>
      let? names := or_invalid_value (parse_names json value) in
      collect_results (λ name, or_invalid_key (InstanceId_new name)) names
  end.

(** [map(..).transpose()?] *)
Definition observed_processed (snapshot : CoordinationSnapshot) : result (option Z) CoordinationError :=
  match metadata_value snapshot PROCESSED_OUTPUT_KEY with
  | None => Ok None
  | Some value =>
      match parse_i64 value with
      | None => Err InvalidValue
      | Some value => let? revision := Revision_new value in Ok (Some (revision_value revision))
      end
  end.

Definition snapshot_from_coordination (snapshot : CoordinationSnapshot)
  : result ClusterSnapshot CoordinationError :=
  let? processed := observed_processed snapshot in
  let? external_view :=
    match metadata_value snapshot EXTERNAL_OUTPUT_KEY with
    | Some value => or_invalid_value (parse_value json value)
    | None => Ok (empty_object json)
    end in
  let? pending :=
    match metadata_value snapshot PENDING_OUTPUT_KEY with
    | Some value => or_invalid_value (parse_pending json value)
    | None => Ok []
    end in
  let live := btree_collect ((λ '(instance, live),
      (instance_str instance, SessionId_wire_value (live_session_id live))) <$> entries (snapshot_live snapshot)) in
  let? configured := configured_names snapshot in
  let? routing := routing_snapshot external_view configured in
  Ok (MkClusterSnapshot (revision_value (snap_revision snapshot)) (revision_value (authoritative_revision snapshot))
        processed (controllers snapshot) live (observed_current_state snapshot) external_view pending
        (routing_results routing)).

Definition try_routing (self : ClusterSnapshot) : result RoutingSnapshot CoordinationError :=
  let? configured := collect_results (λ instance, or_invalid_value (InstanceId_new instance))
    (concat (res_instances <$> obs_routing_results self)) in
  let? external := external_view_model (obs_external_view self) in
  Ok (from_external_view external configured).

(** [Snapshot] *)
Record TypedSnapshot := MkTypedSnapshot { raw : ClusterSnapshot; typed_routing : RoutingSnapshot }.

Definition typed_from_raw (snapshot : ClusterSnapshot) : result TypedSnapshot CoordinationError :=
  let? routing := try_routing snapshot in Ok (MkTypedSnapshot snapshot routing).

Definition typed_floor (self : TypedSnapshot) (floor : Z) : TypedSnapshot :=
  MkTypedSnapshot (with_authoritative_floor (raw self) floor) (typed_routing self).

(** ** Reading *)

Variable backend : EtcdCoordination.

Definition observer_snapshot : prog ClusterSnapshot :=
  let! snapshot := controller_snapshot backend in Ret (snapshot_from_coordination snapshot).

Definition controller_snapshot_at_revision (revision : Revision) : prog CoordinationSnapshot :=
  let! read := raw_snapshot (namespaced_key backend EmptyString) true (Some (revision_value revision)) in
  Ret (controller_snapshot_from_kvs backend revision read.2).

Definition snapshot_at_revision (revision : Revision) : prog ClusterSnapshot :=
  let! snapshot := controller_snapshot_at_revision revision in Ret (snapshot_from_coordination snapshot).

Definition observer_snapshot_and_watch : prog (ClusterSnapshot * WatchSubscription) :=
  let! both := snapshot_and_watch_namespace backend in
  try! snapshot := snapshot_from_coordination both.1 in
  Ret (Ok (snapshot, both.2)).

Definition observer_snapshot_and_watch_from_authoritative : prog (ClusterSnapshot * WatchSubscription) :=
  let! both := snapshot_and_watch_namespace_from_authoritative backend in
  try! snapshot := snapshot_from_coordination both.1 in
  Ret (Ok (snapshot, both.2)).

Definition session_current_state_exists (instance session : string) : prog bool :=
  try! instance_id := or_invalid_key (InstanceId_new instance) in
  match parse_unsigned u64_MAX session with
  | None => Ret (Err InvalidSession)
  | Some value =>
      let! read := raw_snapshot
        (current_state_session_prefix backend instance_id (MkSessionId value)) true None in
      Ret (Ok (match read.2 with [] => false | _ => true end))
  end.
End observe.
Arguments ClusterSnapshot : clear implicits.
Arguments TypedSnapshot : clear implicits.

(** ** Waiting

    [Observer] and [ClusterObserver] wait in the same way, on the typed and on the raw
    snapshot: [prepare] is [from_raw] or nothing.  The predicate is a function of the
    snapshot. *)

Section waiting.
Context {Value T : Type} (json : ObserverJson Value) (backend : EtcdCoordination).
Context (prepare : ClusterSnapshot Value → result T CoordinationError) (floored : T → Z → T).
Context (revision authoritative : T → Z) (predicate : T → bool).

(** [?] on a coordination error *)
Definition wait_call {A} (t : prog A) : itree coordE (result A WaitError) :=
  let* r := t in Ret (map_err WaitCoordinationError r).

Definition prepared (snapshot : ClusterSnapshot Value) : result T WaitError :=
  map_err WaitCoordinationError (prepare snapshot).

Record wait_state := MkWaitState {
  wait_watch : WatchSubscription;
  wait_floor : Z;
  caught_up : bool
}.

Abbreviation wait_round := (itree coordE (wait_state + result T WaitError)).

(** A snapshot was taken: it is returned, or the wait goes on. *)
Definition offer (st : wait_state) (snapshot : T) : wait_round :=
  if caught_up st && predicate snapshot then Ret (inr (Ok snapshot)) else Ret (inl st).

Definition try_round {A} (r : result A WaitError) (k : A → wait_round) : wait_round :=
  match r with Ok a => k a | Err e => Ret (inr (Err e)) end.

Definition on_observed (catch_up : Z) (st : wait_state) (event : WatchEvent) : wait_round :=
  let st := MkWaitState (wait_watch st)
    (if is_lease_backed_delete event
     then Z.max (wait_floor st) (revision_value (event_revision event)) else wait_floor st)
    (caught_up st || (catch_up <=? revision_value (event_revision event))%Z) in
  let* read := wait_call (observer_snapshot json backend) in
  try_round read (λ read, try_round (prepared read) (λ snapshot, offer st (floored snapshot (wait_floor st)))).

Definition on_compacted (st : wait_state) : wait_round :=
  let* both := wait_call (observer_snapshot_and_watch json backend) in
  try_round both (λ both, try_round (prepared both.1) (λ snapshot,
    let snapshot := floored snapshot (wait_floor st) in
    offer (MkWaitState both.2 (Z.max (wait_floor st) (authoritative snapshot)) true) snapshot)).

Definition resume_wait (st : wait_state) (operation : string) : wait_round :=
  let* _ := emit (CoordinationRetry operation) in
  let* resumed := resume_until_available (wait_watch st) in
  match resumed with
  | Ok watch => Ret (inl (MkWaitState watch (wait_floor st) (caught_up st)))
  | Err e => Ret (inr (Err (WaitWatch e)))
  end.

Definition on_poll (st : wait_state) : wait_round :=
  let* read := observer_snapshot json backend in
  match read with
  | Ok read => try_round (prepared read) (λ snapshot, offer st (floored snapshot (wait_floor st)))
  | Err (Etcd _) => Ret (inl st)
  | Err error => Ret (inr (Err (WaitCoordinationError error)))
  end.

(** One round of the [select!]. *)
Definition wait_turn (catch_up : Z) (st : wait_state) : wait_round :=
  let* watched := select [false; true] in
  if watched : bool then
    let* next := next_event (wait_watch st) in
    let st := MkWaitState next.2 (wait_floor st) (caught_up st) in
    match next.1 with
    | Ok event => on_observed catch_up st event
    | Err (Compacted _) => on_compacted st
    | Err Disconnected => resume_wait st "observer watch"
    | Err (WatchCoordination (Etcd _)) => resume_wait st "observer coordination"
    | Err error => Ret (inr (Err (WaitWatch error)))
    end
  else on_poll st.

Definition wait_rounds (catch_up : Z) (st : wait_state) : itree coordE (result T WaitError) :=
  ITree.iter (wait_turn catch_up) st.

(** From the first snapshot and its watch on. *)
Definition wait_from (both : ClusterSnapshot Value * WatchSubscription) : itree coordE (result T WaitError) :=
  try! snapshot := prepared both.1 in
  let catch_up := revision snapshot in
  let st := MkWaitState both.2 (authoritative snapshot) (catch_up <=? authoritative snapshot)%Z in
  if caught_up st && predicate snapshot then Ret (Ok snapshot) else wait_rounds catch_up st.

Definition wait_loop : itree coordE (result T WaitError) :=
  let! both := wait_call (observer_snapshot_and_watch_from_authoritative json backend) in
  wait_from both.

(** [tokio::time::timeout] drops what has not returned in time. *)
Definition wait_until_by (timeout : Duration) : itree coordE (result T WaitError) :=
  let* waited := droppable wait_loop in
  Ret (match waited with Some r => r | None => Err (WaitTimeout timeout) end).
End waiting.

Section observers.
Context {Value : Type} (json : ObserverJson Value) (backend : EtcdCoordination).

(** [ClusterObserver] *)
Definition raw_wait_until (predicate : ClusterSnapshot Value → bool) (timeout : Duration)
  : itree coordE (result (ClusterSnapshot Value) WaitError) :=
  wait_until_by json backend Ok with_authoritative_floor obs_revision obs_authoritative predicate timeout.

(** [Observer] *)
Definition wait_until (predicate : TypedSnapshot Value → bool) (timeout : Duration)
  : itree coordE (result (TypedSnapshot Value) WaitError) :=
  wait_until_by json backend (typed_from_raw json) typed_floor (λ t, obs_revision (raw t))
    (λ t, obs_authoritative (raw t)) predicate timeout.

Definition has_controller (snapshot : ClusterSnapshot Value) : bool :=
  bool_decide (is_Some (active_member (obs_controllers snapshot))).

Definition is_idle (snapshot : ClusterSnapshot Value) : bool :=
  match obs_pending snapshot with
  | [] => match obs_processed snapshot with
          | Some processed => (obs_authoritative snapshot <=? processed)%Z
          | None => false
          end
  | _ => false
  end.

Definition wait_for_controller (timeout : Duration) : itree coordE (result (TypedSnapshot Value) WaitError) :=
  wait_until (λ t, has_controller (raw t)) timeout.
Definition raw_wait_for_controller (timeout : Duration) : itree coordE (result (ClusterSnapshot Value) WaitError) :=
  raw_wait_until has_controller timeout.

Definition wait_for_idle (timeout : Duration) : itree coordE (result (TypedSnapshot Value) WaitError) :=
  wait_until (λ t, is_idle (raw t)) timeout.
Definition raw_wait_for_idle (timeout : Duration) : itree coordE (result (ClusterSnapshot Value) WaitError) :=
  raw_wait_until is_idle timeout.
End observers.

(** * Facts *)

(** ** Names and maps *)

(** A map rebuilt under other keys. *)
Lemma collect_renamed {K L V W} `{Countable K, RustOrd K, !RustOrdLaws K, Countable L} (f : K → L) (g : V → W)
    (m : gmap K V) :
  Inj (=) (=) f → btree_collect ((λ p, (f p.1, g p.2)) <$> entries m) = (kmap f (g <$> m) : gmap L W).
Proof.
  intros Hf. apply map_eq. intros l. apply option_eq. intros w.
  assert (NoDup ((λ p, (f p.1, g p.2)) <$> entries m).*1) as Hnd.
  { replace ((λ p, (f p.1, g p.2)) <$> entries m).*1 with (f <$> map_keys m)
      by (unfold map_keys; by rewrite <-!list_fmap_compose).
    apply NoDup_fmap_2; [done|apply NoDup_map_keys]. }
  rewrite lookup_kmap_Some by done. split.
  - intros Hin%collect_inv.
    apply list_elem_of_fmap in Hin as ([k v] & [= -> ->] & Hin%elem_of_entries). exists k. split; [done|].
    by rewrite lookup_fmap, Hin.
  - intros (k & -> & Hk). rewrite lookup_fmap in Hk. destruct (m !! k) as [v|] eqn:Hv; [|done]. injection Hk as <-.
    apply collect_elem; [done|]. apply list_elem_of_fmap. exists (k, v). split; [done|by apply elem_of_entries].
Qed.

Lemma foldl_renamed {K L V W} `{Countable K, RustOrd K, !RustOrdLaws K, Countable L} (f : K → L) (g : V → W)
    (m : gmap K V) :
  Inj (=) (=) f → foldl (λ t '(k, v), <[f k := g v]> t) ∅ (entries m) = (kmap f (g <$> m) : gmap L W).
Proof.
  intros Hf. rewrite <-(collect_renamed f g m Hf). unfold btree_collect. generalize (∅ : gmap L W) as t.
  induction (entries m) as [|[k v] l IH]; intros t; [done|]. cbn. apply IH.
Qed.

Lemma resource_str_inj : Inj (=) (=) resource_str.
Proof. by intros [] [] [= ->]. Qed.
Lemma partition_str_inj : Inj (=) (=) partition_str.
Proof. by intros [] [] [= ->]. Qed.
Lemma instance_str_inj : Inj (=) (=) instance_str.
Proof. by intros [] [] [= ->]. Qed.

Definition replica_strings (m : gmap InstanceId State) : gmap string string := kmap instance_str (state_str <$> m).
Definition partition_strings (m : replica_map) : gmap string (gmap string string) :=
  kmap partition_str (replica_strings <$> m).

Lemma view_strings_kmap m : view_strings m = kmap resource_str (partition_strings <$> m).
Proof.
  unfold view_strings. rewrite <-(foldl_renamed resource_str partition_strings m resource_str_inj).
  apply foldl_ext. intros output [resource state] _. f_equal. unfold partition_strings.
  rewrite <-(foldl_renamed partition_str replica_strings state partition_str_inj).
  apply foldl_ext. intros partitions [partition replicas] _. f_equal. unfold replica_strings.
  rewrite <-(collect_renamed instance_str state_str replicas instance_str_inj). f_equal.
  apply list_fmap_ext. by intros ? [] ?.
Qed.

(** ** Decoding a view *)

(** Every name of the view is one that was validated, and no partition is empty. *)
Definition replicas_named (m : replica_map) : Prop :=
  rmap_wf m ∧ map_Forall (λ p insts, partition_str p ≠ EmptyString ∧
    map_Forall (λ i s, instance_str i ≠ EmptyString ∧ state_str s ≠ EmptyString) insts) m.

Definition view_named (m : resource_map) : Prop :=
  map_Forall (λ r parts, resource_str r ≠ EmptyString ∧ replicas_named parts) m.

(** The replicas of an encoded resource, in the order in which they are decoded. *)
Definition wire_replicas (p : PartitionId) (insts : gmap string string) : list (PartitionId * InstanceId * State) :=
  (λ e, (p, MkInstanceId e.1, MkState e.2)) <$> entries insts.

Definition wire_list (parts : gmap string (gmap string string)) : list (PartitionId * InstanceId * State) :=
  concat ((λ e, wire_replicas (MkPartitionId e.1) e.2) <$> entries parts).

Lemma set_states_app l1 l2 rs : set_states (l1 ++ l2) rs = let? rs := set_states l1 rs in set_states l2 rs.
Proof. unfold set_states. by rewrite try_fold_app. Qed.

Lemma model_replicas_run p (l : list (string * string)) b :
  Forall (λ e, e.1 ≠ EmptyString ∧ e.2 ≠ EmptyString) l →
  try_fold (model_replica p) b l =
    or_invalid_value (map_ok MkCurrentStateBuilder
      (set_states ((λ e, (p, MkInstanceId e.1, MkState e.2)) <$> l) (csb_states b))).
Proof.
  intros Hl. revert b. induction Hl as [|[i s] l [Hi Hs] _ IH]; intros b; [by destruct b|].
  cbn [fst snd] in Hi, Hs. cbn [try_fold]. unfold model_replica at 1. cbn [fst snd].
  rewrite (proj2 (InstanceId_new_ok i (MkInstanceId i))) by done.
  rewrite (proj2 (State_new_ok s (MkState s))) by done. cbn [or_invalid_key or_invalid_value map_err].
  unfold CurrentStateBuilder_set_state, set_states. cbn.
  destruct (ReplicaStates_insert _ _ _ _) as [rs [u|e]]; cbn; [|done]. by rewrite IH.
Qed.

Lemma model_partitions_run (l : list (string * gmap string string)) b :
  Forall (λ e, e.1 ≠ EmptyString ∧ map_Forall (λ i s, i ≠ EmptyString ∧ s ≠ EmptyString) e.2) l →
  try_fold model_partition b l =
    or_invalid_value (map_ok MkCurrentStateBuilder
      (set_states (concat ((λ e, wire_replicas (MkPartitionId e.1) e.2) <$> l)) (csb_states b))).
Proof.
  intros Hl. revert b. induction Hl as [|[p insts] l [Hp Hinsts] _ IH]; intros b; [by destruct b|].
  cbn [fst snd] in Hp, Hinsts. cbn [try_fold]. unfold model_partition at 1. cbn [fst snd].
  rewrite (proj2 (PartitionId_new_ok p (MkPartitionId p))) by done. cbn [or_invalid_key map_err].
  rewrite model_replicas_run.
  - change (concat ((λ e, wire_replicas (MkPartitionId e.1) e.2) <$> (p, insts) :: l)) with
      (wire_replicas (MkPartitionId p) insts ++ concat ((λ e, wire_replicas (MkPartitionId e.1) e.2) <$> l)).
    rewrite set_states_app. change ((λ e, (MkPartitionId p, MkInstanceId e.1, MkState e.2)) <$> entries insts) with
      (wire_replicas (MkPartitionId p) insts).
    destruct (set_states (wire_replicas (MkPartitionId p) insts) (csb_states b)) as [rs|e]; [|done].
    cbn [map_ok or_invalid_value map_err]. by rewrite IH.
  - apply Forall_forall. intros [i s] Hin%elem_of_entries. exact (Hinsts i s Hin).
Qed.

Lemma elem_of_wire_list m p i s : (p, i, s) ∈ wire_list (partition_strings m) ↔ rget m p i = Some s.
Proof.
  unfold wire_list, rget. rewrite list_elem_of_In, in_concat. pose proof partition_str_inj. pose proof instance_str_inj. split.
  - intros (l & Hl & Hin). apply in_map_iff in Hl as ([pn insts] & <- & Hp). apply list_elem_of_In in Hp, Hin.
    apply elem_of_entries in Hp. apply lookup_kmap_Some in Hp as (p' & -> & Hp); [|done]. rewrite lookup_fmap in Hp.
    destruct (m !! p') as [is'|] eqn:Hm; [|done]. injection Hp as <-. cbn in Hin.
    apply list_elem_of_fmap in Hin as ([j t] & [= -> -> ->] & Hj%elem_of_entries).
    apply lookup_kmap_Some in Hj as (i' & Hji & Hj); [|done]. rewrite lookup_fmap in Hj. cbn in *. subst j.
    destruct (is' !! i') as [s'|] eqn:Hs; [|done]. injection Hj as <-. destruct p', i', s'. cbn. by rewrite Hm.
  - destruct (m !! p) as [insts|] eqn:Hm; [|done]. cbn. intros Hi.
    exists (wire_replicas p (replica_strings insts)). split.
    + apply in_map_iff. exists (partition_str p, replica_strings insts). split; [by destruct p|].
      apply list_elem_of_In, elem_of_entries. unfold partition_strings. rewrite lookup_kmap, lookup_fmap, Hm by done. done.
    + apply list_elem_of_In, list_elem_of_fmap. exists (instance_str i, state_str s). split; [by destruct i, s|].
      apply elem_of_entries. unfold replica_strings. rewrite lookup_kmap, lookup_fmap, Hi by done. done.
Qed.

Lemma NoDup_wire_list parts : NoDup (wire_list parts).*1.
Proof.
  unfold wire_list. pose proof (NoDup_map_keys parts) as Hnd. unfold map_keys in Hnd.
  induction (entries parts) as [|[p insts] l IH]; [constructor|]. cbn in Hnd. apply NoDup_cons in Hnd as [Hp Hnd].
  change (concat _) with (wire_replicas (MkPartitionId p) insts ++ concat ((λ e, wire_replicas (MkPartitionId e.1) e.2) <$> l)).
  rewrite fmap_app. apply NoDup_app. split_and!; [| |by apply IH].
  - replace (wire_replicas (MkPartitionId p) insts).*1 with ((λ n, (MkPartitionId p, MkInstanceId n)) <$> map_keys insts)
      by (unfold wire_replicas, map_keys; by rewrite <-!list_fmap_compose).
    apply NoDup_fmap_2; [by intros ?? [= ->]|apply NoDup_map_keys].
  - intros q [[[q1 i] s] [-> Hq]]%list_elem_of_fmap [[[q2 i'] s'] [Heq Hq']]%list_elem_of_fmap. apply Hp.
    apply list_elem_of_fmap in Hq as (e & [= -> -> ->] & _). cbn in Heq. injection Heq as <- <-.
    apply list_elem_of_In, in_concat in Hq' as (r & Hr & Hin). apply in_map_iff in Hr as ([q insts'] & <- & Hl).
    apply list_elem_of_In, list_elem_of_fmap in Hin as (e' & [= -> _ _] & _).
    apply list_elem_of_In in Hl. by apply (list_elem_of_fmap_2 fst l (q, insts')).
Qed.

(** A resource is decoded to what was encoded. *)
Lemma model_partitions_ok m :
  replicas_named m →
  try_fold model_partition CurrentState_builder (entries (partition_strings m)) =
    Ok (MkCurrentStateBuilder (MkReplicaStates m)).
Proof.
  intros [Hwf Hnamed]. pose proof partition_str_inj. pose proof instance_str_inj. rewrite model_partitions_run.
  - change (concat _) with (wire_list (partition_strings m)).
    destruct (set_states_ok (wire_list (partition_strings m)) ReplicaStates_default) as (rs & Hrun & Hwf' & Hget).
    + apply NoDup_wire_list.
    + intros p i s _. unfold ReplicaStates_get. simpl. by rewrite lookup_empty.
    + change (csb_states CurrentState_builder) with ReplicaStates_default. rewrite Hrun. destruct rs as [m']. cbn.
      do 3 f_equal. apply rmap_wf_ext; [apply Hwf', rmap_wf_empty|done|]. intros p i. apply option_eq. intros s.
      rewrite (Hget p i s), elem_of_wire_list. unfold rget at 1. cbn. rewrite lookup_empty. naive_solver.
  - apply Forall_forall. intros [pn insts] Hp%elem_of_entries. cbn.
    apply lookup_kmap_Some in Hp as (p & -> & Hp); [|done]. rewrite lookup_fmap in Hp.
    destruct (m !! p) as [is'|] eqn:Hm; [|done]. injection Hp as <-. destruct (Hnamed p is' Hm) as [Hpn Hin].
    split; [done|]. intros i s Hi. apply lookup_kmap_Some in Hi as (i' & -> & Hi); [|done]. rewrite lookup_fmap in Hi.
    destruct (is' !! i') as [s'|] eqn:Hs; [|done]. injection Hi as <-. exact (Hin i' s' Hs).
Qed.

Section view_facts.
Context {Value : Type} (json : ObserverJson Value).

Lemma model_resources_ok m :
  view_named m →
  try_fold model_resource ∅ (entries (view_strings m)) = Ok ((λ parts, MkCurrentState (MkReplicaStates parts)) <$> m).
Proof.
  intros Hnamed. pose proof resource_str_inj. rewrite view_strings_kmap.
  set (w := kmap resource_str (partition_strings <$> m)).
  assert (∀ n parts, w !! n = Some parts → ∃ r ps, n = resource_str r ∧ parts = partition_strings ps ∧ m !! r = Some ps) as Hw.
  { intros n parts (r & -> & Hr)%lookup_kmap_Some; [|done]. rewrite lookup_fmap in Hr.
    destruct (m !! r) as [ps|] eqn:Hm; [|done]. injection Hr as <-. eauto. }
  assert (∀ l acc, (∀ e, e ∈ l → w !! e.1 = Some e.2) → ∃ cur, try_fold model_resource acc l = Ok cur ∧
    ∀ r, cur !! r = if decide (resource_str r ∈ l.*1)
                    then (λ parts, MkCurrentState (MkReplicaStates parts)) <$> m !! r else acc !! r) as Hfold.
  { induction l as [|[n parts] l IH]; intros acc Hl; [by exists acc|]. cbn [try_fold].
    destruct (Hw n parts (Hl (n, parts) ltac:(left))) as (r & ps & -> & -> & Hm). destruct (Hnamed r ps Hm) as [Hr Hps].
    unfold model_resource at 1. cbn [fst snd].
    rewrite (proj2 (ResourceId_new_ok _ r)) by (split; [done|by destruct r]). cbn [or_invalid_key map_err].
    rewrite model_partitions_ok by done.
    destruct (IH (<[r := CurrentStateBuilder_build (MkCurrentStateBuilder (MkReplicaStates ps))]> acc)) as (cur & -> & Hcur).
    { intros e He. apply Hl. by right. }
    exists cur. split; [done|]. intros r'. rewrite Hcur. cbn. destruct (decide (r' = r)) as [->|Hne].
    - rewrite (decide_True (P := resource_str r ∈ resource_str r :: l.*1)) by left.
      case_decide; [done|]. rewrite lookup_insert_eq, Hm. done.
    - rewrite lookup_insert_ne by done. destruct (decide (resource_str r' ∈ l.*1)) as [Hin|Hno].
      + by rewrite decide_True by (by right).
      + rewrite decide_False; [done|]. rewrite elem_of_cons. intros [Heq|]; [|done]. by apply (inj resource_str) in Heq. }
  destruct (Hfold (entries w) ∅) as (cur & -> & Hcur).
  { intros e He. by apply elem_of_entries'. }
  f_equal. apply map_eq. intros r. rewrite Hcur, lookup_fmap. case_decide as Hin; [done|].
  rewrite lookup_empty. destruct (m !! r) as [ps|] eqn:Hm; [|done]. exfalso. apply Hin.
  change (entries w).*1 with (map_keys w). apply elem_of_map_keys. exists (partition_strings ps).
  unfold w. rewrite lookup_kmap, lookup_fmap, Hm by done. done.
Qed.

(** The observer's JSON decodes what the controller's JSON encodes. *)
Definition same_view_json (encode : Encode) : Prop :=
  ∀ view text, to_external_view encode view = Ok text →
    ∃ value, parse_value json text = Ok value ∧ of_value json value = Ok view.

Lemma view_decodes encode view text value :
  same_view_json encode → view_named (ev_states view) → external_view_json encode view = Ok text →
  parse_value json text = Ok value → external_view_model json value = Ok view.
Proof.
  intros Hjson Hnamed Htext Hvalue. unfold external_view_json in Htext.
  destruct (to_external_view encode (view_strings (ev_states view))) as [t|] eqn:Ht; [|done]. injection Htext as ->.
  destruct (Hjson _ _ Ht) as (v & Hv & Hof). rewrite Hv in Hvalue. injection Hvalue as ->.
  unfold external_view_model. rewrite Hof. cbn [or_invalid_value map_err]. rewrite model_resources_ok by done.
  unfold ExternalView_from_current_states. destruct view as [m]. do 2 f_equal. cbn.
  rewrite <-map_fmap_compose. apply map_fmap_id.
Qed.
End view_facts.

(** ** Routing results *)

Lemma foldl_collect {A B} (f : list B → A → list B) (h : A → list B) acc l :
  (∀ acc x, f acc x = acc ++ h x) → foldl f acc l = acc ++ concat (h <$> l).
Proof.
  intros Hf. revert acc. induction l as [|x l IH]; intros acc; cbn; [by rewrite app_nil_r|].
  by rewrite IH, Hf, app_assoc.
Qed.

(** The result for one state of one partition. *)
Definition routed (routing : RoutingSnapshot) (r : ResourceId) (p : PartitionId) (s : State) : RoutingResult :=
  MkRoutingResult (resource_str r) (partition_str p) (state_str s) (instance_str <$> set_items (instances_for routing r p s)).

Lemma elem_of_routing_results routing res :
  res ∈ routing_results routing ↔
  ∃ r p s i, ExternalView_state (external_view routing) r p i = Some s ∧ res = routed routing r p s.
Proof.
  unfold routing_results.
  rewrite (foldl_collect _ (λ '(r, parts), concat ((λ '(p, insts), (λ s, routed routing r p s) <$>
      set_items (list_to_set (map_values insts) : gset State)) <$> entries (parts : replica_map)))).
  2:{ intros acc [r parts]. rewrite (foldl_collect _ (λ '(p, insts), (λ s, routed routing r p s) <$>
        set_items (list_to_set (map_values insts) : gset State))); [done|].
      intros acc' [p insts]. rewrite (foldl_collect _ (λ s, [routed routing r p s])); [|done].
      f_equal. induction (set_items _) as [|s l IH]; [done|]. cbn. by rewrite IH. }
  cbn [app]. unfold ExternalView_state. rewrite list_elem_of_In, in_concat. split.
  - intros (l & Hl & Hin). apply in_map_iff in Hl as ([r parts] & <- & Hr). apply list_elem_of_In, elem_of_entries in Hr.
    apply in_concat in Hin as (l' & Hl' & Hin). apply in_map_iff in Hl' as ([p insts] & <- & Hp).
    apply list_elem_of_In, elem_of_entries in Hp. apply list_elem_of_In, list_elem_of_fmap in Hin as (s & -> & Hs).
    apply elem_of_set_items, elem_of_list_to_set, elem_of_map_values in Hs as [i Hi]. exists r, p, s, i.
    split; [|done]. by rewrite Hr; cbn; rewrite Hp.
  - intros (r & p & s & i & Hi & ->). destruct (ev_states (external_view routing) !! r) as [parts|] eqn:Hr; [|done].
    cbn in Hi. destruct (parts !! p) as [insts|] eqn:Hp; [|done]. cbn in Hi. eexists. split.
    { apply in_map_iff. exists (r, parts). split; [reflexivity|]. by apply list_elem_of_In, elem_of_entries. }
    apply in_concat. eexists. split.
    { apply in_map_iff. exists (p, insts). split; [reflexivity|]. by apply list_elem_of_In, elem_of_entries. }
    apply list_elem_of_In, list_elem_of_fmap. exists s. split; [done|].
    apply elem_of_set_items, elem_of_list_to_set, elem_of_map_values. by exists i.
Qed.

(** * Waiting *)

Section wait_facts.
Context {S : Type} `{EtcdLaws S} (env rely : S → S → Prop) `{!Rely env rely}.
Context {Value T : Type} (json : ObserverJson Value) (backend : EtcdCoordination).
Context (prepare : ClusterSnapshot Value → result T CoordinationError) (floored : T → Z → T).
Context (revision authoritative : T → Z) (predicate : T → bool).

Abbreviation turn := (wait_turn json backend prepare floored authoritative predicate).
Abbreviation wait_round := (itree coordE (wait_state + result T WaitError)).
Abbreviation loop := (wait_loop json backend prepare floored revision authoritative predicate).

(** What is returned was read from the store at some moment, with its input revision
    raised to what the watch has shown. *)
Definition observed_at (s : S) (snapshot : T) : Prop :=
  ∃ decoded read base floor, controller_snapshot_from_kvs backend (MkRevision (head s))
      (select_kvs (keyspace s) (namespaced_key backend "") true) = Ok decoded ∧
    snapshot_from_coordination json decoded = Ok read ∧ prepare read = Ok base ∧
    (snapshot = base ∨ snapshot = floored base floor).

Definition waited (s : S) (tr : list (observation S)) (s' : S) (r : result T WaitError) : Prop :=
  Forall (λ o, ∃ operation, o = Emitted (CoordinationRetry operation)) tr ∧ rely s s' ∧
  ∀ snapshot, r = Ok snapshot → predicate snapshot = true ∧ ∃ s1, rely s s1 ∧ rely s1 s' ∧ observed_at s1 snapshot.






Lemma idle_watch key p start : guards (S := S) (λ _, False) (call (Watch key p start)).
Proof. apply guards_call. by intros s a s' [_ ?]%serve_documented ?. Qed.

#[local] Hint Resolve idle_watch : guards.







(** ** A round *)










(** ** The wait *)


End wait_facts.

(** ** Waits that cannot end *)

Section stalls.
Context {Value T : Type} (json : ObserverJson Value) (backend : EtcdCoordination).
Context (prepare : ClusterSnapshot Value → result T CoordinationError) (floored : T → Z → T).
Context (revision authoritative : T → Z) (predicate : T → bool) (bound : Z).

(** Messages of a stream on which nothing from [bound] on has happened: no
    compaction, and only older events. *)
Definition older_message (m : stream_message) : Prop :=
  match m with
  | Ok (Some response) =>
      (compact_revision response ≤ 0)%Z ∧ Forall (λ e, (raw_revision e < bound)%Z) (response_events response)
  | _ => True
  end.

Definition older_event (e : WatchEvent) : Prop := (revision_value (event_revision e) < bound)%Z.
Definition older_queue (self : WatchSubscription) : Prop := Forall older_event (pending_events self).

Abbreviation given := (returns_given older_message).

Lemma decode_older self e event :
  decode_event self e = Ok (Some event) → (raw_revision e < bound)%Z → older_event event.
Proof.
  unfold decode_event, raw_revision, older_event. destruct (raw_kv e) as [kv|]; [|done]. intros Hdec Hrev.
  unfold Revision_new in Hdec. destruct (_ <=? 0)%Z; [done|]. cbn in Hdec.
  destruct (parse_relative_key _ _) as [relative|]; [|done]. cbn in Hdec.
  destruct (if ws_prefix self then _ else _) as [key|]; [|done].
  destruct (raw_kind e); [destruct (utf8_value _); [|done]|]; by injection Hdec as <-.
Qed.

Lemma map_err_inv {A E F} (f : E → F) (r : result A E) e : map_err f r = Err e → ∃ e0, e = f e0.
Proof. destruct r; naive_solver. Qed.

Lemma decode_error self e err : decode_event self e = Err err → ∃ error, err = WatchCoordination error.
Proof.
  unfold decode_event. destruct (raw_kv e) as [kv|]; [|done].
  destruct (map_err WatchCoordination (Revision_new _)) eqn:Hr; [|intros [= <-]; by apply map_err_inv in Hr].
  destruct (map_err WatchCoordination (parse_relative_key _ _)) eqn:Hp; [|intros [= <-]; by apply map_err_inv in Hp].
  destruct (if ws_prefix self then _ else _) as [key|error] eqn:Hkey.
  - destruct (raw_kind e); [|done]. destruct (map_err WatchCoordination (utf8_value _)) eqn:Hv; [done|].
    intros [= <-]. by apply map_err_inv in Hv.
  - intros [= <-]. destruct (ws_prefix self); [done|]. by apply map_err_inv in Hkey.
Qed.

Lemma take_older events self :
  older_queue self → Forall (λ e, (raw_revision e < bound)%Z) events →
  older_queue (take_events self events).1 ∧ ∀ r, (take_events self events).2 ≠ Err (Compacted r).
Proof.
  intros Hself Hev. revert self Hself. induction Hev as [|e events He _ IH]; intros self Hself; [done|]. cbn [take_events].
  destruct (decode_event self e) as [[event|]|err] eqn:Hdec; [|by apply IH|].
  - destruct (cursor_accept _ _ _) as [[|] cursor]; apply IH; [|done]. unfold older_queue. cbn.
    apply Forall_app. split; [done|]. constructor; [|done]. by eapply decode_older.
  - split; [done|]. intros r [= ->]. by destruct (decode_error _ _ _ Hdec).
Qed.

(** What [watch.next()] gives on such a stream. *)
Definition older_answer (answer : result WatchEvent WatchError) : Prop :=
  match answer with
  | Ok event => older_event event
  | Err (Compacted _) => False
  | Err _ => True
  end.

Lemma next_older self messages answer self' rest :
  older_queue self → Forall older_message messages → watch_next self messages = (answer, self', rest) →
  older_queue self' ∧ match answer with Some r => older_answer r | None => True end.
Proof.
  intros Hself Hm. revert self Hself. induction Hm as [|m messages Hm _ IH]; intros self Hself; cbn [watch_next].
  - unfold older_queue in Hself. destruct (pending_events self) as [|event events] eqn:Hp.
    + destruct (negb _); intros [= <- <- _]; (split; [unfold older_queue; by rewrite Hp|done]).
    + intros [= <- <- _]. apply Forall_cons in Hself as [He Hs]. done.
  - unfold older_queue in Hself. destruct (pending_events self) as [|event events] eqn:Hp.
    2:{ intros [= <- <- _]. by apply Forall_cons in Hself as [He Hs]. }
    assert (older_queue self) as Hq by (unfold older_queue; by rewrite Hp).
    destruct (negb _); [by intros [= <- <- _]|]. destruct m as [[response|]|text]; [|by intros [= <- <- _]..].
    destruct Hm as [Hc Hev]. destruct (0 <? compact_revision response)%Z eqn:Hpos; [lia|].
    pose proof (take_older (response_events response) self Hq Hev) as [Hq' Herr].
    destruct (take_events self (response_events response)) as [self2 [[]|e]]; cbn [fst snd] in Hq', Herr.
    + unfold older_queue in Hq'. destruct (pending_events self2) as [|event events] eqn:Hp2.
      * apply IH. unfold older_queue. by rewrite Hp2.
      * intros [= <- <- _]. by apply Forall_cons in Hq' as [He Hs].
    + intros [= <- <- _]. split; [done|]. cbn. destruct e as [| |r]; [done|done|]. by apply (Herr r).
Qed.

Lemma next_event_older self :
  older_queue self → given (λ next, older_answer next.1 ∧ older_queue next.2) (next_event self).
Proof.
  intros Hself. apply (returns_iter_inv _ older_queue); [done|]. clear self Hself. intros self Hself.
  destruct (watch_next self []) as [[answer self1] rest] eqn:Hnext.
  destruct (next_older _ _ _ _ _ Hself (List.Forall_nil _) Hnext) as [Hq Ha].
  destruct answer as [r|]; [by apply returns_ret|].
  apply (returns_bind _ older_message); [apply returns_receive|]. intros m Hm.
  destruct (watch_next self1 [m]) as [[answer self2] rest2] eqn:Hnext2.
  destruct (next_older _ _ _ _ _ Hq (proj2 (Forall_singleton _ m) Hm) Hnext2) as [Hq2 Ha2].
  destruct answer as [r|]; by apply returns_ret.
Qed.

Lemma resume_older self : older_queue self →
  given (λ r, ∀ self', r = Ok self' → older_queue self') (resume_until_available self).
Proof.
  intros Hself. apply returns_iter. intros _. apply (returns_bind _ (λ r, ∀ self', r = Ok self' → older_queue self')).
  - apply returns_after. intros [u|e]; [|by apply returns_ret]. apply returns_ret. by intros self' [= <-].
  - intros [self'|e] Hr; apply returns_ret; [|by destruct (watch_is_transient e)]. intros self2 [= <-]. by apply Hr.
Qed.

(** Not caught up, and nothing new waits. *)
Definition behind (st : wait_state) : Prop := caught_up st = false ∧ older_queue (wait_watch st).

Definition goes_on (lr : wait_state + result T WaitError) : Prop :=
  match lr with inl st => behind st | inr r => ∀ snapshot, r ≠ Ok snapshot end.

Lemma offer_behind st snapshot : behind st → given goes_on (offer predicate st snapshot).
Proof. intros Hst. unfold offer. rewrite (proj1 Hst). by apply returns_ret. Qed.

Lemma try_behind {A} (r : result A WaitError) (k : A → itree coordE (wait_state + result T WaitError)) :
  (∀ a, given goes_on (k a)) → given goes_on (try_round r k).
Proof. intros Hk. destruct r; [apply Hk|by apply returns_ret]. Qed.

Lemma turn_behind st :
  behind st → given goes_on (wait_turn json backend prepare floored authoritative predicate bound st).
Proof.
  intros [Hc Hq]. apply returns_after. intros [|].
  - eapply returns_bind; [by apply next_event_older|]. intros [next watch] [Ha Hw]. cbn [fst snd] in *.
    assert (∀ st' operation, behind st' → given goes_on (resume_wait st' operation)) as Hresume.
    { intros st' operation [Hc' Hq']. apply returns_after. intros _. eapply returns_bind; [by apply resume_older|].
      intros [w|e] Hw'; apply returns_ret; [|done]. split; [done|]. by apply Hw'. }
    destruct next as [event|[error| |r]]; [| | |done].
    + apply returns_after. intros read. apply try_behind. intros snap. apply try_behind. intros base.
      apply offer_behind. split; [|done]. cbn. rewrite Hc. cbn. apply Z.leb_gt. exact Ha.
    + destruct error; try (by apply returns_ret). by apply Hresume.
    + by apply Hresume.
  - apply returns_after. intros [read|e]; [|destruct e; by apply returns_ret].
    apply try_behind. intros base. by apply offer_behind.
Qed.

Lemma rounds_behind st :
  behind st →
  given (λ r, ∀ snapshot, r ≠ Ok snapshot)
    (wait_rounds json backend prepare floored authoritative predicate bound st).
Proof. intros Hst. apply (returns_iter_inv _ behind); [done|]. apply turn_behind. Qed.
End stalls.



(** * Theorems *)

(** C39: what an observer shows is what the controller published.  When the store holds
    the text of an external view, the observed view decodes to that very view, and the
    routing results are exactly one entry per resource, partition and state that some
    replica is in, with the configured instances in that state. *)
Theorem observed_view_exact {Value : Type} (json : ObserverJson Value) encode snapshot view text observed configured :
  same_view_json json encode → view_named (ev_states view) → external_view_json encode view = Ok text →
  metadata_value snapshot EXTERNAL_OUTPUT_KEY = Some text → configured_names json snapshot = Ok configured →
  snapshot_from_coordination json snapshot = Ok observed →
  external_view_model json (obs_external_view observed) = Ok view ∧
  ∀ result, result ∈ obs_routing_results observed ↔
    ∃ r p s i, ExternalView_state view r p i = Some s ∧
      result = routed (from_external_view view configured) r p s.
Proof.
  intros Hjson Hnamed Htext Hvalue Hconf Hobs. unfold snapshot_from_coordination in Hobs.
  destruct (observed_processed snapshot); [|done]. rewrite Hvalue in Hobs.
  destruct (parse_value json text) as [value|] eqn:Hv; [|done]. cbn [or_invalid_value map_err] in Hobs.
  destruct (match metadata_value snapshot PENDING_OUTPUT_KEY with Some _ => _ | None => _ end); [|done].
  rewrite Hconf in Hobs. unfold routing_snapshot in Hobs.
  pose proof (view_decodes json encode view text value Hjson Hnamed Htext Hv) as Hmodel.
  rewrite Hmodel in Hobs. injection Hobs as <-. split; [done|]. intros result. apply elem_of_routing_results.
Qed.


(** The limit of catching up.  The wait holds back until an event as recent as the
    revision of its first read, which is the revision of the whole store.  The watch
    starts after the input revision, so a later write of the namespace is replayed and
    the wait returns; but when the last write of the store was to keys outside the
    namespace, no event of the namespace is so recent, and as long as the watch shows
    only older ones no poll returns, even when the predicate holds. *)
Theorem wait_stalls_behind_store {Value : Type} (json : ObserverJson Value) backend predicate read watch :
  (obs_authoritative read < obs_revision read)%Z → pending_events watch = [] →
  returns_given (older_message (obs_revision read)) (λ r, ∀ snapshot, r ≠ Ok snapshot)
    (wait_from json backend (typed_from_raw json) typed_floor (λ t, obs_revision (raw t))
      (λ t, obs_authoritative (raw t)) predicate (read, watch)).
Proof.
  intros Hrev Hwatch. unfold wait_from, prepared, typed_from_raw.
  destruct (try_routing json (read, watch).1) as [routing|e]; cbn [map_err fst snd raw]; [|by apply returns_ret].
  assert ((obs_revision read <=? obs_authoritative read)%Z = false) as -> by (by apply Z.leb_gt). cbn [caught_up andb].
  apply rounds_behind. split; [done|]. unfold older_queue. cbn. by rewrite Hwatch.
Qed.

(** ** Small observations *)

(** JSON for one view, whose value is the nested map itself. *)
Definition ex_view : ExternalView :=
  MkExternalView {[MkResourceId "documents" := {[MkPartitionId "p0" := {[MkInstanceId "node-a" := MkState "LEADER"]}]}]}.

Definition ex_wire : gmap string (gmap string (gmap string string)) := view_strings (ev_states ex_view).

Definition ex_observer_json : ObserverJson (gmap string (gmap string (gmap string string))) :=
  MkObserverJson _ (λ text, if String.eqb text "view" then Ok ex_wire else Err "syntax") ∅ Ok
    (λ _, Ok []) (λ text, if String.eqb text "names" then Ok ["node-a"] else Err "syntax").

Definition ex_view_encode : Encode :=
  MkEncode (λ m, if bool_decide (m = ex_wire) then Ok "view" else Err "syntax") (λ _, Ok "queue").

Lemma ex_same_view : same_view_json ex_observer_json ex_view_encode.
Proof.
  intros m text Htext. cbn [to_external_view ex_view_encode] in Htext.
  destruct (bool_decide_reflect (m = ex_wire)) as [->|Hno]; [|discriminate Htext].
  injection Htext as <-. exists ex_wire. split; reflexivity.
Qed.

Lemma ex_view_named : view_named (ev_states ex_view).
Proof.
  apply map_Forall_singleton. split; [done|]. split; [by apply map_Forall_singleton|].
  apply map_Forall_singleton. split; [done|]. by apply map_Forall_singleton.
Qed.

Definition ex_observed_snapshot : CoordinationSnapshot :=
  MkSnapshot (MkRevision 3) (MkRevision 2)
    {[EXTERNAL_OUTPUT_KEY := MkMetadataEntry (Some "view") (MkRevision 3);
      INSTANCE_CONFIGS_KEY := MkMetadataEntry (Some "names") (MkRevision 2)]}
    (MkParticipantSessionSnapshot ∅ ∅) (MkElectionSnapshot None ∅).

Lemma ex_observed_ok : match snapshot_from_coordination ex_observer_json ex_observed_snapshot with Ok _ => True | Err _ => False end.
Proof. vm_compute. exact I. Qed.

Lemma ex_observation : ∃ observed, snapshot_from_coordination ex_observer_json ex_observed_snapshot = Ok observed.
Proof. pose proof ex_observed_ok. destruct (snapshot_from_coordination _ _); [by eexists|done]. Qed.

Lemma observed_view_exact_witness : ∃ observed,
  MkRoutingResult "documents" "p0" "LEADER" ["node-a"] ∈ obs_routing_results observed ∧
  external_view_model ex_observer_json (obs_external_view observed) = Ok ex_view.
Proof.
  destruct ex_observation as [observed Hobs]. exists observed.
  destruct (observed_view_exact ex_observer_json ex_view_encode ex_observed_snapshot ex_view "view" observed
    [MkInstanceId "node-a"] ex_same_view ex_view_named eq_refl eq_refl eq_refl Hobs) as [Hview Hresults].
  split; [|exact Hview]. apply Hresults.
  exists (MkResourceId "documents"), (MkPartitionId "p0"), (MkState "LEADER"), (MkInstanceId "node-a").
  split; reflexivity.
Defined.

(** The input marker is the newest key of the store. *)
Definition ex_fresh_store : mem_store := mem_effect (MkMem ∅ 0 1) [authoritative_input_marker_operation ex_backend].



(** A store whose last write was to another namespace. *)
Definition ex_shared_store : mem_store := mem_effect ex_fresh_store [TxnPut "/other/key" "value" 0].

Lemma ex_behind_run : ∃ read watch s',
  runs alone (observer_snapshot_and_watch_from_authoritative ex_observer_json ex_backend) ex_shared_store [] s' (Ok (read, watch)) ∧
  (obs_authoritative read < obs_revision read)%Z ∧ pending_events watch = [].
Proof.
  do 3 eexists. split; [apply (run_mem_sound 20); vm_compute; reflexivity|]. split; [reflexivity|reflexivity].
Qed.

Lemma wait_stalls_behind_store_witness : ∃ read watch s',
  runs alone (observer_snapshot_and_watch_from_authoritative ex_observer_json ex_backend) ex_shared_store [] s' (Ok (read, watch)) ∧
  returns_given (older_message (obs_revision read)) (λ r, ∀ snapshot, r ≠ Ok snapshot)
    (wait_from ex_observer_json ex_backend (typed_from_raw ex_observer_json) typed_floor (λ t, obs_revision (raw t))
      (λ t, obs_authoritative (raw t)) (λ _, true) (read, watch)).
Proof.
  destruct ex_behind_run as (read & watch & s' & Hrun & Hrev & Hwatch). exists read, watch, s'. split; [exact Hrun|].
  exact (wait_stalls_behind_store ex_observer_json ex_backend (λ _, true) read watch Hrev Hwatch).
Defined.
