(* ===== verification/Facade.v ===== *)
(** * The application facade

    Models [src/cluster.rs]: the declarative specifications and their validation,
    [Cluster::connect], the administration facade ([apply] and the other operations
    of [Admin]) and the builders that run a controller or a participant.  Callbacks
    are the application's: a ready callback is its outcome. *)

From Stdlib Require Import SpecFloat.
From S2P Require Import Prelude Identity StateMaps StateModel Session Keys Snapshot Routing Crush ControllerRuntime.
From S2P Require Import Etcd Metadata SessionStore Watch Participant Workers Lifecycle Election Reconcile LeaderLoop.
From S2P Require Import Queue Process Serving Admin Connection Observe.

(** ** Errors *)

Inductive ApplicationError :=
| AppConfig (error : ConfigError)
| AppCoordination (error : CoordinationError)
| AppRuntime (text : string)
| AppSpec (text : string)
| AppParticipant (error : ParticipantRuntimeError)
| AppController (text : string)
| AppCallback (text : string)
| AppSignal (text : string)
| AppRouting (error : RoutingError)
| AppWait (error : WaitError).

(** [debug] and [debug_duration] are [{:?}] of strings and durations. *)
Definition display_application_error (debug : string → string) (debug_duration : Duration → string)
    (e : ApplicationError) : string :=
  match e with
  | AppConfig error => display_config_error error
  | AppCoordination error => display_coordination_error error
  | AppRuntime text => text
  | AppSpec text => text
  | AppParticipant error => "participant runtime error: " +:+ display_participant_error error
  | AppController text => "controller runtime error: " +:+ text
  | AppCallback text => "application callback failed: " +:+ text
  | AppSignal text => "signal handler setup failed: " +:+ text
  | AppRouting error => display_routing_error debug error
  | AppWait error => display_wait_error debug_duration error
  end.

Abbreviation app_prog A := (itree coordE (result A ApplicationError)).

(** [?] on a coordination error *)
Definition app_call {A} (t : prog A) : app_prog A :=
  let* r := t in Ret (map_err AppCoordination r).

(** [map_err(|error| ApplicationError::Spec(error.to_string()))] *)
Definition or_spec {A} (r : result A IdentifierError) : result A ApplicationError :=
  map_err (λ e, AppSpec (display_identifier_error e)) r.

(** ** Specifications *)

Definition DEFAULT_ZONE : string := "default".

Inductive StateModelKind := LeaderStandbyModel.

Record AppInstance := MkAppInstance { app_instance : string; app_zone : string }.

Definition AppInstance_new (instance_id : string) : AppInstance := MkAppInstance instance_id DEFAULT_ZONE.
Definition instance_zone (self : AppInstance) (zone : string) : AppInstance :=
  MkAppInstance (app_instance self) zone.
Definition instance_low_level (self : AppInstance) : InstanceSpec :=
  MkInstanceSpec (app_instance self) (app_zone self).

Record Topology := MkTopology { tp_path : string; tp_fault_zone_type : string; tp_end_node_type : string }.

Definition Topology_zones : Topology := MkTopology "/zone/instance" "zone" "instance".
Definition topology_low_level (self : Topology) : CrushTopologySpec :=
  MkCrushTopologySpec (tp_path self) (tp_fault_zone_type self) (tp_end_node_type self).

Inductive Placement :=
| AppCrush
| AppCrushWithTopology (topology : Topology)
| AppSemiAuto (preference_lists : gmap string (list string)).

Definition placement_low_level (self : Placement) : PlacementSpec :=
  match self with
  | AppCrush => PlaceCrush
  | AppCrushWithTopology topology => PlaceCrushWithTopology (topology_low_level topology)
  | AppSemiAuto preference_lists => PlaceSemiAuto preference_lists
  end.

Record AppResource := MkAppResource {
  ar_name : string;
  ar_partitions : N;
  ar_replicas : N;
  ar_state_model : StateModelKind;
  ar_placement : Placement
}.

Definition leader_standby_resource (name : string) : AppResource := MkAppResource name 0 0 LeaderStandbyModel AppCrush.
Definition with_partitions (self : AppResource) (n : N) : AppResource :=
  MkAppResource (ar_name self) n (ar_replicas self) (ar_state_model self) (ar_placement self).
Definition with_replicas (self : AppResource) (n : N) : AppResource :=
  MkAppResource (ar_name self) (ar_partitions self) n (ar_state_model self) (ar_placement self).
Definition with_placement (self : AppResource) (placement : Placement) : AppResource :=
  MkAppResource (ar_name self) (ar_partitions self) (ar_replicas self) (ar_state_model self) placement.

Definition resource_low_level (self : AppResource) : ResourceSpec :=
  MkResourceSpec (ar_name self) (ar_partitions self) (ar_replicas self)
    (match ar_state_model self with LeaderStandbyModel => "LeaderStandby" end)
    (placement_low_level (ar_placement self)).

Record ClusterSpec := MkClusterSpec { cs_instances : list AppInstance; cs_resources : list AppResource }.

Definition ClusterSpec_new : ClusterSpec := MkClusterSpec [] [].
Definition spec_add_instances (self : ClusterSpec) (instances : list AppInstance) : ClusterSpec :=
  MkClusterSpec (cs_instances self ++ instances) (cs_resources self).
Definition spec_add_resource (self : ClusterSpec) (resource : AppResource) : ClusterSpec :=
  MkClusterSpec (cs_instances self) (cs_resources self ++ [resource]).

(** ** Limits *)

Inductive TransitionType := TypeAny | TypeRecoveryBalance | TypeLoadBalance.

Inductive TransitionLimitTargetSpec :=
| TargetCluster
| TargetResource (resource : string)
| TargetInstance (instance : string).

Record TransitionLimit := MkTransitionLimit {
  tl_target : TransitionLimitTargetSpec;
  tl_transition_type : TransitionType;
  tl_max_in_flight : N
}.

Definition TransitionLimit_cluster (n : N) : TransitionLimit := MkTransitionLimit TargetCluster TypeAny n.
Definition TransitionLimit_resource (resource : string) (n : N) : TransitionLimit :=
  MkTransitionLimit (TargetResource resource) TypeAny n.
Definition TransitionLimit_instance (instance : string) (n : N) : TransitionLimit :=
  MkTransitionLimit (TargetInstance instance) TypeAny n.
Definition limit_of_type (self : TransitionLimit) (t : TransitionType) : TransitionLimit :=
  MkTransitionLimit (tl_target self) t (tl_max_in_flight self).

Definition limit_low_level (self : TransitionLimit) : result TransitionLimitSpec ApplicationError :=
  if (tl_max_in_flight self =? 0)%N then Err (AppSpec "transition limit must be greater than zero")
  else
    let? target :=
      match tl_target self with
      | TargetCluster => Ok LimitCluster
      | TargetResource resource => let? r := or_spec (ResourceId_new resource) in Ok (LimitResource r)
      | TargetInstance instance => let? i := or_spec (InstanceId_new instance) in Ok (LimitInstance i)
      end in
    let rebalance_type :=
      match tl_transition_type self with
      | TypeAny => LimitAny
      | TypeRecoveryBalance => LimitRecoveryBalance
      | TypeLoadBalance => LimitLoadBalance
      end in
    Ok (MkTransitionLimitSpec target rebalance_type (tl_max_in_flight self)).

(** ** Validation *)

(** The loop over the instances, with the set of those seen. *)
Definition check_instance (seen : gset InstanceId) (instance : AppInstance)
  : result (gset InstanceId) ApplicationError :=
  let? id := or_spec (InstanceId_new (app_instance instance)) in
  if is_blank (app_zone instance) || contains_nul (app_zone instance)
  then Err (AppSpec ("instance " +:+ instance_str id +:+ ": zone must not be empty or contain NUL"))
  else if bool_decide (id ∈ seen)
  then Err (AppSpec ("instance " +:+ instance_str id +:+ " is declared more than once"))
  else Ok ({[id]} ∪ seen).

Definition check_lists (id : ResourceId) (resource : AppResource) : result unit ApplicationError :=
  match ar_placement resource with
  | AppSemiAuto preference_lists =>
      if negb (N.of_nat (size preference_lists) =? ar_partitions resource)%N
         || existsb (λ instances, negb (len instances =? ar_replicas resource)%N) (map_values preference_lists)
      then Err (AppSpec ("resource " +:+ resource_str id +:+ ": semi-auto lists must match partitions and replicas"))
      else if existsb (λ instances, negb (N.of_nat (size (list_to_set instances : gset string)) =? len instances)%N)
                (map_values preference_lists)
      then Err (AppSpec ("resource " +:+ resource_str id +:+
                         ": semi-auto preference lists must not contain duplicate instances"))
      else Ok tt
  | _ => Ok tt
  end.

Definition check_resource (seen : gset ResourceId) (resource : AppResource)
  : result (gset ResourceId) ApplicationError :=
  let? id := or_spec (ResourceId_new (ar_name resource)) in
  if (ar_partitions resource =? 0)%N || (ar_replicas resource =? 0)%N
  then Err (AppSpec ("resource " +:+ resource_str id +:+ ": partitions and replicas must be greater than zero"))
  else if bool_decide (id ∈ seen)
  then Err (AppSpec ("resource " +:+ resource_str id +:+ " is declared more than once"))
  else let? _ := check_lists id resource in Ok ({[id]} ∪ seen).

Definition spec_validate (self : ClusterSpec) : result unit ApplicationError :=
  let? _ := try_fold check_instance ∅ (cs_instances self) in
  let? _ := try_fold check_resource ∅ (cs_resources self) in
  Ok tt.

(** ** The cluster *)

Definition Cluster_connect (client_connect : list string → ConnectOptions → result unit string)
    (config : ClusterConfig) : app_prog EtcdCoordination :=
  try! config := map_err AppConfig (ClusterConfig_validate config) in
  let! coordination := app_call (connect_endpoints_with_options client_connect
    (cc_endpoints config) (cc_namespace config) (cc_cluster config) (cc_options config)) in
  let! _ := app_call (ensure_cluster coordination (cluster coordination)) in
  Ret (Ok coordination).

Section facade.
Variable json : AdminJson.
Variable coordination : EtcdCoordination.

Fixpoint apply_instances (instances : list AppInstance) : app_prog unit :=
  match instances with
  | [] => Ret (Ok tt)
  | instance :: rest =>
      let! _ := app_call (put_instance json coordination (instance_low_level instance)) in
      apply_instances rest
  end.

Fixpoint apply_resources (resources : list AppResource) : app_prog unit :=
  match resources with
  | [] => Ret (Ok tt)
  | resource :: rest =>
      let! _ := app_call (put_resource json coordination (resource_low_level resource)) in
      apply_resources rest
  end.

Definition apply (spec : ClusterSpec) : app_prog unit :=
  try! _ := spec_validate spec in
  let! _ := app_call (ensure_cluster coordination (cluster coordination)) in
  let! _ := apply_instances (cs_instances spec) in
  apply_resources (cs_resources spec).

Definition admin_remove_instance (instance_id : string) : app_prog unit :=
  app_call (remove_instance json coordination instance_id).

Definition admin_remove_resource (resource_id : string) : app_prog unit :=
  app_call (remove_resource resource_id).

Definition set_transition_limits (limits : list TransitionLimit) : app_prog unit :=
  try! limits := collect_results limit_low_level limits in
  app_call (put_transition_limits json coordination limits).
End facade.

(** ** Running *)

Definition DEFAULT_CONTROLLER_LEASE_TTL : Duration := MkDuration 60 0.

(** [Duration::as_millis], a [u128] *)
Definition as_millis (d : Duration) : N := (as_secs d * 1000 + subsec_nanos d / 1000000)%N.

Definition lease_ttl_millis (lease_ttl : Duration) : result N ApplicationError :=
  if (as_millis lease_ttl <=? u64_MAX)%N then Ok (as_millis lease_ttl)
  else Err (AppConfig (Invalid "controller lease TTL is too large")).

Record ControllerBuilder := MkControllerBuilder {
  cb_coordination : EtcdCoordination;
  cb_controller : string;
  cb_lease_ttl : Duration;
  cb_ready : option (result unit string)
}.

Definition Cluster_controller (coordination : EtcdCoordination) (controller_id : string) : ControllerBuilder :=
  MkControllerBuilder coordination controller_id DEFAULT_CONTROLLER_LEASE_TTL None.

(** What the mutex holds after the run: the error of a ready callback that was called. *)
Definition callback_error (ready left : option (result unit string)) : option string :=
  match ready, left with
  | Some (Err error), None => Some error
  | _, _ => None
  end.

Section running.
Variable encode : Encode.
Variable serde : Serde.
Variable powf : spec_float → spec_float → spec_float.
Variable debug : string → string.
Variable fuel : nat.

(** A panic of the controller is a panic of the caller: [Err Panicked]. *)
Definition controller_run_until (self : ControllerBuilder) : itree coordE (result unit (stop ApplicationError)) :=
  let failed {A} (e : ApplicationError) : result A (stop ApplicationError) := Err (Raise e) in
  match lease_ttl_millis (cb_lease_ttl self) with
  | Err e => Ret (failed e)
  | Ok lease_ttl_ms =>
      match ControllerRuntime_new (cb_coordination self)
              (MkControllerRuntimeConfig (cluster (cb_coordination self)) (cb_controller self) lease_ttl_ms) with
      | Err text => Ret (failed (AppController text))
      | Ok runtime =>
          let runtime := match cb_ready self with
                         | Some ready => on_ready runtime (map_err (λ _, "application ready callback failed") ready)
                         | None => runtime
                         end in
          let* ended := process_run_until encode serde powf debug fuel runtime true in
          Ret (match callback_error (cb_ready self) ended.2 with
               | Some error => failed (AppCallback error)
               | None =>
                   match ended.1 with
                   | Ok _ => Ok tt
                   | Err (Raise text) => failed (AppController text)
                   | Err Panicked => Err Panicked
                   | Err Diverged => Err Diverged
                   end
               end)
      end
  end.

(** [setup] is the outcome of installing the handler for SIGTERM, [signal] the error
    of waiting for Ctrl-C, if any. *)
Definition until_signal (setup : result unit string) (signal : option string)
    (run : itree coordE (result unit (stop ApplicationError))) : itree coordE (result unit (stop ApplicationError)) :=
  match setup with
  | Err text => Ret (Err (Raise (AppSignal text)))
  | Ok _ =>
      let* result := run in
      Ret (match signal with Some text => Err (Raise (AppSignal text)) | None => result end)
  end.

Definition controller_run_until_signal setup signal (self : ControllerBuilder)
  : itree coordE (result unit (stop ApplicationError)) :=
  until_signal setup signal (controller_run_until self).
End running.

(** The names of the handlers, in the order in which they were registered. *)
Record ParticipantBuilder := MkParticipantBuilder {
  pb_coordination : EtcdCoordination;
  pb_instance : string;
  pb_handlers : list string;
  pb_lease_ttl : Duration;
  pb_ready : option (result unit string)
}.

Definition Cluster_participant (coordination : EtcdCoordination) (instance_id : string) : ParticipantBuilder :=
  MkParticipantBuilder coordination instance_id [] (MkDuration 60 0) None.

Definition add_handler (seen : gset ResourceId) (resource : string) : result (gset ResourceId) ApplicationError :=
  let? id := or_spec (ResourceId_new resource) in
  if bool_decide (id ∈ seen) then Err (AppSpec "participant resource handler declared more than once")
  else Ok ({[id]} ∪ seen).

(** [answers] is what becomes of the tasks that call the handlers, [state_model_name] the
    reading of a resource's record: there is no other state model. *)
Definition participant_run_until (answers : gset ResourceId → nat → task_answers)
    (state_model_name : string → result string string) (codec : QueueCodec) (self : ParticipantBuilder)
  : app_prog unit :=
  try! instance := or_spec (InstanceId_new (pb_instance self)) in
  try! handlers := try_fold add_handler ∅ (pb_handlers self) in
  try! _ := map_err (λ e, AppParticipant (ParticipantCoordination e)) (RegistrationOptions_new (pb_lease_ttl self)) in
  let ready := match pb_ready self with
               | Some ready => map_err (λ _, Io "application ready callback failed") ready
               | None => Ok tt
               end in
  let* ended := participant_run (answers handlers) state_model_name None codec (pb_coordination self) instance
    (pb_lease_ttl self) ready in
  match callback_error (pb_ready self) (if ended.2 then None else pb_ready self) with
  | Some error => Ret (Err (AppCallback error))
  | None => Ret (map_err AppParticipant ended.1)
  end.

(** [ParticipantBuilder::run_until_signal] *)
Definition participant_run_until_signal (setup : result unit string) (signal : option string)
    (answers : gset ResourceId → nat → task_answers) (state_model_name : string → result string string)
    (codec : QueueCodec) (self : ParticipantBuilder) : app_prog unit :=
  match setup with
  | Err text => Ret (Err (AppSignal text))
  | Ok _ =>
      let* result := participant_run_until answers state_model_name codec self in
      Ret (match signal with Some text => Err (AppSignal text) | None => result end)
  end.

(** * Facts *)

(** ** Validation *)

(** The names inside preference lists, which validation does not look at. *)
Definition lists_named (resource : AppResource) : Prop :=
  match ar_placement resource with
  | AppSemiAuto lists => map_Forall (λ p l, p ≠ EmptyString ∧ Forall (λ i, i ≠ EmptyString) l) lists
  | _ => True
  end.

Lemma existsb_false_elem {A} (p : A → bool) l x : existsb p l = false → x ∈ l → p x = false.
Proof.
  intros Hno Hx. destruct (p x) eqn:Hp; [|done]. rewrite <-Hno. symmetry. apply existsb_exists.
  exists x. split; [by apply list_elem_of_In|done].
Qed.

Lemma forall_elem_cons {A} (P : A → Prop) x l : (∀ y, y ∈ x :: l → P y) ↔ P x ∧ ∀ y, y ∈ l → P y.
Proof. rewrite <-!Forall_forall. apply Forall_cons. Qed.

Lemma check_instance_ok seen instance seen' :
  check_instance seen instance = Ok seen' →
  InstanceId_new (app_instance instance) = Ok (MkInstanceId (app_instance instance)) ∧
  is_blank (app_zone instance) || contains_nul (app_zone instance) = false ∧
  MkInstanceId (app_instance instance) ∉ seen ∧ seen' = {[MkInstanceId (app_instance instance)]} ∪ seen.
Proof.
  unfold check_instance. destruct (InstanceId_new (app_instance instance)) as [i|] eqn:Hi; [|done]. cbn [or_spec map_err].
  pose proof (proj1 (InstanceId_new_ok _ _) Hi) as [_ ->]. destruct (_ || _); [done|].
  case_bool_decide; [done|]. by intros [= <-].
Qed.

(** A validated list of instances: each is acceptable, none is declared twice. *)
Lemma check_instances_ok l seen seen' :
  try_fold check_instance seen l = Ok seen' →
  Forall (λ x, InstanceId_new (app_instance x) = Ok (MkInstanceId (app_instance x)) ∧
    is_blank (app_zone x) || contains_nul (app_zone x) = false) l ∧
  NoDup (app_instance <$> l) ∧ ∀ x, x ∈ l → MkInstanceId (app_instance x) ∉ seen.
Proof.
  revert seen. induction l as [|x l IH]; intros seen; cbn [try_fold].
  { intros _. split_and!; [constructor|constructor|]. by intros x ?%elem_of_nil. }
  destruct (check_instance seen x) as [seen1|] eqn:Hx; [|done].
  apply check_instance_ok in Hx as (Hi & Hz & Hnew & ->). intros Hrest.
  destruct (IH _ Hrest) as (Hall & Hnd & Hseen). split_and!.
  - by constructor.
  - cbn. apply NoDup_cons. split; [|done]. intros (y & Heq & Hy)%list_elem_of_fmap.
    apply (Hseen y Hy). rewrite Heq. set_solver.
  - intros y [->|Hy]%elem_of_cons; [done|]. specialize (Hseen y Hy). set_solver.
Qed.

Lemma check_resource_ok seen resource seen' :
  check_resource seen resource = Ok seen' → lists_named resource →
  (∃ record, resource_record (resource_low_level resource) = Ok (MkResourceId (ar_name resource), record)) ∧
  MkResourceId (ar_name resource) ∉ seen ∧ seen' = {[MkResourceId (ar_name resource)]} ∪ seen.
Proof.
  unfold check_resource, resource_record. cbn [resource_low_level spec_name spec_partitions spec_replicas spec_state_model].
  destruct (ResourceId_new (ar_name resource)) as [r|] eqn:Hr; [|done]. cbn [or_spec or_invalid_key map_err].
  pose proof (proj1 (ResourceId_new_ok _ _) Hr) as [_ ->].
  destruct (_ || _) eqn:Hn; [done|]. case_bool_decide as Hseen; [done|].
  destruct (check_lists _ _) as [[]|] eqn:Hlists; [|done]. intros [= <-] Hnamed. split; [|done].
  destruct (ar_state_model resource). change (negb (String.eqb "LeaderStandby" "LeaderStandby")) with false. cbn [orb].
  unfold check_lists, lists_named, placement_record in *.
  cbn [resource_low_level spec_placement spec_partitions spec_replicas].
  destruct (ar_placement resource) as [|topology|lists]; cbn [placement_low_level]; [by eexists|by eexists|].
  destruct (N.of_nat (size lists) =? ar_partitions resource)%N; [|done]. cbn [negb orb] in Hlists |- *.
  destruct (existsb _ _) eqn:Hlen in Hlists; [done|]. destruct (existsb _ _) eqn:Hdup in Hlists; [done|].
  assert (try_fold (λ _ '(partition, instances), check_preference (ar_replicas resource) partition instances) tt
    (entries lists) = Ok tt) as ->; [|by eexists].
  rewrite (try_fold_ext _ (λ _ e, check_preference (ar_replicas resource) e.1 e.2)) by (by intros ? [] _).
  apply (checks_all (λ e, check_preference (ar_replicas resource) e.1 e.2)), Forall_forall. intros [p l] Hin.
  apply elem_of_entries in Hin as Hp. destruct (Hnamed p l Hp) as [Hpn Hl]. apply check_preference_ok.
  assert (l ∈ map_values lists) as Hv by (apply elem_of_map_values; by exists p).
  pose proof (existsb_false_elem _ _ _ Hlen Hv) as Hlenl. cbn beta in Hlenl.
  pose proof (existsb_false_elem _ _ _ Hdup Hv) as Hdupl. cbn beta in Hdupl.
  apply negb_false_iff, N.eqb_eq in Hlenl, Hdupl. apply size_set_NoDup in Hdupl. by split_and!.
Qed.

Lemma check_resources_ok l seen seen' :
  try_fold check_resource seen l = Ok seen' → NoDup (ar_name <$> l) ∧ ∀ x, x ∈ l → MkResourceId (ar_name x) ∉ seen.
Proof.
  revert seen. induction l as [|x l IH]; intros seen; cbn [try_fold].
  { intros _. split; [constructor|]. by intros x ?%elem_of_nil. }
  destruct (check_resource seen x) as [seen1|] eqn:Hx; [|done].
  assert (MkResourceId (ar_name x) ∉ seen ∧ seen1 = {[MkResourceId (ar_name x)]} ∪ seen) as [Hnew ->].
  { unfold check_resource in Hx. destruct (ResourceId_new (ar_name x)) as [r|] eqn:Hr; [|done].
    apply ResourceId_new_ok in Hr as [_ ->]. cbn [or_spec map_err] in Hx. destruct (_ || _); [done|].
    case_bool_decide; [done|]. destruct (check_lists _ _); [|done]. by injection Hx as <-. }
  intros Hrest. destruct (IH _ Hrest) as (Hnd & Hseen). split.
  - cbn. apply NoDup_cons. split; [|done]. intros (y & Heq & Hy)%list_elem_of_fmap.
    apply (Hseen y Hy). rewrite Heq. set_solver.
  - intros y [->|Hy]%elem_of_cons; [done|]. specialize (Hseen y Hy). set_solver.
Qed.

(** ** Steps that settle *)

Section settling.
Context {S : Type} `{EtcdLaws S} (backend : EtcdCoordination).

(** Success means [P]; where [P] holds there is nothing to do; only [touched] entries
    change. *)
Record settles {E} (t : itree coordE (result unit E)) (P : S → Prop) (touched : string → Prop) : Prop := {
  settle_done : ∀ s, ensures alone t s (λ _ s' r, r = Ok tt → P s');
  settle_idle : ∀ s, P s → ensures alone t s (λ tr s' _, tr = [] ∧ same_view s s');
  settle_touches : ∀ s, ensures alone t s (λ _ s' _, touches backend touched s s')
}.

Definition keeps {E} (t : itree coordE (result unit E)) (P : S → Prop) : Prop :=
  ∀ s, P s → ensures alone t s (λ _ s' _, P s').

Lemma alone_ret {R} (r : R) (s : S) Q : Q [] s r → ensures alone (Ret r) s Q.
Proof. intros HQ. apply holds_ret. intros s' Hs. by inversion Hs; subst. Qed.

Lemma touches_trans touched (s1 s2 s3 : S) :
  touches backend touched s1 s2 → touches backend touched s2 s3 → touches backend touched s1 s3.
Proof. intros H12 H23 k Hk Hm. by rewrite H23, H12. Qed.

Lemma settles_weaken {E} (t : itree coordE (result unit E)) P (few many : string → Prop) :
  settles t P few → (∀ k, few k → many k) → settles t P many.
Proof.
  intros [Hd Hi Ht] Hsub. split; [done|done|]. intros s. eapply holds_mono; [apply Ht|].
  intros tr s' r Hframe k Hnot Hm. apply Hframe; [|done]. by intros ?%Hsub.
Qed.

Lemma settles_ret {E} touched : settles (Ret (Ok tt : result unit E)) (λ _, True) touched.
Proof. split; intros; apply alone_ret; [done|done|by apply touches_same]. Qed.

Lemma settles_call (t : prog unit) P touched : settles t P touched → settles (app_call t) P touched.
Proof.
  intros [Hd Hi Ht]. split; intros s; [|intros Hp|]; apply holds_bind.
  - eapply holds_mono; [apply Hd|]. intros tr s1 r Hr. apply alone_ret. intros Hok. destruct r as [[]|]; [by apply Hr|done].
  - eapply holds_mono; [by apply Hi|]. intros tr s1 r [-> Hs1]. by apply alone_ret.
  - eapply holds_mono; [apply Ht|]. intros tr s1 r Hr. by apply alone_ret.
Qed.

Lemma keeps_app_call (t : prog unit) P : keeps t P → keeps (app_call t) P.
Proof.
  intros Hk s Hp. apply holds_bind. eapply holds_mono; [by apply Hk|]. intros tr s1 r Hp1. by apply alone_ret.
Qed.

Lemma settles_keeps {E} (t : itree coordE (result unit E)) P Q touched :
  settles t P touched → (∀ s s', touches backend touched s s' → Q s → Q s') → keeps t Q.
Proof. intros Ht HQ s Hs. eapply holds_mono; [apply (settle_touches _ _ _ Ht)|]. intros tr s' r Hframe. exact (HQ _ _ Hframe Hs). Qed.

Lemma keeps_seq {E} (t u : itree coordE (result unit E)) P : keeps t P → keeps u P → keeps (let! _ := t in u) P.
Proof.
  intros Ht Hu s Hp. apply holds_bind. eapply holds_mono; [by apply Ht|]. intros tr s1 [x|e] Hp1; [|by apply alone_ret].
  eapply holds_mono; [by apply Hu|]. done.
Qed.

Lemma settles_seq {E} (t u : itree coordE (result unit E)) P Q touched :
  (∀ s s' : S, same_view s s' → Q s → Q s') →
  settles t P touched → settles u Q touched → keeps u P → settles (let! _ := t in u) (λ s, P s ∧ Q s) touched.
Proof.
  intros HQ [Hd Hi Ht] [Hd' Hi' Ht'] Hk. split; intros s; [|intros [Hp Hq]|]; apply holds_bind.
  - eapply holds_mono; [apply Hd|]. intros tr s1 [[]|e] Hp; [|by apply alone_ret].
    intros tr' s2 r Hx. intros Hr. split; [|by eapply Hd']. eapply Hk; [|exact Hx]. by apply Hp.
  - eapply holds_mono; [by apply Hi|]. intros tr s1 [[]|e] [-> Hs1]; [|by apply alone_ret].
    eapply holds_mono; [apply Hi'; by eapply HQ|]. intros tr s2 r [-> Hs2]. split; [done|by etrans].
  - eapply holds_mono; [apply Ht|]. intros tr s1 [[]|e] Hs1; [|by apply alone_ret].
    eapply holds_mono; [apply Ht'|]. intros tr' s2 r Hs2. by eapply touches_trans.
Qed.
End settling.

(** ** What [apply] settles *)

Section applied.
Context {S : Type} `{EtcdLaws S} (json : AdminJson) (serde : Serde) (Hjson : same_json json serde).
Context (backend : EtcdCoordination).

(** The instance is in the list the controller reads, the resource under its key. *)
Definition has_instance (x : AppInstance) (s : S) : Prop :=
  listed json backend (MkInstanceId (app_instance x)) (app_zone x) s.

Definition has_resource (x : AppResource) (s : S) : Prop :=
  ∃ record text, resource_record (resource_low_level x) = Ok (MkResourceId (ar_name x), record) ∧
    to_resource json record = Ok text ∧ metadata_text backend (resource_key (MkResourceId (ar_name x))) s = Some text.

Definition installed (spec : ClusterSpec) (s : S) : Prop :=
  metadata_text backend "controller/cluster" s = Some (cluster backend) ∧
  (∀ x, x ∈ cs_instances spec → has_instance x s) ∧ (∀ x, x ∈ cs_resources spec → has_resource x s).

(** The entries of a specification. *)
Definition spec_keys (spec : ClusterSpec) (k : string) : Prop :=
  k = metadata_key backend "controller/cluster" ∨ k = metadata_key backend INSTANCE_CONFIGS_KEY ∨
  ∃ x, x ∈ cs_resources spec ∧ k = metadata_key backend (resource_key (MkResourceId (ar_name x))).

Lemma text_kept key (touched : string → Prop) (s s' : S) v :
  ¬ touched (metadata_key backend key) → key ≠ AUTHORITATIVE_INPUT_MARKER → touches backend touched s s' →
  metadata_text backend key s = v → metadata_text backend key s' = v.
Proof.
  intros Hno Hm Hframe. unfold metadata_text. rewrite Hframe; [done|done|]. by apply metadata_keys_ne.
Qed.

Lemma configured_kept (touched : string → Prop) i zone (s s' : S) :
  ¬ touched (metadata_key backend INSTANCE_CONFIGS_KEY) → touches backend touched s s' →
  listed json backend i zone s → listed json backend i zone s'.
Proof.
  intros Hno Hframe. unfold listed, configured. rewrite Hframe; [done|done|]. by apply metadata_keys_ne.
Qed.

Lemma record_name spec resource record : resource_record spec = Ok (resource, record) → resource = MkResourceId (spec_name spec).
Proof.
  unfold resource_record. destruct (ResourceId_new (spec_name spec)) as [r|] eqn:Hr; [|done].
  apply ResourceId_new_ok in Hr as [_ ->]. cbn [or_invalid_key map_err]. destruct (_ || _); [done|].
  destruct (placement_record _ _); [|done]. by intros [= <- _].
Qed.

Lemma cluster_settles :
  settles backend (ensure_cluster backend (cluster backend))
    (λ s : S, metadata_text backend "controller/cluster" s = Some (cluster backend))
    (λ k, k = metadata_key backend "controller/cluster").
Proof.
  assert (∀ s : S, ensures alone (ensure_cluster backend (cluster backend)) s (λ tr s' r,
    store_outcome same_view backend "controller/cluster" (cluster backend) s tr r ∧ path same_view s tr s')) as Hout.
  { intros s. apply (ensures_path alone same_view), (ensure_cluster_outcome alone same_view). }
  split; intros s.
  - eapply holds_mono; [apply Hout|]. intros tr s' r [Ho Hp]. by apply (store_settles _ _ _ _ _ _ _ Ho Hp).
  - apply ensure_cluster_idle.
  - eapply holds_mono; [apply Hout|]. intros tr s' r [Ho Hp]. by apply (store_settles _ _ _ _ _ _ _ Ho Hp).
Qed.

Lemma instance_settles x :
  settles backend (put_instance json backend (instance_low_level x)) (has_instance x)
    (λ k, k = metadata_key backend INSTANCE_CONFIGS_KEY).
Proof.
  unfold put_instance. cbn [instance_low_level spec_instance spec_zone].
  destruct (InstanceId_new (app_instance x)) as [i|e] eqn:Hi; cbn [or_invalid_key map_err].
  2:{ split; intros; apply alone_ret; [done|done|by apply touches_same]. }
  apply InstanceId_new_ok in Hi as [_ ->].
  destruct (_ || _); [split; intros; apply alone_ret; [done|done|by apply touches_same]|].
  split; intros s; [|intros Hp|]; (eapply holds_mono; [apply put_alone_attempts|]); intros tr s' r Hput;
    destruct (put_alone_settles json serde Hjson backend _ _ _ _ _ _ Hput) as (Hd & Hi & _ & Ht); auto.
Qed.

Lemma instance_keeps x y :
  app_instance x ≠ app_instance y → keeps (S := S) (put_instance json backend (instance_low_level x)) (has_instance y).
Proof.
  intros Hne s Hs. unfold put_instance. cbn [instance_low_level spec_instance spec_zone].
  destruct (InstanceId_new (app_instance x)) as [i|e] eqn:Hi; cbn [or_invalid_key map_err]; [|by apply alone_ret].
  apply InstanceId_new_ok in Hi as [_ ->]. destruct (_ || _); [by apply alone_ret|].
  eapply holds_mono; [apply put_alone_attempts|]. intros tr s' r Hput.
  destruct (put_alone_settles json serde Hjson backend _ _ _ _ _ _ Hput) as (_ & _ & Hk & _). apply Hk; [|done].
  by intros [= ?].
Qed.

Lemma resource_settles x :
  settles backend (put_resource json backend (resource_low_level x)) (has_resource x)
    (λ k, k = metadata_key backend (resource_key (MkResourceId (ar_name x)))).
Proof.
  destruct (resource_record (resource_low_level x)) as [[id record]|e] eqn:Hrec.
  2:{ unfold put_resource. rewrite Hrec.
      split; intros; apply alone_ret; [done| |by apply touches_same].
      split; [done|]. done. }
  pose proof (record_name _ _ _ Hrec) as ->. cbn [resource_low_level spec_name] in Hrec.
  destruct (to_resource json record) as [text|e] eqn:Htext.
  2:{ unfold put_resource. rewrite Hrec. cbn [snd]. rewrite Htext.
      split; intros; apply alone_ret; [done|done|by apply touches_same]. }
  assert (∀ s : S, ensures alone (put_resource json backend (resource_low_level x)) s (λ tr s' r,
    store_outcome same_view backend (resource_key (MkResourceId (ar_name x))) text s tr r ∧ path same_view s tr s')) as Hout.
  { intros s. apply (ensures_path alone same_view). by eapply (put_resource_outcome alone same_view). }
  split; intros s.
  - eapply holds_mono; [apply Hout|]. intros tr s' r [Ho Hp] Hr. exists record, text. split_and!; [done..|].
    by apply (store_settles _ _ _ _ _ _ _ Ho Hp).
  - intros (record' & text' & Hrec' & Htext' & Hv). eapply put_resource_idle; [exact Hrec'|exact Htext'|exact Hv].
  - eapply holds_mono; [apply Hout|]. intros tr s' r [Ho Hp]. by apply (store_settles _ _ _ _ _ _ _ Ho Hp).
Qed.

Lemma settles_iff {E} (t : itree coordE (result unit E)) (P Q : S → Prop) touched :
  (∀ s, P s ↔ Q s) → settles backend t P touched → settles backend t Q touched.
Proof.
  intros HPQ [Hd Hi Ht]. split; [|intros s Hs; by apply Hi, HPQ|done].
  intros s. eapply holds_mono; [apply Hd|]. intros tr s' r Hr ?. by apply HPQ, Hr.
Qed.

Lemma has_instance_view x (s s' : S) : same_view s s' → has_instance x s → has_instance x s'.
Proof. intros Hs. apply (configured_kept (λ _, False)); [tauto|by apply touches_same]. Qed.

Lemma has_resource_kept x (touched : string → Prop) (s s' : S) :
  ¬ touched (metadata_key backend (resource_key (MkResourceId (ar_name x)))) → touches backend touched s s' →
  has_resource x s → has_resource x s'.
Proof.
  intros Hno Hframe (record & text & Hrec & Htext & Hv). exists record, text. split_and!; [done..|].
  by eapply text_kept.
Qed.

Lemma instances_keep l x :
  x ∉ app_instance <$> l → ∀ y, app_instance y = x → keeps (S := S) (apply_instances json backend l) (has_instance y).
Proof.
  intros Hx y Hy. induction l as [|z l IH]; cbn [apply_instances]; [intros s Hs; by apply alone_ret|].
  apply not_elem_of_cons in Hx as [Hz Hx]. apply keeps_seq; [|by apply IH]. apply keeps_app_call, instance_keeps. congruence.
Qed.

Lemma instances_settle l :
  NoDup (app_instance <$> l) →
  settles backend (apply_instances json backend l) (λ s : S, ∀ x, x ∈ l → has_instance x s)
    (λ k, k = metadata_key backend INSTANCE_CONFIGS_KEY).
Proof.
  induction l as [|x l IH]; cbn [apply_instances fmap list_fmap].
  { intros _. eapply settles_iff; [|apply settles_ret]. intros s. split; [|done]. by intros _ x ?%elem_of_nil. }
  intros [Hx Hnd]%NoDup_cons. eapply settles_iff; [|apply settles_seq].
  - intros s. symmetry. apply (forall_elem_cons (λ y, has_instance y s)).
  - intros s s' Hs Hall y Hy. by eapply has_instance_view; [|apply Hall].
  - apply settles_call, instance_settles.
  - by apply IH.
  - by eapply instances_keep.
Qed.

Lemma resources_settle l :
  NoDup (ar_name <$> l) →
  settles backend (apply_resources json backend l) (λ s : S, ∀ x, x ∈ l → has_resource x s)
    (λ k, ∃ x, x ∈ l ∧ k = metadata_key backend (resource_key (MkResourceId (ar_name x)))).
Proof.
  induction l as [|x l IH]; cbn [apply_resources fmap list_fmap].
  { intros _. eapply settles_iff; [|apply settles_ret]. intros s. split; [|done]. by intros _ x ?%elem_of_nil. }
  intros [Hx Hnd]%NoDup_cons. specialize (IH Hnd). eapply settles_iff; [|apply settles_seq].
  - intros s. symmetry. apply (forall_elem_cons (λ y, has_resource y s)).
  - intros s s' Hs Hall y Hy. eapply (has_resource_kept y (λ _, False)); [tauto|by apply touches_same|by apply Hall].
  - eapply settles_weaken; [apply settles_call, resource_settles|]. intros k ->. exists x. split; [left|done].
  - eapply settles_weaken; [exact IH|]. intros k (y & Hy & ->). exists y. split; [by right|done].
  - eapply settles_keeps; [exact IH|]. intros s s'. apply has_resource_kept. intros (y & Hy & Heq%metadata_key_inj).
    apply Hx. unfold resource_key in Heq. apply (inj _) in Heq. cbn [resource_str] in Heq. rewrite Heq.
    by apply list_elem_of_fmap_2.
Qed.

Lemma apply_settles spec :
  spec_validate spec = Ok tt → settles (S := S) backend (apply json backend spec) (installed spec) (spec_keys spec).
Proof.
  intros Hvalid. unfold apply. rewrite Hvalid. unfold spec_validate in Hvalid.
  destruct (try_fold check_instance ∅ (cs_instances spec)) as [seen|] eqn:Hi; [|done].
  destruct (try_fold check_resource ∅ (cs_resources spec)) as [seen'|] eqn:Hr; [|done].
  destruct (check_instances_ok _ _ _ Hi) as (_ & Hndi & _). destruct (check_resources_ok _ _ _ Hr) as (Hndr & _).
  pose proof (instances_settle _ Hndi) as Hsi. pose proof (resources_settle _ Hndr) as Hsr.
  assert (∀ x, resource_key x ≠ INSTANCE_CONFIGS_KEY ∧ resource_key x ≠ "controller/cluster") as Hkeys.
  { intros x. unfold resource_key. split; intros [=]. }
  assert (keeps (S := S) (apply_resources json backend (cs_resources spec)) (λ s, ∀ x, x ∈ cs_instances spec → has_instance x s))
    as Hkeep.
  { eapply settles_keeps; [exact Hsr|]. intros s s' Hframe Hall x Hx. eapply configured_kept; [|exact Hframe|by apply Hall].
    intros (y & _ & Heq%metadata_key_inj). by apply (proj1 (Hkeys (MkResourceId (ar_name y)))). }
  apply settles_seq.
  - intros s s' Hs [Hall Hall']. split; intros x Hx; [by eapply has_instance_view; [|apply Hall]|].
    eapply (has_resource_kept x (λ _, False)); [tauto|by apply touches_same|by apply Hall'].
  - eapply settles_weaken; [apply settles_call, cluster_settles|]. by left.
  - apply settles_seq; [| | |exact Hkeep].
    + intros s s' Hs Hall x Hx. eapply (has_resource_kept x (λ _, False)); [tauto|by apply touches_same|by apply Hall].
    + eapply settles_weaken; [exact Hsi|]. right. by left.
    + eapply settles_weaken; [exact Hsr|]. right. by right.
  - apply keeps_seq; (eapply settles_keeps; [eassumption|]); intros s s' Hframe; (eapply text_kept; [|done|exact Hframe]).
    + by intros Heq%metadata_key_inj.
    + intros (y & _ & Heq%metadata_key_inj). by apply (proj2 (Hkeys (MkResourceId (ar_name y)))).
Qed.

Lemma installed_configs spec (s : S) snapshot m x :
  installed spec s → x ∈ cs_instances spec → shows backend (keyspace s) snapshot →
  instance_configs serde snapshot = Ok m → m !! MkInstanceId (app_instance x) = Some (app_zone x).
Proof.
  intros (_ & Hall & _) Hx Hshow Hm. destruct (Hall x Hx) as (l & Hl & Hf).
  destruct (configured_configs json serde Hjson backend _ _ _ Hshow Hm) as (l' & Hl' & _ & ->).
  rewrite Hl in Hl'. injection Hl' as <-. by rewrite configs_lookup, Hf.
Qed.
End applied.

(** A record is made of a validated resource exactly when its lists name things. *)
Lemma record_named resource id record :
  resource_record (resource_low_level resource) = Ok (id, record) → lists_named resource.
Proof.
  unfold lists_named. destruct (ar_placement resource) as [|t|lists] eqn:Hp; [done|done|]. intros Hrec.
  destruct (record_semi_auto (resource_low_level resource) id record lists) as (_ & _ & _ & Hgood & _);
    [cbn; by rewrite Hp|done|].
  intros p l Hl. apply elem_of_entries in Hl. pose proof (proj1 (Forall_forall _ _) Hgood _ Hl) as (Hpn & _ & _ & Hn). done.
Qed.

(** ** Connecting *)

Section connecting.
Context {S : Type} `{EtcdLaws S} (env : S → S → Prop).

(** Nobody takes the name of a cluster away or changes it. *)
Definition keeps_name (backend : EtcdCoordination) (s s' : S) : Prop :=
  evolves s s' ∧
  ∀ name, metadata_text backend "controller/cluster" s = Some name →
          metadata_text backend "controller/cluster" s' = Some name.

Lemma keeps_name_rely backend : (∀ s s', env s s' → keeps_name backend s s') → Rely env (keeps_name backend).
Proof.
  intros Henv. split; [split|done| |by intros s s' []].
  - intros s. by split.
  - intros s1 s2 s3 [He1 Hn1] [He2 Hn2]. split; [by etrans|]. intros name ?. by apply Hn2, Hn1.
  - intros s s' Hs. split; [by apply same_view_evolves|]. destruct Hs as [Hk _]. unfold metadata_text. by rewrite Hk.
Qed.

(** What is known when the name was claimed, or was not. *)
Definition claimed (backend : EtcdCoordination) (s s' : S) (r : result unit CoordinationError) : Prop :=
  match r with
  | Ok _ => metadata_text backend "controller/cluster" s' = Some (cluster backend)
  | Err InvalidCluster =>
      ∃ s1, keeps_name backend s s1 ∧ metadata_text backend "controller/cluster" s1 ≠ Some (cluster backend)
  | Err InvalidValue | Err (Etcd _) => True
  | Err _ => False
  end.

Lemma ensure_cluster_claims backend s :
  (∀ s s', env s s' → keeps_name backend s s') →
  is_blank (cluster backend) || contains_nul (cluster backend) = false →
  ensures env (ensure_cluster backend (cluster backend)) s (λ _ s' r, claimed backend s s' r).
Proof.
  intros Henv Hname. pose proof (keeps_name_rely backend Henv) as Hrely. unfold ensure_cluster.
  rewrite String.eqb_refl. cbn [negb orb]. rewrite Hname.
  apply (ensures_put_absent env (keeps_name backend)); [|intros s1 Hs1|done|done].
  - intros s1 s2 _ [_ He%metadata_effect]. apply (ensures_ret env (keeps_name backend)). intros s3 [_ Hn]. cbn.
    apply Hn, He.
  - apply (ensures_get_metadata env (keeps_name backend)).
    + intros s2 Hs2 Hnone. apply (ensures_ret env (keeps_name backend)). intros s3 _. exists s2.
      split; [by etrans|]. unfold metadata_text. by rewrite Hnone.
    + intros s2 kv Hs2 Hkv. cbn. case_bool_decide as Hv; apply (ensures_ret env (keeps_name backend)).
      * intros s3 [_ Hn]. apply Hn. unfold metadata_text. by rewrite Hkv.
      * intros s3 _. exists s2. split; [by etrans|]. unfold metadata_text. by rewrite Hkv.
    + intros e s2 _ [->|[text ->]]; done.
Qed.

Lemma validate_ok config config' :
  ClusterConfig_validate config = Ok config' →
  config' = config ∧ is_blank (cc_cluster config) || contains_nul (cc_cluster config) = false ∧
  bool_decide (cc_endpoints config = []) || existsb is_blank (cc_endpoints config) = false ∧
  contains_nul (cc_namespace config) = false ∧ options_validate (cc_options config) = Ok tt.
Proof.
  unfold ClusterConfig_validate. destruct (is_blank (cc_cluster config) || _) eqn:Hc; [done|].
  destruct (bool_decide _ || _) eqn:He; [done|]. destruct (is_blank (cc_namespace config) || _) eqn:Hn; [done|].
  apply orb_false_elim in Hn as [_ Hn]. destruct (options_validate (cc_options config)) as [[]|] eqn:Ho; [|done].
  by intros [= <-].
Qed.

Lemma trim_slashes_nul p : contains_nul p = false → contains_nul (trim_end_slashes p) = false.
Proof.
  unfold contains_nul. induction p as [|c p IH]; [done|]. cbn. intros [Hc Hp]%orb_false_elim. specialize (IH Hp).
  destruct (_ && _); [done|]. cbn. by rewrite Hc.
Qed.

Lemma prefix_refused p e : contains_nul p = false → normalize_prefix p = Err e → e = InvalidPrefix ∧ trim_end_slashes p = EmptyString.
Proof.
  intros Hnul. unfold normalize_prefix. rewrite (trim_slashes_nul _ Hnul), orb_false_r.
  destruct (trim_end_slashes p); [by intros [= <-]|done].
Qed.

(** A valid configuration is refused only by etcd or for an empty prefix. *)
Lemma connect_outcome rely `{!Rely env rely} client_connect config s :
  ClusterConfig_validate config = Ok config →
  ensures env (connect_endpoints_with_options client_connect (cc_endpoints config) (cc_namespace config)
      (cc_cluster config) (cc_options config)) s (λ _ _ r,
    match r with
    | Ok c => normalize_prefix (cc_namespace config) = Ok (prefix c) ∧ cluster c = cc_cluster config
    | Err InvalidPrefix => trim_end_slashes (cc_namespace config) = EmptyString
    | Err (Etcd _) => True
    | Err _ => False
    end).
Proof.
  intros (_ & Hname & Hends & Hnul & Hopts)%validate_ok. unfold connect_endpoints_with_options.
  destruct (normalize_prefix (cc_namespace config)) as [p|e] eqn:Hp.
  2:{ destruct (prefix_refused _ _ Hnul Hp) as [-> Htrim]. by apply (ensures_ret env rely). }
  rewrite Hname, Hends. unfold to_connect_options. rewrite Hopts. cbn [map_err].
  destruct (client_connect _ _) as [[]|text]; cbn [map_err]; [|by apply (ensures_ret env rely)].
  apply ensures_assoc, (ensures_put_absent env rely); [| |done|done].
  - intros s1 s2 _ _. apply ensures_bind_ret, (ensures_ret env rely). by intros s3 _.
  - intros s1 _. apply ensures_bind_ret, (ensures_ret env rely). by intros s3 _.
Qed.
End connecting.

(** * Theorems *)

(** C18: what is applied is installed, applying it again changes nothing, and nothing
    else is touched.  When [apply] succeeds undisturbed, the cluster has its name,
    every instance of the specification has exactly one record, with its zone, so that
    the controller reads that zone, and every resource is stored in its accepted form
    under its own key.  From a store in which the specification is installed there is
    no write.  Success or not, only the entries of the specification and the input
    marker may differ. *)
Theorem apply_installs {S : Type} `{EtcdLaws S} json serde backend spec (s : S) :
  same_json json serde →
  ensures alone (apply json backend spec) s (λ tr s' r,
    (r = Ok tt → installed json backend spec s' ∧
       ∀ snapshot m x, shows backend (keyspace s') snapshot → instance_configs serde snapshot = Ok m →
         x ∈ cs_instances spec → m !! MkInstanceId (app_instance x) = Some (app_zone x)) ∧
    (installed json backend spec s → tr = []) ∧
    touches backend (spec_keys backend spec) s s').
Proof.
  intros Hjson. destruct (spec_validate spec) as [[]|e] eqn:Hvalid.
  - destruct (apply_settles json serde Hjson backend spec Hvalid) as [Hd Hi Ht]. intros tr s' r Hx. split_and!.
    + intros Hr. pose proof (Hd s tr s' r Hx Hr) as Hin. split; [done|]. intros. by eapply installed_configs.
    + intros Hin. by destruct (Hi s Hin tr s' r Hx).
    + by apply (Ht s tr s' r).
  - unfold apply. rewrite Hvalid. apply alone_ret. split_and!; [done..|]. by apply touches_same.
Qed.

(** What validation guarantees, and what it does not.  In a validated
    specification no instance and no resource is named twice, every instance has an
    acceptable name and zone, and a resource will be accepted when it is stored exactly
    when no partition and no instance in its preference lists has an empty name, which
    validation does not look at. *)
Theorem validation_exact spec :
  spec_validate spec = Ok tt →
  NoDup (app_instance <$> cs_instances spec) ∧ NoDup (ar_name <$> cs_resources spec) ∧
  (∀ x, x ∈ cs_instances spec → InstanceId_new (app_instance x) = Ok (MkInstanceId (app_instance x)) ∧
     is_blank (app_zone x) || contains_nul (app_zone x) = false) ∧
  ∀ x, x ∈ cs_resources spec →
    (∃ record, resource_record (resource_low_level x) = Ok (MkResourceId (ar_name x), record)) ↔ lists_named x.
Proof.
  unfold spec_validate. destruct (try_fold check_instance ∅ (cs_instances spec)) as [seen|] eqn:Hi; [|done].
  destruct (try_fold check_resource ∅ (cs_resources spec)) as [seen'|] eqn:Hr; [|done]. intros _.
  destruct (check_instances_ok _ _ _ Hi) as (Hok & Hndi & _). destruct (check_resources_ok _ _ _ Hr) as (Hndr & _).
  split_and!; [done|done|by apply Forall_forall|]. intros x Hx. split; [intros [record Hrec]; by eapply record_named|].
  intros Hnamed. assert (∃ before after, check_resource before x = Ok after) as (before & after & Hcheck).
  { clear -Hr Hx. revert Hr. generalize (∅ : gset ResourceId) as seen.
    induction (cs_resources spec) as [|y l IH]; intros seen; [by apply elem_of_nil in Hx|]. cbn [try_fold].
    destruct (check_resource seen y) as [seen1|] eqn:Hy; [|done]. intros Hrest.
    apply elem_of_cons in Hx as [->|Hx]; [by eexists _, _|]. by eapply IH. }
  by destruct (check_resource_ok _ _ _ Hcheck Hnamed).
Qed.

(** A client that connects has a valid configuration and the name of its cluster is
    the one in its namespace, and stays so as long as nobody changes it, so that all
    clients of a namespace agree.  A validated configuration can be refused only for a
    namespace of nothing but slashes, by etcd, or because the namespace carries another
    name. *)
Theorem connect_agrees {S : Type} `{EtcdLaws S} env client_connect config (s : S) :
  (∀ p, normalize_prefix (cc_namespace config) = Ok p →
     ∀ s s', env s s' → keeps_name (MkEtcdCoordination p (cc_cluster config)) s s') →
  ensures env (Cluster_connect client_connect config) s (λ _ s' r,
    match r with
    | Ok c => ClusterConfig_validate config = Ok config ∧ normalize_prefix (cc_namespace config) = Ok (prefix c) ∧
        cluster c = cc_cluster config ∧ metadata_text c "controller/cluster" s' = Some (cluster c)
    | Err (AppConfig e) => ClusterConfig_validate config = Err e
    | Err (AppCoordination e) => ClusterConfig_validate config = Ok config ∧
        match e with
        | InvalidPrefix => trim_end_slashes (cc_namespace config) = EmptyString
        | InvalidCluster => ∃ p s1, normalize_prefix (cc_namespace config) = Ok p ∧
            metadata_text (S := S) (MkEtcdCoordination p (cc_cluster config)) "controller/cluster" s1
              ≠ Some (cc_cluster config)
        | InvalidValue | Etcd _ => True
        | _ => False
        end
    | Err _ => False
    end).
Proof.
  intros Henv. unfold Cluster_connect. destruct (ClusterConfig_validate config) as [c|e] eqn:Hvalid.
  2:{ apply holds_ret. by intros s' _. }
  destruct (validate_ok _ _ Hvalid) as (-> & Hname & _). cbn [map_err].
  destruct (normalize_prefix (cc_namespace config)) as [p|e] eqn:Hp.
  - pose proof (keeps_name_rely env _ (Henv p eq_refl)) as Hrely.
    apply holds_bind, holds_bind. eapply holds_mono; [by eapply connect_outcome|]. rewrite Hp.
    intros tr s1 [c|e] Hc; apply holds_ret; intros s2 _; cbn [map_err].
    2:{ apply holds_ret. intros s3 _. by destruct e. }
    destruct Hc as [[= ->] Hcl]. destruct c as [p name]. cbn in Hcl. subst name. cbn [prefix].
    apply holds_bind, holds_bind. eapply holds_mono; [apply (ensure_cluster_claims env); [by apply Henv|exact Hname]|].
    intros tr' s3 [[]|e] Hclaim; apply holds_ret; intros s4 Hs4; cbn [map_err]; apply holds_ret; intros s5 Hs5; cbn in Hclaim |- *.
    + split_and!; [done..|]. apply (rtc_rely env (keeps_name (MkEtcdCoordination p (cc_cluster config)))) in Hs4 as [_ H4], Hs5 as [_ H5].
      by apply H5, H4.
    + split; [done|]. destruct e; try done. destruct Hclaim as (s6 & _ & Hne). by exists p, s6.
  - apply holds_bind, holds_bind. unfold connect_endpoints_with_options. rewrite Hp. apply holds_ret. intros s1 _.
    apply holds_ret. intros s2 _. apply holds_ret. intros s3 _. cbn [map_err]. split; [done|].
    destruct (validate_ok _ _ Hvalid) as (_ & _ & _ & Hnul & _). by destruct (prefix_refused _ _ Hnul Hp) as [-> ?].
Qed.

(** ** A small application *)

Definition ex_cluster_spec : ClusterSpec :=
  spec_add_resource
    (spec_add_instances ClusterSpec_new [instance_zone (AppInstance_new "node-a") "zone-a"])
    (with_placement (with_replicas (with_partitions (leader_standby_resource "documents") 1) 2)
       (AppSemiAuto {["p0" := ["node-a"; "node-b"]]})).

Lemma ex_apply_run : ∃ tr s', runs alone (apply ex_json ex_backend ex_cluster_spec) (MkMem ∅ 0 1) tr s' (Ok tt).
Proof. do 2 eexists. apply (run_mem_sound 40). vm_compute. reflexivity. Qed.

Lemma apply_installs_witness : ∃ s' : mem_store, installed ex_json ex_backend ex_cluster_spec s' ∧
  ensures alone (apply ex_json ex_backend ex_cluster_spec) s' (λ tr _ _, tr = []).
Proof.
  destruct ex_apply_run as (tr & s' & Hrun).
  destruct (apply_installs ex_json ex_admin_serde ex_backend ex_cluster_spec (MkMem ∅ 0 1) ex_same_json _ _ _ Hrun)
    as ([Hin _] & _); [reflexivity|].
  exists s'. split; [exact Hin|]. intros tr' s2 r Hrun'.
  destruct (apply_installs ex_json ex_admin_serde ex_backend ex_cluster_spec s' ex_same_json _ _ _ Hrun') as (_ & Hidle & _).
  exact (Hidle Hin).
Defined.

Lemma ex_connect_run : ∃ tr s', runs alone (Cluster_connect (λ _ _, Ok tt) (ClusterConfig_new "orders")) (MkMem ∅ 0 1) tr s'
  (Ok (MkEtcdCoordination "/clustodian/orders" "orders")).
Proof. do 2 eexists. apply (run_mem_sound 40). vm_compute. reflexivity. Qed.

Lemma connect_agrees_witness : ∃ s' : mem_store,
  metadata_text (MkEtcdCoordination "/clustodian/orders" "orders") "controller/cluster" s' = Some "orders".
Proof.
  destruct ex_connect_run as (tr & s' & Hrun). exists s'.
  destruct (connect_agrees alone (λ _ _, Ok tt) (ClusterConfig_new "orders") (MkMem ∅ 0 1)
    (λ _ _ s s' (Ha : alone s s'), match Ha with end) _ _ _ Hrun) as (_ & _ & _ & Hname). exact Hname.
Defined.

(** A resource that is validated and then refused, after the instances were written. *)
Definition ex_unnamed_spec : ClusterSpec :=
  spec_add_resource
    (spec_add_instances ClusterSpec_new [instance_zone (AppInstance_new "node-a") "zone-a"])
    (with_placement (with_replicas (with_partitions (leader_standby_resource "documents") 1) 1) (AppSemiAuto {["p0" := [""]]})).

Lemma validation_exact_witness :
  spec_validate ex_unnamed_spec = Ok tt ∧
  ¬ (∃ record, resource_record (resource_low_level (with_placement (with_replicas (with_partitions
       (leader_standby_resource "documents") 1) 1) (AppSemiAuto {["p0" := [""]]}))) = Ok (MkResourceId "documents", record)).
Proof.
  assert (spec_validate ex_unnamed_spec = Ok tt) as Hvalid by reflexivity. split; [exact Hvalid|].
  destruct (validation_exact ex_unnamed_spec Hvalid) as (_ & _ & _ & Hexact). intros Hrec.
  apply (Hexact _ (list_elem_of_here _ _)) in Hrec. specialize (Hrec "p0" [""] eq_refl) as [_ Hn].
  by apply Forall_cons_1 in Hn as [? _].
Defined.

Example ex_refused_late : ∃ tr s', runs alone (apply ex_json ex_backend ex_unnamed_spec) (MkMem ∅ 0 1) tr s'
  (Err (AppCoordination InvalidKey)) ∧ has_instance ex_json ex_backend (instance_zone (AppInstance_new "node-a") "zone-a") s'.
Proof.
  do 2 eexists. split; [apply (run_mem_sound 40); vm_compute; reflexivity|].
  eexists. split; vm_compute; reflexivity.
Qed.
