(* ===== verification/Chaos.v ===== *)
(** * Chaos traces

    Models the logical half of [tools/clustodian-chaos/src/lib.rs] and the budget of
    [main.rs]: the configurations, actions and faults of a trace, the seeded generator
    (splitmix64 at its 64-bit width), the fault budget and the replay statistics.

    A trace is executable when its faults point at actions of the trace in the order of
    the list: the executor walks both lists with one cursor each.  The generator only
    builds such traces, and gives every fault that must be hit the actions that trigger
    it. *)

From stdpp Require Import pretty.
From Stdlib Require Import SpecFloat.
From S2P Require Import Prelude.

(** ** Configurations, actions and faults *)

Record ParticipantConfig := MkParticipantConfig { pc_id : string; pc_zone : string }.

Inductive PlacementConfig :=
| ConfigCrush
| ConfigSemiAuto (preference_lists : gmap string (list string)).

Record ResourceConfig := MkResourceConfig {
  rc_name : string;
  rc_partitions : list string;
  rc_replicas : N;
  rc_placement : PlacementConfig
}.

Record ThrottleConfig := MkThrottleConfig { tc_scope : string; tc_rebalance_type : string; tc_max_in_flight : N }.

Record ClusterConfig := MkClusterConfig {
  cc_controllers : list string;
  cc_participants : list ParticipantConfig;
  cc_resources : list ResourceConfig;
  cc_throttles : list ThrottleConfig
}.

Inductive Action :=
| StartController (id : string)
| GracefulStopController (id : string)
| CrashController (id : string)
| RestartController (id : string)
| StartParticipant (id : string)
| GracefulStopParticipant (id : string)
| CrashParticipant (id : string)
| RestartParticipant (id : string)
| AddParticipant (participant : ParticipantConfig)
| RemoveParticipant (id : string)
| CreateResource (resource : ResourceConfig)
| ModifyPreferenceList (resource partition : string) (instances : list string)
| ChangeThrottle (throttle : ThrottleConfig)
| Wait (milliseconds : N)
| RequestQuiescence
| WaitForConvergence (deadline_milliseconds : N)
| AssertIdle (seconds : N).

Inductive NetworkTarget :=
| TargetController (id : string)
| TargetParticipant (id : string)
| ControllersAndParticipants.

Inductive Direction := Upstream | Downstream.

Inductive NetworkToxic :=
| Disconnect
| DirectionalDisconnect (direction : Direction)
| Latency (milliseconds jitter_milliseconds : N)
| ToxicTimeout (milliseconds : N)
| ConnectionReset
| Bandwidth (kilobytes_per_second : N)
| SlowClose (milliseconds : N).

Inductive CallbackBehavior :=
| SucceedImmediately
| SucceedSlowly (milliseconds : N)
| Block (token : string)
| CallbackError
| RepeatedError (attempts : N)
| CallbackPanic.

Inductive ClockPerturbation :=
| WallForward (milliseconds : Z)
| WallBackward (milliseconds : Z)
| MonotonicOffset (milliseconds : Z)
| Suspend (milliseconds : N)
| DelayedKeepalive (milliseconds : N).

Inductive FailpointBehavior :=
| Pause (milliseconds : N)
| ReturnError
| FailpointPanic
| HardAbort.

Inductive Fault :=
| Network (target : NetworkTarget) (toxic : NetworkToxic) (duration_milliseconds : N)
| EtcdMemberRestart (member : string)
| EtcdCompaction
| Callback (participant : string) (behavior : CallbackBehavior)
| Clock (participant : string) (perturbation : ClockPerturbation)
| Failpoint (point : string) (behavior : FailpointBehavior).

Record ScheduledFault := MkScheduledFault { action_index : nat; sf_fault : Fault }.

Record Trace := MkTrace {
  schema_version : N;
  seed : N;
  profile : string;
  initial_config : ClusterConfig;
  actions : list Action;
  faults : list ScheduledFault
}.

Definition ARTIFACT_SCHEMA_VERSION : N := 1.
Definition DEFAULT_REPLAY_ATTEMPTS : N := 10.

#[export] Instance ParticipantConfig_eq_dec : EqDecision ParticipantConfig.
Proof. solve_decision. Defined.
#[export] Instance PlacementConfig_eq_dec : EqDecision PlacementConfig.
Proof. solve_decision. Defined.
#[export] Instance ResourceConfig_eq_dec : EqDecision ResourceConfig.
Proof. solve_decision. Defined.
#[export] Instance ThrottleConfig_eq_dec : EqDecision ThrottleConfig.
Proof. solve_decision. Defined.
#[export] Instance ClusterConfig_eq_dec : EqDecision ClusterConfig.
Proof. solve_decision. Defined.
#[export] Instance Action_eq_dec : EqDecision Action.
Proof. solve_decision. Defined.
#[export] Instance NetworkTarget_eq_dec : EqDecision NetworkTarget.
Proof. solve_decision. Defined.
#[export] Instance Direction_eq_dec : EqDecision Direction.
Proof. solve_decision. Defined.
#[export] Instance NetworkToxic_eq_dec : EqDecision NetworkToxic.
Proof. solve_decision. Defined.
#[export] Instance CallbackBehavior_eq_dec : EqDecision CallbackBehavior.
Proof. solve_decision. Defined.
#[export] Instance ClockPerturbation_eq_dec : EqDecision ClockPerturbation.
Proof. solve_decision. Defined.
#[export] Instance FailpointBehavior_eq_dec : EqDecision FailpointBehavior.
Proof. solve_decision. Defined.
#[export] Instance Fault_eq_dec : EqDecision Fault.
Proof. solve_decision. Defined.
#[export] Instance ScheduledFault_eq_dec : EqDecision ScheduledFault.
Proof. solve_decision. Defined.
#[export] Instance Trace_eq_dec : EqDecision Trace.
Proof. solve_decision. Defined.

(** ** The fault budget *)

Record FaultBudget := MkFaultBudget {
  etcd_failures_remaining : N;
  controller_failures_remaining : N;
  participant_failures_remaining : N;
  network_partitions_remaining : N;
  clock_faults_remaining : N
}.

Inductive FaultAdmission :=
| FaultAdmitted
| FaultRejected (reason : string).

Definition admit_counter (counter : N) : FaultAdmission * N :=
  if (counter =? 0)%N then (FaultRejected "fault budget exhausted", counter)
  else (FaultAdmitted, (counter - 1)%N).

Definition admit_fault (self : FaultBudget) (fault : Fault) : FaultAdmission * FaultBudget :=
  let '(MkFaultBudget etcd controller participant network clock) := self in
  match fault with
  | EtcdMemberRestart _ | EtcdCompaction =>
      let '(answer, etcd) := admit_counter etcd in (answer, MkFaultBudget etcd controller participant network clock)
  | Network _ _ _ =>
      let '(answer, network) := admit_counter network in (answer, MkFaultBudget etcd controller participant network clock)
  | Callback _ _ | Failpoint _ _ => (FaultAdmitted, self)
  | Clock _ _ =>
      let '(answer, clock) := admit_counter clock in (answer, MkFaultBudget etcd controller participant network clock)
  end.

Definition admit_controller_failure (self : FaultBudget) : FaultAdmission * FaultBudget :=
  let '(MkFaultBudget etcd controller participant network clock) := self in
  let '(answer, controller) := admit_counter controller in (answer, MkFaultBudget etcd controller participant network clock).

Definition admit_participant_failure (self : FaultBudget) : FaultAdmission * FaultBudget :=
  let '(MkFaultBudget etcd controller participant network clock) := self in
  let '(answer, participant) := admit_counter participant in (answer, MkFaultBudget etcd controller participant network clock).

Definition is_admitted (answer : FaultAdmission) : bool :=
  match answer with FaultAdmitted => true | FaultRejected _ => false end.

Definition admit_action (budget : FaultBudget) (action : Action) : bool * FaultBudget :=
  match action with
  | GracefulStopController _ | CrashController _ =>
      let '(answer, budget) := admit_controller_failure budget in (is_admitted answer, budget)
  | GracefulStopParticipant _ | CrashParticipant _ =>
      let '(answer, budget) := admit_participant_failure budget in (is_admitted answer, budget)
  | _ => (true, budget)
  end.

Definition default_budget (profile : string) : FaultBudget :=
  if String.eqb profile "pr" then MkFaultBudget 0 3 3 2 2 else MkFaultBudget 3 8 8 8 2.

(** ** Replay statistics

    The rate is the double precision quotient, [SpecFloat] at 53/1024. *)

Inductive FailureClassification := Stable | Intermittent | NotYetReproduced.

Record ReplayStats := MkReplayStats {
  rs_attempts : N;
  rs_reproduced : N;
  reproduction_rate : spec_float;
  classification : FailureClassification
}.

(** [f64::from] of a 32-bit integer, which a double holds exactly. *)
Definition f64_from_u32 (n : N) : spec_float := binary_normalize 53 1024 (Z.of_N n) 0 false.

Definition ReplayStats_new (attempts reproduced : N) : ReplayStats :=
  MkReplayStats attempts reproduced
    (if (attempts =? 0)%N then S754_zero false else SFdiv 53 1024 (f64_from_u32 reproduced) (f64_from_u32 attempts))
    (if bool_decide (reproduced = attempts) && (0 <? attempts)%N then Stable
     else if (reproduced =? 0)%N then NotYetReproduced else Intermittent).

(** The rate the unit test expects of seven in ten: the double nearest to 0.7. *)
Lemma test_rate : reproduction_rate (ReplayStats_new 10 7) = S754_finite false 6305039478318694 (-53).
Proof. vm_compute. reflexivity. Qed.

(** ** The generator *)

Record SeededGenerator := MkSeededGenerator { gen_seed : N; gen_state : N }.

Definition SeededGenerator_new (seed : N) : SeededGenerator := MkSeededGenerator seed seed.

(** [wrapping_add] and [wrapping_mul] keep the low 64 bits. *)
Definition wrap64 (n : N) : N := (n mod 18446744073709551616)%N.

Definition next_u64 (self : SeededGenerator) : N * SeededGenerator :=
  let state := wrap64 (gen_state self + 11400714819323198485) in
  let value := wrap64 (N.lxor state (N.shiftr state 30) * 13787848793156543929) in
  let value := wrap64 (N.lxor value (N.shiftr value 27) * 10723151780598845931) in
  (N.lxor value (N.shiftr value 31), MkSeededGenerator (gen_seed self) state).

(** The array index is below three: the match has a case for each element. *)
Definition controller_id (self : SeededGenerator) : string * SeededGenerator :=
  let '(value, self) := next_u64 self in
  (match (value mod 3)%N with 0%N => "controller-a" | 1%N => "controller-b" | _ => "controller-c" end, self).

Definition node_name (n : N) : string := "node-" +:+ pretty n.

Definition participant_id (self : SeededGenerator) : string * SeededGenerator :=
  let '(value, self) := next_u64 self in (node_name (value mod 4 + 1), self).

Definition requires_fault_hit (fault : Fault) : bool :=
  match fault with Callback _ _ | Failpoint _ _ => true | _ => false end.

Definition matrix_fault (profile : string) (index : nat) (matrix_index : nat) : option Fault :=
  let nightly := negb (String.eqb profile "pr") in
  let callback behavior := Callback "node-1" behavior in
  match matrix_index with
  | 0 => Some (if nightly then EtcdCompaction else callback (SucceedSlowly 20))
  | 1 => Some (if nightly then callback CallbackError
               else callback (Block (profile +:+ "-" +:+ pretty (N.of_nat index))))
  | 2 => Some (if nightly then Network (TargetParticipant "node-1") (Latency 100 25) 300
               else callback (RepeatedError 3))
  | 3 => Some (if nightly then EtcdMemberRestart "etcd1" else callback CallbackPanic)
  | 4 => Some (Clock "node-1" (Suspend 300))
  | 5 => Some (Failpoint (if nightly then "controller_after_reconcile_before_publish"
                          else "participant_after_callback_success_before_current_state") (Pause 100))
  | 6 => Some (callback (Block (profile +:+ "-" +:+ pretty (N.of_nat index))))
  | 7 => Some (Network (TargetController "controller-a") Disconnect 300)
  | 8 => Some (callback CallbackPanic)
  | 9 => Some (callback (RepeatedError 3))
  | 10 => Some (Network (TargetParticipant "node-1") (ToxicTimeout 250) 300)
  | _ => None
  end.

Definition generated_fault (profile : string) (index : nat) : option Fault :=
  let matrix_size := if String.eqb profile "pr" then 6 else 11 in
  if index <? matrix_size then matrix_fault profile index index
  else if index mod 17 =? 0 then matrix_fault profile index (index mod matrix_size)
  else None.

Definition is_scale_profile (profile : string) : bool :=
  String.eqb profile "scale-100-10k" || String.eqb profile "scale-250-50k".

(** [None] is the panic of the assertion, or of the division by zero before it. *)
Definition scale_config (participant_count resource_count partition_count : N) : option ClusterConfig :=
  if (resource_count =? 0)%N then None
  else
    let partitions_per_resource := (partition_count / resource_count)%N in
    if (partitions_per_resource * resource_count =? partition_count)%N then
      Some (MkClusterConfig
        ((λ index : nat, "controller-" +:+ pretty (N.of_nat index)) <$> seq 0 3)
        ((λ index : nat, MkParticipantConfig (node_name (N.of_nat index))
            ("zone-" +:+ pretty (N.of_nat (index mod 10)))) <$> seq 0 (N.to_nat participant_count))
        ((λ resource : nat,
            let name := "resource-" +:+ pretty (N.of_nat resource) in
            MkResourceConfig name
              ((λ partition : nat, name +:+ "_" +:+ pretty (N.of_nat partition)) <$> seq 0 (N.to_nat partitions_per_resource))
              3 ConfigCrush) <$> seq 0 (N.to_nat resource_count))
        [])
    else None.

Definition labelled (prefix : string) (index : nat) : string := prefix +:+ pretty (N.of_nat index).

Definition default_config : ClusterConfig :=
  MkClusterConfig
    ["controller-a"; "controller-b"; "controller-c"]
    ((λ index : nat, MkParticipantConfig (labelled "node-" (index + 1)) (labelled "zone-" (index mod 3 + 1))) <$> seq 0 4)
    [ MkResourceConfig "service" (labelled "service_" <$> seq 0 4) 3 ConfigCrush;
      MkResourceConfig "cache" (labelled "cache_" <$> seq 0 2) 2
        (ConfigSemiAuto (btree_collect
          ((λ index : nat, (labelled "cache_" index, labelled "node-" <$> seq 1 2)) <$> seq 0 2))) ]
    [].

Definition config_for_profile (profile : string) : option ClusterConfig :=
  if String.eqb profile "scale-100-10k" then scale_config 100 100 10000
  else if String.eqb profile "scale-250-50k" then scale_config 250 250 50000
  else Some default_config.

(** The variables of the loop of [generate]. *)
Record Draft := MkDraft {
  draft_actions : list Action;
  draft_faults : list ScheduledFault;
  controller_failures : N;
  participant_failures : N;
  draft_generator : SeededGenerator
}.

Definition chosen_action (self : SeededGenerator) : Action * SeededGenerator :=
  let '(value, self) := next_u64 self in
  match (value mod 8)%N with
  | 0%N => (Wait 50, self)
  | 1%N => (RequestQuiescence, self)
  | 2%N => (WaitForConvergence 30000, self)
  | 3%N => let '(value, self) := next_u64 self in (ChangeThrottle (MkThrottleConfig "CLUSTER" "ANY" (value mod 3 + 1)), self)
  | 4%N => (AddParticipant (MkParticipantConfig "node-5" "zone-2"), self)
  | 5%N => (RemoveParticipant "node-5", self)
  | 6%N =>
      let '(value, self) := next_u64 self in
      let partition := "cache_" +:+ pretty (value mod 2)%N in
      let '(value, self) := next_u64 self in
      let offset := (value mod 4)%N in
      (ModifyPreferenceList "cache" partition
         ((λ index : N, node_name ((offset + index) mod 4 + 1)) <$> [0; 1]%N), self)
  | _ => let '(id, self) := participant_id self in (StartParticipant id, self)
  end.

Definition failure_limit (profile : string) : N := if String.eqb profile "pr" then 3 else 8.

(** The first half of a step: an action, or a failure with its recovery. *)
Definition draft_action (profile : string) (d : Draft) (index : nat) : Draft :=
  let '(MkDraft acts scheduled cf pf generator) := d in
  if (index mod 13 =? 0) && (cf <? failure_limit profile)%N then
    let '(id, generator) := controller_id generator in
    MkDraft (acts ++ [CrashController id; RestartController id]) scheduled (cf + 1) pf generator
  else if (index mod 7 =? 0) && (pf <? failure_limit profile)%N then
    let '(id, generator) := participant_id generator in
    MkDraft (acts ++ [CrashParticipant id; RestartParticipant id]) scheduled cf (pf + 1) generator
  else
    let '(action, generator) := chosen_action generator in
    MkDraft (acts ++ [action]) scheduled cf pf generator.

(** The preference list of [cache_0] without and with the removal of [node-1]. *)
Definition trigger_actions (fault : Fault) : list Action :=
  if requires_fault_hit fault then
    [ ModifyPreferenceList "cache" "cache_0" ["node-1"; "node-2"];
      ModifyPreferenceList "cache" "cache_0" ["node-2"; "node-3"] ]
  else [].

Definition callback_panics (fault : Fault) : bool :=
  match fault with Callback _ CallbackPanic => true | _ => false end.

(** The second half: the fault of the step, [actions.len() - 1] being the last action. *)
Definition draft_fault (profile : string) (d : Draft) (index : nat) : Draft :=
  match generated_fault profile index with
  | None => d
  | Some fault =>
      let '(MkDraft acts scheduled cf pf generator) := d in
      let acts := acts ++ trigger_actions fault in
      MkDraft (acts ++ (if callback_panics fault then [RestartParticipant "node-1"] else []))
        (scheduled ++ [MkScheduledFault (length acts - 1) fault]) cf pf generator
  end.

Definition draft_step (profile : string) (d : Draft) (index : nat) : Draft :=
  draft_fault profile (draft_action profile d index) index.

Definition startup_actions (config : ClusterConfig) : list Action :=
  (StartController <$> cc_controllers config)
  ++ ((λ participant, StartParticipant (pc_id participant)) <$> cc_participants config)
  ++ [Wait 500] ++ (CreateResource <$> cc_resources config).

Definition lifecycle_actions : list Action :=
  [ GracefulStopParticipant "node-4"; RestartParticipant "node-4"; GracefulStopController "controller-c";
    RestartController "controller-c"; WaitForConvergence 30000 ].

Definition generate (self : SeededGenerator) (profile : string) (steps : nat) : option (Trace * SeededGenerator) :=
  match config_for_profile profile with
  | None => None
  | Some initial_config =>
      let acts := startup_actions initial_config in
      let finish acts scheduled self :=
        Some (MkTrace ARTIFACT_SCHEMA_VERSION (gen_seed self) profile initial_config acts scheduled, self) in
      if is_scale_profile profile then finish (acts ++ [WaitForConvergence 300000; AssertIdle 30]) [] self
      else
        let d := foldl (draft_step profile) (MkDraft (acts ++ lifecycle_actions) [] 0 0 self) (seq 0 steps) in
        finish (draft_actions d) (draft_faults d) (draft_generator d)
  end.

(** ** Violations *)

Inductive InvariantClass := Safety | DerivedState | Convergence.

Record InvariantViolation := MkViolation {
  iv_class : InvariantClass;
  iv_name : string;
  iv_detail : string;
  iv_observer_revision : Z
}.

#[export] Instance InvariantClass_eq_dec : EqDecision InvariantClass.
Proof. solve_decision. Defined.

Inductive ChaosError :=
| ChaosIo (error : string)
| ChaosSerialization (error : string)
| InvalidArguments (message : string)
| ChaosInvariant (violation : InvariantViolation).

(** ** Effects

    What the tool does to the processes, the files and the store: a function of the
    world, which returns a value or an error and the new world. *)

Definition io (World A : Type) : Type := World → result A ChaosError * World.

Definition io_ret {World A} (a : A) : io World A := λ w, (Ok a, w).
Definition io_fail {World A} (e : ChaosError) : io World A := λ w, (Err e, w).
Definition io_bind {World A B} (m : io World A) (k : A → io World B) : io World B :=
  λ w, match m w with (Ok a, w) => k a w | (Err e, w) => (Err e, w) end.

Notation "'let^' x := m 'in' k" := (io_bind m (λ x, k))
  (at level 10, x name, m at level 200, k at level 200).

(** * Facts *)

(** ** Effects *)

Lemma io_bind_Ok {World A B} (m : io World A) (k : A → io World B) w b w' :
  io_bind m k w = (Ok b, w') → ∃ a w1, m w = (Ok a, w1) ∧ k a w1 = (Ok b, w').
Proof. unfold io_bind. destruct (m w) as [[a|e] w1]; [eauto|done]. Qed.

(** [m] returns from every world, with a value in [P]. *)
Definition completes {World A} (P : A → Prop) (m : io World A) : Prop := ∀ w, ∃ a w', m w = (Ok a, w') ∧ P a.
Definition succeeds {World A} : io World A → Prop := completes (λ _, True).

Lemma completes_ret {World A} (P : A → Prop) (a : A) : P a → completes (World := World) P (io_ret a).
Proof. intros Ha w. by exists a, w. Qed.

Lemma completes_bind {World A B} (P : A → Prop) (Q : B → Prop) (m : io World A) (k : A → io World B) :
  completes P m → (∀ a, P a → completes Q (k a)) → completes Q (io_bind m k).
Proof. intros Hm Hk w. unfold io_bind. destruct (Hm w) as (a & w1 & -> & Ha). by apply Hk. Qed.

(** An operation whose value is not looked at. *)
Lemma completes_then {World A B} (Q : B → Prop) (m : io World A) (k : A → io World B) :
  succeeds m → (∀ a, completes Q (k a)) → completes Q (io_bind m k).
Proof. intros Hm Hk. eapply completes_bind; [exact Hm|auto]. Qed.

Create HintDb succeeds.
#[export] Hint Resolve completes_ret completes_then : succeeds.

(** ** Executable traces *)

(** Every fault points at an action, and the faults are in the order of the actions. *)
Definition trace_wf (t : Trace) : Prop :=
  Forall (λ f, action_index f < length (actions t)) (faults t) ∧
  StronglySorted (λ f g, action_index f ≤ action_index g) (faults t).

(** What must follow an action that stops a process. *)
Definition recovery (a : Action) : option Action :=
  match a with
  | CrashController id | GracefulStopController id => Some (RestartController id)
  | CrashParticipant id | GracefulStopParticipant id => Some (RestartParticipant id)
  | _ => None
  end.

(** A stopped process is started again by the next action. *)
Definition recovered (acts : list Action) : Prop :=
  ∀ k a b, acts !! k = Some a → recovery a = Some b → acts !! S k = Some b.

(** A fault that must be hit comes with the removal of [node-1] from [cache_0], right
    after [node-1] was added. *)
Definition triggered (acts : list Action) (f : ScheduledFault) : Prop :=
  requires_fault_hit (sf_fault f) = true →
  ∃ k, action_index f = S k ∧
    acts !! k = Some (ModifyPreferenceList "cache" "cache_0" ["node-1"; "node-2"]) ∧
    acts !! S k = Some (ModifyPreferenceList "cache" "cache_0" ["node-2"; "node-3"]).

Definition is_controller_failure (a : Action) : bool :=
  match a with CrashController _ | GracefulStopController _ => true | _ => false end.

Definition is_participant_failure (a : Action) : bool :=
  match a with CrashParticipant _ | GracefulStopParticipant _ => true | _ => false end.

Definition failures (p : Action → bool) (acts : list Action) : N := N.of_nat (count_if p acts).

Lemma recovered_app l1 l2 : recovered l1 → recovered l2 → recovered (l1 ++ l2).
Proof.
  intros H1 H2 k a b Hk Hb. apply lookup_app_Some in Hk as [Hk|[Hle Hk]].
  - apply lookup_app_l_Some. eauto.
  - rewrite lookup_app_r by lia. replace (S k - length l1) with (S (k - length l1)) by lia. eauto.
Qed.

Lemma recovered_none l : Forall (λ a, recovery a = None) l → recovered l.
Proof. intros HF k a b Hk Hb. rewrite Forall_lookup in HF. apply HF in Hk. congruence. Qed.

Lemma recovered_pair a b : recovery a = Some b → recovery b = None → recovered [a; b].
Proof. intros Ha Hb [|[|k]] x y; intros [=]; subst; [intros; by simplify_eq/=|congruence]. Qed.

Lemma triggered_app l1 l2 f : triggered l1 f → triggered (l1 ++ l2) f.
Proof.
  intros Hf Hr. destruct (Hf Hr) as (k & Hk & H1 & H2).
  exists k. split; [done|]. split; by apply lookup_app_l_Some.
Qed.

Lemma failures_app p l1 l2 : failures p (l1 ++ l2) = (failures p l1 + failures p l2)%N.
Proof. unfold failures, count_if. rewrite List.filter_app, length_app. lia. Qed.

Lemma failures_none p l : Forall (λ a, p a = false) l → failures p l = 0%N.
Proof.
  intros HF. unfold failures, count_if. induction HF as [|a l Ha _ IH]; [done|].
  cbn [List.filter]. by rewrite Ha.
Qed.

Lemma StronglySorted_snoc {A} (R : A → A → Prop) l x :
  StronglySorted R l → Forall (λ y, R y x) l → StronglySorted R (l ++ [x]).
Proof.
  induction 1 as [|y l Hs IH Hy]; intros HF; [repeat constructor|].
  inversion HF; subst. constructor; [by apply IH|]. apply Forall_app_2; [done|by constructor].
Qed.

(** ** The generator *)

Lemma chosen_action_plain g : recovery (chosen_action g).1 = None ∧
  is_controller_failure (chosen_action g).1 = false ∧ is_participant_failure (chosen_action g).1 = false.
Proof.
  unfold chosen_action, participant_id. destruct (next_u64 g) as [v g'].
  destruct (v mod 8)%N as [|p]; [done|]. do 3 (try destruct p as [p|p|]); try done;
    by repeat (destruct (next_u64 _) as [??]).
Qed.

(** What the loop of [generate] keeps: [cf] and [pf] count the crashes it drew. *)
Record draft_ok (profile : string) (d : Draft) : Prop := {
  ok_indices : Forall (λ f, action_index f < length (draft_actions d)) (draft_faults d);
  ok_sorted : StronglySorted (λ f g, action_index f ≤ action_index g) (draft_faults d);
  ok_recovered : recovered (draft_actions d);
  ok_triggered : Forall (triggered (draft_actions d)) (draft_faults d);
  ok_controllers : failures is_controller_failure (draft_actions d) = (controller_failures d + 1)%N;
  ok_participants : failures is_participant_failure (draft_actions d) = (participant_failures d + 1)%N;
  ok_limits : (controller_failures d ≤ failure_limit profile ∧ participant_failures d ≤ failure_limit profile)%N
}.

(** Appending actions keeps the faults where they are. *)
Lemma draft_ok_extend profile acts scheduled cf pf g more cf' pf' g' :
  draft_ok profile (MkDraft acts scheduled cf pf g) →
  recovered more →
  (cf' = cf + failures is_controller_failure more)%N → (pf' = pf + failures is_participant_failure more)%N →
  (cf' ≤ failure_limit profile ∧ pf' ≤ failure_limit profile)%N →
  draft_ok profile (MkDraft (acts ++ more) scheduled cf' pf' g').
Proof.
  intros [Hi Hs Hr Ht Hc Hp _] Hmore -> -> Hl. split; cbn [draft_actions draft_faults controller_failures participant_failures] in *.
  - eapply Forall_impl; [exact Hi|]. intros f Hf. rewrite length_app. simpl in Hf. lia.
  - done.
  - by apply recovered_app.
  - eapply Forall_impl; [exact Ht|]. intros f. apply triggered_app.
  - rewrite failures_app. lia.
  - rewrite failures_app. lia.
  - done.
Qed.

Lemma draft_action_ok profile d index :
  draft_ok profile d → draft_ok profile (draft_action profile d index) ∧ draft_actions (draft_action profile d index) ≠ [].
Proof.
  destruct d as [acts scheduled cf pf g]. intros Hd. unfold draft_action.
  pose proof (ok_limits _ _ Hd) as Hl. cbn [controller_failures participant_failures] in Hl.
  case_match eqn:E1; [|case_match eqn:E2].
  - destruct (controller_id g) as [id g']. split; [|by destruct acts].
    apply andb_true_iff in E1 as [_ E1%N.ltb_lt].
    eapply draft_ok_extend; [exact Hd|by apply recovered_pair|done|symmetry; apply N.add_0_r|lia].
  - destruct (participant_id g) as [id g']. split; [|by destruct acts].
    apply andb_true_iff in E2 as [_ E2%N.ltb_lt].
    eapply draft_ok_extend; [exact Hd|by apply recovered_pair|symmetry; apply N.add_0_r|done|lia].
  - destruct (chosen_action g) as [a g'] eqn:Ea. split; [|by destruct acts].
    pose proof (chosen_action_plain g) as (Hr & Hc & Hp). rewrite Ea in Hr, Hc, Hp. cbn in Hr, Hc, Hp.
    eapply draft_ok_extend; [exact Hd|apply recovered_none; by repeat constructor|..];
      rewrite ?failures_none by (by repeat constructor); lia.
Qed.

Lemma trigger_actions_plain fault : Forall (λ a, recovery a = None) (trigger_actions fault) ∧
  failures is_controller_failure (trigger_actions fault) = 0%N ∧
  failures is_participant_failure (trigger_actions fault) = 0%N.
Proof. unfold trigger_actions. destruct (requires_fault_hit fault); by repeat constructor. Qed.

(** Scheduling a fault at the last action. *)
Lemma draft_ok_schedule profile acts scheduled cf pf g fault :
  draft_ok profile (MkDraft acts scheduled cf pf g) → acts ≠ [] →
  triggered acts (MkScheduledFault (length acts - 1) fault) →
  draft_ok profile (MkDraft acts (scheduled ++ [MkScheduledFault (length acts - 1) fault]) cf pf g).
Proof.
  intros [Hi Hs Hr Ht Hc Hp Hl] Hne Htr. cbn [draft_actions draft_faults] in *.
  assert (0 < length acts) as Hpos by (destruct acts; [done|simpl; lia]).
  split; cbn [draft_actions draft_faults controller_failures participant_failures]; [| |done| |done..].
  - apply Forall_app_2; [done|]. repeat constructor. simpl. lia.
  - apply StronglySorted_snoc; [done|]. eapply Forall_impl; [exact Hi|]. intros f Hf. simpl in *. lia.
  - apply Forall_app_2; [done|by repeat constructor].
Qed.

Lemma triggered_here acts fault :
  triggered (acts ++ trigger_actions fault) (MkScheduledFault (length (acts ++ trigger_actions fault) - 1) fault).
Proof.
  intros Hr. cbn [sf_fault] in Hr. unfold trigger_actions. rewrite Hr. exists (length acts).
  rewrite length_app. cbn [length action_index]. split; [lia|].
  rewrite !lookup_app_r by lia. rewrite Nat.sub_diag. by replace (S (length acts) - length acts) with 1 by lia.
Qed.

Lemma draft_fault_ok profile d index :
  draft_ok profile d → draft_actions d ≠ [] → draft_ok profile (draft_fault profile d index).
Proof.
  destruct d as [acts scheduled cf pf g]. cbn [draft_actions]. intros Hd Hne. unfold draft_fault.
  destruct (generated_fault profile index) as [fault|]; [|done].
  pose proof (ok_limits _ _ Hd) as Hl. cbn in Hl. destruct (trigger_actions_plain fault) as (Hr & Hc & Hp).
  eapply (draft_ok_extend _ _ _ cf pf g); [apply draft_ok_schedule| | | |done].
  - eapply draft_ok_extend; [exact Hd|by apply recovered_none|lia..].
  - destruct acts; [done|]. by destruct (trigger_actions fault).
  - apply triggered_here.
  - apply recovered_none. destruct (callback_panics fault); by repeat constructor.
  - rewrite failures_none; [lia|]. destruct (callback_panics fault); by repeat constructor.
  - rewrite failures_none; [lia|]. destruct (callback_panics fault); by repeat constructor.
Qed.

Lemma drafts_ok profile d l : draft_ok profile d → draft_ok profile (foldl (draft_step profile) d l).
Proof.
  revert d. induction l as [|i l IH]; intros d Hd; [done|].
  cbn [foldl]. apply IH. unfold draft_step. destruct (draft_action_ok profile d i Hd). by apply draft_fault_ok.
Qed.

Lemma startup_plain config : Forall (λ a, recovery a = None ∧ is_controller_failure a = false ∧
  is_participant_failure a = false) (startup_actions config).
Proof.
  unfold startup_actions. rewrite !Forall_app, !Forall_fmap. split_and!.
  - by apply Forall_true.
  - by apply Forall_true.
  - by repeat constructor.
  - by apply Forall_true.
Qed.

Lemma draft_ok_start profile config g :
  draft_ok profile (MkDraft (startup_actions config ++ lifecycle_actions) [] 0 0 g).
Proof.
  pose proof (startup_plain config) as HF.
  assert (recovered (startup_actions config)) as Hr.
  { apply recovered_none. eapply Forall_impl; [exact HF|]. by intros a (?&_). }
  split; cbn [draft_actions draft_faults controller_failures participant_failures]; [constructor..| |constructor| | |unfold failure_limit; case_match; lia].
  - apply recovered_app; [done|]. unfold lifecycle_actions.
    intros [|[|[|[|[|k]]]]] a b; intros [=]; subst; intros [=]; subst; done.
  - rewrite failures_app, (failures_none _ (startup_actions config)); [done|].
    eapply Forall_impl; [exact HF|]. by intros a (_&?&_).
  - rewrite failures_app, (failures_none _ (startup_actions config)); [done|].
    eapply Forall_impl; [exact HF|]. by intros a (_&_&?).
Qed.

Lemma config_for_profile_total profile : is_Some (config_for_profile profile).
Proof.
  unfold config_for_profile. case_match; [|case_match]; [|..|by eexists].
  - unfold scale_config. cbn -[N.to_nat seq pretty]. by eexists.
  - unfold scale_config. cbn -[N.to_nat seq pretty]. by eexists.
Qed.

(** Generation never panics, and whatever the seed, the profile and the number of
    steps, the trace it returns is executable: every fault points at an action and the
    faults are in the order of the actions; every stopped process is started again by
    the next action; every callback fault and failpoint sits on the removal of [node-1]
    from the preference list it was just put on; and at most one failure of each kind
    more than the limit of the profile is planned. *)
Theorem generate_executable self prof steps :
  ∃ t self', generate self prof steps = Some (t, self') ∧
    trace_wf t ∧ recovered (actions t) ∧ Forall (triggered (actions t)) (faults t) ∧
    (failures is_controller_failure (actions t) ≤ failure_limit prof + 1)%N ∧
    (failures is_participant_failure (actions t) ≤ failure_limit prof + 1)%N.
Proof.
  unfold generate. destruct (config_for_profile_total prof) as [config ->]. destruct (is_scale_profile prof).
  - eexists _, _. split; [reflexivity|]. cbn [actions faults]. pose proof (startup_plain config) as HF.
    rewrite !failures_app, (failures_none is_controller_failure (startup_actions config)),
      (failures_none is_participant_failure (startup_actions config))
      by (eapply Forall_impl; [exact HF|]; intros a (?&?&?); done).
    split_and!; [split; apply Forall_nil_2 || apply SSorted_nil| |by apply Forall_nil_2|apply N.le_0_l|apply N.le_0_l].
    apply recovered_none, Forall_app_2; [|by repeat constructor].
    eapply Forall_impl; [exact HF|]. by intros a (?&_).
  - set (d := foldl _ _ _). eexists _, _. split; [reflexivity|].
    assert (draft_ok prof d) as [Hi Hs Hr Ht Hc Hp Hl] by apply drafts_ok, draft_ok_start.
    cbn [actions faults]. split_and!; [split; done|done|done|rewrite Hc; lia|rewrite Hp; lia].
Qed.

(** *** The crashes of a trace

    Which steps draw a crash does not depend on the random numbers. *)

Definition count_step (prof : string) (c : N * N) (index : nat) : N * N :=
  if (index mod 13 =? 0) && (c.1 <? failure_limit prof)%N then (c.1 + 1, c.2)%N
  else if (index mod 7 =? 0) && (c.2 <? failure_limit prof)%N then (c.1, c.2 + 1)%N
  else c.

Definition draft_counts (d : Draft) : N * N := (controller_failures d, participant_failures d).

Lemma draft_step_counts prof d index : draft_counts (draft_step prof d index) = count_step prof (draft_counts d) index.
Proof.
  assert (∀ d', draft_counts (draft_fault prof d' index) = draft_counts d') as Hf.
  { intros [acts scheduled cf pf g]. unfold draft_fault. by destruct (generated_fault prof index). }
  unfold draft_step. rewrite Hf. destruct d as [acts scheduled cf pf g].
  unfold draft_action, count_step, draft_counts. cbn [controller_failures participant_failures fst snd].
  destruct (controller_id g), (participant_id g), (chosen_action g). repeat case_match; done.
Qed.

Lemma drafts_counts prof d l :
  draft_counts (foldl (draft_step prof) d l) = foldl (count_step prof) (draft_counts d) l.
Proof.
  revert d. induction l as [|i l IH]; intros d; [done|]. cbn [foldl]. rewrite <- draft_step_counts. apply IH.
Qed.
