(* ===== verification/Minimizer.v ===== *)
(** * Reductions of failing traces

    Models [tools/clustodian-chaos/src/minimizer.rs]: the reductions of a trace, which
    remove ranges of actions or faults, lower the scalars of a fault, or remove
    controllers, participants, resources, partitions and replicas.

    Every reduction keeps a trace executable and its faults on their actions. *)

From S2P Require Import Prelude Chaos.

(** ** Reductions *)

Definition with_actions (t : Trace) (acts : list Action) : Trace :=
  MkTrace (schema_version t) (seed t) (profile t) (initial_config t) acts (faults t).
Definition with_faults (t : Trace) (scheduled : list ScheduledFault) : Trace :=
  MkTrace (schema_version t) (seed t) (profile t) (initial_config t) (actions t) scheduled.
Definition with_config (t : Trace) (config : ClusterConfig) : Trace :=
  MkTrace (schema_version t) (seed t) (profile t) config (actions t) (faults t).

Definition checked_sub (a b : nat) : option nat := if b <=? a then Some (a - b) else None.

Definition shift_fault (start end_ : nat) (scheduled : ScheduledFault) : option ScheduledFault :=
  if (start <=? action_index scheduled) && (action_index scheduled <? end_) then None
  else
    (λ index, MkScheduledFault index (sf_fault scheduled))
      <$> checked_sub (action_index scheduled)
            ((end_ - start) * (if end_ <=? action_index scheduled then 1 else 0)).

Definition remove_action_range (t : Trace) (start end_ : nat) : option Trace :=
  if (end_ <=? start) || (length (actions t) <? end_) then None
  else Some (with_faults (with_actions t (take start (actions t) ++ drop end_ (actions t)))
               (omap (shift_fault start end_) (faults t))).

Definition remove_fault_range (t : Trace) (start end_ : nat) : option Trace :=
  if (end_ <=? start) || (length (faults t) <? end_) then None
  else Some (with_faults t (take start (faults t) ++ drop end_ (faults t))).

(** *** Scalars *)

Definition lower_values {T} `{EqDecision T} (value : T) (half : T → T) (one zero : T) : list T :=
  foldl (λ values reduced,
    if negb (bool_decide (reduced = value)) && negb (bool_decide (reduced ∈ values)) then values ++ [reduced] else values)
    [] [half value; one; zero].

Definition lower_u64 (value : N) : list N := lower_values value (λ value, value / 2)%N 1%N 0%N.
Definition lower_u32 (value : N) : list N := lower_values value (λ value, value / 2)%N 1%N 0%N.
Definition lower_i64 (value : Z) : list Z := lower_values value (λ value, Z.quot value 2) (Z.sgn value) 0%Z.

(** The indexed field is assigned: an index beyond the list is a panic, and
    [reduce_fault] gives none. *)
Definition replace_fault (t : Trace) (fault_index : nat) (fault : Fault) : Trace :=
  with_faults t (alter (λ scheduled, MkScheduledFault (action_index scheduled) fault) fault_index (faults t)).

Definition reduced_toxics (toxic : NetworkToxic) : list NetworkToxic :=
  match toxic with
  | Latency milliseconds jitter =>
      ((λ value, Latency value jitter) <$> lower_u64 milliseconds)
      ++ ((λ value, Latency milliseconds value) <$> lower_u64 jitter)
  | ToxicTimeout milliseconds => ToxicTimeout <$> lower_u64 milliseconds
  | SlowClose milliseconds => SlowClose <$> lower_u64 milliseconds
  | Disconnect | DirectionalDisconnect _ | ConnectionReset => []
  | Bandwidth kilobytes_per_second => Bandwidth <$> lower_u64 kilobytes_per_second
  end.

Definition reduced_behaviors (behavior : CallbackBehavior) : list CallbackBehavior :=
  match behavior with
  | SucceedSlowly milliseconds => SucceedSlowly <$> lower_u64 milliseconds
  | RepeatedError attempts => RepeatedError <$> lower_u32 attempts
  | SucceedImmediately | Block _ | CallbackError | CallbackPanic => []
  end.

Definition reduced_perturbations (perturbation : ClockPerturbation) : list ClockPerturbation :=
  match perturbation with
  | Suspend milliseconds => Suspend <$> lower_u64 milliseconds
  | DelayedKeepalive milliseconds => DelayedKeepalive <$> lower_u64 milliseconds
  | WallForward milliseconds => WallForward <$> lower_i64 milliseconds
  | WallBackward milliseconds => WallBackward <$> lower_i64 milliseconds
  | MonotonicOffset milliseconds => MonotonicOffset <$> lower_i64 milliseconds
  end.

Definition reduced_faults (fault : Fault) : list Fault :=
  match fault with
  | Network target toxic duration =>
      (Network target toxic <$> lower_u64 duration)
      ++ ((λ toxic, Network target toxic duration) <$> reduced_toxics toxic)
  | Callback participant behavior => Callback participant <$> reduced_behaviors behavior
  | Clock participant perturbation => Clock participant <$> reduced_perturbations perturbation
  | Failpoint point behavior =>
      match behavior with
      | Pause milliseconds => (λ value, Failpoint point (Pause value)) <$> lower_u64 milliseconds
      | _ => []
      end
  | EtcdMemberRestart _ | EtcdCompaction => []
  end.

Definition reduce_fault (t : Trace) (fault_index : nat) : list Trace :=
  match faults t !! fault_index with
  | None => []
  | Some scheduled => replace_fault t fault_index <$> reduced_faults (sf_fault scheduled)
  end.

(** *** Topology *)

Definition action_controller_id (action : Action) : option string :=
  match action with
  | StartController id | GracefulStopController id | CrashController id | RestartController id => Some id
  | _ => None
  end.

Definition action_resource_id (action : Action) : option string :=
  match action with
  | CreateResource resource => Some (rc_name resource)
  | ModifyPreferenceList resource _ _ => Some resource
  | _ => None
  end.

Definition fault_controller_id (fault : Fault) : option string :=
  match fault with Network (TargetController id) _ _ => Some id | _ => None end.

Definition fault_participant_id (fault : Fault) : option string :=
  match fault with
  | Network (TargetParticipant id) _ _ | Callback id _ | Clock id _ => Some id
  | _ => None
  end.

Definition is_id (o : option string) (id : string) : bool :=
  match o with Some other => String.eqb other id | None => false end.

(** [Vec::retain] *)
Definition retain {A} (p : A → bool) (l : list A) : list A := List.filter p l.

(** The loop of [transform_actions]: the positions of the kept actions, and the actions. *)
Definition transform_step (transform : Action → option Action) (st : list (option nat) * list Action)
    (entry : nat * Action) : list (option nat) * list Action :=
  match transform entry.2 with
  | Some action => (<[entry.1 := Some (length st.2)]> st.1, st.2 ++ [action])
  | None => st
  end.

Definition transform_actions (t : Trace) (transform : Action → option Action) : Trace :=
  let '(remap, acts) := foldl (transform_step transform) (replicate (length (actions t)) None, []) (imap pair (actions t)) in
  with_faults (with_actions t acts)
    (omap (λ scheduled, (λ index, MkScheduledFault index (sf_fault scheduled)) <$> mjoin (remap !! action_index scheduled))
       (faults t)).

Definition prune_placement (placement : PlacementConfig) (participant : string) : PlacementConfig :=
  match placement with
  | ConfigSemiAuto preference_lists =>
      ConfigSemiAuto (retain (λ instance, negb (String.eqb instance participant)) <$> preference_lists)
  | ConfigCrush => ConfigCrush
  end.

Definition prune_resource_participant (resource : ResourceConfig) (participant : string) : ResourceConfig :=
  MkResourceConfig (rc_name resource) (rc_partitions resource) (rc_replicas resource)
    (prune_placement (rc_placement resource) participant).

(** [(id != participant).then_some(action)] *)
Definition unless (removed : bool) (action : Action) : option Action := if removed then None else Some action.

Definition without_participant (participant : string) (action : Action) : option Action :=
  match action with
  | StartController _ | GracefulStopController _ | CrashController _ | RestartController _ | ChangeThrottle _
  | Wait _ | RequestQuiescence | WaitForConvergence _ | AssertIdle _ => Some action
  | StartParticipant id | GracefulStopParticipant id | CrashParticipant id | RestartParticipant id
  | RemoveParticipant id => unless (String.eqb id participant) action
  | AddParticipant added => unless (String.eqb (pc_id added) participant) action
  | CreateResource resource => Some (CreateResource (prune_resource_participant resource participant))
  | ModifyPreferenceList resource partition instances =>
      Some (ModifyPreferenceList resource partition (retain (λ instance, negb (String.eqb instance participant)) instances))
  end.

Definition remove_participant (t : Trace) (participant : string) : Trace :=
  let candidate := transform_actions t (without_participant participant) in
  let config := initial_config candidate in
  let candidate := with_config candidate
    (MkClusterConfig (cc_controllers config)
       (retain (λ configured, negb (String.eqb (pc_id configured) participant)) (cc_participants config))
       ((λ resource, prune_resource_participant resource participant) <$> cc_resources config)
       (cc_throttles config)) in
  with_faults candidate
    (retain (λ scheduled, negb (is_id (fault_participant_id (sf_fault scheduled)) participant)) (faults candidate)).

Definition drop_partition (resource : ResourceConfig) (partition : string) : ResourceConfig :=
  MkResourceConfig (rc_name resource)
    (retain (λ name, negb (String.eqb name partition)) (rc_partitions resource))
    (rc_replicas resource)
    (match rc_placement resource with
     | ConfigSemiAuto preference_lists => ConfigSemiAuto (delete partition preference_lists)
     | ConfigCrush => ConfigCrush
     end).

Definition without_partition (resource_name partition : string) (action : Action) : option Action :=
  match action with
  | CreateResource resource =>
      Some (if String.eqb (rc_name resource) resource_name then CreateResource (drop_partition resource partition) else action)
  | ModifyPreferenceList resource action_partition _ =>
      unless (String.eqb resource resource_name && String.eqb action_partition partition) action
  | _ => Some action
  end.

Definition map_resources (f : ResourceConfig → ResourceConfig) (config : ClusterConfig) : ClusterConfig :=
  MkClusterConfig (cc_controllers config) (cc_participants config) (f <$> cc_resources config) (cc_throttles config).

Definition remove_partition (t : Trace) (resource_name partition : string) : Trace :=
  let candidate := transform_actions t (without_partition resource_name partition) in
  with_config candidate
    (map_resources (λ resource,
       if String.eqb (rc_name resource) resource_name then drop_partition resource partition else resource)
       (initial_config candidate)).

Definition with_replicas (resource : ResourceConfig) (replicas : N) : ResourceConfig :=
  MkResourceConfig (rc_name resource) (rc_partitions resource) replicas (rc_placement resource).

Definition replicas_of (resource_name : string) (replicas : N) (resource : ResourceConfig) : ResourceConfig :=
  if String.eqb (rc_name resource) resource_name then with_replicas resource (N.max replicas 1) else resource.

Definition set_resource_replicas (t : Trace) (resource_name : string) (replicas : N) : Trace :=
  with_actions (with_config t (map_resources (replicas_of resource_name replicas) (initial_config t)))
    ((λ action, match action with
                | CreateResource resource => CreateResource (replicas_of resource_name replicas resource)
                | _ => action
                end) <$> actions t).

Definition remove_controller (t : Trace) (controller : string) : Trace :=
  let candidate := transform_actions t (λ action, unless (is_id (action_controller_id action) controller) action) in
  let config := initial_config candidate in
  let candidate := with_config candidate
    (MkClusterConfig (retain (λ configured, negb (String.eqb configured controller)) (cc_controllers config))
       (cc_participants config) (cc_resources config) (cc_throttles config)) in
  with_faults candidate
    (retain (λ scheduled, negb (is_id (fault_controller_id (sf_fault scheduled)) controller)) (faults candidate)).

Definition remove_resource_config (t : Trace) (name : string) : Trace :=
  let candidate := transform_actions t (λ action, unless (is_id (action_resource_id action) name) action) in
  let config := initial_config candidate in
  with_config candidate
    (MkClusterConfig (cc_controllers config) (cc_participants config)
       (retain (λ configured, negb (String.eqb (rc_name configured) name)) (cc_resources config)) (cc_throttles config)).

Definition resource_reductions (t : Trace) (resource : ResourceConfig) : list Trace :=
  (if 1 <? length (rc_partitions resource)
   then remove_partition t (rc_name resource) <$> rc_partitions resource else [])
  ++ (if (1 <? rc_replicas resource)%N
      then [set_resource_replicas t (rc_name resource) (rc_replicas resource / 2)] else []).

Definition reduce_cluster_and_resources (t : Trace) : list Trace :=
  let config := initial_config t in
  (if 1 <? length (cc_controllers config) then remove_controller t <$> cc_controllers config else [])
  ++ (if 1 <? length (cc_participants config)
      then (λ participant, remove_participant t (pc_id participant)) <$> cc_participants config else [])
  ++ (if 1 <? length (cc_resources config)
      then (λ resource, remove_resource_config t (rc_name resource)) <$> cc_resources config else [])
  ++ (cc_resources config ≫= resource_reductions t).

(** * Facts *)

(** ** Reductions *)

(** What one reduction can give. *)
Inductive reduction (t : Trace) : Trace → Prop :=
| reduces_actions start end_ c : remove_action_range t start end_ = Some c → reduction t c
| reduces_faults start end_ c : remove_fault_range t start end_ = Some c → reduction t c
| reduces_parameter fault_index c : c ∈ reduce_fault t fault_index → reduction t c
| reduces_topology c : c ∈ reduce_cluster_and_resources t → reduction t c.

(** An action up to what a reduction may change in it. *)
Definition action_shape (a : Action) : Action :=
  match a with
  | CreateResource resource => CreateResource (MkResourceConfig (rc_name resource) [] 0 ConfigCrush)
  | ModifyPreferenceList resource partition _ => ModifyPreferenceList resource partition []
  | _ => a
  end.

Definition toxic_shape (toxic : NetworkToxic) : NetworkToxic :=
  match toxic with
  | Latency _ _ => Latency 0 0
  | ToxicTimeout _ => ToxicTimeout 0
  | Bandwidth _ => Bandwidth 0
  | SlowClose _ => SlowClose 0
  | _ => toxic
  end.

Definition behavior_shape (behavior : CallbackBehavior) : CallbackBehavior :=
  match behavior with SucceedSlowly _ => SucceedSlowly 0 | RepeatedError _ => RepeatedError 0 | _ => behavior end.

Definition perturbation_shape (perturbation : ClockPerturbation) : ClockPerturbation :=
  match perturbation with
  | WallForward _ => WallForward 0
  | WallBackward _ => WallBackward 0
  | MonotonicOffset _ => MonotonicOffset 0
  | Suspend _ => Suspend 0
  | DelayedKeepalive _ => DelayedKeepalive 0
  end.

(** A fault up to its scalars. *)
Definition fault_shape (fault : Fault) : Fault :=
  match fault with
  | Network target toxic _ => Network target (toxic_shape toxic) 0
  | Callback participant behavior => Callback participant (behavior_shape behavior)
  | Clock participant perturbation => Clock participant (perturbation_shape perturbation)
  | Failpoint point (Pause _) => Failpoint point (Pause 0)
  | _ => fault
  end.

Definition scheduled_shape (s : ScheduledFault) : ScheduledFault :=
  MkScheduledFault (action_index s) (fault_shape (sf_fault s)).

(** The fault where its action has moved to. *)
Definition move_fault (g : nat → option nat) (s : ScheduledFault) : option ScheduledFault :=
  (λ index, MkScheduledFault index (sf_fault s)) <$> g (action_index s).

(** The actions of [c] are, in order, those of [t] that [g] keeps, and its faults are
    faults of [t] in order, each where its action has moved to. *)
Record embeds (g : nat → option nat) (t c : Trace) : Prop := {
  emb_action : ∀ k j, g k = Some j → ∃ a a',
    actions t !! k = Some a ∧ actions c !! j = Some a' ∧ action_shape a' = action_shape a;
  emb_all : ∀ j, j < length (actions c) → ∃ k, g k = Some j;
  emb_mono : ∀ k1 k2 j1 j2, k1 < k2 → g k1 = Some j1 → g k2 = Some j2 → j1 < j2;
  emb_faults : (scheduled_shape <$> faults c) `sublist_of` omap (move_fault g) (scheduled_shape <$> faults t)
}.

Lemma omap_sorted {A B} (f : A → option B) (R : A → A → Prop) (R' : B → B → Prop) l :
  (∀ x y x' y', R x y → f x = Some x' → f y = Some y' → R' x' y') →
  StronglySorted R l → StronglySorted R' (omap f l).
Proof.
  intros Hf. induction 1 as [|x l Hs IH Hx]; [constructor|]. cbn [omap list_omap].
  destruct (f x) as [x'|] eqn:E; [|done]. constructor; [done|].
  apply Forall_forall. intros y' (y & Hy & Ey)%list_elem_of_omap.
  rewrite Forall_forall in Hx. eauto.
Qed.

Lemma Forall_sublist_of {A} (P : A → Prop) l l' : l `sublist_of` l' → Forall P l' → Forall P l.
Proof. rewrite !Forall_forall. intros Hs Hl x Hx. eapply Hl, elem_of_sublist; eauto. Qed.

Lemma sublist_sorted {A} (R : A → A → Prop) l l' : l `sublist_of` l' → StronglySorted R l' → StronglySorted R l.
Proof.
  induction 1 as [|x l l' Hs IH|x l l' Hs IH]; intros Hl; [constructor|..]; inversion Hl; subst.
  - constructor; [by apply IH|]. eapply Forall_sublist_of; eauto.
  - by apply IH.
Qed.

Lemma wf_shape t : trace_wf t ↔
  Forall (λ s, action_index s < length (actions t)) (scheduled_shape <$> faults t) ∧
  StronglySorted (λ s s', action_index s ≤ action_index s') (scheduled_shape <$> faults t).
Proof.
  unfold trace_wf. rewrite Forall_fmap. apply and_iff_compat_l.
  induction (faults t) as [|s l IH]; [split; constructor|]. cbn [fmap list_fmap].
  split; inversion 1; subst; constructor; [by apply IH|by rewrite Forall_fmap|by apply IH|].
  match goal with H : Forall _ (_ <$> _) |- _ => by rewrite Forall_fmap in H end.
Qed.

(** An embedded trace is executable when the trace was. *)
Lemma embeds_wf g t c : embeds g t c → trace_wf t → trace_wf c.
Proof.
  intros [Ha Hall Hm Hf] [Hi Hs]%wf_shape. apply wf_shape. split.
  - eapply Forall_sublist_of; [exact Hf|]. apply Forall_forall. intros s' (s & Hin & Hs')%list_elem_of_omap.
    unfold move_fault in Hs'. destruct (g (action_index s)) as [j|] eqn:Eg; [|done]. simplify_eq/=.
    destruct (Ha _ _ Eg) as (a & a' & _ & Hj & _). by apply lookup_lt_Some in Hj.
  - eapply sublist_sorted; [exact Hf|]. eapply omap_sorted; [|exact Hs].
    intros x y x' y' Hle Hx Hy. unfold move_fault in *.
    destruct (g (action_index x)) as [j|] eqn:Ex; [|done]. destruct (g (action_index y)) as [j'|] eqn:Ey; [|done].
    simplify_eq/=. destruct (decide (action_index x = action_index y)) as [E|Hne].
    + rewrite E in Ex. naive_solver.
    + assert (j < j') by (eapply Hm; [|exact Ex|exact Ey]; lia). lia.
Qed.

(** Moving the faults of a trace moves their shapes. *)
Lemma moved_shapes g (l : list ScheduledFault) : scheduled_shape <$> omap (move_fault g) l = omap (move_fault g) (scheduled_shape <$> l).
Proof.
  induction l as [|s l IH]; [done|]. cbn [omap list_omap fmap list_fmap].
  destruct (move_fault g s) as [s'|] eqn:E; unfold move_fault in *; cbn [action_index scheduled_shape];
    destruct (g (action_index s)); simplify_eq/=; by rewrite <- IH.
Qed.

(** A reduction that keeps every action and drops faults. *)
Lemma embeds_same t c :
  action_shape <$> actions c = action_shape <$> actions t →
  (scheduled_shape <$> faults c) `sublist_of` (scheduled_shape <$> faults t) → trace_wf t →
  embeds (λ k, if k <? length (actions t) then Some k else None) t c.
Proof.
  intros Ea Hf [Hi _]. assert (length (actions c) = length (actions t)) as El.
  { apply (f_equal length) in Ea. by rewrite !length_fmap in Ea. }
  split.
  - intros k j. case_match eqn:E; [|done]. intros [= <-]. apply Nat.ltb_lt in E.
    destruct (lookup_lt_is_Some_2 _ _ E) as [a Hk]. rewrite <- El in E. destruct (lookup_lt_is_Some_2 _ _ E) as [a' Hk'].
    exists a, a'. split_and!; [done..|]. apply (f_equal (.!! k)) in Ea.
    rewrite !list_lookup_fmap, Hk, Hk' in Ea. by simplify_eq/=.
  - intros j Hj. rewrite El in Hj. exists j. by rewrite (proj2 (Nat.ltb_lt _ _) Hj).
  - intros k1 k2 j1 j2 Hlt. repeat case_match; naive_solver.
  - rewrite <- moved_shapes. replace (omap _ (faults t)) with (faults t); [done|].
    clear Hf. induction Hi as [|s l Hs _ IH]; [done|]. cbn [omap list_omap]. unfold move_fault at 1.
    rewrite (proj2 (Nat.ltb_lt _ _) Hs). cbn. destruct s. by f_equal.
Qed.

Lemma take_drop_sublist {A} (l : list A) start end_ : start ≤ end_ → (take start l ++ drop end_ l) `sublist_of` l.
Proof.
  intros Hle. rewrite <- (take_drop start l) at 3. apply sublist_app; [done|].
  replace end_ with (start + (end_ - start)) by lia. rewrite <- drop_drop. apply sublist_drop.
Qed.

Lemma remove_fault_range_embeds t start end_ c :
  trace_wf t → remove_fault_range t start end_ = Some c → ∃ g, embeds g t c.
Proof.
  unfold remove_fault_range. intros Hwf Hc. case_match eqn:E; [done|]. simplify_eq.
  eexists. apply embeds_same; [done| |done]. cbn [faults with_faults]. apply fmap_sublist.
  apply take_drop_sublist. apply orb_false_iff in E as [E1%Nat.leb_gt _]. lia.
Qed.

Lemma omap_ext_Forall {A B} (f g : A → option B) l : Forall (λ x, f x = g x) l → omap f l = omap g l.
Proof. induction 1 as [|x l Hx _ IH]; [done|]. cbn [omap list_omap]. by rewrite Hx, IH. Qed.

(** *** Action ranges *)

Definition shift_index (start end_ k : nat) : option nat :=
  if k <? start then Some k else if k <? end_ then None else Some (k - (end_ - start)).

Lemma shift_fault_move start end_ s :
  start < end_ → shift_fault start end_ s = move_fault (shift_index start end_) s.
Proof.
  intros Hlt. unfold shift_fault, move_fault, shift_index, checked_sub. destruct s as [k fault]. cbn [action_index sf_fault].
  destruct (Nat.ltb_spec k start) as [H1|H1], (Nat.ltb_spec k end_) as [H2|H2], (Nat.leb_spec start k), (Nat.leb_spec end_ k);
    cbn [andb]; try lia; [|done|].
  - rewrite Nat.mul_0_r, Nat.sub_0_r. by destruct k.
  - rewrite Nat.mul_1_r. case_match eqn:E; [done|]. apply Nat.leb_gt in E. lia.
Qed.

Lemma remove_action_range_embeds t start end_ c :
  trace_wf t → remove_action_range t start end_ = Some c → ∃ g, embeds g t c.
Proof.
  unfold remove_action_range. intros [Hi _] Hc. case_match eqn:E; [done|]. simplify_eq.
  apply orb_false_iff in E as [E1%Nat.leb_gt E2%Nat.ltb_ge].
  exists (λ k, if k <? length (actions t) then shift_index start end_ k else None). split; cbn [actions faults with_actions with_faults].
  - intros k j. case_match eqn:Ek; [|done]. apply Nat.ltb_lt in Ek. unfold shift_index.
    destruct (lookup_lt_is_Some_2 _ _ Ek) as [a Hk]. intros Hj. exists a, a. split_and!; [done| |done].
    destruct (Nat.ltb_spec k start); [|destruct (Nat.ltb_spec k end_)]; simplify_eq.
    + rewrite lookup_app_l by (rewrite length_take; lia). by rewrite lookup_take_lt.
    + rewrite lookup_app_r by (rewrite length_take; lia). rewrite length_take, lookup_drop.
      rewrite <- Hk. f_equal. lia.
  - intros j. rewrite length_app, length_take, length_drop. intros Hj.
    destruct (decide (j < start)).
    + exists j. unfold shift_index. by rewrite !(proj2 (Nat.ltb_lt _ _)) by lia.
    + exists (j + (end_ - start)). unfold shift_index. rewrite (proj2 (Nat.ltb_lt _ (length _))) by lia.
      rewrite !(proj2 (Nat.ltb_ge _ _)) by lia. f_equal. lia.
  - intros k1 k2 j1 j2 Hlt. unfold shift_index. repeat case_match; rewrite ?Nat.ltb_lt, ?Nat.ltb_ge in *; intros; simplify_eq; lia.
  - rewrite <- moved_shapes. erewrite omap_ext_Forall; [done|]. eapply Forall_impl; [exact Hi|].
    intros s Hs. cbn beta in Hs. rewrite shift_fault_move by done. unfold move_fault.
    by rewrite (proj2 (Nat.ltb_lt _ _) Hs).
Qed.

(** *** Transformed actions *)

Lemma transform_spec f l n :
  length l ≤ n → let r := foldl (transform_step f) (replicate n None, []) (imap pair l) in
  length r.1 = n ∧ r.2 = omap f l ∧
  ∀ k, mjoin (r.1 !! k) = (l !! k ≫= f) ≫= λ _, Some (length (omap f (take k l))).
Proof.
  induction l as [|x l IH] using rev_ind; cbn zeta in *; intros Hn.
  - cbn. split_and!; [apply length_replicate|done|]. intros k.
    destruct (replicate n None !! k) as [o|] eqn:E; [|done]. by apply lookup_replicate in E as [-> _].
  - rewrite length_app in Hn. cbn [length] in Hn. destruct (IH ltac:(lia)) as (H1 & H2 & H3). clear IH.
    rewrite imap_app, foldl_app. cbn [imap foldl]. rewrite Nat.add_0_r.
    set (r := foldl _ _ _) in *. unfold transform_step. cbn [fst snd]. rewrite omap_app. cbn [omap list_omap].
    assert (∀ k, k < length l → take k (l ++ [x]) = take k l) as Htake by (intros; apply take_app_le; lia).
    destruct (f x) as [y|] eqn:Ef; cbn [fst snd].
    + rewrite length_insert, H2. split_and!; [done..|]. intros k. destruct (decide (k = length l)) as [->|Hne].
      * rewrite list_lookup_insert_eq by lia. rewrite lookup_app_r by lia. rewrite Nat.sub_diag. cbn. rewrite Ef. cbn.
        by rewrite take_app_length.
      * rewrite list_lookup_insert_ne by done. rewrite H3. destruct (decide (k < length l)).
        -- rewrite lookup_app_l, Htake by done. done.
        -- rewrite !lookup_ge_None_2; [done|rewrite length_app; simpl; lia|lia].
    + rewrite app_nil_r. split_and!; [done..|]. intros k. rewrite H3. destruct (decide (k < length l)).
      * rewrite lookup_app_l, Htake by done. done.
      * rewrite (lookup_ge_None_2 l) by lia. destruct (decide (k = length l)) as [->|].
        -- rewrite lookup_app_r by lia. rewrite Nat.sub_diag. cbn. by rewrite Ef.
        -- rewrite lookup_ge_None_2; [done|rewrite length_app; simpl; lia].
Qed.

(** Where [transform_actions] moves an action to. *)
Definition kept_at (f : Action → option Action) (acts : list Action) (k : nat) : option nat :=
  (acts !! k ≫= f) ≫= λ _, Some (length (omap f (take k acts))).

Lemma kept_at_Some f acts k j :
  kept_at f acts k = Some j ↔ ∃ a b, acts !! k = Some a ∧ f a = Some b ∧ j = length (omap f (take k acts)).
Proof.
  unfold kept_at. destruct (acts !! k) as [a|]; cbn; [|naive_solver].
  destruct (f a) as [b|] eqn:E; cbn; naive_solver.
Qed.

Lemma kept_lookup (f : Action → option Action) (acts : list Action) k a b :
  acts !! k = Some a → f a = Some b → omap f acts !! length (omap f (take k acts)) = Some b.
Proof.
  intros Hk Hf. pose proof (f_equal (omap f) (take_drop_middle acts k a Hk)) as E.
  rewrite omap_app in E. cbn [omap list_omap] in E. rewrite Hf in E.
  by rewrite <- E, lookup_app_r, Nat.sub_diag by done.
Qed.

Lemma kept_all f (acts : list Action) j : j < length (omap f acts) → ∃ k, kept_at f acts k = Some j.
Proof.
  induction acts as [|x l IH] using rev_ind; [simpl; lia|]. rewrite omap_app, length_app. intros Hj.
  destruct (decide (j < length (omap f l))) as [Hlt|Hge].
  - destruct (IH Hlt) as [k (a & b & Ha & Hb & ->)%kept_at_Some]. exists k. apply kept_at_Some. exists a, b.
    split_and!; [by apply lookup_app_l_Some|done|]. rewrite take_app_le; [done|].
    apply lookup_lt_Some in Ha. lia.
  - exists (length l). apply kept_at_Some. cbn [omap list_omap] in Hj. destruct (f x) as [b|] eqn:E; cbn in Hj; [|lia].
    exists x, b. rewrite lookup_app_r by lia. rewrite Nat.sub_diag, take_app_length. split_and!; [done..|lia].
Qed.

Lemma kept_mono f acts k1 k2 j1 j2 : k1 < k2 → kept_at f acts k1 = Some j1 → kept_at f acts k2 = Some j2 → j1 < j2.
Proof.
  intros Hlt (a & b & Ha & Hb & ->)%kept_at_Some (_ & _ & _ & _ & ->)%kept_at_Some.
  assert (take k1 acts = take k1 (take k2 acts)) as -> by (rewrite take_take; f_equal; lia).
  assert (take k2 acts !! k1 = Some a) as Ha' by (by rewrite lookup_take_lt).
  eapply lookup_lt_Some, (kept_lookup f _ _ _ _ Ha' Hb).
Qed.

Lemma transform_embeds t f :
  (∀ a b, f a = Some b → action_shape b = action_shape a) →
  embeds (kept_at f (actions t)) t (transform_actions t f).
Proof.
  intros Hshape. unfold transform_actions.
  pose proof (transform_spec f (actions t) (length (actions t)) (le_n _)) as Hspec. cbn zeta in Hspec.
  destruct (foldl _ _ _) as [remap acts]. cbn [fst snd] in Hspec. destruct Hspec as (_ & -> & Hremap).
  split; cbn [actions faults with_actions with_faults].
  - intros k j (a & b & Ha & Hb & ->)%kept_at_Some. exists a, b. eauto using kept_lookup.
  - apply kept_all.
  - apply kept_mono.
  - rewrite <- moved_shapes. erewrite omap_ext_Forall; [done|]. apply Forall_true. intros s.
    unfold move_fault. by rewrite Hremap.
Qed.

Lemma embeds_retain g t c c' :
  embeds g t c → actions c' = actions c → faults c' `sublist_of` faults c → embeds g t c'.
Proof.
  intros [Ha Hall Hm Hf] Ea Hs. split; rewrite ?Ea; [done..|]. etrans; [by apply fmap_sublist|done].
Qed.

Lemma retain_sublist {A} (p : A → bool) l : retain p l `sublist_of` l.
Proof.
  unfold retain. induction l as [|x l IH]; [done|]. cbn [List.filter].
  destruct (p x); [by apply sublist_skip|by apply sublist_cons].
Qed.

(** *** The candidates *)

Lemma reduced_toxics_shape toxic toxic' : toxic' ∈ reduced_toxics toxic → toxic_shape toxic' = toxic_shape toxic.
Proof.
  destruct toxic; cbn [reduced_toxics]; rewrite ?elem_of_app, ?list_elem_of_fmap; set_solver.
Qed.

Lemma reduced_faults_shape fault fault' : fault' ∈ reduced_faults fault → fault_shape fault' = fault_shape fault.
Proof.
  destruct fault as [target toxic d| | |p b|p pt|p b]; cbn [reduced_faults]; [|set_solver..| | |].
  - rewrite elem_of_app, !list_elem_of_fmap. intros [(v & -> & _)|(toxic' & -> & Ht)]; [done|].
    cbn [fault_shape]. by rewrite (reduced_toxics_shape _ _ Ht).
  - rewrite list_elem_of_fmap. intros (b' & -> & Hb). destruct b; cbn [reduced_behaviors] in Hb; set_solver.
  - rewrite list_elem_of_fmap. intros (pt' & -> & Hb). destruct pt; cbn [reduced_perturbations] in Hb; set_solver.
  - destruct b; set_solver.
Qed.

Lemma replace_fault_shape t k s fault :
  faults t !! k = Some s → fault_shape fault = fault_shape (sf_fault s) →
  scheduled_shape <$> faults (replace_fault t k fault) = scheduled_shape <$> faults t.
Proof.
  intros Hk Hf. apply list_eq. intros j. cbn [replace_fault with_faults faults]. rewrite !list_lookup_fmap.
  destruct (decide (j = k)) as [->|Hne].
  - rewrite list_lookup_alter_eq, Hk. cbn. unfold scheduled_shape. cbn [action_index sf_fault]. by rewrite Hf.
  - by rewrite list_lookup_alter_ne by done.
Qed.

Lemma reduce_fault_embeds t k c : trace_wf t → c ∈ reduce_fault t k → ∃ g, embeds g t c.
Proof.
  unfold reduce_fault. intros Hwf. destruct (faults t !! k) as [s|] eqn:Hk; [|set_solver].
  intros (fault & -> & Hf)%list_elem_of_fmap. eexists. apply embeds_same; [done| |done].
  by rewrite (replace_fault_shape _ _ _ _ Hk (reduced_faults_shape _ _ Hf)).
Qed.

Lemma unless_shape removed a b : unless removed a = Some b → action_shape b = action_shape a.
Proof. destruct removed; by intros [=<-]. Qed.

Lemma without_participant_shape p a b : without_participant p a = Some b → action_shape b = action_shape a.
Proof. destruct a; cbn [without_participant]; try apply unless_shape; by intros [=<-]. Qed.

Lemma without_partition_shape r p a b : without_partition r p a = Some b → action_shape b = action_shape a.
Proof. destruct a; cbn [without_partition]; try apply unless_shape; intros [=<-]; try done. by case_match. Qed.

Lemma topology_embeds t c : trace_wf t → c ∈ reduce_cluster_and_resources t → ∃ g, embeds g t c.
Proof.
  intros Hwf. unfold reduce_cluster_and_resources. rewrite !elem_of_app.
  intros [Hc|[Hc|[Hc|(r & Hc & _)%list_elem_of_bind]]].
  - case_match; [|set_solver]. apply list_elem_of_fmap in Hc as (id & -> & _). eexists.
    eapply embeds_retain; [apply (transform_embeds t (λ a, unless (is_id (action_controller_id a) id) a))|done|apply retain_sublist].
    intros a b. apply unless_shape.
  - case_match; [|set_solver]. apply list_elem_of_fmap in Hc as (p & -> & _). eexists.
    eapply embeds_retain; [apply (transform_embeds t _ (without_participant_shape (pc_id p)))|done|apply retain_sublist].
  - case_match; [|set_solver]. apply list_elem_of_fmap in Hc as (r & -> & _). eexists.
    eapply embeds_retain; [apply (transform_embeds t (λ a, unless (is_id (action_resource_id a) (rc_name r)) a))|done|done].
    intros a b. apply unless_shape.
  - unfold resource_reductions in Hc. apply elem_of_app in Hc as [Hc|Hc]; case_match; try set_solver.
    + apply list_elem_of_fmap in Hc as (p & -> & _). eexists.
      by eapply embeds_retain; [apply (transform_embeds t _ (without_partition_shape (rc_name r) p))| |].
    + apply list_elem_of_singleton in Hc as ->. eexists. apply embeds_same; [|done|done].
      cbn [actions set_resource_replicas with_actions]. rewrite <- list_fmap_compose. apply list_fmap_ext. intros _ a _.
      destruct a; try done. cbn. unfold replicas_of. by case_match.
Qed.

Lemma reduction_embeds t c : trace_wf t → reduction t c → ∃ g, embeds g t c.
Proof.
  intros Hwf [start end_ c' Hc|start end_ c' Hc|k c' Hc|c' Hc];
    eauto using remove_action_range_embeds, remove_fault_range_embeds, reduce_fault_embeds, topology_embeds.
Qed.

(** Every candidate that a reduction gives from an executable trace is executable:
    its actions are actions of the trace in order, its faults are faults of the trace in
    order up to their scalars, and each fault sits on the action it was scheduled for,
    wherever that has moved to. *)
Theorem reductions_embed t c : trace_wf t → reduction t c → trace_wf c ∧ ∃ g, embeds g t c.
Proof.
  intros Hwf Hc. destruct (reduction_embeds t c Hwf Hc) as [g Hg]. split; [|by exists g]. by eapply embeds_wf.
Qed.

(** ** Examples *)

Definition ex_trace : Trace :=
  MkTrace 1 7 "nightly" default_config
    [StartController "controller-a"; StartParticipant "node-1"; CrashParticipant "node-2"; RestartParticipant "node-2"]
    [ MkScheduledFault 1 (Network (TargetController "controller-a") (Latency 100 25) 300);
      MkScheduledFault 3 (Failpoint "controller_after_reconcile_before_publish" (Pause 8)) ].

Lemma ex_trace_wf : trace_wf ex_trace.
Proof. split; repeat constructor. Qed.

(** Without [node-2] the failpoint loses its action; without the first action the fault
    of the second moves with it. *)
Example ex_remove_participant : faults (remove_participant ex_trace "node-2") =
  [MkScheduledFault 1 (Network (TargetController "controller-a") (Latency 100 25) 300)].
Proof. vm_compute. done. Qed.

Example ex_remove_first : faults <$> remove_action_range ex_trace 0 1 = Some
  [ MkScheduledFault 0 (Network (TargetController "controller-a") (Latency 100 25) 300);
    MkScheduledFault 2 (Failpoint "controller_after_reconcile_before_publish" (Pause 8)) ].
Proof. done. Qed.

Example ex_lower : (lower_u64 8, lower_u64 1, lower_u64 0, lower_i64 (-5)) = ([4; 1; 0], [0], [1], [-2; -1; 0]%Z)%N.
Proof. vm_compute. done. Qed.

Lemma reductions_embed_witness :
  reduction ex_trace (remove_participant ex_trace "node-2") ∧
  trace_wf (remove_participant ex_trace "node-2") ∧ ∃ g, embeds g ex_trace (remove_participant ex_trace "node-2").
Proof.
  assert (reduction ex_trace (remove_participant ex_trace "node-2")) as Hr.
  { apply reduces_topology. vm_compute. do 4 right. left. }
  split; [exact Hr|]. exact (reductions_embed _ _ ex_trace_wf Hr).
Defined.
