(* ===== verification/Minimize.v ===== *)
(** * Minimization of failing traces

    Models [CandidateTester] of [tools/clustodian-chaos/src/main.rs]: the phases that
    apply the reductions of [Minimizer] while the failure reproduces, and the rounds
    around them.  Running a trace against the real stack is the parameter
    [execute_trace]: it gets the trace, a key prefix and a working directory, and a
    world that it changes.

    The loops are fuelled.  With a tester that never accepts a candidate in which a
    parameter was raised, the minimizer ends within a bound that is computed from the
    trace, in a trace that no reduction of the last round improves; there are failures
    for which it never ends. *)

From stdpp Require Import pretty.
From S2P Require Import Prelude Chaos Minimizer.

(** ** The minimizer *)

(** The fixed part of [CandidateTester], with the stack that runs traces: a trace, a key
    prefix and a working directory, [base_work.join(..)]. *)
Record CandidateTester (World : Type) := MkCandidateTester {
  execute_trace : Trace → string → string → World → result unit ChaosError * World;
  process_id : N;
  join_work : string → string;
  expected : InvariantViolation;
  base_prefix : string;
  attempts : N
}.
Arguments execute_trace {World}. Arguments process_id {World}. Arguments join_work {World}.
Arguments expected {World}. Arguments base_prefix {World}. Arguments attempts {World}.

Section minimizer.
Context {World : Type} (ct : CandidateTester World).

(** The mutable part of [CandidateTester], with the world its runs change. *)
Record Tester := MkTester { next_id : N; world : World }.

Definition matches_expected (outcome : result unit ChaosError) : bool :=
  match outcome with
  | Err (ChaosInvariant actual) =>
      bool_decide (iv_class actual = iv_class (expected ct)) && String.eqb (iv_name actual) (iv_name (expected ct))
  | _ => false
  end.

Definition run_label (t : Trace) (candidate_id : N) (attempt : nat) : string :=
  "minimize-" +:+ pretty (process_id ct) +:+ "-" +:+ pretty (seed t) +:+ "-" +:+ pretty candidate_id +:+ "-"
  +:+ pretty (N.of_nat attempt + 1)%N.

Definition test_attempt (t : Trace) (candidate_id : N) (st : N * World) (attempt : nat) : N * World :=
  let label := run_label t candidate_id attempt in
  let '(outcome, w) := execute_trace ct t (base_prefix ct +:+ "-" +:+ label) (join_work ct label) st.2 in
  (if matches_expected outcome then (st.1 + 1)%N else st.1, w).

Definition test (t : Trace) (self : Tester) : ReplayStats * Tester :=
  let '(reproduced, w) := foldl (test_attempt t (next_id self)) (0%N, world self) (seq 0 (N.to_nat (attempts ct))) in
  (ReplayStats_new (attempts ct) reproduced, MkTester (next_id self + 1) w).

(** The line it prints when a candidate is accepted is left out. *)
Definition reproduces (t : Trace) (self : Tester) : bool * Tester :=
  let '(stats, self) := test t self in (negb (rs_reproduced stats =? 0)%N, self).

(** [for candidate in candidates { if self.reproduces(..) { accepted = Some(..); break } }] *)
Fixpoint first_accepted (candidates : list Trace) (self : Tester) : option Trace * Tester :=
  match candidates with
  | [] => (None, self)
  | candidate :: rest =>
      let '(accepted, self) := reproduces candidate self in
      if accepted : bool then (Some candidate, self) else first_accepted rest self
  end.

(** A loop whose turn goes on with a state or returns; [None] when the fuel is used up. *)
Fixpoint turns {St R} (turn : St → Tester → (St + R) * Tester) (fuel : nat) (st : St) (self : Tester)
  : option (R * Tester) :=
  match fuel with
  | O => None
  | S fuel =>
      match turn st self with
      | (inl st, self) => turns turn fuel st self
      | (inr r, self) => Some (r, self)
      end
  end.

Definition div_ceil (a b : nat) : nat := (a + (b - 1)) / b.

(** [(0..length).step_by(chunk_size)] *)
Definition step_by (length chunk_size : nat) : list nat :=
  (λ k, k * chunk_size) <$> seq 0 (div_ceil length chunk_size).

Definition chunk_candidates (remove : nat → nat → option Trace) (length granularity : nat) : list Trace :=
  let chunk_size := div_ceil length granularity in
  omap (λ start, remove start ((start + chunk_size) `min` length)) (step_by length chunk_size).

(** The turn of both range loops, which differ in what they remove. *)
Definition range_turn (items : Trace → nat) (remove : Trace → nat → nat → option Trace)
    (st : Trace * nat) (self : Tester) : (Trace * nat + Trace) * Tester :=
  let '(current, granularity) := st in
  let length := items current in
  if length <? 2 then (inr current, self)
  else
    let '(accepted, self) := first_accepted (chunk_candidates (remove current) length granularity) self in
    (match accepted with
     | Some candidate => inl (candidate, (granularity - 1) `max` 2)
     | None => if granularity <? length then inl (current, (granularity * 2) `min` length) else inr current
     end, self).

Definition minimize_action_ranges (fuel : nat) (current : Trace) : Tester → option (Trace * Tester) :=
  turns (range_turn (λ t, length (actions t)) remove_action_range) fuel (current, 2).

Definition minimize_fault_ranges (fuel : nat) (current : Trace) : Tester → option (Trace * Tester) :=
  turns (range_turn (λ t, length (faults t)) remove_fault_range) fuel (current, 2).

Definition parameter_candidates (t : Trace) : list Trace := seq 0 (length (faults t)) ≫= reduce_fault t.

Definition candidates_turn (candidates : Trace → list Trace) (current : Trace) (self : Tester) : (Trace + Trace) * Tester :=
  let '(accepted, self) := first_accepted (candidates current) self in
  (match accepted with Some candidate => inl candidate | None => inr current end, self).

Definition minimize_fault_parameters (fuel : nat) (current : Trace) : Tester → option (Trace * Tester) :=
  turns (candidates_turn parameter_candidates) fuel current.

Definition minimize_topology (fuel : nat) (current : Trace) : Tester → option (Trace * Tester) :=
  turns (candidates_turn reduce_cluster_and_resources) fuel current.

(** One round of [minimize]: its four phases. *)
Definition minimize_round (fuel : nat) (current : Trace) (self : Tester) : option (Trace * Tester) :=
  '(current, self) ← minimize_action_ranges fuel current self;
  '(current, self) ← minimize_fault_ranges fuel current self;
  '(current, self) ← minimize_fault_parameters fuel current self;
  minimize_topology fuel current self.

(** [fuel] bounds the turns of each phase, [rounds] the rounds. *)
Fixpoint minimize (fuel rounds : nat) (current : Trace) (self : Tester) : option (Trace * Tester) :=
  match rounds with
  | O => None
  | S rounds =>
      '(next, self) ← minimize_round fuel current self;
      if bool_decide (next = current) then Some (next, self) else minimize fuel rounds next self
  end.
End minimizer.

(** * Facts *)

(** ** Loops *)

Section loops.
Context {World St R : Type} (turn : St → Tester (World := World) → (St + R) * Tester (World := World)).

(** A loop ends when its turns lower a measure. *)
Lemma turns_total (inv : St → Prop) (m : St → nat) :
  (∀ st self st' self', inv st → turn st self = (inl st', self') → inv st' ∧ m st' < m st) →
  ∀ fuel st self, inv st → m st < fuel → is_Some (turns turn fuel st self).
Proof.
  intros Hturn. induction fuel as [|fuel IH]; intros st self Hi Hm; [lia|]. cbn [turns].
  destruct (turn st self) as [[st'|r] self'] eqn:E; [|by eexists].
  destruct (Hturn _ _ _ _ Hi E). apply IH; [done|lia].
Qed.

(** What the turns keep holds where the loop returns. *)
Lemma turns_ind (inv : St → Prop) (post : R → Prop) :
  (∀ st self st' self', inv st → turn st self = (inl st', self') → inv st') →
  (∀ st self r self', inv st → turn st self = (inr r, self') → post r) →
  ∀ fuel st self r self', inv st → turns turn fuel st self = Some (r, self') → post r.
Proof.
  intros Hl Hr. induction fuel as [|fuel IH]; intros st self r self' Hi; [done|]. cbn [turns].
  destruct (turn st self) as [[st1|r1] self1] eqn:E; [by eauto|]. intros [= <- <-]. eauto.
Qed.

(** A loop that never returns uses up any fuel. *)
Lemma turns_diverge (inv : St → Prop) :
  (∀ st self, inv st → ∃ st' self', turn st self = (inl st', self') ∧ inv st') →
  ∀ fuel st self, inv st → turns turn fuel st self = None.
Proof.
  intros Hturn. induction fuel as [|fuel IH]; intros st self Hi; [done|]. cbn [turns].
  destruct (Hturn st self Hi) as (st' & self' & -> & Hi'). by apply IH.
Qed.
End loops.

(** ** Measures *)

Definition toxic_weight (toxic : NetworkToxic) : nat :=
  match toxic with
  | Latency milliseconds jitter => N.to_nat milliseconds + N.to_nat jitter
  | ToxicTimeout value | Bandwidth value | SlowClose value => N.to_nat value
  | _ => 0
  end.

Definition behavior_weight (behavior : CallbackBehavior) : nat :=
  match behavior with SucceedSlowly value | RepeatedError value => N.to_nat value | _ => 0 end.

Definition perturbation_weight (perturbation : ClockPerturbation) : nat :=
  match perturbation with
  | WallForward value | WallBackward value | MonotonicOffset value => Z.abs_nat value
  | Suspend value | DelayedKeepalive value => N.to_nat value
  end.

(** The sum of the scalars of a fault. *)
Definition fault_weight (fault : Fault) : nat :=
  match fault with
  | Network _ toxic duration => N.to_nat duration + toxic_weight toxic
  | Callback _ behavior => behavior_weight behavior
  | Clock _ perturbation => perturbation_weight perturbation
  | Failpoint _ (Pause value) => N.to_nat value
  | _ => 0
  end.

Definition faults_weight (l : list ScheduledFault) : nat := sum_list_with fault_weight (sf_fault <$> l).

(** The replicas of a name: resources of the same name are changed together. *)
Definition replicas_named (rs : list ResourceConfig) (name : string) : nat :=
  max_list_with (N.to_nat ∘ rc_replicas) (retain (λ r, String.eqb (rc_name r) name) rs).

Definition resources_weight (rs : list ResourceConfig) : nat :=
  sum_list_with (λ r, 1 + length (rc_partitions r) + replicas_named rs (rc_name r)) rs.

Definition config_weight (config : ClusterConfig) : nat :=
  length (cc_controllers config) + length (cc_participants config) + resources_weight (cc_resources config).

Definition trace_size (t : Trace) : nat :=
  length (actions t) + length (faults t) + faults_weight (faults t) + config_weight (initial_config t).

Lemma sum_fmap_le {A} (f g : A → nat) l :
  (∀ x, x ∈ l → f x ≤ g x) → sum_list_with f l ≤ sum_list_with g l.
Proof.
  induction l as [|x l IH]; intros Hle; [done|]. cbn [sum_list_with].
  specialize (IH ltac:(set_solver)). pose proof (Hle x ltac:(set_solver)). lia.
Qed.

Lemma sum_fmap_lt {A} (f g : A → nat) l x :
  (∀ x, x ∈ l → f x ≤ g x) → x ∈ l → f x < g x → sum_list_with f l < sum_list_with g l.
Proof.
  induction l as [|y l IH]; intros Hle Hx Hlt; [set_solver|]. cbn [sum_list_with].
  pose proof (Hle y ltac:(set_solver)). pose proof (sum_fmap_le f g l ltac:(set_solver)).
  apply elem_of_cons in Hx as [->|Hx]; [lia|]. specialize (IH ltac:(set_solver) Hx Hlt). lia.
Qed.

Lemma sum_sublist {A} (f : A → nat) l l' : l `sublist_of` l' → sum_list_with f l ≤ sum_list_with f l'.
Proof. induction 1; cbn [sum_list_with]; lia. Qed.

(** Removing the elements that fail a test loses at least one that does. *)
Lemma sum_retain_lt {A} (f : A → nat) (p : A → bool) l x :
  x ∈ l → p x = false → 0 < f x → sum_list_with f (retain p l) < sum_list_with f l.
Proof.
  intros Hx Hp Hf. induction l as [|y l IH]; [set_solver|]. unfold retain in *. cbn [List.filter].
  pose proof (sum_sublist f _ _ (retain_sublist p l)). unfold retain in *.
  apply elem_of_cons in Hx as [<-|Hx].
  - rewrite Hp. cbn [sum_list_with]. lia.
  - specialize (IH Hx). destruct (p y); cbn [sum_list_with]; lia.
Qed.

Lemma length_retain_lt {A} (p : A → bool) (l : list A) x : x ∈ l → p x = false → length (retain p l) < length l.
Proof.
  assert (∀ k : list A, sum_list_with (λ _, 1) k = length k) as Hl by (intros k; induction k; simpl in *; lia).
  intros Hx Hp. pose proof (sum_retain_lt (λ _, 1) p l x Hx Hp (le_n 1)) as Hs.
  by rewrite !Hl in Hs.
Qed.

Lemma length_retain_le {A} (p : A → bool) (l : list A) : length (retain p l) ≤ length l.
Proof. apply sublist_length, retain_sublist. Qed.

(** *** Scalars *)

Lemma lower_values_spec {T} `{EqDecision T} (value : T) half one zero r :
  r ∈ lower_values value half one zero → r ≠ value ∧ (r = half value ∨ r = one ∨ r = zero).
Proof. unfold lower_values. cbn [foldl]. repeat case_match; reflect_bools; set_solver. Qed.

(** A lowered [u64] is smaller, except that 0 is raised to 1. *)
Lemma lower_u64_spec value r : r ∈ lower_u64 value → (r < value)%N ∨ (value = 0 ∧ r = 1)%N.
Proof.
  intros [Hne [->|[->| ->]]]%lower_values_spec; [left..| |left; lia].
  - assert (value ≠ 0)%N by (intros ->; by apply Hne). apply N.div_lt; lia.
  - destruct (decide (value = 0)%N) as [->|]; [by right|left; lia].
Qed.

Lemma lower_i64_spec value r : r ∈ lower_i64 value → Z.abs_nat r < Z.abs_nat value.
Proof.
  intros [Hne Hr]%lower_values_spec. assert (value ≠ 0)%Z as Hz by (intros ->; by destruct Hr as [->|[->| ->]]).
  destruct Hr as [->|[->| ->]]; [|lia..]. pose proof (Z.quot_rem value 2 ltac:(lia)).
  pose proof (Z.rem_bound_abs value 2 ltac:(lia)). pose proof (Z.rem_sign_nz value 2). lia.
Qed.

Lemma lower_values_zero {T} `{EqDecision T} (value : T) half one zero :
  zero ≠ value → zero ∈ lower_values value half one zero.
Proof.
  intros Hne. unfold lower_values. change [half value; one; zero] with ([half value; one] ++ [zero]).
  rewrite foldl_app.
  match goal with |- context [foldl ?f ?a [half value; one]] => generalize (foldl f a [half value; one]); intros values end.
  cbn [foldl].
  destruct (decide (zero ∈ values)) as [Hin|Hin].
  - rewrite (bool_decide_eq_true_2 _ Hin), andb_false_r. done.
  - rewrite (bool_decide_eq_false_2 _ Hin), (bool_decide_eq_false_2 _ Hne). set_solver.
Qed.

Lemma lower_u64_nonempty value : ∃ r, r ∈ lower_u64 value.
Proof.
  destruct (decide (value = 0)%N) as [->|Hne]; [exists 1%N; vm_compute; left|].
  exists 0%N. by apply lower_values_zero.
Qed.

(** *** Reductions lower the size *)

(** [c] has no more actions than [t], and some of its faults. *)
Definition thinner (c t : Trace) : Prop :=
  length (actions c) ≤ length (actions t) ∧ (sf_fault <$> faults c) `sublist_of` (sf_fault <$> faults t).

Lemma thinner_size c t : thinner c t →
  length (actions c) ≤ length (actions t) ∧ length (faults c) ≤ length (faults t) ∧
  faults_weight (faults c) ≤ faults_weight (faults t).
Proof.
  intros [Ha Hf]. split_and!; [done| |by apply sum_sublist].
  apply sublist_length in Hf. by rewrite !length_fmap in Hf.
Qed.

Lemma omap_faults_sublist (g : ScheduledFault → option nat) (l : list ScheduledFault) :
  (sf_fault <$> omap (λ s, (λ index, MkScheduledFault index (sf_fault s)) <$> g s) l) `sublist_of` (sf_fault <$> l).
Proof.
  induction l as [|s l IH]; [done|]. cbn [omap list_omap fmap list_fmap].
  destruct (g s); cbn [fmap option_fmap option_map list_fmap]; [by apply sublist_skip|by apply sublist_cons].
Qed.

Lemma length_omap_le {A B} (f : A → option B) (l : list A) : length (omap f l) ≤ length l.
Proof. induction l as [|x l IH]; [done|]. cbn [omap list_omap]. destruct (f x); simpl; lia. Qed.

Lemma transform_thinner t f : thinner (transform_actions t f) t.
Proof.
  unfold transform_actions.
  pose proof (transform_spec f (actions t) (length (actions t)) (le_n _)) as Hspec. cbn zeta in Hspec.
  destruct (foldl _ _ _) as [remap acts]. cbn [fst snd] in Hspec. destruct Hspec as (_ & -> & _).
  split; [apply length_omap_le|]. cbn [faults with_actions with_faults]. apply omap_faults_sublist.
Qed.

Lemma thinner_retain c t p : thinner c t → thinner (with_faults c (retain p (faults c))) t.
Proof. intros [Ha Hf]. split; [done|]. etrans; [|exact Hf]. apply fmap_sublist, retain_sublist. Qed.

Lemma remove_action_range_lt t start end_ c :
  remove_action_range t start end_ = Some c → length (actions c) < length (actions t) ∧ trace_size c < trace_size t.
Proof.
  unfold remove_action_range. intros Hc. case_match eqn:E; [done|]. simplify_eq.
  apply orb_false_iff in E as [E1%Nat.leb_gt E2%Nat.ltb_ge].
  set (c := with_faults _ _). assert (length (actions c) < length (actions t)) as Hlt.
  { cbn. rewrite length_app, length_take, length_drop. lia. }
  split; [done|]. assert (thinner c t) as (_ & Hf & Hw)%thinner_size.
  { split; [lia|]. cbn [c faults with_faults]. erewrite omap_ext_Forall.
    - apply (omap_faults_sublist (λ s, shift_index start end_ (action_index s))).
    - apply Forall_true. intros s. by apply shift_fault_move. }
  unfold trace_size. change (initial_config c) with (initial_config t). lia.
Qed.

Lemma remove_fault_range_lt t start end_ c :
  remove_fault_range t start end_ = Some c → length (faults c) < length (faults t) ∧ trace_size c < trace_size t.
Proof.
  intros Hc. assert (length (faults c) < length (faults t) ∧ thinner c t ∧ initial_config c = initial_config t
    ∧ actions c = actions t) as (Hlt & (_ & _ & Hw)%thinner_size & Ec & Ea).
  { unfold remove_fault_range in Hc. case_match eqn:E; [done|]. simplify_eq. cbn [with_faults faults actions initial_config].
    apply orb_false_iff in E as [E1%Nat.leb_gt E2%Nat.ltb_ge]. split_and!; [|split; [done|]|done|done].
    - rewrite length_app, length_take, length_drop. lia.
    - cbn [with_faults faults]. apply fmap_sublist, take_drop_sublist. lia. }
  split; [done|]. unfold trace_size. rewrite Ec, Ea. lia.
Qed.

Lemma reduced_toxic_weight toxic toxic' : toxic' ∈ reduced_toxics toxic → toxic_weight toxic' ≠ toxic_weight toxic.
Proof.
  destruct toxic; cbn [reduced_toxics]; rewrite ?elem_of_app; try (by intros ?%elem_of_nil);
    [intros [Hv|Hv]|intros Hv..]; apply list_elem_of_fmap in Hv as (v & -> & Hv%lower_u64_spec); cbn; lia.
Qed.

Lemma reduced_weight fault fault' : fault' ∈ reduced_faults fault → fault_weight fault' ≠ fault_weight fault.
Proof.
  destruct fault as [target toxic d| | |p b|p pt|p b]; cbn [reduced_faults]; [|set_solver..| | |].
  - rewrite elem_of_app, !list_elem_of_fmap. intros [(v & -> & Hv%lower_u64_spec)|(toxic' & -> & Ht)]; cbn [fault_weight]; [lia|].
    pose proof (reduced_toxic_weight _ _ Ht). lia.
  - rewrite list_elem_of_fmap. intros (b' & -> & Hb).
    destruct b; cbn [reduced_behaviors] in Hb; try (by apply elem_of_nil in Hb); apply list_elem_of_fmap in Hb as (v & -> & Hv%lower_u64_spec); cbn; lia.
  - rewrite list_elem_of_fmap. intros (b' & -> & Hb).
    destruct pt; cbn [reduced_perturbations] in Hb; apply list_elem_of_fmap in Hb as (v & -> & Hv);
      first [apply lower_i64_spec in Hv|apply lower_u64_spec in Hv]; cbn; lia.
  - destruct b; try (by intros ?%elem_of_nil). intros (v & -> & Hv%lower_u64_spec)%list_elem_of_fmap. cbn. lia.
Qed.

Lemma sum_fmap {A B} (f : B → nat) (g : A → B) l : sum_list_with f (g <$> l) = sum_list_with (λ x, f (g x)) l.
Proof. induction l as [|x l IH]; [done|]. cbn. by rewrite IH. Qed.

Lemma sum_alter {A} (f : A → nat) (g : A → A) l k x :
  l !! k = Some x → sum_list_with f (alter g k l) + f x = sum_list_with f l + f (g x).
Proof.
  revert k. induction l as [|y l IH]; intros [|k] Hk; simplify_eq/=; [lia|]. specialize (IH k Hk).
  change (alter g (S k) (y :: l)) with (y :: alter g k l). cbn [sum_list_with]. lia.
Qed.

Lemma reduce_fault_size t k c : c ∈ reduce_fault t k → trace_size c ≠ trace_size t.
Proof.
  unfold reduce_fault. destruct (faults t !! k) as [s|] eqn:Hk; [|by intros ?%elem_of_nil].
  intros (fault & -> & Hf%reduced_weight)%list_elem_of_fmap.
  unfold trace_size. cbn [replace_fault with_faults faults actions initial_config]. rewrite length_alter.
  enough (faults_weight (alter (λ s, MkScheduledFault (action_index s) fault) k (faults t)) + fault_weight (sf_fault s)
    = faults_weight (faults t) + fault_weight fault) by lia.
  unfold faults_weight. rewrite !sum_fmap.
  by rewrite (sum_alter (λ s, fault_weight (sf_fault s)) _ _ _ _ Hk).
Qed.

(** *** Topology *)

Lemma max_list_with_le {A} (f : A → nat) l n : (∀ x, x ∈ l → f x ≤ n) → max_list_with f l ≤ n.
Proof.
  induction l as [|x l IH]; intros Hl; [simpl; lia|]. cbn [max_list_with].
  specialize (IH ltac:(set_solver)). pose proof (Hl x ltac:(set_solver)). lia.
Qed.

Lemma max_list_with_ge {A} (f : A → nat) l x : x ∈ l → f x ≤ max_list_with f l.
Proof. induction l as [|y l IH]; [set_solver|]. cbn [max_list_with]. intros [->|Hx]%elem_of_cons; [lia|]. specialize (IH Hx). lia. Qed.

Lemma elem_of_retain {A} (p : A → bool) l x : x ∈ retain p l ↔ x ∈ l ∧ p x = true.
Proof. unfold retain. by rewrite !list_elem_of_In, filter_In. Qed.

Lemma retain_fmap {A B} (p : B → bool) (f : A → B) l : retain p (f <$> l) = f <$> retain (p ∘ f) l.
Proof. unfold retain. induction l as [|x l IH]; [done|]. cbn. destruct (p (f x)); cbn; by rewrite IH. Qed.

Lemma retain_ext {A} (p q : A → bool) (l : list A) : (∀ x, p x = q x) → retain p l = retain q l.
Proof. intros Hpq. unfold retain. apply List.filter_ext, Hpq. Qed.

(** A change of resources that keeps their names, removes partitions and does not raise
    the replicas of a name. *)
Lemma resources_weight_fmap (h : ResourceConfig → ResourceConfig) rs :
  (∀ r, rc_name (h r) = rc_name r) → (∀ r, length (rc_partitions (h r)) ≤ length (rc_partitions r)) →
  (∀ r, r ∈ rs → replicas_named (h <$> rs) (rc_name r) ≤ replicas_named rs (rc_name r)) →
  resources_weight (h <$> rs) ≤ resources_weight rs ∧
  ((∃ r, r ∈ rs ∧ (length (rc_partitions (h r)) < length (rc_partitions r) ∨
      replicas_named (h <$> rs) (rc_name r) < replicas_named rs (rc_name r))) →
   resources_weight (h <$> rs) < resources_weight rs).
Proof.
  intros Hn Hp Hr. unfold resources_weight. rewrite sum_fmap. split.
  - apply sum_fmap_le. intros r Hin. cbn. rewrite Hn. pose proof (Hp r). pose proof (Hr r Hin). lia.
  - intros (r & Hin & Hlt). apply (sum_fmap_lt _ _ _ r); [|done|].
    + intros r' Hin'. cbn. rewrite Hn. pose proof (Hp r'). pose proof (Hr r' Hin'). lia.
    + cbn. rewrite Hn. pose proof (Hp r). pose proof (Hr r Hin). lia.
Qed.

(** Replicas that are kept. *)
Lemma replicas_named_fmap h rs name :
  (∀ r, rc_name (h r) = rc_name r) → (∀ r, rc_replicas (h r) = rc_replicas r) →
  replicas_named (h <$> rs) name = replicas_named rs name.
Proof.
  intros Hn Hr. unfold replicas_named. rewrite retain_fmap.
  rewrite (retain_ext _ (λ r, String.eqb (rc_name r) name)) by (intros r; cbn; by rewrite Hn).
  induction (retain _ rs) as [|r l IH]; [done|]. cbn. by rewrite Hr, IH.
Qed.

Lemma replicas_named_retain rs name name' :
  name ≠ name' → replicas_named (retain (λ r, negb (String.eqb (rc_name r) name')) rs) name = replicas_named rs name.
Proof.
  intros Hne. unfold replicas_named, retain. f_equal. induction rs as [|r rs IH]; [done|]. cbn [List.filter].
  destruct (String.eqb_spec (rc_name r) name') as [E|]; cbn [negb List.filter]; [|by rewrite IH].
  rewrite IH. destruct (String.eqb_spec (rc_name r) name); [congruence|done].
Qed.

Lemma thinner_config_lt c t :
  thinner c t → config_weight (initial_config c) < config_weight (initial_config t) → trace_size c < trace_size t.
Proof. intros (Ha & Hf & Hw)%thinner_size Hc. unfold trace_size. lia. Qed.

Lemma transform_config t f : initial_config (transform_actions t f) = initial_config t.
Proof. unfold transform_actions. by destruct (foldl _ _ _). Qed.

Lemma remove_controller_lt t id : id ∈ cc_controllers (initial_config t) → trace_size (remove_controller t id) < trace_size t.
Proof.
  intros Hid. apply thinner_config_lt.
  - unfold remove_controller. apply (thinner_retain (with_config _ _)), transform_thinner.
  - cbn [remove_controller with_faults with_config initial_config]. rewrite transform_config.
    unfold config_weight. cbn [cc_controllers cc_participants cc_resources].
    pose proof (length_retain_lt (λ configured, negb (String.eqb configured id)) _ id Hid) as Hlt.
    cbn beta in Hlt. rewrite String.eqb_refl in Hlt. specialize (Hlt eq_refl). lia.
Qed.

Lemma remove_participant_lt t p :
  p ∈ cc_participants (initial_config t) → trace_size (remove_participant t (pc_id p)) < trace_size t.
Proof.
  intros Hp. apply thinner_config_lt.
  - unfold remove_participant. apply (thinner_retain (with_config _ _)), transform_thinner.
  - cbn [remove_participant with_faults with_config initial_config]. rewrite transform_config.
    unfold config_weight. cbn [cc_controllers cc_participants cc_resources].
    pose proof (length_retain_lt (λ configured, negb (String.eqb (pc_id configured) (pc_id p))) _ p Hp) as Hlt.
    cbn beta in Hlt. rewrite String.eqb_refl in Hlt. specialize (Hlt eq_refl).
    destruct (resources_weight_fmap (λ r, prune_resource_participant r (pc_id p)) (cc_resources (initial_config t))) as [Hle _];
      [done|done|intros r _; by rewrite replicas_named_fmap|lia].
Qed.

Lemma remove_resource_lt t r :
  r ∈ cc_resources (initial_config t) → trace_size (remove_resource_config t (rc_name r)) < trace_size t.
Proof.
  intros Hr. apply thinner_config_lt; [exact (transform_thinner t _)|].
  cbn [remove_resource_config with_config initial_config]. rewrite transform_config.
  unfold config_weight. cbn [cc_controllers cc_participants cc_resources].
  enough (resources_weight (retain (λ configured, negb (String.eqb (rc_name configured) (rc_name r))) (cc_resources (initial_config t)))
    < resources_weight (cc_resources (initial_config t))) by lia.
  unfold resources_weight. set (rs := cc_resources (initial_config t)) in *. eapply Nat.le_lt_trans;
    [|apply (sum_retain_lt (λ r', 1 + length (rc_partitions r') + replicas_named rs (rc_name r')) (λ c, negb (String.eqb (rc_name c) (rc_name r))) _ r Hr)].
  - apply sum_fmap_le. intros r' [_ Hne%negb_true_iff%String.eqb_neq]%elem_of_retain.
    by rewrite replicas_named_retain.
  - by rewrite String.eqb_refl.
  - lia.
Qed.

Lemma remove_partition_lt t r p :
  r ∈ cc_resources (initial_config t) → p ∈ rc_partitions r → trace_size (remove_partition t (rc_name r) p) < trace_size t.
Proof.
  intros Hr Hp. apply thinner_config_lt; [exact (transform_thinner t _)|].
  cbn [remove_partition with_config initial_config]. rewrite transform_config.
  unfold config_weight. cbn [map_resources cc_controllers cc_participants cc_resources].
  set (h := λ r' : ResourceConfig, if String.eqb (rc_name r') (rc_name r) then drop_partition r' p else r').
  enough (resources_weight (h <$> cc_resources (initial_config t)) < resources_weight (cc_resources (initial_config t))) by lia.
  assert (∀ r', rc_name (h r') = rc_name r') as Hn by (intros r'; unfold h; by case_match).
  assert (∀ r', rc_replicas (h r') = rc_replicas r') as Hh by (intros r'; unfold h; by case_match).
  apply resources_weight_fmap; [done| |intros r' _; by rewrite replicas_named_fmap|].
  - intros r'. unfold h. case_match; [|done]. apply length_retain_le.
  - exists r. split; [done|]. left. unfold h. rewrite String.eqb_refl.
    apply (length_retain_lt _ _ p Hp). by rewrite String.eqb_refl.
Qed.

Lemma set_replicas_lt t r :
  r ∈ cc_resources (initial_config t) → (1 < rc_replicas r)%N →
  trace_size (set_resource_replicas t (rc_name r) (rc_replicas r / 2)) < trace_size t.
Proof.
  intros Hr Hgt. apply thinner_config_lt.
  { split; [|done]. cbn [set_resource_replicas with_actions actions]. by rewrite length_fmap. }
  cbn [set_resource_replicas with_actions with_config initial_config].
  unfold config_weight. cbn [map_resources cc_controllers cc_participants cc_resources].
  set (rs := cc_resources (initial_config t)) in *. set (h := replicas_of _ _).
  enough (resources_weight (h <$> rs) < resources_weight rs) by lia.
  assert (∀ r', rc_name (h r') = rc_name r') as Hn by (intros r'; unfold h, replicas_of; by case_match).
  assert (replicas_named (h <$> rs) (rc_name r) < replicas_named rs (rc_name r)) as Hlt.
  { eapply Nat.le_lt_trans; [apply (max_list_with_le _ _ (N.to_nat (rc_replicas r / 2)))|].
    - intros r' [(r0 & -> & _)%list_elem_of_fmap E]%elem_of_retain. rewrite Hn in E. unfold h, replicas_of. rewrite E. cbn.
      pose proof (N.div_le_lower_bound (rc_replicas r) 2 1 ltac:(lia) ltac:(lia)). lia.
    - eapply Nat.lt_le_trans; [|apply (max_list_with_ge _ _ r), elem_of_retain; by rewrite String.eqb_refl].
      cbn. pose proof (N.div_lt (rc_replicas r) 2 ltac:(lia) ltac:(lia)). lia. }
  apply resources_weight_fmap; [done|intros r'; unfold h, replicas_of; by case_match| |by exists r; auto].
  intros r' Hr'. destruct (decide (rc_name r' = rc_name r)) as [->|Hne]; [lia|].
  unfold replicas_named. rewrite retain_fmap. rewrite (retain_ext _ (λ r, String.eqb (rc_name r) (rc_name r'))) by (intros r0; cbn; by rewrite Hn).
  apply max_list_with_le. intros r0 Hr0. apply list_elem_of_fmap in Hr0 as (r1 & -> & Hr1).
  etrans; [|by apply (max_list_with_ge _ _ r1)]. apply elem_of_retain in Hr1 as [_ E%String.eqb_eq].
  cbn. unfold h, replicas_of. destruct (String.eqb_spec (rc_name r1) (rc_name r)); [congruence|done].
Qed.

Lemma topology_lt t c : c ∈ reduce_cluster_and_resources t → trace_size c < trace_size t.
Proof.
  unfold reduce_cluster_and_resources. rewrite !elem_of_app.
  intros [Hc|[Hc|[Hc|(r & Hc & Hr)%list_elem_of_bind]]].
  1-3: case_match; [|by apply elem_of_nil in Hc]; apply list_elem_of_fmap in Hc as (x & -> & Hx);
    eauto using remove_controller_lt, remove_participant_lt, remove_resource_lt.
  unfold resource_reductions in Hc. apply elem_of_app in Hc as [Hc|Hc]; case_match eqn:E; try (by apply elem_of_nil in Hc).
  - apply list_elem_of_fmap in Hc as (p & -> & Hp). by apply remove_partition_lt.
  - apply list_elem_of_singleton in Hc as ->. apply set_replicas_lt; [done|]. by apply N.ltb_lt.
Qed.

(** ** The minimizer *)

Section minimizing.
Context {World : Type} (ct : CandidateTester World).
#[local] Abbreviation Tester := (Tester (World := World)).

Definition accepts (c : Trace) : Prop := ∃ self self', reproduces ct c self = (true, self').

(** A candidate that the minimizer goes on with. *)
Definition accepted_step (t c : Trace) : Prop := reduction t c ∧ accepts c.

Lemma first_accepted_Some l self c self' :
  first_accepted ct l self = (Some c, self') → c ∈ l ∧ accepts c.
Proof.
  revert self. induction l as [|d l IH]; intros self; [done|]. cbn [first_accepted].
  destruct (reproduces ct d self) as [[] self1] eqn:E.
  - intros [= <- <-]. split; [set_solver|by exists self, self1].
  - intros Hc. destruct (IH _ Hc). set_solver.
Qed.

(** A tester whose verdict depends on the trace alone. *)
Definition decides (f : Trace → bool) : Prop := ∀ c self, (reproduces ct c self).1 = f c.

Lemma first_accepted_None f l self self' :
  decides f → first_accepted ct l self = (None, self') → Forall (λ c, f c = false) l.
Proof.
  intros Hf. revert self. induction l as [|d l IH]; intros self Hn; [constructor|]. cbn [first_accepted] in Hn.
  pose proof (Hf d self) as Hd. destruct (reproduces ct d self) as [[] self1]; [done|].
  constructor; [by rewrite <- Hd|eauto].
Qed.

(** *** The range phases *)

Lemma chunk_candidates_elem (remove : nat → nat → option Trace) n g c :
  c ∈ chunk_candidates remove n g → ∃ start end_, remove start end_ = Some c.
Proof. unfold chunk_candidates. intros (start & _ & Hc)%list_elem_of_omap. eauto. Qed.

(** At the finest granularity every single element is tried. *)
Lemma chunk_candidates_single (remove : nat → nat → option Trace) n g k c :
  k < n → n ≤ g → remove k (k + 1) = Some c → c ∈ chunk_candidates remove n g.
Proof.
  intros Hk Hg Hc. unfold chunk_candidates.
  assert (div_ceil n g = 1) as ->.
  { unfold div_ceil. symmetry. apply (Nat.div_unique _ _ _ (n - 1)); lia. }
  apply list_elem_of_omap. exists k. split; [|by rewrite Nat.min_l by lia].
  unfold step_by, div_ceil. rewrite Nat.div_1_r. apply list_elem_of_fmap. exists k.
  split; [lia|]. apply elem_of_seq. lia.
Qed.

Section ranges.
Context (items : Trace → nat) (remove : Trace → nat → nat → option Trace).
Context (Hremove : ∀ t start end_ c, remove t start end_ = Some c → items c < items t ∧ reduction t c).

Definition range_measure (st : Trace * nat) : nat := items st.1 * (items st.1 + 1) + (items st.1 - st.2).

Lemma range_turn_inl st self st' self' :
  2 ≤ st.2 → range_turn ct items remove st self = (inl st', self') →
  2 ≤ st'.2 ∧ range_measure st' < range_measure st ∧ (st'.1 = st.1 ∨ accepted_step st.1 st'.1).
Proof.
  destruct st as [t g]. cbn [fst snd]. intros Hg. unfold range_turn. case_match eqn:El; [done|]. apply Nat.ltb_ge in El.
  destruct (first_accepted _ _ _) as [[c|] self1] eqn:Ef.
  - intros [= <- <-]. apply first_accepted_Some in Ef as [(start & end_ & Hc)%chunk_candidates_elem Ha].
    destruct (Hremove _ _ _ _ Hc). cbn [fst snd]. split_and!; [lia| |by right].
    unfold range_measure. cbn [fst snd]. nia.
  - case_match eqn:Eg; [|done]. apply Nat.ltb_lt in Eg. intros [= <- <-]. cbn [fst snd].
    split_and!; [lia| |by left]. unfold range_measure. cbn [fst snd]. lia.
Qed.

Lemma range_turn_inr f st self r self' :
  decides f → range_turn ct items remove st self = (inr r, self') →
  r = st.1 ∧ (2 ≤ items r → ∀ k c, k < items r → remove r k (k + 1) = Some c → f c = false).
Proof.
  destruct st as [t g]. cbn [fst]. intros Hf. unfold range_turn. case_match eqn:El.
  { intros [= <- <-]. apply Nat.ltb_lt in El. split; [done|lia]. }
  destruct (first_accepted _ _ _) as [[c|] self1] eqn:Ef; [done|]. case_match eqn:Eg; [done|].
  intros [= <- <-]. split; [done|]. intros _ k c Hk Hc. apply Nat.ltb_ge in Eg.
  apply (first_accepted_None f) in Ef; [|done]. rewrite Forall_forall in Ef.
  eapply Ef, chunk_candidates_single; eauto.
Qed.
End ranges.

(** *** All phases *)

(** A step that makes the trace smaller. *)
Definition shrinks (t c : Trace) : Prop := accepted_step t c ∧ trace_size c < trace_size t.

Lemma shrinks_size t r : rtc shrinks t r → r = t ∨ trace_size r < trace_size t.
Proof. induction 1 as [t|t c r [_ Hlt] _ [->|IH]]; [by left|right; lia..]. Qed.

Lemma shrinks_reduction t r : rtc shrinks t r → rtc reduction t r.
Proof. induction 1 as [t|t c r [[Hr _] _] _ IH]; [constructor|by eapply rtc_l]. Qed.

(** No accepted candidate of the parameter phase is larger than what it was made from. *)
Definition never_raised (t0 : Trace) : Prop :=
  ∀ a c, rtc reduction t0 a → c ∈ parameter_candidates a → accepts c → trace_size c ≤ trace_size a.

(** A phase with enough fuel: it returns, by steps that shrink, a trace that is final for it. *)
Definition phase_ok (phase : nat → Trace → Tester → option (Trace * Tester)) (final : (Trace → bool) → Trace → Prop)
    (t0 : Trace) : Prop :=
  ∀ fuel t self, rtc shrinks t0 t → (trace_size t + 1) * (trace_size t + 1) ≤ fuel →
  ∃ r self', phase fuel t self = Some (r, self') ∧ rtc shrinks t r ∧ ∀ f, decides f → final f r.

Definition final_items (items : Trace → nat) (remove : Trace → nat → nat → option Trace) (f : Trace → bool) (r : Trace) : Prop :=
  2 ≤ items r → ∀ k c, k < items r → remove r k (k + 1) = Some c → f c = false.

Lemma range_phase_ok items remove t0 :
  (∀ t start end_ c, remove t start end_ = Some c → items c < items t ∧ reduction t c ∧ trace_size c < trace_size t) →
  (∀ t, items t ≤ trace_size t) →
  phase_ok (λ fuel t, turns (range_turn ct items remove) fuel (t, 2)) (final_items items remove) t0.
Proof.
  intros Hremove Hitems fuel t self _ Hfuel.
  assert (∀ t start end_ c, remove t start end_ = Some c → items c < items t ∧ reduction t c) as Hrem by naive_solver.
  destruct (turns_total (range_turn ct items remove) (λ st, 2 ≤ st.2) (range_measure items)) with (fuel := fuel) (st := (t, 2)) (self := self)
    as [[r self'] Hr]; [|done| |].
  { intros st self1 st' self1' Hg Hst. by destruct (range_turn_inl items remove Hrem _ _ _ _ Hg Hst) as (? & ? & _). }
  { unfold range_measure. cbn [fst snd]. specialize (Hitems t). nia. }
  exists r, self'. split_and!; [done| |].
  - eapply (turns_ind _ (λ st, 2 ≤ st.2 ∧ rtc shrinks t st.1) (λ r, rtc shrinks t r)); [| | |exact Hr]; [| |done].
    + intros [a g] self1 [b g'] self1' [Hg Hp]. unfold range_turn. case_match eqn:El; [done|]. apply Nat.ltb_ge in El.
      destruct (first_accepted _ _ _) as [[c|] self2] eqn:Ef.
      * intros [= <- <- <-]. apply first_accepted_Some in Ef as [(start & end_ & Hc)%chunk_candidates_elem Ha].
        split; [cbn; lia|]. eapply rtc_r; [exact Hp|]. destruct (Hremove _ _ _ _ Hc) as (? & ? & ?). by repeat split.
      * case_match; [|done]. intros [= <- <- <-]. split; [cbn [fst snd] in *; lia|done].
    + intros [a g] self1 r1 self1' [Hg Hp]. unfold range_turn. case_match; [by intros [= <- <-]|].
      destruct (first_accepted _ _ _) as [[c|] self2]; [done|]. case_match; [done|]. by intros [= <- <-].
  - intros f Hf. eapply (turns_ind _ (λ _, True) (final_items items remove f)); [done| |done|exact Hr].
    intros st self1 r1 self1' _ Hst. by destruct (range_turn_inr items remove f _ _ _ _ Hf Hst).
Qed.

Lemma candidates_phase_ok candidates t0 :
  (∀ a c, rtc shrinks t0 a → c ∈ candidates a → accepts c → shrinks a c) →
  phase_ok (λ fuel t, turns (candidates_turn ct candidates) fuel t) (λ f r, Forall (λ c, f c = false) (candidates r)) t0.
Proof.
  intros Hcand fuel t self Ht Hfuel.
  assert (∀ a self1 b self1', rtc shrinks t0 a → candidates_turn ct candidates a self1 = (inl b, self1') → shrinks a b) as Hinl.
  { intros a self1 b self1' Ha. unfold candidates_turn. destruct (first_accepted _ _ _) as [[c|] self2] eqn:Ef; [|done].
    intros [= <- <-]. apply first_accepted_Some in Ef as [Hc Hacc]. eauto. }
  destruct (turns_total (candidates_turn ct candidates) (λ a, rtc shrinks t0 a) trace_size) with (fuel := fuel) (st := t) (self := self)
    as [[r self'] Hr]; [|done|nia|].
  { intros a self1 b self1' Ha Hb. pose proof (Hinl _ _ _ _ Ha Hb) as Hs. split; [by eapply rtc_r|apply Hs]. }
  exists r, self'. split_and!; [done| |].
  - eapply (turns_ind _ (λ a, rtc shrinks t0 a ∧ rtc shrinks t a) (λ r, rtc shrinks t r)); [| | |exact Hr]; [| |done].
    + intros a self1 b self1' [Ha Hp] Hb. pose proof (Hinl _ _ _ _ Ha Hb). split; by eapply rtc_r.
    + intros a self1 b self1' [_ Hp]. unfold candidates_turn. destruct (first_accepted _ _ _) as [[c|] self2]; [done|]. by intros [= <- <-].
  - intros f Hf. eapply (turns_ind _ (λ _, True) (λ r, Forall (λ c, f c = false) (candidates r))); [done| |done|exact Hr].
    intros a self1 b self1' _. unfold candidates_turn. destruct (first_accepted _ _ _) as [[c|] self2] eqn:Ef; [done|].
    intros [= <- <-]. by eapply first_accepted_None.
Qed.

Lemma action_phase_ok t0 : phase_ok (minimize_action_ranges ct) (final_items (λ t, length (actions t)) remove_action_range) t0.
Proof.
  apply range_phase_ok.
  - intros t start end_ c Hc. destruct (remove_action_range_lt _ _ _ _ Hc). split_and!; [done| |done]. by eapply reduces_actions.
  - intros t. unfold trace_size. lia.
Qed.

Lemma fault_phase_ok t0 : phase_ok (minimize_fault_ranges ct) (final_items (λ t, length (faults t)) remove_fault_range) t0.
Proof.
  apply range_phase_ok.
  - intros t start end_ c Hc. destruct (remove_fault_range_lt _ _ _ _ Hc). split_and!; [done| |done]. by eapply reduces_faults.
  - intros t. unfold trace_size. lia.
Qed.

Lemma parameter_candidates_elem t c : c ∈ parameter_candidates t → ∃ k, c ∈ reduce_fault t k.
Proof. unfold parameter_candidates. intros (k & Hc & _)%list_elem_of_bind. eauto. Qed.

Lemma parameter_phase_ok t0 : never_raised t0 →
  phase_ok (minimize_fault_parameters ct) (λ f r, Forall (λ c, f c = false) (parameter_candidates r)) t0.
Proof.
  intros Hnever. apply candidates_phase_ok. intros a c Ha Hc Hacc.
  pose proof (Hnever a c (shrinks_reduction _ _ Ha) Hc Hacc).
  apply parameter_candidates_elem in Hc as [k Hc]. pose proof (reduce_fault_size _ _ _ Hc).
  split; [|lia]. split; [by eapply reduces_parameter|done].
Qed.

Lemma topology_phase_ok t0 :
  phase_ok (minimize_topology ct) (λ f r, Forall (λ c, f c = false) (reduce_cluster_and_resources r)) t0.
Proof.
  apply candidates_phase_ok. intros a c _ Hc Hacc. split; [|by apply topology_lt].
  split; [by apply reduces_topology|done].
Qed.

(** No reduction of the last round gives a trace that reproduces the failure. *)
Record irreducible (f : Trace → bool) (r : Trace) : Prop := {
  irr_actions : final_items (λ t, length (actions t)) remove_action_range f r;
  irr_faults : final_items (λ t, length (faults t)) remove_fault_range f r;
  irr_parameters : Forall (λ c, f c = false) (parameter_candidates r);
  irr_topology : Forall (λ c, f c = false) (reduce_cluster_and_resources r)
}.

(** A phase may follow another: the fuel stays enough. *)
Lemma fuel_enough fuel t r :
  rtc shrinks t r → (trace_size t + 1) * (trace_size t + 1) ≤ fuel → (trace_size r + 1) * (trace_size r + 1) ≤ fuel.
Proof. intros [->|Hlt]%shrinks_size Hf; [done|nia]. Qed.

Lemma round_ok t0 fuel t self :
  never_raised t0 → rtc shrinks t0 t → (trace_size t + 1) * (trace_size t + 1) ≤ fuel →
  ∃ r self', minimize_round ct fuel t self = Some (r, self') ∧ rtc shrinks t r ∧
    (r = t → ∀ f, decides f → irreducible f r).
Proof.
  intros Hnever Ht Hfuel. unfold minimize_round.
  destruct (action_phase_ok t0 fuel t self Ht Hfuel) as (t1 & self1 & -> & H1 & F1). cbn [mbind option_bind].
  pose proof (fuel_enough _ _ _ H1 Hfuel) as Hfuel1.
  destruct (fault_phase_ok t0 fuel t1 self1 ltac:(by etrans) Hfuel1) as (t2 & self2 & -> & H2 & F2). cbn [mbind option_bind].
  pose proof (fuel_enough _ _ _ H2 Hfuel1) as Hfuel2.
  destruct (parameter_phase_ok t0 Hnever fuel t2 self2 ltac:(by etrans; [|etrans]) Hfuel2) as (t3 & self3 & -> & H3 & F3). cbn [mbind option_bind].
  pose proof (fuel_enough _ _ _ H3 Hfuel2) as Hfuel3.
  destruct (topology_phase_ok t0 fuel t3 self3 ltac:(by etrans; [|etrans; [|etrans]]) Hfuel3) as (r & self4 & -> & H4 & F4).
  exists r, self4. split_and!; [done|by etrans; [|etrans; [|etrans]]|].
  apply shrinks_size in H1, H2, H3, H4.
  intros -> f Hf. assert (t1 = t ∧ t2 = t ∧ t3 = t) as (-> & -> & ->).
  { destruct H4 as [E4|], H3 as [E3|], H2 as [E2|], H1 as [E1|]; subst; try lia; auto. }
  split; eauto.
Qed.

Lemma minimize_ok t0 fuel rounds t self :
  never_raised t0 → rtc shrinks t0 t → (trace_size t + 1) * (trace_size t + 1) ≤ fuel → trace_size t < rounds →
  ∃ r self', minimize ct fuel rounds t self = Some (r, self') ∧ rtc shrinks t r ∧ ∀ f, decides f → irreducible f r.
Proof.
  revert t self. induction rounds as [|rounds IH]; intros t self Hnever Ht Hfuel Hrounds; [lia|]. cbn [minimize].
  destruct (round_ok t0 fuel t self Hnever Ht Hfuel) as (r & self1 & -> & Hr & Hfin). cbn [mbind option_bind].
  case_bool_decide as E; [subst r; by exists t, self1; auto|].
  destruct (shrinks_size _ _ Hr) as [|Hlt]; [done|].
  destruct (IH r self1 Hnever ltac:(by etrans) (fuel_enough _ _ _ Hr Hfuel) ltac:(lia)) as (r' & self2 & Hmin & Hr' & Hfin').
  exists r', self2. split_and!; [done|by etrans|done].
Qed.
End minimizing.

(** C21: when no candidate in which a parameter was raised is accepted, minimization ends,
    within a number of turns and rounds computed from the size of the trace.  Its result
    is reached from the trace by reductions each of which reproduced the failure when it
    was tried and made the trace smaller; and when reproduction depends on the trace
    alone, the result is minimal: removing any one of several actions or faults, lowering
    any parameter and reducing the topology all lose the failure. *)
Theorem minimize_minimal {World} (ct : CandidateTester World) fuel rounds t self :
  never_raised ct t → (trace_size t + 1) * (trace_size t + 1) ≤ fuel → trace_size t < rounds →
  ∃ r self', minimize ct fuel rounds t self = Some (r, self') ∧ rtc (shrinks ct) t r ∧
    ∀ f, decides ct f → irreducible f r.
Proof. intros Hnever Hfuel Hrounds. by apply (minimize_ok ct t). Qed.

(** ** Failures for which it never ends *)

(** A fault with an unsigned scalar. *)
Definition tunable (fault : Fault) : bool :=
  match fault with
  | Network _ _ _ => true
  | Callback _ (SucceedSlowly _) | Callback _ (RepeatedError _) => true
  | Clock _ (Suspend _) | Clock _ (DelayedKeepalive _) => true
  | Failpoint _ (Pause _) => true
  | _ => false
  end.

Definition has_tunable (t : Trace) : bool := existsb (λ s, tunable (sf_fault s)) (faults t).

Lemma tunable_shape s : tunable (sf_fault (scheduled_shape s)) = tunable (sf_fault s).
Proof. destruct s as [k [| | |p []|p []|p []]]; done. Qed.

Lemma has_tunable_shape t c :
  scheduled_shape <$> faults c = scheduled_shape <$> faults t → has_tunable c = has_tunable t.
Proof.
  assert (∀ t, has_tunable t = existsb (λ s, tunable (sf_fault s)) (scheduled_shape <$> faults t)) as Hs.
  { intros u. unfold has_tunable. induction (faults u) as [|s l IH]; [done|]. cbn [existsb fmap list_fmap].
    by rewrite tunable_shape, IH. }
  intros E. by rewrite !Hs, E.
Qed.

Lemma reduce_fault_tunable t k c : c ∈ reduce_fault t k → has_tunable c = has_tunable t.
Proof.
  unfold reduce_fault. destruct (faults t !! k) as [s|] eqn:Hk; [|by intros ?%elem_of_nil].
  intros (fault & -> & Hf)%list_elem_of_fmap. apply has_tunable_shape.
  by rewrite (replace_fault_shape _ _ _ _ Hk (reduced_faults_shape _ _ Hf)).
Qed.

(** Such a fault can always be changed once more: 0 becomes 1 again. *)
Lemma tunable_reduced fault : tunable fault = true → ∃ fault', fault' ∈ reduced_faults fault.
Proof.
  assert (∀ {A} (f : N → A) v, ∃ x, x ∈ f <$> lower_u64 v) as Hl.
  { intros A f v. destruct (lower_u64_nonempty v) as [r Hr]. exists (f r). by apply list_elem_of_fmap_2. }
  destruct fault as [target toxic d| | |p []|p []|p []]; intros Ht; try discriminate Ht; cbn [reduced_faults reduced_behaviors reduced_perturbations].
  - destruct (Hl _ (Network target toxic) d) as [x Hx]. exists x. apply elem_of_app. by left.
  - rewrite <- list_fmap_compose. apply Hl.
  - rewrite <- list_fmap_compose. apply (Hl _ (Callback p ∘ RepeatedError)).
  - rewrite <- list_fmap_compose. apply Hl.
  - rewrite <- list_fmap_compose. apply Hl.
  - apply Hl.
Qed.

Lemma tunable_candidates t : has_tunable t = true → ∃ c, c ∈ parameter_candidates t.
Proof.
  intros (s & Hs%list_elem_of_In & Ht)%existsb_exists. apply list_elem_of_lookup in Hs as [k Hk].
  destruct (tunable_reduced _ Ht) as [fault Hf]. exists (replace_fault t k fault). apply list_elem_of_bind. exists k.
  split; [|apply elem_of_seq; apply lookup_lt_Some in Hk; lia].
  unfold reduce_fault. rewrite Hk. by apply list_elem_of_fmap_2.
Qed.

Section divergence.
Context {World : Type} (ct : CandidateTester World).

(** Runs that all match or all do not. *)
Lemma decides_runs f :
  (0 < attempts ct)%N →
  (∀ c prefix work w, matches_expected ct (execute_trace ct c prefix work w).1 = f c) → decides ct f.
Proof.
  intros Hpos Hexec c self. unfold reproduces, test.
  assert (∀ l st, (foldl (test_attempt ct c (next_id self)) st l).1 = if f c then (st.1 + len l)%N else st.1) as Hcount.
  { unfold len. induction l as [|k l IH]; intros st; cbn [foldl length]; [destruct (f c); lia|]. rewrite IH.
    unfold test_attempt. match goal with |- context [execute_trace ?a ?b ?c ?d ?e] =>
      pose proof (Hexec b c d e) as He; destruct (execute_trace a b c d e) as [out w] end.
    cbn [fst] in *. rewrite He. destruct (f c); lia. }
  specialize (Hcount (seq 0 (N.to_nat (attempts ct))) (0%N, world self)).
  destruct (foldl _ _ _) as [n w]. cbn [fst] in *. rewrite Hcount. unfold len. rewrite length_seq.
  cbn [rs_reproduced ReplayStats_new]. destruct (f c); [|done]. rewrite N2Nat.id, N.add_0_l.
  apply negb_true_iff, N.eqb_neq. lia.
Qed.

Context (f : Trace → bool) (Hf : decides ct f).

Lemma accepts_true c : accepts ct c → f c = true.
Proof. intros (self & self' & Hc). by rewrite <- (Hf c self), Hc. Qed.

Lemma first_accepted_true d l self : f d = true → ∃ self', first_accepted ct (d :: l) self = (Some d, self').
Proof.
  intros Hd. cbn [first_accepted]. pose proof (Hf d self) as Hr. destruct (reproduces ct d self) as [b self'].
  cbn [fst] in Hr. rewrite Hr, Hd. by exists self'.
Qed.

(** A range phase returns a trace that still fails. *)
Lemma range_phase_keeps items remove fuel t self r self' :
  f t = true → turns (range_turn ct items remove) fuel (t, 2) self = Some (r, self') → f r = true.
Proof.
  intros Ht. apply (turns_ind _ (λ st, f st.1 = true) (λ r, f r = true)); [| |done].
  - intros [a g] self1 [b g'] self1' Ha. unfold range_turn. case_match; [done|].
    destruct (first_accepted _ _ _) as [[c|] self2] eqn:Ef; [intros [= <- <- <-]|case_match; [|done]; by intros [= <- <- <-]].
    apply first_accepted_Some in Ef as [_ Hacc]. by apply accepts_true.
  - intros [a g] self1 b self1' Ha. unfold range_turn. case_match; [by intros [= <- <-]|].
    destruct (first_accepted _ _ _) as [[c|] self2]; [done|]. case_match; [done|]. by intros [= <- <-].
Qed.
End divergence.

(** C23: a failure that occurs in every run of every trace with a fault whose duration,
    count or bandwidth can be changed makes minimization run for ever: from such a trace
    it does not return whatever the fuel, because a parameter that has reached 0 is
    offered at 1, and at 1 again at 0. *)
Theorem minimize_diverges {World} (ct : CandidateTester World) t fuel rounds self :
  (0 < attempts ct)%N →
  (∀ c prefix work w, matches_expected ct (execute_trace ct c prefix work w).1 = has_tunable c) →
  has_tunable t = true → minimize ct fuel rounds t self = None.
Proof.
  intros Hpos Hexec Ht. pose proof (decides_runs ct has_tunable Hpos Hexec) as Hf.
  destruct rounds as [|rounds]; [done|]. cbn [minimize]. unfold minimize_round.
  destruct (minimize_action_ranges ct fuel t self) as [[t1 self1]|] eqn:E1; [|done]. cbn [mbind option_bind].
  apply (range_phase_keeps ct has_tunable Hf) in E1; [|done].
  destruct (minimize_fault_ranges ct fuel t1 self1) as [[t2 self2]|] eqn:E2; [|done]. cbn [mbind option_bind].
  apply (range_phase_keeps ct has_tunable Hf) in E2; [|done].
  enough (minimize_fault_parameters ct fuel t2 self2 = None) as -> by done.
  apply (turns_diverge _ (λ a, has_tunable a = true)); [|done]. intros a self3 Ha. unfold candidates_turn.
  destruct (tunable_candidates a Ha) as [c Hc]. destruct (parameter_candidates a) as [|d l] eqn:El; [by apply elem_of_nil in Hc|].
  assert (has_tunable d = true) as Hd.
  { destruct (parameter_candidates_elem a d) as [k Hk]; [rewrite El; left|]. by rewrite (reduce_fault_tunable _ _ _ Hk). }
  destruct (first_accepted_true ct has_tunable Hf d l self3 Hd) as [self4 ->]. by exists d, self4.
Qed.

(** ** Examples *)

Definition ex_violation : InvariantViolation := MkViolation Safety "single_leader" "" 5.

(** A stack on which exactly the traces of [f] fail. *)
Definition ex_tester (f : Trace → bool) : CandidateTester unit :=
  MkCandidateTester unit (λ t _ _ w, (if f t then Err (ChaosInvariant ex_violation) else Ok tt, w)) 1 id ex_violation "/chaos" 2.

Lemma ex_tester_matches f c prefix work w :
  matches_expected (ex_tester f) (execute_trace (ex_tester f) c prefix work w).1 = f c.
Proof. cbn. by destruct (f c). Qed.

(** A failure that needs a pause of two milliseconds. *)
Definition long_pause (t : Trace) : bool :=
  existsb (λ s, match sf_fault s with Failpoint _ (Pause value) => (2 <=? value)%N | _ => false end) (faults t).

Definition ex_pause : Trace :=
  MkTrace 1 7 "nightly" default_config
    [StartController "controller-a"; StartParticipant "node-1"; CrashParticipant "node-2"; RestartParticipant "node-2"]
    [MkScheduledFault 2 (Failpoint "controller_after_reconcile_before_publish" (Pause 8))].

Lemma ex_pause_reachable a :
  rtc reduction ex_pause a →
  trace_wf a ∧ (sf_fault <$> (scheduled_shape <$> faults a)) `sublist_of`
    [Failpoint "controller_after_reconcile_before_publish" (Pause 0)].
Proof.
  apply (rtc_ind_r (λ a, trace_wf a ∧ (sf_fault <$> (scheduled_shape <$> faults a)) `sublist_of` _)).
  - split; [split; repeat constructor|done].
  - intros b c _ Hr [Hwf Hs]. destruct (reduction_embeds b c Hwf Hr) as [g Hg]. split; [by eapply embeds_wf|].
    etrans; [apply fmap_sublist, (emb_faults _ _ _ Hg)|]. etrans; [apply (omap_faults_sublist (λ s, g (action_index s)))|done].
Qed.

Lemma ex_pause_never_raised : never_raised (ex_tester long_pause) ex_pause.
Proof.
  intros a c Ha Hc Hacc. apply ex_pause_reachable in Ha as [_ Hs].
  assert (long_pause c = true) as Hlong.
  { eapply accepts_true; [|exact Hacc]. apply decides_runs; [done|]. apply ex_tester_matches. }
  apply parameter_candidates_elem in Hc as [k Hc]. unfold reduce_fault in Hc.
  destruct (faults a) as [|s l] eqn:Ef; [by apply elem_of_nil in Hc|]. cbn [fmap list_fmap] in Hs.
  assert (fault_shape (sf_fault s) = Failpoint "controller_after_reconcile_before_publish" (Pause 0) ∧ l = []) as [Hshape ->].
  { inversion Hs as [|? ? ? Hl|? ? ? Hl]; subst; [|by inversion Hl]. split; [done|]. inversion Hl. by destruct l. }
  destruct k as [|k]; cbn in Hc; [|by apply elem_of_nil in Hc].
  apply list_elem_of_fmap in Hc as (fault & -> & Hf). unfold trace_size, faults_weight, replace_fault. rewrite Ef.
  unfold long_pause, replace_fault in Hlong. rewrite Ef in Hlong. cbn in Hlong.
  destruct (sf_fault s) as [| | | | |p []] eqn:Es; try discriminate Hshape. cbn [reduced_faults] in Hf.
  apply list_elem_of_fmap in Hf as (v & -> & Hv%lower_u64_spec).
  rewrite orb_false_r in Hlong. apply N.leb_le in Hlong. cbn. rewrite Es. cbn. lia.
Qed.

Lemma minimize_minimal_witness :
  ∃ r self', minimize (ex_tester long_pause) ((trace_size ex_pause + 1) * (trace_size ex_pause + 1))
      (trace_size ex_pause + 1) ex_pause (MkTester 0 tt) = Some (r, self') ∧
    rtc (shrinks (ex_tester long_pause)) ex_pause r ∧ ∀ f, decides (ex_tester long_pause) f → irreducible f r.
Proof. apply (minimize_minimal (ex_tester long_pause)); [apply ex_pause_never_raised|done|lia]. Defined.

Lemma minimize_diverges_witness :
  has_tunable ex_trace = true ∧
  minimize (ex_tester has_tunable) 1000 1000 ex_trace (MkTester 0 tt) = None.
Proof.
  split; [done|].
  apply (minimize_diverges (ex_tester has_tunable)); [done|intros; apply ex_tester_matches|done].
Defined.

(** The failure of [long_pause] is minimized to one action and a pause of 2. *)
Example ex_minimized :
  (λ '(r, self), (actions r, faults r, next_id self)) <$> minimize (ex_tester long_pause) 100 10 ex_pause (MkTester 0 tt) =
  Some ([CrashParticipant "node-2"],
        [MkScheduledFault 0 (Failpoint "controller_after_reconcile_before_publish" (Pause 2))], 19%N).
Proof. vm_compute. done. Qed.
