(* ===== verification/Oracle.v ===== *)
(** * The invariant checks of the chaos harness

    Models the checks of [tools/clustodian-chaos/src/lib.rs] that judge a cluster
    snapshot: safety after every action, the derived state, and convergence against the
    placement the crate itself computes.  JSON values are the parameter [Value] with
    [serde_json]'s accessors; their laws are hypotheses.

    The safety check accepts exactly the safe snapshots.  The convergence check asks
    for the placement of the rebalancer and for counts of replicas and leaders: where the
    preference lists are configured the second follows from the first. *)

From stdpp Require Import pretty.
From S2P Require Import Prelude Identity StateMaps StateModel Crush SemiAuto ControllerRuntime Observe Chaos.

(** ** JSON *)

(** [BTreeMap<String, BTreeMap<String, BTreeMap<String, String>>>] *)
Abbreviation view_map := (gmap string (gmap string (gmap string string))).

Record OracleJson (Value : Type) := MkOracleJson {
  as_object : Value → option (list (string * Value));
  as_str : Value → option string;
  to_value : view_map → Value;
  from_value : Value → result view_map string;
  value_eqb : Value → Value → bool;
  display_value : Value → string
}.
Arguments as_object {Value}. Arguments as_str {Value}. Arguments to_value {Value}.
Arguments from_value {Value}. Arguments value_eqb {Value}. Arguments display_value {Value}.

Section checks.
Context {Value : Type} (json : OracleJson Value).
(** [{:?}] of strings *)
Variable debug_str : string → string.
Variable debug_strings : list string → string.
(** The power function of the CRUSH weights, and the fuel of its retries. *)
Variable powf : SpecFloat.spec_float → SpecFloat.spec_float → SpecFloat.spec_float.
Variable crush_fuel : nat.
Abbreviation snapshot_t := (ClusterSnapshot Value).

Definition violation (class : InvariantClass) (name detail : string) (revision : Z) : InvariantViolation :=
  MkViolation class name detail revision.

(** ** Safety *)

Definition session_violations (snapshot : snapshot_t) (entry : string * ActiveCurrentStateObservation)
  : list InvariantViolation :=
  let '(instance, current) := entry in
  match obs_live snapshot !! instance with
  | Some session =>
      if (session =? obs_session current)%N then []
      else [violation Safety "current_state_session"
              (instance +:+ " has session " +:+ pretty (obs_session current) +:+ " but live session is " +:+ pretty session)
              (obs_revision snapshot)]
  | None =>
      [violation Safety "current_state_live_instance" (instance +:+ " has CurrentState without a live session")
         (obs_revision snapshot)]
  end.

(** The pairs the nested loops push: who reports LEADER for which partition. *)
Definition leader_reports (snapshot : snapshot_t) : list ((string * string) * string) :=
  entries (obs_active_current_state snapshot) ≫= λ '(instance, current),
  entries (obs_resources current) ≫= λ '(resource, partitions),
  entries (partitions : gmap string string) ≫= λ '(partition, state),
    if String.eqb state "LEADER" then [((resource, partition), instance)] else [].

Definition current_state_leaders (snapshot : snapshot_t) : gmap (string * string) (list string) :=
  (λ reports : list ((string * string) * string), reports.*2) <$> group_by fst (leader_reports snapshot).

Definition leader_violations (snapshot : snapshot_t) (entry : (string * string) * list string) : list InvariantViolation :=
  let '((resource, partition), leaders) := entry in
  if (1 <? length leaders)%nat then
    [violation Safety "current_state_single_leader"
       (resource +:+ "/" +:+ partition +:+ " has " +:+ pretty (len leaders) +:+ " active CurrentState leaders: "
        +:+ debug_strings leaders) (obs_revision snapshot)]
  else [].

Definition is_caught_up (snapshot : snapshot_t) : bool :=
  match obs_processed snapshot with
  | Some processed => (obs_authoritative snapshot <=? processed)%Z
  | None => false
  end.

Definition pending_violations (snapshot : snapshot_t) (transition : PublishedTransition) : list InvariantViolation :=
  if bool_decide (obs_live snapshot !! pub_instance transition = Some (pub_target_session transition)) then []
  else [violation Safety "pending_transition_session" (pub_instance transition +:+ " targets stale session")
          (obs_revision snapshot)].

(** [as_object().into_iter().flat_map(..)]: nothing for another kind of value. *)
Definition object_entries (value : Value) : list (string * Value) := default [] (as_object json value).

Definition is_live_leader (snapshot : snapshot_t) (entry : string * Value) : bool :=
  bool_decide (as_str json entry.2 = Some "LEADER") && bool_decide (is_Some (obs_live snapshot !! entry.1)).

Definition view_violations (snapshot : snapshot_t) (resource : string) (entry : string * Value) : list InvariantViolation :=
  let '(partition, states) := entry in
  let leaders := count_if (is_live_leader snapshot) (object_entries states) in
  if (1 <? leaders)%nat then
    [violation Safety "single_leader"
       (resource +:+ "/" +:+ partition +:+ " has " +:+ pretty (N.of_nat leaders) +:+ " leaders") (obs_revision snapshot)]
  else [].

Definition check_safety (snapshot : snapshot_t) : list InvariantViolation :=
  (if (1 <? length (members_active (obs_controllers snapshot)))%nat
   then [violation Safety "single_authoritative_controller" "more than one active controller" (obs_revision snapshot)] else [])
  ++ (entries (obs_active_current_state snapshot) ≫= session_violations snapshot)
  ++ (entries (current_state_leaders snapshot) ≫= leader_violations snapshot)
  ++ (if is_caught_up snapshot then obs_pending snapshot ≫= pending_violations snapshot else [])
  ++ (object_entries (obs_external_view snapshot) ≫= λ '(resource, partitions),
      object_entries partitions ≫= view_violations snapshot resource).

(** ** Derived state *)

Inductive DerivedCheck := DerivedValid | Deferred | DerivedInvalid (detail : string).

(** [let output = m.entry(resource).or_default().entry(partition).or_default()], and the
    loop that inserts into it. *)
Definition insert_states (m : view_map) (resource partition : string) (states : list (string * string)) : view_map :=
  let partitions := default ∅ (m !! resource) in
  <[resource := <[partition := foldl (λ output '(instance, state), <[instance := state]> output)
                                 (default ∅ (partitions !! partition)) states]> partitions]> m.

(** The pairs the nested loops insert. *)
Definition state_reports (snapshot : snapshot_t) : list (string * string * string * string) :=
  entries (obs_active_current_state snapshot) ≫= λ '(instance, current),
  entries (obs_resources current) ≫= λ '(resource, partitions),
  (λ '(partition, state), (resource, partition, instance, state)) <$> entries (partitions : gmap string string).

Definition aggregate_states (snapshot : snapshot_t) : view_map :=
  foldl (λ m '(resource, partition, instance, state), insert_states m resource partition [(instance, state)]) ∅
    (state_reports snapshot).

Definition aggregate_active_current_state (snapshot : snapshot_t) : Value := to_value json (aggregate_states snapshot).

Definition check_derived_state (snapshot : snapshot_t) : DerivedCheck :=
  if negb (is_caught_up snapshot) then Deferred
  else
    let expected := aggregate_active_current_state snapshot in
    if value_eqb json (obs_external_view snapshot) expected then DerivedValid
    else DerivedInvalid ("ExternalView differs from active CurrentState: expected=" +:+ display_value json expected
                         +:+ ", observed=" +:+ display_value json (obs_external_view snapshot)).

(** ** The expected placement

    [Err (Raise detail)] is the error of the source; [Panicked] and [Diverged] come from
    the computations of the crate. *)

Definition or_detail {A E} (display : E → string) (context : string) (r : result A E) : result A (stop string) :=
  map_err (λ e, Raise (context +:+ ": " +:+ display e)) r.

(** An error of a computation that may also stop. *)
Definition or_stop {A E} (display : E → string) (context : string) (r : result A (stop E)) : result A (stop string) :=
  match r with
  | Ok a => Ok a
  | Err (Raise e) => Err (Raise (context +:+ ": " +:+ display e))
  | Err Panicked => Err Panicked
  | Err Diverged => Err Diverged
  end.

Definition instance_of (context : string) (name : string) : result InstanceId (stop string) :=
  or_detail display_identifier_error (context +:+ " " +:+ name) (InstanceId_new name).

Definition partition_of (resource name : string) : result PartitionId (stop string) :=
  or_detail display_identifier_error ("invalid partition " +:+ resource +:+ "/" +:+ name) (PartitionId_new name).

Definition live_ids (snapshot : snapshot_t) : result (gset InstanceId) (stop string) :=
  let? ids := collect_results (instance_of "invalid live instance") (map_keys (obs_live snapshot)) in
  Ok (list_to_set ids).

Definition crush_instance_of (participant : ParticipantConfig) : result CrushInstance (stop string) :=
  let? id := instance_of "invalid instance" (pc_id participant) in
  or_detail (display_crush_error debug_str) ("CRUSH instance " +:+ pc_id participant) (CrushInstance_new id (pc_zone participant)).

Definition configured_list (resource : string) (entry : string * list string)
  : result (PartitionId * list InstanceId) (stop string) :=
  let? partition := partition_of resource entry.1 in
  let? instances := collect_results (instance_of "invalid instance") entry.2 in
  Ok (partition, instances).

Definition expected_lists (config : ClusterConfig) (live : gset InstanceId) (resource_id : ResourceId)
    (partitions : list PartitionId) (resource : ResourceConfig)
  : result (gmap PartitionId (list InstanceId)) (stop string) :=
  match rc_placement resource with
  | ConfigCrush =>
      let? instances := collect_results crush_instance_of (cc_participants config) in
      let? topology := or_detail (display_crush_error debug_str) "CRUSH topology"
        (CrushTopology_new "/instance" "instance" "instance") in
      or_stop (display_crush_error debug_str) ("CRUSH assignment for " +:+ rc_name resource)
        (compute_crush_assignment powf crush_fuel resource_id partitions
           (N.to_nat (N.min (rc_replicas resource) (N.of_nat (size live)))) instances live topology)
  | ConfigSemiAuto preference_lists =>
      let? lists := collect_results (configured_list (rc_name resource)) (entries preference_lists) in
      Ok (btree_collect lists)
  end.

Definition expected_replicas (live : gset InstanceId) (resource : ResourceConfig) : N :=
  match rc_placement resource with
  | ConfigCrush => N.min (rc_replicas resource) (N.of_nat (size live))
  | ConfigSemiAuto _ => rc_replicas resource
  end.

Definition expected_ideal (config : ClusterConfig) (live : gset InstanceId) (resource : ResourceConfig)
  : result IdealState (stop string) :=
  let? resource_id := or_detail display_identifier_error ("invalid resource " +:+ rc_name resource) (ResourceId_new (rc_name resource)) in
  let? partitions := collect_results (partition_of (rc_name resource)) (rc_partitions resource) in
  let? lists := expected_lists config live resource_id partitions resource in
  let? builder := try_fold (λ builder '(partition, instances),
      or_detail display_ideal_state_error ("BestPossibleState input for " +:+ rc_name resource)
        (set_preference_list builder partition instances))
    (IdealState_builder resource_id (expected_replicas live resource)) (entries lists) in
  or_detail display_ideal_state_error ("BestPossibleState ideal for " +:+ rc_name resource) (IdealStateBuilder_build builder).

Definition best_of (live : gset InstanceId) (resource : ResourceConfig) (ideal : IdealState)
  : result BestPossibleState (stop string) :=
  or_stop display_semi_auto_error ("BestPossibleState for " +:+ rc_name resource)
    (compute_semi_auto_best_possible_state ideal CurrentState_default live leader_standby).

(** What a partition of the placement inserts. *)
Definition named_states (instances : gmap InstanceId State) : list (string * string) :=
  (λ '(instance, state), (instance_str instance, state_str state)) <$> entries instances.

Definition expected_step (config : ClusterConfig) (live : gset InstanceId) (expected : view_map) (resource : ResourceConfig)
  : result view_map (stop string) :=
  let? ideal := expected_ideal config live resource in
  let? best := best_of live resource ideal in
  Ok (foldl (λ m '(partition, instances),
        insert_states m (rc_name resource) (partition_str partition) (named_states instances))
      expected (entries (BestPossibleState_entries best))).

Definition expected_states (config : ClusterConfig) (snapshot : snapshot_t) : result view_map (stop string) :=
  let? live := live_ids snapshot in
  try_fold (expected_step config live) ∅ (cc_resources config).

Definition expected_best_possible_state (config : ClusterConfig) (snapshot : snapshot_t) : result Value (stop string) :=
  let? expected := expected_states config snapshot in Ok (to_value json expected).

(** ** Convergence *)

Definition eligible_live_count (config : ClusterConfig) (resource : ResourceConfig) (partition : string)
    (snapshot : snapshot_t) : nat :=
  match rc_placement resource with
  | ConfigCrush => count_if (λ participant, is_live (obs_live snapshot) (pc_id participant)) (cc_participants config)
  | ConfigSemiAuto preference_lists =>
      count_if (is_live (obs_live snapshot)) (default [] (preference_lists !! partition))
  end.

(** The routing table of a view, by state. *)
Definition routing_of (external : view_map) : gmap (string * string * string) (list string) :=
  btree_collect (
    entries external ≫= λ '(resource, partitions),
    entries (partitions : gmap string (gmap string string)) ≫= λ '(partition, instances),
    (λ '(state, replicas), ((resource, partition, state), stable_sort key_leb (replicas : list (string * string)).*1))
      <$> entries (group_by snd (entries (instances : gmap string string)))).

Definition observed_routing (snapshot : snapshot_t) : gmap (string * string * string) (list string) :=
  btree_collect ((λ result, ((res_resource result, res_partition result, res_state result), res_instances result))
    <$> obs_routing_results snapshot).

Definition partition_violations (config : ClusterConfig) (snapshot : snapshot_t) (external : view_map)
    (resource : ResourceConfig) (partition : string) : list InvariantViolation :=
  let expected_replicas := N.min (rc_replicas resource) (N.of_nat (eligible_live_count config resource partition snapshot)) in
  let where_ := rc_name resource +:+ "/" +:+ partition in
  match external !! rc_name resource ≫= (.!! partition) with
  | None =>
      if (0 <? expected_replicas)%N then
        [violation Convergence "settled_partition_present" ("missing settled partition " +:+ where_) (obs_revision snapshot)]
      else []
  | Some instances =>
      let leaders := count_if (String.eqb "LEADER") (map_values (instances : gmap string string)) in
      (if (N.of_nat (size instances) =? expected_replicas)%N then []
       else [violation Convergence "settled_replica_cardinality"
               (where_ +:+ " expected " +:+ pretty expected_replicas +:+ " replicas, observed " +:+ pretty (N.of_nat (size instances)))
               (obs_revision snapshot)])
      ++ (if (0 <? expected_replicas)%N && negb (leaders =? 1)%nat then
            [violation Convergence "settled_single_leader"
               (where_ +:+ " expected one leader, observed " +:+ pretty (N.of_nat leaders)) (obs_revision snapshot)]
          else [])
  end.

(** The part of the check after the external view was decoded. *)
Definition settled_violations (config : ClusterConfig) (snapshot : snapshot_t) (external : view_map) : list InvariantViolation :=
  (if bool_decide (observed_routing snapshot = routing_of external) then []
   else [violation DerivedState "routing_matches_external_view" "routing results differ from ExternalView" (obs_revision snapshot)])
  ++ (cc_resources config ≫= λ resource,
      rc_partitions resource ≫= partition_violations config snapshot external resource).

Definition placement_violations (snapshot : snapshot_t) (expected : result Value (stop string))
  : result (list InvariantViolation) (stop Empty_set) :=
  match expected with
  | Ok expected =>
      Ok (if value_eqb json (obs_external_view snapshot) expected then []
          else [violation Convergence "external_view_matches_best_possible_state"
                  ("expected BestPossibleState=" +:+ display_value json expected +:+ ", observed ExternalView="
                   +:+ display_value json (obs_external_view snapshot)) (obs_revision snapshot)])
  | Err (Raise detail) => Ok [violation Convergence "best_possible_state_oracle" detail (obs_revision snapshot)]
  | Err Panicked => Err Panicked
  | Err Diverged => Err Diverged
  end.

Definition check_convergence (snapshot : snapshot_t) (config : ClusterConfig)
  : result (list InvariantViolation) (stop Empty_set) :=
  let revision := obs_revision snapshot in
  let? placement := placement_violations snapshot (expected_best_possible_state config snapshot) in
  Ok ((if (length (members_active (obs_controllers snapshot)) =? 1)%nat then []
       else [violation Convergence "one_active_controller"
               ("expected one active controller, got " +:+ debug_strings (members_active (obs_controllers snapshot))) revision])
      ++ (if bool_decide (obs_pending snapshot = []) then []
          else [violation Convergence "no_pending_transitions"
                  (pretty (len (obs_pending snapshot)) +:+ " pending transitions remain") revision])
      ++ (if is_caught_up snapshot then []
          else [violation Convergence "controller_caught_up"
                  "controller processed revision is behind authoritative revision" revision])
      ++ (match check_derived_state snapshot with
          | DerivedInvalid detail => [violation DerivedState "external_view_matches_current_state" detail revision]
          | DerivedValid | Deferred => []
          end)
      ++ placement
      ++ (match from_value json (obs_external_view snapshot) with
          | Ok external => settled_violations config snapshot external
          | Err error =>
              [violation DerivedState "external_view_shape" ("ExternalView is not a replica map: " +:+ error) revision]
          end)).
End checks.

(** * Facts *)

Lemma bind_nil {A B} (l : list A) (f : A → list B) : (l ≫= f) = [] ↔ ∀ x, x ∈ l → f x = [].
Proof.
  induction l as [|x l IH]; [set_solver|]. cbn. split.
  - intros [Hx Hl]%app_eq_nil y [->|Hy]%elem_of_cons; [done|]. by apply IH.
  - intros Hall. rewrite (Hall x) by set_solver. apply IH. set_solver.
Qed.

Lemma one_of_two {A} (l : list A) : NoDup l → (length l ≤ 1)%nat ↔ ∀ x y, x ∈ l → y ∈ l → x = y.
Proof.
  intros Hnd. split.
  - destruct l as [|a [|b l]]; cbn; [set_solver|set_solver|lia].
  - intros Hall. destruct l as [|a [|b l]]; cbn; [lia..|]. apply NoDup_cons in Hnd as [Hni _].
    destruct Hni. rewrite (Hall a b); set_solver.
Qed.

Lemma count_if_le_1 {A} (p : A → bool) (l : list A) :
  NoDup l → (count_if p l ≤ 1)%nat ↔ ∀ x y, x ∈ l → y ∈ l → p x = true → p y = true → x = y.
Proof.
  intros Hnd. unfold count_if. rewrite one_of_two.
  - setoid_rewrite list_elem_of_In. setoid_rewrite filter_In. naive_solver.
  - apply NoDup_ListNoDup, List.NoDup_filter. by apply NoDup_ListNoDup.
Qed.

Lemma if_nil {A} (b : bool) (x : A) : (if b then [x] else []) = [] ↔ b = false.
Proof. by destruct b. Qed.

Lemma elem_of_report {A} (b : bool) (x y : A) : x ∈ (if b then [y] else []) → x = y.
Proof. destruct b; [apply list_elem_of_singleton|by intros ?%elem_of_nil]. Qed.

(** ** JSON views *)

Section json.
Context {Value : Type} (json : OracleJson Value).

(** A value is an object with these members, in the order of their keys. *)
Definition is_map {A} (P : Value → A → Prop) (v : Value) (m : gmap string A) : Prop :=
  ∃ l, as_object json v = Some l ∧ Forall2 (λ x e, x.1 = e.1 ∧ P x.2 e.2) l (entries m).

Definition is_string (v : Value) (s : string) : Prop := as_str json v = Some s.

Definition represents (v : Value) (m : view_map) : Prop := is_map (is_map (is_map is_string)) v m.

Lemma is_map_entries {A} (P : Value → A → Prop) v (m : gmap string A) :
  is_map P v m → Forall2 (λ x e, x.1 = e.1 ∧ P x.2 e.2) (object_entries json v) (entries m).
Proof. intros (l & Hl & HF). unfold object_entries. by rewrite Hl. Qed.

(** A loop over the members of an object. *)
Lemma is_map_bind_nil {A B} (P : Value → A → Prop) v (m : gmap string A) (f : string * Value → list B) (Q : string → A → Prop) :
  is_map P v m → (∀ k x a, P x a → f (k, x) = [] ↔ Q k a) →
  (object_entries json v ≫= f) = [] ↔ ∀ k a, m !! k = Some a → Q k a.
Proof.
  intros HF%is_map_entries Hf. rewrite bind_nil.
  assert (∀ k a, m !! k = Some a ↔ (k, a) ∈ entries m) as Hm by (intros; by rewrite elem_of_entries).
  setoid_rewrite Hm. clear Hm. induction HF as [|[k x] [k' a] l l' [E HP] _ IH]; [set_solver|].
  cbn [fst snd] in *. subst k'. pose proof (Hf k x a HP) as Hx. split.
  - intros Hall k1 a1 [[= -> ->]|Hin]%elem_of_cons; [apply Hx, Hall; left|]. apply IH; [|done]. intros y Hy. apply Hall. by right.
  - intros Hall y [->|Hy]%elem_of_cons; [apply Hx, Hall; left|]. apply IH; [|done]. intros k1 a1 H1. apply Hall. by right.
Qed.

(** Counting the members of an object. *)
Lemma is_map_count {A} (P : Value → A → Prop) v (m : gmap string A) (f : string * Value → bool) (g : string * A → bool) :
  is_map P v m → (∀ k x a, P x a → f (k, x) = g (k, a)) →
  count_if f (object_entries json v) = count_if g (entries m).
Proof.
  intros HF%is_map_entries Hf. unfold count_if. induction HF as [|[k x] [k' a] l l' [E HP] _ IH]; [done|].
  cbn [fst snd] in *. subst k'. cbn [List.filter]. rewrite (Hf k x a HP). destruct (g (k, a)); cbn [length]; by rewrite IH.
Qed.
End json.

(** ** Safety *)

Section safety.
Context {Value : Type} (json : OracleJson Value) (debug_strings : list string → string).

(** [instance] reports that it leads a partition. *)
Definition leads (snapshot : ClusterSnapshot Value) (instance resource partition : string) : Prop :=
  ∃ current, obs_active_current_state snapshot !! instance = Some current ∧
    (obs_resources current !! resource ≫= (.!! partition)) = Some "LEADER".

(** What a safe snapshot is, with the view that its value represents. *)
Record safe (snapshot : ClusterSnapshot Value) (view : view_map) : Prop := {
  safe_controllers : (length (members_active (obs_controllers snapshot)) ≤ 1)%nat;
  safe_sessions : ∀ instance current, obs_active_current_state snapshot !! instance = Some current →
    obs_live snapshot !! instance = Some (obs_session current);
  safe_leaders : ∀ resource partition i1 i2,
    leads snapshot i1 resource partition → leads snapshot i2 resource partition → i1 = i2;
  safe_pending : is_caught_up snapshot = true → ∀ transition, transition ∈ obs_pending snapshot →
    obs_live snapshot !! pub_instance transition = Some (pub_target_session transition);
  safe_view : ∀ resource partitions partition states i1 i2,
    view !! resource = Some partitions → partitions !! partition = Some states →
    states !! i1 = Some "LEADER" → states !! i2 = Some "LEADER" →
    is_Some (obs_live snapshot !! i1) → is_Some (obs_live snapshot !! i2) → i1 = i2
}.

Lemma elem_of_leader_reports (snapshot : ClusterSnapshot Value) r p i :
  ((r, p), i) ∈ leader_reports snapshot ↔ leads snapshot i r p.
Proof.
  unfold leader_reports, leads. rewrite list_elem_of_bind. split.
  - intros ([i' cur] & ([r' ps] & ([p' st] & Hst & Hp%elem_of_entries)%list_elem_of_bind & Hr%elem_of_entries)%list_elem_of_bind & Hi%elem_of_entries).
    destruct (String.eqb_spec st "LEADER") as [E|]; [|by apply elem_of_nil in Hst].
    apply list_elem_of_singleton in Hst as [= -> -> ->]. exists cur. split; [done|]. rewrite Hr. cbn. by rewrite Hp, E.
  - intros (cur & Hi & Hl). destruct (obs_resources cur !! r) as [ps|] eqn:Hr; [|done]. cbn in Hl.
    exists (i, cur). split; [|by apply elem_of_entries]. apply list_elem_of_bind. exists (r, ps).
    split; [|by apply elem_of_entries]. apply list_elem_of_bind. exists (p, "LEADER").
    split; [by apply list_elem_of_singleton|by apply elem_of_entries].
Qed.

Lemma NoDup_leader_reports (snapshot : ClusterSnapshot Value) : NoDup (leader_reports snapshot).
Proof.
  apply NoDup_bind; [| |apply NoDup_entries].
  - intros [i1 c1] [i2 c2] [[r p] i] H1%elem_of_entries H2%elem_of_entries
      ([r1 ps1] & ([p1 s1] & Hs1 & _)%list_elem_of_bind & _)%list_elem_of_bind ([r2 ps2] & ([p2 s2] & Hs2 & _)%list_elem_of_bind & _)%list_elem_of_bind.
    apply elem_of_report in Hs1, Hs2. by simplify_eq.
  - intros [i1 c1] _. apply NoDup_bind; [| |apply NoDup_entries].
    + intros [r1 ps1] [r2 ps2] [[r p] i] H1%elem_of_entries H2%elem_of_entries
        ([p1 s1] & Hs1 & _)%list_elem_of_bind ([p2 s2] & Hs2 & _)%list_elem_of_bind.
      apply elem_of_report in Hs1, Hs2. by simplify_eq.
    + intros [r1 ps1] _. apply NoDup_bind; [| |apply NoDup_entries].
      * intros [p1 s1] [p2 s2] [[r p] i] H1%elem_of_entries H2%elem_of_entries Hs1 Hs2.
        apply elem_of_report in Hs1, Hs2. by simplify_eq.
      * intros [p1 s1] _. destruct (String.eqb s1 _); [apply NoDup_singleton|constructor].
Qed.

Lemma sessions_nil (snapshot : ClusterSnapshot Value) :
  (∀ x, x ∈ entries (obs_active_current_state snapshot) → session_violations snapshot x = []) ↔
  ∀ instance current, obs_active_current_state snapshot !! instance = Some current →
    obs_live snapshot !! instance = Some (obs_session current).
Proof.
  split.
  - intros Hall i cur Hi. specialize (Hall (i, cur) ltac:(by apply elem_of_entries)). cbn [session_violations] in Hall.
    destruct (obs_live snapshot !! i) as [session|]; [|done]. case_match eqn:E; [|done]. by apply N.eqb_eq in E as ->.
  - intros Hall [i cur] Hi%elem_of_entries. cbn [session_violations]. by rewrite (Hall _ _ Hi), N.eqb_refl.
Qed.

Lemma pending_nil (snapshot : ClusterSnapshot Value) :
  (if is_caught_up snapshot then obs_pending snapshot ≫= pending_violations snapshot else []) = [] ↔
  (is_caught_up snapshot = true → ∀ transition, transition ∈ obs_pending snapshot →
     obs_live snapshot !! pub_instance transition = Some (pub_target_session transition)).
Proof.
  destruct (is_caught_up snapshot); [|done]. rewrite bind_nil. unfold pending_violations. split.
  - intros Hall _ tr Htr. specialize (Hall tr Htr). by case_bool_decide.
  - intros Hall tr Htr. by rewrite bool_decide_eq_true_2 by auto.
Qed.

Lemma leaders_nil (snapshot : ClusterSnapshot Value) :
  (entries (current_state_leaders snapshot) ≫= leader_violations debug_strings snapshot) = [] ↔
  ∀ r p i1 i2, leads snapshot i1 r p → leads snapshot i2 r p → i1 = i2.
Proof.
  rewrite bind_nil.
  assert (∀ k, NoDup (filter (λ v, v.1 = k) (leader_reports snapshot)).*2) as Hnd.
  { intros k. apply NoDup_fmap_2_strong; [|by apply NoDup_filter, NoDup_leader_reports].
    intros [k1 i1] [k2 i2] [E1 _]%list_elem_of_filter [E2 _]%list_elem_of_filter. cbn in *. congruence. }
  split.
  - intros Hall r p i1 i2 H1%elem_of_leader_reports H2%elem_of_leader_reports.
    set (vs := filter (λ v, v.1 = (r, p)) (leader_reports snapshot)).
    assert (current_state_leaders snapshot !! (r, p) = Some vs.*2) as Hvs.
    { unfold current_state_leaders. rewrite lookup_fmap, group_by_lookup. fold vs.
      destruct vs eqn:E; [|done]. assert ((r, p, i1) ∈ vs) as Hin by (by apply list_elem_of_filter).
      rewrite E in Hin. by apply elem_of_nil in Hin. }
    specialize (Hall ((r, p), vs.*2) ltac:(by apply elem_of_entries)). cbn [leader_violations] in Hall.
    apply if_nil, Nat.ltb_ge in Hall. apply (one_of_two vs.*2 (Hnd (r, p))); [done|..];
      apply list_elem_of_fmap; [exists (r, p, i1)|exists (r, p, i2)]; (split; [done|]); by apply list_elem_of_filter.
  - intros Hone [[r p] vs] Hvs%elem_of_entries. unfold current_state_leaders in Hvs.
    rewrite lookup_fmap_Some in Hvs. destruct Hvs as (reports & <- & [-> _]%group_by_Some).
    cbn [leader_violations]. apply if_nil, Nat.ltb_ge, one_of_two; [apply Hnd|].
    intros x y Hx Hy. apply list_elem_of_fmap in Hx as ([k1 i1] & -> & [E1 H1]%list_elem_of_filter).
    apply list_elem_of_fmap in Hy as ([k2 i2] & -> & [E2 H2]%list_elem_of_filter). cbn in *. subst.
    apply elem_of_leader_reports in H1, H2. eauto.
Qed.

Lemma view_nil (snapshot : ClusterSnapshot Value) r p v (states : gmap string string) :
  is_map json (is_string json) v states →
  view_violations json snapshot r (p, v) = [] ↔
  ∀ i1 i2, states !! i1 = Some "LEADER" → states !! i2 = Some "LEADER" →
    is_Some (obs_live snapshot !! i1) → is_Some (obs_live snapshot !! i2) → i1 = i2.
Proof.
  intros Hv. cbn [view_violations]. rewrite if_nil, Nat.ltb_ge.
  rewrite (is_map_count json (is_string json) v states _
    (λ e, bool_decide (e.2 = "LEADER") && bool_decide (is_Some (obs_live snapshot !! e.1))) Hv).
  2: { intros k x s Hs. unfold is_live_leader. cbn [fst snd]. unfold is_string in Hs. rewrite Hs. f_equal.
       apply bool_decide_ext. naive_solver. }
  rewrite count_if_le_1 by apply NoDup_entries. split.
  - intros Hall i1 i2 H1 H2 L1 L2.
    assert ((i1, "LEADER") = (i2, "LEADER")) as [= ->]; [|done]. apply Hall; rewrite ?elem_of_entries; [done..| |];
      cbn [fst snd]; rewrite !bool_decide_eq_true_2; done.
  - intros Hone [i1 s1] [i2 s2] H1%elem_of_entries H2%elem_of_entries. cbn [fst snd].
    rewrite !andb_true_iff, !bool_decide_eq_true. intros [-> L1] [-> L2]. f_equal. eauto.
Qed.
End safety.

(** C25: the safety check reports nothing exactly on the safe snapshots: at most one
    active controller; every active current state belongs to the live session of its
    instance; at most one instance reports LEADER for a partition; once the controller
    has caught up, no pending transition targets a stale session; and the external view
    shows at most one live leader per partition. *)
Theorem check_safety_exact {Value} (json : OracleJson Value) debug_strings (snapshot : ClusterSnapshot Value) view :
  represents json (obs_external_view snapshot) view →
  check_safety json debug_strings snapshot = [] ↔ safe snapshot view.
Proof.
  intros Hview. unfold check_safety. rewrite !app_nil, leaders_nil, bind_nil.
  rewrite (is_map_bind_nil json (is_map json (is_map json (is_string json))) _ view _
    (λ r partitions, ∀ p states, partitions !! p = Some states → ∀ i1 i2, states !! i1 = Some "LEADER" → states !! i2 = Some "LEADER" →
      is_Some (obs_live snapshot !! i1) → is_Some (obs_live snapshot !! i2) → i1 = i2) Hview).
  2: { intros r v partitions Hv. by apply (is_map_bind_nil json _ _ _ _ _ Hv), view_nil. }
  rewrite if_nil, Nat.ltb_ge, sessions_nil, pending_nil. split.
  - intros (? & ? & ? & ? & Hv). split; eauto.
  - intros [? ? ? ? Hv]. split_and!; eauto.
Qed.

(** ** Convergence *)

Definition view_get (m : view_map) (resource partition : string) : option (gmap string string) :=
  m !! resource ≫= (.!! partition).

Lemma view_get_insert m r p states r' p' :
  view_get (insert_states m r p states) r' p' =
  if bool_decide (r' = r ∧ p' = p)
  then Some (foldl (λ output '(instance, state), <[instance := state]> output) (default ∅ (view_get m r p)) states)
  else view_get m r' p'.
Proof.
  unfold view_get, insert_states. destruct (decide (r' = r)) as [->|Hr].
  - rewrite lookup_insert_eq. cbn. destruct (decide (p' = p)) as [->|Hp].
    + rewrite lookup_insert_eq, bool_decide_eq_true_2 by done. by destruct (m !! r).
    + rewrite lookup_insert_ne, bool_decide_eq_false_2 by naive_solver. destruct (m !! r); [done|]. apply (lookup_empty (M := gmap string)).
  - by rewrite lookup_insert_ne, bool_decide_eq_false_2 by naive_solver.
Qed.

(** What the loop over a placement leaves in the view. *)
Definition add_best (name : string) (m : view_map) (l : list (PartitionId * gmap InstanceId State)) : view_map :=
  foldl (λ m '(partition, instances), insert_states m name (partition_str partition) (named_states instances)) m l.

Lemma add_best_other name m l r p : r ≠ name → view_get (add_best name m l) r p = view_get m r p.
Proof.
  intros Hr. unfold add_best. revert m. induction l as [|[P insts] l IH]; intros m; [done|]. cbn [foldl].
  rewrite IH, view_get_insert. by rewrite bool_decide_eq_false_2 by naive_solver.
Qed.

Lemma add_best_same name m l p :
  NoDup l.*1 →
  view_get (add_best name m l) name p =
  match (list_to_map l : gmap PartitionId (gmap InstanceId State)) !! MkPartitionId p with
  | Some insts =>
      Some (foldl (λ output '(instance, state), <[instance := state]> output) (default ∅ (view_get m name p)) (named_states insts))
  | None => view_get m name p
  end.
Proof.
  unfold add_best. revert m. induction l as [|[P insts] l IH]; intros m Hnd; [done|].
  cbn [fmap list_fmap fst] in Hnd. apply NoDup_cons in Hnd as [HP Hnd].
  cbn [foldl list_to_map foldr]. rewrite IH by done. rewrite view_get_insert. cbn [list_to_map uncurry]. clear IH.
  destruct (decide (P = MkPartitionId p)) as [->|Hne].
  - rewrite lookup_insert_eq, not_elem_of_list_to_map_1 by done. cbn [partition_str].
    by rewrite bool_decide_eq_true_2 by done.
  - rewrite lookup_insert_ne by done. rewrite bool_decide_eq_false_2; [done|].
    intros [_ E]. apply Hne. destruct P. cbn in E. by subst.
Qed.

(** The names of the instances are distinct. *)
Lemma NoDup_named_states (insts : gmap InstanceId State) : NoDup (named_states insts).*1.
Proof.
  unfold named_states. rewrite <- list_fmap_compose. rewrite (list_fmap_ext _ (instance_str ∘ fst)) by (by intros ? []).
  rewrite list_fmap_compose. apply NoDup_fmap_2; [by intros [] [] [=->]|]. apply NoDup_map_keys.
Qed.

Definition named_view (insts : gmap InstanceId State) : gmap string string := kmap instance_str (state_str <$> insts).

Lemma named_states_map (insts : gmap InstanceId State) :
  foldl (λ output '(instance, state), <[instance := state]> output) (∅ : gmap string string) (named_states insts) = named_view insts.
Proof.
  unfold named_view.
  assert (Inj (=) (=) instance_str) as Hinj by (intros [] []; cbn; congruence).
  rewrite (foldl_ext _ (λ m p, <[p.1 := p.2]> m)) by (by intros ? [??]).
  apply map_eq. intros i. rewrite foldl_insert_lookup.
  - rewrite lookup_empty. apply option_eq. intros s. rewrite lookup_kmap_Some by done.
    setoid_rewrite lookup_fmap_Some. split.
    + case_match eqn:E; [|done]. intros [= ->]. apply elem_of_list_to_map_2 in E.
      apply list_elem_of_fmap in E as ([j st] & [= -> ->] & Hj%elem_of_entries). eauto.
    + intros (j & -> & st & <- & Hj). rewrite (elem_of_list_to_map_1 _ (instance_str j) (state_str st)); [done| |].
      * apply NoDup_named_states.
      * apply list_elem_of_fmap. exists (j, st). split; [done|]. by apply elem_of_entries.
  - apply NoDup_named_states.
Qed.

Section convergence.
Context {Value : Type} (debug_str : string → string).
Context (powf : SpecFloat.spec_float → SpecFloat.spec_float → SpecFloat.spec_float) (crush_fuel : nat).
Context (config : ClusterConfig) (snapshot : ClusterSnapshot Value) (live : gset InstanceId).

Lemma expected_fold m (rs : list ResourceConfig) m' resource :
  try_fold (expected_step debug_str powf crush_fuel config live) m rs = Ok m' →
  NoDup (rc_name <$> rs) → resource ∈ rs → (∀ p, view_get m (rc_name resource) p = None) →
  ∃ ideal best, expected_ideal debug_str powf crush_fuel config live resource = Ok ideal ∧
    best_of live resource ideal = Ok best ∧
    ∀ p, view_get m' (rc_name resource) p =
      named_view <$> BestPossibleState_entries best !! MkPartitionId p.
Proof.
  assert (∀ rs m, try_fold (expected_step debug_str powf crush_fuel config live) m rs = Ok m' →
    rc_name resource ∉ rc_name <$> rs → ∀ p, view_get m' (rc_name resource) p = view_get m (rc_name resource) p) as Hrest.
  { clear. induction rs as [|r rs IH]; intros m Hfold Hni p; [by injection Hfold as ->|]. cbn [try_fold] in Hfold.
    unfold expected_step in Hfold at 1. destruct (expected_ideal _ _ _ _ _ r) as [ideal|]; [|done].
    destruct (best_of live r ideal) as [best|]; [|done]. cbn [fmap list_fmap] in Hni.
    rewrite (IH _ Hfold) by set_solver. apply add_best_other. set_solver. }
  revert m. induction rs as [|r rs IH]; intros m Hfold Hnd Hin Hfresh; [by apply elem_of_nil in Hin|].
  cbn [try_fold] in Hfold. unfold expected_step in Hfold at 1.
  destruct (expected_ideal _ _ _ _ _ r) as [ideal|] eqn:Ei; [|done].
  destruct (best_of live r ideal) as [best|] eqn:Eb; [|done]. cbn [fmap list_fmap] in Hnd. apply NoDup_cons in Hnd as [Hni Hnd].
  destruct (decide (rc_name r = rc_name resource)) as [E|Hne].
  - assert (r = resource) as ->.
    { apply elem_of_cons in Hin as [->|Hin]; [done|]. destruct Hni. rewrite E. by apply list_elem_of_fmap_2. }
    exists ideal, best. split_and!; [done..|]. intros p. rewrite (Hrest _ _ Hfold) by done.
    etrans; [apply add_best_same, NoDup_map_keys|]. rewrite Hfresh. cbn [default].
    rewrite (list_to_map_proper (entries _) (map_to_list (BestPossibleState_entries best))), list_to_map_to_list;
      [|apply NoDup_map_keys|apply entries_perm].
    destruct (BestPossibleState_entries best !! MkPartitionId p); [|done]. cbn. f_equal. apply named_states_map.
  - apply (IH _ Hfold Hnd); [set_solver|]. intros p. etrans; [apply add_best_other|]; [congruence|done].
Qed.

Definition configured_entry (e : string * list string) : PartitionId * list InstanceId :=
  (MkPartitionId e.1, MkInstanceId <$> e.2).

Lemma NoDup_configured (lists : gmap string (list string)) : NoDup (configured_entry <$> entries lists).*1.
Proof.
  rewrite <- list_fmap_compose. rewrite (list_fmap_ext _ (MkPartitionId ∘ fst)) by (by intros ? []).
  rewrite list_fmap_compose. apply NoDup_fmap_2; [by intros ?? [=->]|]. apply NoDup_map_keys.
Qed.

(** The preference lists of a SEMI_AUTO resource are those of its configuration. *)
Lemma semi_auto_expected_lists resource_id partitions resource lists L :
  rc_placement resource = ConfigSemiAuto lists →
  expected_lists debug_str powf crush_fuel config live resource_id partitions resource = Ok L →
  ∀ p, L !! MkPartitionId p = (λ l : list string, MkInstanceId <$> l) <$> lists !! p.
Proof.
  intros Hp. unfold expected_lists. rewrite Hp. destruct (collect_results _ _) as [pairs|] eqn:E; [|done]. intros [= <-].
  assert (pairs = configured_entry <$> entries lists) as ->.
  { apply collect_results_ok in E. induction E as [|[p l] [P L] es pairs Hx _ IH]; [done|]. cbn [fmap list_fmap fst snd]. f_equal; [|done].
    unfold configured_list, partition_of, or_detail in Hx. cbn [fst snd] in Hx.
    destruct (PartitionId_new p) as [P'|] eqn:EP; [|done]. apply PartitionId_new_ok in EP as [_ ->]. cbn [map_err] in Hx.
    destruct (collect_results _ l) as [ids|] eqn:El; [|done]. injection Hx as <- <-. f_equal. symmetry.
    unfold configured_entry. cbn [fst snd]. f_equal.
    apply collect_results_ok in El. clear -El. induction El as [|i j l ids Hi _ IH]; [done|]. cbn [fmap list_fmap]. rewrite IH. f_equal.
    unfold instance_of, or_detail in Hi. destruct (InstanceId_new i) as [i'|] eqn:Ei; [|done].
    apply InstanceId_new_ok in Ei as [_ ->]. by injection Hi. }
  intros p. clear E. unfold btree_collect. rewrite foldl_insert_lookup.
  - rewrite lookup_empty. destruct (lists !! p) as [l|] eqn:El; cbn.
    + rewrite (elem_of_list_to_map_1 _ _ (MkInstanceId <$> l)); [done|apply NoDup_configured|].
      apply list_elem_of_fmap. exists (p, l). split; [done|]. by apply elem_of_entries.
    + rewrite not_elem_of_list_to_map_1; [done|]. rewrite <- list_fmap_compose.
      intros ([q l] & E & Hq%elem_of_entries)%list_elem_of_fmap. cbn in E. injection E as ->. congruence.
  - apply NoDup_configured.
Qed.

Lemma builder_fold context l b b' :
  try_fold (λ builder '(partition, instances),
    or_detail display_ideal_state_error context (set_preference_list builder partition instances)) b l = Ok b' →
  isb_preference_lists b' = foldl (λ m p, <[p.1 := p.2]> m) (isb_preference_lists b) l ∧
  ∀ r n, ideal_reachable r n b → ideal_reachable r n b'.
Proof.
  revert b. induction l as [|[P L] l IH]; intros b Hb; [by injection Hb as ->|]. cbn [try_fold] in Hb.
  destruct (set_preference_list b P L) as [b1|e] eqn:E; cbn [or_detail map_err] in Hb; [|done].
  destruct (IH b1 Hb) as [Hl Hr]. pose proof E as (_ & _ & _ & ->)%set_preference_list_ok. split; [done|].
  intros r n Hre. apply Hr. by eapply ideal_add.
Qed.

Lemma semi_auto_ideal resource lists ideal :
  rc_placement resource = ConfigSemiAuto lists → expected_ideal debug_str powf crush_fuel config live resource = Ok ideal →
  ∀ p, preference_list ideal (MkPartitionId p) = (λ l : list string, MkInstanceId <$> l) <$> lists !! p ∧
    ∀ l, lists !! p = Some l → NoDup l ∧ len l = rc_replicas resource.
Proof.
  intros Hp. unfold expected_ideal. destruct (ResourceId_new (rc_name resource)) as [rid|]; cbn [or_detail map_err]; [|done].
  destruct (collect_results _ _) as [partitions|]; [|done].
  destruct (expected_lists _ _ _ _ _ _ _ _) as [L|] eqn:EL; [|done].
  pose proof (semi_auto_expected_lists _ _ _ _ _ Hp EL) as HL.
  destruct (try_fold _ _ _) as [b|] eqn:Eb; [|done]. destruct (builder_fold _ _ _ _ Eb) as [Hlists Hreach].
  cbn [IdealState_builder isb_preference_lists] in Hlists. rewrite foldl_insert_entries in Hlists.
  specialize (Hreach _ _ (ideal_start _ _)). unfold IdealStateBuilder_build. case_bool_decide; [done|]. cbn [or_detail map_err].
  intros [= <-] p. unfold preference_list. cbn [preference_lists]. rewrite Hlists. split; [apply HL|].
  intros l Hl. apply ideal_reachable_inv in Hreach as (_ & _ & Hall). rewrite Hlists in Hall.
  specialize (HL p). rewrite Hl in HL. cbn in HL. destruct (Hall _ _ HL) as [Hnd Hlen]. split.
  - by eapply NoDup_fmap_1.
  - unfold len in *. rewrite length_fmap in Hlen. unfold expected_replicas in Hlen. by rewrite Hp in Hlen.
Qed.

Lemma live_ids_spec name : live_ids snapshot = Ok live → MkInstanceId name ∈ live ↔ is_live (obs_live snapshot) name = true.
Proof.
  unfold live_ids. destruct (collect_results _ _) as [ids|] eqn:E; [|done]. intros [= <-].
  rewrite elem_of_list_to_set. unfold is_live. rewrite bool_decide_eq_true, <- elem_of_map_keys.
  apply collect_results_ok in E. induction E as [|k j ks ids Hk _ IH]; [set_solver|].
  assert (j = MkInstanceId k) as ->.
  { unfold instance_of, or_detail in Hk. destruct (InstanceId_new k) as [k'|] eqn:Ek; [|done].
    apply InstanceId_new_ok in Ek as [_ ->]. by injection Hk. }
  rewrite !elem_of_cons, IH. naive_solver.
Qed.
End convergence.

(** *** Counts *)

Lemma count_if_pos {A} (p : A → bool) (l : list A) x : x ∈ l → p x = true → (0 < count_if p l)%nat.
Proof.
  intros Hx Hp. unfold count_if. destruct (List.filter p l) eqn:E; [|cbn; lia].
  assert (In x (List.filter p l)) as Hin by (apply filter_In; split; [by apply list_elem_of_In|done]). by rewrite E in Hin.
Qed.

Lemma count_if_fmap {A B} (p : B → bool) (f : A → B) (l : list A) : count_if p (f <$> l) = count_if (λ x, p (f x)) l.
Proof. unfold count_if. induction l as [|x l IH]; [done|]. cbn. destruct (p (f x)); cbn; by rewrite IH. Qed.

Lemma size_placed_names (live : gset InstanceId) (f : string → bool) (l : list string) :
  NoDup l → (∀ name, MkInstanceId name ∈ live ↔ f name = true) →
  size (placed live (MkInstanceId <$> l)) = count_if f l.
Proof.
  intros Hnd Hf. unfold placed. rewrite size_list_to_set.
  - unfold active_instances, count_if. clear Hnd. induction l as [|x l IH]; [done|]. cbn [fmap list_fmap List.filter].
    pose proof (Hf x) as Hx. case_bool_decide as E; destruct (f x); cbn [length]; naive_solver.
  - apply NoDup_ListNoDup, List.NoDup_filter, NoDup_ListNoDup, NoDup_fmap_2; [by intros ?? [=->]|done].
Qed.

(** *** A settled partition *)

(** The replicas of a partition in the placement computed from an empty current state. *)
Lemma best_partition ideal live best P pref :
  compute_semi_auto_best_possible_state ideal CurrentState_default live leader_standby = Ok best →
  preference_list ideal P = Some pref →
  let insts := default ∅ (BestPossibleState_entries best !! P) in
  dom insts = placed live pref ∧
  (placed live pref ≠ ∅ → ∃ i, insts !! i = Some LEADER ∧ ∀ j, insts !! j = Some LEADER → j = i).
Proof.
  intros Hbest Hpref insts. destruct (compute_spec ideal CurrentState_default live leader_standby) as (best' & Hb & Hspec & _).
  rewrite Hbest in Hb. injection Hb as <-. specialize (Hspec P pref Hpref).
  assert (∀ i, BestPossibleState_state best P i = insts !! i) as Hget.
  { intros i. unfold BestPossibleState_state, ReplicaStates_get, insts, BestPossibleState_entries.
    destruct (states (best_replicas best) !! P); [done|]. cbn. symmetry. apply lookup_empty. }
  destruct (leader_standby_partition _ _ _ _ Hspec) as [Hin Hone].
  assert (∀ i, i ∉ placed live pref → insts !! i = None) as Hout.
  { intros i Hi. rewrite <- Hget. destruct (decide (i ∈ pref)) as [Hp|Hp].
    - apply (ps_dead _ _ _ _ _ Hspec); [done|]. intros Hl. apply Hi. by apply elem_of_placed.
    - rewrite (ps_unplaced _ _ _ _ _ Hspec) by done. by rewrite bool_decide_eq_false_2 by (intros [? [=]]). }
  split.
  - apply set_eq. intros i. rewrite elem_of_dom. split.
    + intros [s Hs]. destruct (decide (i ∈ placed live pref)) as [|Hn]; [done|]. by rewrite (Hout i Hn) in Hs.
    + intros Hi. destruct Hone as (k & Hk & HL & HS); [set_solver|]. destruct (decide (i = k)) as [->|Hne].
      * rewrite <- Hget, HL. by eexists.
      * rewrite <- Hget, (HS i Hi Hne). by eexists.
  - intros Hne. destruct (Hone Hne) as (k & Hk & HL & HS). exists k. split; [by rewrite <- Hget|].
    intros j Hj. rewrite <- Hget in Hj. destruct (decide (j = k)) as [|Hjk]; [done|].
    rewrite (HS j (Hin j Hj) Hjk) in Hj. done.
Qed.

Lemma best_unplaced ideal live best P :
  compute_semi_auto_best_possible_state ideal CurrentState_default live leader_standby = Ok best →
  preference_list ideal P = None → default ∅ (BestPossibleState_entries best !! P) = ∅.
Proof.
  intros Hbest Hpref. destruct (compute_spec ideal CurrentState_default live leader_standby) as (best' & Hb & _ & Hnone).
  rewrite Hbest in Hb. injection Hb as <-. unfold BestPossibleState_entries.
  destruct (states (best_replicas best) !! P) as [insts|] eqn:E; [|done]. cbn. apply map_empty. intros i.
  specialize (Hnone P i Hpref). unfold BestPossibleState_state, ReplicaStates_get in Hnone. rewrite E in Hnone. cbn in Hnone.
  rewrite Hnone. by rewrite bool_decide_eq_false_2 by (intros [? [=]]).
Qed.

Lemma size_named_view insts : size (named_view insts) = size insts.
Proof.
  assert (Inj (=) (=) instance_str) as Hinj by (intros [] []; cbn; congruence). unfold named_view.
  induction insts as [|i s m Hm IH] using map_ind; [by rewrite fmap_empty, kmap_empty|].
  rewrite fmap_insert, kmap_insert by done. rewrite !map_size_insert, Hm, lookup_kmap, lookup_fmap, Hm by done.
  cbn. by rewrite IH.
Qed.

Lemma leaders_named insts i :
  insts !! i = Some LEADER → (∀ j, insts !! j = Some LEADER → j = i) →
  count_if (String.eqb "LEADER") (map_values (named_view insts)) = 1%nat.
Proof.
  intros Hi Huniq. assert (Inj (=) (=) instance_str) as Hinj by (intros [] []; cbn; congruence).
  unfold map_values. rewrite count_if_fmap. apply Nat.le_antisymm.
  - apply count_if_le_1; [apply NoDup_entries|]. intros [a s] [b u] Ha%elem_of_entries Hb%elem_of_entries. cbn [fst snd].
    intros <-%String.eqb_eq <-%String.eqb_eq. unfold named_view in Ha, Hb.
    apply lookup_kmap_Some in Ha as (a' & -> & Ha), Hb as (b' & -> & Hb); [|done..].
    apply lookup_fmap_Some in Ha as ([] & E1 & Ha), Hb as ([] & E2 & Hb). cbn in E1, E2. subst.
    by rewrite (Huniq a' Ha), (Huniq b' Hb).
  - apply (count_if_pos _ _ (instance_str i, "LEADER")); [|done]. apply elem_of_entries. unfold named_view.
    rewrite lookup_kmap by done. by rewrite lookup_fmap, Hi.
Qed.

(** The convergence check does not contradict itself: where a resource has
    configured preference lists, a view that is the expected placement has in every
    partition the number of replicas the check asks for, and exactly one leader where
    it asks for any. *)
Theorem settled_follows {Value} debug_str powf crush_fuel config (snapshot : ClusterSnapshot Value) expected resource lists partition :
  expected_states debug_str powf crush_fuel config snapshot = Ok expected →
  NoDup (rc_name <$> cc_resources config) → resource ∈ cc_resources config →
  rc_placement resource = ConfigSemiAuto lists →
  partition_violations config snapshot expected resource partition = [].
Proof.
  unfold expected_states. destruct (live_ids snapshot) as [live|] eqn:Hlive; [|done]. intros Hexp Hnd Hin Hplace.
  destruct (expected_fold debug_str powf crush_fuel config live ∅ _ _ _ Hexp Hnd Hin) as (ideal & best & Hi & Hb & Hview);
    [intros p; unfold view_get; by rewrite lookup_empty|].
  destruct (semi_auto_ideal debug_str powf crush_fuel config live _ _ _ Hplace Hi partition) as [Hpref Hlist].
  assert (compute_semi_auto_best_possible_state ideal CurrentState_default live leader_standby = Ok best) as Hbest.
  { unfold best_of, or_stop in Hb. by repeat case_match; simplify_eq. }
  assert (∀ name, MkInstanceId name ∈ live ↔ is_live (obs_live snapshot) name = true) as Hls by (intros name; by eapply live_ids_spec).
  set (n := count_if (is_live (obs_live snapshot)) (default [] (lists !! partition))).
  set (insts := BestPossibleState_entries best !! MkPartitionId partition) in *.
  assert (size (default ∅ insts) = n ∧ (N.of_nat n ≤ rc_replicas resource)%N ∧
    ((0 < n)%nat → ∃ i, default ∅ insts !! i = Some LEADER ∧ ∀ j, default ∅ insts !! j = Some LEADER → j = i)) as (Hsize & Hle & Hone).
  { subst n insts. destruct (lists !! partition) as [l|] eqn:El; cbn [fmap option_fmap option_map from_option id] in Hpref |- *.
    - destruct (Hlist l eq_refl) as [Hl Hlen]. destruct (best_partition _ _ _ _ _ Hbest Hpref) as [Hdom Hlead].
      rewrite <- size_dom, Hdom. pose proof (size_placed_names live (is_live (obs_live snapshot)) l Hl Hls) as ->.
      split_and!; [done| |].
      + rewrite <- Hlen. unfold len, count_if. pose proof (List.filter_length_le (is_live (obs_live snapshot)) l). lia.
      + intros Hpos. apply Hlead. intros E. apply (f_equal size) in E. rewrite size_empty in E.
        rewrite (size_placed_names live (is_live (obs_live snapshot)) l Hl Hls) in E. lia.
    - rewrite (best_unplaced _ _ _ _ Hbest Hpref). cbn. split_and!; [apply map_size_empty|lia|lia]. }
  unfold partition_violations. change (expected !! rc_name resource ≫= (.!! partition)) with (view_get expected (rc_name resource) partition).
  rewrite Hview. fold insts. unfold eligible_live_count. rewrite Hplace. fold n. rewrite N.min_r by done.
  destruct insts as [insts|]; cbn [fmap option_fmap option_map default] in *.
  - change (id insts) with insts in *. rewrite size_named_view, Hsize, N.eqb_refl. cbn [app].
    destruct (N.ltb_spec 0 (N.of_nat n)); [|done]. destruct Hone as (i & Hi1 & Hi2); [lia|].
    by rewrite (leaders_named _ _ Hi1 Hi2).
  - rewrite map_size_empty in Hsize. by rewrite <- Hsize.
Qed.

(** ** Examples *)

Inductive ex_value :=
| ExString (text : string)
| ExObject (members : list (string * ex_value)).

Fixpoint ex_eqb (a b : ex_value) : bool :=
  match a, b with
  | ExString s, ExString s' => String.eqb s s'
  | ExObject l, ExObject l' =>
      (fix go l l' := match l, l' with
        | [], [] => true
        | (k, x) :: l, (k', x') :: l' => String.eqb k k' && ex_eqb x x' && go l l'
        | _, _ => false
        end) l l'
  | _, _ => false
  end.

Definition ex_object {A} (f : A → ex_value) (m : gmap string A) : ex_value :=
  ExObject ((λ e, (e.1, f e.2)) <$> entries m).

Definition ex_members {A} (f : ex_value → option A) (v : ex_value) : option (gmap string A) :=
  match v with
  | ExObject l => list_to_map <$> mapM (λ e, pair e.1 <$> f e.2) l
  | ExString _ => None
  end.

Definition ex_json : OracleJson ex_value :=
  MkOracleJson ex_value
    (λ v, match v with ExObject l => Some l | ExString _ => None end)
    (λ v, match v with ExString s => Some s | ExObject _ => None end)
    (ex_object (ex_object (ex_object ExString)))
    (λ v, match ex_members (ex_members (ex_members (λ v, match v with ExString s => Some s | _ => None end))) v with
          | Some m => Ok m | None => Err "invalid type" end)
    ex_eqb (λ _, "").

Definition ex_view : view_map := {["cache" := {["cache_0" := {["node-1" := "LEADER"]}]}]}.

(** [node-1] is live and leads [cache_0]; [node-2] is down. *)
Definition ex_snapshot : ClusterSnapshot ex_value :=
  MkClusterSnapshot 9 8 (Some 8%Z) (MkControllerMembership ["controller-a"] ["controller-b"])
    {["node-1" := 4%N]} {["node-1" := MkActiveObservation 4 {["cache" := {["cache_0" := "LEADER"]}]}]}
    (to_value ex_json ex_view) [] [MkRoutingResult "cache" "cache_0" "LEADER" ["node-1"]].

Lemma ex_represents : represents ex_json (obs_external_view ex_snapshot) ex_view.
Proof.
  eexists. split; [vm_compute; reflexivity|]. vm_compute. repeat constructor.
  eexists. split; [vm_compute; reflexivity|]. vm_compute. repeat constructor.
  eexists. split; [vm_compute; reflexivity|]. vm_compute. repeat constructor.
Qed.

Lemma check_safety_exact_witness : check_safety ex_json (λ _, "") ex_snapshot = [] ∧ safe ex_snapshot ex_view.
Proof.
  assert (check_safety ex_json (λ _, "") ex_snapshot = []) as Hc by (vm_compute; reflexivity).
  split; [exact Hc|]. exact (proj1 (check_safety_exact ex_json (λ _, "") ex_snapshot ex_view ex_represents) Hc).
Defined.

Definition ex_lists : gmap string (list string) := {["cache_0" := ["node-1"; "node-2"]]}.
Definition ex_resource : ResourceConfig := MkResourceConfig "cache" ["cache_0"] 2 (ConfigSemiAuto ex_lists).
Definition ex_config : ClusterConfig :=
  MkClusterConfig ["controller-a"] [MkParticipantConfig "node-1" "zone-1"; MkParticipantConfig "node-2" "zone-2"] [ex_resource] [].

Lemma ex_expected : expected_states id (λ x _, x) 100 ex_config ex_snapshot = Ok ex_view.
Proof. vm_compute. reflexivity. Qed.

(** The snapshot has converged. *)
Example ex_converged : check_convergence ex_json id (λ _, "") (λ x _, x) 100 ex_snapshot ex_config = Ok [].
Proof. vm_compute. reflexivity. Qed.

Lemma settled_follows_witness : partition_violations ex_config ex_snapshot ex_view ex_resource "cache_0" = [].
Proof.
  apply (settled_follows id (λ x _, x) 100 ex_config ex_snapshot ex_view ex_resource ex_lists "cache_0" ex_expected);
    [apply NoDup_singleton|left|reflexivity].
Defined.
