(* ===== verification/Supervisor.v ===== *)
(** * Processes of a chaos run

    Models [ProcessSupervisor] of [tools/clustodian-chaos/src/lib.rs]: the child
    processes it has started, the ones it expects to run, the ones it has suspended and
    the toxics it believes to be active, with every operation that changes them, and the
    assignment of proxy ports to processes.

    The operating system is a [Machine]: starting a process, asking whether it has
    exited, signals, the clock and the files.  JSON files are written whole by the
    machine. *)

From stdpp Require Import pretty.
From S2P Require Import Prelude Identity Keys Connection Observe Chaos.

(** ** The machine *)

Record Machine (OS : Type) := MkMachine {
  open_log : string → io OS unit;
  spawn : gmap string string → io OS N;
  try_wait : N → io OS (option unit);
  kill_child : N → io OS unit;
  wait_child : N → io OS unit;
  kill_command : string → N → io OS bool;
  clock : OS → N;
  sleep_for : N → OS → OS;
  file_exists : string → OS → bool;
  write_text : string → string → io OS unit;
  persist_ids : gmap string N → io OS unit;
  variable : string → OS → option string
}.
Arguments open_log {OS}. Arguments spawn {OS}. Arguments try_wait {OS}. Arguments kill_child {OS}.
Arguments wait_child {OS}. Arguments kill_command {OS}. Arguments clock {OS}. Arguments sleep_for {OS}.
Arguments file_exists {OS}. Arguments write_text {OS}. Arguments persist_ids {OS}. Arguments variable {OS}.

Inductive ProcessRole := RoleController | RoleParticipant.

(** The fields that never change. *)
Record SupervisorConfig := MkSupervisorConfig {
  work_directory : string;
  sup_cluster : string;
  sup_prefix : string;
  controller_endpoints : string;
  participant_endpoints : string;
  observer_endpoints : string;
  use_process_specific_endpoints : bool
}.

(** A child is known by its process id. *)
Record ProcessSupervisor := MkSupervisor {
  sup_controllers : gmap string N;
  sup_participants : gmap string N;
  expected_controllers : gset string;
  expected_participants : gset string;
  sup_observer : option N;
  suspended : gset string;
  active_toxics : gset string
}.

Definition set_controllers (m : gmap string N) (s : ProcessSupervisor) : ProcessSupervisor :=
  MkSupervisor m (sup_participants s) (expected_controllers s) (expected_participants s) (sup_observer s) (suspended s) (active_toxics s).
Definition set_participants (m : gmap string N) (s : ProcessSupervisor) : ProcessSupervisor :=
  MkSupervisor (sup_controllers s) m (expected_controllers s) (expected_participants s) (sup_observer s) (suspended s) (active_toxics s).
Definition expect_controllers (e : gset string) (s : ProcessSupervisor) : ProcessSupervisor :=
  MkSupervisor (sup_controllers s) (sup_participants s) e (expected_participants s) (sup_observer s) (suspended s) (active_toxics s).
Definition expect_participants (e : gset string) (s : ProcessSupervisor) : ProcessSupervisor :=
  MkSupervisor (sup_controllers s) (sup_participants s) (expected_controllers s) e (sup_observer s) (suspended s) (active_toxics s).
Definition set_observer (o : option N) (s : ProcessSupervisor) : ProcessSupervisor :=
  MkSupervisor (sup_controllers s) (sup_participants s) (expected_controllers s) (expected_participants s) o (suspended s) (active_toxics s).
Definition set_suspended (u : gset string) (s : ProcessSupervisor) : ProcessSupervisor :=
  MkSupervisor (sup_controllers s) (sup_participants s) (expected_controllers s) (expected_participants s) (sup_observer s) u (active_toxics s).
Definition set_toxics (t : gset string) (s : ProcessSupervisor) : ProcessSupervisor :=
  MkSupervisor (sup_controllers s) (sup_participants s) (expected_controllers s) (expected_participants s) (sup_observer s) (suspended s) t.

(** ** Ports and proxies *)

Definition u16_MAX : N := 65535.
Definition usize_MAX : N := 18446744073709551615.

Definition checked_add16 (a b : N) : option N := if (a + b <=? u16_MAX)%N then Some (a + b)%N else None.

(** [checked_mul(3)], then [u16::try_from]. *)
Definition tripled (index : N) : option N :=
  if (index * 3 <=? usize_MAX)%N then if (index * 3 <=? u16_MAX)%N then Some (index * 3)%N else None else None.

(** The slot and the first port of the range. *)
Definition port_slot (role : ProcessRole) (id : string) : option (N * N) :=
  match role with
  | RoleController =>
      suffix ← strip_prefix "controller-" id;
      match strip_prefix "a" suffix with
      | Some letter => if is_empty letter then Some (0, 12379)%N else None
      | None =>
          match suffix with
          | String c EmptyString =>
              let byte := Ascii.N_of_ascii c in
              if (97 <=? byte)%N && (byte <=? 122)%N then Some (byte - 97, 12379)%N
              else (λ index, (index, 12388%N)) <$> parse_unsigned usize_MAX suffix
          | _ => (λ index, (index, 12388%N)) <$> parse_unsigned usize_MAX suffix
          end
      end
  | RoleParticipant =>
      suffix ← strip_prefix "node-" id;
      index ← parse_unsigned usize_MAX suffix;
      Some (index, 13379%N)
  end.

Definition proxy_ports (role : ProcessRole) (id : string) : option (list N) :=
  '(index, base) ← port_slot role id;
  offset ← tripled index;
  start ← checked_add16 base offset;
  second ← checked_add16 start 1;
  third ← checked_add16 start 2;
  Some [start; second; third].

(** [split_once("://")] *)
Fixpoint split_scheme (s : string) : option (string * string) :=
  match strip_prefix "://" s with
  | Some rest => Some (EmptyString, rest)
  | None =>
      match s with
      | EmptyString => None
      | String c s => '(scheme, authority) ← split_scheme s; Some (String c scheme, authority)
      end
  end.

(** [rsplit_once(':')] and its first half. *)
Fixpoint before_last_colon (s : string) : option string :=
  match s with
  | EmptyString => None
  | String c s =>
      match before_last_colon s with
      | Some host => Some (String c host)
      | None => if (Ascii.N_of_ascii c =? 58)%N then Some EmptyString else None
      end
  end.

Definition endpoint_prefix (endpoint : string) : option string :=
  '(scheme, authority) ← split_scheme endpoint;
  host ← before_last_colon authority;
  Some (scheme +:+ "://" +:+ host).

(** [iter().find_map(f)] *)
Fixpoint find_map {A B} (f : A → option B) (l : list A) : option B :=
  match l with [] => None | x :: l => match f x with Some y => Some y | None => find_map f l end end.

(** [join(",")] *)
Fixpoint join_comma (l : list string) : string :=
  match l with [] => "" | [x] => x | x :: l => x +:+ "," +:+ join_comma l end.

Definition process_endpoints (config : SupervisorConfig) (endpoints : string) (role : ProcessRole) (id : string) : string :=
  if use_process_specific_endpoints config then
    match find_map endpoint_prefix (trim <$> split_comma endpoints) with
    | None => endpoints
    | Some prefix =>
        match proxy_ports role id with
        | None => endpoints
        | Some ports => join_comma ((λ port : N, prefix +:+ ":" +:+ pretty port) <$> ports)
        end
    end
  else endpoints.

Definition process_proxy_names (role : ProcessRole) (id : string) : list string :=
  (λ member : N, id +:+ "-etcd-" +:+ pretty member) <$> [1; 2; 3]%N.

Definition all_process_proxy_names (s : ProcessSupervisor) : list string :=
  (set_items (expected_controllers s) ≫= process_proxy_names RoleController)
  ++ (set_items (expected_participants s) ≫= process_proxy_names RoleParticipant).

Definition toxic_key (proxy name : string) : string := proxy +:+ "/" +:+ name.

Definition mark_toxic (proxy name : string) (active : bool) (s : ProcessSupervisor) : ProcessSupervisor :=
  let key := toxic_key proxy name in
  set_toxics (if active then active_toxics s ∪ {[key]} else active_toxics s ∖ {[key]}) s.

Definition all_processes_resumed (s : ProcessSupervisor) : bool := bool_decide (suspended s = ∅).
Definition has_active_toxics (s : ProcessSupervisor) : bool := negb (bool_decide (active_toxics s = ∅)).

Definition process_ids (s : ProcessSupervisor) : gmap string N :=
  let ids := foldl (λ ids '(id, pid), <["controller/" +:+ id := pid]> ids) (∅ : gmap string N) (entries (sup_controllers s)) in
  let ids := foldl (λ ids '(id, pid), <["participant/" +:+ id := pid]> ids) ids (entries (sup_participants s)) in
  match sup_observer s with Some pid => <["observer" := pid]> ids | None => ids end.

Definition path_join (directory file : string) : string := directory +:+ "/" +:+ file.

Definition callback_file (config : SupervisorConfig) (participant : string) : string :=
  path_join (work_directory config) ("callback-" +:+ participant +:+ ".json").

Definition common_environment (config : SupervisorConfig) (endpoints : string) : gmap string string :=
  btree_collect
    [ ("CLUSTODIAN_CHAOS_CLUSTER", sup_cluster config); ("CLUSTODIAN_CHAOS_PREFIX", sup_prefix config);
      ("CLUSTODIAN_CHAOS_ETCD_ENDPOINTS", endpoints);
      ("CLUSTODIAN_CHAOS_HITS_FILE", path_join (work_directory config) "fault-hits.jsonl") ].

(** [.env(..)] on top of [.envs(..)] *)
Definition with_env (environment : gmap string string) (extra : list (string * string)) : gmap string string :=
  foldl (λ e p, <[p.1 := p.2]> e) environment extra.

(** ** Operations *)

Section supervisor.
Context {OS : Type} (os : Machine OS) (config : SupervisorConfig).
Abbreviation world := (ProcessSupervisor * OS)%type.

Definition on_os {A} (m : io OS A) : io world A := λ '(s, w), let '(r, w) := m w in (r, (s, w)).
Definition modify (f : ProcessSupervisor → ProcessSupervisor) : io world unit := λ '(s, w), (Ok tt, (f s, w)).
Definition gets {A} (f : ProcessSupervisor → A) : io world A := λ '(s, w), (Ok (f s), (s, w)).

Definition persist_process_ids : io world unit :=
  let^ ids := gets process_ids in on_os (persist_ids os ids).

(** [child.try_wait().ok().flatten().is_none()]: an error counts as running. *)
Definition child_running (pid : N) : OS → bool * OS :=
  λ w, let '(status, w) := try_wait os pid w in (match status with Ok (Some _) => false | _ => true end, w).

(** [children.get_mut(id).is_some_and(child_running)] *)
Definition is_running (children : gmap string N) (id : string) : io OS bool :=
  λ w, match children !! id with
       | None => (Ok false, w)
       | Some pid => let '(running, w) := child_running pid w in (Ok running, w)
       end.

Definition controller_running (id : string) : io world bool :=
  let^ children := gets sup_controllers in on_os (is_running children id).
Definition participant_running (id : string) : io world bool :=
  let^ children := gets sup_participants in on_os (is_running children id).

Definition start_observer : io world unit :=
  let^ observer := gets sup_observer in
  let^ running := on_os (λ w, match observer with
                              | Some pid => let '(running, w) := child_running pid w in (Ok running, w)
                              | None => (Ok false, w)
                              end) in
  if running : bool then io_ret tt
  else
    let^ _ := on_os (open_log os (path_join (work_directory config) "observer.log")) in
    let^ pid := on_os (spawn os (with_env (common_environment config (observer_endpoints config))
      [ ("CLUSTODIAN_CHAOS_NODE_MODE", "observer");
        ("CLUSTODIAN_CHAOS_OBSERVER_EVENTS", path_join (work_directory config) "observer-events.jsonl");
        ("CLUSTODIAN_CHAOS_FAILPOINTS_FILE", path_join (work_directory config) "failpoints.txt") ])) in
    let^ _ := modify (set_observer (Some pid)) in
    persist_process_ids.

Definition controller_environment (id : string) : gmap string string :=
  with_env (common_environment config (process_endpoints config (controller_endpoints config) RoleController id))
    [ ("CLUSTODIAN_CHAOS_NODE_MODE", "controller"); ("CLUSTODIAN_CHAOS_CONTROLLER_ID", id);
      ("CLUSTODIAN_CHAOS_FAILPOINTS_FILE", path_join (work_directory config) "failpoints.txt") ].

Definition start_controller (id : string) : io world unit :=
  let^ running := controller_running id in
  if running : bool then io_ret tt
  else
    let^ _ := on_os (open_log os (path_join (work_directory config) ("controller-" +:+ id +:+ ".log"))) in
    let^ pid := on_os (spawn os (controller_environment id)) in
    let^ _ := modify (λ s, expect_controllers (expected_controllers s ∪ {[id]})
                             (set_controllers (<[id := pid]> (sup_controllers s)) s)) in
    persist_process_ids.

Definition participant_environment (participant : ParticipantConfig) (lease_ttl : option string) : gmap string string :=
  with_env
    (common_environment config (process_endpoints config (participant_endpoints config) RoleParticipant (pc_id participant)))
    [ ("CLUSTODIAN_CHAOS_NODE_MODE", "participant");
      ("CLUSTODIAN_CHAOS_PARTICIPANT_LEASE_TTL_MS", default "2000" lease_ttl);
      ("CLUSTODIAN_CHAOS_INSTANCE_ID", pc_id participant); ("CLUSTODIAN_CHAOS_ZONE", pc_zone participant);
      ("CLUSTODIAN_CHAOS_CALLBACK_FILE", callback_file config (pc_id participant));
      ("CLUSTODIAN_CHAOS_FAILPOINTS_FILE", path_join (work_directory config) "failpoints.txt") ].

(** The callback file of a participant is written only where there is none yet.  The
    quote of the JSON text is the byte 34. *)
Definition quote : string := String (Ascii.ascii_of_nat 34) EmptyString.
Definition quoted (s : string) : string := quote +:+ s +:+ quote.
Definition succeed_immediately : string := "{" +:+ quoted "kind" +:+ ":" +:+ quoted "succeed_immediately" +:+ "}".

Definition start_participant (participant : ParticipantConfig) : io world unit :=
  let id := pc_id participant in
  let^ running := participant_running id in
  if running : bool then io_ret tt
  else
    let file := callback_file config id in
    let^ exists_ := on_os (λ w, (Ok (file_exists os file w), w)) in
    let^ _ := (if exists_ : bool then io_ret tt else on_os (write_text os file succeed_immediately)) in
    let^ _ := on_os (open_log os (path_join (work_directory config) ("participant-" +:+ id +:+ ".log"))) in
    let^ lease_ttl := on_os (λ w, (Ok (variable os "CLUSTODIAN_CHAOS_PARTICIPANT_LEASE_TTL_MS" w), w)) in
    let^ pid := on_os (spawn os (participant_environment participant lease_ttl)) in
    let^ _ := modify (λ s, expect_participants (expected_participants s ∪ {[id]})
                             (set_participants (<[id := pid]> (sup_participants s)) s)) in
    persist_process_ids.

(** The wait of [stop_child], [false] when the deadline has passed. *)
Fixpoint await_exit (fuel : nat) (pid deadline : N) (w : OS) : bool * OS :=
  match fuel with
  | O => (false, w)
  | S fuel =>
      if (clock os w <? deadline)%N then
        let '(running, w) := child_running pid w in
        if running : bool then await_exit fuel pid deadline (sleep_for os 25 w) else (true, w)
      else (false, w)
  end.

(** Two hundred turns of 25 milliseconds, and the last test. *)
Definition EXIT_FUEL : nat := 201.

Definition terminate (pid : N) (crash : bool) : io OS unit :=
  if crash then kill_child os pid
  else
    let^ success := kill_command os "-TERM" pid in
    if success : bool then io_ret tt else io_fail (InvalidArguments "failed to send SIGTERM").

(** Five seconds to exit, then the child is killed and reaped. *)
Definition exit_or_kill (pid : N) : io OS unit :=
  λ w, let '(exited, w) := await_exit EXIT_FUEL pid (clock os w + 5000)%N w in
       if exited then (Ok tt, w)
       else (let^ _ := kill_child os pid in λ w, (Ok tt, (wait_child os pid w).2)) w.

Definition stop_child (child : option N) (crash : bool) : io OS unit :=
  match child with
  | None => io_ret tt
  | Some pid => λ w,
      let '(running, w) := child_running pid w in
      if negb running then (Ok tt, w) else (let^ _ := terminate pid crash in exit_or_kill pid) w
  end.

(** [let result = ..; forget; persist?; result] *)
Definition forget_after (result : io world unit) (forget : ProcessSupervisor → ProcessSupervisor) : io world unit :=
  λ w, let '(result, w) := result w in
       (let^ _ := modify forget in let^ _ := persist_process_ids in λ w, (result, w)) w.

Definition end_controller (id : string) (crash : bool) : io world unit :=
  forget_after (let^ children := gets sup_controllers in on_os (stop_child (children !! id) crash))
    (λ s, expect_controllers (expected_controllers s ∖ {[id]}) s).
Definition end_participant (id : string) (crash : bool) : io world unit :=
  forget_after (let^ children := gets sup_participants in on_os (stop_child (children !! id) crash))
    (λ s, expect_participants (expected_participants s ∖ {[id]}) s).

Definition stop_controller (id : string) : io world unit := end_controller id false.
Definition stop_participant (id : string) : io world unit := end_participant id false.
Definition crash_controller (id : string) : io world unit := end_controller id true.
Definition crash_participant (id : string) : io world unit := end_participant id true.

Definition send_signal (pid : N) (signal : string) : io OS unit :=
  let^ success := kill_command os signal pid in
  if success : bool then io_ret tt else io_fail (InvalidArguments ("failed to send " +:+ signal)).

Definition suspend_child (child : option N) (identity : string) : io world unit :=
  match child with
  | None => io_ret tt
  | Some pid =>
      let^ running := on_os (λ w, let '(running, w) := child_running pid w in (Ok running, w)) in
      if running : bool then
        let^ _ := on_os (send_signal pid "-STOP") in
        modify (λ s, set_suspended (suspended s ∪ {[identity]}) s)
      else io_ret tt
  end.

Definition suspend_controller (id : string) : io world unit :=
  let^ children := gets sup_controllers in suspend_child (children !! id) ("controller/" +:+ id).
Definition suspend_participant (id : string) : io world unit :=
  let^ children := gets sup_participants in suspend_child (children !! id) ("participant/" +:+ id).

Definition resume_child (pid : N) : io OS unit :=
  λ w, let '(running, w) := child_running pid w in
       if running : bool then send_signal pid "-CONT" w else (Ok tt, w).

Definition suspended_child (s : ProcessSupervisor) (identity : string) : option N :=
  match strip_prefix "controller/" identity with
  | Some id => sup_controllers s !! id
  | None =>
      match strip_prefix "participant/" identity with
      | Some id => sup_participants s !! id
      | None => None
      end
  end.

Fixpoint resume_each (s : ProcessSupervisor) (identities : list string) : io OS unit :=
  match identities with
  | [] => io_ret tt
  | identity :: rest =>
      let^ _ := (match suspended_child s identity with Some pid => resume_child pid | None => io_ret tt end) in
      resume_each s rest
  end.

(** [std::mem::take] empties the set before the first signal. *)
Definition resume_all : io world unit :=
  let^ identities := gets (λ s, set_items (suspended s)) in
  let^ _ := modify (set_suspended ∅) in
  let^ s := gets id in
  on_os (resume_each s identities).

(** [iter().all(p)], which stops at the first [false]. *)
Fixpoint all_running {A} (check : A → OS → bool * OS) (l : list A) (w : OS) : bool * OS :=
  match l with
  | [] => (true, w)
  | x :: l => let '(b, w) := check x w in if b : bool then all_running check l w else (false, w)
  end.

Context {Value : Type}.

Definition is_member (snapshot : ClusterSnapshot Value) (id : string) : bool :=
  existsb (String.eqb id) (members_active (obs_controllers snapshot))
  || existsb (String.eqb id) (members_standby (obs_controllers snapshot)).

Definition expected_processes_healthy (s : ProcessSupervisor) (snapshot : ClusterSnapshot Value) (w : OS) : bool * OS :=
  let check (children : gmap string N) (listed : string → bool) (id : string) (w : OS) : bool * OS :=
    match children !! id with
    | None => (false, w)
    | Some pid => let '(running, w) := child_running pid w in (running && listed id, w)
    end in
  let '(participants_healthy, w) :=
    all_running (check (sup_participants s) (is_live (obs_live snapshot))) (set_items (expected_participants s)) w in
  let '(controllers_healthy, w) :=
    all_running (check (sup_controllers s) (is_member snapshot)) (set_items (expected_controllers s)) w in
  (participants_healthy && controllers_healthy, w).

Definition expected_controller_membership_healthy (s : ProcessSupervisor) (snapshot : ClusterSnapshot Value) : bool :=
  forallb (is_member snapshot) (set_items (expected_controllers s)).

Definition set_failpoint (point behavior : string) : io OS unit :=
  write_text os (path_join (work_directory config) "failpoints.txt")
    (if is_empty behavior then "" else point +:+ "=" +:+ behavior).

(** [Drop]: the errors of [kill] are ignored. *)
Definition drop_supervisor (s : ProcessSupervisor) (w : OS) : OS :=
  foldl (λ w pid, (kill_child os pid w).2) w
    (map_values (sup_controllers s) ++ map_values (sup_participants s) ++ option_list (sup_observer s)).
End supervisor.

(** * Facts *)

(** ** Ports *)

(** The processes the tool names: controllers by letter or by number, nodes by number. *)
Inductive process := Letter (k : N) | Numbered (n : N) | Node (n : N).

Definition process_role (p : process) : ProcessRole :=
  match p with Letter _ | Numbered _ => RoleController | Node _ => RoleParticipant end.

Definition process_name (p : process) : string :=
  match p with
  | Letter k => "controller-" +:+ String (Ascii.ascii_of_N (97 + k)) EmptyString
  | Numbered n => "controller-" +:+ pretty n
  | Node n => node_name n
  end.

(** The first port of a process. *)
Definition first_port (p : process) : N :=
  match p with Letter k => 12379 + k * 3 | Numbered n => 12388 + n * 3 | Node n => 13379 + n * 3 end%N.

Lemma three_ports base index :
  (base ≤ u16_MAX)%N →
  (offset ← tripled index; start ← checked_add16 base offset; second ← checked_add16 start 1;
   third ← checked_add16 start 2; Some [start; second; third]) =
  (if base + index * 3 + 2 <=? u16_MAX then Some [base + index * 3; base + index * 3 + 1; base + index * 3 + 2] else None)%N.
Proof.
  intros Hb. unfold tripled, checked_add16, u16_MAX, usize_MAX in *.
  destruct (N.leb_spec (base + index * 3 + 2) 65535) as [H|H].
  - rewrite !(proj2 (N.leb_le (index * 3) _)) by lia. cbn [mbind option_bind].
    rewrite (proj2 (N.leb_le (base + index * 3) _)) by lia. cbn [mbind option_bind].
    by rewrite !(proj2 (N.leb_le _ _)) by lia.
  - destruct (index * 3 <=? _)%N; [|done]. destruct (index * 3 <=? 65535)%N; [|done]. cbn [mbind option_bind].
    destruct (base + index * 3 <=? 65535)%N; [|done]. cbn [mbind option_bind].
    destruct (base + index * 3 + 1 <=? 65535)%N; [|done]. cbn [mbind option_bind].
    by rewrite (proj2 (N.leb_gt _ _)).
Qed.

Lemma port_slot_node n : port_slot RoleParticipant (node_name n) = if (n <=? usize_MAX)%N then Some (n, 13379%N) else None.
Proof.
  unfold port_slot, node_name. rewrite strip_prefix_app. cbn [mbind option_bind]. rewrite parse_unsigned_pretty.
  by destruct (n <=? usize_MAX)%N.
Qed.

(** A numeral is not taken for a letter. *)
Lemma port_slot_numbered n :
  port_slot RoleController ("controller-" +:+ pretty n) = if (n <=? usize_MAX)%N then Some (n, 12388%N) else None.
Proof.
  unfold port_slot. rewrite strip_prefix_app. cbn [mbind option_bind].
  assert ((λ index, (index, 12388%N)) <$> parse_unsigned usize_MAX (pretty n) =
    if (n <=? usize_MAX)%N then Some (n, 12388%N) else None) as Hparse
    by (rewrite parse_unsigned_pretty; by destruct (n <=? usize_MAX)%N).
  destruct (pretty_N_head n) as (d & r & Hd & Hp). rewrite Hp in *.
  assert (strip_prefix "a" (String (pretty_N_char d) r) = None) as ->.
  { cbn [strip_prefix]. rewrite bool_decide_false; [done|]. intros Heq. by apply (pretty_N_char_not d (Ascii.ascii_of_nat 97) Hd). }
  destruct r; [|done]. destruct (97 <=? _)%N eqn:Hc; [|done]. apply N.leb_le in Hc.
  exfalso. pose proof (digit_value_pretty d Hd) as Hv. unfold digit_value in Hv. case_match eqn:Hcmp; [|done].
  apply andb_true_iff in Hcmp as [_ Hle%N.leb_le]. lia.
Qed.

Lemma port_slot_letter k :
  (k < 26)%N → port_slot RoleController ("controller-" +:+ String (Ascii.ascii_of_N (97 + k)) EmptyString) = Some (k, 12379%N).
Proof.
  intros Hk. unfold port_slot. rewrite strip_prefix_app. cbn [mbind option_bind strip_prefix].
  assert (Ascii.N_of_ascii (Ascii.ascii_of_N (97 + k)) = 97 + k)%N as Hn by (apply Ascii.N_ascii_embedding; lia).
  case_bool_decide as Ha.
  - rewrite <- Ha in Hn. vm_compute (Ascii.N_of_ascii _) in Hn. assert (k = 0)%N as -> by lia. done.
  - rewrite Hn, (proj2 (N.leb_le 97 _)), (proj2 (N.leb_le _ 122)) by lia. cbn [andb]. do 2 f_equal. lia.
Qed.

Lemma proxy_ports_process p :
  (match p with Letter k => k < 26 | _ => True end)%N →
  proxy_ports (process_role p) (process_name p) =
    (if first_port p + 2 <=? u16_MAX then Some [first_port p; first_port p + 1; first_port p + 2] else None)%N.
Proof.
  intros Hp. unfold proxy_ports. assert (∀ n base, (n <=? usize_MAX)%N = false →
    (base + n * 3 + 2 <=? u16_MAX)%N = false) as Hbig.
  { unfold usize_MAX, u16_MAX. intros n base Hn%N.leb_gt. apply N.leb_gt. lia. }
  destruct p as [k|n|n]; cbn [process_role process_name first_port].
  - rewrite port_slot_letter by done. cbn [mbind option_bind]. by rewrite three_ports.
  - rewrite port_slot_numbered. destruct (n <=? usize_MAX)%N eqn:Hn; cbn [mbind option_bind]; [by rewrite three_ports|].
    by rewrite Hbig.
  - rewrite port_slot_node. destruct (n <=? usize_MAX)%N eqn:Hn; cbn [mbind option_bind]; [by rewrite three_ports|].
    by rewrite Hbig.
Qed.

(** The processes whose ranges do not meet. *)
Definition apart (p : process) : Prop :=
  (match p with Letter k => k < 3 | Numbered n => n < 330 | Node n => n ≤ 17384 end)%N.

Lemma apart_ports p : apart p →
  proxy_ports (process_role p) (process_name p) = Some [first_port p; first_port p + 1; first_port p + 2]%N.
Proof.
  intros Hp. rewrite proxy_ports_process by (destruct p; cbn in *; lia).
  rewrite (proj2 (N.leb_le _ _)); [done|]. unfold u16_MAX. destruct p; cbn in *; lia.
Qed.

Lemma apart_disjoint p q port : apart p → apart q →
  port ∈ [first_port p; first_port p + 1; first_port p + 2]%N →
  port ∈ [first_port q; first_port q + 1; first_port q + 2]%N → p = q.
Proof.
  rewrite !elem_of_cons, !elem_of_nil. intros Hp Hq H1 H2.
  destruct p as [k|n|n], q as [k'|n'|n']; cbn [apart first_port] in *; try (exfalso; lia); f_equal; lia.
Qed.

(** *** The fleet of a run *)

(** The processes of a generated run: those of the configuration, and the participant
    that is added. *)
Definition fleet (config : ClusterConfig) : list (ProcessRole * string) :=
  (pair RoleController <$> cc_controllers config)
  ++ (pair RoleParticipant <$> (pc_id <$> cc_participants config) ++ ["node-5"]).

Definition fleet_member (e : ProcessRole * string) : Prop := ∃ p, apart p ∧ e = (process_role p, process_name p).

Lemma fleet_node n : (n ≤ 17384)%N → fleet_member (RoleParticipant, node_name n).
Proof. intros Hn. by exists (Node n). Qed.

Lemma fleet_scale participant_count resource_count partition_count config :
  (participant_count ≤ 1000)%N → scale_config participant_count resource_count partition_count = Some config →
  Forall fleet_member (fleet config).
Proof.
  intros Hc. unfold scale_config. case_match; [done|]. case_match; [|done]. intros [= <-].
  unfold fleet. cbn [cc_controllers cc_participants]. rewrite fmap_app, !Forall_app, !Forall_fmap. split_and!.
  - repeat constructor; [exists (Numbered 0)|exists (Numbered 1)|exists (Numbered 2)]; done.
  - apply Forall_forall. intros i Hi%elem_of_seq. apply fleet_node. lia.
  - repeat constructor. by apply (fleet_node 5).
Qed.

Lemma fleet_default : Forall fleet_member (fleet default_config).
Proof.
  assert (fleet default_config = ((λ p, (process_role p, process_name p)) <$>
    [Letter 0; Letter 1; Letter 2; Node 1; Node 2; Node 3; Node 4; Node 5])) as -> by (vm_compute; reflexivity).
  apply Forall_fmap, Forall_forall. intros p Hp. exists p. split; [|done]. revert p Hp. apply Forall_forall.
  repeat apply Forall_cons_2; try apply Forall_nil_2; cbn; lia.
Qed.

Lemma fleet_members prof config : config_for_profile prof = Some config → Forall fleet_member (fleet config).
Proof.
  unfold config_for_profile. case_match; [|case_match].
  - apply fleet_scale. lia.
  - apply fleet_scale. lia.
  - intros [= <-]. apply fleet_default.
Qed.

(** In a run of any generated trace every process has three proxy ports of its own:
    the ports of two different processes have none in common, so a network fault reaches
    the process it is meant for only.  The names have their limits: [controller-d] and
    [controller-0] share their ports, and from [node-17385] on the ports do not fit, so
    that the process gets the plain endpoints and no fault reaches it. *)
Theorem proxy_ports_exclusive prof config :
  config_for_profile prof = Some config →
  (∀ e, e ∈ fleet config → ∃ start, proxy_ports e.1 e.2 = Some [start; start + 1; start + 2]%N) ∧
  (∀ e e' ports ports' port, e ∈ fleet config → e' ∈ fleet config →
    proxy_ports e.1 e.2 = Some ports → proxy_ports e'.1 e'.2 = Some ports' →
    port ∈ ports → port ∈ ports' → e = e') ∧
  proxy_ports RoleController "controller-d" = proxy_ports RoleController "controller-0" ∧
  (∀ sup endpoints n, (17384 < n)%N → process_endpoints sup endpoints RoleParticipant (node_name n) = endpoints).
Proof.
  intros Hc. apply fleet_members in Hc. rewrite Forall_forall in Hc. split_and!.
  - intros e (p & Hp & ->)%Hc. exists (first_port p). by apply apart_ports.
  - intros e e' ports ports' port (p & Hp & ->)%Hc (q & Hq & ->)%Hc. cbn [fst snd].
    rewrite !apart_ports by done. intros [= <-] [= <-] H1 H2. by rewrite (apart_disjoint p q port).
  - vm_compute. reflexivity.
  - intros sup endpoints n Hn. unfold process_endpoints. case_match; [|done]. case_match; [|done].
    pose proof (proxy_ports_process (Node n) I) as Hp. cbn [process_role process_name first_port] in Hp.
    rewrite Hp, (proj2 (N.leb_gt _ _)); [done|]. unfold u16_MAX. lia.
Qed.

Lemma proxy_ports_exclusive_witness :
  proxy_ports RoleParticipant "node-1" = Some [13382; 13383; 13384]%N ∧
  ∀ port, port ∈ [12379; 12380; 12381]%N → port ∈ [13382; 13383; 13384]%N → (RoleController, "controller-a") = (RoleParticipant, "node-1").
Proof.
  split; [vm_compute; reflexivity|]. intros port H1 H2.
  pose proof (proxy_ports_exclusive "pr" default_config eq_refl) as (_ & H & _).
  assert ((RoleController, "controller-a") ∈ fleet default_config) as Ha by (vm_compute; left).
  assert ((RoleParticipant, "node-1") ∈ fleet default_config) as Hn by (vm_compute; do 3 right; left).
  apply (H (RoleController, "controller-a") (RoleParticipant, "node-1") [12379; 12380; 12381]%N [13382; 13383; 13384]%N port Ha Hn);
    [vm_compute; reflexivity|vm_compute; reflexivity|exact H1|exact H2].
Defined.

(** ** The state of the supervisor *)

(** [m] leaves the supervisor in [P], whether it returns or fails. *)
Definition keeps {OS A} (P : ProcessSupervisor → Prop) (m : io (ProcessSupervisor * OS) A) : Prop :=
  ∀ s w, P s → P (m (s, w)).2.1.

Section keeps_facts.
Context {OS : Type} (P : ProcessSupervisor → Prop).
Abbreviation world := (ProcessSupervisor * OS)%type.

Lemma keep_ret {A} (a : A) : keeps (OS := OS) P (io_ret a).
Proof. by intros s w Hs. Qed.

Lemma keeps_fail {A} e : keeps (OS := OS) P (io_fail (A := A) e).
Proof. by intros s w Hs. Qed.

Lemma keep_bind {A B} (m : io world A) (k : A → io world B) : keeps P m → (∀ a, keeps P (k a)) → keeps P (io_bind m k).
Proof.
  intros Hm Hk s w Hs. unfold io_bind. specialize (Hm s w Hs). destruct (m (s, w)) as [[a|e] [s' w']]; [|done].
  by apply Hk.
Qed.

Lemma keeps_on_os {A} (m : io OS A) : keeps P (on_os m).
Proof. intros s w Hs. unfold on_os. by destruct (m w). Qed.

Lemma keeps_gets {A} (f : ProcessSupervisor → A) : keeps (OS := OS) P (gets f).
Proof. by intros s w Hs. Qed.

Lemma keeps_modify f : (∀ s, P s → P (f s)) → keeps (OS := OS) P (modify f).
Proof. intros Hf s w Hs. by apply Hf. Qed.

Lemma keeps_forget_after (os : Machine OS) m f : keeps P m → (∀ s, P s → P (f s)) → keeps P (forget_after os m f).
Proof.
  intros Hm Hf s w Hs. unfold forget_after. specialize (Hm s w Hs). destruct (m (s, w)) as [r [s' w']].
  unfold io_bind, persist_process_ids, gets, on_os, io_bind, modify. cbn. destruct (persist_ids os _ w') as [[u|e] w'']; by apply Hf.
Qed.
End keeps_facts.

Create HintDb keeps.
#[export] Hint Resolve keep_ret keeps_fail keep_bind keeps_on_os keeps_gets keeps_modify keeps_forget_after : keeps.

(** *** Frames *)

(** Starting and ending processes leaves the faults of the supervisor as they are. *)
Definition faults_are (t u : gset string) (s : ProcessSupervisor) : Prop := active_toxics s = t ∧ suspended s = u.

Ltac keep := repeat (apply keep_bind; [|intros ?]); repeat case_match; auto with keeps.

Lemma start_observer_faults {OS} (os : Machine OS) config t u : keeps (faults_are t u) (start_observer os config).
Proof. unfold start_observer, persist_process_ids. keep; keep. Qed.

Lemma start_controller_faults {OS} (os : Machine OS) config id t u : keeps (faults_are t u) (start_controller os config id).
Proof. unfold start_controller, controller_running, persist_process_ids. keep; keep. Qed.

Lemma start_participant_faults {OS} (os : Machine OS) config p t u : keeps (faults_are t u) (start_participant os config p).
Proof. unfold start_participant, participant_running, persist_process_ids. keep; keep. Qed.

Lemma end_controller_faults {OS} (os : Machine OS) id crash t u : keeps (faults_are t u) (end_controller os id crash).
Proof. unfold end_controller. apply keeps_forget_after; [keep|done]. Qed.

Lemma end_participant_faults {OS} (os : Machine OS) id crash t u : keeps (faults_are t u) (end_participant os id crash).
Proof. unfold end_participant. apply keeps_forget_after; [keep|done]. Qed.

(** *** Accounting *)

(** Every process that should run, and every suspended one, has been started. *)
Record accounted (s : ProcessSupervisor) : Prop := {
  accounted_controllers : expected_controllers s ⊆ dom (sup_controllers s);
  accounted_participants : expected_participants s ⊆ dom (sup_participants s);
  accounted_suspended : ∀ identity, identity ∈ suspended s → is_Some (suspended_child s identity)
}.

Definition initial_supervisor : ProcessSupervisor := MkSupervisor ∅ ∅ ∅ ∅ None ∅ ∅.

(** What a driver can do with a supervisor; operations may fail half way. *)
Inductive supervisor_step {OS} (os : Machine OS) (config : SupervisorConfig)
  : ProcessSupervisor * OS → ProcessSupervisor * OS → Prop :=
| step_start_observer w : supervisor_step os config w (start_observer os config w).2
| step_start_controller id w : supervisor_step os config w (start_controller os config id w).2
| step_start_participant p w : supervisor_step os config w (start_participant os config p w).2
| step_end_controller id crash w : supervisor_step os config w (end_controller os id crash w).2
| step_end_participant id crash w : supervisor_step os config w (end_participant os id crash w).2
| step_suspend_controller id w : supervisor_step os config w (suspend_controller os id w).2
| step_suspend_participant id w : supervisor_step os config w (suspend_participant os id w).2
| step_resume_all w : supervisor_step os config w (resume_all os w).2
| step_mark_toxic proxy name active s w : supervisor_step os config (s, w) (mark_toxic proxy name active s, w)
| step_machine s w w' : supervisor_step os config (s, w) (s, w').

Lemma suspended_controller s id : suspended_child s ("controller/" +:+ id) = sup_controllers s !! id.
Proof. unfold suspended_child. by rewrite strip_prefix_app. Qed.

Lemma suspended_participant s id : suspended_child s ("participant/" +:+ id) = sup_participants s !! id.
Proof. unfold suspended_child. rewrite (strip_prefix_app "participant/"). by destruct id. Qed.

Lemma accounted_start_controller s id pid : accounted s →
  accounted (expect_controllers (expected_controllers s ∪ {[id]}) (set_controllers (<[id := pid]> (sup_controllers s)) s)).
Proof.
  intros [Hc Hp Hs]. split; cbn [expected_controllers sup_controllers expected_participants sup_participants suspended
    expect_controllers set_controllers]; [set_solver|done|].
  intros identity Hi. specialize (Hs identity Hi). unfold suspended_child in *.
  cbn [sup_controllers sup_participants expect_controllers set_controllers].
  destruct (strip_prefix "controller/" identity); [apply lookup_insert_is_Some'; by right|].
  destruct (strip_prefix "participant/" identity); [done|done].
Qed.

Lemma accounted_start_participant s id pid : accounted s →
  accounted (expect_participants (expected_participants s ∪ {[id]}) (set_participants (<[id := pid]> (sup_participants s)) s)).
Proof.
  intros [Hc Hp Hs]. split; cbn [expected_controllers sup_controllers expected_participants sup_participants suspended
    expect_participants set_participants]; [done|set_solver|].
  intros identity Hi. specialize (Hs identity Hi). unfold suspended_child in *.
  cbn [sup_controllers sup_participants expect_participants set_participants].
  destruct (strip_prefix "controller/" identity); [done|].
  destruct (strip_prefix "participant/" identity); [apply lookup_insert_is_Some'; by right|done].
Qed.

(** Suspending records the identity of a child that is there. *)
Lemma accounted_suspend {OS} (os : Machine OS) child identity s w :
  accounted s → suspended_child s identity = child → accounted (suspend_child os child identity (s, w)).2.1.
Proof.
  intros Hs Hi. unfold suspend_child. destruct child as [pid|]; [|done]. unfold io_bind, on_os, modify.
  destruct (child_running os pid w) as [[] w1]; [|done]. destruct (send_signal os pid "-STOP" w1) as [[u|e] w2]; [|done].
  destruct Hs as [Hc Hp Hsus]. split; [done..|]. intros other [Ho| ->%elem_of_singleton]%elem_of_union; [by apply Hsus|].
  unfold suspended_child in *. cbn [set_suspended sup_controllers sup_participants fst snd]. by rewrite Hi.
Qed.

Lemma step_accounted {OS} (os : Machine OS) config w w' : supervisor_step os config w w' → accounted w.1 → accounted w'.1.
Proof.
  intros Hstep. assert (∀ A (m : io (ProcessSupervisor * OS) A) w0, keeps accounted m → accounted w0.1 → accounted (m w0).2.1) as Hkeep.
  { intros A m [s0 w0] Hm Hs. by apply Hm. }
  destruct Hstep as [w|id w|p w|id crash w|id crash w|id [s w]|id [s w]|w|proxy name active s w|s w w1]; cbn [fst].
  - apply Hkeep. unfold start_observer, persist_process_ids. keep; keep. apply keeps_modify. by intros s [].
  - apply Hkeep. unfold start_controller, controller_running, persist_process_ids. keep; keep.
    apply keeps_modify. intros s. apply accounted_start_controller.
  - apply Hkeep. unfold start_participant, participant_running, persist_process_ids. keep; keep.
    apply keeps_modify. intros s. apply accounted_start_participant.
  - apply Hkeep, keeps_forget_after; [keep|]. intros s [Hc Hp Hs]. split; [cbn; set_solver|done|done].
  - apply Hkeep, keeps_forget_after; [keep|]. intros s [Hc Hp Hs]. split; [done|cbn; set_solver|done].
  - intros Hs. unfold suspend_controller, io_bind at 1, gets. apply accounted_suspend; [done|]. apply suspended_controller.
  - intros Hs. unfold suspend_participant, io_bind at 1, gets. apply accounted_suspend; [done|]. apply suspended_participant.
  - apply Hkeep. unfold resume_all. keep. apply keeps_modify. intros s [Hc Hp _]. split; [done..|]. cbn. set_solver.
  - by intros [].
  - done.
Qed.

(** Every reachable supervisor accounts for its processes: what it expects to run, and so
    what the health checks ask for, it has started, and [resume_all] finds the child of
    every suspended process. *)
Theorem supervisor_accounts {OS} (os : Machine OS) config w s w' :
  rtc (supervisor_step os config) (initial_supervisor, w) (s, w') → accounted s.
Proof.
  intros Hsteps. change s with (s, w').1. refine (rtc_ind_l (λ w0, accounted w0.1 → accounted (s, w').1) _ _ _ _ Hsteps _); [done| |].
  - intros x y Hxy _ IH Hx. by eapply IH, step_accounted.
  - split; set_solver.
Qed.

(** A failed signal loses the rest: whatever [resume_all] returns, nothing counts as
    suspended afterwards. *)
Lemma resume_all_empties {OS} (os : Machine OS) s w : suspended (resume_all os (s, w)).2.1 = ∅.
Proof. unfold resume_all, io_bind, gets, modify, on_os. cbn. by destruct (resume_each os _ _ w) as [[u|e] w']. Qed.

(** ** The wait for an exit *)

(** Time passes. *)
Record ticking {OS} (os : Machine OS) : Prop := {
  tick_sleep : ∀ d w, (clock os w + d ≤ clock os (sleep_for os d w))%N;
  tick_try_wait : ∀ pid w, (clock os w ≤ clock os (try_wait os pid w).2)%N
}.

(** The fuel is enough: it is used up only after the deadline. *)
Lemma await_exit_fuel {OS} (os : Machine OS) fuel more pid deadline w :
  ticking os → (deadline ≤ clock os w + N.of_nat fuel * 25)%N →
  await_exit os (S fuel + more) pid deadline w = await_exit os (S fuel) pid deadline w.
Proof.
  intros Htick. revert w. induction fuel as [|fuel IH]; intros w Hd; cbn [await_exit Nat.add].
  - rewrite (proj2 (N.ltb_ge _ _)) by lia. done.
  - destruct (clock os w <? deadline)%N; [|done]. unfold child_running.
    pose proof (tick_try_wait _ Htick pid w) as Hw. destruct (try_wait os pid w) as [status w1]. cbn [snd] in Hw.
    pose proof (tick_sleep _ Htick 25 w1) as Hs. destruct status as [[[]|]|e]; [done|..]; apply IH; lia.
Qed.

Lemma exit_fuel_enough {OS} (os : Machine OS) more pid w :
  ticking os → await_exit os (EXIT_FUEL + more) pid (clock os w + 5000) w = await_exit os EXIT_FUEL pid (clock os w + 5000) w.
Proof. intros Htick. apply (await_exit_fuel os 200 more); [done|lia]. Qed.
