(* ===== verification/Faults.v ===== *)
(** * Faults of a chaos run

    Models [activate_fault], [deactivate_fault], [assert_fault_hit], [run_toxic] and
    [control_etcd_member] of [tools/clustodian-chaos/src/main.rs] on top of the
    supervisor: a fault that is activated leaves a scope, which says how to undo it.

    The commands, the files and the store are the operations of [FaultTools].  The facts
    relate the books of the supervisor to the machine: a toxic that a proxy has is
    marked, and a process that is stopped counts as suspended. *)

From stdpp Require Import pretty.
From S2P Require Import Prelude Identity Keys Connection Observe Chaos Supervisor.

(** ** Tools *)

Record FaultActivation := MkFaultActivation { fa_key : string; fa_configured : bool; fa_hit_count : N }.

(** [command] is [Command::new(program).args(args).status()] and whether it succeeded;
    [fault_hits] are the lines of the file of hits, if it can be read; [origin] is the
    first reading of the clock. *)
Record FaultTools (OS : Type) := MkFaultTools {
  command : string → list string → io OS bool;
  write_callback : string → list (string * (string + N)) → io OS unit;
  append_activation : FaultActivation → io OS unit;
  fault_hits : OS → option (list string);
  read_lines : string → io OS (list string);
  origin : N;
  observed_revision : io OS Z;
  compact_store : string → string → string → Revision → io OS unit
}.
Arguments command {OS}. Arguments write_callback {OS}. Arguments append_activation {OS}. Arguments fault_hits {OS}.
Arguments read_lines {OS}. Arguments origin {OS}. Arguments observed_revision {OS}. Arguments compact_store {OS}.

Inductive FaultScope :=
| ScopeNetwork (script : string) (proxies : list string) (name toxic : string) (value jitter : N) (stream : string)
    (duration started : N)
| ScopeCallback (participant : string) (behavior : CallbackBehavior) (release_delay : N) (hit_key : string) (hit_before : N)
| ScopeClock (duration started : N)
| ScopeFailpoint (point : string) (behavior : FailpointBehavior) (hit_key : string) (hit_before : N).

Record ToxicRequest := MkToxicRequest {
  tr_script : string;
  tr_proxy : string;
  tr_name : string;
  tr_toxic : string;
  tr_value : N;
  tr_jitter : N;
  tr_stream : string;
  tr_add : bool
}.

Inductive EtcdMemberOperation := MemberStop | MemberStart | MemberRestart.

(** [str::parse::<i32>] *)
Definition parse_i32 (s : string) : option Z :=
  value ← parse_i64 s; if ((-2147483648 <=? value)%Z && (value <=? 2147483647)%Z)%bool then Some value else None.

(** The name, the type, the value, the jitter and the stream of a toxic. *)
Definition toxic_parameters (toxic : NetworkToxic) : string * string * N * N * string :=
  match toxic with
  | Disconnect | ConnectionReset => ("chaos-disconnect", "reset_peer", 1%N, 0%N, "downstream")
  | DirectionalDisconnect direction =>
      ("chaos-directional-disconnect", "reset_peer", 1%N, 0%N,
       match direction with Upstream => "upstream" | Downstream => "downstream" end)
  | Latency milliseconds jitter => ("chaos-latency", "latency", milliseconds, jitter, "downstream")
  | ToxicTimeout milliseconds => ("chaos-timeout", "timeout", milliseconds, 0%N, "downstream")
  | Bandwidth kilobytes => ("chaos-bandwidth", "bandwidth", kilobytes, 0%N, "downstream")
  | SlowClose milliseconds => ("chaos-slow-close", "slow_close", milliseconds, 0%N, "downstream")
  end.

(** The document that a participant's callbacks follow. *)
Definition callback_document (behavior : CallbackBehavior) (generation : N) : list (string * (string + N)) :=
  match behavior with
  | SucceedImmediately => [("kind", inl "succeed_immediately")]
  | SucceedSlowly milliseconds => [("kind", inl "succeed_slowly"); ("milliseconds", inr milliseconds)]
  | Block token => [("kind", inl "block"); ("token", inl token)]
  | CallbackError => [("kind", inl "error")]
  | RepeatedError attempts => [("kind", inl "repeated_error"); ("attempts", inr attempts); ("generation", inr generation)]
  | CallbackPanic => [("kind", inl "panic")]
  end.

Definition failpoint_action (behavior : FailpointBehavior) : string :=
  match behavior with
  | Pause milliseconds => "sleep(" +:+ pretty milliseconds +:+ ")"
  | ReturnError => "return(injected chaos error)"
  | FailpointPanic => "panic(injected chaos failpoint)"
  | HardAbort => "return(abort)"
  end.

Section faults.
Context {OS : Type} (os : Machine OS) (tools : FaultTools OS) (config : SupervisorConfig).
Abbreviation world := (ProcessSupervisor * OS)%type.

Definition env_var (name : string) : io OS (option string) := λ w, (Ok (variable os name w), w).

Definition required_env (name : string) : io OS string :=
  let^ value := env_var name in
  match value with Some value => io_ret value | None => io_fail (InvalidArguments (name +:+ " is required")) end.

(** ** Toxics *)

Definition toxic_arguments (url : string) (request : ToxicRequest) : list string :=
  [ tr_script request; "--url"; url; "--proxy"; tr_proxy request; "--name"; tr_name request; "--stream"; tr_stream request;
    "--toxic"; tr_toxic request; "--value"; pretty (tr_value request); "--jitter"; pretty (tr_jitter request);
    if tr_add request then "add" else "remove" ].

Definition run_toxic (request : ToxicRequest) : io OS unit :=
  let^ url := env_var "CLUSTODIAN_CHAOS_TOXIPROXY_URL" in
  match url with
  | Some url =>
      if is_empty (trim url) then io_fail (InvalidArguments "network faults require a Toxiproxy runtime; use Docker mode")
      else
        let^ success := command tools "python3" (toxic_arguments url request) in
        if success : bool then io_ret tt
        else io_fail (InvalidArguments ("Toxiproxy command failed for " +:+ tr_proxy request))
  | None => io_fail (InvalidArguments "network faults require a Toxiproxy runtime; use Docker mode")
  end.

(** A removal whose error is ignored; the mark goes in any case. *)
Definition undo_toxic (request : string → ToxicRequest) (name proxy : string) : io world unit :=
  λ '(s, w), let '(_, w) := run_toxic (request proxy) w in (Ok tt, (mark_toxic proxy name false s, w)).

Fixpoint undo_toxics (request : string → ToxicRequest) (name : string) (proxies : list string) : io world unit :=
  match proxies with
  | [] => io_ret tt
  | proxy :: rest => let^ _ := undo_toxic request name proxy in undo_toxics request name rest
  end.

(** The toxic of every proxy; after an error those of [activated] are undone. *)
Fixpoint add_toxics (request : bool → string → ToxicRequest) (name : string) (proxies activated : list string) : io world unit :=
  match proxies with
  | [] => io_ret tt
  | proxy :: rest => λ w,
      match on_os (run_toxic (request true proxy)) w with
      | (Ok _, w) =>
          (let^ _ := modify (mark_toxic proxy name true) in add_toxics request name rest (activated ++ [proxy])) w
      | (Err error, w) => (let^ _ := undo_toxics (request false) name activated in io_fail error) w
      end
  end.

(** The removal of a scope: the first error ends it, with its mark gone already. *)
Fixpoint remove_toxics (request : string → ToxicRequest) (name : string) (proxies : list string) : io world unit :=
  match proxies with
  | [] => io_ret tt
  | proxy :: rest => λ w,
      let '(result, w) := on_os (run_toxic (request proxy)) w in
      (let^ _ := modify (mark_toxic proxy name false) in
       let^ _ := (λ w, (result, w)) in
       remove_toxics request name rest) w
  end.

Definition fault_proxies (target : NetworkTarget) (s : ProcessSupervisor) : list string :=
  match target with
  | TargetController id => process_proxy_names RoleController id
  | TargetParticipant id => process_proxy_names RoleParticipant id
  | ControllersAndParticipants => all_process_proxy_names s
  end.

(** ** etcd members *)

Definition local_stop (service : string) : io OS unit :=
  let^ pid_file := required_env "CLUSTODIAN_M13_LOCAL_PID_FILE" in
  let index := default 0%N (position (String.eqb service) ["etcd1"; "etcd2"; "etcd3"]) in
  let^ lines := read_lines tools pid_file in
  match lines !! N.to_nat index ≫= parse_i32 with
  | Some pid => let^ _ := command tools "kill" ["-TERM"; pretty pid] in io_ret tt
  | None => io_ret tt
  end.

Definition local_restart (service : string) : io OS unit :=
  let^ script := env_var "CLUSTODIAN_M13_LOCAL_ETCD_RESTART_SCRIPT" in
  let^ success := command tools (default "tools/clustodian-chaos/scripts/restart-local-m13-member.sh" script) [service] in
  if success : bool then io_ret tt else io_fail (InvalidArguments ("failed to start etcd member " +:+ service)).

Definition control_etcd_member (member : string) (operation : EtcdMemberOperation) : io OS unit :=
  if negb (existsb (String.eqb member) ["etcd1"; "etcd2"; "etcd3"]) then
    io_fail (InvalidArguments ("unknown etcd member " +:+ member))
  else
    let^ runtime := env_var "CLUSTODIAN_M13_RUNTIME" in
    if bool_decide (runtime = Some "local") then
      match operation with MemberStop => local_stop member | _ => local_restart member end
    else
      let^ compose := env_var "CLUSTODIAN_CHAOS_COMPOSE_FILE" in
      let name := match operation with MemberStop => "stop" | MemberStart => "start" | MemberRestart => "restart" end in
      let^ project := env_var "CLUSTODIAN_M13_COMPOSE_PROJECT" in
      let^ success := command tools "docker"
        ["compose"; "-p"; default "clustodian-m13" project; "-f"; default "tools/clustodian-chaos/docker-compose.yml" compose;
         name; member] in
      if success : bool then io_ret tt
      else io_fail (InvalidArguments ("failed to " +:+ name +:+ " etcd member " +:+ member)).

(** ** Activation *)

(** How often a key is in the file of hits. *)
Definition fault_hit_count (key : string) : io OS N :=
  λ w, (Ok (match fault_hits tools w with
            | Some lines => N.of_nat (count_if (String.eqb key) lines)
            | None => 0%N
            end), w).

Definition now : io OS N := λ w, (Ok (clock os w), w).

(** Milliseconds since the first reading of the clock. *)
Definition monotonic_millis (w : OS) : N := clock os w - origin tools.

Definition activate_network (target : NetworkTarget) (toxic : NetworkToxic) (duration_milliseconds : N) : io world FaultScope :=
  let^ script := on_os (env_var "CLUSTODIAN_CHAOS_TOXIPROXY_SCRIPT") in
  let script := default "tools/clustodian-chaos/scripts/toxiproxy.py" script in
  let^ proxies := gets (fault_proxies target) in
  let '(name, type, value, jitter, stream) := toxic_parameters toxic in
  let request add proxy := MkToxicRequest script proxy name type value jitter stream add in
  let^ _ := add_toxics request name proxies [] in
  let^ started := on_os now in
  io_ret (ScopeNetwork script proxies name type value jitter stream duration_milliseconds started).

Definition activate_callback (participant : string) (behavior : CallbackBehavior) : io OS FaultScope :=
  let^ generation := (λ w, (Ok (monotonic_millis w), w)) in
  let^ _ := write_callback tools (callback_file config participant) (callback_document behavior generation) in
  let hit_key := "callback/" +:+ participant in
  let^ hit_before := fault_hit_count hit_key in
  let^ _ := append_activation tools (MkFaultActivation hit_key true hit_before) in
  let^ delay := env_var "CLUSTODIAN_CHAOS_CALLBACK_DURATION_MILLISECONDS" in
  io_ret (ScopeCallback participant behavior (default 250%N (delay ≫= parse_unsigned u64_MAX)) hit_key hit_before).

Definition compact_at_observed : io OS unit :=
  let^ revision := observed_revision tools in
  let^ endpoints := required_env "CLUSTODIAN_CHAOS_ETCD_ENDPOINTS" in
  let^ prefix := required_env "CLUSTODIAN_CHAOS_PREFIX" in
  let^ cluster := env_var "CLUSTODIAN_CHAOS_CLUSTER" in
  match Revision_new revision with
  | Ok revision => compact_store tools endpoints prefix (default "chaos" cluster) revision
  | Err error => io_fail (InvalidArguments (display_coordination_error error))
  end.

Definition activate_failpoint (point : string) (behavior : FailpointBehavior) : io OS FaultScope :=
  let^ _ := set_failpoint os config point (failpoint_action behavior) in
  let hit_key := "failpoint/" +:+ point in
  let^ hit_before := fault_hit_count hit_key in
  let^ _ := append_activation tools (MkFaultActivation hit_key true hit_before) in
  io_ret (ScopeFailpoint point behavior hit_key hit_before).

(** [Debug] of the two perturbations that are refused. *)
Variable debug_perturbation : ClockPerturbation → string.

Definition activate_fault (fault : Fault) : io world (option FaultScope) :=
  match fault with
  | Network target toxic duration_milliseconds =>
      let^ scope := activate_network target toxic duration_milliseconds in io_ret (Some scope)
  | Callback participant behavior => let^ scope := on_os (activate_callback participant behavior) in io_ret (Some scope)
  | EtcdCompaction => let^ _ := on_os compact_at_observed in io_ret None
  | EtcdMemberRestart member => let^ _ := on_os (control_etcd_member member MemberRestart) in io_ret None
  | Clock participant (Suspend milliseconds) | Clock participant (DelayedKeepalive milliseconds) =>
      let^ _ := suspend_participant os participant in
      let^ started := on_os now in io_ret (Some (ScopeClock milliseconds started))
  | Clock _ perturbation =>
      io_fail (InvalidArguments ("clock perturbation requires an isolated time namespace: " +:+ debug_perturbation perturbation))
  | Failpoint point behavior => let^ scope := on_os (activate_failpoint point behavior) in io_ret (Some scope)
  end.

(** The rest of the duration of a fault. *)
Definition sleep_rest (duration started : N) : io OS unit :=
  λ w, let elapsed := (clock os w - started)%N in
       (Ok tt, if (elapsed <? duration)%N then sleep_for os (duration - elapsed) w else w).

Definition release_callback (participant : string) (behavior : CallbackBehavior) (release_delay : N) : io OS unit :=
  let^ _ := (λ w, (Ok tt, sleep_for os release_delay w)) in
  let^ _ := (match behavior with
             | Block token => write_text os (path_join (work_directory config) ("release-" +:+ token)) ""
             | _ => io_ret tt
             end) in
  write_callback tools (callback_file config participant) [("kind", inl "succeed_immediately")].

Definition failpoint_duration (behavior : FailpointBehavior) : N :=
  match behavior with Pause milliseconds => milliseconds | ReturnError | FailpointPanic | HardAbort => 100 end.

Definition deactivate_fault (scope : FaultScope) : io world unit :=
  match scope with
  | ScopeNetwork script proxies name type value jitter stream duration started =>
      let^ _ := on_os (sleep_rest duration started) in
      remove_toxics (λ proxy, MkToxicRequest script proxy name type value jitter stream false) name proxies
  | ScopeCallback participant behavior release_delay _ _ => on_os (release_callback participant behavior release_delay)
  | ScopeClock duration started =>
      let^ _ := on_os (sleep_rest duration started) in resume_all os
  | ScopeFailpoint point behavior _ _ =>
      on_os (let^ _ := (λ w, (Ok tt, sleep_for os (failpoint_duration behavior) w)) in set_failpoint os config point "off")
  end.

Definition assert_hit (key : string) (hit_before : N) : io OS unit :=
  let^ hit_count := fault_hit_count key in
  let^ _ := append_activation tools (MkFaultActivation key true hit_count) in
  if (hit_count <=? hit_before)%N then
    io_fail (ChaosInvariant (MkViolation Convergence "fault_boundary_reached"
      ("configured fault " +:+ key +:+ " was never reached") 0))
  else io_ret tt.

Definition assert_fault_hit (scope : FaultScope) : io world unit :=
  match scope with
  | ScopeCallback _ _ _ hit_key hit_before | ScopeFailpoint _ _ hit_key hit_before => on_os (assert_hit hit_key hit_before)
  | ScopeNetwork _ _ _ _ _ _ _ _ _ | ScopeClock _ _ => io_ret tt
  end.
End faults.

(** * Facts *)

(** ** The marks of the supervisor *)

Definition scope_keys (scope : FaultScope) : gset string :=
  match scope with ScopeNetwork _ proxies name _ _ _ _ _ _ => list_to_set ((λ proxy, toxic_key proxy name) <$> proxies) | _ => ∅ end.

Definition is_clock (scope : FaultScope) : Prop := match scope with ScopeClock _ _ => True | _ => False end.

(** The scopes account for the marked toxics and for the suspended processes. *)
Definition covered (scopes : list FaultScope) (s : ProcessSupervisor) : Prop :=
  (∀ key, key ∈ active_toxics s → Exists (λ scope, key ∈ scope_keys scope) scopes) ∧
  (suspended s = ∅ ∨ Exists is_clock scopes).

(** The supervisor counts no fault; [toxics] and [stopped] below say what the machine
    has. *)
Definition calm (s : ProcessSupervisor) : Prop := active_toxics s = ∅ ∧ suspended s = ∅.

Lemma covered_nil s : covered [] s ↔ calm s.
Proof.
  unfold covered, calm. setoid_rewrite Exists_nil. split.
  - intros [Ht Hs]. split; [|by destruct Hs]. set_solver.
  - intros [Ht Hs]. split; [|by left]. set_solver.
Qed.

Lemma covered_app scopes more s : covered scopes s → covered (scopes ++ more) s.
Proof.
  intros [Ht Hs]. split.
  - intros key Hkey. apply Exists_app. left. by apply Ht.
  - destruct Hs as [Hs|Hs]; [by left|]. right. apply Exists_app. by left.
Qed.

Lemma covered_frame scopes s s' : faults_are (active_toxics s) (suspended s) s' → covered scopes s → covered scopes s'.
Proof. intros [Ht Hs]. unfold covered. by rewrite Ht, Hs. Qed.

Section marks.
Context {OS : Type} (os : Machine OS) (tools : FaultTools OS) (config : SupervisorConfig).

Lemma mark_toxic_marks proxy name s : active_toxics (mark_toxic proxy name true s) = active_toxics s ∪ {[toxic_key proxy name]}.
Proof. done. Qed.

(** Activation that succeeds marks the toxics of the proxies and no others. *)
Lemma add_toxics_marks request name proxies activated s w u s' w' :
  add_toxics os tools request name proxies activated (s, w) = (Ok u, (s', w')) →
  active_toxics s' = active_toxics s ∪ list_to_set ((λ proxy, toxic_key proxy name) <$> proxies) ∧ suspended s' = suspended s.
Proof.
  revert activated s w. induction proxies as [|proxy proxies IH]; intros activated s w; cbn [add_toxics].
  { intros [= _ <- _]. set_solver. }
  unfold on_os. destruct (run_toxic os tools (request true proxy) w) as [[v|e] w1].
  - unfold io_bind at 1, modify. intros Hrun. destruct (IH _ _ _ Hrun) as [-> ->]. split; [|done].
    rewrite mark_toxic_marks. set_solver.
  - unfold io_bind, io_fail. destruct (undo_toxics os tools (request false) name activated (s, w1)) as [[]?]; done.
Qed.

(** Removal that succeeds takes the marks of the proxies away. *)
Lemma remove_toxics_marks request name proxies s w u s' w' :
  remove_toxics os tools request name proxies (s, w) = (Ok u, (s', w')) →
  active_toxics s' = active_toxics s ∖ list_to_set ((λ proxy, toxic_key proxy name) <$> proxies) ∧ suspended s' = suspended s.
Proof.
  revert s w. induction proxies as [|proxy proxies IH]; intros s w; cbn [remove_toxics].
  { intros [= _ <- _]. set_solver. }
  unfold on_os. destruct (run_toxic os tools (request proxy) w) as [[v|e] w1]; [|done].
  unfold io_bind, modify. intros Hrun. destruct (IH _ _ Hrun) as [-> ->]. split; [|done]. cbn. set_solver.
Qed.

Variable debug_perturbation : ClockPerturbation → string.
Abbreviation activate := (activate_fault os tools config debug_perturbation).
Abbreviation deactivate := (deactivate_fault os tools config).

Lemma on_os_inv {A} (m : io OS A) s w r s' w' : on_os m (s, w) = (r, (s', w')) → s' = s ∧ m w = (r, w').
Proof. unfold on_os. destruct (m w) as [r1 w1]. by intros [= <- <- <-]. Qed.

(** Suspending changes nothing but the set of the suspended. *)
Lemma suspend_participant_toxics id s w : active_toxics (suspend_participant os id (s, w)).2.1 = active_toxics s.
Proof.
  assert (keeps (OS := OS) (λ s', active_toxics s' = active_toxics s) (suspend_participant os id)) as Hk; [|by apply Hk].
  unfold suspend_participant, suspend_child. keep; keep.
Qed.

Lemma activate_covered fault scopes s w scope s' w' :
  covered scopes s → activate fault (s, w) = (Ok scope, (s', w')) → covered (scopes ++ option_list scope) s'.
Proof.
  intros Hc. destruct fault as [target toxic duration|member| |participant behavior|participant perturbation|point behavior];
    cbn [activate_fault].
  - unfold activate_network. intros (sc & [s1 w1] & (script & [s2 w2] & [-> H1]%on_os_inv & Hrun)%io_bind_Ok & [= <- <- <-])%io_bind_Ok.
    apply io_bind_Ok in Hrun as (proxies & [s3 w3] & [= <- <- <-] & Hrun).
    destruct (toxic_parameters toxic) as [[[[name type] value] jitter] stream].
    apply io_bind_Ok in Hrun as (u & [s4 w4] & Hadd & Hrun).
    apply io_bind_Ok in Hrun as (started & [s5 w5] & [-> H5]%on_os_inv & [= <- <- <-]).
    destruct (add_toxics_marks _ _ _ _ _ _ _ _ _ Hadd) as [Ht Hs]. destruct Hc as [Hct Hcs]. split.
    + intros key. rewrite Ht. intros [Hk|Hk]%elem_of_union; apply Exists_app; [left; by apply Hct|right]. by left.
    + rewrite Hs. destruct Hcs as [?|?]; [by left|right; apply Exists_app; by left].
  - intros (u & [s1 w1] & [-> _]%on_os_inv & [= <- <- <-])%io_bind_Ok. by apply covered_app.
  - intros (u & [s1 w1] & [-> _]%on_os_inv & [= <- <- <-])%io_bind_Ok. by apply covered_app.
  - intros (u & [s1 w1] & [-> _]%on_os_inv & [= <- <- <-])%io_bind_Ok. by apply covered_app.
  - assert (∀ milliseconds, (let^ _ := suspend_participant os participant in
      let^ started := on_os (now os) in io_ret (Some (ScopeClock milliseconds started))) (s, w) = (Ok scope, (s', w')) →
      covered (scopes ++ option_list scope) s') as Hsus.
    { intros milliseconds (u & [s1 w1] & Hsu & (started & [s2 w2] & [-> _]%on_os_inv & [= <- <- <-])%io_bind_Ok)%io_bind_Ok.
      pose proof (suspend_participant_toxics participant s w) as Ht. rewrite Hsu in Ht. cbn [fst snd] in Ht.
      destruct Hc as [Hct _]. split; [|right; apply Exists_app; right; by left].
      intros key. rewrite Ht. intros Hk. apply Exists_app. left. by apply Hct. }
    destruct perturbation; try done; apply Hsus.
  - intros (u & [s1 w1] & [-> _]%on_os_inv & [= <- <- <-])%io_bind_Ok. by apply covered_app.
Qed.

Lemma resume_all_toxics s w : active_toxics (resume_all os (s, w)).2.1 = active_toxics s.
Proof.
  assert (keeps (OS := OS) (λ s', active_toxics s' = active_toxics s) (resume_all os)) as Hk; [|by apply Hk].
  unfold resume_all. keep.
Qed.

Lemma deactivate_covered scope scopes s w u s' w' :
  covered (scopes ++ [scope]) s → deactivate scope (s, w) = (Ok u, (s', w')) → covered scopes s'.
Proof.
  intros [Ht Hs]. setoid_rewrite Exists_app in Ht. setoid_rewrite Exists_cons in Ht. setoid_rewrite Exists_nil in Ht.
  rewrite Exists_app, Exists_cons, Exists_nil in Hs.
  destruct scope as [script proxies name type value jitter stream duration started| |duration started|];
    cbn [deactivate_fault scope_keys is_clock] in *.
  - intros (v & [s1 w1] & [-> _]%on_os_inv & Hrem)%io_bind_Ok. destruct (remove_toxics_marks _ _ _ _ _ _ _ _ Hrem) as [Ht' Hs'].
    split; [|rewrite Hs'; tauto]. intros key. rewrite Ht'. intros [Hk Hn]%elem_of_difference. destruct (Ht key Hk) as [?|[?|?]]; done.
  - intros [-> _]%on_os_inv. split; [|tauto]. intros key Hk. destruct (Ht key Hk) as [?|[?%elem_of_empty|?]]; done.
  - intros (v & [s1 w1] & [-> _]%on_os_inv & Hres)%io_bind_Ok.
    pose proof (resume_all_toxics s w1) as Htox. pose proof (resume_all_empties os s w1) as Hsus. rewrite Hres in Htox, Hsus.
    cbn [fst snd] in Htox, Hsus. split; [|by left]. intros key. rewrite Htox. intros Hk.
    destruct (Ht key Hk) as [?|[?%elem_of_empty|?]]; done.
  - intros [-> _]%on_os_inv. split; [|tauto]. intros key Hk. destruct (Ht key Hk) as [?|[?%elem_of_empty|?]]; done.
Qed.

(** ** What the machine keeps

    [R w w']: how the machine may change.  Everything but the toxics and the signals
    respects it. *)
Definition respects (R : OS → OS → Prop) {A} (m : io OS A) : Prop := ∀ w, R w (m w).2.

Record steady (R : OS → OS → Prop) : Prop := {
  steady_others : ∀ program arguments, length arguments ≠ 16 → respects R (command tools program arguments);
  steady_callback : ∀ file document, respects R (write_callback tools file document);
  steady_activation : ∀ activation, respects R (append_activation tools activation);
  steady_revision : respects R (observed_revision tools);
  steady_lines : ∀ file, respects R (read_lines tools file);
  steady_compact : ∀ endpoints prefix cluster revision, respects R (compact_store tools endpoints prefix cluster revision);
  steady_log : ∀ file, respects R (open_log os file);
  steady_spawn : ∀ environment, respects R (spawn os environment);
  steady_wait : ∀ pid, respects R (try_wait os pid);
  steady_kill : ∀ pid, respects R (kill_child os pid);
  steady_reap : ∀ pid, respects R (wait_child os pid);
  steady_term : ∀ pid, respects R (kill_command os "-TERM" pid);
  steady_text : ∀ file text, respects R (write_text os file text);
  steady_ids : ∀ ids, respects R (persist_ids os ids);
  steady_sleep : ∀ d w, R w (sleep_for os d w)
}.

Section steadiness.
Context (R : OS → OS → Prop) `{!PreOrder R} (Hsteady : steady R).

Lemma respects_ret {A} (a : A) : respects R (io_ret a).
Proof. by intros w. Qed.

Lemma respects_fail {A} e : respects R (io_fail (A := A) e).
Proof. by intros w. Qed.

Lemma respects_pure {A} (f : OS → result A ChaosError) : respects R (λ w, (f w, w)).
Proof. by intros w. Qed.

Lemma respects_bind {A B} (m : io OS A) (k : A → io OS B) : respects R m → (∀ a, respects R (k a)) → respects R (io_bind m k).
Proof.
  intros Hm Hk w. unfold io_bind. specialize (Hm w). destruct (m w) as [[a|e] w']; [|done]. cbn [snd] in Hm. etrans; [exact Hm|apply Hk].
Qed.

Lemma respects_env name : respects R (env_var os name).
Proof. by intros w. Qed.

Lemma respects_hits key : respects R (fault_hit_count tools key).
Proof. by intros w. Qed.

Lemma respects_now : respects R (now os).
Proof. by intros w. Qed.

Lemma respects_sleep d : respects R (λ w, (Ok tt, sleep_for os d w)).
Proof. intros w. by apply steady_sleep. Qed.

Create HintDb respects.
#[local] Hint Resolve respects_ret respects_fail respects_pure respects_bind respects_env respects_hits respects_now respects_sleep
  steady_callback steady_activation steady_revision steady_lines steady_compact steady_log steady_spawn steady_kill
  steady_reap steady_term steady_text steady_ids steady_wait : respects.

Ltac respect := repeat first [apply respects_bind; [|intros ?] | solve [auto with respects] | case_match].

Lemma respects_required name : respects R (required_env os name).
Proof. unfold required_env. respect. Qed.
#[local] Hint Resolve respects_required : respects.

Lemma respects_member member operation : respects R (control_etcd_member os tools member operation).
Proof.
  assert (∀ program arguments, length arguments ≠ 16 → respects R (command tools program arguments)) as Hcommand
    by apply (steady_others _ Hsteady).
  unfold control_etcd_member, local_stop, local_restart. respect; by apply Hcommand.
Qed.

Lemma respects_compact : respects R (compact_at_observed os tools).
Proof. unfold compact_at_observed. respect. Qed.

Lemma respects_activate_callback participant behavior : respects R (activate_callback os tools config participant behavior).
Proof. unfold activate_callback. respect. Qed.

Lemma respects_activate_failpoint point behavior : respects R (activate_failpoint os tools config point behavior).
Proof. unfold activate_failpoint, set_failpoint. respect. Qed.

Lemma respects_lift_failpoint behavior point :
  respects R (let^ _ := (λ w, (Ok tt, sleep_for os (failpoint_duration behavior) w)) in set_failpoint os config point "off").
Proof. unfold set_failpoint. respect. Qed.

Lemma respects_running pid w : R w (child_running os pid w).2.
Proof. unfold child_running. pose proof (steady_wait _ Hsteady pid w) as Hw. by destruct (try_wait os pid w). Qed.

Lemma respects_sleep_rest duration started : respects R (sleep_rest os duration started).
Proof. intros w. unfold sleep_rest. cbn [snd]. case_match; [by apply steady_sleep|done]. Qed.

Lemma respects_release participant behavior delay : respects R (release_callback os tools config participant behavior delay).
Proof. unfold release_callback. respect. Qed.

Lemma respects_hit key before : respects R (assert_hit tools key before).
Proof. unfold assert_hit. respect. Qed.

Lemma respects_child_running pid : respects R (λ w, let '(running, w) := child_running os pid w in (Ok running, w)).
Proof. intros w. pose proof (respects_running pid w) as Hw. by destruct (child_running os pid w). Qed.

Lemma respects_is_running children id : respects R (is_running os children id).
Proof.
  intros w. unfold is_running. destruct (children !! id) as [pid|]; [|done]. apply (respects_child_running pid w).
Qed.

Lemma respects_await fuel pid deadline w : R w (await_exit os fuel pid deadline w).2.
Proof.
  revert w. induction fuel as [|fuel IH]; intros w; cbn [await_exit]; [done|]. case_match; [|done].
  pose proof (respects_running pid w) as Hw. destruct (child_running os pid w) as [[] w1]; [|done].
  cbn [snd] in Hw. etrans; [exact Hw|]. etrans; [by apply (steady_sleep _ Hsteady 25)|apply IH].
Qed.

Lemma respects_exit_or_kill pid : respects R (exit_or_kill os pid).
Proof.
  intros w. unfold exit_or_kill. pose proof (respects_await EXIT_FUEL pid (clock os w + 5000)%N w) as Ha.
  destruct (await_exit os EXIT_FUEL pid _ w) as [[] w1]; cbn [snd] in Ha; [done|]. etrans; [exact Ha|].
  assert (respects R (let^ _ := kill_child os pid in λ w, (Ok tt, (wait_child os pid w).2))) as Hl; [|apply Hl].
  apply respects_bind; [auto with respects|]. intros _ w2. apply (steady_reap _ Hsteady).
Qed.
#[local] Hint Resolve respects_exit_or_kill respects_is_running respects_child_running : respects.

Lemma respects_stop_child child crash : respects R (stop_child os child crash).
Proof.
  destruct child as [pid|]; [|by intros w]. intros w. unfold stop_child. pose proof (respects_running pid w) as Hw.
  destruct (child_running os pid w) as [[] w1]; cbn [negb snd] in *; [|done]. etrans; [exact Hw|].
  assert (respects R (let^ _ := terminate os pid crash in exit_or_kill os pid)) as Hl; [|apply Hl].
  unfold terminate. respect.
Qed.
End steadiness.

(** ** The toxics of the proxies *)

(** [toxics] are the toxics that the proxies have: a command that succeeds adds or
    removes one, and nothing else does. *)
Definition same {T} (f : OS → T) (w w' : OS) : Prop := f w' = f w.

#[export] Instance same_preorder {T} (f : OS → T) : PreOrder (same f).
Proof. split; [by intros w|]. unfold same. intros w1 w2 w3. congruence. Qed.

Abbreviation leaves toxics := (respects (same toxics)).

Record proxied (toxics : OS → gset string) : Prop := {
  proxied_command : ∀ url request w w', command tools "python3" (toxic_arguments url request) w = (Ok true, w') →
    toxics w' = (if tr_add request then toxics w ∪ {[toxic_key (tr_proxy request) (tr_name request)]}
                 else toxics w ∖ {[toxic_key (tr_proxy request) (tr_name request)]});
  proxied_signal : ∀ signal pid, leaves toxics (kill_command os signal pid);
  proxied_steady : steady (same toxics)
}.

Section proxies.
Context (toxics : OS → gset string) (Hproxied : proxied toxics).
Abbreviation Hsteady := (proxied_steady _ Hproxied).

Lemma leaves_signal pid signal : leaves toxics (send_signal os pid signal).
Proof.
  apply respects_bind; [apply _|apply (proxied_signal _ Hproxied)|]. intros []; [apply respects_ret|apply respects_fail]; apply _.
Qed.

Lemma leaves_resume_each s identities : leaves toxics (resume_each os s identities).
Proof.
  induction identities as [|identity identities IH]; cbn [resume_each]; [done|]. apply respects_bind; [apply _| |done].
  destruct (suspended_child s identity) as [pid|]; [|done]. intros w. unfold resume_child.
  pose proof (respects_running _ Hsteady pid w) as Hw. destruct (child_running os pid w) as [[] w1]; [|done].
  etrans; [exact Hw|]. apply (leaves_signal pid "-CONT" w1).
Qed.

Hint Resolve respects_ret respects_fail respects_pure respects_env respects_hits respects_now respects_sleep
  steady_callback steady_activation steady_revision steady_lines steady_compact steady_log steady_spawn steady_kill
  steady_reap steady_term steady_text steady_ids steady_wait respects_required respects_member respects_compact
  respects_activate_callback respects_activate_failpoint respects_lift_failpoint respects_sleep_rest respects_release
  respects_hit respects_child_running respects_is_running respects_exit_or_kill respects_stop_child
  leaves_signal leaves_resume_each proxied_steady same_preorder : leaves.

(** A toxic that is there is marked. *)
Definition marked (w : ProcessSupervisor * OS) : Prop := toxics w.2 ⊆ active_toxics w.1.

Lemma run_toxic_effect request w u w' : run_toxic os tools request w = (Ok u, w') →
  toxics w' = (if tr_add request then toxics w ∪ {[toxic_key (tr_proxy request) (tr_name request)]}
               else toxics w ∖ {[toxic_key (tr_proxy request) (tr_name request)]}).
Proof.
  unfold run_toxic, env_var, io_bind at 1. destruct (variable os _ w) as [url|]; [|done]. case_match; [done|].
  intros (success & w1 & Hcmd & Hrest)%io_bind_Ok. destruct success; [|done]. injection Hrest as _ <-.
  by apply (proxied_command _ Hproxied) in Hcmd.
Qed.

Lemma add_toxics_marked request name proxies activated s w u w' :
  (∀ add proxy, tr_add (request add proxy) = add ∧ tr_proxy (request add proxy) = proxy ∧ tr_name (request add proxy) = name) →
  marked (s, w) → add_toxics os tools request name proxies activated (s, w) = (Ok u, w') → marked w'.
Proof.
  intros Hreq. revert activated s w. induction proxies as [|proxy proxies IH]; intros activated s w Hm; cbn [add_toxics].
  { by intros [= _ <-]. }
  unfold on_os. destruct (run_toxic os tools (request true proxy) w) as [[v|e] w1] eqn:Hrun.
  - unfold io_bind at 1, modify. apply IH. apply run_toxic_effect in Hrun. destruct (Hreq true proxy) as (Ea & Ep & En).
    rewrite Ea, Ep, En in Hrun. unfold marked in *. cbn [fst snd] in *. rewrite Hrun, mark_toxic_marks. set_solver.
  - unfold io_bind, io_fail. destruct (undo_toxics os tools (request false) name activated (s, w1)) as [[]?]; done.
Qed.

Lemma remove_toxics_marked request name proxies s w u w' :
  (∀ proxy, tr_add (request proxy) = false ∧ tr_proxy (request proxy) = proxy ∧ tr_name (request proxy) = name) →
  marked (s, w) → remove_toxics os tools request name proxies (s, w) = (Ok u, w') → marked w'.
Proof.
  intros Hreq. revert s w. induction proxies as [|proxy proxies IH]; intros s w Hm; cbn [remove_toxics].
  { by intros [= _ <-]. }
  unfold on_os. destruct (run_toxic os tools (request proxy) w) as [[v|e] w1] eqn:Hrun; [|done].
  unfold io_bind, modify. apply IH. apply run_toxic_effect in Hrun. destruct (Hreq proxy) as (Ea & Ep & En).
  rewrite Ea, Ep, En in Hrun. unfold marked in *. cbn [fst snd] in *. rewrite Hrun. cbn. set_solver.
Qed.

(** *** Operations of the supervisor *)

Definition keeps_marked {A} (m : io (ProcessSupervisor * OS) A) : Prop := ∀ w, marked w → marked (m w).2.

Lemma keeps_marked_ret {A} (a : A) : keeps_marked (io_ret a).
Proof. by intros w Hw. Qed.

Lemma keeps_marked_bind {A B} (m : io (ProcessSupervisor * OS) A) (k : A → io (ProcessSupervisor * OS) B) :
  keeps_marked m → (∀ a, keeps_marked (k a)) → keeps_marked (io_bind m k).
Proof.
  intros Hm Hk w Hw. unfold io_bind. specialize (Hm w Hw). destruct (m w) as [[a|e] w']; [|done]. by apply Hk.
Qed.

Lemma keeps_marked_gets {A} (f : ProcessSupervisor → A) : keeps_marked (gets f).
Proof. by intros [s w] Hw. Qed.

Lemma keeps_marked_on_os {A} (m : io OS A) : leaves toxics m → keeps_marked (on_os m).
Proof.
  intros Hm [s w] Hw. unfold on_os, marked in *. specialize (Hm w). destruct (m w) as [r w']. cbn [fst snd] in *. by rewrite Hm.
Qed.

Lemma keeps_marked_modify f : (∀ s, active_toxics (f s) = active_toxics s) → keeps_marked (modify f).
Proof. intros Hf [s w] Hw. unfold marked, modify in *. cbn [fst snd] in *. by rewrite Hf. Qed.

Create HintDb marked.
Hint Resolve keeps_marked_ret keeps_marked_bind keeps_marked_gets keeps_marked_on_os keeps_marked_modify : marked.
Ltac mark := repeat first [solve [auto 4 with marked leaves] | apply keeps_marked_bind; [|intros ?] | case_match].

Lemma suspend_participant_marked id : keeps_marked (suspend_participant os id).
Proof. unfold suspend_participant, suspend_child. mark. Qed.

Lemma resume_all_marked : keeps_marked (resume_all os).
Proof. unfold resume_all. mark. Qed.

Hint Resolve suspend_participant_marked resume_all_marked : marked.

Lemma start_observer_marked : keeps_marked (start_observer os config).
Proof.
  unfold start_observer, persist_process_ids. mark.
Qed.

Lemma start_controller_marked id : keeps_marked (start_controller os config id).
Proof. unfold start_controller, controller_running, persist_process_ids. mark. Qed.

Lemma start_participant_marked participant : keeps_marked (start_participant os config participant).
Proof. unfold start_participant, participant_running, persist_process_ids. mark. Qed.

Lemma forget_after_marked m f : keeps_marked m → (∀ s, active_toxics (f s) = active_toxics s) → keeps_marked (forget_after os m f).
Proof.
  intros Hm Hf w Hw. unfold forget_after. specialize (Hm w Hw). destruct (m w) as [r w']. cbn [snd] in Hm.
  assert (keeps_marked (let^ _ := modify f in let^ _ := persist_process_ids os in λ w, (r, w))) as Hk; [|by apply Hk].
  unfold persist_process_ids. mark. by intros w1 Hw1.
Qed.

Lemma end_controller_marked id crash : keeps_marked (end_controller os id crash).
Proof. apply forget_after_marked; [mark|done]. Qed.

Lemma end_participant_marked id crash : keeps_marked (end_participant os id crash).
Proof. apply forget_after_marked; [mark|done]. Qed.

(** ** Scopes that hold the faults *)

Definition held (scopes : list FaultScope) (w : ProcessSupervisor * OS) : Prop := covered scopes w.1 ∧ marked w.

Lemma activate_held fault scopes w scope w' :
  held scopes w → activate fault w = (Ok scope, w') → held (scopes ++ option_list scope) w'.
Proof.
  destruct w as [s w], w' as [s' w']. intros [Hc Hm] Hrun. split; [by eapply activate_covered|]. clear Hc.
  assert (∀ A (m : io (ProcessSupervisor * OS) A) (a : A) w0 w1, keeps_marked m → marked w0 → m w0 = (Ok a, w1) → marked w1) as Hkeep.
  { intros A m a w0 w1 Hk Hw0 Hrun0. specialize (Hk w0 Hw0). by rewrite Hrun0 in Hk. }
  destruct fault as [target toxic duration|member| |participant behavior|participant perturbation|point behavior];
    cbn [activate_fault] in Hrun.
  - unfold activate_network in Hrun. apply io_bind_Ok in Hrun as (sc & w1 & Hrun & [= _ <-]).
    apply io_bind_Ok in Hrun as (script & w2 & H2 & Hrun). apply io_bind_Ok in Hrun as (proxies & w3 & H3 & Hrun).
    destruct (toxic_parameters toxic) as [[[[name type] value] jitter] stream].
    apply io_bind_Ok in Hrun as (u & w4 & Hadd & Hrun). apply io_bind_Ok in Hrun as (started & w5 & H5 & [= _ <-]).
    eapply Hkeep in H2; [|mark|done]. eapply Hkeep in H3; [|mark|done]. eapply Hkeep in H5; [done|mark|].
    destruct w3 as [s3 w3]. eapply add_toxics_marked; [|exact H3|exact Hadd]. done.
  - eapply Hkeep; [|exact Hm|exact Hrun]. mark.
  - eapply Hkeep; [|exact Hm|exact Hrun]. mark.
  - eapply Hkeep; [|exact Hm|exact Hrun]. mark.
  - destruct perturbation; try done; (eapply Hkeep; [|exact Hm|exact Hrun]); mark.
  - eapply Hkeep; [|exact Hm|exact Hrun]. mark.
Qed.

Lemma deactivate_held scope scopes w u w' :
  held (scopes ++ [scope]) w → deactivate scope w = (Ok u, w') → held scopes w'.
Proof.
  destruct w as [s w], w' as [s' w']. intros [Hc Hm] Hrun. split; [by eapply deactivate_covered|]. clear Hc.
  assert (∀ (m : io (ProcessSupervisor * OS) unit) w0 v w1, keeps_marked m → marked w0 → m w0 = (Ok v, w1) → marked w1) as Hkeep.
  { intros m w0 v w1 Hk Hw0 Hrun0. specialize (Hk w0 Hw0). by rewrite Hrun0 in Hk. }
  destruct scope as [script proxies name type value jitter stream duration started| |duration started|]; cbn [deactivate_fault] in Hrun.
  - apply io_bind_Ok in Hrun as (v & [s1 w1] & H1 & Hrun).
    eapply Hkeep in H1; [|mark|done].
    eapply remove_toxics_marked; [|exact H1|exact Hrun]. done.
  - eapply Hkeep; [|exact Hm|exact Hrun]. mark.
  - eapply Hkeep; [|exact Hm|exact Hrun]. mark.
  - eapply Hkeep; [|exact Hm|exact Hrun]. mark.
Qed.

Lemma assert_hit_held scope scopes w : held scopes w → held scopes (assert_fault_hit tools scope w).2.
Proof.
  destruct w as [s w]. intros [Hc Hm].
  assert (∀ key before, leaves toxics (assert_hit tools key before)) as Hl by auto with leaves.
  assert (∀ key before, held scopes (on_os (assert_hit tools key before) (s, w)).2) as Hon.
  { intros key before. split; [|by apply keeps_marked_on_os]. unfold on_os. by destruct (assert_hit tools key before w). }
  destruct scope; cbn [assert_fault_hit]; done || apply Hon.
Qed.
End proxies.

(** ** The stopped processes *)

(** [stopped] are the processes that are stopped: a signal that is sent stops a process
    or lets it go on, a child that has exited is not stopped, and nothing else stops a
    process. *)
Definition shrinks (stopped : OS → gset N) (w w' : OS) : Prop := stopped w' ⊆ stopped w.

#[export] Instance shrinks_preorder stopped : PreOrder (shrinks stopped).
Proof. unfold shrinks. split; [by intros w|]. intros w1 w2 w3. set_solver. Qed.

Record signalled (stopped : OS → gset N) : Prop := {
  signalled_stop : ∀ pid w w', kill_command os "-STOP" pid w = (Ok true, w') → stopped w' = stopped w ∪ {[pid]};
  signalled_cont : ∀ pid w w', kill_command os "-CONT" pid w = (Ok true, w') → stopped w' = stopped w ∖ {[pid]};
  signalled_exited : ∀ pid w w', try_wait os pid w = (Ok (Some tt), w') → pid ∉ stopped w';
  signalled_toxic : ∀ url request, respects (shrinks stopped) (command tools "python3" (toxic_arguments url request));
  signalled_steady : steady (shrinks stopped)
}.

Section signals.
Context (stopped : OS → gset N) (Hsignalled : signalled stopped).
Abbreviation Hsteady := (signalled_steady _ Hsignalled).
Abbreviation calms := (respects (shrinks stopped)).

(** Every stopped process is the child of an identity that counts as suspended. *)
Definition paused (w : ProcessSupervisor * OS) : Prop :=
  ∀ pid, pid ∈ stopped w.2 → ∃ identity, identity ∈ suspended w.1 ∧ suspended_child w.1 identity = Some pid.

(** [m], when it returns, leads from [P] to [Q]. *)
Definition leads_to {A} (P : ProcessSupervisor * OS → Prop) (m : io (ProcessSupervisor * OS) A)
    (Q : A → ProcessSupervisor * OS → Prop) : Prop :=
  ∀ w a w', P w → m w = (Ok a, w') → Q a w'.

Abbreviation paces m := (leads_to paused m (λ _, paused)).

Lemma leads_to_bind {A B} P (m : io (ProcessSupervisor * OS) A) Q (k : A → io (ProcessSupervisor * OS) B) T :
  leads_to P m Q → (∀ a, leads_to (Q a) (k a) T) → leads_to P (io_bind m k) T.
Proof. intros Hm Hk w b w' Hw (a & w1 & H1 & H2)%io_bind_Ok. eapply Hk; [|exact H2]. by eapply Hm. Qed.

Lemma leads_to_ret {A} (P : ProcessSupervisor * OS → Prop) (a : A) : leads_to P (io_ret a) (λ _, P).
Proof. by intros w b w' Hw [= _ <-]. Qed.

Lemma leads_to_result {A} (P : ProcessSupervisor * OS → Prop) (r : result A ChaosError) : leads_to P (λ w, (r, w)) (λ _, P).
Proof. by intros w b w' Hw [= _ <-]. Qed.

Lemma leads_to_fail {A} P e (Q : A → ProcessSupervisor * OS → Prop) : leads_to P (io_fail e) Q.
Proof. by intros w b w' Hw [=]. Qed.

Lemma leads_to_gets {A} (P : ProcessSupervisor * OS → Prop) (f : ProcessSupervisor → A) :
  leads_to P (gets f) (λ a w, P w ∧ a = f w.1).
Proof. by intros [s w] b w' Hw [= <- <-]. Qed.

Lemma leads_to_reading {A B} P (f : ProcessSupervisor → A) (k : A → io (ProcessSupervisor * OS) B) T :
  (∀ a, leads_to P (k a) T) → leads_to P (io_bind (gets f) k) T.
Proof. intros Hk [s w] b w' Hw. by apply Hk. Qed.

(** What does not mind that fewer processes are stopped. *)
Definition closed_down (P : ProcessSupervisor * OS → Prop) : Prop := ∀ s w w', shrinks stopped w w' → P (s, w) → P (s, w').

Lemma paused_closed : closed_down paused.
Proof. intros s w w' Hs Hp pid Hpid. apply (Hp pid). by apply Hs. Qed.

Lemma leads_to_on_os {A} P (m : io OS A) : closed_down P → calms m → leads_to P (on_os m) (λ _, P).
Proof.
  intros HP Hm [s w] a w' Hw. unfold on_os. specialize (Hm w). destruct (m w) as [r w1]. intros [= _ <-]. by eapply HP.
Qed.

Lemma paces_modify f :
  (∀ s, suspended (f s) = suspended s ∧ sup_controllers (f s) = sup_controllers s ∧ sup_participants (f s) = sup_participants s) →
  paces (modify f).
Proof.
  intros Hf [s w] a w' Hw [= _ <-] pid Hpid. destruct (Hf s) as (Es & Ec & Ep). destruct (Hw pid Hpid) as (identity & Hi & Hc).
  exists identity. cbn [fst snd] in *. unfold suspended_child in *. by rewrite Es, Ec, Ep.
Qed.

(** *** Signals *)

Lemma suspend_child_paces child identity :
  leads_to (λ w, paused w ∧ child = suspended_child w.1 identity) (suspend_child os child identity) (λ _, paused).
Proof.
  intros [s w] a w' [Hw Hc]. unfold suspend_child. destruct child as [pid|]; [|by intros [= _ <-]].
  intros (running & w1 & H1 & Hrun)%io_bind_Ok. assert (w1 = (s, (child_running os pid w).2)) as ->.
  { unfold on_os in H1. destruct (child_running os pid w) as [b w2]. by injection H1. }
  pose proof (respects_running _ Hsteady pid w) as Hr. destruct running; [|injection Hrun as _ <-; by eapply paused_closed].
  apply io_bind_Ok in Hrun as (u & [s2 w2] & H2 & [= _ <-]).
  unfold on_os in H2. destruct (send_signal os pid "-STOP" _) as [r w3] eqn:Hsig. injection H2 as -> <- <-.
  apply io_bind_Ok in Hsig as (success & w4 & Hk & Hsig). destruct success; [|done]. injection Hsig as _ <-.
  apply (signalled_stop _ Hsignalled) in Hk. intros p. cbn [fst snd] in *. rewrite Hk. intros [Hp| ->%elem_of_singleton]%elem_of_union.
  - destruct (Hw p) as (other & Ho & Hc'); [by apply Hr|]. exists other. split; [cbn; set_solver|done].
  - exists identity. split; [cbn; set_solver|]. by symmetry.
Qed.

Lemma suspend_participant_paces id : paces (suspend_participant os id).
Proof.
  eapply leads_to_bind; [apply leads_to_gets|]. intros children w a w' [Hw ->]. apply suspend_child_paces. split; [done|].
  by rewrite suspended_participant.
Qed.

(** A resumed child, and one that has exited, is not stopped. *)
Lemma resume_child_goes_on pid w u w' :
  resume_child os pid w = (Ok u, w') → shrinks stopped w w' ∧ pid ∉ stopped w'.
Proof.
  unfold resume_child. pose proof (respects_running _ Hsteady pid w) as Hr. unfold child_running in *.
  destruct (try_wait os pid w) as [status w1] eqn:Hwait.
  assert (∀ r, send_signal os pid "-CONT" w1 = (Ok r, w') → shrinks stopped w w' ∧ pid ∉ stopped w') as Hcont.
  { intros r (success & w2 & Hk & Hs)%io_bind_Ok. destruct success; [|done]. injection Hs as _ <-.
    apply (signalled_cont _ Hsignalled) in Hk. unfold shrinks in *. cbn [snd] in Hr. set_solver. }
  destruct status as [[[]|]|e]; [|apply Hcont..]. intros [= _ <-]. split; [done|]. by apply (signalled_exited _ Hsignalled) in Hwait.
Qed.

Lemma resume_each_goes_on s identities w u w' :
  resume_each os s identities w = (Ok u, w') →
  shrinks stopped w w' ∧ ∀ identity pid, identity ∈ identities → suspended_child s identity = Some pid → pid ∉ stopped w'.
Proof.
  revert w. induction identities as [|identity identities IH]; intros w; cbn [resume_each].
  { intros [= _ <-]. split; [done|]. by intros ? ? ?%elem_of_nil. }
  intros (v & w1 & H1 & H2)%io_bind_Ok. destruct (IH _ H2) as [Hs Hall].
  assert (shrinks stopped w w1 ∧ ∀ pid, suspended_child s identity = Some pid → pid ∉ stopped w1) as [Hs1 Hid].
  { destruct (suspended_child s identity) as [pid|]; [|by injection H1 as _ <-].
    destruct (resume_child_goes_on _ _ _ _ H1) as [? ?]. split; [done|]. by intros ? [= <-]. }
  split; [by etrans|]. intros other pid [->|Ho]%elem_of_cons Hc; [|by eapply Hall].
  specialize (Hid _ Hc). unfold shrinks in Hs. set_solver.
Qed.

(** When everything has been resumed no process is stopped. *)
Lemma resume_all_goes_on w u w' : paused w → resume_all os w = (Ok u, w') → stopped w'.2 = ∅.
Proof.
  destruct w as [s w]. intros Hw. unfold resume_all, io_bind, gets, modify. cbn. unfold on_os.
  destruct (resume_each os (set_suspended ∅ s) (set_items (suspended s)) w) as [r w1] eqn:Hr. intros [= -> <-].
  destruct (resume_each_goes_on _ _ _ _ _ Hr) as [Hs Hall]. apply set_eq. intros pid. split; [|set_solver].
  intros Hpid. destruct (Hw pid) as (identity & Hi & Hc); [by apply Hs|]. exfalso. eapply (Hall identity pid); [|exact Hc|exact Hpid].
  by apply elem_of_set_items.
Qed.

Lemma resume_all_paces : paces (resume_all os).
Proof. intros w a w' Hw Hr pid. by rewrite (resume_all_goes_on _ _ _ Hw Hr). Qed.

(** *** Operations of the supervisor *)

Create HintDb paces.
Hint Resolve leads_to_ret leads_to_result leads_to_fail leads_to_on_os paused_closed paces_modify
  suspend_participant_paces resume_all_paces : paces.
Hint Resolve respects_ret respects_fail respects_pure respects_env respects_hits respects_now respects_sleep
  steady_callback steady_activation steady_revision steady_lines steady_compact steady_log steady_spawn steady_kill
  steady_reap steady_term steady_text steady_ids steady_wait respects_required respects_member respects_compact
  respects_activate_callback respects_activate_failpoint respects_lift_failpoint respects_sleep_rest respects_release
  respects_hit respects_child_running respects_is_running respects_exit_or_kill respects_stop_child
  signalled_steady shrinks_preorder : paces.

Lemma persist_paces : paces (persist_process_ids os).
Proof. apply leads_to_reading. intros ids. apply leads_to_on_os; auto with paces. Qed.

(** [id] has no child that is stopped. *)
Definition vacant (children : ProcessSupervisor → gmap string N) (id : string) (w : ProcessSupervisor * OS) : Prop :=
  paused w ∧ ∀ old, children w.1 !! id = Some old → old ∉ stopped w.2.

Lemma vacant_closed children id : closed_down (vacant children id).
Proof.
  intros s w w' Hs [Hp Hv]. split; [by eapply paused_closed|]. intros old Hold. specialize (Hv old Hold).
  unfold shrinks in Hs. cbn [snd] in *. set_solver.
Qed.
Hint Resolve vacant_closed : paces.

(** A child that does not run is not stopped. *)
Lemma not_running_vacant children id :
  leads_to paused (let^ c := gets children in on_os (is_running os c id))
    (λ running w, if running : bool then paused w else vacant children id w).
Proof.
  eapply leads_to_bind; [apply leads_to_gets|]. intros c [s w] running w' [Hw ->]. cbn [fst] in *.
  pose proof (respects_is_running _ Hsteady (children s) id w) as Hr. unfold on_os, is_running in *.
  destruct (children s !! id) as [pid|] eqn:Hc; [|intros [= <- <-]; split; [done|]; cbn; congruence].
  unfold child_running in *. destruct (try_wait os pid w) as [status w1] eqn:Hwait. cbn [snd] in Hr.
  assert (paused (s, w1)) as Hp by (by eapply paused_closed).
  destruct status as [[[]|]|e]; intros [= <- <-]; try done. split; [done|]. cbn [fst snd]. rewrite Hc. intros old [= <-].
  by apply (signalled_exited _ Hsignalled) in Hwait.
Qed.

Lemma replace_paused s w s' children id :
  vacant children id (s, w) → suspended s' = suspended s →
  (∀ identity pid, suspended_child s identity = Some pid →
     suspended_child s' identity = Some pid ∨ children s !! id = Some pid) → paused (s', w).
Proof.
  intros [Hp Hv] Es Hc pid Hpid. destruct (Hp pid Hpid) as (identity & Hi & Hchild). cbn [fst snd] in *.
  exists identity. rewrite Es. split; [done|]. destruct (Hc _ _ Hchild) as [?|Hold]; [done|]. by destruct (Hv pid Hold).
Qed.

Lemma replace_controller id pid :
  leads_to (vacant sup_controllers id)
    (modify (λ s, expect_controllers (expected_controllers s ∪ {[id]}) (set_controllers (<[id := pid]> (sup_controllers s)) s)))
    (λ _, paused).
Proof.
  intros [s w] a w' Hw [= _ <-]. eapply replace_paused; [exact Hw|done|]. intros identity p. unfold suspended_child.
  cbn [sup_controllers sup_participants expect_controllers set_controllers].
  destruct (strip_prefix "controller/" identity) as [other|]; [|by left]. rewrite lookup_insert. case_decide; [subst; by right|by left].
Qed.

Lemma replace_participant id pid :
  leads_to (vacant sup_participants id)
    (modify (λ s, expect_participants (expected_participants s ∪ {[id]}) (set_participants (<[id := pid]> (sup_participants s)) s)))
    (λ _, paused).
Proof.
  intros [s w] a w' Hw [= _ <-]. eapply replace_paused; [exact Hw|done|]. intros identity p. unfold suspended_child.
  cbn [sup_controllers sup_participants expect_participants set_participants].
  destruct (strip_prefix "controller/" identity); [by left|]. destruct (strip_prefix "participant/" identity) as [other|]; [|by left].
  rewrite lookup_insert. case_decide; [subst; by right|by left].
Qed.

Lemma start_controller_paces id : paces (start_controller os config id).
Proof.
  unfold start_controller, controller_running. eapply leads_to_bind; [apply not_running_vacant|]. intros []; [apply leads_to_ret|].
  do 2 (eapply leads_to_bind; [apply leads_to_on_os; auto with paces|intros ?]).
  eapply leads_to_bind; [apply replace_controller|intros ?]. apply persist_paces.
Qed.

Lemma start_participant_paces participant : paces (start_participant os config participant).
Proof.
  unfold start_participant, participant_running. eapply leads_to_bind; [apply not_running_vacant|]. intros []; [apply leads_to_ret|].
  eapply leads_to_bind; [apply leads_to_on_os; auto with paces|intros exists_].
  eapply leads_to_bind; [destruct exists_; [apply leads_to_ret|apply leads_to_on_os; auto with paces]|intros ?].
  do 3 (eapply leads_to_bind; [apply leads_to_on_os; auto with paces|intros ?]).
  eapply leads_to_bind; [apply replace_participant|intros ?]. apply persist_paces.
Qed.

Lemma start_observer_paces : paces (start_observer os config).
Proof.
  unfold start_observer. apply leads_to_reading. intros observer.
  eapply leads_to_bind; [apply leads_to_on_os; [auto with paces|]; destruct observer; auto with paces|].
  intros []; [apply leads_to_ret|]. do 2 (eapply leads_to_bind; [apply leads_to_on_os; auto with paces|intros ?]).
  eapply leads_to_bind; [by apply paces_modify|intros ?]. apply persist_paces.
Qed.

Lemma forget_after_paces m f :
  paces m → (∀ s, suspended (f s) = suspended s ∧ sup_controllers (f s) = sup_controllers s ∧ sup_participants (f s) = sup_participants s) →
  paces (forget_after os m f).
Proof.
  intros Hm Hf w a w' Hw. unfold forget_after. destruct (m w) as [r w1] eqn:E.
  intros (u & w2 & H2 & (u' & w3 & H3 & [= -> <-])%io_bind_Ok)%io_bind_Ok.
  eapply persist_paces; [|exact H3]. eapply (paces_modify f Hf); [|exact H2]. by eapply Hm.
Qed.

Lemma end_controller_paces id crash : paces (end_controller os id crash).
Proof.
  apply forget_after_paces; [|done]. apply leads_to_reading. intros c. apply leads_to_on_os; auto with paces.
Qed.

Lemma end_participant_paces id crash : paces (end_participant os id crash).
Proof.
  apply forget_after_paces; [|done]. apply leads_to_reading. intros c. apply leads_to_on_os; auto with paces.
Qed.

(** *** Faults *)

Lemma run_toxic_calms request : calms (run_toxic os tools request).
Proof.
  apply respects_bind; [apply _|auto with paces|]. intros [url|]; [|auto with paces]. case_match; [auto with paces|].
  apply respects_bind; [apply _|apply (signalled_toxic _ Hsignalled)|]. intros []; auto with paces.
Qed.
Hint Resolve run_toxic_calms : paces.

Lemma add_toxics_paces request name proxies activated : paces (add_toxics os tools request name proxies activated).
Proof.
  revert activated. induction proxies as [|proxy proxies IH]; intros activated; cbn [add_toxics]; [apply leads_to_ret|].
  intros w a w' Hw. destruct (on_os (run_toxic os tools (request true proxy)) w) as [[v|e] w1] eqn:E.
  - intros (u & w2 & H2 & Hrun)%io_bind_Ok. eapply IH; [|exact Hrun]. eapply (paces_modify (mark_toxic proxy name true)); [done| |exact H2].
    eapply leads_to_on_os; [apply paused_closed|apply run_toxic_calms|exact Hw|exact E].
  - by intros (u & w2 & _ & [=])%io_bind_Ok.
Qed.

Lemma remove_toxics_paces request name proxies : paces (remove_toxics os tools request name proxies).
Proof.
  induction proxies as [|proxy proxies IH]; cbn [remove_toxics]; [apply leads_to_ret|].
  intros w a w' Hw. destruct (on_os (run_toxic os tools (request proxy)) w) as [r w1] eqn:E.
  intros (u & w2 & H2 & (u' & w3 & [= -> <-] & Hrun)%io_bind_Ok)%io_bind_Ok. eapply IH; [|exact Hrun].
  eapply (paces_modify (mark_toxic proxy name false)); [done| |exact H2].
  eapply leads_to_on_os; [apply paused_closed|apply run_toxic_calms|exact Hw|exact E].
Qed.

Lemma activate_paces fault : paces (activate fault).
Proof.
  assert (∀ A (m : io OS A) (k : A → option FaultScope), calms m → paces (let^ x := on_os m in io_ret (k x))) as Hon.
  { intros A m k Hm. eapply leads_to_bind; [by apply leads_to_on_os; [auto with paces|]|]. intros ?. apply leads_to_ret. }
  destruct fault as [target toxic duration|member| |participant behavior|participant perturbation|point behavior];
    cbn [activate_fault]; try (by apply Hon; auto with paces).
  - eapply (leads_to_bind _ _ (λ _, paused)); [|intros ?; apply leads_to_ret]. unfold activate_network.
    eapply leads_to_bind; [apply leads_to_on_os; auto with paces|]. intros script. apply leads_to_reading. intros proxies.
    destruct (toxic_parameters toxic) as [[[[name type] value] jitter] stream].
    eapply leads_to_bind; [apply add_toxics_paces|]. intros ?.
    eapply leads_to_bind; [apply leads_to_on_os; auto with paces|]. intros ?. apply leads_to_ret.
  - destruct perturbation; try apply leads_to_fail;
      (eapply leads_to_bind; [apply suspend_participant_paces|]; intros ?; by apply Hon; auto with paces).
Qed.

Lemma deactivate_paces scope : paces (deactivate scope).
Proof.
  destruct scope as [script proxies name type value jitter stream duration started| |duration started|]; cbn [deactivate_fault];
    try (apply leads_to_on_os; auto with paces).
  - eapply leads_to_bind; [apply leads_to_on_os; auto with paces|]. intros ?. apply remove_toxics_paces.
  - eapply leads_to_bind; [apply leads_to_on_os; auto with paces|]. intros ?. apply resume_all_paces.
Qed.

Lemma assert_hit_paces scope : paces (assert_fault_hit tools scope).
Proof. destruct scope; cbn [assert_fault_hit]; first [apply leads_to_ret|apply leads_to_on_os; auto with paces]. Qed.
End signals.
End marks.
