(* ===== verification/Waits.v ===== *)
(** * Waits of a chaos run

    Models [QuiescenceInputs] of [tools/clustodian-chaos/src/lib.rs] and the waits of
    [tools/clustodian-chaos/src/main.rs]: [wait_for_quiescence], [wait_for_convergence],
    [wait_for_observer_recovery] and [assert_idle].

    The loops have fuel: every turn sleeps for 100 milliseconds, so a wait of [t]
    milliseconds takes at most [t / 100 + 1] turns and a last test; the theorems show
    that more fuel changes nothing. *)

From stdpp Require Import pretty.
From S2P Require Import Prelude Identity Keys ControllerRuntime Observe Chaos Supervisor Faults.

(** ** Quiescence *)

Record QuiescenceInputs := MkQuiescenceInputs {
  no_action_executing : bool;
  no_fault_awaiting_completion : bool;
  stopped_processes_resumed : bool;
  toxics_removed : bool;
  network_paths_restored : bool;
  callback_barriers_released : bool;
  no_hanging_callbacks : bool;
  etcd_quorum_available : bool;
  etcd_endpoints_reachable : bool;
  eligible_controller_running : bool;
  minimum_participants_healthy : bool;
  clock_perturbations_removed : bool;
  observer_connected : bool;
  observer_caught_up : bool
}.

Definition is_quiescent (self : QuiescenceInputs) : bool :=
  no_action_executing self && no_fault_awaiting_completion self && stopped_processes_resumed self && toxics_removed self
  && network_paths_restored self && callback_barriers_released self && no_hanging_callbacks self
  && etcd_quorum_available self && etcd_endpoints_reachable self && eligible_controller_running self
  && minimum_participants_healthy self && clock_perturbations_removed self && observer_connected self
  && observer_caught_up self.

Record QuiescenceRecord := MkQuiescenceRecord {
  qr_monotonic_millis : N;
  qr_observer_revision : Z;
  qr_authoritative_revision : Z;
  qr_processed_revision : option Z;
  qr_inputs : QuiescenceInputs;
  qr_stable : bool
}.

Record ProcessMetrics := MkProcessMetrics {
  process_count : N;
  task_count : N;
  cpu_jiffies : N;
  rss_bytes : N;
  open_fd_count : N
}.

(** The observer, the files and the metrics; [callback_kind] is the [kind] in a callback
    file, if it has one. *)
Record WaitTools (OS Value : Type) := MkWaitTools {
  observe : OS → result (ClusterSnapshot Value) string * OS;
  callback_kind : string → io OS (option string);
  append_quiescence : QuiescenceRecord → io OS unit;
  read_metrics : gmap string N → OS → ProcessMetrics;
  append_idle_window : N → Z → ProcessMetrics → ProcessMetrics → io OS unit
}.
Arguments observe {OS Value}. Arguments callback_kind {OS Value}. Arguments append_quiescence {OS Value}.
Arguments read_metrics {OS Value}. Arguments append_idle_window {OS Value}.

#[export] Instance ControllerMembership_eq_dec : EqDecision ControllerMembership.
Proof. solve_decision. Defined.

#[export] Instance PublishedTransition_eq_dec : EqDecision PublishedTransition.
Proof. solve_decision. Defined.

Section waits.
Context {OS Value : Type} `{EqDecision Value}.
Context (os : Machine OS) (tools : FaultTools OS) (waits : WaitTools OS Value) (config : SupervisorConfig).
Abbreviation world := (ProcessSupervisor * OS)%type.

(** [observer.snapshot().await.map_err(..)?] *)
Definition snapshot_or_fail : io OS (ClusterSnapshot Value) :=
  λ w, let '(r, w) := observe waits w in
       (match r with Ok snapshot => Ok snapshot | Err error => Err (InvalidArguments error) end, w).

Definition sleep_millis (d : N) : io OS unit := λ w, (Ok tt, sleep_for os d w).

Definition callback_is_hanging (participant : string) : io OS bool :=
  let file := callback_file config participant in
  λ w, if file_exists os file w then
         let '(kind, w) := callback_kind waits file w in
         (match kind with Ok kind => Ok (bool_decide (kind = Some "block")) | Err error => Err error end, w)
       else (Ok false, w).

Definition snapshot_caught_up (snapshot : ClusterSnapshot Value) : bool :=
  match obs_processed snapshot with
  | Some revision => (obs_authoritative snapshot <=? revision)%Z
  | None => false
  end.

(** [callback_is_hanging("node-1").unwrap_or(true)] *)
Definition hanging_or_true : io OS bool :=
  λ w, let '(hanging, w) := callback_is_hanging "node-1" w in
       (Ok (match hanging with Ok hanging => hanging | Err _ => true end), w).

(** The inputs of a turn. *)
Definition quiescence_inputs (s : ProcessSupervisor) (snapshot : ClusterSnapshot Value) (callback_hanging : bool) (w : OS)
  : QuiescenceInputs * OS :=
  let '(healthy, w) := expected_processes_healthy os s snapshot w in
  (MkQuiescenceInputs true true (all_processes_resumed s) (negb (has_active_toxics s)) (negb (has_active_toxics s)) true
     (negb callback_hanging) true true
     ((length (members_active (obs_controllers snapshot)) =? 1)%nat && expected_controller_membership_healthy s snapshot)
     healthy true true (snapshot_caught_up snapshot), w).

Definition record_inputs (snapshot : ClusterSnapshot Value) (inputs : QuiescenceInputs) : io OS unit :=
  λ w, append_quiescence waits
    (MkQuiescenceRecord (monotonic_millis os tools w) (obs_revision snapshot) (obs_authoritative snapshot)
       (obs_processed snapshot) inputs (is_quiescent inputs)) w.

(** A sample: the inputs of this moment, which are recorded. *)
Definition sample_quiescence : io world QuiescenceInputs :=
  let^ snapshot := on_os snapshot_or_fail in
  let^ hanging := on_os hanging_or_true in
  let^ s := gets id in
  let^ inputs := on_os (λ w, let '(inputs, w) := quiescence_inputs s snapshot hanging w in (Ok inputs, w)) in
  let^ _ := on_os (record_inputs snapshot inputs) in
  io_ret inputs.

Definition not_reached : ChaosError := InvalidArguments "quiescence stability interval was not reached".

Definition resume_if_needed : io world unit :=
  let^ s := gets id in if all_processes_resumed s then io_ret tt else resume_all os.

(** One turn; [None] is the end of the wait, otherwise the new [stable_since]. *)
Definition quiescence_turn (stability deadline : N) (stable_since : option N) : io world (option (option N)) :=
  let^ time := on_os (now os) in
  if (time <? deadline)%N then
    let^ inputs := sample_quiescence in
    if is_quiescent inputs then
      let^ time := on_os (now os) in
      let since := default time stable_since in
      if (stability <=? time - since)%N then io_ret None
      else let^ _ := on_os (sleep_millis 100) in io_ret (Some (Some since))
    else
      let^ _ := resume_if_needed in
      let^ _ := on_os (sleep_millis 100) in io_ret (Some None)
  else io_fail not_reached.

Fixpoint quiescence_loop (fuel : nat) (stability deadline : N) (stable_since : option N) : io world unit :=
  match fuel with
  | O => io_fail not_reached
  | S fuel =>
      let^ next := quiescence_turn stability deadline stable_since in
      match next with
      | None => io_ret tt
      | Some stable_since => quiescence_loop fuel stability deadline stable_since
      end
  end.

(** [env::var(name).ok().and_then(|value| value.parse().ok()).unwrap_or(d)] *)
Definition millis_or (name : string) (d : N) : io OS N :=
  λ w, (Ok (default d (variable os name w ≫= parse_unsigned u64_MAX)), w).

Definition wait_for_quiescence : io world unit :=
  let^ stability := on_os (millis_or "CLUSTODIAN_CHAOS_STABILITY_MILLISECONDS" 2000) in
  let^ timeout := on_os (millis_or "CLUSTODIAN_CHAOS_QUIESCENCE_TIMEOUT_MILLISECONDS" 60000) in
  let^ time := on_os (now os) in
  quiescence_loop (N.to_nat (timeout / 100) + 2) stability (time + timeout)%N None.

(** ** Convergence, recovery and idleness *)

Context (safety : ClusterSnapshot Value → list InvariantViolation).
Context (convergence : ClusterSnapshot Value → ClusterConfig → list InvariantViolation).

Fixpoint convergence_loop (fuel : nat) (deadline : N) (config : ClusterConfig) : io OS unit :=
  match fuel with
  | O => io_fail (InvalidArguments "convergence deadline expired")
  | S fuel =>
      let^ snapshot := snapshot_or_fail in
      match safety snapshot with
      | violation :: _ => io_fail (ChaosInvariant violation)
      | [] =>
          match convergence snapshot config with
          | [] => io_ret tt
          | _ =>
              let^ time := now os in
              if (deadline <=? time)%N then io_fail (InvalidArguments "convergence deadline expired")
              else let^ _ := sleep_millis 100 in convergence_loop fuel deadline config
          end
      end
  end.

Definition wait_for_convergence (deadline_milliseconds : N) (config : ClusterConfig) : io OS unit :=
  let^ time := now os in
  convergence_loop (N.to_nat (deadline_milliseconds / 100) + 2) (time + deadline_milliseconds)%N config.

Fixpoint recovery_loop (fuel : nat) (deadline : N) (minimum_revision : Z) : io OS unit :=
  match fuel with
  | O => io_fail (InvalidArguments "etcd quorum did not recover")
  | S fuel => λ w,
      let '(snapshot, w) := observe waits w in
      if match snapshot with Ok snapshot => (minimum_revision <=? obs_revision snapshot)%Z | Err _ => false end then (Ok tt, w)
      else if (deadline <=? clock os w)%N then (Err (InvalidArguments "etcd quorum did not recover"), w)
      else recovery_loop fuel deadline minimum_revision (sleep_for os 100 w)
  end.

Definition wait_for_observer_recovery (minimum_revision : Z) : io OS unit :=
  let^ time := now os in recovery_loop 302 (time + 30000)%N minimum_revision.

Definition idle_violation (name detail : string) (after : ClusterSnapshot Value) : ChaosError :=
  ChaosInvariant (MkViolation Convergence name detail (obs_revision after)).

(** The comparison of the two ends of an idle window. *)
Definition idle_verdict (max_cpu_jiffies : N) (max_revision_delta : Z) (before after : ClusterSnapshot Value)
    (cpu_jiffies_delta : N) : option ChaosError :=
  let revision_delta := (obs_revision after - obs_revision before)%Z in
  if (max_cpu_jiffies <? cpu_jiffies_delta)%N then
    Some (idle_violation "idle_cpu" ("idle window consumed " +:+ pretty cpu_jiffies_delta +:+ " CPU jiffies, maximum is "
            +:+ pretty max_cpu_jiffies) after)
  else if (max_revision_delta <? revision_delta)%Z then
    Some (idle_violation "idle_semantic_writes" ("idle window advanced etcd revision by " +:+ pretty revision_delta
            +:+ ", maximum is " +:+ pretty max_revision_delta) after)
  else if negb (bool_decide (obs_external_view before = obs_external_view after))
          || negb (bool_decide (obs_pending before = obs_pending after))
          || negb (bool_decide (obs_controllers before = obs_controllers after)) then
    Some (idle_violation "idle_semantic_state" "semantic state changed during idle window" after)
  else None.

Definition assert_idle (seconds : N) : io world unit :=
  let^ before := on_os snapshot_or_fail in
  let^ ids := gets process_ids in
  let^ process_before := on_os (λ w, (Ok (read_metrics waits ids w), w)) in
  let^ _ := on_os (sleep_millis (seconds * 1000)) in
  let^ after := on_os snapshot_or_fail in
  let^ process_after := on_os (λ w, (Ok (read_metrics waits ids w), w)) in
  let^ max_revision_delta := on_os (λ w,
    (Ok (default 0%Z (variable os "CLUSTODIAN_CHAOS_IDLE_MAX_REVISION_DELTA" w ≫= parse_i64)), w)) in
  let^ max_cpu_jiffies := on_os (millis_or "CLUSTODIAN_CHAOS_IDLE_MAX_CPU_JIFFIES" 500) in
  match idle_verdict max_cpu_jiffies max_revision_delta before after (cpu_jiffies process_after - cpu_jiffies process_before)%N with
  | Some error => io_fail error
  | None => on_os (append_idle_window waits seconds (obs_revision after - obs_revision before)%Z process_before process_after)
  end.
End waits.

(** * Facts *)

Section wait_facts.
Context {OS Value : Type} (os : Machine OS) (tools : FaultTools OS) (waits : WaitTools OS Value) (config : SupervisorConfig).
Context (samples : OS → list QuiescenceRecord).

(** Time passes, and the log of the samples stays as it is. *)
Definition passes {A} (m : io OS A) : Prop :=
  ∀ w, (clock os w ≤ clock os (m w).2)%N ∧ samples (m w).2 = samples w.

(** [samples] is the log that [append_quiescence] writes, and nothing else does. *)
Record sampled : Prop := {
  sampled_append : ∀ record w, (clock os w ≤ clock os (append_quiescence waits record w).2)%N ∧
    samples (append_quiescence waits record w).2 = samples w ++ [record];
  sampled_sleep : ∀ d w, (clock os w + d ≤ clock os (sleep_for os d w))%N ∧ samples (sleep_for os d w) = samples w;
  sampled_observe : ∀ w, (clock os w ≤ clock os (observe waits w).2)%N ∧ samples (observe waits w).2 = samples w;
  sampled_kind : ∀ file, passes (callback_kind waits file);
  sampled_wait : ∀ pid, passes (try_wait os pid);
  sampled_signal : ∀ signal pid, passes (kill_command os signal pid)
}.
Context (Hsampled : sampled).

Lemma passes_bind {A B} (m : io OS A) (k : A → io OS B) : passes m → (∀ a, passes (k a)) → passes (io_bind m k).
Proof.
  intros Hm Hk w. unfold io_bind. destruct (Hm w) as [Ht Hs]. destruct (m w) as [[a|e] w']; [|done]. cbn [snd] in *.
  destruct (Hk a w') as [Ht' Hs']. split; [lia|congruence].
Qed.

Lemma passes_pure {A} (f : OS → result A ChaosError) : passes (λ w, (f w, w)).
Proof. intros w. split; [apply N.le_refl|done]. Qed.

Lemma passes_ret {A} (a : A) : passes (io_ret a).
Proof. apply passes_pure. Qed.

Lemma passes_fail {A} e : passes (io_fail (A := A) e).
Proof. apply passes_pure. Qed.

Lemma passes_snapshot : passes (snapshot_or_fail waits).
Proof. intros w. unfold snapshot_or_fail. pose proof (sampled_observe Hsampled w) as H. by destruct (observe waits w). Qed.

Lemma passes_hanging : passes (hanging_or_true os waits config).
Proof.
  intros w. unfold hanging_or_true, callback_is_hanging. destruct (file_exists os _ w); [|split; [apply N.le_refl|done]].
  pose proof (sampled_kind Hsampled (callback_file config "node-1") w) as H. by destruct (callback_kind waits _ w).
Qed.

Lemma child_running_passes pid w :
  (clock os w ≤ clock os (child_running os pid w).2)%N ∧ samples (child_running os pid w).2 = samples w.
Proof. unfold child_running. pose proof (sampled_wait Hsampled pid w) as H. by destruct (try_wait os pid w). Qed.

Lemma all_running_passes {A} (check : A → OS → bool * OS) l w :
  (∀ x w, (clock os w ≤ clock os (check x w).2)%N ∧ samples (check x w).2 = samples w) →
  (clock os w ≤ clock os (all_running check l w).2)%N ∧ samples (all_running check l w).2 = samples w.
Proof.
  intros Hc. revert w. induction l as [|x l IH]; intros w; cbn [all_running]; [split; [apply N.le_refl|done]|].
  destruct (Hc x w) as [Ht Hs]. destruct (check x w) as [[] w']; [|done]. cbn [snd] in *. destruct (IH w') as [Ht' Hs'].
  split; [lia|congruence].
Qed.

Lemma quiescence_inputs_passes s snapshot hanging :
  passes (λ w, let '(inputs, w) := quiescence_inputs os (Value := Value) s snapshot hanging w in (Ok inputs, w)).
Proof.
  intros w. unfold quiescence_inputs, expected_processes_healthy.
  assert (∀ (children : gmap string N) (listed : string → bool) id w,
    let check := (λ w, match children !! id with
      | None => (false, w)
      | Some pid => let '(running, w) := child_running os pid w in (running && listed id, w) end) in
    (clock os w ≤ clock os (check w).2)%N ∧ samples (check w).2 = samples w) as Hcheck.
  { intros children listed id w0. cbn. destruct (children !! id) as [pid|]; [|split; [apply N.le_refl|done]].
    pose proof (child_running_passes pid w0) as H. by destruct (child_running os pid w0). }
  match goal with |- context [all_running ?c ?l w] => pose proof (all_running_passes c l w) as H1; destruct (all_running c l w) as [b1 w1] end.
  match goal with |- context [all_running ?c ?l w1] => pose proof (all_running_passes c l w1) as H2; destruct (all_running c l w1) as [b2 w2] end.
  cbn [snd] in *. destruct H1 as [Ht1 Hs1]; [intros; apply Hcheck|]. destruct H2 as [Ht2 Hs2]; [intros; apply Hcheck|].
  split; [lia|congruence].
Qed.

Lemma on_os_Ok {A} (m : io OS A) s w a s' w' : on_os m (s, w) = (Ok a, (s', w')) → s' = s ∧ m w = (Ok a, w').
Proof. unfold on_os. destruct (m w) as [r w1]. by intros [= -> <- <-]. Qed.

(** What a sample adds to the log: its inputs, at a time between its ends. *)
Lemma sample_spec s w inputs s' w' :
  sample_quiescence os tools waits config (s, w) = (Ok inputs, (s', w')) →
  s' = s ∧ (clock os w ≤ clock os w')%N ∧
  ∃ record, samples w' = samples w ++ [record] ∧ qr_inputs record = inputs ∧ qr_stable record = is_quiescent inputs ∧
    (clock os w - origin tools ≤ qr_monotonic_millis record ≤ clock os w' - origin tools)%N.
Proof.
  unfold sample_quiescence. intros (snapshot & [s1 w1] & [-> H1]%on_os_Ok & Hrun)%io_bind_Ok.
  apply io_bind_Ok in Hrun as (hanging & [s2 w2] & [-> H2]%on_os_Ok & Hrun).
  apply io_bind_Ok in Hrun as (s3 & [s3' w3] & [= <- <- <-] & Hrun).
  apply io_bind_Ok in Hrun as (inputs' & [s4 w4] & [-> H4]%on_os_Ok & Hrun).
  apply io_bind_Ok in Hrun as (u & [s5 w5] & [-> H5]%on_os_Ok & Hrun). injection Hrun as -> <- <-.
  pose proof (passes_snapshot w) as P1. rewrite H1 in P1. pose proof (passes_hanging w1) as P2. rewrite H2 in P2.
  pose proof (quiescence_inputs_passes s snapshot hanging w2) as P4. cbv beta in P4. rewrite H4 in P4. cbn [snd] in *.
  unfold record_inputs in H5. match type of H5 with append_quiescence _ ?r _ = _ => set (record := r) in H5 end.
  pose proof (sampled_append Hsampled record w4) as P5. rewrite H5 in P5. cbn [snd] in P5.
  split; [done|]. split; [lia|]. exists record. split; [|split; [done|split; [done|]]].
  - destruct P5 as [_ ->], P4 as [_ ->], P2 as [_ ->], P1 as [_ ->]. done.
  - unfold record, monotonic_millis. cbn [qr_monotonic_millis]. lia.
Qed.

Lemma passes_resume_each s identities : passes (resume_each os s identities).
Proof.
  induction identities as [|identity identities IH]; cbn [resume_each]; [apply passes_ret|]. apply passes_bind; [|auto].
  destruct (suspended_child s identity) as [pid|]; [|apply passes_ret]. intros w. unfold resume_child.
  destruct (child_running_passes pid w) as [Ht Hs]. destruct (child_running os pid w) as [[] w1]; [|done]. cbn [snd] in *.
  assert (passes (send_signal os pid "-CONT")) as Hp.
  { apply passes_bind; [apply sampled_signal, Hsampled|]. intros []; [apply passes_ret|apply passes_fail]. }
  destruct (Hp w1) as [Ht' Hs']. split; [lia|congruence].
Qed.

Lemma resume_if_needed_passes s w :
  (clock os w ≤ clock os (resume_if_needed os (s, w)).2.2)%N ∧ samples (resume_if_needed os (s, w)).2.2 = samples w.
Proof.
  unfold resume_if_needed, io_bind, gets. cbn [id]. destruct (all_processes_resumed s); [split; [apply N.le_refl|done]|].
  unfold resume_all, io_bind, gets, modify, on_os. cbn.
  match goal with |- context [resume_each os ?t ?l w] => pose proof (passes_resume_each t l w) as Hp; by destruct (resume_each os t l w) end.
Qed.

(** An uninterrupted streak of stable samples, all in the part of the log after [base],
    the first of which was taken at [t] or before. *)
Definition streak (base log : list QuiescenceRecord) (t : N) : Prop :=
  ∃ l1 first l2, log = base ++ l1 ++ first :: l2 ∧ Forall (λ r, is_quiescent (qr_inputs r) = true) (first :: l2) ∧
    (qr_monotonic_millis first ≤ t - origin tools)%N.

Lemma streak_snoc base log t record :
  streak base log t → is_quiescent (qr_inputs record) = true → streak base (log ++ [record]) t.
Proof.
  intros (l1 & first & l2 & -> & HF & Ht) Hr. exists l1, first, (l2 ++ [record]). split_and!; [|apply (Forall_app_2 _ (first :: l2)); [done|by apply Forall_singleton]|done].
  by rewrite <- !app_assoc.
Qed.

Lemma streak_start base l1 t record :
  is_quiescent (qr_inputs record) = true → (qr_monotonic_millis record ≤ t - origin tools)%N →
  streak base ((base ++ l1) ++ [record]) t.
Proof. intros Hr Ht. exists l1, record, []. split_and!; [by rewrite <- app_assoc|by apply Forall_singleton|done]. Qed.

(** A turn that goes on takes 100 milliseconds. *)
Lemma quiescence_turn_time stability deadline since s w since' s' w' :
  quiescence_turn os tools waits config stability deadline since (s, w) = (Ok (Some since'), (s', w')) →
  (clock os w + 100 ≤ clock os w')%N.
Proof.
  unfold quiescence_turn. intros (time & [s1 w1] & [-> [= <- <-]]%on_os_Ok & Hrun)%io_bind_Ok. case_match; [|done].
  apply io_bind_Ok in Hrun as (inputs & [s2 w2] & Hsample & Hrun).
  destruct (sample_spec _ _ _ _ _ Hsample) as (-> & Ht & _). destruct (is_quiescent inputs).
  - apply io_bind_Ok in Hrun as (time' & [s3 w3] & [-> [= <- <-]]%on_os_Ok & Hrun). case_match; [done|].
    apply io_bind_Ok in Hrun as (v & [s4 w4] & [-> [= _ <-]]%on_os_Ok & [= _ _ <-]).
    destruct (sampled_sleep Hsampled 100 w2) as [Hs1 _]. lia.
  - apply io_bind_Ok in Hrun as (v & [s3 w3] & Hres & Hrun). pose proof (resume_if_needed_passes s w2) as [Hp _]. rewrite Hres in Hp.
    cbn [fst snd] in Hp. apply io_bind_Ok in Hrun as (v' & [s4 w4] & [-> [= _ <-]]%on_os_Ok & [= _ _ <-]).
    destruct (sampled_sleep Hsampled 100 w3) as [Hs1 _]. lia.
Qed.

(** A turn that goes on starts, keeps or ends the streak; a turn that ends the wait has a streak of the length of the stability interval. *)
Lemma quiescence_turn_spec stability deadline since base l s w next s' w' :
  (origin tools ≤ clock os w)%N → samples w = base ++ l →
  match since with Some t => streak base (samples w) t ∧ (origin tools ≤ t ≤ clock os w)%N | None => True end →
  quiescence_turn os tools waits config stability deadline since (s, w) = (Ok next, (s', w')) →
  (clock os w < deadline)%N ∧ (∃ more, samples w' = base ++ l ++ more) ∧
  match next with
  | None => ∃ t, streak base (samples w') t ∧ (origin tools ≤ t)%N ∧ (t + stability ≤ clock os w')%N
  | Some (Some t) => streak base (samples w') t ∧ (origin tools ≤ t ≤ clock os w')%N
  | Some None => True
  end.
Proof.
  intros Ho Hbase Hsince. unfold quiescence_turn.
  intros (time & [s1 w1] & [-> [= <- <-]]%on_os_Ok & Hrun)%io_bind_Ok. destruct (N.ltb_spec (clock os w) deadline) as [Hlt|]; [|done].
  apply io_bind_Ok in Hrun as (inputs & [s2 w2] & Hsample & Hrun).
  destruct (sample_spec _ _ _ _ _ Hsample) as (-> & Ht & record & Hlog & Hin & _ & Hm1 & Hm2).
  assert (samples w2 = base ++ l ++ [record]) as Hlog2 by (by rewrite Hlog, Hbase, app_assoc).
  split; [done|]. destruct (is_quiescent inputs) eqn:Hq.
  - apply io_bind_Ok in Hrun as (time' & [s3 w3] & [-> [= <- <-]]%on_os_Ok & Hrun). rewrite <- Hin in Hq.
    assert (streak base (samples w2) (default (clock os w2) since) ∧
      (origin tools ≤ default (clock os w2) since ≤ clock os w2)%N) as [Hstreak Hd].
    { rewrite Hlog. destruct since as [t|]; cbn [default].
      - destruct Hsince as [Hst Ht0]. split; [by apply streak_snoc|cbn; lia].
      - rewrite Hbase. split; [by apply streak_start|cbn; lia]. }
    destruct (N.leb_spec stability (clock os w2 - default (clock os w2) since)%N) as [Hle|].
    + injection Hrun as <- <- <-. split; [by eexists|]. exists (default (clock os w2) since). split_and!; [done|lia|lia].
    + apply io_bind_Ok in Hrun as (v & [s4 w4] & [-> [= _ <-]]%on_os_Ok & [= <- <- <-]).
      destruct (sampled_sleep Hsampled 100 w2) as [Hs1 Hs2]. rewrite Hs2. split; [by eexists|]. split; [done|lia].
  - apply io_bind_Ok in Hrun as (v & [s3 w3] & Hres & Hrun). pose proof (resume_if_needed_passes s w2) as Hp. rewrite Hres in Hp.
    cbn [fst snd] in Hp. apply io_bind_Ok in Hrun as (v' & [s4 w4] & [-> [= _ <-]]%on_os_Ok & [= <- <- <-]).
    destruct (sampled_sleep Hsampled 100 w3) as [Hs1 Hs2]. destruct Hp as [Hp1 Hp2]. rewrite Hs2, Hp2.
    split; [by eexists|done].
Qed.

Lemma quiescence_loop_stable fuel stability deadline since base l s w u s' w' :
  (origin tools ≤ clock os w)%N → samples w = base ++ l →
  match since with Some t => streak base (samples w) t ∧ (origin tools ≤ t ≤ clock os w)%N | None => True end →
  quiescence_loop os tools waits config fuel stability deadline since (s, w) = (Ok u, (s', w')) →
  ∃ t, streak base (samples w') t ∧ (origin tools ≤ t)%N ∧ (t + stability ≤ clock os w')%N.
Proof.
  revert since l s w. induction fuel as [|fuel IH]; intros since l s w Ho Hbase Hsince; cbn [quiescence_loop]; [done|].
  intros (next & [s1 w1] & Hturn & Hrun)%io_bind_Ok.
  destruct (quiescence_turn_spec _ _ _ _ _ _ _ _ _ _ Ho Hbase Hsince Hturn) as (_ & [more Hmore] & Hnext).
  destruct next as [since'|]; [|by injection Hrun as _ <- <-]. pose proof (quiescence_turn_time _ _ _ _ _ _ _ _ Hturn).
  apply (IH since' (l ++ more) s1 w1); [lia|done|done|exact Hrun].
Qed.

(** The fuel is used up only after the deadline. *)
Lemma quiescence_loop_fuel fuel more stability deadline since s w :
  (deadline ≤ clock os w + N.of_nat fuel * 100)%N →
  quiescence_loop os tools waits config (S fuel + more) stability deadline since (s, w) =
  quiescence_loop os tools waits config (S fuel) stability deadline since (s, w).
Proof.
  revert since s w. induction fuel as [|fuel IH]; intros since s w Hd.
  { cbn [quiescence_loop Nat.add]. unfold quiescence_turn, io_bind, on_os, now. by rewrite (proj2 (N.ltb_ge _ _)) by lia. }
  change (S (S fuel) + more)%nat with (S (S fuel + more)). cbn [quiescence_loop]. unfold io_bind at 1 2.
  destruct (quiescence_turn os tools waits config stability deadline since (s, w)) as [[[since'|]|e] [s' w']] eqn:Hturn; try done.
  apply IH. pose proof (quiescence_turn_time _ _ _ _ _ _ _ _ Hturn). lia.
Qed.
End wait_facts.

(** C24: quiescence is claimed only after a stable interval: when the wait returns, the
    log of this wait ends in samples in every one of which all fourteen inputs hold, and
    the first of them was taken at least the stability interval before the end.  The wait
    always ends: its fuel is used up only after the deadline, so more of it gives the
    same result. *)
Theorem quiescence_stable {OS Value} (os : Machine OS) (tools : FaultTools OS) (waits : WaitTools OS Value) config samples s w :
  sampled os waits samples → (origin tools ≤ clock os w)%N →
  let stability := default 2000%N (variable os "CLUSTODIAN_CHAOS_STABILITY_MILLISECONDS" w ≫= parse_unsigned u64_MAX) in
  let timeout := default 60000%N (variable os "CLUSTODIAN_CHAOS_QUIESCENCE_TIMEOUT_MILLISECONDS" w ≫= parse_unsigned u64_MAX) in
  (∀ more, quiescence_loop os tools waits config (N.to_nat (timeout / 100) + 2 + more) stability (clock os w + timeout) None (s, w)
           = wait_for_quiescence os tools waits config (s, w)) ∧
  ∀ u s' w', wait_for_quiescence os tools waits config (s, w) = (Ok u, (s', w')) →
    ∃ l1 first l2, samples w' = samples w ++ l1 ++ first :: l2 ∧
      Forall (λ r, is_quiescent (qr_inputs r) = true) (first :: l2) ∧
      (qr_monotonic_millis first + stability ≤ monotonic_millis os tools w')%N.
Proof.
  intros Hs Ho stability timeout.
  assert (wait_for_quiescence os tools waits config (s, w) =
    quiescence_loop os tools waits config (N.to_nat (timeout / 100) + 2) stability (clock os w + timeout) None (s, w)) as Heq by done.
  rewrite Heq. split.
  - intros more. replace (N.to_nat (timeout / 100) + 2)%nat with (S (N.to_nat (timeout / 100) + 1)) by lia.
    apply (quiescence_loop_fuel os tools waits config samples Hs).
    pose proof (N.div_mod timeout 100). pose proof (N.mod_lt timeout 100). lia.
  - intros u s' w' Hrun. destruct (quiescence_loop_stable os tools waits config samples Hs _ _ _ None (samples w) [] _ _ _ _ _ Ho
      (eq_sym (app_nil_r _)) I Hrun) as (t & (l1 & first & l2 & Hlog & HF & Hf) & Hot & Ht).
    exists l1, first, l2. split; [done|]. split; [done|]. unfold monotonic_millis. lia.
Qed.

(** *** A quiet cluster *)

Definition quiet_snapshot : ClusterSnapshot unit :=
  MkClusterSnapshot 9 8 (Some 8%Z) (MkControllerMembership ["controller-a"] []) ∅ ∅ tt [] [].

Abbreviation quiet_os := (N * list QuiescenceRecord)%type.

Definition quiet_ok {A B} (b : B) (_ : A) : io quiet_os B := io_ret b.

Definition quiet_machine : Machine quiet_os :=
  MkMachine _ (quiet_ok tt) (quiet_ok 1%N) (quiet_ok None) (quiet_ok tt) (quiet_ok tt) (λ _, quiet_ok true) fst
    (λ d w, (w.1 + d, w.2)%N) (λ _ _, false) (λ _, quiet_ok tt) (quiet_ok tt) (λ _ _, None).

Definition quiet_tools : FaultTools quiet_os :=
  MkFaultTools _ (λ _, quiet_ok true) (λ _, quiet_ok tt) (quiet_ok tt) (λ _, None) (quiet_ok []) 0 (io_ret 9%Z)
    (λ _ _ _, quiet_ok tt).

Definition quiet_waits : WaitTools quiet_os unit :=
  MkWaitTools _ _ (λ w, (Ok quiet_snapshot, w)) (quiet_ok None) (λ r w, (Ok tt, (w.1, w.2 ++ [r]))) (λ _ _, MkProcessMetrics 0 0 0 0 0)
    (λ _ _ _, quiet_ok tt).

Definition quiet_config : SupervisorConfig := MkSupervisorConfig "work" "chaos" "/chaos" "" "" "" false.

Lemma quiet_sampled : sampled quiet_machine quiet_waits snd.
Proof. split; intros; try intros w'; (split; [apply N.le_refl|done]). Qed.

Lemma quiescence_stable_witness : ∃ w',
  wait_for_quiescence quiet_machine quiet_tools quiet_waits quiet_config (initial_supervisor, (5, [])%N) =
    (Ok tt, (initial_supervisor, w')) ∧
  ∃ l1 first l2, w'.2 = [] ++ l1 ++ first :: l2 ∧ Forall (λ r, is_quiescent (qr_inputs r) = true) (first :: l2) ∧
    (qr_monotonic_millis first + 2000 ≤ monotonic_millis quiet_machine quiet_tools w')%N.
Proof.
  eexists. split; [vm_compute; reflexivity|].
  eapply (quiescence_stable quiet_machine quiet_tools quiet_waits quiet_config snd initial_supervisor (5, [])%N quiet_sampled);
    [apply N.le_0_l|vm_compute; reflexivity].
Defined.
