(* ===== verification/Execute.v ===== *)
(** * Execution of traces

    Models [execute_trace] and [apply_action] of [tools/clustodian-chaos/src/main.rs]
    from the point where the stack is up: the walk over the actions with one cursor in
    the list of faults, the budget that admits faults and failures, the activation and
    cleanup of faults around an action, and the checks after it.  The processes, the
    toxics and the clients are the operations of a [Stack] on a world.

    [schedule] computes, from a trace alone, which faults and actions the budget admits
    and what each of them asks of the stack.  On an executable trace a run that returns
    has asked for exactly that, with one safe snapshot after every admitted action, and
    the run of a generated trace returns on every stack that does what can be done.  The
    file also joins the minimizer with the administration of the crate: reductions that
    the crate refuses. *)

From stdpp Require Import pretty.
From S2P Require Import Prelude Identity StateMaps StateModel Crush SemiAuto ControllerRuntime Metadata Admin Observe.
From S2P Require Import Chaos Oracle Minimizer.

(** ** The stack *)

(** What [ProcessSupervisor], the admin client, the observer and the fault tools do. *)
Record Stack (World Value Scope : Type) := MkStack {
  start_controller : string → io World unit;
  stop_controller : string → io World unit;
  crash_controller : string → io World unit;
  start_participant : ParticipantConfig → io World unit;
  stop_participant : string → io World unit;
  crash_participant : string → io World unit;
  admin_put_instance : ParticipantConfig → io World unit;
  admin_remove_instance : string → io World unit;
  admin_put_resource : ResourceSpec → io World unit;
  admin_put_throttles : list ThrottleSpec → io World unit;
  sleep_milliseconds : N → io World unit;
  wait_for_quiescence : io World unit;
  wait_for_convergence : N → ClusterConfig → io World unit;
  assert_idle : N → io World unit;
  activate_fault : Fault → io World (option Scope);
  deactivate_fault : Scope → io World unit;
  assert_fault_hit : Scope → io World unit;
  observer_violations : World → list InvariantViolation;
  take_snapshot : io World (ClusterSnapshot Value);
  record_observation : ClusterSnapshot Value → io World unit;
  record_metrics : nat → Action → ClusterSnapshot Value → io World unit
}.
Arguments start_controller {World Value Scope}. Arguments stop_controller {World Value Scope}.
Arguments crash_controller {World Value Scope}. Arguments start_participant {World Value Scope}.
Arguments stop_participant {World Value Scope}. Arguments crash_participant {World Value Scope}.
Arguments admin_put_instance {World Value Scope}. Arguments admin_remove_instance {World Value Scope}.
Arguments admin_put_resource {World Value Scope}. Arguments admin_put_throttles {World Value Scope}.
Arguments sleep_milliseconds {World Value Scope}. Arguments wait_for_quiescence {World Value Scope}.
Arguments wait_for_convergence {World Value Scope}. Arguments assert_idle {World Value Scope}.
Arguments activate_fault {World Value Scope}. Arguments deactivate_fault {World Value Scope}.
Arguments assert_fault_hit {World Value Scope}. Arguments observer_violations {World Value Scope}.
Arguments take_snapshot {World Value Scope}. Arguments record_observation {World Value Scope}.
Arguments record_metrics {World Value Scope}.

(** ** Actions *)

(** The specification that [put_resource] sends: the number of partitions, not their
    names. *)
Definition resource_spec (resource : ResourceConfig) : ResourceSpec :=
  MkResourceSpec (rc_name resource) (len (rc_partitions resource)) (rc_replicas resource) "LeaderStandby"
    (match rc_placement resource with
     | ConfigCrush => PlaceCrush
     | ConfigSemiAuto preference_lists => PlaceSemiAuto preference_lists
     end).

Definition find_participant (config : ClusterConfig) (id : string) : option ParticipantConfig :=
  find_first (λ participant, String.eqb (pc_id participant) id) (cc_participants config).

Definition with_participants (config : ClusterConfig) (participants : list ParticipantConfig) : ClusterConfig :=
  MkClusterConfig (cc_controllers config) participants (cc_resources config) (cc_throttles config).

Definition with_preference (resource : ResourceConfig) (preference_lists : gmap string (list string)) : ResourceConfig :=
  MkResourceConfig (rc_name resource) (rc_partitions resource) (rc_replicas resource) (ConfigSemiAuto preference_lists).

(** The first resource of the name gets the new list. *)
Fixpoint set_preference (name partition : string) (instances : list string) (resources : list ResourceConfig)
  : list ResourceConfig :=
  match resources with
  | [] => []
  | resource :: rest =>
      if String.eqb (rc_name resource) name then
        match rc_placement resource with
        | ConfigSemiAuto preference_lists => with_preference resource (<[partition := instances]> preference_lists) :: rest
        | ConfigCrush => resource :: rest
        end
      else resource :: set_preference name partition instances rest
  end.

Section execute.
Context {World Value Scope : Type} (stack : Stack World Value Scope).
Abbreviation io := (io World).

Definition start_known (config : ClusterConfig) (id : string) : io unit :=
  match find_participant config id with
  | Some participant => start_participant stack participant
  | None => io_fail (InvalidArguments ("unknown participant " +:+ id))
  end.

(** The new configuration is the value: the source changes it in place. *)
Definition apply_action (config : ClusterConfig) (action : Action) : io ClusterConfig :=
  match action with
  | StartController id => let^ _ := start_controller stack id in io_ret config
  | RestartController id =>
      let^ _ := stop_controller stack id in
      let^ _ := start_controller stack id in io_ret config
  | GracefulStopController id => let^ _ := stop_controller stack id in io_ret config
  | CrashController id => let^ _ := crash_controller stack id in io_ret config
  | StartParticipant id => let^ _ := start_known config id in io_ret config
  | RestartParticipant id =>
      let^ _ := stop_participant stack id in
      let^ _ := start_known config id in io_ret config
  | GracefulStopParticipant id => let^ _ := stop_participant stack id in io_ret config
  | CrashParticipant id => let^ _ := crash_participant stack id in io_ret config
  | AddParticipant participant =>
      let^ _ := admin_put_instance stack participant in
      let^ _ := start_participant stack participant in
      io_ret (match find_participant config (pc_id participant) with
              | Some _ => config
              | None => with_participants config (sort_by_key pc_id (cc_participants config ++ [participant]))
              end)
  | RemoveParticipant id =>
      let^ _ := stop_participant stack id in
      let^ _ := admin_remove_instance stack id in
      io_ret (with_participants config
                (List.filter (λ participant, negb (String.eqb (pc_id participant) id)) (cc_participants config)))
  | CreateResource resource => let^ _ := admin_put_resource stack (resource_spec resource) in io_ret config
  | ModifyPreferenceList name partition instances =>
      match find_first (λ candidate, String.eqb (rc_name candidate) name) (cc_resources config) with
      | None => io_fail (InvalidArguments ("unknown resource " +:+ name))
      | Some resource =>
          match rc_placement resource with
          | ConfigCrush => io_fail (InvalidArguments "preference lists require SEMI_AUTO placement")
          | ConfigSemiAuto preference_lists =>
              let^ _ := admin_put_resource stack
                (resource_spec (with_preference resource (<[partition := instances]> preference_lists))) in
              io_ret (MkClusterConfig (cc_controllers config) (cc_participants config)
                        (set_preference name partition instances (cc_resources config)) (cc_throttles config))
          end
      end
  | ChangeThrottle throttle =>
      let^ _ := admin_put_throttles stack
        [MkThrottleSpec (Chaos.tc_scope throttle) (tc_rebalance_type throttle) (tc_max_in_flight throttle)] in io_ret config
  | Wait milliseconds => let^ _ := sleep_milliseconds stack milliseconds in io_ret config
  | RequestQuiescence => let^ _ := wait_for_quiescence stack in io_ret config
  | WaitForConvergence deadline =>
      let^ _ := wait_for_quiescence stack in
      let^ _ := wait_for_convergence stack deadline config in io_ret config
  | AssertIdle seconds => let^ _ := assert_idle stack seconds in io_ret config
  end.

(** ** The run *)

(** The checks after an action; [convergence] is [check_convergence], whose CRUSH
    computation is assumed to return. *)
Variable safety : ClusterSnapshot Value → list InvariantViolation.
Variable convergence : ClusterSnapshot Value → ClusterConfig → list InvariantViolation.

Record Run := MkRun { run_budget : FaultBudget; cursor : nat; run_config : ClusterConfig }.

(** The [while] loop at an action, over the faults from the cursor on. *)
Fixpoint activate_due (index : nat) (pending : list ScheduledFault) (budget : FaultBudget) (position : nat)
    (active : list Scope) : io (FaultBudget * nat * list Scope) :=
  match pending with
  | [] => io_ret (budget, position, active)
  | scheduled :: rest =>
      if (action_index scheduled =? index)%nat then
        let '(answer, budget) := admit_fault budget (sf_fault scheduled) in
        if is_admitted answer then
          let^ scope := activate_fault stack (sf_fault scheduled) in
          activate_due index rest budget (S position) (active ++ option_list scope)
        else activate_due index rest budget (S position) active
      else io_ret (budget, position, active)
  end.

(** [while let Some(scope) = active_faults.pop()] for a refused action: the list is
    given from its end. *)
Fixpoint discard_faults (active : list Scope) : io unit :=
  match active with
  | [] => io_ret tt
  | scope :: rest =>
      let^ _ := deactivate_fault stack scope in
      let^ _ := assert_fault_hit stack scope in
      discard_faults rest
  end.

(** The same after an action: every fault is deactivated, the first error is kept. *)
Fixpoint cleanup_faults (active : list Scope) (cleanup_error : option ChaosError) (w : World)
  : option ChaosError * World :=
  match active with
  | [] => (cleanup_error, w)
  | scope :: rest =>
      let '(deactivated, w) := deactivate_fault stack scope w in
      let cleanup_error :=
        match cleanup_error, deactivated with None, Err error => Some error | _, _ => cleanup_error end in
      match cleanup_error with
      | Some _ => cleanup_faults rest cleanup_error w
      | None =>
          let '(hit, w) := assert_fault_hit stack scope w in
          cleanup_faults rest (match hit with Err error => Some error | Ok _ => None end) w
      end
  end.

Definition first_violation (violations : list InvariantViolation) : io unit :=
  match violations with [] => io_ret tt | violation :: _ => io_fail (ChaosInvariant violation) end.

(** The observation and the checks after an action. *)
Definition check_action (index : nat) (action : Action) (config : ClusterConfig) : io unit :=
  let^ _ := (λ w, first_violation (observer_violations stack w) w) in
  let^ snapshot := take_snapshot stack in
  let^ _ := record_observation stack snapshot in
  let^ _ := record_metrics stack index action snapshot in
  let^ _ := first_violation (safety snapshot) in
  match action with
  | WaitForConvergence _ => first_violation (convergence snapshot config)
  | _ => io_ret tt
  end.

(** An action that the budget admits, and the cleanup of the faults around it. *)
Definition perform_action (config : ClusterConfig) (action : Action) (active : list Scope) : io ClusterConfig :=
  λ w,
    let '(applied, w) := apply_action config action w in
    let '(cleanup_error, w) := cleanup_faults (reverse active) None w in
    (let? config := applied in match cleanup_error with Some error => Err error | None => Ok config end, w).

Definition run_action (t : Trace) (st : Run) (entry : nat * Action) : io Run :=
  let '(index, action) := entry in
  let^ due := activate_due index (drop (cursor st) (faults t)) (run_budget st) (cursor st) [] in
  let '(budget, position, active) := due in
  let '(admitted, budget) := admit_action budget action in
  if admitted : bool then
    let^ config := perform_action (run_config st) action active in
    let^ _ := check_action index action config in
    io_ret (MkRun budget position config)
  else
    let^ _ := discard_faults (reverse active) in
    io_ret (MkRun budget position (run_config st)).

Fixpoint io_fold {A B} (f : A → B → io A) (a : A) (l : list B) : io A :=
  match l with [] => io_ret a | b :: l => let^ a := f a b in io_fold f a l end.

(** [execute_trace] from the first action on. *)
Definition run_trace (t : Trace) : io Run :=
  io_fold (run_action t) (MkRun (default_budget (profile t)) 0 (initial_config t)) (imap pair (actions t)).
End execute.

(** * Facts *)

(** ** The schedule *)

(** What a run asks of the stack. *)
Inductive StackCall :=
| AskStartController (id : string)
| AskStopController (id : string)
| AskCrashController (id : string)
| AskStartParticipant (participant : ParticipantConfig)
| AskStopParticipant (id : string)
| AskCrashParticipant (id : string)
| AskPutInstance (participant : ParticipantConfig)
| AskRemoveInstance (id : string)
| AskPutResource (spec : ResourceSpec)
| AskPutThrottles (throttles : list ThrottleSpec)
| AskSleep (milliseconds : N)
| AskQuiescence
| AskConvergence (deadline : N) (config : ClusterConfig)
| AskIdle (seconds : N)
| AskFault (fault : Fault).

(** The SEMI_AUTO resource of the name with a new preference list. *)
Definition relisted (config : ClusterConfig) (name partition : string) (instances : list string) : option ResourceConfig :=
  match find_first (λ candidate, String.eqb (rc_name candidate) name) (cc_resources config) with
  | Some resource =>
      match rc_placement resource with
      | ConfigSemiAuto lists => Some (with_preference resource (<[partition := instances]> lists))
      | ConfigCrush => None
      end
  | None => None
  end.

(** What an action asks for, in order, in a cluster of this configuration. *)
Definition action_calls (config : ClusterConfig) (action : Action) : list StackCall :=
  let start id := AskStartParticipant <$> option_list (find_participant config id) in
  match action with
  | StartController id => [AskStartController id]
  | RestartController id => [AskStopController id; AskStartController id]
  | GracefulStopController id => [AskStopController id]
  | CrashController id => [AskCrashController id]
  | StartParticipant id => start id
  | RestartParticipant id => AskStopParticipant id :: start id
  | GracefulStopParticipant id => [AskStopParticipant id]
  | CrashParticipant id => [AskCrashParticipant id]
  | AddParticipant participant => [AskPutInstance participant; AskStartParticipant participant]
  | RemoveParticipant id => [AskStopParticipant id; AskRemoveInstance id]
  | CreateResource resource => [AskPutResource (resource_spec resource)]
  | ModifyPreferenceList name partition instances =>
      AskPutResource ∘ resource_spec <$> option_list (relisted config name partition instances)
  | ChangeThrottle throttle =>
      [AskPutThrottles [MkThrottleSpec (Chaos.tc_scope throttle) (tc_rebalance_type throttle) (tc_max_in_flight throttle)]]
  | Wait milliseconds => [AskSleep milliseconds]
  | RequestQuiescence => [AskQuiescence]
  | WaitForConvergence deadline => [AskQuiescence; AskConvergence deadline config]
  | AssertIdle seconds => [AskIdle seconds]
  end.

(** The configuration that the later actions see. *)
Definition config_after (config : ClusterConfig) (action : Action) : ClusterConfig :=
  match action with
  | AddParticipant participant =>
      if decide (pc_id participant ∈ pc_id <$> cc_participants config) then config
      else with_participants config (sort_by_key pc_id (cc_participants config ++ [participant]))
  | RemoveParticipant id =>
      with_participants config
        (List.filter (λ participant, negb (String.eqb (pc_id participant) id)) (cc_participants config))
  | ModifyPreferenceList name partition instances =>
      MkClusterConfig (cc_controllers config) (cc_participants config)
        (set_preference name partition instances (cc_resources config)) (cc_throttles config)
  | _ => config
  end.

Definition offer_faults (budget : FaultBudget) (scheduled : list ScheduledFault) : FaultBudget :=
  foldl (λ budget s, (admit_fault budget (sf_fault s)).2) budget scheduled.

(** Those of the offered faults that the budget admits. *)
Fixpoint admitted_faults (budget : FaultBudget) (scheduled : list ScheduledFault) : list Fault :=
  match scheduled with
  | [] => []
  | s :: rest =>
      let '(answer, budget) := admit_fault budget (sf_fault s) in
      (if is_admitted answer then [sf_fault s] else []) ++ admitted_faults budget rest
  end.

(** The budget and the configuration, the actions that are admitted, and for every action
    what is asked for at its place and whether it ends with a snapshot. *)
Record Schedule := MkSchedule {
  sc_budget : FaultBudget;
  sc_config : ClusterConfig;
  sc_actions : list Action;
  sc_steps : list (list StackCall * bool)
}.

(** The faults of an action are offered first, then the action. *)
Definition schedule_step (t : Trace) (st : Schedule) (entry : nat * Action) : Schedule :=
  let due := filter (λ s, action_index s = entry.1) (faults t) in
  let activations := AskFault <$> admitted_faults (sc_budget st) due in
  let '(admitted, budget) := admit_action (offer_faults (sc_budget st) due) entry.2 in
  if admitted : bool then
    MkSchedule budget (config_after (sc_config st) entry.2) (sc_actions st ++ [entry.2])
      (sc_steps st ++ [(activations ++ action_calls (sc_config st) entry.2, true)])
  else MkSchedule budget (sc_config st) (sc_actions st) (sc_steps st ++ [(activations, false)]).

Definition schedule (t : Trace) : Schedule :=
  foldl (schedule_step t) (MkSchedule (default_budget (profile t)) (initial_config t) [] []) (imap pair (actions t)).

(** What is on the record of a run: what was asked of the stack, and the snapshots that
    were recorded. *)
Inductive run_event (Value : Type) :=
| Asked (call : StackCall)
| Recorded (snapshot : ClusterSnapshot Value).
Arguments Asked {Value} call.
Arguments Recorded {Value} snapshot.

Lemma find_participant_spec config id :
  match find_participant config id with
  | Some _ => id ∈ pc_id <$> cc_participants config
  | None => id ∉ pc_id <$> cc_participants config
  end.
Proof.
  unfold find_participant. destruct (find_first _ _) as [participant|] eqn:Hf.
  - apply find_first_Some in Hf as [Hin Hid%String.eqb_eq]. apply list_elem_of_fmap. by exists participant.
  - intros (participant & -> & Hin)%list_elem_of_fmap. pose proof (find_first_None _ _ Hf _ Hin) as Hn. cbv beta in Hn.
    by rewrite String.eqb_refl in Hn.
Qed.

Section running.
Context {World Value Scope : Type} (stack : Stack World Value Scope).
Context (safety : ClusterSnapshot Value → list InvariantViolation).
Context (convergence : ClusterSnapshot Value → ClusterConfig → list InvariantViolation).
Context (history : World → list (run_event Value)).

(** [m] puts this event on the record, whatever becomes of it. *)
Definition notes {A} (event : run_event Value) (m : io World A) : Prop :=
  ∀ w, history (m w).2 = history w ++ [event].
Definition silent {A} (m : io World A) : Prop := ∀ w, history (m w).2 = history w.

(** [history] is the record of the run: every operation of the stack that an action or a
    fault asks for writes itself, [record_observation] the snapshot, and nothing else
    writes. *)
Record keeps_log : Prop := {
  log_start_controller : ∀ id, notes (Asked (AskStartController id)) (start_controller stack id);
  log_stop_controller : ∀ id, notes (Asked (AskStopController id)) (stop_controller stack id);
  log_crash_controller : ∀ id, notes (Asked (AskCrashController id)) (crash_controller stack id);
  log_start_participant : ∀ participant,
    notes (Asked (AskStartParticipant participant)) (start_participant stack participant);
  log_stop_participant : ∀ id, notes (Asked (AskStopParticipant id)) (stop_participant stack id);
  log_crash_participant : ∀ id, notes (Asked (AskCrashParticipant id)) (crash_participant stack id);
  log_put_instance : ∀ participant, notes (Asked (AskPutInstance participant)) (admin_put_instance stack participant);
  log_remove_instance : ∀ id, notes (Asked (AskRemoveInstance id)) (admin_remove_instance stack id);
  log_put_resource : ∀ spec, notes (Asked (AskPutResource spec)) (admin_put_resource stack spec);
  log_put_throttles : ∀ throttles, notes (Asked (AskPutThrottles throttles)) (admin_put_throttles stack throttles);
  log_sleep : ∀ milliseconds, notes (Asked (AskSleep milliseconds)) (sleep_milliseconds stack milliseconds);
  log_quiescence : notes (Asked AskQuiescence) (wait_for_quiescence stack);
  log_convergence : ∀ deadline config,
    notes (Asked (AskConvergence deadline config)) (wait_for_convergence stack deadline config);
  log_idle : ∀ seconds, notes (Asked (AskIdle seconds)) (assert_idle stack seconds);
  log_activate : ∀ fault, notes (Asked (AskFault fault)) (activate_fault stack fault);
  log_observation : ∀ snapshot, notes (Recorded snapshot) (record_observation stack snapshot);
  log_snapshot : silent (take_snapshot stack);
  log_metrics : ∀ index action snapshot, silent (record_metrics stack index action snapshot);
  log_deactivate : ∀ scope, silent (deactivate_fault stack scope);
  log_hit : ∀ scope, silent (assert_fault_hit stack scope)
}.
Context (Hlog : keeps_log).

(** [m], when it returns, has asked for these calls and returns [a]. *)
Definition performs {A} (m : io World A) (calls : list StackCall) (a : A) : Prop :=
  ∀ w x w', m w = (Ok x, w') → x = a ∧ history w' = history w ++ (Asked <$> calls).

Lemma performs_ret {A} (a : A) : performs (io_ret a) [] a.
Proof. intros w x w' [= <- <-]. by rewrite app_nil_r. Qed.

Lemma performs_then {A B} call calls (m : io World A) (k : A → io World B) (b : B) :
  notes (Asked call) m → (∀ a, performs (k a) calls b) → performs (io_bind m k) (call :: calls) b.
Proof.
  intros Hm Hk w x w' (a & w1 & Ha & Hx)%io_bind_Ok. destruct (Hk a w1 x w' Hx) as [-> ->]. split; [done|].
  pose proof (Hm w) as Hw. rewrite Ha in Hw. cbn [snd] in Hw. by rewrite Hw, <-app_assoc.
Qed.

Lemma performs_start config id {B} (k : unit → io World B) calls (b : B) :
  (∀ u, performs (k u) calls b) →
  performs (io_bind (start_known stack config id) k)
    ((AskStartParticipant <$> option_list (find_participant config id)) ++ calls) b.
Proof.
  intros Hk. unfold start_known. destruct (find_participant config id) as [participant|].
  - apply performs_then; [apply (log_start_participant Hlog)|done].
  - by intros w x w' (a & w1 & [=] & _)%io_bind_Ok.
Qed.

(** An action asks for its calls. *)
Lemma apply_action_performs config action :
  performs (apply_action stack config action) (action_calls config action) (config_after config action).
Proof.
  destruct action; cbn [apply_action action_calls config_after];
    try (repeat (apply performs_then; [by apply Hlog|intros _]); apply performs_ret).
  - rewrite <-(app_nil_r (_ <$> _)). apply performs_start. intros _. apply performs_ret.
  - apply performs_then; [apply Hlog|intros _]. rewrite <-(app_nil_r (_ <$> _)). apply performs_start.
    intros _. apply performs_ret.
  - do 2 (apply performs_then; [apply Hlog|intros _]). pose proof (find_participant_spec config (pc_id participant)) as Hf.
    destruct (find_participant _ _); case_decide; try tauto; apply performs_ret.
  - unfold relisted. destruct (find_first _ _) as [found|]; [|by intros w x w' [=]].
    destruct (rc_placement found) as [|lists]; [by intros w x w' [=]|].
    apply performs_then; [apply Hlog|intros _]. apply performs_ret.
Qed.

(** The faults due at an action, where none of an earlier action is left. *)
Lemma activate_due_spec index pending budget position active w budget' position' active' w' :
  StronglySorted (λ f g, (action_index f ≤ action_index g)%nat) pending →
  Forall (λ s, (index ≤ action_index s)%nat) pending →
  activate_due stack index pending budget position active w = (Ok (budget', position', active'), w') →
  ∃ due rest, pending = due ++ rest ∧ due = filter (λ s, action_index s = index) pending ∧
    Forall (λ s, (index < action_index s)%nat) rest ∧ budget' = offer_faults budget due ∧
    position' = (position + length due)%nat ∧
    history w' = history w ++ (Asked <$> (AskFault <$> admitted_faults budget due)).
Proof.
  revert budget position active w. induction pending as [|s pending IH]; intros budget position active w Hs Hge.
  { intros [= <- <- <- <-]. exists [], []. rewrite Nat.add_0_r. split_and!; first [done|by constructor|cbn; by rewrite app_nil_r]. }
  inversion Hs as [|? ? Hs' Hall]; subst. apply Forall_cons in Hge as [Hle Hge]. cbn [activate_due].
  destruct (Nat.eqb_spec (action_index s) index) as [Es|Hne].
  - destruct (admit_fault budget (sf_fault s)) as [answer budget1] eqn:Ea.
    set (now := if is_admitted answer then [sf_fault s] else []).
    assert (∀ active1 w1, history w1 = history w ++ (Asked <$> (AskFault <$> now)) →
      activate_due stack index pending budget1 (S position) active1 w1 = (Ok (budget', position', active'), w') →
      ∃ due rest, s :: pending = due ++ rest ∧ due = filter (λ s, action_index s = index) (s :: pending) ∧
        Forall (λ s, (index < action_index s)%nat) rest ∧ budget' = offer_faults budget due ∧
        position' = (position + length due)%nat ∧
        history w' = history w ++ (Asked <$> (AskFault <$> admitted_faults budget due))) as Hnext.
    { intros active1 w1 Hw Hrun. destruct (IH _ _ _ _ Hs' Hge Hrun) as (due & rest & -> & Hdue & Hrest & -> & -> & Ho).
      exists (s :: due), rest. unfold offer_faults. cbn [foldl admitted_faults]. rewrite Ea. cbn [snd].
      split_and!; [done| |done|done|cbn [length]; lia|rewrite Ho, Hw, !fmap_app, <-app_assoc; done].
      rewrite filter_cons_True by done. by f_equal. }
    subst now. destruct (is_admitted answer).
    + intros (scope & w1 & H1 & H2)%io_bind_Ok. eapply Hnext; [|exact H2].
      pose proof (log_activate Hlog (sf_fault s) w) as Hw. by rewrite H1 in Hw.
    + intros Hrun. eapply Hnext; [|exact Hrun]. by rewrite app_nil_r.
  - intros [= <- <- <- <-]. exists [], (s :: pending). rewrite Nat.add_0_r. split_and!; try done; try (cbn; by rewrite app_nil_r).
    + rewrite filter_cons_False by done. symmetry. apply filter_none. eapply Forall_impl; [exact Hall|]. cbn. intros; lia.
    + constructor; [lia|]. eapply Forall_impl; [exact Hall|]. cbn. intros; lia.
Qed.

Lemma silent_Ok {A} (m : io World A) w a w' : silent m → m w = (Ok a, w') → history w' = history w.
Proof. intros Hm E. pose proof (Hm w) as Hw. by rewrite E in Hw. Qed.

Lemma discard_faults_log active w u w' : discard_faults stack active w = (Ok u, w') → history w' = history w.
Proof.
  revert w. induction active as [|scope active IH]; intros w; [by intros [= _ <-]|]. cbn [discard_faults].
  intros (? & w1 & H1 & (? & w2 & H2 & H3)%io_bind_Ok)%io_bind_Ok. rewrite (IH _ H3).
  rewrite (silent_Ok _ _ _ _ (log_hit Hlog scope) H2). by apply (silent_Ok _ _ _ _ (log_deactivate Hlog scope) H1).
Qed.

Lemma cleanup_faults_log active e w : history (cleanup_faults stack active e w).2 = history w.
Proof.
  revert e w. induction active as [|scope active IH]; intros e w; [done|]. cbn [cleanup_faults].
  pose proof (log_deactivate Hlog scope w) as Hw. destruct (deactivate_fault stack scope w) as [r w1].
  pose proof (log_hit Hlog scope w1) as Hw'. cbn [snd] in Hw. case_match; [by rewrite IH|].
  destruct (assert_fault_hit stack scope w1) as [r' w2]. rewrite IH. cbn [snd] in Hw'. congruence.
Qed.

Lemma first_violation_Ok violations (w : World) u w' :
  first_violation violations w = (Ok u, w') → violations = [] ∧ w' = w.
Proof. destruct violations; [by intros [= _ ->]|done]. Qed.

(** An action that returns has asked for its calls. *)
Lemma perform_action_log config action active w config' w' :
  perform_action stack config action active w = (Ok config', w') →
  config' = config_after config action ∧ history w' = history w ++ (Asked <$> action_calls config action).
Proof.
  unfold perform_action. pose proof (apply_action_performs config action w) as Ha.
  destruct (apply_action stack config action w) as [[config1|e] w1];
    pose proof (cleanup_faults_log (reverse active) None w1) as Hcl;
    destruct (cleanup_faults stack (reverse active) None w1) as [[e'|] w2]; try by intros [=].
  intros [= <- <-]. cbn [snd] in Hcl. rewrite Hcl. by apply Ha.
Qed.

(** The checks of an action record one safe snapshot. *)
Lemma check_action_log index action config w u w' :
  check_action stack safety convergence index action config w = (Ok u, w') →
  ∃ snapshot, history w' = history w ++ [Recorded snapshot] ∧ safety snapshot = [].
Proof.
  intros Hc. unfold check_action in Hc. apply io_bind_Ok in Hc as (? & w3 & [_ ->]%first_violation_Ok & Hc).
  apply io_bind_Ok in Hc as (snapshot & w4 & H4 & Hc). apply io_bind_Ok in Hc as (? & w5 & H5 & Hc).
  apply io_bind_Ok in Hc as (? & w6 & H6 & Hc). apply io_bind_Ok in Hc as (? & w7 & [Hs ->]%first_violation_Ok & Hc).
  exists snapshot. split; [|done]. assert (w' = w6) as ->.
  { destruct action; try (by injection Hc). by apply first_violation_Ok in Hc as [_ ->]. }
  rewrite (silent_Ok _ _ _ _ (log_metrics Hlog index action snapshot) H6).
  pose proof (log_observation Hlog snapshot w4) as L5. rewrite H5 in L5. cbn [snd] in L5. rewrite L5. f_equal.
  by apply (silent_Ok _ _ _ _ (log_snapshot Hlog) H4).
Qed.

(** What a step of the schedule leaves on the record. *)
Definition recorded (step : list StackCall * bool) (events : list (run_event Value)) : Prop :=
  if step.2 then ∃ snapshot, safety snapshot = [] ∧ events = (Asked <$> step.1) ++ [Recorded snapshot]
  else events = Asked <$> step.1.

(** The cursor stands between the faults of the actions before [index] and the others. *)
Definition cursor_at (t : Trace) (index : nat) (st : Run) : Prop :=
  Forall (λ s, (action_index s < index)%nat) (take (cursor st) (faults t)) ∧
  Forall (λ s, (index ≤ action_index s)%nat) (drop (cursor st) (faults t)).

(** The run is where the schedule is. *)
Definition on_schedule (sched : Schedule) (st : Run) : Prop :=
  sc_budget sched = run_budget st ∧ sc_config sched = run_config st.

(** Past the faults that are due at [index]. *)
Lemma cursor_advance t index st due rest :
  cursor_at t index st → (cursor st ≤ length (faults t))%nat → drop (cursor st) (faults t) = due ++ rest →
  Forall (λ s, action_index s = index) due → Forall (λ s, (index < action_index s)%nat) rest →
  ∀ st1, cursor st1 = (cursor st + length due)%nat → cursor_at t (S index) st1 ∧ (cursor st1 ≤ length (faults t))%nat.
Proof.
  intros [Hlt _] Hcur Epend Hdue Hrest st1 E1.
  assert (faults t = (take (cursor st) (faults t) ++ due) ++ rest) as Efaults by (by rewrite <- app_assoc, <- Epend, take_drop).
  assert (cursor st1 = length (take (cursor st) (faults t) ++ due)) as Epos by (rewrite length_app, length_take; lia).
  split; [split|].
  - rewrite Efaults at 1. rewrite Epos, take_app_length. apply Forall_app_2; (eapply Forall_impl; [eassumption|]); cbn; intros; lia.
  - rewrite Efaults at 1. rewrite Epos, drop_app_length. eapply Forall_impl; [exact Hrest|]. cbn. intros; lia.
  - pose proof (f_equal length Efaults) as El. rewrite length_app in El. lia.
Qed.

Lemma run_action_spec t st index action w st' w' sched :
  trace_wf t → cursor_at t index st → (cursor st ≤ length (faults t))%nat → on_schedule sched st →
  run_action stack safety convergence t st (index, action) w = (Ok st', w') →
  cursor_at t (S index) st' ∧ (cursor st' ≤ length (faults t))%nat ∧
  on_schedule (schedule_step t sched (index, action)) st' ∧
  ∃ step events, sc_steps (schedule_step t sched (index, action)) = sc_steps sched ++ [step] ∧
    history w' = history w ++ events ∧ recorded step events.
Proof.
  intros [_ Hsorted] Hat Hcur [Eb Ec]. unfold run_action.
  intros ([[budget position] active] & w1 & Hdue & Hrun)%io_bind_Ok.
  assert (StronglySorted (λ f g, (action_index f ≤ action_index g)%nat) (drop (cursor st) (faults t))) as Hs
    by (eapply sublist_sorted; [apply sublist_drop|done]).
  destruct (activate_due_spec _ _ _ _ _ _ _ _ _ _ Hs (proj2 Hat) Hdue)
    as (due & rest & Epend & Hfilter & Hrest & -> & -> & Ho).
  assert (filter (λ s, action_index s = index) (faults t) = due) as Hall.
  { rewrite <- (take_drop (cursor st) (faults t)), filter_app, (filter_none _ (take _ _)); [done|].
    eapply Forall_impl; [apply Hat|]. cbn. intros; lia. }
  assert (Forall (λ s, action_index s = index) due) as Hnow.
  { rewrite Hfilter. apply Forall_forall. by intros s [-> _]%list_elem_of_filter. }
  pose proof (cursor_advance t index st due rest Hat Hcur Epend Hnow Hrest) as Hcursor.
  unfold schedule_step, on_schedule. cbn [fst snd]. rewrite Hall, Eb, Ec.
  destruct (admit_action (offer_faults (run_budget st) due) action) as [[] budget1].
  - apply io_bind_Ok in Hrun as (config & w2 & Hp & Hrun). apply io_bind_Ok in Hrun as (u & w3 & Hc & Hrun).
    injection Hrun as <- <-. destruct (Hcursor (MkRun budget1 (cursor st + length due) config) eq_refl) as [H1 H2].
    destruct (perform_action_log _ _ _ _ _ _ Hp) as [-> Hcalls].
    destruct (check_action_log _ _ _ _ _ _ Hc) as (snapshot & Hobs & Hsafe).
    split_and!; [done..|]. eexists _, _. split; [reflexivity|]. split.
    + rewrite Hobs, Hcalls, Ho, <-!app_assoc. reflexivity.
    + exists snapshot. split; [done|]. cbn [fst]. by rewrite fmap_app, <-app_assoc.
  - apply io_bind_Ok in Hrun as (u & w2 & Hd & Hrun). injection Hrun as <- <-.
    destruct (Hcursor (MkRun budget1 (cursor st + length due) (run_config st)) eq_refl) as [H1 H2]. split_and!; [done..|].
    eexists _, _. split; [reflexivity|]. split; [rewrite (discard_faults_log _ _ _ _ Hd); exact Ho|done].
Qed.

Lemma run_from t acts index st w st' w' sched :
  trace_wf t → cursor_at t index st → (cursor st ≤ length (faults t))%nat → on_schedule sched st →
  io_fold (run_action stack safety convergence t) st (imap (λ k, pair (index + k)%nat) acts) w = (Ok st', w') →
  let sched' := foldl (schedule_step t) sched (imap (λ k, pair (index + k)%nat) acts) in
  cursor_at t (index + length acts) st' ∧ (cursor st' ≤ length (faults t))%nat ∧ on_schedule sched' st' ∧
  ∃ steps parts, sc_steps sched' = sc_steps sched ++ steps ∧ history w' = history w ++ concat parts ∧
    Forall2 recorded steps parts.
Proof.
  intros Hwf. revert index st w sched. induction acts as [|a acts IH]; intros index st w sched Hcur Hle Hon.
  { intros [= <- <-]. cbn [imap foldl]. rewrite Nat.add_0_r. split_and!; [done..|]. exists [], [].
    cbn [concat]. rewrite !app_nil_r. split_and!; [done..|constructor]. }
  cbn [imap io_fold foldl length]. rewrite Nat.add_0_r.
  rewrite (imap_ext _ (λ k, pair (S index + k)%nat)) by (intros; cbn; f_equal; lia).
  intros (st1 & w1 & Ha & Hrest)%io_bind_Ok.
  destruct (run_action_spec t st index a w st1 w1 sched Hwf Hcur Hle Hon Ha) as (Hc1 & Hl1 & Hon1 & step & events & E1 & Ho1 & Hr1).
  destruct (IH (S index) st1 w1 _ Hc1 Hl1 Hon1 Hrest) as (Hc2 & Hl2 & Hon2 & steps & parts & E2 & Ho2 & Hr2).
  replace (index + S (length acts))%nat with (S index + length acts)%nat by lia.
  split_and!; [done..|]. exists (step :: steps), (events :: parts). cbn [concat].
  split_and!; [by rewrite E2, E1, <-app_assoc|by rewrite Ho2, Ho1, app_assoc|by constructor].
Qed.
End running.

(** C20: a run of an executable trace that returns has done what its schedule says, in that
    order and nothing else.  At every action it offered the faults that are due there to
    the budget and activated exactly those that it admits; then, when the budget admits
    the action, it asked the stack for exactly the operations of that action in the
    configuration that the actions before have left (an added participant can be
    restarted, a removed one cannot), and recorded one snapshot, which passed the safety
    check.  Of an action that is not admitted nothing was asked.  At the end every fault
    has been offered, and the budget and the configuration are those of the schedule. *)
Theorem run_checked {World Value Scope} (stack : Stack World Value Scope) safety convergence history t w st w' :
  trace_wf t → keeps_log stack history →
  run_trace stack safety convergence t w = (Ok st, w') →
  cursor st = length (faults t) ∧ run_budget st = sc_budget (schedule t) ∧ run_config st = sc_config (schedule t) ∧
  ∃ parts, history w' = history w ++ concat parts ∧ Forall2 (recorded safety) (sc_steps (schedule t)) parts.
Proof.
  intros Hwf Hlog Hrun. unfold run_trace in Hrun. set (st0 := MkRun _ _ _) in Hrun.
  assert (cursor_at t 0 st0) as Hcur by (split; [constructor|apply Forall_true; intros; lia]).
  set (sched0 := MkSchedule (default_budget (profile t)) (initial_config t) [] []).
  destruct (run_from stack safety convergence history Hlog t (actions t) 0 st0 w st w' sched0 Hwf Hcur ltac:(cbn; lia)
    ltac:(done) Hrun) as ([_ Hrest] & Hle & [Eb Ec] & steps & parts & Hsteps & Hhist & Hrec). cbn [Nat.add] in Hrest, Hsteps, Eb, Ec.
  change (foldl _ sched0 _) with (schedule t) in Hsteps, Eb, Ec. cbn [app sc_steps sched0] in Hsteps. subst steps.
  split_and!; [|done..|by exists parts].
  destruct (decide (cursor st = length (faults t))) as [|Hne]; [done|].
  destruct (lookup_lt_is_Some_2 (faults t) (cursor st)) as [s Hs]; [lia|].
  destruct Hwf as [Hall _]. rewrite Forall_lookup in Hall, Hrest. specialize (Hall _ _ Hs).
  specialize (Hrest 0%nat s). rewrite lookup_drop, Nat.add_0_r in Hrest. specialize (Hrest Hs). cbn in *. lia.
Qed.

(** ** Budgets *)

Lemma offer_faults_processes budget l :
  controller_failures_remaining (offer_faults budget l) = controller_failures_remaining budget ∧
  participant_failures_remaining (offer_faults budget l) = participant_failures_remaining budget.
Proof.
  unfold offer_faults. revert budget. induction l as [|s l IH]; intros budget; [done|]. cbn [foldl].
  destruct (IH (admit_fault budget (sf_fault s)).2) as [-> ->]. destruct budget as [e c p n k]. unfold admit_fault, admit_counter.
  destruct (sf_fault s); repeat case_match; simplify_eq/=; done.
Qed.

Lemma failures_nil p : failures p [] = 0%N.
Proof. done. Qed.

Lemma failures_cons p a l : failures p (a :: l) = ((if p a then 1 else 0) + failures p l)%N.
Proof. unfold failures, count_if. cbn [List.filter]. destruct (p a); cbn [length]; lia. Qed.

(** Of the planned failures of a kind, as many are admitted as the budget has. *)
Lemma schedule_counts t st l :
  let st' := foldl (schedule_step t) st l in
  failures is_controller_failure (sc_actions st') =
    (failures is_controller_failure (sc_actions st) +
     N.min (controller_failures_remaining (sc_budget st)) (failures is_controller_failure l.*2))%N ∧
  failures is_participant_failure (sc_actions st') =
    (failures is_participant_failure (sc_actions st) +
     N.min (participant_failures_remaining (sc_budget st)) (failures is_participant_failure l.*2))%N.
Proof.
  revert st. induction l as [|[k a] l IH]; intros st.
  { cbn [foldl fmap list_fmap]. rewrite !failures_nil. lia. }
  cbn [foldl fmap list_fmap snd]. rewrite !failures_cons. destruct (IH (schedule_step t st (k, a))) as [-> ->]. clear IH.
  unfold schedule_step. cbn [fst snd].
  set (due := filter _ _). destruct (offer_faults_processes (sc_budget st) due) as [Hc Hp].
  destruct (offer_faults (sc_budget st) due) as [e c p n ck].
  cbn [controller_failures_remaining participant_failures_remaining] in Hc, Hp. subst c p.
  unfold admit_action, admit_controller_failure, admit_participant_failure, admit_counter.
  destruct a; cbn [is_controller_failure is_participant_failure];
    repeat (match goal with |- context [if (?x =? 0)%N then _ else _] => destruct (N.eqb_spec x 0) end; cbn [is_admitted]);
    cbn [sc_actions sc_budget]; rewrite ?failures_app, ?failures_cons;
    cbn [is_controller_failure is_participant_failure controller_failures_remaining participant_failures_remaining];
    rewrite ?failures_nil; lia.
Qed.

Lemma imap_pair_values {A} (l : list A) (g : nat → nat) : (imap (λ k, pair (g k)) l).*2 = l.
Proof. revert g. induction l as [|x l IH]; intros g; [done|]. cbn. f_equal. apply (IH (g ∘ S)). Qed.

(** The crashes of the default run do not depend on the seed. *)
Lemma default_counts acts g :
  let d := foldl (draft_step "pr") (MkDraft acts [] 0 0 g) (seq 0 100) in
  controller_failures d = 3%N ∧ participant_failures d = 3%N.
Proof.
  intros d. assert (draft_counts d = (3, 3)%N) as Hd.
  { unfold d. rewrite drafts_counts. vm_compute. reflexivity. }
  clearbody d. unfold draft_counts in Hd. injection Hd as Ec Ep. split; [exact Ec|exact Ep].
Qed.

(** The default run, a hundred steps of the profile [pr], never performs its last
    crash of a controller nor its last crash of a participant: whatever the seed, the
    trace plans four failures of each kind, the graceful stop included, and the budget
    of the profile admits three. *)
Theorem default_run_skips seed :
  ∃ t self', generate (SeededGenerator_new seed) "pr" 100 = Some (t, self') ∧
    failures is_controller_failure (actions t) = 4%N ∧ failures is_controller_failure (sc_actions (schedule t)) = 3%N ∧
    failures is_participant_failure (actions t) = 4%N ∧ failures is_participant_failure (sc_actions (schedule t)) = 3%N.
Proof.
  unfold generate. change (config_for_profile "pr") with (Some default_config). change (is_scale_profile "pr") with false.
  cbv iota. set (d := foldl _ _ _). eexists _, _. split; [reflexivity|].
  assert (draft_ok "pr" d) as [_ _ _ _ Hc Hp _] by apply drafts_ok, draft_ok_start.
  assert (controller_failures d = 3%N ∧ participant_failures d = 3%N) as [Ec Ep] by apply default_counts.
  clearbody d.
  rewrite Ec in Hc. rewrite Ep in Hp. cbn [actions].
  match goal with |- context [schedule ?u] => set (t := u) end.
  pose proof (schedule_counts t (MkSchedule (default_budget "pr") (initial_config t) [] []) (imap pair (actions t))) as Hs.
  unfold schedule. change (profile t) with "pr". destruct (foldl (schedule_step t) _ _) as [budget config log steps].
  cbn [sc_actions sc_budget] in Hs |- *.
  pose proof (imap_pair_values (actions t) id) as Hv. change (imap (λ k, pair (id k)) (actions t)) with (imap pair (actions t)) in Hv.
  rewrite Hv in Hs. change (actions t) with (draft_actions d) in Hs. rewrite Hc, Hp, !failures_nil in Hs.
  destruct Hs as [-> ->]. split_and!; [exact Hc|done|exact Hp|done].
Qed.

(** ** Refused reductions *)

(** A loop of checks that fail in one way only. *)
Lemma try_fold_refuses {X E} (f : unit → X → result unit E) (l : list X) e :
  (∀ x, x ∈ l → f tt x = Ok tt ∨ f tt x = Err e) → (∃ x, x ∈ l ∧ f tt x = Err e) → try_fold f tt l = Err e.
Proof.
  induction l as [|x l IH]; intros Hall (y & Hy & Ey); [by apply elem_of_nil in Hy|]. cbn [try_fold].
  destruct (Hall x ltac:(left)) as [Ex|Ex]; rewrite Ex; [|done]. apply IH; [intros z Hz; apply Hall; by right|].
  apply elem_of_cons in Hy as [->|Hy]; [congruence|eauto].
Qed.

(** What the crate has checked of a SEMI_AUTO resource that it accepts. *)
Lemma accepted_resource resource lists both :
  rc_placement resource = ConfigSemiAuto lists → resource_record (resource_spec resource) = Ok both →
  rc_name resource ≠ EmptyString ∧ len (rc_partitions resource) ≠ 0%N ∧ rc_replicas resource ≠ 0%N ∧
  N.of_nat (size lists) = len (rc_partitions resource) ∧
  ∀ partition instances, lists !! partition = Some instances →
    check_preference (rc_replicas resource) partition instances = Ok tt.
Proof.
  intros Hp. unfold resource_record, resource_spec. cbn [spec_name spec_partitions spec_replicas spec_state_model spec_placement].
  unfold or_invalid_key. destruct (ResourceId_new (rc_name resource)) as [rid|] eqn:Er; [|done]. cbn [map_err].
  apply ResourceId_new_ok in Er as [Hname _]. case_match eqn:Echeck; [done|]. apply orb_false_iff in Echeck as [Echeck _].
  apply orb_false_iff in Echeck as [E1%N.eqb_neq E2%N.eqb_neq]. unfold placement_record. cbn [spec_placement spec_partitions spec_replicas].
  rewrite Hp. destruct (negb (N.of_nat (size lists) =? _)%N) eqn:Esize; [done|]. apply negb_false_iff, N.eqb_eq in Esize.
  destruct (try_fold _ _ _) as [[]|] eqn:Ef; [|done]. intros _. split_and!; [done..|].
  intros partition instances Hl. apply elem_of_entries in Hl.
  rewrite try_fold_check in Ef. exact (Ef _ Hl).
Qed.

Lemma check_preference_len replicas partition instances :
  check_preference replicas partition instances = Ok tt → len instances = replicas ∧ partition ≠ EmptyString ∧ NoDup instances.
Proof.
  unfold check_preference, or_invalid_key. destruct (PartitionId_new partition) as [P|] eqn:EP; [|done]. cbn [map_err].
  apply PartitionId_new_ok in EP as [HP _]. case_match eqn:El; [done|]. case_match eqn:En; [done|]. intros _.
  apply negb_false_iff, N.eqb_eq in El, En. split_and!; [done..|]. by apply size_set_NoDup.
Qed.

(** A list of another length is refused. *)
Lemma check_preference_refuses replicas partition instances :
  partition ≠ EmptyString → len instances ≠ replicas → check_preference replicas partition instances = Err Keys.InvalidValue.
Proof.
  intros HP Hl. unfold check_preference, or_invalid_key.
  rewrite (proj2 (PartitionId_new_ok partition (MkPartitionId partition))) by done. cbn [map_err].
  by rewrite (proj2 (N.eqb_neq _ _) Hl).
Qed.

(** A resource whose lists are all accepted or refused for their length, one at least. *)
Lemma resource_refused resource lists :
  rc_placement resource = ConfigSemiAuto lists →
  rc_name resource ≠ EmptyString → len (rc_partitions resource) ≠ 0%N → rc_replicas resource ≠ 0%N →
  N.of_nat (size lists) = len (rc_partitions resource) →
  (∀ partition instances, lists !! partition = Some instances →
     check_preference (rc_replicas resource) partition instances = Ok tt ∨
     check_preference (rc_replicas resource) partition instances = Err Keys.InvalidValue) →
  (∃ partition instances, lists !! partition = Some instances ∧
     check_preference (rc_replicas resource) partition instances = Err Keys.InvalidValue) →
  resource_record (resource_spec resource) = Err Keys.InvalidValue.
Proof.
  intros Hp Hname H1 H2 Hsize Hall (partition & instances & Hl & Hr). unfold resource_record, resource_spec.
  cbn [spec_name spec_partitions spec_replicas spec_state_model spec_placement]. unfold or_invalid_key.
  rewrite (proj2 (ResourceId_new_ok _ (MkResourceId (rc_name resource)))) by done. cbn [map_err].
  rewrite (proj2 (N.eqb_neq _ _) H1), (proj2 (N.eqb_neq _ _) H2), String.eqb_refl. cbn [orb negb].
  unfold placement_record. cbn [spec_placement spec_partitions spec_replicas]. rewrite Hp, Hsize, N.eqb_refl. cbn [negb].
  rewrite (try_fold_refuses _ _ Keys.InvalidValue); [done| |].
  - intros [q l] Hq%elem_of_entries. eauto.
  - exists (partition, instances). split; [by apply elem_of_entries|done].
Qed.

(** Dropping a member makes a list shorter. *)
Lemma retain_shorter (instances : list string) participant :
  participant ∈ instances → (len (retain (λ instance, negb (String.eqb instance participant)) instances) < len instances)%N.
Proof.
  unfold len, retain. induction instances as [|x l IH]; intros Hin; [by apply elem_of_nil in Hin|]. cbn [List.filter].
  pose proof (List.filter_length_le (λ instance, negb (String.eqb instance participant)) l) as Hle.
  destruct (String.eqb_spec x participant) as [->|Hne]; cbn [negb length]; [lia|].
  apply elem_of_cons in Hin as [->|Hin]; [done|]. specialize (IH Hin). lia.
Qed.

Lemma retain_others (instances : list string) participant :
  participant ∉ instances → retain (λ instance, negb (String.eqb instance participant)) instances = instances.
Proof.
  unfold retain. induction instances as [|x l IH]; intros Hin; [done|]. apply not_elem_of_cons in Hin as [Hne Hin].
  cbn [List.filter]. rewrite (proj2 (String.eqb_neq x participant)) by congruence. cbn [negb]. by rewrite IH.
Qed.

(** Two of the minimizer's reductions of a SEMI_AUTO resource always produce one that
    the crate refuses, so their candidates fail when the resource is created: the
    preference lists of an accepted resource are as long as it has replicas, halving the
    replicas leaves the lists as they are, and removing a participant from the lists
    leaves the replicas as they are. *)
Theorem semi_auto_reductions_refused resource lists both :
  rc_placement resource = ConfigSemiAuto lists → resource_record (resource_spec resource) = Ok both →
  ((1 < rc_replicas resource)%N →
    resource_record (resource_spec (replicas_of (rc_name resource) (rc_replicas resource / 2) resource)) = Err Keys.InvalidValue) ∧
  (∀ participant partition instances, lists !! partition = Some instances → participant ∈ instances →
    resource_record (resource_spec (prune_resource_participant resource participant)) = Err Keys.InvalidValue).
Proof.
  intros Hp Hok. destruct (accepted_resource _ _ _ Hp Hok) as (Hname & H1 & H2 & Hsize & Hall). split.
  - intros Hr. unfold replicas_of. rewrite String.eqb_refl. set (half := N.max _ 1).
    assert (half ≠ 0 ∧ half ≠ rc_replicas resource)%N as [Hh Hne].
    { pose proof (N.div_lt (rc_replicas resource) 2). subst half. lia. }
    assert (∀ partition instances, lists !! partition = Some instances →
      check_preference half partition instances = Err Keys.InvalidValue) as Href.
    { intros partition instances Hl. destruct (check_preference_len _ _ _ (Hall _ _ Hl)) as (El & Hn & _).
      apply check_preference_refuses; [done|by rewrite El]. }
    apply (resource_refused _ lists); cbn [with_replicas rc_placement rc_name rc_partitions rc_replicas]; [done..| |].
    + intros partition instances Hl. right. by apply Href.
    + destruct (map_choose lists) as (partition & instances & Hl); [|by eauto].
      intros ->. rewrite map_size_empty in Hsize. by apply H1.
  - intros participant partition instances Hl Hin.
    destruct (check_preference_len _ _ _ (Hall _ _ Hl)) as (El & Hn & _).
    apply (resource_refused _ (retain (λ instance, negb (String.eqb instance participant)) <$> lists));
      cbn [prune_resource_participant rc_placement rc_name rc_partitions rc_replicas]; [by rewrite Hp|done..| | |].
    + by rewrite map_size_fmap.
    + intros q l. rewrite lookup_fmap_Some. intros (l' & <- & Hq). specialize (Hall _ _ Hq).
      destruct (decide (participant ∈ l')) as [Hm|Hm]; [right|left; by rewrite retain_others].
      destruct (check_preference_len _ _ _ Hall) as (El' & Hn' & _). apply check_preference_refuses; [done|].
      pose proof (retain_shorter _ _ Hm). lia.
    + exists partition, (retain (λ instance, negb (String.eqb instance participant)) instances).
      rewrite lookup_fmap, Hl. split; [done|]. apply check_preference_refuses; [done|].
      pose proof (retain_shorter _ _ Hin). lia.
Qed.

Lemma semi_auto_reductions_refused_witness :
  resource_record (resource_spec (replicas_of "cache" 1 ex_resource)) = Err Keys.InvalidValue ∧
  resource_record (resource_spec (prune_resource_participant ex_resource "node-1")) = Err Keys.InvalidValue.
Proof.
  split.
  - eapply (semi_auto_reductions_refused ex_resource ex_lists); [reflexivity|vm_compute; reflexivity|reflexivity].
  - eapply (semi_auto_reductions_refused ex_resource ex_lists) with (partition := "cache_0");
      [reflexivity|vm_compute; reflexivity|reflexivity|left].
Defined.

(** ** Completion *)

(** The faults that [activate_fault] knows how to inject: the other clock perturbations
    need a time namespace, and are refused. *)
Definition injectable (fault : Fault) : Prop :=
  match fault with
  | Clock _ (WallForward _ | WallBackward _ | MonotonicOffset _) => False
  | _ => True
  end.

(** The resources that [put_resource] does not refuse. *)
Definition accepted (spec : ResourceSpec) : Prop := ∃ both, resource_record spec = Ok both.

(** A stack that does what it is asked, as far as it can be done: faults that can be
    injected, resources that the crate accepts.  Its snapshots are safe.  Once it has
    waited for a configuration the cluster is [settled] there, stays so while faults are
    lifted, and its snapshots pass the convergence check. *)
Record obliging {World Value Scope} (stack : Stack World Value Scope)
    (safety : ClusterSnapshot Value → list InvariantViolation)
    (convergence : ClusterSnapshot Value → ClusterConfig → list InvariantViolation)
    (settled : ClusterConfig → World → Prop) : Prop := {
  obliging_start_controller : ∀ id, succeeds (start_controller stack id);
  obliging_stop_controller : ∀ id, succeeds (stop_controller stack id);
  obliging_crash_controller : ∀ id, succeeds (crash_controller stack id);
  obliging_start_participant : ∀ participant, succeeds (start_participant stack participant);
  obliging_stop_participant : ∀ id, succeeds (stop_participant stack id);
  obliging_crash_participant : ∀ id, succeeds (crash_participant stack id);
  obliging_put_instance : ∀ participant, succeeds (admin_put_instance stack participant);
  obliging_remove_instance : ∀ id, succeeds (admin_remove_instance stack id);
  obliging_put_resource : ∀ spec, accepted spec → succeeds (admin_put_resource stack spec);
  obliging_put_throttles : ∀ throttles, succeeds (admin_put_throttles stack throttles);
  obliging_sleep : ∀ milliseconds, succeeds (sleep_milliseconds stack milliseconds);
  obliging_quiescence : succeeds (wait_for_quiescence stack);
  obliging_convergence : ∀ deadline config w, ∃ w', wait_for_convergence stack deadline config w = (Ok tt, w') ∧ settled config w';
  obliging_idle : ∀ seconds, succeeds (assert_idle stack seconds);
  obliging_activate : ∀ fault, injectable fault → succeeds (activate_fault stack fault);
  obliging_deactivate : ∀ scope w, ∃ w', deactivate_fault stack scope w = (Ok tt, w') ∧
    ∀ config, settled config w → settled config w';
  obliging_hit : ∀ scope w, ∃ w', assert_fault_hit stack scope w = (Ok tt, w') ∧
    ∀ config, settled config w → settled config w';
  obliging_observer : ∀ w, observer_violations stack w = [];
  obliging_snapshot : ∀ w, ∃ snapshot w', take_snapshot stack w = (Ok snapshot, w') ∧
    safety snapshot = [] ∧ ∀ config, settled config w → convergence snapshot config = [];
  obliging_observation : ∀ snapshot, succeeds (record_observation stack snapshot);
  obliging_metrics : ∀ index action snapshot, succeeds (record_metrics stack index action snapshot)
}.
#[export] Hint Resolve obliging_start_controller obliging_stop_controller obliging_crash_controller
  obliging_start_participant obliging_stop_participant obliging_crash_participant obliging_put_instance
  obliging_remove_instance obliging_put_resource obliging_put_throttles obliging_sleep obliging_quiescence
  obliging_idle obliging_activate obliging_observation obliging_metrics : succeeds.

(** A SEMI_AUTO resource: its name, its replicas and its partitions. *)
Abbreviation listing := (string * N * list string)%type.

(** The actions start participants of [ids], which nothing removes, create resources that
    are accepted, and give accepted lists to the partitions of [names]. *)
Definition supported (ids : list string) (names : list listing) (action : Action) : Prop :=
  match action with
  | StartParticipant id | RestartParticipant id => id ∈ ids
  | RemoveParticipant id => id ∉ ids
  | CreateResource resource => accepted (resource_spec resource)
  | ModifyPreferenceList name partition instances =>
      ∃ replicas partitions, (name, replicas, partitions) ∈ names ∧ partition ∈ partitions ∧
        check_preference replicas partition instances = Ok tt
  | _ => True
  end.

Definition has_semi_auto (resources : list ResourceConfig) (l : listing) : Prop :=
  ∃ resource lists, find_first (λ candidate, String.eqb (rc_name candidate) l.1.1) resources = Some resource ∧
    rc_placement resource = ConfigSemiAuto lists ∧ rc_replicas resource = l.1.2 ∧
    Forall (λ partition, is_Some (lists !! partition)) l.2 ∧ accepted (resource_spec resource).

Definition supports (ids : list string) (names : list listing) (config : ClusterConfig) : Prop :=
  ids ⊆ pc_id <$> cc_participants config ∧ Forall (has_semi_auto (cc_resources config)) names.

Lemma find_participant_known config id :
  id ∈ pc_id <$> cc_participants config → ∃ participant, find_participant config id = Some participant.
Proof. intros Hin. pose proof (find_participant_spec config id). destruct (find_participant _ _); [eauto|done]. Qed.

(** What the crate checks of a SEMI_AUTO resource is enough to accept it. *)
Lemma resource_accepted resource lists :
  rc_placement resource = ConfigSemiAuto lists →
  rc_name resource ≠ EmptyString → len (rc_partitions resource) ≠ 0%N → rc_replicas resource ≠ 0%N →
  N.of_nat (size lists) = len (rc_partitions resource) →
  (∀ partition instances, lists !! partition = Some instances →
     check_preference (rc_replicas resource) partition instances = Ok tt) →
  accepted (resource_spec resource).
Proof.
  intros Hp Hname H1 H2 Hsize Hall. unfold accepted, resource_record, resource_spec.
  cbn [spec_name spec_partitions spec_replicas spec_state_model spec_placement]. unfold or_invalid_key.
  rewrite (proj2 (ResourceId_new_ok _ (MkResourceId (rc_name resource)))) by done. cbn [map_err].
  rewrite (proj2 (N.eqb_neq _ _) H1), (proj2 (N.eqb_neq _ _) H2), String.eqb_refl. cbn [orb negb].
  unfold placement_record. cbn [spec_placement spec_partitions spec_replicas]. rewrite Hp, Hsize, N.eqb_refl. cbn [negb].
  rewrite (proj2 (try_fold_check _ _)); [by eexists|]. intros [q l] Hq%elem_of_entries. by apply Hall.
Qed.

(** A resource stays accepted with an accepted list for one of its partitions. *)
Lemma relisted_accepted resource lists partition instances :
  rc_placement resource = ConfigSemiAuto lists → accepted (resource_spec resource) → is_Some (lists !! partition) →
  check_preference (rc_replicas resource) partition instances = Ok tt →
  accepted (resource_spec (with_preference resource (<[partition := instances]> lists))).
Proof.
  intros Hp [both Hok] Hin Hnew. destruct (accepted_resource _ _ _ Hp Hok) as (Hname & H1 & H2 & Hsize & Hall).
  apply (resource_accepted _ (<[partition := instances]> lists));
    cbn [with_preference rc_placement rc_name rc_partitions rc_replicas]; [done..| |].
  - destruct Hin as [old Hold]. rewrite map_size_insert, Hold. exact Hsize.
  - intros q l [[<- <-]|[_ Hq]]%lookup_insert_Some; [done|by apply Hall].
Qed.

Lemma set_preference_semi_auto name partition instances resources l :
  (∀ resource lists, find_first (λ candidate, String.eqb (rc_name candidate) name) resources = Some resource →
     rc_placement resource = ConfigSemiAuto lists →
     is_Some (lists !! partition) ∧ check_preference (rc_replicas resource) partition instances = Ok tt) →
  has_semi_auto resources l → has_semi_auto (set_preference name partition instances resources) l.
Proof.
  intros Hnew (resource & lists & Hf & Hp & Hr & Hl & Ha). induction resources as [|r resources IH]; [done|].
  cbn [set_preference]. unfold has_semi_auto, find_first in *. cbn [List.find] in Hf, Hnew.
  destruct (String.eqb_spec (rc_name r) name) as [En|Hne].
  - destruct (rc_placement r) as [|lists'] eqn:Er; cbn [List.find with_preference rc_name].
    { destruct (String.eqb_spec (rc_name r) l.1.1) as [Eo|_]; simplify_eq; by eauto 10. }
    destruct (String.eqb_spec (rc_name r) l.1.1) as [Eo|_]; [|by eauto 10]. simplify_eq.
    destruct (Hnew _ _ eq_refl Er) as [Hin Hc]. eexists _, _. split; [reflexivity|]. split; [reflexivity|].
    split; [done|]. split; [|by eapply relisted_accepted].
    eapply Forall_impl; [exact Hl|]. intros q Hq. assert (lists' = lists) as -> by congruence.
    rewrite lookup_insert. case_decide; [by eexists|done].
  - cbn [List.find]. destruct (String.eqb_spec (rc_name r) l.1.1) as [Eo|_]; [by simplify_eq; eauto 10|]. by apply IH.
Qed.

Lemma with_participants_supports ids names config participants :
  supports ids names config → ids ⊆ pc_id <$> participants → supports ids names (with_participants config participants).
Proof. by intros [_ Hn] Hi. Qed.

Section completion.
Context {World Value Scope : Type} (stack : Stack World Value Scope).
Context (safety : ClusterSnapshot Value → list InvariantViolation).
Context (convergence : ClusterSnapshot Value → ClusterConfig → list InvariantViolation).
Context (settled : ClusterConfig → World → Prop) (Hstack : obliging stack safety convergence settled).

Lemma start_known_completes ids names config id :
  supports ids names config → id ∈ ids → succeeds (start_known stack config id).
Proof.
  intros [Hi _] Hin. unfold start_known. destruct (find_participant_known config id) as [participant ->]; [by apply Hi|].
  eauto with succeeds.
Qed.

Lemma wait_completes deadline config : succeeds (wait_for_convergence stack deadline config).
Proof. intros w. destruct (obliging_convergence _ _ _ _ Hstack deadline config w) as (w' & -> & _). eauto. Qed.
#[local] Hint Resolve wait_completes : succeeds.

(** A supported action returns, and the configuration goes on supporting the others. *)
Lemma apply_action_completes ids names config action :
  supported ids names action → supports ids names config →
  completes (supports ids names) (apply_action stack config action).
Proof.
  intros Ha Hc. pose proof (start_known_completes ids names config) as Hstart.
  destruct action; cbn [apply_action supported] in *;
    try (repeat (apply completes_then; [by eauto with succeeds|intros _]); by apply completes_ret).
  - do 2 (apply completes_then; [by eauto with succeeds|intros _]). apply completes_ret.
    destruct (find_participant _ _); [done|]. apply with_participants_supports; [done|]. destruct Hc as [Hi _].
    unfold sort_by_key. rewrite stable_sort_perm, fmap_app. intros id Hid. apply elem_of_app. left. by apply Hi.
  - do 2 (apply completes_then; [by eauto with succeeds|intros _]). apply completes_ret.
    apply with_participants_supports; [done|]. destruct Hc as [Hi _]. intros other Hother.
    destruct (proj1 (list_elem_of_fmap _ _ _) (Hi _ Hother)) as (participant & -> & Hin). apply list_elem_of_fmap.
    exists participant. split; [done|]. apply list_elem_of_In, filter_In. split; [by apply list_elem_of_In|].
    apply negb_true_iff, String.eqb_neq. congruence.
  - destruct Hc as [Hi Hn]. destruct Ha as (replicas & partitions & Hin & Hpart & Hcheck).
    pose proof (proj1 (Forall_forall _ _) Hn _ Hin) as (found & lists & Hf & Hp & Hr & Hl & Hok). cbn [fst snd] in *.
    pose proof (proj1 (Forall_forall _ _) Hl _ Hpart) as Hknown. rewrite Hf, Hp. rewrite <-Hr in Hcheck.
    pose proof (relisted_accepted _ _ _ _ Hp Hok Hknown Hcheck) as Hnew.
    apply completes_then; [by eauto with succeeds|intros _]. apply completes_ret. split; [done|]. cbn [cc_resources].
    eapply Forall_impl; [exact Hn|]. intros other. apply set_preference_semi_auto. intros resource' lists' Hf' Hp'.
    assert (resource' = found) as -> by congruence. by assert (lists' = lists) as -> by congruence.
Qed.

Lemma activate_due_completes index pending budget position active :
  Forall (λ s, injectable (sf_fault s)) pending → succeeds (activate_due stack index pending budget position active).
Proof.
  intros Hall. revert budget position active. induction Hall as [|s pending Hs _ IH]; intros budget position active; cbn [activate_due].
  { by apply completes_ret. }
  destruct (action_index s =? index)%nat; [|by apply completes_ret].
  destruct (admit_fault budget (sf_fault s)) as [answer budget']. destruct (is_admitted answer); [|apply IH].
  apply completes_then; [by eauto with succeeds|intros scope; apply IH].
Qed.

Lemma discard_faults_completes active : succeeds (discard_faults stack active).
Proof.
  induction active as [|scope active IH]; cbn [discard_faults]; [by apply completes_ret|].
  apply completes_then; [intros w; destruct (obliging_deactivate _ _ _ _ Hstack scope w) as (w' & -> & _); eauto|intros _].
  apply completes_then; [intros w; destruct (obliging_hit _ _ _ _ Hstack scope w) as (w' & -> & _); eauto|intros _].
  exact IH.
Qed.

Lemma cleanup_faults_completes active w :
  ∃ w', cleanup_faults stack active None w = (None, w') ∧ ∀ config, settled config w → settled config w'.
Proof.
  revert w. induction active as [|scope active IH]; intros w; [by exists w|]. cbn [cleanup_faults].
  destruct (obliging_deactivate _ _ _ _ Hstack scope w) as (w1 & -> & H1).
  destruct (obliging_hit _ _ _ _ Hstack scope w1) as (w2 & -> & H2).
  destruct (IH w2) as (w3 & -> & H3). exists w3. split; [done|]. auto.
Qed.

(** After a wait for convergence the cluster is settled. *)
Definition waited (action : Action) (config : ClusterConfig) (w : World) : Prop :=
  match action with WaitForConvergence _ => settled config w | _ => True end.

Lemma perform_action_completes ids names config action active w :
  supported ids names action → supports ids names config →
  ∃ config' w', perform_action stack config action active w = (Ok config', w') ∧
    supports ids names config' ∧ waited action config' w'.
Proof.
  intros Ha Hc. assert (∃ config' w1, apply_action stack config action w = (Ok config', w1) ∧
    supports ids names config' ∧ waited action config' w1) as (config' & w1 & E1 & Hs & Hw).
  { destruct action; try (destruct (apply_action_completes _ _ _ _ Ha Hc w) as (config' & w1 & E1 & Hs); by exists config', w1).
    cbn [apply_action]. destruct (obliging_quiescence _ _ _ _ Hstack w) as ([] & w1 & E1 & _).
    destruct (obliging_convergence _ _ _ _ Hstack deadline_milliseconds config w1) as (w2 & E2 & Hset).
    exists config, w2. unfold io_bind. rewrite E1, E2. done. }
  unfold perform_action. rewrite E1. destruct (cleanup_faults_completes (reverse active) w1) as (w2 & -> & Hkeep).
  exists config', w2. split_and!; [done|done|]. destruct action; cbn [waited] in *; auto.
Qed.

Lemma check_action_completes index action config w :
  waited action config w → ∃ u w', check_action stack safety convergence index action config w = (Ok u, w').
Proof.
  intros Hw. destruct (obliging_snapshot _ _ _ _ Hstack w) as (snapshot & w1 & E1 & Hs & Hc).
  destruct (obliging_observation _ _ _ _ Hstack snapshot w1) as (u2 & w2 & E2 & _).
  destruct (obliging_metrics _ _ _ _ Hstack index action snapshot w2) as (u3 & w3 & E3 & _).
  exists tt, w3. unfold check_action, io_bind. rewrite (obliging_observer _ _ _ _ Hstack). cbn [first_violation io_ret].
  rewrite E1, E2, E3, Hs. cbn [first_violation io_ret]. destruct action; try done. cbn [waited] in Hw. by rewrite Hc.
Qed.

Lemma run_action_completes ids names t st index action :
  Forall (λ s, injectable (sf_fault s)) (faults t) → supported ids names action → supports ids names (run_config st) →
  completes (λ st', supports ids names (run_config st')) (run_action stack safety convergence t st (index, action)).
Proof.
  intros Hf Ha Hc. unfold run_action. apply completes_then; [by apply activate_due_completes, Forall_drop|].
  intros [[budget position] active]. destruct (admit_action budget action) as [[] budget'].
  - intros w. destruct (perform_action_completes ids names (run_config st) action active w Ha Hc) as (config & w1 & E1 & Hs & Hw).
    destruct (check_action_completes index action config w1 Hw) as (u & w2 & E2).
    exists (MkRun budget' position config), w2. unfold io_bind. by rewrite E1, E2.
  - apply completes_then; [apply discard_faults_completes|intros _]. by apply completes_ret.
Qed.

Lemma run_trace_completes ids names t :
  Forall (λ s, injectable (sf_fault s)) (faults t) →
  Forall (supported ids names) (actions t) → supports ids names (initial_config t) →
  succeeds (run_trace stack safety convergence t).
Proof.
  intros Hf Ha Hc. unfold run_trace. set (st := MkRun _ _ _).
  assert (supports ids names (run_config st)) as Hst by done. clearbody st. clear Hc.
  assert (Forall (λ e, supported ids names e.2) (imap pair (actions t))) as He.
  { apply Forall_forall. intros [k a] (j & b & [= -> ->] & Hb)%elem_of_lookup_imap_1.
    by eapply (Forall_lookup_1 _ _ _ _ Ha). }
  clear Ha. revert st Hst. induction He as [|[k a] l Ha _ IH]; intros st Hst; cbn [io_fold]; [by apply completes_ret|].
  eapply completes_bind; [by apply (run_action_completes ids names)|]. intros st' Hst'. by apply IH.
Qed.
End completion.

(** *** Generated traces *)

Definition participant_ids (config : ClusterConfig) : list string := pc_id <$> cc_participants config.
Definition cache_listing : listing := ("cache", 2%N, ["cache_0"; "cache_1"]).
Abbreviation default_supported := (supported (participant_ids default_config) [cache_listing]).

Lemma participant_id_known g : (participant_id g).1 ∈ participant_ids default_config.
Proof.
  unfold participant_id. destruct (next_u64 g) as [v g']. cbn [fst].
  assert (v mod 4 = 0 ∨ v mod 4 = 1 ∨ v mod 4 = 2 ∨ v mod 4 = 3)%N as Hv by (pose proof (N.mod_lt v 4 ltac:(done)) as Hlt; generalize dependent (v mod 4)%N; intros; lia).
  destruct Hv as [->|[->|[->| ->]]]; apply (bool_decide_unpack _); vm_compute; exact I.
Qed.

(** A new preference list of the cache: two neighbours of the ring of four nodes. *)
Lemma cache_list_supported v w :
  default_supported (ModifyPreferenceList "cache" ("cache_" +:+ pretty (v mod 2)%N)
    ((λ index : N, node_name ((w mod 4 + index) mod 4 + 1)) <$> [0; 1]%N)).
Proof.
  assert (v mod 2 = 0 ∨ v mod 2 = 1)%N as Hv by (pose proof (N.mod_lt v 2 ltac:(done)); generalize dependent (v mod 2)%N; intros; lia).
  assert (w mod 4 = 0 ∨ w mod 4 = 1 ∨ w mod 4 = 2 ∨ w mod 4 = 3)%N as Hw
    by (pose proof (N.mod_lt w 4 ltac:(done)); generalize dependent (w mod 4)%N; intros; lia).
  exists 2%N, ["cache_0"; "cache_1"]. split; [left|].
  destruct Hv as [->| ->], Hw as [->|[->|[->| ->]]];
    (split; [apply (bool_decide_unpack _); vm_compute; exact I|vm_compute; reflexivity]).
Qed.

Lemma chosen_action_supported g : default_supported (chosen_action g).1.
Proof.
  unfold chosen_action. destruct (next_u64 g) as [v g'].
  destruct (v mod 8)%N as [|p]; [done|]. do 3 (try destruct p as [p|p|]); cbn [fst]; try exact I;
    repeat (destruct (next_u64 _) as [? ?]); try exact I;
    solve [ apply cache_list_supported
          | pose proof (participant_id_known g') as Hp; by destruct (participant_id g')
          | cbn [fst supported]; apply (bool_decide_unpack _); vm_compute; exact I ].
Qed.

Ltac each := repeat apply Forall_cons_2; try apply Forall_nil_2; try done.

Lemma draft_step_supported prof d index :
  Forall default_supported (draft_actions d) → Forall default_supported (draft_actions (draft_step prof d index)).
Proof.
  intros Hd. assert (Forall default_supported (draft_actions (draft_action prof d index))) as Hd'.
  { destruct d as [acts scheduled cf pf g]. unfold draft_action. case_match; [|case_match].
    - destruct (controller_id g) as [id g']. apply Forall_app_2; [done|by each].
    - pose proof (participant_id_known g) as Hp. destruct (participant_id g) as [id g'].
      apply Forall_app_2; [done|by each].
    - pose proof (chosen_action_supported g) as Hp. destruct (chosen_action g) as [a g'].
      apply Forall_app_2; [done|by each]. }
  unfold draft_step, draft_fault. destruct (generated_fault prof index) as [fault|]; [|done].
  destruct (draft_action prof d index) as [acts scheduled cf pf g]. cbn [draft_actions] in *.
  unfold trigger_actions. apply Forall_app_2; [apply Forall_app_2; [done|]|].
  - destruct (requires_fault_hit fault); each; exists 2%N, ["cache_0"; "cache_1"]; (split_and!; [left|left|vm_compute; reflexivity]).
  - destruct (callback_panics fault); each. by left.
Qed.

Lemma drafts_supported prof d l :
  Forall default_supported (draft_actions d) → Forall default_supported (draft_actions (foldl (draft_step prof) d l)).
Proof.
  revert d. induction l as [|i l IH]; intros d Hd; [done|]. cbn [foldl]. by apply IH, draft_step_supported.
Qed.

Lemma startup_supported config names :
  Forall (λ resource, accepted (resource_spec resource)) (cc_resources config) →
  Forall (supported (participant_ids config) names) (startup_actions config).
Proof.
  intros Hr. unfold startup_actions. rewrite !Forall_app, !Forall_fmap. split_and!.
  - by apply Forall_true.
  - apply Forall_forall. intros participant Hin. cbn. by apply list_elem_of_fmap_2.
  - by each.
  - exact Hr.
Qed.

Lemma crush_accepted name partitions replicas :
  name ≠ EmptyString → len partitions ≠ 0%N → replicas ≠ 0%N →
  accepted (resource_spec (MkResourceConfig name partitions replicas ConfigCrush)).
Proof.
  intros Hname H1 H2. unfold accepted, resource_record, resource_spec.
  cbn [spec_name spec_partitions spec_replicas spec_state_model spec_placement rc_name rc_partitions rc_replicas rc_placement].
  unfold or_invalid_key. rewrite (proj2 (ResourceId_new_ok _ (MkResourceId name))) by done. cbn [map_err].
  rewrite (proj2 (N.eqb_neq _ _) H1), (proj2 (N.eqb_neq _ _) H2). by eexists.
Qed.

Lemma scale_accepted participant_count resource_count partition_count config :
  partition_count ≠ 0%N → scale_config participant_count resource_count partition_count = Some config →
  Forall (λ resource, accepted (resource_spec resource)) (cc_resources config).
Proof.
  intros Hn. unfold scale_config. destruct (resource_count =? 0)%N; [done|]. set (each_ := (partition_count / resource_count)%N).
  destruct (each_ * resource_count =? partition_count)%N eqn:Hm; [|done]. apply N.eqb_eq in Hm. intros [= <-]. cbn [cc_resources].
  apply Forall_fmap, Forall_true. intros resource. apply crush_accepted; [done| |done].
  unfold len. rewrite length_fmap, length_seq. intros Hz. apply Hn. rewrite <-Hm. lia.
Qed.

(** Generated faults can be injected. *)
Lemma generated_injectable prof index fault : generated_fault prof index = Some fault → injectable fault.
Proof.
  assert (∀ k, matrix_fault prof index k = Some fault → injectable fault) as Hm.
  { intros k. do 11 (destruct k as [|k]; [cbn [matrix_fault]; by destruct (String.eqb prof "pr"); intros [= <-]|]). done. }
  unfold generated_fault. repeat case_match; first [apply Hm|done].
Qed.

Lemma drafts_injectable prof d l :
  Forall (λ s, injectable (sf_fault s)) (draft_faults d) →
  Forall (λ s, injectable (sf_fault s)) (draft_faults (foldl (draft_step prof) d l)).
Proof.
  revert d. induction l as [|k l IH]; intros d Hd; [done|]. cbn [foldl]. apply IH. unfold draft_step, draft_fault.
  assert (Forall (λ s, injectable (sf_fault s)) (draft_faults (draft_action prof d k))) as Hd'.
  { destruct d as [acts scheduled cf pf g]. unfold draft_action.
    case_match; [by destruct (controller_id g)|]. case_match; [by destruct (participant_id g)|by destruct (chosen_action g)]. }
  destruct (generated_fault prof k) as [fault|] eqn:Hf; [|done].
  destruct (draft_action prof d k) as [acts scheduled cf pf g]. apply Forall_app_2; [done|]. each.
  by eapply generated_injectable.
Qed.

(** A generated trace starts only what its configuration has, creates and changes only
    what the crate accepts, and injects only what can be injected. *)
Lemma generate_supported self prof steps t self' :
  generate self prof steps = Some (t, self') →
  Forall (λ s, injectable (sf_fault s)) (faults t) ∧
  ∃ names, Forall (supported (participant_ids (initial_config t)) names) (actions t) ∧
    supports (participant_ids (initial_config t)) names (initial_config t).
Proof.
  unfold generate. destruct (config_for_profile prof) as [config|] eqn:Hc; [|done].
  assert (Forall (λ resource, accepted (resource_spec resource)) (cc_resources config)) as Hr.
  { unfold config_for_profile in Hc. case_match; [by apply scale_accepted in Hc|]. case_match; [by apply scale_accepted in Hc|].
    injection Hc as <-. repeat constructor; eexists; vm_compute; reflexivity. }
  destruct (is_scale_profile prof) eqn:Hs; intros [= <- _]; cbn [actions initial_config faults].
  - split; [constructor|]. exists []. split; [|by split]. apply Forall_app_2; [by apply startup_supported|by each].
  - split; [by apply drafts_injectable|]. exists [cache_listing]. assert (config = default_config) as ->.
    { unfold config_for_profile, is_scale_profile in *. apply orb_false_iff in Hs as [H1 H2].
      rewrite H1, H2 in Hc. by injection Hc. }
    split.
    + apply drafts_supported. cbn [draft_actions]. apply Forall_app_2; [by apply startup_supported|].
      each; cbn [supported]; apply (bool_decide_unpack _); vm_compute; exact I.
    + split; [done|]. constructor; [|constructor]. eexists _, _. split; [reflexivity|]. split; [reflexivity|]. split; [done|].
      split; [repeat constructor; vm_compute; by eexists|eexists; vm_compute; reflexivity].
Qed.

(** C22: every generated trace is a meaningful test that does not fail on its own account.
    Whatever the seed, the profile and the number of steps, generation returns; every
    fault of the trace points at an action, in the order of the actions, every stopped
    process is started again by the next action, and every fault that must be hit sits
    on the removal of [node-1] from the list it was just put on.  The run of the trace
    returns on every stack that can do what can be done: inject the faults other than
    shifted clocks, store the resources that the crate accepts, and reach, when it waits
    for it, a state that passes the convergence check.  So it never starts a participant
    that the configuration does not have at that action, never changes the preference
    list of a resource that has none, never writes a resource that the crate refuses, and
    never schedules a fault that cannot be injected. *)
Theorem generated_run_completes {World Value Scope} (stack : Stack World Value Scope) safety convergence settled self prof steps :
  obliging stack safety convergence settled →
  ∃ t self', generate self prof steps = Some (t, self') ∧
    trace_wf t ∧ recovered (actions t) ∧ Forall (triggered (actions t)) (faults t) ∧
    ∀ w, ∃ st w', run_trace stack safety convergence t w = (Ok st, w').
Proof.
  intros Hstack. destruct (generate_executable self prof steps) as (t & self' & Hg & Hwf & Hr & Ht & _).
  exists t, self'. do 4 (split; [done|]). intros w. destruct (generate_supported _ _ _ _ _ Hg) as (Hf & names & Ha & Hc).
  destruct (run_trace_completes stack safety convergence settled Hstack _ _ _ Hf Ha Hc w) as (st & w' & Hrun & _). eauto.
Qed.

(** *** A stack that keeps its record

    It refuses what the supervised stack refuses: shifted clocks, and resources that the
    crate does not accept. *)

Abbreviation ex_world := (list (run_event ex_value)).

Definition ex_ask {A} (call : A → StackCall) (a : A) : io ex_world unit := λ w, (Ok tt, w ++ [Asked (call a)]).

Definition ex_put (spec : ResourceSpec) : io ex_world unit := λ w,
  (match resource_record spec with Ok _ => Ok tt | Err _ => Err (InvalidArguments "invalid resource") end,
   w ++ [Asked (AskPutResource spec)]).

Definition ex_activate (fault : Fault) : io ex_world (option Fault) := λ w,
  (match fault with
   | Clock _ (WallForward _ | WallBackward _ | MonotonicOffset _) => Err (InvalidArguments "clock")
   | _ => Ok (Some fault)
   end, w ++ [Asked (AskFault fault)]).

Definition ex_ok {A} (_ : A) : io ex_world unit := io_ret tt.

Definition ex_stack : Stack ex_world ex_value Fault :=
  MkStack _ _ _ (ex_ask AskStartController) (ex_ask AskStopController) (ex_ask AskCrashController)
    (ex_ask AskStartParticipant) (ex_ask AskStopParticipant) (ex_ask AskCrashParticipant)
    (ex_ask AskPutInstance) (ex_ask AskRemoveInstance) ex_put (ex_ask AskPutThrottles) (ex_ask AskSleep)
    (ex_ask (λ _, AskQuiescence) tt) (λ deadline, ex_ask (AskConvergence deadline)) (ex_ask AskIdle)
    ex_activate ex_ok ex_ok (λ _, []) (io_ret ex_snapshot)
    (λ snapshot w, (Ok tt, w ++ [Recorded snapshot])) (λ _ _, ex_ok).

Definition ex_safety : ClusterSnapshot ex_value → list InvariantViolation := check_safety ex_json (λ _, "").
Definition ex_convergence (snapshot : ClusterSnapshot ex_value) (config : ClusterConfig) : list InvariantViolation := [].

(** Settled: the last thing asked for was this configuration. *)
Definition ex_settled (config : ClusterConfig) (w : ex_world) : Prop :=
  ∃ deadline, List.last (Asked AskQuiescence :: w) (Asked AskQuiescence) = Asked (AskConvergence deadline config).

Lemma ex_stack_obliging : obliging ex_stack ex_safety ex_convergence ex_settled.
Proof.
  split; intros; try (intros w; eexists _, _; done); try reflexivity.
  - destruct H as [both Hok]. intros w. eexists _, _. split; [|done]. cbn. unfold ex_put. by rewrite Hok.
  - eexists. split; [reflexivity|]. exists deadline. by rewrite app_comm_cons, List.last_last.
  - intros w. unfold injectable in H. destruct fault; try (eexists _, _; done). destruct perturbation; done || (eexists _, _; done).
  - by exists w.
  - by exists w.
  - exists ex_snapshot, w. split_and!; [done|vm_compute; reflexivity|done].
Qed.

Lemma generated_run_completes_witness : ∃ t self', generate (SeededGenerator_new 7) "pr" 2 = Some (t, self') ∧
  trace_wf t ∧ recovered (actions t) ∧ Forall (triggered (actions t)) (faults t) ∧
  ∀ w, ∃ st w', run_trace ex_stack ex_safety ex_convergence t w = (Ok st, w').
Proof. exact (generated_run_completes ex_stack ex_safety ex_convergence ex_settled _ _ _ ex_stack_obliging). Defined.

Lemma ex_stack_log : keeps_log ex_stack id.
Proof. by split; intros; intros w. Qed.

(** One of the four actions needs the budget, and a fault is offered at two of them. *)
Lemma run_checked_witness : ∃ st w',
  run_trace ex_stack ex_safety ex_convergence ex_trace [] = (Ok st, w') ∧
  cursor st = length (faults ex_trace) ∧ run_budget st = sc_budget (schedule ex_trace) ∧
  run_config st = sc_config (schedule ex_trace) ∧
  ∃ parts, id w' = id [] ++ concat parts ∧ Forall2 (recorded ex_safety) (sc_steps (schedule ex_trace)) parts.
Proof.
  destruct (run_trace ex_stack ex_safety ex_convergence ex_trace []) as [[st|e] w'] eqn:Hrun;
    [|exfalso; revert Hrun; vm_compute; discriminate].
  exists st, w'. split; [reflexivity|].
  exact (run_checked ex_stack ex_safety ex_convergence id ex_trace [] st w' ex_trace_wf ex_stack_log Hrun).
Defined.
