(* ===== verification/Harness.v ===== *)
(** * The harness of a chaos run

    Puts the parts together the way [execute_trace] of
    [tools/clustodian-chaos/src/main.rs] does: the stack on which a trace is run is the
    supervisor with its machine, the faults, the waits, and the clients of the crate.

    No fault outlives its action: between the actions of a run no toxic is left in a
    proxy and no process is stopped, neither in the books of the supervisor nor in the
    machine. *)

From stdpp Require Import pretty.
From S2P Require Import Prelude Identity Keys ControllerRuntime Admin Observe.
From S2P Require Import Chaos Oracle Minimizer Supervisor Faults Waits Execute.

(** ** The stack *)

(** The administration client, the report of the observer process and the files that a
    run appends to. *)
Record Clients (OS Value : Type) := MkClients {
  client_put_instance : ParticipantConfig → io OS unit;
  client_remove_instance : string → io OS unit;
  client_put_resource : ResourceSpec → io OS unit;
  client_put_throttles : list ThrottleSpec → io OS unit;
  reported_violations : OS → list InvariantViolation;
  append_observation : ClusterSnapshot Value → io OS unit;
  append_metrics : nat → Action → ClusterSnapshot Value → io OS unit
}.
Arguments client_put_instance {OS Value}. Arguments client_remove_instance {OS Value}.
Arguments client_put_resource {OS Value}. Arguments client_put_throttles {OS Value}.
Arguments reported_violations {OS Value}. Arguments append_observation {OS Value}. Arguments append_metrics {OS Value}.

Section harness.
Context {OS Value : Type} `{EqDecision Value}.
Context (os : Machine OS) (tools : FaultTools OS) (waits : WaitTools OS Value) (clients : Clients OS Value).
Context (config : SupervisorConfig) (debug_perturbation : ClockPerturbation → string).
Context (safety : ClusterSnapshot Value → list InvariantViolation).
Context (convergence : ClusterSnapshot Value → ClusterConfig → list InvariantViolation).
Abbreviation world := (ProcessSupervisor * OS)%type.

Definition run_snapshot : io OS (ClusterSnapshot Value) :=
  λ w, let '(r, w) := observe waits w in
       (match r with
        | Ok snapshot => Ok snapshot
        | Err error => Err (InvalidArguments ("observer lost connectivity: " +:+ error))
        end, w).

Definition supervised_stack : Stack world Value FaultScope :=
  MkStack world Value FaultScope
    (Supervisor.start_controller os config) (Supervisor.stop_controller os) (Supervisor.crash_controller os)
    (Supervisor.start_participant os config) (Supervisor.stop_participant os) (Supervisor.crash_participant os)
    (λ participant, on_os (client_put_instance clients participant))
    (λ id, on_os (client_remove_instance clients id))
    (λ spec, on_os (client_put_resource clients spec))
    (λ throttles, on_os (client_put_throttles clients throttles))
    (λ milliseconds, on_os (sleep_millis os milliseconds))
    (Waits.wait_for_quiescence os tools waits config)
    (λ deadline cluster, on_os (Waits.wait_for_convergence os waits safety convergence deadline cluster))
    (Waits.assert_idle os waits)
    (Faults.activate_fault os tools config debug_perturbation)
    (Faults.deactivate_fault os tools config)
    (Faults.assert_fault_hit tools)
    (λ w, reported_violations clients w.2)
    (on_os run_snapshot)
    (λ snapshot, on_os (append_observation clients snapshot))
    (λ index action snapshot, on_os (append_metrics clients index action snapshot)).

(** [execute_trace] from the start of the observer on. *)
Definition execute (t : Trace) : io world Run :=
  let^ _ := Supervisor.start_observer os config in
  run_trace supervised_stack safety convergence t.
End harness.

(** * Facts *)

Section containment.
Context {OS Value : Type} `{EqDecision Value}.
Context (os : Machine OS) (tools : FaultTools OS) (waits : WaitTools OS Value) (clients : Clients OS Value).
Context (config : SupervisorConfig) (debug_perturbation : ClockPerturbation → string).
Context (safety : ClusterSnapshot Value → list InvariantViolation).
Context (convergence : ClusterSnapshot Value → ClusterConfig → list InvariantViolation).

(** The clients and the files keep what the machine keeps. *)
Record detached (R : OS → OS → Prop) : Prop := {
  detached_observe : ∀ w, R w (observe waits w).2;
  detached_kind : ∀ file, respects R (callback_kind waits file);
  detached_quiescence : ∀ record, respects R (append_quiescence waits record);
  detached_window : ∀ seconds delta before after, respects R (append_idle_window waits seconds delta before after);
  detached_put_instance : ∀ participant, respects R (client_put_instance clients participant);
  detached_remove_instance : ∀ id, respects R (client_remove_instance clients id);
  detached_put_resource : ∀ spec, respects R (client_put_resource clients spec);
  detached_put_throttles : ∀ throttles, respects R (client_put_throttles clients throttles);
  detached_observation : ∀ snapshot, respects R (append_observation clients snapshot);
  detached_metrics : ∀ index action snapshot, respects R (append_metrics clients index action snapshot)
}.

(** ** Waits and clients *)

Section waiting.
Context (R : OS → OS → Prop) `{!PreOrder R} (Hsteady : steady os tools R) (Hd : detached R).

Lemma respects_observe {A} (f : result (ClusterSnapshot Value) string → result A ChaosError) :
  respects R (λ w, let '(r, w) := observe waits w in (f r, w)).
Proof. intros w. pose proof (detached_observe _ Hd w) as Hw. by destruct (observe waits w). Qed.

Lemma respects_snapshot : respects R (snapshot_or_fail waits).
Proof. apply (respects_observe (λ r, match r with Ok snapshot => Ok snapshot | Err error => Err (InvalidArguments error) end)). Qed.

Lemma respects_run_snapshot : respects R (run_snapshot waits).
Proof.
  apply (respects_observe (λ r, match r with
    | Ok snapshot => Ok snapshot | Err error => Err (InvalidArguments ("observer lost connectivity: " +:+ error)) end)).
Qed.

Lemma respects_hanging : respects R (hanging_or_true os waits config).
Proof.
  intros w. unfold hanging_or_true, callback_is_hanging. destruct (file_exists os _ w); [|done].
  pose proof (detached_kind _ Hd (callback_file config "node-1") w) as H. by destruct (callback_kind waits _ w).
Qed.

Lemma respects_all_running {A} (check : A → OS → bool * OS) l w :
  (∀ x w, R w (check x w).2) → R w (all_running check l w).2.
Proof.
  intros Hc. revert w. induction l as [|x l IH]; intros w; cbn [all_running]; [done|].
  specialize (Hc x w) as Hx. destruct (check x w) as [[] w']; [|done]. cbn [snd] in *. etrans; [exact Hx|apply IH].
Qed.

Lemma respects_inputs s snapshot hanging :
  respects R (λ w, let '(inputs, w) := quiescence_inputs os (Value := Value) s snapshot hanging w in (Ok inputs, w)).
Proof.
  intros w. unfold quiescence_inputs, expected_processes_healthy.
  assert (∀ (children : gmap string N) (listed : string → bool) id w,
    R w (match children !! id with
      | None => (false, w)
      | Some pid => let '(running, w) := child_running os pid w in (running && listed id, w) end).2) as Hcheck.
  { intros children listed id w0. destruct (children !! id) as [pid|]; [|done].
    pose proof (respects_running os tools R Hsteady pid w0) as H. by destruct (child_running os pid w0). }
  match goal with |- context [all_running ?c ?l w] => pose proof (respects_all_running c l w) as H1; destruct (all_running c l w) as [b1 w1] end.
  match goal with |- context [all_running ?c ?l w1] => pose proof (respects_all_running c l w1) as H2; destruct (all_running c l w1) as [b2 w2] end.
  cbn [snd] in *. etrans; [apply H1|apply H2]; intros; apply Hcheck.
Qed.

Lemma respects_sleep_millis d : respects R (sleep_millis os d).
Proof. intros w. apply (steady_sleep _ _ _ Hsteady). Qed.

Lemma respects_record snapshot inputs : respects R (record_inputs os tools waits snapshot inputs).
Proof. intros w. apply (detached_quiescence _ Hd). Qed.

Lemma respects_convergence deadline cluster : respects R (Waits.wait_for_convergence os waits safety convergence deadline cluster).
Proof.
  unfold Waits.wait_for_convergence. apply respects_bind; [done|by apply respects_now|]. intros time.
  match goal with |- respects _ (convergence_loop _ _ _ _ ?n _ _) => induction n as [|fuel IH] end; cbn [convergence_loop]; [by intros w|].
  apply respects_bind; [done|apply respects_snapshot|]. intros snapshot. destruct (safety snapshot); [|by intros w].
  destruct (convergence snapshot cluster); [by intros w|]. apply respects_bind; [done|by apply respects_now|].
  intros time'. case_match; [by intros w|]. apply respects_bind; [done|apply respects_sleep_millis|auto].
Qed.
End waiting.

Abbreviation stack := (supervised_stack os tools waits clients config debug_perturbation safety convergence).

(** ** Toxics *)

Section toxics.
Context (toxics : OS → gset string) (Hproxied : proxied os tools toxics) (Hd : detached (same toxics)).
Abbreviation held := (held toxics).

(** [m] leaves the faults in the hands of the scopes, whether it returns or fails. *)
Definition safe_for {A} (scopes : list FaultScope) (m : io (ProcessSupervisor * OS) A) : Prop :=
  ∀ w, held scopes w → held scopes (m w).2.

Lemma safe_for_bind {A B} scopes (m : io (ProcessSupervisor * OS) A) (k : A → io (ProcessSupervisor * OS) B) :
  safe_for scopes m → (∀ a, safe_for scopes (k a)) → safe_for scopes (io_bind m k).
Proof.
  intros Hm Hk w Hw. unfold io_bind. specialize (Hm w Hw). destruct (m w) as [[a|e] w']; [|done]. by apply Hk.
Qed.

Lemma safe_for_pure {A} scopes (f : ProcessSupervisor * OS → result A ChaosError) : safe_for scopes (λ w, (f w, w)).
Proof. by intros w Hw. Qed.

Lemma safe_for_ret {A} scopes (a : A) : safe_for scopes (io_ret a).
Proof. apply safe_for_pure. Qed.

Lemma safe_for_fail {A} scopes e : safe_for scopes (io_fail (A := A) e).
Proof. apply safe_for_pure. Qed.

Lemma safe_for_gets {A} scopes (f : ProcessSupervisor → A) : safe_for scopes (gets f).
Proof. by intros [s w] Hw. Qed.

Lemma safe_for_both {A} scopes (m : io (ProcessSupervisor * OS) A) :
  keeps (covered scopes) m → keeps_marked toxics m → safe_for scopes m.
Proof. intros Hc Hm [s w] [H1 H2]. split; [by apply Hc|by apply Hm]. Qed.

Lemma safe_for_on_os {A} scopes (m : io OS A) : respects (same toxics) m → safe_for scopes (on_os m).
Proof. intros Hm. apply safe_for_both; [apply keeps_on_os|by apply keeps_marked_on_os]. Qed.

Lemma keeps_covered {A} scopes (m : io (ProcessSupervisor * OS) A) :
  (∀ t u, keeps (faults_are t u) m) → keeps (covered scopes) m.
Proof. intros Hm s w Hc. eapply covered_frame; [|exact Hc]. by apply Hm. Qed.

Lemma safe_for_resume scopes : safe_for scopes (resume_all os).
Proof.
  apply safe_for_both; [|by eapply resume_all_marked]. intros s w [Ht _].
  split; [rewrite resume_all_toxics; done|left; apply resume_all_empties].
Qed.

Create HintDb safe.
Hint Resolve safe_for_bind safe_for_ret safe_for_fail safe_for_gets safe_for_on_os safe_for_resume : safe.
Hint Resolve respects_ret respects_fail respects_pure respects_now respects_sleep_millis respects_snapshot respects_run_snapshot
  respects_hanging respects_inputs respects_record respects_convergence detached_window detached_put_instance
  detached_remove_instance detached_put_resource detached_put_throttles detached_observation detached_metrics
  proxied_steady same_preorder : safe.

Ltac safe := repeat first [solve [auto 4 with safe] | apply safe_for_bind; [|intros ?] | case_match].

Lemma safe_for_quiescence scopes : safe_for scopes (Waits.wait_for_quiescence os tools waits config).
Proof.
  unfold Waits.wait_for_quiescence, millis_or. do 3 (apply safe_for_bind; [auto with safe|intros ?]).
  match goal with |- safe_for _ (quiescence_loop _ _ _ _ ?n ?st ?dl ?since) => generalize since; induction n as [|fuel IH] end;
    intros since; cbn [quiescence_loop]; [apply safe_for_fail|].
  apply safe_for_bind; [|intros [next|]; [apply IH|apply safe_for_ret]].
  unfold quiescence_turn, sample_quiescence, resume_if_needed. safe.
Qed.

Lemma safe_for_idle scopes seconds : safe_for scopes (Waits.assert_idle os waits seconds).
Proof. unfold Waits.assert_idle, millis_or. safe. Qed.

Lemma safe_for_starts scopes id participant crash :
  safe_for scopes (Supervisor.start_controller os config id) ∧ safe_for scopes (Supervisor.start_participant os config participant) ∧
  safe_for scopes (end_controller os id crash) ∧ safe_for scopes (end_participant os id crash).
Proof.
  split_and!; (apply safe_for_both; [apply keeps_covered; intros|]).
  - apply start_controller_faults.
  - by eapply start_controller_marked.
  - apply start_participant_faults.
  - by eapply start_participant_marked.
  - apply end_controller_faults.
  - by eapply end_controller_marked.
  - apply end_participant_faults.
  - by eapply end_participant_marked.
Qed.

(** An action of the driver leaves the active faults to their scopes. *)
Lemma safe_for_action scopes cluster action : safe_for scopes (apply_action stack cluster action).
Proof.
  assert (∀ id, safe_for scopes (Supervisor.start_controller os config id)) as H1 by (intros; by apply (safe_for_starts scopes id (MkParticipantConfig "" "") true)).
  assert (∀ p, safe_for scopes (Supervisor.start_participant os config p)) as H2 by (intros p; by apply (safe_for_starts scopes "" p true)).
  assert (∀ id crash, safe_for scopes (end_controller os id crash)) as H3 by (intros id crash; by apply (safe_for_starts scopes id (MkParticipantConfig "" "") crash)).
  assert (∀ id crash, safe_for scopes (end_participant os id crash)) as H4 by (intros id crash; by apply (safe_for_starts scopes id (MkParticipantConfig "" "") crash)).
  pose proof (safe_for_quiescence scopes) as H5. pose proof (safe_for_idle scopes) as H6.
  destruct action; cbn [apply_action]; unfold start_known; cbn [Execute.start_controller Execute.stop_controller
    Execute.crash_controller Execute.start_participant Execute.stop_participant Execute.crash_participant supervised_stack
    admin_put_instance admin_remove_instance admin_put_resource admin_put_throttles sleep_milliseconds
    Execute.wait_for_quiescence Execute.wait_for_convergence Execute.assert_idle];
    unfold Supervisor.stop_controller, Supervisor.stop_participant, Supervisor.crash_controller, Supervisor.crash_participant; safe.
Qed.

Lemma activate_due_held index pending budget position active w budget' position' active' w' :
  held active w → activate_due stack index pending budget position active w = (Ok (budget', position', active'), w') → held active' w'.
Proof.
  revert budget position active w. induction pending as [|scheduled pending IH]; intros budget position active w Hw; cbn [activate_due].
  { by intros [= _ _ <- <-]. }
  destruct (action_index scheduled =? index)%nat; [|by intros [= _ _ <- <-]].
  destruct (admit_fault budget (sf_fault scheduled)) as [answer budget1]. destruct (is_admitted answer); [|by apply IH].
  intros (scope & w1 & Ha & Hrun)%io_bind_Ok. eapply IH; [|exact Hrun].
  eapply (activate_held os tools config debug_perturbation toxics Hproxied); [exact Hw|exact Ha].
Qed.

(** The scopes are taken from the end. *)
Lemma discard_faults_held l w u w' : held (reverse l) w → discard_faults stack l w = (Ok u, w') → held [] w'.
Proof.
  revert w. induction l as [|scope l IH]; intros w Hw; cbn [discard_faults]; [by intros [= _ <-]|].
  rewrite reverse_cons in Hw. intros (v & w1 & H1 & (v' & w2 & H2 & H3)%io_bind_Ok)%io_bind_Ok. apply (IH w2); [|done].
  assert (held (reverse l) w1) as Hw1 by (eapply (deactivate_held os tools config toxics Hproxied); [exact Hw|exact H1]).
  pose proof (assert_hit_held os tools toxics Hproxied scope _ _ Hw1) as Hw2.
  change (Faults.assert_fault_hit tools scope w1) with (assert_fault_hit stack scope w1) in Hw2. by rewrite H2 in Hw2.
Qed.

Lemma cleanup_keeps_error l e w : (cleanup_faults stack l (Some e) w).1 = Some e.
Proof.
  revert w. induction l as [|scope l IH]; intros w; cbn [cleanup_faults]; [done|].
  destruct (deactivate_fault stack scope w) as [r w1]. apply IH.
Qed.

Lemma cleanup_faults_held l w w' : held (reverse l) w → cleanup_faults stack l None w = (None, w') → held [] w'.
Proof.
  revert w. induction l as [|scope l IH]; intros w Hw; cbn [cleanup_faults]; [by intros [= <-]|]. rewrite reverse_cons in Hw.
  destruct (deactivate_fault stack scope w) as [[v|e] w1] eqn:H1; [|intros Hc; pose proof (cleanup_keeps_error l e w1) as He; by rewrite Hc in He].
  destruct (assert_fault_hit stack scope w1) as [[v'|e] w2] eqn:H2; [|intros Hc; pose proof (cleanup_keeps_error l e w2) as He; by rewrite Hc in He].
  apply IH. assert (held (reverse l) w1) as Hw1 by (eapply (deactivate_held os tools config toxics Hproxied); [exact Hw|exact H1]).
  pose proof (assert_hit_held os tools toxics Hproxied scope _ _ Hw1) as Hw2.
  change (Faults.assert_fault_hit tools scope w1) with (assert_fault_hit stack scope w1) in Hw2. by rewrite H2 in Hw2.
Qed.

Lemma check_action_held index action cluster : safe_for [] (check_action stack safety convergence index action cluster).
Proof.
  assert (∀ l, safe_for [] (first_violation l)) as Hf by (intros []; [apply safe_for_ret|apply safe_for_fail]).
  unfold check_action. cbn [observer_violations take_snapshot record_observation record_metrics supervised_stack].
  apply safe_for_bind; [intros w Hw; by apply Hf|intros _]. apply safe_for_bind; [|intros snapshot].
  - apply safe_for_on_os. by apply respects_run_snapshot.
  - do 2 (apply safe_for_bind; [auto with safe|intros _]). apply safe_for_bind; [apply Hf|intros _].
    destruct action; apply safe_for_ret || apply Hf.
Qed.

Lemma run_action_held t st entry w st' w' :
  held [] w → run_action stack safety convergence t st entry w = (Ok st', w') → held [] w'.
Proof.
  intros Hw. unfold run_action. destruct entry as [index action].
  intros ([[budget position] active] & w1 & Hdue & Hrun)%io_bind_Ok. apply activate_due_held in Hdue; [|done].
  destruct (admit_action budget action) as [[] budget1].
  - apply io_bind_Ok in Hrun as (cluster & w2 & Hp & Hrun). apply io_bind_Ok in Hrun as (u & w3 & Hc & [= _ <-]).
    pose proof (check_action_held index action cluster w2) as Hsafe. rewrite Hc in Hsafe. apply Hsafe. clear Hsafe Hc.
    unfold perform_action in Hp. pose proof (safe_for_action active (run_config st) action w1 Hdue) as Ha.
    destruct (apply_action stack (run_config st) action w1) as [applied w4]. cbn [snd] in Ha.
    destruct (cleanup_faults stack (reverse active) None w4) as [e w5] eqn:Hcl. injection Hp as Hok <-.
    destruct applied; [|done]. destruct e; [done|]. eapply cleanup_faults_held; [|exact Hcl]. by rewrite reverse_involutive.
  - apply io_bind_Ok in Hrun as (u & w2 & Hdis & [= _ <-]). eapply discard_faults_held; [|exact Hdis]. by rewrite reverse_involutive.
Qed.

Lemma run_fold_held t st l w st' w' :
  held [] w → io_fold (run_action stack safety convergence t) st l w = (Ok st', w') → held [] w'.
Proof.
  revert st w. induction l as [|entry l IH]; intros st w Hw; cbn [io_fold]; [by intros [= _ <-]|].
  intros (st1 & w1 & Ha & Hrun)%io_bind_Ok. eapply IH; [|exact Hrun]. by eapply run_action_held.
Qed.

Lemma held_nil s w : held [] (s, w) ↔ calm s ∧ toxics w = ∅.
Proof.
  clear Hproxied Hd. unfold Faults.held, marked. cbn [fst snd]. rewrite covered_nil. unfold calm. split.
  - intros [[Ht Hs] Hm]. rewrite Ht in Hm. set_solver.
  - intros [[Ht Hs] Hm]. rewrite Ht, Hm. done.
Qed.
End toxics.

(** ** Stopped processes *)

Section signals.
Context (stopped : OS → gset N) (Hsignalled : signalled os tools stopped) (Hd : detached (shrinks stopped)).
Abbreviation paces m := (leads_to (paused stopped) m (λ _, paused stopped)).

Lemma paces_bind {A B} (m : io (ProcessSupervisor * OS) A) (k : A → io (ProcessSupervisor * OS) B) :
  paces m → (∀ a, paces (k a)) → paces (io_bind m k).
Proof. intros Hm Hk. by eapply leads_to_bind. Qed.

Lemma paces_on_os {A} (m : io OS A) : respects (shrinks stopped) m → paces (on_os m).
Proof. apply leads_to_on_os, paused_closed. Qed.

Lemma paces_gets {A} (f : ProcessSupervisor → A) : paces (gets f).
Proof. by intros [s w] a w' Hw [= _ <-]. Qed.

Lemma paces_fail {A} e : paces (io_fail (A := A) e).
Proof. apply leads_to_fail. Qed.

Create HintDb paces.
Hint Resolve paces_bind leads_to_ret paces_fail paces_gets paces_on_os : paces.
Hint Resolve respects_ret respects_fail respects_pure respects_now respects_sleep_millis respects_snapshot respects_run_snapshot
  respects_hanging respects_inputs respects_record respects_convergence detached_window detached_put_instance
  detached_remove_instance detached_put_resource detached_put_throttles detached_observation detached_metrics
  signalled_steady shrinks_preorder : paces.

Ltac pace := repeat first [solve [auto 4 with paces] | apply paces_bind; [|intros ?] | case_match].

Lemma quiescence_paces : paces (Waits.wait_for_quiescence os tools waits config).
Proof.
  assert (paces (resume_all os)) as Hresume by by eapply resume_all_paces.
  unfold Waits.wait_for_quiescence, millis_or. do 3 (apply paces_bind; [auto with paces|intros ?]).
  match goal with |- leads_to _ (quiescence_loop _ _ _ _ ?n ?st ?dl ?since) _ => generalize since; induction n as [|fuel IH] end;
    intros since; cbn [quiescence_loop]; [apply leads_to_fail|].
  apply paces_bind; [|intros [next|]; [apply IH|apply leads_to_ret]].
  unfold quiescence_turn, sample_quiescence, resume_if_needed. pace.
Qed.

Lemma idle_paces seconds : paces (Waits.assert_idle os waits seconds).
Proof. unfold Waits.assert_idle, millis_or. pace. Qed.

(** An action that returns leaves no process stopped that does not count as suspended. *)
Lemma action_paces cluster action : paces (apply_action stack cluster action).
Proof.
  assert (∀ id, paces (Supervisor.start_controller os config id)) as H1 by (intros; by eapply start_controller_paces).
  assert (∀ p, paces (Supervisor.start_participant os config p)) as H2 by (intros; by eapply start_participant_paces).
  assert (∀ id crash, paces (end_controller os id crash)) as H3 by (intros; by eapply end_controller_paces).
  assert (∀ id crash, paces (end_participant os id crash)) as H4 by (intros; by eapply end_participant_paces).
  pose proof quiescence_paces as H5. pose proof idle_paces as H6.
  destruct action; cbn [apply_action]; unfold start_known; cbn [Execute.start_controller Execute.stop_controller
    Execute.crash_controller Execute.start_participant Execute.stop_participant Execute.crash_participant supervised_stack
    admin_put_instance admin_remove_instance admin_put_resource admin_put_throttles sleep_milliseconds
    Execute.wait_for_quiescence Execute.wait_for_convergence Execute.assert_idle];
    unfold Supervisor.stop_controller, Supervisor.stop_participant, Supervisor.crash_controller, Supervisor.crash_participant; pace.
Qed.

Lemma deactivate_stack_paces scope : paces (deactivate_fault stack scope).
Proof. cbn [deactivate_fault supervised_stack]. by eapply deactivate_paces. Qed.

Lemma hit_stack_paces scope : paces (assert_fault_hit stack scope).
Proof. cbn [assert_fault_hit supervised_stack]. by eapply assert_hit_paces. Qed.
Hint Resolve deactivate_stack_paces hit_stack_paces : paces.

Lemma activate_due_paces index pending budget position active : paces (activate_due stack index pending budget position active).
Proof.
  revert budget position active. induction pending as [|scheduled pending IH]; intros budget position active; cbn [activate_due];
    [apply leads_to_ret|].
  destruct (action_index scheduled =? index)%nat; [|apply leads_to_ret].
  destruct (admit_fault budget (sf_fault scheduled)) as [answer budget1]. destruct (is_admitted answer); [|apply IH].
  apply paces_bind; [|intros ?; apply IH]. cbn [activate_fault supervised_stack]. by eapply activate_paces.
Qed.

Lemma discard_faults_paces l : paces (discard_faults stack l).
Proof. induction l as [|scope l IH]; cbn [discard_faults]; pace. Qed.

Lemma cleanup_faults_paces l w w' : paused stopped w → cleanup_faults stack l None w = (None, w') → paused stopped w'.
Proof.
  revert w. induction l as [|scope l IH]; intros w Hw; cbn [cleanup_faults]; [by intros [= <-]|].
  destruct (deactivate_fault stack scope w) as [[v|e] w1] eqn:H1; [|intros Hc; pose proof (cleanup_keeps_error l e w1) as He; by rewrite Hc in He].
  destruct (assert_fault_hit stack scope w1) as [[v'|e] w2] eqn:H2; [|intros Hc; pose proof (cleanup_keeps_error l e w2) as He; by rewrite Hc in He].
  apply IH. eapply hit_stack_paces; [|exact H2]. by eapply deactivate_stack_paces.
Qed.

Lemma check_action_paces index action cluster : paces (check_action stack safety convergence index action cluster).
Proof.
  assert (∀ l, paces (first_violation l)) as Hf by (intros []; [apply leads_to_ret|apply leads_to_fail]).
  unfold check_action. cbn [observer_violations take_snapshot record_observation record_metrics supervised_stack].
  apply paces_bind; [intros w a w' Hw; by apply Hf|intros _]. pace.
Qed.

Lemma run_action_paces t st entry : paces (run_action stack safety convergence t st entry).
Proof.
  destruct entry as [index action]. unfold run_action. apply paces_bind; [apply activate_due_paces|].
  intros [[budget position] active]. destruct (admit_action budget action) as [[] budget1].
  - apply paces_bind; [|intros cluster; apply paces_bind; [apply check_action_paces|intros _; apply leads_to_ret]].
    intros w cluster w' Hw. unfold perform_action. destruct (apply_action stack (run_config st) action w) as [applied w1] eqn:Ha.
    destruct (cleanup_faults stack (reverse active) None w1) as [e w2] eqn:Hcl. destruct applied; [|done]. destruct e; [done|].
    intros [= _ <-]. eapply cleanup_faults_paces; [|exact Hcl]. by eapply action_paces.
  - apply paces_bind; [apply discard_faults_paces|intros _; apply leads_to_ret].
Qed.

Lemma run_fold_paces t st l : paces (io_fold (run_action stack safety convergence t) st l).
Proof.
  revert st. induction l as [|entry l IH]; intros st; cbn [io_fold]; [apply leads_to_ret|].
  apply paces_bind; [apply run_action_paces|intros ?; apply IH].
Qed.

(** Nothing counts as suspended: nothing is stopped. *)
Lemma paused_nil s w : suspended s = ∅ → paused stopped (s, w) ↔ stopped w = ∅.
Proof.
  clear Hsignalled Hd. intros Hs. unfold paused. cbn [fst snd]. rewrite Hs. split.
  - intros Hp. apply set_eq. intros pid. split; [|set_solver]. intros (identity & ?%elem_of_empty & _)%Hp. done.
  - intros ->. set_solver.
Qed.
End signals.
End containment.

(** The machine of a run, seen through the toxics of its proxies and its stopped
    processes. *)
Record observable {OS Value} (os : Machine OS) (tools : FaultTools OS) (waits : WaitTools OS Value) (clients : Clients OS Value)
    (toxics : OS → gset string) (stopped : OS → gset N) : Prop := {
  observable_proxied : proxied os tools toxics;
  observable_toxics : detached waits clients (same toxics);
  observable_signalled : signalled os tools stopped;
  observable_stopped : detached waits clients (shrinks stopped)
}.

(** No fault is active: none is marked, no proxy has a toxic, and no process is stopped. *)
Definition at_rest {OS} (toxics : OS → gset string) (stopped : OS → gset N) (w : ProcessSupervisor * OS) : Prop :=
  calm w.1 ∧ toxics w.2 = ∅ ∧ stopped w.2 = ∅.

(** C19: no fault outlives its action.  In a run on the supervised stack, when an action
    with its faults is done the proxies have no toxic and no process is stopped, in the
    proxies and in the machine as in the books of the supervisor; so too at the end of a
    trace that runs through.  The toxics also go when the action itself fails, unless
    undoing them fails.  (A run that fails promises no more: a fault that cannot be
    activated leaves the others of its action in place, and [resume_all] forgets the
    processes after a signal that fails.) *)
Theorem faults_contained {OS Value} `{EqDecision Value} (os : Machine OS) tools (waits : WaitTools OS Value) clients config
    debug_perturbation safety convergence toxics stopped t w :
  let stack := supervised_stack os tools waits clients config debug_perturbation safety convergence in
  observable os tools waits clients toxics stopped → at_rest toxics stopped w →
  (∀ st entry st' w', run_action stack safety convergence t st entry w = (Ok st', w') → at_rest toxics stopped w') ∧
  (∀ st w', execute os tools waits clients config debug_perturbation safety convergence t w = (Ok st, w') →
    at_rest toxics stopped w') ∧
  (∀ index pending budget position budget' position' active w1 cluster action e w2 w',
    activate_due stack index pending budget position [] w = (Ok (budget', position', active), w1) →
    apply_action stack cluster action w1 = (Err e, w2) →
    cleanup_faults stack (reverse active) None w2 = (None, w') → calm w'.1 ∧ toxics w'.2 = ∅).
Proof.
  intros stack [Hp Hdt Hsig Hds] (Hc & Ht & Hst). destruct w as [s w]. cbn [fst snd] in *.
  assert (held toxics [] (s, w)) as Hh by (apply (proj2 (held_nil toxics s w)); done).
  assert (paused stopped (s, w)) as Hpa by (by apply (paused_nil stopped s w (proj2 Hc))).
  assert (∀ w', held toxics [] w' → paused stopped w' → at_rest toxics stopped w') as Hrest.
  { intros [s' w'] Hh' Hp'. apply held_nil in Hh' as [Hc' Ht']. split_and!; [done|done|].
    by apply (paused_nil stopped s' w' (proj2 Hc')). }
  split_and!.
  - intros st entry st' w' Hrun. apply Hrest; [by eapply (run_action_held os tools waits clients)|].
    by eapply (run_action_paces os tools waits clients).
  - intros st w' Hrun. unfold execute in Hrun. apply io_bind_Ok in Hrun as (u & w1 & Ho & Hrun).
    assert (safe_for toxics [] (start_observer os config)) as Hso.
    { apply safe_for_both; [apply keeps_covered; intros; apply start_observer_faults|]. by eapply start_observer_marked. }
    specialize (Hso _ Hh). rewrite Ho in Hso. cbn [snd] in Hso. apply Hrest.
    + by eapply (run_fold_held os tools waits clients).
    + eapply (run_fold_paces os tools waits clients); [done|done| |exact Hrun]. by eapply (start_observer_paces os tools).
  - intros index pending budget position budget' position' active w1 cluster action e w2 [s' w'] Hdue Ha Hcl.
    apply (held_nil toxics s' w'). eapply (cleanup_faults_held os tools waits clients); [done| |exact Hcl].
    rewrite reverse_involutive. eapply (activate_due_held os tools waits clients) in Hdue; [|done..].
    pose proof (safe_for_action os tools waits clients config debug_perturbation safety convergence toxics Hp Hdt
      active cluster action w1 Hdue) as Hs. subst stack. by rewrite Ha in Hs.
Qed.

(** *** A machine with proxies and signals

    Its world is a clock, the toxics, the stopped processes and the next process id; the
    command adds and removes toxics, signals stop and continue processes. *)

Record proxy_os := MkProxyOs { px_clock : N; px_toxics : gset string; px_stopped : gset N; px_next : N }.

Definition px_ok {A B} (b : B) (_ : A) : io proxy_os B := io_ret b.

Definition px_command (program : string) (arguments : list string) : io proxy_os bool :=
  λ w, match arguments with
       | [_; _; _; _; proxy; _; name; _; _; _; _; _; _; _; _; verb] =>
           if String.eqb program "python3" then
             let key := toxic_key proxy name in
             (Ok true, MkProxyOs (px_clock w) (if String.eqb verb "add" then px_toxics w ∪ {[key]} else px_toxics w ∖ {[key]})
                         (px_stopped w) (px_next w))
           else (Ok true, w)
       | _ => (Ok true, w)
       end.

Definition px_signal (signal : string) (pid : N) : io proxy_os bool :=
  λ w, (Ok true, MkProxyOs (px_clock w) (px_toxics w)
                   (if String.eqb signal "-STOP" then px_stopped w ∪ {[pid]}
                    else if String.eqb signal "-CONT" then px_stopped w ∖ {[pid]} else px_stopped w) (px_next w)).

Definition px_machine : Machine proxy_os :=
  MkMachine _ (px_ok tt)
    (λ _ w, (Ok (px_next w), MkProxyOs (px_clock w) (px_toxics w) (px_stopped w) (px_next w + 1)))
    (px_ok None) (px_ok tt) (px_ok tt) px_signal px_clock
    (λ d w, MkProxyOs (px_clock w + d) (px_toxics w) (px_stopped w) (px_next w)) (λ _ _, false) (λ _, px_ok tt) (px_ok tt)
    (λ name _, if String.eqb name "CLUSTODIAN_CHAOS_TOXIPROXY_URL" then Some "http://toxiproxy:8474" else None).

Definition px_tools : FaultTools proxy_os :=
  MkFaultTools _ px_command (λ _, px_ok tt) (px_ok tt) (λ _, None) (px_ok []) 0 (io_ret 9%Z) (λ _ _ _, px_ok tt).

Definition px_snapshot : ClusterSnapshot unit :=
  MkClusterSnapshot 9 8 (Some 8%Z) (MkControllerMembership ["controller-a"] []) {["node-1" := 4%N]} ∅ tt [] [].

Definition px_waits : WaitTools proxy_os unit :=
  MkWaitTools _ _ (λ w, (Ok px_snapshot, w)) (px_ok None) (px_ok tt) (λ _ _, MkProcessMetrics 0 0 0 0 0) (λ _ _ _, px_ok tt).

Definition px_clients : Clients proxy_os unit :=
  MkClients _ _ (px_ok tt) (px_ok tt) (px_ok tt) (px_ok tt) (λ _, []) (px_ok tt) (λ _ _, px_ok tt).

Lemma px_command_other program arguments : length arguments ≠ 16 → ∀ w, (px_command program arguments w).2 = w.
Proof. intros Hlen w. unfold px_command. repeat case_match; done. Qed.

Lemma px_observable : observable px_machine px_tools px_waits px_clients px_toxics px_stopped.
Proof.
  assert (∀ program arguments, length arguments ≠ 16 → respects (same px_toxics) (command px_tools program arguments)) as H1.
  { intros program arguments Hlen w. unfold same. cbn [command px_tools]. by rewrite px_command_other. }
  assert (∀ program arguments, length arguments ≠ 16 → respects (shrinks px_stopped) (command px_tools program arguments)) as H2.
  { intros program arguments Hlen w. unfold shrinks. cbn [command px_tools]. by rewrite px_command_other. }
  split; [split| |split|]; try done; try (by split); try (by split; intros; intros w); try (split; intros; try done; by intros w).
  - intros url request w w'. cbn. intros [= <-]. by destruct (tr_add request).
  - by intros pid w w' [= <-].
  - by intros pid w w' [= <-].
  - intros url request w. unfold shrinks. cbn. by destruct (tr_add request).
  - split; try done; intros; unfold respects, shrinks; set_solver.
Qed.

(** Latency for the controllers, and a participant that is stopped and continued. *)
Definition faulty_trace : Trace :=
  MkTrace 1 7 "nightly" default_config
    [StartController "controller-a"; StartParticipant "node-1"; Wait 50; RequestQuiescence]
    [ MkScheduledFault 1 (Network (TargetController "controller-a") (Latency 100 25) 300);
      MkScheduledFault 2 (Clock "node-1" (Suspend 300)) ].

Definition px_run : io (ProcessSupervisor * proxy_os) Run :=
  execute px_machine px_tools px_waits px_clients quiet_config (λ _, "") (λ _, []) (λ _ _, []) faulty_trace.

Lemma px_run_returns : is_ok (px_run (initial_supervisor, MkProxyOs 5 ∅ ∅ 100)).1 = true.
Proof. vm_compute. reflexivity. Qed.

Lemma px_start_rests : at_rest px_toxics px_stopped (initial_supervisor, MkProxyOs 5 ∅ ∅ 100).
Proof. unfold at_rest, calm. cbn. done. Qed.

Lemma faults_contained_witness : ∃ st w',
  px_run (initial_supervisor, MkProxyOs 5 ∅ ∅ 100) = (Ok st, w') ∧ at_rest px_toxics px_stopped w'.
Proof.
  pose proof px_run_returns as Hok.
  destruct (px_run (initial_supervisor, MkProxyOs 5 ∅ ∅ 100)) as [[st|e] w'] eqn:Hrun; [|discriminate Hok].
  exists st, w'. split; [reflexivity|].
  eapply (faults_contained px_machine px_tools px_waits px_clients quiet_config (λ _, "") (λ _, []) (λ _ _, []) px_toxics px_stopped
    faulty_trace (initial_supervisor, MkProxyOs 5 ∅ ∅ 100) px_observable px_start_rests). exact Hrun.
Defined.
